(* ===== verification/_CoqProject ===== *)
-Q . S2P
Prelude.v
Utf8.v
Mutf8.v
Desc.v
Op.v
ClassIO.v
Format.v
Pool.v
PoolBuilder.v
Code.v
CodeWriter.v
CodeProof.v
CodeCorrect.v
CodeFrame.v
Builder.v
MethodProof.v
MethodLoop.v
MethodStack.v
CodeOperands.v
Attrs.v
Decoder.v
DecoderSafe.v
DecoderRaw.v
PoolLater.v
ClassSpec.v
ClassRead.v
ClassEmit.v
ClassCode.v
ClassTrip.v
ClassRound.v
Token.v
SourceFile.v
SourceMap.v
Scanner.v
ScanProof.v
Ast.v
Parser.v
ParserRun.v
ParseType.v
ParseExpr.v
ParseStmt.v
ParseDecl.v
ParseUnit.v
RunExpr.v
RunDecl.v
ParserTotal.v
ParserStray.v
ParserKeeps.v
ParserReports.v
ParserPrec.v
Sig.v
SigProof.v
Types.v
TypesProof.v
TypesErase.v
Fold.v
FoldProof.v
FoldLit.v
AstWalk.v
Bits.v
BitsSets.v
FlowState.v
Flow.v
FlowRun.v
FlowEnds.v
FlowKeeps.v
FlowFacts.v
FlowCases.v
Sym.v
LowerFlags.v
Emitter.v
LowerExpr.v
LowerStmt.v
LowerKeeps.v
LowerBody.v
LowerSem.v
LowerExprOk.v
LowerTotal.v
LowerStmtOk.v
LowerCases.v
