(* ===== verification/Prelude.v ===== *)
(** * Mocha: a verification development

    Mocha is a Java toolchain in Go: a front end (tokens, scanner, parser), a
    symbol and type layer, an analyzer, a lowering pass, and a class file
    library that the lowering pass writes with and the class path reads with.
    This development models the class file library whole, the front end from
    the bytes of a file to its tree, the core of the type layer, names, flags
    and scopes of the symbol layer, constant folding, the flow analysis and the
    emission of method bodies, and proves what each promises; of the emission,
    that what it compiles computes what the source says.

    ** The parts, and how they interact

    The lowering pass drives [classfile.Builder] with calls; the builder interns
    constants in a [PoolBuilder], assembles each body with a [CodeWriter] and
    writes everything through a [writer].  [classfile.Read] goes the other way:
    a [reader] feeds the pool reader and the attribute decoder, and a client
    walks a body with [Iter] and asks the [Pool].  The front end turns a file
    into a [File] (text, map of escapes, lines), the scanner turns the text
    into tokens and diagnostics, and the parser turns the tokens into a tree and
    more diagnostics.  The type layer reads descriptors and
    signatures out of classes, and answers erasure, descriptors and subtyping.
    The flow analysis walks the bodies of the classes of a unit with what the
    attribution recorded at each node, and reports what is unreachable, read
    before it is assigned, assigned twice, captured while not effectively final,
    thrown and not handled.  The lowering walks the same trees and calls the
    code writer.

    The files follow the Go packages, in the order below.

    - [Prelude]: bytes, machine words, errors as values, results, list lemmas.
    - [Utf8]: unicode/utf8 and unicode/utf16 as far as the code uses them.
    - [Mutf8] (jvm/mutf8), [Desc] (jvm/desc), [Op] (jvm/op): strings of class
      files, descriptors, the table of opcodes.
    - [ClassIO] (classfile/reader.go, writer.go): the bounded reader with its
      sticky error and the writer with back-patching.
    - [Format] (version.go, member.go, attribute.go): versions, flags and the
      table of attributes with their locations.
    - [Pool] (constpool.go), [PoolBuilder] (poolbuilder.go): reading and
      interning constants.
    - [Code] (code.go): the iterator over a code array and its accessors.
    - [CodeWriter] (codewriter.go) with [CodeProof],
      [CodeCorrect], [CodeFrame]: the assembler with labels, widths and stack
      depths; the proofs of what a pass leaves.
    - [Builder] (builder.go) with [MethodProof], [MethodLoop], [MethodStack],
      [CodeOperands]: the class builder and the loop that replays a body until
      every branch fits.
    - [Attrs] (attrs.go), [Decoder] (decoder.go, classfile.go) with
      [DecoderSafe], [DecoderRaw]: the class decoder.
    - [PoolLater], [ClassSpec], [ClassRead], [ClassEmit], [ClassCode],
      [ClassTrip], [ClassRound]: the composition of builder and decoder.
    - [Token] (token/): kinds, keywords, precedences, diagnostics;
      [SourceFile], [SourceMap] (token/file.go): Unicode escapes and the maps
      between text and source; [Scanner], [ScanProof] (scanner/): the scanner.
    - [Ast] (ast/): the tree.  [Parser] (parser/parser.go, speculate.go,
      error.go): cursor, reporting, speculation, recovery, as a state monad;
      [ParseType], [ParseExpr], [ParseStmt], [ParseDecl], [ParseUnit] (the other
      files of parser/): the productions by open recursion over the class [Rec]
      of the methods that close a cycle, and the knot [parsers].
    - [ParserRun] with [RunExpr], [RunDecl],
      [ParserTotal]: a logic of total runs, an instance per method, and
      termination; [ParserKeeps] with [ParserReports]: relations every method
      keeps, and the two the reporter and speculation need; [ParserPrec]:
      precedence; [ParserStray]: inputs on which the parser goes wrong.
    - [Sig], [SigProof] (types/signature.go): the parser of Signature
      attributes; [Types], [TypesProof], [TypesErase] (types/types.go, erase.go,
      subtype.go): types, subtyping, erasure.
    - [Fold], [FoldProof], [FoldLit] (analyzer/attr/fold.go, types/const.go):
      constant expressions.  What attribution recorded for a node is the class
      [Attributed], with the decoders of character and string literals, which
      the package calls and no file defines.
    - [AstWalk] (ast/walk.go): the tree of a node as Walk meets it.
    - [Bits], [BitsSets] (analyzer/flow/bits.go): the bit sets as
      slices of arrays in a store, with lengths, capacities and aliasing (class
      [Runtime]: the capacity append chooses); states and conditions.
    - [FlowState] (flow.go, capture.go): contexts, reports and the monad; the
      class [Attribution] is what the analysis asks of attribution, symbols and
      types.  [Flow]: every statement, expression, condition, try, switch,
      loop, lambda and class of analyzer/flow, by open recursion over the class
      [Walks], and the knot [walks].
    - [FlowRun], [FlowEnds]: total runs and termination; [FlowKeeps],
      [FlowFacts]: the relation every walk keeps and what follows from it;
      [FlowCases]: a class analysed, and the witnesses of these files.
    - [Sym] (sym/name.go, flags.go, scope.go, sym.go): names, flags,
      kinds and scopes.  [LowerFlags] (lower/flags.go): access flags.
    - [Emitter] (lower/lower.go, slot.go, stmt.go, item.go): the state of the
      emission of a body (its calls to the code writer so far, labels, slots,
      frames, finally blocks) and its monad; the classes [Program] (what
      attribution, the symbols and the types answer) and [Site] (what pass one
      decided of the class at work).  [LowerExpr] (convert.go, item.go, cond.go,
      expr.go, string.go) and [LowerStmt] (stmt.go, bridge.go, capture.go,
      lambda.go): every expression, condition and statement, constructors,
      bridges and accessors, by open recursion over the class [Emits], and the
      knot [emits].  The class [Missing] holds what the package uses and no file
      of it defines.
    - [LowerKeeps]: what every emission adds to the calls, an instance per
      function; [LowerBody]: what the code writer makes of them.
    - [LowerSem]: a machine for the calls, and an evaluator of the language
      where every type is boolean or integral: locals, constants, operators,
      conditions, assignments, conversions, blocks, [if] and [return].
      [LowerExprOk]: expressions and conditions of this part compute;
      [LowerTotal]: its bodies are emitted; [LowerStmtOk]: statements and bodies
      compute.  [LowerCases]: bodies lowered, assembled and run, and the
      witnesses of these files.

    ** How the code is rendered

    A Go string and a byte slice are lists of [Z]; [int] values keep their
    width where the code can overflow ([u8], [u16], [u32], [s16], [s32]), and
    lengths are [Z].  Errors are values of [goerror]; a function returning
    [(T, error)] answers a [result].  State is threaded explicitly; a method
    that may panic (an index out of range, a nil dereference) answers an
    [option] or a type with a panic constructor, and a theorem states that the
    panic is not reached.  Maps are [gmap]s.  A pointer whose identity matters
    (a label, a class symbol, a type variable) is a key into a store.  A body
    passed as a closure is the list of calls it makes.

    A loop that is not structural takes fuel: the count of entries in
    [readPool]; one round per byte for [walk], [translate], the scanner's loops
    and the signature parser; the number of calls for the replays of [Code],
    which the program bounds by [maxReplays] = 10; nesting 2 for attributes,
    since a Code table holds no Code; the depth of a type plus the number of
    classes for subtyping.  The methods of the parser nest at most three calls
    per token through [Rec], and their loops go round once per token, per
    recovery (at most a hundred) and per level of nesting (at most a thousand).
    The walks of the flow analysis nest three calls per level of the tree; a
    fixpoint of a loop goes round at most once per bit of the entry state,
    since a round that is not the last clears one ([settled]).  The emission of
    a body nests one call per level of the tree ([emits n]); a theorem about it
    is about every [n] with which it is done, and [bodies_compute] shows that
    the height of the tree is enough.
    For each a theorem says that this much is enough: [walk_tiles],
    [replays_converge], [read_total], [scan_covers], [translate_refines],
    [signature_grammar], [subtyping_decides], [supers_exact],
    [ParseFile_ends], [analysis_ends], [bodies_compute].

    ** What the theorems show

    - Round trip of a class: [class_roundtrip], that whatever was built is what
      is read, which rests on [pool_roundtrip], [write_read_roundtrip],
      [attr_spec], [decode_encode], [Code_assembles] and, for single
      instructions, [locals_read_back] (and the lemmas [iinc_read_back],
      [iconst_read_back]).
    - The assembler: [Code_assembles], [Code_total], [replays_converge],
      [depths_agree], and the lemmas [Code_handlers] and [invert_negates].
    - The reader on hostile input: [read_total], [readPool_ok], [walk_tiles],
      [read_sticky], [keep_raw_exact], [check_iff], and the lemmas
      [PoolHandle_iff], [accessors_safe] and [lookups_stateless].
    - The front end: [translate_refines], [spans_exact], [position_exact],
      [scan_covers]; of the parser, [ParseFile_ends] (it ends, on every text),
      [expressions_nest] (precedence and associativity), [parse_reports] and
      [failed_attempts_restore] (the discipline of the reporter).
    - Descriptors, signatures and types: [parsers_exact], [signature_grammar],
      [subtyping_decides], [method_descriptor], and the lemma [supers_exact].
    - Symbols: [scopes_refine], [flags_roundtrip], and the lemma
      [resolution_innermost].
    - The emission of bodies: [bodies_compute] and [conditions_branch] (what is
      emitted does what the language says), and [lowered_bodies_close], which
      with the lemma [Code_runs] joins it to the assembler, for bodies whose
      emission comes to no [switch] and no [assert]: [switchStmt] and
      [needAssertions] have no definition.
    - Constant expressions: [fold_integers_java], [constants_in_range] (folding
      makes no constant out of range, whatever those of the variables are),
      [literal_roundtrip], and the lemma [casts_change_type].
    - The flow analysis: [bits_are_sets] (the bit sets refine sets of numbers),
      [analysis_ends], [scopes_kept].
    - Where the code does not do what it says: [stray_brace_spins],
      [array_field_spins], [parameterless_method_reports], [while_refused],
      [try_refused], and the lemmas [assign_visible],
      [class_literal_drops_type], [body_offset_is_relative],
      [casts_change_type], [circular_bound_spins], [module_tail_dropped], [unplaced_handler_accepted],
      [check_minor_65535_below_56].

    ** Not modelled

    Packages that are files, archives, sockets and flags (android/sdk,
    android/adb, cmd/mocha and classpath) have little content a kernel can
    check.  Of ast, Dump prints by reflection; the arena of the parser has no
    counterpart, since nodes are values.  The tables of sym and types complete
    classes on demand, under locks and from the class path: what they answer is
    an interface ([Table], [Program], [Attribution]).  Attribution proper, of
    which constant folding is modelled, infers and resolves over these tables,
    and the package uses functions that no file defines, as lower does; the
    warnings walk attributed trees.  Pass one of the lowering (the declaration
    of members, the choice of captures, lambdas and bridges) is the class
    [Site].  The machine of [LowerSem] leaves out floats, references, calls and
    backward jumps, so [bodies_compute] does; loops and [try] are in
    [while_refused] and [try_refused].

    The rest of this file is the shared vocabulary of every component: byte
    strings, machine words, errors as values, the result monad, and the list
    and bit lemmas the components use. *)
From stdpp Require Export base tactics numbers list strings gmap.
From Stdlib Require Export ZArith Lia Ascii.

#[global] Open Scope Z_scope.

(** ** Byte strings

    A Go [string] and a Go byte slice are both a list of bytes, each a [Z] in
    [0, 256).  [bs] spells a Go string literal. *)

Abbreviation bytes := (list Z).

Definition is_byte (b : Z) : bool := (0 <=? b) && (b <? 256).

Definition bytes_ok (l : bytes) : Prop := Forall (fun b => 0 <= b < 256) l.

Definition byte_of_ascii (a : ascii) : Z := Z.of_N (N_of_ascii a).

Fixpoint bs (s : string) : bytes :=
  match s with
  | EmptyString => []
  | String a s' => byte_of_ascii a :: bs s'
  end.

(** [len] is Go's [len], an [int]. *)
Definition len {A} (l : list A) : Z := Z.of_nat (length l).

(** ** Machine words *)

Definition u8 (x : Z) : Z := x mod 2 ^ 8.
Definition u16 (x : Z) : Z := x mod 2 ^ 16.
Definition u32 (x : Z) : Z := x mod 2 ^ 32.
Definition u64 (x : Z) : Z := x mod 2 ^ 64.
Definition s8 (x : Z) : Z := (x + 2 ^ 7) mod 2 ^ 8 - 2 ^ 7.
Definition s16 (x : Z) : Z := (x + 2 ^ 15) mod 2 ^ 16 - 2 ^ 15.
Definition s32 (x : Z) : Z := (x + 2 ^ 31) mod 2 ^ 32 - 2 ^ 31.
Definition s64 (x : Z) : Z := (x + 2 ^ 63) mod 2 ^ 64 - 2 ^ 63.

(** ** Errors as values

    An error built by [fmt.Errorf] is its format and its arguments, unrendered;
    [AErr] is an error given to a [%v] verb. *)
Inductive goerror : Set :=
  | Errorf (format : string) (args : list errarg)
with errarg : Set :=
  | ANum (n : Z)
  | AStr (s : bytes)
  | AText (s : string)
  | AErr (e : goerror).

Inductive result (E A : Type) :=
  | Ok (a : A)
  | Err (e : E).
Arguments Ok {E A} a.
Arguments Err {E A} e.

#[global] Instance result_ret E : MRet (result E) := fun _ a => Ok a.
#[global] Instance result_bind E : MBind (result E) :=
  fun _ _ k m => match m with Ok a => k a | Err e => Err e end.

Definition is_ok {E A} (r : result E A) : bool :=
  match r with Ok _ => true | Err _ => false end.

Lemma bind_ok_inv {E A B} (m : result E A) (k : A -> result E B) b :
  (m ≫= k) = Ok b -> exists a, m = Ok a /\ k a = Ok b.
Proof. destruct m; simpl; [eauto | discriminate]. Qed.

Lemma bind_err_inv {E A B} (m : result E A) (k : A -> result E B) e :
  (m ≫= k) = Err e -> m = Err e \/ exists a, m = Ok a /\ k a = Err e.
Proof. destruct m; simpl; [eauto | intros [= ->]; auto]. Qed.

(** [bind_inv] takes a hypothesis [m ≫= k = Ok b] apart. *)
Ltac bind_inv H :=
  let a := fresh "a" in let E := fresh "E" in
  apply bind_ok_inv in H as (a & E & H).

(** ** Hint databases *)

Create HintDb mocha.
Create Rewrite HintDb mocha.
Create HintDb words.
Create Rewrite HintDb words.

(** ** Boolean tests *)

(** [bool_case] splits one boolean test of the goal; [to_Z] turns the boolean
    tests among the hypotheses into arithmetic. *)
Ltac bool_case :=
  match goal with
  | |- context [if ?b then _ else _] =>
      let E := fresh "E" in destruct b eqn:E
  end.
Ltac to_Z :=
  repeat match goal with
  | H : (_ && _)%bool = true |- _ => apply andb_prop in H as [? ?]
  | H : (_ && _)%bool = false |- _ => apply andb_false_iff in H
  | H : (_ || _)%bool = true |- _ => apply orb_prop in H
  | H : (_ || _)%bool = false |- _ => apply orb_false_elim in H as [? ?]
  | H : (_ =? _) = true |- _ => apply Z.eqb_eq in H
  | H : (_ =? _) = false |- _ => apply Z.eqb_neq in H
  | H : (_ <=? _) = true |- _ => apply Z.leb_le in H
  | H : (_ <=? _) = false |- _ => apply Z.leb_gt in H
  | H : (_ <? _) = true |- _ => apply Z.ltb_lt in H
  | H : (_ <? _) = false |- _ => apply Z.ltb_ge in H
  | H : negb _ = true |- _ => apply negb_true_iff in H
  | H : negb _ = false |- _ => apply negb_false_iff in H
  end.

(** [zlia] is [lia] with division and modulo; a file adds the constants it
    wants unfolded to [zlia_pre]. *)
Ltac zlia_pre := idtac.
Ltac zlia := zlia_pre; Z.to_euclidean_division_equations; lia.

(** [decide_tests] rewrites the tests of the goal that arithmetic decides. *)
Ltac decide_tests :=
  repeat match goal with
  | |- context [(?a <=? ?b)] =>
      first [ rewrite (proj2 (Z.leb_le a b)) by zlia | rewrite (proj2 (Z.leb_gt a b)) by zlia ]
  | |- context [(?a <? ?b)] =>
      first [ rewrite (proj2 (Z.ltb_lt a b)) by zlia | rewrite (proj2 (Z.ltb_ge a b)) by zlia ]
  | |- context [(?a =? ?b)] =>
      first [ rewrite (proj2 (Z.eqb_eq a b)) by zlia | rewrite (proj2 (Z.eqb_neq a b)) by zlia ]
  end; cbn [andb orb negb].

(** ** Words: ranges and round trips *)

Ltac unfold_words := unfold u8, u16, u32, u64, s8, s16, s32, s64 in *.

(** [word_lia]: linear arithmetic over the word operations. *)
Ltac word_lia := unfold_words; change (2 ^ 8) with 256 in *; change (2 ^ 7) with 128 in *;
  change (2 ^ 16) with 65536 in *; change (2 ^ 15) with 32768 in *;
  change (2 ^ 32) with 4294967296 in *; change (2 ^ 31) with 2147483648 in *;
  change (2 ^ 64) with 18446744073709551616 in *;
  change (2 ^ 63) with 9223372036854775808 in *;
  Z.to_euclidean_division_equations; lia.

Lemma u8_range x : 0 <= u8 x < 256.
Proof. word_lia. Qed.
Lemma u16_range x : 0 <= u16 x < 65536.
Proof. word_lia. Qed.
Lemma u32_range x : 0 <= u32 x < 4294967296.
Proof. word_lia. Qed.
Lemma s32_range x : -2147483648 <= s32 x < 2147483648.
Proof. word_lia. Qed.
Lemma u8_id x : 0 <= x < 256 -> u8 x = x.
Proof. intros; word_lia. Qed.
Lemma u16_id x : 0 <= x < 65536 -> u16 x = x.
Proof. intros; word_lia. Qed.
Lemma u32_id x : 0 <= x < 4294967296 -> u32 x = x.
Proof. intros; word_lia. Qed.
Lemma s32_id x : -2147483648 <= x < 2147483648 -> s32 x = x.
Proof. intros; word_lia. Qed.
Lemma s16_id x : -32768 <= x < 32768 -> s16 x = x.
Proof. intros; word_lia. Qed.
Lemma s8_id x : -128 <= x < 128 -> s8 x = x.
Proof. intros; word_lia. Qed.
Lemma s32_u32 x : s32 (u32 x) = s32 x.
Proof. word_lia. Qed.
Lemma s16_u16 x : s16 (u16 x) = s16 x.
Proof. word_lia. Qed.
Lemma s8_u8 x : s8 (u8 x) = s8 x.
Proof. word_lia. Qed.
Lemma u32_s32 x : u32 (s32 x) = u32 x.
Proof. word_lia. Qed.

#[export] Hint Resolve u8_range u16_range u32_range s32_range : words.
#[export] Hint Rewrite s32_u32 s16_u16 s8_u8 u32_s32 : words.

(** ** Bits

    Every mask in the program is either a run of low ones, or a byte test that
    is settled by going through the 256 bytes. *)

Lemma land_shiftl_low a b n :
  0 <= n -> 0 <= b < 2 ^ n -> Z.land (Z.shiftl a n) b = 0.
Proof.
  intros Hn Hb. apply Z.bits_inj'. intros k Hk.
  rewrite Z.land_spec, Z.bits_0. destruct (Z.lt_ge_cases k n).
  - rewrite Z.shiftl_spec_low by lia. reflexivity.
  - rewrite <- (Z.mod_small b (2 ^ n)) by lia.
    rewrite Z.mod_pow2_bits_high by lia. apply andb_false_r.
Qed.

Lemma lor_shiftl_add a b n :
  0 <= n -> 0 <= b < 2 ^ n -> Z.lor (Z.shiftl a n) b = a * 2 ^ n + b.
Proof.
  intros Hn Hb. pose proof (Z.add_lor_land (Z.shiftl a n) b) as H.
  rewrite land_shiftl_low, Z.shiftl_mul_pow2 in * by lia. lia.
Qed.

(** [lor_add n] turns [Z.lor c b], [c] a multiple of [2 ^ n], into a sum. *)
Lemma lor_add n a b :
  0 <= n -> 0 <= b < 2 ^ n -> a mod 2 ^ n = 0 -> Z.lor a b = a + b.
Proof.
  intros Hn Hb Ha. pose proof (lor_shiftl_add (a / 2 ^ n) b n Hn Hb) as H.
  rewrite Z.shiftl_mul_pow2 in H by lia.
  pose proof (Z.div_mod a (2 ^ n)). assert (0 < 2 ^ n) by lia.
  rewrite (Z.mul_comm (a / 2 ^ n)) in H. replace (2 ^ n * (a / 2 ^ n)) with a in H by lia.
  exact H.
Qed.

Lemma land_low n a : 0 <= n -> Z.land a (2 ^ n - 1) = a mod 2 ^ n.
Proof.
  intros. rewrite Z.sub_1_r, <- Z.ones_equiv. apply Z.land_ones. lia.
Qed.

(** The 256 bytes, for facts settled by computation. *)
Definition all_bytes : list Z := seqZ 0 256.

Lemma byte_forall (P : Z -> bool) x :
  forallb P all_bytes = true -> 0 <= x < 256 -> P x = true.
Proof.
  intros H Hx. rewrite forallb_forall in H. apply H.
  apply list_elem_of_In. unfold all_bytes. apply elem_of_seqZ. lia.
Qed.

Lemma seqZ_forall (P : Z -> bool) n x :
  forallb P (seqZ 0 n) = true -> 0 <= x < n -> P x = true.
Proof.
  intros H Hx. rewrite forallb_forall in H. apply H.
  apply list_elem_of_In. apply elem_of_seqZ. lia.
Qed.

(** ** Lists *)

Lemma len_nil {A} : len (@nil A) = 0.
Proof. reflexivity. Qed.
Lemma len_cons {A} (x : A) l : len (x :: l) = 1 + len l.
Proof. unfold len. simpl. lia. Qed.
Lemma len_app {A} (l k : list A) : len (l ++ k) = len l + len k.
Proof. unfold len. rewrite length_app. lia. Qed.
Lemma len_nonneg {A} (l : list A) : 0 <= len l.
Proof. unfold len. lia. Qed.
Lemma len_replicate {A} n (x : A) : len (replicate n x) = Z.of_nat n.
Proof. unfold len. rewrite length_replicate. lia. Qed.
#[export] Hint Rewrite @len_nil @len_cons @len_app @len_replicate : mocha.
#[export] Hint Resolve @len_nonneg : mocha.

Lemma bytes_ok_app l k : bytes_ok (l ++ k) <-> bytes_ok l /\ bytes_ok k.
Proof. unfold bytes_ok. rewrite Forall_app. reflexivity. Qed.
Lemma bytes_ok_cons b l : bytes_ok (b :: l) <-> 0 <= b < 256 /\ bytes_ok l.
Proof. unfold bytes_ok. rewrite Forall_cons. reflexivity. Qed.
Lemma bytes_ok_nil : bytes_ok [].
Proof. constructor. Qed.
#[export] Hint Resolve bytes_ok_nil : mocha.

Lemma bytes_ok_dec l : forallb is_byte l = true -> bytes_ok l.
Proof.
  rewrite forallb_forall. intros H. apply Forall_forall. intros b Hb. apply list_elem_of_In in Hb.
  apply H in Hb. unfold is_byte in Hb. apply andb_prop in Hb as [H1 H2].
  apply Z.leb_le in H1. apply Z.ltb_lt in H2. lia.
Qed.

(** A Go index expression on a slice: [b[i]], in range by hypothesis or by the
    code's own bounds check; out of range the model has no value. *)
Definition at_ {A} (l : list A) (i : Z) : option A :=
  if i <? 0 then None else l !! Z.to_nat i.

(** [l[lo:hi]]. *)
Definition slice {A} (l : list A) (lo hi : Z) : list A :=
  take (Z.to_nat (hi - lo)) (drop (Z.to_nat lo) l).

Lemma slice_app {A} (pre mid post : list A) lo hi :
  lo = len pre -> hi = len pre + len mid -> slice (pre ++ mid ++ post) lo hi = mid.
Proof.
  intros -> ->. unfold slice, len. rewrite Nat2Z.id, drop_app_length.
  replace (Z.to_nat _) with (length mid) by lia. apply take_app_length.
Qed.

Lemma nth_lookup_default {A} (l : list A) i d x : l !! i = Some x -> nth i l d = x.
Proof. intros H. apply nth_lookup_Some with (d := d) in H. exact H. Qed.

Lemma slice_cut {A} (b : list A) lo m hi : 0 <= lo <= m -> m <= hi -> slice b lo m ++ slice b m hi = slice b lo hi.
Proof.
  intros H1 H2. unfold slice. replace (Z.to_nat m) with (Z.to_nat lo + Z.to_nat (m - lo))%nat by lia.
  rewrite <- drop_drop. replace (Z.to_nat (hi - lo)) with (Z.to_nat (m - lo) + Z.to_nat (hi - m))%nat by lia.
  apply take_take_drop.
Qed.
