(* ===== verification/Utf8.v ===== *)
(** * Go's standard [unicode/utf8] and [unicode/utf16]

    What the program uses of the standard library's encoders: [DecodeRune],
    [AppendRune], the [range] loop over a string, and the UTF-16 surrogate
    arithmetic.  The components state their round trips over these. *)
From S2P Require Import Prelude.

Definition RuneError : Z := 0xFFFD.
Definition RuneSelf : Z := 0x80.

(** A Unicode scalar value. *)
Definition valid_rune (r : Z) : bool :=
  ((0 <=? r) && (r <? 0xD800)) || ((0xE000 <=? r) && (r <=? 0x10FFFF)).

Definition is_cont (b : Z) : bool := (0x80 <=? b) && (b <=? 0xBF).

(** The accept range of the second byte, by the first byte. *)
Definition second_ok (b0 b1 : Z) : bool :=
  if b0 =? 0xE0 then (0xA0 <=? b1) && (b1 <=? 0xBF)
  else if b0 =? 0xED then (0x80 <=? b1) && (b1 <=? 0x9F)
  else if b0 =? 0xF0 then (0x90 <=? b1) && (b1 <=? 0xBF)
  else if b0 =? 0xF4 then (0x80 <=? b1) && (b1 <=? 0x8F)
  else is_cont b1.

(** [utf8.DecodeRune]: the first rune and its width; (RuneError, 0) on an empty
    input and (RuneError, 1) on an invalid encoding. *)
Definition DecodeRune (p : bytes) : Z * Z :=
  match p with
  | [] => (RuneError, 0)
  | b0 :: t =>
    if b0 <? 0x80 then (b0, 1)
    else if (0xC2 <=? b0) && (b0 <=? 0xDF) then
      match t with
      | b1 :: _ => if is_cont b1 then ((b0 - 0xC0) * 64 + (b1 - 0x80), 2) else (RuneError, 1)
      | _ => (RuneError, 1)
      end
    else if (0xE0 <=? b0) && (b0 <=? 0xEF) then
      match t with
      | b1 :: b2 :: _ =>
        if second_ok b0 b1 && is_cont b2
        then ((b0 - 0xE0) * 4096 + (b1 - 0x80) * 64 + (b2 - 0x80), 3) else (RuneError, 1)
      | _ => (RuneError, 1)
      end
    else if (0xF0 <=? b0) && (b0 <=? 0xF4) then
      match t with
      | b1 :: b2 :: b3 :: _ =>
        if second_ok b0 b1 && is_cont b2 && is_cont b3
        then ((b0 - 0xF0) * 262144 + (b1 - 0x80) * 4096 + (b2 - 0x80) * 64 + (b3 - 0x80), 4)
        else (RuneError, 1)
      | _ => (RuneError, 1)
      end
    else (RuneError, 1)
  end.

(** [utf8.AppendRune] without its destination: an invalid rune is encoded as
    [RuneError]. *)
Definition AppendRune (r : Z) : bytes :=
  let r := if valid_rune r then r else RuneError in
  if r <=? 0x7F then [r]
  else if r <=? 0x7FF then [0xC0 + r / 64; 0x80 + r mod 64]
  else if r <=? 0xFFFF then [0xE0 + r / 4096; 0x80 + r / 64 mod 64; 0x80 + r mod 64]
  else [0xF0 + r / 262144; 0x80 + r / 4096 mod 64; 0x80 + r / 64 mod 64; 0x80 + r mod 64].

(** The runes a [for _, r := range s] loop visits.  [skip] counts the bytes of
    the current rune still to be passed over. *)
Fixpoint runes_from (skip : nat) (s : bytes) : list Z :=
  match s with
  | [] => []
  | _ :: s' =>
    match skip with
    | S k => runes_from k s'
    | O => let '(r, n) := DecodeRune s in r :: runes_from (Z.to_nat (n - 1)) s'
    end
  end.

Definition runes (s : bytes) : list Z := runes_from 0 s.

(** [string(rs)]. *)
Definition of_runes (rs : list Z) : bytes := flat_map AppendRune rs.

(** Whether a string is valid UTF-8 ([utf8.ValidString]). *)
Definition valid_string (s : bytes) : Prop := exists rs, Forall (fun r => valid_rune r = true) rs /\ s = of_runes rs.

(** [utf16]. *)
Definition surr1 : Z := 0xD800.
Definition surr2 : Z := 0xDC00.
Definition surr3 : Z := 0xE000.

Definition IsSurrogate (r : Z) : bool := (surr1 <=? r) && (r <? surr3).

Definition DecodePair (r1 r2 : Z) : Z :=
  if (surr1 <=? r1) && (r1 <? surr2) && (surr2 <=? r2) && (r2 <? surr3)
  then (r1 - surr1) * 1024 + (r2 - surr2) + 0x10000
  else RuneError.

Definition EncodePair (r : Z) : Z * Z :=
  if (r <? 0x10000) || (0x10FFFF <? r) then (RuneError, RuneError)
  else let r := r - 0x10000 in (surr1 + r / 1024, surr2 + r mod 1024).

(** ** Lemmas *)

Ltac zlia_pre ::= unfold RuneError, RuneSelf, surr1, surr2, surr3 in *.

Lemma valid_rune_iff r :
  valid_rune r = true <-> 0 <= r < 0xD800 \/ 0xE000 <= r <= 0x10FFFF.
Proof. unfold valid_rune. lia. Qed.

(** The rune [AppendRune] really encodes. *)
Definition sane (r : Z) : Z := if valid_rune r then r else RuneError.

Lemma sane_valid r : valid_rune (sane r) = true.
Proof. unfold sane. destruct (valid_rune r) eqn:E; [exact E | reflexivity]. Qed.
#[export] Hint Resolve sane_valid : mocha.

Lemma AppendRune_sane r : AppendRune (sane r) = AppendRune r.
Proof. unfold AppendRune. fold (sane r). fold (sane (sane r)).
  replace (sane (sane r)) with (sane r); [reflexivity|].
  unfold sane at 2. rewrite sane_valid. reflexivity. Qed.

Lemma DecodeRune_AppendRune r s :
  valid_rune r = true -> DecodeRune (AppendRune r ++ s) = (r, len (AppendRune r)).
Proof.
  intros Hr. unfold AppendRune. rewrite Hr. apply valid_rune_iff in Hr.
  destruct (Z.leb_spec r 0x7F); [|destruct (Z.leb_spec r 0x7FF); [|destruct (Z.leb_spec r 0xFFFF)]];
    cbn [app DecodeRune]; autorewrite with mocha.
  - decide_tests. reflexivity.
  - unfold is_cont. decide_tests. f_equal. zlia.
  - unfold second_ok, is_cont.
    destruct (Z.eqb_spec (0xE0 + r / 4096) 0xE0), (Z.eqb_spec (0xE0 + r / 4096) 0xED);
      decide_tests; f_equal; zlia.
  - unfold second_ok, is_cont.
    destruct (Z.eqb_spec (0xF0 + r / 262144) 0xF0), (Z.eqb_spec (0xF0 + r / 262144) 0xF4);
      decide_tests; f_equal; zlia.
Qed.

Lemma AppendRune_ascii r : 0 <= r < 0x80 -> AppendRune r = [r].
Proof.
  intros. unfold AppendRune. rewrite (proj2 (valid_rune_iff r)) by lia. decide_tests. reflexivity.
Qed.

Lemma AppendRune_surrogate r : IsSurrogate r = true -> AppendRune r = AppendRune RuneError.
Proof.
  intros H. rewrite <- AppendRune_sane. unfold sane, valid_rune, IsSurrogate in *.
  to_Z. decide_tests. reflexivity.
Qed.

Lemma AppendRune_nonempty r : exists b t, AppendRune r = b :: t.
Proof.
  unfold AppendRune. fold (sane r). cbv zeta.
  repeat (bool_case; [eauto|]). eauto.
Qed.

Lemma AppendRune_bytes_ok r : bytes_ok (AppendRune r).
Proof.
  rewrite <- AppendRune_sane. pose proof (sane_valid r) as Hr.
  unfold AppendRune. rewrite Hr. apply valid_rune_iff in Hr.
  cbv zeta. repeat bool_case; to_Z; repeat (apply bytes_ok_cons; split; [zlia|]); apply bytes_ok_nil.
Qed.
#[export] Hint Resolve AppendRune_bytes_ok : mocha.

Lemma of_runes_bytes_ok rs : bytes_ok (of_runes rs).
Proof.
  induction rs; cbn; [apply bytes_ok_nil|]. apply bytes_ok_app; auto with mocha.
Qed.
#[export] Hint Resolve of_runes_bytes_ok : mocha.

Lemma runes_from_drop n s : runes_from n s = runes (drop n s).
Proof.
  revert n. induction s as [|b s IH]; intros [|n]; try reflexivity. cbn [runes_from drop]. apply IH.
Qed.

Lemma runes_cons b s :
  runes (b :: s) = fst (DecodeRune (b :: s)) :: runes (drop (Z.to_nat (snd (DecodeRune (b :: s)))) (b :: s)).
Proof.
  unfold runes at 1. cbn [runes_from]. destruct (DecodeRune (b :: s)) as [r n] eqn:E. cbn [fst snd].
  rewrite runes_from_drop. f_equal.
  assert (1 <= n).
  { cbn [DecodeRune] in E. repeat case_match; simplify_eq; lia. }
  replace (Z.to_nat n) with (S (Z.to_nat (n - 1))) by lia. reflexivity.
Qed.

Lemma runes_AppendRune r s :
  valid_rune r = true -> runes (AppendRune r ++ s) = r :: runes s.
Proof.
  intros Hr. destruct (AppendRune_nonempty r) as (b & t & E).
  pose proof (DecodeRune_AppendRune r s Hr) as D.
  rewrite E in *. cbn [app] in *. rewrite runes_cons, D. cbn [fst snd]. f_equal.
  change (b :: t ++ s) with ((b :: t) ++ s). unfold len. rewrite Nat2Z.id, drop_app_length. reflexivity.
Qed.

Lemma runes_of_runes rs :
  Forall (fun r => valid_rune r = true) rs -> runes (of_runes rs) = rs.
Proof.
  induction 1 as [|r rs Hr _ IH]; [reflexivity|].
  cbn [of_runes flat_map]. rewrite runes_AppendRune by auto. f_equal. exact IH.
Qed.

Lemma DecodeRune_valid p :
  bytes_ok p -> valid_rune (fst (DecodeRune p)) = true.
Proof.
  intros Hp. destruct p as [|b0 p]; [reflexivity|]. apply bytes_ok_cons in Hp as [H0 Hp].
  cbn [DecodeRune]. apply valid_rune_iff.
  assert (0 <= RuneError < 0xD800 \/ 0xE000 <= RuneError <= 0x10FFFF) by (unfold RuneError; lia).
  repeat case_match; to_Z; cbn [fst]; try assumption; try lia;
    unfold second_ok, is_cont in *; repeat (bool_case || (match goal with H : (if ?b then _ else _) = true |- _ => destruct b eqn:? end)); to_Z; lia.
Qed.

(** A decoded rune is either the one-byte error, or the input starts with its
    encoding. *)
Lemma DecodeRune_inv b p r n :
  0 <= b -> DecodeRune (b :: p) = (r, n) ->
  (r = RuneError /\ n = 1) \/ take (Z.to_nat n) (b :: p) = AppendRune r.
Proof.
  intros Hb E. destruct (decide (r = RuneError /\ n = 1)) as [|Hne]; [auto|right].
  cbn [DecodeRune] in E.
  repeat (match goal with H : (if ?b then _ else _) = (_, _) |- _ => destruct b eqn:?
          | H : (match ?l with [] => _ | _ => _ end) = (_, _) |- _ => destruct l end);
    simplify_eq; try (exfalso; apply Hne; split; reflexivity); clear Hne;
    unfold second_ok, is_cont in *;
    repeat (to_Z; match goal with H : (if ?b then _ else _) = true |- _ => destruct b eqn:? end); to_Z;
    try (exfalso; lia);
    (unfold AppendRune; rewrite (proj2 (valid_rune_iff _)) by zlia; cbv zeta; decide_tests);
    change (Z.to_nat 1) with 1%nat; change (Z.to_nat 2) with 2%nat;
    change (Z.to_nat 3) with 3%nat; change (Z.to_nat 4) with 4%nat; cbn [firstn];
    repeat (apply (f_equal2 cons); [zlia|]); reflexivity.
Qed.
