(* ===== verification/Mutf8.v ===== *)
(** * Modified UTF-8 ([jvm/mutf8/mutf8.go])

    The codec of JVMS 4.4.7: [Decode], [Encode] and [EncodedLen], with the round
    trip between them for every Go string. *)
From S2P Require Import Prelude Utf8.

(** A byte that cannot appear in a modified UTF-8 string. *)
Record SyntaxError := { Off : Z; Byte : Z; Msg : string }.

(** The [Error] method of [SyntaxError]. *)
Definition Error (e : SyntaxError) : goerror :=
  Errorf "mutf8: at byte %d: %s" [ANum (Off e); AText (Msg e)].

Definition fail (off b : Z) (msg : string) : result SyntaxError bytes :=
  Err {| Off := off; Byte := b; Msg := msg |}.

(** The fast path's test: no NUL and no byte above the ASCII range. *)
Definition simple (b : bytes) : bool :=
  negb (existsb (fun c => (c =? 0) || (0x80 <=? c)) b).

(** The payload of a two-byte and of a three-byte sequence. *)
Definition rune2 (x y : Z) : Z := Z.lor (Z.shiftl (Z.land x 0x1F) 6) (Z.land y 0x3F).
Definition rune3 (x y z : Z) : Z :=
  Z.lor (Z.lor (Z.shiftl (Z.land x 0x0F) 12) (Z.shiftl (Z.land y 0x3F) 6)) (Z.land z 0x3F).

(** The supplementary character spelled by two three-byte sequences, if the
    second is the low half of a pair. *)
Definition pair_at (r x2 y2 z2 : Z) : option Z :=
  if IsSurrogate r && (Z.land x2 0xF0 =? 0xE0) && (Z.land y2 0xC0 =? 0x80) && (Z.land z2 0xC0 =? 0x80)
  then let p := DecodePair r (rune3 x2 y2 z2) in if p =? RuneError then None else Some p
  else None.

(** The loop of [Decode] over the input left, [i] bytes in.  What [WriteRune]
    appends comes before what the rest of the loop writes. *)
Fixpoint decode_loop (b : bytes) (i : Z) : result SyntaxError bytes :=
  match b with
  | [] => Ok []
  | x :: b1 =>
    if x =? 0 then fail i x "NUL byte (must use the two-byte form)"
    else if x <? 0x80 then rest ← decode_loop b1 (i + 1); Ok (x :: rest)
    else if Z.land x 0xE0 =? 0xC0 then
      match b1 with
      | [] => fail i x "truncated two-byte sequence"
      | y :: b2 =>
        if negb (Z.land y 0xC0 =? 0x80) then fail (i + 1) y "bad continuation byte"
        else let r := rune2 x y in
        if negb (r =? 0) && (r <? 0x80) then fail i x "overlong two-byte sequence"
        else rest ← decode_loop b2 (i + 2); Ok (AppendRune r ++ rest)
      end
    else if Z.land x 0xF0 =? 0xE0 then
      match b1 with
      | y :: z :: b3 =>
        if negb (Z.land y 0xC0 =? 0x80) || negb (Z.land z 0xC0 =? 0x80)
        then fail (i + 1) 0 "bad continuation byte"
        else let r := rune3 x y z in
        if r <? 0x800 then fail i x "overlong three-byte sequence"
        else
          let single := rest ← decode_loop b3 (i + 3);
                        Ok (AppendRune (if IsSurrogate r then RuneError else r) ++ rest) in
          match b3 with
          | x2 :: y2 :: z2 :: b6 =>
            match pair_at r x2 y2 z2 with
            | Some p => rest ← decode_loop b6 (i + 6); Ok (AppendRune p ++ rest)
            | None => single
            end
          | _ => single
          end
      | _ => fail i x "truncated three-byte sequence"
      end
    else fail i x "byte in range 0xF0-0xFF (four-byte UTF-8 is not permitted)"
  end.

Definition Decode (b : bytes) : result SyntaxError bytes :=
  if simple b then Ok b else decode_loop b 0.

Definition triple (r : Z) : bytes :=
  [u8 (Z.lor 0xE0 (Z.shiftr r 12));
   u8 (Z.lor 0x80 (Z.land (Z.shiftr r 6) 0x3F));
   u8 (Z.lor 0x80 (Z.land r 0x3F))].

(** What one rune of the input contributes to [Encode]'s output. *)
Definition encode_rune (r : Z) : bytes :=
  if (1 <=? r) && (r <=? 0x7F) then [u8 r]
  else if (r =? 0) || (r <=? 0x7FF)
  then [u8 (Z.lor 0xC0 (Z.shiftr r 6)); u8 (Z.lor 0x80 (Z.land r 0x3F))]
  else if r <=? 0xFFFF then triple r
  else let '(hi, lo) := EncodePair r in triple hi ++ triple lo.

Definition Encode (s : bytes) : bytes := flat_map encode_rune (runes s).

Definition rune_len (r : Z) : Z :=
  if (1 <=? r) && (r <=? 0x7F) then 1
  else if (r =? 0) || (r <=? 0x7FF) then 2
  else if r <=? 0xFFFF then 3 else 6.

Definition EncodedLen (s : bytes) : Z := fold_left (fun n r => n + rune_len r) (runes s) 0.

(** ** The arithmetic of the sequences *)

Lemma rune2_eq x y : rune2 x y = x mod 32 * 64 + y mod 64.
Proof.
  unfold rune2. change 0x1F with (2 ^ 5 - 1). change 0x3F with (2 ^ 6 - 1).
  rewrite !land_low, lor_shiftl_add by zlia. reflexivity.
Qed.

Lemma rune3_eq x y z : rune3 x y z = x mod 16 * 4096 + y mod 64 * 64 + z mod 64.
Proof.
  unfold rune3. change 0x0F with (2 ^ 4 - 1). change 0x3F with (2 ^ 6 - 1).
  rewrite !land_low by lia.
  rewrite lor_shiftl_add; [|lia|rewrite Z.shiftl_mul_pow2 by lia; zlia].
  rewrite Z.shiftl_mul_pow2 by lia.
  rewrite (lor_add 6); [reflexivity|lia|zlia|].
  change (2 ^ 12) with (64 * 64). change (2 ^ 6) with 64. zlia.
Qed.

Lemma rune2_of r : 0 <= r < 0x800 -> rune2 (0xC0 + r / 64) (0x80 + r mod 64) = r.
Proof. intros. rewrite rune2_eq. zlia. Qed.

Lemma rune3_of r :
  0 <= r < 0x10000 -> rune3 (0xE0 + r / 4096) (0x80 + r / 64 mod 64) (0x80 + r mod 64) = r.
Proof. intros. rewrite rune3_eq. zlia. Qed.

Lemma triple_eq r :
  0 <= r < 0x10000 -> triple r = [0xE0 + r / 4096; 0x80 + r / 64 mod 64; 0x80 + r mod 64].
Proof.
  intros Hr. unfold triple. change 0x3F with (2 ^ 6 - 1). rewrite !land_low by lia.
  rewrite !Z.shiftr_div_pow2 by lia. change (2 ^ 12) with 4096. change (2 ^ 6) with 64.
  rewrite (lor_add 4 0xE0), !(lor_add 6 0x80) by zlia. rewrite !u8_id by zlia. reflexivity.
Qed.

(** ** The three shapes of an encoded rune *)

Lemma encode_rune_1 r : 1 <= r <= 0x7F -> encode_rune r = [r].
Proof. intros. unfold encode_rune. decide_tests. rewrite u8_id by lia. reflexivity. Qed.

Lemma encode_rune_2 r :
  r = 0 \/ 0x80 <= r <= 0x7FF -> encode_rune r = [0xC0 + r / 64; 0x80 + r mod 64].
Proof.
  intros H. unfold encode_rune.
  replace ((1 <=? r) && (r <=? 0x7F)) with false by lia.
  replace ((r =? 0) || (r <=? 0x7FF)) with true by lia.
  change 0x3F with (2 ^ 6 - 1). rewrite land_low, Z.shiftr_div_pow2 by lia. change (2 ^ 6) with 64.
  rewrite (lor_add 5 0xC0), (lor_add 6 0x80), !u8_id by zlia. reflexivity.
Qed.

Lemma encode_rune_3 r : 0x800 <= r <= 0xFFFF -> encode_rune r = triple r.
Proof. intros. unfold encode_rune. decide_tests. reflexivity. Qed.

Lemma encode_rune_6 r :
  0x10000 <= r <= 0x10FFFF ->
  encode_rune r = triple (surr1 + (r - 0x10000) / 1024) ++ triple (surr2 + (r - 0x10000) mod 1024).
Proof. intros. unfold encode_rune, EncodePair. decide_tests. reflexivity. Qed.

(** Byte classes, settled over the 256 bytes. *)
Lemma land_C0 y : 0 <= y < 256 -> (Z.land y 0xC0 =? 0x80) = (0x80 <=? y) && (y <? 0xC0).
Proof.
  intros. apply eqb_prop, (byte_forall (fun y => Bool.eqb (Z.land y 0xC0 =? 0x80) ((0x80 <=? y) && (y <? 0xC0))));
    [reflexivity|lia].
Qed.
Lemma land_E0 x : 0 <= x < 256 -> (Z.land x 0xE0 =? 0xC0) = (0xC0 <=? x) && (x <? 0xE0).
Proof.
  intros. apply eqb_prop, (byte_forall (fun y => Bool.eqb (Z.land y 0xE0 =? 0xC0) ((0xC0 <=? y) && (y <? 0xE0))));
    [reflexivity|lia].
Qed.
Lemma land_F0 x : 0 <= x < 256 -> (Z.land x 0xF0 =? 0xE0) = (0xE0 <=? x) && (x <? 0xF0).
Proof.
  intros. apply eqb_prop, (byte_forall (fun y => Bool.eqb (Z.land y 0xF0 =? 0xE0) ((0xE0 <=? y) && (y <? 0xF0))));
    [reflexivity|lia].
Qed.

(** ** Decoding what was encoded *)

Lemma decode_1 r s i :
  1 <= r <= 0x7F -> decode_loop (r :: s) i = (rest ← decode_loop s (i + 1); Ok (r :: rest)).
Proof. intros. cbn [decode_loop]. decide_tests. reflexivity. Qed.

Lemma decode_2 r s i :
  r = 0 \/ 0x80 <= r <= 0x7FF ->
  decode_loop (0xC0 + r / 64 :: 0x80 + r mod 64 :: s) i =
  (rest ← decode_loop s (i + 2); Ok (AppendRune r ++ rest)).
Proof.
  intros H. cbn [decode_loop]. rewrite (land_E0 (0xC0 + r / 64)), (land_C0 (0x80 + r mod 64)), (rune2_of r) by zlia.
  decide_tests. destruct (Z.eqb_spec r 0) as [->|]; [reflexivity|]. decide_tests. reflexivity.
Qed.

Lemma decode_3 r s i :
  0x800 <= r <= 0xFFFF -> IsSurrogate r = false ->
  decode_loop (triple r ++ s) i = (rest ← decode_loop s (i + 3); Ok (AppendRune r ++ rest)).
Proof.
  intros H Hs. rewrite triple_eq by lia. cbn [app decode_loop].
  rewrite (land_E0 (0xE0 + r / 4096)), (land_F0 (0xE0 + r / 4096)), (land_C0 (0x80 + r / 64 mod 64)),
    (land_C0 (0x80 + r mod 64)), (rune3_of r) by zlia.
  decide_tests. rewrite Hs.
  destruct s as [|x2 [|y2 [|z2 s]]]; try reflexivity. unfold pair_at. rewrite Hs. reflexivity.
Qed.

Lemma decode_6 hi lo s i :
  0xD800 <= hi < 0xDC00 -> 0xDC00 <= lo < 0xE000 ->
  decode_loop (triple hi ++ triple lo ++ s) i =
  (rest ← decode_loop s (i + 6); Ok (AppendRune (DecodePair hi lo) ++ rest)).
Proof.
  intros Hh Hl. rewrite !triple_eq by lia. cbn [app decode_loop].
  rewrite (land_E0 (0xE0 + hi / 4096)), (land_F0 (0xE0 + hi / 4096)), (land_C0 (0x80 + hi / 64 mod 64)),
    (land_C0 (0x80 + hi mod 64)), (rune3_of hi) by zlia.
  decide_tests. unfold pair_at. rewrite (land_F0 (0xE0 + lo / 4096)), (land_C0 (0x80 + lo / 64 mod 64)),
    (land_C0 (0x80 + lo mod 64)), (rune3_of lo) by zlia.
  unfold IsSurrogate. decide_tests.
  assert (0x10000 <= DecodePair hi lo) by (unfold DecodePair; decide_tests; zlia).
  destruct (Z.eqb_spec (DecodePair hi lo) RuneError); [zlia|reflexivity].
Qed.

Lemma decode_encode_rune r s i :
  valid_rune r = true ->
  exists j, decode_loop (encode_rune r ++ s) i = (rest ← decode_loop s j; Ok (AppendRune r ++ rest)).
Proof.
  intros Hv. pose proof Hv as Hr. apply valid_rune_iff in Hr.
  destruct (decide (1 <= r <= 0x7F)); [|destruct (decide (r <= 0x7FF)); [|destruct (decide (r <= 0xFFFF))]].
  - rewrite encode_rune_1 by lia. cbn [app]. rewrite decode_1 by lia. exists (i + 1).
    unfold AppendRune. rewrite Hv. decide_tests. reflexivity.
  - rewrite encode_rune_2 by lia. cbn [app]. rewrite decode_2 by lia. eauto.
  - rewrite encode_rune_3, decode_3 by first [lia | unfold IsSurrogate; zlia]. eauto.
  - rewrite encode_rune_6 by lia. rewrite <- app_assoc, decode_6 by zlia.
    replace (DecodePair _ _) with r; [eauto|]. unfold DecodePair. decide_tests. zlia.
Qed.

Lemma decode_encode_runes rs i :
  Forall (fun r => valid_rune r = true) rs ->
  decode_loop (flat_map encode_rune rs) i = Ok (of_runes rs).
Proof.
  intros H. revert i. induction H as [|r rs Hr _ IH]; intros i; [reflexivity|].
  cbn [flat_map of_runes]. destruct (decode_encode_rune r (flat_map encode_rune rs) i Hr) as [j ->].
  rewrite IH. reflexivity.
Qed.

(** ** Every accepted input is the encoding of a list of code units

    A unit is a scalar value or a lone surrogate; [encode_rune] gives the latter
    its three bytes and [AppendRune] turns it into U+FFFD. *)

Definition unit_ok (u : Z) : bool := valid_rune u || IsSurrogate u.

Lemma rune2_inv x y :
  0xC0 <= x < 0xE0 -> 0x80 <= y < 0xC0 ->
  let r := rune2 x y in 0 <= r < 0x800 /\ x = 0xC0 + r / 64 /\ y = 0x80 + r mod 64.
Proof. intros Hx Hy. cbv zeta. rewrite rune2_eq. zlia. Qed.

Lemma rune3_inv x y z :
  0xE0 <= x < 0xF0 -> 0x80 <= y < 0xC0 -> 0x80 <= z < 0xC0 ->
  0 <= rune3 x y z < 0x10000 /\ [x; y; z] = triple (rune3 x y z).
Proof.
  intros Hx Hy Hz. assert (0 <= rune3 x y z < 0x10000) as Hr by (rewrite rune3_eq; zlia).
  split; [exact Hr|]. rewrite triple_eq by exact Hr. rewrite rune3_eq.
  repeat (apply (f_equal2 cons); [zlia|]). reflexivity.
Qed.

Lemma pair_at_inv r x y z p :
  0 <= x < 256 -> 0 <= y < 256 -> 0 <= z < 256 -> pair_at r x y z = Some p ->
  unit_ok p = true /\ encode_rune p = triple r ++ [x; y; z].
Proof.
  intros Hx Hy Hz. unfold pair_at. rewrite land_F0, !land_C0 by lia.
  destruct (IsSurrogate r && _ && _ && _) eqn:E; [|discriminate].
  destruct (Z.eqb_spec (DecodePair r (rune3 x y z)) RuneError) as [|Hne]; [discriminate|].
  intros [= <-]. to_Z. destruct (rune3_inv x y z) as [Hr ->]; try lia.
  unfold DecodePair in *. destruct (_ && _ && _ && _) eqn:D; [|exfalso; apply Hne; reflexivity].
  to_Z. split; [unfold unit_ok, valid_rune; zlia|].
  rewrite encode_rune_6 by zlia. repeat f_equal; zlia.
Qed.

Definition units_of (b s : bytes) : Prop :=
  exists us, Forall (fun u => unit_ok u = true) us /\ b = flat_map encode_rune us /\ s = of_runes us.

Lemma units_cons u b s :
  unit_ok u = true -> units_of b s -> units_of (encode_rune u ++ b) (AppendRune u ++ s).
Proof. intros Hu (us & H & -> & ->). exists (u :: us). repeat constructor; auto. Qed.

(** One step of the loop: it consumes the encoding of one unit. *)
Lemma decode_loop_step x b i s :
  bytes_ok (x :: b) -> decode_loop (x :: b) i = Ok s ->
  exists u b' s' j, unit_ok u = true /\ x :: b = encode_rune u ++ b' /\
    s = AppendRune u ++ s' /\ decode_loop b' j = Ok s'.
Proof.
  intros Hb H. apply bytes_ok_cons in Hb as [Hx Hb]. cbn [decode_loop] in H.
  destruct (Z.eqb_spec x 0); [discriminate|]. destruct (Z.ltb_spec x 0x80).
  { bind_inv H. injection H as <-. exists x, b, a, (i + 1).
    rewrite encode_rune_1, AppendRune_ascii by lia. repeat split; auto. unfold unit_ok, valid_rune. zlia. }
  rewrite land_E0 in H by lia. destruct (_ && _) eqn:E2; to_Z.
  { destruct b as [|y b]; [discriminate|]. apply bytes_ok_cons in Hb as [Hy Hb].
    rewrite land_C0 in H by lia. destruct (negb (_ && _)) eqn:Ey; [discriminate|]. to_Z.
    destruct (rune2_inv x y) as (Hr & Hx' & Hy'); try lia. set (r := rune2 x y) in *.
    destruct (negb (r =? 0) && (r <? 0x80)) eqn:Eo; [discriminate|].
    bind_inv H. injection H as <-. exists r, b, a, (i + 2). rewrite encode_rune_2 by lia.
    rewrite <- Hx', <- Hy'.
    repeat split; auto. unfold unit_ok, valid_rune. zlia. }
  rewrite land_F0 in H by lia. destruct (_ && _) eqn:E3; to_Z; [|discriminate].
  destruct b as [|y [|z b]]; try discriminate.
  apply bytes_ok_cons in Hb as [Hy Hb]. apply bytes_ok_cons in Hb as [Hz Hb].
  rewrite !land_C0 in H by lia. destruct (negb _ || negb _) eqn:Ey; [discriminate|]. to_Z.
  destruct (rune3_inv x y z) as (Hr & Htr); try lia. set (r := rune3 x y z) in *.
  destruct (Z.ltb_spec r 0x800); [discriminate|]. change (x :: y :: z :: b) with ([x; y; z] ++ b).
  destruct (match b with x2 :: y2 :: z2 :: _ => pair_at r x2 y2 z2 | _ => None end) as [p|] eqn:Ep.
  - destruct b as [|x2 [|y2 [|z2 b]]]; try discriminate. rewrite Ep in H. bind_inv H.
    injection H as <-. do 3 apply bytes_ok_cons in Hb as [? Hb].
    apply pair_at_inv in Ep as [Hp1 Hp2]; try lia.
    exists p, b, a, (i + 6). rewrite Hp2, <- Htr. auto.
  - assert (exists a, decode_loop b (i + 3) = Ok a /\
              s = AppendRune (if IsSurrogate r then RuneError else r) ++ a) as (a & E & ->).
    { destruct b as [|x2 [|y2 [|z2 b]]]; try rewrite Ep in H; bind_inv H; injection H as <-; eauto. }
    exists r, b, a, (i + 3). rewrite encode_rune_3 by lia. rewrite <- Htr. repeat split; auto.
    + unfold unit_ok, valid_rune, IsSurrogate. zlia.
    + destruct (IsSurrogate r) eqn:Es; [rewrite (AppendRune_surrogate r Es)|]; reflexivity.
Qed.

Lemma encode_rune_nonempty r : (0 < length (encode_rune r))%nat.
Proof. unfold encode_rune, triple. repeat bool_case; simpl; try lia. destruct (EncodePair r). simpl. lia. Qed.

Lemma decode_loop_units b i s : bytes_ok b -> decode_loop b i = Ok s -> units_of b s.
Proof.
  remember (length b) as n eqn:En. revert b En i s.
  induction n as [n IH] using lt_wf_ind; intros b -> i s Hb H.
  destruct b as [|x b]; [injection H as <-; exists []; repeat constructor|].
  apply decode_loop_step in H as (u & b' & s' & j & Hu & Heq & -> & H); auto.
  rewrite Heq in *. apply units_cons; auto. apply bytes_ok_app in Hb as [_ Hb].
  apply (IH (length b')) with j; auto. rewrite length_app. pose proof (encode_rune_nonempty u). lia.
Qed.

(** ** Properties *)

Lemma simple_loop b i : simple b = true -> decode_loop b i = Ok b.
Proof.
  unfold simple. revert i. induction b as [|c b IH]; intros i H; [reflexivity|].
  cbn [existsb] in H. apply negb_true_iff, orb_false_elim in H as [Hc H]. to_Z.
  cbn [decode_loop]. decide_tests. rewrite IH; [reflexivity|]. rewrite H. reflexivity.
Qed.

Lemma encode_rune_bytes r : unit_ok r = true -> Forall (fun b => 1 <= b < 0xF0) (encode_rune r).
Proof.
  intros H. unfold unit_ok, valid_rune, IsSurrogate in H.
  destruct (decide (1 <= r <= 0x7F)); [|destruct (decide (r <= 0x7FF)); [|destruct (decide (r <= 0xFFFF))]].
  - rewrite encode_rune_1 by lia. repeat constructor; lia.
  - rewrite encode_rune_2 by zlia. repeat constructor; zlia.
  - rewrite encode_rune_3, triple_eq by zlia. repeat constructor; zlia.
  - rewrite encode_rune_6, !triple_eq by zlia. repeat constructor; zlia.
Qed.

Lemma encode_rune_len r : valid_rune r = true -> len (encode_rune r) = rune_len r.
Proof.
  intros Hr. apply valid_rune_iff in Hr. unfold encode_rune, rune_len, EncodePair.
  destruct (decide (1 <= r <= 0x7F)); [|destruct (decide (r <= 0x7FF)); [|destruct (decide (r <= 0xFFFF))]].
  - decide_tests. reflexivity.
  - replace ((1 <=? r) && (r <=? 0x7F)) with false by lia.
    replace ((r =? 0) || (r <=? 0x7FF)) with true by lia. reflexivity.
  - decide_tests. reflexivity.
  - decide_tests. reflexivity.
Qed.

Lemma runes_valid s : bytes_ok s -> Forall (fun r => valid_rune r = true) (runes s).
Proof.
  remember (length s) as n eqn:En. revert s En. induction n as [n IH] using lt_wf_ind; intros s -> Hs.
  destruct s as [|b s]; [constructor|]. rewrite runes_cons. constructor; [apply DecodeRune_valid; auto|].
  assert (1 <= snd (DecodeRune (b :: s))).
  { cbn [DecodeRune]. repeat case_match; cbn; lia. }
  eapply IH; [|reflexivity|apply Forall_drop; auto]. rewrite length_drop. cbn [length]. lia.
Qed.
#[export] Hint Resolve runes_valid : mocha.

Lemma Decode_Encode s : bytes_ok s -> Decode (Encode s) = Ok (of_runes (runes s)).
Proof.
  intros Hs. unfold Decode. destruct (simple (Encode s)) eqn:E.
  - rewrite <- (simple_loop (Encode s) 0 E). apply decode_encode_runes. auto with mocha.
  - apply decode_encode_runes. auto with mocha.
Qed.

(** C34: for every Go string, decoding its modified UTF-8 succeeds and gives the
    string back, each byte that was not valid UTF-8 replaced by U+FFFD; a valid
    string survives unchanged. *)
Theorem decode_encode (s : bytes) :
  bytes_ok s ->
  Decode (Encode s) = Ok (of_runes (runes s)) /\ (valid_string s -> Decode (Encode s) = Ok s).
Proof.
  intros Hs. rewrite Decode_Encode by auto. split; [reflexivity|]. intros (rs & Hrs & ->). rewrite runes_of_runes; auto.
Qed.

Lemma Decode_loop b : Decode b = decode_loop b 0.
Proof. unfold Decode. destruct (simple b) eqn:E; [rewrite simple_loop|]; auto. Qed.

(** The ASCII fast path changes nothing: [Decode] is the general loop. *)
Theorem decode_fast_path (b : bytes) : Decode b = decode_loop b 0.
Proof. apply Decode_loop. Qed.

(** C40: whatever [Decode] accepts is, byte for byte, the encoding of scalar
    values and lone surrogates, and its result spells those with each lone
    surrogate as U+FFFD.  So an accepted input without lone surrogates is the
    canonical encoding of the result, and [Decode] is injective on those. *)
Theorem decode_sound (b s : bytes) :
  bytes_ok b -> Decode b = Ok s ->
  units_of b s /\ bytes_ok s /\
  (Forall (fun r => r <> RuneError) (runes s) -> Encode s = b).
Proof.
  intros Hb H. rewrite Decode_loop in H. apply decode_loop_units in H as (us & Hus & -> & ->); auto.
  split; [exists us; auto|]. split; [auto with mocha|].
  intros Hne. unfold Encode. f_equal. assert (of_runes us = of_runes (map sane us)) as E.
  { unfold of_runes. rewrite flat_map_concat_map, flat_map_concat_map, map_map. f_equal.
    apply map_ext. intros. symmetry. apply AppendRune_sane. }
  rewrite E in *. rewrite runes_of_runes in *
    by (apply Forall_map, Forall_true; intros; apply sane_valid).
  clear E Hb. induction us as [|u us IH]; [reflexivity|]. cbn [map] in *.
  apply Forall_cons in Hne as [H1 H2], Hus as [H3 H4]. f_equal; [|auto].
  unfold sane in *. destruct (valid_rune u); congruence.
Qed.

Lemma Encode_bytes (s : bytes) :
  bytes_ok s -> Forall (fun b => 1 <= b < 0xF0) (Encode s) /\ len (Encode s) = EncodedLen s.
Proof.
  intros Hs. unfold Encode, EncodedLen. pose proof (runes_valid s Hs) as H.
  assert (G : forall n, fold_left (fun n r => n + rune_len r) (runes s) n = n + len (flat_map encode_rune (runes s))).
  { induction H as [|r rs Hr _ IH]; intros n; cbn [fold_left flat_map]; [rewrite len_nil; lia|].
    rewrite IH, len_app, encode_rune_len by auto. lia. }
  rewrite G. split; [|lia]. clear G. induction H as [|r rs Hr _ IH]; cbn [flat_map]; [constructor|].
  apply Forall_app. split; [|exact IH]. apply encode_rune_bytes. unfold unit_ok. rewrite Hr. reflexivity.
Qed.

(** [Encode] emits no NUL and no byte above 0xEF, which is what the class
    file reader demands of a Utf8 constant, and [EncodedLen] predicts its length. *)
Lemma encode_bytes (s : bytes) :
  bytes_ok s -> Forall (fun b => 1 <= b < 0xF0) (Encode s) /\ len (Encode s) = EncodedLen s.
Proof. apply Encode_bytes. Qed.

(** The letter e acute, NUL and a character outside the BMP. *)
Definition sample : bytes := [0xC3; 0xA9; 0; 0xF0; 0x9F; 0x98; 0x80].

Lemma decode_encode_witness :
  Decode (Encode sample) = Ok (of_runes (runes sample)) /\ (valid_string sample -> Decode (Encode sample) = Ok sample).
Proof. apply (decode_encode sample). apply bytes_ok_dec. reflexivity. Defined.

Lemma decode_sound_witness :
  units_of [0xC3; 0xA9; 0xC0; 0x80] [0xC3; 0xA9; 0] /\ bytes_ok [0xC3; 0xA9; 0] /\
  (Forall (fun r => r <> RuneError) (runes [0xC3; 0xA9; 0]) -> Encode [0xC3; 0xA9; 0] = [0xC3; 0xA9; 0xC0; 0x80]).
Proof. apply (decode_sound [0xC3; 0xA9; 0xC0; 0x80]); [apply bytes_ok_dec|]; reflexivity. Defined.

Lemma encode_bytes_witness :
  Forall (fun b => 1 <= b < 0xF0) (Encode sample) /\ len (Encode sample) = EncodedLen sample.
Proof. apply (encode_bytes sample). apply bytes_ok_dec. reflexivity. Defined.
