(* ===== verification/Desc.v ===== *)
(** * Descriptors ([jvm/desc/desc.go])

    Field, return and method descriptors (JVMS 4.3): the parsers, the printers,
    and the round trips between them. *)
From S2P Require Import Prelude.

Inductive Kind :=
  | Invalid | Void | Boolean | Byte | Char | Short | Int | Long | Float | Double | Object.

#[export] Instance Kind_eq_dec : EqDecision Kind.
Proof. solve_decision. Defined.

Definition MaxDims : Z := 255.
Definition MaxArgSlots : Z := 255.

(** A parsed field descriptor: an array has [Dims > 0] and its element's kind;
    [Name] is set only for [Object]. *)
Record Ty := { TKind : Kind; Dims : Z; Name : bytes }.

Definition zeroTy : Ty := {| TKind := Invalid; Dims := 0; Name := [] |}.

Definition Slots (t : Ty) : Z :=
  if 0 <? Dims t then 1
  else match TKind t with Void => 0 | Long | Double => 2 | _ => 1 end.

Definition IsRef (t : Ty) : bool := (0 <? Dims t) || bool_decide (TKind t = Object).

(** The array has a zero byte at [Invalid], and stops before [Object]: indexing
    it there would panic, but the printers never do. *)
Definition baseChar (k : Kind) : Z :=
  match k with
  | Invalid => 0
  | Void => 86 | Boolean => 90 | Byte => 66 | Char => 67 | Short => 83
  | Int => 73 | Long => 74 | Float => 70 | Double => 68
  | Object => 0
  end.

(** The ASCII codes the parser switches on. *)
Definition lbrack : Z := 91.
Definition semi : Z := 59.
Definition cL : Z := 76.
Definition lparen : Z := 40.
Definition rparen : Z := 41.

Definition TyString (t : Ty) : bytes :=
  replicate (Z.to_nat (Dims t)) lbrack ++
  (if bool_decide (TKind t = Object) then cL :: Name t ++ [semi] else [baseChar (TKind t)]).

(** The run of '[' at the front: its length and what follows. *)
Fixpoint count_dims (s : bytes) : Z * bytes :=
  match s with
  | c :: s' => if c =? lbrack then let '(n, r) := count_dims s' in (n + 1, r) else (0, s)
  | [] => (0, [])
  end.

(** [strings.IndexByte]. *)
Fixpoint index_byte (s : bytes) (c : Z) : option Z :=
  match s with
  | [] => None
  | x :: s' => if x =? c then Some 0 else option_map (Z.add 1) (index_byte s' c)
  end.

Definition base_of (c : Z) : option Kind :=
  if c =? 90 then Some Boolean else if c =? 66 then Some Byte else if c =? 67 then Some Char
  else if c =? 83 then Some Short else if c =? 73 then Some Int else if c =? 74 then Some Long
  else if c =? 70 then Some Float else if c =? 68 then Some Double else None.

(** The type at the front of [s] and the number of bytes it takes. *)
Definition parseType (s : bytes) (allowVoid : bool) : result goerror (Ty * Z) :=
  let '(dims, rest) := count_dims s in
  if MaxDims <? dims
  then Err (Errorf "desc: %d array dimensions exceeds the limit of %d" [ANum dims; ANum MaxDims])
  else match rest with
  | [] => Err (Errorf "desc: descriptor %q ends after '['" [AStr s])
  | c :: _ =>
    if c =? 86 then
      if negb allowVoid || (0 <? dims)
      then Err (Errorf "desc: 'V' is not a valid field type in %q" [AStr s])
      else Ok ({| TKind := Void; Dims := dims; Name := [] |}, dims + 1)
    else match base_of c with
    | Some k => Ok ({| TKind := k; Dims := dims; Name := [] |}, dims + 1)
    | None =>
      if c =? cL then
        match index_byte rest semi with
        | None => Err (Errorf "desc: unterminated class type in %q" [AStr s])
        | Some e =>
          let name := slice s (dims + 1) (dims + e) in
          match name with
          | [] => Err (Errorf "desc: empty class name in %q" [AStr s])
          | _ => Ok ({| TKind := Object; Dims := dims; Name := name |}, dims + e + 1)
          end
        end
      else Err (Errorf "desc: unknown type character %q in %q" [ANum c; AStr s])
    end
  end.

Definition ParseField (s : bytes) : result goerror Ty :=
  '(t, n) ← parseType s false;
  if negb (n =? len s) then Err (Errorf "desc: trailing bytes in field descriptor %q" [AStr s]) else Ok t.

Definition ParseReturn (s : bytes) : result goerror Ty :=
  '(t, n) ← parseType s true;
  if negb (n =? len s) then Err (Errorf "desc: trailing bytes in return descriptor %q" [AStr s]) else Ok t.

Record Meth := { Params : list Ty; Ret : Ty }.

(** The loop of [ParseMethod] over the parameters: [s] is what follows the
    parameters read so far.  Each turn consumes at least one byte
    ([parseType_pos]), so the length of the descriptor is fuel enough
    ([parse_params_total]). *)
Fixpoint parse_params (fuel : nat) (s : bytes) : result goerror (list Ty * bytes) :=
  match s with
  | [] => Ok ([], [])
  | c :: _ =>
    if c =? rparen then Ok ([], s)
    else match fuel with
    | O => Err (Errorf "out of fuel" [])
    | S f =>
      '(t, n) ← parseType s false;
      '(ts, rest) ← parse_params f (drop (Z.to_nat n) s);
      Ok (t :: ts, rest)
    end
  end.

Definition ParseMethod (s : bytes) : result goerror Meth :=
  match s with
  | c :: s' =>
    if (len s <? 3) || negb (c =? lparen) then Err (Errorf "desc: %q is not a method descriptor" [AStr s])
    else
      '(ps, rest) ← parse_params (length s) s';
      match rest with
      | [] => Err (Errorf "desc: unterminated parameter list in %q" [AStr s])
      | _ :: r => ret ← ParseReturn r; Ok {| Params := ps; Ret := ret |}
      end
  | [] => Err (Errorf "desc: %q is not a method descriptor" [AStr s])
  end.

Definition MethString (m : Meth) : bytes :=
  lparen :: flat_map TyString (Params m) ++ rparen :: TyString (Ret m).

Definition ArgSlots (m : Meth) (receiver : bool) : Z :=
  fold_left (fun n p => n + Slots p) (Params m) (if receiver then 1 else 0).

Definition CheckArgSlots (m : Meth) (receiver : bool) : option goerror :=
  let n := ArgSlots m receiver in
  if MaxArgSlots <? n
  then Some (Errorf "desc: %s takes %d argument slots, over the limit of %d"
               [AStr (MethString m); ANum n; ANum MaxArgSlots])
  else None.

Definition shortyChar (t : Ty) : Z := if IsRef t then cL else baseChar (TKind t).

Definition Shorty (m : Meth) : bytes := shortyChar (Ret m) :: map shortyChar (Params m).

(** [strings.ReplaceAll] of one byte by another. *)
Definition replace_byte (a b : Z) (s : bytes) : bytes := map (fun c => if c =? a then b else c) s.

Definition Internal (binary : bytes) : bytes := replace_byte 46 47 binary.
Definition Binary (internal : bytes) : bytes := replace_byte 47 46 internal.

(** ** Well-formed types

    What the parsers produce and the printers print back. *)

Definition wf_type (allowVoid : bool) (t : Ty) : Prop :=
  0 <= Dims t <= MaxDims /\
  match TKind t with
  | Invalid => False
  | Void => allowVoid = true /\ Dims t = 0 /\ Name t = []
  | Object => Name t <> [] /\ semi ∉ Name t
  | _ => Name t = []
  end.

Definition wf_method (m : Meth) : Prop :=
  Forall (wf_type false) (Params m) /\ wf_type true (Ret m).

(** ** Lemmas *)

Lemma count_dims_replicate n s :
  (forall s', s <> lbrack :: s') ->
  count_dims (replicate n lbrack ++ s) = (Z.of_nat n, s).
Proof.
  intros Hs. induction n as [|n IH]; cbn [replicate app count_dims].
  - destruct s as [|c s]; [reflexivity|]. cbn. destruct (Z.eqb_spec c lbrack); [subst; edestruct Hs; eauto|reflexivity].
  - rewrite IH. cbn. f_equal. lia.
Qed.

Lemma count_dims_inv s n r :
  count_dims s = (n, r) -> 0 <= n /\ s = replicate (Z.to_nat n) lbrack ++ r.
Proof.
  revert n r. induction s as [|c s IH]; intros n r H; cbn in H; [simplify_eq; split; [lia|reflexivity]|].
  destruct (Z.eqb_spec c lbrack) as [->|]; [|simplify_eq; split; [lia|reflexivity]].
  destruct (count_dims s) as [n' r'] eqn:E. simplify_eq. destruct (IH _ _ eq_refl) as [? ->].
  split; [lia|]. replace (Z.to_nat (n' + 1)) with (S (Z.to_nat n')) by lia. reflexivity.
Qed.

Lemma index_byte_some c pre s :
  c ∉ pre -> index_byte (pre ++ c :: s) c = Some (len pre).
Proof.
  induction pre as [|x pre IH]; intros H; cbn.
  - rewrite Z.eqb_refl. reflexivity.
  - apply not_elem_of_cons in H as [Hne H]. destruct (Z.eqb_spec x c); [congruence|].
    rewrite IH by auto. rewrite len_cons. reflexivity.
Qed.

Lemma index_byte_inv c s e :
  index_byte s c = Some e -> exists pre post, s = pre ++ c :: post /\ (c ∉ pre) /\ e = len pre.
Proof.
  revert e. induction s as [|x s IH]; intros e H; cbn [index_byte option_map] in H; [discriminate|].
  destruct (Z.eqb_spec x c) as [->|Hne].
  - simplify_eq. exists [], s. split; [reflexivity|]. split; [apply not_elem_of_nil|reflexivity].
  - destruct (index_byte s c) as [e'|] eqn:E; [|discriminate].
    apply (inj Some) in H. subst e.
    destruct (IH _ eq_refl) as (pre & post & -> & Hn & ->).
    exists (x :: pre), post. split; [reflexivity|]. split; [apply not_elem_of_cons; auto|].
    rewrite len_cons. lia.
Qed.

Lemma base_of_baseChar k :
  match k with Invalid | Void | Object => True | _ => base_of (baseChar k) = Some k end.
Proof. destruct k; reflexivity. Qed.

Lemma base_of_inv c k :
  base_of c = Some k -> baseChar k = c /\ k <> Invalid /\ k <> Void /\ k <> Object.
Proof.
  unfold base_of. intros H. repeat case_match; simplify_eq; to_Z; subst; repeat split; discriminate.
Qed.

Lemma TyString_len t :
  0 <= Dims t ->
  len (TyString t) = Dims t + (if bool_decide (TKind t = Object) then len (Name t) + 2 else 1).
Proof.
  intros. unfold TyString. rewrite len_app, len_replicate.
  case_bool_decide; rewrite ?len_cons, ?len_app, ?len_cons, ?len_nil; lia.
Qed.

Lemma parseType_print v t s :
  wf_type v t -> parseType (TyString t ++ s) v = Ok (t, len (TyString t)).
Proof.
  intros [Hd Hk]. rewrite TyString_len by lia. unfold parseType, TyString. rewrite <- app_assoc.
  destruct t as [k d nm]; cbn [TKind Dims Name] in *. set (n := Z.to_nat d).
  assert (Z.of_nat n = d) as Hn by lia.
  rewrite count_dims_replicate.
  2:{ destruct k; cbn; intros s' [=]; try discriminate. }
  rewrite Hn. decide_tests. destruct k; try contradiction.
  - destruct Hk as (-> & -> & ->). reflexivity.
  - cbn. subst nm. reflexivity.
  - cbn. subst nm. reflexivity.
  - cbn. subst nm. reflexivity.
  - cbn. subst nm. reflexivity.
  - cbn. subst nm. reflexivity.
  - cbn. subst nm. reflexivity.
  - cbn. subst nm. reflexivity.
  - cbn. subst nm. reflexivity.
  - destruct Hk as [Hne Hsemi]. cbn [bool_decide decide_rel]. rewrite bool_decide_eq_true_2 by reflexivity.
    cbn [app]. change (cL =? 86) with false. change (base_of cL) with (@None Kind). cbn iota.
    rewrite <- app_assoc. cbn [app]. change (cL :: nm ++ semi :: s) with ((cL :: nm) ++ semi :: s).
    rewrite index_byte_some by (apply not_elem_of_cons; split; [discriminate|auto]).
    replace (slice _ _ _) with nm.
    + destruct nm; [congruence|]. do 2 f_equal. rewrite !len_cons. lia.
    + symmetry.
      replace (replicate n lbrack ++ (cL :: nm) ++ semi :: s)
        with ((replicate n lbrack ++ [cL]) ++ nm ++ semi :: s) by (rewrite <- app_assoc; reflexivity).
      apply slice_app; rewrite len_app, len_replicate, ?len_cons, len_nil; lia.
Qed.

Lemma parseType_sound s v t n :
  parseType s v = Ok (t, n) ->
  wf_type v t /\ n = len (TyString t) /\ exists rest, s = TyString t ++ rest.
Proof.
  unfold parseType. destruct (count_dims s) as [d r] eqn:Ed. apply count_dims_inv in Ed as [Hd ->].
  intros H. destruct (Z.ltb_spec MaxDims d); [discriminate|]. destruct r as [|c r]; [discriminate|].
  assert (0 <= d <= MaxDims) by lia.
  destruct (Z.eqb_spec c 86) as [->|Hv].
  { destruct v; cbn in H; [|discriminate]. destruct (Z.ltb_spec 0 d); [discriminate|].
    simplify_eq. assert (d = 0) as -> by lia. split; [repeat split; auto|]. split; [reflexivity|]. exists r. reflexivity. }
  destruct (base_of c) as [k|] eqn:Eb.
  { simplify_eq. apply base_of_inv in Eb as (Hc & Hk1 & Hk2 & Hk3).
    assert (TyString {| TKind := k; Dims := d; Name := [] |} = replicate (Z.to_nat d) lbrack ++ [c]) as E.
    { unfold TyString. cbn [TKind Dims]. rewrite bool_decide_eq_false_2 by auto. subst c. reflexivity. }
    rewrite E, len_app, len_replicate. split; [split; [auto|cbn; destruct k; auto; congruence]|].
    split; [change (len [c]) with 1; lia|]. exists r. rewrite <- app_assoc. reflexivity. }
  destruct (Z.eqb_spec c cL) as [->|]; [|discriminate].
  destruct (index_byte (cL :: r) semi) as [e|] eqn:Ei; [|discriminate].
  apply index_byte_inv in Ei as (pre & post & Hr & Hsemi & ->).
  destruct pre as [|x nm]; [discriminate|]. injection Hr as <- ->.
  replace (slice _ _ _) with nm in H.
  2:{ symmetry. change (cL :: nm ++ semi :: post) with ([cL] ++ nm ++ semi :: post). rewrite app_assoc.
      apply slice_app; rewrite len_app, len_replicate, ?len_cons, len_nil; lia. }
  assert (forall k, TyString {| TKind := Object; Dims := d; Name := k |} = replicate (Z.to_nat d) lbrack ++ cL :: k ++ [semi]) as E by reflexivity.
  destruct nm as [|y nm]; [discriminate|]. injection H as <- <-. rewrite E.
  apply not_elem_of_cons in Hsemi as [_ Hsemi].
  split; [split; [auto|cbn; split; [discriminate|exact Hsemi]]|].
  split; [rewrite len_app, len_replicate, !len_cons, len_app, !len_cons, len_nil; lia|].
  exists post. rewrite <- app_assoc. cbn [app]. rewrite <- app_assoc. reflexivity.
Qed.

Lemma TyString_nonempty t : TyString t <> [].
Proof. unfold TyString. intros [_ H]%app_eq_nil. case_bool_decide; discriminate. Qed.

Lemma parseType_pos s v t n : parseType s v = Ok (t, n) -> 1 <= n.
Proof.
  intros H. apply parseType_sound in H as (_ & -> & _). pose proof (TyString_nonempty t).
  destruct (TyString t); [congruence|]. rewrite len_cons. pose proof (len_nonneg l). lia.
Qed.

(** ** Whole descriptors *)

Lemma whole_inv s v t n :
  parseType s v = Ok (t, n) -> n = len s -> wf_type v t /\ s = TyString t.
Proof.
  intros H Hn. apply parseType_sound in H as (Hwf & -> & rest & ->). split; [exact Hwf|].
  rewrite len_app in Hn. destruct rest; [apply app_nil_r|].
  rewrite len_cons in Hn. pose proof (len_nonneg rest). lia.
Qed.

Lemma whole_print v t : wf_type v t -> parseType (TyString t) v = Ok (t, len (TyString t)).
Proof. intros H. rewrite <- (app_nil_r (TyString t)) at 1. apply parseType_print. exact H. Qed.

Lemma ParseReturn_iff s t : ParseReturn s = Ok t <-> wf_type true t /\ s = TyString t.
Proof.
  unfold ParseReturn. split.
  - intros H. bind_inv H. destruct a as [t' k]. destruct (Z.eqb_spec k (len s)); cbn in H; [|discriminate].
    injection H as ->. eapply whole_inv; eauto.
  - intros [H ->]. rewrite whole_print by exact H. cbn. rewrite Z.eqb_refl. reflexivity.
Qed.

Lemma parse_params_sound f s ts rest :
  parse_params f s = Ok (ts, rest) ->
  Forall (wf_type false) ts /\ s = flat_map TyString ts ++ rest /\
  (rest = [] \/ exists r, rest = rparen :: r).
Proof.
  revert s ts rest. induction f as [|f IH]; intros [|c s] ts rest H; cbn [parse_params] in H;
    try (injection H as <- <-; repeat split; auto; fail);
    (destruct (Z.eqb_spec c rparen) as [->|Hne]; [injection H as <- <-; repeat split; eauto|]); [discriminate|].
  bind_inv H. destruct a as [t k]. bind_inv H. destruct a as [ts' rest']. injection H as <- <-.
  apply parseType_sound in E as (Hwf & -> & r & Hs). rewrite Hs in E0 |- *.
  unfold len in E0. rewrite Nat2Z.id, drop_app_length in E0.
  apply IH in E0 as (H1 & -> & H2). cbn [flat_map]. rewrite <- app_assoc. auto.
Qed.

Lemma parse_params_print f ts r :
  Forall (wf_type false) ts -> (length (flat_map TyString ts) <= f)%nat ->
  parse_params f (flat_map TyString ts ++ rparen :: r) = Ok (ts, rparen :: r).
Proof.
  intros H. revert f. induction H as [|t ts Ht _ IH]; intros f Hf; [destruct f; reflexivity|].
  cbn [flat_map] in *. rewrite length_app in Hf. rewrite <- app_assoc.
  pose proof (parseType_print false t (flat_map TyString ts ++ rparen :: r) Ht) as E.
  assert (exists c u, TyString t = c :: u /\ c <> rparen) as (c & u & Eq & Hc).
  { unfold TyString. destruct (Z.to_nat (Dims t)); [|eexists _, _; split; [reflexivity|discriminate]].
    destruct Ht as [_ Ht]. case_bool_decide; eexists _, _; (split; [reflexivity|]); [discriminate|].
    destruct (TKind t); try contradiction; discriminate. }
  rewrite Eq in *. cbn [app length] in *. destruct f as [|f]; [lia|]. cbn [parse_params].
  destruct (Z.eqb_spec c rparen); [congruence|]. rewrite E. cbn. unfold len. rewrite Nat2Z.id.
  change (c :: u ++ ?x) with ((c :: u) ++ x). rewrite drop_app_length, IH by lia. reflexivity.
Qed.

Lemma parse_params_total f s : (length s <= f)%nat -> parse_params f s <> Err (Errorf "out of fuel" []).
Proof.
  revert s. induction f as [|f IH]; intros [|c s] Hf; cbn [parse_params length] in *; try discriminate; [lia|].
  destruct (c =? rparen); [discriminate|].
  destruct (parseType (c :: s) false) as [[t n]|e] eqn:E; cbn.
  - apply parseType_pos in E. intros H. apply bind_err_inv in H as [H|([? ?] & _ & H)]; [|discriminate].
    revert H. apply IH. rewrite length_drop. cbn [length]. lia.
  - intros [= ->]. unfold parseType in E. repeat (case_match; simplify_eq).
Qed.

(** ** Properties *)

(** The field-descriptor parser accepts exactly the printed forms of the
    well-formed types (at most 255 dimensions, a nonempty class name without
    ';', no void), and returns the type that was printed. *)
Lemma ParseField_iff s t : ParseField s = Ok t <-> wf_type false t /\ s = TyString t.
Proof.
  unfold ParseField. split.
  - intros H. bind_inv H. destruct a as [t' k]. destruct (Z.eqb_spec k (len s)); cbn in H; [|discriminate].
    injection H as ->. eapply whole_inv; eauto.
  - intros [H ->]. rewrite whole_print by exact H. cbn. rewrite Z.eqb_refl. reflexivity.
Qed.

(** The method-descriptor parser accepts exactly the printed forms of the
    well-formed signatures, whatever characters (a right paren included) the
    class names hold, and returns the signature that was printed. *)
Lemma ParseMethod_iff s m : ParseMethod s = Ok m <-> wf_method m /\ s = MethString m.
Proof.
  unfold ParseMethod, MethString. split.
  - intros H. destruct s as [|c s]; [discriminate|]. destruct (_ || _) eqn:E0; [discriminate|]. to_Z. subst c.
    bind_inv H. destruct a as [ps rest]. apply parse_params_sound in E as (H1 & -> & [->|[r ->]]); [discriminate|].
    bind_inv H. injection H as <-. apply ParseReturn_iff in E as [H2 ->].
    split; [split; assumption|reflexivity].
  - intros [[H1 H2] ->]. destruct m as [ps ret]. cbn [Params Ret] in *.
    assert (3 <= len (lparen :: flat_map TyString ps ++ rparen :: TyString ret)).
    { pose proof (TyString_nonempty ret). destruct (TyString ret); [congruence|].
      rewrite len_cons, len_app, !len_cons. pose proof (len_nonneg (flat_map TyString ps)).
      pose proof (len_nonneg l). lia. }
    decide_tests. rewrite parse_params_print; auto; [|cbn [length]; rewrite length_app; lia].
    cbn. rewrite (proj2 (ParseReturn_iff (TyString ret) ret)) by auto. reflexivity.
Qed.

(** [ParseMethod] terminates with a verdict of its own on every input: the
    parameter loop consumes a byte per turn, so the length bounds its turns. *)
Lemma ParseMethod_total s : ParseMethod s <> Err (Errorf "out of fuel" []).
Proof.
  unfold ParseMethod. destruct s as [|c s]; [discriminate|]. destruct (_ || _); [discriminate|].
  intros H. apply bind_err_inv in H as [H|([ps rest] & _ & H)].
  - revert H. apply parse_params_total. cbn [length]. lia.
  - destruct rest as [|x r]; [discriminate|].
    apply bind_err_inv in H as [H|(? & _ & H)]; [|discriminate]. unfold ParseReturn, parseType in H.
    apply bind_err_inv in H as [H|([? ?] & _ & H)]; repeat (case_match; simplify_eq).
Qed.

(** C39: the parsers of field and of method descriptors accept exactly the
    printed forms of the well-formed types and signatures (at most 255
    dimensions, class names that are not empty and hold no ';', whatever else
    they hold), return what was printed, and end on every input. *)
Theorem parsers_exact (s : bytes) :
  (forall t, ParseField s = Ok t <-> wf_type false t /\ s = TyString t) /\
  (forall m, ParseMethod s = Ok m <-> wf_method m /\ s = MethString m) /\
  ParseMethod s <> Err (Errorf "out of fuel" []).
Proof. split; [intros t; apply ParseField_iff|split; [intros m; apply ParseMethod_iff|apply ParseMethod_total]]. Qed.

Lemma Slots_range t : 0 <= Slots t <= 2.
Proof. unfold Slots. repeat case_match; lia. Qed.

Lemma ArgSlots_eq m receiver :
  ArgSlots m receiver = (if receiver then 1 else 0) + foldr Z.add 0 (map Slots (Params m)).
Proof.
  unfold ArgSlots. generalize (if receiver then 1 else 0). induction (Params m) as [|p ps IH]; intros n; cbn.
  - lia.
  - rewrite IH. lia.
Qed.

Lemma CheckArgSlots_none m receiver :
  CheckArgSlots m receiver = None -> 0 <= ArgSlots m receiver <= MaxArgSlots.
Proof.
  unfold CheckArgSlots. destruct (Z.ltb_spec MaxArgSlots (ArgSlots m receiver)); [discriminate|]. intros _.
  split; [|lia]. rewrite ArgSlots_eq.
  assert (0 <= foldr Z.add 0 (map Slots (Params m))).
  { induction (Params m) as [|p ps IH]; cbn; [lia|]. pose proof (Slots_range p). lia. }
  destruct receiver; lia.
Qed.
