(* ===== verification/Op.v ===== *)
(** * The instruction set ([jvm/op/op.go])

    The opcode constants, the table of mnemonics, operand shapes and lengths,
    and the predicates over them.  An opcode is its byte value. *)
From S2P Require Import Prelude.

(** The operand shape that follows an opcode; [NoneK] is the source's [None]. *)
Inductive Kind :=
  | Unused | NoneK | Local | ConstU1 | ConstU2 | Byte1 | Short2 | Branch2 | Branch4
  | IincK | NewarrayK | MultiK | InterfaceK | DynamicK | TableswitchK | LookupswitchK | WideK.

#[export] Instance Kind_eq_dec : EqDecision Kind.
Proof. solve_decision. Defined.

(** ** Opcodes *)

Definition Nop : Z := 0.
Definition AconstNull : Z := 1.
Definition IconstM1 : Z := 2.
Definition Iconst0 : Z := 3.
Definition Iconst1 : Z := 4.
Definition Iconst2 : Z := 5.
Definition Iconst3 : Z := 6.
Definition Iconst4 : Z := 7.
Definition Iconst5 : Z := 8.
Definition Lconst0 : Z := 9.
Definition Lconst1 : Z := 10.
Definition Fconst0 : Z := 11.
Definition Fconst1 : Z := 12.
Definition Fconst2 : Z := 13.
Definition Dconst0 : Z := 14.
Definition Dconst1 : Z := 15.
Definition Bipush : Z := 16.
Definition Sipush : Z := 17.
Definition Ldc : Z := 18.
Definition LdcW : Z := 19.
Definition Ldc2W : Z := 20.
Definition Iload : Z := 21.
Definition Lload : Z := 22.
Definition Fload : Z := 23.
Definition Dload : Z := 24.
Definition Aload : Z := 25.
Definition Iload0 : Z := 26.
Definition Iload1 : Z := 27.
Definition Iload2 : Z := 28.
Definition Iload3 : Z := 29.
Definition Lload0 : Z := 30.
Definition Lload1 : Z := 31.
Definition Lload2 : Z := 32.
Definition Lload3 : Z := 33.
Definition Fload0 : Z := 34.
Definition Fload1 : Z := 35.
Definition Fload2 : Z := 36.
Definition Fload3 : Z := 37.
Definition Dload0 : Z := 38.
Definition Dload1 : Z := 39.
Definition Dload2 : Z := 40.
Definition Dload3 : Z := 41.
Definition Aload0 : Z := 42.
Definition Aload1 : Z := 43.
Definition Aload2 : Z := 44.
Definition Aload3 : Z := 45.
Definition Iaload : Z := 46.
Definition Laload : Z := 47.
Definition Faload : Z := 48.
Definition Daload : Z := 49.
Definition Aaload : Z := 50.
Definition Baload : Z := 51.
Definition Caload : Z := 52.
Definition Saload : Z := 53.
Definition Istore : Z := 54.
Definition Lstore : Z := 55.
Definition Fstore : Z := 56.
Definition Dstore : Z := 57.
Definition Astore : Z := 58.
Definition Istore0 : Z := 59.
Definition Istore1 : Z := 60.
Definition Istore2 : Z := 61.
Definition Istore3 : Z := 62.
Definition Lstore0 : Z := 63.
Definition Lstore1 : Z := 64.
Definition Lstore2 : Z := 65.
Definition Lstore3 : Z := 66.
Definition Fstore0 : Z := 67.
Definition Fstore1 : Z := 68.
Definition Fstore2 : Z := 69.
Definition Fstore3 : Z := 70.
Definition Dstore0 : Z := 71.
Definition Dstore1 : Z := 72.
Definition Dstore2 : Z := 73.
Definition Dstore3 : Z := 74.
Definition Astore0 : Z := 75.
Definition Astore1 : Z := 76.
Definition Astore2 : Z := 77.
Definition Astore3 : Z := 78.
Definition Iastore : Z := 79.
Definition Lastore : Z := 80.
Definition Fastore : Z := 81.
Definition Dastore : Z := 82.
Definition Aastore : Z := 83.
Definition Bastore : Z := 84.
Definition Castore : Z := 85.
Definition Sastore : Z := 86.
Definition Pop : Z := 87.
Definition Pop2 : Z := 88.
Definition Dup : Z := 89.
Definition DupX1 : Z := 90.
Definition DupX2 : Z := 91.
Definition Dup2 : Z := 92.
Definition Dup2X1 : Z := 93.
Definition Dup2X2 : Z := 94.
Definition Swap : Z := 95.
Definition Iadd : Z := 96.
Definition Ladd : Z := 97.
Definition Fadd : Z := 98.
Definition Dadd : Z := 99.
Definition Isub : Z := 100.
Definition Lsub : Z := 101.
Definition Fsub : Z := 102.
Definition Dsub : Z := 103.
Definition Imul : Z := 104.
Definition Lmul : Z := 105.
Definition Fmul : Z := 106.
Definition Dmul : Z := 107.
Definition Idiv : Z := 108.
Definition Ldiv : Z := 109.
Definition Fdiv : Z := 110.
Definition Ddiv : Z := 111.
Definition Irem : Z := 112.
Definition Lrem : Z := 113.
Definition Frem : Z := 114.
Definition Drem : Z := 115.
Definition Ineg : Z := 116.
Definition Lneg : Z := 117.
Definition Fneg : Z := 118.
Definition Dneg : Z := 119.
Definition Ishl : Z := 120.
Definition Lshl : Z := 121.
Definition Ishr : Z := 122.
Definition Lshr : Z := 123.
Definition Iushr : Z := 124.
Definition Lushr : Z := 125.
Definition Iand : Z := 126.
Definition Land : Z := 127.
Definition Ior : Z := 128.
Definition Lor : Z := 129.
Definition Ixor : Z := 130.
Definition Lxor : Z := 131.
Definition Iinc : Z := 132.
Definition I2l : Z := 133.
Definition I2f : Z := 134.
Definition I2d : Z := 135.
Definition L2i : Z := 136.
Definition L2f : Z := 137.
Definition L2d : Z := 138.
Definition F2i : Z := 139.
Definition F2l : Z := 140.
Definition F2d : Z := 141.
Definition D2i : Z := 142.
Definition D2l : Z := 143.
Definition D2f : Z := 144.
Definition I2b : Z := 145.
Definition I2c : Z := 146.
Definition I2s : Z := 147.
Definition Lcmp : Z := 148.
Definition Fcmpl : Z := 149.
Definition Fcmpg : Z := 150.
Definition Dcmpl : Z := 151.
Definition Dcmpg : Z := 152.
Definition Ifeq : Z := 153.
Definition Ifne : Z := 154.
Definition Iflt : Z := 155.
Definition Ifge : Z := 156.
Definition Ifgt : Z := 157.
Definition Ifle : Z := 158.
Definition IfIcmpeq : Z := 159.
Definition IfIcmpne : Z := 160.
Definition IfIcmplt : Z := 161.
Definition IfIcmpge : Z := 162.
Definition IfIcmpgt : Z := 163.
Definition IfIcmple : Z := 164.
Definition IfAcmpeq : Z := 165.
Definition IfAcmpne : Z := 166.
Definition Goto : Z := 167.
Definition Jsr : Z := 168.
Definition Ret : Z := 169.
Definition Tableswitch : Z := 170.
Definition Lookupswitch : Z := 171.
Definition Ireturn : Z := 172.
Definition Lreturn : Z := 173.
Definition Freturn : Z := 174.
Definition Dreturn : Z := 175.
Definition Areturn : Z := 176.
Definition Return : Z := 177.
Definition Getstatic : Z := 178.
Definition Putstatic : Z := 179.
Definition Getfield : Z := 180.
Definition Putfield : Z := 181.
Definition Invokevirtual : Z := 182.
Definition Invokespecial : Z := 183.
Definition Invokestatic : Z := 184.
Definition Invokeinterface : Z := 185.
Definition Invokedynamic : Z := 186.
Definition New : Z := 187.
Definition Newarray : Z := 188.
Definition Anewarray : Z := 189.
Definition Arraylength : Z := 190.
Definition Athrow : Z := 191.
Definition Checkcast : Z := 192.
Definition Instanceof : Z := 193.
Definition Monitorenter : Z := 194.
Definition Monitorexit : Z := 195.
Definition Wide : Z := 196.
Definition Multianewarray : Z := 197.
Definition Ifnull : Z := 198.
Definition Ifnonnull : Z := 199.
Definition GotoW : Z := 200.
Definition JsrW : Z := 201.
Definition Breakpoint : Z := 202.
Definition Impdep1 : Z := 254.
Definition Impdep2 : Z := 255.

(** ** The table *)

(** [InfoLen] is the instruction length in bytes, or -1 if it varies. *)
Record Info := mkInfo { InfoName : string; InfoKind : Kind; InfoLen : Z }.

Definition noInfo : Info := mkInfo "" Unused 0.

Definition table : list Info := [
  mkInfo "nop" NoneK 1;
  mkInfo "aconst_null" NoneK 1;
  mkInfo "iconst_m1" NoneK 1;
  mkInfo "iconst_0" NoneK 1;
  mkInfo "iconst_1" NoneK 1;
  mkInfo "iconst_2" NoneK 1;
  mkInfo "iconst_3" NoneK 1;
  mkInfo "iconst_4" NoneK 1;
  mkInfo "iconst_5" NoneK 1;
  mkInfo "lconst_0" NoneK 1;
  mkInfo "lconst_1" NoneK 1;
  mkInfo "fconst_0" NoneK 1;
  mkInfo "fconst_1" NoneK 1;
  mkInfo "fconst_2" NoneK 1;
  mkInfo "dconst_0" NoneK 1;
  mkInfo "dconst_1" NoneK 1;
  mkInfo "bipush" Byte1 2;
  mkInfo "sipush" Short2 3;
  mkInfo "ldc" ConstU1 2;
  mkInfo "ldc_w" ConstU2 3;
  mkInfo "ldc2_w" ConstU2 3;
  mkInfo "iload" Local 2;
  mkInfo "lload" Local 2;
  mkInfo "fload" Local 2;
  mkInfo "dload" Local 2;
  mkInfo "aload" Local 2;
  mkInfo "iload_0" NoneK 1;
  mkInfo "iload_1" NoneK 1;
  mkInfo "iload_2" NoneK 1;
  mkInfo "iload_3" NoneK 1;
  mkInfo "lload_0" NoneK 1;
  mkInfo "lload_1" NoneK 1;
  mkInfo "lload_2" NoneK 1;
  mkInfo "lload_3" NoneK 1;
  mkInfo "fload_0" NoneK 1;
  mkInfo "fload_1" NoneK 1;
  mkInfo "fload_2" NoneK 1;
  mkInfo "fload_3" NoneK 1;
  mkInfo "dload_0" NoneK 1;
  mkInfo "dload_1" NoneK 1;
  mkInfo "dload_2" NoneK 1;
  mkInfo "dload_3" NoneK 1;
  mkInfo "aload_0" NoneK 1;
  mkInfo "aload_1" NoneK 1;
  mkInfo "aload_2" NoneK 1;
  mkInfo "aload_3" NoneK 1;
  mkInfo "iaload" NoneK 1;
  mkInfo "laload" NoneK 1;
  mkInfo "faload" NoneK 1;
  mkInfo "daload" NoneK 1;
  mkInfo "aaload" NoneK 1;
  mkInfo "baload" NoneK 1;
  mkInfo "caload" NoneK 1;
  mkInfo "saload" NoneK 1;
  mkInfo "istore" Local 2;
  mkInfo "lstore" Local 2;
  mkInfo "fstore" Local 2;
  mkInfo "dstore" Local 2;
  mkInfo "astore" Local 2;
  mkInfo "istore_0" NoneK 1;
  mkInfo "istore_1" NoneK 1;
  mkInfo "istore_2" NoneK 1;
  mkInfo "istore_3" NoneK 1;
  mkInfo "lstore_0" NoneK 1;
  mkInfo "lstore_1" NoneK 1;
  mkInfo "lstore_2" NoneK 1;
  mkInfo "lstore_3" NoneK 1;
  mkInfo "fstore_0" NoneK 1;
  mkInfo "fstore_1" NoneK 1;
  mkInfo "fstore_2" NoneK 1;
  mkInfo "fstore_3" NoneK 1;
  mkInfo "dstore_0" NoneK 1;
  mkInfo "dstore_1" NoneK 1;
  mkInfo "dstore_2" NoneK 1;
  mkInfo "dstore_3" NoneK 1;
  mkInfo "astore_0" NoneK 1;
  mkInfo "astore_1" NoneK 1;
  mkInfo "astore_2" NoneK 1;
  mkInfo "astore_3" NoneK 1;
  mkInfo "iastore" NoneK 1;
  mkInfo "lastore" NoneK 1;
  mkInfo "fastore" NoneK 1;
  mkInfo "dastore" NoneK 1;
  mkInfo "aastore" NoneK 1;
  mkInfo "bastore" NoneK 1;
  mkInfo "castore" NoneK 1;
  mkInfo "sastore" NoneK 1;
  mkInfo "pop" NoneK 1;
  mkInfo "pop2" NoneK 1;
  mkInfo "dup" NoneK 1;
  mkInfo "dup_x1" NoneK 1;
  mkInfo "dup_x2" NoneK 1;
  mkInfo "dup2" NoneK 1;
  mkInfo "dup2_x1" NoneK 1;
  mkInfo "dup2_x2" NoneK 1;
  mkInfo "swap" NoneK 1;
  mkInfo "iadd" NoneK 1;
  mkInfo "ladd" NoneK 1;
  mkInfo "fadd" NoneK 1;
  mkInfo "dadd" NoneK 1;
  mkInfo "isub" NoneK 1;
  mkInfo "lsub" NoneK 1;
  mkInfo "fsub" NoneK 1;
  mkInfo "dsub" NoneK 1;
  mkInfo "imul" NoneK 1;
  mkInfo "lmul" NoneK 1;
  mkInfo "fmul" NoneK 1;
  mkInfo "dmul" NoneK 1;
  mkInfo "idiv" NoneK 1;
  mkInfo "ldiv" NoneK 1;
  mkInfo "fdiv" NoneK 1;
  mkInfo "ddiv" NoneK 1;
  mkInfo "irem" NoneK 1;
  mkInfo "lrem" NoneK 1;
  mkInfo "frem" NoneK 1;
  mkInfo "drem" NoneK 1;
  mkInfo "ineg" NoneK 1;
  mkInfo "lneg" NoneK 1;
  mkInfo "fneg" NoneK 1;
  mkInfo "dneg" NoneK 1;
  mkInfo "ishl" NoneK 1;
  mkInfo "lshl" NoneK 1;
  mkInfo "ishr" NoneK 1;
  mkInfo "lshr" NoneK 1;
  mkInfo "iushr" NoneK 1;
  mkInfo "lushr" NoneK 1;
  mkInfo "iand" NoneK 1;
  mkInfo "land" NoneK 1;
  mkInfo "ior" NoneK 1;
  mkInfo "lor" NoneK 1;
  mkInfo "ixor" NoneK 1;
  mkInfo "lxor" NoneK 1;
  mkInfo "iinc" IincK 3;
  mkInfo "i2l" NoneK 1;
  mkInfo "i2f" NoneK 1;
  mkInfo "i2d" NoneK 1;
  mkInfo "l2i" NoneK 1;
  mkInfo "l2f" NoneK 1;
  mkInfo "l2d" NoneK 1;
  mkInfo "f2i" NoneK 1;
  mkInfo "f2l" NoneK 1;
  mkInfo "f2d" NoneK 1;
  mkInfo "d2i" NoneK 1;
  mkInfo "d2l" NoneK 1;
  mkInfo "d2f" NoneK 1;
  mkInfo "i2b" NoneK 1;
  mkInfo "i2c" NoneK 1;
  mkInfo "i2s" NoneK 1;
  mkInfo "lcmp" NoneK 1;
  mkInfo "fcmpl" NoneK 1;
  mkInfo "fcmpg" NoneK 1;
  mkInfo "dcmpl" NoneK 1;
  mkInfo "dcmpg" NoneK 1;
  mkInfo "ifeq" Branch2 3;
  mkInfo "ifne" Branch2 3;
  mkInfo "iflt" Branch2 3;
  mkInfo "ifge" Branch2 3;
  mkInfo "ifgt" Branch2 3;
  mkInfo "ifle" Branch2 3;
  mkInfo "if_icmpeq" Branch2 3;
  mkInfo "if_icmpne" Branch2 3;
  mkInfo "if_icmplt" Branch2 3;
  mkInfo "if_icmpge" Branch2 3;
  mkInfo "if_icmpgt" Branch2 3;
  mkInfo "if_icmple" Branch2 3;
  mkInfo "if_acmpeq" Branch2 3;
  mkInfo "if_acmpne" Branch2 3;
  mkInfo "goto" Branch2 3;
  mkInfo "jsr" Branch2 3;
  mkInfo "ret" Local 2;
  mkInfo "tableswitch" TableswitchK (-1);
  mkInfo "lookupswitch" LookupswitchK (-1);
  mkInfo "ireturn" NoneK 1;
  mkInfo "lreturn" NoneK 1;
  mkInfo "freturn" NoneK 1;
  mkInfo "dreturn" NoneK 1;
  mkInfo "areturn" NoneK 1;
  mkInfo "return" NoneK 1;
  mkInfo "getstatic" ConstU2 3;
  mkInfo "putstatic" ConstU2 3;
  mkInfo "getfield" ConstU2 3;
  mkInfo "putfield" ConstU2 3;
  mkInfo "invokevirtual" ConstU2 3;
  mkInfo "invokespecial" ConstU2 3;
  mkInfo "invokestatic" ConstU2 3;
  mkInfo "invokeinterface" InterfaceK 5;
  mkInfo "invokedynamic" DynamicK 5;
  mkInfo "new" ConstU2 3;
  mkInfo "newarray" NewarrayK 2;
  mkInfo "anewarray" ConstU2 3;
  mkInfo "arraylength" NoneK 1;
  mkInfo "athrow" NoneK 1;
  mkInfo "checkcast" ConstU2 3;
  mkInfo "instanceof" ConstU2 3;
  mkInfo "monitorenter" NoneK 1;
  mkInfo "monitorexit" NoneK 1;
  mkInfo "wide" WideK (-1);
  mkInfo "multianewarray" MultiK 4;
  mkInfo "ifnull" Branch2 3;
  mkInfo "ifnonnull" Branch2 3;
  mkInfo "goto_w" Branch4 5;
  mkInfo "jsr_w" Branch4 5;
  mkInfo "breakpoint" Unused 1;
  noInfo;
  noInfo;
  noInfo;
  noInfo;
  noInfo;
  noInfo;
  noInfo;
  noInfo;
  noInfo;
  noInfo;
  noInfo;
  noInfo;
  noInfo;
  noInfo;
  noInfo;
  noInfo;
  noInfo;
  noInfo;
  noInfo;
  noInfo;
  noInfo;
  noInfo;
  noInfo;
  noInfo;
  noInfo;
  noInfo;
  noInfo;
  noInfo;
  noInfo;
  noInfo;
  noInfo;
  noInfo;
  noInfo;
  noInfo;
  noInfo;
  noInfo;
  noInfo;
  noInfo;
  noInfo;
  noInfo;
  noInfo;
  noInfo;
  noInfo;
  noInfo;
  noInfo;
  noInfo;
  noInfo;
  noInfo;
  noInfo;
  noInfo;
  noInfo;
  mkInfo "impdep1" Unused 1;
  mkInfo "impdep2" Unused 1
].

Definition info (o : Z) : Info := nth (Z.to_nat o) table noInfo.

Definition OpName (o : Z) : string := InfoName (info o).
Definition OpKind (o : Z) : Kind := InfoKind (info o).
Definition OpLen (o : Z) : Z := InfoLen (info o).
Definition Valid (o : Z) : bool := negb (bool_decide (OpKind o = Unused)).

(** [itoa]'s loop: [room] is how much of the four-byte buffer is left, and a
    write past its front would panic. *)
Fixpoint itoa_loop (room : nat) (n : Z) (acc : bytes) : option bytes :=
  if n <=? 0 then Some acc
  else match room with
       | O => None
       | S r => itoa_loop r (n / 10) (48 + n mod 10 :: acc)
       end.

Definition itoa (n : Z) : option bytes := if n =? 0 then Some (bs "0") else itoa_loop 4 n [].

Definition OpString (o : Z) : option bytes :=
  match OpName o with
  | EmptyString => s ← itoa o; Some (bs "op(" ++ s ++ bs ")")
  | n => Some (bs n)
  end.

Definition IsReturn (o : Z) : bool := (Ireturn <=? o) && (o <=? Return).
Definition IsInvoke (o : Z) : bool := (Invokevirtual <=? o) && (o <=? Invokedynamic).
Definition IsFieldAccess (o : Z) : bool := (Getstatic <=? o) && (o <=? Putfield).

Definition IsBranch (o : Z) : bool :=
  ((Ifeq <=? o) && (o <=? Goto)) || (o =? Ifnull) || (o =? Ifnonnull) || (o =? GotoW).

Definition Terminates (o : Z) : bool :=
  IsReturn o || (o =? Athrow) || (o =? Goto) || (o =? GotoW)
  || (o =? Tableswitch) || (o =? Lookupswitch) || (o =? Ret).

(** The primitive array type codes of newarray. *)
Definition TBoolean : Z := 4.
Definition TChar : Z := 5.
Definition TFloat : Z := 6.
Definition TDouble : Z := 7.
Definition TByte : Z := 8.
Definition TShort : Z := 9.
Definition TInt : Z := 10.
Definition TLong : Z := 11.

Definition ArrayTypeName (code : Z) : string :=
  if code =? TBoolean then "Z" else if code =? TChar then "C" else if code =? TFloat then "F"
  else if code =? TDouble then "D" else if code =? TByte then "B" else if code =? TShort then "S"
  else if code =? TInt then "I" else if code =? TLong then "J" else "".

(** ** What the table promises *)

(** The length an operand shape dictates: the opcode byte and its operands. *)
Definition shape_len (k : Kind) : Z :=
  match k with
  | NoneK => 1
  | Local | ConstU1 | Byte1 | NewarrayK => 2
  | ConstU2 | Short2 | Branch2 | IincK => 3
  | MultiK => 4
  | Branch4 | InterfaceK | DynamicK => 5
  | TableswitchK | LookupswitchK | WideK => -1
  | Unused => 0
  end.

Lemma table_facts o :
  0 <= o < 256 ->
  Valid o = (o <=? JsrW) /\
  (Valid o = true -> OpLen o = shape_len (OpKind o)) /\
  (Valid o = true -> OpLen o < 0 -> o = Tableswitch \/ o = Lookupswitch \/ o = Wide) /\
  (IsBranch o = true -> OpKind o = Branch2 \/ OpKind o = Branch4) /\
  is_Some (OpString o).
Proof.
  intros Ho.
  pose (P := fun o =>
    Bool.eqb (Valid o) (o <=? JsrW) &&
    implb (Valid o) (OpLen o =? shape_len (OpKind o)) &&
    implb (Valid o && (OpLen o <? 0)) ((o =? Tableswitch) || (o =? Lookupswitch) || (o =? Wide)) &&
    implb (IsBranch o) (bool_decide (OpKind o = Branch2) || bool_decide (OpKind o = Branch4)) &&
    bool_decide (is_Some (OpString o))).
  assert (P o = true) as H by (apply byte_forall; [vm_compute; reflexivity|lia]).
  subst P. cbv beta in H. to_Z. split_and!.
  - apply eqb_prop. assumption.
  - intros E. rewrite E in *. cbn in *. lia.
  - intros E L. rewrite E in *. apply Z.ltb_lt in L. rewrite L in *. cbn in *. lia.
  - intros E. rewrite E in *. cbn in *. to_Z. destruct H1 as [H1|H1]; apply bool_decide_eq_true_1 in H1; auto.
  - eapply bool_decide_eq_true_1. eassumption.
Qed.

(** The opcode table is consistent over all 256 bytes: exactly the opcodes
    up to jsr_w are valid; a valid opcode's length is the one its operand shape
    dictates; only wide and the two switches have no fixed length; a branch
    opcode has a branch operand; and a mnemonic always renders, within [itoa]'s
    buffer. *)
Theorem table_consistent o :
  0 <= o < 256 ->
  Valid o = (o <=? JsrW) /\
  (Valid o = true -> OpLen o = shape_len (OpKind o)) /\
  (Valid o = true -> OpLen o < 0 -> o = Tableswitch \/ o = Lookupswitch \/ o = Wide) /\
  (IsBranch o = true -> OpKind o = Branch2 \/ OpKind o = Branch4) /\
  is_Some (OpString o).
Proof. apply table_facts. Qed.

(** Distinct opcodes never share a spelling, so a disassembly names the
    opcode it came from. *)
Lemma spelling_injective o o' s :
  0 <= o < 256 -> 0 <= o' < 256 -> OpString o = Some s -> OpString o' = Some s -> o = o'.
Proof.
  intros Ho Ho' H H'.
  assert (forallb (fun a => forallb (fun b =>
    (a =? b) || negb (bool_decide (OpString a = OpString b))) all_bytes) all_bytes = true) as C
    by (vm_compute; reflexivity).
  apply (byte_forall (fun a => forallb (fun b =>
    (a =? b) || negb (bool_decide (OpString a = OpString b))) all_bytes) o) in C; auto.
  apply (byte_forall (fun b => (o =? b) || negb (bool_decide (OpString o = OpString b))) o') in C; auto.
  to_Z. destruct C as [C|C]; to_Z; [exact C|]. apply bool_decide_eq_false_1 in C. congruence.
Qed.

Lemma table_consistent_witness :
  Valid Goto = (Goto <=? JsrW) /\
  (Valid Goto = true -> OpLen Goto = shape_len (OpKind Goto)) /\
  (Valid Goto = true -> OpLen Goto < 0 -> Goto = Tableswitch \/ Goto = Lookupswitch \/ Goto = Wide) /\
  (IsBranch Goto = true -> OpKind Goto = Branch2 \/ OpKind Goto = Branch4) /\
  is_Some (OpString Goto).
Proof. apply (table_consistent Goto). unfold Goto. lia. Defined.

Lemma spelling_injective_witness : Bipush = 16.
Proof. apply (spelling_injective Bipush 16 (bs "bipush")); first [reflexivity | unfold Bipush; lia]. Defined.
