(* ===== verification/ClassIO.v ===== *)
(** * Big-endian cursors ([classfile/reader.go], [classfile/writer.go])

    The bounded reader with a sticky error and the writer with backpatching.
    [reads m x a] is the contract the decoders are proved against: on input that
    starts with the bytes [x], [m] returns [a] and moves past them. *)
From S2P Require Import Prelude.

(** ** The reader *)

Record SyntaxError := { EFile : bytes; EOff : Z; EMsg : goerror }.

(** The [Error] method: the position prefixed to the message. *)
Definition Error (e : SyntaxError) : goerror :=
  Errorf "%s:0x%x: %s"
    [AStr (match EFile e with [] => bs "class file" | f => f end); ANum (EOff e); AErr (EMsg e)].

Record reader := mkReader { rb : bytes; roff : Z; rfile : bytes; rerr : option SyntaxError }.

Definition with_off (r : reader) (o : Z) : reader := mkReader (rb r) o (rfile r) (rerr r).

Definition fail (msg : goerror) (r : reader) : reader :=
  match rerr r with
  | Some _ => r
  | None => mkReader (rb r) (roff r) (rfile r) (Some {| EFile := rfile r; EOff := roff r; EMsg := msg |})
  end.

Definition done (r : reader) : bool := match rerr r with Some _ => true | None => false end.

(** [short]: whether fewer than [n] bytes can be read; if so, an error is set. *)
Definition short (n : Z) (what : string) (r : reader) : bool * reader :=
  if done r then (true, r)
  else if len (rb r) <? roff r + n
  then (true, fail (Errorf "unexpected end of file reading %s (want %d bytes, have %d)"
                      [AText what; ANum n; ANum (len (rb r) - roff r)]) r)
  else (false, r).

(** [r.b[i]]; every use is guarded by [short]. *)
Definition byte_at (b : bytes) (i : Z) : Z := nth (Z.to_nat i) b 0.

Definition Rd (A : Type) : Type := reader -> A * reader.

#[export] Instance Rd_ret : MRet Rd := fun _ a r => (a, r).
#[export] Instance Rd_bind : MBind Rd := fun _ _ k m r => let '(a, r') := m r in k a r'.

Definition rU1 : Rd Z := fun r =>
  let '(bad, r) := short 1 "u1" r in
  if bad then (0, r) else (byte_at (rb r) (roff r), with_off r (roff r + 1)).

Definition rU2 : Rd Z := fun r =>
  let '(bad, r) := short 2 "u2" r in
  if bad then (0, r)
  else (Z.lor (Z.shiftl (byte_at (rb r) (roff r)) 8) (byte_at (rb r) (roff r + 1)), with_off r (roff r + 2)).

Definition rU4 : Rd Z := fun r =>
  let '(bad, r) := short 4 "u4" r in
  if bad then (0, r)
  else (Z.lor (Z.lor (Z.lor (Z.shiftl (byte_at (rb r) (roff r)) 24)
                            (Z.shiftl (byte_at (rb r) (roff r + 1)) 16))
                     (Z.shiftl (byte_at (rb r) (roff r + 2)) 8))
              (byte_at (rb r) (roff r + 3)), with_off r (roff r + 4)).

Definition rS4 : Rd Z := v ← rU4; mret (s32 v).

Definition rBytes (n : Z) : Rd bytes := fun r =>
  if n <? 0 then ([], fail (Errorf "negative length %d" [ANum n]) r)
  else
    let '(bad, r) := short n "byte array" r in
    if bad then ([], r) else (slice (rb r) (roff r) (roff r + n), with_off r (roff r + n)).

Definition rSkip (n : Z) : Rd unit := fun r =>
  let '(bad, r) := short n "padding" r in
  if bad then (tt, r) else (tt, with_off r (roff r + n)).

(** ** The writer

    Its state is the bytes written so far.  A patch out of range panics; the
    model has no value there. *)
Definition wU1 (v : Z) (w : bytes) : bytes := w ++ [v].
Definition be2 (v : Z) : bytes := [u8 (Z.shiftr v 8); u8 v].
Definition be4 (v : Z) : bytes := [u8 (Z.shiftr v 24); u8 (Z.shiftr v 16); u8 (Z.shiftr v 8); u8 v].
Definition wU2 (v : Z) (w : bytes) : bytes := w ++ be2 v.
Definition wU4 (v : Z) (w : bytes) : bytes := w ++ be4 v.
Definition wRaw (b : bytes) (w : bytes) : bytes := w ++ b.

(** Overwriting [x] at [off]. *)
Definition patch (off : Z) (x w : bytes) : option bytes :=
  if (0 <=? off) && (off + len x <=? len w)
  then Some (take (Z.to_nat off) w ++ x ++ drop (Z.to_nat (off + len x)) w)
  else None.

Definition patchU2 (off v : Z) (w : bytes) : option bytes := patch off (be2 v) w.
Definition patchU4 (off v : Z) (w : bytes) : option bytes := patch off (be4 v) w.

(** [attr]: the name, a zero length, the body, then the length backpatched.
    The body may work on other state [S] too (the pool it interns into). *)
Definition attr {S} (nameIdx : Z) (body : bytes -> S -> option (bytes * S)) (w : bytes) (s : S) : option (bytes * S) :=
  let w := wU2 nameIdx w in
  let lenOff := len w in
  let w := wU4 0 w in
  let start := len w in
  r ← body w s;
  w' ← patchU4 lenOff (u32 (len (fst r) - start)) (fst r);
  Some (w', snd r).

(** ** The reader's contract *)

(** A reader no read has failed on, its cursor within the input. *)
Definition healthy (r : reader) : Prop := rerr r = None /\ 0 <= roff r <= len (rb r).

(** [reads m x a]: on a healthy reader whose remaining input starts with [x],
    [m] returns [a] and ends just after [x], still healthy. *)
Definition reads {A} (m : Rd A) (x : bytes) (a : A) : Prop :=
  forall r post, healthy r -> drop (Z.to_nat (roff r)) (rb r) = x ++ post ->
    m r = (a, with_off r (roff r + len x)).

Lemma drop_prefix_len (b x post : bytes) o :
  0 <= o <= len b -> drop (Z.to_nat o) b = x ++ post -> o + len x <= len b.
Proof.
  intros Ho Hd. apply (f_equal len) in Hd. rewrite len_app in Hd. unfold len in *.
  rewrite length_drop in Hd. lia.
Qed.

Lemma drop_prefix_drop (b x post : bytes) o :
  0 <= o -> drop (Z.to_nat o) b = x ++ post -> drop (Z.to_nat (o + len x)) b = post.
Proof.
  intros Ho Hd. replace (Z.to_nat (o + len x)) with (Z.to_nat o + length x)%nat by (unfold len; lia).
  rewrite <- drop_drop, Hd, drop_app_length. reflexivity.
Qed.

Lemma healthy_after r x post :
  healthy r -> drop (Z.to_nat (roff r)) (rb r) = x ++ post -> healthy (with_off r (roff r + len x)).
Proof.
  intros [He Ho] Hd. split; [exact He|]. cbn. pose proof (len_nonneg x).
  pose proof (drop_prefix_len _ _ _ _ Ho Hd). lia.
Qed.

Lemma with_off_id r : with_off r (roff r) = r.
Proof. destruct r. reflexivity. Qed.

Lemma reads_ret {A} (a : A) : reads (mret a) [] a.
Proof. intros r post _ _. rewrite len_nil, Z.add_0_r, with_off_id. reflexivity. Qed.

Lemma reads_bind {A B} (m : Rd A) (k : A -> Rd B) x y a b :
  reads m x a -> reads (k a) y b -> reads (m ≫= k) (x ++ y) b.
Proof.
  intros H1 H2 r post Hr Hd. rewrite <- app_assoc in Hd. unfold mbind, Rd_bind.
  rewrite (H1 r (y ++ post)) by auto. rewrite (H2 (with_off r (roff r + len x)) post).
  - unfold with_off. cbn. rewrite len_app. do 2 f_equal. lia.
  - eapply healthy_after; eauto.
  - apply drop_prefix_drop; [apply Hr|exact Hd].
Qed.

Lemma reads_fmap {A B} (m : Rd A) (f : A -> B) x a : reads m x a -> reads (v ← m; mret (f v)) x (f a).
Proof. intros H. rewrite <- (app_nil_r x). eapply reads_bind; [exact H|]. apply reads_ret. Qed.

Lemma byte_at_prefix (k : nat) (b x post : bytes) o v :
  0 <= o -> drop (Z.to_nat o) b = x ++ post -> x !! k = Some v -> byte_at b (o + Z.of_nat k) = v.
Proof.
  intros Ho Hd Hk. unfold byte_at. replace (Z.to_nat (o + Z.of_nat k)) with (Z.to_nat o + k)%nat by lia.
  rewrite <- nth_skipn, Hd. apply nth_lookup_Some. rewrite lookup_app, Hk. reflexivity.
Qed.

Lemma short_ok n what r : rerr r = None -> roff r + n <= len (rb r) -> short n what r = (false, r).
Proof. intros He Hn. unfold short, done. rewrite He. decide_tests. reflexivity. Qed.

Lemma lor_bytes2 a b : 0 <= b < 256 -> Z.lor (Z.shiftl a 8) b = a * 256 + b.
Proof. intros. rewrite lor_shiftl_add by lia. reflexivity. Qed.

Lemma lor_bytes4 a b c d :
  0 <= b < 256 -> 0 <= c < 256 -> 0 <= d < 256 ->
  Z.lor (Z.lor (Z.lor (Z.shiftl a 24) (Z.shiftl b 16)) (Z.shiftl c 8)) d =
  ((a * 256 + b) * 256 + c) * 256 + d.
Proof.
  intros Hb Hc Hd.
  replace (Z.shiftl a 24) with (Z.shiftl (Z.shiftl (Z.shiftl a 8) 8) 8) by (rewrite !Z.shiftl_shiftl by lia; reflexivity).
  replace (Z.shiftl b 16) with (Z.shiftl (Z.shiftl b 8) 8) by (rewrite !Z.shiftl_shiftl by lia; reflexivity).
  rewrite <- !Z.shiftl_lor, !lor_bytes2 by lia. reflexivity.
Qed.

(** [reads_fixed n] starts the proof for a read of [n] bytes. *)
Ltac reads_fixed n :=
  intros r post [He Ho] Hd;
  match type of Hd with _ = ?x ++ _ =>
    pose proof (drop_prefix_len (rb r) x post (roff r) Ho Hd);
    change (len x) with n in *
  end;
  rewrite ?short_ok by (auto; lia).

(** The value of byte [k] of the prefix. *)
Ltac byte_value k :=
  match goal with Hd : drop (Z.to_nat ?o) ?b = ?x ++ ?post |- _ =>
    let H := fresh in
    pose proof (byte_at_prefix k b x post o _ ltac:(lia) Hd eq_refl) as H;
    let z := eval vm_compute in (Z.of_nat k) in change (Z.of_nat k) with z in H;
    rewrite ?Z.add_0_r in H; rewrite H; clear H
  end.

Lemma reads_u1 v : reads rU1 [v] v.
Proof. reads_fixed 1. unfold rU1. rewrite short_ok by (auto; lia); cbv beta iota zeta. byte_value 0%nat. reflexivity. Qed.

Lemma reads_u2 v : 0 <= v < 65536 -> reads rU2 (be2 v) v.
Proof.
  intros Hv. reads_fixed 2. unfold rU2. rewrite short_ok by (auto; lia); cbv beta iota zeta. byte_value 0%nat. byte_value 1%nat.
  rewrite lor_bytes2, Z.shiftr_div_pow2 by first [lia | apply u8_range].
  f_equal. word_lia.
Qed.

Lemma reads_u4 v : 0 <= v < 4294967296 -> reads rU4 (be4 v) v.
Proof.
  intros Hv. reads_fixed 4. unfold rU4. rewrite short_ok by (auto; lia); cbv beta iota zeta.
  byte_value 0%nat. byte_value 1%nat. byte_value 2%nat. byte_value 3%nat.
  rewrite lor_bytes4, !Z.shiftr_div_pow2 by first [lia | apply u8_range].
  f_equal. unfold u8. change (2 ^ 24) with 16777216. word_lia.
Qed.

Lemma reads_s4 v : -2147483648 <= v < 2147483648 -> reads rS4 (be4 (u32 v)) v.
Proof.
  intros Hv. rewrite <- (s32_id v) at 2 by lia. rewrite <- s32_u32. apply reads_fmap, reads_u4, u32_range.
Qed.

Lemma reads_bytes x : reads (rBytes (len x)) x x.
Proof.
  intros r post [He Ho] Hd. pose proof (len_nonneg x). unfold rBytes. decide_tests.
  rewrite short_ok by (auto; eapply drop_prefix_len; eauto). cbv beta iota zeta.
  f_equal. unfold slice. rewrite Hd. replace (Z.to_nat _) with (length x) by (unfold len; lia).
  apply take_app_length.
Qed.

(** ** What every read leaves alone

    [Frame m]: [m] keeps the input and the file name, moves the cursor forward
    within the input, and does nothing once an error is set. *)
Class Frame {A} (m : Rd A) : Prop := {
  frame_input : forall r, rb (snd (m r)) = rb r;
  frame_file : forall r, rfile (snd (m r)) = rfile r;
  frame_off : forall r, roff r <= len (rb r) -> roff r <= roff (snd (m r)) <= len (rb r);
  frame_done : forall r e, rerr r = Some e -> snd (m r) = r }.

#[export] Instance frame_ret {A} (a : A) : Frame (mret a).
Proof. split; intros; cbn; auto; lia. Qed.

#[export] Instance frame_bind {A B} (m : Rd A) (k : A -> Rd B) :
  Frame m -> (forall a, Frame (k a)) -> Frame (m ≫= k).
Proof.
  intros Hm Hk.
  assert (E : forall r, snd ((m ≫= k) r) = snd (k (fst (m r)) (snd (m r))))
    by (intros r; unfold mbind, Rd_bind; destruct (m r); reflexivity).
  split; intros r; rewrite E.
  - rewrite frame_input. apply frame_input.
  - rewrite frame_file. apply frame_file.
  - intros Hr. pose proof (frame_off (m := m) r Hr).
    pose proof (frame_off (m := k (fst (m r))) (snd (m r))) as H2. rewrite (frame_input (m := m)) in H2. lia.
  - intros e He. rewrite (frame_done (m := m) r e He). apply (frame_done r e He).
Qed.

#[export] Instance frame_if {A} (b : bool) (m n : Rd A) : Frame m -> Frame n -> Frame (if b then m else n).
Proof. destruct b; auto. Qed.

Ltac frame_read :=
  split; intros [b o f e]; intros; unfold short, done in *; cbn in *; subst; try destruct e;
    repeat (bool_case; cbn; to_Z); cbn; auto; try lia.

#[export] Instance frame_u1 : Frame rU1.
Proof. unfold rU1. frame_read. Qed.
#[export] Instance frame_u2 : Frame rU2.
Proof. unfold rU2. frame_read. Qed.
#[export] Instance frame_u4 : Frame rU4.
Proof. unfold rU4. frame_read. Qed.
#[export] Instance frame_s4 : Frame rS4.
Proof. unfold rS4. apply _. Qed.
#[export] Instance frame_bytes n : Frame (rBytes n).
Proof. unfold rBytes. frame_read. Qed.

(** A read that ends without an error started without one, on enough bytes. *)
Lemma frame_ok {A} (m : Rd A) `{!Frame m} r : rerr (snd (m r)) = None -> rerr r = None.
Proof. intros H. destruct (rerr r) eqn:E; [|reflexivity]. rewrite (frame_done (m := m) r _ E) in H. congruence. Qed.

Lemma rBytes_ok n r :
  rerr (snd (rBytes n r)) = None ->
  rerr r = None /\ 0 <= n /\ roff r + n <= len (rb r) /\
  rBytes n r = (slice (rb r) (roff r) (roff r + n), with_off r (roff r + n)).
Proof.
  destruct r as [b o f [e|]]; unfold rBytes, short, done; cbn; repeat (bool_case; cbn; to_Z); try discriminate; auto.
Qed.

Lemma fail_done msg r : exists e, rerr (fail msg r) = Some e.
Proof. unfold fail. destruct (rerr r) eqn:E; cbn; eauto. Qed.

(** ** Theorems *)

(** The values a class file is made of, as sequences of writes and of reads. *)
Inductive field := FU1 (v : Z) | FU2 (v : Z) | FU4 (v : Z) | FS4 (v : Z) | FRaw (b : bytes).

Definition field_ok (f : field) : bool :=
  match f with
  | FU1 v => (0 <=? v) && (v <? 256)
  | FU2 v => (0 <=? v) && (v <? 65536)
  | FU4 v => (0 <=? v) && (v <? 4294967296)
  | FS4 v => (-2147483648 <=? v) && (v <? 2147483648)
  | FRaw _ => true
  end.

Definition write_field (f : field) : bytes -> bytes :=
  match f with
  | FU1 v => wU1 v
  | FU2 v => wU2 v
  | FU4 v => wU4 v
  | FS4 v => wU4 (u32 v)
  | FRaw b => wRaw b
  end.

(** Reading a field of the same shape. *)
Definition read_field (f : field) : Rd field :=
  match f with
  | FU1 _ => v ← rU1; mret (FU1 v)
  | FU2 _ => v ← rU2; mret (FU2 v)
  | FU4 _ => v ← rU4; mret (FU4 v)
  | FS4 _ => v ← rS4; mret (FS4 v)
  | FRaw b => v ← rBytes (len b); mret (FRaw v)
  end.

Fixpoint read_fields (l : list field) : Rd (list field) :=
  match l with
  | [] => mret []
  | f :: l => v ← read_field f; vs ← read_fields l; mret (v :: vs)
  end.

Definition write_fields (l : list field) (w : bytes) : bytes := foldl (fun w f => write_field f w) w l.

Definition new_reader (file b : bytes) : reader := mkReader b 0 file None.

Lemma write_field_app f w : write_field f w = w ++ write_field f [].
Proof. destruct f; reflexivity. Qed.

Lemma read_write_field f : field_ok f = true -> reads (read_field f) (write_field f []) f.
Proof.
  destruct f; intros H; cbn in H; to_Z; simpl.
  - apply reads_fmap, reads_u1.
  - apply reads_fmap, reads_u2. lia.
  - apply reads_fmap, reads_u4. lia.
  - apply reads_fmap, reads_s4. lia.
  - apply reads_fmap, reads_bytes.
Qed.

Lemma write_fields_app l w : write_fields l w = w ++ write_fields l [].
Proof.
  unfold write_fields. revert w. induction l as [|f l IH]; intros w; simpl.
  - symmetry. apply app_nil_r.
  - rewrite IH, (IH (write_field f [])), (write_field_app f w), app_assoc. reflexivity.
Qed.

Lemma read_write_fields l :
  forallb field_ok l = true -> reads (read_fields l) (write_fields l []) l.
Proof.
  induction l as [|f l IH]; intros H; simpl in *; [apply reads_ret|].
  apply andb_prop in H as [Hf Hl]. change (write_fields (f :: l) []) with (write_fields l (write_field f [])).
  rewrite write_fields_app. eapply reads_bind; [apply read_write_field, Hf|]. cbv beta.
  rewrite <- (app_nil_r (write_fields l [])). eapply reads_bind; [apply IH, Hl|]. apply reads_ret.
Qed.

(** Whatever sequence of in-range values the writer writes, the reader
    reads the same sequence back, without an error, and stops at the end of
    what was written. *)
Theorem write_read_roundtrip (l : list field) (file post : bytes) :
  forallb field_ok l = true ->
  read_fields l (new_reader file (write_fields l [] ++ post)) =
  (l, with_off (new_reader file (write_fields l [] ++ post)) (len (write_fields l []))).
Proof.
  intros H. pose proof (read_write_fields l H (new_reader file (write_fields l [] ++ post)) post) as E.
  cbn [roff new_reader] in E. rewrite Z.add_0_l in E. apply E; [|reflexivity].
  split; [reflexivity|]. cbn. pose proof (len_nonneg (write_fields l [] ++ post)). lia.
Qed.

Lemma write_read_roundtrip_witness :
  read_fields [FU4 0xCAFEBABE; FU2 65; FS4 (-1); FRaw [1; 2]; FU1 7]
    (new_reader [] (write_fields [FU4 0xCAFEBABE; FU2 65; FS4 (-1); FRaw [1; 2]; FU1 7] [] ++ [])) =
  ([FU4 0xCAFEBABE; FU2 65; FS4 (-1); FRaw [1; 2]; FU1 7],
   with_off (new_reader [] [0xCA; 0xFE; 0xBA; 0xBE; 0; 65; 255; 255; 255; 255; 1; 2; 7]) 13).
Proof. apply (write_read_roundtrip [FU4 0xCAFEBABE; FU2 65; FS4 (-1); FRaw [1; 2]; FU1 7] [] []). reflexivity. Defined.

(** *** Every reader operation, on every input *)

Inductive rd_op := OU1 | OU2 | OU4 | OS4 | OBytes (n : Z) | OSkip (n : Z).

(** The value an operation returns, as the list of its numbers or bytes. *)
Definition run_op (o : rd_op) : Rd bytes :=
  match o with
  | OU1 => v ← rU1; mret [v]
  | OU2 => v ← rU2; mret [v]
  | OU4 => v ← rU4; mret [v]
  | OS4 => v ← rS4; mret [v]
  | OBytes n => rBytes n
  | OSkip n => _ ← rSkip n; mret []
  end.

Definition zero_of (o : rd_op) : bytes :=
  match o with OU1 | OU2 | OU4 | OS4 => [0] | _ => [] end.

(** The bytes an operation consumes when it succeeds. *)
Definition width (o : rd_op) : Z :=
  match o with OU1 => 1 | OU2 => 2 | OU4 | OS4 => 4 | OBytes n | OSkip n => n end.

(** The code never skips backwards. *)
Definition op_ok (o : rd_op) : bool := match o with OSkip n => 0 <=? n | _ => true end.

(** A read either succeeds, when no error is set and the bytes are there,
    and then moves past exactly the bytes it read; or it returns the zero
    value, leaves the cursor, the input and the file name as they were, and the
    error is set: the error that was there before, or a new one at the cursor. *)
Theorem read_sticky (o : rd_op) (r : reader) :
  op_ok o = true ->
  let r' := snd (run_op o r) in
  if negb (done r) && (0 <=? width o) && (roff r + width o <=? len (rb r))
  then r' = with_off r (roff r + width o)
  else fst (run_op o r) = zero_of o /\ rb r' = rb r /\ rfile r' = rfile r /\ roff r' = roff r /\
       exists e, rerr r' = Some e /\ (rerr r = Some e \/ rerr r = None /\ EOff e = roff r /\ EFile e = rfile r).
Proof.
  intros Ho. destruct r as [b off file err].
  assert (Hs : forall n what, short n what (mkReader b off file err) =
    match err with
    | Some _ => (true, mkReader b off file err)
    | None => if len b <? off + n then (true, fail (Errorf "unexpected end of file reading %s (want %d bytes, have %d)"
                      [AText what; ANum n; ANum (len b - off)]) (mkReader b off file err)) else (false, mkReader b off file err)
    end) by (intros; destruct err; reflexivity).
  destruct o; cbn in Ho; cbn -[short rBytes rSkip]; unfold rS4, rU1, rU2, rU4, rBytes, rSkip, mbind, Rd_bind;
    destruct err; unfold done; cbn -[short]; rewrite ?Hs;
    repeat first [bool_case; cbn; to_Z | progress cbn]; first [reflexivity | lia | split_and!; eauto 10].
Qed.

Lemma read_sticky_witness :
  let r := new_reader [] [1; 2] in
  let r' := snd (run_op (OSkip 3) r) in
  if negb (done r) && (0 <=? width (OSkip 3)) && (roff r + width (OSkip 3) <=? len (rb r))
  then r' = with_off r (roff r + width (OSkip 3))
  else fst (run_op (OSkip 3) r) = zero_of (OSkip 3) /\ rb r' = rb r /\ rfile r' = rfile r /\ roff r' = roff r /\
       exists e, rerr r' = Some e /\ (rerr r = Some e \/ rerr r = None /\ EOff e = roff r /\ EFile e = rfile r).
Proof. apply (read_sticky (OSkip 3) (new_reader [] [1; 2])). reflexivity. Defined.

Lemma patch_mid a x y b : len x = len y -> patch (len a) x (a ++ y ++ b) = Some (a ++ x ++ b).
Proof.
  intros E. unfold patch. pose proof (len_nonneg a). pose proof (len_nonneg b).
  rewrite !len_app, E. decide_tests. do 2 f_equal; unfold len in *.
  - rewrite Nat2Z.id. apply take_app_length.
  - f_equal. replace (Z.to_nat _) with (length a + length y)%nat by lia.
    rewrite <- drop_drop, !drop_app_length. reflexivity.
Qed.

Lemma attr_appends {S} nameIdx (body : bytes -> S -> option (bytes * S)) w x s s' :
  body (w ++ be2 nameIdx ++ be4 0) s = Some ((w ++ be2 nameIdx ++ be4 0) ++ x, s') ->
  attr nameIdx body w s = Some (w ++ be2 nameIdx ++ be4 (u32 (len x)) ++ x, s').
Proof.
  intros H. unfold attr, wU2, wU4. cbv zeta. rewrite <- app_assoc, H. cbn [mbind option_bind fst snd]. rewrite <- !app_assoc.
  unfold patchU4. rewrite (app_assoc w), patch_mid by reflexivity. cbn [mbind option_bind]. rewrite <- !app_assoc.
  replace (len _ - len _) with (len x) by (rewrite !len_app; lia). reflexivity.
Qed.

(** [attr] writes the name index, the exact length of what the body
    appended, and then that, whatever the body is and whatever state it works
    on, as long as it only appends; the backpatch is never out of range. *)
Theorem attr_spec {S} (nameIdx : Z) (body : bytes -> S -> option (bytes * S)) (w x : bytes) (s s' : S) :
  body (w ++ be2 nameIdx ++ be4 0) s = Some ((w ++ be2 nameIdx ++ be4 0) ++ x, s') ->
  attr nameIdx body w s = Some (w ++ be2 nameIdx ++ be4 (u32 (len x)) ++ x, s').
Proof. apply attr_appends. Qed.

Lemma attr_spec_witness :
  attr 5 (fun w n => Some (wU2 n w, n + 1)) [1; 2] 7 = Some ([1; 2; 0; 5; 0; 0; 0; 2; 0; 7], 8).
Proof. apply (attr_spec 5 (fun w n => Some (wU2 n w, n + 1)) [1; 2] [0; 7] 7 8). reflexivity. Defined.
