(* ===== verification/Format.v ===== *)
(** * Versions, flags and the attribute table of the class file format
      ([classfile/version.go], [classfile/attribute.go], [classfile/member.go])

    The version rules of JVMS 4.1, the access flag masks, and where each
    predefined attribute may appear and since when. *)
From S2P Require Import Prelude.

(** ** Versions *)

Record Version := mkVersion { Major : Z; Minor : Z }.

Definition Java1_0 : Z := 45.
Definition Java5 : Z := 49.
Definition Java6 : Z := 50.
Definition Java7 : Z := 51.
Definition Java8 : Z := 52.
Definition Java9 : Z := 53.
Definition Java11 : Z := 55.
Definition Java16 : Z := 60.
Definition Java17 : Z := 61.
Definition Java21 : Z := 65.
Definition Java24 : Z := 68.
Definition Java25 : Z := 69.
Definition Java26 : Z := 70.

Definition PreviewMinor : Z := 65535.
Definition MaxSupported : Version := mkVersion Java26 0.
Definition PreviewRelease : Z := Java25.

(** [String]: the text of a version, as the format it is printed with. *)
Definition VersionString (v : Version) : goerror := Errorf "%d.%d" [ANum (Major v); ANum (Minor v)].

Definition Java (v : Version) : Z := Major v - 44.
Definition Preview (v : Version) : bool := Minor v =? PreviewMinor.
Definition AtLeast (v : Version) (major : Z) : bool := major <=? Major v.

(** [check]: [None] is Go's nil error. *)
Definition check (v : Version) (allowPreview : bool) : option goerror :=
  if (Major v <? Java1_0) || (Major MaxSupported <? Major v) then
    Some (Errorf "unsupported class file version %s (this build reads %d through %d)"
            [AErr (VersionString v); ANum Java1_0; ANum (Major MaxSupported)])
  else if (56 <=? Major v) && negb (Minor v =? 0) && negb (Minor v =? PreviewMinor) then
    Some (Errorf "illegal minor version in %s (must be 0 or %d for major %d and above)"
            [AErr (VersionString v); ANum PreviewMinor; ANum 56])
  else if Preview v then
    if negb (Major v =? PreviewRelease) then
      Some (Errorf "class file %s depends on preview features of Java SE %d, but this build only accepts previews of Java SE %d"
              [AErr (VersionString v); ANum (Java v); ANum (PreviewRelease - 44)])
    else if negb allowPreview then
      Some (Errorf "class file %s depends on preview features (pass AllowPreview to accept it)" [AErr (VersionString v)])
    else None
  else None.

(** ** Access flags *)

Definition AccPublic : Z := 0x0001.
Definition AccPrivate : Z := 0x0002.
Definition AccProtected : Z := 0x0004.
Definition AccStatic : Z := 0x0008.
Definition AccFinal : Z := 0x0010.
Definition AccSuper : Z := 0x0020.
Definition AccSynchronized : Z := 0x0020.
Definition AccVolatile : Z := 0x0040.
Definition AccBridge : Z := 0x0040.
Definition AccTransient : Z := 0x0080.
Definition AccVarargs : Z := 0x0080.
Definition AccNative : Z := 0x0100.
Definition AccInterface : Z := 0x0200.
Definition AccAbstract : Z := 0x0400.
Definition AccStrict : Z := 0x0800.
Definition AccSynthetic : Z := 0x1000.
Definition AccAnnotation : Z := 0x2000.
Definition AccEnum : Z := 0x4000.
Definition AccModule : Z := 0x8000.

Definition StrictMinMajor : Z := 46.
Definition StrictMaxMajor : Z := 60.

(** [Has]: every bit of the mask is set. *)
Definition Has (f mask : Z) : bool := Z.land f mask =? mask.

Definition Strict (f : Z) (v : Version) : bool :=
  (StrictMinMajor <=? Major v) && (Major v <=? StrictMaxMajor) && negb (Z.land f AccStrict =? 0).

Definition IsStatic (f : Z) : bool := Has f AccStatic.
Definition IsFinal (f : Z) : bool := Has f AccFinal.
Definition IsAbstract (f : Z) : bool := Has f AccAbstract.
Definition IsNative (f : Z) : bool := Has f AccNative.
Definition HasBody (f : Z) : bool := negb (IsAbstract f) && negb (IsNative f).
Definition IsConstructor (name : bytes) : bool := bool_decide (name = bs "<init>").
Definition IsClassInit (name : bytes) : bool := bool_decide (name = bs "<clinit>").

(** ** Attribute locations *)

Definition locClass : Z := 1.
Definition locField : Z := 2.
Definition locMethod : Z := 4.
Definition locCode : Z := 8.
Definition locRecord : Z := 16.

(** The [where] table, in the order of the source: name, locations, first major version. *)
Definition where_table : list (string * (Z * Z)) := [
  ("ConstantValue", (locField, Java1_0));
  ("Code", (locMethod, Java1_0));
  ("StackMapTable", (locCode, Java6));
  ("Exceptions", (locMethod, Java1_0));
  ("InnerClasses", (locClass, Java1_0));
  ("EnclosingMethod", (locClass, Java5));
  ("Synthetic", (locClass + locField + locMethod, Java1_0));
  ("Signature", (locClass + locField + locMethod + locRecord, Java5));
  ("SourceFile", (locClass, Java1_0));
  ("SourceDebugExtension", (locClass, Java5));
  ("LineNumberTable", (locCode, Java1_0));
  ("LocalVariableTable", (locCode, Java1_0));
  ("LocalVariableTypeTable", (locCode, Java5));
  ("Deprecated", (locClass + locField + locMethod, Java1_0));
  ("RuntimeVisibleAnnotations", (locClass + locField + locMethod + locRecord, Java5));
  ("RuntimeInvisibleAnnotations", (locClass + locField + locMethod + locRecord, Java5));
  ("RuntimeVisibleParameterAnnotations", (locMethod, Java5));
  ("RuntimeInvisibleParameterAnnotations", (locMethod, Java5));
  ("RuntimeVisibleTypeAnnotations", (locClass + locField + locMethod + locCode + locRecord, Java8));
  ("RuntimeInvisibleTypeAnnotations", (locClass + locField + locMethod + locCode + locRecord, Java8));
  ("AnnotationDefault", (locMethod, Java5));
  ("BootstrapMethods", (locClass, Java7));
  ("MethodParameters", (locMethod, Java8));
  ("Module", (locClass, Java9));
  ("ModulePackages", (locClass, Java9));
  ("ModuleMainClass", (locClass, Java9));
  ("NestHost", (locClass, Java11));
  ("NestMembers", (locClass, Java11));
  ("Record", (locClass, Java16));
  ("PermittedSubclasses", (locClass, Java17))]%string.

(** [where[name]]: the spelling found, its locations and version. *)
Definition where_ (name : bytes) : option (string * (Z * Z)) :=
  List.find (fun e => bool_decide (bs (fst e) = name)) where_table.

(** ** Theorems *)

(** The version rule of JVMS 4.1 the package documents, less one case. *)
Definition version_legal (v : Version) (allowPreview : bool) : Prop :=
  45 <= Major v <= 70 /\ (56 <= Major v -> Minor v = 0 \/ Minor v = 65535) /\
  (Minor v = 65535 -> Major v = 69 /\ allowPreview = true).

(** [check] accepts exactly the versions from 45 to 70 whose minor version
    is free below 56 and 0 or 65535 from 56 on, minor 65535 being accepted only
    for the preview release 69 and only when previews are allowed. *)
Theorem check_iff (v : Version) (allowPreview : bool) :
  check v allowPreview = None <-> version_legal v allowPreview.
Proof.
  unfold check, version_legal, Preview, PreviewMinor, PreviewRelease, MaxSupported, Java1_0, Java25, Java26. cbn [Major].
  repeat bool_case; to_Z; subst; split; intros; try discriminate; try reflexivity; try (exfalso; lia); repeat split; try lia.
Qed.

(** Below version 56 any minor version is legal, yet [check] refuses every
    class file from 45 to 55 whose minor version is 65535, with a complaint
    about preview features. *)
Theorem check_minor_65535_below_56 (major : Z) (allowPreview : bool) :
  45 <= major < 56 ->
  check (mkVersion major 65535) allowPreview =
  Some (Errorf "class file %s depends on preview features of Java SE %d, but this build only accepts previews of Java SE %d"
    [AErr (VersionString (mkVersion major 65535)); ANum (major - 44); ANum 25]).
Proof.
  intros H. unfold check, Preview, PreviewMinor, PreviewRelease, MaxSupported, Java1_0, Java25, Java26, Java. cbn [Major Minor].
  decide_tests. reflexivity.
Qed.

Lemma check_minor_65535_below_56_witness :
  check (mkVersion 50 65535) true =
  Some (Errorf "class file %s depends on preview features of Java SE %d, but this build only accepts previews of Java SE %d"
    [AErr (VersionString (mkVersion 50 65535)); ANum 6; ANum 25]).
Proof. apply (check_minor_65535_below_56 50 true). lia. Defined.

