(* ===== verification/Pool.v ===== *)
(** * The constant pool, read side ([classfile/constpool.go])

    Entries are kept undecoded; a Utf8 entry is decoded at its first lookup and
    memoised.  A lookup is therefore a state-passing computation over the pool,
    which may also panic on a slice out of range ([Panic]).  [same_pool] is
    equality up to the memo; every lookup respects it. *)
From S2P Require Import Prelude.
From S2P Require Import Mutf8.
From S2P Require Import Format.
From S2P Require Import ClassIO.

(** ** Tags *)

Definition TagUtf8 : Z := 1.
Definition TagInteger : Z := 3.
Definition TagFloat : Z := 4.
Definition TagLong : Z := 5.
Definition TagDouble : Z := 6.
Definition TagClass : Z := 7.
Definition TagString : Z := 8.
Definition TagFieldref : Z := 9.
Definition TagMethodref : Z := 10.
Definition TagInterfaceMethodref : Z := 11.
Definition TagNameAndType : Z := 12.
Definition TagMethodHandle : Z := 15.
Definition TagMethodType : Z := 16.
Definition TagDynamic : Z := 17.
Definition TagInvokeDynamic : Z := 18.
Definition TagModule : Z := 19.
Definition TagPackage : Z := 20.

Definition tagSince (t : Z) : option Z :=
  match t with
  | 1 | 3 | 4 | 5 | 6 | 7 | 8 | 9 | 10 | 11 | 12 => Some Java1_0
  | 15 | 16 | 18 => Some Java7
  | 19 | 20 => Some Java9
  | 17 => Some Java11
  | _ => None
  end.

Definition tagName (t : Z) : option string :=
  match t with
  | 1 => Some "Utf8" | 3 => Some "Integer" | 4 => Some "Float" | 5 => Some "Long"
  | 6 => Some "Double" | 7 => Some "Class" | 8 => Some "String"
  | 9 => Some "Fieldref" | 10 => Some "Methodref"
  | 11 => Some "InterfaceMethodref" | 12 => Some "NameAndType"
  | 15 => Some "MethodHandle" | 16 => Some "MethodType"
  | 17 => Some "Dynamic" | 18 => Some "InvokeDynamic"
  | 19 => Some "Module" | 20 => Some "Package"
  | _ => None
  end%string.

(** [Tag.String], as the text it is printed with. *)
Definition TagText (t : Z) : goerror :=
  match tagName t with
  | Some n => Errorf ("CONSTANT_" ++ n) []
  | None => Errorf "CONSTANT_?(%d)" [ANum t]
  end.

Definition RefGetField : Z := 1.
Definition RefGetStatic : Z := 2.
Definition RefPutField : Z := 3.
Definition RefPutStatic : Z := 4.
Definition RefInvokeVirtual : Z := 5.
Definition RefInvokeStatic : Z := 6.
Definition RefInvokeSpecial : Z := 7.
Definition RefNewInvokeSpecial : Z := 8.
Definition RefInvokeInterface : Z := 9.

(** ** The pool *)

Record entry := mkEntry { tag : Z; ea : Z; eb : Z }.

Definition zeroEntry : entry := mkEntry 0 0 0.

(** [RTag], [RClass], ... are the fields [Tag], [Class], ... of [Ref]. *)
Record Ref := mkRef { RTag : Z; RClass : bytes; RName : bytes; RDescriptor : bytes }.
Record Handle := mkHandle { HKind : Z; HRef : Ref }.
Record Dynamic := mkDynamic { DTag : Z; DBootstrap : Z; DName : bytes; DDescriptor : bytes }.
Record BootstrapMethod := mkBootstrapMethod { BMethod : Handle; BArguments : list Z }.

Definition zeroRef : Ref := mkRef 0 [] [] [].
Definition zeroHandle : Handle := mkHandle 0 zeroRef.
Definition zeroDynamic : Dynamic := mkDynamic 0 0 [] [].

(** [bits] is the payload of the numeric constants. *)
Record Const := mkConst { CTag : Z; Cbits : Z; CStr : bytes; CHandle : Handle; CDyn : Dynamic }.

Record Pool := mkPool {
  entries : list entry;
  src : bytes;
  strs : list bytes;
  strOK : list bool;
  bsms : list BootstrapMethod;
  pfile : bytes }.

(** Lookups: the error, a panic, or the value; and the pool left behind. *)
Inductive fault := Panic | Fail (e : goerror).

Definition PM (A : Type) : Type := Pool -> result fault A * Pool.

#[export] Instance PM_ret : MRet PM := fun _ a p => (Ok a, p).
#[export] Instance PM_bind : MBind PM := fun _ _ k m p =>
  match m p with (Ok a, p') => k a p' | (Err e, p') => (Err e, p') end.

Definition lift {A} (f : Pool -> result goerror A) : PM A := fun p =>
  (match f p with Ok a => Ok a | Err e => Err (Fail e) end, p).

Definition Len (p : Pool) : Z := len (entries p).

Definition name (p : Pool) : bytes := match pfile p with [] => bs "class file" | f => f end.

Definition errf (p : Pool) (i : Z) (format : string) (args : list errarg) : goerror :=
  Errorf "%s: constant pool index %d: %s" [AStr (name p); ANum i; AErr (Errorf format args)].

(** [PFail i format args] returns the error [p.errf(i, ...)]. *)
Definition PFail {A} (i : Z) (format : string) (args : list errarg) : PM A :=
  lift (fun p => Err (errf p i format args)).

Definition entry_at (p : Pool) (i : Z) : entry := nth (Z.to_nat i) (entries p) zeroEntry.

(** [Pool.Tag] *)
Definition TagAt (p : Pool) (i : Z) : Z := if Len p <=? i then 0 else tag (entry_at p i).

(** [Pool.at] *)
Definition pool_at (i want : Z) (p : Pool) : result goerror entry :=
  if i =? 0 then Err (errf p i "index 0 is not a valid constant pool index" [])
  else if Len p <=? i then Err (errf p i "out of range (pool holds %d entries)" [ANum (Len p - 1)])
  else
    let e := entry_at p i in
    if tag e =? 0 then Err (errf p i "unusable slot (second half of an 8-byte constant)" [])
    else if negb (want =? 0) && negb (tag e =? want)
    then Err (errf p i "is %s, want %s" [AErr (TagText (tag e)); AErr (TagText want)])
    else Ok e.

(** The slice [p.src[e.a : e.a+e.b]], its sum on 32 bits. *)
Definition utf8_bytes (p : Pool) (e : entry) : option bytes :=
  let hi := u32 (ea e + eb e) in
  if (ea e <=? hi) && (hi <=? len (src p)) then Some (slice (src p) (ea e) hi) else None.

Definition memoise (i : Z) (s : bytes) (p : Pool) : Pool :=
  mkPool (entries p) (src p) (<[Z.to_nat i := s]> (strs p)) (<[Z.to_nat i := true]> (strOK p)) (bsms p) (pfile p).

(** What [UTF8] does once the entry is found. *)
Definition decode_entry (i : Z) (e : entry) : PM bytes := fun p =>
  if nth (Z.to_nat i) (strOK p) false then (Ok (nth (Z.to_nat i) (strs p) []), p)
    else match utf8_bytes p e with
    | None => (Err Panic, p)
    | Some b =>
        match Decode b with
        | Err err => (Err (Fail (errf p i "%v" [AErr (Mutf8.Error err)])), p)
        | Ok s => (Ok s, memoise i s p)
        end
    end.

Definition UTF8 (i : Z) : PM bytes := e ← lift (pool_at i TagUtf8); decode_entry i e.

Definition Class_ (i : Z) : PM bytes := e ← lift (pool_at i TagClass); UTF8 (u16 (ea e)).
Definition Module_ (i : Z) : PM bytes := e ← lift (pool_at i TagModule); UTF8 (u16 (ea e)).
Definition Package (i : Z) : PM bytes := e ← lift (pool_at i TagPackage); UTF8 (u16 (ea e)).
Definition MethodType (i : Z) : PM bytes := e ← lift (pool_at i TagMethodType); UTF8 (u16 (ea e)).

Definition NameAndType (i : Z) : PM (bytes * bytes) :=
  e ← lift (pool_at i TagNameAndType);
  name ← UTF8 (u16 (ea e));
  descriptor ← UTF8 (u16 (eb e));
  mret (name, descriptor).

Definition RefString (r : Ref) : bytes := RClass r ++ bs "." ++ RName r ++ RDescriptor r.
Definition IsInterface (r : Ref) : bool := RTag r =? TagInterfaceMethodref.

(** [Pool.Ref] *)
Definition PoolRef (i : Z) : PM Ref :=
  e ← lift (pool_at i 0);
  if (tag e =? TagFieldref) || (tag e =? TagMethodref) || (tag e =? TagInterfaceMethodref) then
    class ← Class_ (u16 (ea e));
    nd ← NameAndType (u16 (eb e));
    mret (mkRef (tag e) class (fst nd) (snd nd))
  else PFail i "is %s, want a field or method reference" [AErr (TagText (tag e))].

Definition FieldRef (i : Z) : PM Ref :=
  r ← PoolRef i;
  if negb (RTag r =? TagFieldref) then PFail i "is %s, want CONSTANT_Fieldref" [AErr (TagText (RTag r))]
  else mret r.

Definition MethodRef (i : Z) : PM Ref :=
  r ← PoolRef i;
  if RTag r =? TagFieldref then PFail i "is CONSTANT_Fieldref, want a method reference" []
  else mret r.

(** The reference form [Handle] requires of each kind. *)
Definition handle_form (i kind : Z) (ref : Ref) (v : Version) : PM unit :=
  if (kind =? RefGetField) || (kind =? RefGetStatic) || (kind =? RefPutField) || (kind =? RefPutStatic) then
    if negb (RTag ref =? TagFieldref)
    then PFail i "reference_kind %d requires a field reference, got %s" [ANum kind; AErr (TagText (RTag ref))]
    else mret tt
  else if (kind =? RefInvokeVirtual) || (kind =? RefNewInvokeSpecial) then
    if negb (RTag ref =? TagMethodref)
    then PFail i "reference_kind %d requires CONSTANT_Methodref, got %s" [ANum kind; AErr (TagText (RTag ref))]
    else mret tt
  else if (kind =? RefInvokeStatic) || (kind =? RefInvokeSpecial) then
    if RTag ref =? TagMethodref then mret tt
    else if RTag ref =? TagInterfaceMethodref then
      if negb (AtLeast v Java8)
      then PFail i "reference_kind %d may name an interface method reference only in class file 52.0 or later (this file is %s)"
             [ANum kind; AErr (VersionString v)]
      else mret tt
    else PFail i "reference_kind %d requires a method reference, got %s" [ANum kind; AErr (TagText (RTag ref))]
  else if kind =? RefInvokeInterface then
    if negb (RTag ref =? TagInterfaceMethodref)
    then PFail i "REF_invokeInterface requires an interface method reference, got %s" [AErr (TagText (RTag ref))]
    else mret tt
  else mret tt.

(** The names [Handle] allows each kind. *)
Definition handle_name (i kind : Z) (ref : Ref) : PM unit :=
  if kind =? RefNewInvokeSpecial then
    if negb (bool_decide (RName ref = bs "<init>"))
    then PFail i "REF_newInvokeSpecial must name <init>, not %s" [AStr (RName ref)]
    else mret tt
  else if RefInvokeVirtual <=? kind then
    if bool_decide (RName ref = bs "<init>") || bool_decide (RName ref = bs "<clinit>")
    then PFail i "reference_kind %d must not name %s" [ANum kind; AStr (RName ref)]
    else mret tt
  else mret tt.

Definition PoolHandle (i : Z) (v : Version) : PM Handle :=
  e ← lift (pool_at i TagMethodHandle);
  let kind := u8 (ea e) in
  if (kind <? RefGetField) || (RefInvokeInterface <? kind)
  then PFail i "reference_kind %d is outside the range 1..9" [ANum kind]
  else
    ref ← PoolRef (u16 (eb e));
    _ ← handle_form i kind ref v;
    _ ← handle_name i kind ref;
    mret (mkHandle kind ref).

Definition PoolDynamic (i : Z) : PM Dynamic :=
  e ← lift (pool_at i 0);
  if negb (tag e =? TagDynamic) && negb (tag e =? TagInvokeDynamic)
  then PFail i "is %s, want a dynamic constant" [AErr (TagText (tag e))]
  else
    nd ← NameAndType (u16 (eb e));
    mret (mkDynamic (tag e) (u16 (ea e)) (fst nd) (snd nd)).

(** [Bootstrap]; the table is [Bootstraps]. *)
Definition Bootstrap (p : Pool) (d : Dynamic) : result goerror BootstrapMethod :=
  match at_ (bsms p) (DBootstrap d) with
  | Some b => Ok b
  | None => Err (Errorf "%s: bootstrap method index %d out of range (table holds %d)"
                   [AStr (name p); ANum (DBootstrap d); ANum (len (bsms p))])
  end.

Definition ConstInt (c : Const) : Z := s32 (u32 (Cbits c)).
Definition ConstLong (c : Const) : Z := s64 (Cbits c).
Definition ConstFloatBits (c : Const) : Z := u32 (Cbits c).
Definition ConstDoubleBits (c : Const) : Z := Cbits c.

Definition Wide (c : Const) : bool := (CTag c =? TagLong) || (CTag c =? TagDouble).

Definition numConst (t bits : Z) : Const := mkConst t bits [] zeroHandle zeroDynamic.
Definition strConst (t : Z) (s : bytes) : Const := mkConst t 0 s zeroHandle zeroDynamic.

(** [Pool.Const] *)
Definition PoolConst (i : Z) (v : Version) : PM Const :=
  e ← lift (pool_at i 0);
  let t := tag e in
  if (t =? TagInteger) || (t =? TagFloat) then mret (numConst t (ea e))
  else if (t =? TagLong) || (t =? TagDouble) then mret (numConst t (Z.lor (u64 (Z.shiftl (ea e) 32)) (eb e)))
  else if t =? TagClass then
    if negb (AtLeast v Java5)
    then PFail i "CONSTANT_Class is not loadable before class file 49.0 (this file is %s)" [AErr (VersionString v)]
    else s ← Class_ i; mret (strConst t s)
  else if t =? TagString then s ← UTF8 (u16 (ea e)); mret (strConst t s)
  else if t =? TagMethodHandle then h ← PoolHandle i v; mret (mkConst t 0 [] h zeroDynamic)
  else if t =? TagMethodType then s ← MethodType i; mret (strConst t s)
  else if t =? TagDynamic then d ← PoolDynamic i; mret (mkConst t 0 [] zeroHandle d)
  else PFail i "%s is not a loadable constant" [AErr (TagText t)].

(** ** Reading the pool *)

(** Setting the cursor back before a failure. *)
Definition fail_at (off : Z) (msg : goerror) (r : reader) : reader := fail msg (with_off r off).

(** The first byte a Utf8 constant may not hold, and its position. *)
Fixpoint bad_utf8 (b : bytes) (j : Z) : option (Z * Z) :=
  match b with
  | [] => None
  | c :: b => if (c =? 0) || (0xF0 <=? c) then Some (j, c) else bad_utf8 b (j + 1)
  end.

(** The body of a Utf8 entry of [n] bytes; the flag says whether [readPool] goes on. *)
Definition read_utf8 (n : Z) : Rd (bool * entry) := fun r =>
  let off := roff r in
  let '(b, r) := rBytes n r in
  match bad_utf8 b 0 with
  | Some (j, c) => ((false, zeroEntry), fail_at (off + j) (Errorf "byte 0x%02x is not permitted in a Utf8 constant" [ANum c]) r)
  | None => ((true, mkEntry TagUtf8 (u32 off) n), r)
  end.

(** The entry after its tag; the flag as above. *)
Definition read_entry (t : Z) : Rd (bool * entry) :=
  if t =? TagUtf8 then n ← rU2; read_utf8 n
  else if (t =? TagInteger) || (t =? TagFloat) then a ← rU4; mret (true, mkEntry t a 0)
  else if (t =? TagLong) || (t =? TagDouble) then a ← rU4; b ← rU4; mret (true, mkEntry t a b)
  else if (t =? TagClass) || (t =? TagString) || (t =? TagMethodType) || (t =? TagModule) || (t =? TagPackage)
  then a ← rU2; mret (true, mkEntry t a 0)
  else if (t =? TagFieldref) || (t =? TagMethodref) || (t =? TagInterfaceMethodref) || (t =? TagNameAndType) ||
          (t =? TagDynamic) || (t =? TagInvokeDynamic)
  then a ← rU2; b ← rU2; mret (true, mkEntry t a b)
  else if t =? TagMethodHandle then a ← rU1; b ← rU2; mret (true, mkEntry t a b)
  else mret (true, mkEntry t 0 0).

(** The loop of [readPool]: [i] counts up to [count], so [count] rounds are
    enough fuel. *)
Fixpoint read_entries (fuel : nat) (count i : Z) (v : Version) (es : list entry) (r : reader) : list entry * reader :=
  match fuel with
  | O => (es, r)
  | S fuel =>
      if negb (i <? count) then (es, r)
      else if done r then (es, r)
      else
        let tagOff := roff r in
        let '(t, r) := rU1 r in
        match tagSince t with
        | None => (es, fail_at tagOff (Errorf "unknown constant pool tag %d at index %d" [ANum t; ANum i]) r)
        | Some since =>
            if Major v <? since then
              (es, fail_at tagOff (Errorf "%s at index %d requires class file %d.0 or later, but this file is %s"
                     [AErr (TagText t); ANum i; ANum since; AErr (VersionString v)]) r)
            else
              let '((go, e), r) := read_entry t r in
              if negb go then (es, r)
              else
                let es := <[Z.to_nat i := e]> es in
                if (t =? TagLong) || (t =? TagDouble) then
                  if count <=? u16 (i + 1)
                  then (es, fail (Errorf "%s at index %d runs past the end of the constant pool" [AErr (TagText t); ANum i]) r)
                  else read_entries fuel count (u16 (u16 (i + 1) + 1)) v es r
                else read_entries fuel count (u16 (i + 1)) v es r
        end
  end.

(** [None] is Go's nil pool. *)
Definition readPool (v : Version) (r : reader) : option Pool * reader :=
  let '(count, r) := rU2 r in
  if count =? 0 then (None, fail (Errorf "constant_pool_count is 0 (must be at least 1)" []) r)
  else
    let n := Z.to_nat count in
    let '(es, r') := read_entries n count 1 v (replicate n zeroEntry) r in
    (Some (mkPool es (rb r) (replicate n []) (replicate n false) [] (rfile r)), r').

(** ** The memo cannot be seen

    [forget p] is the pool with nothing memoised; [Lookup m] says that [m] gives
    the same answer on a pool and on the pool with its memo forgotten, never
    panics, and keeps the pool good. *)

Definition forget (p : Pool) : Pool :=
  let n := length (entries p) in
  mkPool (entries p) (src p) (replicate n []) (replicate n false) (bsms p) (pfile p).

(** A Utf8 entry points into the source, at most 4 GiB. *)
Definition utf8_ok (b : bytes) (e : entry) : Prop :=
  tag e = TagUtf8 -> 0 <= ea e /\ 0 <= eb e /\ ea e + eb e <= len b /\ ea e + eb e < 2 ^ 32.

Definition memo_ok (p : Pool) : Prop := forall i,
  strOK p !! i = Some true -> exists e b s,
    entries p !! i = Some e /\ utf8_bytes p e = Some b /\ Decode b = Ok s /\ strs p !! i = Some s.

Record good (p : Pool) : Prop := {
  good_strs : length (strs p) = length (entries p);
  good_strOK : length (strOK p) = length (entries p);
  good_utf8 : Forall (utf8_ok (src p)) (entries p);
  good_memo : memo_ok p }.

Lemma good_forget p : good p -> good (forget p).
Proof.
  intros [H1 H2 H3 H4]. split; cbn; rewrite ?length_replicate; auto.
  intros i Hi. cbn in Hi. apply lookup_replicate in Hi as [Hi _]. discriminate.
Qed.

Lemma forget_idem p : forget (forget p) = forget p.
Proof. reflexivity. Qed.

Class Lookup {A} (m : PM A) : Prop := {
  lookup_same : forall p, good p -> fst (m p) = fst (m (forget p));
  lookup_safe : forall p, good p -> fst (m p) <> Err Panic;
  lookup_good : forall p, good p -> good (snd (m p));
  lookup_keeps : forall p, good p -> forget (snd (m p)) = forget p }.

#[export] Instance Lookup_ret {A} (a : A) : Lookup (mret a).
Proof. split; intros; cbn; auto; discriminate. Qed.

#[export] Instance Lookup_bind {A B} (m : PM A) (k : A -> PM B) :
  Lookup m -> (forall a, Lookup (k a)) -> Lookup (m ≫= k).
Proof.
  intros Hm Hk.
  split; intros p Hp; unfold mbind, PM_bind; pose proof (lookup_same (m := m) p Hp) as Es;
    pose proof (lookup_safe (m := m) p Hp); pose proof (lookup_good (m := m) p Hp);
    pose proof (lookup_keeps (m := m) p Hp) as Ek;
    pose proof (lookup_keeps (m := m) (forget p) (good_forget p Hp)) as Ek';
    pose proof (lookup_good (m := m) (forget p) (good_forget p Hp)); rewrite ?forget_idem in *;
    destruct (m p) as [[a|e] p1]; destruct (m (forget p)) as [[a'|e'] p2]; cbn [fst snd] in *; try congruence; auto using lookup_safe, lookup_good.
  - injection Es as <-. rewrite (lookup_same (m := k a) p1), (lookup_same (m := k a) p2) by auto. congruence.
  - rewrite lookup_keeps; auto.
Qed.

#[export] Instance Lookup_if {A} (b : bool) (m n : PM A) : Lookup m -> Lookup n -> Lookup (if b then m else n).
Proof. destruct b; auto. Qed.

Lemma Lookup_lift {A} (f : Pool -> result goerror A) : (forall p, f (forget p) = f p) -> Lookup (lift f).
Proof.
  intros H. split; intros p Hp; unfold lift; cbn; auto.
  - rewrite H. reflexivity.
  - destruct (f p); discriminate.
Qed.

#[export] Instance Lookup_at i want : Lookup (lift (pool_at i want)).
Proof. apply Lookup_lift. reflexivity. Qed.

#[export] Instance Lookup_fail {A} i format args : Lookup (PFail (A := A) i format args).
Proof. apply Lookup_lift. reflexivity. Qed.

Lemma pool_at_ok i want p e : pool_at i want p = Ok e ->
  e = entry_at p i /\ i <> 0 /\ i < Len p /\ tag e <> 0 /\ (want <> 0 -> tag e = want).
Proof.
  unfold pool_at. cbv zeta. repeat (bool_case; try discriminate). intros [= <-]. to_Z. split_and!; auto.
  intros Hw. match goal with H : _ \/ _ |- _ => destruct H; to_Z; lia end.
Qed.

Lemma entry_at_lookup p i : tag (entry_at p i) <> 0 -> entries p !! Z.to_nat i = Some (entry_at p i).
Proof.
  unfold entry_at. intros H. destruct (nth_lookup_or_length (entries p) (Z.to_nat i) zeroEntry) as [E|E]; auto.
  rewrite nth_overflow in H by lia. contradiction.
Qed.

(** The two ways [decode_entry] answers agree. *)
Lemma decode_entry_answer i e p :
  good p -> entries p !! Z.to_nat i = Some e -> tag e = TagUtf8 ->
  exists b, utf8_bytes p e = Some b /\
    fst (decode_entry i e p) = match Decode b with
      | Ok s => Ok s
      | Err err => Err (Fail (errf p i "%v" [AErr (Mutf8.Error err)]))
      end.
Proof.
  intros [_ _ Hu Hm] He Ht. rewrite Forall_lookup in Hu. destruct (Hu _ _ He Ht) as (H1 & H2 & H3 & H4).
  unfold utf8_bytes. rewrite u32_id by lia. decide_tests. eexists. split; [reflexivity|].
  unfold decode_entry, utf8_bytes. rewrite u32_id by lia. decide_tests. bool_case.
  - destruct (strOK p !! Z.to_nat i) as [[]|] eqn:Eo.
    + destruct (Hm _ Eo) as (e' & b & s & He' & Hb & Hd & Hs). rewrite He in He'. injection He' as <-.
      unfold utf8_bytes in Hb. rewrite u32_id in Hb by lia. revert Hb. decide_tests. intros [= <-].
      rewrite Hd. cbn. f_equal. apply nth_lookup_default, Hs.
    + rewrite (nth_lookup_default _ _ _ _ Eo) in E. discriminate.
    + apply lookup_ge_None in Eo. rewrite nth_overflow in E by lia. discriminate.
  - destruct (Decode _); reflexivity.
Qed.

Lemma memoise_good i e b s p :
  good p -> entries p !! Z.to_nat i = Some e -> utf8_bytes p e = Some b -> Decode b = Ok s -> good (memoise i s p).
Proof.
  intros [H1 H2 H3 H4] He Hb Hd. split; cbn; rewrite ?length_insert; auto.
  intros j Hj. cbn in *. assert (Z.to_nat i < length (entries p))%nat by (apply lookup_lt_Some in He; lia).
  destruct (decide (j = Z.to_nat i)) as [->|Hne].
  - exists e, b, s. split_and!; auto. apply list_lookup_insert_eq. lia.
  - rewrite list_lookup_insert_ne in Hj by auto. destruct (H4 j Hj) as (e' & b' & s' & ? & ? & ? & ?).
    exists e', b', s'. split_and!; auto. rewrite list_lookup_insert_ne by auto. auto.
Qed.

Lemma decode_entry_state i e p :
  snd (decode_entry i e p) = p \/
  exists b s, utf8_bytes p e = Some b /\ Decode b = Ok s /\ snd (decode_entry i e p) = memoise i s p.
Proof.
  unfold decode_entry. bool_case; auto. destruct (utf8_bytes p e) as [b|]; auto. destruct (Decode b) eqn:E'; auto.
  right. eauto.
Qed.

#[export] Instance Lookup_UTF8 i : Lookup (UTF8 i).
Proof.
  assert (Ha : forall p, good p -> (exists err, UTF8 i p = (Err (Fail err), p) /\ UTF8 i (forget p) = (Err (Fail err), forget p)) \/
     exists e, entries p !! Z.to_nat i = Some e /\ tag e = TagUtf8 /\ UTF8 i p = decode_entry i e p /\
       UTF8 i (forget p) = decode_entry i e (forget p)).
  { intros p Hp. unfold UTF8, lift, mbind, PM_bind.
    change (pool_at i TagUtf8 (forget p)) with (pool_at i TagUtf8 p).
    destruct (pool_at i TagUtf8 p) as [e|err] eqn:E; [right|left; eauto].
    apply pool_at_ok in E as (-> & _ & _ & Ht & Hw). exists (entry_at p i).
    split_and!; auto using entry_at_lookup. }
  split; intros p Hp; destruct (Ha p Hp) as [(err & E1 & E2)|(e & He & Ht & E1 & E2)]; rewrite ?E1, ?E2; cbn; auto; try discriminate.
  - destruct (decode_entry_answer i e p Hp He Ht) as (b & Hb & ->).
    destruct (decode_entry_answer i e (forget p) (good_forget p Hp) He Ht) as (b' & Hb' & ->).
    change (utf8_bytes (forget p) e) with (utf8_bytes p e) in Hb'. rewrite Hb in Hb'. injection Hb' as <-. reflexivity.
  - destruct (decode_entry_answer i e p Hp He Ht) as (b & Hb & ->). destruct (Decode b); discriminate.
  - destruct (decode_entry_state i e p) as [->|(b & s & Hb & Hd & ->)]; auto. eapply memoise_good; eauto.
  - destruct (decode_entry_state i e p) as [->|(b & s & Hb & Hd & ->)]; auto.
Qed.

#[export] Instance Lookup_Class i : Lookup (Class_ i).
Proof. unfold Class_. apply _. Qed.
#[export] Instance Lookup_Module i : Lookup (Module_ i).
Proof. unfold Module_. apply _. Qed.
#[export] Instance Lookup_Package i : Lookup (Package i).
Proof. unfold Package. apply _. Qed.
#[export] Instance Lookup_MethodType i : Lookup (MethodType i).
Proof. unfold MethodType. apply _. Qed.
#[export] Instance Lookup_NameAndType i : Lookup (NameAndType i).
Proof. unfold NameAndType. apply _. Qed.
#[export] Instance Lookup_Ref i : Lookup (PoolRef i).
Proof. unfold PoolRef. apply _. Qed.
#[export] Instance Lookup_FieldRef i : Lookup (FieldRef i).
Proof. unfold FieldRef. apply _. Qed.
#[export] Instance Lookup_MethodRef i : Lookup (MethodRef i).
Proof. unfold MethodRef. apply _. Qed.
#[export] Instance Lookup_form i kind ref v : Lookup (handle_form i kind ref v).
Proof. unfold handle_form. apply _. Qed.
#[export] Instance Lookup_name i kind ref : Lookup (handle_name i kind ref).
Proof. unfold handle_name. apply _. Qed.
#[export] Instance Lookup_Handle i v : Lookup (PoolHandle i v).
Proof. unfold PoolHandle. cbv zeta. apply _. Qed.
#[export] Instance Lookup_Dynamic i : Lookup (PoolDynamic i).
Proof. unfold PoolDynamic. apply _. Qed.
#[export] Instance Lookup_Const i v : Lookup (PoolConst i v).
Proof. unfold PoolConst. cbv zeta. apply _. Qed.

(** ** What a pool that was read looks like *)

Definition is_wide (t : Z) : bool := (t =? TagLong) || (t =? TagDouble).

(** The byte is allowed in modified UTF-8. *)
Definition utf8_byte (c : Z) : Prop := c <> 0 /\ c < 0xF0.

(** Entry [e] of a pool on source [b] for version [v]. *)
Definition entry_ok (v : Version) (b : bytes) (e : entry) : Prop :=
  (exists since, tagSince (tag e) = Some since /\ since <= Major v) /\ utf8_ok b e /\
  (tag e = TagUtf8 -> Forall utf8_byte (slice b (ea e) (ea e + eb e))).

(** The first [i] slots: index 0 and the slot after an 8-byte constant are
    unusable, every other slot holds an entry; the slots from [i] on are empty. *)
Definition filled (v : Version) (b : bytes) (es : list entry) (i : nat) : Prop :=
  (1 <= i)%nat /\ es !! 0%nat = Some zeroEntry /\
  (forall j, (j < length es)%nat -> (i <= j)%nat -> es !! j = Some zeroEntry) /\
  (forall j e, (1 <= j < i)%nat -> es !! j = Some e ->
     exists prev, es !! (j - 1)%nat = Some prev /\
       if is_wide (tag prev) then e = zeroEntry else entry_ok v b e) /\
  (forall e, es !! (i - 1)%nat = Some e -> is_wide (tag e) = false).

Lemma tagSince_nonzero t s : tagSince t = Some s -> t <> 0.
Proof. intros H ->. discriminate. Qed.

Lemma is_wide_zero : is_wide (tag zeroEntry) = false.
Proof. reflexivity. Qed.

Lemma filled_step v b es i e :
  filled v b es i -> (i < length es)%nat -> entry_ok v b e -> is_wide (tag e) = false ->
  filled v b (<[i := e]> es) (i + 1).
Proof.
  intros (H1 & H2 & H3 & H4 & H5) Hi He Hw. split_and!.
  - lia.
  - rewrite list_lookup_insert_ne by lia. exact H2.
  - intros j. rewrite length_insert. intros Hj1 Hj2. rewrite list_lookup_insert_ne by lia. apply H3; lia.
  - intros j e' Hj Hl. destruct (decide (j = i)) as [->|Hne].
    + rewrite list_lookup_insert_eq in Hl by lia. injection Hl as <-.
      destruct (lookup_lt_is_Some_2 es (i - 1)) as [prev Hp]; [lia|]. exists prev.
      rewrite list_lookup_insert_ne by lia. split; [exact Hp|]. rewrite (H5 _ Hp). exact He.
    + rewrite list_lookup_insert_ne in Hl by lia. destruct (H4 j e') as (prev & Hp & H); auto; [lia|].
      exists prev. rewrite list_lookup_insert_ne by lia. auto.
  - intros e'. replace (i + 1 - 1)%nat with i by lia. rewrite list_lookup_insert_eq by lia. intros [= <-]. exact Hw.
Qed.

Lemma filled_wide v b es i e :
  filled v b es i -> (i + 1 < length es)%nat -> entry_ok v b e -> is_wide (tag e) = true ->
  filled v b (<[i := e]> es) (i + 2).
Proof.
  intros (H1 & H2 & H3 & H4 & H5) Hi He Hw. split_and!.
  - lia.
  - rewrite list_lookup_insert_ne by lia. exact H2.
  - intros j. rewrite length_insert. intros Hj1 Hj2. rewrite list_lookup_insert_ne by lia. apply H3; lia.
  - intros j e' Hj Hl. destruct (decide (j = i)) as [->|Hne]; [|destruct (decide (j = i + 1)%nat) as [->|Hne']].
    + rewrite list_lookup_insert_eq in Hl by lia. injection Hl as <-.
      destruct (lookup_lt_is_Some_2 es (i - 1)) as [prev Hp]; [lia|]. exists prev.
      rewrite list_lookup_insert_ne by lia. split; [exact Hp|]. rewrite (H5 _ Hp). exact He.
    + exists e. replace (i + 1 - 1)%nat with i by lia. rewrite list_lookup_insert_eq by lia. rewrite Hw.
      rewrite list_lookup_insert_ne, H3 in Hl by lia. split; congruence.
    + rewrite list_lookup_insert_ne in Hl by lia. destruct (H4 j e') as (prev & Hp & H); auto; [lia|].
      exists prev. rewrite list_lookup_insert_ne by lia. auto.
  - intros e'. replace (i + 2 - 1)%nat with (i + 1)%nat by lia. rewrite list_lookup_insert_ne, H3 by lia.
    intros [= <-]. reflexivity.
Qed.

Lemma bad_utf8_none b j : bad_utf8 b j = None -> Forall utf8_byte b.
Proof.
  revert j. induction b as [|c b IH]; intros j; simpl; [constructor|]. bool_case; [discriminate|].
  intros H. to_Z. constructor; [split; lia|]. eauto.
Qed.

Lemma fail_at_done off msg r : exists e, rerr (fail_at off msg r) = Some e.
Proof. apply fail_done. Qed.

Lemma read_utf8_ok n r e r' :
  read_utf8 n r = ((true, e), r') -> rerr r' = None -> 0 <= roff r -> len (rb r) < 2 ^ 32 ->
  rerr r = None /\ e = mkEntry TagUtf8 (roff r) n /\ 0 <= n /\ roff r + n <= len (rb r) /\
  r' = with_off r (roff r + n) /\ Forall utf8_byte (slice (rb r) (roff r) (roff r + n)).
Proof.
  unfold read_utf8. cbv zeta. intros H He Ho Hl. destruct (rBytes n r) as [b r1] eqn:E.
  destruct (bad_utf8 b 0) as [[j c]|] eqn:Eb; [discriminate|].
  injection H as <- <-. pose proof (rBytes_ok n r) as Hr. rewrite E in Hr. destruct (Hr He) as (? & ? & ? & [= -> ->]).
  rewrite u32_id by lia. split_and!; auto. eapply bad_utf8_none, Eb.
Qed.

(** Every entry but a Utf8 one is one or two plain reads. *)
Lemma read_entry_plain t : t <> TagUtf8 ->
  Frame (read_entry t) /\ forall r, exists a b, fst (read_entry t r) = (true, mkEntry t a b).
Proof.
  intros Ht. unfold read_entry. rewrite (proj2 (Z.eqb_neq t TagUtf8)) by exact Ht. split; [apply _|].
  intros r. repeat bool_case; unfold mbind, Rd_bind, mret, Rd_ret;
    repeat (match goal with |- context [let '(_, _) := ?m in _] => destruct m end); cbn; eauto.
Qed.

Lemma read_entry_ok t v since r go e r' :
  tagSince t = Some since -> since <= Major v -> read_entry t r = ((go, e), r') -> rerr r' = None ->
  0 <= roff r <= len (rb r) -> len (rb r) < 2 ^ 32 ->
  go = true /\ tag e = t /\ entry_ok v (rb r) e /\ rb r' = rb r /\ rfile r' = rfile r /\
  roff r <= roff r' <= len (rb r).
Proof.
  intros Hs Hv H He Ho Hl. destruct (decide (t = TagUtf8)) as [->|Ht].
  - change (read_entry TagUtf8) with (n ← rU2; read_utf8 n) in H. unfold mbind, Rd_bind in H.
    pose proof (frame_input (m := rU2) r) as F1. pose proof (frame_file (m := rU2) r) as F2.
    pose proof (frame_off (m := rU2) r (proj2 Ho)) as F3. destruct (rU2 r) as [n r1]; cbn [snd] in *.
    destruct go.
    + apply read_utf8_ok in H as (_ & -> & Hn & Hle & -> & Hb); [|exact He|lia|rewrite F1; lia].
      rewrite F1 in *. cbn. split_and!; auto; try lia. unfold entry_ok, utf8_ok. cbn. split_and!; eauto; intros; lia.
    + unfold read_utf8 in H. cbv zeta in H. destruct (rBytes n r1) as [b r2]. destruct (bad_utf8 b 0) as [[j c]|]; [|discriminate].
      injection H as _ <-. destruct (fail_at_done (roff r1 + j) (Errorf "byte 0x%02x is not permitted in a Utf8 constant" [ANum c]) r2). congruence.
  - destruct (read_entry_plain t Ht) as (F & Hshape). destruct (Hshape r) as (a & b & E).
    pose proof (frame_input (m := read_entry t) r) as F1. pose proof (frame_file (m := read_entry t) r) as F2.
    pose proof (frame_off (m := read_entry t) r (proj2 Ho)) as F3. rewrite H in *. cbn [fst snd] in *.
    injection E as -> ->. cbn. split_and!; auto; try lia. unfold entry_ok, utf8_ok. cbn.
    split_and!; eauto; intros; contradiction.
Qed.

Lemma read_entries_done fuel count i v es r e : rerr r = Some e -> read_entries fuel count i v es r = (es, r).
Proof. intros H. destruct fuel; cbn; auto. unfold done. rewrite H. bool_case; reflexivity. Qed.

Lemma rU1_ok r : rerr (snd (rU1 r)) = None -> 0 <= roff r -> snd (rU1 r) = with_off r (roff r + 1).
Proof. destruct r as [b o f [e|]]; unfold rU1, short, done; cbn; [discriminate|]. bool_case; [discriminate|]. reflexivity. Qed.

(** A round whose entry failed ends the loop with the error. *)
Lemma read_step_done fuel count i v es es' (go : bool) t e r r' x :
  rerr r = Some x -> rerr r' = None ->
  (if negb go then (es, r)
   else
     let es := <[Z.to_nat i := e]> es in
     if (t =? TagLong) || (t =? TagDouble) then
       if count <=? u16 (i + 1)
       then (es, fail (Errorf "%s at index %d runs past the end of the constant pool" [AErr (TagText t); ANum i]) r)
       else read_entries fuel count (u16 (u16 (i + 1) + 1)) v es r
     else read_entries fuel count (u16 (i + 1)) v es r) = (es', r') -> False.
Proof.
  intros Hx He H. assert (r' = r) as ->; [|congruence]. revert H. cbv zeta.
  repeat bool_case; rewrite ?(read_entries_done _ _ _ _ _ _ _ Hx); try congruence.
  unfold fail. rewrite Hx. congruence.
Qed.

Lemma read_entries_ok fuel count i v es r es' r' :
  read_entries fuel count i v es r = (es', r') -> rerr r' = None ->
  0 <= roff r <= len (rb r) -> len (rb r) < 2 ^ 32 -> len es = count -> count < 2 ^ 16 ->
  1 <= i <= count -> count - i <= Z.of_nat fuel -> filled v (rb r) es (Z.to_nat i) ->
  length es' = length es /\ filled v (rb r) es' (length es) /\ rb r' = rb r /\ rfile r' = rfile r /\
  roff r <= roff r' <= len (rb r).
Proof.
  revert i es r. induction fuel as [|fuel IH]; intros i es r H He Ho Hl Hes Hc Hi Hf Hfill.
  - assert (i = count) as -> by lia. injection H as <- <-. unfold len in Hes. rewrite <- Hes, Nat2Z.id in Hfill.
    split_and!; auto; lia.
  - cbn [read_entries] in H. destruct (i <? count) eqn:Ei; cbn [negb] in H; to_Z.
    2: { assert (i = count) as -> by lia. injection H as <- <-. unfold len in Hes. rewrite <- Hes, Nat2Z.id in Hfill.
         split_and!; auto; lia. }
    destruct (done r) eqn:Ed; [injection H as _ <-; unfold done in Ed; rewrite He in Ed; discriminate|].
    pose proof (frame_input (m := rU1) r) as F1. pose proof (frame_file (m := rU1) r) as F2.
    pose proof (frame_off (m := rU1) r (proj2 Ho)) as F3. destruct (rU1 r) as [t r1]; cbn [snd] in *.
    destruct (tagSince t) as [since|] eqn:Es.
    2: { injection H as _ <-. destruct (fail_at_done (roff r) (Errorf "unknown constant pool tag %d at index %d" [ANum t; ANum i]) r1). congruence. }
    destruct (Major v <? since) eqn:Ev; to_Z.
    { injection H as _ <-. edestruct (fail_at_done (roff r)) as [x Hx]. rewrite Hx in He. discriminate. }
    destruct (read_entry t r1) as [[go e] r2] eqn:Er.
    destruct (rerr r2) as [x|] eqn:E2; [exfalso; eapply read_step_done; eauto|].
    rewrite <- F1 in Hl, Hfill.
    destruct (read_entry_ok t v since r1 go e r2) as (-> & Ht & Hok & G1 & G2 & G3); auto; [rewrite F1; lia|].
    rewrite <- G1 in Hfill, Hl, Hok. cbn [negb] in H. fold (is_wide t) in H.
    assert (Hn : (Z.to_nat i < length es)%nat) by (unfold len in Hes; lia).
    assert (Hstep : forall i', i < i' <= count -> filled v (rb r2) (<[Z.to_nat i := e]> es) (Z.to_nat i') ->
      read_entries fuel count i' v (<[Z.to_nat i := e]> es) r2 = (es', r') ->
      length es' = length es /\ filled v (rb r) es' (length es) /\ rb r' = rb r /\ rfile r' = rfile r /\
      roff r <= roff r' <= len (rb r)).
    { intros i' Hi' Hfi Hr. apply IH in Hr; auto; try lia.
      - rewrite length_insert, G1, F1, G2, F2 in Hr. rewrite F1 in G3. intuition lia.
      - rewrite G1. lia.
      - unfold len in *. rewrite length_insert. exact Hes. }
    destruct (is_wide t) eqn:Ew.
    + rewrite !(u16_id (i + 1)) in H by lia. destruct (count <=? i + 1) eqn:Ec; to_Z.
      { injection H as _ <-. edestruct fail_done as [y Hy]. rewrite Hy in He. discriminate. }
      rewrite u16_id in H by lia. apply (Hstep (i + 1 + 1)); auto; [lia|].
      replace (Z.to_nat (i + 1 + 1)) with (Z.to_nat i + 2)%nat by lia. apply filled_wide; auto; [|rewrite Ht; auto].
      unfold len in Hes. lia.
    + rewrite u16_id in H by lia. apply (Hstep (i + 1)); auto; [lia|].
      replace (Z.to_nat (i + 1)) with (Z.to_nat i + 1)%nat by lia. apply filled_step; auto. rewrite Ht. auto.
Qed.

Lemma byte_at_range b i : bytes_ok b -> 0 <= byte_at b i < 256.
Proof.
  intros H. unfold byte_at. destruct (nth_lookup_or_length b (Z.to_nat i) 0) as [E|E].
  - eapply Forall_lookup_1 in E; [|exact H]. exact E.
  - rewrite nth_overflow by lia. lia.
Qed.

Lemma rU2_range r : bytes_ok (rb r) -> 0 <= fst (rU2 r) < 65536.
Proof.
  intros H. unfold rU2. destruct (short 2 "u2" r) as [[|] r1] eqn:E; cbn; [lia|].
  assert (r1 = r) as -> by (revert E; unfold short; repeat bool_case; congruence).
  pose proof (byte_at_range (rb r) (roff r) H). pose proof (byte_at_range (rb r) (roff r + 1) H).
  rewrite lor_bytes2; lia.
Qed.

Lemma filled_start v b n : (1 <= n)%nat -> filled v b (replicate n zeroEntry) 1.
Proof.
  intros Hn. split_and!; auto; intros; try lia.
  - apply lookup_replicate. auto.
  - rewrite length_replicate in *. apply lookup_replicate. auto.
  - apply lookup_replicate in H as [-> _]. reflexivity.
Qed.

Lemma filled_good v b es n p :
  filled v b es (length es) -> p = mkPool es b (replicate (length es) []) (replicate (length es) false) [] n -> good p.
Proof.
  intros (H1 & H2 & H3 & H4 & H5) ->. split; cbn; rewrite ?length_replicate; auto.
  - apply Forall_lookup. intros j e He. destruct j as [|j].
    + rewrite H2 in He. injection He as <-. intros Ht. discriminate.
    + apply (H4 (S j)) in He as (prev & _ & Hw); [|apply lookup_lt_Some in He; lia].
      destruct (is_wide (tag prev)); [subst; intros Ht; discriminate|apply Hw].
  - intros i Hi. cbn in Hi. apply lookup_replicate in Hi as [Hi _]. discriminate.
Qed.

(** A pool as [readPool] leaves it: slots filled as the format lays them out,
    nothing memoised, and good. *)
Record pool_read (v : Version) (b : bytes) (p : Pool) : Prop := {
  pr_src : src p = b;
  pr_filled : filled v b (entries p) (length (entries p));
  pr_fresh : forget p = p;
  pr_good : good p }.

Lemma readPool_read (v : Version) (r r' : reader) (o : option Pool) :
  readPool v r = (o, r') -> rerr r' = None ->
  bytes_ok (rb r) -> len (rb r) < 2 ^ 32 -> 0 <= roff r <= len (rb r) ->
  exists p, o = Some p /\ pool_read v (rb r) p /\ Len p = fst (rU2 r) /\ rb r' = rb r /\ 0 <= roff r' <= len (rb r).
Proof.
  intros H He Hb Hl Ho. unfold readPool in H. pose proof (rU2_range r Hb) as Hc.
  pose proof (frame_input (m := rU2) r) as F1. pose proof (frame_off (m := rU2) r (proj2 Ho)) as F3.
  destruct (rU2 r) as [count r1]; cbn [fst snd] in *. destruct (count =? 0) eqn:E0; to_Z.
  { injection H as <- <-. edestruct fail_done as [x Hx]. rewrite Hx in He. discriminate. }
  destruct (read_entries _ _ _ _ _ _) as [es r2] eqn:Er. injection H as <- <-.
  apply read_entries_ok in Er as (L & Hf & G1 & G2 & G3); auto;
    rewrite ?F1, ?len_replicate, ?Z2Nat.id in *; try lia; [|apply filled_start; lia].
  rewrite length_replicate in L. rewrite <- L in Hf |- *.
  rewrite length_replicate in Hf. eexists. split; [reflexivity|].
  assert (Hg : good (mkPool es (rb r) (replicate (length es) []) (replicate (length es) false) [] (rfile r1)))
    by (eapply filled_good; eauto).
  split_and!; [split; cbn; auto| | |lia|lia].
  - unfold Len, len. cbn. rewrite L. lia.
  - congruence.
Qed.

(** C35: on any input below 4 GiB, when [readPool] sets no error, the pool it
    returns has exactly constant_pool_count slots: index 0 and the slot after
    every 8-byte constant are unusable, and every other slot holds a constant
    of a known tag that the class file version allows, whose Utf8 bytes lie in
    the input and hold no byte that modified UTF-8 forbids. *)
Theorem readPool_ok (v : Version) (r r' : reader) (o : option Pool) :
  readPool v r = (o, r') -> rerr r' = None ->
  bytes_ok (rb r) -> len (rb r) < 2 ^ 32 -> 0 <= roff r <= len (rb r) ->
  exists p, o = Some p /\ pool_read v (rb r) p /\ Len p = fst (rU2 r) /\ rb r' = rb r /\ 0 <= roff r' <= len (rb r).
Proof. apply readPool_read. Qed.

(** ** Sequences of lookups *)

Inductive query :=
  | QUTF8 (i : Z) | QClass (i : Z) | QModule (i : Z) | QPackage (i : Z) | QMethodType (i : Z)
  | QNameAndType (i : Z) | QRef (i : Z) | QFieldRef (i : Z) | QMethodRef (i : Z)
  | QHandle (i : Z) (v : Version) | QDynamic (i : Z) | QConst (i : Z) (v : Version).

Inductive answer :=
  | AString (s : bytes) | APair (s : bytes * bytes) | ARef (r : Ref) | AHandle (h : Handle)
  | ADynamic (d : Dynamic) | AConst (c : Const).

Definition ask (q : query) : PM answer :=
  match q with
  | QUTF8 i => s ← UTF8 i; mret (AString s)
  | QClass i => s ← Class_ i; mret (AString s)
  | QModule i => s ← Module_ i; mret (AString s)
  | QPackage i => s ← Package i; mret (AString s)
  | QMethodType i => s ← MethodType i; mret (AString s)
  | QNameAndType i => s ← NameAndType i; mret (APair s)
  | QRef i => r ← PoolRef i; mret (ARef r)
  | QFieldRef i => r ← FieldRef i; mret (ARef r)
  | QMethodRef i => r ← MethodRef i; mret (ARef r)
  | QHandle i v => h ← PoolHandle i v; mret (AHandle h)
  | QDynamic i => d ← PoolDynamic i; mret (ADynamic d)
  | QConst i v => c ← PoolConst i v; mret (AConst c)
  end.

(** The answers to a sequence of queries, the memo carried along. *)
Fixpoint ask_all (qs : list query) (p : Pool) : list (result fault answer) :=
  match qs with
  | [] => []
  | q :: qs => let '(a, p) := ask q p in a :: ask_all qs p
  end.

#[export] Instance Lookup_ask q : Lookup (ask q).
Proof. destruct q; apply _. Qed.

(** On a good pool, whatever lookups were made before, each lookup answers
    what it answers on the pool with nothing memoised, and none of them
    panics, however wild the index. *)
Theorem lookups_stateless (p : Pool) (qs : list query) :
  good p ->
  ask_all qs p = map (fun q => fst (ask q (forget p))) qs /\ ~ In (Err Panic) (ask_all qs p).
Proof.
  revert p. induction qs as [|q qs IH]; intros p Hp; simpl; [tauto|].
  pose proof (lookup_same (m := ask q) p Hp) as Hs. pose proof (lookup_safe (m := ask q) p Hp) as Hn.
  pose proof (lookup_good (m := ask q) p Hp) as Hg. pose proof (lookup_keeps (m := ask q) p Hp) as Hk.
  destruct (ask q p) as [a p1]; cbn [fst snd] in *. destruct (IH p1 Hg) as [E Hin]. rewrite Hk in E.
  split; [congruence|]. simpl. intros [->|?]; auto.
Qed.

(** A pool of two entries: the Utf8 "Hi" and the class of that name. *)
Definition sample_bytes : bytes := [0; 3; 1; 0; 2; 72; 105; 7; 0; 1].
Definition sample_read : option Pool * reader := readPool (mkVersion 52 0) (new_reader [] sample_bytes).
Definition sample_pool : Pool := mkPool [zeroEntry; mkEntry 1 5 2; mkEntry 7 1 0] sample_bytes [[]; []; []] [false; false; false] [] [].

Lemma readPool_ok_witness :
  exists p, Some sample_pool = Some p /\ pool_read (mkVersion 52 0) sample_bytes p /\ Len p = 3 /\
    rb (snd sample_read) = sample_bytes /\ 0 <= roff (snd sample_read) <= 10.
Proof.
  apply (readPool_ok (mkVersion 52 0) (new_reader [] sample_bytes) (snd sample_read) (Some sample_pool));
    [vm_compute; reflexivity|vm_compute; reflexivity|apply bytes_ok_dec; reflexivity|vm_compute; reflexivity|split; vm_compute; discriminate].
Defined.

Lemma sample_good : good sample_pool.
Proof.
  split; cbn; auto.
  - repeat apply Forall_cons_2; try apply Forall_nil_2; intros H; first [discriminate H | vm_compute; intuition discriminate].
  - intros [|[|[|i]]] H; discriminate.
Qed.

Lemma lookups_stateless_witness :
  ask_all [QClass 2; QUTF8 1; QClass 2; QUTF8 9] sample_pool =
  map (fun q => fst (ask q (forget sample_pool))) [QClass 2; QUTF8 1; QClass 2; QUTF8 9] /\
  ~ In (Err Panic) (ask_all [QClass 2; QUTF8 1; QClass 2; QUTF8 9] sample_pool).
Proof. apply (lookups_stateless sample_pool). apply sample_good. Defined.

(** ** Method handles *)

Definition special_name (n : bytes) : Prop := n = bs "<init>" \/ n = bs "<clinit>".

(** JVMS 4.4.8: the reference a method handle kind may hold, by version. *)
Definition legal_handle (v : Version) (kind : Z) (ref : Ref) : Prop :=
  (1 <= kind <= 4 /\ RTag ref = TagFieldref) \/
  (kind = 5 /\ RTag ref = TagMethodref /\ ~ special_name (RName ref)) \/
  ((kind = 6 \/ kind = 7) /\ (RTag ref = TagMethodref \/ RTag ref = TagInterfaceMethodref /\ 52 <= Major v) /\
     ~ special_name (RName ref)) \/
  (kind = 8 /\ RTag ref = TagMethodref /\ RName ref = bs "<init>") \/
  (kind = 9 /\ RTag ref = TagInterfaceMethodref /\ ~ special_name (RName ref)).

(** The checks of [PoolHandle] after the reference is resolved. *)
Definition handle_rest (i kind : Z) (ref : Ref) (v : Version) : PM Handle :=
  _ ← handle_form i kind ref v; _ ← handle_name i kind ref; mret (mkHandle kind ref).

Ltac handle_case :=
  unfold handle_rest, mbind, PM_bind, mret, PM_ret, handle_form, handle_name, legal_handle, special_name, AtLeast, Java8,
    RefGetField, RefGetStatic, RefPutField, RefPutStatic, RefInvokeVirtual, RefInvokeStatic, RefInvokeSpecial,
    RefNewInvokeSpecial, RefInvokeInterface, TagFieldref, TagMethodref, TagInterfaceMethodref;
  cbn [Z.eqb Pos.eqb Z.leb Z.compare Pos.compare Pos.compare_cont orb andb];
  repeat (case_bool_decide || (bool_case; to_Z)); cbn -[bs];
  first [left; split; [reflexivity|tauto || lia] | right; eexists; split; [reflexivity|intuition (lia || congruence)]].

Lemma handle_rest_spec i kind ref v p :
  1 <= kind <= 9 ->
  handle_rest i kind ref v p = (Ok (mkHandle kind ref), p) /\ legal_handle v kind ref \/
  exists e, handle_rest i kind ref v p = (Err e, p) /\ ~ legal_handle v kind ref.
Proof.
  intros Hk.
  assert (kind = 1 \/ kind = 2 \/ kind = 3 \/ kind = 4 \/ kind = 5 \/ kind = 6 \/ kind = 7 \/ kind = 8 \/ kind = 9)
    as Hcases by lia.
  decompose [or] Hcases; clear Hcases Hk; subst kind; handle_case.
Qed.

Lemma PoolHandle_eq i v :
  PoolHandle i v =
  (e ← lift (pool_at i TagMethodHandle);
   if (u8 (ea e) <? RefGetField) || (RefInvokeInterface <? u8 (ea e))
   then PFail i "reference_kind %d is outside the range 1..9" [ANum (u8 (ea e))]
   else ref ← PoolRef (u16 (eb e)); handle_rest i (u8 (ea e)) ref v).
Proof. reflexivity. Qed.

(** [Handle] answers with a handle exactly when the entry is a method
    handle whose reference resolves and whose kind, reference form, name and
    class file version obey the rules of JVMS 4.4.8; the handle it answers is
    that kind and that reference. *)
Theorem PoolHandle_iff (i : Z) (v : Version) (p p' : Pool) (h : Handle) :
  PoolHandle i v p = (Ok h, p') <->
  exists e, pool_at i TagMethodHandle p = Ok e /\ HKind h = u8 (ea e) /\
    PoolRef (u16 (eb e)) p = (Ok (HRef h), p') /\ legal_handle v (HKind h) (HRef h).
Proof.
  rewrite PoolHandle_eq. unfold mbind, PM_bind, lift, RefGetField, RefInvokeInterface.
  destruct (pool_at i TagMethodHandle p) as [e|err] eqn:Ee.
  2: { split; [discriminate|intros (? & ? & _); discriminate]. }
  destruct (u8 (ea e) <? 1) eqn:E1, (9 <? u8 (ea e)) eqn:E2; to_Z; cbn [orb]; try lia;
    try (split; [discriminate|]; intros (e' & [= <-] & Hk & _ & Hl); exfalso; rewrite Hk in Hl; unfold legal_handle in Hl; lia).
  destruct (PoolRef (u16 (eb e)) p) as [[ref|err] p1] eqn:Er.
  2: { split; [discriminate|]. intros (e' & [= <-] & _ & Hr & _). congruence. }
  destruct (handle_rest_spec i (u8 (ea e)) ref v p1) as [[E Hl]|(err & E & Hl)]; [lia| |]; rewrite E; split.
  - intros [= <- <-]. eauto.
  - intros (e' & [= <-] & Hk & Hr & _). rewrite Hr in Er. injection Er as <- <-. destruct h. cbn in *. subst. reflexivity.
  - discriminate.
  - intros (e' & [= <-] & Hk & Hr & Hl'). rewrite Hr in Er. injection Er as <- <-. rewrite Hk in Hl'. contradiction.
Qed.
