(* ===== verification/PoolBuilder.v ===== *)
(** * The constant pool, write side ([classfile/poolbuilder.go])

    Interning: every method takes symbolic values, adds the entries that are
    missing and returns an index.  The builder is threaded as state; its
    sticky error is [perr].  A float is its bit pattern, which is all the
    builder looks at.  The theorems: an index never changes once given, and
    the emitted table, read back by [Pool.readPool], resolves every index to
    what was interned. *)
From S2P Require Import Prelude.
From S2P Require Import Utf8.
From S2P Require Import Mutf8.
From S2P Require Import Format.
From S2P Require Import ClassIO.
From S2P Require Import Pool.

Definition MaxPoolIndex : Z := 65534.

Record PoolBuilder := mkPB {
  slots : list (option bytes);
  perr : option goerror;
  utf8 : gmap bytes Z;
  class : gmap bytes Z;
  str : gmap bytes Z;
  mt : gmap bytes Z;
  nat_ : gmap (bytes * bytes) Z;
  ref : gmap (bytes * bytes * bytes * bytes) Z;
  i32 : gmap Z Z;
  i64 : gmap Z Z;
  f32 : gmap Z Z;
  f64 : gmap Z Z }.

Definition newPoolBuilder : PoolBuilder := mkPB [None] None ∅ ∅ ∅ ∅ ∅ ∅ ∅ ∅ ∅ ∅.

Definition PB (A : Type) : Type := PoolBuilder -> A * PoolBuilder.

#[export] Instance PB_ret : MRet PB := fun _ a p => (a, p).
#[export] Instance PB_bind : MBind PB := fun _ _ k m p => let '(a, p') := m p in k a p'.

(** [fail]: only the first error is kept; the index returned is 0. *)
Definition pfail (format : string) (args : list errarg) : PB Z := fun p =>
  (0, match perr p with
      | Some _ => p
      | None =>
          mkPB (slots p) (Some (Errorf ("classfile: constant pool: " ++ format) args)) (utf8 p) (class p) (str p)
            (mt p) (nat_ p) (ref p) (i32 p) (i64 p) (f32 p) (f64 p)
      end).

Definition with_slots (l : list (option bytes)) (p : PoolBuilder) : PoolBuilder :=
  mkPB l (perr p) (utf8 p) (class p) (str p) (mt p) (nat_ p) (ref p) (i32 p) (i64 p) (f32 p) (f64 p).

Definition add (b : bytes) (wide : bool) : PB Z := fun p =>
  match perr p with
  | Some _ => (0, p)
  | None =>
      let n := len (slots p) in
      let need := if wide then 2 else 1 in
      if MaxPoolIndex <? n + need - 1 then pfail "more than %d entries" [ANum MaxPoolIndex] p
      else (u16 n, with_slots (slots p ++ [Some b] ++ (if wide then [None] else [])) p)
  end.

(** One setter per intern table. *)
Definition set_utf8 (s : bytes) (i : Z) (p : PoolBuilder) : PoolBuilder :=
  mkPB (slots p) (perr p) (<[s := i]> (utf8 p)) (class p) (str p) (mt p) (nat_ p) (ref p) (i32 p) (i64 p) (f32 p) (f64 p).
Definition set_class (s : bytes) (i : Z) (p : PoolBuilder) : PoolBuilder :=
  mkPB (slots p) (perr p) (utf8 p) (<[s := i]> (class p)) (str p) (mt p) (nat_ p) (ref p) (i32 p) (i64 p) (f32 p) (f64 p).
Definition set_str (s : bytes) (i : Z) (p : PoolBuilder) : PoolBuilder :=
  mkPB (slots p) (perr p) (utf8 p) (class p) (<[s := i]> (str p)) (mt p) (nat_ p) (ref p) (i32 p) (i64 p) (f32 p) (f64 p).
Definition set_mt (s : bytes) (i : Z) (p : PoolBuilder) : PoolBuilder :=
  mkPB (slots p) (perr p) (utf8 p) (class p) (str p) (<[s := i]> (mt p)) (nat_ p) (ref p) (i32 p) (i64 p) (f32 p) (f64 p).
Definition set_nat (k : bytes * bytes) (i : Z) (p : PoolBuilder) : PoolBuilder :=
  mkPB (slots p) (perr p) (utf8 p) (class p) (str p) (mt p) (<[k := i]> (nat_ p)) (ref p) (i32 p) (i64 p) (f32 p) (f64 p).
Definition set_ref (k : bytes * bytes * bytes * bytes) (i : Z) (p : PoolBuilder) : PoolBuilder :=
  mkPB (slots p) (perr p) (utf8 p) (class p) (str p) (mt p) (nat_ p) (<[k := i]> (ref p)) (i32 p) (i64 p) (f32 p) (f64 p).
Definition set_i32 (k i : Z) (p : PoolBuilder) : PoolBuilder :=
  mkPB (slots p) (perr p) (utf8 p) (class p) (str p) (mt p) (nat_ p) (ref p) (<[k := i]> (i32 p)) (i64 p) (f32 p) (f64 p).
Definition set_i64 (k i : Z) (p : PoolBuilder) : PoolBuilder :=
  mkPB (slots p) (perr p) (utf8 p) (class p) (str p) (mt p) (nat_ p) (ref p) (i32 p) (<[k := i]> (i64 p)) (f32 p) (f64 p).
Definition set_f32 (k i : Z) (p : PoolBuilder) : PoolBuilder :=
  mkPB (slots p) (perr p) (utf8 p) (class p) (str p) (mt p) (nat_ p) (ref p) (i32 p) (i64 p) (<[k := i]> (f32 p)) (f64 p).
Definition set_f64 (k i : Z) (p : PoolBuilder) : PoolBuilder :=
  mkPB (slots p) (perr p) (utf8 p) (class p) (str p) (mt p) (nat_ p) (ref p) (i32 p) (i64 p) (f32 p) (<[k := i]> (f64 p)).

(** [p.table[k] = i; return i] *)
Definition record_ (set : Z -> PoolBuilder -> PoolBuilder) (i : Z) : PB Z := fun p => (i, set i p).

(** [if i, ok := p.table[k]; ok { return i }], else the rest. *)
Definition cached (table : PoolBuilder -> option Z) (rest : PB Z) : PB Z := fun p =>
  match table p with Some i => (i, p) | None => rest p end.

Definition addRef1 (tag a : Z) : PB Z := add (wU2 a (wU1 (u8 tag) [])) false.
Definition addRef2 (tag a b : Z) : PB Z := add (wU2 b (wU2 a (wU1 (u8 tag) []))) false.

Definition UTF8 (s : bytes) : PB Z :=
  cached (fun p => utf8 p !! s)
    (let n := EncodedLen s in
     if 65535 <? n then pfail "Utf8 constant is %d bytes, over the 65535 limit" [ANum n]
     else
       let enc := Encode s in
       i ← add (wRaw enc (wU2 (u16 (len enc)) (wU1 (u8 TagUtf8) []))) false;
       record_ (set_utf8 s) i).

Definition Class_ (internal : bytes) : PB Z :=
  cached (fun p => class p !! internal)
    (n ← UTF8 internal; i ← addRef1 TagClass n; record_ (set_class internal) i).

Definition String_ (s : bytes) : PB Z :=
  cached (fun p => str p !! s)
    (n ← UTF8 s; i ← addRef1 TagString n; record_ (set_str s) i).

Definition MethodType (descriptor : bytes) : PB Z :=
  cached (fun p => mt p !! descriptor)
    (n ← UTF8 descriptor; i ← addRef1 TagMethodType n; record_ (set_mt descriptor) i).

Definition NameAndType (name descriptor : bytes) : PB Z :=
  cached (fun p => nat_ p !! (name, descriptor))
    (n ← UTF8 name; d ← UTF8 descriptor; i ← addRef2 TagNameAndType n d; record_ (set_nat (name, descriptor)) i).

Definition memberRef (tag : Z) (owner name descriptor : bytes) : PB Z :=
  let key := (AppendRune tag, owner, name, descriptor) in
  cached (fun p => ref p !! key)
    (c ← Class_ owner; nt ← NameAndType name descriptor; i ← addRef2 tag c nt; record_ (set_ref key) i).

Definition FieldRef : bytes -> bytes -> bytes -> PB Z := memberRef TagFieldref.
Definition MethodRef : bytes -> bytes -> bytes -> PB Z := memberRef TagMethodref.
Definition InterfaceMethodRef : bytes -> bytes -> bytes -> PB Z := memberRef TagInterfaceMethodref.

Definition Int (v : Z) : PB Z :=
  cached (fun p => i32 p !! v)
    (i ← add (wU4 (u32 v) (wU1 (u8 TagInteger) [])) false; record_ (set_i32 v) i).

Definition Float (bits : Z) : PB Z :=
  cached (fun p => f32 p !! bits)
    (i ← add (wU4 bits (wU1 (u8 TagFloat) [])) false; record_ (set_f32 bits) i).

Definition Long (v : Z) : PB Z :=
  cached (fun p => i64 p !! v)
    (i ← add (wU4 (u32 (u64 v)) (wU4 (u32 (Z.shiftr (u64 v) 32)) (wU1 (u8 TagLong) []))) true; record_ (set_i64 v) i).

Definition Double (bits : Z) : PB Z :=
  cached (fun p => f64 p !! bits)
    (i ← add (wU4 (u32 bits) (wU4 (u32 (Z.shiftr bits 32)) (wU1 (u8 TagDouble) []))) true; record_ (set_f64 bits) i).

Definition count (p : PoolBuilder) : Z := u16 (len (slots p)).

Definition emit (p : PoolBuilder) (w : bytes) : bytes :=
  foldl (fun w b => match b with Some b => wRaw b w | None => w end) (wU2 (count p) w) (tail (slots p)).

(** ** The operations as one family

    [key] names an interned value; [lookup_key] and [set_key] are its table. *)

Inductive key :=
  | KeyUtf8 (s : bytes) | KeyClass (s : bytes) | KeyString (s : bytes) | KeyMethodType (s : bytes)
  | KeyNat (k : bytes * bytes) | KeyRef (k : bytes * bytes * bytes * bytes)
  | KeyInt (v : Z) | KeyLong (v : Z) | KeyFloat (v : Z) | KeyDouble (v : Z).

#[export] Instance key_eq_dec : EqDecision key.
Proof. solve_decision. Defined.

Definition lookup_key (k : key) (p : PoolBuilder) : option Z :=
  match k with
  | KeyUtf8 s => utf8 p !! s
  | KeyClass s => class p !! s
  | KeyString s => str p !! s
  | KeyMethodType s => mt p !! s
  | KeyNat k => nat_ p !! k
  | KeyRef k => ref p !! k
  | KeyInt v => i32 p !! v
  | KeyLong v => i64 p !! v
  | KeyFloat v => f32 p !! v
  | KeyDouble v => f64 p !! v
  end.

Definition set_key (k : key) : Z -> PoolBuilder -> PoolBuilder :=
  match k with
  | KeyUtf8 s => set_utf8 s
  | KeyClass s => set_class s
  | KeyString s => set_str s
  | KeyMethodType s => set_mt s
  | KeyNat k => set_nat k
  | KeyRef k => set_ref k
  | KeyInt v => set_i32 v
  | KeyLong v => set_i64 v
  | KeyFloat v => set_f32 v
  | KeyDouble v => set_f64 v
  end.

Lemma lookup_set_key k k' i p :
  lookup_key k (set_key k' i p) = if decide (k = k') then Some i else lookup_key k p.
Proof.
  destruct k, k'; cbn; try (case_decide as E; [discriminate E|reflexivity]);
    (case_decide as E; [injection E as ->; apply lookup_insert_eq|apply lookup_insert_ne; congruence]).
Qed.

Lemma set_key_slots k i p : slots (set_key k i p) = slots p.
Proof. destruct k; reflexivity. Qed.
Lemma set_key_err k i p : perr (set_key k i p) = perr p.
Proof. destruct k; reflexivity. Qed.
#[export] Hint Rewrite set_key_slots set_key_err : mocha.

(** Keys that refer to other keys come after them. *)
Definition rank (k : key) : nat :=
  match k with
  | KeyClass _ | KeyString _ | KeyMethodType _ | KeyNat _ => 1
  | KeyRef _ => 2
  | _ => 0
  end%nat.

(** The public operations. *)
Inductive iop :=
  | IUTF8 (s : bytes) | IClass (s : bytes) | IString (s : bytes) | IMethodType (s : bytes)
  | INameAndType (n d : bytes) | IFieldRef (o n d : bytes) | IMethodRef (o n d : bytes)
  | IInterfaceMethodRef (o n d : bytes)
  | IInt (v : Z) | ILong (v : Z) | IFloat (v : Z) | IDouble (v : Z).

Definition intern (o : iop) : PB Z :=
  match o with
  | IUTF8 s => UTF8 s
  | IClass s => Class_ s
  | IString s => String_ s
  | IMethodType s => MethodType s
  | INameAndType n d => NameAndType n d
  | IFieldRef o n d => FieldRef o n d
  | IMethodRef o n d => MethodRef o n d
  | IInterfaceMethodRef o n d => InterfaceMethodRef o n d
  | IInt v => Int v
  | ILong v => Long v
  | IFloat v => Float v
  | IDouble v => Double v
  end.

Definition key_of (o : iop) : key :=
  match o with
  | IUTF8 s => KeyUtf8 s
  | IClass s => KeyClass s
  | IString s => KeyString s
  | IMethodType s => KeyMethodType s
  | INameAndType n d => KeyNat (n, d)
  | IFieldRef o n d => KeyRef (AppendRune TagFieldref, o, n, d)
  | IMethodRef o n d => KeyRef (AppendRune TagMethodref, o, n, d)
  | IInterfaceMethodRef o n d => KeyRef (AppendRune TagInterfaceMethodref, o, n, d)
  | IInt v => KeyInt v
  | ILong v => KeyLong v
  | IFloat v => KeyFloat v
  | IDouble v => KeyDouble v
  end.

(** Interning a sequence, the indices in order. *)
Fixpoint intern_all (os : list iop) : PB (list Z) :=
  match os with
  | [] => mret []
  | o :: os => i ← intern o; l ← intern_all os; mret (i :: l)
  end.

#[export] Hint Opaque pfail add addRef1 addRef2 UTF8 Class_ String_ MethodType NameAndType memberRef FieldRef MethodRef
  InterfaceMethodRef Int Float Long Double cached record_ mbind mret : typeclass_instances.

(** ** Errors stick, keys stay

    [Grows n m]: once an error is set [m] changes nothing but the intern
    tables; [m] forgets no key and adds only keys of rank below [n]. *)
Class Grows {A} (n : nat) (m : PB A) : Prop := {
  grows_err : forall p e, perr p = Some e -> perr (snd (m p)) = Some e /\ slots (snd (m p)) = slots p;
  grows_keys : forall p k i, lookup_key k p = Some i -> lookup_key k (snd (m p)) = Some i;
  grows_rank : forall p k, (n <= rank k)%nat -> lookup_key k (snd (m p)) = lookup_key k p }.

Lemma Grows_weaken {A} n n' (m : PB A) : Grows n m -> (n <= n')%nat -> Grows n' m.
Proof. intros [H1 H2 H3] Hn. split; auto. intros. apply H3. lia. Qed.

#[export] Instance Grows_ret {A} n (a : A) : Grows n (mret a).
Proof. split; cbn; auto. Qed.

#[export] Instance Grows_bind {A B} n (m : PB A) (k : A -> PB B) :
  Grows n m -> (forall a, Grows n (k a)) -> Grows n (m ≫= k).
Proof.
  intros Hm Hk. split; intros p; unfold mbind, PB_bind.
  - intros e He. destruct (grows_err (m := m) p e He). destruct (m p) as [a p1]. cbn in *.
    destruct (grows_err (m := k a) p1 e H). split; congruence.
  - intros x i Hx. pose proof (grows_keys (m := m) p x i Hx). destruct (m p) as [a p1]. cbn in *.
    apply (grows_keys (m := k a)). auto.
  - intros x Hx. pose proof (grows_rank (m := m) p x Hx). destruct (m p) as [a p1]. cbn in *.
    rewrite (grows_rank (m := k a)) by auto. auto.
Qed.

#[export] Instance Grows_if {A} n (b : bool) (m m' : PB A) : Grows n m -> Grows n m' -> Grows n (if b then m else m').
Proof. destruct b; auto. Qed.

Lemma lookup_key_fail k f args p : lookup_key k (snd (pfail f args p)) = lookup_key k p.
Proof. unfold pfail. cbn. destruct (perr p), k; reflexivity. Qed.

Lemma lookup_key_add k b wide p : lookup_key k (snd (add b wide p)) = lookup_key k p.
Proof.
  unfold add. destruct (perr p); [reflexivity|]. cbv zeta. bool_case; [apply lookup_key_fail|]. destruct k; reflexivity.
Qed.

#[export] Instance Grows_fail n f args : Grows n (pfail f args).
Proof.
  split; intros p; intros; rewrite ?lookup_key_fail; auto. unfold pfail. cbn. rewrite H. auto.
Qed.

#[export] Instance Grows_add n b wide : Grows n (add b wide).
Proof.
  split; intros p; intros; rewrite ?lookup_key_add; auto. unfold add. rewrite H. auto.
Qed.

(** [Interns k m op]: [op] answers the index recorded under [k]; when there is
    none it makes one with [m] and records it, or it fails. *)
Class Interns (k : key) (m op : PB Z) : Prop := {
  interns_hit : forall p i, lookup_key k p = Some i -> op p = (i, p);
  interns_miss : forall p, lookup_key k p = None ->
    op p = (fst (m p), set_key k (fst (m p)) (snd (m p))) \/ exists f args, op p = pfail f args p }.

Lemma Grows_interns n k m op : Interns k m op -> Grows (rank k) m -> (rank k < n)%nat -> Grows n op.
Proof.
  intros Hi Hm Hn. split; intros p; intros; (destruct (lookup_key k p) as [j|] eqn:E; [rewrite (interns_hit _ _ E); auto|]);
    (destruct (interns_miss _ E) as [->|(f & args & ->)]; cbn [fst snd];
     [rewrite ?set_key_slots, ?set_key_err, ?lookup_set_key; try case_decide; subst; try lia; try congruence|]).
  - apply (grows_err (m := m)); auto.
  - apply (grows_err (n := 0)); auto.
  - apply (grows_keys (m := m)); auto.
  - rewrite lookup_key_fail. auto.
  - apply (grows_rank (m := m)). lia.
  - apply lookup_key_fail.
Qed.

(** [interns op] proves [Interns] for an operation by its definition. *)
Ltac interns op :=
  split; intros p; intros; unfold op, cached; cbn [lookup_key] in *;
  match goal with H : _ = _ |- _ => rewrite H end; [reflexivity|];
  try (bool_case; [right; eauto|]); left; unfold mbind, PB_bind, record_;
  repeat match goal with |- context [let '(_, _) := ?m in _] => destruct m end; reflexivity.

Definition make_utf8 (s : bytes) : PB Z :=
  add (wRaw (Encode s) (wU2 (u16 (len (Encode s))) (wU1 (u8 TagUtf8) []))) false.

#[export] Instance Interns_UTF8 s : Interns (KeyUtf8 s) (make_utf8 s) (UTF8 s).
Proof. unfold make_utf8. interns UTF8. Qed.
#[export] Instance Grows_UTF8 s : Grows 1 (UTF8 s).
Proof. eapply Grows_interns; [apply _|apply Grows_add|cbn; lia]. Qed.

#[export] Instance Grows_addRef1 n t a : Grows n (addRef1 t a).
Proof. apply Grows_add. Qed.
#[export] Instance Grows_addRef2 n t a b : Grows n (addRef2 t a b).
Proof. apply Grows_add. Qed.

Definition make_ref1 (t : Z) (s : bytes) : PB Z := n ← UTF8 s; addRef1 t n.
Definition make_nat (n d : bytes) : PB Z := i ← UTF8 n; j ← UTF8 d; addRef2 TagNameAndType i j.

#[export] Instance Interns_Class s : Interns (KeyClass s) (make_ref1 TagClass s) (Class_ s).
Proof. unfold make_ref1. interns Class_. Qed.
#[export] Instance Interns_String s : Interns (KeyString s) (make_ref1 TagString s) (String_ s).
Proof. unfold make_ref1. interns String_. Qed.
#[export] Instance Interns_MethodType s : Interns (KeyMethodType s) (make_ref1 TagMethodType s) (MethodType s).
Proof. unfold make_ref1. interns MethodType. Qed.
#[export] Instance Interns_Nat n d : Interns (KeyNat (n, d)) (make_nat n d) (NameAndType n d).
Proof. unfold make_nat. interns NameAndType. Qed.

#[export] Instance Grows_make_ref1 t s : Grows 1 (make_ref1 t s).
Proof. unfold make_ref1. apply _. Qed.
#[export] Instance Grows_make_nat n d : Grows 1 (make_nat n d).
Proof. unfold make_nat. apply _. Qed.
#[export] Instance Grows_Class s : Grows 2 (Class_ s).
Proof. eapply Grows_interns; [apply _| |cbn; lia]. apply _. Qed.
#[export] Instance Grows_Nat n d : Grows 2 (NameAndType n d).
Proof. eapply Grows_interns; [apply _| |cbn; lia]. apply _. Qed.

Definition make_member (t : Z) (o n d : bytes) : PB Z := c ← Class_ o; nt ← NameAndType n d; addRef2 t c nt.
#[export] Instance Interns_member t o n d : Interns (KeyRef (AppendRune t, o, n, d)) (make_member t o n d) (memberRef t o n d).
Proof. unfold make_member. interns memberRef. Qed.
#[export] Instance Grows_make_member t o n d : Grows 2 (make_member t o n d).
Proof. unfold make_member. apply _. Qed.

Definition make_long (t v : Z) : PB Z := add (wU4 (u32 v) (wU4 (u32 (Z.shiftr v 32)) (wU1 (u8 t) []))) true.
Definition make_int (t v : Z) : PB Z := add (wU4 v (wU1 (u8 t) [])) false.
#[export] Instance Grows_make_long n t v : Grows n (make_long t v).
Proof. apply Grows_add. Qed.
#[export] Instance Grows_make_int n t v : Grows n (make_int t v).
Proof. apply Grows_add. Qed.

#[export] Instance Interns_Int v : Interns (KeyInt v) (make_int TagInteger (u32 v)) (Int v).
Proof. unfold make_int. interns Int. Qed.
#[export] Instance Interns_Float v : Interns (KeyFloat v) (make_int TagFloat v) (Float v).
Proof. unfold make_int. interns Float. Qed.
#[export] Instance Interns_Long v : Interns (KeyLong v) (make_long TagLong (u64 v)) (Long v).
Proof. unfold make_long. interns Long. Qed.
#[export] Instance Interns_Double v : Interns (KeyDouble v) (make_long TagDouble v) (Double v).
Proof. unfold make_long. interns Double. Qed.

(** What each operation makes when its key is new. *)
Definition make (o : iop) : PB Z :=
  match o with
  | IUTF8 s => make_utf8 s
  | IClass s => make_ref1 TagClass s
  | IString s => make_ref1 TagString s
  | IMethodType s => make_ref1 TagMethodType s
  | INameAndType n d => make_nat n d
  | IFieldRef o n d => make_member TagFieldref o n d
  | IMethodRef o n d => make_member TagMethodref o n d
  | IInterfaceMethodRef o n d => make_member TagInterfaceMethodref o n d
  | IInt v => make_int TagInteger (u32 v)
  | ILong v => make_long TagLong (u64 v)
  | IFloat v => make_int TagFloat v
  | IDouble v => make_long TagDouble v
  end.

#[export] Instance Interns_intern o : Interns (key_of o) (make o) (intern o).
Proof.
  destruct o; [apply Interns_UTF8|apply Interns_Class|apply Interns_String|apply Interns_MethodType|apply Interns_Nat
    |apply Interns_member|apply Interns_member|apply Interns_member
    |apply Interns_Int|apply Interns_Long|apply Interns_Float|apply Interns_Double].
Qed.
#[export] Instance Grows_make o : Grows (rank (key_of o)) (make o).
Proof.
  destruct o; [apply Grows_add|apply Grows_make_ref1|apply Grows_make_ref1|apply Grows_make_ref1|apply Grows_make_nat
    |apply Grows_make_member|apply Grows_make_member|apply Grows_make_member|apply Grows_add..].
Qed.
#[export] Instance Grows_intern o : Grows 3 (intern o).
Proof. eapply Grows_interns; [apply Interns_intern|apply Grows_make|destruct o; cbn; lia]. Qed.
#[export] Instance Grows_intern_all os : Grows 3 (intern_all os).
Proof. induction os; cbn [intern_all]; apply _. Qed.

Lemma grows_ok {A} n (m : PB A) `{!Grows n m} p : perr (snd (m p)) = None -> perr p = None.
Proof. intros H. destruct (perr p) eqn:E; [|reflexivity]. destruct (grows_err (m := m) p _ E). congruence. Qed.

Lemma intern_records o p : perr (snd (intern o p)) = None -> lookup_key (key_of o) (snd (intern o p)) = Some (fst (intern o p)).
Proof.
  intros H. destruct (lookup_key (key_of o) p) as [i|] eqn:E; [rewrite (interns_hit _ _ E); exact E|].
  destruct (interns_miss _ E) as [->|(f & args & Ef)]; cbn.
  - rewrite lookup_set_key. case_decide; congruence.
  - rewrite Ef in H. pose proof (grows_ok 0 (pfail f args) p H) as Hp. unfold pfail in H. cbn in H. rewrite Hp in H. discriminate.
Qed.

(** An index never changes: as long as no error is set, interning the same
    value again, whatever was interned in between, answers the same index and
    adds nothing. *)
Theorem intern_stable (p : PoolBuilder) (o : iop) (os : list iop) :
  let p' := snd (intern_all os (snd (intern o p))) in
  perr p' = None -> intern o p' = (fst (intern o p), p').
Proof.
  intros p' H. apply (interns_hit (op := intern o)), (grows_keys (m := intern_all os)), intern_records.
  apply (grows_ok 3 (intern_all os)), H.
Qed.

(** The value that [Cldc]-style clients intern, and a program between. *)
Lemma intern_stable_witness :
  let p' := snd (intern_all [IString (bs "x"); ILong 7; IClass (bs "A")] (snd (intern (IClass (bs "B")) newPoolBuilder))) in
  intern (IClass (bs "B")) p' = (2, p').
Proof. apply (intern_stable newPoolBuilder (IClass (bs "B")) [IString (bs "x"); ILong 7; IClass (bs "A")]). reflexivity. Defined.

(** *** Interning a whole sequence again *)

Lemma intern_all_records os p :
  perr (snd (intern_all os p)) = None ->
  Forall2 (fun o i => lookup_key (key_of o) (snd (intern_all os p)) = Some i) os (fst (intern_all os p)).
Proof.
  revert p. induction os as [|o os IH]; intros p; cbn [intern_all]; [constructor|].
  unfold mbind, PB_bind, mret, PB_ret. pose proof (intern_records o p) as Ho. destruct (intern o p) as [i p1]. cbn [fst snd] in *.
  specialize (IH p1). pose proof (grows_ok 3 (intern_all os) p1) as He.
  pose proof (grows_keys (m := intern_all os) p1 (key_of o)) as Hk. destruct (intern_all os p1) as [l p2]. cbn [fst snd] in *.
  intros H. constructor; auto.
Qed.

Lemma intern_all_hits os l p :
  Forall2 (fun o i => lookup_key (key_of o) p = Some i) os l -> intern_all os p = (l, p).
Proof.
  induction 1 as [|o i os l H _ IH]; [reflexivity|]. cbn [intern_all]. unfold mbind, PB_bind.
  rewrite (interns_hit (op := intern o) _ _ H), IH. reflexivity.
Qed.

Lemma intern_all_again os p p' l :
  intern_all os p = (l, p') -> perr p' = None -> intern_all os p' = (l, p').
Proof.
  intros E He. pose proof (intern_all_records os p) as H. rewrite E in H. apply intern_all_hits, H, He.
Qed.

(** ** What the builder holds

    [cst] is a constant as the table stores it; [built p l] says that the slots
    of [p] are the encodings of [l], laid out as the format wants, and that
    every recorded key means what it should.  The version [v] is the one the
    table is meant for: method types need class file 51. *)

Section Table.
Context (v : Version).

Inductive cst :=
  | KUtf8 (s : bytes)
  | KNum (t x : Z)
  | KWide (t x : Z)
  | KOne (t a : Z)
  | KTwo (t a b : Z).

Definition enc (c : cst) : bytes :=
  match c with
  | KUtf8 s => [TagUtf8] ++ be2 (u16 (len (Encode s))) ++ Encode s
  | KNum t x => [u8 t] ++ be4 x
  | KWide t x => [u8 t] ++ be4 (u32 (Z.shiftr x 32)) ++ be4 (u32 x)
  | KOne t a => [u8 t] ++ be2 a
  | KTwo t a b => [u8 t] ++ be2 a ++ be2 b
  end.

Definition wide_cst (c : cst) : bool := match c with KWide _ _ => true | _ => false end.

Definition cst_tag (c : cst) : Z :=
  match c with KUtf8 _ => TagUtf8 | KNum t _ | KWide t _ | KOne t _ | KTwo t _ _ => t end.

Definition one_tag (t : Z) : Prop := t = TagClass \/ t = TagString \/ t = TagMethodType /\ Java7 <= Major v.

Definition cst_ok (c : cst) : Prop :=
  match c with
  | KUtf8 s => bytes_ok s /\ len (Encode s) <= 65535
  | KNum t x => (t = TagInteger \/ t = TagFloat) /\ 0 <= x < 2 ^ 32
  | KWide t x => (t = TagLong \/ t = TagDouble) /\ 0 <= x < 2 ^ 64
  | KOne t a => one_tag t /\ 0 <= a < 65536
  | KTwo t a b =>
      (t = TagFieldref \/ t = TagMethodref \/ t = TagInterfaceMethodref \/ t = TagNameAndType) /\
      0 <= a < 65536 /\ 0 <= b < 65536
  end.

Abbreviation table := (list (option cst)).

(** The entries from index 1 on: an 8-byte constant takes two slots. *)
Inductive laid : table -> Prop :=
  | laid_nil : laid []
  | laid_one c l : wide_cst c = false -> cst_ok c -> laid l -> laid (Some c :: l)
  | laid_two c l : wide_cst c = true -> cst_ok c -> laid l -> laid (Some c :: None :: l).

Lemma laid_cst_ok l i c : laid l -> l !! i = Some (Some c) -> cst_ok c.
Proof.
  intros H. revert i. induction H; intros i Hi; [discriminate|..].
  - destruct i; cbn in Hi; [congruence|eauto].
  - destruct i as [|[|i]]; cbn in Hi; [congruence|discriminate|eauto].
Qed.

Definition cell (c : cst) : table := if wide_cst c then [Some c; None] else [Some c].

Lemma laid_snoc l c : laid l -> cst_ok c -> laid (l ++ cell c).
Proof.
  intros H Hc. unfold cell. induction H; cbn.
  - destruct (wide_cst c) eqn:E; [apply laid_two|apply laid_one]; auto using laid_nil.
  - apply laid_one; auto.
  - apply laid_two; auto.
Qed.

(** Index [i] holds the constant [c]. *)
Definition at_index (l : table) (i : Z) (c : cst) : Prop := 1 <= i /\ l !! Z.to_nat (i - 1) = Some (Some c).

Definition meaning (l : table) (k : key) (i : Z) : Prop :=
  match k with
  | KeyUtf8 s => at_index l i (KUtf8 s)
  | KeyClass s => exists n, at_index l i (KOne TagClass n) /\ at_index l n (KUtf8 s)
  | KeyString s => exists n, at_index l i (KOne TagString n) /\ at_index l n (KUtf8 s)
  | KeyMethodType s => exists n, at_index l i (KOne TagMethodType n) /\ at_index l n (KUtf8 s)
  | KeyNat (n, d) => exists a b, at_index l i (KTwo TagNameAndType a b) /\ at_index l a (KUtf8 n) /\ at_index l b (KUtf8 d)
  | KeyRef (tg, o, n, d) => exists t c nt a x y,
      tg = AppendRune t /\ (t = TagFieldref \/ t = TagMethodref \/ t = TagInterfaceMethodref) /\
      at_index l i (KTwo t c nt) /\ at_index l c (KOne TagClass a) /\ at_index l a (KUtf8 o) /\
      at_index l nt (KTwo TagNameAndType x y) /\ at_index l x (KUtf8 n) /\ at_index l y (KUtf8 d)
  | KeyInt x => at_index l i (KNum TagInteger (u32 x))
  | KeyFloat x => at_index l i (KNum TagFloat x)
  | KeyLong x => at_index l i (KWide TagLong (u64 x))
  | KeyDouble x => at_index l i (KWide TagDouble x)
  end.

Lemma at_index_app l l' i c : at_index l i c -> at_index (l ++ l') i c.
Proof. intros [H1 H2]. split; [exact H1|]. apply lookup_app_l_Some, H2. Qed.
#[local] Hint Resolve at_index_app : core.

Lemma meaning_app l l' k i : meaning l k i -> meaning (l ++ l') k i.
Proof.
  destruct k as [| | | |[]|[[[]]]| | | |]; cbn; auto.
  - intros (n & ? & ?). eauto.
  - intros (n & ? & ?). eauto.
  - intros (n & ? & ?). eauto.
  - intros (n & d & ? & ? & ?). eauto 10.
  - intros (t & c & nt & a & x & y & ?). exists t, c, nt, a, x, y. intuition.
Qed.

Lemma meaning_at l k i : meaning l k i -> exists c, at_index l i c.
Proof.
  destruct k as [| | | |[]|[[[]]]| | | |]; cbn [meaning]; intros H;
    repeat match goal with H : exists _, _ |- _ => destruct H | H : _ /\ _ |- _ => destruct H end; eauto.
Qed.

Record built (p : PoolBuilder) (l : table) : Prop := {
  built_slots : slots p = None :: map (option_map enc) l;
  built_len : len (slots p) <= 65535;
  built_laid : laid l;
  built_keys : forall k i, lookup_key k p = Some i -> meaning l k i }.

Lemma built_new : built newPoolBuilder [].
Proof. split; [reflexivity|vm_compute; discriminate|constructor|]. intros [| | | |[]|[[[]]]| | | |] i H; discriminate. Qed.

Lemma at_index_range p l i c : built p l -> at_index l i c -> 1 <= i < 65535.
Proof.
  intros [Hs Hl _ _] [H1 H2]. apply lookup_lt_Some in H2. rewrite Hs in Hl. unfold len in Hl. cbn in Hl.
  rewrite length_map in Hl. lia.
Qed.

(** [Adds P m Q]: from a built table satisfying [P], [m], unless it fails,
    extends the table, and its result is related to the new table by [Q]. *)
Definition Adds (P : table -> Prop) (m : PB Z) (Q : table -> Z -> Prop) : Prop :=
  forall p l, built p l -> P l -> perr (snd (m p)) = None ->
    exists l', built (snd (m p)) (l ++ l') /\ Q (l ++ l') (fst (m p)).

Lemma Adds_bind n P Q R (m : PB Z) (k : Z -> PB Z) :
  (forall l l', P l -> P (l ++ l')) -> (forall a, Grows n (k a)) ->
  Adds P m Q -> (forall a, Adds (fun l => P l /\ Q l a) (k a) R) -> Adds P (m ≫= k) R.
Proof.
  intros HP Hg Hm Hk p l Hb Hp He. unfold mbind, PB_bind in *. specialize (Hm p l Hb Hp).
  destruct (m p) as [a p1]; cbn [fst snd] in *. destruct Hm as (l1 & Hb1 & Hq1); [apply (grows_ok n (k a)), He|].
  destruct (Hk a p1 (l ++ l1) Hb1) as (l2 & Hb2 & Hr); auto.
  exists (l1 ++ l2). rewrite app_assoc. auto.
Qed.

Lemma add_ok p b wide : perr (snd (add b wide p)) = None ->
  add b wide p = (u16 (len (slots p)), with_slots (slots p ++ [Some b] ++ (if wide then [None] else [])) p) /\
  len (slots p) + (if wide then 2 else 1) - 1 <= MaxPoolIndex.
Proof.
  unfold add. destruct (perr p) eqn:E; cbn; [congruence|]. bool_case; to_Z; auto. cbn. rewrite E. discriminate.
Qed.

Lemma Adds_add (P : table -> Prop) c b wide :
  b = enc c -> wide = wide_cst c -> (forall l l', P l -> P (l ++ l')) -> (forall p l, built p l -> P l -> cst_ok c) ->
  Adds P (add b wide) (fun l i => P l /\ at_index l i c).
Proof.
  intros -> -> HP Hc p l Hb Hp He. apply add_ok in He as [E Hle]. rewrite E. cbn [fst snd].
  pose proof (Hc p l Hb Hp) as Hok. destruct Hb as [Hs Hl Hd Hk]. unfold MaxPoolIndex in Hle.
  assert (Hn : len (slots p) = 1 + len l) by (rewrite Hs; unfold len; cbn; rewrite length_map; lia).
  assert (Hpos : 0 <= len l) by apply len_nonneg.
  rewrite u16_id by (destruct (wide_cst c); lia). rewrite Hn. exists (cell c). split; [split|].
  - cbn. rewrite Hs, map_app. unfold cell. destruct (wide_cst c); reflexivity.
  - cbn. unfold cell in *. rewrite !len_app, Hn. destruct (wide_cst c); rewrite ?len_cons, ?len_nil; lia.
  - apply laid_snoc; auto.
  - intros k i Hi. apply meaning_app, Hk. destruct k; exact Hi.
  - split; [auto|]. split; [lia|]. replace (Z.to_nat _) with (length l) by (unfold len; lia).
    rewrite lookup_app_r by lia. rewrite Nat.sub_diag. unfold cell. destruct (wide_cst c); reflexivity.
Qed.

Lemma Adds_weaken (P P' : table -> Prop) m (Q Q' : table -> Z -> Prop) :
  Adds P m Q -> (forall l, P' l -> P l) -> (forall l i, Q l i -> Q' l i) -> Adds P' m Q'.
Proof. intros H H1 H2 p l Hb Hp He. destruct (H p l Hb) as (l' & ? & ?); eauto. Qed.

Lemma Adds_fail P f args Q : Adds P (pfail f args) Q.
Proof.
  intros p l _ _ He. pose proof (grows_ok 0 (pfail f args) p He) as H. unfold pfail in He. cbn in He. rewrite H in He. discriminate.
Qed.

(** The shape all operations share: if making a key's entry gives it its
    meaning, so does interning it. *)
Lemma Adds_interns P k m op `{!Interns k m op} :
  Adds P m (fun l i => meaning l k i) -> Adds P op (fun l i => meaning l k i).
Proof.
  intros Hm p l Hb Hp He. destruct (lookup_key k p) as [i|] eqn:E.
  - rewrite (interns_hit _ _ E). exists []. rewrite app_nil_r. split; [exact Hb|]. apply (built_keys _ _ Hb), E.
  - destruct (interns_miss _ E) as [Eo|(f & args & Eo)]; rewrite Eo in *; cbn [fst snd] in *.
    + rewrite set_key_err in He. destruct (Hm p l Hb Hp He) as (l' & [B1 B2 B3 B4] & Hq). exists l'. split; [|exact Hq].
      split; rewrite ?set_key_slots; auto. intros k' i'. rewrite lookup_set_key. case_decide; [|apply B4].
      intros [= <-]. subst. exact Hq.
    + pose proof (grows_ok 0 (pfail f args) p He) as Hp0. unfold pfail in He. cbn in He. rewrite Hp0 in He. discriminate.
Qed.

(** The table predicates carried along are kept by extension. *)
Definition mono (P : table -> Prop) : Prop := forall l l', P l -> P (l ++ l').

Lemma mono_at i c : mono (fun l => at_index l i c).
Proof. intros l l'. apply at_index_app. Qed.
Lemma mono_and P Q : mono P -> mono Q -> mono (fun l => P l /\ Q l).
Proof. intros HP HQ l l' [? ?]. split; auto. Qed.
Lemma mono_meaning k i : mono (fun l => meaning l k i).
Proof. intros l l'. apply meaning_app. Qed.
Lemma mono_true : mono (fun _ => True).
Proof. intros l l'. auto. Qed.
#[local] Hint Resolve mono_at mono_and mono_meaning mono_true : core.

Lemma Adds_keep P m Q : mono P -> Adds P m Q -> Adds P m (fun l i => P l /\ Q l i).
Proof. intros HP H p l Hb Hp He. destruct (H p l Hb Hp He) as (l' & ? & ?). exists l'. auto. Qed.

Lemma Adds_UTF8 P s : mono P -> bytes_ok s -> Adds P (UTF8 s) (fun l i => meaning l (KeyUtf8 s) i).
Proof.
  intros HP Hs. destruct (Encode_bytes s Hs) as [_ Hlen]. destruct (65535 <? EncodedLen s) eqn:E; to_Z.
  - assert (Interns (KeyUtf8 s) (pfail EmptyString []) (UTF8 s)) as Hi.
    { split; intros p; intros; [apply (interns_hit (op := UTF8 s)), H|]. right.
      unfold UTF8, cached. cbn in H. rewrite H. decide_tests. eauto. }
    apply (Adds_interns P (KeyUtf8 s) (pfail EmptyString []) (UTF8 s)), Adds_fail.
  - apply (Adds_interns P (KeyUtf8 s) (make_utf8 s) (UTF8 s)). apply (Adds_weaken P P _ (fun l i => P l /\ at_index l i (KUtf8 s))); auto; [|tauto].
    apply Adds_add; auto. intros _ _ _ _. split; [exact Hs|lia].
Qed.

Lemma Adds_ref1 P t s : mono P -> bytes_ok s -> one_tag t ->
  Adds P (make_ref1 t s) (fun l i => exists n, at_index l i (KOne t n) /\ at_index l n (KUtf8 s)).
Proof.
  intros HP Hs Ht. unfold make_ref1. eapply (Adds_bind 0); [exact HP|intros; apply Grows_add|apply Adds_UTF8; auto|].
  intros n. eapply Adds_weaken; [eapply (Adds_add (fun l => P l /\ at_index l n (KUtf8 s)) (KOne t n))| |].
  - reflexivity.
  - reflexivity.
  - apply mono_and; auto.
  - intros p l Hb [_ Hn]. pose proof (at_index_range _ _ _ _ Hb Hn). cbn. split; [exact Ht|lia].
  - intros l [? ?]. auto.
  - intros l i [[_ Hn] Hi]. eauto.
Qed.

Lemma Adds_ref2 P t a b : mono P -> (t = TagFieldref \/ t = TagMethodref \/ t = TagInterfaceMethodref \/ t = TagNameAndType) ->
  (forall p l, built p l -> P l -> 0 <= a < 65536 /\ 0 <= b < 65536) ->
  Adds P (addRef2 t a b) (fun l i => P l /\ at_index l i (KTwo t a b)).
Proof. intros HP Ht Hr. apply Adds_add; auto. intros p l Hb Hp. destruct (Hr p l Hb Hp). cbn. auto. Qed.

Lemma Adds_nat P n d : mono P -> bytes_ok n -> bytes_ok d ->
  Adds P (make_nat n d) (fun l i => meaning l (KeyNat (n, d)) i).
Proof.
  intros HP Hn Hd. unfold make_nat. eapply (Adds_bind 1); [exact HP|intros; apply _|apply Adds_UTF8; auto|].
  intros i. eapply (Adds_bind 1); [|intros; apply _|apply Adds_UTF8; auto|].
  { apply mono_and; auto. }
  intros j. eapply Adds_weaken; [apply (Adds_ref2 (fun l => at_index l i (KUtf8 n) /\ at_index l j (KUtf8 d)) TagNameAndType i j)| |].
  - apply mono_and; auto.
  - auto.
  - intros p l Hb [H1 H2]. pose proof (at_index_range _ _ _ _ Hb H1). pose proof (at_index_range _ _ _ _ Hb H2). lia.
  - cbn. intros l [[_ ?] ?]. auto.
  - cbn. intros l x [[? ?] ?]. eauto 10.
Qed.

Lemma Adds_member P t o n d : mono P -> (t = TagFieldref \/ t = TagMethodref \/ t = TagInterfaceMethodref) ->
  bytes_ok o -> bytes_ok n -> bytes_ok d ->
  Adds P (make_member t o n d) (fun l i => meaning l (KeyRef (AppendRune t, o, n, d)) i).
Proof.
  intros HP Ht Ho Hn Hd. unfold make_member.
  eapply (Adds_bind 2); [exact HP|intros; apply _|apply (Adds_interns P (KeyClass o) (make_ref1 TagClass o) (Class_ o)), Adds_ref1; auto; left; reflexivity|].
  intros c. eapply (Adds_bind 2); [|intros; apply _|apply (Adds_interns _ (KeyNat (n, d)) (make_nat n d) (NameAndType n d)), Adds_nat; auto|].
  { apply mono_and; [exact HP|exact (mono_meaning (KeyClass o) c)]. }
  intros nt. eapply Adds_weaken;
    [apply (Adds_ref2 (fun l => meaning l (KeyClass o) c /\ meaning l (KeyNat (n, d)) nt) t c nt)| |].
  - apply mono_and; auto.
  - tauto.
  - cbn. intros p l Hb [(a & H1 & _) (x & y & H2 & _)].
    pose proof (at_index_range _ _ _ _ Hb H1). pose proof (at_index_range _ _ _ _ Hb H2). lia.
  - cbn. intros l [[_ ?] ?]. auto.
  - cbn. intros l i [[(a & ? & ?) (x & y & ? & ? & ?)] ?]. exists t, c, nt, a, x, y. auto 10.
Qed.

(** The values Go's types allow: bytes in strings, 32- and 64-bit patterns. *)
Definition iop_ok (o : iop) : Prop :=
  match o with
  | IUTF8 s | IClass s | IString s => bytes_ok s
  | IMethodType s => bytes_ok s /\ Java7 <= Major v
  | INameAndType n d => bytes_ok n /\ bytes_ok d
  | IFieldRef o n d | IMethodRef o n d | IInterfaceMethodRef o n d => bytes_ok o /\ bytes_ok n /\ bytes_ok d
  | IInt _ | ILong _ => True
  | IFloat x => 0 <= x < 2 ^ 32
  | IDouble x => 0 <= x < 2 ^ 64
  end.

Lemma Adds_num P t x : mono P -> cst_ok (KNum t x) -> Adds P (make_int t x) (fun l i => at_index l i (KNum t x)).
Proof.
  intros HP Hc. eapply Adds_weaken; [apply (Adds_add P (KNum t x))|auto|]; auto. intros l i [_ H]. exact H.
Qed.

Lemma Adds_wide P t x : mono P -> cst_ok (KWide t x) -> Adds P (make_long t x) (fun l i => at_index l i (KWide t x)).
Proof.
  intros HP Hc. eapply Adds_weaken; [apply (Adds_add P (KWide t x))|auto|]; auto. intros l i [_ H]. exact H.
Qed.

Lemma u64_range x : 0 <= u64 x < 2 ^ 64.
Proof. apply Z.mod_pos_bound. reflexivity. Qed.

Lemma Adds_intern P o : mono P -> iop_ok o -> Adds P (intern o) (fun l i => meaning l (key_of o) i).
Proof.
  intros HP. destruct o; cbn [iop_ok]; intros Ho; [apply Adds_UTF8; auto|..]; apply (Adds_interns P _ _ _ (Interns0 := Interns_intern _));
    cbn [make key_of].
  - apply Adds_ref1; auto. left. reflexivity.
  - apply Adds_ref1; auto. right. left. reflexivity.
  - destruct Ho. apply Adds_ref1; auto. right. right. auto.
  - destruct Ho. apply Adds_nat; auto.
  - destruct Ho as (? & ? & ?). apply Adds_member; auto.
  - destruct Ho as (? & ? & ?). apply Adds_member; auto.
  - destruct Ho as (? & ? & ?). apply Adds_member; auto.
  - apply Adds_num; auto. split; [auto|apply u32_range].
  - apply Adds_wide; auto. split; [auto|apply u64_range].
  - apply Adds_num; auto. split; auto.
  - apply Adds_wide; auto. split; auto.
Qed.

Lemma intern_all_built os p l :
  built p l -> Forall iop_ok os -> perr (snd (intern_all os p)) = None ->
  exists l', built (snd (intern_all os p)) (l ++ l') /\
    Forall2 (fun o i => meaning (l ++ l') (key_of o) i) os (fst (intern_all os p)).
Proof.
  revert p l. induction os as [|o os IH]; intros p l Hb Hok He; cbn [intern_all] in *.
  - exists []. rewrite app_nil_r. cbn. auto.
  - apply Forall_cons in Hok as [Ho Hos]. unfold mbind, PB_bind, mret, PB_ret in *.
    pose proof (Adds_intern (fun _ => True) o mono_true Ho p l Hb I) as Hi. destruct (intern o p) as [i p1]; cbn [fst snd] in *.
    pose proof (grows_ok 3 (intern_all os) p1) as Hg. specialize (IH p1).
    destruct (intern_all os p1) as [js p2]; cbn [fst snd] in *.
    destruct Hi as (l1 & Hb1 & H1); [auto|]. destruct (IH (l ++ l1) Hb1 Hos He) as (l2 & Hb2 & H2).
    exists (l1 ++ l2). rewrite app_assoc. split; [exact Hb2|]. constructor; [apply meaning_app, H1|exact H2].
Qed.

(** *** Reading the table back *)

Definition encs (l : table) : bytes := flat_map (fun o => match o with Some c => enc c | None => [] end) l.

Lemma emit_encs p l w : built p l -> emit p w = w ++ be2 (1 + len l) ++ encs l.
Proof.
  intros [Hs Hl _ _]. unfold emit, count. rewrite Hs in Hl |- *.
  assert (Hn : len (None :: map (option_map enc) l) = 1 + len l) by (unfold len; cbn; rewrite length_map; lia).
  rewrite Hn in *. pose proof (len_nonneg l). rewrite u16_id by lia. cbn [tail]. unfold wU2, encs.
  rewrite app_assoc. generalize (w ++ be2 (1 + len l)). clear. induction l as [|[c|] l IH]; intros w; cbn.
  - symmetry. apply app_nil_r.
  - rewrite IH. unfold wRaw. rewrite app_assoc. reflexivity.
  - apply IH.
Qed.

(** The entry [e] is the constant [c], its bytes in [b]. *)
Definition decoded (b : bytes) (e : entry) (c : cst) : Prop :=
  tag e = cst_tag c /\
  match c with
  | KUtf8 s => 0 <= ea e /\ eb e = len (Encode s) /\ ea e + eb e <= len b /\ slice b (ea e) (ea e + eb e) = Encode s
  | KNum _ x => ea e = x
  | KWide _ x => ea e = Z.shiftr x 32 /\ eb e = u32 x
  | KOne _ a => ea e = a
  | KTwo _ a b => ea e = a /\ eb e = b
  end.

Lemma cst_tag_range c : cst_ok c -> 0 <= cst_tag c < 256 /\ exists since, tagSince (cst_tag c) = Some since /\ (45 <= Major v -> since <= Major v).
Proof.
  destruct c; cbn; unfold one_tag, TagInteger, TagFloat, TagLong, TagDouble, TagClass, TagString, TagMethodType, TagFieldref,
    TagMethodref, TagInterfaceMethodref, TagNameAndType, TagUtf8, Java7; intros H; decompose [and or] H; subst;
    (split; [lia|]); eexists; (split; [reflexivity|]); unfold Java1_0, Java7; lia.
Qed.

Lemma bad_utf8_encode s j : bytes_ok s -> bad_utf8 (Encode s) j = None.
Proof.
  intros Hs. destruct (Encode_bytes s Hs) as [H _]. revert j. induction H as [|x y Hx _ IH]; intros j; cbn; [reflexivity|].
  decide_tests. apply IH.
Qed.

(** The body of every constant but a Utf8 one reads back. *)
Lemma read_entry_enc c x :
  cst_ok c -> cst_tag c <> TagUtf8 -> enc c = [u8 (cst_tag c)] ++ x ->
  exists e, reads (read_entry (cst_tag c)) x (true, e) /\ forall b, decoded b e c.
Proof.
  intros Hc Ht. destruct c as [s|t n|t n|t n|t n k]; cbn [cst_tag enc] in *; [contradiction|..]; intros E;
    apply app_inv_head in E; subst x; cbn [cst_ok] in Hc.
  - exists (mkEntry t n 0). split; [|intros; split; reflexivity].
    destruct Hc as [[->| ->] Hr]; apply (reads_fmap rU4 (fun a => (true, mkEntry _ a 0))), reads_u4; exact Hr.
  - destruct Hc as [Hc Hr]. exists (mkEntry t (Z.shiftr n 32) (u32 n)). split; [|intros; split; [reflexivity|split; reflexivity]].
    assert (Hs : 0 <= Z.shiftr n 32 < 4294967296) by (rewrite Z.shiftr_div_pow2 by lia; zlia).
    rewrite (u32_id (Z.shiftr n 32)) by exact Hs.
    destruct Hc as [->| ->]; (eapply (reads_bind rU4); [apply reads_u4, Hs|]; cbv beta;
      apply (reads_fmap rU4 (fun b => (true, mkEntry _ _ b))), reads_u4, u32_range).
  - exists (mkEntry t n 0). split; [|intros; split; reflexivity]. destruct Hc as [Hc Hr].
    destruct Hc as [->|[->|[-> _]]]; apply (reads_fmap rU2 (fun a => (true, mkEntry _ a 0))), reads_u2; exact Hr.
  - exists (mkEntry t n k). split; [|intros; split; [reflexivity|split; reflexivity]]. destruct Hc as (Hc & Hn & Hk).
    destruct Hc as [->|[->|[->| ->]]]; (eapply (reads_bind rU2); [apply reads_u2, Hn|]; cbv beta;
      apply (reads_fmap rU2 (fun b => (true, mkEntry _ _ b))), reads_u2, Hk).
Qed.

(** A Utf8 entry is read with its position in the file. *)
Lemma read_utf8_enc s r post :
  healthy r -> drop (Z.to_nat (roff r)) (rb r) = (be2 (u16 (len (Encode s))) ++ Encode s) ++ post ->
  len (rb r) < 2 ^ 32 -> cst_ok (KUtf8 s) ->
  exists e, read_entry TagUtf8 r = ((true, e), with_off r (roff r + len (be2 (u16 (len (Encode s))) ++ Encode s))) /\
    decoded (rb r) e (KUtf8 s).
Proof.
  intros Hr Hd Hl [Hs Hlen]. rewrite <- app_assoc in Hd. pose proof (len_nonneg (Encode s)) as Hn0.
  change (read_entry TagUtf8) with (n ← rU2; read_utf8 n). unfold mbind, Rd_bind.
  assert (Hu : 0 <= u16 (len (Encode s)) < 65536) by apply u16_range.
  pose proof (reads_u2 _ Hu r _ Hr Hd) as E. rewrite E. rewrite u16_id in * by lia.
  pose proof (healthy_after _ _ _ Hr Hd) as Hr1. set (r1 := with_off r (roff r + len (be2 (len (Encode s))))) in *.
  pose proof (drop_prefix_drop _ _ _ _ (proj1 (proj2 Hr)) Hd) as Hd1.
  assert (Hoff : with_off r1 (roff r1 + len (Encode s)) = with_off r (roff r + len (be2 (len (Encode s)) ++ Encode s))).
  { unfold r1, with_off. cbn [rb roff rfile rerr]. f_equal. rewrite len_app. lia. }
  unfold read_utf8. cbv zeta. rewrite (reads_bytes (Encode s) r1 post Hr1 Hd1), Hoff. rewrite bad_utf8_encode by exact Hs.
  destruct Hr1 as [_ Hr1]. assert (Hle : roff r1 + len (Encode s) <= len (rb r)) by (eapply drop_prefix_len; eauto).
  cbn in Hr1, Hle |- *. rewrite u32_id by (cbn; lia). eexists. split; [reflexivity|].
  split; [reflexivity|]. cbn. split_and!; auto; try lia. unfold slice. cbn in Hd1. rewrite Hd1.
  replace (Z.to_nat _) with (length (Encode s)) by (unfold len; lia). apply take_app_length.
Qed.

(** Reading one encoded constant, tag included. *)
Lemma read_cst c r post :
  healthy r -> drop (Z.to_nat (roff r)) (rb r) = enc c ++ post -> len (rb r) < 2 ^ 32 -> cst_ok c ->
  exists e, rU1 r = (cst_tag c, with_off r (roff r + 1)) /\
    read_entry (cst_tag c) (with_off r (roff r + 1)) = ((true, e), with_off r (roff r + len (enc c))) /\
    decoded (rb r) e c.
Proof.
  intros Hr Hd Hl Hc. destruct (cst_tag_range c Hc) as [Ht _].
  assert (Hx : exists x, enc c = [cst_tag c] ++ x /\ (forall s, c = KUtf8 s -> x = be2 (u16 (len (Encode s))) ++ Encode s)).
  { destruct c; cbn [enc cst_tag] in *; rewrite ?u8_id by exact Ht; eexists; (split; [reflexivity|]); intros ? [= <-]; reflexivity. }
  destruct Hx as (x & Hx & Hxu). rewrite Hx, <- app_assoc in Hd.
  pose proof (reads_u1 (cst_tag c) r _ Hr Hd) as E1. pose proof (healthy_after _ _ _ Hr Hd) as Hr1.
  pose proof (drop_prefix_drop _ _ _ _ (proj1 (proj2 Hr)) Hd) as Hd1. change (len [cst_tag c]) with 1 in *.
  assert (Hoff : with_off (with_off r (roff r + 1)) (roff (with_off r (roff r + 1)) + len x) = with_off r (roff r + len (enc c))).
  { rewrite Hx, len_app. change (len [cst_tag c]) with 1. unfold with_off. cbn. f_equal. lia. }
  rewrite E1. destruct (decide (cst_tag c = TagUtf8)) as [Et|Et].
  - destruct c as [s|? ?|? ?|? ?|? ? ?]; cbn [cst_tag] in *;
      try (cbn in Hc; unfold one_tag, TagInteger, TagFloat, TagLong, TagDouble, TagClass, TagString, TagMethodType, TagFieldref,
      TagMethodref, TagInterfaceMethodref, TagNameAndType, TagUtf8 in *; exfalso; lia).
    pose proof (Hxu s eq_refl) as ->. destruct (read_utf8_enc s _ _ Hr1 Hd1 Hl Hc) as (e & E & Hdec). exists e.
    rewrite E, Hoff. auto.
  - destruct (read_entry_enc c x Hc Et) as (e & E & Hdec); [rewrite u8_id by exact Ht; exact Hx|].
    exists e. rewrite (E _ _ Hr1 Hd1), Hoff. auto.
Qed.

Lemma tag_wide c : cst_ok c -> (cst_tag c =? TagLong) || (cst_tag c =? TagDouble) = wide_cst c.
Proof.
  destruct c; cbn; unfold one_tag; intros H; decompose [and or] H; subst; reflexivity.
Qed.

(** One round of the loop on an encoded constant. *)
Lemma read_entries_step c fuel count i es r post :
  healthy r -> drop (Z.to_nat (roff r)) (rb r) = enc c ++ post -> len (rb r) < 2 ^ 32 -> cst_ok c ->
  45 <= Major v -> 0 <= i -> i + (if wide_cst c then 2 else 1) <= count <= 65535 ->
  exists e, decoded (rb r) e c /\
    read_entries (S fuel) count i v es r =
    read_entries fuel count (i + (if wide_cst c then 2 else 1)) v (<[Z.to_nat i := e]> es) (with_off r (roff r + len (enc c))).
Proof.
  intros Hr Hd Hl Hc Hv Hi Hcount. destruct (read_cst c r post Hr Hd Hl Hc) as (e & E1 & E2 & Hdec). exists e. split; [exact Hdec|].
  destruct (cst_tag_range c Hc) as (_ & since & Hs & Hge). specialize (Hge Hv).
  cbn [read_entries]. unfold done. rewrite (proj1 Hr). rewrite (proj2 (Z.ltb_lt i count)) by (destruct (wide_cst c); lia).
  cbn [negb]. rewrite E1, Hs. rewrite (proj2 (Z.ltb_ge _ _)) by lia. rewrite E2. cbn [negb]. cbv zeta. rewrite (tag_wide c Hc).
  destruct (wide_cst c).
  - rewrite (u16_id (i + 1)) by lia. rewrite (proj2 (Z.leb_gt _ _)) by lia. f_equal.
    replace (i + 2) with (i + 1 + 1) by lia. destruct (decide (i + 2 < 65536)); [|lia]. apply u16_id. lia.
  - f_equal. apply u16_id. lia.
Qed.

Lemma read_entries_encs l : laid l -> forall fuel i es r post,
  healthy r -> drop (Z.to_nat (roff r)) (rb r) = encs l ++ post -> len (rb r) < 2 ^ 32 -> 45 <= Major v ->
  len es = i + len l -> i + len l <= 65535 -> 0 <= i -> (length l <= fuel)%nat ->
  exists es', read_entries fuel (i + len l) i v es r = (es', with_off r (roff r + len (encs l))) /\
    length es' = length es /\ (forall j, (j < Z.to_nat i)%nat -> es' !! j = es !! j) /\
    forall j c, l !! j = Some (Some c) -> exists e, es' !! (Z.to_nat i + j)%nat = Some e /\ decoded (rb r) e c.
Proof.
  assert (Hcell : forall c l, encs (cell c ++ l) = enc c ++ encs l).
  { intros c l'. unfold encs, cell. destruct (wide_cst c); reflexivity. }
  assert (Hlen : forall c, len (cell c) = if wide_cst c then 2 else 1) by (intros; unfold cell; destruct (wide_cst _); reflexivity).
  intros Hlaid. assert (Hind : forall (Q : table -> Prop), Q [] -> (forall c l, cst_ok c -> laid l -> Q l -> Q (cell c ++ l)) -> Q l).
  { intros Q H0 H1. induction Hlaid; auto.
    - specialize (H1 c l). unfold cell in H1. rewrite H in H1. auto.
    - specialize (H1 c l). unfold cell in H1. rewrite H in H1. auto. }
  clear Hlaid. apply Hind; clear Hind l.
  - intros fuel i es r post Hr Hd Hl Hv He Hb Hi Hf. exists es. cbn [encs flat_map]. rewrite !len_nil, !Z.add_0_r, with_off_id. split_and!; auto.
    + destruct fuel; [reflexivity|]. cbn [read_entries]. rewrite Z.ltb_irrefl. reflexivity.
    + intros j c Hj. discriminate.
  - intros c l Hc Hlaid IH fuel i es r post Hr Hd Hl Hv He Hb Hi Hf. rewrite len_app, Hlen in *. rewrite Hcell, <- app_assoc in Hd.
    pose proof (len_nonneg l) as Hl0. assert (Hcl : length (cell c) = (if wide_cst c then 2 else 1)%nat) by (unfold cell; destruct (wide_cst c); reflexivity).
    rewrite length_app, Hcl in Hf. destruct fuel as [|fuel]; [destruct (wide_cst c); lia|].
    destruct (read_entries_step c fuel (i + ((if wide_cst c then 2 else 1) + len l)) i es r _ Hr Hd Hl Hc Hv Hi) as (e & Hdec & E);
      [lia|]. rewrite E, Z.add_assoc.
    destruct (IH fuel (i + (if wide_cst c then 2 else 1)) (<[Z.to_nat i := e]> es) (with_off r (roff r + len (enc c))) post)
      as (es' & E' & Hlen' & Hkeep & Hdec'); auto.
    + eapply healthy_after; eauto.
    + apply drop_prefix_drop; [apply Hr|exact Hd].
    + unfold len in *. rewrite length_insert. lia.
    + destruct (wide_cst c); lia.
    + destruct (wide_cst c); lia.
    + destruct (wide_cst c); lia.
    + exists es'. rewrite E'. rewrite length_insert in Hlen'.
      assert (Hin : (Z.to_nat i < length es)%nat) by (unfold len in He; destruct (wide_cst c); lia).
      split_and!; auto.
      * f_equal. unfold with_off. cbn. f_equal. rewrite Hcell, len_app. lia.
      * intros j Hj. rewrite Hkeep by (destruct (wide_cst c); lia). apply list_lookup_insert_ne. lia.
      * intros j c' Hj. destruct (decide (j < length (cell c))%nat) as [Hlt|Hge].
        -- rewrite lookup_app_l in Hj by exact Hlt. assert (j = 0%nat /\ c' = c) as [-> ->].
           { unfold cell in Hj. destruct (wide_cst c), j as [|[|j]]; cbn in Hj; try discriminate; split; congruence. }
           exists e. rewrite Nat.add_0_r, Hkeep by (destruct (wide_cst c); lia). split; [apply list_lookup_insert_eq, Hin|exact Hdec].
        -- rewrite lookup_app_r in Hj by lia. destruct (Hdec' _ _ Hj) as (e' & He' & Hd'). exists e'. split; [|exact Hd'].
           rewrite <- He'. f_equal. rewrite Hcl in *. destruct (wide_cst c); lia.
Qed.

(** *** Looking the constants up *)

(** [ans m p a]: on the pool [p], the lookup [m] answers [a]. *)
Definition ans {A} (m : PM A) (p : Pool) (a : A) : Prop := fst (m p) = Ok a.

Lemma ans_ret {A} (a : A) p : ans (mret a) p a.
Proof. reflexivity. Qed.

Lemma ans_bind {A B} (m : PM A) (k : A -> PM B) p a b `{!Lookup m, !Lookup (k a)} :
  good p -> ans m p a -> ans (k a) p b -> ans (m ≫= k) p b.
Proof.
  unfold ans, mbind, PM_bind. intros Hp Hm Hk. pose proof (lookup_good (m := m) p Hp) as Hg.
  pose proof (lookup_keeps (m := m) p Hp) as Hf. destruct (m p) as [[a'|e] p1]; cbn [fst snd] in *; [|discriminate].
  injection Hm as ->. rewrite (lookup_same (m := k a) p1 Hg), Hf, <- (lookup_same (m := k a) p Hp). exact Hk.
Qed.

(** [ans_step tac] answers the first lookup of a sequence with [tac]. *)
Ltac ans_step tac :=
  eapply ans_bind; [| |eassumption|tac| ]; [apply _|cbv beta zeta; apply _|cbv beta zeta].

(** What the reader sees of a string: each ill-formed byte as U+FFFD. *)
Definition clean (s : bytes) : bytes := of_runes (runes s).

Definition holds (p : Pool) (i : Z) (c : cst) : Prop :=
  exists e, entries p !! Z.to_nat i = Some e /\ decoded (src p) e c /\ cst_ok c /\ 1 <= i < 65536.

Lemma pool_at_holds p i c want : holds p i c -> want = 0 \/ want = cst_tag c ->
  exists e, pool_at i want p = Ok e /\ entries p !! Z.to_nat i = Some e /\ decoded (src p) e c.
Proof.
  intros (e & He & Hd & Hc & Hi) Hw. exists e. split; [|auto]. unfold pool_at. rewrite (proj2 (Z.eqb_neq i 0)) by lia.
  pose proof (lookup_lt_Some _ _ _ He) as Hlt. rewrite (proj2 (Z.leb_gt _ _)) by (unfold Len, len; lia).
  assert (entry_at p i = e) as -> by (unfold entry_at; apply nth_lookup_default, He). cbv zeta.
  destruct Hd as [Ht _]. destruct (cst_tag_range c Hc) as (_ & since & Hs & _). apply tagSince_nonzero in Hs. rewrite Ht.
  rewrite (proj2 (Z.eqb_neq _ _)) by exact Hs. destruct Hw as [->| ->]; [reflexivity|]. rewrite Z.eqb_refl, andb_false_r. reflexivity.
Qed.

Lemma ans_at p i c want : holds p i c -> want = 0 \/ want = cst_tag c ->
  exists e, ans (lift (pool_at i want)) p e /\ entries p !! Z.to_nat i = Some e /\ decoded (src p) e c.
Proof.
  intros H Hw. destruct (pool_at_holds p i c want H Hw) as (e & E & He & Hd). exists e. unfold ans, lift. rewrite E. auto.
Qed.

Lemma ans_UTF8 p i s : good p -> holds p i (KUtf8 s) -> ans (Pool.UTF8 i) p (clean s).
Proof.
  intros Hp Hh. destruct (pool_at_holds p i _ TagUtf8 Hh) as (e & E & He & Ht & H1 & H2 & H3 & H4); [auto|].
  destruct Hh as (_ & _ & _ & [Hs _] & _). unfold ans, Pool.UTF8, mbind, PM_bind, lift. rewrite E.
  destruct (decode_entry_answer i e p Hp He Ht) as (b & Hb & ->).
  unfold utf8_bytes in Hb. revert Hb. rewrite H2. intros Hb. destruct Hp as [_ _ Hu _].
  rewrite Forall_lookup in Hu. destruct (Hu _ _ He Ht) as (_ & _ & _ & Hlt). pose proof (len_nonneg (Encode s)).
  rewrite u32_id in Hb by lia.
  rewrite <- H2, H4 in Hb. revert Hb. bool_case; [|discriminate]. intros [= <-]. rewrite Decode_Encode by exact Hs. reflexivity.
Qed.

Lemma u16_at p i c : holds p i c -> u16 i = i.
Proof. intros (_ & _ & _ & _ & Hi). apply u16_id. lia. Qed.

(** An entry naming a Utf8 one, read by any of the four methods for these. *)
Lemma ans_one p i t n s (m : Z -> PM bytes) :
  good p -> holds p i (KOne t n) -> holds p n (KUtf8 s) ->
  (forall i, m i = (e ← lift (pool_at i t); Pool.UTF8 (u16 (ea e)))) -> ans (m i) p (clean s).
Proof.
  intros Hp Hi Hn Hm. rewrite Hm. destruct (ans_at p i _ t Hi) as (e & Ha & _ & _ & He); [auto|].
  cbn in He. ans_step ltac:(exact Ha). rewrite He, (u16_at _ _ _ Hn). apply ans_UTF8; auto.
Qed.

Lemma ans_Class p i n s : good p -> holds p i (KOne TagClass n) -> holds p n (KUtf8 s) -> ans (Pool.Class_ i) p (clean s).
Proof. intros Hp H1 H2. eapply ans_one; eauto. Qed.

Lemma ans_Nat p i a b n d : good p -> holds p i (KTwo TagNameAndType a b) -> holds p a (KUtf8 n) -> holds p b (KUtf8 d) ->
  ans (Pool.NameAndType i) p (clean n, clean d).
Proof.
  intros Hp Hi Ha Hb. destruct (ans_at p i _ TagNameAndType Hi) as (e & He & _ & _ & E1 & E2); [auto|].
  unfold Pool.NameAndType. ans_step ltac:(exact He). rewrite E1, E2, (u16_at _ _ _ Ha), (u16_at _ _ _ Hb).
  ans_step ltac:(apply ans_UTF8; eauto). ans_step ltac:(apply ans_UTF8; eauto). apply ans_ret.
Qed.

Lemma ans_Ref p i t c nt a x y o n d :
  good p -> t = TagFieldref \/ t = TagMethodref \/ t = TagInterfaceMethodref ->
  holds p i (KTwo t c nt) -> holds p c (KOne TagClass a) -> holds p a (KUtf8 o) ->
  holds p nt (KTwo TagNameAndType x y) -> holds p x (KUtf8 n) -> holds p y (KUtf8 d) ->
  ans (PoolRef i) p (mkRef t (clean o) (clean n) (clean d)).
Proof.
  intros Hp Ht Hi Hc Ha Hnt Hx Hy. destruct (ans_at p i _ 0 Hi) as (e & He & _ & Et & E1 & E2); [auto|]. cbn [cst_tag] in Et.
  unfold PoolRef. ans_step ltac:(exact He). rewrite E1, E2, Et, (u16_at _ _ _ Hc), (u16_at _ _ _ Hnt).
  replace ((t =? TagFieldref) || (t =? TagMethodref) || (t =? TagInterfaceMethodref)) with true
    by (destruct Ht as [->|[->| ->]]; reflexivity).
  ans_step ltac:(eapply ans_Class; eauto). ans_step ltac:(eapply ans_Nat; eauto). apply ans_ret.
Qed.

Lemma lor_halves x : 0 <= x < 2 ^ 64 -> Z.lor (u64 (Z.shiftl (Z.shiftr x 32) 32)) (u32 x) = x.
Proof.
  intros Hx. assert (H : 0 <= Z.shiftr x 32 < 2 ^ 32) by (rewrite Z.shiftr_div_pow2 by lia; zlia).
  replace (u64 (Z.shiftl (Z.shiftr x 32) 32)) with (Z.shiftl (Z.shiftr x 32) 32).
  - rewrite lor_shiftl_add by (pose proof (u32_range x); lia). rewrite Z.shiftr_div_pow2 by lia. unfold u32. zlia.
  - unfold u64. rewrite Z.mod_small; [reflexivity|]. rewrite Z.shiftl_mul_pow2 by lia.
    change (2 ^ 64) with (2 ^ 32 * 2 ^ 32). nia.
Qed.

Lemma ans_num p i t x v' : good p -> holds p i (KNum t x) -> ans (PoolConst i v') p (numConst t x).
Proof.
  intros Hp Hi. destruct (ans_at p i _ 0 Hi) as (e & He & _ & Et & E1); [auto|]. cbn [cst_tag] in Et.
  destruct Hi as (_ & _ & _ & [Ht _] & _).
  unfold PoolConst. ans_step ltac:(exact He). rewrite Et, E1.
  destruct Ht as [->| ->]; apply ans_ret.
Qed.

Lemma ans_wide p i t x v' : good p -> holds p i (KWide t x) -> ans (PoolConst i v') p (numConst t x).
Proof.
  intros Hp Hi. destruct (ans_at p i _ 0 Hi) as (e & He & _ & Et & E1 & E2); [auto|]. cbn [cst_tag] in Et.
  destruct Hi as (_ & _ & _ & [Ht Hx] & _).
  unfold PoolConst. ans_step ltac:(exact He). rewrite Et, E1, E2.
  destruct Ht as [->| ->]; cbn; rewrite lor_halves by exact Hx; apply ans_ret.
Qed.

Lemma ans_String p i n s v' : good p -> holds p i (KOne TagString n) -> holds p n (KUtf8 s) ->
  ans (PoolConst i v') p (strConst TagString (clean s)).
Proof.
  intros Hp Hi Hn. destruct (ans_at p i _ 0 Hi) as (e & He & _ & Et & E1); [auto|]. cbn [cst_tag] in Et.
  unfold PoolConst. ans_step ltac:(exact He). rewrite Et, E1. cbn. rewrite (u16_at _ _ _ Hn).
  ans_step ltac:(apply ans_UTF8; eauto). apply ans_ret.
Qed.

(** How a client looks up the index of each operation, and what it expects. *)
Definition query_of (v' : Version) (o : iop) (i : Z) : query :=
  match o with
  | IUTF8 _ => QUTF8 i
  | IClass _ => QClass i
  | IMethodType _ => QMethodType i
  | INameAndType _ _ => QNameAndType i
  | IFieldRef _ _ _ | IMethodRef _ _ _ | IInterfaceMethodRef _ _ _ => QRef i
  | IString _ | IInt _ | ILong _ | IFloat _ | IDouble _ => QConst i v'
  end.

Definition answer_of (o : iop) : answer :=
  match o with
  | IUTF8 s | IClass s | IMethodType s => AString (clean s)
  | IString s => AConst (strConst TagString (clean s))
  | INameAndType n d => APair (clean n, clean d)
  | IFieldRef o n d => ARef (mkRef TagFieldref (clean o) (clean n) (clean d))
  | IMethodRef o n d => ARef (mkRef TagMethodref (clean o) (clean n) (clean d))
  | IInterfaceMethodRef o n d => ARef (mkRef TagInterfaceMethodref (clean o) (clean n) (clean d))
  | IInt x => AConst (numConst TagInteger (u32 x))
  | ILong x => AConst (numConst TagLong (u64 x))
  | IFloat x => AConst (numConst TagFloat x)
  | IDouble x => AConst (numConst TagDouble x)
  end.

Lemma ans_ask {A} (m : PM A) (f : A -> answer) p a `{!Lookup m} : good p -> ans m p a -> ans (x ← m; mret (f x)) p (f a).
Proof. intros Hp H. ans_step ltac:(exact H). apply ans_ret. Qed.

Lemma AppendRune_tag t t' : t = TagFieldref \/ t = TagMethodref \/ t = TagInterfaceMethodref ->
  t' = TagFieldref \/ t' = TagMethodref \/ t' = TagInterfaceMethodref -> AppendRune t = AppendRune t' -> t = t'.
Proof. intros [->|[->| ->]] [->|[->| ->]]; intros H; try reflexivity; discriminate. Qed.

Lemma meaning_ask v' p l o i :
  good p -> (forall i c, at_index l i c -> holds p i c) -> meaning l (key_of o) i ->
  fst (ask (query_of v' o i) p) = Ok (answer_of o).
Proof.
  intros Hp Hl. destruct o; cbn [key_of meaning]; intros Hm.
  - apply (ans_ask (Pool.UTF8 i) AString); [apply _|exact Hp|]. apply ans_UTF8; auto.
  - destruct Hm as (n & H1 & H2). apply (ans_ask (Pool.Class_ i) AString); [apply _|exact Hp|]. eapply ans_Class; eauto.
  - destruct Hm as (n & H1 & H2). apply (ans_ask (PoolConst i v') AConst); [apply _|exact Hp|]. eapply ans_String; eauto.
  - destruct Hm as (n & H1 & H2). apply (ans_ask (Pool.MethodType i) AString); [apply _|exact Hp|]. eapply ans_one; eauto.
  - destruct Hm as (a & b & H1 & H2 & H3). apply (ans_ask (Pool.NameAndType i) APair); [apply _|exact Hp|]. eapply ans_Nat; eauto.
  - destruct Hm as (t & c & nt & a & x & y & Et & Ht & H). apply AppendRune_tag in Et as <-; auto.
    apply (ans_ask (PoolRef i) ARef); [apply _|exact Hp|]. decompose [and] H. eapply ans_Ref; eauto.
  - destruct Hm as (t & c & nt & a & x & y & Et & Ht & H). apply AppendRune_tag in Et as <-; auto.
    apply (ans_ask (PoolRef i) ARef); [apply _|exact Hp|]. decompose [and] H. eapply ans_Ref; eauto.
  - destruct Hm as (t & c & nt & a & x & y & Et & Ht & H). apply AppendRune_tag in Et as <-; auto.
    apply (ans_ask (PoolRef i) ARef); [apply _|exact Hp|]. decompose [and] H. eapply ans_Ref; eauto.
  - apply (ans_ask (PoolConst i v') AConst); [apply _|exact Hp|]. apply ans_num; auto.
  - apply (ans_ask (PoolConst i v') AConst); [apply _|exact Hp|]. apply ans_wide; auto.
  - apply (ans_ask (PoolConst i v') AConst); [apply _|exact Hp|]. apply ans_num; auto.
  - apply (ans_ask (PoolConst i v') AConst); [apply _|exact Hp|]. apply ans_wide; auto.
Qed.

(** The pool a built table reads back as: every constant where it was put. *)
Lemma readPool_emit p l r post :
  built p l -> healthy r -> drop (Z.to_nat (roff r)) (rb r) = emit p [] ++ post ->
  len (rb r) < 2 ^ 32 -> bytes_ok (rb r) -> 45 <= Major v ->
  exists q, readPool v r = (Some q, with_off r (roff r + len (emit p []))) /\ good q /\
    forall i c, at_index l i c -> holds q i c.
Proof.
  intros Hb Hr Hd Hl Hbytes Hv. rewrite (emit_encs p l [] Hb) in Hd |- *. cbn [app] in *. pose proof (built_slots _ _ Hb) as Hs.
  pose proof (built_len _ _ Hb) as Hle. assert (Hn : len (slots p) = 1 + len l) by (rewrite Hs; unfold len; cbn; rewrite length_map; lia).
  pose proof (len_nonneg l) as Hl0. rewrite <- app_assoc in Hd. assert (Hu : 0 <= 1 + len l < 65536) by lia.
  pose proof (reads_u2 _ Hu r _ Hr Hd) as E1. pose proof (healthy_after _ _ _ Hr Hd) as Hr1.
  pose proof (drop_prefix_drop _ _ _ _ (proj1 (proj2 Hr)) Hd) as Hd1.
  set (n := Z.to_nat (1 + len l)) in *.
  destruct (read_entries_encs l (built_laid _ _ Hb) n 1 (replicate n zeroEntry) (with_off r (roff r + len (be2 (1 + len l)))) post)
    as (es & E2 & Hlen & _ & Hdec); auto; try lia.
  { rewrite len_replicate. lia. }
  { unfold n, len. lia. }
  cbn [rb with_off roff rfile] in *.
  assert (Hread : readPool v r = (Some (mkPool es (rb r) (replicate n []) (replicate n false) [] (rfile r)),
      with_off r (roff r + len (be2 (1 + len l) ++ encs l)))).
  { unfold readPool. rewrite E1. rewrite (proj2 (Z.eqb_neq _ _)) by lia. fold n. rewrite E2. rewrite len_app, Z.add_assoc. reflexivity. }
  eexists. split; [exact Hread|]. destruct (readPool_read v r _ _ Hread) as (q & [= <-] & Hq & _); auto.
  { apply Hr. }
  { apply Hr. }
  split; [apply Hq|]. intros i c Hi. pose proof (at_index_range _ _ _ _ Hb Hi) as Hrange. destruct Hi as [Hi1 Hi2].
  destruct (Hdec _ _ Hi2) as (e & He & Hde). exists e. replace (Z.to_nat 1 + Z.to_nat (i - 1))%nat with (Z.to_nat i) in He by lia.
  split_and!; auto; try lia. eapply laid_cst_ok; eauto. apply Hb.
Qed.

End Table.

Lemma u8s_ok l : bytes_ok (map u8 l).
Proof. apply Forall_map, Forall_true. intros. apply u8_range. Qed.

Lemma be2_ok x : bytes_ok (be2 x).
Proof. apply (u8s_ok [Z.shiftr x 8; x]). Qed.
Lemma be4_ok x : bytes_ok (be4 x).
Proof. apply (u8s_ok [Z.shiftr x 24; Z.shiftr x 16; Z.shiftr x 8; x]). Qed.
#[export] Hint Resolve be2_ok be4_ok : mocha.

Lemma enc_ok v c : cst_ok v c -> bytes_ok (enc c).
Proof.
  intros Hc. destruct c; cbn [enc]; rewrite ?bytes_ok_app; split_and!; auto using be2_ok, be4_ok;
    try (apply bytes_ok_cons; split; [apply u8_range|constructor]).
  - apply bytes_ok_cons. split; [unfold TagUtf8; lia|constructor].
  - destruct Hc as [Hs _]. destruct (Encode_bytes s Hs) as [H _]. eapply Forall_impl; [exact H|]. cbn. lia.
Qed.

Lemma emit_ok v p l : built v p l -> bytes_ok (emit p []).
Proof.
  intros Hb. rewrite (emit_encs v p l [] Hb). cbn [app]. apply bytes_ok_app. split; [apply be2_ok|].
  pose proof (built_laid _ _ _ Hb) as H. clear Hb. induction H; cbn; [constructor|..]; rewrite ?bytes_ok_app; split; eauto using enc_ok.
Qed.

(** C3: interning any sequence of values of any kind into a new builder and
    reading the emitted table back: when the builder set no error (after one it
    answers index 0), the reader reads exactly the table, sets no error, and
    every index the builder answered lies in the table and resolves, through
    the lookup for its kind, to the value interned, a string up to the
    replacement of ill-formed UTF-8 by U+FFFD. *)
Theorem pool_roundtrip (v : Version) (os : list iop) (l : list Z) (p : PoolBuilder) (file post : bytes) :
  intern_all os newPoolBuilder = (l, p) -> perr p = None ->
  Forall (iop_ok v) os -> 45 <= Major v -> bytes_ok post -> len (emit p [] ++ post) < 2 ^ 32 ->
  exists q, readPool v (new_reader file (emit p [] ++ post)) =
      (Some q, with_off (new_reader file (emit p [] ++ post)) (len (emit p []))) /\
    Forall2 (fun o i => 1 <= i < count p /\ forall v', fst (ask (query_of v' o i) q) = Ok (answer_of o)) os l.
Proof.
  intros E He Hos Hv Hpost Hlen. pose proof (intern_all_built v os newPoolBuilder [] (built_new v) Hos) as H.
  rewrite E in H. destruct (H He) as (t & Hb & Hm). cbn [app fst snd] in *.
  set (r := new_reader file (emit p [] ++ post)).
  assert (Hr : healthy r) by (split; [reflexivity|]; cbn; pose proof (len_nonneg (emit p [] ++ post)); lia).
  destruct (readPool_emit v p t r post Hb Hr) as (q & Hq & Hg & Hl); auto.
  { apply bytes_ok_app. split; [eapply emit_ok, Hb|exact Hpost]. }
  exists q. split; [exact Hq|]. eapply Forall2_impl; [exact Hm|]. cbn. intros o i Hi. split.
  - assert (Hat : exists c, at_index t i c).
    { eapply meaning_at, Hi. }
    destruct Hat as (c & Hc). pose proof (built_slots _ _ _ Hb) as Hs. pose proof (built_len _ _ _ Hb).
    destruct Hc as [Hc1 Hc2]. apply lookup_lt_Some in Hc2. unfold count. rewrite u16_id by (pose proof (len_nonneg (slots p)); lia).
    rewrite Hs. unfold len. cbn [length]. rewrite length_map. lia.
  - intros v'. eapply meaning_ask; eauto.
Qed.

Lemma pool_roundtrip_witness :
  let os := [IMethodRef (bs "A") (bs "f") (bs "()V"); IString (bs "hi"); ILong (-1); IInt 70000; IClass (bs "A")] in
  let p := snd (intern_all os newPoolBuilder) in
  exists q, readPool (mkVersion 49 0) (new_reader [] (emit p [] ++ [7])) =
      (Some q, with_off (new_reader [] (emit p [] ++ [7])) (len (emit p []))) /\
    Forall2 (fun o i => 1 <= i < count p /\ forall v', fst (ask (query_of v' o i) q) = Ok (answer_of o)) os [6; 8; 9; 11; 2].
Proof.
  apply (pool_roundtrip (mkVersion 49 0)
    [IMethodRef (bs "A") (bs "f") (bs "()V"); IString (bs "hi"); ILong (-1); IInt 70000; IClass (bs "A")] [6; 8; 9; 11; 2]
    (snd (intern_all [IMethodRef (bs "A") (bs "f") (bs "()V"); IString (bs "hi"); ILong (-1); IInt 70000; IClass (bs "A")] newPoolBuilder)) [] [7]);
    [vm_compute; reflexivity|vm_compute; reflexivity| |cbn; lia|apply bytes_ok_dec; reflexivity|vm_compute; reflexivity].
  rewrite !Forall_cons. cbn [iop_ok].
  repeat match goal with
  | |- bytes_ok _ => apply bytes_ok_dec; reflexivity
  | |- _ /\ _ => split
  | |- True => exact I
  | |- Forall _ [] => apply Forall_nil_2
  end.
Defined.
