(* ===== verification/Code.v ===== *)
(** * Reading a code array ([classfile/code.go])

    An [Instr] is a slice of the code array; its accessors index that slice,
    so they are partial ([None] is Go's index panic).  The iterator decodes one
    instruction at a time; the theorems: it never panics, it advances, the
    instructions tile the array, and no accessor panics on what it produced. *)
From S2P Require Import Prelude.
From S2P Require Import Op.
From S2P Require Import ClassIO.

(** ** Big-endian operands *)

Definition be16 (b : bytes) : option Z :=
  match b with b0 :: b1 :: _ => Some (Z.lor (u16 (Z.shiftl b0 8)) b1) | _ => None end.

Definition be32 (b : bytes) : option Z :=
  match b with
  | b0 :: b1 :: b2 :: b3 :: _ =>
      Some (s32 (Z.lor (Z.lor (Z.lor (u32 (Z.shiftl b0 24)) (Z.shiftl b1 16)) (Z.shiftl b2 8)) b3))
  | _ => None
  end.

(** [b[lo:]]: panics past the end. *)
Definition from (b : bytes) (lo : Z) : option bytes :=
  if (0 <=? lo) && (lo <=? len b) then Some (drop (Z.to_nat lo) b) else None.

(** ** Instructions *)

Record Instr := mkInstr { IOp : Z; IPC : Z; IWide : bool; raw : bytes }.

Definition InstrLen (i : Instr) : Z := len (raw i).

Definition operands (i : Instr) : option bytes := from (raw i) (if IWide i then 2 else 1).

Definition Index (i : Instr) : option Z :=
  b ← operands i;
  match OpKind (IOp i) with
  | ConstU1 => at_ b 0
  | ConstU2 | MultiK | InterfaceK | DynamicK => be16 b
  | _ => Some 0
  end.

(** [Local] *)
Definition LocalSlot (i : Instr) : option Z :=
  b ← operands i;
  match OpKind (IOp i) with
  | Local | IincK => if IWide i then be16 b else at_ b 0
  | _ =>
      let o := IOp i in
      if (Iload0 <=? o) && (o <=? Aload3) then Some ((o - Iload0) mod 4)
      else if (Istore0 <=? o) && (o <=? Astore3) then Some ((o - Istore0) mod 4)
      else Some 0
  end.

Definition Increment (i : Instr) : option Z :=
  if negb (IOp i =? Iinc) then Some 0
  else
    b ← operands i;
    if IWide i then b2 ← from b 2; v ← be16 b2; Some (s16 v)
    else v ← at_ b 1; Some (s8 v).

Definition Immediate (i : Instr) : option Z :=
  b ← operands i;
  if IOp i =? Bipush then v ← at_ b 0; Some (s8 v)
  else if IOp i =? Sipush then v ← be16 b; Some (s16 v)
  else Some 0.

Definition Target (i : Instr) : option Z :=
  b ← operands i;
  match OpKind (IOp i) with
  | Branch2 => v ← be16 b; Some (u32 (s32 (s32 (IPC i) + s16 v)))
  | Branch4 => v ← be32 b; Some (u32 (s32 (s32 (IPC i) + v)))
  | _ => Some 0
  end.

Definition ArrayType (i : Instr) : option Z :=
  if negb (IOp i =? Newarray) then Some 0 else b ← operands i; at_ b 0.

Definition Dimensions (i : Instr) : option Z :=
  if negb (IOp i =? Multianewarray) then Some 0 else b ← operands i; at_ b 2.

(** [(4 - (pc+1)%4) % 4] on uint32 *)
Definition pad_at (pc : Z) : Z := (4 - u32 (pc + 1) mod 4) mod 4.

Record SwitchCase := mkCase { Match : Z; CTarget : Z }.

(** The loops of [Switch]: the [n]-entry tables at offset [at0] of [b]. *)
Fixpoint table_cases (n : nat) (b : bytes) (at0 match0 base : Z) : option (list SwitchCase) :=
  match n with
  | O => Some []
  | S n =>
      x ← from b at0; off ← be32 x;
      rest ← table_cases n b (at0 + 4) (match0 + 1) base;
      Some (mkCase (s32 match0) (u32 (s32 (base + off))) :: rest)
  end.

Fixpoint lookup_cases (n : nat) (b : bytes) (at0 base : Z) : option (list SwitchCase) :=
  match n with
  | O => Some []
  | S n =>
      x ← from b at0; m ← be32 x;
      y ← from b (at0 + 4); off ← be32 y;
      rest ← lookup_cases n b (at0 + 8) base;
      Some (mkCase m (u32 (s32 (base + off))) :: rest)
  end.

Definition Switch (i : Instr) : option (Z * list SwitchCase) :=
  b ← from (raw i) (1 + pad_at (IPC i));
  if len b <? 4 then Some (0, [])
  else
    let base := s32 (IPC i) in
    d ← be32 b;
    let def := u32 (s32 (base + d)) in
    if IOp i =? Tableswitch then
      if len b <? 12 then Some (def, [])
      else
        b4 ← from b 4; low ← be32 b4;
        b8 ← from b 8; high ← be32 b8;
        if high <? low then Some (def, [])
        else
          let n := high - low + 1 in
          if len b <? 12 + 4 * n then Some (def, [])
          else cs ← table_cases (Z.to_nat n) b 12 low base; Some (def, cs)
    else if IOp i =? Lookupswitch then
      if len b <? 8 then Some (def, [])
      else
        b4 ← from b 4; n ← be32 b4;
        if (n <? 0) || (len b <? 8 + 8 * n) then Some (def, [])
        else cs ← lookup_cases (Z.to_nat n) b 8 base; Some (def, cs)
    else Some (def, []).

(** An opcode given to a [%s] verb. *)
Definition op_arg (o : Z) : errarg := match OpString o with Some s => AStr s | None => AStr [] end.

(** [Instr.String], as the format it prints. *)
Definition InstrString (i : Instr) : option goerror :=
  match OpKind (IOp i) with
  | NoneK => Some (Errorf (OpName (IOp i)) [])
  | ConstU1 | ConstU2 | MultiK | InterfaceK | DynamicK => x ← Index i; Some (Errorf "%s #%d" [op_arg (IOp i); ANum x])
  | Local => x ← LocalSlot i; Some (Errorf "%s %d" [op_arg (IOp i); ANum x])
  | IincK => x ← LocalSlot i; y ← Increment i; Some (Errorf "%s %d, %d" [op_arg (IOp i); ANum x; ANum y])
  | Branch2 | Branch4 => x ← Target i; Some (Errorf "%s %d" [op_arg (IOp i); ANum x])
  | Byte1 | Short2 => x ← Immediate i; Some (Errorf "%s %d" [op_arg (IOp i); ANum x])
  | _ => Some (Errorf (OpName (IOp i)) [])
  end.

(** ** The iterator *)

Record Iter := mkIter { icode : bytes; ipc : Z; icur : Instr; ierr : option goerror }.

Definition zeroInstr : Instr := mkInstr 0 0 false [].

Definition IterOf (code : bytes) : Iter := mkIter code 0 zeroInstr None.

Definition code_err (pc : Z) (format : string) (args : list errarg) : goerror :=
  Errorf "code+%d: %s" [ANum pc; AErr (Errorf format args)].

Definition with_err (it : Iter) (e : goerror) : Iter := mkIter (icode it) (ipc it) (icur it) (Some e).

(** [be32(code[i:])] *)
Definition code32 (code : bytes) (i : Z) : option Z := x ← from code i; be32 x.

(** [instrLen]; [None] is a panic. *)
Definition instrLen (code : bytes) (pc o : Z) (wide : bool) : option (result goerror Z) :=
  if wide then Some (Ok (if o =? Iinc then 6 else 4))
  else if 0 <=? OpLen o then Some (Ok (OpLen o))
  else
    let pad := pad_at pc in
    let base := pc + 1 + pad in
    if o =? Tableswitch then
      if len code <? base + 12 then Some (Err (Errorf "code+%d: truncated %s" [ANum pc; op_arg o]))
      else
        low ← code32 code (base + 4);
        high ← code32 code (base + 8);
        if high <? low
        then Some (Err (Errorf "code+%d: tableswitch high %d is below low %d" [ANum pc; ANum high; ANum low]))
        else
          let n := high - low + 1 in
          if len code <? n then Some (Err (Errorf "code+%d: tableswitch claims %d entries" [ANum pc; ANum n]))
          else Some (Ok (1 + pad + 12 + 4 * n))
    else if o =? Lookupswitch then
      if len code <? base + 8 then Some (Err (Errorf "code+%d: truncated %s" [ANum pc; op_arg o]))
      else
        n ← code32 code (base + 4);
        if (n <? 0) || (len code <? n * 8)
        then Some (Err (Errorf "code+%d: lookupswitch claims %d pairs" [ANum pc; ANum n]))
        else Some (Ok (1 + pad + 8 + 8 * n))
    else Some (Err (Errorf "code+%d: opcode %s has no length rule" [ANum pc; op_arg o])).

(** The part of [Next] after the opcode is known. *)
Definition next_instr (it : Iter) (o : Z) (wide : bool) : option (bool * Iter) :=
  let pc := ipc it in
  r ← instrLen (icode it) pc o wide;
  match r with
  | Err e => Some (false, with_err it e)
  | Ok n =>
      if len (icode it) <? pc + n
      then Some (false, with_err it (code_err pc "%s runs %d bytes past the end of the code array"
                                       [op_arg o; ANum (pc + n - len (icode it))]))
      else Some (true, mkIter (icode it) (u32 (pc + u32 n)) (mkInstr o pc wide (slice (icode it) pc (pc + n))) (ierr it))
  end.

Definition Next (it : Iter) : option (bool * Iter) :=
  match ierr it with
  | Some _ => Some (false, it)
  | None =>
      if len (icode it) <=? ipc it then Some (false, it)
      else
        let pc := ipc it in
        o ← at_ (icode it) pc;
        if negb (Valid o) then Some (false, with_err it (code_err pc "unknown or reserved opcode 0x%02x" [ANum o]))
        else if o =? Wide then
          if len (icode it) <=? pc + 1 then Some (false, with_err it (code_err pc "wide prefix at end of code array" []))
          else
            inner ← at_ (icode it) (u32 (pc + 1));
            match OpKind inner with
            | Local | IincK => next_instr it inner true
            | _ => Some (false, with_err it (code_err pc "wide prefix applied to %s, which takes no local index" [op_arg inner]))
            end
        else next_instr it o false
  end.

(** [for it.Next() { ... it.Instr() ... }]: the instructions seen and the
    iterator after the loop.  Every round advances, so the length of the code
    is enough fuel. *)
Fixpoint walk (fuel : nat) (it : Iter) : option (list Instr * Iter) :=
  match fuel with
  | O => Some ([], it)
  | S fuel =>
      r ← Next it;
      match r with
      | (false, it) => Some ([], it)
      | (true, it) => x ← walk fuel it; Some (icur it :: fst x, snd x)
      end
  end.

(** ** Theorems *)

Lemma be16_be2 v rest : 0 <= v < 65536 -> be16 (be2 v ++ rest) = Some v.
Proof.
  intros Hv. cbn. f_equal. rewrite (u16_id (Z.shiftl _ 8)).
  - rewrite lor_bytes2 by apply u8_range. rewrite Z.shiftr_div_pow2 by lia. word_lia.
  - rewrite Z.shiftl_mul_pow2 by lia. pose proof (u8_range (Z.shiftr v 8)). lia.
Qed.

Lemma be32_value b0 b1 b2 b3 rest :
  0 <= b0 < 256 -> 0 <= b1 < 256 -> 0 <= b2 < 256 -> 0 <= b3 < 256 ->
  be32 (b0 :: b1 :: b2 :: b3 :: rest) = Some (s32 (((b0 * 256 + b1) * 256 + b2) * 256 + b3)).
Proof.
  intros. cbn. rewrite (u32_id (Z.shiftl b0 24)) by (rewrite Z.shiftl_mul_pow2; lia).
  rewrite lor_bytes4 by assumption. reflexivity.
Qed.

Lemma be32_be4 v rest : be32 (be4 v ++ rest) = Some (s32 v).
Proof.
  unfold be4. cbn [app]. rewrite be32_value by apply u8_range. f_equal.
  rewrite !Z.shiftr_div_pow2 by lia. unfold u8. change (2 ^ 24) with 16777216. change (2 ^ 16) with 65536.
  change (2 ^ 8) with 256. rewrite <- s32_u32, <- (s32_u32 v). f_equal. word_lia.
Qed.

Lemma from_ok b lo : 0 <= lo <= len b -> from b lo = Some (drop (Z.to_nat lo) b).
Proof. intros H. unfold from. decide_tests. reflexivity. Qed.

Lemma len_drop (b : bytes) lo : 0 <= lo <= len b -> len (drop (Z.to_nat lo) b) = len b - lo.
Proof. unfold len. rewrite length_drop. lia. Qed.

Lemma be32_ok b : bytes_ok b -> 4 <= len b -> exists v, be32 b = Some v /\ -2147483648 <= v < 2147483648.
Proof.
  intros Hb Hl. destruct b as [|b0 [|b1 [|b2 [|b3 b]]]]; rewrite ?len_cons, ?len_nil in Hl; try lia.
  cbn [be32]. eexists. split; [reflexivity|]. apply s32_range.
Qed.

Lemma code32_ok b i : bytes_ok b -> 0 <= i -> i + 4 <= len b ->
  exists v, code32 b i = Some v /\ -2147483648 <= v < 2147483648.
Proof.
  intros Hb Hi Hl. unfold code32. rewrite from_ok by lia. cbn. apply be32_ok.
  - apply Forall_drop, Hb.
  - rewrite len_drop by lia. lia.
Qed.

Lemma at_ok {A} (l : list A) i : 0 <= i < len l -> exists x, at_ l i = Some x.
Proof.
  intros H. unfold at_. decide_tests. apply lookup_lt_is_Some_2. unfold len in H. lia.
Qed.

Lemma pad_at_range pc : 0 <= pad_at pc <= 3.
Proof. unfold pad_at. zlia. Qed.

(** The kind decides the opcode where the code relies on it. *)
Lemma kind_facts o :
  0 <= o < 256 -> Valid o = true ->
  (OpKind o = IincK <-> o = Iinc) /\ (OpKind o = TableswitchK <-> o = Tableswitch) /\
  (OpKind o = LookupswitchK <-> o = Lookupswitch) /\ (OpKind o = WideK <-> o = Op.Wide) /\
  (OpKind o = Byte1 <-> o = Bipush) /\ (OpKind o = Short2 <-> o = Sipush) /\ OpKind o <> Unused /\
  (o = Newarray -> OpKind o = NewarrayK) /\ (o = Multianewarray -> OpKind o = MultiK).
Proof.
  intros Ho.
  pose (P := fun o => implb (Valid o)
    (Bool.eqb (bool_decide (OpKind o = IincK)) (o =? Iinc) && Bool.eqb (bool_decide (OpKind o = TableswitchK)) (o =? Tableswitch) &&
     Bool.eqb (bool_decide (OpKind o = LookupswitchK)) (o =? Lookupswitch) && Bool.eqb (bool_decide (OpKind o = WideK)) (o =? Op.Wide) &&
     Bool.eqb (bool_decide (OpKind o = Byte1)) (o =? Bipush) && Bool.eqb (bool_decide (OpKind o = Short2)) (o =? Sipush) &&
     negb (bool_decide (OpKind o = Unused)) && implb (o =? Newarray) (bool_decide (OpKind o = NewarrayK)) &&
     implb (o =? Multianewarray) (bool_decide (OpKind o = MultiK)))).
  assert (P o = true) as H by (apply byte_forall; [vm_compute; reflexivity|exact Ho]). subst P. cbv beta in H.
  intros Hv. rewrite Hv in H. cbn [implb] in H. repeat (apply andb_prop in H as [H ?]).
  repeat match goal with H : Bool.eqb _ _ = true |- _ => apply eqb_prop in H end.
  repeat match goal with H : bool_decide (?a = ?b) = (?o =? ?x) |- _ =>
    assert (a = b <-> o = x) by (rewrite <- Z.eqb_eq, <- H, bool_decide_eq_true; reflexivity); clear H end.
  rewrite negb_true_iff, bool_decide_eq_false in *. unfold implb in *.
  split_and!; auto; intros ->; rewrite Z.eqb_refl in *; eapply bool_decide_eq_true; eauto.
Qed.

(** An instruction as the iterator produces it: a valid opcode, the length its
    shape dictates, and a switch's table within it. *)
Definition instr_ok (i : Instr) : Prop :=
  bytes_ok (raw i) /\ 0 <= IOp i < 256 /\ Valid (IOp i) = true /\
  if IWide i then (OpKind (IOp i) = Local /\ len (raw i) = 4) \/ (IOp i = Iinc /\ len (raw i) = 6)
  else (0 <= OpLen (IOp i) /\ len (raw i) = OpLen (IOp i)) \/
       (IOp i = Tableswitch /\ exists low high, low <= high /\ len (raw i) = 1 + pad_at (IPC i) + 12 + 4 * (high - low + 1) /\
          code32 (raw i) (1 + pad_at (IPC i) + 4) = Some low /\ code32 (raw i) (1 + pad_at (IPC i) + 8) = Some high) \/
       (IOp i = Lookupswitch /\ exists n, 0 <= n /\ len (raw i) = 1 + pad_at (IPC i) + 8 + 8 * n /\
          code32 (raw i) (1 + pad_at (IPC i) + 4) = Some n).

Lemma slice_len {A} (l : list A) lo hi : 0 <= lo <= hi -> hi <= len l -> len (slice l lo hi) = hi - lo.
Proof. intros H1 H2. unfold slice, len in *. rewrite length_take, length_drop. lia. Qed.

Lemma bytes_ok_slice b lo hi : bytes_ok b -> bytes_ok (slice b lo hi).
Proof. intros H. apply Forall_take, Forall_drop, H. Qed.

Lemma be32_take b n : (4 <= n)%nat -> be32 (take n b) = be32 b.
Proof. intros H. destruct n as [|[|[|[|n]]]]; try lia. destruct b as [|? [|? [|? [|? ?]]]]; reflexivity. Qed.

Lemma code32_slice code pc n k : 0 <= pc -> 0 <= k -> k + 4 <= n -> pc + n <= len code ->
  code32 (slice code pc (pc + n)) k = code32 code (pc + k).
Proof.
  intros Hp Hk Hn Hl. unfold code32. rewrite !from_ok by (rewrite ?slice_len; lia). cbn. unfold slice.
  rewrite skipn_firstn_comm, drop_drop. rewrite be32_take by lia. do 2 f_equal. lia.
Qed.

(** The length of the instruction, when the opcode is the byte at [pc]. *)
Lemma instrLen_ok code pc o wide :
  bytes_ok code -> 0 <= pc < len code -> 0 <= o < 256 -> Valid o = true ->
  (wide = true -> OpKind o = Local \/ OpKind o = IincK) -> (wide = false -> o <> Op.Wide) ->
  exists r, instrLen code pc o wide = Some r /\
    forall n, r = Ok n -> 1 <= n /\ (pc + n <= len code -> instr_ok (mkInstr o pc wide (slice code pc (pc + n)))).
Proof.
  intros Hb Hpc Ho Hv Hw Hnw. pose proof (table_facts o Ho) as (_ & Hlen & Hneg & _ & _).
  destruct (kind_facts o Ho Hv) as (Hinc & Htab & Hlook & _). specialize (Hlen Hv). pose proof (pad_at_range pc) as Hpad.
  unfold instrLen. destruct wide.
  - destruct Hw as [Hk|Hk]; [reflexivity|..].
    + assert (o <> Iinc) by (intros E; apply Hinc in E; congruence). rewrite (proj2 (Z.eqb_neq _ _)) by assumption.
      eexists. split; [reflexivity|]. intros n [= <-]. split; [lia|]. intros Hle. split_and!; cbn; auto using bytes_ok_slice; try lia.
      left. rewrite slice_len by lia. split; [exact Hk|lia].
    + apply Hinc in Hk as ->. eexists. split; [reflexivity|]. intros n [= <-]. split; [lia|]. intros Hle.
      split_and!; cbn; auto using bytes_ok_slice; try lia. right. rewrite slice_len by lia. split; [reflexivity|lia].
  - destruct (0 <=? OpLen o) eqn:El; to_Z.
    + eexists. split; [reflexivity|]. intros n [= <-]. split.
      * rewrite Hlen in El |- *. unfold Valid in Hv. destruct (OpKind o); cbn in *; try lia. discriminate.
      * intros Hle. split_and!; cbn; auto using bytes_ok_slice; try lia. left. rewrite slice_len by lia. lia.
    + destruct (Hneg Hv El) as [->|[->|Hx]]; [| |exfalso; apply Hnw; auto]; cbn [Z.eqb].
      * rewrite Z.eqb_refl. bool_case; to_Z; [eexists; split; [reflexivity|discriminate]|].
        destruct (code32_ok code (pc + 1 + pad_at pc + 4)) as (low & E1 & Hr1); [auto|lia..|].
        destruct (code32_ok code (pc + 1 + pad_at pc + 8)) as (high & E2 & Hr2); [auto|lia..|].
        rewrite E1, E2. cbn [mbind option_bind]. bool_case; to_Z; [eexists; split; [reflexivity|discriminate]|].
        bool_case; to_Z; [eexists; split; [reflexivity|discriminate]|]. eexists. split; [reflexivity|]. intros n [= <-].
        split; [lia|]. intros Hle. split_and!; cbn; auto using bytes_ok_slice; try lia. right. left. split; [reflexivity|].
        exists low, high. rewrite slice_len, !code32_slice by lia.
        rewrite !Z.add_assoc in *. split_and!; auto; lia.
      * change (Lookupswitch =? Tableswitch) with false. rewrite Z.eqb_refl. cbv iota.
        bool_case; to_Z; [eexists; split; [reflexivity|discriminate]|].
        destruct (code32_ok code (pc + 1 + pad_at pc + 4)) as (n & E1 & Hr1); [auto|lia..|].
        rewrite E1. cbn [mbind option_bind]. bool_case; to_Z; [eexists; split; [reflexivity|discriminate]|].
        eexists. split; [reflexivity|]. intros m [= <-]. split; [lia|].
        intros Hle. split_and!; cbn; auto using bytes_ok_slice; try lia. right. right. split; [reflexivity|].
        exists n. rewrite slice_len, !code32_slice by lia.
        rewrite !Z.add_assoc in *. split_and!; auto; lia.
Qed.

(** The iterator's state: the code is bytes, below 4 GiB, and the cursor is in it. *)
Definition iter_ok (it : Iter) : Prop :=
  bytes_ok (icode it) /\ len (icode it) < 2 ^ 32 /\ 0 <= ipc it <= len (icode it).

(** One step, on any state: no panic; either an instruction was decoded and the
    cursor moved past it, or the cursor stays and the loop has a reason to end. *)
Lemma Next_ok it : iter_ok it ->
  exists b it', Next it = Some (b, it') /\ iter_ok it' /\ icode it' = icode it /\
    if b : bool then
      ierr it = None /\ ierr it' = None /\ instr_ok (icur it') /\ IPC (icur it') = ipc it /\ ipc it < ipc it' /\
      raw (icur it') = slice (icode it) (ipc it) (ipc it')
    else ipc it' = ipc it /\ (ierr it' <> None \/ ipc it' = len (icode it')).
Proof.
  destruct it as [code pc cur err]. unfold iter_ok. cbn. intros (Hb & Hl & Hpc). unfold Next. cbn [icode ipc icur ierr].
  destruct err as [e|]; [exists false; eexists; split; [reflexivity|]; cbn; split_and!; auto; try lia; left; discriminate|].
  bool_case; to_Z; [exists false; eexists; split; [reflexivity|]; cbn; split_and!; auto; try lia; right; lia|].
  assert (Hfail : forall e it', Some (false, with_err (mkIter code pc cur None) e) = Some (false, it') ->
    exists b it'', Some (false, with_err (mkIter code pc cur None) e) = Some (b, it'') /\
      (bytes_ok (icode it'') /\ len (icode it'') < 2 ^ 32 /\ 0 <= ipc it'' <= len (icode it'')) /\ icode it'' = code /\
      (if b : bool then None = @None goerror /\ ierr it'' = None /\ instr_ok (icur it'') /\ IPC (icur it'') = pc /\ pc < ipc it'' /\
        raw (icur it'') = slice code pc (ipc it'')
       else ipc it'' = pc /\ (ierr it'' <> None \/ ipc it'' = len (icode it'')))).
  { intros e it' _. exists false. eexists. split; [reflexivity|]. cbn. split_and!; auto; try lia; left; discriminate. }
  destruct (at_ok code pc) as [o Ho]; [lia|]. rewrite Ho. cbn [mbind option_bind].
  assert (Hbyte : forall i x, at_ code i = Some x -> 0 <= x < 256).
  { intros i x Hx. unfold at_ in Hx. destruct (i <? 0); [discriminate|]. eapply Forall_lookup_1 in Hx; [|exact Hb]. exact Hx. }
  pose proof (Hbyte _ _ Ho) as Hor. destruct (Valid o) eqn:Hv; cbn [negb]; [|eapply Hfail; reflexivity].
  assert (Hnext : forall o' wide, 0 <= o' < 256 -> Valid o' = true -> (wide = true -> OpKind o' = Local \/ OpKind o' = IincK) ->
    (wide = false -> o' <> Op.Wide) ->
    exists b it', next_instr (mkIter code pc cur None) o' wide = Some (b, it') /\
      (bytes_ok (icode it') /\ len (icode it') < 2 ^ 32 /\ 0 <= ipc it' <= len (icode it')) /\ icode it' = code /\
      (if b : bool then None = @None goerror /\ ierr it' = None /\ instr_ok (icur it') /\ IPC (icur it') = pc /\ pc < ipc it' /\
        raw (icur it') = slice code pc (ipc it')
       else ipc it' = pc /\ (ierr it' <> None \/ ipc it' = len (icode it')))).
  { intros o' wide Ho' Hv' Hw Hnw. unfold next_instr. cbn.
    destruct (instrLen_ok code pc o' wide Hb) as (r & Er & Hr); auto; [lia|]. rewrite Er. cbn [mbind option_bind].
    destruct r as [n|e]; [|eapply Hfail; reflexivity]. destruct (Hr n eq_refl) as [Hn Hok]. bool_case; to_Z; [eapply Hfail; reflexivity|].
    exists true. eexists. split; [reflexivity|]. cbn. rewrite (u32_id n), u32_id by lia. split_and!; auto; try lia. }
  destruct (o =? Op.Wide) eqn:Ew; to_Z; [|apply Hnext; auto; discriminate].
  bool_case; to_Z; [eapply Hfail; reflexivity|]. rewrite u32_id by lia.
  destruct (at_ok code (pc + 1)) as [inner Hi]; [lia|]. rewrite Hi. cbn [mbind option_bind].
  assert (Hvi : OpKind inner = Local \/ OpKind inner = IincK -> Valid inner = true).
  { unfold Valid. intros [-> | ->]; reflexivity. }
  pose proof (Hbyte _ _ Hi).
  destruct (OpKind inner) eqn:Ek; try (eapply Hfail; reflexivity); apply Hnext; auto; try discriminate.
Qed.

Lemma slice_split {A} (l : list A) a b c : 0 <= a <= b -> b <= c <= len l -> slice l a b ++ slice l b c = slice l a c.
Proof.
  intros H1 H2. unfold slice. replace (Z.to_nat b) with (Z.to_nat a + Z.to_nat (b - a))%nat by lia.
  rewrite <- drop_drop. replace (Z.to_nat (c - a)) with (Z.to_nat (b - a) + Z.to_nat (c - b))%nat by lia.
  apply take_take_drop.
Qed.

(** The whole loop, on any state. *)
Lemma walk_ok fuel it : iter_ok it -> len (icode it) - ipc it < Z.of_nat fuel ->
  exists js it', walk fuel it = Some (js, it') /\ icode it' = icode it /\ iter_ok it' /\
    Forall instr_ok js /\ concat (map raw js) = slice (icode it) (ipc it) (ipc it') /\ ipc it <= ipc it' /\
    (ierr it' <> None \/ ipc it' = len (icode it)).
Proof.
  revert it. induction fuel as [|fuel IH]; intros it Hok Hf; [destruct Hok as (_ & _ & ?); lia|]. cbn [walk].
  destruct (Next_ok it Hok) as (b & it1 & E & Hok1 & Hc & H). rewrite E. cbn [mbind option_bind]. destruct b.
  - destruct H as (He & He1 & Hi & Hpc & Hlt & Hraw). destruct (IH it1 Hok1) as (js & it2 & E2 & Hc2 & Hok2 & Hjs & Hcat & Hle & Hend).
    { rewrite Hc. lia. }
    rewrite E2. cbn [mbind option_bind fst snd]. eexists _, _. split; [reflexivity|]. rewrite Hc in *. split_and!; auto; try lia.
    cbn [map concat]. rewrite Hraw, Hcat. destruct Hok as (_ & _ & Hp). destruct Hok2 as (_ & _ & Hp2). rewrite Hc2 in Hp2. apply slice_split; lia.
  - destruct H as (Hpc & Hend). eexists _, _. split; [reflexivity|]. rewrite Hc in *. split_and!; auto; try lia.
    cbn. rewrite Hpc. unfold slice. rewrite Z.sub_diag. reflexivity.
Qed.

(** C36: iterating over any code array whatsoever ends within one round per
    byte, never panics, and decodes instructions that are well-formed and tile
    the array from its start; the walk covers the whole array unless it stops
    with an error. *)
Theorem walk_tiles (code : bytes) :
  bytes_ok code -> len code < 2 ^ 32 ->
  exists js it, walk (S (length code)) (IterOf code) = Some (js, it) /\
    Forall instr_ok js /\ concat (map raw js) = take (Z.to_nat (ipc it)) code /\ (ierr it = None -> concat (map raw js) = code).
Proof.
  intros Hb Hl. assert (Hok : iter_ok (IterOf code)) by (split_and!; cbn; auto; pose proof (len_nonneg code); lia).
  destruct (walk_ok (S (length code)) (IterOf code) Hok) as (js & it & E & Hc & Hok' & Hi & Hcat & Hle & Hend); [unfold len; cbn; lia|].
  exists js, it. cbn [IterOf icode ipc] in *. unfold slice in Hcat. rewrite Z.sub_0_r in Hcat. cbn in Hcat. split_and!; auto.
  intros He. destruct Hend as [Hend|Hend]; [contradiction|]. rewrite Hcat, Hend. apply firstn_all2. unfold len. lia.
Qed.

Lemma walk_tiles_witness :
  exists js it, walk 8 (IterOf [Iconst0; Ifeq; 0; 4; Nop; 0xFE; 1]) = Some (js, it) /\
    Forall instr_ok js /\ concat (map raw js) = take (Z.to_nat (ipc it)) [Iconst0; Ifeq; 0; 4; Nop; 0xFE; 1] /\
    (ierr it = None -> concat (map raw js) = [Iconst0; Ifeq; 0; 4; Nop; 0xFE; 1]).
Proof. apply (walk_tiles [Iconst0; Ifeq; 0; 4; Nop; 0xFE; 1]); [apply bytes_ok_dec|]; reflexivity. Defined.

Lemma operands_ok i : instr_ok i -> (if IWide i then 2 else 1) <= len (raw i) ->
  exists b, operands i = Some b /\ len b = len (raw i) - (if IWide i then 2 else 1).
Proof.
  intros _ H. unfold operands. rewrite from_ok by (destruct (IWide i); lia). eexists. split; [reflexivity|].
  apply len_drop. destruct (IWide i); lia.
Qed.

Lemma be16_some b : 2 <= len b -> is_Some (be16 b).
Proof. destruct b as [|x [|y b]]; rewrite ?len_cons, ?len_nil; intros; try lia. cbn. eauto. Qed.
Lemma be32_some b : 4 <= len b -> is_Some (be32 b).
Proof. destruct b as [|x [|y [|z [|t b]]]]; rewrite ?len_cons, ?len_nil; intros; try lia. cbn. eauto. Qed.
Lemma at_some (b : bytes) k : 0 <= k < len b -> is_Some (at_ b k).
Proof. intros H. destruct (at_ok b k H) as [x ->]. eauto. Qed.

(** Enough operand bytes for the shape, in both encodings. *)
Lemma operand_room i : instr_ok i ->
  (if IWide i then 2 else 1) <= len (raw i) /\
  let room := len (raw i) - (if IWide i then 2 else 1) in
  match OpKind (IOp i) with
  | NoneK | WideK | Unused => True
  | Local => (if IWide i then 2 else 1) <= room
  | IincK => (if IWide i then 4 else 2) <= room
  | TableswitchK => 0 <= room
  | LookupswitchK => 0 <= room
  | k => shape_len k - 1 <= room
  end.
Proof.
  intros (Hb & Ho & Hv & H). pose proof (table_facts _ Ho) as (_ & Hlen & _). specialize (Hlen Hv).
  destruct (kind_facts _ Ho Hv) as (Hinc & Htab & Hlook & _). pose proof (pad_at_range (IPC i)). cbv zeta. destruct (IWide i).
  - destruct H as [[Hk Hl]|[Hk Hl]].
    + rewrite Hk. lia.
    + rewrite (proj2 Hinc Hk). lia.
  - destruct H as [[Hnn Hl]|[(Hk & low & high & Hlh & Hl & _)|(Hk & n & Hn & Hl & _)]].
    + rewrite Hl, Hlen in *. unfold Valid in Hv. destruct (OpKind (IOp i)); cbn in *; try lia; discriminate.
    + rewrite (proj2 Htab Hk). lia.
    + rewrite (proj2 Hlook Hk). lia.
Qed.

(** Every accessor but [Switch] answers on an instruction of the iterator. *)
Lemma accessors_ok i : instr_ok i ->
  is_Some (Index i) /\ is_Some (LocalSlot i) /\ is_Some (Increment i) /\ is_Some (Immediate i) /\ is_Some (Target i) /\
  is_Some (ArrayType i) /\ is_Some (Dimensions i).
Proof.
  intros Hi. destruct (operand_room i Hi) as [H0 Hroom]. destruct (operands_ok i Hi H0) as (b & Hb & Hl). cbv zeta in Hroom.
  destruct Hi as (_ & Ho & Hv & Hw). destruct (kind_facts _ Ho Hv) as (Hinc & _ & _ & _ & Hby & Hsh & _ & Hna & Hma).
  split_and!.
  - unfold Index. rewrite Hb. cbn [mbind option_bind]. destruct (OpKind (IOp i)); cbn [shape_len] in Hroom; try (eexists; reflexivity);
      first [apply be16_some|apply at_some]; destruct (IWide i); lia.
  - unfold LocalSlot. rewrite Hb. cbn [mbind option_bind].
    destruct (OpKind (IOp i)); cbn [shape_len] in Hroom; cbv zeta; repeat bool_case; try (eexists; reflexivity);
      first [apply be16_some|apply at_some]; lia.
  - unfold Increment. bool_case; to_Z; [eexists; reflexivity|]. rewrite (proj2 Hinc E) in Hroom. rewrite Hb. cbn [mbind option_bind].
    destruct (IWide i).
    + rewrite from_ok by lia. cbn [mbind option_bind]. destruct (be16_some (drop (Z.to_nat 2) b)) as [v ->]; [rewrite len_drop by lia; lia|].
      eexists. reflexivity.
    + destruct (at_some b 1) as [v ->]; [lia|]. eexists. reflexivity.
  - unfold Immediate. rewrite Hb. cbn [mbind option_bind]. repeat bool_case; to_Z; [| |eexists; reflexivity].
    + rewrite (proj2 Hby E) in Hroom. cbn in Hroom. destruct (at_some b 0) as [v ->]; [destruct (IWide i); lia|]. eexists. reflexivity.
    + rewrite (proj2 Hsh E0) in Hroom. cbn in Hroom. destruct (be16_some b) as [v ->]; [destruct (IWide i); lia|]. eexists. reflexivity.
  - unfold Target. rewrite Hb. cbn [mbind option_bind]. destruct (OpKind (IOp i)); cbn [shape_len] in Hroom; try (eexists; reflexivity).
    + destruct (be16_some b) as [v ->]; [destruct (IWide i); lia|]. eexists. reflexivity.
    + destruct (be32_some b) as [v ->]; [destruct (IWide i); lia|]. eexists. reflexivity.
  - unfold ArrayType. bool_case; to_Z; [eexists; reflexivity|]. rewrite (Hna E) in Hroom. cbn in Hroom.
    rewrite Hb. cbn [mbind option_bind]. apply at_some. destruct (IWide i); lia.
  - unfold Dimensions. bool_case; to_Z; [eexists; reflexivity|]. rewrite (Hma E) in Hroom. cbn in Hroom.
    rewrite Hb. cbn [mbind option_bind]. apply at_some. destruct (IWide i); lia.
Qed.

Lemma table_cases_some n b at0 m base : 0 <= at0 -> at0 + 4 * Z.of_nat n <= len b ->
  exists cs, table_cases n b at0 m base = Some cs /\ length cs = n.
Proof.
  revert at0 m. induction n as [|n IH]; intros at0 m H0 Hl; cbn [table_cases]; [eauto|].
  rewrite from_ok by lia. cbn [mbind option_bind]. destruct (be32_some (drop (Z.to_nat at0) b)) as [v ->]; [rewrite len_drop by lia; lia|].
  cbn [mbind option_bind]. destruct (IH (at0 + 4) (m + 1)) as (cs & -> & Hc); [lia..|].
  eexists. split; [reflexivity|]. cbn. congruence.
Qed.

Lemma lookup_cases_some n b at0 base : 0 <= at0 -> at0 + 8 * Z.of_nat n <= len b ->
  exists cs, lookup_cases n b at0 base = Some cs /\ length cs = n.
Proof.
  revert at0. induction n as [|n IH]; intros at0 H0 Hl; cbn [lookup_cases]; [eauto|].
  rewrite !from_ok by lia. cbn [mbind option_bind]. destruct (be32_some (drop (Z.to_nat at0) b)) as [v ->]; [rewrite len_drop by lia; lia|].
  cbn [mbind option_bind]. destruct (be32_some (drop (Z.to_nat (at0 + 4)) b)) as [w ->]; [rewrite len_drop by lia; lia|].
  cbn [mbind option_bind]. destruct (IH (at0 + 8)) as (cs & -> & Hc); [lia..|].
  eexists. split; [reflexivity|]. cbn. congruence.
Qed.

(** The [k]-th word after the padding. *)
Lemma from_code32 b pre k : 0 <= pre <= len b -> 0 <= k -> pre + k <= len b ->
  from (drop (Z.to_nat pre) b) k = Some (drop (Z.to_nat (pre + k)) b) /\ code32 b (pre + k) = be32 (drop (Z.to_nat (pre + k)) b).
Proof.
  intros H1 H2 H3. rewrite from_ok by (rewrite len_drop; lia). unfold code32. rewrite from_ok by lia. cbn. rewrite drop_drop.
  replace (Z.to_nat pre + Z.to_nat k)%nat with (Z.to_nat (pre + k)) by lia. auto.
Qed.

(** On every instruction the iterator produces, none of the accessors
    panics; and [Switch] returns every entry of a switch's table: high-low+1
    cases for a tableswitch, npairs for a lookupswitch, never giving up on the
    table as it does on a hand-made instruction. *)
Theorem accessors_safe (i : Instr) :
  instr_ok i ->
  is_Some (Index i) /\ is_Some (LocalSlot i) /\ is_Some (Increment i) /\ is_Some (Immediate i) /\ is_Some (Target i) /\
  is_Some (ArrayType i) /\ is_Some (Dimensions i) /\ is_Some (InstrString i) /\
  (IOp i = Tableswitch -> exists low high d cs, low <= high /\ code32 (raw i) (1 + pad_at (IPC i) + 4) = Some low /\
     code32 (raw i) (1 + pad_at (IPC i) + 8) = Some high /\ Switch i = Some (d, cs) /\ len cs = high - low + 1) /\
  (IOp i = Lookupswitch -> exists n d cs, 0 <= n /\ code32 (raw i) (1 + pad_at (IPC i) + 4) = Some n /\
     Switch i = Some (d, cs) /\ len cs = n).
Proof.
  intros Hi. destruct (accessors_ok i Hi) as ([? E1] & [? E2] & [? E3] & [? E4] & [? E5] & ? & ?).
  split_and!; eauto.
  - unfold InstrString. rewrite E1, E2, E3, E4, E5. destruct (OpKind (IOp i)); eexists; reflexivity.
  - intros Ht. destruct Hi as (_ & Ho & Hv & Hi). destruct (kind_facts _ Ho Hv) as (Hinc & Htab & _).
    pose proof (pad_at_range (IPC i)) as Hp.
    assert (IWide i = false) as Hw by (destruct (IWide i); [|reflexivity]; rewrite Ht in *; destruct Hi as [[Hk _]|[Hk _]]; discriminate).
    rewrite Hw in Hi. destruct Hi as [[Hx _]|[(_ & low & high & Hlh & Hl & C1 & C2)|(Hx & _)]];
      [rewrite Ht in Hx; vm_compute in Hx; exfalso; apply Hx; reflexivity| |rewrite Ht in Hx; discriminate].
    destruct (from_code32 (raw i) (1 + pad_at (IPC i)) 4) as [F4 G4]; [lia..|].
    destruct (from_code32 (raw i) (1 + pad_at (IPC i)) 8) as [F8 G8]; [lia..|].
    unfold Switch. rewrite from_ok by lia. cbn [mbind option_bind]. rewrite len_drop by lia.
    rewrite Ht, Z.eqb_refl, F4, F8. cbn [mbind option_bind]. rewrite <- G4, <- G8, C1, C2.
    decide_tests. destruct (be32_some (drop (Z.to_nat (1 + pad_at (IPC i))) (raw i))) as [d ->]; [rewrite len_drop by lia; lia|].
    cbn [mbind option_bind]. cbv zeta. decide_tests.
    destruct (table_cases_some (Z.to_nat (high - low + 1)) (drop (Z.to_nat (1 + pad_at (IPC i))) (raw i)) 12 low (s32 (IPC i)))
      as (cs & -> & Hc); [lia|rewrite len_drop by lia; lia|]. cbn [mbind option_bind].
    eexists _, _, _, cs. split_and!; eauto. unfold len. rewrite Hc. lia.
  - intros Ht. destruct Hi as (_ & Ho & Hv & Hi). destruct (kind_facts _ Ho Hv) as (Hinc & Htab & _).
    pose proof (pad_at_range (IPC i)) as Hp.
    assert (IWide i = false) as Hw by (destruct (IWide i); [|reflexivity]; rewrite Ht in *; destruct Hi as [[Hk _]|[Hk _]]; discriminate).
    rewrite Hw in Hi. destruct Hi as [[Hx _]|[(Hx & _)|(_ & n & Hn & Hl & C1)]];
      [rewrite Ht in Hx; vm_compute in Hx; exfalso; apply Hx; reflexivity|rewrite Ht in Hx; discriminate|].
    destruct (from_code32 (raw i) (1 + pad_at (IPC i)) 4) as [F4 G4]; [lia..|].
    unfold Switch. rewrite from_ok by lia. cbn [mbind option_bind]. rewrite len_drop by lia.
    rewrite Ht, F4. change (Lookupswitch =? Tableswitch) with false. rewrite Z.eqb_refl. cbv iota. cbn [mbind option_bind].
    rewrite <- G4, C1.
    decide_tests. destruct (be32_some (drop (Z.to_nat (1 + pad_at (IPC i))) (raw i))) as [d ->]; [rewrite len_drop by lia; lia|].
    cbn [mbind option_bind]. cbv zeta. decide_tests.
    destruct (lookup_cases_some (Z.to_nat n) (drop (Z.to_nat (1 + pad_at (IPC i))) (raw i)) 8 (s32 (IPC i)))
      as (cs & -> & Hc); [lia|rewrite len_drop by lia; lia|]. cbn [mbind option_bind].
    eexists _, _, cs. split_and!; eauto. unfold len. rewrite Hc. lia.
Qed.

(** [goto_w] at offset 3. *)
Definition sample_instr : Instr := mkInstr GotoW 3 false [GotoW; 255; 255; 255; 254].

Lemma accessors_safe_witness :
  is_Some (Index sample_instr) /\ is_Some (LocalSlot sample_instr) /\ is_Some (Increment sample_instr) /\
  is_Some (Immediate sample_instr) /\ is_Some (Target sample_instr) /\
  is_Some (ArrayType sample_instr) /\ is_Some (Dimensions sample_instr) /\ is_Some (InstrString sample_instr) /\
  (IOp sample_instr = Tableswitch -> exists low high d cs, low <= high /\
     code32 (raw sample_instr) (1 + pad_at (IPC sample_instr) + 4) = Some low /\
     code32 (raw sample_instr) (1 + pad_at (IPC sample_instr) + 8) = Some high /\
     Switch sample_instr = Some (d, cs) /\ len cs = high - low + 1) /\
  (IOp sample_instr = Lookupswitch -> exists n d cs, 0 <= n /\
     code32 (raw sample_instr) (1 + pad_at (IPC sample_instr) + 4) = Some n /\
     Switch sample_instr = Some (d, cs) /\ len cs = n).
Proof.
  apply (accessors_safe sample_instr). split; [apply bytes_ok_dec; reflexivity|].
  split; [vm_compute; split; congruence|]. split; [reflexivity|]. left. split; [vm_compute; congruence|reflexivity].
Defined.

Example target_sample : Target sample_instr = Some 1.
Proof. reflexivity. Qed.
