(* ===== verification/CodeWriter.v ===== *)
(** * Building a method body ([classfile/codewriter.go])

    A [CodeWriter] emits bytes while it tracks stack depth, reachability and
    the labels; [resolve] patches the branch and switch offsets afterwards and
    says which branches need the long form.  A label pointer is its index in
    [labels] (its [id]); a method given a label that was never allocated would
    dereference nil, so the methods that take labels are partial.

    The theorems are in [CodeProof] and [Builder]: this file is the code. *)
From S2P Require Import Prelude.
From S2P Require Import Desc.
From S2P Require Import Op.
From S2P Require Import Format.
From S2P Require Import ClassIO.
From S2P Require Import PoolBuilder.

Definition MaxStack : Z := 65535.
Definition MaxLocals : Z := 65535.

Record Label := mkLabel { pc : Z; ldepth : Z }.
Record branch := mkBranch { ord : Z; bop : Z; label : nat; bat : Z; bwide : bool }.
Record switchRec := mkSwitch { sop : Z; sat : Z; spad : Z; def : nat; targets : list nat }.
Record localRec := mkLocal { slot : Z; lname : bytes; ldesc : bytes; lstart : nat; lend : nat }.
Record handlerRec := mkHandler { hstart : nat; hend : nat; hhandler : nat; catchType : bytes }.
Record LineNumber := mkLine { StartPC : Z; LineNo : Z }.
Record LocalVariable := mkLV { LVStart : Z; LVLength : Z; LVName : bytes; LVDescriptor : bytes; LVSlot : Z }.

Record CodeWriter := mkCW {
  cp : PoolBuilder;
  w : bytes;
  err : option goerror;
  ret : Ty;
  ver : Version;
  labels : list Label;
  branches : list branch;
  switches : list switchRec;
  handlers : list handlerRec;
  lines : list LineNumber;
  locals : list localRec;
  widen : gset Z;
  pass : Z;
  depth : Z;
  maxStack : Z;
  maxLocals : Z;
  reachable : bool }.

Definition set_cp (x : PoolBuilder) (c : CodeWriter) : CodeWriter :=
  mkCW x (w c) (err c) (ret c) (ver c) (labels c) (branches c) (switches c) (handlers c) (lines c) (locals c) (widen c) (pass c) (depth c) (maxStack c) (maxLocals c) (reachable c).
Definition set_w (x : bytes) (c : CodeWriter) : CodeWriter :=
  mkCW (cp c) x (err c) (ret c) (ver c) (labels c) (branches c) (switches c) (handlers c) (lines c) (locals c) (widen c) (pass c) (depth c) (maxStack c) (maxLocals c) (reachable c).
Definition set_err (x : option goerror) (c : CodeWriter) : CodeWriter :=
  mkCW (cp c) (w c) x (ret c) (ver c) (labels c) (branches c) (switches c) (handlers c) (lines c) (locals c) (widen c) (pass c) (depth c) (maxStack c) (maxLocals c) (reachable c).
Definition set_labels (x : list Label) (c : CodeWriter) : CodeWriter :=
  mkCW (cp c) (w c) (err c) (ret c) (ver c) x (branches c) (switches c) (handlers c) (lines c) (locals c) (widen c) (pass c) (depth c) (maxStack c) (maxLocals c) (reachable c).
Definition set_branches (x : list branch) (c : CodeWriter) : CodeWriter :=
  mkCW (cp c) (w c) (err c) (ret c) (ver c) (labels c) x (switches c) (handlers c) (lines c) (locals c) (widen c) (pass c) (depth c) (maxStack c) (maxLocals c) (reachable c).
Definition set_switches (x : list switchRec) (c : CodeWriter) : CodeWriter :=
  mkCW (cp c) (w c) (err c) (ret c) (ver c) (labels c) (branches c) x (handlers c) (lines c) (locals c) (widen c) (pass c) (depth c) (maxStack c) (maxLocals c) (reachable c).
Definition set_handlers (x : list handlerRec) (c : CodeWriter) : CodeWriter :=
  mkCW (cp c) (w c) (err c) (ret c) (ver c) (labels c) (branches c) (switches c) x (lines c) (locals c) (widen c) (pass c) (depth c) (maxStack c) (maxLocals c) (reachable c).
Definition set_lines (x : list LineNumber) (c : CodeWriter) : CodeWriter :=
  mkCW (cp c) (w c) (err c) (ret c) (ver c) (labels c) (branches c) (switches c) (handlers c) x (locals c) (widen c) (pass c) (depth c) (maxStack c) (maxLocals c) (reachable c).
Definition set_locals (x : list localRec) (c : CodeWriter) : CodeWriter :=
  mkCW (cp c) (w c) (err c) (ret c) (ver c) (labels c) (branches c) (switches c) (handlers c) (lines c) x (widen c) (pass c) (depth c) (maxStack c) (maxLocals c) (reachable c).
Definition set_widen (x : gset Z) (c : CodeWriter) : CodeWriter :=
  mkCW (cp c) (w c) (err c) (ret c) (ver c) (labels c) (branches c) (switches c) (handlers c) (lines c) (locals c) x (pass c) (depth c) (maxStack c) (maxLocals c) (reachable c).
Definition set_depth (x : Z) (c : CodeWriter) : CodeWriter :=
  mkCW (cp c) (w c) (err c) (ret c) (ver c) (labels c) (branches c) (switches c) (handlers c) (lines c) (locals c) (widen c) (pass c) x (maxStack c) (maxLocals c) (reachable c).
Definition set_maxStack (x : Z) (c : CodeWriter) : CodeWriter :=
  mkCW (cp c) (w c) (err c) (ret c) (ver c) (labels c) (branches c) (switches c) (handlers c) (lines c) (locals c) (widen c) (pass c) (depth c) x (maxLocals c) (reachable c).
Definition set_maxLocals (x : Z) (c : CodeWriter) : CodeWriter :=
  mkCW (cp c) (w c) (err c) (ret c) (ver c) (labels c) (branches c) (switches c) (handlers c) (lines c) (locals c) (widen c) (pass c) (depth c) (maxStack c) x (reachable c).
Definition set_reachable (x : bool) (c : CodeWriter) : CodeWriter :=
  mkCW (cp c) (w c) (err c) (ret c) (ver c) (labels c) (branches c) (switches c) (handlers c) (lines c) (locals c) (widen c) (pass c) (depth c) (maxStack c) (maxLocals c) x.

Definition fail (format : string) (args : list errarg) (c : CodeWriter) : CodeWriter :=
  match err c with
  | Some _ => c
  | None => set_err (Some (Errorf ("classfile: code: " ++ format) args)) c
  end.

(** [c.w.u1(v)] and its siblings. *)
Definition u1 (v : Z) (c : CodeWriter) : CodeWriter := set_w (wU1 v (w c)) c.
Definition u2 (v : Z) (c : CodeWriter) : CodeWriter := set_w (wU2 v (w c)) c.
Definition u4 (v : Z) (c : CodeWriter) : CodeWriter := set_w (wU4 v (w c)) c.

(** [c.p.Method(...)]: the index, and the writer with the pool it left. *)
Definition intern_ (m : PB Z) (c : CodeWriter) : Z * CodeWriter :=
  let '(i, p) := m (cp c) in (i, set_cp p c).

(** ** Labels *)

Definition NewLabel (c : CodeWriter) : CodeWriter := set_labels (labels c ++ [mkLabel (-1) (-1)]) c.

Definition set_label (l : nat) (x : Label) (c : CodeWriter) : CodeWriter := set_labels (<[l := x]> (labels c)) c.

Definition lid (l : nat) : errarg := ANum (Z.of_nat l).

Definition Mark (l : nat) (c : CodeWriter) : option CodeWriter :=
  lb ← labels c !! l;
  Some (
    if 0 <=? pc lb then fail "label %d placed twice" [lid l] c
    else
      let here := s32 (len (w c)) in
      let c := set_label l (mkLabel here (ldepth lb)) c in
      if 0 <=? ldepth lb then
        if reachable c && negb (depth c =? ldepth lb) then
          fail "stack depth %d falling into label %d, which expects %d" [ANum (depth c); lid l; ANum (ldepth lb)] c
        else set_reachable true (set_depth (ldepth lb) c)
      else if reachable c then set_reachable true (set_label l (mkLabel here (depth c)) c)
      else fail "label %d is unreachable: no branch targets it and control cannot fall in" [lid l] c).

Definition noteDepth (l : nat) (c : CodeWriter) : option CodeWriter :=
  lb ← labels c !! l;
  Some (
    if ldepth lb <? 0 then set_label l (mkLabel (pc lb) (depth c)) c
    else if negb (ldepth lb =? depth c) then
      fail "branch to label %d with stack depth %d, but %d was recorded earlier" [lid l; ANum (depth c); ANum (ldepth lb)] c
    else c).

Fixpoint noteDepths (ls : list nat) (c : CodeWriter) : option CodeWriter :=
  match ls with
  | [] => Some c
  | l :: ls => c ← noteDepth l c; noteDepths ls c
  end.

(** ** Stack and locals *)

Definition push (n : Z) (c : CodeWriter) : CodeWriter :=
  let c := set_depth (s32 (depth c + n)) c in
  if maxStack c <? depth c then
    if MaxStack <? depth c then
      fail "operand stack depth %d exceeds the max_stack limit of %d" [ANum (depth c); ANum MaxStack] c
    else set_maxStack (depth c) c
  else c.

Definition pop (n : Z) (c : CodeWriter) : CodeWriter :=
  let c := set_depth (s32 (depth c - n)) c in
  if depth c <? 0 then set_depth 0 (fail "operand stack underflow at offset %d" [ANum (len (w c))] c) else c.

Definition useLocal (slot width : Z) (c : CodeWriter) : CodeWriter :=
  if (slot <? 0) || (MaxLocals <? slot) then fail "local slot %d out of range" [ANum slot] c
  else
    let n := s32 (s32 slot + width) in
    if MaxLocals <? n then
      fail "local slot %d of width %d needs max_locals %d, over the limit of %d" [ANum slot; ANum width; ANum n; ANum MaxLocals] c
    else if maxLocals c <? n then set_maxLocals n c
    else c.

Definition terminate (c : CodeWriter) : CodeWriter := set_reachable false c.

Definition op_text (o : Z) : errarg := match OpString o with Some s => AStr s | None => AStr [] end.

Definition emitOp (o : Z) (c : CodeWriter) : CodeWriter :=
  if negb (reachable c) then fail "instruction %s at offset %d is unreachable" [op_text o; ANum (len (w c))] c
  else u1 (u8 o) c.

(** ** Loads and stores *)

Definition localOp (general compact slot width : Z) (c : CodeWriter) : CodeWriter :=
  let c := useLocal slot width c in
  match err c with
  | Some _ => c
  | None =>
      if slot <? 4 then emitOp (u8 (compact + u8 slot)) c
      else if slot <? 256 then u1 (u8 slot) (emitOp general c)
      else u2 (u16 slot) (u1 (u8 general) (emitOp Op.Wide c))
  end.

Definition load (general compact slot width : Z) (c : CodeWriter) : CodeWriter := push width (localOp general compact slot width c).
Definition store (general compact slot width : Z) (c : CodeWriter) : CodeWriter := pop width (localOp general compact slot width c).

Definition Aload_ (slot : Z) : CodeWriter -> CodeWriter := load Aload Aload0 slot 1.
Definition Iload_ (slot : Z) : CodeWriter -> CodeWriter := load Iload Iload0 slot 1.
Definition Fload_ (slot : Z) : CodeWriter -> CodeWriter := load Fload Fload0 slot 1.
Definition Lload_ (slot : Z) : CodeWriter -> CodeWriter := load Lload Lload0 slot 2.
Definition Dload_ (slot : Z) : CodeWriter -> CodeWriter := load Dload Dload0 slot 2.
Definition Astore_ (slot : Z) : CodeWriter -> CodeWriter := store Astore Astore0 slot 1.
Definition Istore_ (slot : Z) : CodeWriter -> CodeWriter := store Istore Istore0 slot 1.
Definition Fstore_ (slot : Z) : CodeWriter -> CodeWriter := store Fstore Fstore0 slot 1.
Definition Lstore_ (slot : Z) : CodeWriter -> CodeWriter := store Lstore Lstore0 slot 2.
Definition Dstore_ (slot : Z) : CodeWriter -> CodeWriter := store Dstore Dstore0 slot 2.

(** [Iinc] *)
Definition Iinc_ (slot delta : Z) (c : CodeWriter) : CodeWriter :=
  let c := useLocal slot 1 c in
  match err c with
  | Some _ => c
  | None =>
      if (delta <? -32768) || (32767 <? delta) then fail "iinc delta %d does not fit in a signed 16-bit operand" [ANum delta] c
      else if (slot <? 256) && (-128 <=? delta) && (delta <=? 127) then u1 (u8 (s8 delta)) (u1 (u8 slot) (emitOp Iinc c))
      else u2 (u16 (s16 delta)) (u2 (u16 slot) (u1 (u8 Iinc) (emitOp Op.Wide c)))
  end.

(** [Local] *)
Definition Local_ (slot : Z) (name descriptor : bytes) (lo hi : nat) (c : CodeWriter) : CodeWriter :=
  match ParseField descriptor with
  | Err e => fail "local %s: %v" [AStr name; AErr e] c
  | Ok _ =>
      if (slot <? 0) || (MaxLocals <? slot) then fail "local %s: slot %d out of range" [AStr name; ANum slot] c
      else set_locals (locals c ++ [mkLocal slot name descriptor lo hi]) c
  end.

(** ** Constants *)

Definition ldc (idx : Z) (wide : bool) (c : CodeWriter) : CodeWriter :=
  if wide then push 2 (u2 idx (emitOp Ldc2W c))
  else if idx <? 256 then push 1 (u1 (u8 idx) (emitOp Ldc c))
  else push 1 (u2 idx (emitOp LdcW c)).

Definition ldc_of (m : PB Z) (wide : bool) (c : CodeWriter) : CodeWriter :=
  let '(i, c) := intern_ m c in ldc i wide c.

Definition Iconst (v : Z) (c : CodeWriter) : CodeWriter :=
  if (-1 <=? v) && (v <=? 5) then push 1 (emitOp (u8 (Iconst0 + u8 v)) c)
  else if (-128 <=? v) && (v <=? 127) then push 1 (u1 (u8 (s8 v)) (emitOp Bipush c))
  else if (-32768 <=? v) && (v <=? 32767) then push 1 (u2 (u16 (s16 v)) (emitOp Sipush c))
  else ldc_of (Int v) false c.

Definition Lconst (v : Z) (c : CodeWriter) : CodeWriter :=
  if (v =? 0) || (v =? 1) then push 2 (emitOp (u8 (Lconst0 + u8 v)) c) else ldc_of (Long v) true c.

(** The bit patterns of the floats 0, 1, 2 and of the doubles 0, 1. *)
Definition Fconst (bits : Z) (c : CodeWriter) : CodeWriter :=
  if bits =? 0 then push 1 (emitOp Fconst0 c)
  else if bits =? 0x3F800000 then push 1 (emitOp Fconst1 c)
  else if bits =? 0x40000000 then push 1 (emitOp Fconst2 c)
  else ldc_of (Float bits) false c.

Definition Dconst (bits : Z) (c : CodeWriter) : CodeWriter :=
  if bits =? 0 then push 2 (emitOp Dconst0 c)
  else if bits =? 0x3FF0000000000000 then push 2 (emitOp Dconst1 c)
  else ldc_of (Double bits) true c.

Definition Sconst (s : bytes) (c : CodeWriter) : CodeWriter := ldc_of (String_ s) false c.

Definition Cconst (internal : bytes) (c : CodeWriter) : CodeWriter :=
  if negb (AtLeast (ver c) Java5) then
    fail "CONSTANT_Class is not loadable before class file 49.0 (this class is %s)" [AErr (VersionString (ver c))] c
  else ldc_of (Class_ internal) false c.

Definition AconstNull_ (c : CodeWriter) : CodeWriter := push 1 (emitOp AconstNull c).

(** ** Members *)

(** [c.w.u2(c.p.Method(...))] *)
Definition u2_of (m : PB Z) (c : CodeWriter) : CodeWriter := let '(i, c) := intern_ m c in u2 i c.

Definition field (o : Z) (owner name descriptor : bytes) (c : CodeWriter) : CodeWriter :=
  match ParseField descriptor with
  | Err e => fail "%v" [AErr e] c
  | Ok t =>
      let c := u2_of (FieldRef owner name descriptor) (emitOp o c) in
      let width := Slots t in
      if o =? Getstatic then push width c
      else if o =? Putstatic then pop width c
      else if o =? Getfield then push width (pop 1 c)
      else if o =? Putfield then pop (s32 (width + 1)) c
      else c
  end.

Definition GetStatic : bytes -> bytes -> bytes -> CodeWriter -> CodeWriter := field Getstatic.
Definition PutStatic : bytes -> bytes -> bytes -> CodeWriter -> CodeWriter := field Putstatic.
Definition GetField : bytes -> bytes -> bytes -> CodeWriter -> CodeWriter := field Getfield.
Definition PutField : bytes -> bytes -> bytes -> CodeWriter -> CodeWriter := field Putfield.

Definition invoke (o : Z) (owner name descriptor : bytes) (c : CodeWriter) : CodeWriter :=
  match ParseMethod descriptor with
  | Err e => fail "%v" [AErr e] c
  | Ok m =>
      let receiver := negb (o =? Invokestatic) in
      match CheckArgSlots m receiver with
      | Some e => fail "%v" [AErr e] c
      | None =>
          let args := s32 (ArgSlots m receiver) in
          let c := emitOp o c in
          let c :=
            if o =? Invokeinterface then u1 0 (u1 (u8 args) (u2_of (InterfaceMethodRef owner name descriptor) c))
            else u2_of (MethodRef owner name descriptor) c in
          push (Slots (Desc.Ret m)) (pop args c)
      end
  end.

Definition InvokeVirtual : bytes -> bytes -> bytes -> CodeWriter -> CodeWriter := invoke Invokevirtual.
Definition InvokeSpecial : bytes -> bytes -> bytes -> CodeWriter -> CodeWriter := invoke Invokespecial.
Definition InvokeStatic : bytes -> bytes -> bytes -> CodeWriter -> CodeWriter := invoke Invokestatic.
Definition InvokeInterface : bytes -> bytes -> bytes -> CodeWriter -> CodeWriter := invoke Invokeinterface.

(** ** Objects *)

Definition New_ (internal : bytes) (c : CodeWriter) : CodeWriter := push 1 (u2_of (Class_ internal) (emitOp New c)).

Definition ANewArray (component : bytes) (c : CodeWriter) : CodeWriter :=
  push 1 (pop 1 (u2_of (Class_ component) (emitOp Anewarray c))).

Definition NewArray (typeCode : Z) (c : CodeWriter) : CodeWriter :=
  match ArrayTypeName typeCode with
  | EmptyString => fail "newarray type code %d is not one of the eight primitive codes" [ANum typeCode] c
  | _ => push 1 (pop 1 (u1 typeCode (emitOp Newarray c)))
  end.

Definition MultiANewArray (descriptor : bytes) (dims : Z) (c : CodeWriter) : CodeWriter :=
  if (dims <? 1) || (255 <? dims) then fail "multianewarray dimension count %d is outside 1..255" [ANum dims] c
  else match ParseField descriptor with
  | Err e => fail "multianewarray: %v" [AErr e] c
  | Ok t =>
      if Dims t <? dims then
        fail "multianewarray %s has %d dimensions but %d were requested" [AStr descriptor; ANum (Dims t); ANum dims] c
      else push 1 (pop (s32 dims) (u1 (u8 dims) (u2_of (Class_ descriptor) (emitOp Multianewarray c))))
  end.

Definition CheckCast (internal : bytes) (c : CodeWriter) : CodeWriter := u2_of (Class_ internal) (emitOp Checkcast c).
Definition InstanceOf (internal : bytes) (c : CodeWriter) : CodeWriter := u2_of (Class_ internal) (emitOp Instanceof c).

(** ** Operand-free instructions *)

(** [simpleDelta]: the [set] calls that fill the table, in order; a pop of -1
    is an opcode the writer will not emit. *)
Definition simple_sets : list (Z * Z * list Z) := [
  (0, 0, [Nop]);
  (1, 0, [Monitorenter; Monitorexit]);
  (0, 1, [Iconst0; Iconst1; Iconst2; Iconst3; Iconst4; Iconst5; IconstM1; Fconst0; Fconst1; Fconst2; AconstNull]);
  (0, 2, [Lconst0; Lconst1; Dconst0; Dconst1]);
  (2, 1, [Iaload; Faload; Aaload; Baload; Caload; Saload; Iadd; Isub; Imul; Idiv; Irem; Iand; Ior; Ixor;
          Ishl; Ishr; Iushr; Fadd; Fsub; Fmul; Fdiv; Frem]);
  (2, 2, [Laload; Daload]);
  (4, 2, [Ladd; Lsub; Lmul; Ldiv; Lrem; Land; Lor; Lxor; Dadd; Dsub; Dmul; Ddiv; Drem]);
  (3, 2, [Lshl; Lshr; Lushr]);
  (3, 0, [Iastore; Fastore; Aastore; Bastore; Castore; Sastore]);
  (4, 0, [Lastore; Dastore]);
  (1, 1, [Ineg; Fneg; I2f; F2i; I2b; I2c; I2s; Arraylength]);
  (2, 2, [Lneg; Dneg; L2d; D2l]);
  (1, 2, [I2l; I2d; F2l; F2d]);
  (2, 1, [L2i; L2f; D2i; D2f]);
  (4, 1, [Lcmp; Dcmpl; Dcmpg]);
  (2, 1, [Fcmpl; Fcmpg]);
  (1, 0, [Pop; Ireturn; Freturn; Areturn]);
  (2, 0, [Pop2; Lreturn; Dreturn]);
  (0, 0, [Return]);
  (1, 0, [Athrow]);
  (1, 2, [Dup]);
  (2, 3, [DupX1]);
  (3, 4, [DupX2]);
  (2, 4, [Dup2]);
  (3, 5, [Dup2X1]);
  (4, 6, [Dup2X2]);
  (2, 2, [Swap])].

Definition simpleDelta (o : Z) : Z * Z :=
  foldl (fun d s => if existsb (Z.eqb o) (snd s) then fst s else d) (-1, 0) simple_sets.

(** [Op] *)
Definition Op_ (o : Z) (c : CodeWriter) : CodeWriter :=
  if negb (bool_decide (OpKind o = NoneK)) then fail "%s takes operands; use its dedicated method" [op_text o] c
  else
    let d := simpleDelta o in
    if fst d <? 0 then fail "%s is not permitted here" [op_text o] c
    else
      let c := push (snd d) (pop (fst d) (emitOp o c)) in
      if Terminates o then terminate c else c.

Definition Throw (c : CodeWriter) : CodeWriter := Op_ Athrow c.

(** [Return] *)
Definition Return_ (c : CodeWriter) : CodeWriter :=
  if IsRef (ret c) then Op_ Areturn c
  else match TKind (ret c) with
  | Desc.Void => Op_ Return c
  | Desc.Long => Op_ Lreturn c
  | Desc.Float => Op_ Freturn c
  | Desc.Double => Op_ Dreturn c
  | Desc.Boolean | Desc.Byte | Desc.Char | Desc.Short | Desc.Int => Op_ Ireturn c
  | _ => fail "cannot pick a return instruction for return type %v" [] c
  end.

(** ** Branches *)

Definition invert (o : Z) : Z :=
  if o =? Ifeq then Ifne else if o =? Ifne then Ifeq
  else if o =? Iflt then Ifge else if o =? Ifge then Iflt
  else if o =? Ifgt then Ifle else if o =? Ifle then Ifgt
  else if o =? IfIcmpeq then IfIcmpne else if o =? IfIcmpne then IfIcmpeq
  else if o =? IfIcmplt then IfIcmpge else if o =? IfIcmpge then IfIcmplt
  else if o =? IfIcmpgt then IfIcmple else if o =? IfIcmple then IfIcmpgt
  else if o =? IfAcmpeq then IfAcmpne else if o =? IfAcmpne then IfAcmpeq
  else if o =? Ifnull then Ifnonnull else if o =? Ifnonnull then Ifnull
  else 0.

(** [branch] *)
Definition branch_ (o : Z) (l : nat) (pops : Z) (c : CodeWriter) : option CodeWriter :=
  let ord := len (branches c) in
  let at0 := len (w c) in
  let wide := bool_decide (ord ∈ widen c) in
  c ← noteDepth l (pop pops c);
  let c :=
    if negb wide then u2 0 (emitOp o c)
    else if o =? Goto then u4 0 (emitOp GotoW c)
    else u4 0 (u1 (u8 GotoW) (u2 8 (emitOp (invert o) c))) in
  Some (set_branches (branches c ++ [mkBranch ord o l at0 wide]) c).

Definition Goto_ (l : nat) (c : CodeWriter) : option CodeWriter := c ← branch_ Goto l 0 c; Some (terminate c).

Definition IfEq (l : nat) : CodeWriter -> option CodeWriter := branch_ Ifeq l 1.
Definition IfNe (l : nat) : CodeWriter -> option CodeWriter := branch_ Ifne l 1.
Definition IfLt (l : nat) : CodeWriter -> option CodeWriter := branch_ Iflt l 1.
Definition IfGe (l : nat) : CodeWriter -> option CodeWriter := branch_ Ifge l 1.
Definition IfGt (l : nat) : CodeWriter -> option CodeWriter := branch_ Ifgt l 1.
Definition IfLe (l : nat) : CodeWriter -> option CodeWriter := branch_ Ifle l 1.
Definition IfICmpEq (l : nat) : CodeWriter -> option CodeWriter := branch_ IfIcmpeq l 2.
Definition IfICmpNe (l : nat) : CodeWriter -> option CodeWriter := branch_ IfIcmpne l 2.
Definition IfICmpLt (l : nat) : CodeWriter -> option CodeWriter := branch_ IfIcmplt l 2.
Definition IfICmpGe (l : nat) : CodeWriter -> option CodeWriter := branch_ IfIcmpge l 2.
Definition IfICmpGt (l : nat) : CodeWriter -> option CodeWriter := branch_ IfIcmpgt l 2.
Definition IfICmpLe (l : nat) : CodeWriter -> option CodeWriter := branch_ IfIcmple l 2.
Definition IfACmpEq (l : nat) : CodeWriter -> option CodeWriter := branch_ IfAcmpeq l 2.
Definition IfACmpNe (l : nat) : CodeWriter -> option CodeWriter := branch_ IfAcmpne l 2.
Definition IfNull (l : nat) : CodeWriter -> option CodeWriter := branch_ Ifnull l 1.
Definition IfNonNull (l : nat) : CodeWriter -> option CodeWriter := branch_ Ifnonnull l 1.

(** ** Switches *)

Definition switch_pad (at0 : Z) : Z := (4 - (at0 + 1) mod 4) mod 4.

(** The operands of the two switches, every offset zero. *)
Definition table_body (pad low high : Z) (targets : list nat) (c : CodeWriter) : CodeWriter :=
  let c := set_w (wRaw (replicate (Z.to_nat pad) 0) (w c)) c in
  let c := u4 (u32 high) (u4 (u32 low) (u4 0 c)) in
  set_w (wRaw (concat (map (fun _ => be4 0) targets)) (w c)) c.

Definition lookup_body (pad : Z) (cases : list (Z * nat)) (c : CodeWriter) : CodeWriter :=
  let c := set_w (wRaw (replicate (Z.to_nat pad) 0) (w c)) c in
  let c := u4 (u32 (len cases)) (u4 0 c) in
  set_w (wRaw (concat (map (fun x => be4 (u32 (fst x)) ++ be4 0) cases)) (w c)) c.

Definition TableSwitch (low high : Z) (def : nat) (targets : list nat) (c : CodeWriter) : option CodeWriter :=
  if high <? low then Some (fail "tableswitch high %d is below low %d" [ANum high; ANum low] c)
  else if negb (high - low + 1 =? len targets) then
    Some (fail "tableswitch covers %d..%d (%d entries) but was given %d targets"
            [ANum low; ANum high; ANum (high - low + 1); ANum (len targets)] c)
  else
    let at0 := len (w c) in
    c ← noteDepth def (pop 1 c);
    c ← noteDepths targets c;
    let pad := switch_pad at0 in
    let c := table_body pad low high targets (emitOp Tableswitch c) in
    let c := set_switches (switches c ++ [mkSwitch Tableswitch at0 pad def targets]) c in
    Some (terminate c).

(** [sort.Slice] by match value; the order it leaves equal matches in is
    unspecified, but equal matches are refused below. *)
Fixpoint insert_case (x : Z * nat) (l : list (Z * nat)) : list (Z * nat) :=
  match l with
  | [] => [x]
  | y :: l' => if fst y <? fst x then y :: insert_case x l' else x :: l
  end.
Definition sort_cases (l : list (Z * nat)) : list (Z * nat) := foldr insert_case [] l.

(** The first match equal to the one before it. *)
Fixpoint duplicate (l : list (Z * nat)) : option Z :=
  match l with
  | x :: (y :: _) as l' => if fst y =? fst x then Some (fst y) else duplicate l'
  | _ => None
  end.

Definition LookupSwitch (def : nat) (matches : list Z) (targets : list nat) (c : CodeWriter) : option CodeWriter :=
  if negb (len matches =? len targets) then
    Some (fail "lookupswitch has %d matches but %d targets" [ANum (len matches); ANum (len targets)] c)
  else
    let cases := sort_cases (combine matches targets) in
    match duplicate cases with
    | Some m => Some (fail "lookupswitch has duplicate match value %d" [ANum m] c)
    | None =>
        let at0 := len (w c) in
        c ← noteDepth def (pop 1 c);
        c ← noteDepths (map snd cases) c;
        let pad := switch_pad at0 in
        let c := lookup_body pad cases (emitOp Lookupswitch c) in
        let c := set_switches (switches c ++ [mkSwitch Lookupswitch at0 pad def (map snd cases)]) c in
        Some (terminate c)
    end.

(** ** Handlers and lines *)

Definition TryCatch (lo hi handler : nat) (catchType : bytes) (c : CodeWriter) : option CodeWriter :=
  let c := set_handlers (handlers c ++ [mkHandler lo hi handler catchType]) c in
  lb ← labels c !! handler;
  let c :=
    if ldepth lb <? 0 then set_label handler (mkLabel (pc lb) 1) c
    else if negb (ldepth lb =? 1) then
      fail "handler label %d already has stack depth %d, but a handler entry is 1" [lid handler; ANum (ldepth lb)] c
    else c in
  Some (if maxStack c <? 1 then set_maxStack 1 c else c).

Definition Line (n : Z) (c : CodeWriter) : CodeWriter :=
  set_lines (lines c ++ [mkLine (u16 (len (w c))) (u16 n)]) c.

(** ** Resolving *)

(** How one pass over the branches ends: a label missing, or all done and
    whether some branch has to be widened. *)
Inductive resolved := Stop | Again (b : bool).

(** One round of [resolve]'s first loop: [None] is a patch out of range. *)
Definition resolve_branch (br : branch) (again : bool) (c : CodeWriter) : option (resolved * CodeWriter) :=
  lb ← labels c !! label br;
  if pc lb <? 0 then Some (Stop, fail "label %d was never placed" [lid (label br)] c)
  else
    let off := s32 (pc lb - s32 (bat br)) in
    if bwide br && (bop br =? Goto) then
      w' ← patchU4 (bat br + 1) (u32 off) (w c); Some (Again again, set_w w' c)
    else if bwide br then
      w' ← patchU4 (bat br + 4) (u32 (s32 (pc lb - s32 (bat br) - 3))) (w c); Some (Again again, set_w w' c)
    else if (off <? -32768) || (32767 <? off) then Some (Again true, set_widen ({[ord br]} ∪ widen c) c)
    else w' ← patchU2 (bat br + 1) (u16 (s16 off)) (w c); Some (Again again, set_w w' c).

Fixpoint resolve_branches (brs : list branch) (again : bool) (c : CodeWriter) : option (resolved * CodeWriter) :=
  match brs with
  | [] => Some (Again again, c)
  | br :: brs =>
      r ← resolve_branch br again c;
      match r with
      | (Stop, c) => Some (Stop, c)
      | (Again again, c) => resolve_branches brs again c
      end
  end.

(** The targets of a switch, from the [i]-th on; false when one is missing. *)
Fixpoint resolve_targets (ts : list nat) (i : Z) (s : switchRec) (c : CodeWriter) : option (bool * CodeWriter) :=
  match ts with
  | [] => Some (true, c)
  | t :: ts =>
      lb ← labels c !! t;
      if pc lb <? 0 then Some (false, fail "switch target label %d was never placed" [lid t] c)
      else
        let body := sat s + 1 + spad s in
        let off := u32 (s32 (pc lb - s32 (sat s))) in
        w' ← patchU4 (if sop s =? Tableswitch then body + 12 + 4 * i else body + 8 + 8 * i + 4) off (w c);
        resolve_targets ts (i + 1) s (set_w w' c)
  end.

Definition resolve_switch (s : switchRec) (c : CodeWriter) : option (bool * CodeWriter) :=
  lb ← labels c !! def s;
  if pc lb <? 0 then Some (false, fail "switch default label %d was never placed" [lid (def s)] c)
  else
    w' ← patchU4 (sat s + 1 + spad s) (u32 (s32 (pc lb - s32 (sat s)))) (w c);
    resolve_targets (targets s) 0 s (set_w w' c).

Fixpoint resolve_switches (ss : list switchRec) (c : CodeWriter) : option CodeWriter :=
  match ss with
  | [] => Some c
  | s :: ss => r ← resolve_switch s c; if fst r : bool then resolve_switches ss (snd r) else Some (snd r)
  end.

(** [resolve]: whether another pass is needed. *)
Definition resolve (c : CodeWriter) : option (bool * CodeWriter) :=
  r ← resolve_branches (branches c) false c;
  match r with
  | (Stop, c) => Some (false, c)
  | (Again true, c) => Some (true, c)
  | (Again false, c) => c ← resolve_switches (switches c) c; Some (false, c)
  end.

(** [localRows]'s loop: no rows at all when a label is missing. *)
Fixpoint local_rows (ls : list localRec) (c : CodeWriter) : option (option (list LocalVariable) * CodeWriter) :=
  match ls with
  | [] => Some (Some [], c)
  | l :: ls =>
      lo ← labels c !! lstart l;
      hi ← labels c !! lend l;
      if (pc lo <? 0) || (pc hi <? 0) then
        Some (None, fail "local %s spans a label that was never placed" [AStr (lname l)] c)
      else
        r ← local_rows ls c;
        let row := mkLV (u16 (pc lo)) (u16 (s32 (pc hi - pc lo))) (lname l) (ldesc l) (u16 (slot l)) in
        Some (if pc hi <=? pc lo then r else (rows ← fst r; Some (row :: rows), snd r))
  end.

Definition localRows (c : CodeWriter) : option (list LocalVariable * CodeWriter) :=
  r ← local_rows (locals c) c; Some (match fst r with Some rows => rows | None => [] end, snd r).

(** ** A body

    [MethodBuilder.Code] takes a closure that must be deterministic.  No
    exported method returns anything but a label, so a deterministic closure is
    a fixed sequence of calls, each label named by its order of creation. *)

Inductive local_type := TA | TI | TF | TL | TD.
Inductive cond := Eq | Ne | Lt | Ge | Gt | Le | ICmpEq | ICmpNe | ICmpLt | ICmpGe | ICmpGt | ICmpLe | ACmpEq | ACmpNe | Null | NonNull.
Inductive access := AGetStatic | APutStatic | AGetField | APutField.
Inductive call_kind := CVirtual | CSpecial | CStatic | CInterface.

Inductive cmd :=
  | CNewLabel | CMark (l : nat)
  | CLoad (t : local_type) (slot : Z) | CStore (t : local_type) (slot : Z) | CIinc (slot delta : Z)
  | CLocal (slot : Z) (name descriptor : bytes) (lo hi : nat)
  | CIconst (v : Z) | CLconst (v : Z) | CFconst (bits : Z) | CDconst (bits : Z) | CSconst (s : bytes)
  | CCconst (internal : bytes) | CAconstNull
  | CField (a : access) (owner name descriptor : bytes) | CInvoke (k : call_kind) (owner name descriptor : bytes)
  | CNew (internal : bytes) | CANewArray (component : bytes) | CNewArray (typeCode : Z)
  | CMultiANewArray (descriptor : bytes) (dims : Z) | CCheckCast (internal : bytes) | CInstanceOf (internal : bytes)
  | CThrow | COp (o : Z) | CReturn
  | CGoto (l : nat) | CIf (k : cond) (l : nat)
  | CTableSwitch (low high : Z) (def : nat) (targets : list nat)
  | CLookupSwitch (def : nat) (matches : list Z) (targets : list nat)
  | CTryCatch (lo hi handler : nat) (catchType : bytes) | CLine (n : Z).

Definition run_load (t : local_type) : Z -> CodeWriter -> CodeWriter :=
  match t with TA => Aload_ | TI => Iload_ | TF => Fload_ | TL => Lload_ | TD => Dload_ end.
Definition run_store (t : local_type) : Z -> CodeWriter -> CodeWriter :=
  match t with TA => Astore_ | TI => Istore_ | TF => Fstore_ | TL => Lstore_ | TD => Dstore_ end.
Definition run_field (a : access) : bytes -> bytes -> bytes -> CodeWriter -> CodeWriter :=
  match a with AGetStatic => GetStatic | APutStatic => PutStatic | AGetField => GetField | APutField => PutField end.
Definition run_invoke (k : call_kind) : bytes -> bytes -> bytes -> CodeWriter -> CodeWriter :=
  match k with CVirtual => InvokeVirtual | CSpecial => InvokeSpecial | CStatic => InvokeStatic | CInterface => InvokeInterface end.
Definition run_if (k : cond) : nat -> CodeWriter -> option CodeWriter :=
  match k with
  | Eq => IfEq | Ne => IfNe | Lt => IfLt | Ge => IfGe | Gt => IfGt | Le => IfLe
  | ICmpEq => IfICmpEq | ICmpNe => IfICmpNe | ICmpLt => IfICmpLt | ICmpGe => IfICmpGe | ICmpGt => IfICmpGt | ICmpLe => IfICmpLe
  | ACmpEq => IfACmpEq | ACmpNe => IfACmpNe | Null => IfNull | NonNull => IfNonNull
  end.

Definition run_cmd (x : cmd) (c : CodeWriter) : option CodeWriter :=
  match x with
  | CNewLabel => Some (NewLabel c)
  | CMark l => Mark l c
  | CLoad t n => Some (run_load t n c)
  | CStore t n => Some (run_store t n c)
  | CIinc n delta => Some (Iinc_ n delta c)
  | CLocal n name descriptor lo hi => Some (Local_ n name descriptor lo hi c)
  | CIconst v => Some (Iconst v c)
  | CLconst v => Some (Lconst v c)
  | CFconst bits => Some (Fconst bits c)
  | CDconst bits => Some (Dconst bits c)
  | CSconst s => Some (Sconst s c)
  | CCconst internal => Some (Cconst internal c)
  | CAconstNull => Some (AconstNull_ c)
  | CField a o n d => Some (run_field a o n d c)
  | CInvoke k o n d => Some (run_invoke k o n d c)
  | CNew internal => Some (New_ internal c)
  | CANewArray component => Some (ANewArray component c)
  | CNewArray typeCode => Some (NewArray typeCode c)
  | CMultiANewArray descriptor dims => Some (MultiANewArray descriptor dims c)
  | CCheckCast internal => Some (CheckCast internal c)
  | CInstanceOf internal => Some (InstanceOf internal c)
  | CThrow => Some (Throw c)
  | COp o => Some (Op_ o c)
  | CReturn => Some (Return_ c)
  | CGoto l => Goto_ l c
  | CIf k l => run_if k l c
  | CTableSwitch low high def targets => TableSwitch low high def targets c
  | CLookupSwitch def matches targets => LookupSwitch def matches targets c
  | CTryCatch lo hi handler catchType => TryCatch lo hi handler catchType c
  | CLine n => Some (Line n c)
  end.

Fixpoint run (body : list cmd) (c : CodeWriter) : option CodeWriter :=
  match body with
  | [] => Some c
  | x :: body => c ← run_cmd x c; run body c
  end.
