(* ===== verification/CodeProof.v ===== *)
(** * The code writer as an abstract assembler

    [core] is the part of a [CodeWriter] that decides the code array: bytes,
    labels, branches, switches, stack depth and reachability.  [kstep] is the
    assembler the package promises: a step emits whole instructions ([item]s)
    or touches a label.  [run_cmd_step] is the refinement: every call that sets
    no error is a step.  The invariant [assembled] then follows by induction on
    the steps alone. *)
From Stdlib Require Import Sorting.Sorted.
From S2P Require Import Prelude.
From S2P Require Import Desc.
From S2P Require Import Op.
From S2P Require Import Format.
From S2P Require Import ClassIO.
From S2P Require Import PoolBuilder.
From S2P Require Import Code.
From S2P Require Import CodeWriter.

(** ** The abstract assembler *)

Record core := mkCore {
  kw : bytes;
  klabels : list Label;
  kbranches : list branch;
  kswitches : list switchRec;
  kdepth : Z;
  kmax : Z;
  kreach : bool;
  kwiden : gset Z }.

Definition core_of (c : CodeWriter) : core :=
  mkCore (w c) (labels c) (branches c) (switches c) (depth c) (maxStack c) (reachable c) (widen c).

(** An instruction as it is emitted: whole, or with offsets still zero.  [keys]
    are the bounds of a tableswitch or the matches of a lookupswitch. *)
Inductive ibody := Plain (r : bytes) | Br (b : branch) | Sw (s : switchRec) (keys : list Z).

(** The stack depth before and after, and whether control falls through. *)
Record item := mkItem { body : ibody; pre : Z; post : Z; falls : bool }.

Definition branch_ops : list Z := [Goto; Ifeq; Ifne; Iflt; Ifge; Ifgt; Ifle; IfIcmpeq; IfIcmpne; IfIcmplt; IfIcmpge;
  IfIcmpgt; IfIcmple; IfAcmpeq; IfAcmpne; Ifnull; Ifnonnull].

Definition branch_bytes (b : branch) : bytes :=
  if negb (bwide b) then [u8 (bop b)] ++ be2 0
  else if bop b =? Goto then [u8 GotoW] ++ be4 0
  else [u8 (invert (bop b))] ++ be2 8 ++ [u8 GotoW] ++ be4 0.

Definition switch_bytes (s : switchRec) (keys : list Z) : bytes :=
  [u8 (sop s)] ++ replicate (Z.to_nat (spad s)) 0 ++ be4 0 ++
  (if sop s =? Tableswitch then concat (map (fun k => be4 (u32 k)) keys) ++ concat (map (fun _ => be4 0) (targets s))
   else be4 (u32 (len keys)) ++ concat (map (fun k => be4 (u32 k) ++ be4 0) keys)).

Definition ibytes (i : ibody) : bytes :=
  match i with Plain r => r | Br b => branch_bytes b | Sw s keys => switch_bytes s keys end.

Definition bytes_of (its : list item) : bytes := concat (map (fun i => ibytes (body i)) its).

(** A complete instruction that is no branch and no switch, at any offset. *)
Definition plain_ok (r : bytes) : Prop :=
  bytes_ok r /\
  ((exists o ops, r = o :: ops /\ Valid o = true /\ o <> Op.Wide /\ 0 <= OpLen o /\ len r = OpLen o /\
      OpKind o <> Branch2 /\ OpKind o <> Branch4) \/
   (exists o ops, r = Op.Wide :: o :: ops /\ (OpKind o = Local \/ OpKind o = IincK) /\ len r = if o =? Iinc then 6 else 4)).

(** Recording the depth a transfer to a label needs: refused when another
    depth is recorded. *)
Definition note (d : Z) (l : nat) (ls : list Label) : option (list Label) :=
  lb ← ls !! l;
  if ldepth lb <? 0 then Some (<[l := mkLabel (pc lb) d]> ls)
  else if ldepth lb =? d then Some ls else None.

Fixpoint notes (d : Z) (ts : list nat) (ls : list Label) : option (list Label) :=
  match ts with
  | [] => Some ls
  | t :: ts => ls ← note d t ls; notes d ts ls
  end.

Definition keys_ok (s : switchRec) (keys : list Z) : Prop :=
  Forall (fun k => -2147483648 <= k < 2147483648) keys /\
  (sop s = Tableswitch /\ (exists low high, keys = [low; high] /\ low <= high /\ len (targets s) = high - low + 1) \/
   sop s = Lookupswitch /\ len (targets s) = len keys /\ StronglySorted Z.lt keys).

Inductive kstep : core -> list item -> core -> Prop :=
  | K_same k m :
      kmax k <= m <= MaxStack ->
      kstep k [] (mkCore (kw k) (klabels k) (kbranches k) (kswitches k) (kdepth k) m (kreach k) (kwiden k))
  | K_plain k r d m f :
      kreach k = true -> plain_ok r -> 0 <= d <= m -> kmax k <= m <= MaxStack ->
      kstep k [mkItem (Plain r) (kdepth k) d f]
        (mkCore (kw k ++ r) (klabels k) (kbranches k) (kswitches k) d m f (kwiden k))
  | K_branch k b d ls :
      kreach k = true -> 0 <= d <= kdepth k -> bop b ∈ branch_ops -> ord b = len (kbranches k) -> bat b = len (kw k) ->
      bwide b = bool_decide (ord b ∈ kwiden k) -> note d (label b) (klabels k) = Some ls ->
      kstep k [mkItem (Br b) (kdepth k) d (negb (bop b =? Goto))]
        (mkCore (kw k ++ branch_bytes b) ls (kbranches k ++ [b]) (kswitches k) d (kmax k) (negb (bop b =? Goto)) (kwiden k))
  | K_switch k s keys d ls :
      kreach k = true -> 0 <= d <= kdepth k -> keys_ok s keys -> sat s = len (kw k) -> spad s = switch_pad (len (kw k)) ->
      notes d (def s :: targets s) (klabels k) = Some ls ->
      kstep k [mkItem (Sw s keys) (kdepth k) d false]
        (mkCore (kw k ++ switch_bytes s keys) ls (kbranches k) (kswitches k ++ [s]) d (kmax k) false (kwiden k))
  | K_mark k l lb d :
      klabels k !! l = Some lb -> pc lb < 0 -> 0 <= d <= kmax k -> (kreach k = true -> d = kdepth k) ->
      (ldepth lb < 0 \/ ldepth lb = d) -> (ldepth lb < 0 -> kreach k = true) ->
      kstep k [] (mkCore (kw k) (<[l := mkLabel (s32 (len (kw k))) d]> (klabels k)) (kbranches k) (kswitches k) d (kmax k) true
        (kwiden k))
  | K_new k :
      kstep k [] (mkCore (kw k) (klabels k ++ [mkLabel (-1) (-1)]) (kbranches k) (kswitches k) (kdepth k) (kmax k) (kreach k)
        (kwiden k))
  | K_handler k l ls m :
      note 1 l (klabels k) = Some ls -> 1 <= m -> kmax k <= m <= MaxStack ->
      kstep k [] (mkCore (kw k) ls (kbranches k) (kswitches k) (kdepth k) m (kreach k) (kwiden k)).

(** ** The primitives, when they set no error *)

(** The depth is within max_stack, and so is every recorded one. *)
Definition kok (k : core) : Prop :=
  0 <= kdepth k <= kmax k /\ kmax k <= MaxStack /\ Forall (fun lb => ldepth lb <= kmax k) (klabels k).

Lemma note_kok d l ls ls' m :
  Forall (fun lb => ldepth lb <= m) ls -> note d l ls = Some ls' -> d <= m -> Forall (fun lb => ldepth lb <= m) ls'.
Proof.
  unfold note. intros H E Hd. destruct (ls !! l) as [lb|]; [|discriminate]. cbn in E.
  destruct (ldepth lb <? 0); [injection E as <-; apply Forall_insert; auto|].
  destruct (ldepth lb =? d); congruence.
Qed.

Lemma notes_kok d ts ls ls' m :
  Forall (fun lb => ldepth lb <= m) ls -> notes d ts ls = Some ls' -> d <= m -> Forall (fun lb => ldepth lb <= m) ls'.
Proof.
  revert ls. induction ts as [|t ts IH]; intros ls H E Hd; cbn in E; [congruence|].
  destruct (note d t ls) as [ls1|] eqn:E1; [|discriminate]. cbn in E.
  eapply (IH ls1); [eapply (note_kok d t ls); eauto|exact E|exact Hd].
Qed.

Lemma kstep_kok k its k' : kstep k its k' -> kok k -> kok k'.
Proof.
  unfold kok. intros H ((Hd0 & Hd) & Hm & Hl).
  assert (Hmono : forall m, kmax k <= m -> Forall (fun lb => ldepth lb <= m) (klabels k))
    by (intros m Hm'; eapply Forall_impl; [exact Hl|cbn; lia]).
  destruct H; cbn in *; split_and!; auto; try lia.
  - apply Hmono. lia.
  - apply Hmono. lia.
  - eapply note_kok; eauto. lia.
  - eapply (notes_kok _ (def s :: targets s)); eauto. lia.
  - apply Forall_insert; [exact Hl|cbn; lia].
  - apply Forall_app. split; [exact Hl|]. repeat constructor. cbn. lia.
  - eapply note_kok; [apply Hmono; lia|eauto|lia].
Qed.

Lemma fail_err f a c : err (fail f a c) <> None.
Proof. unfold fail. destruct (err c) eqn:E; cbn; congruence. Qed.

Lemma push_ok n c : err (push n c) = None -> 0 <= depth c <= maxStack c -> maxStack c <= MaxStack -> 0 <= n <= 65535 ->
  push n c = set_maxStack (Z.max (maxStack c) (depth c + n)) (set_depth (depth c + n) c) /\ err c = None /\ depth c + n <= MaxStack.
Proof.
  unfold MaxStack. intros He Hd Hm Hn. unfold push in *. cbv zeta in *. cbn [depth set_depth maxStack] in *.
  rewrite s32_id in * by lia. unfold MaxStack in *.
  destruct (maxStack c <? depth c + n) eqn:E1; to_Z.
  - destruct (65535 <? depth c + n) eqn:E2; to_Z; [destruct (fail_err _ _ _ He)|]. cbn in He. rewrite Z.max_r by lia. auto.
  - cbn in He. rewrite Z.max_l by lia. split_and!; auto; try lia; destruct c; reflexivity.
Qed.

Lemma pop_ok n c : err (pop n c) = None -> 0 <= depth c <= 65535 -> 0 <= n <= 65536 ->
  pop n c = set_depth (depth c - n) c /\ err c = None /\ n <= depth c.
Proof.
  intros He Hd Hn. unfold pop in *. cbv zeta in *. cbn [depth set_depth] in *. rewrite s32_id in * by lia.
  destruct (depth c - n <? 0) eqn:E; to_Z; cbn in He; [destruct (fail_err _ _ _ He)|]. split_and!; auto. lia.
Qed.

Lemma emitOp_ok o c : err (emitOp o c) = None -> emitOp o c = u1 (u8 o) c /\ err c = None /\ reachable c = true.
Proof.
  unfold emitOp. destruct (reachable c) eqn:E; cbn [negb]; intros He; [auto|destruct (fail_err _ _ _ He)].
Qed.

Lemma useLocal_ok s n c : err (useLocal s n c) = None ->
  exists m, useLocal s n c = set_maxLocals m c /\ err c = None /\ 0 <= s <= 65535.
Proof.
  unfold useLocal, MaxLocals. cbv zeta. repeat bool_case; to_Z; intros He; try destruct (fail_err _ _ _ He); cbn in He.
  - eexists. split; [reflexivity|]. split; [auto|lia].
  - exists (maxLocals c). split_and!; auto; try lia. destruct c; reflexivity.
Qed.

(** [wr r c c']: [c'] is [c] with the bytes [r] appended, as far as the code
    array is concerned, and with no new error. *)
Definition wr (r : bytes) (c c' : CodeWriter) : Prop :=
  err c' = err c /\
  core_of c' = mkCore (w c ++ r) (labels c) (branches c) (switches c) (depth c) (maxStack c) (reachable c) (widen c).

Lemma wr_nil c : wr [] c c.
Proof. split; [reflexivity|]. unfold core_of. rewrite app_nil_r. reflexivity. Qed.
Lemma wr_u1 v c : wr [v] c (u1 v c).
Proof. split; reflexivity. Qed.
Lemma wr_u2 v c : wr (be2 v) c (u2 v c).
Proof. split; reflexivity. Qed.
Lemma wr_u4 v c : wr (be4 v) c (u4 v c).
Proof. split; reflexivity. Qed.
Lemma wr_raw b c : wr b c (set_w (wRaw b (w c)) c).
Proof. split; reflexivity. Qed.
Lemma wr_u2_of m c : exists i, wr (be2 i) c (u2_of m c).
Proof. unfold u2_of, intern_. destruct (m (cp c)) as [i p]. exists i. split; reflexivity. Qed.
Lemma wr_trans r r' c c1 c2 : wr r c c1 -> wr r' c1 c2 -> wr (r ++ r') c c2.
Proof.
  intros [E1 C1] [E2 C2]. split; [congruence|]. rewrite C2. unfold core_of in C1. injection C1 as -> -> -> -> -> -> -> -> . rewrite app_assoc. reflexivity.
Qed.

Lemma push_err n c : err (push n c) = None -> err c = None.
Proof.
  unfold push. cbv zeta. repeat bool_case; intros He; first [destruct (fail_err _ _ _ He) | exact He].
Qed.

(** What a call has to show: no error before it, and a step. *)
Definition stepped (c c' : CodeWriter) : Prop := err c = None /\ exists its, kstep (core_of c) its (core_of c').

Section Plain.
Context (c c1 : CodeWriter) (o : Z) (ops : bytes).
Hypothesis Hwr : wr ops (emitOp o c) c1.
Hypothesis Hok : kok (core_of c).
Hypothesis Hplain : plain_ok (u8 o :: ops).

(** The writer once the instruction is out. *)
Lemma plain_core : err c1 = None ->
  err c = None /\ reachable c = true /\
  core_of c1 = mkCore (w c ++ u8 o :: ops) (labels c) (branches c) (switches c) (depth c) (maxStack c) (reachable c) (widen c) /\
  depth c1 = depth c /\ maxStack c1 = maxStack c.
Proof.
  intros He. destruct Hwr as [E C]. rewrite He in E. symmetry in E. destruct (emitOp_ok o c E) as (Eo & Hc & Hr).
  rewrite Eo in C. cbn in C. unfold wU1 in C. rewrite <- app_assoc in C. cbn in C. split_and!; auto.
  - apply (f_equal kdepth) in C. exact C.
  - apply (f_equal kmax) in C. exact C.
Qed.

Lemma done_none : err c1 = None -> stepped c c1.
Proof.
  intros He. destruct (plain_core He) as (Hc & Hr & C & _). split; [exact Hc|].
  destruct Hok as (H1 & H2 & _). eexists. rewrite C, Hr.
  apply (K_plain (core_of c) (u8 o :: ops) (depth c) (maxStack c) true); cbn in *; auto; lia.
Qed.

Lemma done_push n : err (push n c1) = None -> 0 <= n <= 65535 -> stepped c (push n c1).
Proof.
  intros He Hn. pose proof (push_err _ _ He) as He1. destruct (plain_core He1) as (Hc & Hr & C & Ed & Em). split; [exact Hc|].
  destruct Hok as (H1 & H2 & _). cbn in H1, H2. destruct (push_ok n c1 He) as (-> & _ & Hle); [lia..|]. eexists.
  assert (E : core_of (set_maxStack (Z.max (maxStack c1) (depth c1 + n)) (set_depth (depth c1 + n) c1)) =
    mkCore (w c ++ u8 o :: ops) (labels c) (branches c) (switches c) (depth c + n) (Z.max (maxStack c) (depth c + n)) true (widen c)).
  { rewrite Ed, Em. unfold core_of in C |- *. cbn. injection C as -> -> -> -> _ _ -> ->. rewrite Hr. reflexivity. }
  rewrite E. apply (K_plain (core_of c) (u8 o :: ops)); cbn in *; auto; lia.
Qed.

Lemma pop_err n c0 : err (pop n c0) = None -> err c0 = None.
Proof. unfold pop. cbv zeta. bool_case; intros He; first [destruct (fail_err _ _ _ He) | exact He]. Qed.

Lemma done_pop n : err (pop n c1) = None -> 0 <= n <= 65536 -> stepped c (pop n c1).
Proof.
  intros He Hn. pose proof (pop_err _ _ He) as He1. destruct (plain_core He1) as (Hc & Hr & C & Ed & Em). split; [exact Hc|].
  destruct Hok as (H1 & H2 & _). unfold MaxStack in H2. cbn in H1, H2. destruct (pop_ok n c1 He) as (-> & _ & Hle); [lia..|]. eexists.
  assert (E : core_of (set_depth (depth c1 - n) c1) =
    mkCore (w c ++ u8 o :: ops) (labels c) (branches c) (switches c) (depth c - n) (maxStack c) true (widen c)).
  { rewrite Ed. unfold core_of in C |- *. cbn. injection C as -> -> -> -> _ -> -> ->. rewrite Hr. reflexivity. }
  rewrite E. apply (K_plain (core_of c) (u8 o :: ops)); cbn in *; unfold MaxStack; auto; lia.
Qed.

(** The general case: popping, pushing, and perhaps ending the flow. *)
Lemma done_pop_push a b (f : bool) : err (push b (pop a c1)) = None -> 0 <= a <= 65536 -> 0 <= b <= 65535 ->
  stepped c (if f then push b (pop a c1) else terminate (push b (pop a c1))).
Proof.
  intros He Ha Hb. pose proof (push_err _ _ He) as Hp. pose proof (pop_err _ _ Hp) as He1.
  destruct (plain_core He1) as (Hc & Hr & C & Ed & Em). split; [exact Hc|].
  destruct Hok as (H1 & H2 & _). unfold MaxStack in H2. cbn in H1, H2. destruct (pop_ok a c1 Hp) as (Ep & _ & Hle); [lia..|].
  rewrite Ep in *. destruct (push_ok b _ He) as (-> & _ & Hle2); cbn; unfold MaxStack in *; [lia..|].
  set (d := depth c1 - a + b). eexists.
  assert (E : core_of (if f then set_maxStack (Z.max (maxStack c1) d) (set_depth d (set_depth (depth c1 - a) c1))
      else terminate (set_maxStack (Z.max (maxStack c1) d) (set_depth d (set_depth (depth c1 - a) c1)))) =
    mkCore (w c ++ u8 o :: ops) (labels c) (branches c) (switches c) d (Z.max (maxStack c) d) f (widen c)).
  { unfold core_of in C |- *. injection C as E1 E2 E3 E4 _ _ E5 E6. destruct f; cbn; rewrite E1, E2, E3, E4, E6, Em; [rewrite E5, Hr|]; reflexivity. }
  rewrite E. apply (K_plain (core_of c) (u8 o :: ops)); cbn in *; unfold MaxStack, d in *; auto; lia.
Qed.
End Plain.

(** *** Complete instructions, recognised by computation *)

Definition plainb (o n : Z) : bool :=
  Valid o && negb (o =? Op.Wide) && (0 <=? OpLen o) && (n =? OpLen o) && negb (bool_decide (OpKind o = Branch2)) &&
  negb (bool_decide (OpKind o = Branch4)).

Lemma plain_by o ops : 0 <= o < 256 -> bytes_ok ops -> plainb o (1 + len ops) = true -> plain_ok (u8 o :: ops).
Proof.
  intros Ho Hb H. rewrite u8_id by exact Ho. split; [apply bytes_ok_cons; auto|]. left. exists o, ops.
  unfold plainb in H. repeat (apply andb_prop in H as [H ?]). to_Z. rewrite !bool_decide_eq_false in *. rewrite len_cons. auto 10.
Qed.

Lemma wide_by o ops : OpKind o = Local \/ OpKind o = IincK -> 0 <= o < 256 -> bytes_ok ops ->
  len ops = (if o =? Iinc then 4 else 2) -> plain_ok (u8 Op.Wide :: u8 o :: ops).
Proof.
  intros Hk Ho Hb Hl. rewrite (u8_id o) by exact Ho. change (u8 Op.Wide) with Op.Wide.
  split; [rewrite !bytes_ok_cons; split_and!; auto; unfold Op.Wide; lia|]. right. exists o, ops. split_and!; auto.
  rewrite !len_cons, Hl. destruct (o =? Iinc); reflexivity.
Qed.

(** ** Every call is a step *)

Lemma u8_ok v : bytes_ok [u8 v].
Proof. apply bytes_ok_cons. split; [apply u8_range|constructor]. Qed.
#[local] Hint Resolve u8_ok be2_ok be4_ok u8_range : core.

(** What the loads and stores need of their two opcodes. *)
Definition local_pair (general compact : Z) : bool :=
  is_byte general && bool_decide (OpKind general = Local) && plainb general 2 && negb (general =? Iinc) &&
  (0 <=? compact) && (compact + 3 <? 256) && forallb (fun k => plainb (compact + k) 1) [0; 1; 2; 3].

(** A local instruction: the bytes are a whole instruction after [emitOp]. *)
Lemma localOp_wr general compact slot width c :
  local_pair general compact = true -> err (localOp general compact slot width c) = None ->
  exists c0 o ops, err c0 = err c /\ core_of c0 = core_of c /\ wr ops (emitOp o c0) (localOp general compact slot width c) /\
    plain_ok (u8 o :: ops).
Proof.
  intros Hp He. unfold local_pair, is_byte in Hp. repeat (apply andb_prop in Hp as [Hp ?]). to_Z.
  match goal with H : bool_decide _ = true |- _ => apply bool_decide_eq_true in H end.
  unfold localOp in *. cbv zeta in *. destruct (err (useLocal slot width c)) eqn:Eu; [congruence|].
  destruct (useLocal_ok _ _ _ Eu) as (m & -> & Hc & Hs). exists (set_maxLocals m c).
  destruct (slot <? 4) eqn:E1; to_Z.
  - exists (u8 (compact + u8 slot)), []. split_and!; try reflexivity; [apply wr_nil|].
    match goal with H : forallb _ _ = true |- _ => rewrite forallb_forall in H; rename H into Hf end.
    rewrite (u8_id slot) by lia. rewrite (u8_id (compact + slot)) by lia. apply plain_by; [lia|constructor|]. apply Hf.
    cbn [In]. lia.
  - destruct (slot <? 256) eqn:E2; to_Z.
    + exists general, [u8 slot]. split_and!; try reflexivity; [apply wr_u1|]. apply plain_by; auto.
    + exists Op.Wide, (u8 general :: be2 (u16 slot)). split_and!; try reflexivity.
      * apply (wr_trans [u8 general] (be2 (u16 slot)) _ (u1 (u8 general) (emitOp Op.Wide (set_maxLocals m c)))); [apply wr_u1|apply wr_u2].
      * apply wide_by; auto. rewrite (proj2 (Z.eqb_neq general Iinc)) by lia. reflexivity.
Qed.

Lemma stepped_core c c0 c' : err c0 = err c -> core_of c0 = core_of c -> stepped c0 c' -> stepped c c'.
Proof. intros E C [H1 H2]. rewrite E in H1. rewrite C in H2. split; auto. Qed.

Lemma step_load general compact slot width c :
  local_pair general compact = true -> 0 <= width <= 2 -> kok (core_of c) ->
  err (load general compact slot width c) = None -> stepped c (load general compact slot width c).
Proof.
  intros Hp Hw Hk He. unfold load in *. pose proof (push_err _ _ He) as He1.
  destruct (localOp_wr _ _ _ _ _ Hp He1) as (c0 & o & ops & E & C & Hwr & Hplain).
  apply (stepped_core c c0); auto. apply (done_push c0 _ o ops); auto; [rewrite C; exact Hk|lia].
Qed.

Lemma step_store general compact slot width c :
  local_pair general compact = true -> 0 <= width <= 2 -> kok (core_of c) ->
  err (store general compact slot width c) = None -> stepped c (store general compact slot width c).
Proof.
  intros Hp Hw Hk He. unfold store in *. pose proof (pop_err _ _ He) as He1.
  destruct (localOp_wr _ _ _ _ _ Hp He1) as (c0 & o & ops & E & C & Hwr & Hplain).
  apply (stepped_core c c0); auto. apply (done_pop c0 _ o ops); auto; [rewrite C; exact Hk|lia].
Qed.

Lemma step_Iinc slot delta c : kok (core_of c) -> err (Iinc_ slot delta c) = None -> stepped c (Iinc_ slot delta c).
Proof.
  intros Hk He. unfold Iinc_ in *. cbv zeta in *. destruct (err (useLocal slot 1 c)) eqn:Eu; [congruence|].
  destruct (useLocal_ok _ _ _ Eu) as (m & Em & Hc & Hs). rewrite Em in *. clear Eu Em.
  apply (stepped_core c (set_maxLocals m c)); auto.
  destruct ((delta <? -32768) || (32767 <? delta)); [destruct (fail_err _ _ _ He)|].
  destruct ((slot <? 256) && (-128 <=? delta) && (delta <=? 127)).
  - apply (done_none _ _ Iinc [u8 slot; u8 (s8 delta)]); auto.
    + apply (wr_trans [u8 slot] [u8 (s8 delta)] _ (u1 (u8 slot) (emitOp Iinc (set_maxLocals m c)))); apply wr_u1.
    + apply plain_by; [unfold Iinc; lia|rewrite !bytes_ok_cons; auto with mocha|reflexivity].
  - apply (done_none _ _ Op.Wide (u8 Iinc :: be2 (u16 slot) ++ be2 (u16 (s16 delta)))); auto.
    + apply (wr_trans [u8 Iinc] (be2 (u16 slot) ++ be2 (u16 (s16 delta))) _ (u1 (u8 Iinc) (emitOp Op.Wide (set_maxLocals m c)))); [apply wr_u1|].
      eapply wr_trans; apply wr_u2.
    + apply wide_by; [right; reflexivity|unfold Iinc; lia|apply bytes_ok_app; auto|reflexivity].
Qed.

(** [plain_table] proves that an opcode with the operands at hand is a whole instruction. *)
Ltac plain_table :=
  apply plain_by; [vm_compute; split; congruence|rewrite ?bytes_ok_app, ?bytes_ok_cons; auto with mocha|reflexivity].

Lemma step_ldc idx wide c : kok (core_of c) -> err (ldc idx wide c) = None -> stepped c (ldc idx wide c).
Proof.
  intros Hk He. unfold ldc in *. destruct wide; [|destruct (idx <? 256)].
  - apply (done_push c _ Ldc2W (be2 idx)); auto; [apply wr_u2|plain_table|lia].
  - apply (done_push c _ Ldc [u8 idx]); auto; [apply wr_u1|plain_table|lia].
  - apply (done_push c _ LdcW (be2 idx)); auto; [apply wr_u2|plain_table|lia].
Qed.

Lemma step_ldc_of m wide c : kok (core_of c) -> err (ldc_of m wide c) = None -> stepped c (ldc_of m wide c).
Proof.
  unfold ldc_of, intern_. destruct (m (cp c)) as [i p]. intros Hk He.
  apply (stepped_core c (set_cp p c)); auto. apply step_ldc; auto.
Qed.

(** An instruction without operands that only pushes. *)
Lemma step_push_op o n c : kok (core_of c) -> is_byte o && plainb o 1 = true -> 0 <= n <= 65535 ->
  err (push n (emitOp o c)) = None -> stepped c (push n (emitOp o c)).
Proof.
  intros Hk Ho Hn He. unfold is_byte in Ho. repeat (apply andb_prop in Ho as [Ho ?]). to_Z.
  apply (done_push c _ o []); auto; [apply wr_nil|]. apply plain_by; auto. constructor.
Qed.

Lemma step_Iconst v c : kok (core_of c) -> err (Iconst v c) = None -> stepped c (Iconst v c).
Proof.
  intros Hk He. unfold Iconst in *.
  destruct ((-1 <=? v) && (v <=? 5)) eqn:E1; [|destruct ((-128 <=? v) && (v <=? 127)) eqn:E2; [|destruct ((-32768 <=? v) && (v <=? 32767)) eqn:E3]].
  - to_Z. apply step_push_op; auto; [|lia].
    assert (v = -1 \/ v = 0 \/ v = 1 \/ v = 2 \/ v = 3 \/ v = 4 \/ v = 5) as Hv by lia. decompose [or] Hv; subst; reflexivity.
  - apply (done_push c _ Bipush [u8 (s8 v)]); auto; [apply wr_u1|plain_table|lia].
  - apply (done_push c _ Sipush (be2 (u16 (s16 v)))); auto; [apply wr_u2|plain_table|lia].
  - apply step_ldc_of; auto.
Qed.

Lemma step_Lconst v c : kok (core_of c) -> err (Lconst v c) = None -> stepped c (Lconst v c).
Proof.
  intros Hk He. unfold Lconst in *. destruct ((v =? 0) || (v =? 1)) eqn:E; [|apply step_ldc_of; auto].
  to_Z. apply step_push_op; auto; [|lia]. destruct E as [E|E]; to_Z; subst; reflexivity.
Qed.

Lemma step_Fconst v c : kok (core_of c) -> err (Fconst v c) = None -> stepped c (Fconst v c).
Proof.
  intros Hk. unfold Fconst. repeat bool_case; intros He; first [apply step_ldc_of; auto | apply step_push_op; auto; lia].
Qed.

Lemma step_Dconst v c : kok (core_of c) -> err (Dconst v c) = None -> stepped c (Dconst v c).
Proof.
  intros Hk. unfold Dconst. repeat bool_case; intros He; first [apply step_ldc_of; auto | apply step_push_op; auto; lia].
Qed.

Lemma step_Cconst s c : kok (core_of c) -> err (Cconst s c) = None -> stepped c (Cconst s c).
Proof. intros Hk. unfold Cconst. bool_case; intros He; [destruct (fail_err _ _ _ He)|apply step_ldc_of; auto]. Qed.

Definition field_op (o : Z) : bool := existsb (Z.eqb o) [Getstatic; Putstatic; Getfield; Putfield].

Lemma step_field o owner n d c : field_op o = true -> kok (core_of c) -> err (field o owner n d c) = None -> stepped c (field o owner n d c).
Proof.
  intros Ho Hk. unfold field. destruct (ParseField d) as [t|e]; [|intros He; destruct (fail_err _ _ _ He)]. cbv zeta.
  pose proof (Slots_range t) as Hs. destruct (wr_u2_of (FieldRef owner n d) (emitOp o c)) as (i & Hwr).
  unfold field_op in Ho. cbn [existsb] in Ho. repeat (apply orb_prop in Ho as [Ho|Ho]); try discriminate; apply Z.eqb_eq in Ho; subst o;
    (assert (Hp : forall o, plainb o 3 = true -> 0 <= o < 256 -> plain_ok (u8 o :: be2 i)) by (intros; apply plain_by; auto)).
  - change (Getstatic =? Getstatic) with true. cbv iota. intros He.
    apply (done_push c _ Getstatic (be2 i)); auto; [apply Hp; [reflexivity|unfold Getstatic; lia]|lia].
  - change (Putstatic =? Getstatic) with false. change (Putstatic =? Putstatic) with true. cbv iota. intros He.
    apply (done_pop c _ Putstatic (be2 i)); auto; [apply Hp; [reflexivity|unfold Putstatic; lia]|lia].
  - change (Getfield =? Getstatic) with false. change (Getfield =? Putstatic) with false. change (Getfield =? Getfield) with true.
    cbv iota. intros He. apply (done_pop_push c _ Getfield (be2 i) Hwr Hk) with (f := true); auto; [apply Hp; [reflexivity|unfold Getfield; lia]|lia|lia].
  - change (Putfield =? Getstatic) with false. change (Putfield =? Putstatic) with false. change (Putfield =? Getfield) with false.
    change (Putfield =? Putfield) with true. cbv iota. intros He. rewrite s32_id in * by lia.
    apply (done_pop c _ Putfield (be2 i)); auto; [apply Hp; [reflexivity|unfold Putfield; lia]|lia].
Qed.

Definition invoke_op (o : Z) : bool := existsb (Z.eqb o) [Invokevirtual; Invokespecial; Invokestatic; Invokeinterface].

Lemma step_invoke o owner n d c : invoke_op o = true -> kok (core_of c) -> err (invoke o owner n d c) = None -> stepped c (invoke o owner n d c).
Proof.
  intros Ho Hk. unfold invoke. destruct (ParseMethod d) as [m|e]; [|intros He; destruct (fail_err _ _ _ He)]. cbv zeta.
  destruct (CheckArgSlots m (negb (o =? Invokestatic))) as [e|] eqn:Ec; [intros He; destruct (fail_err _ _ _ He)|].
  apply CheckArgSlots_none in Ec. pose proof (Slots_range (Desc.Ret m)) as Hs.
  unfold MaxArgSlots in Ec.
  rewrite s32_id by lia. intros He. revert He. destruct (o =? Invokeinterface) eqn:Ei; to_Z; intros He.
  - subst o. destruct (wr_u2_of (InterfaceMethodRef owner n d) (emitOp Invokeinterface c)) as (i & Hwr).
    refine (done_pop_push c _ Invokeinterface (be2 i ++ [u8 (ArgSlots m (negb (Invokeinterface =? Invokestatic)))] ++ [0]) _ Hk _ _ _ true He _ _); [| |lia|lia].
    + eapply wr_trans; [exact Hwr|]. eapply wr_trans; apply wr_u1.
    + apply plain_by; [unfold Invokeinterface; lia| |reflexivity]. apply bytes_ok_app. split; [auto|]. apply bytes_ok_app. split; [auto|].
      apply bytes_ok_cons. split; [lia|constructor].
  - destruct (wr_u2_of (MethodRef owner n d) (emitOp o c)) as (i & Hwr).
    refine (done_pop_push c _ o (be2 i) Hwr Hk _ _ _ true He _ _); [|lia|lia].
    unfold invoke_op in Ho. cbn [existsb] in Ho. repeat (apply orb_prop in Ho as [Ho|Ho]); try discriminate; apply Z.eqb_eq in Ho; subst o;
      try (exfalso; apply Ei; reflexivity); plain_table.
Qed.

Lemma step_New s c : kok (core_of c) -> err (New_ s c) = None -> stepped c (New_ s c).
Proof.
  intros Hk He. unfold New_ in *. destruct (wr_u2_of (Class_ s) (emitOp New c)) as (i & Hwr).
  apply (done_push c _ New (be2 i)); auto; [plain_table|lia].
Qed.

Lemma step_ANewArray s c : kok (core_of c) -> err (ANewArray s c) = None -> stepped c (ANewArray s c).
Proof.
  intros Hk He. unfold ANewArray in *. destruct (wr_u2_of (Class_ s) (emitOp Anewarray c)) as (i & Hwr).
  refine (done_pop_push c _ Anewarray (be2 i) Hwr Hk _ _ _ true He _ _); [plain_table|lia|lia].
Qed.

Lemma ArrayTypeName_range t : ArrayTypeName t <> EmptyString -> 0 <= t < 256.
Proof.
  unfold ArrayTypeName, TBoolean, TChar, TFloat, TDouble, TByte, TShort, TInt, TLong.
  repeat bool_case; to_Z; intros H; try lia. contradiction.
Qed.

Lemma step_NewArray t c : kok (core_of c) -> err (NewArray t c) = None -> stepped c (NewArray t c).
Proof.
  intros Hk. unfold NewArray. pose proof (ArrayTypeName_range t) as Ht. destruct (ArrayTypeName t) eqn:E; intros He; [destruct (fail_err _ _ _ He)|].
  refine (done_pop_push c _ Newarray [t] _ Hk _ _ _ true He _ _); [apply wr_u1| |lia|lia].
  apply plain_by; [vm_compute; split; congruence| |reflexivity]. apply bytes_ok_cons. split; [apply Ht; discriminate|constructor].
Qed.

Lemma step_MultiANewArray d n c : kok (core_of c) -> err (MultiANewArray d n c) = None -> stepped c (MultiANewArray d n c).
Proof.
  intros Hk. unfold MultiANewArray. destruct ((n <? 1) || (255 <? n)) eqn:En; [intros He; destruct (fail_err _ _ _ He)|]. to_Z.
  destruct (ParseField d) as [t|e]; [|intros He; destruct (fail_err _ _ _ He)].
  destruct (Dims t <? n); [intros He; destruct (fail_err _ _ _ He)|]. rewrite s32_id by lia. intros He.
  destruct (wr_u2_of (Class_ d) (emitOp Multianewarray c)) as (i & Hwr).
  refine (done_pop_push c _ Multianewarray (be2 i ++ [u8 n]) _ Hk _ _ _ true He _ _); [|plain_table|lia|lia].
  eapply wr_trans; [exact Hwr|apply wr_u1].
Qed.

Lemma step_class_op o s c : is_byte o && plainb o 3 = true -> kok (core_of c) ->
  err (u2_of (Class_ s) (emitOp o c)) = None -> stepped c (u2_of (Class_ s) (emitOp o c)).
Proof.
  intros Ho Hk He. unfold is_byte in Ho. repeat (apply andb_prop in Ho as [Ho ?]). to_Z.
  destruct (wr_u2_of (Class_ s) (emitOp o c)) as (i & Hwr). apply (done_none c _ o (be2 i)); auto. apply plain_by; auto.
Qed.

Lemma simpleDelta_range o : 0 <= o < 256 -> OpKind o = NoneK ->
  fst (simpleDelta o) <= 6 /\ 0 <= snd (simpleDelta o) <= 6 /\ plainb o 1 = true.
Proof.
  intros Ho Hk.
  pose (P := fun o => implb (bool_decide (OpKind o = NoneK))
    ((fst (simpleDelta o) <=? 6) && (0 <=? snd (simpleDelta o)) && (snd (simpleDelta o) <=? 6) && plainb o 1)).
  assert (P o = true) as H by (apply byte_forall; [vm_compute; reflexivity|exact Ho]). subst P. cbv beta in H.
  rewrite bool_decide_eq_true_2 in H by exact Hk. cbn [implb] in H. repeat (apply andb_prop in H as [H ?]). to_Z. auto.
Qed.

Lemma step_Op o c : 0 <= o < 256 -> kok (core_of c) -> err (Op_ o c) = None -> stepped c (Op_ o c).
Proof.
  intros Ho Hk. unfold Op_. case_bool_decide as Hkind; cbn [negb]; [|intros He; destruct (fail_err _ _ _ He)]. cbv zeta.
  destruct (simpleDelta_range o Ho Hkind) as (H1 & H2 & H3).
  destruct (fst (simpleDelta o) <? 0) eqn:Ed; to_Z; intros He; [destruct (fail_err _ _ _ He)|].
  assert (He' : err (push (snd (simpleDelta o)) (pop (fst (simpleDelta o)) (emitOp o c))) = None) by (destruct (Terminates o); exact He).
  assert (Hp : plain_ok [u8 o]) by (apply plain_by; auto; constructor).
  destruct (Terminates o).
  - refine (done_pop_push c _ o [] (wr_nil _) Hk Hp _ _ false He' _ _); lia.
  - refine (done_pop_push c _ o [] (wr_nil _) Hk Hp _ _ true He' _ _); lia.
Qed.

Lemma step_Return c : kok (core_of c) -> err (Return_ c) = None -> stepped c (Return_ c).
Proof.
  intros Hk. unfold Return_.
  repeat case_match; intros He; first [destruct (fail_err _ _ _ He) | apply step_Op; auto; vm_compute; split; congruence].
Qed.

(** *** Labels *)

Lemma noteDepth_ok l c c' : noteDepth l c = Some c' -> err c' = None ->
  exists ls, note (depth c) l (labels c) = Some ls /\ c' = set_labels ls c /\ err c = None.
Proof.
  unfold noteDepth, note. destruct (labels c !! l) as [lb|] eqn:El; [|discriminate]. cbn. intros [= <-].
  destruct (ldepth lb <? 0); [intros He; eauto|]. destruct (ldepth lb =? depth c); cbn [negb]; intros He.
  - exists (labels c). split_and!; auto. destruct c; reflexivity.
  - destruct (fail_err _ _ _ He).
Qed.

Lemma noteDepths_ok ts c c' : noteDepths ts c = Some c' -> err c' = None ->
  exists ls, notes (depth c) ts (labels c) = Some ls /\ c' = set_labels ls c /\ err c = None.
Proof.
  revert c. induction ts as [|t ts IH]; intros c E He; cbn in E.
  - injection E as <-. exists (labels c). split_and!; auto. destruct c; reflexivity.
  - destruct (noteDepth t c) as [c1|] eqn:E1; [|discriminate]. cbn in E. destruct (IH _ E He) as (ls & E2 & -> & He1).
    destruct (noteDepth_ok _ _ _ E1 He1) as (ls1 & En & -> & Hc). exists ls. cbn. rewrite En. cbn. cbn in E2. auto.
Qed.

Lemma branch_ops_byte o : o ∈ branch_ops -> 0 <= o < 256.
Proof. unfold branch_ops. rewrite !elem_of_cons, elem_of_nil. intros H. decompose [or] H; subst; try contradiction; vm_compute; split; congruence. Qed.

Lemma branch_core o l pops c c' :
  o ∈ branch_ops -> 0 <= pops <= 2 -> kok (core_of c) -> branch_ o l pops c = Some c' -> err c' = None ->
  let b := mkBranch (len (branches c)) o l (len (w c)) (bool_decide (len (branches c) ∈ widen c)) in
  err c = None /\ reachable c = true /\ pops <= depth c /\ exists ls, note (depth c - pops) l (labels c) = Some ls /\
    core_of c' = mkCore (w c ++ branch_bytes b) ls (branches c ++ [b]) (switches c) (depth c - pops) (maxStack c) true (widen c).
Proof.
  intros Ho Hp Hk. unfold branch_. cbv zeta. destruct (noteDepth l (pop pops c)) as [c1|] eqn:E1; [|discriminate]. cbn [mbind option_bind].
  intros [= <-] He. cbn [err set_branches] in He.
  assert (Hw : exists r, wr r c1 (if negb (bool_decide (len (branches c) ∈ widen c)) then u2 0 (emitOp o c1)
     else if o =? Goto then u4 0 (emitOp GotoW c1) else u4 0 (u1 (u8 GotoW) (u2 8 (emitOp (invert o) c1)))) /\
     r = branch_bytes (mkBranch (len (branches c)) o l (len (w c)) (bool_decide (len (branches c) ∈ widen c))) /\
     err c1 = None /\ reachable c1 = true).
  { unfold branch_bytes. cbn [bwide bop]. destruct (negb _); [|destruct (o =? Goto)].
    - destruct (emitOp_ok o c1) as (E & Hc & Hr); [exact He|]. rewrite E. eexists. split_and!; [|reflexivity|auto|auto].
      eapply wr_trans; [apply wr_u1|apply wr_u2].
    - destruct (emitOp_ok GotoW c1) as (E & Hc & Hr); [exact He|]. rewrite E. eexists. split_and!; [|reflexivity|auto|auto].
      eapply wr_trans; [apply wr_u1|apply wr_u4].
    - destruct (emitOp_ok (invert o) c1) as (E & Hc & Hr); [exact He|]. rewrite E. eexists. split_and!; [|reflexivity|auto|auto].
      eapply wr_trans; [apply wr_u1|]. eapply wr_trans; [apply wr_u2|]. eapply wr_trans; [apply wr_u1|apply wr_u4]. }
  destruct Hw as (r & [_ Hcore] & Hr & Hc1 & Hreach). destruct (noteDepth_ok _ _ _ E1 Hc1) as (ls & En & Ec1 & Hpe). subst c1.
  destruct Hk as ((Hd0 & Hd1) & Hm & _). unfold MaxStack in Hm. cbn in Hd0, Hd1, Hm.
  destruct (pop_ok pops c Hpe) as (Ep & Hc & Hle); [lia..|]. rewrite Ep in *. cbn in Hreach, En.
  split_and!; auto. exists ls. split; [exact En|]. rewrite <- Hr. unfold core_of in Hcore |- *.
  injection Hcore as H1 H2 H3 H4 H5 H6 H7 H8. cbn. rewrite H1, H2, H3, H4, H5, H6, H7, H8. cbn. rewrite Hreach. reflexivity.
Qed.

(** The item a branch at [c] emits. *)
Definition branch_at (o : Z) (l : nat) (c : CodeWriter) : branch :=
  mkBranch (len (branches c)) o l (len (w c)) (bool_decide (len (branches c) ∈ widen c)).

Lemma if_item o l pops c c' :
  o ∈ branch_ops -> o <> Goto -> 0 <= pops <= 2 -> kok (core_of c) -> branch_ o l pops c = Some c' -> err c' = None ->
  err c = None /\ kstep (core_of c) [mkItem (Br (branch_at o l c)) (depth c) (depth c - pops) true] (core_of c').
Proof.
  intros Ho Hg Hp Hk E He. destruct (branch_core _ _ _ _ _ Ho Hp Hk E He) as (Hc & Hr & Hle & ls & En & ->). split; [exact Hc|].
  fold (branch_at o l c). assert (true = negb (bop (branch_at o l c) =? Goto)) as -> by (cbn; rewrite (proj2 (Z.eqb_neq _ _)) by exact Hg; reflexivity).
  apply (K_branch (core_of c) (branch_at o l c)); cbn; auto. lia.
Qed.

Lemma goto_item l c c' : kok (core_of c) -> Goto_ l c = Some c' -> err c' = None ->
  err c = None /\ kstep (core_of c) [mkItem (Br (branch_at Goto l c)) (depth c) (depth c - 0) false] (core_of c').
Proof.
  intros Hk. unfold Goto_. destruct (branch_ Goto l 0 c) as [c1|] eqn:E; [|discriminate]. cbn. intros [= <-] He.
  destruct (branch_core Goto l 0 c c1) as (Hc & Hr & Hle & ls & En & Ec); auto; [apply list_elem_of_here|lia|]. split; [exact Hc|].
  fold (branch_at Goto l c) in Ec.
  assert (core_of (terminate c1) = mkCore (w c ++ branch_bytes (branch_at Goto l c)) ls (branches c ++ [branch_at Goto l c]) (switches c) (depth c - 0)
    (maxStack c) (negb (bop (branch_at Goto l c) =? Goto)) (widen c)) as ->.
  { unfold core_of in Ec |- *. injection Ec as H1 H2 H3 H4 H5 H6 H7 H8. cbn. rewrite H1, H2, H3, H4, H5, H6, H8. reflexivity. }
  apply (K_branch (core_of c) (branch_at Goto l c)); cbn; auto; [lia|apply list_elem_of_here].
Qed.

Lemma stepped_item c c' its : err c = None /\ kstep (core_of c) its (core_of c') -> stepped c c'.
Proof. intros [H1 H2]. split; eauto. Qed.

(** *** Switches *)

Lemma wr_table_body pad low high ts c :
  wr (replicate (Z.to_nat pad) 0 ++ be4 0 ++ be4 (u32 low) ++ be4 (u32 high) ++ concat (map (fun _ => be4 0) ts)) c
    (table_body pad low high ts c).
Proof.
  unfold table_body. cbv zeta. eapply wr_trans; [apply wr_raw|]. eapply wr_trans; [apply wr_u4|]. eapply wr_trans; [apply wr_u4|].
  eapply wr_trans; [apply wr_u4|apply wr_raw].
Qed.

Lemma wr_lookup_body pad cases c :
  wr (replicate (Z.to_nat pad) 0 ++ be4 0 ++ be4 (u32 (len cases)) ++ concat (map (fun x => be4 (u32 (fst x)) ++ be4 0) cases)) c
    (lookup_body pad cases c).
Proof.
  unfold lookup_body. cbv zeta. eapply wr_trans; [apply wr_raw|]. eapply wr_trans; [apply wr_u4|]. eapply wr_trans; [apply wr_u4|apply wr_raw].
Qed.

(** What the two switches share: notes, the opcode, a body, the record. *)
Lemma switch_item s keys r c c1 c2 c3 d ts :
  kok (core_of c) -> noteDepth d (pop 1 c) = Some c1 -> noteDepths ts c1 = Some c2 ->
  wr r (emitOp (sop s) c2) c3 -> err c3 = None ->
  sat s = len (w c) -> spad s = switch_pad (len (w c)) -> def s = d -> targets s = ts ->
  switch_bytes s keys = [u8 (sop s)] ++ r -> keys_ok s keys ->
  err c = None /\ kstep (core_of c) [mkItem (Sw s keys) (depth c) (depth c - 1) false] (core_of (terminate (set_switches (switches c3 ++ [s]) c3))).
Proof.
  intros Hk N1 N2 [Ew Cw] He Hs1 Hs2 Hs3 Hs4 Hb Hkeys. rewrite He in Ew. symmetry in Ew.
  destruct (emitOp_ok _ c2 Ew) as (Eo & He2 & Hr). rewrite Eo in Cw.
  destruct (noteDepths_ok _ _ _ N2 He2) as (ls & En2 & -> & He1). destruct (noteDepth_ok _ _ _ N1 He1) as (ls1 & En1 & -> & Hep).
  destruct Hk as ((Hd0 & Hd1) & Hm & _). unfold MaxStack in Hm. cbn in Hd0, Hd1, Hm.
  destruct (pop_ok 1 c Hep) as (Ep & Hc & Hle); [lia..|]. rewrite Ep in *. cbn in Hr, En1, En2.
  split; [exact Hc|].
  assert (core_of (terminate (set_switches (switches c3 ++ [s]) c3)) =
    mkCore (w c ++ switch_bytes s keys) ls (branches c) (switches c ++ [s]) (depth c - 1) (maxStack c) false (widen c)) as ->.
  { rewrite Hb, app_assoc. unfold core_of in Cw |- *. injection Cw as H1 H2 H3 H4 H5 H6 H7 H8. cbn. rewrite H1, H2, H3, H4, H5, H6, H8.
    reflexivity. }
  apply (K_switch (core_of c)); cbn; auto; [lia|]. rewrite Hs3, Hs4, En1. exact En2.
Qed.

Definition table_at (d : nat) (ts : list nat) (c : CodeWriter) : switchRec :=
  mkSwitch Tableswitch (len (w c)) (switch_pad (len (w c))) d ts.

Lemma table_item low high d ts c c' :
  -2147483648 <= low < 2147483648 -> -2147483648 <= high < 2147483648 ->
  kok (core_of c) -> TableSwitch low high d ts c = Some c' -> err c' = None ->
  err c = None /\ kstep (core_of c) [mkItem (Sw (table_at d ts c) [low; high]) (depth c) (depth c - 1) false] (core_of c').
Proof.
  intros Hlow Hhigh Hk. unfold TableSwitch. destruct (high <? low) eqn:E1; to_Z; [intros [= <-] He; destruct (fail_err _ _ _ He)|].
  destruct (high - low + 1 =? len ts) eqn:E2; to_Z; cbn [negb]; [|intros [= <-] He; destruct (fail_err _ _ _ He)]. cbv zeta.
  destruct (noteDepth d (pop 1 c)) as [c1|] eqn:N1; [|discriminate]. cbn [mbind option_bind].
  destruct (noteDepths ts c1) as [c2|] eqn:N2; [|discriminate]. cbn [mbind option_bind]. intros [= <-] He.
  apply (switch_item (table_at d ts c) [low; high] _ c c1 c2
    (table_body (switch_pad (len (w c))) low high ts (emitOp Tableswitch c2)) d ts Hk N1 N2 (wr_table_body _ _ _ _ _)); auto.
  split; [repeat constructor; lia|]. left. split; [reflexivity|]. exists low, high. cbn [targets]. auto.
Qed.

Definition case_le (x y : Z * nat) : Prop := fst x <= fst y.

Lemma insert_case_perm x l : Permutation (insert_case x l) (x :: l).
Proof.
  induction l as [|y l IH]; cbn; [reflexivity|]. bool_case; [|reflexivity]. rewrite IH. apply Permutation_swap.
Qed.

Lemma sort_cases_perm l : Permutation (sort_cases l) l.
Proof. induction l as [|x l IH]; cbn; [reflexivity|]. rewrite insert_case_perm, IH. reflexivity. Qed.

Lemma insert_case_sorted x l : StronglySorted case_le l -> StronglySorted case_le (insert_case x l).
Proof.
  unfold case_le. induction 1 as [|y l Hs IH Hy]; cbn; [repeat constructor|]. bool_case; to_Z.
  - constructor; [exact IH|]. rewrite Forall_forall in *. intros z Hz. apply list_elem_of_In in Hz.
    apply (Permutation_in _ (insert_case_perm x l)) in Hz. destruct Hz as [<-|Hz]; [lia|]. apply Hy, list_elem_of_In, Hz.
  - constructor; [constructor; auto|]. constructor; [lia|]. eapply Forall_impl; [exact Hy|]. cbn. lia.
Qed.

Lemma sort_cases_sorted l : StronglySorted case_le (sort_cases l).
Proof. induction l as [|x l IH]; cbn; [constructor|]. apply insert_case_sorted, IH. Qed.

Lemma duplicate_none l : StronglySorted case_le l -> duplicate l = None -> StronglySorted Z.lt (map fst l).
Proof.
  intros Hs. induction Hs as [|x l Hs IH Hx]; [constructor|]. intros Hd. destruct l as [|y l]; [repeat constructor|].
  cbn [duplicate] in Hd. destruct (fst y =? fst x) eqn:E; [discriminate|]. to_Z. specialize (IH Hd).
  apply Forall_cons in Hx as [Hxy Hx]. unfold case_le in Hxy. cbn [map] in *. constructor; [exact IH|].
  inversion IH as [|? ? _ Hy]; subst. constructor; [lia|]. eapply Forall_impl; [exact Hy|]. cbn. lia.
Qed.

Definition lookup_at (d : nat) (cases : list (Z * nat)) (c : CodeWriter) : switchRec :=
  mkSwitch Lookupswitch (len (w c)) (switch_pad (len (w c))) d (map snd cases).

Lemma lookup_item d ms ts c c' :
  Forall (fun m => -2147483648 <= m < 2147483648) ms ->
  kok (core_of c) -> LookupSwitch d ms ts c = Some c' -> err c' = None ->
  let cases := sort_cases (combine ms ts) in
  err c = None /\ kstep (core_of c) [mkItem (Sw (lookup_at d cases c) (map fst cases)) (depth c) (depth c - 1) false] (core_of c').
Proof.
  intros Hms Hk. unfold LookupSwitch. destruct (len ms =? len ts) eqn:E1; to_Z; cbn [negb]; [|intros [= <-] He; destruct (fail_err _ _ _ He)].
  cbv zeta. set (cases := sort_cases (combine ms ts)). destruct (duplicate cases) as [m|] eqn:Ed; [intros [= <-] He; destruct (fail_err _ _ _ He)|].
  destruct (noteDepth d (pop 1 c)) as [c1|] eqn:N1; [|discriminate]. cbn [mbind option_bind].
  destruct (noteDepths (map snd cases) c1) as [c2|] eqn:N2; [|discriminate]. cbn [mbind option_bind]. intros [= <-] He.
  apply (switch_item (lookup_at d cases c) (map fst cases) _ c c1 c2
    (lookup_body (switch_pad (len (w c))) cases (emitOp Lookupswitch c2)) d (map snd cases) Hk N1 N2 (wr_lookup_body _ _ _)); auto.
  - unfold switch_bytes, lookup_at. cbn [sop spad targets]. change (Lookupswitch =? Tableswitch) with false. cbv iota.
    unfold len. rewrite length_map, map_map. reflexivity.
  - assert (Hp : Permutation cases (combine ms ts)) by apply sort_cases_perm. split.
    + apply Forall_map. rewrite Hp. clear - Hms. revert ts. induction Hms as [|m ms Hm _ IH]; intros [|t ts]; constructor; cbn; auto.
    + right. split; [reflexivity|]. unfold lookup_at. cbn [targets]. split; [unfold len; rewrite !length_map; reflexivity|].
      apply duplicate_none; [apply sort_cases_sorted|exact Ed].
Qed.

(** *** Marks, handlers, and all the calls together *)

Lemma step_Mark l c c' : kok (core_of c) -> Mark l c = Some c' -> err c' = None -> stepped c c'.
Proof.
  intros Hk. unfold Mark. destruct (labels c !! l) as [lb|] eqn:El; [|discriminate]. cbn [mbind option_bind]. intros [= <-].
  destruct (0 <=? pc lb) eqn:Ep; to_Z; [intros He; destruct (fail_err _ _ _ He)|]. cbv zeta.
  destruct Hk as (Hd & Hm & Hl). rewrite Forall_lookup in Hl. specialize (Hl _ _ El). cbn in Hl, Hd.
  destruct (0 <=? ldepth lb) eqn:Ed; to_Z.
  - cbn [reachable depth set_label set_labels]. destruct (reachable c && negb (depth c =? ldepth lb)) eqn:Er; intros He; [destruct (fail_err _ _ _ He)|].
    split; [exact He|]. eexists. apply (K_mark (core_of c) l lb (ldepth lb)); cbn; auto; [|lia].
    intros Hr. rewrite Hr in Er. cbn in Er. to_Z. auto.
  - cbn [reachable set_label set_labels]. destruct (reachable c) eqn:Er; intros He; [|destruct (fail_err _ _ _ He)].
    split; [exact He|]. eexists. unfold core_of at 2. cbn. rewrite list_insert_insert_eq.
    apply (K_mark (core_of c) l lb (depth c)); cbn; auto; lia.
Qed.

Lemma step_TryCatch lo hi h t c c' : kok (core_of c) -> TryCatch lo hi h t c = Some c' -> err c' = None -> stepped c c'.
Proof.
  intros Hk. unfold TryCatch. cbn [labels set_handlers]. destruct (labels c !! h) as [lb|] eqn:El; [|discriminate]. cbn [mbind option_bind].
  set (c1 := if ldepth lb <? 0 then _ else _).
  assert (H1 : forall c2, err c2 = None -> c2 = c1 \/ c2 = set_maxStack 1 c1 -> err c = None /\ exists ls, note 1 h (labels c) = Some ls /\
     core_of c1 = mkCore (w c) ls (branches c) (switches c) (depth c) (maxStack c) (reachable c) (widen c)).
  { intros c2 He Hc2. assert (He1 : err c1 = None) by (destruct Hc2; subst c2; exact He). unfold note. rewrite El. cbn [mbind option_bind].
    revert He1. unfold c1. destruct (ldepth lb <? 0); [intros He1; split; [exact He1|]; eexists; split; reflexivity|].
    destruct (ldepth lb =? 1); cbn [negb]; intros He1; [split; [exact He1|]; eexists; split; reflexivity|destruct (fail_err _ _ _ He1)]. }
  intros [= <-] He. destruct Hk as (Hd & Hm & _). cbn in Hd, Hm.
  destruct (H1 _ He) as (Hc & ls & En & Ec); [destruct (maxStack c1 <? 1); auto|]. split; [exact Hc|]. eexists.
  assert (Emax : maxStack c1 = maxStack c) by (apply (f_equal kmax) in Ec; exact Ec).
  destruct (maxStack c1 <? 1) eqn:E1; to_Z.
  - assert (core_of (set_maxStack 1 c1) = mkCore (w c) ls (branches c) (switches c) (depth c) 1 (reachable c) (widen c)) as ->.
    { unfold core_of in Ec |- *. injection Ec as E2 E3 E4 E5 E6 E7 E8 E9. cbn. congruence. }
    apply (K_handler (core_of c) h); auto; [lia|cbn; unfold MaxStack; lia].
  - rewrite Ec. apply (K_handler (core_of c) h); auto; cbn; lia.
Qed.

(** The values Go's types allow the arguments of a call. *)
Definition cmd_ok (x : cmd) : Prop :=
  match x with
  | COp o => 0 <= o < 256
  | CTableSwitch low high _ _ => -2147483648 <= low < 2147483648 /\ -2147483648 <= high < 2147483648
  | CLookupSwitch _ ms _ => Forall (fun m => -2147483648 <= m < 2147483648) ms
  | _ => True
  end.

Lemma step_same c c' : kok (core_of c) -> core_of c' = core_of c -> err c' = err c -> err c' = None -> stepped c c'.
Proof.
  intros (Hd & Hm & _) Hc He He'. split; [congruence|]. exists []. rewrite Hc.
  apply (K_same (core_of c) (maxStack c)). cbn in *. lia.
Qed.

Lemma run_if_branch k l c : exists o pops, run_if k l c = branch_ o l pops c /\ o ∈ branch_ops /\ o <> Goto /\ 0 <= pops <= 2.
Proof.
  destruct k; cbn [run_if];
    first [unfold IfEq|unfold IfNe|unfold IfLt|unfold IfGe|unfold IfGt|unfold IfLe|unfold IfICmpEq|unfold IfICmpNe|unfold IfICmpLt
      |unfold IfICmpGe|unfold IfICmpGt|unfold IfICmpLe|unfold IfACmpEq|unfold IfACmpNe|unfold IfNull|unfold IfNonNull];
    (eexists _, _; split; [reflexivity|]; split; [unfold branch_ops; rewrite !elem_of_cons; tauto|split; [discriminate|lia]]).
Qed.

(** The refinement: a call that sets no error is one step of the assembler. *)
Lemma run_cmd_step x c c' : cmd_ok x -> kok (core_of c) -> run_cmd x c = Some c' -> err c' = None -> stepped c c'.
Proof.
  intros Hx Hk. destruct x; cbn [run_cmd cmd_ok] in *;
    try (let E := fresh "E" in intros E He; injection E as <-; revert He).
  - intros He. split; [exact He|]. exists []. apply (K_new (core_of c)).
  - apply step_Mark, Hk.
  - destruct t; cbn [run_load]; apply step_load; auto; lia.
  - destruct t; cbn [run_store]; apply step_store; auto; lia.
  - apply step_Iinc, Hk.
  - unfold Local_. destruct (ParseField descriptor) as [t|e]; [|intros He; destruct (fail_err _ _ _ He)].
    bool_case; intros He; [destruct (fail_err _ _ _ He)|]. apply step_same; auto.
  - apply step_Iconst, Hk.
  - apply step_Lconst, Hk.
  - apply step_Fconst, Hk.
  - apply step_Dconst, Hk.
  - apply step_ldc_of, Hk.
  - apply step_Cconst, Hk.
  - apply step_push_op; auto; lia.
  - destruct a; cbn [run_field]; apply step_field; auto.
  - destruct k; cbn [run_invoke]; apply step_invoke; auto.
  - apply step_New, Hk.
  - apply step_ANewArray, Hk.
  - apply step_NewArray, Hk.
  - apply step_MultiANewArray, Hk.
  - apply step_class_op; auto.
  - apply step_class_op; auto.
  - apply step_Op; auto. unfold Athrow. lia.
  - apply step_Op; auto.
  - apply step_Return, Hk.
  - intros E He. eapply stepped_item, goto_item; eauto.
  - destruct (run_if_branch k l c) as (o & pops & -> & Ho & Hg & Hp). intros E He. eapply stepped_item, (if_item o); eauto.
  - intros E He. eapply stepped_item, table_item; eauto; tauto.
  - intros E He. eapply stepped_item, lookup_item; eauto.
  - apply step_TryCatch, Hk.
  - intros He. apply step_same; auto.
Qed.

(** Steps in sequence. *)
Inductive ksteps : core -> list item -> core -> Prop :=
  | ks_nil k : ksteps k [] k
  | ks_snoc k1 its k2 its' k3 : ksteps k1 its k2 -> kstep k2 its' k3 -> ksteps k1 (its ++ its') k3.

(** ** The first error stays

    Nothing but [fail] touches the error, so a hint per primitive is enough. *)

Create HintDb sticky.

Section Sticky.
Context (e : goerror).
Implicit Types c : CodeWriter.

Lemma st_fail f a c : err c = Some e -> err (fail f a c) = Some e.
Proof. unfold fail. intros H. rewrite H. exact H. Qed.
Lemma st_emitOp o c : err c = Some e -> err (emitOp o c) = Some e.
Proof. unfold emitOp. bool_case; auto using st_fail. Qed.
Lemma st_push n c : err c = Some e -> err (push n c) = Some e.
Proof. unfold push. cbv zeta. intros H. repeat bool_case; auto. apply st_fail, H. Qed.
Lemma st_pop n c : err c = Some e -> err (pop n c) = Some e.
Proof. unfold pop. cbv zeta. intros H. repeat bool_case; auto. cbn [err set_depth]. apply st_fail, H. Qed.
Lemma st_useLocal s n c : err c = Some e -> err (useLocal s n c) = Some e.
Proof. unfold useLocal. cbv zeta. intros H. repeat bool_case; auto using st_fail. Qed.
Lemma st_u1 v c : err c = Some e -> err (u1 v c) = Some e.
Proof. auto. Qed.
Lemma st_u2 v c : err c = Some e -> err (u2 v c) = Some e.
Proof. auto. Qed.
Lemma st_u4 v c : err c = Some e -> err (u4 v c) = Some e.
Proof. auto. Qed.
Lemma st_u2_of m c : err c = Some e -> err (u2_of m c) = Some e.
Proof. unfold u2_of, intern_. destruct (m (cp c)). auto. Qed.
Lemma st_terminate c : err c = Some e -> err (terminate c) = Some e.
Proof. auto. Qed.
Hint Resolve st_fail st_emitOp st_push st_pop st_useLocal st_u1 st_u2 st_u4 st_u2_of st_terminate : sticky.

Lemma st_localOp g k s n c : err c = Some e -> err (localOp g k s n c) = Some e.
Proof. intros H. unfold localOp. cbv zeta. rewrite (st_useLocal _ _ _ H). auto with sticky. Qed.
Lemma st_ldc i b c : err c = Some e -> err (ldc i b c) = Some e.
Proof. intros H. unfold ldc. repeat bool_case; auto with sticky. Qed.
Hint Resolve st_localOp st_ldc : sticky.
Lemma st_ldc_of m b c : err c = Some e -> err (ldc_of m b c) = Some e.
Proof. intros H. unfold ldc_of, intern_. destruct (m (cp c)). apply st_ldc, H. Qed.
Hint Resolve st_ldc_of : sticky.
Lemma st_Op o c : err c = Some e -> err (Op_ o c) = Some e.
Proof. intros H. unfold Op_. cbv zeta. repeat bool_case; auto 6 with sticky. Qed.
Hint Resolve st_Op : sticky.

Lemma st_noteDepth l c c' : noteDepth l c = Some c' -> err c = Some e -> err c' = Some e.
Proof.
  unfold noteDepth. destruct (labels c !! l); [|discriminate]. cbn. intros [= <-] H. repeat bool_case; auto with sticky.
Qed.
Lemma st_noteDepths ts c c' : noteDepths ts c = Some c' -> err c = Some e -> err c' = Some e.
Proof.
  revert c. induction ts as [|t ts IH]; intros c E H; cbn in E; [congruence|].
  destruct (noteDepth t c) eqn:E1; [|discriminate]. eapply IH; [exact E|]. eapply st_noteDepth; eauto.
Qed.

Lemma st_branch o l n c c' : branch_ o l n c = Some c' -> err c = Some e -> err c' = Some e.
Proof.
  unfold branch_. cbv zeta. intros E H. destruct (noteDepth l (pop n c)) as [c1|] eqn:E1; [|discriminate]. cbn in E. injection E as <-.
  assert (err c1 = Some e) by (eapply st_noteDepth; eauto with sticky). cbn [err set_branches]. repeat bool_case; auto with sticky.
Qed.

Lemma st_run_cmd x c c' : run_cmd x c = Some c' -> err c = Some e -> err c' = Some e.
Proof.
  intros E H. destruct x; cbn [run_cmd] in E; try (injection E as <-).
  - exact H.
  - unfold Mark in E. destruct (labels c !! l); [|discriminate]. cbn [mbind option_bind] in E. injection E as <-. cbv zeta.
    repeat bool_case; try apply st_fail; exact H.
  - destruct t; apply st_push, st_localOp, H.
  - destruct t; apply st_pop, st_localOp, H.
  - unfold Iinc_. cbv zeta. rewrite (st_useLocal _ _ _ H). auto with sticky.
  - unfold Local_. destruct (ParseField descriptor); [|auto with sticky]. repeat bool_case; auto with sticky.
  - unfold Iconst. repeat bool_case; auto with sticky.
  - unfold Lconst. repeat bool_case; auto with sticky.
  - unfold Fconst. repeat bool_case; auto with sticky.
  - unfold Dconst. repeat bool_case; auto with sticky.
  - apply st_ldc_of, H.
  - unfold Cconst. repeat bool_case; auto with sticky.
  - unfold AconstNull_. auto with sticky.
  - destruct a; cbn [run_field]; unfold GetStatic, PutStatic, GetField, PutField, field;
      (destruct (ParseField descriptor); [|auto with sticky]); cbv zeta; repeat bool_case; auto with sticky.
  - destruct k; cbn [run_invoke]; unfold InvokeVirtual, InvokeSpecial, InvokeStatic, InvokeInterface, invoke;
      (destruct (ParseMethod descriptor); [|auto with sticky]); cbv zeta; (destruct (CheckArgSlots _ _); [auto with sticky|]);
      repeat bool_case; auto 8 with sticky.
  - unfold New_. auto with sticky.
  - unfold ANewArray. auto with sticky.
  - unfold NewArray. destruct (ArrayTypeName typeCode); auto with sticky.
  - unfold MultiANewArray. bool_case; [auto with sticky|]. destruct (ParseField descriptor); [|auto with sticky]. bool_case; auto 8 with sticky.
  - unfold CheckCast. auto with sticky.
  - unfold InstanceOf. auto with sticky.
  - unfold Throw. auto with sticky.
  - auto with sticky.
  - unfold Return_. repeat case_match; auto with sticky.
  - unfold Goto_ in E. destruct (branch_ Goto l 0 c) eqn:Eb; [|discriminate]. cbn in E. injection E as <-. apply (st_branch _ _ _ _ _ Eb H).
  - destruct (run_if_branch k l c) as (o & pops & Eb & _). rewrite Eb in E. apply (st_branch _ _ _ _ _ E H).
  - unfold TableSwitch in E. destruct (high <? low); [injection E as <-; auto with sticky|].
    destruct (negb _); [injection E as <-; auto with sticky|]. cbv zeta in E.
    destruct (noteDepth _ _) as [c1|] eqn:E1; [|discriminate]. cbn [mbind option_bind] in E.
    destruct (noteDepths targets c1) as [c2|] eqn:E2; [|discriminate]. cbn [mbind option_bind] in E. injection E as <-.
    apply (st_emitOp Tableswitch c2). eapply st_noteDepths; eauto. eapply st_noteDepth; eauto with sticky.
  - unfold LookupSwitch in E. destruct (negb _); [injection E as <-; auto with sticky|]. cbv zeta in E.
    destruct (duplicate _); [injection E as <-; auto with sticky|].
    destruct (noteDepth _ _) as [c1|] eqn:E1; [|discriminate]. cbn [mbind option_bind] in E.
    destruct (noteDepths _ c1) as [c2|] eqn:E2; [|discriminate]. cbn [mbind option_bind] in E. injection E as <-.
    apply (st_emitOp Lookupswitch c2). eapply st_noteDepths; eauto. eapply st_noteDepth; eauto with sticky.
  - unfold TryCatch in E. cbn [labels set_handlers] in E. destruct (labels c !! handler); [|discriminate]. cbn [mbind option_bind] in E.
    injection E as <-. repeat bool_case; cbn [err set_maxStack]; try apply st_fail; exact H.
  - exact H.
Qed.

Lemma st_run body c c' : run body c = Some c' -> err c = Some e -> err c' = Some e.
Proof.
  revert c. induction body as [|x body IH]; intros c E H; cbn in E; [congruence|].
  destruct (run_cmd x c) as [c1|] eqn:E1; [|discriminate]. cbn in E. eapply IH; [exact E|]. eapply st_run_cmd; eauto.
Qed.
End Sticky.

Lemma ksteps_app k1 its k2 its' k3 : ksteps k1 its k2 -> ksteps k2 its' k3 -> ksteps k1 (its ++ its') k3.
Proof.
  intros H1 H2. revert its k1 H1. induction H2 as [|k1' i1 k2' i2 k3' _ IH Hs]; intros its k1 H1.
  - rewrite app_nil_r. exact H1.
  - rewrite app_assoc. eapply ks_snoc; [apply IH, H1|exact Hs].
Qed.

Lemma ksteps_one k its k' : kstep k its k' -> ksteps k its k'.
Proof. intros H. change its with ([] ++ its). eapply ks_snoc; [constructor|exact H]. Qed.

Lemma kstep_len k its k' : kstep k its k' -> (length its <= 1)%nat.
Proof. destruct 1; cbn; lia. Qed.

(** A body that sets no error is a sequence of steps. *)
Lemma run_steps body c c' :
  Forall cmd_ok body -> kok (core_of c) -> run body c = Some c' -> err c' = None ->
  err c = None /\ kok (core_of c') /\ exists its, ksteps (core_of c) its (core_of c') /\ (length its <= length body)%nat.
Proof.
  revert c. induction body as [|x body IH]; intros c Hb Hk E He; cbn in E.
  - injection E as <-. split_and!; auto. exists []. split; [constructor|auto].
  - apply Forall_cons in Hb as [Hx Hb]. destruct (run_cmd x c) as [c1|] eqn:E1; [|discriminate]. cbn in E.
    assert (He1 : err c1 = None) by (destruct (err c1) eqn:Ec1; [rewrite (st_run _ _ _ _ E Ec1) in He; discriminate|reflexivity]).
    destruct (run_cmd_step x c c1 Hx Hk E1 He1) as (Hc & its1 & Hs). pose proof (kstep_kok _ _ _ Hs Hk) as Hk1.
    destruct (IH c1 Hb Hk1 E He) as (_ & Hk' & its2 & Hs2 & Hl). split_and!; auto. exists (its1 ++ its2).
    split; [eapply ksteps_app; [apply ksteps_one, Hs|exact Hs2]|]. pose proof (kstep_len _ _ _ Hs). rewrite length_app. cbn. lia.
Qed.

(** ** What the steps assemble *)

Definition brs (its : list item) : list branch :=
  flat_map (fun i => match body i with Br b => [b] | _ => [] end) its.
Definition sws (its : list item) : list switchRec :=
  flat_map (fun i => match body i with Sw s _ => [s] | _ => [] end) its.

(** The offset of the [n]-th instruction. *)
Definition offset (its : list item) (n : nat) : Z := len (bytes_of (take n its)).

(** The labels an instruction may jump to. *)
Definition jumps (i : item) : list nat :=
  match body i with Plain _ => [] | Br b => [label b] | Sw s _ => def s :: targets s end.

(** Instruction [i] is well-formed at offset [o]. *)
Definition item_ok (o : Z) (i : item) : Prop :=
  match body i with
  | Plain r => plain_ok r
  | Br b => bop b ∈ branch_ops /\ bat b = o /\ falls i = negb (bop b =? Goto)
  | Sw s keys => keys_ok s keys /\ sat s = o /\ spad s = switch_pad o /\ falls i = false
  end.

(** A label, placed before the [n]-th instruction: control reaches it, and
    falls into it, at its recorded depth. *)
Definition placed (its : list item) (k : core) (lb : Label) (n : nat) : Prop :=
  (n <= length its)%nat /\ pc lb = s32 (offset its n) /\ 0 <= ldepth lb /\
  (forall i, its !! n = Some i -> pre i = ldepth lb) /\ (n = length its -> kreach k = true /\ kdepth k = ldepth lb).

Record inv (its : list item) (k : core) : Prop := {
  inv_bytes : kw k = bytes_of its;
  inv_brs : kbranches k = brs its;
  inv_sws : kswitches k = sws its;
  inv_items : forall n i, its !! n = Some i -> item_ok (offset its n) i;
  inv_depth : forall n i, its !! n = Some i -> 0 <= pre i <= kmax k /\ 0 <= post i <= kmax k;
  inv_labels : forall l lb, klabels k !! l = Some lb -> pc lb = -1 \/ exists n, placed its k lb n;
  inv_jumps : forall n i l, its !! n = Some i -> l ∈ jumps i -> exists lb, klabels k !! l = Some lb /\ ldepth lb = post i;
  inv_falls : forall n a, its !! n = Some a -> falls a = true ->
    match its !! S n with Some b => pre b = post a | None => kreach k = true /\ kdepth k = post a end;
  inv_first : match its !! 0%nat with Some a => pre a = 0 | None => kreach k = true /\ kdepth k = 0 end }.

(** [note] moves no label and changes no recorded depth. *)
Definition noted (d : Z) (ls ls' : list Label) : Prop :=
  forall l lb', ls' !! l = Some lb' -> exists lb, ls !! l = Some lb /\ pc lb' = pc lb /\ (ldepth lb' = ldepth lb \/ ldepth lb < 0).

Lemma note_noted d l ls ls' : note d l ls = Some ls' -> 0 <= d ->
  noted d ls ls' /\ (forall l lb, ls !! l = Some lb -> exists lb', ls' !! l = Some lb' /\ (0 <= ldepth lb -> ldepth lb' = ldepth lb)) /\
  exists lb', ls' !! l = Some lb' /\ ldepth lb' = d.
Proof.
  unfold note, noted. destruct (ls !! l) as [lb|] eqn:E; [|discriminate]. cbn. pose proof (lookup_lt_Some _ _ _ E) as Hlt.
  destruct (ldepth lb <? 0) eqn:E1; to_Z.
  - intros [= <-] Hd. split_and!.
    + intros l' lb' H. destruct (decide (l' = l)) as [->|Hne].
      * rewrite list_lookup_insert_eq in H by exact Hlt. injection H as <-. exists lb. cbn. auto.
      * rewrite list_lookup_insert_ne in H by auto. exists lb'. auto.
    + intros l' lb' H. destruct (decide (l' = l)) as [->|Hne].
      * rewrite list_lookup_insert_eq by exact Hlt. eexists. split; [reflexivity|]. cbn. intros. rewrite H in E. injection E as ->. lia.
      * rewrite list_lookup_insert_ne by auto. eauto.
    + exists (mkLabel (pc lb) d). rewrite list_lookup_insert_eq by exact Hlt. auto.
  - destruct (ldepth lb =? d) eqn:E2; to_Z; [|discriminate]. intros [= <-] Hd. split_and!; eauto.
Qed.

Lemma notes_noted d ts ls ls' : notes d ts ls = Some ls' -> 0 <= d ->
  noted d ls ls' /\ (forall l lb, ls !! l = Some lb -> exists lb', ls' !! l = Some lb' /\ (0 <= ldepth lb -> ldepth lb' = ldepth lb)) /\
  forall l, l ∈ ts -> exists lb', ls' !! l = Some lb' /\ ldepth lb' = d.
Proof.
  revert ls. induction ts as [|t ts IH]; intros ls E Hd; cbn in E.
  - injection E as <-. split_and!; [intros l lb H; eauto|eauto|]. intros l H. apply elem_of_nil in H. contradiction.
  - destruct (note d t ls) as [ls1|] eqn:E1; [|discriminate]. cbn in E. destruct (note_noted _ _ _ _ E1 Hd) as (N1 & K1 & lb1 & L1 & D1).
    destruct (IH _ E Hd) as (N2 & K2 & L2). split_and!.
    + intros l lb2 H2. destruct (N2 _ _ H2) as (lb & H1 & Hp & Hd2). destruct (N1 _ _ H1) as (lb0 & H0 & Hp0 & Hd0). exists lb0.
      split_and!; auto; [congruence|]. destruct Hd0; [|auto]. destruct Hd2; [left; congruence|right; congruence].
    + intros l lb H. destruct (K1 _ _ H) as (lb2 & H2 & Hk2). destruct (K2 _ _ H2) as (lb3 & H3 & Hk3). exists lb3. split; [exact H3|].
      intros H0. specialize (Hk2 H0). rewrite Hk3; lia.
    + intros l Hl. apply elem_of_cons in Hl as [->|Hl]; [|apply L2, Hl]. destruct (K2 _ _ L1) as (lb2 & H2 & Hk2). exists lb2.
      split; [exact H2|]. rewrite Hk2; lia.
Qed.

Lemma bytes_of_app a b : bytes_of (a ++ b) = bytes_of a ++ bytes_of b.
Proof. unfold bytes_of. rewrite map_app, concat_app. reflexivity. Qed.
Lemma brs_app a b : brs (a ++ b) = brs a ++ brs b.
Proof. apply flat_map_app. Qed.
Lemma sws_app a b : sws (a ++ b) = sws a ++ sws b.
Proof. apply flat_map_app. Qed.
Lemma offset_app its x n : (n <= length its)%nat -> offset (its ++ x) n = offset its n.
Proof. intros H. unfold offset. rewrite take_app_le by exact H. reflexivity. Qed.
Lemma offset_all its : offset its (length its) = len (bytes_of its).
Proof. unfold offset. rewrite firstn_all. reflexivity. Qed.

(** An instruction is added at the end. *)
Lemma inv_emit its k i k' :
  inv its k -> kok k -> kreach k = true -> pre i = kdepth k -> post i = kdepth k' -> kreach k' = falls i ->
  0 <= kdepth k' <= kmax k' -> kmax k <= kmax k' ->
  kw k' = kw k ++ ibytes (body i) -> kbranches k' = kbranches k ++ brs [i] -> kswitches k' = kswitches k ++ sws [i] ->
  item_ok (len (kw k)) i ->
  noted (kdepth k') (klabels k) (klabels k') ->
  (forall l lb, klabels k !! l = Some lb -> exists lb', klabels k' !! l = Some lb' /\ (0 <= ldepth lb -> ldepth lb' = ldepth lb)) ->
  (forall l, l ∈ jumps i -> exists lb, klabels k' !! l = Some lb /\ ldepth lb = kdepth k') ->
  inv (its ++ [i]) k'.
Proof.
  intros [I1 I2 I3 I4 I5 I6 I7 I8 I9] (Hd & _) Hr Hpre Hpost Hr' Hd' Hm Hw Hb Hs Hok Hnoted Hkeep Hjump.
  assert (Hlast : (its ++ [i]) !! length its = Some i) by (rewrite lookup_app_r, Nat.sub_diag by lia; reflexivity).
  assert (Hcase : forall n j, (its ++ [i]) !! n = Some j -> (n < length its)%nat /\ its !! n = Some j \/ n = length its /\ j = i).
  { intros n j Hj. apply lookup_app_Some in Hj as [Hj|[Hn Hj]]; [left; split; [eapply lookup_lt_Some; eauto|exact Hj]|right].
    destruct (n - length its)%nat eqn:E; cbn in Hj; [|discriminate]. split; [lia|congruence]. }
  split.
  - rewrite Hw, I1, bytes_of_app. unfold bytes_of at 3. cbn. rewrite app_nil_r. reflexivity.
  - rewrite Hb, I2, brs_app. reflexivity.
  - rewrite Hs, I3, sws_app. reflexivity.
  - intros n j Hj. apply Hcase in Hj as [[Hn Hj]|[-> ->]].
    + rewrite offset_app by lia. auto.
    + rewrite offset_app, offset_all, <- I1 by lia. exact Hok.
  - intros n j Hj. apply Hcase in Hj as [[Hn Hj]|[-> ->]]; [specialize (I5 _ _ Hj)|]; lia.
  - intros l lb' Hl. destruct (Hnoted _ _ Hl) as (lb & Hl0 & Hp & Hdep). rewrite Hp.
    destruct (I6 _ _ Hl0) as [E|(n & Hn & Hpc & Hd0 & Hpi & Hend)]; [left; exact E|].
    right. exists n. assert (Ed : ldepth lb' = ldepth lb) by (destruct Hdep; [auto|lia]). unfold placed.
    rewrite length_app, Hp, Ed, offset_app by lia.
    split_and!; auto; [lia| |cbn; lia]. intros j Hj. apply Hcase in Hj as [[Hlt Hj]|[-> ->]]; [auto|].
    rewrite Hpre. apply Hend. reflexivity.
  - intros n j l Hj Hl. apply Hcase in Hj as [[Hn Hj]|[-> ->]].
    + destruct (I7 _ _ _ Hj Hl) as (lb & Hlb & Hdep). destruct (Hkeep _ _ Hlb) as (lb' & Hlb' & Hk'). exists lb'. split; [exact Hlb'|].
      rewrite Hk'; [exact Hdep|]. rewrite Hdep. apply I5 in Hj. lia.
    + rewrite Hpost. apply Hjump, Hl.
  - intros n a Ha Hf. apply Hcase in Ha as [[Hn Ha]|[-> ->]].
    + specialize (I8 _ _ Ha Hf). destruct (decide (S n < length its)%nat) as [Hlt|Hge].
      * rewrite lookup_app_l by exact Hlt. destruct (its !! S n) eqn:E; [exact I8|apply lookup_ge_None in E; lia].
      * assert (S n = length its) as E by lia. rewrite E, Hlast. rewrite lookup_ge_None_2 in I8 by lia. rewrite Hpre. apply I8.
    + rewrite lookup_ge_None_2 by (rewrite length_app; cbn; lia). rewrite Hr', Hf, <- Hpost. auto.
  - destruct its as [|a its]; cbn in I9 |- *; [|exact I9]. rewrite Hpre. apply I9.
Qed.

(** The labels change and nothing is emitted. *)
Lemma inv_quiet its k k' :
  inv its k -> kw k' = kw k -> kbranches k' = kbranches k -> kswitches k' = kswitches k -> kmax k <= kmax k' ->
  (kreach k = true -> kreach k' = true /\ kdepth k' = kdepth k) ->
  (forall l lb, klabels k !! l = Some lb -> exists lb', klabels k' !! l = Some lb' /\ (0 <= ldepth lb -> ldepth lb' = ldepth lb)) ->
  (forall l lb, klabels k' !! l = Some lb -> pc lb = -1 \/ exists n, placed its k' lb n) ->
  inv its k'.
Proof.
  intros [I1 I2 I3 I4 I5 I6 I7 I8 I9] Hw Hb Hs Hm Hr Hkeep Hlab. split; rewrite ?Hw, ?Hb, ?Hs; auto.
  - intros n i Hi. specialize (I5 _ _ Hi). lia.
  - intros n i l Hi Hl. destruct (I7 _ _ _ Hi Hl) as (lb & Hlb & Hdep). destruct (Hkeep _ _ Hlb) as (lb' & Hlb' & Hk'). exists lb'.
    split; [exact Hlb'|]. rewrite Hk'; [exact Hdep|]. rewrite Hdep. apply I5 in Hi. lia.
  - intros n a Ha Hf. specialize (I8 _ _ Ha Hf). destruct (its !! S n); [exact I8|]. destruct I8 as [H1 H2]. destruct (Hr H1). split; congruence.
  - destruct (its !! 0%nat); [exact I9|]. destruct I9 as [H1 H2]. destruct (Hr H1). split; congruence.
Qed.

Lemma placed_noted its k k' lb lb' n : placed its k lb n -> pc lb' = pc lb -> ldepth lb' = ldepth lb ->
  (kreach k = true -> kreach k' = true /\ kdepth k' = kdepth k) -> placed its k' lb' n.
Proof.
  unfold placed. intros (H1 & H2 & H3 & H4 & H5) Hp Hd Hr. rewrite Hp, Hd. split_and!; auto. intros Hn. destruct (H5 Hn) as [H6 H7].
  destruct (Hr H6). split; congruence.
Qed.

Lemma kstep_inv k its' k' its : kstep k its' k' -> kok k -> inv its k -> inv (its ++ its') k'.
Proof.
  intros Hs Hk Hi. pose proof Hk as (Hd & Hmax & Hl).
  assert (Hid : forall d, noted d (klabels k) (klabels k)) by (intros d l lb H; eauto).
  assert (Hid2 : forall l lb, klabels k !! l = Some lb -> exists lb', klabels k !! l = Some lb' /\ (0 <= ldepth lb -> ldepth lb' = ldepth lb)) by eauto.
  destruct Hs.
  - rewrite app_nil_r. apply (inv_quiet its k); cbn; auto; [lia|]. intros l lb Hlb. destruct (inv_labels _ _ Hi _ _ Hlb) as [?|[n Hn]]; auto.
    right. exists n. eapply placed_noted; eauto.
  - apply (inv_emit its k); cbn; auto; try lia.
    + rewrite app_nil_r. reflexivity.
    + rewrite app_nil_r. reflexivity.
    + intros l Hin. apply elem_of_nil in Hin. contradiction.
  - match goal with H : note _ _ _ = _ |- _ => destruct (note_noted _ _ _ _ H) as (N1 & N2 & N3); [lia|] end.
    apply (inv_emit its k); cbn; auto; try lia.
    + rewrite app_nil_r. reflexivity.
    + intros l Hin. apply list_elem_of_singleton in Hin as ->. exact N3.
  - match goal with H : notes _ _ _ = _ |- _ => destruct (notes_noted _ _ _ _ H) as (N1 & N2 & N3); [lia|] end.
    apply (inv_emit its k); cbn; auto; try lia.
    rewrite app_nil_r. reflexivity.
  - rewrite app_nil_r. pose proof (lookup_lt_Some _ _ _ H) as Hlt. apply (inv_quiet its k); cbn; auto; try lia.
    + intros l' lb' H'. destruct (decide (l' = l)) as [->|Hne].
      * rewrite list_lookup_insert_eq by exact Hlt. eexists. split; [reflexivity|]. cbn. rewrite H in H'. injection H' as <-. lia.
      * rewrite list_lookup_insert_ne by auto. eauto.
    + intros l' lb' H'. destruct (decide (l' = l)) as [->|Hne].
      * rewrite list_lookup_insert_eq in H' by exact Hlt. injection H' as <-. right. exists (length its). unfold placed. cbn.
        rewrite offset_all, (inv_bytes _ _ Hi). split_and!; auto; [lia|]. intros i Hlook. apply lookup_lt_Some in Hlook. lia.
      * rewrite list_lookup_insert_ne in H' by auto. destruct (inv_labels _ _ Hi _ _ H') as [?|[n Hn]]; auto.
        right. exists n. eapply placed_noted; eauto.
  - rewrite app_nil_r. apply (inv_quiet its k); cbn; auto; try lia.
    + intros l lb H'. exists lb. split; [apply lookup_app_l_Some, H'|auto].
    + intros l lb H'. apply lookup_app_Some in H' as [H'|[_ H']].
      * destruct (inv_labels _ _ Hi _ _ H') as [?|[n Hn]]; auto. right. exists n. eapply placed_noted; eauto.
      * destruct (l - length (klabels k))%nat; cbn in H'; [|discriminate]. injection H' as <-. auto.
  - rewrite app_nil_r. destruct (note_noted _ _ _ _ H) as (N1 & N2 & N3); [lia|]. apply (inv_quiet its k); cbn; auto; try lia.
    intros l' lb' H'. destruct (N1 _ _ H') as (lb & Hlb & Hp & Hdep). destruct (inv_labels _ _ Hi _ _ Hlb) as [?|[n Hn]]; [left; congruence|].
    right. exists n. eapply placed_noted; eauto. destruct Hdep; [auto|]. destruct Hn as (_ & _ & ? & _). lia.
Qed.

Lemma ksteps_inv k its k' : ksteps k its k' -> kok k -> inv [] k -> inv its k' /\ kok k'.
Proof.
  intros H. induction H as [k|k1 its k2 its' k3 _ IH Hs]; intros Hk Hi; [auto|].
  destruct (IH Hk Hi) as [Hi2 Hk2]. split; [eapply kstep_inv; eauto|eapply kstep_kok; eauto].
Qed.
