(* ===== verification/CodeCorrect.v ===== *)
(** * The offsets of a code array

    [resolve] patches every offset the writer left at zero.  [rend] is what an
    instruction looks like once its labels are known; [resolve_done] says that
    a [resolve] with nothing to widen and no error turns the bytes of the
    abstract assembler's instructions into exactly that, and [next_rend] that
    the iterator of [Code] then reads the instructions, and their labels, back.
    Walking the array it finds the instructions the writer was asked for, in
    order, and every branch and every switch goes to the offset its label was
    placed at. *)
From Stdlib Require Import Sorting.Sorted.
From S2P Require Import Prelude.
From S2P Require Import Desc.
From S2P Require Import Op.
From S2P Require Import Format.
From S2P Require Import ClassIO.
From S2P Require Import PoolBuilder.
From S2P Require Import Code.
From S2P Require Import CodeWriter.
From S2P Require Import CodeProof.

(** ** Resolved instructions *)

Definition pc_of (ls : list Label) (l : nat) : Z := match ls !! l with Some lb => pc lb | None => -1 end.

(** The distance from the instruction at [at0] to a label. *)
Definition dist (ls : list Label) (at0 : Z) (l : nat) : Z := s32 (pc_of ls l - s32 at0).

Definition rbranch (ls : list Label) (b : branch) : bytes :=
  if negb (bwide b) then [u8 (bop b)] ++ be2 (u16 (s16 (dist ls (bat b) (label b))))
  else if bop b =? Goto then [u8 GotoW] ++ be4 (u32 (dist ls (bat b) (label b)))
  else [u8 (invert (bop b))] ++ be2 8 ++ [u8 GotoW] ++ be4 (u32 (s32 (pc_of ls (label b) - s32 (bat b) - 3))).

Definition word (ls : list Label) (s : switchRec) (l : nat) : bytes := be4 (u32 (dist ls (sat s) l)).

Definition switch_table (ls : list Label) (s : switchRec) (keys : list Z) : bytes :=
  if sop s =? Tableswitch then concat (map (word ls s) (targets s))
  else concat (zip_with (fun k t => be4 (u32 k) ++ word ls s t) keys (targets s)).

Definition switch_head (s : switchRec) (keys : list Z) : bytes :=
  if sop s =? Tableswitch then concat (map (fun k => be4 (u32 k)) keys) else be4 (u32 (len keys)).

Definition rswitch (ls : list Label) (s : switchRec) (keys : list Z) : bytes :=
  [u8 (sop s)] ++ replicate (Z.to_nat (spad s)) 0 ++ word ls s (def s) ++ switch_head s keys ++ switch_table ls s keys.

(** [sw]: the switches are resolved as well. *)
Definition rend (ls : list Label) (sw : bool) (i : ibody) : bytes :=
  match i with
  | Plain r => r
  | Br b => rbranch ls b
  | Sw s keys => if sw then rswitch ls s keys else switch_bytes s keys
  end.

Definition rend_of (ls : list Label) (sw : bool) (its : list item) : bytes := concat (map (fun i => rend ls sw (body i)) its).

(** What holds of a label that could be resolved. *)
Definition is_placed (ls : list Label) (l : nat) : Prop := exists lb, ls !! l = Some lb /\ 0 <= pc lb.

Definition fits (ls : list Label) (b : branch) : Prop := bwide b = false -> -32768 <= dist ls (bat b) (label b) <= 32767.

(** ** Branches *)

Lemma set_w_same c : set_w (w c) c = c.
Proof. destruct c; reflexivity. Qed.

Lemma patch2_at A B (x : Z) v off old : off = len A + 1 -> len old = 2 -> patchU2 off v (A ++ ([x] ++ old) ++ B) = Some (A ++ ([x] ++ be2 v) ++ B).
Proof.
  intros -> Ho. unfold patchU2. replace (len A + 1) with (len (A ++ [x])) by (rewrite len_app; reflexivity).
  rewrite <- !app_assoc, (app_assoc A). rewrite patch_mid by (rewrite Ho; reflexivity). rewrite <- app_assoc. reflexivity.
Qed.

Lemma patch4_at A B C v off : off = len A + len C -> patchU4 off v (A ++ (C ++ be4 0) ++ B) = Some (A ++ (C ++ be4 v) ++ B).
Proof.
  intros ->. unfold patchU4. rewrite <- len_app, <- !app_assoc, (app_assoc A), patch_mid by reflexivity.
  rewrite <- app_assoc. reflexivity.
Qed.

Lemma resolve_branch_done b again c c' A B :
  w c = A ++ branch_bytes b ++ B -> bat b = len A -> resolve_branch b again c = Some (Again false, c') ->
  again = false /\ is_placed (labels c) (label b) /\ fits (labels c) b /\ c' = set_w (A ++ rbranch (labels c) b ++ B) c.
Proof.
  intros Hw Hat. unfold resolve_branch, is_placed, fits, rbranch, dist, pc_of. destruct (labels c !! label b) as [lb|] eqn:El; [|discriminate].
  cbn [mbind option_bind]. destruct (pc lb <? 0) eqn:Ep; [discriminate|]. to_Z. cbv zeta. rewrite Hw. unfold branch_bytes.
  destruct (bwide b); cbn [negb andb].
  - destruct (bop b =? Goto); cbv iota.
    + rewrite patch4_at by (rewrite Hat; reflexivity). cbn [mbind option_bind]. intros [= -> <-]. split_and!; eauto. discriminate.
    + rewrite !(app_assoc _ _ (be4 _)). rewrite patch4_at by (rewrite Hat; reflexivity). cbn [mbind option_bind].
      intros [= -> <-]. rewrite <- !app_assoc. split_and!; eauto. discriminate.
  - destruct ((_ <? -32768) || _) eqn:Eo; [discriminate|]. to_Z. rewrite patch2_at by (auto; rewrite Hat; reflexivity). cbn [mbind option_bind].
    intros [= -> <-]. split_and!; eauto; lia.
Qed.

Lemma branch_len ls b : len (rbranch ls b) = len (branch_bytes b).
Proof. unfold rbranch, branch_bytes. repeat bool_case; reflexivity. Qed.

Lemma resolve_branches_again brs again c c' : resolve_branches brs again c = Some (Again false, c') -> again = false.
Proof.
  revert again c. induction brs as [|b brs IH]; intros again c; cbn [resolve_branches]; [congruence|].
  destruct (resolve_branch b again c) as [[[|a] c1]|] eqn:E; cbn; [discriminate| |discriminate]. intros H. apply IH in H as ->.
  revert E. unfold resolve_branch. destruct (labels c !! label b); [|discriminate]. cbn [mbind option_bind].
  repeat bool_case; try discriminate; (destruct (patchU4 _ _ _) || destruct (patchU2 _ _ _)); cbn; congruence.
Qed.

(** Branches of [its] know where they are when [A] comes before. *)
Definition at_ok_br (o : Z) (its : list item) : Prop := forall n i b, its !! n = Some i -> body i = Br b -> bat b = o + offset its n.

Lemma offset_cons i its n : offset (i :: its) (S n) = len (ibytes (body i)) + offset its n.
Proof. unfold offset, bytes_of. cbn. rewrite len_app. reflexivity. Qed.

Lemma at_ok_br_tail o i its : at_ok_br o (i :: its) -> at_ok_br (o + len (ibytes (body i))) its.
Proof. intros H n j b Hj Hb. rewrite (H (S n) j b Hj Hb), offset_cons. lia. Qed.

Lemma resolve_branches_done its A c c' :
  w c = A ++ bytes_of its -> at_ok_br (len A) its -> resolve_branches (brs its) false c = Some (Again false, c') ->
  c' = set_w (A ++ rend_of (labels c) false its) c /\
  Forall (fun b => is_placed (labels c) (label b) /\ fits (labels c) b) (brs its).
Proof.
  revert A c. induction its as [|i its IH]; intros A c Hw Hat H.
  - cbn in H. injection H as <-. split; [|constructor]. unfold rend_of. cbn. rewrite <- (set_w_same c) at 1. rewrite Hw. reflexivity.
  - pose proof (at_ok_br_tail _ _ _ Hat) as Hat'. unfold bytes_of in Hw. cbn [map concat] in Hw.
    unfold brs in *. cbn [flat_map] in *. unfold rend_of. cbn [map concat]. destruct (body i) as [r|b|s keys] eqn:Ei; cbn [app ibytes rend] in *.
    + destruct (IH (A ++ r) c) as (-> & Hf); [rewrite <- app_assoc; exact Hw|rewrite len_app; exact Hat'|exact H|].
      rewrite <- app_assoc. auto.
    + cbn [resolve_branches] in H. destruct (resolve_branch b false c) as [[[|a] c1]|] eqn:E; cbn [mbind option_bind] in H; try discriminate.
      pose proof (resolve_branches_again _ _ _ _ H) as ->.
      assert (Hb : bat b = len A) by (rewrite (Hat 0%nat i b eq_refl Ei); change (offset (i :: its) 0) with 0; lia).
      destruct (resolve_branch_done _ _ _ _ _ _ Hw Hb E) as (_ & Hp & Hfit & ->).
      destruct (IH (A ++ rbranch (labels c) b) (set_w (A ++ rbranch (labels c) b ++ bytes_of its) c)) as (-> & Hf).
      * rewrite <- app_assoc. reflexivity.
      * rewrite len_app, branch_len. exact Hat'.
      * exact H.
      * rewrite <- app_assoc. auto.
    + destruct (IH (A ++ switch_bytes s keys) c) as (-> & Hf); [rewrite <- app_assoc; exact Hw|rewrite len_app; exact Hat'|exact H|].
      rewrite <- app_assoc. auto.
Qed.

(** ** Switches *)

Lemma target_word c s t : is_placed (labels c) t -> exists lb, labels c !! t = Some lb /\ (pc lb <? 0) = false /\
  be4 (u32 (s32 (pc lb - s32 (sat s)))) = word (labels c) s t.
Proof.
  intros (lb & El & Hp). exists lb. unfold word, dist, pc_of. rewrite El. split_and!; auto. apply Z.ltb_ge. lia.
Qed.

Lemma resolve_targets_step t ts i s c c' off D C B :
  off = (if sop s =? Tableswitch then sat s + 1 + spad s + 12 + 4 * i else sat s + 1 + spad s + 8 + 8 * i + 4) ->
  w c = D ++ (C ++ be4 0) ++ B -> off = len D + len C ->
  resolve_targets (t :: ts) i s c = Some (true, c') ->
  is_placed (labels c) t /\ resolve_targets ts (i + 1) s (set_w (D ++ (C ++ word (labels c) s t) ++ B) c) = Some (true, c').
Proof.
  intros Hoff Hw Hd. cbn [resolve_targets]. unfold word, dist, pc_of, is_placed. destruct (labels c !! t) as [lb|] eqn:El; [|discriminate].
  cbn [mbind option_bind]. destruct (pc lb <? 0) eqn:Ep; [discriminate|]. to_Z. cbv zeta. rewrite <- Hoff, Hw, (patch4_at D B C) by exact Hd.
  cbn [mbind option_bind]. intros H. split; eauto.
Qed.

Lemma resolve_targets_table ts i s c c' D B :
  sop s = Tableswitch -> w c = D ++ concat (map (fun _ => be4 0) ts) ++ B -> len D = sat s + 1 + spad s + 12 + 4 * i ->
  resolve_targets ts i s c = Some (true, c') ->
  Forall (is_placed (labels c)) ts /\ c' = set_w (D ++ concat (map (word (labels c) s) ts) ++ B) c.
Proof.
  intros Hs. revert i c D. induction ts as [|t ts IH]; intros i c D Hw Hd H.
  - cbn in H. injection H as <-. split; [constructor|]. cbn in *. rewrite <- Hw, set_w_same. reflexivity.
  - cbn [map concat] in Hw. rewrite <- app_assoc in Hw.
    destruct (resolve_targets_step t ts i s c c' _ D [] (concat (map (fun _ => be4 0) ts) ++ B) eq_refl) as (Hp & H1); auto.
    { rewrite Hs, Z.eqb_refl, len_nil. lia. }
    set (c1 := set_w _ c) in H1. destruct (IH (i + 1) c1 (D ++ word (labels c) s t)) with (3 := H1) as (Hf & ->).
    + cbn. rewrite <- !app_assoc. reflexivity.
    + rewrite len_app, Hd. change (len (word (labels c) s t)) with 4. lia.
    + cbn [labels set_w] in *. split; [constructor; auto|]. cbn [map concat]. rewrite <- !app_assoc. reflexivity.
Qed.

Lemma resolve_targets_lookup ts keys i s c c' D B :
  sop s <> Tableswitch -> length keys = length ts ->
  w c = D ++ concat (map (fun k => be4 (u32 k) ++ be4 0) keys) ++ B -> len D = sat s + 1 + spad s + 8 + 8 * i ->
  resolve_targets ts i s c = Some (true, c') ->
  Forall (is_placed (labels c)) ts /\ c' = set_w (D ++ concat (zip_with (fun k t => be4 (u32 k) ++ word (labels c) s t) keys ts) ++ B) c.
Proof.
  intros Hs. apply Z.eqb_neq in Hs. revert keys i c D. induction ts as [|t ts IH]; intros [|k keys] i c D Hl Hw Hd H; try discriminate.
  - cbn in H. injection H as <-. split; [constructor|]. cbn in *. rewrite <- Hw, set_w_same. reflexivity.
  - cbn [map concat] in Hw. rewrite <- app_assoc in Hw.
    destruct (resolve_targets_step t ts i s c c' _ D (be4 (u32 k)) (concat (map (fun k => be4 (u32 k) ++ be4 0) keys) ++ B) eq_refl)
      as (Hp & H1); auto.
    { rewrite Hs. change (len (be4 (u32 k))) with 4. lia. }
    set (c1 := set_w _ c) in H1. destruct (IH keys (i + 1) c1 (D ++ be4 (u32 k) ++ word (labels c) s t)) with (4 := H1) as (Hf & ->).
    + cbn in Hl. congruence.
    + cbn. rewrite <- !app_assoc. reflexivity.
    + rewrite !len_app, Hd. change (len (word (labels c) s t)) with 4. change (len (be4 (u32 k))) with 4. lia.
    + cbn [labels set_w] in *. split; [constructor; auto|]. cbn [zip_with concat]. rewrite <- !app_assoc. reflexivity.
Qed.

Lemma resolve_switch_done s keys c c' A B :
  keys_ok s keys -> 0 <= spad s -> w c = A ++ switch_bytes s keys ++ B -> sat s = len A -> resolve_switch s c = Some (true, c') ->
  Forall (is_placed (labels c)) (def s :: targets s) /\ c' = set_w (A ++ rswitch (labels c) s keys ++ B) c.
Proof.
  intros [_ Hk] Hpad Hw Hat. unfold resolve_switch, rswitch, word at 1, dist at 1, pc_of at 1.
  destruct (labels c !! def s) as [lb|] eqn:El; [|discriminate].
  cbn [mbind option_bind]. destruct (pc lb <? 0) eqn:Ep; [discriminate|]. to_Z.
  assert (Hd : is_placed (labels c) (def s)) by (exists lb; auto).
  set (P := [u8 (sop s)] ++ replicate (Z.to_nat (spad s)) 0).
  assert (HP : len P = 1 + spad s) by (unfold P; cbn [app]; rewrite len_cons, len_replicate; lia).
  unfold switch_bytes in Hw. set (T := if sop s =? Tableswitch then _ else _ : bytes) in Hw.
  replace (([u8 (sop s)] ++ replicate (Z.to_nat (spad s)) 0 ++ be4 0 ++ T) ++ B) with ((P ++ be4 0) ++ (T ++ B)) in Hw
    by (unfold P; rewrite <- !app_assoc; reflexivity).
  rewrite (app_assoc [u8 (sop s)]). fold P. rewrite Hw, (patch4_at A) by lia. cbn [mbind option_bind]. intros H. subst T.
  set (D := be4 (u32 (s32 (pc lb - s32 (sat s))))) in *.
  set (c1 := set_w _ c) in H. unfold switch_head, switch_table. destruct Hk as [(Hs & low & high & -> & Hlh & Hlen)|(Hs & Hlen & _)].
  - rewrite Hs, Z.eqb_refl in *.
    destruct (resolve_targets_table (targets s) 0 s c1 c' (A ++ P ++ D ++ concat (map (fun k => be4 (u32 k)) [low; high])) B Hs)
      with (3 := H) as (Hf & ->).
    + subst c1. cbn [w set_w]. rewrite Hs, <- !app_assoc. reflexivity.
    + rewrite !len_app, HP. change (len D) with 4. change (len (concat _)) with 8. lia.
    + cbn [labels set_w] in *. split; [constructor; auto|]. rewrite <- !app_assoc. reflexivity.
  - assert (Hne : sop s <> Tableswitch) by (rewrite Hs; discriminate). rewrite (proj2 (Z.eqb_neq _ _) Hne) in *.
    destruct (resolve_targets_lookup (targets s) keys 0 s c1 c' (A ++ P ++ D ++ be4 (u32 (len keys))) B Hne)
      with (4 := H) as (Hf & ->).
    + unfold len in Hlen. lia.
    + subst c1. cbn [w set_w]. rewrite Hs, <- !app_assoc. reflexivity.
    + rewrite !len_app, HP. change (len D) with 4. change (len (be4 (u32 (len keys)))) with 4. lia.
    + cbn [labels set_w] in *. split; [constructor; auto|]. rewrite <- !app_assoc. reflexivity.
Qed.

Lemma resolve_targets_stop ts i s c c' : resolve_targets ts i s c = Some (false, c') -> err c' <> None.
Proof.
  revert i c. induction ts as [|t ts IH]; intros i c; cbn [resolve_targets]; [discriminate|].
  destruct (labels c !! t) as [lb|]; [|discriminate]. cbn [mbind option_bind].
  destruct (pc lb <? 0); [intros [= <-]; apply fail_err|]. cbv zeta. destruct (patchU4 _ _ _); [|discriminate]. apply IH.
Qed.

Lemma resolve_switch_stop s c c' : resolve_switch s c = Some (false, c') -> err c' <> None.
Proof.
  unfold resolve_switch. destruct (labels c !! def s) as [lb|]; [|discriminate]. cbn [mbind option_bind].
  destruct (pc lb <? 0); [intros [= <-]; apply fail_err|]. destruct (patchU4 _ _ _); [|discriminate]. apply resolve_targets_stop.
Qed.

Lemma len_concat_const {A} (f : A -> bytes) n l : (forall x, len (f x) = n) -> len (concat (map f l)) = n * len l.
Proof. intros H. induction l as [|x l IH]; cbn [map concat]; [rewrite !(@len_nil Z), (@len_nil A); lia|]. rewrite len_app, len_cons, H, IH. lia. Qed.

Lemma len_concat_zip {A B} (f : A -> B -> bytes) n l k : (forall x y, len (f x y) = n) -> len l = len k -> len (concat (zip_with f l k)) = n * len l.
Proof.
  intros H. revert k. induction l as [|x l IH]; intros [|y k] E; try (unfold len in E; cbn in E; lia); cbn [zip_with concat].
  - rewrite !(@len_nil Z), (@len_nil A). lia.
  - rewrite !len_cons in E. rewrite len_app, len_cons, H, IH by lia. lia.
Qed.

Lemma switch_len ls s keys : keys_ok s keys -> len (rswitch ls s keys) = len (switch_bytes s keys).
Proof.
  intros [_ Hk]. unfold rswitch, switch_bytes, switch_head, switch_table. rewrite !len_app. change (len (word ls s (def s))) with (len (be4 0)).
  destruct Hk as [(Hs & _)|(Hs & Hl & _)]; rewrite Hs.
  - rewrite Z.eqb_refl, len_app, !(len_concat_const _ 4) by reflexivity. lia.
  - change (Lookupswitch =? Tableswitch) with false. cbv iota.
    rewrite len_app, (len_concat_const _ 8), (len_concat_zip _ 8) by first [reflexivity|lia]. lia.
Qed.

(** Switches of [its] know where they are when [A] comes before. *)
Definition at_ok_sw (o : Z) (its : list item) : Prop :=
  forall n i s keys, its !! n = Some i -> body i = Sw s keys -> sat s = o + offset its n /\ 0 <= spad s /\ keys_ok s keys.

Lemma at_ok_sw_tail o i its : at_ok_sw o (i :: its) -> at_ok_sw (o + len (ibytes (body i))) its.
Proof. intros H n j s keys Hj Hb. destruct (H (S n) j s keys Hj Hb) as (-> & ?). rewrite offset_cons. split; [lia|auto]. Qed.

Lemma resolve_switches_done its A c c' :
  w c = A ++ rend_of (labels c) false its -> at_ok_sw (len A) its -> resolve_switches (sws its) c = Some c' -> err c' = None ->
  c' = set_w (A ++ rend_of (labels c) true its) c /\ err c = None /\
  Forall (fun s => Forall (is_placed (labels c)) (def s :: targets s)) (sws its).
Proof.
  revert A c. induction its as [|i its IH]; intros A c Hw Hat H He.
  - cbn in H. injection H as <-. split_and!; [|exact He|constructor]. unfold rend_of in *. cbn in *. rewrite <- Hw, set_w_same. reflexivity.
  - pose proof (at_ok_sw_tail _ _ _ Hat) as Hat'. unfold rend_of in Hw. cbn [map concat] in Hw.
    unfold sws in *. cbn [flat_map] in *. unfold rend_of. cbn [map concat]. destruct (body i) as [r|b|s keys] eqn:Ei; cbn [app ibytes rend] in *.
    + destruct (IH (A ++ r) c) as (-> & Hf); [rewrite <- app_assoc; exact Hw|rewrite len_app; exact Hat'|exact H|exact He|].
      rewrite <- app_assoc. auto.
    + destruct (IH (A ++ rbranch (labels c) b) c) as (-> & Hf); [rewrite <- app_assoc; exact Hw| |exact H|exact He|].
      { rewrite len_app, branch_len. exact Hat'. }
      rewrite <- app_assoc. auto.
    + cbn [resolve_switches] in H. destruct (resolve_switch s c) as [[[|] c1]|] eqn:E; cbn [mbind option_bind fst snd] in H; [| |discriminate].
      * destruct (Hat 0%nat i s keys eq_refl Ei) as (Hs & Hpad & Hk). change (offset (i :: its) 0) with 0 in Hs. rewrite Z.add_0_r in Hs.
        destruct (resolve_switch_done _ _ _ _ _ _ Hk Hpad Hw Hs E) as (Hp & ->).
        destruct (IH (A ++ rswitch (labels c) s keys) (set_w (A ++ rswitch (labels c) s keys ++ rend_of (labels c) false its) c)) as (-> & He1 & Hf).
        -- rewrite <- app_assoc. reflexivity.
        -- rewrite len_app, switch_len by exact Hk. exact Hat'.
        -- exact H.
        -- exact He.
        -- rewrite <- app_assoc. auto.
      * injection H as <-. destruct (resolve_switch_stop _ _ _ E He).
Qed.

(** ** The whole of [resolve] *)

Lemma inv_at_ok its k : inv its k -> at_ok_br 0 its /\ at_ok_sw 0 its.
Proof.
  intros Hi. split; intros n i.
  - intros b Hn Hb. pose proof (inv_items _ _ Hi _ _ Hn) as H. unfold item_ok in H. rewrite Hb in H. lia.
  - intros s keys Hn Hb. pose proof (inv_items _ _ Hi _ _ Hn) as H. unfold item_ok in H. rewrite Hb in H.
    destruct H as (Hk & -> & -> & _). split_and!; auto; unfold switch_pad. zlia.
Qed.

Lemma resolve_stop_err brs again c c' : resolve_branches brs again c = Some (Stop, c') -> err c' <> None.
Proof.
  revert again c. induction brs as [|b brs IH]; intros again c; cbn [resolve_branches]; [discriminate|].
  destruct (resolve_branch b again c) as [[[|a] c1]|] eqn:E; cbn; [|apply IH|discriminate]. intros [= <-]. revert E. unfold resolve_branch.
  destruct (labels c !! label b); [|discriminate]. cbn [mbind option_bind].
  destruct (pc l <? 0); [intros [= <-]; apply fail_err|]. cbv zeta.
  repeat bool_case; try discriminate; (destruct (patchU4 _ _ _) || destruct (patchU2 _ _ _)); cbn; congruence.
Qed.

(** A pass with nothing to widen and no error leaves the bytes resolved. *)
Lemma resolve_done its c c' :
  inv its (core_of c) -> resolve c = Some (false, c') -> err c' = None ->
  c' = set_w (rend_of (labels c) true its) c /\ err c = None /\
  Forall (fun b => is_placed (labels c) (label b) /\ fits (labels c) b) (brs its) /\
  Forall (fun s => Forall (is_placed (labels c)) (def s :: targets s)) (sws its).
Proof.
  intros Hi. destruct (inv_at_ok _ _ Hi) as [Hb Hs]. unfold resolve.
  change (branches c) with (kbranches (core_of c)). rewrite (inv_brs _ _ Hi).
  destruct (resolve_branches (brs its) false c) as [[[|[|]] c1]|] eqn:E; cbn [mbind option_bind]; try discriminate.
  - intros [= <-] He. destruct (resolve_stop_err _ _ _ _ E He).
  - destruct (resolve_branches_done its [] c c1) as (-> & Hf); [apply (inv_bytes _ _ Hi)|exact Hb|exact E|].
    cbn [switches set_w app]. change (switches c) with (kswitches (core_of c)). rewrite (inv_sws _ _ Hi).
    destruct (resolve_switches _ _) as [c2|] eqn:E2; [|discriminate]. cbn [mbind option_bind]. intros [= <-] He.
    destruct (resolve_switches_done its [] (set_w (rend_of (labels c) false its) c) c2 eq_refl Hs E2 He) as (-> & Hc & Hf2). auto.
Qed.

(** ** What an instruction reads back as *)

(** The cases of a switch: its keys in order, each with a label's offset. *)
Definition cases_of (ls : list Label) (s : switchRec) (keys : list Z) : list SwitchCase :=
  let ks := if sop s =? Tableswitch then seqZ (hd 0 keys) (len (targets s)) else keys in
  zip_with (fun k t => mkCase k (pc_of ls t)) ks (targets s).

(** The instructions [js] found at [o] are what [i] asked for. *)
Definition decoded (ls : list Label) (o : Z) (i : ibody) (js : list Instr) : Prop :=
  match i with
  | Plain r => exists op wide, js = [mkInstr op o wide r]
  | Br b =>
      if bwide b && negb (bop b =? Goto) then
        exists j1 j2, js = [j1; j2] /\ IPC j1 = o /\ IOp j1 = invert (bop b) /\ Target j1 = Some (o + 8) /\
          IPC j2 = o + 3 /\ IOp j2 = GotoW /\ Target j2 = Some (pc_of ls (label b))
      else exists j, js = [j] /\ IPC j = o /\ IOp j = (if bwide b then GotoW else bop b) /\ Target j = Some (pc_of ls (label b))
  | Sw s keys => exists j, js = [j] /\ IPC j = o /\ IOp j = sop s /\ Switch j = Some (pc_of ls (def s), cases_of ls s keys)
  end.

(** ** One instruction *)

Lemma branch_op_facts o : o ∈ branch_ops ->
  0 <= o < 256 /\ Valid o = true /\ o <> Op.Wide /\ OpLen o = 3 /\ OpKind o = Branch2 /\ (o <> Goto -> invert o ∈ branch_ops).
Proof.
  unfold branch_ops. rewrite !elem_of_cons, elem_of_nil. intros H.
  decompose [or] H; subst; try contradiction; (split_and!; [discriminate|reflexivity|reflexivity|discriminate|reflexivity|reflexivity|]);
    intros Hg; try (exfalso; apply Hg; reflexivity); apply (bool_decide_unpack _); vm_compute; exact I.
Qed.

(** An instruction [r] in the middle of a code array. *)
Section Next.
Context (A r B : bytes).
Let code := A ++ r ++ B.
Hypothesis Hlen : len code < 2147483648.

Lemma at_mid k x : r !! Z.to_nat k = Some x -> 0 <= k -> at_ code (len A + k) = Some x.
Proof.
  intros H Hk. unfold at_. pose proof (len_nonneg A). rewrite (proj2 (Z.ltb_ge _ _)) by lia. unfold code.
  replace (Z.to_nat (len A + k)) with (length A + Z.to_nat k)%nat by (unfold len; lia).
  rewrite lookup_app_r by lia. replace (length A + Z.to_nat k - length A)%nat with (Z.to_nat k) by lia. apply lookup_app_l_Some, H.
Qed.

Lemma next_instr_mid o wide cur :
  instrLen code (len A) o wide = Some (Ok (len r)) ->
  next_instr (mkIter code (len A) cur None) o wide =
    Some (true, mkIter code (len A + len r) (mkInstr o (len A) wide r) None).
Proof.
  intros Hi. unfold next_instr. cbn [ipc icode ierr]. rewrite Hi. cbn [mbind option_bind].
  pose proof (len_nonneg A). pose proof (len_nonneg r). pose proof (len_nonneg B).
  assert (len A + len r <= len code) by (unfold code; rewrite !len_app; lia).
  rewrite (proj2 (Z.ltb_ge _ _)) by lia. rewrite (u32_id (len r)), u32_id by lia. unfold code. rewrite slice_app by lia. reflexivity.
Qed.

Lemma Next_mid o ops cur :
  r = o :: ops -> Valid o = true -> o <> Op.Wide -> instrLen code (len A) o false = Some (Ok (len r)) ->
  Next (mkIter code (len A) cur None) = Some (true, mkIter code (len A + len r) (mkInstr o (len A) false r) None).
Proof.
  intros Hr Hv Hw Hi. unfold Next. cbn [ipc icode ierr].
  assert (len A < len code) by (unfold code; rewrite !len_app, Hr, len_cons; pose proof (len_nonneg ops); pose proof (len_nonneg B); lia).
  rewrite (proj2 (Z.leb_gt _ _)) by lia. rewrite <- (Z.add_0_r (len A)) at 1. rewrite (at_mid 0 o) by (rewrite ?Hr; auto; lia).
  cbn [mbind option_bind]. rewrite Hv, (proj2 (Z.eqb_neq _ _)) by exact Hw. cbn [negb]. apply next_instr_mid, Hi.
Qed.

(** Every instruction that is no switch. *)
Lemma Next_plain : plain_ok r -> exists o wide, forall cur, Next (mkIter code (len A) cur None) = Some (true, mkIter code (len A + len r) (mkInstr o (len A) wide r) None).
Proof.
  intros [_ [(o & ops & Hr & Hv & Hw & Hn & Hl & _)|(o & ops & Hr & Hk & Hl)]].
  - exists o, false. intros cur. apply (Next_mid o ops); auto. unfold instrLen. rewrite (proj2 (Z.leb_le _ _)) by exact Hn. congruence.
  - exists o, true. intros cur. unfold Next. cbn [ipc icode ierr]. pose proof (len_nonneg ops). pose proof (len_nonneg B). pose proof (len_nonneg A).
    assert (len A + 1 < len code) by (unfold code; rewrite !len_app, Hr, !len_cons; lia).
    rewrite (proj2 (Z.leb_gt _ _)) by lia. rewrite <- (Z.add_0_r (len A)) at 1. rewrite (at_mid 0 Op.Wide) by (rewrite ?Hr; auto; lia).
    cbn [mbind option_bind]. change (Valid Op.Wide) with true. cbn [negb]. rewrite Z.eqb_refl.
    rewrite (proj2 (Z.leb_gt _ _)) by lia. rewrite u32_id by lia. rewrite (at_mid 1 o) by (rewrite ?Hr; auto; lia).
    cbn [mbind option_bind]. assert (instrLen code (len A) o true = Some (Ok (len r))) as Hi by (unfold instrLen; congruence).
    destruct Hk as [-> | ->]; apply next_instr_mid, Hi.
Qed.
End Next.

(** Jump arithmetic: a label within 64K is reached exactly. *)
Lemma jump_exact o p d : 0 <= o <= 65535 -> 0 <= p <= 65535 -> d = s32 (p - s32 o) -> u32 (s32 (s32 o + d)) = p.
Proof. intros Ho Hp ->. rewrite !s32_id by (rewrite ?s32_id; lia). rewrite u32_id; lia. Qed.

Lemma target2 op o v : OpKind op = Branch2 -> 0 <= v < 65536 ->
  Target (mkInstr op o false ([op] ++ be2 v)) = Some (u32 (s32 (s32 o + s16 v))).
Proof.
  intros Hk Hv. unfold Target, operands. cbn [IWide raw IOp IPC]. rewrite Hk.
  change (from ([op] ++ be2 v) 1) with (Some (be2 v)). cbn [mbind option_bind]. rewrite <- (app_nil_r (be2 v)), be16_be2 by exact Hv. reflexivity.
Qed.

Lemma target4 op o v : OpKind op = Branch4 -> Target (mkInstr op o false ([op] ++ be4 v)) = Some (u32 (s32 (s32 o + s32 v))).
Proof.
  intros Hk. unfold Target, operands. cbn [IWide raw IOp IPC]. rewrite Hk.
  change (from ([op] ++ be4 v) 1) with (Some (be4 v)). cbn [mbind option_bind]. rewrite <- (app_nil_r (be4 v)), be32_be4. reflexivity.
Qed.

(** ** Reading a switch back *)

Lemma code32_mid P v Q i : i = len P -> code32 (P ++ be4 v ++ Q) i = Some (s32 v).
Proof.
  intros ->. unfold code32. rewrite from_ok by (rewrite !len_app; pose proof (len_nonneg P); pose proof (len_nonneg Q); pose proof (len_nonneg (be4 v)); lia).
  unfold len. rewrite Nat2Z.id, drop_app_length. apply be32_be4.
Qed.

Lemma code32_from b i : code32 b i = x ← from b i; be32 x.
Proof. reflexivity. Qed.

Lemma s32_s32 x : s32 (s32 x) = s32 x.
Proof. apply s32_id, s32_range. Qed.

Lemma table_cases_read ls s ts D Q m base :
  table_cases (length ts) (D ++ concat (map (word ls s) ts) ++ Q) (len D) m base =
    Some (zip_with (fun k t => mkCase (s32 k) (u32 (s32 (base + dist ls (sat s) t)))) (seqZ m (len ts)) ts).
Proof.
  revert D m. induction ts as [|t ts IH]; intros D m; [reflexivity|]. cbn [table_cases map concat length]. rewrite len_cons, seqZ_cons by (pose proof (len_nonneg ts); lia).
  pose proof (code32_mid D (u32 (dist ls (sat s) t)) (concat (map (word ls s) ts) ++ Q) _ eq_refl) as H. unfold code32 in H.
  rewrite <- (app_assoc (word ls s t)). unfold word at 1. destruct (from _ (len D)) as [x|] eqn:E; [|discriminate]. cbn [mbind option_bind] in *.
  rewrite H. cbn [mbind option_bind]. specialize (IH (D ++ word ls s t) (Z.succ m)). rewrite len_app in IH. change (len (word ls s t)) with 4 in IH.
  rewrite <- app_assoc in IH. unfold word at 1 in IH. replace (m + 1) with (Z.succ m) by lia. rewrite IH. cbn [mbind option_bind zip_with].
  replace (Z.pred (1 + len ts)) with (len ts) by lia. unfold dist. rewrite s32_u32, s32_s32. reflexivity.
Qed.

Lemma lookup_cases_read ls s keys ts D Q base : length keys = length ts -> Forall (fun k => -2147483648 <= k < 2147483648) keys ->
  lookup_cases (length keys) (D ++ concat (zip_with (fun k t => be4 (u32 k) ++ word ls s t) keys ts) ++ Q) (len D) base =
    Some (zip_with (fun k t => mkCase k (u32 (s32 (base + dist ls (sat s) t)))) keys ts).
Proof.
  intros Hl Hk. revert ts D Hl. induction Hk as [|k keys Hk _ IH]; intros [|t ts] D Hl; try discriminate; [reflexivity|].
  cbn [lookup_cases zip_with concat length]. rewrite <- !(app_assoc (be4 (u32 k))), <- (app_assoc (word ls s t)).
  set (R := concat _). pose proof (code32_mid D (u32 k) (word ls s t ++ R ++ Q) _ eq_refl) as H.
  pose proof (code32_mid (D ++ be4 (u32 k)) (u32 (dist ls (sat s) t)) (R ++ Q) _ eq_refl) as H2. unfold code32 in H, H2.
  rewrite len_app, <- app_assoc in H2. change (len (be4 (u32 k))) with 4 in H2. fold (word ls s t) in H2.
  destruct (from _ (len D)) as [x|] eqn:E; [|discriminate]. destruct (from _ (len D + 4)) as [y|] eqn:E2; [|discriminate].
  cbn [mbind option_bind] in *. rewrite H, H2. cbn [mbind option_bind].
  specialize (IH ts (D ++ be4 (u32 k) ++ word ls s t)). rewrite !len_app in IH. change (len (be4 (u32 k))) with 4 in IH.
  change (len (word ls s t)) with 4 in IH. rewrite <- !app_assoc in IH. fold R in IH. replace (len D + 8) with (len D + (4 + 4)) by lia.
  rewrite IH by (cbn in Hl; congruence). cbn [mbind option_bind]. unfold dist. rewrite !s32_u32, s32_s32, (s32_id k) by lia. reflexivity.
Qed.

Lemma zip_with_ext_Forall {A B C} (f g : A -> B -> C) (P : A -> Prop) (Q : B -> Prop) l k :
  Forall P l -> Forall Q k -> (forall x y, P x -> Q y -> f x y = g x y) -> zip_with f l k = zip_with g l k.
Proof. intros Hl Hk H. revert k Hk. induction Hl; intros [|y k] Hk; inversion Hk; subst; cbn; auto. f_equal; auto. Qed.

Lemma from_mid P X i : i = len P -> from (P ++ X) i = Some X.
Proof.
  intros ->. rewrite from_ok by (rewrite len_app; pose proof (len_nonneg P); pose proof (len_nonneg X); lia).
  unfold len. rewrite Nat2Z.id, drop_app_length. reflexivity.
Qed.

Section Switches.
Context (ls : list Label) (s : switchRec) (keys : list Z) (o : Z).
Hypothesis Hkeys : keys_ok s keys.
Hypothesis Hpad : spad s = switch_pad o.
Hypothesis Hsat : sat s = o.
Hypothesis Ho : 0 <= o <= 65535.
Hypothesis Hpcs : Forall (fun l => 0 <= pc_of ls l <= 65535) (def s :: targets s).

Lemma pad_agrees : pad_at o = spad s /\ 0 <= spad s <= 3.
Proof. rewrite Hpad. unfold pad_at, switch_pad. rewrite u32_id by lia. split; [reflexivity|zlia]. Qed.

(** Opcode and padding. *)
Let P : bytes := [u8 (sop s)] ++ replicate (Z.to_nat (spad s)) 0.

Lemma head_len : len P = 1 + spad s.
Proof. unfold P. cbn [app]. rewrite len_cons, len_replicate. destruct pad_agrees. lia. Qed.

Lemma rswitch_split : rswitch ls s keys = P ++ word ls s (def s) ++ switch_head s keys ++ switch_table ls s keys.
Proof. unfold rswitch, P. rewrite <- app_assoc. reflexivity. Qed.

Lemma word_target l : 0 <= pc_of ls l <= 65535 -> u32 (s32 (s32 o + dist ls (sat s) l)) = pc_of ls l.
Proof. intros H. apply jump_exact; auto. unfold dist. rewrite Hsat. reflexivity. Qed.

Lemma def_target : u32 (s32 (s32 o + s32 (u32 (dist ls (sat s) (def s))))) = pc_of ls (def s).
Proof. apply Forall_cons in Hpcs as [Hd _]. rewrite s32_u32. unfold dist. rewrite s32_s32. apply word_target, Hd. Qed.

Lemma switch_instrLen A B : len A = o -> len (A ++ rswitch ls s keys ++ B) < 2147483648 ->
  instrLen (A ++ rswitch ls s keys ++ B) o (sop s) false = Some (Ok (len (rswitch ls s keys))).
Proof.
  intros HA. destruct pad_agrees as [Hp Hp3]. pose proof head_len as HP. rewrite rswitch_split. intros Hlen. unfold instrLen. rewrite Hp. cbv zeta.
  pose proof (len_nonneg B) as HB. destruct Hkeys as [Hk [(Hs & low & high & Ek & Hlh & Hn)|(Hs & Hn & _)]]; rewrite Hs; cbn [OpLen].
  - unfold switch_head, switch_table. rewrite Hs, Z.eqb_refl, Ek. cbn [map concat]. rewrite app_nil_r.
    set (T := concat (map (word ls s) (targets s))). assert (HT : len T = 4 * len (targets s)) by (apply len_concat_const; reflexivity).
    assert (E : len (A ++ (P ++ word ls s (def s) ++ (be4 (u32 low) ++ be4 (u32 high)) ++ T) ++ B) = o + (1 + spad s + 12 + 4 * len (targets s)) + len B)
      by (rewrite !len_app, HA, HP, HT; change (len (word _ _ _)) with 4; change (len (be4 _)) with 4; lia).
    change (0 <=? OpLen Tableswitch) with false. cbv iota. rewrite E, (proj2 (Z.ltb_ge _ _)) by lia.
    rewrite Ek in Hk. apply Forall_cons in Hk as [Hlo Hk]. apply Forall_cons in Hk as [Hhi _].
    pose proof (code32_mid (A ++ P ++ word ls s (def s)) (u32 low) (be4 (u32 high) ++ T ++ B) (o + 1 + spad s + 4)) as C1.
    pose proof (code32_mid (A ++ P ++ word ls s (def s) ++ be4 (u32 low)) (u32 high) (T ++ B) (o + 1 + spad s + 8)) as C2.
    rewrite <- !app_assoc in *. rewrite C1 by (rewrite !len_app, HA, HP; change (len (word _ _ _)) with 4; lia). cbn [mbind option_bind].
    rewrite C2 by (rewrite !len_app, HA, HP; change (len (word _ _ _)) with 4; change (len (be4 _)) with 4; lia). cbn [mbind option_bind].
    rewrite !s32_u32, !s32_id by lia. rewrite !(proj2 (Z.ltb_ge _ _)) by lia. do 2 f_equal.
    rewrite !len_app, HP, HT. change (len (word _ _ _)) with 4. change (len (be4 _)) with 4. lia.
  - assert (Hne : (Lookupswitch =? Tableswitch) = false) by reflexivity.
    unfold switch_head, switch_table in Hlen |- *. rewrite Hs, Hne in *. rewrite Z.eqb_refl.
    set (T := concat _) in *. assert (HT : len T = 8 * len keys) by (apply len_concat_zip; [reflexivity|lia]).
    assert (E : len (A ++ (P ++ word ls s (def s) ++ be4 (u32 (len keys)) ++ T) ++ B) = o + (1 + spad s + 8 + 8 * len keys) + len B)
      by (rewrite !len_app, HA, HP, HT; change (len (word _ _ _)) with 4; change (len (be4 _)) with 4; lia).
    change (0 <=? OpLen Lookupswitch) with false. cbv iota. rewrite E in Hlen |- *. rewrite (proj2 (Z.ltb_ge _ _)) by (pose proof (len_nonneg keys); lia).
    pose proof (code32_mid (A ++ P ++ word ls s (def s)) (u32 (len keys)) (T ++ B) (o + 1 + spad s + 4)) as C1.
    rewrite <- !app_assoc in *. rewrite C1 by (rewrite !len_app, HA, HP; change (len (word _ _ _)) with 4; lia). cbn [mbind option_bind].
    pose proof (len_nonneg keys). rewrite !s32_u32, !s32_id by lia. rewrite !(proj2 (Z.ltb_ge _ _)) by lia. cbn [orb]. do 2 f_equal.
    rewrite !len_app, HP, HT. change (len (word _ _ _)) with 4. change (len (be4 _)) with 4. lia.
Qed.

Lemma cases_agree ks (f : Z -> Z) : Forall (fun k => f k = k) ks ->
  zip_with (fun k t => mkCase (f k) (u32 (s32 (s32 o + dist ls (sat s) t)))) ks (targets s) =
  zip_with (fun k t => mkCase k (pc_of ls t)) ks (targets s).
Proof.
  intros Hk. apply Forall_cons in Hpcs as [_ Ht]. eapply zip_with_ext_Forall; [exact Hk|exact Ht|]. cbn. intros k t H1 H2.
  rewrite H1, word_target by lia. reflexivity.
Qed.

Lemma be32_def Y : be32 (word ls s (def s) ++ Y) = Some (s32 (u32 (dist ls (sat s) (def s)))).
Proof. apply be32_be4. Qed.

Lemma tableswitch_read : sop s = Tableswitch -> len (rswitch ls s keys) < 2147483648 ->
  Switch (mkInstr (sop s) o false (rswitch ls s keys)) = Some (pc_of ls (def s), cases_of ls s keys).
Proof.
  intros Hs Hlen. destruct pad_agrees as [Hp Hp3]. pose proof head_len as HP. rewrite rswitch_split in *. unfold Switch. cbn [IPC raw IOp].
  rewrite Hp, from_mid by lia. cbn [mbind option_bind]. unfold cases_of, switch_head, switch_table in *. rewrite Hs, Z.eqb_refl in *.
  destruct Hkeys as [Hk [(_ & low & high & -> & Hlh & Hn)|(Hs' & _)]]; [|rewrite Hs' in Hs; discriminate]. cbn [map concat hd] in *.
  rewrite app_nil_r, <- !app_assoc in *. set (T := concat (map (word ls s) (targets s))) in *.
  assert (HT : len T = 4 * len (targets s)) by (apply len_concat_const; reflexivity).
  apply Forall_cons in Hk as [Hlo Hk]. apply Forall_cons in Hk as [Hhi _].
  set (X := word ls s (def s) ++ _) in *.
  assert (E : len X = 12 + 4 * len (targets s)) by (unfold X; rewrite !len_app, HT; change (len (word _ _ _)) with 4; change (len (be4 _)) with 4; lia).
  rewrite len_app, E in Hlen. rewrite E, !(proj2 (Z.ltb_ge _ _)) by lia. rewrite (be32_def _ : be32 X = _). cbn [mbind option_bind]. rewrite def_target.
  pose proof (code32_mid (word ls s (def s)) (u32 low) (be4 (u32 high) ++ T) 4 eq_refl) as C1.
  pose proof (code32_mid (word ls s (def s) ++ be4 (u32 low)) (u32 high) T 8 eq_refl) as C2.
  rewrite <- !app_assoc in *. fold X in C1, C2. unfold code32 in C1, C2. rewrite s32_u32, s32_id in C1, C2 by lia.
  destruct (from X 4) as [x4|]; [|discriminate]. destruct (from X 8) as [x8|]; [|discriminate]. cbn [mbind option_bind] in *. rewrite C1, C2.
  cbn [mbind option_bind]. rewrite !(proj2 (Z.ltb_ge _ _)) by lia. rewrite <- Hn.
  replace (Z.to_nat (len (targets s))) with (length (targets s)) by (unfold len; lia).
  pose proof (table_cases_read ls s (targets s) (word ls s (def s) ++ be4 (u32 low) ++ be4 (u32 high)) [] low (s32 o)) as R.
  rewrite app_nil_r, <- !app_assoc in R. fold T in R. fold X in R. change (len (word ls s (def s) ++ be4 (u32 low) ++ be4 (u32 high))) with 12 in R.
  rewrite R. cbn [mbind option_bind]. rewrite (cases_agree _ s32); [reflexivity|].
  apply Forall_forall. intros k Hin. apply elem_of_seqZ in Hin. apply s32_id. lia.
Qed.

Lemma lookupswitch_read : sop s = Lookupswitch -> len (rswitch ls s keys) < 2147483648 ->
  Switch (mkInstr (sop s) o false (rswitch ls s keys)) = Some (pc_of ls (def s), cases_of ls s keys).
Proof.
  intros Hs Hlen. destruct pad_agrees as [Hp Hp3]. pose proof head_len as HP. rewrite rswitch_split in *. unfold Switch. cbn [IPC raw IOp].
  assert (Hne : (Lookupswitch =? Tableswitch) = false) by reflexivity.
  rewrite Hp, from_mid by lia. cbn [mbind option_bind]. unfold cases_of, switch_head, switch_table in *. rewrite Hs, Hne, Z.eqb_refl in *.
  destruct Hkeys as [Hk [(Hs' & _)|(_ & Hn & _)]]; [rewrite Hs' in Hs; discriminate|].
  set (T := concat _) in *. assert (HT : len T = 8 * len keys) by (apply len_concat_zip; [reflexivity|lia]).
  set (X := word ls s (def s) ++ _) in *. pose proof (len_nonneg keys) as Hkn.
  assert (E : len X = 8 + 8 * len keys) by (unfold X; rewrite !len_app, HT; change (len (word _ _ _)) with 4; change (len (be4 _)) with 4; lia).
  rewrite len_app, E in Hlen. rewrite E, !(proj2 (Z.ltb_ge _ _)) by lia. rewrite (be32_def _ : be32 X = _). cbn [mbind option_bind]. rewrite def_target.
  pose proof (code32_mid (word ls s (def s)) (u32 (len keys)) T 4 eq_refl) as C1.
  fold X in C1. unfold code32 in C1. rewrite s32_u32, s32_id in C1 by lia.
  destruct (from X 4) as [x4|]; [|discriminate]. cbn [mbind option_bind] in *. rewrite C1.
  cbn [mbind option_bind]. rewrite !(proj2 (Z.ltb_ge _ _)) by lia. cbn [orb].
  replace (Z.to_nat (len keys)) with (length keys) by (unfold len; lia).
  pose proof (lookup_cases_read ls s keys (targets s) (word ls s (def s) ++ be4 (u32 (len keys))) [] (s32 o)) as R.
  rewrite app_nil_r, <- !app_assoc in R. fold T in R. fold X in R. change (len (word ls s (def s) ++ be4 (u32 (len keys)))) with 8 in R.
  rewrite R by (auto; unfold len in Hn; lia). cbn [mbind option_bind]. rewrite (cases_agree _ (fun k => k)); [reflexivity|].
  apply Forall_true. reflexivity.
Qed.

Lemma switch_read : len (rswitch ls s keys) < 2147483648 ->
  Switch (mkInstr (sop s) o false (rswitch ls s keys)) = Some (pc_of ls (def s), cases_of ls s keys).
Proof. destruct Hkeys as [_ [(Hs & _)|(Hs & _)]]; [apply tableswitch_read, Hs|apply lookupswitch_read, Hs]. Qed.
End Switches.

(** ** Walking the whole array *)

(** The iterator at [o] of [code] yields [js] and goes on at [o']. *)
Definition yields (code : bytes) (o : Z) (js : list Instr) (o' : Z) : Prop :=
  forall cur fuel, (length js <= fuel)%nat -> exists cur', walk fuel (mkIter code o cur None) =
    x ← walk (fuel - length js) (mkIter code o' cur' None); Some (js ++ fst x, snd x).

Lemma yields_one code o j o' : (forall cur, Next (mkIter code o cur None) = Some (true, mkIter code o' j None)) -> yields code o [j] o'.
Proof.
  intros H cur [|fuel] Hf; cbn in Hf; [lia|]. exists j. cbn [walk]. rewrite H. cbn [mbind option_bind length]. rewrite Nat.sub_succ, Nat.sub_0_r.
  reflexivity.
Qed.

Lemma yields_app code o js o1 ks o2 : yields code o js o1 -> yields code o1 ks o2 -> yields code o (js ++ ks) o2.
Proof.
  intros H1 H2 cur fuel Hf. rewrite length_app in *. destruct (H1 cur fuel) as (c1 & ->); [lia|].
  destruct (H2 c1 (fuel - length js)%nat) as (c2 & ->); [lia|]. exists c2. replace (fuel - length js - length ks)%nat with (fuel - (length js + length ks))%nat by lia.
  destruct (walk _ _) as [[x y]|]; cbn; [rewrite app_assoc|]; reflexivity.
Qed.

Lemma yields_nil code o : yields code o [] o.
Proof. intros cur fuel _. exists cur. rewrite Nat.sub_0_r. destruct (walk _ _) as [[x y]|]; reflexivity. Qed.

(** An ordinary fixed-length instruction. *)
Lemma yields_fixed A B op ops :
  let r := op :: ops in
  len (A ++ r ++ B) < 2147483648 -> Valid op = true -> op <> Op.Wide -> OpLen op = len r ->
  yields (A ++ r ++ B) (len A) [mkInstr op (len A) false r] (len A + len r).
Proof.
  intros r Hl Hv Hw Ho. apply yields_one. intros cur. apply (Next_mid A r B Hl op ops); auto.
  unfold instrLen. rewrite Ho, (proj2 (Z.leb_le _ _)) by apply len_nonneg. reflexivity.
Qed.

Definition reachable_pcs (ls : list Label) (i : item) : Prop := Forall (fun l => 0 <= pc_of ls l <= 65535) (jumps i).

Lemma branch_yields ls b A B :
  bop b ∈ branch_ops -> bat b = len A -> fits ls b -> 0 <= pc_of ls (label b) <= 65535 -> len (A ++ rbranch ls b ++ B) <= 65535 ->
  exists js, decoded ls (len A) (Br b) js /\ yields (A ++ rbranch ls b ++ B) (len A) js (len A + len (rbranch ls b)).
Proof.
  intros Hop Hat Hfit Hpc Hlen. pose proof (len_nonneg A) as HA. pose proof (len_nonneg B) as HB.
  destruct (branch_op_facts _ Hop) as (Hr & Hv & Hw & Hl & Hk & Hinv).
  assert (Ho : 0 <= len A <= 65535) by (rewrite !len_app in Hlen; pose proof (len_nonneg (rbranch ls b)); lia).
  assert (Hd : -2147483648 <= dist ls (bat b) (label b) < 2147483648) by (unfold dist; apply s32_range).
  assert (Hlen' : len (A ++ rbranch ls b ++ B) < 2147483648) by lia.
  unfold decoded, rbranch in *. change (u8 GotoW) with GotoW in *. unfold fits in Hfit. destruct (bwide b); cbn [negb andb] in *.
  - destruct (bop b =? Goto) eqn:Eg; cbn [negb] in *; to_Z.
    + eexists. split; [eexists; split; [reflexivity|]|apply yields_fixed; [exact Hlen'|reflexivity|discriminate|reflexivity]].
      cbn [IPC IOp]. split_and!; auto. refine (eq_trans (target4 GotoW _ _ eq_refl) _). f_equal. apply jump_exact; auto. rewrite s32_u32. unfold dist. rewrite s32_s32, Hat. reflexivity.
    + destruct (branch_op_facts _ (Hinv Eg)) as (Hr' & Hv' & Hw' & Hl' & Hk' & _). set (d := s32 _) in *.
      assert (Hr1 : u8 (invert (bop b)) = invert (bop b)) by (apply u8_id, Hr'). rewrite Hr1 in *.
      set (r1 := invert (bop b) :: be2 8). set (r2 := GotoW :: be4 (u32 d)).
      change ([invert (bop b)] ++ be2 8 ++ [GotoW] ++ be4 (u32 d)) with (r1 ++ r2) in *.
      exists ([mkInstr (invert (bop b)) (len A) false r1] ++ [mkInstr GotoW (len A + 3) false r2]). split.
      * eexists _, _. split; [reflexivity|]. cbn [IPC IOp]. split_and!; auto.
        -- refine (eq_trans (target2 (invert (bop b)) _ 8 Hk' ltac:(lia)) _). f_equal. change (s16 8) with 8. rewrite (s32_id (len A)), s32_id, u32_id by lia. reflexivity.
        -- refine (eq_trans (target4 GotoW _ _ eq_refl) _). f_equal. rewrite s32_u32. apply jump_exact; auto; [rewrite !len_app in Hlen; change (len r1) with 3 in Hlen; change (len r2) with 5 in Hlen; lia|].
           unfold d. rewrite s32_s32, Hat, (s32_id (len A)), (s32_id (len A + 3)) by lia. f_equal. lia.
      * rewrite <- (app_assoc r1), len_app, Z.add_assoc. apply (yields_app _ _ _ (len A + len r1)).
        -- apply (yields_fixed A (r2 ++ B) (invert (bop b)) (be2 8)); auto. all: fold r1; rewrite !len_app in *; lia.
        -- rewrite app_assoc. rewrite <- (len_app A r1). change 3 with (len r1). rewrite <- (len_app A r1).
           apply (yields_fixed (A ++ r1) B GotoW (be4 (u32 d))); [|reflexivity|discriminate|reflexivity].
           change (GotoW :: be4 (u32 d)) with r2. rewrite !len_app in *. lia.
  - assert (Hb : u8 (bop b) = bop b) by (apply u8_id, Hr). rewrite Hb in *. specialize (Hfit eq_refl).
    eexists. split; [eexists; split; [reflexivity|]|apply yields_fixed; [exact Hlen'|exact Hv|exact Hw|exact Hl]].
    cbn [IPC IOp]. split_and!; auto. refine (eq_trans (target2 (bop b) _ _ Hk (u16_range _)) _). f_equal.
    apply jump_exact; auto. rewrite s16_u16, (s16_id (s16 _)), s16_id by (rewrite ?s16_id; lia). unfold dist. rewrite Hat. reflexivity.
Qed.

Lemma switch_yields ls s keys A B :
  keys_ok s keys -> spad s = switch_pad (len A) -> sat s = len A -> Forall (fun l => 0 <= pc_of ls l <= 65535) (def s :: targets s) ->
  len (A ++ rswitch ls s keys ++ B) <= 65535 ->
  exists js, decoded ls (len A) (Sw s keys) js /\ yields (A ++ rswitch ls s keys ++ B) (len A) js (len A + len (rswitch ls s keys)).
Proof.
  intros Hk Hpad Hat Hpcs Hlen. pose proof (len_nonneg A). pose proof (len_nonneg B). pose proof (len_nonneg (rswitch ls s keys)).
  assert (Ho : 0 <= len A <= 65535) by (rewrite !len_app in Hlen; lia).
  exists [mkInstr (sop s) (len A) false (rswitch ls s keys)]. split.
  - eexists. split; [reflexivity|]. cbn [IPC IOp]. split_and!; [reflexivity|reflexivity|].
    apply (switch_read ls s keys (len A)); auto. rewrite !len_app in Hlen. lia.
  - apply yields_one. intros cur.
    assert (Hop : u8 (sop s) = sop s /\ Valid (sop s) = true /\ sop s <> Op.Wide)
      by (destruct Hk as [_ [(-> & _)|(-> & _)]]; split_and!; [reflexivity|reflexivity|discriminate|reflexivity|reflexivity|discriminate]).
    destruct Hop as (Hu & Hv & Hw).
    apply (Next_mid A (rswitch ls s keys) B ltac:(lia) (sop s) (replicate (Z.to_nat (spad s)) 0 ++ word ls s (def s) ++ switch_head s keys ++ switch_table ls s keys)); auto.
    + unfold rswitch. rewrite Hu. reflexivity.
    + apply switch_instrLen; auto. lia.
Qed.

(** What resolving guarantees of an instruction's labels. *)
Definition targets_ok (ls : list Label) (i : item) : Prop :=
  Forall (fun l => 0 <= pc_of ls l <= 65535) (jumps i) /\ (forall b, body i = Br b -> fits ls b).

Lemma item_yields ls i A B :
  item_ok (len A) i -> targets_ok ls i -> len (A ++ rend ls true (body i) ++ B) <= 65535 ->
  exists js, decoded ls (len A) (body i) js /\
    yields (A ++ rend ls true (body i) ++ B) (len A) js (len A + len (rend ls true (body i))) /\
    (length js <= length (rend ls true (body i)))%nat.
Proof.
  unfold item_ok, targets_ok, jumps. intros Hok [Hj Hfit] Hlen. destruct (body i) as [r|b|s keys] eqn:E; cbn [rend] in *.
  - destruct r as [|x r]; [destruct Hok as [_ [(o & ops & H & _)|(o & ops & H & _)]]; discriminate|].
    destruct (Next_plain A (x :: r) B ltac:(lia) Hok) as (o & wide & H). exists [mkInstr o (len A) wide (x :: r)].
    split_and!; [eexists _, _; reflexivity|apply yields_one, H|cbn; lia].
  - destruct Hok as (Hop & Hat & _). apply Forall_cons in Hj as [Hl _]. destruct (branch_yields ls b A B) as (js & Hd & Hy); auto.
    exists js. split_and!; auto. revert Hd. unfold decoded, rbranch. destruct (bwide b); cbn [negb andb].
    + destruct (bop b =? Goto); cbn [negb]; [intros (j & -> & _)|intros (j1 & j2 & -> & _)]; cbn; lia.
    + intros (j & -> & _). cbn. lia.
  - destruct Hok as (Hk & Hat & Hpad & _). destruct (switch_yields ls s keys A B) as (js & Hd & Hy); auto.
    exists js. split_and!; auto. destruct Hd as (j & -> & _). cbn. lia.
Qed.

Lemma rend_len ls its : (forall n i, its !! n = Some i -> exists o, item_ok o i) -> len (rend_of ls true its) = len (bytes_of its).
Proof.
  induction its as [|i its IH]; intros H; [reflexivity|]. unfold rend_of, bytes_of in *. cbn [map concat]. rewrite !len_app.
  rewrite IH by (intros n j Hj; apply (H (S n) j Hj)). f_equal. destruct (H 0%nat i eq_refl) as [o Hok]. unfold item_ok in Hok.
  destruct (body i) as [r|b|s keys]; cbn [rend ibytes]; [reflexivity|apply branch_len|apply switch_len, Hok].
Qed.

Lemma rend_yields ls its A :
  (forall n i, its !! n = Some i -> item_ok (len A + offset its n) i /\ targets_ok ls i) ->
  len (A ++ rend_of ls true its) <= 65535 ->
  exists jss, (forall n i, its !! n = Some i -> exists js, jss !! n = Some js /\ decoded ls (len A + offset its n) (body i) js) /\
    yields (A ++ rend_of ls true its) (len A) (concat jss) (len (A ++ rend_of ls true its)) /\
    (length (concat jss) <= length (rend_of ls true its))%nat.
Proof.
  revert A. induction its as [|i its IH]; intros A H Hlen.
  - exists []. split_and!; [intros n i Hn; discriminate| |cbn; lia]. unfold rend_of. cbn. rewrite app_nil_r. apply yields_nil.
  - unfold rend_of in *. cbn [map concat] in *. destruct (H 0%nat i eq_refl) as [Hok Ht]. change (offset (i :: its) 0) with 0 in Hok. rewrite Z.add_0_r in Hok.
    destruct (item_yields ls i A _ Hok Ht Hlen) as (js & Hd & Hy & Hl).
    assert (Hr : len (rend ls true (body i)) = len (ibytes (body i))).
    { pose proof (rend_len ls [i]) as Hr. unfold rend_of, bytes_of in Hr. cbn in Hr. rewrite !app_nil_r in Hr. apply Hr.
      intros n j Hj. destruct n; cbn in Hj; [|discriminate]. injection Hj as <-. eauto. }
    destruct (IH (A ++ rend ls true (body i))) as (jss & Hjs & Hy2 & Hl2).
    + intros n j Hj. specialize (H (S n) j Hj). rewrite offset_cons, <- Hr in H. rewrite len_app, <- Z.add_assoc. exact H.
    + rewrite <- app_assoc. exact Hlen.
    + rewrite <- app_assoc, len_app in Hy2. exists (js :: jss). split_and!.
      * intros [|n] j Hj; cbn in Hj.
        -- injection Hj as <-. exists js. split; [reflexivity|]. change (offset (i :: its) 0) with 0. rewrite Z.add_0_r. exact Hd.
        -- destruct (Hjs n j Hj) as (ks & Hks & Hdk). exists ks. split; [exact Hks|]. rewrite offset_cons, <- Hr, Z.add_assoc, <- len_app. exact Hdk.
      * cbn [concat]. eapply yields_app; [exact Hy|]. exact Hy2.
      * cbn [concat]. rewrite !length_app. lia.
Qed.
