(* ===== verification/CodeFrame.v ===== *)
(** * What each call of the code writer leaves alone

    The number of labels, the handler, line and local tables change in the one
    call that is about them and in no other; and a body that only names labels
    it has created never dereferences a missing one. *)
From S2P Require Import Prelude.
From S2P Require Import Desc.
From S2P Require Import Op.
From S2P Require Import Format.
From S2P Require Import ClassIO.
From S2P Require Import PoolBuilder.
From S2P Require Import CodeWriter.
From S2P Require Import CodeProof.

(** ** The tables *)

Definition meta (c : CodeWriter) : nat * list handlerRec * list LineNumber * list localRec := (length (labels c), handlers c, lines c, locals c).

Create Rewrite HintDb meta.

Lemma meta_fail f a c : meta (fail f a c) = meta c.
Proof. unfold fail. destruct (err c); reflexivity. Qed.
#[export] Hint Rewrite meta_fail : meta.
Ltac meta_prim := repeat bool_case; cbv zeta; autorewrite with meta; reflexivity.
Lemma meta_emitOp o c : meta (emitOp o c) = meta c.
Proof. unfold emitOp. meta_prim. Qed.
Lemma meta_set_depth d c : meta (set_depth d c) = meta c.
Proof. reflexivity. Qed.
Lemma meta_set_maxStack d c : meta (set_maxStack d c) = meta c.
Proof. reflexivity. Qed.
Lemma meta_set_maxLocals d c : meta (set_maxLocals d c) = meta c.
Proof. reflexivity. Qed.
Lemma meta_set_w x c : meta (set_w x c) = meta c.
Proof. reflexivity. Qed.
Lemma meta_set_branches x c : meta (set_branches x c) = meta c.
Proof. reflexivity. Qed.
Lemma meta_set_switches x c : meta (set_switches x c) = meta c.
Proof. reflexivity. Qed.
Lemma meta_set_reachable x c : meta (set_reachable x c) = meta c.
Proof. reflexivity. Qed.
Lemma meta_terminate c : meta (terminate c) = meta c.
Proof. reflexivity. Qed.
Lemma meta_u1 v c : meta (u1 v c) = meta c.
Proof. reflexivity. Qed.
Lemma meta_u2 v c : meta (u2 v c) = meta c.
Proof. reflexivity. Qed.
Lemma meta_u4 v c : meta (u4 v c) = meta c.
Proof. reflexivity. Qed.
Lemma meta_set_label l x c : meta (set_label l x c) = meta c.
Proof. unfold meta, set_label. cbn. rewrite length_insert. reflexivity. Qed.
Lemma meta_u2_of m c : meta (u2_of m c) = meta c.
Proof. unfold u2_of, intern_. destruct (m (cp c)). reflexivity. Qed.
#[export] Hint Rewrite meta_emitOp meta_set_depth meta_set_maxStack meta_set_maxLocals meta_set_w meta_set_branches
  meta_set_switches meta_set_reachable meta_terminate meta_u1 meta_u2 meta_u4 meta_set_label meta_u2_of : meta.
Lemma meta_push n c : meta (push n c) = meta c.
Proof. unfold push. cbv zeta. repeat bool_case; autorewrite with meta; reflexivity. Qed.
Lemma meta_pop n c : meta (pop n c) = meta c.
Proof. unfold pop. cbv zeta. repeat bool_case; autorewrite with meta; reflexivity. Qed.
Lemma meta_useLocal s n c : meta (useLocal s n c) = meta c.
Proof. unfold useLocal. cbv zeta. repeat bool_case; autorewrite with meta; reflexivity. Qed.
#[export] Hint Rewrite meta_push meta_pop meta_useLocal : meta.
Lemma meta_localOp g k s n c : meta (localOp g k s n c) = meta c.
Proof. unfold localOp. cbv zeta. destruct (err _); repeat bool_case; autorewrite with meta; reflexivity. Qed.
Lemma meta_ldc_of m b c : meta (ldc_of m b c) = meta c.
Proof. unfold ldc_of, intern_, ldc. destruct (m (cp c)). repeat bool_case; autorewrite with meta; reflexivity. Qed.
Lemma meta_Op o c : meta (Op_ o c) = meta c.
Proof. unfold Op_. cbv zeta. repeat bool_case; autorewrite with meta; reflexivity. Qed.
#[export] Hint Rewrite meta_localOp meta_ldc_of meta_Op : meta.

Lemma meta_noteDepth l c c' : noteDepth l c = Some c' -> meta c' = meta c.
Proof. unfold noteDepth. destruct (labels c !! l); [|discriminate]. cbn. intros [= <-]. repeat bool_case; autorewrite with meta; reflexivity. Qed.
Lemma meta_noteDepths ts c c' : noteDepths ts c = Some c' -> meta c' = meta c.
Proof.
  revert c. induction ts as [|t ts IH]; intros c E; cbn in E; [congruence|]. destruct (noteDepth t c) eqn:E1; [|discriminate].
  rewrite (IH _ E). eapply meta_noteDepth; eauto.
Qed.
Lemma meta_branch o l n c c' : branch_ o l n c = Some c' -> meta c' = meta c.
Proof.
  unfold branch_. cbv zeta. intros E. destruct (noteDepth l (pop n c)) as [c1|] eqn:E1; [|discriminate]. cbn in E. injection E as <-.
  apply meta_noteDepth in E1. autorewrite with meta in *. repeat bool_case; autorewrite with meta; exact E1.
Qed.

(** What each call does to them. *)
Definition meta_after (x : cmd) (c : CodeWriter) : nat * list handlerRec * list LineNumber * list localRec :=
  match x with
  | CNewLabel => (S (length (labels c)), handlers c, lines c, locals c)
  | CTryCatch lo hi h t => (length (labels c), handlers c ++ [mkHandler lo hi h t], lines c, locals c)
  | CLine n => (length (labels c), handlers c, lines c ++ [mkLine (u16 (len (w c))) (u16 n)], locals c)
  | CLocal slot name descriptor lo hi =>
      match ParseField descriptor with
      | Ok _ => if (slot <? 0) || (MaxLocals <? slot) then meta c
                else (length (labels c), handlers c, lines c, locals c ++ [mkLocal slot name descriptor lo hi])
      | Err _ => meta c
      end
  | _ => meta c
  end.

Ltac meta_call := repeat case_match; cbv zeta; autorewrite with meta; reflexivity.

Lemma meta_run_cmd x c c' : run_cmd x c = Some c' -> meta c' = meta_after x c.
Proof.
  intros E. destruct x; cbn [run_cmd meta_after] in *; try (injection E as <-).
  - unfold meta. cbn. rewrite length_app. cbn. rewrite Nat.add_1_r. reflexivity.
  - unfold Mark in E. destruct (labels c !! l); [|discriminate]. cbn [mbind option_bind] in E. injection E as <-. cbv zeta.
    repeat bool_case; autorewrite with meta; reflexivity.
  - destruct t; cbn [run_load]; unfold Aload_, Iload_, Fload_, Lload_, Dload_, load; autorewrite with meta; reflexivity.
  - destruct t; cbn [run_store]; unfold Astore_, Istore_, Fstore_, Lstore_, Dstore_, store; autorewrite with meta; reflexivity.
  - unfold Iinc_. cbv zeta. meta_call.
  - unfold Local_. destruct (ParseField descriptor); [bool_case|]; autorewrite with meta; reflexivity.
  - unfold Iconst. meta_call.
  - unfold Lconst. meta_call.
  - unfold Fconst. meta_call.
  - unfold Dconst. meta_call.
  - unfold Sconst. meta_call.
  - unfold Cconst. meta_call.
  - unfold AconstNull_. meta_call.
  - destruct a; cbn [run_field]; unfold GetStatic, PutStatic, GetField, PutField, field; cbv zeta; meta_call.
  - destruct k; cbn [run_invoke]; unfold InvokeVirtual, InvokeSpecial, InvokeStatic, InvokeInterface, invoke; cbv zeta; meta_call.
  - unfold New_. meta_call.
  - unfold ANewArray. meta_call.
  - unfold NewArray. meta_call.
  - unfold MultiANewArray. meta_call.
  - unfold CheckCast. meta_call.
  - unfold InstanceOf. meta_call.
  - unfold Throw. meta_call.
  - meta_call.
  - unfold Return_. meta_call.
  - unfold Goto_ in E. destruct (branch_ _ _ _ _) eqn:E1; [|discriminate]. cbn in E. injection E as <-. rewrite meta_terminate. eapply meta_branch; eauto.
  - destruct (run_if_branch k l c) as (o & pops & Er & _). rewrite Er in E. eapply meta_branch; eauto.
  - unfold TableSwitch in E. destruct (high <? low); [injection E as <-; meta_call|].
    destruct (negb _); [injection E as <-; meta_call|]. cbv zeta in E.
    destruct (noteDepth _ _) as [c1|] eqn:E1; [|discriminate]. cbn [mbind option_bind] in E.
    destruct (noteDepths targets c1) as [c2|] eqn:E2; [|discriminate]. cbn [mbind option_bind] in E. injection E as <-.
    apply meta_noteDepth in E1. apply meta_noteDepths in E2. unfold table_body. cbv zeta. autorewrite with meta in *. congruence.
  - unfold LookupSwitch in E. destruct (negb _); [injection E as <-; meta_call|]. cbv zeta in E.
    destruct (duplicate _); [injection E as <-; meta_call|].
    destruct (noteDepth _ _) as [c1|] eqn:E1; [|discriminate]. cbn [mbind option_bind] in E.
    destruct (noteDepths _ c1) as [c2|] eqn:E2; [|discriminate]. cbn [mbind option_bind] in E. injection E as <-.
    apply meta_noteDepth in E1. apply meta_noteDepths in E2. unfold lookup_body. cbv zeta. autorewrite with meta in *. congruence.
  - unfold TryCatch in E. cbn [labels set_handlers] in E. destruct (labels c !! handler); [|discriminate]. cbn [mbind option_bind] in E.
    injection E as <-. repeat bool_case; autorewrite with meta; reflexivity.
  - reflexivity.
Qed.

(** ** Bodies that only name labels they have created *)

(** The labels a call names. *)
Definition uses (x : cmd) : list nat :=
  match x with
  | CMark l | CGoto l | CIf _ l => [l]
  | CTableSwitch _ _ d ts | CLookupSwitch d _ ts => d :: ts
  | CTryCatch lo hi h _ => [lo; hi; h]
  | CLocal _ _ _ lo hi => [lo; hi]
  | _ => []
  end.

Definition creates (x : cmd) : nat := match x with CNewLabel => 1 | _ => 0 end.

(** [n] labels exist before the body. *)
Fixpoint scoped (n : nat) (body : list cmd) : Prop :=
  match body with
  | [] => True
  | x :: body => Forall (fun l => (l < n)%nat) (uses x) /\ scoped (creates x + n) body
  end.

(** The same as a test. *)
Fixpoint scopedb (n : nat) (body : list cmd) : bool :=
  match body with
  | [] => true
  | x :: body => forallb (fun l => Nat.ltb l n) (uses x) && scopedb (creates x + n) body
  end.

Lemma scopedb_sound n body : scopedb n body = true -> scoped n body.
Proof.
  revert n. induction body as [|x body IH]; intros n; cbn [scopedb scoped]; [auto|]. intros H. apply andb_prop in H as [H1 H2].
  split; [|apply IH, H2]. rewrite forallb_forall in H1. apply Forall_forall. intros l Hl. apply Nat.ltb_lt, H1, list_elem_of_In, Hl.
Qed.

Lemma noteDepth_total l c : (l < length (labels c))%nat -> exists c', noteDepth l c = Some c'.
Proof. intros H. unfold noteDepth. destruct (lookup_lt_is_Some_2 (labels c) l H) as [lb ->]. cbn. eauto. Qed.

Lemma meta_labels c c' : meta c' = meta c -> length (labels c') = length (labels c).
Proof. unfold meta. congruence. Qed.

Lemma noteDepths_total ts c : Forall (fun l => (l < length (labels c))%nat) ts -> exists c', noteDepths ts c = Some c'.
Proof.
  revert c. induction ts as [|t ts IH]; intros c H; cbn [noteDepths]; [eauto|]. apply Forall_cons in H as [Ht H].
  destruct (noteDepth_total t c Ht) as [c1 E]. rewrite E. cbn [mbind option_bind]. apply IH. rewrite (meta_labels c c1 (meta_noteDepth _ _ _ E)). exact H.
Qed.

Lemma branch_total o l n c : (l < length (labels c))%nat -> exists c', branch_ o l n c = Some c'.
Proof.
  intros H. unfold branch_. cbv zeta. destruct (noteDepth_total l (pop n c)) as [c1 ->]; [rewrite (meta_labels c); [exact H|apply meta_pop]|].
  cbn. eauto.
Qed.

Lemma notes_total d ts n c : Forall (fun l => (l < length (labels c))%nat) (d :: ts) -> exists c1 c2, noteDepth d (pop n c) = Some c1 /\ noteDepths ts c1 = Some c2.
Proof.
  intros H. apply Forall_cons in H as [Hd H]. destruct (noteDepth_total d (pop n c)) as [c1 E]; [rewrite (meta_labels c); [exact Hd|apply meta_pop]|].
  exists c1. destruct (noteDepths_total ts c1) as [c2 E2]; [|eauto]. rewrite (meta_labels c); [exact H|]. rewrite (meta_noteDepth _ _ _ E). apply meta_pop.
Qed.

Lemma sort_cases_targets ms ts : (forall P : nat -> Prop, Forall P ts -> Forall P (map snd (sort_cases (combine ms ts)))).
Proof.
  intros P H. rewrite (Permutation_map snd (sort_cases_perm (combine ms ts))). revert ms. induction H as [|t ts Ht _ IH]; intros [|m ms]; cbn; constructor; auto.
Qed.

Lemma run_cmd_total x c : Forall (fun l => (l < length (labels c))%nat) (uses x) -> exists c', run_cmd x c = Some c'.
Proof.
  destruct x; cbn [uses run_cmd]; eauto; intros H.
  - apply Forall_cons in H as [H _]. unfold Mark. destruct (lookup_lt_is_Some_2 (labels c) l H) as [lb ->]. cbn. eauto.
  - apply Forall_cons in H as [H _]. unfold Goto_. destruct (branch_total Goto l 0 c H) as [c1 ->]. cbn. eauto.
  - apply Forall_cons in H as [H _]. destruct (run_if_branch k l c) as (o & pops & -> & _). apply branch_total, H.
  - unfold TableSwitch. repeat (bool_case; [eauto|]). cbv zeta. destruct (notes_total _ _ 1 c H) as (c1 & c2 & -> & En). cbn [mbind option_bind].
    rewrite En. cbn. eauto.
  - unfold LookupSwitch. bool_case; [eauto|]. cbv zeta. destruct (duplicate _); [eauto|].
    apply Forall_cons in H as [Hd H]. destruct (notes_total def (map snd (sort_cases (combine matches targets))) 1 c) as (c1 & c2 & -> & En).
    { apply Forall_cons_2; [exact Hd|]. apply sort_cases_targets, H. }
    cbn [mbind option_bind]. rewrite En. cbn. eauto.
  - apply Forall_cons in H as [_ H]. apply Forall_cons in H as [_ H]. apply Forall_cons in H as [H _]. unfold TryCatch. cbn [labels set_handlers].
    destruct (lookup_lt_is_Some_2 (labels c) handler H) as [lb ->]. cbn. eauto.
Qed.

(** The tables name labels that exist. *)
Definition tables_ok (c : CodeWriter) : Prop :=
  Forall (fun h => (hstart h < length (labels c) /\ hend h < length (labels c) /\ hhandler h < length (labels c))%nat) (handlers c) /\
  Forall (fun l => (lstart l < length (labels c) /\ lend l < length (labels c))%nat) (locals c).

Lemma run_cmd_tables x c c' :
  Forall (fun l => (l < length (labels c))%nat) (uses x) -> tables_ok c -> run_cmd x c = Some c' ->
  tables_ok c' /\ length (labels c') = (creates x + length (labels c))%nat.
Proof.
  intros Hu [Hh Hl] E. apply meta_run_cmd in E. unfold tables_ok.
  assert (Hh' : forall n, (length (labels c) <= n)%nat -> Forall (fun h => (hstart h < n /\ hend h < n /\ hhandler h < n)%nat) (handlers c))
    by (intros n Hn; eapply Forall_impl; [exact Hh|cbn; lia]).
  assert (Hl' : forall n, (length (labels c) <= n)%nat -> Forall (fun l => (lstart l < n /\ lend l < n)%nat) (locals c))
    by (intros n Hn; eapply Forall_impl; [exact Hl|cbn; lia]).
  destruct x; cbn [meta_after uses creates] in *; unfold meta in E;
    try (injection E as E1 E2 E3 E4; rewrite E1, E2, E4; split_and!; auto; fail).
  - destruct (ParseField descriptor); [destruct (_ || _)|]; unfold meta in E; injection E as E1 E2 E3 E4; rewrite E1, E2, E4; split_and!; auto.
    apply Forall_app. split; [auto|]. apply Forall_cons in Hu as [H1 Hu]. apply Forall_cons in Hu as [H2 _].
    apply Forall_cons_2; [cbn; auto|apply Forall_nil_2].
  - injection E as E1 E2 E3 E4. rewrite E1, E2, E4. split_and!; auto. apply Forall_app. split; [auto|].
    apply Forall_cons in Hu as [H1 Hu]. apply Forall_cons in Hu as [H2 Hu]. apply Forall_cons in Hu as [H3 _].
    apply Forall_cons_2; [cbn; auto|apply Forall_nil_2].
Qed.

(** Such a body runs to its end. *)
Lemma run_total body c : scoped (length (labels c)) body -> tables_ok c -> exists c', run body c = Some c' /\ tables_ok c'.
Proof.
  revert c. induction body as [|x body IH]; intros c H Ht; cbn [scoped run] in *; [eauto|]. destruct H as [Hu Hs].
  destruct (run_cmd_total x c Hu) as [c1 E]. rewrite E. cbn [mbind option_bind]. destruct (run_cmd_tables x c c1 Hu Ht E) as [Ht1 Hl].
  apply IH; [rewrite Hl; exact Hs|exact Ht1].
Qed.
