(* ===== verification/Builder.v ===== *)
(** * Assembling a class ([classfile/builder.go])

    The builder's fields and methods are records in lists; a [*FieldBuilder] or
    [*MethodBuilder] is its index.  [Code] replays a body until no branch has
    to be widened; a panic anywhere is [None]. *)
From S2P Require Import Prelude.
From S2P Require Import Desc.
From S2P Require Import Format.
From S2P Require Import ClassIO.
From S2P Require Import PoolBuilder.
From S2P Require Import CodeWriter.

Definition MaxCodeLength : Z := 65535.
Definition maxReplays : nat := 10.

Definition Magic : Z := 0xCAFEBABE.

Record FieldBuilder := mkField { fflags : Z; fname : bytes; fdescriptor : bytes; fconstant : Z; fsignature : bytes }.

Record encodedHandler := mkEH { ehStart : Z; ehEnd : Z; ehHandler : Z; ehCatch : Z }.

Record MethodBuilder := mkMethod {
  mflags : Z;
  mname : bytes;
  mdescriptor : bytes;
  msignature : bytes;
  mexceptions : list bytes;
  mcode : bytes;
  mmaxStack : Z;
  mmaxLocals : Z;
  mhandlers : list encodedHandler;
  mlines : list LineNumber;
  mlocals : list LocalVariable;
  hasCode : bool }.

Record Builder := mkBuilder {
  bpool : PoolBuilder;
  bversion : Version;
  bflags : Z;
  bname : bytes;
  bsuper : bytes;
  ifaces : list bytes;
  fields : list FieldBuilder;
  methods : list MethodBuilder;
  sourceFile : bytes;
  berr : option goerror }.

Definition java_lang_Object : bytes := bs "java/lang/Object".

Definition NewBuilder (internal : bytes) : Builder :=
  mkBuilder newPoolBuilder (mkVersion Java5 0) (Z.lor AccPublic AccSuper) internal java_lang_Object [] [] [] [] None.

Definition set_bpool (x : PoolBuilder) (b : Builder) : Builder :=
  mkBuilder x (bversion b) (bflags b) (bname b) (bsuper b) (ifaces b) (fields b) (methods b) (sourceFile b) (berr b).
Definition set_bversion (x : Version) (b : Builder) : Builder :=
  mkBuilder (bpool b) x (bflags b) (bname b) (bsuper b) (ifaces b) (fields b) (methods b) (sourceFile b) (berr b).
Definition SetFlags (x : Z) (b : Builder) : Builder :=
  mkBuilder (bpool b) (bversion b) x (bname b) (bsuper b) (ifaces b) (fields b) (methods b) (sourceFile b) (berr b).
Definition SetSuper (x : bytes) (b : Builder) : Builder :=
  mkBuilder (bpool b) (bversion b) (bflags b) (bname b) x (ifaces b) (fields b) (methods b) (sourceFile b) (berr b).
Definition AddInterface (x : bytes) (b : Builder) : Builder :=
  mkBuilder (bpool b) (bversion b) (bflags b) (bname b) (bsuper b) (ifaces b ++ [x]) (fields b) (methods b) (sourceFile b) (berr b).
Definition set_fields (x : list FieldBuilder) (b : Builder) : Builder :=
  mkBuilder (bpool b) (bversion b) (bflags b) (bname b) (bsuper b) (ifaces b) x (methods b) (sourceFile b) (berr b).
Definition set_methods (x : list MethodBuilder) (b : Builder) : Builder :=
  mkBuilder (bpool b) (bversion b) (bflags b) (bname b) (bsuper b) (ifaces b) (fields b) x (sourceFile b) (berr b).
Definition SetSourceFile (x : bytes) (b : Builder) : Builder :=
  mkBuilder (bpool b) (bversion b) (bflags b) (bname b) (bsuper b) (ifaces b) (fields b) (methods b) x (berr b).
Definition set_berr (x : option goerror) (b : Builder) : Builder :=
  mkBuilder (bpool b) (bversion b) (bflags b) (bname b) (bsuper b) (ifaces b) (fields b) (methods b) (sourceFile b) x.

Definition bfail (format : string) (args : list errarg) (b : Builder) : Builder :=
  match berr b with
  | Some _ => b
  | None => set_berr (Some (Errorf ("classfile: " ++ format) args)) b
  end.

Definition SetVersion (v : Version) (b : Builder) : Builder :=
  if Java6 <=? Major v then
    bfail "cannot target class file %s: versions 50.0 and above require a StackMapTable, which this encoder does not generate"
      [AErr (VersionString v)] b
  else if Major v <? Java1_0 then bfail "class file version %s is below the minimum of 45.0" [AErr (VersionString v)] b
  else if Minor v =? PreviewMinor then
    bfail "cannot target class file %s: this encoder emits no preview constructs" [AErr (VersionString v)] b
  else set_bversion v b.

(** ** Fields *)

(** [Builder.Field] *)
Definition AddField (flags : Z) (name descriptor : bytes) (b : Builder) : Builder :=
  let b := match ParseField descriptor with Err e => bfail "field %s: %v" [AStr name; AErr e] b | Ok _ => b end in
  set_fields (fields b ++ [mkField flags name descriptor 0 []]) b.

Definition setConstant (i : nat) (idx : Z) (b : Builder) : option Builder :=
  f ← fields b !! i;
  Some (if negb (Has (fflags f) (Z.lor AccStatic AccFinal)) then
          bfail "field %s carries a ConstantValue but is not static final" [AStr (fname f)] b
        else set_fields (<[i := mkField (fflags f) (fname f) (fdescriptor f) idx (fsignature f)]> (fields b)) b).

(** [f.setConstant(f.b.pool.Int(v))] and its siblings. *)
Definition constant_of (m : PB Z) (i : nat) (b : Builder) : option Builder :=
  let '(idx, p) := m (bpool b) in setConstant i idx (set_bpool p b).

Definition ConstantInt (i : nat) (v : Z) : Builder -> option Builder := constant_of (Int v) i.
Definition ConstantLong (i : nat) (v : Z) : Builder -> option Builder := constant_of (Long v) i.
Definition ConstantFloat (i : nat) (bits : Z) : Builder -> option Builder := constant_of (Float bits) i.
Definition ConstantDouble (i : nat) (bits : Z) : Builder -> option Builder := constant_of (Double bits) i.
Definition ConstantString (i : nat) (v : bytes) : Builder -> option Builder := constant_of (String_ v) i.

Definition FieldSignature (i : nat) (s : bytes) (b : Builder) : option Builder :=
  f ← fields b !! i;
  Some (set_fields (<[i := mkField (fflags f) (fname f) (fdescriptor f) (fconstant f) s]> (fields b)) b).

(** ** Methods *)

(** [Builder.Method] *)
Definition AddMethod (flags : Z) (name descriptor : bytes) (b : Builder) : Builder :=
  let b := match ParseMethod descriptor with Err e => bfail "method %s: %v" [AStr name; AErr e] b | Ok _ => b end in
  set_methods (methods b ++ [mkMethod flags name descriptor [] [] [] 0 0 [] [] [] false]) b.

Definition Throws (i : nat) (internal : bytes) (b : Builder) : option Builder :=
  m ← methods b !! i;
  Some (set_methods (<[i := mkMethod (mflags m) (mname m) (mdescriptor m) (msignature m) (mexceptions m ++ [internal]) (mcode m)
    (mmaxStack m) (mmaxLocals m) (mhandlers m) (mlines m) (mlocals m) (hasCode m)]> (methods b)) b).

Definition MethodSignature (i : nat) (s : bytes) (b : Builder) : option Builder :=
  m ← methods b !! i;
  Some (set_methods (<[i := mkMethod (mflags m) (mname m) (mdescriptor m) s (mexceptions m) (mcode m)
    (mmaxStack m) (mmaxLocals m) (mhandlers m) (mlines m) (mlocals m) (hasCode m)]> (methods b)) b).

(** The writer a pass starts with. *)
Definition start (p : PoolBuilder) (ret : Ty) (ver : Version) (widen : gset Z) (pass : Z) (maxLocals : Z) : CodeWriter :=
  mkCW p [] None ret ver [] [] [] [] [] [] widen pass 0 0 maxLocals true.

(** How one pass ends: with an error (its format and arguments after the method
    name), asking for another, or done. *)
Inductive pass_result :=
  | PFailed (format : string) (args : list errarg) (c : CodeWriter)
  | PAgain (c : CodeWriter)
  | PDone (c : CodeWriter).

Definition one_pass (body : list cmd) (c : CodeWriter) : option pass_result :=
  c ← run body c;
  match err c with
  | Some e => Some (PFailed "method %s: %v" [AErr e] c)
  | None =>
      if reachable c then Some (PFailed "method %s: control can fall off the end of the body" [] c)
      else
        r ← resolve c;
        let c := snd r in
        if fst r : bool then Some (PAgain c)
        else match err c with
        | Some e => Some (PFailed "method %s: %v" [AErr e] c)
        | None =>
            if len (w c) =? 0 then Some (PFailed "method %s: code array is empty" [] c)
            else if MaxCodeLength <? len (w c) then
              Some (PFailed "method %s: code array is %d bytes, over the %d limit" [ANum (len (w c)); ANum MaxCodeLength] c)
            else if (MaxStack <? maxStack c) || (MaxLocals <? maxLocals c) then
              Some (PFailed "method %s: max_stack %d / max_locals %d exceed the u2 limits" [ANum (maxStack c); ANum (maxLocals c)] c)
            else Some (PDone c)
        end
  end.

(** The replay loop, [todo] passes before the bound; [None] inside is the
    bound reached. *)
Fixpoint replays (todo : nat) (pass : Z) (body : list cmd) (p : PoolBuilder) (ret : Ty) (ver : Version) (widen_ : gset Z)
    (maxLocals0 : Z) : option (option pass_result * PoolBuilder) :=
  match todo with
  | O => Some (None, p)
  | S todo =>
      r ← one_pass body (start p ret ver widen_ pass maxLocals0);
      match r with
      | PAgain c => replays todo (pass + 1) body (cp c) ret ver (widen c) maxLocals0
      | PFailed _ _ c | PDone c => Some (Some r, cp c)
      end
  end.

(** The handler rows: a catch type is interned, a label's pc cut to 16 bits. *)
Fixpoint encode_handlers (hs : list handlerRec) (ls : list Label) (p : PoolBuilder) : option (list encodedHandler * PoolBuilder) :=
  match hs with
  | [] => Some ([], p)
  | h :: hs =>
      let '(ct, p) := match catchType h with [] => (0, p) | t => Class_ t p end in
      s ← ls !! hstart h; e ← ls !! hend h; t ← ls !! hhandler h;
      r ← encode_handlers hs ls p;
      Some (mkEH (u16 (pc s)) (u16 (pc e)) (u16 (pc t)) ct :: fst r, snd r)
  end.

(** [m.code = c.w.b] and the rest of what a finished pass stores. *)
Definition store_code (m : MethodBuilder) (c : CodeWriter) (rows : list LocalVariable) : MethodBuilder :=
  mkMethod (mflags m) (mname m) (mdescriptor m) (msignature m) (mexceptions m) (w c) (u16 (maxStack c)) (u16 (maxLocals c))
    (mhandlers m) (lines c) rows true.
Definition add_handlers (m : MethodBuilder) (hs : list encodedHandler) : MethodBuilder :=
  mkMethod (mflags m) (mname m) (mdescriptor m) (msignature m) (mexceptions m) (mcode m) (mmaxStack m) (mmaxLocals m)
    (mhandlers m ++ hs) (mlines m) (mlocals m) (hasCode m).

Definition set_method (i : nat) (m : MethodBuilder) (b : Builder) : Builder := set_methods (<[i := m]> (methods b)) b.

(** [MethodBuilder.Code], with the bound on the passes as an argument. *)
Definition Code_bound (limit : nat) (i : nat) (body : list cmd) (b : Builder) : option Builder :=
  m ← methods b !! i;
  match berr b with
  | Some _ => Some b
  | None =>
      let receiver := negb (Has (mflags m) AccStatic) in
      match ParseMethod (mdescriptor m) with
      | Err e => Some (bfail "method %s: %v" [AStr (mname m); AErr e] b)
      | Ok sig =>
          match CheckArgSlots sig receiver with
          | Some e => Some (bfail "method %s: %v" [AStr (mname m); AErr e] b)
          | None =>
              r ← replays limit 0 body (bpool b) (Ret sig) (bversion b) ∅ (s32 (ArgSlots sig receiver));
              let b := set_bpool (snd r) b in
              match fst r with
              | None => Some (bfail "method %s: branch widening did not converge after %d passes" [AStr (mname m); ANum (Z.of_nat limit)] b)
              | Some (PAgain _) => Some b
              | Some (PFailed format args _) => Some (bfail format (AStr (mname m) :: args) b)
              | Some (PDone c) =>
                  rows ← localRows c;
                  let m := store_code m c (fst rows) in
                  let b := set_method i m b in
                  match err (snd rows) with
                  | Some e => Some (bfail "method %s: %v" [AStr (mname m); AErr e] b)
                  | None =>
                      hs ← encode_handlers (handlers c) (labels c) (bpool b);
                      Some (set_method i (add_handlers m (fst hs)) (set_bpool (snd hs) b))
                  end
              end
          end
      end
  end.

Definition Code : nat -> list cmd -> Builder -> option Builder := Code_bound maxReplays.

(** ** Emission

    The functions below append to a writer and intern into the pool. *)

Definition emit_u2s (l : list Z) (w : bytes) : bytes := foldl (fun w v => wU2 v w) w l.

(** [attrs.attr(pool.UTF8(name), func(w) { ... })] *)
Definition attr_utf8 (name : bytes) (body : bytes -> PoolBuilder -> option (bytes * PoolBuilder)) (w : bytes) (p : PoolBuilder)
    : option (bytes * PoolBuilder) :=
  let '(i, p) := UTF8 name p in attr i body w p.

Definition emitField (w : bytes) (f : FieldBuilder) (p : PoolBuilder) : option (bytes * PoolBuilder) :=
  let w := wU2 (u16 (fflags f)) w in
  let '(i, p) := UTF8 (fname f) p in
  let w := wU2 i w in
  let '(i, p) := UTF8 (fdescriptor f) p in
  let w := wU2 i w in
  let has_const := negb (fconstant f =? 0) in
  let has_sig := negb (bool_decide (fsignature f = [])) in
  let attrs := wU2 (u16 (Z.b2z has_const + Z.b2z has_sig)) [] in
  r ← (if has_const then attr_utf8 (bs "ConstantValue") (fun w p => Some (wU2 (fconstant f) w, p)) attrs p else Some (attrs, p));
  let '(attrs, p) := r in
  r ← (if has_sig then let '(s, p) := UTF8 (fsignature f) p in attr_utf8 (bs "Signature") (fun w p => Some (wU2 s w, p)) attrs p
       else Some (attrs, p));
  let '(attrs, p) := r in
  Some (wRaw attrs w, p).

(** The rows of the local variable table, their names interned. *)
Fixpoint lv_rows (l : list LocalVariable) (p : PoolBuilder) : list (list Z) * PoolBuilder :=
  match l with
  | [] => ([], p)
  | lv :: l =>
      let '(n, p) := UTF8 (LVName lv) p in
      let '(d, p) := UTF8 (LVDescriptor lv) p in
      let '(rows, p) := lv_rows l p in
      ([LVStart lv; LVLength lv; n; d; LVSlot lv] :: rows, p)
  end.

(** The body of the Code attribute. *)
Definition emit_code (m : MethodBuilder) (rows : list (list Z)) (w : bytes) (p : PoolBuilder) : option (bytes * PoolBuilder) :=
  let w := wU2 (mmaxLocals m) (wU2 (mmaxStack m) w) in
  let w := wRaw (mcode m) (wU4 (u32 (len (mcode m))) w) in
  let w := wU2 (u16 (len (mhandlers m))) w in
  let w := foldl (fun w h => emit_u2s [ehStart h; ehEnd h; ehHandler h; ehCatch h] w) w (mhandlers m) in
  let has_lines := 0 <? len (mlines m) in
  let has_rows := 0 <? len rows in
  let w := wU2 (u16 (Z.b2z has_lines + Z.b2z has_rows)) w in
  r ← (if has_lines then
         attr_utf8 (bs "LineNumberTable") (fun w p =>
           Some (foldl (fun w ln => emit_u2s [StartPC ln; LineNo ln] w) (wU2 (u16 (len (mlines m))) w) (mlines m), p)) w p
       else Some (w, p));
  let '(w, p) := r in
  if has_rows then
    attr_utf8 (bs "LocalVariableTable") (fun w p => Some (foldl (fun w r => emit_u2s r w) (wU2 (u16 (len rows)) w) rows, p)) w p
  else Some (w, p).

(** Interning a list of classes. *)
Fixpoint class_list (l : list bytes) (p : PoolBuilder) : list Z * PoolBuilder :=
  match l with
  | [] => ([], p)
  | x :: l => let '(i, p) := Class_ x p in let '(is_, p) := class_list l p in (i :: is_, p)
  end.

(** The member table entry of a method, once its body is known to be right. *)
Definition emit_method_info (w : bytes) (m : MethodBuilder) (p : PoolBuilder) : option (bytes * PoolBuilder) :=
  let w := wU2 (u16 (mflags m)) w in
  let '(i, p) := UTF8 (mname m) p in
  let w := wU2 i w in
  let '(i, p) := UTF8 (mdescriptor m) p in
  let w := wU2 i w in
  let has_exc := 0 <? len (mexceptions m) in
  let has_sig := negb (bool_decide (msignature m = [])) in
  let attrs := wU2 (u16 (Z.b2z (hasCode m) + Z.b2z has_exc + Z.b2z has_sig)) [] in
  r ← (if hasCode m then let '(rows, p) := lv_rows (mlocals m) p in attr_utf8 (bs "Code") (emit_code m rows) attrs p
       else Some (attrs, p));
  let '(attrs, p) := r in
  r ← (if has_exc then
         let '(idx, p) := class_list (mexceptions m) p in
         attr_utf8 (bs "Exceptions") (fun w p => Some (emit_u2s idx (wU2 (u16 (len idx)) w), p)) attrs p
       else Some (attrs, p));
  let '(attrs, p) := r in
  r ← (if has_sig then let '(s, p) := UTF8 (msignature m) p in attr_utf8 (bs "Signature") (fun w p => Some (wU2 s w, p)) attrs p
       else Some (attrs, p));
  let '(attrs, p) := r in
  Some (wRaw attrs w, p).

Definition emitMethod (w : bytes) (m : MethodBuilder) (b : Builder) : option (bytes * Builder) :=
  if hasCode m && (Has (mflags m) AccAbstract || Has (mflags m) AccNative) then
    Some (w, bfail "method %s is abstract or native but has a body" [AStr (mname m)] b)
  else if negb (hasCode m) && negb (Has (mflags m) AccAbstract) && negb (Has (mflags m) AccNative) then
    Some (w, bfail "method %s has no body but is neither abstract nor native" [AStr (mname m)] b)
  else r ← emit_method_info w m (bpool b); Some (fst r, set_bpool (snd r) b).

Fixpoint emit_fields (l : list FieldBuilder) (w : bytes) (b : Builder) : option (bytes * Builder) :=
  match l with
  | [] => Some (w, b)
  | f :: l => r ← emitField w f (bpool b); emit_fields l (fst r) (set_bpool (snd r) b)
  end.

Fixpoint emit_methods (l : list MethodBuilder) (w : bytes) (b : Builder) : option (bytes * Builder) :=
  match l with
  | [] => Some (w, b)
  | m :: l => r ← emitMethod w m b; emit_methods l (fst r) (snd r)
  end.

(** The class attributes: the source file, if any. *)
Definition emit_class_attrs (b : Builder) : option (bytes * Builder) :=
  let has_src := negb (bool_decide (sourceFile b = [])) in
  let w := wU2 (u16 (Z.b2z has_src)) [] in
  if has_src then
    let '(n, p) := UTF8 (bs "SourceFile") (bpool b) in
    let '(v, p) := UTF8 (sourceFile b) p in
    r ← attr n (fun w p => Some (wU2 v w, p)) w p;
    Some (fst r, set_bpool (snd r) b)
  else Some (w, b).

(** The tables [Bytes] builds before the pool is written. *)
Record tables := mkTables { tthis : Z; tsuper : Z; tifaces : list Z; tfields : bytes; tmethods : bytes; tattrs : bytes }.

Definition build_tables (b : Builder) : option (result goerror tables * Builder) :=
  let '(thisIdx, p) := Class_ (bname b) (bpool b) in
  let b := set_bpool p b in
  if bool_decide (bsuper b = []) && negb (bool_decide (bname b = java_lang_Object)) then
    Some (Err (Errorf "classfile: %s has no superclass but is not java/lang/Object" [AStr (bname b)]), b)
  else
    let '(superIdx, p) := match bsuper b with [] => (0, bpool b) | s => Class_ s (bpool b) end in
    let '(ifaceIdx, p) := class_list (ifaces b) p in
    let b := set_bpool p b in
    f ← emit_fields (fields b) (wU2 (u16 (len (fields b))) []) b;
    let '(fs, b) := f in
    m ← emit_methods (methods b) (wU2 (u16 (len (methods b))) []) b;
    let '(ms, b) := m in
    a ← emit_class_attrs b;
    let '(attrs, b) := a in
    Some (Ok (mkTables thisIdx superIdx ifaceIdx fs ms attrs), b).

(** The class file proper. *)
Definition assemble (b : Builder) (t : tables) : bytes :=
  let w := wU2 (Major (bversion b)) (wU2 (Minor (bversion b)) (wU4 Magic [])) in
  let w := emit (bpool b) w in
  let w := wU2 (tsuper t) (wU2 (tthis t) (wU2 (u16 (bflags b)) w)) in
  let w := emit_u2s (tifaces t) (wU2 (u16 (len (tifaces t))) w) in
  wRaw (tattrs t) (wRaw (tmethods t) (wRaw (tfields t) w)).

Definition Bytes (b : Builder) : option (result goerror bytes * Builder) :=
  match berr b with
  | Some e => Some (Err e, b)
  | None =>
      r ← build_tables b;
      match r with
      | (Err e, b) => Some (Err e, b)
      | (Ok t, b) =>
          match perr (bpool b), berr b with
          | Some e, _ => Some (Err e, b)
          | None, Some e => Some (Err e, b)
          | None, None => Some (Ok (assemble b t), b)
          end
      end
  end.
