(* ===== verification/MethodProof.v ===== *)
(** * Method bodies: correctness

    The theorems about [MethodBuilder.Code]: the code array it stores decodes
    to what the body asked for, every transfer arrives at the label it names
    with the stack depth recorded for it, and the replay loop. *)
From Stdlib Require Import Sorting.Sorted.
From S2P Require Import Prelude.
From S2P Require Import Desc.
From S2P Require Import Op.
From S2P Require Import Format.
From S2P Require Import ClassIO.
From S2P Require Import PoolBuilder.
From S2P Require Import Code.
From S2P Require Import CodeWriter.
From S2P Require Import CodeProof.
From S2P Require Import CodeCorrect.
From S2P Require Import Builder.

(** ** What only grows while a body runs *)

Definition label_grows (ls ls' : list Label) : Prop :=
  forall l lb, ls !! l = Some lb -> exists lb', ls' !! l = Some lb' /\
    (0 <= pc lb -> pc lb' = pc lb) /\ (0 <= ldepth lb -> ldepth lb' = ldepth lb).

Record grows (k k' : core) : Prop := {
  grows_brs : kbranches k `prefix_of` kbranches k';
  grows_sws : kswitches k `prefix_of` kswitches k';
  grows_labels : label_grows (klabels k) (klabels k');
  grows_max : kmax k <= kmax k' }.

#[export] Instance label_grows_preorder : PreOrder label_grows.
Proof.
  split.
  - intros ls l lb H. eauto.
  - intros a b c H1 H2 l lb H. destruct (H1 _ _ H) as (lb1 & E1 & P1 & D1). destruct (H2 _ _ E1) as (lb2 & E2 & P2 & D2).
    exists lb2. split_and!; auto; intros Hp; [specialize (P1 Hp)|specialize (D1 Hp)]; [rewrite P2|rewrite D2]; lia.
Qed.

#[export] Instance grows_preorder : PreOrder grows.
Proof.
  split.
  - intros k. split; try reflexivity.
  - intros a b c [? ? ? ?] [? ? ? ?]. split; [etrans; eauto|etrans; eauto|etrans; eauto|lia].
Qed.

Lemma note_label_grows d l ls ls' : note d l ls = Some ls' -> label_grows ls ls'.
Proof.
  unfold note. destruct (ls !! l) as [lb|] eqn:E; [|discriminate]. cbn [mbind option_bind].
  pose proof (lookup_lt_Some _ _ _ E) as Hlt. destruct (ldepth lb <? 0) eqn:E1; to_Z.
  - intros [= <-] l' lb' H. destruct (decide (l' = l)) as [->|Hne].
    + rewrite list_lookup_insert_eq by exact Hlt. eexists. split; [reflexivity|]. cbn. rewrite E in H. injection H as <-. split; intros; [reflexivity|lia].
    + rewrite list_lookup_insert_ne by auto. eauto.
  - destruct (ldepth lb =? d); [|discriminate]. intros [= <-]. reflexivity.
Qed.

Lemma notes_label_grows d ts ls ls' : notes d ts ls = Some ls' -> label_grows ls ls'.
Proof.
  revert ls. induction ts as [|t ts IH]; intros ls E; cbn in E; [injection E as <-; reflexivity|].
  destruct (note d t ls) as [ls1|] eqn:E1; [|discriminate]. etrans; [eapply note_label_grows; eauto|eauto].
Qed.

Lemma kstep_grows k its k' : kstep k its k' -> grows k k'.
Proof.
  intros H. destruct H; (split; cbn; [auto|auto| |lia]); try reflexivity; try (apply prefix_app_r; reflexivity).
  - eapply note_label_grows; eauto.
  - eapply (notes_label_grows _ (def s :: targets s)); eauto.
  - intros l' lb' H'. pose proof (lookup_lt_Some _ _ _ H) as Hlt. destruct (decide (l' = l)) as [->|Hne].
    + rewrite list_lookup_insert_eq by exact Hlt. eexists. split; [reflexivity|]. cbn. rewrite H in H'. injection H' as <-. lia.
    + rewrite list_lookup_insert_ne by auto. eauto.
  - intros l lb Hl. exists lb. split; [apply lookup_app_l_Some, Hl|auto].
  - eapply note_label_grows; eauto.
Qed.

Lemma ksteps_grows k its k' : ksteps k its k' -> grows k k'.
Proof. induction 1; [reflexivity|]. etrans; [eassumption|eapply kstep_grows; eauto]. Qed.

(** ** One pass *)

Lemma start_kok p r v wd n ml : kok (core_of (start p r v wd n ml)).
Proof. split_and!; cbn; try lia; [unfold MaxStack; lia|constructor]. Qed.

Lemma start_inv p r v wd n ml : inv [] (core_of (start p r v wd n ml)).
Proof. split; try reflexivity; cbn; intros; try discriminate; auto. Qed.

Lemma run_app a b c : run (a ++ b) c = (c1 ← run a c; run b c1).
Proof. revert c. induction a as [|x a IH]; intros c; [reflexivity|]. cbn. destruct (run_cmd x c); cbn; [apply IH|reflexivity]. Qed.

(** The writer at the end of the body, and what the pass makes of it. *)
Lemma pass_done body c0 c :
  one_pass body c0 = Some (PDone c) ->
  exists c1, run body c0 = Some c1 /\ err c1 = None /\ reachable c1 = false /\ resolve c1 = Some (false, c) /\ err c = None /\
    0 < len (w c) <= 65535 /\ maxStack c <= 65535 /\ maxLocals c <= 65535.
Proof.
  unfold one_pass. destruct (run body c0) as [c1|]; [|discriminate]. cbn [mbind option_bind]. destruct (err c1) eqn:E1; [discriminate|].
  destruct (reachable c1) eqn:Er; [discriminate|]. destruct (resolve c1) as [[a c2]|] eqn:Eres; [|discriminate]. cbn [mbind option_bind fst snd].
  destruct a; [discriminate|]. destruct (err c2) eqn:E2; [discriminate|]. unfold MaxCodeLength, MaxStack, MaxLocals.
  pose proof (len_nonneg (w c2)). repeat bool_case; try discriminate. to_Z. intros [= <-]. exists c1. split_and!; auto; lia.
Qed.

(** A body cut at one command. *)
Lemma pass_split pre_ x post_ c0 c1 :
  Forall cmd_ok (pre_ ++ x :: post_) -> kok (core_of c0) -> inv [] (core_of c0) ->
  run (pre_ ++ x :: post_) c0 = Some c1 -> err c1 = None ->
  exists ca cb its1 its2, run pre_ c0 = Some ca /\ run_cmd x ca = Some cb /\ cmd_ok x /\ kok (core_of ca) /\ err cb = None /\
    inv its1 (core_of ca) /\ grows (core_of c0) (core_of ca) /\ grows (core_of cb) (core_of c1) /\ kok (core_of c1) /\
    forall its', kstep (core_of ca) its' (core_of cb) -> inv (its1 ++ its' ++ its2) (core_of c1).
Proof.
  intros Hb Hk Hi Hrun He. rewrite run_app in Hrun. destruct (run pre_ c0) as [ca|] eqn:Ea; [|discriminate]. cbn [mbind option_bind run] in Hrun.
  destruct (run_cmd x ca) as [cb|] eqn:Ex; [|discriminate]. cbn [mbind option_bind] in Hrun.
  apply Forall_app in Hb as [Hb1 Hb2]. apply Forall_cons in Hb2 as [Hx Hb2].
  assert (Heb : err cb = None) by (destruct (err cb) eqn:E; [rewrite (st_run _ _ _ _ Hrun E) in He; discriminate|reflexivity]).
  assert (Hea : err ca = None) by (destruct (err ca) eqn:E; [rewrite (st_run_cmd _ _ _ _ Ex E) in Heb; discriminate|reflexivity]).
  destruct (run_steps pre_ c0 ca Hb1 Hk Ea Hea) as (_ & Hka & its1 & Hs1 & _). destruct (ksteps_inv _ _ _ Hs1 Hk Hi) as [Hi1 _].
  destruct (run_cmd_step x ca cb Hx Hka Ex Heb) as (_ & its' & Hs'). pose proof (kstep_kok _ _ _ Hs' Hka) as Hkb.
  destruct (run_steps post_ cb c1 Hb2 Hkb Hrun He) as (_ & Hk1 & its2 & Hs2 & _). exists ca, cb, its1, its2. split_and!; auto.
  - eapply ksteps_grows; eauto.
  - eapply ksteps_grows; eauto.
  - intros its3 Hs3. rewrite app_assoc. apply (ksteps_inv (core_of c0)); auto. eapply ksteps_app; [eapply ks_snoc; eauto|exact Hs2].
Qed.

(** The labels of a finished pass lie inside the array. *)
Lemma placed_range its c1 n : inv its (core_of c1) -> (n <= length its)%nat -> len (bytes_of its) <= 65535 -> 0 <= offset its n <= len (bytes_of its).
Proof.
  intros _ Hn _. unfold offset. split; [apply len_nonneg|]. rewrite <- (take_drop n its) at 2. rewrite bytes_of_app, len_app.
  pose proof (len_nonneg (bytes_of (drop n its))). lia.
Qed.

Lemma is_placed_range its c1 l : inv its (core_of c1) -> len (bytes_of its) <= 65535 -> is_placed (labels c1) l ->
  0 <= pc_of (labels c1) l <= 65535.
Proof.
  intros Hi Hlen (lb & El & Hp). unfold pc_of. rewrite El. destruct (inv_labels _ _ Hi l lb El) as [E|(n & Hn & Hpc & _)]; [lia|].
  pose proof (placed_range its c1 n Hi Hn Hlen). rewrite Hpc, s32_id by lia. lia.
Qed.

(** The instructions of a finished pass, and how the array decodes into them. *)
Lemma pass_decodes its c1 c :
  inv its (core_of c1) -> resolve c1 = Some (false, c) -> err c = None -> len (w c) <= 65535 ->
  labels c = labels c1 /\
  exists jss cur, walk (S (length (w c))) (IterOf (w c)) = Some (concat jss, mkIter (w c) (len (w c)) cur None) /\
    forall n i, its !! n = Some i -> exists js, jss !! n = Some js /\ decoded (labels c) (offset its n) (body i) js.
Proof.
  intros Hi Hres He Hlen. destruct (resolve_done its c1 c Hi Hres He) as (Ec & He1 & Hb & Hs).
  assert (Hw : w c = rend_of (labels c1) true its) by (rewrite Ec; reflexivity). assert (Hl : labels c = labels c1) by (rewrite Ec; reflexivity).
  assert (Hitems : forall n i, its !! n = Some i -> exists o, item_ok o i) by (intros n i Hn; eexists; eapply inv_items; eauto).
  assert (Hlen' : len (bytes_of its) <= 65535) by (rewrite <- (rend_len (labels c1)), <- Hw; auto).
  split_and!; auto. rewrite Hl.
  destruct (rend_yields (labels c1) its []) as (jss & Hjs & Hy & Hn).
  - intros n i Hn. rewrite len_nil, Z.add_0_l. split; [eapply inv_items; eauto|]. split.
    + apply Forall_forall. intros l Hin. apply (is_placed_range its); auto. unfold jumps in Hin. apply list_elem_of_lookup_2 in Hn.
      destruct (body i) as [r|b|s keys] eqn:E.
      * apply elem_of_nil in Hin. contradiction.
      * apply list_elem_of_singleton in Hin as ->. rewrite Forall_forall in Hb. apply Hb. unfold brs. apply list_elem_of_In, in_flat_map.
        exists i. split; [apply list_elem_of_In, Hn|]. rewrite E. left. reflexivity.
      * rewrite Forall_forall in Hs. assert (Hin2 : s ∈ sws its).
        { unfold sws. apply list_elem_of_In, in_flat_map. exists i. split; [apply list_elem_of_In, Hn|]. rewrite E. left. reflexivity. }
        specialize (Hs s Hin2). rewrite Forall_forall in Hs. apply Hs, Hin.
    + intros b E. rewrite Forall_forall in Hb. apply Hb. unfold brs. apply list_elem_of_In, in_flat_map.
      apply list_elem_of_lookup_2 in Hn. exists i. split; [apply list_elem_of_In, Hn|]. rewrite E. left. reflexivity.
  - cbn [app]. rewrite <- Hw. exact Hlen.
  - cbn [app] in Hy. rewrite <- Hw in Hy, Hn. destruct (Hy zeroInstr (S (length (w c)))) as (cur & E); [lia|].
    exists jss, cur. split; [|exact Hjs]. change (IterOf (w c)) with (mkIter (w c) 0 zeroInstr None). change (len []) with 0 in E. rewrite E.
    destruct (S (length (w c)) - length (concat jss))%nat eqn:Ef; [lia|]. cbn [walk]. unfold Next. cbn [ipc icode ierr].
    rewrite (proj2 (Z.leb_le _ _)) by lia. cbn. rewrite app_nil_r. reflexivity.
Qed.

(** The array is made of bytes. *)
Lemma bytes_ok_concat {A} (f : A -> bytes) l : (forall x, bytes_ok (f x)) -> bytes_ok (concat (map f l)).
Proof. intros H. induction l; cbn; [constructor|]. apply bytes_ok_app. auto. Qed.

Lemma bytes_ok_zip {A B} (f : A -> B -> bytes) l k : (forall x y, bytes_ok (f x y)) -> bytes_ok (concat (zip_with f l k)).
Proof. intros H. revert k. induction l; intros [|y k]; cbn; try constructor. apply bytes_ok_app. auto. Qed.

Lemma bytes_ok_u8 v : bytes_ok [u8 v].
Proof. apply Forall_cons_2; [apply u8_range|constructor]. Qed.

Lemma rend_bytes ls o i : item_ok o i -> bytes_ok (rend ls true (body i)).
Proof.
  unfold item_ok. destruct (body i) as [r|b|s keys]; cbn [rend].
  - intros [H _]. exact H.
  - intros _. unfold rbranch. repeat bool_case; repeat (apply bytes_ok_app; split); auto using bytes_ok_u8, be2_ok, be4_ok.
  - intros (_ & _ & _ & _). unfold rswitch, switch_head, switch_table, word. repeat (apply bytes_ok_app; split);
      auto using bytes_ok_u8, be2_ok, be4_ok.
    + apply Forall_replicate. lia.
    + bool_case; auto using bytes_ok_concat, be4_ok.
    + bool_case; [apply bytes_ok_concat|apply bytes_ok_zip]; intros; rewrite ?bytes_ok_app; auto using be4_ok.
Qed.

Lemma rend_of_bytes ls its k : inv its k -> bytes_ok (rend_of ls true its).
Proof.
  intros Hi. unfold rend_of. apply Forall_concat, Forall_forall. intros x Hx. apply list_elem_of_In, in_map_iff in Hx as (i & <- & Hx).
  apply list_elem_of_In, list_elem_of_lookup in Hx as [n Hn]. eapply rend_bytes, inv_items; eauto.
Qed.

(** ** What a body asks for *)

Definition if_op (k : cond) : Z :=
  match k with
  | Eq => Ifeq | Ne => Ifne | Lt => Iflt | Ge => Ifge | Gt => Ifgt | Le => Ifle
  | ICmpEq => IfIcmpeq | ICmpNe => IfIcmpne | ICmpLt => IfIcmplt | ICmpGe => IfIcmpge | ICmpGt => IfIcmpgt | ICmpLe => IfIcmple
  | ACmpEq => IfAcmpeq | ACmpNe => IfAcmpne | Null => Ifnull | NonNull => Ifnonnull
  end.

(** Among [js], the instruction at [o] is [op] and goes to [t]: in the short
    form, as a goto_w, or as the inverted test over a goto_w. *)
Definition jumps_to (js : list Instr) (o op t : Z) : Prop :=
  (exists j, j ∈ js /\ IPC j = o /\ (IOp j = op \/ op = Goto /\ IOp j = GotoW) /\ Target j = Some t) \/
  (op <> Goto /\ exists j1 j2, j1 ∈ js /\ j2 ∈ js /\ IPC j1 = o /\ IOp j1 = invert op /\ Target j1 = Some (o + 8) /\
     IPC j2 = o + 3 /\ IOp j2 = GotoW /\ Target j2 = Some t).

Definition switches_to (js : list Instr) (o op d : Z) (cases : list SwitchCase) : Prop :=
  exists j, j ∈ js /\ IPC j = o /\ IOp j = op /\ Switch j = Some (d, cases).

(** A transfer asked for by [x] when the next byte had offset [o]. *)
Definition script_at (js : list Instr) (ls : list Label) (o : Z) (x : cmd) : Prop :=
  match x with
  | CMark l => pc_of ls l = o /\ exists j, j ∈ js /\ IPC j = o
  | CGoto l => jumps_to js o Goto (pc_of ls l)
  | CIf k l => jumps_to js o (if_op k) (pc_of ls l)
  | CTableSwitch low _ d ts =>
      switches_to js o Tableswitch (pc_of ls d) (zip_with (fun k t => mkCase k (pc_of ls t)) (seqZ low (len ts)) ts)
  | CLookupSwitch d ms ts =>
      switches_to js o Lookupswitch (pc_of ls d) (map (fun x => mkCase (fst x) (pc_of ls (snd x))) (sort_cases (combine ms ts)))
  | _ => True
  end.

(** The array [c] ends with is what [body], run from [c0], asks for. *)
Definition assembles (body : list cmd) (c0 c : CodeWriter) : Prop :=
  exists js it, walk (S (length (w c))) (IterOf (w c)) = Some (js, it) /\ ierr it = None /\ concat (map raw js) = w c /\
    forall pre_ x post_ ca, body = pre_ ++ x :: post_ -> run pre_ c0 = Some ca -> script_at js (labels c) (len (w ca)) x.

Section Position.
Context (its1 its2 : list item) (i : item) (c1 c ca cb : CodeWriter) (jss : list (list Instr)).
Hypothesis Hca : inv its1 (core_of ca).
Hypothesis Hinv : inv (its1 ++ [i] ++ its2) (core_of c1).
Hypothesis Hdec : forall n i', (its1 ++ [i] ++ its2) !! n = Some i' ->
  exists js, jss !! n = Some js /\ decoded (labels c) (offset (its1 ++ [i] ++ its2) n) (body i') js.

(** The instructions of the item a command emitted. *)
Lemma item_here : exists js, decoded (labels c) (len (w ca)) (body i) js /\ forall j, j ∈ js -> j ∈ concat jss.
Proof.
  destruct (Hdec (length its1) i) as (js & Hjs & Hd); [rewrite lookup_app_r, Nat.sub_diag by lia; reflexivity|].
  rewrite offset_app, offset_all in Hd by lia. rewrite <- (inv_bytes _ _ Hca) in Hd. exists js. split; [exact Hd|].
  intros j Hj. apply list_elem_of_In, in_concat. exists js. split; apply list_elem_of_In; [|exact Hj]. eapply list_elem_of_lookup_2, Hjs.
Qed.

Lemma branch_here b : body i = Br b -> jumps_to (concat jss) (len (w ca)) (bop b) (pc_of (labels c) (label b)).
Proof.
  intros Hb. destruct item_here as (js & Hd & Hin). rewrite Hb in Hd. cbn [decoded] in Hd.
  destruct (bwide b && negb (bop b =? Goto)) eqn:E.
  - to_Z. destruct Hd as (j1 & j2 & -> & ?). right. split; [auto|]. exists j1, j2. split_and!; try tauto; apply Hin; rewrite !elem_of_cons; auto.
  - destruct Hd as (j & -> & Hpc & Hop & Ht). left. exists j. split_and!; auto; [apply Hin, list_elem_of_here|].
    rewrite Hop. destruct (bwide b); [|auto]. cbn in E. to_Z. auto.
Qed.

Lemma switch_here s keys : body i = Sw s keys ->
  switches_to (concat jss) (len (w ca)) (sop s) (pc_of (labels c) (def s)) (cases_of (labels c) s keys).
Proof.
  intros Hb. destruct item_here as (js & Hd & Hin). rewrite Hb in Hd. destruct Hd as (j & -> & ?). exists j.
  split_and!; try tauto. apply Hin, list_elem_of_here.
Qed.
End Position.

Lemma if_run k l c : exists pops, run_if k l c = branch_ (if_op k) l pops c /\ 0 <= pops <= 2.
Proof. destruct k; cbn [run_if]; eexists; (split; [reflexivity|lia]). Qed.

Lemma if_op_facts k : if_op k ∈ branch_ops /\ if_op k <> Goto.
Proof. destruct k; (split; [apply (bool_decide_unpack _); vm_compute; exact I|discriminate]). Qed.

Lemma zip_map_fst {B} (f : Z -> nat -> B) l : zip_with f (map fst l) (map snd l) = map (fun x => f (fst x) (snd x)) l.
Proof. induction l as [|[x y] l IH]; cbn; [reflexivity|]. f_equal. exact IH. Qed.

(** A label of a finished pass: where it was placed, an instruction starts. *)
Lemma label_boundary its c1 c jss l lb :
  inv its (core_of c1) -> labels c = labels c1 -> reachable c1 = false -> len (bytes_of its) <= 65535 ->
  (forall n i, its !! n = Some i -> exists js, jss !! n = Some js /\ decoded (labels c) (offset its n) (body i) js) ->
  labels c1 !! l = Some lb -> 0 <= pc lb -> exists j, j ∈ concat jss /\ IPC j = pc lb.
Proof.
  intros Hi Hl Hr Hlen Hdec El Hp. destruct (inv_labels _ _ Hi l lb El) as [E|(n & Hn & Hpc & _ & _ & Hend)]; [lia|].
  assert (n <> length its) by (intros ->; destruct (Hend eq_refl) as [Hx _]; cbn in Hx; congruence).
  destruct (lookup_lt_is_Some_2 its n ltac:(lia)) as [i Hi']. destruct (Hdec n i Hi') as (js & Hjs & Hd).
  pose proof (placed_range its c1 n Hi Hn Hlen) as Hrange. rewrite s32_id in Hpc by lia.
  assert (Hj : exists j, j ∈ js /\ IPC j = pc lb).
  { rewrite Hpc. unfold decoded in Hd. destruct (body i) as [r|b|s keys].
    - destruct Hd as (o & wide & ->). eexists. split; [apply list_elem_of_here|reflexivity].
    - destruct (bwide b && _); [destruct Hd as (j1 & j2 & -> & ? & _)|destruct Hd as (j1 & -> & ? & _)]; exists j1; (split; [apply list_elem_of_here|auto]).
    - destruct Hd as (j1 & -> & ? & _). exists j1. split; [apply list_elem_of_here|auto]. }
  destruct Hj as (j & Hin & Hj). exists j. split; [|exact Hj]. apply list_elem_of_In, in_concat. exists js.
  split; apply list_elem_of_In; [|exact Hin]. eapply list_elem_of_lookup_2, Hjs.
Qed.

Lemma Mark_pc l c c' : Mark l c = Some c' -> err c' = None -> exists lb, labels c' !! l = Some lb /\ pc lb = s32 (len (w c)).
Proof.
  unfold Mark. destruct (labels c !! l) as [lb|] eqn:El; [|discriminate]. cbn [mbind option_bind]. intros [= <-].
  pose proof (lookup_lt_Some _ _ _ El) as Hlt. cbv zeta. repeat bool_case; intros He; try destruct (fail_err _ _ _ He);
    cbn [labels set_label set_labels set_reachable set_depth] in *; rewrite ?list_insert_insert_eq, list_lookup_insert_eq by (rewrite ?length_insert; exact Hlt); eauto.
Qed.


(** The heart of the matter: a pass that is done assembles its body. *)
Lemma pass_assembles body c0 c :
  Forall cmd_ok body -> kok (core_of c0) -> inv [] (core_of c0) -> one_pass body c0 = Some (PDone c) -> assembles body c0 c.
Proof.
  intros Hb Hk Hi Hpass. destruct (pass_done _ _ _ Hpass) as (c1 & Hrun & He1 & Hr & Hres & He & Hlen & _).
  destruct (run_steps body c0 c1 Hb Hk Hrun He1) as (_ & Hk1 & its & Hs & _). destruct (ksteps_inv _ _ _ Hs Hk Hi) as [Hi1 _].
  destruct (pass_decodes its c1 c Hi1 Hres He (proj2 Hlen)) as (Hl & jss & cur & Hwalk & Hdec).
  assert (Hwr : forall its, inv its (core_of c1) -> w c = rend_of (labels c1) true its /\ len (bytes_of its) <= 65535).
  { intros its' Hi'. destruct (resolve_done its' c1 c Hi' Hres He) as (Ec & _). assert (Hw : w c = rend_of (labels c1) true its') by (rewrite Ec; reflexivity).
    split; [exact Hw|]. rewrite <- (rend_len (labels c1)), <- Hw; [lia|]. intros n i Hn. eexists. eapply inv_items; eauto. }
  assert (Hbytes : bytes_ok (w c)) by (rewrite (proj1 (Hwr its Hi1)); eapply rend_of_bytes; eauto).
  exists (concat jss), (mkIter (w c) (len (w c)) cur None). split_and!; [exact Hwalk|reflexivity| |].
  - destruct (walk_ok (S (length (w c))) (IterOf (w c))) as (js & it & E & _ & _ & _ & Hcat & _); [split_and!; cbn; auto; lia|unfold len; cbn; lia|].
    rewrite Hwalk in E. injection E as <- <-. rewrite Hcat. cbn [ipc icode IterOf]. unfold slice. rewrite Z.sub_0_r. apply firstn_all2. unfold len. lia.
  - intros pre_ x post_ ca -> Hca. destruct (pass_split pre_ x post_ c0 c1 Hb Hk Hi Hrun He1)
      as (ca' & cb & its1 & its2 & Hca' & Hx & Hxok & Hka & Heb & Hia & _ & Hg & _ & Hall).
    rewrite Hca in Hca'. injection Hca' as <-.
    assert (Hitem : forall i, kstep (core_of ca) [i] (core_of cb) -> inv (its1 ++ [i] ++ its2) (core_of c1) /\
       exists jss2, concat jss2 = concat jss /\ forall n i', (its1 ++ [i] ++ its2) !! n = Some i' ->
         exists js, jss2 !! n = Some js /\ decoded (labels c) (offset (its1 ++ [i] ++ its2) n) (body i') js).
    { intros i Hst. specialize (Hall [i] Hst). split; [exact Hall|]. destruct (pass_decodes _ c1 c Hall Hres He (proj2 Hlen)) as (_ & jss2 & cur2 & Hw2 & Hd2).
      exists jss2. split; [|exact Hd2]. rewrite Hwalk in Hw2. congruence. }
    destruct x; cbn [script_at run_cmd cmd_ok] in *; auto.
    + (* Mark *)
      destruct (Mark_pc _ _ _ Hx Heb) as (lb & El & Hpc). destruct (run_cmd_step (CMark l) ca cb Hxok Hka Hx Heb) as (_ & its' & Hst).
      specialize (Hall its' Hst). destruct (Hwr _ Hall) as [_ Hb2].
      assert (Hw : 0 <= len (w ca) <= 65535).
      { change (w ca) with (kw (core_of ca)). rewrite (inv_bytes _ _ Hia). rewrite bytes_of_app, len_app in Hb2.
        pose proof (len_nonneg (bytes_of its1)). pose proof (len_nonneg (bytes_of (its' ++ its2))). lia. }
      rewrite s32_id in Hpc by lia. destruct (grows_labels _ _ Hg l lb El) as (lb' & El' & Hp' & _). specialize (Hp' ltac:(lia)).
      assert (Hpco : pc_of (labels c) l = len (w ca)) by (rewrite Hl; unfold pc_of; cbn in El'; rewrite El'; lia). split; [exact Hpco|].
      destruct (label_boundary its c1 c jss l lb' Hi1 Hl Hr (proj2 (Hwr its Hi1)) Hdec El' ltac:(lia)) as (j & Hin & Hj). exists j. split; [exact Hin|lia].
    + (* Goto *)
      destruct (goto_item l ca cb Hka Hx Heb) as (_ & Hst). destruct (Hitem _ Hst) as (Hall2 & jss2 & Ej & Hd2). rewrite <- Ej.
      apply (branch_here its1 its2 _ c ca jss2 Hia Hd2 (branch_at Goto l ca) eq_refl).
    + (* If *)
      destruct (if_run k l ca) as (pops & Er & Hp). destruct (if_op_facts k) as [Ho Hg0]. rewrite Er in Hx.
      destruct (if_item _ l pops ca cb Ho Hg0 Hp Hka Hx Heb) as (_ & Hst). destruct (Hitem _ Hst) as (Hall2 & jss2 & Ej & Hd2). rewrite <- Ej.
      apply (branch_here its1 its2 _ c ca jss2 Hia Hd2 (branch_at (if_op k) l ca) eq_refl).
    + (* TableSwitch *)
      destruct (table_item low high def targets ca cb (proj1 Hxok) (proj2 Hxok) Hka Hx Heb) as (_ & Hst).
      destruct (Hitem _ Hst) as (Hall2 & jss2 & Ej & Hd2). rewrite <- Ej.
      apply (switch_here its1 its2 _ c ca jss2 Hia Hd2 (table_at def targets ca) [low; high] eq_refl).
    + (* LookupSwitch *)
      destruct (lookup_item def matches targets ca cb Hxok Hka Hx Heb) as (_ & Hst).
      destruct (Hitem _ Hst) as (Hall2 & jss2 & Ej & Hd2). rewrite <- Ej.
      rewrite <- (zip_map_fst (fun k t => mkCase k (pc_of (labels c) t))).
      apply (switch_here its1 its2 _ c ca jss2 Hia Hd2 (lookup_at def (sort_cases (combine matches targets)) ca) _ eq_refl).
Qed.

(** ** The replay loop and [Code] *)

Lemma replays_done todo n body p r v wd ml c p' :
  replays todo n body p r v wd ml = Some (Some (PDone c), p') ->
  exists p0 wd0 n0, one_pass body (start p0 r v wd0 n0 ml) = Some (PDone c) /\ p' = cp c.
Proof.
  revert n p wd. induction todo as [|todo IH]; intros n p wd; cbn [replays]; [discriminate|].
  destruct (one_pass body (start p r v wd n ml)) as [[f a c1|c1|c1]|] eqn:E; cbn [mbind option_bind]; try discriminate; [apply IH|].
  intros [= <- <-]. eauto.
Qed.

Lemma bfail_err f a b : berr (bfail f a b) <> None.
Proof. unfold bfail. destruct (berr b) eqn:E; cbn; congruence. Qed.

(** What a [Code] that reports nothing has stored. *)
Lemma Code_done limit i body b b' :
  Code_bound limit i body b = Some b' -> berr b' = None ->
  exists m m' sig c0 c, berr b = None /\ methods b !! i = Some m /\ ParseMethod (mdescriptor m) = Ok sig /\ methods b' !! i = Some m' /\
    (exists p wd n, c0 = start p (Desc.Ret sig) (bversion b) wd n (s32 (ArgSlots sig (negb (Has (mflags m) AccStatic))))) /\
    one_pass body c0 = Some (PDone c) /\ mcode m' = w c /\ hasCode m' = true /\ mmaxStack m' = u16 (maxStack c) /\
    mmaxLocals m' = u16 (maxLocals c) /\ mlines m' = lines c /\
    exists hs p', encode_handlers (handlers c) (labels c) (cp c) = Some (hs, p') /\ mhandlers m' = mhandlers m ++ hs /\ bpool b' = p'.
Proof.
  unfold Code_bound. destruct (methods b !! i) as [m|] eqn:Em; [|discriminate]. cbn [mbind option_bind].
  destruct (berr b) eqn:Eb; [intros [= <-]; congruence|]. cbv zeta.
  destruct (ParseMethod (mdescriptor m)) as [sig|e] eqn:Ep; [|intros [= <-] He; destruct (bfail_err _ _ _ He)].
  destruct (CheckArgSlots _ _); [intros [= <-] He; destruct (bfail_err _ _ _ He)|].
  destruct (replays _ _ _ _ _ _ _ _) as [[[r|] p']|] eqn:Er; [| |discriminate]; cbn [mbind option_bind fst snd];
    [|intros [= <-] He; destruct (bfail_err _ _ _ He)].
  destruct r as [f a c|c|c]; [intros [= <-] He; destruct (bfail_err _ _ _ He)| |].
  - exfalso. revert Er. generalize 0 at 1. generalize (∅ : gset Z). generalize (bpool b). clear.
    induction limit as [|limit IH]; intros p wd n; cbn [replays]; [discriminate|].
    destruct (one_pass _ _) as [[]|]; cbn [mbind option_bind]; try discriminate. apply IH.
  - destruct (replays_done _ _ _ _ _ _ _ _ _ _ Er) as (p0 & wd0 & n0 & Hpass & ->).
    destruct (localRows c) as [[rows cr]|] eqn:El; [|discriminate]. cbn [mbind option_bind fst snd].
    destruct (err cr); [intros [= <-] He; destruct (bfail_err _ _ _ He)|].
    cbn [bpool set_method set_methods set_bpool methods].
    destruct (encode_handlers _ _ _) as [[hs p2]|] eqn:Eh; [|discriminate]. cbn [mbind option_bind fst snd]. intros [= <-] _.
    pose proof (lookup_lt_Some _ _ _ Em) as Hlt.
    eexists m, _, sig, _, c. split_and!; [reflexivity|reflexivity|exact Ep| |eauto|exact Hpass|..].
    + cbn [methods set_method set_methods set_bpool]. rewrite list_lookup_insert_eq by (rewrite length_insert; exact Hlt). reflexivity.
    + reflexivity.
    + reflexivity.
    + reflexivity.
    + reflexivity.
    + reflexivity.
    + exists hs, p2. split_and!; [exact Eh|reflexivity|reflexivity].
Qed.

(** A writer no call has touched yet. *)
Definition fresh (c0 : CodeWriter) : Prop := exists p r v wd n ml, c0 = start p r v wd n ml.

(** C2: when [Code] reports nothing, the code array it stores (at most 65535
    bytes) is the work of one pass over the body on a fresh writer, and decodes
    without an error, instruction after instruction, to the end;
    each label was placed at the start of an instruction; each branch of the
    body, at the offset it was emitted at, jumps to exactly the place its label
    was put, in the short form, as a goto_w, or as the inverted test over a
    goto_w; and each switch maps exactly its keys, in order, to its labels.  *)
Theorem Code_assembles (limit i : nat) (body : list cmd) (b b' : Builder) :
  Forall cmd_ok body -> Code_bound limit i body b = Some b' -> berr b' = None ->
  exists m' c0 c, fresh c0 /\ one_pass body c0 = Some (PDone c) /\ assembles body c0 c /\
    methods b' !! i = Some m' /\ mcode m' = w c /\ 0 < len (mcode m') <= 65535.
Proof.
  intros Hb H He. destruct (Code_done _ _ _ _ _ H He) as (m & m' & sig & c0 & c & _ & _ & _ & Hm & (p & wd & n & ->) & Hpass & Hc & _).
  exists m', (start p (Desc.Ret sig) (bversion b) wd n (s32 (ArgSlots sig (negb (Has (mflags m) AccStatic))))), c.
  rewrite Hc. destruct (pass_done _ _ _ Hpass) as (c1 & _ & _ & _ & _ & _ & Hl & _). split_and!; auto; try lia.
  - unfold fresh. eauto 7.
  - apply pass_assembles; auto using start_kok, start_inv.
Qed.

(** The argument ranges, as a test. *)
Definition cmd_okb (x : cmd) : bool :=
  match x with
  | COp o => is_byte o
  | CTableSwitch low high _ _ => (-2147483648 <=? low) && (low <? 2147483648) && ((-2147483648 <=? high) && (high <? 2147483648))
  | CLookupSwitch _ ms _ => forallb (fun m => (-2147483648 <=? m) && (m <? 2147483648)) ms
  | _ => true
  end.

Lemma cmds_ok_dec body : forallb cmd_okb body = true -> Forall cmd_ok body.
Proof.
  rewrite forallb_forall. intros H. apply Forall_forall. intros x Hx. apply list_elem_of_In, H in Hx. destruct x; cbn in *; auto.
  - unfold is_byte in Hx. to_Z. lia.
  - to_Z. lia.
  - rewrite forallb_forall in Hx. apply Forall_forall. intros m Hm. apply list_elem_of_In, Hx in Hm. to_Z. lia.
Qed.

(** [static int f(int)]: a lookupswitch, a branch back and a branch forward. *)
Definition demo_builder : Builder := AddMethod AccStatic (bs "f") (bs "(I)I") (NewBuilder (bs "A")).
Definition demo_body : list cmd :=
  [CNewLabel; CNewLabel; CNewLabel; CMark 0; CLoad TI 0; CIf Gt 1; CLoad TI 0; CLookupSwitch 2 [7; -3] [1; 0]%nat;
   CMark 1; CIinc 0 (-1); CGoto 0; CMark 2; CIconst 70000; CReturn].
Definition demo_result : Builder := default demo_builder (Code 0 demo_body demo_builder).

Lemma Code_assembles_witness :
  Code_bound maxReplays 0 demo_body demo_builder = Some demo_result /\
  exists m' c0 c, fresh c0 /\ one_pass demo_body c0 = Some (PDone c) /\ assembles demo_body c0 c /\
    methods demo_result !! 0%nat = Some m' /\ mcode m' = w c /\ 0 < len (mcode m') <= 65535.
Proof.
  assert (H : Code_bound maxReplays 0 demo_body demo_builder = Some demo_result) by (vm_compute; reflexivity).
  split; [exact H|]. apply (Code_assembles maxReplays 0 demo_body demo_builder demo_result); [|exact H|vm_compute; reflexivity].
  apply cmds_ok_dec. reflexivity.
Defined.
