(* ===== verification/MethodLoop.v ===== *)
(** * Method bodies: the replay loop ends, and nothing panics

    A pass that asks for another has added the ordinal of a branch that was
    still short to the set of wide branches, so as many passes as the body has
    calls are always enough; and no pass patches out of range. *)
From Stdlib Require Import Sorting.Sorted.
From S2P Require Import Prelude.
From S2P Require Import Desc.
From S2P Require Import Op.
From S2P Require Import Format.
From S2P Require Import ClassIO.
From S2P Require Import PoolBuilder.
From S2P Require Import Code.
From S2P Require Import CodeWriter.
From S2P Require Import CodeProof.
From S2P Require Import CodeCorrect.
From S2P Require Import CodeFrame.
From S2P Require Import Builder.
From S2P Require Import MethodProof.

(** ** Resolving never panics *)

Lemma resolve_branch_total b again c A B :
  w c = A ++ branch_bytes b ++ B -> bat b = len A -> is_Some (labels c !! label b) ->
  exists r c', resolve_branch b again c = Some (r, c') /\ labels c' = labels c /\ switches c' = switches c /\
    match r with
    | Stop => err c' <> None
    | Again a => err c' = err c /\ (exists y, w c' = A ++ y ++ B /\ len y = len (branch_bytes b)) /\
        (a = again /\ widen c' = widen c \/ a = true /\ bwide b = false /\ widen c' = {[ord b]} ∪ widen c)
    end.
Proof.
  intros Hw Hat [lb El]. unfold resolve_branch. rewrite El. cbn [mbind option_bind].
  destruct (pc lb <? 0).
  { eexists Stop, _. split; [reflexivity|]. unfold fail. destruct (err c) eqn:E; cbn; split_and!; auto; congruence. }
  cbv zeta. rewrite Hw. unfold branch_bytes in *. destruct (bwide b); cbn [negb andb].
  - destruct (bop b =? Goto); cbv iota.
    + rewrite patch4_at by (rewrite Hat; reflexivity). cbn [mbind option_bind]. eexists (Again again), _. split; [reflexivity|].
      split_and!; try reflexivity; [|auto]. eexists. split; reflexivity.
    + rewrite !(app_assoc _ _ (be4 _)). rewrite patch4_at by (rewrite Hat; reflexivity). cbn [mbind option_bind].
      eexists (Again again), _. split; [reflexivity|]. split_and!; try reflexivity; [|auto]. eexists. split; reflexivity.
  - destruct ((_ <? -32768) || _).
    + eexists (Again true), _. split; [reflexivity|]. split_and!; try reflexivity; [|auto]. exists ([u8 (bop b)] ++ be2 0). split; [exact Hw|reflexivity].
    + rewrite patch2_at by (auto; rewrite Hat; reflexivity). cbn [mbind option_bind]. eexists (Again again), _. split; [reflexivity|].
      split_and!; try reflexivity; [|auto]. eexists. split; reflexivity.
Qed.

(** How one pass over the branches moves the set of wide ones. *)
Definition widened (brs : list branch) (again a : bool) (c c' : CodeWriter) : Prop :=
  (again = true -> a = true) /\ widen c ⊆ widen c' /\ (forall o, o ∈ widen c' -> o ∈ widen c \/ exists b, b ∈ brs /\ ord b = o) /\
  (a = true -> again = true \/ exists b, b ∈ brs /\ bwide b = false /\ ord b ∈ widen c').

Lemma widened_cons b brs again a1 a c c1 c' :
  (a1 = again /\ widen c1 = widen c \/ a1 = true /\ bwide b = false /\ widen c1 = {[ord b]} ∪ widen c) ->
  widened brs a1 a c1 c' -> widened (b :: brs) again a c c'.
Proof.
  intros H (H1 & H2 & H3 & H4). unfold widened. destruct H as [[-> Hwd]|(-> & Hb & Hwd)]; rewrite Hwd in *; clear Hwd.
  - split_and!; auto.
    + intros o Ho. destruct (H3 o Ho) as [?|(x & ? & ?)]; [auto|right]. exists x. rewrite elem_of_cons. auto.
    + intros Ha. destruct (H4 Ha) as [?|(x & ? & ?)]; [auto|right]. exists x. rewrite elem_of_cons. auto.
  - split_and!; auto.
    + set_solver.
    + intros o Ho. destruct (H3 o Ho) as [Hin|(x & ? & ?)].
      * apply elem_of_union in Hin as [Hin|?]; [|auto]. apply elem_of_singleton in Hin as ->. right. exists b. rewrite elem_of_cons. auto.
      * right. exists x. rewrite elem_of_cons. auto.
    + intros _. right. exists b. rewrite elem_of_cons. split_and!; auto. set_solver.
Qed.

Definition known (c : CodeWriter) (l : nat) : Prop := is_Some (labels c !! l).

Lemma resolve_branches_total its again c A :
  w c = A ++ bytes_of its -> at_ok_br (len A) its -> Forall (fun b => known c (label b)) (brs its) ->
  exists r c', resolve_branches (brs its) again c = Some (r, c') /\ labels c' = labels c /\ switches c' = switches c /\
    match r with Stop => err c' <> None | Again a => err c' = err c /\ widened (brs its) again a c c' end.
Proof.
  revert A again c. induction its as [|i its IH]; intros A again c Hw Hat Hk.
  - eexists _, _. split; [reflexivity|]. split_and!; auto. unfold widened. split_and!; auto.
  - pose proof (at_ok_br_tail _ _ _ Hat) as Hat'. unfold bytes_of in Hw. cbn [map concat] in Hw.
    unfold brs in *. cbn [flat_map] in *. destruct (body i) as [r|b|s keys] eqn:Ei; cbn [app ibytes] in *.
    + apply (IH (A ++ r)); [rewrite <- app_assoc; exact Hw|rewrite len_app; exact Hat'|exact Hk].
    + apply Forall_cons in Hk as [Hb Hk].
      assert (Hbat : bat b = len A) by (rewrite (Hat 0%nat i b eq_refl Ei); change (offset (i :: its) 0) with 0; lia).
      destruct (resolve_branch_total b again c A _ Hw Hbat Hb) as (r & c1 & E & Hl & Hs & H). cbn [resolve_branches]. rewrite E. cbn [mbind option_bind].
      destruct r as [|a1]; [eexists _, _; split; [reflexivity|]; auto|]. destruct H as (He & (y & Hy & Hly) & Hwd).
      destruct (IH (A ++ y) a1 c1) as (r & c' & E2 & Hl2 & Hs2 & H2).
      * rewrite <- app_assoc. exact Hy.
      * rewrite len_app, Hly. exact Hat'.
      * eapply Forall_impl; [exact Hk|]. unfold known. rewrite Hl. auto.
      * eexists _, _. split; [exact E2|]. rewrite Hl2, Hs2. split_and!; auto. destruct r as [|a]; [exact H2|]. destruct H2 as [He2 Hw2].
        split; [congruence|]. eapply widened_cons; eauto.
    + apply (IH (A ++ switch_bytes s keys)); [rewrite <- app_assoc; exact Hw|rewrite len_app; exact Hat'|exact Hk].
Qed.

Lemma targets_step_total t ts i s c D C B :
  (if sop s =? Tableswitch then sat s + 1 + spad s + 12 + 4 * i else sat s + 1 + spad s + 8 + 8 * i + 4) = len D + len C ->
  w c = D ++ (C ++ be4 0) ++ B -> known c t ->
  exists v, (exists c', resolve_targets (t :: ts) i s c = Some (false, c') /\ labels c' = labels c) \/
    resolve_targets (t :: ts) i s c = resolve_targets ts (i + 1) s (set_w (D ++ (C ++ be4 v) ++ B) c).
Proof.
  intros Hoff Hw [lb El]. cbn [resolve_targets]. rewrite El. cbn [mbind option_bind]. eexists. destruct (pc lb <? 0).
  - left. eexists. split; [reflexivity|]. unfold fail. destruct (err c); reflexivity.
  - right. cbv zeta. rewrite Hoff, Hw, (patch4_at D B C) by reflexivity. reflexivity.
Qed.

Lemma targets_table_total ts i s c D B :
  sop s = Tableswitch -> w c = D ++ concat (map (fun _ => be4 0) ts) ++ B -> len D = sat s + 1 + spad s + 12 + 4 * i ->
  Forall (known c) ts -> exists ok c', resolve_targets ts i s c = Some (ok, c') /\ labels c' = labels c.
Proof.
  intros Hs. revert i c D. induction ts as [|t ts IH]; intros i c D Hw Hd Hk; [eexists _, _; split; reflexivity|].
  apply Forall_cons in Hk as [Ht Hk]. cbn [map concat] in Hw. rewrite <- app_assoc in Hw.
  destruct (targets_step_total t ts i s c D [] (concat (map (fun _ => be4 0) ts) ++ B)) as (v & [(c' & -> & Hl)| ->]); auto.
  - rewrite Hs, Z.eqb_refl, len_nil. lia.
  - eauto.
  - destruct (IH (i + 1) (set_w (D ++ ([] ++ be4 v) ++ concat (map (fun _ => be4 0) ts) ++ B) c) (D ++ be4 v)) as (ok & c' & -> & Hl).
    + cbn. rewrite <- !app_assoc. reflexivity.
    + rewrite len_app, Hd. change (len (be4 v)) with 4. lia.
    + exact Hk.
    + eauto.
Qed.

Lemma targets_lookup_total ts keys i s c D B :
  sop s <> Tableswitch -> length keys = length ts ->
  w c = D ++ concat (map (fun k => be4 (u32 k) ++ be4 0) keys) ++ B -> len D = sat s + 1 + spad s + 8 + 8 * i ->
  Forall (known c) ts -> exists ok c', resolve_targets ts i s c = Some (ok, c') /\ labels c' = labels c.
Proof.
  intros Hs. apply Z.eqb_neq in Hs. revert keys i c D. induction ts as [|t ts IH]; intros [|k keys] i c D Hlen Hw Hd Hk; try discriminate;
    [eexists _, _; split; reflexivity|].
  apply Forall_cons in Hk as [Ht Hk]. cbn [map concat] in Hw. rewrite <- app_assoc in Hw.
  destruct (targets_step_total t ts i s c D (be4 (u32 k)) (concat (map (fun k => be4 (u32 k) ++ be4 0) keys) ++ B)) as (v & [(c' & -> & Hl)| ->]); auto.
  - rewrite Hs. change (len (be4 (u32 k))) with 4. lia.
  - eauto.
  - destruct (IH keys (i + 1) (set_w (D ++ (be4 (u32 k) ++ be4 v) ++ concat (map (fun k => be4 (u32 k) ++ be4 0) keys) ++ B) c) (D ++ be4 (u32 k) ++ be4 v))
      as (ok & c' & -> & Hl).
    + cbn in Hlen. congruence.
    + cbn. rewrite <- !app_assoc. reflexivity.
    + rewrite !len_app, Hd. change (len (be4 v)) with 4. change (len (be4 (u32 k))) with 4. lia.
    + exact Hk.
    + eauto.
Qed.

Lemma resolve_switch_total s keys c A B :
  keys_ok s keys -> 0 <= spad s -> w c = A ++ switch_bytes s keys ++ B -> sat s = len A -> Forall (known c) (def s :: targets s) ->
  exists ok c', resolve_switch s c = Some (ok, c') /\ labels c' = labels c.
Proof.
  intros [_ Hk] Hpad Hw Hat Hkn. apply Forall_cons in Hkn as [[lb El] Hkn]. unfold resolve_switch. rewrite El. cbn [mbind option_bind].
  destruct (pc lb <? 0); [eexists _, _; split; [reflexivity|]; unfold fail; destruct (err c); reflexivity|].
  set (P := [u8 (sop s)] ++ replicate (Z.to_nat (spad s)) 0).
  assert (HP : len P = 1 + spad s) by (unfold P; cbn [app]; rewrite len_cons, len_replicate; lia).
  unfold switch_bytes in Hw. set (T := if sop s =? Tableswitch then _ else _ : bytes) in Hw.
  replace (([u8 (sop s)] ++ replicate (Z.to_nat (spad s)) 0 ++ be4 0 ++ T) ++ B) with ((P ++ be4 0) ++ (T ++ B)) in Hw
    by (unfold P; rewrite <- !app_assoc; reflexivity).
  rewrite Hw, (patch4_at A) by lia. cbn [mbind option_bind]. subst T. set (D := be4 (u32 _)).
  set (c1 := set_w _ c). change (known c) with (known c1) in Hkn. change (labels c) with (labels c1).
  destruct Hk as [(Hs & low & high & -> & _)|(Hs & Hlen & _)].
  - apply (targets_table_total (targets s) 0 s c1 (A ++ P ++ D ++ concat (map (fun k => be4 (u32 k)) [low; high])) B Hs); [| |exact Hkn].
    + unfold c1. cbn [w set_w]. rewrite Hs, Z.eqb_refl, <- !app_assoc. reflexivity.
    + rewrite !len_app, HP. change (len D) with 4. change (len (concat _)) with 8. lia.
  - assert (Hne : sop s <> Tableswitch) by (rewrite Hs; discriminate).
    apply (targets_lookup_total (targets s) keys 0 s c1 (A ++ P ++ D ++ be4 (u32 (len keys))) B Hne); [| | |exact Hkn].
    + unfold len in Hlen. lia.
    + unfold c1. cbn [w set_w]. rewrite (proj2 (Z.eqb_neq _ _) Hne), <- !app_assoc. reflexivity.
    + rewrite !len_app, HP. change (len D) with 4. change (len (be4 (u32 (len keys)))) with 4. lia.
Qed.

Lemma resolve_switches_total its A c :
  w c = A ++ rend_of (labels c) false its -> at_ok_sw (len A) its -> Forall (fun s => Forall (known c) (def s :: targets s)) (sws its) ->
  exists c', resolve_switches (sws its) c = Some c' /\ labels c' = labels c.
Proof.
  revert A c. induction its as [|i its IH]; intros A c Hw Hat Hk; [eexists; split; reflexivity|].
  pose proof (at_ok_sw_tail _ _ _ Hat) as Hat'. unfold rend_of in Hw. cbn [map concat] in Hw.
  unfold sws in *. cbn [flat_map] in *. destruct (body i) as [r|b|s keys] eqn:Ei; cbn [app ibytes rend] in *.
  - apply (IH (A ++ r)); [rewrite <- app_assoc; exact Hw|rewrite len_app; exact Hat'|exact Hk].
  - apply (IH (A ++ rbranch (labels c) b)); [rewrite <- app_assoc; exact Hw| |exact Hk]. rewrite len_app, branch_len. exact Hat'.
  - apply Forall_cons in Hk as [Hks Hk]. destruct (Hat 0%nat i s keys eq_refl Ei) as (Hs & Hpad & Hkeys).
    change (offset (i :: its) 0) with 0 in Hs. rewrite Z.add_0_r in Hs.
    destruct (resolve_switch_total s keys c A _ Hkeys Hpad Hw Hs Hks) as ([|] & c1 & E & Hl); cbn [resolve_switches]; rewrite E; cbn [mbind option_bind fst snd].
    + destruct (resolve_switch_done _ _ _ _ _ _ Hkeys Hpad Hw Hs E) as (_ & Ec).
      destruct (IH (A ++ rswitch (labels c) s keys) c1) as (c' & E2 & Hl2).
      * rewrite Ec. cbn [w set_w labels]. rewrite <- app_assoc. reflexivity.
      * rewrite len_app, switch_len by exact Hkeys. exact Hat'.
      * eapply Forall_impl; [exact Hk|]. intros s' Hf. eapply Forall_impl; [exact Hf|]. unfold known. rewrite Hl. auto.
      * exists c'. split; [exact E2|congruence].
    + eauto.
Qed.

Lemma inv_known its c : inv its (core_of c) ->
  Forall (fun b => known c (label b)) (brs its) /\ Forall (fun s => Forall (known c) (def s :: targets s)) (sws its).
Proof.
  intros Hi. assert (H : forall i l, i ∈ its -> l ∈ jumps i -> known c l).
  { intros i l Hin Hl. apply list_elem_of_lookup in Hin as [n Hn]. destruct (inv_jumps _ _ Hi n i l Hn Hl) as (lb & E & _). exists lb. exact E. }
  split; apply Forall_forall.
  - intros b Hb. unfold brs in Hb. apply list_elem_of_In, in_flat_map in Hb as (i & Hin & Hb). apply list_elem_of_In in Hin.
    apply (H i); [exact Hin|]. unfold jumps. destruct (body i); try (destruct Hb as [<-|[]]); try destruct Hb. apply list_elem_of_here.
  - intros s Hs. unfold sws in Hs. apply list_elem_of_In, in_flat_map in Hs as (i & Hin & Hs). apply list_elem_of_In in Hin.
    apply Forall_forall. intros l Hl. apply (H i); [exact Hin|]. unfold jumps. destruct (body i); try (destruct Hs as [<-|[]]); try destruct Hs. exact Hl.
Qed.

(** [resolve] on the instructions of a body: it never panics, and when it asks
    for another pass some short branch has become wide. *)
Lemma resolve_total its c :
  inv its (core_of c) ->
  exists a c', resolve c = Some (a, c') /\ labels c' = labels c /\
    (a = true -> err c' = err c /\ widened (brs its) false true c c').
Proof.
  intros Hi. destruct (inv_at_ok _ _ Hi) as [Hb Hs]. destruct (inv_known _ _ Hi) as [Kb Ks]. unfold resolve.
  change (branches c) with (kbranches (core_of c)). rewrite (inv_brs _ _ Hi).
  destruct (resolve_branches_total its false c [] (inv_bytes _ _ Hi) Hb Kb) as (r & c1 & E & Hl & Hsw & H). rewrite E. cbn [mbind option_bind].
  destruct r as [|a].
  - eexists _, _. split; [reflexivity|]. split; [exact Hl|discriminate].
  - destruct a.
    + destruct H as [He Hw]. eexists _, _. split; [reflexivity|]. auto.
    + destruct (resolve_branches_done its [] c c1) as (-> & _); [apply (inv_bytes _ _ Hi)|exact Hb|exact E|].
      cbn [switches set_w app]. change (switches c) with (kswitches (core_of c)). rewrite (inv_sws _ _ Hi).
      destruct (resolve_switches_total its [] (set_w (rend_of (labels c) false its) c) eq_refl Hs Ks) as (c2 & E2 & Hl2).
      rewrite E2. cbn [mbind option_bind]. eexists _, _. split; [reflexivity|]. split; [exact Hl2|discriminate].
Qed.

(** ** Widening *)

Definition wide_ok (k : core) : Prop :=
  Forall (fun b => bwide b = bool_decide (ord b ∈ kwiden k) /\ 0 <= ord b < len (kbranches k)) (kbranches k).

Lemma kstep_wide k its k' : kstep k its k' -> kwiden k' = kwiden k /\ (wide_ok k -> wide_ok k').
Proof.
  intros H. destruct H; (split; [reflexivity|]); auto. unfold wide_ok. cbn. intros Hw. rewrite len_app. change (len [b]) with 1.
  pose proof (len_nonneg (kbranches k)). apply Forall_app. split.
  - eapply Forall_impl; [exact Hw|]. cbn. intros x [? ?]. split; [auto|lia].
  - apply Forall_cons_2; [|apply Forall_nil_2]. split; [auto|lia].
Qed.

Lemma ksteps_wide k its k' : ksteps k its k' -> kwiden k' = kwiden k /\ (wide_ok k -> wide_ok k').
Proof.
  induction 1 as [k|k1 its k2 its' k3 _ [E H] Hs]; [auto|]. destruct (kstep_wide _ _ _ Hs) as [E2 H2]. split; [congruence|auto].
Qed.

Lemma brs_len its : (length (brs its) <= length its)%nat.
Proof. unfold brs. induction its as [|i its IH]; cbn; [auto|]. rewrite length_app. destruct (body i); cbn; lia. Qed.

(** A pass that asks for another. *)
Lemma pass_again body p r v wd n ml c :
  Forall cmd_ok body -> one_pass body (start p r v wd n ml) = Some (PAgain c) ->
  wd ⊂ widen c /\ forall o, o ∈ widen c -> o ∈ wd \/ 0 <= o < len body.
Proof.
  set (c0 := start p r v wd n ml). intros Hb. unfold one_pass. destruct (run body c0) as [c1|] eqn:Erun; [|discriminate]. cbn [mbind option_bind].
  destruct (err c1) eqn:E1; [discriminate|]. destruct (reachable c1); [discriminate|].
  destruct (run_steps body c0 c1 Hb (start_kok p r v wd n ml) Erun E1) as (_ & Hk1 & its & Hs & Hlen).
  destruct (ksteps_inv _ _ _ Hs (start_kok p r v wd n ml) (start_inv p r v wd n ml)) as [Hi _].
  destruct (ksteps_wide _ _ _ Hs) as [Ew Hw]. assert (wide_ok (core_of c1)) as Hwide by (apply Hw; apply Forall_nil_2). clear Hw.
  change (widen c1 = wd) in Ew. destruct (resolve_total its c1 Hi) as (a & c2 & E & _ & H). rewrite E. cbn [mbind option_bind fst snd].
  destruct a; [|destruct (err c2); repeat bool_case; discriminate]. intros [= <-]. destruct (H eq_refl) as (_ & _ & H2 & H3 & H4). rewrite Ew in *.
  unfold wide_ok in Hwide. rewrite (inv_brs _ _ Hi) in Hwide. change (kwiden (core_of c1)) with (widen c1) in Hwide. rewrite Ew in Hwide.
  rewrite Forall_forall in Hwide. split.
  - split; [exact H2|]. intros Hsub. destruct (H4 eq_refl) as [?|(b & Hbin & Hbw & Hbo)]; [discriminate|].
    destruct (Hwide b Hbin) as [Hx _]. rewrite Hbw in Hx. symmetry in Hx. apply bool_decide_eq_false in Hx. apply Hx, Hsub, Hbo.
  - intros o Ho. destruct (H3 o Ho) as [?|(b & Hbin & <-)]; [auto|right]. destruct (Hwide b Hbin) as [_ Hx]. pose proof (brs_len its).
    unfold len in *. lia.
Qed.

Lemma wide_size (wd : gset Z) n : (forall o, o ∈ wd -> 0 <= o < Z.of_nat n) -> (size wd <= n)%nat.
Proof.
  intros H. assert (Hsub : wd ⊆ list_to_set (seqZ 0 (Z.of_nat n))).
  { intros o Ho. apply elem_of_list_to_set, elem_of_seqZ. specialize (H o Ho). lia. }
  apply subseteq_size in Hsub. rewrite size_list_to_set in Hsub by apply NoDup_seqZ. rewrite length_seqZ in Hsub. lia.
Qed.

(** Each pass but the last widens one more of the body's branches. *)
Lemma replays_bound todo n body p r v wd ml p' :
  Forall cmd_ok body -> (forall o, o ∈ wd -> 0 <= o < len body) ->
  replays todo n body p r v wd ml = Some (None, p') -> (todo + size wd <= length body)%nat.
Proof.
  intros Hb. revert n p wd. induction todo as [|todo IH]; intros n p wd Hwd; cbn [replays].
  - intros _. apply wide_size. exact Hwd.
  - destruct (one_pass body (start p r v wd n ml)) as [[f a c|c|c]|] eqn:E; cbn [mbind option_bind]; try discriminate.
    destruct (pass_again _ _ _ _ _ _ _ _ Hb E) as [Hsub Hin]. intros H. apply IH in H.
    + pose proof (subset_size _ _ Hsub). lia.
    + intros o Ho. destruct (Hin o Ho); auto.
Qed.

(** ** No panics *)

(** What a finished pass leaves to the tables. *)
Definition tables_known (c : CodeWriter) : Prop :=
  Forall (fun h => known c (hstart h) /\ known c (hend h) /\ known c (hhandler h)) (handlers c) /\
  Forall (fun l => known c (lstart l) /\ known c (lend l)) (locals c).

Lemma one_pass_total body p r v wd n ml :
  Forall cmd_ok body -> scoped 0 body ->
  exists r', one_pass body (start p r v wd n ml) = Some r' /\ (forall c, r' = PDone c -> tables_known c).
Proof.
  set (c0 := start p r v wd n ml). intros Hb Hsc.
  destruct (run_total body c0 Hsc) as (c1 & Erun & Htab); [split; apply Forall_nil_2|]. unfold one_pass. rewrite Erun. cbn [mbind option_bind].
  destruct (err c1) eqn:E1; [eexists; split; [reflexivity|discriminate]|]. destruct (reachable c1); [eexists; split; [reflexivity|discriminate]|].
  destruct (run_steps body c0 c1 Hb (start_kok p r v wd n ml) Erun E1) as (_ & Hk1 & its & Hs & _).
  destruct (ksteps_inv _ _ _ Hs (start_kok p r v wd n ml) (start_inv p r v wd n ml)) as [Hi _].
  destruct (resolve_total its c1 Hi) as (a & c2 & E & _ & _). rewrite E. cbn [mbind option_bind fst snd].
  destruct a; [eexists; split; [reflexivity|discriminate]|]. destruct (err c2) eqn:E2; [eexists; split; [reflexivity|discriminate]|].
  repeat (bool_case; [eexists; split; [reflexivity|discriminate]|]). eexists. split; [reflexivity|]. intros c [= <-].
  destruct (resolve_done its c1 c2 Hi E E2) as (-> & _). destruct Htab as [H1 H2]. unfold tables_known, known. cbn [labels handlers locals set_w].
  split; (eapply Forall_impl; [eassumption|]); cbn; intros x Hx; split_and?; apply lookup_lt_is_Some_2; lia.
Qed.

Lemma replays_total todo n body p r v wd ml :
  Forall cmd_ok body -> scoped 0 body ->
  exists o p', replays todo n body p r v wd ml = Some (o, p') /\ (forall c, o = Some (PDone c) -> tables_known c).
Proof.
  intros Hb Hsc. revert n p wd. induction todo as [|todo IH]; intros n p wd; cbn [replays]; [eexists _, _; split; [reflexivity|discriminate]|].
  destruct (one_pass_total body p r v wd n ml Hb Hsc) as ([f a c|c|c] & E & H); rewrite E; cbn [mbind option_bind].
  - eexists _, _. split; [reflexivity|discriminate].
  - apply IH.
  - eexists _, _. split; [reflexivity|]. intros c' [= <-]. apply H. reflexivity.
Qed.

Lemma local_rows_total ls c : Forall (fun l => known c (lstart l) /\ known c (lend l)) ls -> exists r, local_rows ls c = Some r.
Proof.
  induction 1 as [|l ls [[lo E1] [hi E2]] _ [r IH]]; cbn [local_rows]; [eauto|]. rewrite E1. cbn [mbind option_bind]. rewrite E2. cbn [mbind option_bind].
  bool_case; [eauto|]. rewrite IH. cbn [mbind option_bind]. eauto.
Qed.

Lemma encode_handlers_total hs c p : Forall (fun h => known c (hstart h) /\ known c (hend h) /\ known c (hhandler h)) hs ->
  exists r, encode_handlers hs (labels c) p = Some r.
Proof.
  intros H. revert p. induction H as [|h hs ([s E1] & [e E2] & [t E3]) _ IH]; intros p; cbn [encode_handlers]; [eauto|].
  destruct (match catchType h with [] => (0, p) | t => Class_ t p end) as [ct p1]. rewrite E1. cbn [mbind option_bind]. rewrite E2.
  cbn [mbind option_bind]. rewrite E3. cbn [mbind option_bind]. destruct (IH p1) as [r ->]. cbn. eauto.
Qed.

(** A body as Go's types and scopes allow it: arguments in range, and only
    labels the body has already created. *)
Definition closed_body (body : list cmd) : Prop := Forall cmd_ok body /\ scoped 0 body.

Lemma closed_body_dec body : forallb cmd_okb body && scopedb 0 body = true -> closed_body body.
Proof. intros H. apply andb_prop in H as [H1 H2]. split; [apply cmds_ok_dec, H1|apply scopedb_sound, H2]. Qed.

(** On such a body every label is found, and every backpatch is within the array. *)
Lemma Code_runs (limit i : nat) (body : list cmd) (b : Builder) :
  closed_body body -> (i < length (methods b))%nat -> is_Some (Code_bound limit i body b).
Proof.
  intros [Hb Hsc] Hi. unfold Code_bound. destruct (lookup_lt_is_Some_2 _ _ Hi) as [m ->]. cbn [mbind option_bind].
  destruct (berr b); [eauto|]. cbv zeta. destruct (ParseMethod _) as [sig|e]; [|eauto]. destruct (CheckArgSlots _ _); [eauto|].
  destruct (replays_total limit 0 body (bpool b) (Desc.Ret sig) (bversion b) ∅ (s32 (ArgSlots sig (negb (Has (mflags m) AccStatic)))) Hb Hsc)
    as (o & p' & -> & H). cbn [mbind option_bind fst snd]. destruct o as [[f a c|c|c]|]; eauto. specialize (H c eq_refl) as [Hh Hl].
  unfold localRows. destruct (local_rows_total (locals c) c Hl) as [rows ->]. cbn [mbind option_bind fst snd].
  destruct (err (snd rows)); [eauto|]. cbn [bpool set_method set_methods set_bpool].
  destruct (encode_handlers_total (handlers c) c p' Hh) as [hs ->]. cbn. eauto.
Qed.

(** C37: [Code] never panics on a body that only names labels it has itself
    created, whatever the body and however many passes are allowed: every label
    is found and every backpatch, branch or switch, is within the array. *)
Theorem Code_total (limit i : nat) (body : list cmd) (b : Builder) :
  closed_body body -> (i < length (methods b))%nat -> is_Some (Code_bound limit i body b).
Proof. apply Code_runs. Qed.

Lemma Code_total_witness : is_Some (Code_bound maxReplays 0 demo_body demo_builder).
Proof. apply (Code_total maxReplays 0 demo_body demo_builder); [apply closed_body_dec; reflexivity|vm_compute; auto]. Defined.

(** C38: the replay loop always comes to an end of its own: each pass that asks
    for another makes wide a branch of the body that was short, so a bound
    above the number of calls in the body is never reached.  *)
Theorem replays_converge (limit : nat) (body : list cmd) (p : PoolBuilder) (r : Ty) (v : Version) (ml : Z) :
  closed_body body -> (length body < limit)%nat ->
  exists res p', replays limit 0 body p r v ∅ ml = Some (Some res, p').
Proof.
  intros [Hb Hsc] Hl. destruct (replays_total limit 0 body p r v ∅ ml Hb Hsc) as (o & p' & E & _). destruct o as [res|]; [eauto|].
  pose proof (replays_bound limit 0 body p r v ∅ ml p' Hb ltac:(set_solver) E). lia.
Qed.

Lemma replays_converge_witness :
  exists res p', replays 15 0 demo_body newPoolBuilder {| TKind := Desc.Int; Dims := 0; Name := [] |} (mkVersion Java5 0) ∅ 1 = Some (Some res, p').
Proof.
  apply (replays_converge 15 demo_body newPoolBuilder {| TKind := Desc.Int; Dims := 0; Name := [] |} (mkVersion Java5 0) 1);
    [apply closed_body_dec; reflexivity|cbn; lia].
Defined.
