(* ===== verification/MethodStack.v ===== *)
(** * Method bodies: stack depth, handlers and lines

    Control arrives at a label with one stack depth, whichever way it comes;
    and the tables [Code] stores are the calls of the body, in order. *)
From Stdlib Require Import Sorting.Sorted.
From S2P Require Import Prelude.
From S2P Require Import Desc.
From S2P Require Import Op.
From S2P Require Import Format.
From S2P Require Import ClassIO.
From S2P Require Import PoolBuilder.
From S2P Require Import Code.
From S2P Require Import CodeWriter.
From S2P Require Import CodeProof.
From S2P Require Import CodeCorrect.
From S2P Require Import CodeFrame.
From S2P Require Import Builder.
From S2P Require Import MethodProof.

(** ** Depths *)

Definition depth_of (ls : list Label) (l : nat) : Z := match ls !! l with Some lb => ldepth lb | None => -1 end.

(** The labels a call may transfer control to. *)
Definition enters (x : cmd) : list nat :=
  match x with
  | CGoto l | CIf _ l => [l]
  | CTableSwitch _ _ d ts | CLookupSwitch d _ ts => d :: ts
  | _ => []
  end.

Lemma kstep_jumps k its k' i l : kstep k its k' -> kok k -> i ∈ its -> l ∈ jumps i ->
  exists lb, klabels k' !! l = Some lb /\ ldepth lb = kdepth k' /\ 0 <= kdepth k'.
Proof.
  intros H (Hd & _) Hi Hl. destruct H; try (apply elem_of_nil in Hi; contradiction); apply list_elem_of_singleton in Hi as ->; unfold jumps in Hl; cbn [body] in Hl; cbn [klabels kdepth].
  - apply elem_of_nil in Hl. contradiction.
  - apply list_elem_of_singleton in Hl as ->.
    match goal with H : note _ _ _ = _ |- _ => destruct (note_noted _ _ _ _ H) as (_ & _ & lb & E & Hd'); [lia|] end. eauto with lia.
  - match goal with H : notes _ _ _ = _ |- _ => destruct (notes_noted _ _ _ _ H) as (_ & _ & Hall); [lia|] end.
    destruct (Hall l Hl) as (lb & E & Hd'). eauto with lia.
Qed.

Lemma lookup_targets d ms ts c c' l : LookupSwitch d ms ts c = Some c' -> err c' = None -> l ∈ ts -> l ∈ map snd (sort_cases (combine ms ts)).
Proof.
  unfold LookupSwitch. destruct (len ms =? len ts) eqn:E; cbn [negb]; [|intros [= <-] He; destruct (fail_err _ _ _ He)]. to_Z. intros _ _ Hl.
  rewrite (Permutation_map snd (sort_cases_perm (combine ms ts))). revert ms E. induction ts as [|t ts IH]; intros [|m ms] E;
    try (apply elem_of_nil in Hl; contradiction); [unfold len in E; cbn in E; lia|].
  cbn. rewrite !len_cons in E. apply elem_of_cons in Hl as [->|Hl]; [apply list_elem_of_here|]. apply list_elem_of_further, IH; auto. lia.
Qed.

(** Right after the call, the labels it enters have the depth it leaves. *)
Lemma enters_depth x c c' l : cmd_ok x -> kok (core_of c) -> run_cmd x c = Some c' -> err c' = None -> l ∈ enters x ->
  exists lb, labels c' !! l = Some lb /\ ldepth lb = depth c' /\ 0 <= depth c'.
Proof.
  intros Hx Hk E He Hl.
  assert (H : forall i, kstep (core_of c) [i] (core_of c') -> l ∈ jumps i -> exists lb, labels c' !! l = Some lb /\ ldepth lb = depth c' /\ 0 <= depth c')
    by (intros i Hs Hj; apply (kstep_jumps _ _ _ i l Hs Hk); [apply list_elem_of_here|exact Hj]).
  destruct x; cbn [enters run_cmd cmd_ok] in *; try (apply elem_of_nil in Hl; contradiction).
  - destruct (goto_item l0 c c' Hk E He) as [_ Hs]. eapply H; eauto.
  - destruct (if_run k l0 c) as (pops & Er & Hp). destruct (if_op_facts k) as [Ho Hg]. rewrite Er in E.
    destruct (if_item _ l0 pops c c' Ho Hg Hp Hk E He) as [_ Hs]. eapply H; eauto.
  - destruct (table_item low high def targets c c' (proj1 Hx) (proj2 Hx) Hk E He) as [_ Hs]. eapply H; eauto.
  - destruct (lookup_item def matches targets c c' Hx Hk E He) as [_ Hs]. eapply H; [exact Hs|]. unfold jumps. cbn.
    apply elem_of_cons in Hl as [->|Hl]; [apply list_elem_of_here|apply list_elem_of_further]. eapply lookup_targets; eauto.
Qed.

Lemma Mark_depth l c c' : kok (core_of c) -> Mark l c = Some c' -> err c' = None ->
  exists lb, labels c' !! l = Some lb /\ ldepth lb = depth c' /\ 0 <= depth c' /\ (reachable c = true -> depth c = depth c').
Proof.
  intros (Hd & _) E He. unfold Mark in E. destruct (labels c !! l) as [lb|] eqn:El; [|discriminate]. cbn [mbind option_bind] in E. injection E as <-.
  pose proof (lookup_lt_Some _ _ _ El) as Hlt. cbn in Hd. revert He. cbv zeta. destruct (0 <=? pc lb); [intros He; destruct (fail_err _ _ _ He)|].
  cbn [reachable depth set_label set_labels]. destruct (0 <=? ldepth lb) eqn:E1; to_Z.
  - destruct (reachable c && negb (depth c =? ldepth lb)) eqn:E2; intros He; [destruct (fail_err _ _ _ He)|].
    cbn [labels depth set_reachable set_depth set_label set_labels]. eexists. rewrite list_lookup_insert_eq by exact Hlt. split_and!; [reflexivity|reflexivity|exact E1|].
    intros Hr. rewrite Hr in E2. cbn in E2. to_Z. auto.
  - destruct (reachable c); intros He; [|destruct (fail_err _ _ _ He)]. cbn [labels depth set_reachable set_label set_labels].
    eexists. rewrite list_insert_insert_eq, list_lookup_insert_eq by exact Hlt. split_and!; [reflexivity|reflexivity|lia|reflexivity].
Qed.

Lemma TryCatch_depth lo hi h t c c' : TryCatch lo hi h t c = Some c' -> err c' = None -> exists lb, labels c' !! h = Some lb /\ ldepth lb = 1.
Proof.
  intros E He. unfold TryCatch in E. cbn [labels set_handlers] in E. destruct (labels c !! h) as [lb|] eqn:El; [|discriminate].
  cbn [mbind option_bind] in E. injection E as <-. pose proof (lookup_lt_Some _ _ _ El) as Hlt. revert He.
  destruct (ldepth lb <? 0).
  - repeat bool_case; intros _; cbn [labels set_maxStack set_label set_labels set_handlers]; rewrite list_lookup_insert_eq by exact Hlt; eauto.
  - destruct (ldepth lb =? 1) eqn:E1; cbn [negb]; to_Z; repeat bool_case; intros He; try destruct (fail_err _ _ _ He);
      cbn [labels set_maxStack set_handlers]; eauto.
Qed.

(** C10: in a pass that is done the stack depth stays within 0 and max_stack,
    itself at most 65535, before every call; every branch and every switch
    target arrives at its label with one and the same depth, the one control
    falls into the label with and the body goes on from; and a handler is
    entered at depth 1. *)
Theorem depths_agree (body pre_ post_ : list cmd) (x : cmd) (c0 c ca cb : CodeWriter) :
  Forall cmd_ok body -> fresh c0 -> one_pass body c0 = Some (PDone c) ->
  body = pre_ ++ x :: post_ -> run pre_ c0 = Some ca -> run_cmd x ca = Some cb ->
  0 <= depth ca <= maxStack c /\ maxStack c <= 65535 /\
  (forall l, l ∈ enters x -> depth_of (labels c) l = depth cb) /\
  (forall l, x = CMark l -> depth_of (labels c) l = depth cb /\ (reachable ca = true -> depth ca = depth cb)) /\
  (forall lo hi h t, x = CTryCatch lo hi h t -> depth_of (labels c) h = 1).
Proof.
  intros Hb (p & r & v & wd & n & ml & ->) Hpass -> Hca Hcb. set (c0 := start p r v wd n ml) in *.
  destruct (pass_done _ _ _ Hpass) as (c1 & Hrun & He1 & Hr & Hres & He & Hlen & Hms & _).
  destruct (run_steps _ c0 c1 Hb (start_kok p r v wd n ml) Hrun He1) as (_ & Hk1 & its & Hs & _).
  destruct (ksteps_inv _ _ _ Hs (start_kok p r v wd n ml) (start_inv p r v wd n ml)) as [Hi1 _].
  destruct (resolve_done its c1 c Hi1 Hres He) as (Ec & _). assert (Hl : labels c = labels c1) by (rewrite Ec; reflexivity).
  assert (Hm : maxStack c = maxStack c1) by (rewrite Ec; reflexivity).
  destruct (pass_split pre_ x post_ c0 c1 Hb (start_kok p r v wd n ml) (start_inv p r v wd n ml) Hrun He1)
    as (ca' & cb' & its1 & its2 & Hca' & Hx & Hxok & Hka & Heb & Hia & _ & Hg & _ & _).
  rewrite Hca in Hca'. injection Hca' as <-. rewrite Hcb in Hx. injection Hx as <-.
  assert (Hlater : forall l lb d, labels cb !! l = Some lb -> ldepth lb = d -> 0 <= d -> depth_of (labels c) l = d).
  { intros l lb d El <- Hd. destruct (grows_labels _ _ Hg l lb El) as (lb' & El' & _ & Hd'). unfold depth_of. rewrite Hl. cbn in El'. rewrite El'. auto. }
  pose proof Hka as (Hda & _). cbn in Hda. pose proof (grows_max _ _ Hg) as Hgm. cbn in Hgm.
  destruct (run_cmd_step x ca cb Hxok Hka Hcb Heb) as (_ & its' & Hst). pose proof (grows_max _ _ (kstep_grows _ _ _ Hst)) as Hgm2. cbn in Hgm2.
  split_and!; try lia.
  - intros l Hin. destruct (enters_depth x ca cb l Hxok Hka Hcb Heb Hin) as (lb & E & Hd & H0). eauto.
  - intros l ->. destruct (Mark_depth l ca cb Hka Hcb Heb) as (lb & E & Hd & H0 & Hrr). eauto.
  - intros lo hi h t ->. destruct (TryCatch_depth _ _ _ _ _ _ Hcb Heb) as (lb & E & Hd). apply (Hlater h lb 1); auto; lia.
Qed.

(** The pass of the sample body, and the writer before its first branch. *)
Definition demo_start : CodeWriter :=
  start newPoolBuilder {| TKind := Desc.Int; Dims := 0; Name := [] |} (mkVersion Java5 0) ∅ 0 1.
Definition demo_final : CodeWriter := match one_pass demo_body demo_start with Some (PDone c) => c | _ => demo_start end.
Definition demo_at (n : nat) : CodeWriter := default demo_start (run (take n demo_body) demo_start).

Lemma depths_agree_witness :
  0 <= depth (demo_at 5) <= maxStack demo_final /\ maxStack demo_final <= 65535 /\
  (forall l, l ∈ enters (CIf Gt 1) -> depth_of (labels demo_final) l = depth (demo_at 6)) /\
  (forall l, CIf Gt 1 = CMark l -> depth_of (labels demo_final) l = depth (demo_at 6) /\ (reachable (demo_at 5) = true -> depth (demo_at 5) = depth (demo_at 6))) /\
  (forall lo hi h t, CIf Gt 1 = CTryCatch lo hi h t -> depth_of (labels demo_final) h = 1).
Proof.
  apply (depths_agree demo_body (take 5 demo_body) (drop 6 demo_body) (CIf Gt 1) demo_start demo_final (demo_at 5) (demo_at 6));
    [apply cmds_ok_dec; reflexivity|unfold fresh, demo_start; eauto 7|vm_compute; reflexivity..].
Defined.

(** ** Handlers *)

Definition try_of (x : cmd) : list handlerRec := match x with CTryCatch lo hi h t => [mkHandler lo hi h t] | _ => [] end.

Lemma run_handlers body c c' : run body c = Some c' -> handlers c' = handlers c ++ flat_map try_of body.
Proof.
  revert c. induction body as [|x body IH]; intros c E; cbn [run flat_map] in *; [rewrite app_nil_r; congruence|].
  destruct (run_cmd x c) as [c1|] eqn:E1; [|discriminate]. rewrite (IH _ E), app_assoc. f_equal. apply meta_run_cmd in E1.
  assert (H : handlers c1 = snd (fst (fst (meta_after x c)))) by (rewrite <- E1; reflexivity). rewrite H.
  destruct x; cbn [meta_after try_of meta fst snd]; rewrite ?app_nil_r; try reflexivity. repeat case_match; reflexivity.
Qed.

(** A row of the exception table and the call it comes from. *)
Definition row_of (ls : list Label) (h : handlerRec) (r : encodedHandler) : Prop :=
  ehStart r = u16 (pc_of ls (hstart h)) /\ ehEnd r = u16 (pc_of ls (hend h)) /\ ehHandler r = u16 (pc_of ls (hhandler h)) /\
  (catchType h = [] -> ehCatch r = 0).

Lemma encode_rows hs ls p rows p' : encode_handlers hs ls p = Some (rows, p') -> Forall2 (row_of ls) hs rows.
Proof.
  revert p rows p'. induction hs as [|h hs IH]; intros p rows p'; cbn [encode_handlers]; [intros [= <- <-]; constructor|].
  destruct (match catchType h with [] => (0, p) | t => Class_ t p end) as [ct p1] eqn:Et.
  destruct (ls !! hstart h) as [s|] eqn:E1; [|discriminate]. cbn [mbind option_bind]. destruct (ls !! hend h) as [e|] eqn:E2; [|discriminate].
  cbn [mbind option_bind]. destruct (ls !! hhandler h) as [t|] eqn:E3; [|discriminate]. cbn [mbind option_bind].
  destruct (encode_handlers hs ls p1) as [[rows2 p2]|] eqn:E4; [|discriminate]. cbn [mbind option_bind fst snd]. intros [= <- <-].
  constructor; [|eapply IH; eauto]. unfold row_of, pc_of. cbn [ehStart ehEnd ehHandler ehCatch]. rewrite E1, E2, E3. split_and!; auto.
  intros Hc. rewrite Hc in Et. congruence.
Qed.

(** The exception table [Code] stores has one row per [TryCatch] call, in
    the order of the calls, after the rows the method already had; each row
    holds the offsets of its three labels (65535 for a label that was never
    placed) and no catch type exactly as asked. *)
Theorem Code_handlers (limit i : nat) (body : list cmd) (b b' : Builder) :
  Forall cmd_ok body -> Code_bound limit i body b = Some b' -> berr b' = None ->
  exists m m' c0 c rows, methods b !! i = Some m /\ methods b' !! i = Some m' /\ fresh c0 /\ one_pass body c0 = Some (PDone c) /\
    mcode m' = w c /\ mhandlers m' = mhandlers m ++ rows /\ Forall2 (row_of (labels c)) (flat_map try_of body) rows.
Proof.
  intros Hb H He. destruct (Code_done _ _ _ _ _ H He) as (m & m' & sig & c0 & c & _ & Hm & _ & Hm' & (p & wd & n & ->) & Hpass & Hc & _ & _ & _ & _ & hs & p' & Eh & Ehs & _).
  eexists m, m', _, c, hs. split_and!; [exact Hm|exact Hm'|unfold fresh; eauto 7|exact Hpass|exact Hc|exact Ehs|].
  destruct (pass_done _ _ _ Hpass) as (c1 & Hrun & He1 & _ & Hres & Hec & _). pose proof Hrun as Hh. apply run_handlers in Hh. cbn [handlers start app] in Hh.
  destruct (run_steps body _ c1 Hb (start_kok _ _ _ _ _ _) Hrun He1) as (_ & _ & its & Hs & _).
  destruct (ksteps_inv _ _ _ Hs (start_kok _ _ _ _ _ _) (start_inv _ _ _ _ _ _)) as [Hi _].
  destruct (resolve_done its c1 c Hi Hres Hec) as (Ec & _). rewrite <- Hh. apply encode_rows in Eh. rewrite Ec in Eh |- *. exact Eh.
Qed.

(** A try block around a division, with a handler that returns -1. *)
Definition try_body : list cmd :=
  [CNewLabel; CNewLabel; CNewLabel; CMark 0; CIconst 1; CLoad TI 0; COp Idiv; CReturn; CTryCatch 0 1 2 (bs "java/lang/ArithmeticException");
   CMark 2; COp Pop; CIconst (-1); CMark 1; CReturn].
Definition try_result : Builder := default demo_builder (Code 0 try_body demo_builder).

Lemma Code_handlers_witness :
  exists m m' c0 c rows, methods demo_builder !! 0%nat = Some m /\ methods try_result !! 0%nat = Some m' /\ fresh c0 /\
    one_pass try_body c0 = Some (PDone c) /\ mcode m' = w c /\ mhandlers m' = mhandlers m ++ rows /\
    Forall2 (row_of (labels c)) (flat_map try_of try_body) rows.
Proof.
  apply (Code_handlers maxReplays 0 try_body demo_builder try_result); [|vm_compute; reflexivity|vm_compute; reflexivity].
  apply cmds_ok_dec. reflexivity.
Defined.

(** A try block all of whose labels are the same, never placed. *)
Definition unplaced_body : list cmd := [CNewLabel; CTryCatch 0 0 0 []; CIconst 0; CReturn].

(** A try block whose labels were never placed is not reported: [Code]
    stores a row of three 65535s, past the end of the code. *)
Theorem unplaced_handler_accepted :
  exists b' m', Code 0 unplaced_body demo_builder = Some b' /\ berr b' = None /\
    methods b' !! 0%nat = Some m' /\ mhandlers m' = [mkEH 65535 65535 65535 0] /\ len (mcode m') = 2.
Proof. eexists _, _. split_and!; vm_compute; reflexivity. Qed.
