(* ===== verification/CodeOperands.v ===== *)
(** * What single calls of the code writer encode

    Loads, stores and increments read back with the slot (and the delta) they
    were given, whichever of the encodings the writer picks; small integer
    constants read back as their value; and the inverted test of a long branch
    is the negation of the test. *)
From Stdlib Require Import Sorting.Sorted.
From S2P Require Import Prelude.
From S2P Require Import Desc.
From S2P Require Import Op.
From S2P Require Import Format.
From S2P Require Import ClassIO.
From S2P Require Import PoolBuilder.
From S2P Require Import Code.
From S2P Require Import CodeWriter.
From S2P Require Import CodeProof.
From S2P Require Import CodeCorrect.
From S2P Require Import Builder.
From S2P Require Import MethodProof.
From S2P Require Import MethodStack.

(** The bytes [r] decode as the instruction [op], wherever they stand. *)
Definition decodes (r : bytes) (op : Z) (wide : bool) : Prop :=
  forall A B cur, len (A ++ r ++ B) < 2147483648 ->
    Next (mkIter (A ++ r ++ B) (len A) cur None) =
      Some (true, mkIter (A ++ r ++ B) (len A + len r) (mkInstr op (len A) wide r) None).

Lemma decodes_short op ops : Valid op = true -> op <> Op.Wide -> OpLen op = 1 + len ops -> decodes (op :: ops) op false.
Proof.
  intros Hv Hw Hl A B cur Hlen. apply (Next_mid A (op :: ops) B Hlen op ops); auto. unfold instrLen.
  rewrite Hl, len_cons, (proj2 (Z.leb_le _ _)) by (pose proof (len_nonneg ops); lia). reflexivity.
Qed.

Lemma decodes_wide op ops : OpKind op = Local \/ OpKind op = IincK -> 2 + len ops = (if op =? Iinc then 6 else 4) ->
  decodes (Op.Wide :: op :: ops) op true.
Proof.
  intros Hk Hl A B cur Hlen. pose proof (len_nonneg ops). pose proof (len_nonneg B). pose proof (len_nonneg A). set (r := Op.Wide :: op :: ops) in *.
  assert (Hr : len r = 2 + len ops) by (unfold r; rewrite !len_cons; lia). rewrite !len_app in Hlen.
  unfold Next. cbn [ipc icode ierr]. rewrite !len_app. rewrite (proj2 (Z.leb_gt _ _)) by lia. rewrite <- (Z.add_0_r (len A)) at 1.
  rewrite (at_mid A r B 0 Op.Wide) by (try reflexivity; lia). cbn [mbind option_bind]. change (Valid Op.Wide) with true. cbn [negb]. rewrite Z.eqb_refl.
  rewrite (proj2 (Z.leb_gt _ _)) by lia. rewrite u32_id by lia. rewrite (at_mid A r B 1 op) by (try reflexivity; lia). cbn [mbind option_bind].
  assert (instrLen (A ++ r ++ B) (len A) op true = Some (Ok (len r))) as Hi by (unfold instrLen; rewrite Hr, Hl; reflexivity).
  destruct Hk as [-> | ->]; apply (next_instr_mid A r B); auto; rewrite !len_app; lia.
Qed.

(** ** Loads and stores *)

(** The general opcode and the first of the four compact ones. *)
Definition load_ops (t : local_type) : Z * Z :=
  match t with TA => (Aload, Aload0) | TI => (Iload, Iload0) | TF => (Fload, Fload0) | TL => (Lload, Lload0) | TD => (Dload, Dload0) end.
Definition store_ops (t : local_type) : Z * Z :=
  match t with TA => (Astore, Astore0) | TI => (Istore, Istore0) | TF => (Fstore, Fstore0) | TL => (Lstore, Lstore0) | TD => (Dstore, Dstore0) end.
Definition width_of (t : local_type) : Z := match t with TL | TD => 2 | _ => 1 end.

Definition pair_facts (g k : Z) : Prop :=
  0 <= g < 256 /\ Valid g = true /\ g <> Op.Wide /\ OpLen g = 2 /\ OpKind g = Local /\ (g =? Iinc) = false /\
  forall n, 0 <= n < 4 -> u8 (k + u8 n) = k + n /\ Valid (k + n) = true /\ k + n <> Op.Wide /\ OpLen (k + n) = 1 /\
    LocalSlot (mkInstr (k + n) 0 false [k + n]) = Some n.

Lemma pair_ok t : pair_facts (fst (load_ops t)) (snd (load_ops t)) /\ pair_facts (fst (store_ops t)) (snd (store_ops t)).
Proof.
  destruct t; split; (split_and!; [discriminate|reflexivity|reflexivity|discriminate|reflexivity|reflexivity|reflexivity|]);
    intros n Hn; assert (n = 0 \/ n = 1 \/ n = 2 \/ n = 3) as [-> | [-> | [-> | ->]]] by lia; split_and!; try reflexivity; discriminate.
Qed.

Lemma slot_at o pc1 pc2 wide r : LocalSlot (mkInstr o pc1 wide r) = LocalSlot (mkInstr o pc2 wide r).
Proof. reflexivity. Qed.

(** The instruction a load or a store emits. *)
Definition local_instr (g k slot : Z) (r : bytes) (op : Z) (wide : bool) : Prop :=
  decodes r op wide /\ (op = g \/ slot < 4 /\ op = k + slot) /\ forall pc, LocalSlot (mkInstr op pc wide r) = Some slot.

Lemma localOp_emits g k slot width c :
  pair_facts g k -> err (localOp g k slot width c) = None -> 0 <= width <= 2 ->
  exists r op wide, w (localOp g k slot width c) = w c ++ r /\ local_instr g k slot r op wide /\ slot + width <= maxLocals (localOp g k slot width c).
Proof.
  intros (Hg & Hv & Hw & Hl & Hk & Hni & Hc). unfold localOp. cbv zeta. destruct (err (useLocal slot width c)) eqn:E; [congruence|].
  unfold useLocal, MaxLocals in *. cbv zeta in *. destruct ((slot <? 0) || (65535 <? slot)) eqn:Er; [destruct (fail_err _ _ _ E)|]. to_Z.
  intros He Hwd. rewrite !s32_id in * by (rewrite ?s32_id; lia). destruct (65535 <? slot + width) eqn:E2; [destruct (fail_err _ _ _ E)|]. to_Z.
  set (c1 := if maxLocals c <? slot + width then _ else _) in *.
  assert (Hc1 : w c1 = w c /\ slot + width <= maxLocals c1) by (unfold c1; bool_case; to_Z; (split; [reflexivity|cbn; lia])).
  destruct Hc1 as [Hw1 Hm1]. rewrite <- Hw1. unfold local_instr. destruct (slot <? 4) eqn:E4; to_Z.
  - destruct (emitOp_ok _ _ He) as (-> & _). destruct (Hc slot) as (Hu & Hv' & Hw' & Hl' & Hs); [lia|].
    exists [k + slot], (k + slot), false. rewrite (u8_id (u8 _)) by apply u8_range. rewrite Hu. split_and!; auto. apply decodes_short; auto.
  - destruct (slot <? 256) eqn:E5; to_Z.
    + destruct (emitOp_ok _ _ He) as (-> & _). exists (g :: [slot]), g, false. cbn [w u1 set_w]. unfold wU1. rewrite <- app_assoc. rewrite !u8_id by lia.
      split_and!; auto. apply decodes_short; auto. intros pc. unfold LocalSlot. cbn. rewrite Hk. reflexivity.
    + destruct (emitOp_ok _ _ He) as (-> & _). exists (Op.Wide :: g :: be2 slot), g, true. cbn [w u1 u2 set_w]. unfold wU1, wU2. rewrite <- !app_assoc.
      rewrite (u8_id g), (u16_id slot) by lia. change (u8 Op.Wide) with Op.Wide. split_and!; auto.
      * apply decodes_wide; [auto|]. rewrite (proj2 (Z.eqb_neq _ _) Hni). reflexivity.
      * intros pc. unfold LocalSlot, operands. cbn [IWide raw IOp]. change (from (Op.Wide :: g :: be2 slot) 2) with (Some (be2 slot)). cbn [mbind option_bind].
        rewrite Hk, <- (app_nil_r (be2 slot)), be16_be2 by lia. reflexivity.
Qed.

Lemma push_frame n c : w (push n c) = w c /\ maxLocals (push n c) = maxLocals c.
Proof. unfold push, fail. cbv zeta. repeat case_match; split; reflexivity. Qed.
Lemma pop_frame n c : w (pop n c) = w c /\ maxLocals (pop n c) = maxLocals c.
Proof. unfold pop, fail. cbv zeta. repeat case_match; split; reflexivity. Qed.

(** A load or a store that is not refused appends one instruction, which
    the iterator decodes wherever it stands: the general opcode of the type, a
    wide one, or the compact one of a slot below 4, and [LocalSlot] reads the
    slot asked for from each of them; and max_locals covers the slot and the
    width of the type. *)
Theorem locals_read_back (st : bool) (t : local_type) (slot : Z) (c c' : CodeWriter) :
  run_cmd (if st then CStore t slot else CLoad t slot) c = Some c' -> err c' = None ->
  exists r op wide, w c' = w c ++ r /\
    local_instr (fst (if st then store_ops t else load_ops t)) (snd (if st then store_ops t else load_ops t)) slot r op wide /\
    slot + width_of t <= maxLocals c'.
Proof.
  destruct (pair_ok t) as [Hl Hs].
  assert (H : forall g k, pair_facts g k -> forall f : CodeWriter -> CodeWriter, (forall x, err (f x) = None -> err x = None) ->
    (forall x, w (f x) = w x /\ maxLocals (f x) = maxLocals x) -> err (f (localOp g k slot (width_of t) c)) = None ->
    exists r op wide, w (f (localOp g k slot (width_of t) c)) = w c ++ r /\ local_instr g k slot r op wide /\
      slot + width_of t <= maxLocals (f (localOp g k slot (width_of t) c))).
  { intros g k Hp f Hf Hfr He. destruct (Hfr (localOp g k slot (width_of t) c)) as [-> ->]. apply localOp_emits; auto. destruct t; cbn; lia. }
  destruct st; cbn [run_cmd]; intros [= <-].
  - destruct t; apply (H _ _ Hs (pop _)); auto using pop_frame; intros x; apply pop_err.
  - destruct t; apply (H _ _ Hl (push _)); auto using push_frame; intros x; apply push_err.
Qed.

Definition demo_store : CodeWriter := default demo_start (run_cmd (CStore TL 300) (push 2 demo_start)).

Lemma locals_read_back_witness :
  exists r op wide, w demo_store = w (push 2 demo_start) ++ r /\ local_instr Lstore Lstore0 300 r op wide /\ 300 + 2 <= maxLocals demo_store.
Proof. apply (locals_read_back true TL 300 (push 2 demo_start) demo_store); vm_compute; reflexivity. Defined.

(** ** Increments and small constants *)

(** An [iinc] that is not refused appends one instruction from which
    [LocalSlot] and [Increment] read back the slot and the delta, in the short
    form or the wide one. *)
Theorem iinc_read_back (slot delta : Z) (c c' : CodeWriter) :
  run_cmd (CIinc slot delta) c = Some c' -> err c' = None ->
  exists r wide, w c' = w c ++ r /\ decodes r Iinc wide /\ -32768 <= delta <= 32767 /\
    forall pc, LocalSlot (mkInstr Iinc pc wide r) = Some slot /\ Increment (mkInstr Iinc pc wide r) = Some delta.
Proof.
  cbn [run_cmd]. intros [= <-]. unfold Iinc_. cbv zeta. destruct (err (useLocal slot 1 c)) eqn:E; [congruence|].
  destruct (useLocal_ok _ _ _ E) as (m & -> & _ & Hs). destruct ((delta <? -32768) || _) eqn:Ed; [intros He; destruct (fail_err _ _ _ He)|]. to_Z.
  destruct ((slot <? 256) && _ && _) eqn:Es; to_Z; intros He; destruct (emitOp_ok _ _ He) as (-> & _).
  - exists (Iinc :: [slot] ++ [u8 delta]), false. cbn [w u1 set_w set_maxLocals]. unfold wU1. rewrite <- !app_assoc, !(u8_id slot), s8_id by lia.
    split_and!; auto; try lia.
    + apply (decodes_short Iinc); [reflexivity|discriminate|reflexivity].
    + intros pc. split; [reflexivity|]. change (Some (s8 (u8 delta)) = Some delta). rewrite s8_u8, s8_id by lia. reflexivity.
  - exists (Op.Wide :: Iinc :: be2 slot ++ be2 (u16 delta)), true. cbn [w u1 u2 set_w set_maxLocals]. unfold wU1, wU2.
    rewrite <- !app_assoc, (u16_id slot), s16_id by lia. split_and!; auto; try lia.
    + apply (decodes_wide Iinc); [auto|reflexivity].
    + intros pc. unfold LocalSlot, Increment, operands. cbn [IWide raw IOp]. change (Iinc =? Iinc) with true. cbn [negb].
      change (from (Op.Wide :: Iinc :: be2 slot ++ be2 (u16 delta)) 2) with (Some (be2 slot ++ be2 (u16 delta))). cbn [mbind option_bind].
      change (OpKind Iinc) with IincK. cbv iota. rewrite be16_be2 by lia.
      change (from (be2 slot ++ be2 (u16 delta)) 2) with (Some (be2 (u16 delta))). cbn [mbind option_bind].
      rewrite <- (app_nil_r (be2 (u16 delta))), be16_be2 by apply u16_range. cbn [mbind option_bind]. rewrite s16_u16, s16_id by lia. auto.
Qed.

Lemma iinc_read_back_witness :
  let c' := default demo_start (run_cmd (CIinc 7 (-200)) demo_start) in
  exists r wide, w c' = w demo_start ++ r /\ decodes r Iinc wide /\ -32768 <= -200 <= 32767 /\
    forall pc, LocalSlot (mkInstr Iinc pc wide r) = Some 7 /\ Increment (mkInstr Iinc pc wide r) = Some (-200).
Proof. apply (iinc_read_back 7 (-200) demo_start); vm_compute; reflexivity. Defined.

(** The value an integer constant instruction pushes. *)
Definition int_pushed (j : Instr) : option Z :=
  if (IconstM1 <=? IOp j) && (IOp j <=? Iconst5) then Some (IOp j - Iconst0)
  else if (IOp j =? Bipush) || (IOp j =? Sipush) then Immediate j
  else None.

(** A constant of 16 bits is pushed by one instruction without the pool,
    and reads back as itself: from iconst_m1 to iconst_5 in one byte, a signed
    byte in two, the rest in three. *)
Theorem iconst_read_back (v : Z) (c c' : CodeWriter) :
  -32768 <= v <= 32767 -> run_cmd (CIconst v) c = Some c' -> err c' = None ->
  exists r op, w c' = w c ++ r /\ decodes r op false /\ (forall pc, int_pushed (mkInstr op pc false r) = Some v) /\
    len r = (if (-1 <=? v) && (v <=? 5) then 1 else if (-128 <=? v) && (v <=? 127) then 2 else 3).
Proof.
  intros Hv. cbn [run_cmd]. intros [= <-]. unfold Iconst. destruct ((-1 <=? v) && (v <=? 5)) eqn:E1; [|destruct ((-128 <=? v) && (v <=? 127)) eqn:E2].
  - to_Z. intros He. apply push_err in He. destruct (push_frame 1 (emitOp (u8 (Iconst0 + u8 v)) c)) as [-> _]. destruct (emitOp_ok _ _ He) as (-> & _).
    rewrite (u8_id (u8 _)) by apply u8_range. exists [u8 (Iconst0 + u8 v)], (u8 (Iconst0 + u8 v)).
    assert (v = -1 \/ v = 0 \/ v = 1 \/ v = 2 \/ v = 3 \/ v = 4 \/ v = 5) as Hc by lia.
    decompose [or] Hc; subst v; (split_and!; [reflexivity|apply decodes_short; [reflexivity|discriminate|reflexivity]|reflexivity|reflexivity]).
  - to_Z. intros He. apply push_err in He. destruct (push_frame 1 (u1 (u8 (s8 v)) (emitOp Bipush c))) as [-> _]. destruct (emitOp_ok Bipush c He) as (-> & _).
    exists (Bipush :: [u8 v]), Bipush. cbn [w u1 set_w]. unfold wU1. rewrite <- app_assoc, s8_id by lia.
    split_and!; [reflexivity|apply decodes_short; [reflexivity|discriminate|reflexivity]| |reflexivity].
    intros pc. change (Some (s8 (u8 v)) = Some v). rewrite s8_u8, s8_id by lia. reflexivity.
  - destruct ((-32768 <=? v) && (v <=? 32767)) eqn:E3; [|to_Z; lia]. clear E3. intros He. apply push_err in He.
    destruct (push_frame 1 (u2 (u16 (s16 v)) (emitOp Sipush c))) as [-> _]. destruct (emitOp_ok Sipush c He) as (-> & _).
    exists (Sipush :: be2 (u16 v)), Sipush. cbn [w u1 u2 set_w]. unfold wU1, wU2. rewrite <- app_assoc, s16_id by lia.
    split_and!; [reflexivity|apply decodes_short; [reflexivity|discriminate|reflexivity]| |reflexivity].
    intros pc. unfold int_pushed, Immediate, operands. cbn [IOp raw IWide]. change (from (Sipush :: be2 (u16 v)) 1) with (Some (be2 (u16 v))).
    cbn [mbind option_bind]. rewrite <- (app_nil_r (be2 (u16 v))), be16_be2 by apply u16_range. cbn -[u16 s16]. rewrite s16_u16, s16_id by lia. reflexivity.
Qed.

Lemma iconst_read_back_witness :
  let c' := default demo_start (run_cmd (CIconst (-200)) demo_start) in
  exists r op, w c' = w demo_start ++ r /\ decodes r op false /\ (forall pc, int_pushed (mkInstr op pc false r) = Some (-200)) /\
    len r = (if (-1 <=? -200) && (-200 <=? 5) then 1 else if (-128 <=? -200) && (-200 <=? 127) then 2 else 3).
Proof. apply (iconst_read_back (-200) demo_start); [lia|vm_compute; reflexivity..]. Defined.

(** ** Inverted tests *)

(** When a conditional branch is taken: [x], and [y] for the comparisons of
    two values; null is 0. *)
Definition taken (o x y : Z) : option bool :=
  if o =? Ifeq then Some (x =? 0) else if o =? Ifne then Some (negb (x =? 0))
  else if o =? Iflt then Some (x <? 0) else if o =? Ifge then Some (0 <=? x)
  else if o =? Ifgt then Some (0 <? x) else if o =? Ifle then Some (x <=? 0)
  else if (o =? IfIcmpeq) || (o =? IfAcmpeq) then Some (x =? y) else if (o =? IfIcmpne) || (o =? IfAcmpne) then Some (negb (x =? y))
  else if o =? IfIcmplt then Some (x <? y) else if o =? IfIcmpge then Some (y <=? x)
  else if o =? IfIcmpgt then Some (y <? x) else if o =? IfIcmple then Some (x <=? y)
  else if o =? Ifnull then Some (x =? 0) else if o =? Ifnonnull then Some (negb (x =? 0))
  else None.

(** The test a long branch is built from is taken exactly when the test
    asked for is not, for each of the sixteen, on all operands: so skipping
    the goto_w is not taking the branch. *)
Theorem invert_negates (k : cond) (x y : Z) :
  exists b, taken (if_op k) x y = Some b /\ taken (invert (if_op k)) x y = Some (negb b) /\ invert (invert (if_op k)) = if_op k.
Proof.
  destruct k; (eexists; split; [reflexivity|]; split; [|reflexivity]);
    match goal with |- taken ?o _ _ = _ => let v := eval vm_compute in o in change o with v end; cbn; f_equal; rewrite ?negb_involutive; auto;
    rewrite ?Z.leb_antisym, ?Z.ltb_antisym, ?negb_involutive; auto.
Qed.
