(* ===== verification/Attrs.v ===== *)
(** * Decoded classes ([classfile/attrs.go], [classfile/attribute.go],
      [classfile/member.go], [classfile/classfile.go])

    The attributes the reader models, the tables they sit in, and the fields,
    methods and class they describe, with the values hoisted from the tables. *)
From S2P Require Import Prelude.
From S2P Require Import Desc.
From S2P Require Import Format.
From S2P Require Import Pool.

(** ** Attributes *)

Record InnerClass := mkInnerClass { ICInner : bytes; ICOuter : bytes; ICSimpleName : bytes; ICFlags : Z }.
Record MethodParameter := mkMethodParameter { MPName : bytes; MPFlags : Z }.
Record LineNumber := mkLineNumber { LNStartPC : Z; LNLine : Z }.
Record LocalVariable := mkLocalVariable {
  LVStartPC : Z; LVLength : Z; LVName : bytes; LVDescriptor : bytes; LVSlot : Z }.
Record ExceptionHandler := mkExceptionHandler {
  EHStartPC : Z; EHEndPC : Z; EHHandlerPC : Z; EHCatchType : bytes }.

(** The attributes; [RecordAttr] and [CodeAttr] are the source's [Record] and
    [Code], which hold tables of their own.  In [mkCode] the last two arguments
    are the tables hoisted from the attributes. *)
Inductive Attr : Set :=
  | Raw (name data : bytes)
  | SourceFile (value : bytes)
  | Signature (value : bytes)
  | ConstantValue (value : Const)
  | Exceptions (classes : list bytes)
  | Synthetic
  | Deprecated
  | NestHost (host : bytes)
  | NestMembers (classes : list bytes)
  | PermittedSubclasses (classes : list bytes)
  | InnerClasses (classes : list InnerClass)
  | EnclosingMethod (class name descriptor : bytes)
  | RecordAttr (components : list RecordComponent)
  | MethodParameters (params : list MethodParameter)
  | BootstrapMethods (methods : list BootstrapMethod)
  | StackMapTable (data : bytes)
  | LineNumberTable (lines : list LineNumber)
  | LocalVariableTable (vars : list LocalVariable)
  | LocalVariableTypeTable (vars : list LocalVariable)
  | CodeAttr (code : Code)
with RecordComponent : Set :=
  | mkRecordComponent (name descriptor signature : bytes) (attrs : list Attr)
with Code : Set :=
  | mkCode (maxStack maxLocals : Z) (code : bytes) (handlers : list ExceptionHandler) (attrs : list Attr)
      (lineNumbers : option (list LineNumber)) (stackMap : option bytes).

Abbreviation Attrs := (list Attr).

Definition CMaxStack (c : Code) : Z := let 'mkCode s _ _ _ _ _ _ := c in s.
Definition CMaxLocals (c : Code) : Z := let 'mkCode _ l _ _ _ _ _ := c in l.
Definition CBytes (c : Code) : bytes := let 'mkCode _ _ b _ _ _ _ := c in b.
Definition CHandlers (c : Code) : list ExceptionHandler := let 'mkCode _ _ _ h _ _ _ := c in h.
Definition CAttrs (c : Code) : Attrs := let 'mkCode _ _ _ _ a _ _ := c in a.

Definition AttrName (a : Attr) : bytes :=
  match a with
  | Raw name _ => name
  | SourceFile _ => bs "SourceFile"
  | Signature _ => bs "Signature"
  | ConstantValue _ => bs "ConstantValue"
  | Exceptions _ => bs "Exceptions"
  | Synthetic => bs "Synthetic"
  | Deprecated => bs "Deprecated"
  | NestHost _ => bs "NestHost"
  | NestMembers _ => bs "NestMembers"
  | PermittedSubclasses _ => bs "PermittedSubclasses"
  | InnerClasses _ => bs "InnerClasses"
  | EnclosingMethod _ _ _ => bs "EnclosingMethod"
  | RecordAttr _ => bs "Record"
  | MethodParameters _ => bs "MethodParameters"
  | BootstrapMethods _ => bs "BootstrapMethods"
  | StackMapTable _ => bs "StackMapTable"
  | LineNumberTable _ => bs "LineNumberTable"
  | LocalVariableTable _ => bs "LocalVariableTable"
  | LocalVariableTypeTable _ => bs "LocalVariableTypeTable"
  | CodeAttr _ => bs "Code"
  end.

(** [Find]: [None] is Go's nil. *)
Fixpoint Find (as_ : Attrs) (name : bytes) : option Attr :=
  match as_ with
  | [] => None
  | a :: as_ => if bool_decide (AttrName a = name) then Some a else Find as_ name
  end.

(** A [*Raw] is its name and its data. *)
Definition isRaw (a : Attr) : option (bytes * bytes) := match a with Raw n d => Some (n, d) | _ => None end.

Fixpoint Raws (as_ : Attrs) : list (bytes * bytes) :=
  match as_ with
  | [] => []
  | a :: as_ => match isRaw a with Some r => r :: Raws as_ | None => Raws as_ end
  end.

(** ** Fields, methods and the class *)

Record Field := mkField {
  FFlags : Z; FName : bytes; FDescriptor : bytes; FAttrs : Attrs;
  FConstantValue : option Const; FSignature : bytes; FDeprecated : bool; FSynthetic : bool }.

Record Method := mkMethod {
  MFlags : Z; MName : bytes; MDescriptor : bytes; MAttrs : Attrs;
  MCode : option Code; MExceptions : list bytes; MSignature : bytes; MDeprecated : bool; MSynthetic : bool }.

Record Class := mkClass {
  KVersion : Version; KPool : Pool; KFlags : Z; KName : bytes; KSuper : bytes; KInterfaces : list bytes;
  KFields : list Field; KMethods : list Method; KAttrs : Attrs;
  KSourceFile : bytes; KSignature : bytes; KNestHost : bytes; KDeprecated : bool; KSynthetic : bool }.

(** One round of the loop of [members] that hoists from the attribute table. *)
Definition hoist_field (f : Field) (a : Attr) : Field :=
  let '(mkField fl n d as_ cv sg de sy) := f in
  match a with
  | ConstantValue v => mkField fl n d as_ (Some v) sg de sy
  | Signature v => mkField fl n d as_ cv v de sy
  | Deprecated => mkField fl n d as_ cv sg true sy
  | Synthetic => mkField fl n d as_ cv sg de true
  | _ => f
  end.

(** One round of the loop of [methods]. *)
Definition hoist_method (m : Method) (a : Attr) : Method :=
  let '(mkMethod fl n d as_ co ex sg de sy) := m in
  match a with
  | CodeAttr c => mkMethod fl n d as_ (Some c) ex sg de sy
  | Exceptions l => mkMethod fl n d as_ co l sg de sy
  | Signature v => mkMethod fl n d as_ co ex v de sy
  | Deprecated => mkMethod fl n d as_ co ex sg true sy
  | Synthetic => mkMethod fl n d as_ co ex sg de true
  | _ => m
  end.

(** One round of the loop at the end of [code]. *)
Definition hoist_code (c : Code) (a : Attr) : Code :=
  let 'mkCode s l b h as_ ln sm := c in
  match a with
  | LineNumberTable t => mkCode s l b h as_ (Some t) sm
  | StackMapTable t => mkCode s l b h as_ ln (Some t)
  | _ => c
  end.

Definition set_bsms (p : Pool) (b : list BootstrapMethod) : Pool :=
  mkPool (entries p) (src p) (strs p) (strOK p) b (pfile p).

(** One round of [hoistClass]. *)
Definition hoist_class (c : Class) (a : Attr) : Class :=
  let '(mkClass v p fl n su i fs ms as_ sf sg nh de sy) := c in
  match a with
  | SourceFile x => mkClass v p fl n su i fs ms as_ x sg nh de sy
  | Signature x => mkClass v p fl n su i fs ms as_ sf x nh de sy
  | NestHost x => mkClass v p fl n su i fs ms as_ sf sg x de sy
  | Deprecated => mkClass v p fl n su i fs ms as_ sf sg nh true sy
  | Synthetic => mkClass v p fl n su i fs ms as_ sf sg nh de true
  | BootstrapMethods b => mkClass v (set_bsms p b) fl n su i fs ms as_ sf sg nh de sy
  | _ => c
  end.

Definition hoistClass (c : Class) : Class := foldl hoist_class c (KAttrs c).

Definition ClassIsInterface (c : Class) : bool := Has (KFlags c) AccInterface.
Definition ClassIsModule (c : Class) : bool := Has (KFlags c) AccModule.

(** [Method] and [Field], the lookups by name and descriptor. *)
Definition ClassMethod (c : Class) (name descriptor : bytes) : option Method :=
  List.find (fun m => bool_decide (MName m = name) && bool_decide (MDescriptor m = descriptor)) (KMethods c).
Definition ClassField (c : Class) (name descriptor : bytes) : option Field :=
  List.find (fun f => bool_decide (FName f = name) && bool_decide (FDescriptor f = descriptor)) (KFields c).

Definition FieldIsStatic (f : Field) : bool := IsStatic (FFlags f).
Definition FieldIsFinal (f : Field) : bool := IsFinal (FFlags f).
Definition MethodIsStatic (m : Method) : bool := IsStatic (MFlags m).
Definition MethodIsAbstract (m : Method) : bool := IsAbstract (MFlags m).
Definition MethodIsNative (m : Method) : bool := IsNative (MFlags m).
Definition MethodIsConstructor (m : Method) : bool := IsConstructor (MName m).
Definition MethodIsClassInit (m : Method) : bool := IsClassInit (MName m).
Definition MethodHasBody (m : Method) : bool := negb (MethodIsAbstract m) && negb (MethodIsNative m).
Definition MethodString (m : Method) : bytes := MName m ++ MDescriptor m.
