(* ===== verification/Decoder.v ===== *)
(** * Reading a class file ([classfile/decoder.go], [classfile/classfile.go])

    [read] and everything below it: attribute tables, members, the class.  A
    decoder is the cursor and the pool whose memo the lookups update; the
    version and the mode do not change while it runs. *)
From S2P Require Import Prelude.
From S2P Require Import Desc.
From S2P Require Import ClassIO.
From S2P Require Import Format.
From S2P Require Import Pool.
From S2P Require Import Attrs.

Definition Magic : Z := 0xCAFEBABE.

Definition DefaultMode : Z := 0.
Definition SkipCode : Z := Z.shiftl 1 1.
Definition SkipDebug : Z := Z.shiftl 1 2.
Definition KeepRaw : Z := Z.shiftl 1 3.
Definition AllowPreview : Z := Z.shiftl 1 4.

(** [mode&flag != 0] *)
Definition mode_has (mode flag : Z) : bool := negb (Z.land mode flag =? 0).

(** ** The decoder's monad

    The errors of [read]: a [*SyntaxError], any other error, a panic, a nil
    error with no class, and tables nested deeper than the recursion allows;
    the last three are shown never to occur. *)
Inductive derror :=
  | DSyntax (e : SyntaxError)
  | DError (e : goerror)
  | DPanic
  | DNil
  | DDeep.

Record decoder := mkDecoder { dr : reader; dpool : Pool }.

Definition DM (A : Type) : Type := decoder -> result derror A * decoder.

#[export] Instance DM_ret : MRet DM := fun _ a d => (Ok a, d).
#[export] Instance DM_bind : MBind DM := fun _ _ k m d =>
  match m d with (Ok a, d') => k a d' | (Err e, d') => (Err e, d') end.

Definition throw {A} (e : derror) : DM A := fun d => (Err e, d).
Definition rd {A} (m : Rd A) : DM A := fun d => let '(a, r) := m (dr d) in (Ok a, mkDecoder r (dpool d)).
Definition lk {A} (m : PM A) : DM A := fun d =>
  let '(o, p) := m (dpool d) in
  (match o with Ok a => Ok a | Err (Fail e) => Err (DError e) | Err Panic => Err DPanic end, mkDecoder (dr d) p).
Definition is_done : DM bool := fun d => (Ok (done (dr d)), d).

(** [d.name()] *)
Definition decoder_name : DM bytes := fun d =>
  (Ok (match rfile (dr d) with [] => bs "class file" | f => f end), d).

(** [return out, d.r.err] *)
Definition sticky {A} (out : A) : DM A := fun d =>
  (match rerr (dr d) with Some e => Err (DSyntax e) | None => Ok out end, d).

(** [orErr(nil, sub)]; an explicit error has already ended the computation. *)
Definition orErr {A} (out : A) : DM A := fun d =>
  (match rerr (dr d) with
   | Some e => Err (DSyntax e)
   | None =>
       let n := len (rb (dr d)) - roff (dr d) in
       if negb (n =? 0)
       then Err (DSyntax {| EFile := rfile (dr d); EOff := roff (dr d);
                            EMsg := Errorf "%d bytes left over after the attribute body" [ANum n] |})
       else Ok out
   end, d).

(** The nested decoder [sub] on an attribute body; it shares the pool. *)
Definition in_sub {A} (body : bytes) (m : DM A) : DM A := fun d =>
  let '(a, d') := m (mkDecoder (mkReader body 0 (rfile (dr d)) None) (dpool d)) in
  (a, mkDecoder (dr d) (dpool d')).

(** [for i := 0; i < n && !d.r.done(); i++], gathering the rows. *)
Fixpoint rows {A} (n : nat) (row : DM A) : DM (list A) :=
  match n with
  | O => mret []
  | S n => d ← is_done;
      if d : bool then mret []
      else a ← row; l ← rows n row; mret (a :: l)
  end.

Definition u1 : DM Z := rd rU1.
Definition u2 : DM Z := rd rU2.
Definition u4 : DM Z := rd rU4.

Definition utf8 (i : Z) : DM bytes := lk (UTF8 i).
Definition class (i : Z) : DM bytes := lk (Class_ i).
Definition optClass (i : Z) : DM bytes := if i =? 0 then mret [] else class i.
Definition optUTF8 (i : Z) : DM bytes := if i =? 0 then mret [] else utf8 i.

Section Decoder.
Variable version : Version.
Variable mode : Z.

(** ** Attribute bodies *)

Definition classList : DM (list bytes) := n ← u2; rows (Z.to_nat n) (i ← u2; class i).

Definition localVar : DM LocalVariable :=
  pc ← u2; l ← u2; i ← u2; name ← utf8 i; j ← u2; descriptor ← utf8 j; slot ← u2;
  mret (mkLocalVariable pc l name descriptor slot).
Definition localVars : DM (list LocalVariable) := n ← u2; rows (Z.to_nat n) localVar.

Definition innerClass : DM InnerClass :=
  i ← u2; inner ← class i; j ← u2; outer ← optClass j; k ← u2; simple ← optUTF8 k; flags ← u2;
  mret (mkInnerClass inner outer simple flags).

Definition bootstrapMethod : DM BootstrapMethod :=
  i ← u2; h ← lk (PoolHandle i version); argc ← u2; args ← rows (Z.to_nat argc) u2;
  mret (mkBootstrapMethod h args).

Definition methodParameter : DM MethodParameter :=
  i ← u2; name ← optUTF8 i; flags ← u2; mret (mkMethodParameter name flags).

Definition lineNumber : DM LineNumber := pc ← u2; line ← u2; mret (mkLineNumber pc line).

Definition handler : DM ExceptionHandler :=
  s ← u2; e ← u2; h ← u2; i ← u2; c ← optClass i; mret (mkExceptionHandler s e h c).

(** A case of [attribute] on the nested decoder: the body, then [orErr]. *)
Definition whole {A} (body : bytes) (m : DM A) : DM A := in_sub body (a ← m; orErr a).

(** The tags a field's constant may have. *)
Definition field_constant (t : Z) : bool :=
  (t =? TagInteger) || (t =? TagFloat) || (t =? TagLong) || (t =? TagDouble) || (t =? TagString).

Section Nested.
(** The attribute tables one level down. *)
Variable attributes : Z -> DM Attrs.

Definition recordComponent : DM RecordComponent :=
  i ← u2; name ← utf8 i; j ← u2; descriptor ← utf8 j; attrs ← attributes locRecord;
  mret (mkRecordComponent name descriptor
          (match Find attrs (bs "Signature") with Some (Signature s) => s | _ => [] end) attrs).

Definition code : DM Code :=
  maxStack ← u2; maxLocals ← u2; length ← u4;
  if length =? 0 then
    name ← decoder_name;
    throw (DError (Errorf "%s: code_length is 0 (a Code attribute must hold at least one instruction)" [AStr name]))
  else if 65536 <=? length then
    name ← decoder_name;
    throw (DError (Errorf "%s: code_length %d exceeds the 65535-byte limit" [AStr name; ANum length]))
  else
    b ← rd (rBytes length);
    n ← u2;
    handlers ← rows (Z.to_nat n) handler;
    attrs ← attributes locCode;
    orErr (foldl hoist_code (mkCode maxStack maxLocals b handlers attrs None None) attrs).

Definition constantValue (body : bytes) : DM Attr :=
  in_sub body (
    i ← u2; v ← lk (PoolConst i version);
    if field_constant (CTag v) then orErr (ConstantValue v)
    else name ← decoder_name;
      throw (DError (Errorf "%s: ConstantValue names a %s, which is not a legal field constant"
                       [AStr name; AErr (TagText (CTag v))]))).

(** [attribute]; [None] is a nil attribute. *)
Definition attribute (name body : bytes) (loc : Z) : DM (option Attr) :=
  let raw : DM (option Attr) := mret (Some (Raw name body)) in
  let named (s : string) : bool := bool_decide (name = bs s) in
  match where_ name with
  | None => raw
  | Some (_, (at_, since)) =>
    if (Z.land at_ loc =? 0) || negb (AtLeast version since) then raw
    else if named "SourceFile" then
      whole body (i ← u2; v ← utf8 i; mret (Some (SourceFile v)))
    else if named "Signature" then
      whole body (i ← u2; v ← utf8 i; mret (Some (Signature v)))
    else if named "ConstantValue" then v ← constantValue body; mret (Some v)
    else if named "Synthetic" then whole body (mret (Some Synthetic))
    else if named "Deprecated" then whole body (mret (Some Deprecated))
    else if named "NestHost" then whole body (i ← u2; v ← class i; mret (Some (NestHost v)))
    else if named "Exceptions" then whole body (l ← classList; mret (Some (Exceptions l)))
    else if named "NestMembers" then whole body (l ← classList; mret (Some (NestMembers l)))
    else if named "PermittedSubclasses" then whole body (l ← classList; mret (Some (PermittedSubclasses l)))
    else if named "EnclosingMethod" then
      whole body (
        i ← u2; c ← class i; mi ← u2;
        nd ← (if negb (mi =? 0) then lk (NameAndType mi) else mret ([], []));
        mret (Some (EnclosingMethod c (fst nd) (snd nd))))
    else if named "InnerClasses" then
      whole body (n ← u2; l ← rows (Z.to_nat n) innerClass; mret (Some (InnerClasses l)))
    else if named "BootstrapMethods" then
      whole body (n ← u2; l ← rows (Z.to_nat n) bootstrapMethod; mret (Some (BootstrapMethods l)))
    else if named "MethodParameters" then
      whole body (n ← u1; l ← rows (Z.to_nat n) methodParameter; mret (Some (MethodParameters l)))
    else if named "Record" then
      whole body (n ← u2; l ← rows (Z.to_nat n) recordComponent; mret (Some (RecordAttr l)))
    else if named "StackMapTable" then mret (Some (StackMapTable body))
    else if named "LineNumberTable" then
      if mode_has mode SkipDebug then mret None
      else whole body (n ← u2; l ← rows (Z.to_nat n) lineNumber; mret (Some (LineNumberTable l)))
    else if named "LocalVariableTable" || named "LocalVariableTypeTable" then
      if mode_has mode SkipDebug then mret None
      else whole body (
        vars ← localVars;
        mret (Some (if named "LocalVariableTable" then LocalVariableTable vars else LocalVariableTypeTable vars)))
    else if named "Code" then
      if mode_has mode SkipCode then mret None
      else in_sub body (c ← code; mret (Some (CodeAttr c)))
    else raw
  end.

(** What one round of [attributes] appends. *)
Definition kept (a : option Attr) (name body : bytes) : Attrs :=
  match a with Some a => [a] | None => [] end ++
  (if mode_has mode KeepRaw then
     match a with Some (Raw _ _) => [] | _ => [Raw name body] end
   else []).

(** The loop of [attributes]. *)
Fixpoint attr_rows (n : nat) (loc : Z) : DM Attrs :=
  match n with
  | O => mret []
  | S n => d ← is_done;
      if d : bool then mret []
      else
        nameIdx ← u2;
        length ← u4;
        d ← is_done;
        if d : bool then mret []
        else
          name ← utf8 nameIdx;
          body ← rd (rBytes length);
          d ← is_done;
          if d : bool then mret []
          else
            a ← attribute name body loc;
            l ← attr_rows n loc;
            mret (kept a name body ++ l)
  end.
End Nested.

(** [depth] bounds how deep tables nest. *)
Fixpoint attributes (depth : nat) (loc : Z) : DM Attrs :=
  match depth with
  | O => throw DDeep
  | S depth => n ← u2; out ← attr_rows (attributes depth) (Z.to_nat n) loc; sticky out
  end.

(** Only a method's Code and a class's Record hold a table, and what is in
    those holds none. *)
Definition maxDepth : nat := 2.

(** ** Members and the class *)

Definition member (loc : Z) : DM Field :=
  flags ← u2; i ← u2; name ← utf8 i; j ← u2; descriptor ← utf8 j; attrs ← attributes maxDepth loc;
  mret (foldl hoist_field (mkField flags name descriptor attrs None [] false false) attrs).

Definition members (loc : Z) : DM (list Field) := n ← u2; out ← rows (Z.to_nat n) (member loc); sticky out.

Definition method : DM Method :=
  flags ← u2; i ← u2; name ← utf8 i; j ← u2; descriptor ← utf8 j; attrs ← attributes maxDepth locMethod;
  mret (foldl hoist_method (mkMethod flags name descriptor attrs None [] [] false false) attrs).

Definition methods : DM (list Method) := n ← u2; out ← rows (Z.to_nat n) method; sticky out.

(** [super_class]. *)
Definition superClass (name : bytes) (flags : Z) : DM bytes :=
  super ← u2;
  if negb (super =? 0) then class super
  else if negb (bool_decide (name = bs "java/lang/Object")) && negb (Has flags AccModule) then
    file ← decoder_name;
    throw (DError (Errorf "%s: super_class is 0 but this class is %s, not java/lang/Object" [AStr file; AStr (Binary name)]))
  else mret [].

(** The pool the decoder ends with. *)
Definition get_pool : DM Pool := fun d => (Ok (dpool d), d).

Definition trailing : DM unit := fun d =>
  (let n := len (rb (dr d)) in
   if negb (roff (dr d) =? n)
   then Err (DSyntax {| EFile := rfile (dr d); EOff := roff (dr d);
                        EMsg := Errorf "%d trailing bytes after the class file" [ANum (n - roff (dr d))] |})
   else Ok tt, d).

(** [read] after the constant pool. *)
Definition read_class : DM Class :=
  flags ← u2;
  i ← u2; name ← class i;
  super ← superClass name flags;
  n ← u2; interfaces ← rows (Z.to_nat n) (i ← u2; class i);
  fields ← members locField;
  ms ← methods;
  attrs ← attributes maxDepth locClass;
  _ ← sticky tt;
  _ ← trailing;
  pool ← get_pool;
  mret (hoistClass (mkClass version pool flags name super interfaces fields ms attrs [] [] [] false false)).
End Decoder.

(** [return nil, d.r.err] *)
Definition read_err {A} (r : reader) : result derror A :=
  Err (match rerr r with Some e => DSyntax e | None => DNil end).

Definition read (b file : bytes) (mode : Z) : result derror Class :=
  let '(magic, r) := rU4 (new_reader file b) in
  if negb (magic =? Magic) then
    read_err (if done r then r
              else fail_at 0 (Errorf "bad magic 0x%08x, want 0x%08x" [ANum magic; ANum Magic]) r)
  else
    let '(minor, r) := rU2 r in
    let '(major, r) := rU2 r in
    if done r then read_err r
    else
      let version := mkVersion major minor in
      match check version (mode_has mode AllowPreview) with
      | Some e => Err (DSyntax {| EFile := file; EOff := 4; EMsg := e |})
      | None =>
          let '(o, r) := readPool version r in
          if done r then read_err r
          else match o with
               | None => Err DPanic
               | Some pool => fst (read_class version mode (mkDecoder r pool))
               end
      end.

Definition Read (b : bytes) (mode : Z) : result derror Class := read b [] mode.
