(* ===== verification/DecoderSafe.v ===== *)
(** * Reading never goes wrong ([classfile/decoder.go], [classfile/classfile.go])

    [Safe m]: from a decoder whose cursor is within the input and whose pool is
    good, [m] ends with a value or an error of the code's own, moves the cursor
    forward within the input, and leaves the pool good and, its memo apart,
    unchanged.  Every decoding step is [Safe], for any bytes whatever. *)
From S2P Require Import Prelude.
From S2P Require Import Desc.
From S2P Require Import ClassIO.
From S2P Require Import Format.
From S2P Require Import Pool.
From S2P Require Import Attrs.
From S2P Require Import Decoder.

(** ** The contract *)

(** The outcome is a value or an error the code reports. *)
Definition reported {A} (o : result derror A) : Prop :=
  match o with
  | Err DPanic | Err DNil | Err DDeep => False
  | _ => True
  end.

Record dgood (d : decoder) : Prop := {
  dg_off : 0 <= roff (dr d) <= len (rb (dr d));
  dg_pool : good (dpool d) }.

(** [d'] is a later state of the decoder [d]. *)
Record later (d d' : decoder) : Prop := {
  lt_input : rb (dr d') = rb (dr d);
  lt_file : rfile (dr d') = rfile (dr d);
  lt_off : roff (dr d) <= roff (dr d') <= len (rb (dr d));
  lt_done : forall e, rerr (dr d) = Some e -> dr d' = dr d;
  lt_good : good (dpool d');
  lt_pool : forget (dpool d') = forget (dpool d) }.

Lemma later_refl d : dgood d -> later d d.
Proof. intros [[? ?] ?]. split; auto. lia. Qed.

Lemma later_trans d1 d2 d3 : later d1 d2 -> later d2 d3 -> later d1 d3.
Proof.
  intros [I1 F1 O1 D1 G1 P1] [I2 F2 O2 D2 G2 P2].
  split; try congruence; auto; [rewrite I1 in O2; lia|]. intros e He. pose proof (D1 e He) as E.
  rewrite <- E in He at 1. rewrite (D2 e He). exact E.
Qed.

Lemma later_dgood d d' : dgood d -> later d d' -> dgood d'.
Proof. intros [[? ?] ?] [I ? [? ?] ? ? ?]. split; auto. rewrite I. lia. Qed.

Class Safe {A} (m : DM A) : Prop := {
  safe_reported : forall d, dgood d -> reported (fst (m d));
  safe_later : forall d, dgood d -> later d (snd (m d)) }.

(** ** The steps *)

#[export] Instance Safe_ret {A} (a : A) : Safe (mret a).
Proof. split; intros d Hd; [exact I|]. apply later_refl, Hd. Qed.

#[export] Instance Safe_bind {A B} (m : DM A) (k : A -> DM B) : Safe m -> (forall a, Safe (k a)) -> Safe (m ≫= k).
Proof.
  intros Hm Hk. split; intros d Hd; unfold mbind, DM_bind; pose proof (safe_reported (m := m) d Hd) as Hr;
    pose proof (safe_later (m := m) d Hd) as Hl; destruct (m d) as [[a|e] d1]; cbn [fst snd] in *; auto.
  - apply safe_reported. eapply later_dgood; eauto.
  - eapply later_trans; [exact Hl|]. apply safe_later. eapply later_dgood; eauto.
Qed.

#[export] Instance Safe_if {A} (b : bool) (m n : DM A) : Safe m -> Safe n -> Safe (if b then m else n).
Proof. destruct b; auto. Qed.

#[export] Instance Safe_rd {A} (m : Rd A) : Frame m -> Safe (rd m).
Proof.
  intros Hm. split; intros [r p] [Ho Hp]; unfold rd; cbn in *;
    pose proof (frame_input (m := m) r) as Hi; pose proof (frame_file (m := m) r) as Hf;
    pose proof (frame_off (m := m) r (proj2 Ho)) as Hof; pose proof (frame_done (m := m) r) as Hdn;
    destruct (m r) as [a r']; cbn [fst snd] in *.
  - exact I.
  - split; auto.
Qed.

#[export] Instance Safe_lk {A} (m : PM A) : Lookup m -> Safe (lk m).
Proof.
  intros Hm. split; intros [r p] [Ho Hp]; unfold lk; cbn in *;
    pose proof (lookup_safe (m := m) p Hp); pose proof (lookup_good (m := m) p Hp);
    pose proof (lookup_keeps (m := m) p Hp); destruct (m p) as [[a|[|e]] p']; cbn in *; auto; try (split; cbn; auto; lia).
Qed.

#[export] Instance Safe_done : Safe is_done.
Proof. split; intros d Hd; [exact I|]. apply later_refl, Hd. Qed.

#[export] Instance Safe_name : Safe decoder_name.
Proof. split; intros d Hd; [exact I|]. apply later_refl, Hd. Qed.

#[export] Instance Safe_pool : Safe get_pool.
Proof. split; intros d Hd; [exact I|]. apply later_refl, Hd. Qed.

#[export] Instance Safe_sticky {A} (a : A) : Safe (sticky a).
Proof. split; intros d Hd; unfold sticky; cbn; [destruct (rerr (dr d)); exact I|]. apply later_refl, Hd. Qed.

#[export] Instance Safe_orErr {A} (a : A) : Safe (orErr a).
Proof.
  split; intros d Hd; unfold orErr; cbn; [destruct (rerr (dr d)); [exact I|bool_case; exact I]|].
  apply later_refl, Hd.
Qed.

#[export] Instance Safe_trailing : Safe trailing.
Proof. split; intros d Hd; unfold trailing; cbn; [bool_case; exact I|]. apply later_refl, Hd. Qed.

#[export] Instance Safe_error {A} e : Safe (throw (A := A) (DError e)).
Proof. split; intros d Hd; [exact I|]. apply later_refl, Hd. Qed.

#[export] Instance Safe_sub {A} body (m : DM A) : Safe m -> Safe (in_sub body m).
Proof.
  intros Hm. split; intros d [Ho Hp]; unfold in_sub;
    assert (Hs : dgood (mkDecoder (mkReader body 0 (rfile (dr d)) None) (dpool d)))
      by (split; cbn; auto; pose proof (len_nonneg body); lia);
    pose proof (safe_reported (m := m) _ Hs); pose proof (safe_later (m := m) _ Hs) as [? ? ? ? ? ?];
    destruct (m _) as [a d']; cbn in *; auto. split; cbn; auto; lia.
Qed.

#[export] Instance Safe_rows {A} n (row : DM A) : Safe row -> Safe (rows n row).
Proof. intros Hr. induction n as [|n IH]; cbn [rows]; apply _. Qed.

#[export] Instance Safe_whole {A} body (m : DM A) : Safe m -> Safe (whole body m).
Proof. intros Hm. unfold whole. apply _. Qed.

#[export] Instance Safe_optClass i : Safe (optClass i).
Proof. unfold optClass, class. apply _. Qed.
#[export] Instance Safe_optUTF8 i : Safe (optUTF8 i).
Proof. unfold optUTF8, utf8. apply _. Qed.

(** [safe_step] proves a composition of steps [Safe]. *)
Ltac safe_step :=
  cbv zeta; unfold utf8, class, u1, u2, u4; repeat first [apply _ | apply Safe_bind; [|intros ?] | apply Safe_if].

(** ** Attributes *)

Section Tables.
Context (version : Version) (mode : Z).

#[local] Instance Safe_classList : Safe classList.
Proof. unfold classList. safe_step. Qed.
#[local] Instance Safe_localVars : Safe localVars.
Proof. unfold localVars, localVar. safe_step. Qed.
#[local] Instance Safe_innerClass : Safe innerClass.
Proof. unfold innerClass. safe_step. Qed.
#[local] Instance Safe_bootstrap : Safe (bootstrapMethod version).
Proof. unfold bootstrapMethod. safe_step. Qed.
#[local] Instance Safe_parameter : Safe methodParameter.
Proof. unfold methodParameter. safe_step. Qed.
#[local] Instance Safe_line : Safe lineNumber.
Proof. unfold lineNumber. safe_step. Qed.
#[local] Instance Safe_handler : Safe handler.
Proof. unfold handler. safe_step. Qed.
#[local] Instance Safe_constantValue body : Safe (constantValue version body).
Proof. unfold constantValue. safe_step. Qed.

Lemma Safe_component (t : Z -> DM Attrs) : Safe (t locRecord) -> Safe (recordComponent t).
Proof. intros Ht. unfold recordComponent. safe_step. Qed.

Lemma Safe_code (t : Z -> DM Attrs) : Safe (t locCode) -> Safe (code t).
Proof. intros Ht. unfold code. safe_step. Qed.

(** A table of a Code or of a Record component allows neither attribute. *)
Definition nested_loc (loc : Z) : bool := (loc =? locCode) || (loc =? locRecord).

Lemma nested_refused name loc s at_ since :
  nested_loc loc = true -> where_ name = Some (s, (at_, since)) ->
  name = bs "Code" \/ name = bs "Record" -> Z.land at_ loc = 0.
Proof.
  unfold nested_loc. intros Hl H [-> | ->]; vm_compute in H; injection H as _ <- _;
    apply orb_prop in Hl as [Hl|Hl]; to_Z; subst; reflexivity.
Qed.

Lemma Safe_attribute (t : Z -> DM Attrs) name body loc :
  (nested_loc loc = false -> Safe (t locCode) /\ Safe (t locRecord)) ->
  Safe (attribute version mode t name body loc).
Proof.
  intros Ht. unfold attribute. cbv zeta. destruct (where_ name) as [[s [at_ since]]|] eqn:Ew; [|apply _].
  destruct (Z.land at_ loc =? 0) eqn:Ea; cbn [orb]; [apply _|]. to_Z.
  assert (Hn : name = bs "Code" \/ name = bs "Record" -> Safe (t locCode) /\ Safe (t locRecord)).
  { intros Hn. apply Ht. destruct (nested_loc loc) eqn:El; [|reflexivity].
    exfalso. apply Ea. eapply nested_refused; eauto. }
  clear Ht Ew Ea.
  repeat match goal with
  | |- Safe (if bool_decide (name = bs "Record") then _ else _) => case_bool_decide
  | |- Safe (if bool_decide (name = bs "Code") then _ else _) => case_bool_decide
  | |- Safe (if _ then _ else _) => apply Safe_if
  end; try solve [safe_step].
  - destruct Hn as [_ Hr]; auto. pose proof (Safe_component t Hr). safe_step.
  - destruct Hn as [Hc _]; auto. pose proof (Safe_code t Hc). safe_step.
Qed.

Lemma Safe_attr_rows (t : Z -> DM Attrs) n loc :
  (nested_loc loc = false -> Safe (t locCode) /\ Safe (t locRecord)) ->
  Safe (attr_rows version mode t n loc).
Proof.
  intros Ht. pose proof (fun name body => Safe_attribute t name body loc Ht).
  induction n as [|n IH]; cbn [attr_rows]; safe_step.
Qed.

(** Two levels of tables are enough. *)
Lemma Safe_attributes depth loc :
  (1 <= depth)%nat -> ((2 <= depth)%nat \/ nested_loc loc = true) -> Safe (attributes version mode depth loc).
Proof.
  revert loc. induction depth as [|depth IH]; intros loc H1 H2; [lia|]. cbn [attributes].
  assert (forall n, Safe (attr_rows version mode (attributes version mode depth) n loc)) as Hr.
  { intros n. apply Safe_attr_rows. intros Hl. destruct H2 as [H2|H2]; [|congruence].
    split; apply IH; try lia; right; reflexivity. }
  safe_step.
Qed.

#[local] Instance Safe_table loc : Safe (attributes version mode maxDepth loc).
Proof. apply Safe_attributes; [|left]; unfold maxDepth; lia. Qed.

#[local] Instance Safe_members loc : Safe (members version mode loc).
Proof. unfold members, member. safe_step. Qed.
#[local] Instance Safe_methods : Safe (methods version mode).
Proof. unfold methods, method. safe_step. Qed.
#[local] Instance Safe_super name flags : Safe (superClass name flags).
Proof. unfold superClass. safe_step. Qed.

Lemma Safe_read_class : Safe (read_class version mode).
Proof. unfold read_class. safe_step. Qed.
End Tables.

(** ** The whole file *)

(** What a class that was read is known to hold: a version the package accepts,
    and the pool of the file, every entry as the format lays it out. *)
Record class_ok (b : bytes) (mode : Z) (c : Class) : Prop := {
  co_version : check (KVersion c) (mode_has mode AllowPreview) = None;
  co_good : good (KPool c);
  co_pool : exists p, pool_read (KVersion c) b p /\ entries (KPool c) = entries p /\ src (KPool c) = b }.

Lemma hoist_class_keeps (c : Class) a :
  KVersion (hoist_class c a) = KVersion c /\ entries (KPool (hoist_class c a)) = entries (KPool c) /\
  src (KPool (hoist_class c a)) = src (KPool c) /\ (good (KPool c) -> good (KPool (hoist_class c a))).
Proof. destruct c, a; cbn; split_and!; auto. intros [? ? ? ?]. split; auto. Qed.

Lemma hoistClass_keeps (c : Class) :
  KVersion (hoistClass c) = KVersion c /\ entries (KPool (hoistClass c)) = entries (KPool c) /\
  src (KPool (hoistClass c)) = src (KPool c) /\ (good (KPool c) -> good (KPool (hoistClass c))).
Proof.
  unfold hoistClass. generalize (KAttrs c) as l. intros l. revert c. induction l as [|a l IH]; intros c; cbn; [auto|].
  destruct (hoist_class_keeps c a) as (E1 & E2 & E3 & E4). destruct (IH (hoist_class c a)) as (F1 & F2 & F3 & F4).
  split_and!; [congruence..|auto].
Qed.

(** [read_class] ends by giving the class the pool it has reached. *)
Lemma read_class_pool version mode d c :
  fst (read_class version mode d) = Ok c ->
  KVersion c = version /\ exists p,
    p = dpool (snd (read_class version mode d)) /\
    entries (KPool c) = entries p /\ src (KPool c) = src p /\ (good p -> good (KPool c)).
Proof.
  unfold read_class, mbind, DM_bind, mret, DM_ret.
  repeat match goal with
  | |- context [match ?m ?x with (_, _) => _ end] =>
      lazymatch m with get_pool => fail | _ => destruct (m x) as [[?|?] ?]; cbn [fst]; [|discriminate] end
  end.
  cbn [get_pool fst snd]. intros [= <-].
  match goal with |- context [hoistClass ?k] => destruct (hoistClass_keeps k) as (E1 & E2 & E3 & E4) end.
  rewrite E1, E2, E3. split; [reflexivity|]. eexists. split_and!; [reflexivity..|exact E4].
Qed.

Lemma read_safe (b file : bytes) (mode : Z) :
  bytes_ok b -> len b < 2 ^ 32 ->
  reported (read b file mode) /\ forall c, read b file mode = Ok c -> class_ok b mode c.
Proof.
  intros Hb Hl. unfold read.
  pose proof (frame_input (m := rU4) (new_reader file b)) as I1.
  pose proof (frame_off (m := rU4) (new_reader file b) (len_nonneg b)) as O1.
  destruct (rU4 (new_reader file b)) as [magic r1]; cbn [fst snd] in *. cbn in I1, O1.
  destruct (negb (magic =? Magic)).
  { split; [|intros c [=]]. unfold read_err, done. destruct (rerr r1) eqn:E1; [rewrite E1; exact I|].
    edestruct (fail_at_done 0) as [e ->]. exact I. }
  pose proof (frame_input (m := rU2) r1) as I2. pose proof (frame_off (m := rU2) r1 ltac:(rewrite I1; lia)) as O2.
  destruct (rU2 r1) as [minor r2]; cbn [fst snd] in *.
  pose proof (frame_input (m := rU2) r2) as I3. pose proof (frame_off (m := rU2) r2 ltac:(rewrite I2; lia)) as O3.
  destruct (rU2 r2) as [major r3]; cbn [fst snd] in *. unfold done.
  destruct (rerr r3) eqn:E3; [split; [unfold read_err; rewrite E3; exact I|intros c [=]]|].
  destruct (check _ _) as [e|] eqn:Ec; [split; [exact I|intros c [=]]|].
  assert (I4 : rb r3 = b) by congruence. assert (O4 : 0 <= roff r3 <= len (rb r3)) by (rewrite I3, I2, I1 in *; lia).
  destruct (readPool (mkVersion major minor) r3) as [o r4] eqn:Ep. unfold done.
  destruct (rerr r4) eqn:E4; [split; [unfold read_err; rewrite E4; exact I|intros c [=]]|].
  destruct (readPool_read _ _ _ _ Ep E4 ltac:(rewrite I4; exact Hb) ltac:(rewrite I4; exact Hl) O4)
    as (p & -> & Hp & _ & I5 & O5). rewrite I4 in *.
  assert (Hg : dgood (mkDecoder r4 p)) by (split; cbn; [rewrite I5; lia|apply Hp]).
  pose proof (Safe_read_class (mkVersion major minor) mode) as Hs.
  split; [apply (safe_reported _ Hg)|]. intros c Hc.
  destruct (read_class_pool _ _ _ _ Hc) as (Hv & q & -> & He & Hsrc & Hq).
  destruct (safe_later _ Hg) as [_ _ _ _ Hgood Hforget].
  cbn in Hforget. rewrite (pr_fresh _ _ _ Hp) in Hforget.
  split; [rewrite Hv; exact Ec|apply Hq, Hgood|]. exists p. rewrite Hv, He, Hsrc.
  pose proof (f_equal entries Hforget) as X1. pose proof (f_equal src Hforget) as X2. cbn in X1, X2.
  split_and!; [exact Hp|exact X1|]. rewrite X2. apply Hp.
Qed.

(** C4: reading any bytes at all, up to 4 GiB, in any mode, ends with a class or
    with an error the code reports: no index or slice is out of range, no nil
    pool is used, no nil class is returned without an error, and attribute
    tables never nest deeper than two.  A class it returns has a version the
    package accepts and the pool of the file, well laid out. *)
Theorem read_total (b file : bytes) (mode : Z) :
  bytes_ok b -> len b < 2 ^ 32 ->
  reported (read b file mode) /\ forall c, read b file mode = Ok c -> class_ok b mode c.
Proof. apply read_safe. Qed.

(** The smallest class: [public class A], its super class java/lang/Object. *)
Definition sample_class : bytes :=
  [0xCA; 0xFE; 0xBA; 0xBE; 0; 0; 0; 52; 0; 5; 1; 0; 1; 65; 7; 0; 1; 1; 0; 16] ++ bs "java/lang/Object" ++
  [7; 0; 3; 0; 33; 0; 2; 0; 4; 0; 0; 0; 0; 0; 0; 0; 0].

Lemma read_total_witness :
  reported (read sample_class [] DefaultMode) /\
  forall c, read sample_class [] DefaultMode = Ok c -> class_ok sample_class DefaultMode c.
Proof. apply (read_total sample_class [] DefaultMode); [apply bytes_ok_dec; reflexivity|vm_compute; reflexivity]. Defined.

Example sample_class_read :
  match read sample_class [] DefaultMode with
  | Ok c => (KName c, KSuper c, KFlags c) = (bs "A", bs "java/lang/Object", 33)
  | Err _ => False
  end.
Proof. vm_compute. reflexivity. Qed.

(** An error inside an attribute body is reported at its distance from the
    start of that body, not from the start of the file: wherever a Synthetic
    attribute with a body stands, the offset is 0. *)
Theorem body_offset_is_relative (version : Version) (mode : Z) (table : Z -> DM Attrs) (body : bytes) (d : decoder) :
  body <> [] -> 45 <= Major version ->
  fst (attribute version mode table (bs "Synthetic") body locClass d) =
  Err (DSyntax {| EFile := rfile (dr d); EOff := 0;
                  EMsg := Errorf "%d bytes left over after the attribute body" [ANum (len body)] |}).
Proof.
  intros Hb Hv. change (attribute version mode table (bs "Synthetic") body locClass d)
    with ((if negb (AtLeast version 45) then mret (Some (Raw (bs "Synthetic") body)) else whole body (mret (Some Synthetic))) d).
  unfold AtLeast. decide_tests. unfold whole, in_sub, mbind, DM_bind, mret, DM_ret, orErr. cbn [dr rerr rb roff rfile fst].
  rewrite Z.sub_0_r. destruct body as [|x l]; [contradiction|]. rewrite len_cons. pose proof (len_nonneg l). decide_tests.
  reflexivity.
Qed.

Lemma body_offset_is_relative_witness :
  fst (attribute (mkVersion 52 0) 0 (fun _ => mret []) (bs "Synthetic") [7] locClass
         (mkDecoder (mkReader (replicate 40 0) 30 (bs "A.class") None) sample_pool)) =
  Err (DSyntax {| EFile := bs "A.class"; EOff := 0;
                  EMsg := Errorf "%d bytes left over after the attribute body" [ANum 1] |}).
Proof.
  apply (body_offset_is_relative (mkVersion 52 0) 0 (fun _ => mret []) [7]
           (mkDecoder (mkReader (replicate 40 0) 30 (bs "A.class") None) sample_pool)); [discriminate|cbn; lia].
Defined.
