(* ===== verification/DecoderRaw.v ===== *)
(** * Byte-exact attribute tables ([classfile/decoder.go])

    Under [KeepRaw] the [Raw] attributes of a table are the attributes of the
    file, in order and byte for byte, the ones dropped by [SkipCode] and
    [SkipDebug] included. *)
From S2P Require Import Prelude.
From S2P Require Import ClassIO.
From S2P Require Import Format.
From S2P Require Import Pool.
From S2P Require Import Attrs.
From S2P Require Import Decoder.
From S2P Require Import DecoderSafe.

(** ** What a successful read consumed *)

Lemma slice_one (b : bytes) o : 0 <= o < len b -> slice b o (o + 1) = [byte_at b o].
Proof.
  intros H. unfold slice, byte_at. replace (Z.to_nat (o + 1 - o)) with 1%nat by lia.
  destruct (lookup_lt_is_Some_2 b (Z.to_nat o)) as [x Hx]; [unfold len in H; lia|].
  rewrite (drop_S _ _ _ Hx). cbn. rewrite (nth_lookup_default _ _ _ _ Hx). reflexivity.
Qed.

Lemma len_slice (b : bytes) lo hi : 0 <= lo <= hi -> hi <= len b -> len (slice b lo hi) = hi - lo.
Proof. intros H1 H2. unfold slice, len in *. rewrite length_take, length_drop. lia. Qed.

Lemma u2_consumed r v r' :
  rU2 r = (v, r') -> rerr r' = None -> bytes_ok (rb r) -> 0 <= roff r ->
  slice (rb r) (roff r) (roff r + 2) = be2 v /\ r' = with_off r (roff r + 2) /\ roff r + 2 <= len (rb r).
Proof.
  destruct r as [b o f e]. unfold rU2, short, done. cbn -[byte_at]. destruct e; cbn -[byte_at]; [intros [= <- <-]; discriminate|].
  bool_case; cbn -[byte_at]; [intros [= <- <-]; discriminate|]. intros [= <- <-] _ Hb Ho. to_Z. split_and!; auto.
  rewrite <- (slice_cut b o (o + 1)) by lia. replace (o + 2) with (o + 1 + 1) by lia.
  rewrite !slice_one by lia. pose proof (byte_at_range b o Hb). pose proof (byte_at_range b (o + 1) Hb).
  rewrite lor_bytes2 by lia. unfold be2. rewrite Z.shiftr_div_pow2 by lia. cbn [app].
  repeat (apply (f_equal2 cons); [word_lia|]). reflexivity.
Qed.

Lemma u4_consumed r v r' :
  rU4 r = (v, r') -> rerr r' = None -> bytes_ok (rb r) -> 0 <= roff r ->
  slice (rb r) (roff r) (roff r + 4) = be4 v /\ r' = with_off r (roff r + 4).
Proof.
  destruct r as [b o f e]. unfold rU4, short, done. cbn -[byte_at]. destruct e; cbn -[byte_at]; [intros [= <- <-]; discriminate|].
  bool_case; cbn -[byte_at]; [intros [= <- <-]; discriminate|]. intros [= <- <-] _ Hb Ho. to_Z. split_and!; auto.
  rewrite <- (slice_cut b o (o + 1)), <- (slice_cut b (o + 1) (o + 2)), <- (slice_cut b (o + 2) (o + 3)) by lia.
  replace (o + 4) with (o + 3 + 1) by lia. replace (slice b (o + 1) (o + 2)) with (slice b (o + 1) (o + 1 + 1)) by (f_equal; lia).
  replace (slice b (o + 2) (o + 3)) with (slice b (o + 2) (o + 2 + 1)) by (f_equal; lia). rewrite !slice_one by lia.
  pose proof (byte_at_range b o Hb). pose proof (byte_at_range b (o + 1) Hb).
  pose proof (byte_at_range b (o + 2) Hb). pose proof (byte_at_range b (o + 3) Hb).
  rewrite lor_bytes4 by lia. unfold be4. rewrite !Z.shiftr_div_pow2 by lia. change (2 ^ 24) with 16777216. cbn [app].
  repeat (apply (f_equal2 cons); [word_lia|]). reflexivity.
Qed.

(** ** What decoding an attribute cannot do *)

(** [Yields P m]: what [m] returns satisfies [P]. *)
Definition Yields {A} (P : A -> Prop) (m : DM A) : Prop := forall d a, fst (m d) = Ok a -> P a.

Lemma Yields_ret {A} (P : A -> Prop) a : P a -> Yields P (mret a).
Proof. intros H d x [= <-]. exact H. Qed.

Lemma Yields_bind {A B} (P : B -> Prop) (m : DM A) k : (forall a, Yields P (k a)) -> Yields P (m ≫= k).
Proof.
  intros Hk d b. unfold mbind, DM_bind. destruct (m d) as [[a|e] d1]; cbn; [apply Hk|discriminate].
Qed.

(** [Outside P m]: [m] does not move the cursor, and returns what satisfies [P]. *)
Definition Outside {A} (P : A -> Prop) (m : DM A) : Prop := (forall d, dr (snd (m d)) = dr d) /\ Yields P m.

Lemma Outside_ret {A} (P : A -> Prop) a : P a -> Outside P (mret a).
Proof. intros H. split; [reflexivity|]. apply Yields_ret, H. Qed.

Lemma Outside_if {A} (P : A -> Prop) (c : bool) (m n : DM A) : Outside P m -> Outside P n -> Outside P (if c then m else n).
Proof. destruct c; auto. Qed.

Lemma Outside_sub {A} (P : A -> Prop) body (m : DM A) : Yields P m -> Outside P (in_sub body m).
Proof.
  intros H. split; [intros d; unfold in_sub; destruct (m _); reflexivity|].
  intros d a. unfold in_sub. destruct (m _) as [o d'] eqn:E; cbn. intros ->. apply (H (mkDecoder (mkReader body 0 (rfile (dr d)) None) (dpool d))).
  rewrite E. reflexivity.
Qed.

Lemma Outside_whole {A} (P : A -> Prop) body (m : DM A) : Yields P m -> Outside P (whole body m).
Proof.
  intros H. apply Outside_sub. intros d a. unfold mbind, DM_bind. pose proof (H d) as Ha.
  destruct (m d) as [[x|e] d1]; cbn; [|discriminate]. unfold orErr. cbn.
  destruct (rerr (dr d1)); [discriminate|]. bool_case; [discriminate|]. intros [= <-]. auto.
Qed.

Lemma Outside_fmap {A B} (P : A -> Prop) (Q : B -> Prop) (m : DM A) f :
  Outside P m -> (forall a, P a -> Q (f a)) -> Outside Q (v ← m; mret (f v)).
Proof.
  intros [Hm Hp] Hf. split; intros d; unfold mbind, DM_bind; pose proof (Hm d); pose proof (Hp d);
    destruct (m d) as [[a|e] d1]; cbn in *; auto; [intros b [= <-]; auto|discriminate].
Qed.

Lemma Outside_constantValue version body : Outside (fun a => isRaw a = None) (constantValue version body).
Proof.
  apply Outside_sub. do 2 (apply Yields_bind; intros ?). intros d a'. bool_case.
  - unfold orErr. cbn. destruct (rerr (dr d)); [discriminate|]. bool_case; [discriminate|]. intros [= <-]. reflexivity.
  - unfold mbind, DM_bind. discriminate.
Qed.

(** The only [Raw] that [attribute] returns is the attribute itself. *)
Definition raw_is (name body : bytes) (o : option Attr) : Prop :=
  forall n b, o = Some (Raw n b) -> n = name /\ b = body.

Lemma attribute_outside version mode t name body loc :
  Outside (raw_is name body) (attribute version mode t name body loc).
Proof.
  assert (H0 : Outside (raw_is name body) (mret (Some (Raw name body)))).
  { apply Outside_ret. intros n b [= <- <-]. auto. }
  assert (Hr : forall a, isRaw a = None -> raw_is name body (Some a)) by (intros a Ha n b [= ->]; discriminate).
  assert (Hn : raw_is name body None) by (intros n b [=]).
  unfold attribute. cbv zeta. destruct (where_ name) as [[s [at_ since]]|]; [|exact H0].
  repeat match goal with |- Outside _ (if _ then _ else _) => apply Outside_if end;
    first [exact H0 | apply Outside_ret; first [exact Hn | apply Hr; reflexivity]
          | apply Outside_whole; repeat (apply Yields_bind; intros ?); apply Yields_ret, Hr; try bool_case; reflexivity
          | eapply Outside_fmap; [apply Outside_constantValue|exact Hr]
          | apply Outside_sub; repeat (apply Yields_bind; intros ?); apply Yields_ret, Hr; reflexivity].
Qed.

(** ** The loop *)

(** An attribute as the file has it. *)
Definition attr_bytes (idx : Z) (raw : bytes * bytes) : bytes := be2 idx ++ be4 (len (snd raw)) ++ snd raw.

(** The table of the attributes [raws] whose names have the indices [idxs]. *)
Definition table_bytes (idxs : list Z) (raws : list (bytes * bytes)) : bytes :=
  be2 (len raws) ++ concat (zip_with attr_bytes idxs raws).

(** The index names the attribute. *)
Definition named_by (p : Pool) (idx : Z) (raw : bytes * bytes) : Prop := fst (UTF8 idx p) = Ok (fst raw).

Lemma Raws_app l k : Raws (l ++ k) = Raws l ++ Raws k.
Proof. induction l as [|a l IH]; cbn; auto. destruct (isRaw a); rewrite IH; reflexivity. Qed.

Lemma Raws_kept mode a name body :
  mode_has mode KeepRaw = true -> raw_is name body a -> Raws (kept mode a name body) = [(name, body)].
Proof.
  intros Hk Ha. unfold kept. rewrite Hk. destruct a as [a|]; [|reflexivity].
  destruct a as [n b| | | | | | | | | | | | | | | | | | |]; try reflexivity. destruct (Ha n b eq_refl) as [-> ->]. reflexivity.
Qed.

Section Exact.
Context (version : Version) (mode : Z) (keeps : mode_has mode KeepRaw = true).
Context (t : Z -> DM Attrs) (loc : Z).
Context (nested_safe : nested_loc loc = false -> Safe (t locCode) /\ Safe (t locRecord)).

#[local] Instance Safe_rows_raw n : Safe (attr_rows version mode t n loc).
Proof. apply Safe_attr_rows, nested_safe. Qed.

Lemma done_spec d : is_done d = (Ok (done (dr d)), d).
Proof. reflexivity. Qed.

Lemma done_false r : done r = false -> rerr r = None.
Proof. unfold done. destruct (rerr r); [discriminate|reflexivity]. Qed.

Lemma done_true r : rerr r = None -> done r = true -> False.
Proof. unfold done. intros ->. discriminate. Qed.

Lemma rd_inv {A} (m : Rd A) d a d' : rd m d = (Ok a, d') -> m (dr d) = (a, dr d') /\ dpool d' = dpool d.
Proof. unfold rd. destruct (m (dr d)) as [x r]. intros [= <- <-]. auto. Qed.

Lemma utf8_inv i d a d' :
  dgood d -> utf8 i d = (Ok a, d') -> dr d' = dr d /\ fst (UTF8 i (forget (dpool d))) = Ok a.
Proof.
  intros [_ Hg]. unfold utf8, lk. rewrite <- (lookup_same (m := UTF8 i)) by exact Hg.
  destruct (UTF8 i (dpool d)) as [[x|[|e]] p]; intros [= <- <-]. auto.
Qed.

(** One round of the loop of [attributes] under [KeepRaw]. *)
Lemma round_raw n d as_ d' :
  attr_rows version mode t (S n) loc d = (Ok as_, d') -> rerr (dr d') = None ->
  dgood d -> bytes_ok (rb (dr d)) ->
  exists idx name body rest d1,
    slice (rb (dr d)) (roff (dr d)) (roff (dr d1)) = attr_bytes idx (name, body) /\
    named_by (forget (dpool d)) idx (name, body) /\
    later d d1 /\ attr_rows version mode t n loc d1 = (Ok rest, d') /\ Raws as_ = (name, body) :: Raws rest.
Proof.
  intros H He Hd Hb. cbn [attr_rows] in H. unfold mbind, DM_bind in H.
  rewrite done_spec in H. destruct (done (dr d)) eqn:E0; [injection H as <- <-; destruct (done_true _ He E0)|].
  pose proof (safe_later (m := u2) d Hd) as L1. destruct (u2 d) as [[idx|e] d1] eqn:E1; [|discriminate].
  cbn [snd] in L1. pose proof (later_dgood _ _ Hd L1) as G1.
  pose proof (safe_later (m := u4) d1 G1) as L2. destruct (u4 d1) as [[ln|e] d2] eqn:E2; [|discriminate].
  cbn [snd] in L2. pose proof (later_dgood _ _ G1 L2) as G2.
  rewrite done_spec in H. destruct (done (dr d2)) eqn:E3; [injection H as <- <-; destruct (done_true _ He E3)|].
  pose proof (safe_later (m := utf8 idx) d2 G2) as L3. destruct (utf8 idx d2) as [[name|e] d3] eqn:E4; [|discriminate].
  cbn [snd] in L3. pose proof (later_dgood _ _ G2 L3) as G3.
  pose proof (safe_later (m := rd (rBytes ln)) d3 G3) as L4.
  destruct (rd (rBytes ln) d3) as [[body|e] d4] eqn:E5; [|discriminate].
  cbn [snd] in L4. pose proof (later_dgood _ _ G3 L4) as G4.
  rewrite done_spec in H. destruct (done (dr d4)) eqn:E6; [injection H as <- <-; destruct (done_true _ He E6)|].
  destruct (attribute_outside version mode t name body loc) as [Ho Hy].
  pose proof (Safe_attribute version mode t name body loc nested_safe) as Sa.
  pose proof (safe_later d4 G4) as L5. pose proof (Ho d4) as R5. pose proof (Hy d4) as Y5.
  destruct (attribute version mode t name body loc d4) as [[a|e] d5] eqn:E7; [|discriminate]. cbn [fst snd] in *.
  destruct (attr_rows version mode t n loc d5) as [[rest|e] d6] eqn:E8; [|discriminate]. injection H as <- <-.
  assert (L : later d d5) by eauto using later_trans.
  exists idx, name, body, rest, d5. split; [|split; [|split; [exact L|split; [exact E8|]]]].
  - apply rd_inv in E1 as [E1 P1]. apply rd_inv in E2 as [E2 P2]. destruct (utf8_inv _ _ _ _ G2 E4) as [R3 _].
    apply rd_inv in E5 as [E5 _]. apply done_false in E3, E6. rewrite R5. rewrite R3 in E5.
    assert (Hr4 : rerr (snd (rBytes ln (dr d2))) = None) by (rewrite E5; exact E6).
    apply rBytes_ok in Hr4 as (_ & Hln & Hle & Eb). rewrite Eb in E5. injection E5 as Ebody Er4.
    assert (Hr1 : rerr (dr d1) = None) by (apply (frame_ok rU4); rewrite E2; exact E3).
    pose proof (proj1 (dg_off _ Hd)) as Ho0. pose proof (proj1 (dg_off _ G1)) as Ho1.
    destruct (u2_consumed _ _ _ E1 Hr1 Hb Ho0) as (S1 & F1 & _). rewrite F1 in E2.
    destruct (u4_consumed _ _ _ E2 E3 Hb ltac:(cbn; lia)) as (S2 & F2).
    cbn [rb roff with_off] in S2. rewrite F2 in Ebody, Er4, Hle. cbn [rb roff with_off] in *.
    rewrite <- Er4. cbn [roff with_off]. unfold attr_bytes. cbn [snd]. rewrite <- S1.
    assert (Hlb : len body = ln) by (rewrite <- Ebody, len_slice; lia).
    rewrite Hlb, <- S2, <- Ebody, !slice_cut by lia. reflexivity.
  - unfold named_by. cbn [fst]. destruct (utf8_inv _ _ _ _ G2 E4) as [_ Hn].
    rewrite (lt_pool _ _ L2), (lt_pool _ _ L1) in Hn. exact Hn.
  - rewrite Raws_app, Raws_kept by auto. reflexivity.
Qed.

Lemma rows_raw n d as_ d' :
  attr_rows version mode t n loc d = (Ok as_, d') -> rerr (dr d') = None ->
  dgood d -> bytes_ok (rb (dr d)) ->
  exists idxs, length idxs = n /\ length (Raws as_) = n /\
    slice (rb (dr d)) (roff (dr d)) (roff (dr d')) = concat (zip_with attr_bytes idxs (Raws as_)) /\
    Forall2 (named_by (forget (dpool d))) idxs (Raws as_).
Proof.
  revert d as_. induction n as [|n IH]; intros d as_ H He Hd Hb.
  - injection H as <- <-. exists []. split_and!; auto. unfold slice. rewrite Z.sub_diag. reflexivity.
  - destruct (round_raw _ _ _ _ H He Hd Hb) as (idx & name & body & rest & d1 & Hs & Hn & L & Hr & E).
    pose proof (later_dgood _ _ Hd L) as G1.
    destruct (IH d1 rest Hr He G1) as (idxs & I1 & I2 & I3 & I4); [rewrite (lt_input _ _ L); exact Hb|].
    exists (idx :: idxs). rewrite E. cbn [length zip_with concat]. rewrite I1, I2.
    rewrite (lt_input _ _ L) in I3. rewrite (lt_pool _ _ L) in I4.
    pose proof (safe_later (m := attr_rows version mode t n loc) d1 G1) as Ln. rewrite Hr in Ln. cbn [snd] in Ln.
    split_and!; auto. rewrite <- I3, <- Hs, slice_cut; auto.
    + destruct (dg_off _ Hd), (lt_off _ _ L). lia.
    + apply (lt_off _ _ Ln).
Qed.
End Exact.

(** ** Byte exactness *)

(** C5: when a table is read under [KeepRaw], at any location and in any of the
    modes, writing the [Raw] attributes back in order gives the very bytes that
    were read, each name written as an index of the pool that resolves to it:
    nothing of the table is lost, changed, doubled or reordered, whatever else
    the mode skips. *)
Theorem keep_raw_exact (version : Version) (mode loc : Z) (d d' : decoder) (as_ : Attrs) :
  mode_has mode KeepRaw = true -> dgood d -> bytes_ok (rb (dr d)) ->
  attributes version mode maxDepth loc d = (Ok as_, d') ->
  exists idxs, slice (rb (dr d)) (roff (dr d)) (roff (dr d')) = table_bytes idxs (Raws as_) /\
    Forall2 (named_by (forget (dpool d))) idxs (Raws as_).
Proof.
  intros Hk Hd Hb H.
  change (attributes version mode maxDepth loc)
    with (n ← u2; out ← attr_rows version mode (attributes version mode 1) (Z.to_nat n) loc; sticky out) in H.
  unfold mbind, DM_bind in H.
  pose proof (safe_later (m := u2) d Hd) as L1. destruct (u2 d) as [[n|e] d1] eqn:E1; [|discriminate].
  cbn [snd] in L1. pose proof (later_dgood _ _ Hd L1) as G1.
  destruct (attr_rows version mode (attributes version mode 1) (Z.to_nat n) loc d1) as [[rows|e] d2] eqn:E2; [|discriminate].
  unfold sticky in H. destruct (rerr (dr d2)) eqn:E3; [discriminate|]. injection H as <- <-.
  assert (Sn : nested_loc loc = false ->
    Safe (attributes version mode 1 locCode) /\ Safe (attributes version mode 1 locRecord))
    by (intros _; split; apply Safe_attributes; auto).
  destruct (rows_raw version mode Hk _ loc Sn _ _ _ _ E2 E3 G1) as (idxs & I1 & I2 & I3 & I4).
  { rewrite (lt_input _ _ L1). exact Hb. }
  rewrite (lt_pool _ _ L1) in I4. rewrite (lt_input _ _ L1) in I3.
  exists idxs. split; [|exact I4]. apply rd_inv in E1 as [E1 _].
  pose proof (Safe_attr_rows version mode (attributes version mode 1) (Z.to_nat n) loc Sn) as Sr.
  pose proof (safe_later d1 G1) as L2. rewrite E2 in L2. cbn [snd] in L2.
  assert (Hr1 : rerr (dr d1) = None).
  { destruct (rerr (dr d1)) eqn:E; [|reflexivity]. rewrite (lt_done _ _ L2 _ E) in E3. congruence. }
  destruct (u2_consumed _ _ _ E1 Hr1 Hb (proj1 (dg_off _ Hd))) as (S1 & F1 & _).
  pose proof (rU2_range (dr d) Hb) as Hn. rewrite E1 in Hn. cbn [fst] in Hn.
  unfold table_bytes. replace (len (Raws rows)) with n by (unfold len; lia).
  rewrite <- S1, <- I3, F1. cbn [roff with_off]. pose proof (proj1 (lt_off _ _ L2)) as L2o. rewrite F1 in L2o.
  pose proof (proj1 (dg_off _ Hd)). cbn [roff with_off] in L2o. symmetry. apply slice_cut; lia.
Qed.

(** A table of one Synthetic attribute, its name at index 1. *)
Definition synthetic_pool : Pool :=
  mkPool [zeroEntry; mkEntry 1 0 9] (bs "Synthetic") [[]; []] [false; false] [] [].

Lemma keep_raw_exact_witness :
  exists idxs, slice [0; 1; 0; 1; 0; 0; 0; 0] 0 8 = table_bytes idxs [(bs "Synthetic", [])] /\
    Forall2 (named_by (forget synthetic_pool)) idxs [(bs "Synthetic", [])].
Proof.
  apply (keep_raw_exact (mkVersion 52 0) KeepRaw locField
           (mkDecoder (new_reader [] [0; 1; 0; 1; 0; 0; 0; 0]) synthetic_pool)
           (mkDecoder (with_off (new_reader [] [0; 1; 0; 1; 0; 0; 0; 0]) 8) (memoise 1 (bs "Synthetic") synthetic_pool))
           [Synthetic; Raw (bs "Synthetic") []]).
  - reflexivity.
  - split; [split; vm_compute; discriminate|]. split; cbn; auto.
    + repeat apply Forall_cons_2; try apply Forall_nil_2; intros H; first [discriminate H | vm_compute; intuition discriminate].
    + intros [|[|i]] H; discriminate.
  - apply bytes_ok_dec. reflexivity.
  - vm_compute. reflexivity.
Defined.
