(* ===== verification/PoolLater.v ===== *)
(** * The pool while a class is built

    [Later p p'] orders the states of a constant pool builder in time: what is
    interned stays interned, the table only grows at its end, an error stays.
    Every call of the code writer, a whole pass and [Code] itself move the pool
    forward in this order. *)
From S2P Require Import Prelude.
From S2P Require Import Desc.
From S2P Require Import Op.
From S2P Require Import Format.
From S2P Require Import ClassIO.
From S2P Require Import PoolBuilder.
From S2P Require Import CodeWriter.
From S2P Require Import CodeProof.
From S2P Require Import Builder.
From S2P Require Import CodeCorrect.
From S2P Require Import CodeFrame.
From S2P Require Import MethodProof.
From S2P Require Import MethodStack.

(** The version a builder starts with; no constant the builder interns needs a
    later one. *)
Definition base : Version := mkVersion Java5 0.

Record Later (p p' : PoolBuilder) : Prop := {
  lt_err : perr p' = None -> perr p = None;
  lt_keys : forall k i, lookup_key k p = Some i -> lookup_key k p' = Some i;
  lt_built : forall l, built base p l -> perr p' = None -> exists l', built base p' (l ++ l') }.

#[export] Instance Later_po : PreOrder Later.
Proof.
  split.
  - intros p. split; auto. intros l H _. exists []. rewrite app_nil_r. exact H.
  - intros p1 p2 p3 [E1 K1 B1] [E2 K2 B2]. split; auto. intros l H E. destruct (B1 l H (E2 E)) as (l1 & H1).
    destruct (B2 _ H1 E) as (l2 & H2). exists (l1 ++ l2). rewrite app_assoc. exact H2.
Qed.

(** Index [i] was answered for [o], unless the pool is in error. *)
Definition interned (p : PoolBuilder) (o : iop) (i : Z) : Prop := perr p = None -> lookup_key (key_of o) p = Some i.

Lemma interned_later p p' o i : Later p p' -> interned p o i -> interned p' o i.
Proof. intros [E K _] H He. auto. Qed.

(** An operation of the pool with well-formed arguments. *)
Definition plain_iop (o : iop) : Prop := match o with IMethodType _ => False | _ => iop_ok base o end.

(** The constants a field may be given. *)
Definition field_iop (o : iop) : bool :=
  match o with IInt _ | ILong _ | IFloat _ | IDouble _ | IString _ => true | _ => false end.

Lemma plain_ok o : plain_iop o -> iop_ok base o.
Proof. destruct o; cbn; auto. contradiction. Qed.

Lemma Later_intern o p i p' : plain_iop o -> intern o p = (i, p') -> Later p p' /\ interned p' o i.
Proof.
  intros Ho E. pose proof (grows_ok 3 (intern o) p) as H1. pose proof (grows_keys (m := intern o) (n := 3) p) as H2.
  pose proof (intern_records o p) as H3. pose proof (fun l => Adds_intern base (fun _ => True) o (mono_true) (plain_ok o Ho) p l) as H4.
  rewrite E in *. cbn [fst snd] in *. split; [split; auto|exact H3].
  intros l Hb He. destruct (H4 l Hb I He) as (l' & ? & _). eauto.
Qed.

(** ** The code writer's pool *)

(** What each call interns. *)
Definition iops_of (x : cmd) : list iop :=
  match x with
  | CIconst v => [IInt v]
  | CLconst v => [ILong v]
  | CFconst bits => [IFloat bits]
  | CDconst bits => [IDouble bits]
  | CSconst s => [IString s]
  | CCconst s | CNew s | CANewArray s | CCheckCast s | CInstanceOf s | CMultiANewArray s _ => [IClass s]
  | CField _ o n d => [IFieldRef o n d]
  | CInvoke CInterface o n d => [IInterfaceMethodRef o n d]
  | CInvoke _ o n d => [IMethodRef o n d]
  | _ => []
  end.

Definition moves (os : list iop) (c c' : CodeWriter) : Prop := cp c' = cp c \/ exists o, o ∈ os /\ cp c' = snd (intern o (cp c)).

Create Rewrite HintDb pool.
Ltac cp_prim := repeat bool_case; cbv zeta; autorewrite with pool; reflexivity.
Lemma cp_fail f a c : cp (fail f a c) = cp c.
Proof. unfold fail. destruct (err c); reflexivity. Qed.
#[export] Hint Rewrite cp_fail : pool.
Lemma cp_emitOp o c : cp (emitOp o c) = cp c.
Proof. unfold emitOp. cp_prim. Qed.
Lemma cp_push n c : cp (push n c) = cp c.
Proof. unfold push. cbv zeta. repeat bool_case; autorewrite with pool; reflexivity. Qed.
Lemma cp_set_depth n c : cp (set_depth n c) = cp c.
Proof. reflexivity. Qed.
#[export] Hint Rewrite cp_emitOp cp_push cp_set_depth : pool.
Lemma cp_pop n c : cp (pop n c) = cp c.
Proof. unfold pop. cbv zeta. repeat bool_case; autorewrite with pool; reflexivity. Qed.
Lemma cp_u1 v c : cp (u1 v c) = cp c.
Proof. reflexivity. Qed.
Lemma cp_u2 v c : cp (u2 v c) = cp c.
Proof. reflexivity. Qed.
Lemma cp_u4 v c : cp (u4 v c) = cp c.
Proof. reflexivity. Qed.
Lemma cp_set_label l x c : cp (set_label l x c) = cp c.
Proof. reflexivity. Qed.
Lemma cp_set_reachable x c : cp (set_reachable x c) = cp c.
Proof. reflexivity. Qed.
Lemma cp_terminate c : cp (terminate c) = cp c.
Proof. reflexivity. Qed.
Lemma cp_set_w x c : cp (set_w x c) = cp c.
Proof. reflexivity. Qed.
Lemma cp_set_branches x c : cp (set_branches x c) = cp c.
Proof. reflexivity. Qed.
Lemma cp_set_switches x c : cp (set_switches x c) = cp c.
Proof. reflexivity. Qed.
Lemma cp_set_handlers x c : cp (set_handlers x c) = cp c.
Proof. reflexivity. Qed.
Lemma cp_set_maxStack x c : cp (set_maxStack x c) = cp c.
Proof. reflexivity. Qed.
Lemma cp_set_widen x c : cp (set_widen x c) = cp c.
Proof. reflexivity. Qed.
#[export] Hint Rewrite cp_pop cp_u1 cp_u2 cp_u4 cp_set_label cp_set_reachable cp_terminate cp_set_w cp_set_branches cp_set_switches
  cp_set_handlers cp_set_maxStack cp_set_widen : pool.
Lemma cp_useLocal s n c : cp (useLocal s n c) = cp c.
Proof. unfold useLocal. cbv zeta. repeat bool_case; autorewrite with pool; reflexivity. Qed.
#[export] Hint Rewrite cp_useLocal : pool.
Lemma cp_localOp g k s n c : cp (localOp g k s n c) = cp c.
Proof. unfold localOp. cbv zeta. destruct (err _); repeat bool_case; autorewrite with pool; reflexivity. Qed.
Lemma cp_Op o c : cp (Op_ o c) = cp c.
Proof. unfold Op_. cbv zeta. repeat bool_case; autorewrite with pool; reflexivity. Qed.
Lemma cp_u2_of m c : cp (u2_of m c) = snd (m (cp c)).
Proof. unfold u2_of, intern_. destruct (m (cp c)). reflexivity. Qed.
Lemma cp_ldc i b c : cp (ldc i b c) = cp c.
Proof. unfold ldc. cp_prim. Qed.
#[export] Hint Rewrite cp_localOp cp_Op cp_u2_of cp_ldc : pool.
Lemma cp_ldc_of m b c : cp (ldc_of m b c) = snd (m (cp c)).
Proof. unfold ldc_of, intern_. destruct (m (cp c)). apply cp_ldc. Qed.
#[export] Hint Rewrite cp_ldc_of : pool.

Lemma cp_noteDepth l c c' : noteDepth l c = Some c' -> cp c' = cp c.
Proof. unfold noteDepth. destruct (labels c !! l); [|discriminate]. cbn. intros [= <-]. repeat bool_case; autorewrite with pool; reflexivity. Qed.
Lemma cp_noteDepths ts c c' : noteDepths ts c = Some c' -> cp c' = cp c.
Proof.
  revert c. induction ts as [|t ts IH]; intros c E; cbn in E; [congruence|]. destruct (noteDepth t c) eqn:E1; [|discriminate].
  rewrite (IH _ E). eapply cp_noteDepth; eauto.
Qed.
Lemma cp_branch o l n c c' : branch_ o l n c = Some c' -> cp c' = cp c.
Proof.
  unfold branch_. cbv zeta. intros E. destruct (noteDepth l (pop n c)) as [c1|] eqn:E1; [|discriminate]. cbn in E. injection E as <-.
  apply cp_noteDepth in E1. autorewrite with pool in *. repeat bool_case; autorewrite with pool; exact E1.
Qed.

Ltac pool_stays := left; repeat case_match; cbv zeta; autorewrite with pool; reflexivity.
Ltac pool_moves := repeat case_match; cbv zeta; first
  [ left; autorewrite with pool; reflexivity
  | right; eexists; split; [left; reflexivity|]; autorewrite with pool; cbn [intern]; reflexivity
  | right; eexists; split; [left|]; autorewrite with pool; reflexivity ].

Lemma cp_run_cmd x c c' : run_cmd x c = Some c' -> moves (iops_of x) c c'.
Proof.
  intros E. unfold moves. destruct x; cbn [run_cmd iops_of] in *; try (injection E as <-).
  - pool_stays.
  - unfold Mark in E. destruct (labels c !! l); [|discriminate]. cbn [mbind option_bind] in E. injection E as <-. cbv zeta. pool_stays.
  - destruct t; cbn [run_load]; unfold Aload_, Iload_, Fload_, Lload_, Dload_, load; pool_stays.
  - destruct t; cbn [run_store]; unfold Astore_, Istore_, Fstore_, Lstore_, Dstore_, store; pool_stays.
  - unfold Iinc_. cbv zeta. pool_stays.
  - unfold Local_. destruct (ParseField descriptor); [bool_case|]; pool_stays.
  - unfold Iconst. pool_moves.
  - unfold Lconst. pool_moves.
  - unfold Fconst. pool_moves.
  - unfold Dconst. pool_moves.
  - unfold Sconst. pool_moves.
  - unfold Cconst. pool_moves.
  - unfold AconstNull_. pool_stays.
  - destruct a; cbn [run_field]; unfold GetStatic, PutStatic, GetField, PutField, field; cbv zeta; pool_moves.
  - destruct k; cbn [run_invoke]; unfold InvokeVirtual, InvokeSpecial, InvokeStatic, InvokeInterface, invoke; cbv zeta;
      [change (Invokevirtual =? Invokeinterface) with false|change (Invokespecial =? Invokeinterface) with false
      |change (Invokestatic =? Invokeinterface) with false|change (Invokeinterface =? Invokeinterface) with true]; pool_moves.
  - unfold New_. pool_moves.
  - unfold ANewArray. pool_moves.
  - unfold NewArray. pool_stays.
  - unfold MultiANewArray. pool_moves.
  - unfold CheckCast. pool_moves.
  - unfold InstanceOf. pool_moves.
  - unfold Throw. pool_stays.
  - pool_stays.
  - unfold Return_. pool_stays.
  - unfold Goto_ in E. destruct (branch_ _ _ _ _) eqn:E1; [|discriminate]. cbn in E. injection E as <-. left. rewrite cp_terminate. eapply cp_branch; eauto.
  - destruct (run_if_branch k l c) as (o & pops & Er & _). rewrite Er in E. left. eapply cp_branch; eauto.
  - unfold TableSwitch in E. destruct (high <? low); [injection E as <-; pool_stays|].
    destruct (negb _); [injection E as <-; pool_stays|]. cbv zeta in E.
    destruct (noteDepth _ _) as [c1|] eqn:E1; [|discriminate]. cbn [mbind option_bind] in E.
    destruct (noteDepths targets c1) as [c2|] eqn:E2; [|discriminate]. cbn [mbind option_bind] in E. injection E as <-.
    apply cp_noteDepth in E1. apply cp_noteDepths in E2. unfold table_body. cbv zeta. left. autorewrite with pool in *. congruence.
  - unfold LookupSwitch in E. destruct (negb _); [injection E as <-; pool_stays|]. cbv zeta in E.
    destruct (duplicate _); [injection E as <-; pool_stays|].
    destruct (noteDepth _ _) as [c1|] eqn:E1; [|discriminate]. cbn [mbind option_bind] in E.
    destruct (noteDepths _ c1) as [c2|] eqn:E2; [|discriminate]. cbn [mbind option_bind] in E. injection E as <-.
    apply cp_noteDepth in E1. apply cp_noteDepths in E2. unfold lookup_body. cbv zeta. left. autorewrite with pool in *. congruence.
  - unfold TryCatch in E. cbn [labels set_handlers] in E. destruct (labels c !! handler); [|discriminate]. cbn [mbind option_bind] in E.
    injection E as <-. pool_stays.
  - pool_stays.
Qed.

(** The arguments Go's types allow: bytes in strings, bit patterns of floats. *)
Definition args_ok (x : cmd) : Prop :=
  Forall plain_iop (iops_of x) /\
  match x with
  | CLocal _ n d _ _ => bytes_ok n /\ bytes_ok d
  | CTryCatch _ _ _ t => bytes_ok t
  | _ => True
  end.

Lemma Later_run_cmd x c c' : args_ok x -> run_cmd x c = Some c' -> Later (cp c) (cp c').
Proof.
  intros [Ha _] E. destruct (cp_run_cmd _ _ _ E) as [->|(o & Ho & ->)]; [reflexivity|].
  rewrite Forall_forall in Ha. destruct (intern o (cp c)) as [i p'] eqn:Ei. apply (Later_intern o _ i); auto.
Qed.

Lemma Later_run body c c' : Forall args_ok body -> run body c = Some c' -> Later (cp c) (cp c').
Proof.
  revert c. induction body as [|x body IH]; intros c Ha E; cbn in E; [injection E as <-; reflexivity|].
  apply Forall_cons in Ha as [Hx Hb]. destruct (run_cmd x c) as [c1|] eqn:E1; [|discriminate]. cbn in E.
  etransitivity; [eapply Later_run_cmd|]; eauto.
Qed.

(** ** Resolving and replaying *)

Lemma cp_resolve_branches brs a c r c' : resolve_branches brs a c = Some (r, c') -> cp c' = cp c.
Proof.
  revert a c. induction brs as [|br brs IH]; intros a c; cbn [resolve_branches]; [intros [= <- <-]; reflexivity|].
  destruct (resolve_branch br a c) as [[r1 c1]|] eqn:E; [|discriminate]. cbn [mbind option_bind].
  assert (cp c1 = cp c).
  { unfold resolve_branch in E. destruct (labels c !! label br); [|discriminate]. cbn [mbind option_bind] in E.
    revert E. cbv zeta. repeat bool_case; try (intros [= <- <-]; apply cp_fail || reflexivity);
      (match goal with
       | |- context [patchU4 ?a ?b ?d] => destruct (patchU4 a b d); [|discriminate]
       | |- context [patchU2 ?a ?b ?d] => destruct (patchU2 a b d); [|discriminate]
       end); cbn [mbind option_bind]; intros [= <- <-]; reflexivity. }
  destruct r1; [intros [= <- <-]; auto|]. intros E2. rewrite (IH _ _ E2). auto.
Qed.

Lemma cp_resolve_targets ts i s c r c' : resolve_targets ts i s c = Some (r, c') -> cp c' = cp c.
Proof.
  revert i c. induction ts as [|t ts IH]; intros i c; cbn [resolve_targets]; [intros [= <- <-]; reflexivity|].
  destruct (labels c !! t); [|discriminate]. cbn [mbind option_bind]. bool_case; [intros [= <- <-]; apply cp_fail|].
  match goal with |- context [patchU4 ?a ?b ?d] => destruct (patchU4 a b d); [|discriminate] end. cbn [mbind option_bind].
  intros E2. rewrite (IH _ _ E2). reflexivity.
Qed.

Lemma cp_resolve_switches ss c c' : resolve_switches ss c = Some c' -> cp c' = cp c.
Proof.
  revert c. induction ss as [|s ss IH]; intros c; cbn [resolve_switches]; [intros [= <-]; reflexivity|].
  destruct (resolve_switch s c) as [[b c1]|] eqn:E; [|discriminate]. cbn [mbind option_bind fst snd].
  assert (cp c1 = cp c).
  { unfold resolve_switch in E. destruct (labels c !! def s); [|discriminate]. cbn [mbind option_bind] in E.
    revert E. bool_case; [intros [= <- <-]; apply cp_fail|].
    match goal with |- context [patchU4 ?a ?b ?d] => destruct (patchU4 a b d); [|discriminate] end. cbn [mbind option_bind].
    intros H. apply cp_resolve_targets in H. exact H. }
  destruct b; [|intros [= <-]; auto]. intros E2. rewrite (IH _ E2). auto.
Qed.

Lemma cp_resolve c a c' : resolve c = Some (a, c') -> cp c' = cp c.
Proof.
  unfold resolve. destruct (resolve_branches _ _ _) as [[r c1]|] eqn:E; [|discriminate]. cbn [mbind option_bind].
  apply cp_resolve_branches in E. destruct r as [|[]]; try (intros [= <- <-]; exact E).
  destruct (resolve_switches _ _) as [c2|] eqn:E2; [|discriminate]. cbn. intros [= <- <-].
  apply cp_resolve_switches in E2. congruence.
Qed.

Definition result_writer (r : pass_result) : CodeWriter := match r with PFailed _ _ c | PAgain c | PDone c => c end.

Lemma Later_pass body c r : Forall args_ok body -> one_pass body c = Some r -> Later (cp c) (cp (result_writer r)).
Proof.
  unfold one_pass. intros Ha. destruct (run body c) as [c1|] eqn:E; [|discriminate]. cbn [mbind option_bind].
  apply (Later_run _ _ _ Ha) in E. destruct (err c1); [intros [= <-]; exact E|]. bool_case; [intros [= <-]; exact E|].
  destruct (resolve c1) as [[a c2]|] eqn:Er; [|discriminate]. cbn [mbind option_bind fst snd]. apply cp_resolve in Er. rewrite <- Er in E.
  intros H. repeat case_match; injection H as <-; exact E.
Qed.

Lemma Later_replays todo n body p ret ver wd ml r p' :
  Forall args_ok body -> replays todo n body p ret ver wd ml = Some (r, p') -> Later p p'.
Proof.
  intros Ha. revert n p wd. induction todo as [|todo IH]; intros n p wd; cbn [replays]; [intros [= <- <-]; reflexivity|].
  destruct (one_pass _ _) as [r1|] eqn:E; [|discriminate]. cbn [mbind option_bind].
  pose proof (Later_pass _ _ _ Ha E) as H. cbn [cp start] in H. destruct r1; cbn [result_writer] in H.
  - intros [= <- <-]. exact H.
  - intros E2. etransitivity; [exact H|]. eapply IH, E2.
  - intros [= <- <-]. exact H.
Qed.

(** ** Handlers and [Code] *)

(** A row of the exception table: the offsets of its labels and, under an index
    of the pool, its catch type. *)
Definition handler_row (p : PoolBuilder) (ls : list Label) (h : handlerRec) (r : encodedHandler) : Prop :=
  row_of ls h r /\ (catchType h <> [] -> interned p (IClass (catchType h)) (ehCatch r)).

Lemma handler_row_later p p' ls h r : Later p p' -> handler_row p ls h r -> handler_row p' ls h r.
Proof. intros H [H1 H2]. split; [exact H1|]. intros Hc. eapply interned_later; eauto. Qed.

Lemma catch_later t p i p' : bytes_ok t -> match t with [] => (0, p) | x :: l => Class_ (x :: l) p end = (i, p') ->
  Later p p' /\ (t <> [] -> interned p' (IClass t) i).
Proof.
  intros Ht. destruct t as [|x t]; [intros [= <- <-]; split; [reflexivity|congruence]|]. intros E.
  destruct (Later_intern (IClass (x :: t)) p i p' Ht E). auto.
Qed.

Lemma Later_handlers hs ls p rows p' :
  Forall (fun h => bytes_ok (catchType h)) hs -> encode_handlers hs ls p = Some (rows, p') ->
  Later p p' /\ Forall2 (handler_row p' ls) hs rows.
Proof.
  intros Hb E. pose proof (encode_rows _ _ _ _ _ E) as Hr. revert p rows p' E Hr.
  induction Hb as [|h hs Hh _ IH]; intros p rows p'; cbn [encode_handlers].
  { intros [= <- <-] _. split; [reflexivity|constructor]. }
  destruct (match catchType h with [] => (0, p) | t => Class_ t p end) as [ct p1] eqn:Et.
  destruct (ls !! hstart h) as [s|]; [|discriminate]. cbn [mbind option_bind]. destruct (ls !! hend h) as [e|]; [|discriminate].
  cbn [mbind option_bind]. destruct (ls !! hhandler h) as [t|]; [|discriminate]. cbn [mbind option_bind].
  destruct (encode_handlers hs ls p1) as [[rows2 p2]|] eqn:E4; [|discriminate]. cbn [mbind option_bind fst snd]. intros [= <- <-] Hr.
  apply Forall2_cons in Hr as [Hr1 Hr2]. apply catch_later in Et as [L1 I1]; [|exact Hh]. destruct (IH _ _ _ E4 Hr2) as [L2 F2].
  split; [etransitivity; eauto|]. constructor; [|exact F2]. split; [exact Hr1|]. intros Hc. eapply interned_later; eauto.
Qed.

(** What a [Code] that reports nothing has done, in full. *)
Record coded (i : nat) (body : list cmd) (b b' : Builder) : Prop := {
  cd_shape : exists m c0 c rows hs, methods b !! i = Some m /\ berr b = None /\ fresh c0 /\ one_pass body c0 = Some (PDone c) /\
    (exists cr, localRows c = Some (rows, cr) /\ err cr = None) /\
    b' = set_methods (<[i := add_handlers (store_code m c rows) hs]> (methods b)) (set_bpool (bpool b') b) /\
    Forall2 (handler_row (bpool b') (labels c)) (flat_map try_of body) hs;
  cd_later : Later (bpool b) (bpool b') }.

Lemma args_catch body : Forall args_ok body -> Forall (fun h => bytes_ok (catchType h)) (flat_map try_of body).
Proof.
  induction 1 as [|x body [_ Hx] _ IH]; [constructor|]. cbn. apply Forall_app. split; [|exact IH].
  destruct x; cbn; auto.
Qed.

(** A finished pass holds the tables the run filled. *)
Lemma pass_run body c0 c :
  Forall cmd_ok body -> fresh c0 -> one_pass body c0 = Some (PDone c) ->
  exists c1 x, run body c0 = Some c1 /\ c = set_w x c1 /\ bytes_ok (w c).
Proof.
  intros Hb (p & r & v & wd & n & ml & ->) Hpass. destruct (pass_done _ _ _ Hpass) as (c1 & Hrun & He1 & _ & Hres & Hec & _).
  destruct (run_steps body _ c1 Hb (start_kok _ _ _ _ _ _) Hrun He1) as (_ & Hk & its & Hs & _).
  destruct (ksteps_inv _ _ _ Hs (start_kok _ _ _ _ _ _) (start_inv _ _ _ _ _ _)) as [Hi _].
  destruct (resolve_done its c1 c Hi Hres Hec) as (Ec & _). eexists c1, _. split_and!; [exact Hrun|exact Ec|].
  rewrite Ec. cbn [w set_w]. eapply rend_of_bytes, Hi.
Qed.

Lemma Code_coded limit i body b b' :
  Forall cmd_ok body -> Forall args_ok body -> Code_bound limit i body b = Some b' -> berr b' = None -> coded i body b b'.
Proof.
  intros Hk Ha. unfold Code_bound. destruct (methods b !! i) as [m|] eqn:Em; [|discriminate]. cbn [mbind option_bind].
  destruct (berr b) eqn:Eb; [intros [= <-]; congruence|]. cbv zeta.
  destruct (ParseMethod (mdescriptor m)) as [sig|e] eqn:Ep; [|intros [= <-] He; destruct (bfail_err _ _ _ He)].
  destruct (CheckArgSlots _ _); [intros [= <-] He; destruct (bfail_err _ _ _ He)|].
  destruct (replays _ _ _ _ _ _ _ _) as [[[r|] p']|] eqn:Er; [| |discriminate]; cbn [mbind option_bind fst snd];
    [|intros [= <-] He; destruct (bfail_err _ _ _ He)].
  pose proof (Later_replays _ _ _ _ _ _ _ _ _ _ Ha Er) as HL.
  destruct r as [f a c|c|c]; [intros [= <-] He; destruct (bfail_err _ _ _ He)| |].
  - exfalso. revert Er. generalize 0 at 1. generalize (∅ : gset Z). generalize (bpool b). clear.
    induction limit as [|limit IH]; intros p wd n; cbn [replays]; [discriminate|].
    destruct (one_pass _ _) as [[]|]; cbn [mbind option_bind]; try discriminate. apply IH.
  - destruct (replays_done _ _ _ _ _ _ _ _ _ _ Er) as (p0 & wd0 & n0 & Hpass & ->).
    destruct (localRows c) as [[rows cr]|] eqn:El; [|discriminate]. cbn [mbind option_bind fst snd].
    destruct (err cr) eqn:Ecr; [intros [= <-] He; destruct (bfail_err _ _ _ He)|].
    cbn [bpool set_method set_methods set_bpool methods].
    destruct (encode_handlers _ _ _) as [[hs p2]|] eqn:Eh; [|discriminate]. cbn [mbind option_bind fst snd].
    intros E He. assert (Hf : fresh (start p0 (Desc.Ret sig) (bversion b) wd0 n0 (s32 (ArgSlots sig (negb (Has (mflags m) AccStatic))))))
      by (unfold fresh; eauto 7).
    destruct (pass_run _ _ _ Hk Hf Hpass) as (c1 & x & Hrun & Ec & _).
    assert (Hh : handlers c = flat_map try_of body) by (rewrite Ec; cbn [handlers set_w]; apply run_handlers in Hrun; exact Hrun).
    rewrite Hh in Eh. destruct (Later_handlers _ _ _ _ _ (args_catch _ Ha) Eh) as [HL2 HF].
    injection E as <-. split; [|cbn; etransitivity; eauto].
    eexists m, _, c, rows, hs. cbn [bpool set_bpool set_methods set_method methods].
    split_and!; eauto. unfold set_method, set_methods, set_bpool.
    cbn [bpool bversion bflags bname bsuper ifaces fields methods sourceFile berr]. rewrite list_insert_insert_eq. reflexivity.
Qed.
