(* ===== verification/ClassSpec.v ===== *)
(** * What a class builder is asked for

    [AClass] is the class a client describes with the builder's calls: names,
    flags, constants and, for a method with a body, the calls of the body.
    [spec_ops] runs the calls on it; [rep b a] relates the state of the real
    builder to it, and every call that reports nothing keeps it. *)
From S2P Require Import Prelude.
From S2P Require Import Desc.
From S2P Require Import Op.
From S2P Require Import Format.
From S2P Require Import ClassIO.
From S2P Require Import PoolBuilder.
From S2P Require Import CodeWriter.
From S2P Require Import CodeProof.
From S2P Require Import CodeFrame.
From S2P Require Import Builder.
From S2P Require Import MethodProof.
From S2P Require Import MethodStack.
From S2P Require Import PoolLater.

(** ** The class asked for *)

Record AField := mkAField { afFlags : Z; afName : bytes; afDesc : bytes; afConst : option iop; afSig : bytes }.
Record AMethod := mkAMethod {
  amFlags : Z; amName : bytes; amDesc : bytes; amThrows : list bytes; amSig : bytes; amBody : option (list cmd) }.
Record AClass := mkAClass {
  acVersion : Version; acFlags : Z; acName : bytes; acSuper : bytes; acIfaces : list bytes;
  acFields : list AField; acMethods : list AMethod; acSource : bytes }.

(** The calls; a field or a method is named by the order of its creation. *)
Inductive bop :=
  | BVersion (v : Version) | BFlags (x : Z) | BSuper (s : bytes) | BInterface (s : bytes) | BSource (s : bytes)
  | BField (flags : Z) (n d : bytes) | BConst (i : nat) (o : iop) | BFieldSig (i : nat) (s : bytes)
  | BMethod (flags : Z) (n d : bytes) | BThrows (i : nat) (s : bytes) | BMethodSig (i : nat) (s : bytes)
  | BCode (i : nat) (body : list cmd).

Definition run_const (i : nat) (o : iop) : Builder -> option Builder :=
  match o with
  | IInt v => ConstantInt i v
  | ILong v => ConstantLong i v
  | IFloat v => ConstantFloat i v
  | IDouble v => ConstantDouble i v
  | IString s => ConstantString i s
  | _ => fun _ => None
  end.

Definition run_bop (o : bop) (b : Builder) : option Builder :=
  match o with
  | BVersion v => Some (SetVersion v b)
  | BFlags x => Some (SetFlags x b)
  | BSuper s => Some (SetSuper s b)
  | BInterface s => Some (AddInterface s b)
  | BSource s => Some (SetSourceFile s b)
  | BField fl n d => Some (AddField fl n d b)
  | BConst i o => run_const i o b
  | BFieldSig i s => FieldSignature i s b
  | BMethod fl n d => Some (AddMethod fl n d b)
  | BThrows i s => Throws i s b
  | BMethodSig i s => MethodSignature i s b
  | BCode i body => Code i body b
  end.

Definition run_bops (os : list bop) (b : Builder) : option Builder := foldl (fun b o => b ≫= run_bop o) (Some b) os.

Definition upd_field (i : nat) (g : AField -> AField) (a : AClass) : AClass :=
  mkAClass (acVersion a) (acFlags a) (acName a) (acSuper a) (acIfaces a) (alter g i (acFields a)) (acMethods a) (acSource a).
Definition upd_method (i : nat) (g : AMethod -> AMethod) (a : AClass) : AClass :=
  mkAClass (acVersion a) (acFlags a) (acName a) (acSuper a) (acIfaces a) (acFields a) (alter g i (acMethods a)) (acSource a).

Definition spec_bop (o : bop) (a : AClass) : AClass :=
  let '(mkAClass v fl n su ifs fs ms src) := a in
  match o with
  | BVersion v => mkAClass v fl n su ifs fs ms src
  | BFlags x => mkAClass v x n su ifs fs ms src
  | BSuper s => mkAClass v fl n s ifs fs ms src
  | BInterface s => mkAClass v fl n su (ifs ++ [s]) fs ms src
  | BSource s => mkAClass v fl n su ifs fs ms s
  | BField x f d => mkAClass v fl n su ifs (fs ++ [mkAField x f d None []]) ms src
  | BConst i o => upd_field i (fun f => mkAField (afFlags f) (afName f) (afDesc f) (Some o) (afSig f)) a
  | BFieldSig i s => upd_field i (fun f => mkAField (afFlags f) (afName f) (afDesc f) (afConst f) s) a
  | BMethod x m d => mkAClass v fl n su ifs fs (ms ++ [mkAMethod x m d [] [] None]) src
  | BThrows i s => upd_method i (fun m => mkAMethod (amFlags m) (amName m) (amDesc m) (amThrows m ++ [s]) (amSig m) (amBody m)) a
  | BMethodSig i s => upd_method i (fun m => mkAMethod (amFlags m) (amName m) (amDesc m) (amThrows m) s (amBody m)) a
  | BCode i body => upd_method i (fun m => mkAMethod (amFlags m) (amName m) (amDesc m) (amThrows m) (amSig m) (Some body)) a
  end.

Definition spec_ops (os : list bop) (a : AClass) : AClass := foldl (fun a o => spec_bop o a) a os.

(** What [NewBuilder] starts with. *)
Definition new_class (name : bytes) : AClass :=
  mkAClass (mkVersion Java5 0) (Z.lor AccPublic AccSuper) name java_lang_Object [] [] [] [].

(** ** The arguments *)

Definition u16_ok (x : Z) : Prop := 0 <= x < 65536.

(** What Go's types allow (a flag and the parts of a version are 16 bits, a
    string is bytes, a body's operands are in range). *)
Definition bop_ok (o : bop) : Prop :=
  match o with
  | BVersion v => u16_ok (Major v) /\ u16_ok (Minor v)
  | BFlags x => u16_ok x
  | BSuper s | BInterface s | BSource s | BFieldSig _ s | BThrows _ s | BMethodSig _ s => bytes_ok s
  | BField x n d | BMethod x n d => u16_ok x /\ bytes_ok n /\ bytes_ok d
  | BConst _ o => field_iop o = true /\ plain_iop o
  | BCode _ body => Forall cmd_ok body /\ Forall args_ok body
  end.

(** A method is given one body at most: [Code] called again keeps the handlers
    of the body before. *)
Definition new_body (o : bop) (a : AClass) : bool :=
  match o with
  | BCode i _ => match acMethods a !! i with Some (mkAMethod _ _ _ _ _ (Some _)) => false | _ => true end
  | _ => true
  end.

Fixpoint one_body_each (os : list bop) (a : AClass) : bool :=
  match os with
  | [] => true
  | o :: os => new_body o a && one_body_each os (spec_bop o a)
  end.

(** ** The representation *)

Record field_rep (p : PoolBuilder) (f : FieldBuilder) (a : AField) : Prop := {
  fr_same : fflags f = afFlags a /\ fname f = afName a /\ fdescriptor f = afDesc a /\ fsignature f = afSig a;
  fr_ok : u16_ok (afFlags a) /\ bytes_ok (afName a) /\ bytes_ok (afDesc a) /\ bytes_ok (afSig a);
  fr_const : match afConst a with
    | None => fconstant f = 0
    | Some o => field_iop o = true /\ plain_iop o /\ interned p o (fconstant f)
    end }.

(** The code of a method: one pass over its body, its handlers and its tables
    of lines and locals. *)
Definition code_rep (p : PoolBuilder) (m : MethodBuilder) (body : list cmd) : Prop :=
  exists c0 c cr, fresh c0 /\ one_pass body c0 = Some (PDone c) /\ localRows c = Some (mlocals m, cr) /\ err cr = None /\
    mcode m = w c /\ mmaxStack m = u16 (maxStack c) /\ mmaxLocals m = u16 (maxLocals c) /\ mlines m = lines c /\
    Forall2 (handler_row p (labels c)) (flat_map try_of body) (mhandlers m) /\ Forall cmd_ok body /\ Forall args_ok body.

Record method_rep (p : PoolBuilder) (m : MethodBuilder) (a : AMethod) : Prop := {
  mr_same : mflags m = amFlags a /\ mname m = amName a /\ mdescriptor m = amDesc a /\ msignature m = amSig a /\
    mexceptions m = amThrows a;
  mr_ok : u16_ok (amFlags a) /\ bytes_ok (amName a) /\ bytes_ok (amDesc a) /\ bytes_ok (amSig a) /\ Forall bytes_ok (amThrows a);
  mr_code : match amBody a with
    | None => hasCode m = false /\ mhandlers m = []
    | Some body => hasCode m = true /\ code_rep p m body
    end }.

(** A version the builder accepts. *)
Definition version_ok (v : Version) : Prop := 45 <= Major v < 50 /\ u16_ok (Minor v) /\ Minor v <> PreviewMinor.

Record rep (b : Builder) (a : AClass) : Prop := {
  rp_same : bversion b = acVersion a /\ bflags b = acFlags a /\ bname b = acName a /\ bsuper b = acSuper a /\
    ifaces b = acIfaces a /\ sourceFile b = acSource a;
  rp_ok : version_ok (acVersion a) /\ u16_ok (acFlags a) /\ bytes_ok (acName a) /\ bytes_ok (acSuper a) /\
    Forall bytes_ok (acIfaces a) /\ bytes_ok (acSource a);
  rp_pool : perr (bpool b) = None -> exists l, built base (bpool b) l;
  rp_fields : Forall2 (field_rep (bpool b)) (fields b) (acFields a);
  rp_methods : Forall2 (method_rep (bpool b)) (methods b) (acMethods a) }.

(** *** The pool may move on *)

Lemma field_rep_later p p' f a : Later p p' -> field_rep p f a -> field_rep p' f a.
Proof.
  intros H [H1 H2 H3]. split; auto. destruct (afConst a); [|exact H3]. destruct H3 as (? & ? & ?).
  split_and!; auto. eapply interned_later; eauto.
Qed.

Lemma code_rep_later p p' m body : Later p p' -> code_rep p m body -> code_rep p' m body.
Proof.
  intros H (c0 & c & cr & H1 & H2 & H3 & H4 & H5 & H6 & H7 & H8 & H9 & H10). exists c0, c, cr. split_and!; auto; [|apply H10..].
  eapply Forall2_impl; [exact H9|]. intros h r. eapply handler_row_later; eauto.
Qed.

Lemma method_rep_later p p' m a : Later p p' -> method_rep p m a -> method_rep p' m a.
Proof.
  intros H [H1 H2 H3]. split; auto. destruct (amBody a); [|exact H3]. destruct H3. split; auto. eapply code_rep_later; eauto.
Qed.

Lemma built_later p p' : Later p p' -> (perr p = None -> exists l, built base p l) -> perr p' = None -> exists l, built base p' l.
Proof. intros [H1 _ H3] H He. destruct (H (H1 He)) as (l & Hl). destruct (H3 l Hl He) as (l' & ?). eauto. Qed.

Lemma rep_pool b a p : Later (bpool b) p -> rep b a -> rep (set_bpool p b) a.
Proof.
  intros H [H1 H2 H3 H4 H5]. split; cbn; auto.
  - eapply built_later; eauto.
  - eapply Forall2_impl; [exact H4|]. intros. eapply field_rep_later; eauto.
  - eapply Forall2_impl; [exact H5|]. intros. eapply method_rep_later; eauto.
Qed.

(** *** Every call keeps it *)

Lemma Forall2_alter {A B} (R : A -> B -> Prop) (f : A -> A) (g : B -> B) l k i :
  Forall2 R l k -> (forall x y, l !! i = Some x -> k !! i = Some y -> R x y -> R (f x) (g y)) ->
  Forall2 R (alter f i l) (alter g i k).
Proof.
  intros H Hf. apply Forall2_same_length_lookup. split; [rewrite !length_alter; apply (Forall2_length _ _ _ H)|].
  intros j x y Hx Hy. apply Forall2_same_length_lookup in H as [_ H]. destruct (decide (i = j)) as [->|Hne].
  - rewrite list_lookup_alter_eq in Hx. rewrite list_lookup_alter_eq in Hy. destruct (l !! j) as [x0|] eqn:E1; [|discriminate]. destruct (k !! j) as [y0|] eqn:E2; [|discriminate].
    cbn in Hx, Hy. injection Hx as <-. injection Hy as <-. eauto.
  - rewrite list_lookup_alter_ne in Hx by exact Hne. rewrite list_lookup_alter_ne in Hy by exact Hne. eauto.
Qed.

Lemma insert_alter {A} (l : list A) i x y : l !! i = Some x -> <[i := y]> l = alter (fun _ => y) i l.
Proof. intros _. revert i. induction l as [|a l IH]; intros [|i]; cbn; try reflexivity. f_equal. apply IH. Qed.

Lemma bfail_stuck f args b : berr (bfail f args b) = None -> False.
Proof. intros H. exact (bfail_err f args b H). Qed.

Lemma SetVersion_done v b : berr (SetVersion v b) = None ->
  SetVersion v b = set_bversion v b /\ 45 <= Major v < 50 /\ Minor v <> PreviewMinor.
Proof.
  unfold SetVersion, Java6, Java1_0. repeat bool_case; to_Z; intros H; try destruct (bfail_stuck _ _ _ H). split_and!; auto; lia.
Qed.

Lemma AddField_done fl n d b : berr (AddField fl n d b) = None ->
  AddField fl n d b = set_fields (fields b ++ [mkField fl n d 0 []]) b.
Proof. unfold AddField. destruct (ParseField d); [reflexivity|]. cbn. intros H. destruct (bfail_stuck _ _ _ H). Qed.

Lemma AddMethod_done fl n d b : berr (AddMethod fl n d b) = None ->
  AddMethod fl n d b = set_methods (methods b ++ [mkMethod fl n d [] [] [] 0 0 [] [] [] false]) b.
Proof. unfold AddMethod. destruct (ParseMethod d); [reflexivity|]. cbn. intros H. destruct (bfail_stuck _ _ _ H). Qed.

Lemma constant_done o i b b' : field_iop o = true -> run_const i o b = Some b' -> berr b' = None ->
  exists f idx p, intern o (bpool b) = (idx, p) /\ fields b !! i = Some f /\ berr b = None /\
    b' = set_fields (<[i := mkField (fflags f) (fname f) (fdescriptor f) idx (fsignature f)]> (fields b)) (set_bpool p b).
Proof.
  intros Ho E He. assert (E2 : constant_of (intern o) i b = Some b') by (destruct o; try discriminate; exact E).
  unfold constant_of in E2. destruct (intern o (bpool b)) as [idx p]. unfold setConstant in E2. cbn [fields set_bpool] in E2.
  destruct (fields b !! i) as [f|]; [|discriminate]. cbn [mbind option_bind] in E2. injection E2 as <-. revert He.
  bool_case; intros He; [destruct (bfail_stuck _ _ _ He)|]. exists f, idx, p. split_and!; auto.
Qed.

Lemma run_bop_sticky o b b' : run_bop o b = Some b' -> berr b' = None -> berr b = None.
Proof.
  intros E He. assert (Hb : forall f a, berr (bfail f a b) = None -> False) by (intros f a; apply bfail_stuck).
  destruct o; cbn [run_bop] in E; try (injection E as <-; cbn in He; auto; fail).
  - injection E as <-. destruct (SetVersion_done _ _ He) as [H _]. rewrite H in He. exact He.
  - injection E as <-. rewrite AddField_done in He; exact He.
  - assert (Hc : field_iop o = true) by (destruct o; try discriminate E; reflexivity).
    destruct (constant_done _ _ _ _ Hc E He) as (? & ? & ? & _ & _ & H & _). exact H.
  - unfold FieldSignature in E. destruct (fields b !! i); [|discriminate]. injection E as <-. exact He.
  - injection E as <-. rewrite AddMethod_done in He; exact He.
  - unfold Throws in E. destruct (methods b !! i); [|discriminate]. injection E as <-. exact He.
  - unfold MethodSignature in E. destruct (methods b !! i); [|discriminate]. injection E as <-. exact He.
  - destruct (Code_done _ _ _ _ _ E He) as (? & ? & ? & ? & ? & H & _). exact H.
Qed.

(** Changing one field or one method. *)
Lemma rep_field b a i f f' g :
  rep b a -> fields b !! i = Some f -> (forall x, field_rep (bpool b) f x -> field_rep (bpool b) f' (g x)) ->
  rep (set_fields (<[i := f']> (fields b)) b) (upd_field i g a).
Proof.
  intros [H1 H2 H3 H4 H5] Hi Hf. split; cbn; auto. rewrite (insert_alter _ _ f _ Hi). apply Forall2_alter; [exact H4|].
  intros x y Hx _ Hr. rewrite Hi in Hx. injection Hx as <-. apply Hf, Hr.
Qed.

Lemma rep_method b a i m m' g :
  rep b a -> methods b !! i = Some m ->
  (forall x, acMethods a !! i = Some x -> method_rep (bpool b) m x -> method_rep (bpool b) m' (g x)) ->
  rep (set_methods (<[i := m']> (methods b)) b) (upd_method i g a).
Proof.
  intros [H1 H2 H3 H4 H5] Hi Hf. split; cbn; auto. rewrite (insert_alter _ _ m _ Hi). apply Forall2_alter; [exact H5|].
  intros x y Hx Hy Hr. rewrite Hi in Hx. injection Hx as <-. apply Hf; auto.
Qed.

Lemma plain_name s : bytes_ok s -> plain_iop (IUTF8 s).
Proof. auto. Qed.

Lemma rep_bop o b b' a :
  bop_ok o -> new_body o a = true -> rep b a -> run_bop o b = Some b' -> berr b' = None -> rep b' (spec_bop o a).
Proof.
  intros Ho Hn Hr E He. destruct a as [v fl n su ifs fs ms src] eqn:Ea. destruct o; cbn [run_bop bop_ok spec_bop] in *.
  - injection E as <-. destruct (SetVersion_done _ _ He) as (Hv & H1 & H2). rewrite Hv.
    destruct Hr as [(R1 & R2) (O1 & O2) R3 R4 R5]. split; cbn in *; auto. split; [|exact O2]. split_and!; auto; lia || apply Ho.
  - injection E as <-. destruct Hr as [R1 R2 R3 R4 R5]. split; cbn in *; auto; [intuition|]. intuition.
  - injection E as <-. destruct Hr as [R1 R2 R3 R4 R5]. split; cbn in *; auto; intuition.
  - injection E as <-. destruct Hr as [R1 R2 R3 R4 R5]. split; cbn in *; auto; [intuition congruence|].
    intuition. apply Forall_app. auto.
  - injection E as <-. destruct Hr as [R1 R2 R3 R4 R5]. split; cbn in *; auto; intuition.
  - injection E as <-. rewrite AddField_done by exact He. destruct Hr as [R1 R2 R3 R4 R5]. split; cbn in *; auto.
    apply Forall2_app; [exact R4|]. constructor; [|constructor]. split; cbn; auto. destruct Ho as (? & ? & ?). split_and!; auto. constructor.
  - destruct Ho as [Hc Hp]. destruct (constant_done _ _ _ _ Hc E He) as (f & idx & p & Ei & Hf & _ & ->).
    destruct (Later_intern _ _ _ _ Hp Ei) as [HL HI]. pose proof (rep_pool _ _ p HL Hr) as Hr'.
    apply (rep_field (set_bpool p b) _ i f _ _ Hr' Hf). intros x [F1 F2 F3]. split; cbn; auto.
  - unfold FieldSignature in E. destruct (fields b !! i) as [f|] eqn:Hf; [|discriminate]. injection E as <-.
    apply (rep_field b _ i f _ _ Hr Hf). intros x [F1 F2 F3]. split; cbn; intuition.
  - injection E as <-. rewrite AddMethod_done by exact He. destruct Hr as [R1 R2 R3 R4 R5]. split; cbn in *; auto.
    apply Forall2_app; [exact R5|]. constructor; [|constructor]. split; cbn; auto. destruct Ho as (? & ? & ?). split_and!; auto; constructor.
  - unfold Throws in E. destruct (methods b !! i) as [m|] eqn:Hm; [|discriminate]. injection E as <-.
    apply (rep_method b _ i m _ _ Hr Hm). intros x _ [F1 F2 F3]. split; cbn; [intuition congruence|intuition; apply Forall_app; auto|exact F3].
  - unfold MethodSignature in E. destruct (methods b !! i) as [m|] eqn:Hm; [|discriminate]. injection E as <-.
    apply (rep_method b _ i m _ _ Hr Hm). intros x _ [F1 F2 F3]. split; cbn; [intuition|intuition|exact F3].
  - destruct Ho as [Hk Ha]. destruct (Code_coded _ _ _ _ _ Hk Ha E He) as [(m & c0 & c & rows & hs & Hm & _ & Hf & Hp & (cr & Hl & Hcr) & Eb & Hh) HL].
    pose proof (rep_pool _ _ (bpool b') HL Hr) as Hr'. rewrite Eb.
    apply (rep_method (set_bpool (bpool b') b) _ i m _ _ Hr' Hm). intros x Hx [F1 F2 F3]. cbn [acMethods new_body] in *. rewrite Hx in Hn.
    destruct x as [xf xn xd xt xs [body'|]]; [discriminate|]. cbn in *. destruct F3 as [_ Hmh]. split; cbn; auto.
    split; [reflexivity|]. exists c0, c, cr. cbn. rewrite Hmh. split_and!; auto; apply Hh.
Qed.

(** The calls of a client, in order, on a new builder. *)
Lemma rep_new name : bytes_ok name -> rep (NewBuilder name) (new_class name).
Proof.
  intros H. split; [cbn; split_and!; reflexivity| | |constructor|constructor].
  - cbn [new_class acVersion acFlags acName acSuper acIfaces acSource]. split_and!; auto.
    + unfold version_ok, u16_ok, Java5, PreviewMinor. cbn. lia.
    + vm_compute. intuition congruence.
    + apply bytes_ok_dec. reflexivity.
    + constructor.
  - intros _. exists []. apply built_new.
Qed.

Lemma rep_bops os b b' a :
  Forall bop_ok os -> one_body_each os a = true -> rep b a -> run_bops os b = Some b' -> berr b' = None -> rep b' (spec_ops os a).
Proof.
  intros Ho. revert b a. induction Ho as [|o os Ho _ IH]; intros b a Hn Hr E He; cbn in *; [injection E as <-; exact Hr|].
  apply andb_prop in Hn as [Hn1 Hn2]. destruct (run_bop o b) as [b1|] eqn:E1.
  - apply (IH b1); auto. eapply rep_bop; eauto. clear - E He. revert b1 E. induction os as [|o os IH]; intros b1 E; cbn in E.
    + injection E as <-. exact He.
    + destruct (run_bop o b1) as [b2|] eqn:E2; [eapply run_bop_sticky; eauto|].
      exfalso. clear - E. induction os as [|o os IH]; cbn in E; [discriminate|auto].
  - exfalso. clear - E. induction os as [|o2 os IH]; cbn in E; [discriminate|auto].
Qed.
