(* ===== verification/ClassRead.v ===== *)
(** * Reading back what was written

    [written p m x a]: with any later state of the pool [p] emitted and read
    back, the decoding step [m] reads the bytes [x] to the value [a].  The
    steps compose, so a reader is matched against a writer piece by piece. *)
From S2P Require Import Prelude.
From S2P Require Import Utf8.
From S2P Require Import Mutf8.
From S2P Require Import Desc.
From S2P Require Import Format.
From S2P Require Import ClassIO.
From S2P Require Import Pool.
From S2P Require Import PoolBuilder.
From S2P Require Import PoolLater.
From S2P Require Import Attrs.
From S2P Require Import Decoder.

(** [q] is the pool read back from [P]. *)
Record final (P : PoolBuilder) (q : Pool) : Prop := {
  fin_err : perr P = None;
  fin_good : good q;
  fin_table : exists l, built base P l /\ forall i c, at_index l i c -> holds base q i c }.

(** [m] reads [x], and what follows it is left; [dends]: nothing follows. *)
Definition dreads (q : Pool) {A} (m : DM A) (x : bytes) (a : A) : Prop :=
  forall d post, healthy (dr d) -> drop (Z.to_nat (roff (dr d))) (rb (dr d)) = x ++ post -> good (dpool d) -> forget (dpool d) = forget q ->
    exists p', good p' /\ forget p' = forget q /\ m d = (Ok a, mkDecoder (with_off (dr d) (roff (dr d) + len x)) p').
Definition dends (q : Pool) {A} (m : DM A) (x : bytes) (a : A) : Prop :=
  forall d, healthy (dr d) -> drop (Z.to_nat (roff (dr d))) (rb (dr d)) = x -> good (dpool d) -> forget (dpool d) = forget q ->
    exists p', good p' /\ forget p' = forget q /\ m d = (Ok a, mkDecoder (with_off (dr d) (roff (dr d) + len x)) p').

Definition written (p : PoolBuilder) {A} (m : DM A) (x : bytes) (a : A) : Prop :=
  forall P q, Later p P -> final P q -> dreads q m x a.
Definition wholly (p : PoolBuilder) {A} (m : DM A) (x : bytes) (a : A) : Prop :=
  forall P q, Later p P -> final P q -> dends q m x a.

Lemma written_later p p' {A} (m : DM A) x a : Later p p' -> written p m x a -> written p' m x a.
Proof. intros H Hm P q HP. apply Hm. etransitivity; eauto. Qed.

Lemma written_wholly p {A} (m : DM A) x a : written p m x a -> wholly p m x a.
Proof. intros H P q HP Hq d Hd Hx. apply (H P q HP Hq d []); auto. rewrite app_nil_r. exact Hx. Qed.

Lemma len_be2 x : len (be2 x) = 2.
Proof. reflexivity. Qed.
Lemma len_be4 x : len (be4 x) = 4.
Proof. reflexivity. Qed.
#[export] Hint Rewrite @len_app @len_cons @len_nil len_be2 len_be4 : mocha.

(** ** Composing steps *)

Lemma written_ret p {A} (a : A) : written p (mret a) [] a.
Proof.
  intros P q _ _ d post Hd _ Hg Hf. exists (dpool d). split_and!; auto. rewrite len_nil, Z.add_0_r, with_off_id. destruct d; reflexivity.
Qed.

Lemma written_bind p {A B} (m : DM A) (k : A -> DM B) x y a b :
  written p m x a -> written p (k a) y b -> written p (m ≫= k) (x ++ y) b.
Proof.
  intros H1 H2 P q HP Hq d post Hd Hx Hg Hf. rewrite <- app_assoc in Hx.
  destruct (H1 P q HP Hq d (y ++ post)) as (p1 & G1 & F1 & E1); auto. unfold mbind, DM_bind. rewrite E1.
  destruct (H2 P q HP Hq (mkDecoder (with_off (dr d) (roff (dr d) + len x)) p1) post) as (p2 & G2 & F2 & E2); auto; cbn.
  - eapply healthy_after; eauto.
  - apply drop_prefix_drop; [apply Hd|exact Hx].
  - exists p2. split_and!; auto. rewrite E2. cbn. unfold with_off. cbn. rewrite len_app. do 3 f_equal. lia.
Qed.

Lemma wholly_bind p {A B} (m : DM A) (k : A -> DM B) x y a b :
  written p m x a -> wholly p (k a) y b -> wholly p (m ≫= k) (x ++ y) b.
Proof.
  intros H1 H2 P q HP Hq d Hd Hx Hg Hf.
  destruct (H1 P q HP Hq d y) as (p1 & G1 & F1 & E1); auto. unfold mbind, DM_bind. rewrite E1.
  destruct (H2 P q HP Hq (mkDecoder (with_off (dr d) (roff (dr d) + len x)) p1)) as (p2 & G2 & F2 & E2); auto; cbn.
  - eapply healthy_after; eauto.
  - apply drop_prefix_drop; [apply Hd|exact Hx].
  - exists p2. split_and!; auto. rewrite E2. cbn. unfold with_off. cbn. rewrite len_app. do 3 f_equal. lia.
Qed.

Lemma written_bind0 p {A B} (m : DM A) (k : A -> DM B) y a b :
  written p m [] a -> written p (k a) y b -> written p (m ≫= k) y b.
Proof. intros H1 H2. apply (written_bind p m k [] y a b H1 H2). Qed.
Lemma wholly_bind0 p {A B} (m : DM A) (k : A -> DM B) y a b :
  written p m [] a -> wholly p (k a) y b -> wholly p (m ≫= k) y b.
Proof. intros H1 H2. apply (wholly_bind p m k [] y a b H1 H2). Qed.

Lemma wholly_ret p {A} (a : A) : wholly p (mret a) [] a.
Proof. apply written_wholly, written_ret. Qed.

Lemma written_fmap p {A B} (m : DM A) (f : A -> B) x a : written p m x a -> written p (v ← m; mret (f v)) x (f a).
Proof. intros H. rewrite <- (app_nil_r x). eapply written_bind; [exact H|]. apply written_ret. Qed.

Lemma wholly_fmap p {A B} (m : DM A) (f : A -> B) x a : wholly p m x a -> wholly p (v ← m; mret (f v)) x (f a).
Proof.
  intros H P q HP Hq d Hd Hx Hg Hf. destruct (H P q HP Hq d) as (p1 & G1 & F1 & E1); auto. exists p1. split_and!; auto.
  unfold mbind, DM_bind. rewrite E1. reflexivity.
Qed.

Lemma written_rd p {A} (m : Rd A) x a : reads m x a -> written p (rd m) x a.
Proof.
  intros H P q _ _ d post Hd Hx Hg Hf. exists (dpool d). split_and!; auto. unfold rd. rewrite (H (dr d) post Hd Hx). reflexivity.
Qed.

Lemma written_lk p {A} (m : PM A) `{!Lookup m} a : (forall P q, Later p P -> final P q -> ans m q a) -> written p (lk m) [] a.
Proof.
  intros H P q HP Hq d post Hd _ Hg Hf. specialize (H P q HP Hq). unfold ans in H. pose proof (fin_good _ _ Hq) as Hgq.
  rewrite (lookup_same (m := m) q Hgq), <- Hf, <- (lookup_same (m := m) (dpool d) Hg) in H.
  pose proof (lookup_good (m := m) _ Hg) as G. pose proof (lookup_keeps (m := m) _ Hg) as F. unfold lk.
  destruct (m (dpool d)) as [o p']; cbn [fst snd] in *. rewrite H. exists p'. split_and!; auto; [congruence|].
  rewrite len_nil, Z.add_0_r, with_off_id. reflexivity.
Qed.

(** The checks at the end of a body and of a table. *)
Lemma wholly_orErr p {A} (a : A) : wholly p (orErr a) [] a.
Proof.
  intros P q _ _ d [He Ho] Hx Hg Hf. exists (dpool d). split_and!; auto. unfold orErr. rewrite He. cbv zeta.
  assert (Hn : len (rb (dr d)) - roff (dr d) = 0).
  { apply (f_equal length) in Hx. rewrite length_drop in Hx. cbn in Hx. unfold len in *. lia. }
  rewrite Hn. cbn. rewrite len_nil, Z.add_0_r, with_off_id. destruct d; reflexivity.
Qed.

Lemma written_sticky p {A} (a : A) : written p (sticky a) [] a.
Proof.
  intros P q _ _ d post [He Ho] _ Hg Hf. exists (dpool d). split_and!; auto. unfold sticky. rewrite He.
  rewrite len_nil, Z.add_0_r, with_off_id. destruct d; reflexivity.
Qed.

Lemma written_done p : written p is_done [] false.
Proof.
  intros P q _ _ d post [He Ho] _ Hg Hf. exists (dpool d). split_and!; auto. unfold is_done, done. rewrite He.
  rewrite len_nil, Z.add_0_r, with_off_id. destruct d; reflexivity.
Qed.

Lemma written_sub p {A} body (m : DM A) a : wholly p m body a -> written p (in_sub body m) [] a.
Proof.
  intros H P q HP Hq d post Hd _ Hg Hf. unfold in_sub.
  destruct (H P q HP Hq (mkDecoder (mkReader body 0 (rfile (dr d)) None) (dpool d))) as (p' & G & F & E); auto.
  - split; [reflexivity|]. cbn. pose proof (len_nonneg body). lia.
  - rewrite E. exists p'. split_and!; auto. cbn [dpool]. rewrite len_nil, Z.add_0_r, (with_off_id (dr d)). reflexivity.
Qed.

Lemma written_whole p {A} body (m : DM A) a : written p m body a -> written p (whole body m) [] a.
Proof.
  intros H. apply written_sub. rewrite <- (app_nil_r body). eapply wholly_bind; [exact H|]. apply wholly_orErr.
Qed.

Lemma written_rows p {A} (row : DM A) xs l :
  Forall2 (fun x a => written p row x a) xs l -> written p (rows (length l) row) (concat xs) l.
Proof.
  induction 1 as [|x a xs l Hx _ IH]; cbn [rows length concat]; [apply written_ret|].
  eapply written_bind0; [apply written_done|]. cbn beta iota. eapply written_bind; [exact Hx|].
  apply (written_fmap p _ (cons a)), IH.
Qed.

(** ** Values and indices *)

Lemma written_u2 p v : 0 <= v < 65536 -> written p u2 (be2 v) v.
Proof. intros H. apply written_rd, reads_u2, H. Qed.
Lemma written_u4 p v : 0 <= v < 4294967296 -> written p u4 (be4 v) v.
Proof. intros H. apply written_rd, reads_u4, H. Qed.
Lemma written_bytes p x : written p (rd (rBytes (len x))) x x.
Proof. apply written_rd, reads_bytes. Qed.

Lemma interned_meaning p o i P q : interned p o i -> Later p P -> final P q ->
  exists l, meaning l (key_of o) i /\ (forall i c, at_index l i c -> holds base q i c) /\ 1 <= i < 65535.
Proof.
  intros Hi HP [He _ (l & Hb & Hl)]. assert (Hm : meaning l (key_of o) i).
  { apply (built_keys _ _ _ Hb). apply (lt_keys _ _ HP). apply Hi. apply (lt_err _ _ HP), He. }
  exists l. split_and!; auto; destruct (meaning_at _ _ _ Hm) as [c Hc]; pose proof (at_index_range _ _ _ _ _ Hb Hc); lia.
Qed.

Lemma written_index p o i : interned p o i -> written p u2 (be2 i) i.
Proof.
  intros Hi P q HP Hq. destruct (interned_meaning _ _ _ _ _ Hi HP Hq) as (_ & _ & _ & Hr).
  apply (written_u2 p i ltac:(lia) P q HP Hq).
Qed.

Lemma written_utf8 p s i : interned p (IUTF8 s) i -> written p (utf8 i) [] (clean s).
Proof.
  intros Hi. apply written_lk; [apply _|]. intros P q HP Hq. destruct (interned_meaning _ _ _ _ _ Hi HP Hq) as (l & Hm & Hl & _).
  eapply ans_UTF8; [apply Hq|]. apply Hl, Hm.
Qed.

Lemma written_class p s i : interned p (IClass s) i -> written p (class i) [] (clean s).
Proof.
  intros Hi. apply written_lk; [apply _|]. intros P q HP Hq. destruct (interned_meaning _ _ _ _ _ Hi HP Hq) as (l & (n & H1 & H2) & Hl & _).
  eapply ans_Class; [apply Hq|apply Hl, H1|apply Hl, H2].
Qed.

(** An index and what it names. *)
Lemma written_name p s i : interned p (IUTF8 s) i -> written p (i ← u2; utf8 i) (be2 i) (clean s).
Proof. intros Hi. rewrite <- (app_nil_r (be2 i)). eapply written_bind; [eapply written_index, Hi|apply written_utf8, Hi]. Qed.
Lemma written_class_name p s i : interned p (IClass s) i -> written p (i ← u2; class i) (be2 i) (clean s).
Proof. intros Hi. rewrite <- (app_nil_r (be2 i)). eapply written_bind; [eapply written_index, Hi|apply written_class, Hi]. Qed.

(** The constant a field was given, as the reader answers it. *)
Definition const_of (o : iop) : Const :=
  match o with
  | IString s => strConst TagString (clean s)
  | IInt x => numConst TagInteger (u32 x)
  | ILong x => numConst TagLong (u64 x)
  | IFloat x => numConst TagFloat x
  | IDouble x => numConst TagDouble x
  | _ => strConst 0 []
  end.

Lemma written_const p v o i : field_iop o = true -> plain_iop o -> interned p o i ->
  written p (lk (PoolConst i v)) [] (const_of o) /\ field_constant (CTag (const_of o)) = true.
Proof.
  intros Hf Ho Hi. split; [|destruct o; try discriminate; reflexivity]. apply written_lk; [apply _|]. intros P q HP Hq.
  destruct (interned_meaning _ _ _ _ _ Hi HP Hq) as (l & Hm & Hl & _). pose proof (fin_good _ _ Hq) as Hg.
  destruct o; try discriminate; cbn [key_of meaning const_of] in *.
  - destruct Hm as (n & H1 & H2). eapply ans_String; eauto.
  - apply (ans_num base); auto.
  - apply (ans_wide base); auto.
  - apply (ans_num base); auto.
  - apply (ans_wide base); auto.
Qed.

(** ** Attribute tables *)

Section Attributes.
Context (v : Version) (p : PoolBuilder).

(** One attribute of a table: its name, its length, its body. *)
Definition attr_written (t : Z -> DM Attrs) (loc : Z) (x : bytes) (a : Attr) : Prop :=
  exists name i body, x = be2 i ++ be4 (len body) ++ body /\ interned p (IUTF8 name) i /\ clean name = name /\
    len body < 2 ^ 32 /\ written p (attribute v DefaultMode t name body loc) [] (Some a).

Lemma written_attr_rows t loc xs l :
  Forall2 (attr_written t loc) xs l -> written p (attr_rows v DefaultMode t (length l) loc) (concat xs) l.
Proof.
  induction 1 as [|x a xs l (name & i & body & -> & Hi & Hc & Hb & Ha) _ IH]; cbn [attr_rows length concat]; [apply written_ret|].
  eapply written_bind0; [apply written_done|]. cbn beta iota. rewrite <- !app_assoc. eapply written_bind; [eapply written_index, Hi|].
  eapply written_bind; [apply written_u4; pose proof (len_nonneg body); lia|].
  eapply written_bind0; [apply written_done|]. cbn beta iota. eapply written_bind0; [apply written_utf8, Hi|]. rewrite Hc.
  eapply written_bind; [apply written_bytes|]. eapply written_bind0; [apply written_done|]. cbn beta iota.
  eapply written_bind0; [exact Ha|]. apply (written_fmap p _ (cons a)), IH.
Qed.

Lemma written_attributes depth loc xs l :
  Forall2 (attr_written (attributes v DefaultMode depth) loc) xs l -> len l < 65536 ->
  written p (attributes v DefaultMode (S depth) loc) (be2 (len l) ++ concat xs) l.
Proof.
  intros H Hl. cbn [attributes]. eapply written_bind; [apply written_u2; pose proof (len_nonneg l); lia|].
  rewrite <- (app_nil_r (concat xs)). eapply written_bind; [|apply written_sticky].
  unfold len. rewrite Nat2Z.id. apply written_attr_rows, H.
Qed.

Hypothesis Hv : 45 <= Major v.

Lemma since45 : AtLeast v 45 = true.
Proof. unfold AtLeast. apply Z.leb_le, Hv. Qed.

(** [attr_case body] reduces [attribute] at a name to the case [body]. *)
Ltac attr_case rhs :=
  match goal with |- written _ (attribute _ _ ?t (bs ?n) ?b ?loc) _ _ =>
    change (attribute v DefaultMode t (bs n) b loc) with (if negb (AtLeast v 45) then mret (Some (Raw (bs n) b)) else rhs)
  end; rewrite since45; cbn [negb].

Lemma written_SourceFile t s i : interned p (IUTF8 s) i ->
  written p (attribute v DefaultMode t (bs "SourceFile") (be2 i) locClass) [] (Some (SourceFile (clean s))).
Proof.
  intros Hi. attr_case (whole (be2 i) (i ← u2; v ← utf8 i; mret (Some (SourceFile v)))). apply written_whole.
  rewrite <- (app_nil_r (be2 i)). eapply written_bind; [eapply written_index, Hi|].
  apply (written_fmap p _ (fun v => Some (SourceFile v))), written_utf8, Hi.
Qed.

(** Signatures came with class file 49; before, the reader keeps one raw. *)
Definition signature_attr (s body : bytes) : Attr := if AtLeast v 49 then Signature s else Raw (bs "Signature") body.

Lemma written_Signature t loc s i : loc = locField \/ loc = locMethod -> interned p (IUTF8 s) i ->
  written p (attribute v DefaultMode t (bs "Signature") (be2 i) loc) [] (Some (signature_attr (clean s) (be2 i))).
Proof.
  intros Hl Hi. unfold signature_attr.
  assert (E : attribute v DefaultMode t (bs "Signature") (be2 i) loc =
    if negb (AtLeast v 49) then mret (Some (Raw (bs "Signature") (be2 i)))
    else whole (be2 i) (i ← u2; v ← utf8 i; mret (Some (Signature v)))) by (destruct Hl as [-> | ->]; reflexivity).
  rewrite E. destruct (AtLeast v 49); cbn [negb]; [|apply written_ret]. apply written_whole.
  rewrite <- (app_nil_r (be2 i)). eapply written_bind; [eapply written_index, Hi|].
  apply (written_fmap p _ (fun v => Some (Signature v))), written_utf8, Hi.
Qed.

Lemma written_ConstantValue t o i : field_iop o = true -> plain_iop o -> interned p o i ->
  written p (attribute v DefaultMode t (bs "ConstantValue") (be2 i) locField) [] (Some (ConstantValue (const_of o))).
Proof.
  intros Hf Ho Hi. destruct (written_const p v o i Hf Ho Hi) as [Hc Ht].
  attr_case (v ← constantValue v (be2 i); mret (Some v) : DM (option Attr)).
  apply (written_fmap p _ Some). unfold constantValue. apply written_sub. rewrite <- (app_nil_r (be2 i)).
  eapply wholly_bind; [eapply written_index, Hi|]. eapply wholly_bind0; [exact Hc|]. cbn beta. rewrite Ht. apply wholly_orErr.
Qed.

Lemma written_classList is_ ss : Forall2 (fun i s => interned p (IClass s) i) is_ ss -> len ss < 65536 ->
  written p classList (be2 (len ss) ++ concat (map be2 is_)) (map clean ss).
Proof.
  intros H Hl. unfold classList. eapply written_bind; [apply written_u2; pose proof (len_nonneg ss); lia|].
  assert (E : Z.to_nat (len ss) = length (map clean ss)) by (rewrite length_map; unfold len; lia). rewrite E.
  apply written_rows. apply Forall2_fmap. eapply Forall2_impl; [exact H|]. intros i s. apply written_class_name.
Qed.

Lemma written_Exceptions t is_ ss : Forall2 (fun i s => interned p (IClass s) i) is_ ss -> len ss < 65536 ->
  written p (attribute v DefaultMode t (bs "Exceptions") (be2 (len ss) ++ concat (map be2 is_)) locMethod) []
    (Some (Exceptions (map clean ss))).
Proof.
  intros H Hl. attr_case (whole (be2 (len ss) ++ concat (map be2 is_)) (l ← classList; mret (Some (Exceptions l)))).
  apply written_whole. apply (written_fmap p _ (fun l => Some (Exceptions l))), written_classList; auto.
Qed.
End Attributes.
