(* ===== verification/ClassEmit.v ===== *)
(** * What the builder emits is what the reader reads

    For a field, a method and the class, and the tables in them: what the
    emitting function appends is read back by the decoder's function for it, to
    the value the client asked for. *)
From S2P Require Import Prelude.
From S2P Require Import Desc.
From S2P Require Import Format.
From S2P Require Import ClassIO.
From S2P Require Import Pool.
From S2P Require Import PoolBuilder.
From S2P Require Import CodeWriter.
From S2P Require Import CodeProof.
From S2P Require Import CodeFrame.
From S2P Require Import Builder.
From S2P Require Import MethodProof.
From S2P Require Import MethodStack.
From S2P Require Import PoolLater.
From S2P Require Import ClassSpec.
From S2P Require Attrs.
From S2P Require Import Decoder.
From S2P Require Import ClassRead.

(** ** What is expected *)

(** A Signature is understood from class file 49 on. *)
Definition signature_of (v : Version) (s : bytes) : bytes := if AtLeast v 49 then clean s else [].

Definition named (name : bytes) (present : bool) : list bytes := if present then [name] else [].
Definition given (s : bytes) : bool := negb (bool_decide (s = [])).

Record field_matches (v : Version) (a : AField) (f : Attrs.Field) : Prop := {
  fm_flags : Attrs.FFlags f = afFlags a;
  fm_name : Attrs.FName f = clean (afName a);
  fm_desc : Attrs.FDescriptor f = clean (afDesc a);
  fm_const : Attrs.FConstantValue f = const_of <$> afConst a;
  fm_sig : Attrs.FSignature f = if given (afSig a) then signature_of v (afSig a) else [];
  fm_rest : Attrs.FDeprecated f = false /\ Attrs.FSynthetic f = false /\
    map Attrs.AttrName (Attrs.FAttrs f) =
      named (bs "ConstantValue") (match afConst a with Some _ => true | None => false end) ++ named (bs "Signature") (given (afSig a)) }.

(** ** Emitting an attribute *)

(** [attr_utf8] appends one attribute whose body satisfies [Q]. *)
Lemma attr_utf8_out (Q : bytes -> PoolBuilder -> Prop) name body w p w' p' :
  bytes_ok name ->
  (forall w1 p1 w2 p2, Later p p1 -> body w1 p1 = Some (w2, p2) -> exists y, w2 = w1 ++ y /\ Later p1 p2 /\ Q y p2) ->
  attr_utf8 name body w p = Some (w', p') ->
  exists i y, w' = w ++ be2 i ++ be4 (u32 (len y)) ++ y /\ Later p p' /\ interned p' (IUTF8 name) i /\ Q y p'.
Proof.
  intros Hn Hb. unfold attr_utf8. destruct (UTF8 name p) as [i p1] eqn:Ei.
  destruct (Later_intern (IUTF8 name) _ _ _ Hn Ei) as [L1 I1]. intros E. pose proof E as E0.
  unfold attr, wU2, wU4 in E. cbv zeta in E. rewrite <- app_assoc in E. destruct (body _ p1) as [[w2 p2]|] eqn:Eb; [|discriminate].
  destruct (Hb _ _ _ _ L1 Eb) as (y & -> & L2 & HQ). rewrite (attr_appends i body w y p1 p2 Eb) in E0. injection E0 as <- <-.
  exists i, y. split_and!; auto; [etransitivity; eauto|eapply interned_later; eauto].
Qed.

(** A body that only appends [y]. *)
Lemma attr_utf8_body name y body w p w' p' :
  bytes_ok name -> (forall w p, body w p = Some (w ++ y, p)) -> attr_utf8 name body w p = Some (w', p') ->
  exists i, w' = w ++ be2 i ++ be4 (u32 (len y)) ++ y /\ Later p p' /\ interned p' (IUTF8 name) i.
Proof.
  intros Hn Hb E. destruct (attr_utf8_out (fun y' _ => y' = y) name body w p w' p' Hn) as (i & y' & H1 & H2 & H3 & ->);
    [|exact E|eauto]. intros w1 p1 w2 p2 _. rewrite Hb. intros [= <- <-]. exists y. split_and!; reflexivity.
Qed.
Lemma attr_utf8_plain name y w p w' p' :
  bytes_ok name -> attr_utf8 name (fun w p => Some (w ++ y, p)) w p = Some (w', p') ->
  exists i, w' = w ++ be2 i ++ be4 (u32 (len y)) ++ y /\ Later p p' /\ interned p' (IUTF8 name) i.
Proof. intros Hn. apply attr_utf8_body; auto. Qed.

(** [piece], an attribute that may be there: its bytes and what it reads as. *)
Definition piece (v : Version) (p : PoolBuilder) (t : Z -> DM Attrs.Attrs) (loc : Z) (x : bytes) (l : list Attrs.Attr) : Prop :=
  len x < 2 ^ 32 -> exists xs, x = concat xs /\ Forall2 (attr_written v p t loc) xs l.

Lemma attr_written_later v p p' t loc x a : Later p p' -> attr_written v p t loc x a -> attr_written v p' t loc x a.
Proof.
  intros H (name & i & body & H1 & H2 & H3 & H4 & H5). exists name, i, body. split_and!; auto.
  - eapply interned_later; eauto.
  - eapply written_later; eauto.
Qed.

Lemma piece_later v p p' t loc x l : Later p p' -> piece v p t loc x l -> piece v p' t loc x l.
Proof.
  intros H Hp Hl. destruct (Hp Hl) as (xs & -> & HF). exists xs. split; [reflexivity|]. eapply Forall2_impl; [exact HF|].
  intros. eapply attr_written_later; eauto.
Qed.

Lemma piece_nil v p t loc : piece v p t loc [] [].
Proof. intros _. exists []. split; [reflexivity|constructor]. Qed.

Lemma piece_app v p t loc x l x' l' : piece v p t loc x l -> piece v p t loc x' l' -> piece v p t loc (x ++ x') (l ++ l').
Proof.
  intros H1 H2 Hl. rewrite len_app in Hl. pose proof (len_nonneg x). pose proof (len_nonneg x').
  destruct H1 as (xs & -> & F1); [lia|]. destruct H2 as (xs' & -> & F2); [lia|].
  exists (xs ++ xs'). rewrite concat_app. split; [reflexivity|apply Forall2_app; auto].
Qed.

Lemma piece_one v p t loc name i y a :
  interned p (IUTF8 name) i -> clean name = name ->
  (len y < 2 ^ 32 -> written p (attribute v DefaultMode t name y loc) [] (Some a)) ->
  piece v p t loc (be2 i ++ be4 (u32 (len y)) ++ y) [a].
Proof.
  intros Hi Hc Ha Hl. assert (Hy : len y < 2 ^ 32) by (autorewrite with mocha in Hl; lia).
  pose proof (len_nonneg y). rewrite u32_id by lia.
  exists [be2 i ++ be4 (len y) ++ y]. cbn [concat]. rewrite app_nil_r. split; [reflexivity|]. constructor; [|constructor].
  exists name, i, y. split_and!; auto.
Qed.

(** A table of attributes. *)
Lemma piece_table v p depth loc x l :
  piece v p (attributes v DefaultMode depth) loc x l -> len x < 2 ^ 32 -> len l < 65536 ->
  written p (attributes v DefaultMode (S depth) loc) (be2 (len l) ++ x) l.
Proof. intros H Hx Hl. destruct (H Hx) as (xs & -> & HF). apply written_attributes; auto. Qed.

(** ** Fields *)

Definition pool_ok (p : PoolBuilder) : Prop := perr p = None -> exists l, built base p l.

Lemma pool_ok_later p p' : Later p p' -> pool_ok p -> pool_ok p'.
Proof. intros H Hp. exact (built_later _ _ H Hp). Qed.

Lemma interned_pos p o i : pool_ok p -> perr p = None -> interned p o i -> 1 <= i < 65535.
Proof.
  intros Hp He Hi. destruct (Hp He) as (l & Hb). destruct (meaning_at _ _ _ (built_keys _ _ _ Hb _ _ (Hi He))) as [c Hc].
  eapply at_index_range; eauto.
Qed.

Ltac intern_step s Hs :=
  match goal with
  | E : context [UTF8 s ?p] |- _ =>
      let i := fresh "i" in let p1 := fresh "p" in let Ei := fresh "Ei" in
      destruct (UTF8 s p) as [i p1] eqn:Ei;
      let L := fresh "L" in let I := fresh "I" in
      destruct (Later_intern (IUTF8 s) p i p1 Hs Ei) as [L I]; clear Ei
  end.

(** The optional Signature attribute. *)
Lemma signature_out v t loc s w p w' p' :
  45 <= Major v -> loc = locField \/ loc = locMethod -> bytes_ok s ->
  (if given s then let '(i, p) := UTF8 s p in attr_utf8 (bs "Signature") (fun w p => Some (wU2 i w, p)) w p else Some (w, p)) = Some (w', p') ->
  exists y l, w' = w ++ y /\ Later p p' /\ piece v p' t loc y l /\
    ((given s = false /\ l = []) \/ (given s = true /\ exists b, l = [signature_attr v (clean s) b])).
Proof.
  intros Hv Hl Hs. destruct (given s); [|intros [= <- <-]; exists [], []; rewrite app_nil_r; split_and!; auto using piece_nil; reflexivity].
  intros E. intern_step s Hs. destruct (attr_utf8_plain (bs "Signature") (be2 i) w p0 w' p') as (n & -> & L2 & I2); [apply bytes_ok_dec; reflexivity|exact E|].
  eexists _, _. split_and!; [reflexivity|etransitivity; eauto| |right; split; [reflexivity|eexists; reflexivity]].
  apply piece_one with (name := bs "Signature"); [exact I2|reflexivity|]. intros _. apply (written_later p0 p'); [exact L2|].
  apply written_Signature; auto.
Qed.

Lemma AttrName_signature v s b : Attrs.AttrName (signature_attr v s b) = bs "Signature".
Proof. unfold signature_attr. destruct (AtLeast v 49); reflexivity. Qed.

(** The optional ConstantValue attribute. *)
Lemma constant_out v t f a w p w' p' :
  45 <= Major v -> pool_ok p -> field_rep p f a ->
  (if negb (fconstant f =? 0) then attr_utf8 (bs "ConstantValue") (fun w p => Some (wU2 (fconstant f) w, p)) w p else Some (w, p)) =
    Some (w', p') ->
  exists y, w' = w ++ y /\ Later p p' /\
    (perr p' = None -> exists l, piece v p' t locField y l /\
      l = match afConst a with Some o => [Attrs.ConstantValue (const_of o)] | None => [] end /\
      Z.b2z (negb (fconstant f =? 0)) = len l).
Proof.
  intros Hv Hp [_ _ Hc]. destruct (fconstant f =? 0) eqn:E0; cbn [negb]; intros E; to_Z.
  - injection E as <- <-. exists []. rewrite app_nil_r. split_and!; auto; [reflexivity|]. intros He. destruct (afConst a) as [o|].
    + destruct Hc as (_ & _ & Hi). pose proof (interned_pos p o _ Hp He Hi). lia.
    + exists []. split_and!; auto using piece_nil.
  - destruct (attr_utf8_plain (bs "ConstantValue") (be2 (fconstant f)) w p w' p') as (n & -> & L1 & I1); [apply bytes_ok_dec; reflexivity|exact E|].
    eexists. split_and!; [reflexivity|exact L1|]. intros _. destruct (afConst a) as [o|]; [|congruence]. destruct Hc as (Hf & Hpl & Hi).
    eexists. split_and!; [|reflexivity|reflexivity].
    apply piece_one with (name := bs "ConstantValue"); [exact I1|reflexivity|]. intros _. apply written_ConstantValue; auto.
    eapply interned_later; eauto.
Qed.

(** A member up to its attribute table. *)
Lemma written_head p {A} (k : Z -> bytes -> bytes -> DM A) fl i n j d x g :
  u16_ok fl -> interned p (IUTF8 n) i -> interned p (IUTF8 d) j -> written p (k fl (clean n) (clean d)) x g ->
  written p (flags ← u2; i ← u2; name ← utf8 i; j ← u2; descriptor ← utf8 j; k flags name descriptor) (be2 fl ++ be2 i ++ be2 j ++ x) g.
Proof.
  intros Hf Hi Hj Hk. eapply written_bind; [apply written_u2, Hf|]. eapply written_bind; [eapply written_index, Hi|].
  eapply written_bind0; [apply written_utf8, Hi|]. eapply written_bind; [eapply written_index, Hj|].
  eapply written_bind0; [apply written_utf8, Hj|]. exact Hk.
Qed.

Lemma emitField_out v f a w p w' p' :
  45 <= Major v -> pool_ok p -> field_rep p f a -> emitField w f p = Some (w', p') ->
  exists x, w' = w ++ x /\ Later p p' /\
    (perr p' = None -> exists g, (len x < 2 ^ 32 -> written p' (member v DefaultMode locField) x g) /\ field_matches v a g).
Proof.
  intros Hv Hp Hr. pose proof Hr as [(S1 & S2 & S3 & S4) (O1 & O2 & O3 & O4) _]. unfold emitField. rewrite S1, S2, S3, S4.
  cbv zeta. intros E. intern_step (afName a) O2. intern_step (afDesc a) O3.
  match type of E with (?m ≫= _) = _ => destruct m as [[at1 p2]|] eqn:E1; [|discriminate] end. cbn [mbind option_bind] in E.
  match type of E with (?m ≫= _) = _ => destruct m as [[at2 p3]|] eqn:E2; [|discriminate] end. cbn [mbind option_bind] in E.
  injection E as <- <-. set (t := attributes v DefaultMode 1).
  destruct (signature_out v t locField (afSig a) at1 p2 at2 p3 Hv ltac:(auto) O4 E2) as (y2 & l2 & -> & L2 & P2 & Hl2).
  assert (L01 : Later p p1) by (etransitivity; eauto).
  destruct (constant_out v t f a _ p1 at1 p2 Hv (pool_ok_later _ _ L01 Hp) (field_rep_later _ _ _ _ L01 Hr) E1)
    as (y1 & -> & L1 & H1).
  assert (Hn2 : Z.b2z (given (afSig a)) = len l2) by (destruct Hl2 as [[-> ->]|[-> (b & ->)]]; reflexivity).
  eexists. split_and!.
  { unfold wU2, wRaw. rewrite <- !app_assoc. cbn [app]. reflexivity. }
  { etransitivity; [exact L01|]. etransitivity; eauto. }
  intros He. destruct (H1 (lt_err _ _ L2 He)) as (l1 & P1 & El1 & Hn1).
  exists (foldl Attrs.hoist_field (Attrs.mkField (afFlags a) (clean (afName a)) (clean (afDesc a)) (l1 ++ l2) None [] false false) (l1 ++ l2)).
  split.
  - assert (L13 : Later p1 p3) by (etransitivity; eauto). rewrite u16_id by exact O1. intros Hlen.
    apply (written_head p3 (fun fl n d => attrs ← attributes v DefaultMode maxDepth locField;
      mret (foldl Attrs.hoist_field (Attrs.mkField fl n d attrs None [] false false) attrs)) _ _ (afName a) _ (afDesc a)); [exact O1| | |].
    + eapply interned_later; [|exact I]. etransitivity; eauto.
    + eapply interned_later; [exact L13|exact I0].
    + apply (written_fmap p3 _ (fun attrs => foldl Attrs.hoist_field (Attrs.mkField _ _ _ attrs None [] false false) attrs)).
      change (negb (bool_decide (afSig a = []))) with (given (afSig a)) in *. rewrite Hn1, Hn2, <- len_app.
      assert (Hl : len (l1 ++ l2) <= 2) by (rewrite len_app, <- Hn1, <- Hn2; destruct (negb _), (given _); cbn; lia).
      pose proof (len_nonneg (l1 ++ l2)). rewrite u16_id by lia.
      apply piece_table; [|autorewrite with mocha in *; lia|lia].
      apply piece_app; [exact (piece_later _ _ _ _ _ _ _ L2 P1)|exact P2].
  - subst l1. destruct (afConst a) as [o|] eqn:Ea, Hl2 as [[Hg ->]|[Hg (b & ->)]]; unfold signature_attr; try destruct (AtLeast v 49) eqn:Ev;
      split; cbn; unfold signature_of; rewrite ?Ea, ?Hg, ?Ev; auto.
Qed.
