(* ===== verification/ClassCode.v ===== *)
(** * The Code attribute, written and read back

    The code array, the exception table and the tables of lines and locals of a
    method, as the builder emits them and the decoder reads them. *)
From S2P Require Import Prelude.
From S2P Require Import Desc.
From S2P Require Import Op.
From S2P Require Import Format.
From S2P Require Import ClassIO.
From S2P Require Import Pool.
From S2P Require Import PoolBuilder.
From S2P Require Import CodeWriter.
From S2P Require Import CodeProof.
From S2P Require Import CodeCorrect.
From S2P Require Import CodeFrame.
From S2P Require Import Builder.
From S2P Require Import MethodProof.
From S2P Require Import MethodStack.
From S2P Require Import PoolLater.
From S2P Require Import ClassSpec.
From S2P Require Attrs.
From S2P Require Import Decoder.
From S2P Require Import ClassRead.
From S2P Require Import ClassEmit.

(** ** What a pass leaves in the tables *)

Definition line_ok (l : LineNumber) : Prop := u16_ok (StartPC l) /\ u16_ok (LineNo l).
Definition local_ok (l : localRec) : Prop := bytes_ok (lname l) /\ bytes_ok (ldesc l).
Definition var_ok (l : LocalVariable) : Prop :=
  u16_ok (LVStart l) /\ u16_ok (LVLength l) /\ u16_ok (LVSlot l) /\ bytes_ok (LVName l) /\ bytes_ok (LVDescriptor l).

Lemma u16_is_ok x : u16_ok (u16 x).
Proof. apply u16_range. Qed.

Definition tables_ok (n : Z) (c : CodeWriter) : Prop :=
  Forall line_ok (lines c) /\ Forall local_ok (locals c) /\ len (lines c) <= n /\ len (locals c) <= n.

Lemma tables_step x c c' n : args_ok x -> run_cmd x c = Some c' -> tables_ok n c -> tables_ok (n + 1) c'.
Proof.
  intros Hx E (H1 & H2 & H3 & H4). apply meta_run_cmd in E.
  assert (El : lines c' = snd (fst (meta_after x c))) by (rewrite <- E; reflexivity).
  assert (Eo : locals c' = snd (meta_after x c)) by (rewrite <- E; reflexivity). clear E.
  assert (Hsame : lines c' = lines c -> locals c' = locals c -> tables_ok (n + 1) c')
    by (intros E1 E2; unfold tables_ok; rewrite E1, E2; split_and!; auto; lia).
  destruct x; cbn [meta_after fst snd meta] in El, Eo; auto.
  - destruct (ParseField descriptor); [|auto]. destruct ((slot <? 0) || _); cbn in El, Eo; [auto|].
    unfold tables_ok. rewrite El, Eo, Forall_app, len_app. change (len [_]) with 1. destruct Hx as [_ Hx].
    split_and!; auto; try lia; constructor; first [exact Hx|constructor].
  - unfold tables_ok. rewrite El, Eo, Forall_app, len_app. change (len [_]) with 1.
    split_and!; auto; try lia; constructor; first [split; apply u16_is_ok|constructor].
Qed.

Lemma tables_run body c c' n : Forall args_ok body -> run body c = Some c' -> tables_ok n c -> tables_ok (n + len body) c'.
Proof.
  intros Ha. revert c n. induction Ha as [|x body Hx _ IH]; intros c n E H; cbn in E.
  - injection E as <-. rewrite len_nil, Z.add_0_r. exact H.
  - destruct (run_cmd x c) as [c1|] eqn:E1; [|discriminate]. cbn in E. rewrite len_cons.
    replace (n + (1 + len body)) with (n + 1 + len body) by lia. eapply IH; [exact E|]. eapply tables_step; eauto.
Qed.

Lemma local_rows_ok ls c rows c' : Forall local_ok ls -> local_rows ls c = Some (Some rows, c') ->
  Forall var_ok rows /\ len rows <= len ls.
Proof.
  intros H. revert rows c'. induction H as [|l ls [Hn Hd] _ IH]; intros rows c'; cbn [local_rows].
  - intros [= <- _]. split; [constructor|reflexivity].
  - destruct (labels c !! lstart l); [|discriminate]. cbn [mbind option_bind]. destruct (labels c !! lend l); [|discriminate].
    cbn [mbind option_bind]. bool_case; [discriminate|]. destruct (local_rows ls c) as [[[rows1|] c1]|]; cbn [mbind option_bind fst snd]; try discriminate.
    + destruct (IH rows1 c1 eq_refl) as [F1 L1]. rewrite len_cons. bool_case; intros [= <- _]; [split; [auto|lia]|].
      rewrite len_cons. split; [|lia]. constructor; [|exact F1]. split_and!; auto; apply u16_is_ok.
    + bool_case; discriminate.
Qed.

Lemma localRows_ok c rows c' : Forall local_ok (locals c) -> localRows c = Some (rows, c') ->
  Forall var_ok rows /\ len rows <= len (locals c).
Proof.
  intros H. unfold localRows. destruct (local_rows (locals c) c) as [[[rows1|] c1]|] eqn:E; [| |discriminate];
    cbn [mbind option_bind fst snd]; intros [= <- _]; [eapply local_rows_ok; eauto|].
  split; [constructor|]. rewrite len_nil. apply len_nonneg.
Qed.

(** What the tables of a method come to. *)
Lemma code_tables p m body : code_rep p m body ->
  Forall line_ok (mlines m) /\ Forall var_ok (mlocals m) /\ len (mlines m) <= len body /\ len (mlocals m) <= len body /\
  len (mhandlers m) <= len body /\ 0 < len (mcode m) <= 65535 /\ bytes_ok (mcode m).
Proof.
  intros (c0 & c & cr & Hf & Hp & Hl & _ & Hc & _ & _ & Hln & Hh & Hk & Ha).
  destruct (pass_run _ _ _ Hk Hf Hp) as (c1 & x & Hrun & Ec & Hw). destruct Hf as (pp & r & v & wd & n & ml & ->).
  destruct (tables_run body _ c1 0 Ha Hrun) as (T1 & T2 & T3 & T4); [split_and!; cbn; auto; reflexivity|].
  assert (E1 : lines c = lines c1) by (rewrite Ec; reflexivity). assert (E2 : locals c = locals c1) by (rewrite Ec; reflexivity).
  rewrite Hln, Hc, E1. destruct (localRows_ok c _ _ ltac:(rewrite E2; exact T2) Hl) as [F L]. rewrite E2 in L.
  destruct (pass_done _ _ _ Hp) as (_ & _ & _ & _ & _ & _ & Hlen & _). split_and!; auto; try lia.
  apply Forall2_length in Hh. unfold len. rewrite <- Hh. clear. induction body as [|x body IH]; cbn; [lia|].
  rewrite length_app. destruct x; cbn; lia.
Qed.

(** ** Appending rows *)

Lemma emit_u2s_app l w : emit_u2s l w = w ++ concat (map be2 l).
Proof.
  unfold emit_u2s. revert w. induction l as [|x l IH]; intros w; cbn; [rewrite app_nil_r; reflexivity|].
  rewrite IH. unfold wU2. rewrite <- app_assoc. reflexivity.
Qed.

Lemma emit_rows {A} (g : A -> list Z) l w :
  foldl (fun w a => emit_u2s (g a) w) w l = w ++ concat (map (fun a => concat (map be2 (g a))) l).
Proof.
  revert w. induction l as [|a l IH]; intros w; cbn; [rewrite app_nil_r; reflexivity|].
  rewrite IH, emit_u2s_app, <- app_assoc. reflexivity.
Qed.

(** The rows of the local variable table, their names interned. *)
Definition var_row (p : PoolBuilder) (lv : LocalVariable) (r : list Z) : Prop :=
  exists n d, r = [LVStart lv; LVLength lv; n; d; LVSlot lv] /\ interned p (IUTF8 (LVName lv)) n /\ interned p (IUTF8 (LVDescriptor lv)) d.

Lemma lv_rows_out l p rows p' : Forall var_ok l -> lv_rows l p = (rows, p') -> Later p p' /\ Forall2 (var_row p') l rows.
Proof.
  intros H. revert p rows p'. induction H as [|lv l (_ & _ & _ & Hn & Hd) _ IH]; intros p rows p'; cbn [lv_rows].
  { intros [= <- <-]. split; [reflexivity|constructor]. }
  destruct (UTF8 (LVName lv) p) as [n p1] eqn:E1. destruct (Later_intern (IUTF8 (LVName lv)) _ _ _ Hn E1) as [L1 I1].
  destruct (UTF8 (LVDescriptor lv) p1) as [d p2] eqn:E2. destruct (Later_intern (IUTF8 (LVDescriptor lv)) _ _ _ Hd E2) as [L2 I2].
  destruct (lv_rows l p2) as [rows1 p3] eqn:E3. destruct (IH _ _ _ E3) as [L3 F3]. intros [= <- <-].
  split; [etransitivity; [exact L1|]; etransitivity; eauto|]. constructor; [|exact F3]. exists n, d.
  split_and!; [reflexivity|eapply interned_later; [|exact I1]; etransitivity; eauto|eapply interned_later; eauto].
Qed.

Lemma class_list_out l p is_ p' : Forall bytes_ok l -> class_list l p = (is_, p') ->
  Later p p' /\ Forall2 (fun i s => interned p' (IClass s) i) is_ l.
Proof.
  intros H. revert p is_ p'. induction H as [|s l Hs _ IH]; intros p is_ p'; cbn [class_list].
  { intros [= <- <-]. split; [reflexivity|constructor]. }
  destruct (Class_ s p) as [i p1] eqn:E1. destruct (Later_intern (IClass s) _ _ _ Hs E1) as [L1 I1].
  destruct (class_list l p1) as [is1 p2] eqn:E2. destruct (IH _ _ _ E2) as [L2 F2]. intros [= <- <-].
  split; [etransitivity; eauto|]. constructor; [eapply interned_later; eauto|exact F2].
Qed.

(** ** Reading the rows back *)

Definition line_of (l : LineNumber) : Attrs.LineNumber := Attrs.mkLineNumber (StartPC l) (LineNo l).
Definition var_of (l : LocalVariable) : Attrs.LocalVariable :=
  Attrs.mkLocalVariable (LVStart l) (LVLength l) (clean (LVName l)) (clean (LVDescriptor l)) (LVSlot l).

(** A handler as the reader gives it. *)
Definition handler_matches (ls : list Label) (h : handlerRec) (e : Attrs.ExceptionHandler) : Prop :=
  e = Attrs.mkExceptionHandler (u16 (pc_of ls (hstart h))) (u16 (pc_of ls (hend h))) (u16 (pc_of ls (hhandler h))) (clean (catchType h)).

Section Rows.
Context (p : PoolBuilder).

Lemma written_line l : line_ok l -> written p lineNumber (concat (map be2 [StartPC l; LineNo l])) (line_of l).
Proof.
  intros [H1 H2]. unfold lineNumber. cbn [map concat]. rewrite app_nil_r. eapply written_bind; [apply written_u2, H1|].
  apply (written_fmap p _ (fun line => Attrs.mkLineNumber (StartPC l) line)), written_u2, H2.
Qed.

Lemma written_var l r : var_ok l -> var_row p l r -> written p localVar (concat (map be2 r)) (var_of l).
Proof.
  intros (H1 & H2 & H3 & _ & _) (n & d & -> & Hn & Hd). unfold localVar. cbn [map concat]. rewrite app_nil_r.
  eapply written_bind; [apply written_u2, H1|]. eapply written_bind; [apply written_u2, H2|].
  eapply written_bind; [eapply written_index, Hn|]. eapply written_bind0; [apply written_utf8, Hn|].
  eapply written_bind; [eapply written_index, Hd|]. eapply written_bind0; [apply written_utf8, Hd|].
  apply (written_fmap p _ (fun slot => Attrs.mkLocalVariable _ _ _ _ slot)), written_u2, H3.
Qed.

Definition row_bytes (r : encodedHandler) : bytes := concat (map be2 [ehStart r; ehEnd r; ehHandler r; ehCatch r]).

Lemma written_optClass s i : (s <> [] -> interned p (IClass s) i) -> (s = [] -> i = 0) -> written p (optClass i) [] (clean s).
Proof.
  intros H1 H2. destruct s as [|x s]; [rewrite H2 by reflexivity; apply written_ret|]. specialize (H1 ltac:(discriminate)).
  intros P q HP Hq. destruct (interned_meaning _ _ _ _ _ H1 HP Hq) as (_ & _ & _ & Hr). unfold optClass.
  rewrite (proj2 (Z.eqb_neq _ _)) by lia. exact (written_class p _ _ H1 P q HP Hq).
Qed.

Lemma written_handler ls h r : handler_row p ls h r ->
  exists e, written p handler (row_bytes r) e /\ handler_matches ls h e.
Proof.
  intros [(H1 & H2 & H3 & H4) Hc]. eexists. split; [|reflexivity]. unfold handler, row_bytes. cbn [map concat]. rewrite app_nil_r, H1, H2, H3.
  do 3 (eapply written_bind; [apply written_u2, u16_range|]). rewrite <- (app_nil_r (be2 (ehCatch r))). apply (written_bind _ _ _ _ _ (ehCatch r)).
  - destruct (catchType h) as [|x t]; [rewrite H4 by reflexivity; apply written_u2; lia|]. eapply written_index, Hc. discriminate.
  - apply (written_fmap p _ (fun c => Attrs.mkExceptionHandler _ _ _ c)), written_optClass; auto.
Qed.

Lemma written_handlers ls hs rs : Forall2 (handler_row p ls) hs rs ->
  exists es, written p (rows (length rs) handler) (concat (map row_bytes rs)) es /\ Forall2 (handler_matches ls) hs es.
Proof.
  intros H. assert (HF : exists es, Forall2 (fun x e => written p handler x e) (map row_bytes rs) es /\ Forall2 (handler_matches ls) hs es).
  { induction H as [|h r hs rs Hh _ (es & H1 & H2)]; [exists []; split; constructor|].
    destruct (written_handler _ _ _ Hh) as (e & ? & ?). exists (e :: es). split; constructor; auto. }
  destruct HF as (es & H1 & H2). exists es. split; [|exact H2]. pose proof (Forall2_length _ _ _ H1) as Hl. rewrite length_map in Hl.
  rewrite Hl. apply written_rows, H1.
Qed.

Context (v : Version) (Hv : 45 <= Major v).

Definition lines_bytes (l : list LineNumber) : bytes := be2 (len l) ++ concat (map (fun ln => concat (map be2 [StartPC ln; LineNo ln])) l).
Definition vars_bytes (rows : list (list Z)) : bytes := be2 (len rows) ++ concat (map (fun r => concat (map be2 r)) rows).

Lemma written_LineNumberTable t l : Forall line_ok l -> len l < 65536 ->
  written p (attribute v DefaultMode t (bs "LineNumberTable") (lines_bytes l) locCode) [] (Some (Attrs.LineNumberTable (map line_of l))).
Proof.
  intros H Hl.
  change (attribute v DefaultMode t (bs "LineNumberTable") (lines_bytes l) locCode) with
    (if negb (AtLeast v 45) then mret (Some (Attrs.Raw (bs "LineNumberTable") (lines_bytes l)))
     else whole (lines_bytes l) (n ← u2; l ← rows (Z.to_nat n) lineNumber; mret (Some (Attrs.LineNumberTable l))) : DM (option Attrs.Attr)).
  rewrite since45 by exact Hv. cbn [negb]. apply written_whole. unfold lines_bytes.
  eapply written_bind; [apply written_u2; pose proof (len_nonneg l); lia|].
  assert (E : Z.to_nat (len l) = length (map line_of l)) by (rewrite length_map; unfold len; lia). rewrite E.
  apply (written_fmap p _ (fun l => Some (Attrs.LineNumberTable l))), written_rows.
  induction H as [|x l Hx _ IH]; constructor; [apply written_line, Hx|]. apply IH.
  - rewrite len_cons in Hl. lia.
  - rewrite length_map. unfold len. lia.
Qed.

Lemma written_LocalVariableTable t l rs : Forall var_ok l -> Forall2 (var_row p) l rs -> len rs < 65536 ->
  written p (attribute v DefaultMode t (bs "LocalVariableTable") (vars_bytes rs) locCode) [] (Some (Attrs.LocalVariableTable (map var_of l))).
Proof.
  intros H Hr Hl.
  change (attribute v DefaultMode t (bs "LocalVariableTable") (vars_bytes rs) locCode) with
    (if negb (AtLeast v 45) then mret (Some (Attrs.Raw (bs "LocalVariableTable") (vars_bytes rs)))
     else whole (vars_bytes rs) (vars ← localVars; mret (Some (Attrs.LocalVariableTable vars))) : DM (option Attrs.Attr)).
  rewrite since45 by exact Hv. cbn [negb]. apply written_whole. apply (written_fmap p _ (fun l => Some (Attrs.LocalVariableTable l))).
  unfold localVars, vars_bytes. eapply written_bind; [apply written_u2; pose proof (len_nonneg rs); lia|].
  assert (E : Z.to_nat (len rs) = length (map var_of l)) by (rewrite length_map, (Forall2_length _ _ _ Hr); unfold len; lia). rewrite E.
  apply written_rows. clear Hl E. revert H. induction Hr as [|x r l rs Hx _ IH]; intros H; [constructor|].
  apply Forall_cons in H as [H1 H2]. constructor; [apply written_var; auto|auto].
Qed.

(** The Code attribute from its parts. *)
Lemma written_code ms ml b rs es x l :
  u16_ok ms -> u16_ok ml -> 0 < len b <= 65535 -> len rs < 65536 ->
  written p (rows (length rs) handler) (concat (map row_bytes rs)) es ->
  written p (attributes v DefaultMode 1 locCode) x l ->
  wholly p (code (attributes v DefaultMode 1)) (be2 ms ++ be2 ml ++ be4 (len b) ++ b ++ be2 (len rs) ++ concat (map row_bytes rs) ++ x)
    (foldl Attrs.hoist_code (Attrs.mkCode ms ml b es l None None) l).
Proof.
  intros H1 H2 Hb Hr He Hx. unfold code. eapply wholly_bind; [apply written_u2, H1|]. eapply wholly_bind; [apply written_u2, H2|].
  eapply wholly_bind; [apply written_u4; lia|]. decide_tests. eapply wholly_bind; [apply written_bytes|].
  eapply wholly_bind; [apply written_u2; pose proof (len_nonneg rs); lia|]. unfold len at 1. rewrite Nat2Z.id.
  eapply wholly_bind; [exact He|]. rewrite <- (app_nil_r x). eapply wholly_bind; [exact Hx|]. apply wholly_orErr.
Qed.
End Rows.

(** ** The body of the attribute *)

(** A table that is written only when it has rows. *)
Definition optional {A} (l : list A) (a : list A -> Attrs.Attr) : list Attrs.Attr := match l with [] => [] | _ => [a l] end.

(** The code the reader gives for a body: the work of one pass over it, with
    its handlers, its lines and its locals. *)
Definition code_matches (body : list cmd) (k : Attrs.Code) : Prop :=
  exists c0 c vars cr es, fresh c0 /\ one_pass body c0 = Some (PDone c) /\ localRows c = Some (vars, cr) /\ err cr = None /\
    Forall2 (handler_matches (labels c)) (flat_map try_of body) es /\
    k = Attrs.mkCode (u16 (maxStack c)) (u16 (maxLocals c)) (w c) es
          (optional (map line_of (lines c)) Attrs.LineNumberTable ++ optional (map var_of vars) Attrs.LocalVariableTable)
          (match lines c with [] => None | _ => Some (map line_of (lines c)) end) None.

Lemma optional_out {A B} (g : list A -> Attrs.Attr) name (rows : list B) (l : list A) y v loc t body w p w' p' :
  (if 0 <? len rows then attr_utf8 (bs name) body w p else Some (w, p)) = Some (w', p') ->
  bytes_ok (bs name) -> length l = length rows -> (forall w p, body w p = Some (w ++ y, p)) ->
  (forall p1, Later p p1 -> written p1 (attribute v DefaultMode t (bs name) y loc) [] (Some (g l))) -> clean (bs name) = bs name ->
  exists x, w' = w ++ x /\ Later p p' /\ piece v p' t loc x (optional l g) /\ Z.b2z (0 <? len rows) = len (optional l g).
Proof.
  intros E Hn Hl Hb Hw Hc. destruct rows as [|r rows], l as [|a l]; try discriminate.
  - cbn in E. injection E as <- <-. exists []. rewrite app_nil_r. split_and!; auto using piece_nil; reflexivity.
  - change (0 <? len (r :: rows)) with true in E. destruct (attr_utf8_body (bs name) y body w p w' p' Hn Hb E) as (i & -> & L & I).
    eexists. split_and!; [reflexivity|exact L| |reflexivity]. apply piece_one with (name := bs name); auto.
Qed.

Lemma lines_body l w : len l < 65536 ->
  foldl (fun w ln => emit_u2s [StartPC ln; LineNo ln] w) (wU2 (u16 (len l)) w) l = w ++ lines_bytes l.
Proof.
  intros Hl. rewrite (emit_rows (fun ln => [StartPC ln; LineNo ln])). unfold wU2, lines_bytes.
  rewrite u16_id by (pose proof (len_nonneg l); lia). rewrite <- app_assoc. reflexivity.
Qed.

Lemma vars_body rows w : len rows < 65536 ->
  foldl (fun w r => emit_u2s r w) (wU2 (u16 (len rows)) w) rows = w ++ vars_bytes rows.
Proof.
  intros Hl. rewrite (emit_rows (fun r => r)). unfold wU2, vars_bytes.
  rewrite u16_id by (pose proof (len_nonneg rows); lia). rewrite <- app_assoc. reflexivity.
Qed.

Lemma hoist_tables ms ml b es l1 l2 :
  foldl Attrs.hoist_code (Attrs.mkCode ms ml b es (optional l1 Attrs.LineNumberTable ++ optional l2 Attrs.LocalVariableTable) None None)
    (optional l1 Attrs.LineNumberTable ++ optional l2 Attrs.LocalVariableTable) =
  Attrs.mkCode ms ml b es (optional l1 Attrs.LineNumberTable ++ optional l2 Attrs.LocalVariableTable)
    (match l1 with [] => None | _ => Some l1 end) None.
Proof. destruct l1, l2; reflexivity. Qed.

Lemma emit_code_out v m body rows w p w' p' :
  45 <= Major v -> code_rep p m body -> Forall2 (var_row p) (mlocals m) rows -> len body < 65536 ->
  emit_code m rows w p = Some (w', p') ->
  exists y k, w' = w ++ y /\ Later p p' /\ (len y < 2 ^ 32 -> wholly p' (code (attributes v DefaultMode 1)) y k) /\ code_matches body k.
Proof.
  intros Hv Hr Hrows Hbody E. pose proof (code_tables _ _ _ Hr) as (T1 & T2 & T3 & T4 & T5 & T6 & _).
  assert (Hlr : length rows = length (mlocals m)) by (symmetry; apply (Forall2_length _ _ _ Hrows)).
  unfold emit_code in E. cbv zeta in E. set (t := attributes v DefaultMode 0).
  rewrite (emit_rows (fun h => [ehStart h; ehEnd h; ehHandler h; ehCatch h])) in E.
  match type of E with (?m ≫= _) = _ => destruct m as [[w1 p1]|] eqn:E1; [|discriminate] end. cbn [mbind option_bind] in E.
  destruct (optional_out Attrs.LineNumberTable "LineNumberTable" (mlines m) (map line_of (mlines m)) (lines_bytes (mlines m)) v locCode t _ _ _ _ _ E1)
    as (y1 & -> & L1 & P1 & N1).
  { apply bytes_ok_dec. reflexivity. }
  { apply length_map. }
  { intros. rewrite lines_body by lia. reflexivity. }
  { intros p2 _. apply written_LineNumberTable; auto. lia. }
  { reflexivity. }
  destruct (optional_out Attrs.LocalVariableTable "LocalVariableTable" rows (map var_of (mlocals m)) (vars_bytes rows) v locCode t _ _ _ _ _ E)
    as (y2 & -> & L2 & P2 & N2).
  { apply bytes_ok_dec. reflexivity. }
  { rewrite length_map. auto. }
  { intros. rewrite vars_body by (unfold len in *; lia). reflexivity. }
  { intros p2 L. apply written_LocalVariableTable; auto; [|unfold len in *; lia]. eapply Forall2_impl; [exact Hrows|].
    intros lv r (n & d & Er & In & Id). assert (Later p p2) by (etransitivity; eauto). exists n, d. split_and!; auto; eapply interned_later; eauto. }
  { reflexivity. }
  rewrite N1, N2, <- len_app. set (tb := optional _ _ ++ optional _ _).
  assert (Htb : len tb <= 2) by (unfold tb; rewrite len_app, <- N1, <- N2; destruct (0 <? len (mlines m)), (0 <? len rows); cbn; lia).
  pose proof (len_nonneg tb). rewrite (u16_id (len tb)), (u16_id (len (mhandlers m))), (u32_id (len (mcode m))) by
    (pose proof (len_nonneg (mhandlers m)); lia).
  destruct Hr as (c0 & c & cr & Hf & Hp & Hl & Her & Hc & Hs & Hlo & Hln & Hh & Hk & Ha).
  assert (LL : Later p p') by (etransitivity; eauto).
  assert (Hh' : Forall2 (handler_row p' (labels c)) (flat_map try_of body) (mhandlers m))
    by (eapply Forall2_impl; [exact Hh|]; intros; eapply handler_row_later; eauto).
  destruct (written_handlers p' _ _ _ Hh') as (es & He & Hes).
  eexists _, _. split_and!; [unfold wU2, wU4, wRaw; rewrite <- !app_assoc; reflexivity|exact LL| |].
  - intros Hy. change (concat (map (fun a => concat (map be2 [ehStart a; ehEnd a; ehHandler a; ehCatch a])) (mhandlers m)))
      with (concat (map row_bytes (mhandlers m))) in *.
    apply (written_code p' v _ _ _ (mhandlers m) es _ tb); auto; [rewrite Hs; apply u16_range|rewrite Hlo; apply u16_range|lia|].
    apply piece_table; [|autorewrite with mocha in Hy; pose proof (len_nonneg (mcode m)); pose proof (len_nonneg (concat (map row_bytes (mhandlers m)))); rewrite len_app; lia|lia].
    apply piece_app; [exact (piece_later _ _ _ _ _ _ _ L2 P1)|exact P2].
  - exists c0, c, (mlocals m), cr, es. split_and!; auto. unfold tb. rewrite hoist_tables, Hln, Hc, Hs, Hlo. destruct (lines c); reflexivity.
Qed.
