(* ===== verification/ClassTrip.v ===== *)
(** * A class, written and read back

    The whole way: the calls of a client on a new builder, [Bytes], and [Read]
    on the result, give back the class the calls describe. *)
From S2P Require Import Prelude.
From S2P Require Import Desc.
From S2P Require Import Op.
From S2P Require Import Format.
From S2P Require Import ClassIO.
From S2P Require Import Pool.
From S2P Require Import PoolBuilder.
From S2P Require Import CodeWriter.
From S2P Require Import CodeProof.
From S2P Require Import CodeFrame.
From S2P Require Import Builder.
From S2P Require Import MethodProof.
From S2P Require Import MethodStack.
From S2P Require Import PoolLater.
From S2P Require Import ClassSpec.
From S2P Require Attrs.
From S2P Require Import Decoder.
From S2P Require Import ClassRead.
From S2P Require Import ClassEmit.
From S2P Require Import ClassCode.

(** ** Methods *)

Record method_matches (v : Version) (a : AMethod) (m : Attrs.Method) : Prop := {
  mm_flags : Attrs.MFlags m = amFlags a;
  mm_name : Attrs.MName m = clean (amName a);
  mm_desc : Attrs.MDescriptor m = clean (amDesc a);
  mm_throws : Attrs.MExceptions m = map clean (amThrows a);
  mm_sig : Attrs.MSignature m = if given (amSig a) then signature_of v (amSig a) else [];
  mm_code : match amBody a with
    | None => Attrs.MCode m = None
    | Some body => exists k, Attrs.MCode m = Some k /\ code_matches body k
    end;
  mm_rest : Attrs.MDeprecated m = false /\ Attrs.MSynthetic m = false /\
    map Attrs.AttrName (Attrs.MAttrs m) =
      named (bs "Code") (match amBody a with Some _ => true | None => false end) ++
      named (bs "Exceptions") (0 <? len (amThrows a)) ++ named (bs "Signature") (given (amSig a)) }.

(** What the 16-bit counts of the format can hold. *)
Definition method_fits (a : AMethod) : Prop :=
  len (amThrows a) < 65536 /\ match amBody a with Some body => len body < 65536 | None => True end.

(** The optional Code attribute. *)
Lemma code_out v m a w p w' p' :
  45 <= Major v -> method_rep p m a -> method_fits a ->
  (if hasCode m then let '(rows, p) := lv_rows (mlocals m) p in attr_utf8 (bs "Code") (emit_code m rows) w p else Some (w, p)) =
    Some (w', p') ->
  exists y l, w' = w ++ y /\ Later p p' /\ piece v p' (attributes v DefaultMode 1) locMethod y l /\ Z.b2z (hasCode m) = len l /\
    match amBody a with None => l = [] | Some body => exists k, l = [Attrs.CodeAttr k] /\ code_matches body k end.
Proof.
  intros Hv [_ _ Hc] [_ Hfit] E. destruct (amBody a) as [body|].
  - destruct Hc as [Hh Hr]. rewrite Hh in E |- *. destruct (code_tables _ _ _ Hr) as (_ & T2 & _).
    destruct (lv_rows (mlocals m) p) as [rows p1] eqn:El. destruct (lv_rows_out _ _ _ _ T2 El) as [L1 F1].
    destruct (attr_utf8_out (fun y p2 => exists k, (len y < 2 ^ 32 -> wholly p2 (code (attributes v DefaultMode 1)) y k) /\ code_matches body k)
      (bs "Code") (emit_code m rows) w p1 w' p') as (i & y & -> & L2 & I & k & Hk & Hm); [apply bytes_ok_dec; reflexivity| |exact E|].
    { intros w1 p2 w2 p3 L E2. assert (L02 : Later p p2) by (etransitivity; eauto).
      destruct (emit_code_out v m body rows w1 p2 w2 p3 Hv (code_rep_later _ _ _ _ L02 Hr)) as (y & k & H1 & H2 & H3 & H4); auto.
      - eapply Forall2_impl; [exact F1|]. intros lv r (n & d & Er & In & Id). exists n, d. split_and!; [exact Er|exact (interned_later _ _ _ _ L In)|exact (interned_later _ _ _ _ L Id)].
      - exists y. split_and!; eauto. }
    eexists _, [Attrs.CodeAttr k]. split_and!; [reflexivity|etransitivity; eauto| |reflexivity|eauto].
    apply piece_one with (name := bs "Code"); [exact I|reflexivity|]. intros Hy.
    change (attribute v DefaultMode (attributes v DefaultMode 1) (bs "Code") y locMethod) with
      (if negb (AtLeast v 45) then mret (Some (Attrs.Raw (bs "Code") y))
       else in_sub y (c ← code (attributes v DefaultMode 1); mret (Some (Attrs.CodeAttr c))) : DM (option Attrs.Attr)).
    rewrite since45 by exact Hv. cbn [negb]. apply written_sub. apply (wholly_fmap p' _ (fun c => Some (Attrs.CodeAttr c))), Hk, Hy.
  - destruct Hc as [Hh _]. rewrite Hh in E |- *. injection E as <- <-. exists [], []. rewrite app_nil_r.
    split_and!; auto using piece_nil; reflexivity.
Qed.

(** The optional Exceptions attribute. *)
Lemma exceptions_out v t ss w p w' p' :
  45 <= Major v -> Forall bytes_ok ss -> len ss < 65536 ->
  (if 0 <? len ss then
     let '(idx, p) := class_list ss p in
     attr_utf8 (bs "Exceptions") (fun w p => Some (emit_u2s idx (wU2 (u16 (len idx)) w), p)) w p
   else Some (w, p)) = Some (w', p') ->
  exists y l, w' = w ++ y /\ Later p p' /\ piece v p' t locMethod y l /\ Z.b2z (0 <? len ss) = len l /\
    l = if 0 <? len ss then [Attrs.Exceptions (map clean ss)] else [].
Proof.
  intros Hv Hs Hl. destruct (0 <? len ss) eqn:E0; [|intros [= <- <-]; exists [], []; rewrite app_nil_r; split_and!; auto using piece_nil; reflexivity].
  destruct (class_list ss p) as [idx p1] eqn:Ec. destruct (class_list_out _ _ _ _ Hs Ec) as [L1 F1]. intros E.
  assert (Hn : len idx = len ss) by (apply Forall2_length in F1; unfold len; congruence).
  destruct (attr_utf8_body (bs "Exceptions") (be2 (len ss) ++ concat (map be2 idx))
    (fun w p => Some (emit_u2s idx (wU2 (u16 (len idx)) w), p)) w p1 w' p') as (i & -> & L2 & I); [apply bytes_ok_dec; reflexivity| |exact E|].
  { intros w1 p2. rewrite emit_u2s_app. unfold wU2. rewrite Hn, u16_id by (pose proof (len_nonneg ss); lia). rewrite <- app_assoc. reflexivity. }
  eexists _, [Attrs.Exceptions (map clean ss)]. split_and!; [reflexivity|etransitivity; eauto| |reflexivity|reflexivity].
  apply piece_one with (name := bs "Exceptions"); [exact I|reflexivity|]. intros _. apply written_Exceptions; auto.
  eapply Forall2_impl; [exact F1|]. intros i0 s Hi. exact (interned_later _ _ _ _ L2 Hi).
Qed.

Lemma emit_method_out v m a w p w' p' :
  45 <= Major v -> method_rep p m a -> method_fits a -> emit_method_info w m p = Some (w', p') ->
  exists x g, w' = w ++ x /\ Later p p' /\ (len x < 2 ^ 32 -> written p' (method v DefaultMode) x g) /\ method_matches v a g.
Proof.
  intros Hv Hr Hfit. pose proof Hr as [(S1 & S2 & S3 & S4 & S5) (O1 & O2 & O3 & O4 & O5) _]. unfold emit_method_info. rewrite S1, S2, S3, S4, S5.
  cbv zeta. intros E. intern_step (amName a) O2. intern_step (amDesc a) O3.
  match type of E with (?m ≫= _) = _ => destruct m as [[at1 p2]|] eqn:E1; [|discriminate] end. cbn [mbind option_bind] in E.
  match type of E with (?m ≫= _) = _ => destruct m as [[at2 p3]|] eqn:E2; [|discriminate] end. cbn [mbind option_bind] in E.
  match type of E with (?m ≫= _) = _ => destruct m as [[at3 p4]|] eqn:E3; [|discriminate] end. cbn [mbind option_bind] in E.
  injection E as <- <-. assert (L01 : Later p p1) by (etransitivity; eauto). set (t := attributes v DefaultMode 1).
  destruct (code_out v m a _ p1 at1 p2 Hv (method_rep_later _ _ _ _ L01 Hr) Hfit E1) as (y1 & l1 & -> & L1 & P1 & N1 & El1).
  destruct (exceptions_out v t (amThrows a) _ p2 at2 p3 Hv O5 (proj1 Hfit) E2) as (y2 & l2 & -> & L2 & P2 & N2 & El2).
  destruct (signature_out v t locMethod (amSig a) _ p3 at3 p4 Hv ltac:(auto) O4 E3) as (y3 & l3 & -> & L3 & P3 & Hl3).
  assert (N3 : Z.b2z (given (amSig a)) = len l3) by (destruct Hl3 as [[-> ->]|[-> (b & ->)]]; reflexivity).
  eexists _, (foldl Attrs.hoist_method (Attrs.mkMethod (amFlags a) (clean (amName a)) (clean (amDesc a)) (l1 ++ l2 ++ l3) None [] [] false false) (l1 ++ l2 ++ l3)).
  split_and!.
  - unfold wU2, wRaw. rewrite <- !app_assoc. cbn [app]. reflexivity.
  - etransitivity; [exact L01|]. etransitivity; [exact L1|]. etransitivity; eauto.
  - assert (L14 : Later p1 p4) by (etransitivity; [exact L1|]; etransitivity; eauto). rewrite u16_id by exact O1. intros Hlen.
    apply (written_head p4 (fun fl n d => attrs ← attributes v DefaultMode maxDepth locMethod;
      mret (foldl Attrs.hoist_method (Attrs.mkMethod fl n d attrs None [] [] false false) attrs)) _ _ (amName a) _ (amDesc a)); [exact O1| | |].
    + eapply interned_later; [|exact I]. etransitivity; eauto.
    + eapply interned_later; [exact L14|exact I0].
    + apply (written_fmap p4 _ (fun attrs => foldl Attrs.hoist_method (Attrs.mkMethod _ _ _ attrs None [] [] false false) attrs)).
      change (negb (bool_decide (amSig a = []))) with (given (amSig a)) in *. rewrite N1, N2, N3, <- !len_app, <- app_assoc.
      assert (Hl : len (l1 ++ l2 ++ l3) <= 3)
        by (rewrite !len_app, <- N1, <- N2, <- N3; destruct (hasCode m), (0 <? _), (given _); cbn; lia).
      pose proof (len_nonneg (l1 ++ l2 ++ l3)). rewrite u16_id by lia.
      apply piece_table; [|autorewrite with mocha in *; lia|lia].
      apply piece_app; [exact (piece_later _ _ _ _ _ _ _ L3 (piece_later _ _ _ _ _ _ _ L2 P1))|].
      apply piece_app; [exact (piece_later _ _ _ _ _ _ _ L3 P2)|exact P3].
  - subst l2. destruct (amBody a) as [body|] eqn:Eb; [destruct El1 as (k & -> & Hk)|subst l1];
      destruct (0 <? len (amThrows a)) eqn:Et, Hl3 as [[Hg ->]|[Hg (b & ->)]]; unfold signature_attr; try destruct (AtLeast v 49) eqn:Ev;
      split; cbn; unfold signature_of; rewrite ?Eb, ?Et, ?Hg, ?Ev; eauto;
      destruct (amThrows a); try discriminate; reflexivity.
Qed.

(** ** Nothing but bytes is appended *)

Create HintDb octets.

Lemma octets_u2 v w : bytes_ok w -> bytes_ok (wU2 v w).
Proof. intros H. apply bytes_ok_app. auto using be2_ok. Qed.
Lemma octets_u4 v w : bytes_ok w -> bytes_ok (wU4 v w).
Proof. intros H. apply bytes_ok_app. auto using be4_ok. Qed.
Lemma octets_raw b w : bytes_ok b -> bytes_ok w -> bytes_ok (wRaw b w).
Proof. intros Hb H. apply bytes_ok_app. auto. Qed.
Lemma octets_u2s l w : bytes_ok w -> bytes_ok (emit_u2s l w).
Proof. revert w. induction l as [|x l IH]; intros w H; cbn; [exact H|]. apply IH, octets_u2, H. Qed.
Lemma octets_foldl {A} (f : bytes -> A -> bytes) l w : (forall w a, bytes_ok w -> bytes_ok (f w a)) -> bytes_ok w -> bytes_ok (foldl f w l).
Proof. intros Hf. revert w. induction l as [|a l IH]; intros w H; cbn; auto. Qed.
#[local] Hint Resolve bytes_ok_nil octets_u2 octets_u4 octets_raw octets_u2s octets_foldl : octets.

(** [octets m w]: a step on the bytes [w] keeps them bytes. *)
Definition octets {S} (w : bytes) (m : option (bytes * S)) : Prop :=
  forall w' s', m = Some (w', s') -> bytes_ok w -> bytes_ok w'.

Lemma octets_attr {S} n (body : bytes -> S -> option (bytes * S)) w s :
  (forall w s, octets w (body w s)) -> octets w (attr n body w s).
Proof.
  intros Hb w' s' E Hw. unfold attr in E. cbv zeta in E. destruct (body _ s) as [[w1 s1]|] eqn:E1; [|discriminate]. cbn [mbind option_bind fst snd] in E.
  assert (H1 : bytes_ok w1) by (eapply Hb; [exact E1|auto with octets]). unfold patchU4, patch in E. revert E. bool_case; [|discriminate].
  cbn [mbind option_bind]. intros [= <- _]. apply bytes_ok_app. split; [apply Forall_take, H1|]. apply (bytes_ok_app (be4 _)). split; [apply be4_ok|apply Forall_drop, H1].
Qed.

Lemma octets_attr_utf8 name body w p : (forall w p, octets w (body w p)) -> octets w (attr_utf8 name body w p).
Proof. intros Hb. unfold attr_utf8. destruct (UTF8 name p). apply octets_attr, Hb. Qed.

Lemma octets_some {S} w w' (s : S) : (bytes_ok w -> bytes_ok w') -> octets w (Some (w', s)).
Proof. intros H w1 s1 [= <- _]. exact H. Qed.

Lemma octets_bind {S S'} w (m : option (bytes * S)) (k : bytes * S -> option (bytes * S')) w2 s2 :
  (m ≫= k) = Some (w2, s2) -> octets w m -> (forall w1 s1, octets w1 (k (w1, s1))) -> bytes_ok w -> bytes_ok w2.
Proof.
  intros E Hm Hk Hw. destruct m as [[w1 s1]|]; [|discriminate]. cbn [mbind option_bind] in E. eapply Hk; [exact E|]. eapply Hm; [reflexivity|exact Hw].
Qed.

Ltac rows_octets := repeat (apply octets_foldl; [intros; auto with octets|]); auto 10 with octets.

Lemma octets_code m rows w p : bytes_ok (mcode m) -> octets w (emit_code m rows w p).
Proof.
  intros Hm w' p' E Hw. unfold emit_code in E. cbv zeta in E. eapply octets_bind; [exact E| | |].
  - bool_case; [apply octets_attr_utf8; intros w1 p1|]; apply octets_some; intros; rows_octets.
  - intros w1 p1. bool_case; [apply octets_attr_utf8; intros w2 p2|]; apply octets_some; intros; rows_octets.
  - apply octets_u2. rows_octets.
Qed.

Lemma octets_field f w p : octets w (emitField w f p).
Proof.
  intros w' p' E Hw. unfold emitField in E. cbv zeta in E. destruct (UTF8 (fname f) p) as [i p1]. destruct (UTF8 (fdescriptor f) p1) as [j p2].
  destruct (if negb (fconstant f =? 0) then _ else _) as [[a1 p3]|] eqn:E1; [|discriminate]. cbn [mbind option_bind] in E.
  destruct (if negb (bool_decide (fsignature f = [])) then _ else _) as [[a2 p4]|] eqn:E2; [|discriminate]. cbn [mbind option_bind] in E.
  injection E as <- _. apply octets_raw; [|auto with octets].
  assert (H1 : bytes_ok a1).
  { revert E1. bool_case; intros E1; [eapply octets_attr_utf8; [|exact E1|]; [intros w1 q1; apply octets_some|]; auto with octets|].
    injection E1 as <- _. apply octets_u2. constructor. }
  revert E2. bool_case; intros E2; [|injection E2 as <- _; exact H1]. destruct (UTF8 (fsignature f) p3).
  eapply octets_attr_utf8; [|exact E2|exact H1]. intros w1 q1. apply octets_some. auto with octets.
Qed.

Lemma octets_method m w p : (hasCode m = true -> bytes_ok (mcode m)) -> octets w (emit_method_info w m p).
Proof.
  intros Hm w' p' E Hw. unfold emit_method_info in E. cbv zeta in E. destruct (UTF8 (mname m) p) as [i p1]. destruct (UTF8 (mdescriptor m) p1) as [j p2].
  destruct (if hasCode m then _ else _) as [[a1 p3]|] eqn:E1; [|discriminate]. cbn [mbind option_bind] in E.
  destruct (if 0 <? len (mexceptions m) then _ else _) as [[a2 p4]|] eqn:E2; [|discriminate]. cbn [mbind option_bind] in E.
  destruct (if negb (bool_decide (msignature m = [])) then _ else _) as [[a3 p5]|] eqn:E3; [|discriminate]. cbn [mbind option_bind] in E.
  injection E as <- _. apply octets_raw; [|auto with octets].
  assert (H1 : bytes_ok a1).
  { revert E1. bool_case; intros E1; [|injection E1 as <- _; apply octets_u2; constructor]. destruct (lv_rows (mlocals m) p2).
    eapply octets_attr_utf8; [|exact E1|apply octets_u2; constructor]. intros w1 q1. auto using octets_code. }
  assert (H2 : bytes_ok a2).
  { revert E2. bool_case; intros E2; [|injection E2 as <- _; exact H1]. destruct (class_list (mexceptions m) p3).
    eapply octets_attr_utf8; [|exact E2|exact H1]. intros w1 q1. apply octets_some. auto with octets. }
  revert E3. bool_case; intros E3; [|injection E3 as <- _; exact H2]. destruct (UTF8 (msignature m) p4).
  eapply octets_attr_utf8; [|exact E3|exact H2]. intros w1 q1. apply octets_some. auto with octets.
Qed.

(** ** The tables of members *)

Lemma set_bpool_id b : set_bpool (bpool b) b = b.
Proof. destruct b. reflexivity. Qed.

Lemma emit_fields_out v l as_ w b w' b' :
  emit_fields l w b = Some (w', b') -> 45 <= Major v -> pool_ok (bpool b) -> Forall2 (field_rep (bpool b)) l as_ ->
  b' = set_bpool (bpool b') b /\ Later (bpool b) (bpool b') /\ (bytes_ok w -> bytes_ok w') /\
  exists xs, w' = w ++ concat xs /\ (perr (bpool b') = None -> len (concat xs) < 2 ^ 32 -> exists gs, Forall2 (field_matches v) as_ gs /\
    Forall2 (fun x g => written (bpool b') (member v DefaultMode locField) x g) xs gs).
Proof.
  intros E Hv. revert as_ w b E. induction l as [|f l IH]; intros as_ w b E Hp Hr; cbn [emit_fields] in E.
  - injection E as <- <-. apply Forall2_nil_inv_l in Hr as ->. rewrite set_bpool_id. split_and!; auto; [reflexivity|].
    exists []. rewrite app_nil_r. split; [reflexivity|]. exists []. split; constructor.
  - apply Forall2_cons_inv_l in Hr as (a & as1 & Ha & Hr & ->).
    destruct (emitField w f (bpool b)) as [[w1 p1]|] eqn:E1; [|discriminate]. cbn [mbind option_bind fst snd] in E.
    destruct (emitField_out v f a w (bpool b) w1 p1 Hv Hp Ha E1) as (x & -> & L1 & Hx).
    destruct (IH as1 (w ++ x) (set_bpool p1 b)) as (Eb & L2 & Ho & xs & Ew & Hxs); auto.
    { cbn. eapply pool_ok_later; eauto. }
    { cbn. eapply Forall2_impl; [exact Hr|]. intros. eapply field_rep_later; eauto. }
    cbn [bpool set_bpool] in L2. split_and!.
    + rewrite Eb at 1. reflexivity.
    + etransitivity; eauto.
    + intros Hw. apply Ho. eapply octets_field; eauto.
    + exists (x :: xs). cbn [concat]. rewrite Ew, app_assoc. split; [reflexivity|]. intros He Hl. rewrite len_app in Hl.
      pose proof (len_nonneg x). pose proof (len_nonneg (concat xs)). destruct (Hxs He ltac:(lia)) as (gs & G1 & G2).
      destruct (Hx (lt_err _ _ L2 He)) as (g & G3 & G4). exists (g :: gs). split; [constructor; auto|].
      constructor; [|exact G2]. apply (written_later p1); [exact L2|]. apply G3. lia.
Qed.

(** A method that has a body where it must and none where it must not. *)
Lemma emitMethod_done w m b w' b' : emitMethod w m b = Some (w', b') -> berr b' = None ->
  berr b = None /\ exists p', emit_method_info w m (bpool b) = Some (w', p') /\ b' = set_bpool p' b.
Proof.
  unfold emitMethod. repeat bool_case; try (intros [= <- <-] He; destruct (bfail_stuck _ _ _ He)).
  destruct (emit_method_info w m (bpool b)) as [[w1 p1]|]; [|discriminate]. cbn. intros [= <- <-] He. eauto.
Qed.

Lemma emit_methods_sticky l w b w' b' : emit_methods l w b = Some (w', b') -> berr b' = None -> berr b = None.
Proof.
  revert w b. induction l as [|m l IH]; intros w b E He; cbn [emit_methods] in E; [injection E as <- <-; exact He|].
  destruct (emitMethod w m b) as [[w1 b1]|] eqn:E1; [|discriminate]. cbn [mbind option_bind fst snd] in E.
  eapply emitMethod_done; eauto.
Qed.

Lemma rep_code_bytes p m a : method_rep p m a -> hasCode m = true -> bytes_ok (mcode m).
Proof.
  intros [_ _ Hc] Hh. destruct (amBody a); [|destruct Hc; congruence]. destruct Hc as [_ Hr]. apply (code_tables _ _ _ Hr).
Qed.

Lemma emit_methods_out v l as_ w b w' b' :
  emit_methods l w b = Some (w', b') -> berr b' = None -> 45 <= Major v -> Forall2 (method_rep (bpool b)) l as_ -> Forall method_fits as_ ->
  b' = set_bpool (bpool b') b /\ Later (bpool b) (bpool b') /\ (bytes_ok w -> bytes_ok w') /\
  exists xs, w' = w ++ concat xs /\ (len (concat xs) < 2 ^ 32 -> exists gs, Forall2 (method_matches v) as_ gs /\
    Forall2 (fun x g => written (bpool b') (method v DefaultMode) x g) xs gs).
Proof.
  intros E He Hv. revert as_ w b E He. induction l as [|m l IH]; intros as_ w b E He Hr Hf; cbn [emit_methods] in E.
  - injection E as <- <-. apply Forall2_nil_inv_l in Hr as ->. rewrite set_bpool_id. split_and!; auto; [reflexivity|].
    exists []. rewrite app_nil_r. split; [reflexivity|]. exists []. split; constructor.
  - apply Forall2_cons_inv_l in Hr as (a & as1 & Ha & Hr & ->). apply Forall_cons in Hf as [Hfa Hf].
    destruct (emitMethod w m b) as [[w1 b1]|] eqn:E1; [|discriminate]. cbn [mbind option_bind fst snd] in E.
    destruct (emitMethod_done _ _ _ _ _ E1 (emit_methods_sticky _ _ _ _ _ E He)) as (_ & p1 & E2 & ->).
    destruct (emit_method_out v m a w (bpool b) w1 p1 Hv Ha Hfa E2) as (x & g & -> & L1 & Hx & Hg).
    destruct (IH as1 (w ++ x) (set_bpool p1 b)) as (Eb & L2 & Ho & xs & Ew & Hxs); auto.
    { cbn. eapply Forall2_impl; [exact Hr|]. intros. eapply method_rep_later; eauto. }
    cbn [bpool set_bpool] in L2. split_and!.
    + rewrite Eb at 1. reflexivity.
    + etransitivity; eauto.
    + intros Hw. apply Ho. eapply octets_method; [|exact E2|exact Hw]. eapply rep_code_bytes, Ha.
    + exists (x :: xs). cbn [concat]. rewrite Ew, app_assoc. split; [reflexivity|]. intros Hl. rewrite len_app in Hl.
      pose proof (len_nonneg x). pose proof (len_nonneg (concat xs)). destruct (Hxs ltac:(lia)) as (gs & G1 & G2).
      exists (g :: gs). split; [constructor; auto|]. constructor; [|exact G2]. apply (written_later p1); [exact L2|]. apply Hx. lia.
Qed.

Lemma emit_class_attrs_out v t b w' b' :
  45 <= Major v -> bytes_ok (sourceFile b) -> emit_class_attrs b = Some (w', b') ->
  b' = set_bpool (bpool b') b /\ Later (bpool b) (bpool b') /\ bytes_ok w' /\
  exists y, w' = be2 (Z.b2z (given (sourceFile b))) ++ y /\
    piece v (bpool b') t locClass y (if given (sourceFile b) then [Attrs.SourceFile (clean (sourceFile b))] else []).
Proof.
  intros Hv Hs. unfold emit_class_attrs. cbv zeta. change (negb (bool_decide (sourceFile b = []))) with (given (sourceFile b)).
  destruct (given (sourceFile b)).
  - destruct (UTF8 (bs "SourceFile") (bpool b)) as [n p1] eqn:E1.
    destruct (Later_intern (IUTF8 (bs "SourceFile")) _ _ _ ltac:(apply bytes_ok_dec; reflexivity) E1) as [L1 I1].
    destruct (UTF8 (sourceFile b) p1) as [i p2] eqn:E2. destruct (Later_intern (IUTF8 (sourceFile b)) _ _ _ Hs E2) as [L2 I2].
    rewrite (attr_appends n (fun w p => Some (wU2 i w, p)) _ (be2 i) p2 p2) by reflexivity. cbn [mbind option_bind fst snd]. intros [= <- <-].
    split_and!; [reflexivity|cbn; etransitivity; eauto| |].
    + change (bytes_ok (be2 (u16 1) ++ be2 n ++ be4 (u32 (len (be2 i))) ++ be2 i)). rewrite !bytes_ok_app. split_and!; auto using be2_ok, be4_ok.
    + exists (be2 n ++ be4 (u32 (len (be2 i))) ++ be2 i). split; [reflexivity|]. cbn [bpool set_bpool].
      apply piece_one with (name := bs "SourceFile"); [eapply interned_later; eauto|reflexivity|]. intros _. apply written_SourceFile; auto.
  - intros [= <- <-]. rewrite set_bpool_id. split_and!; [reflexivity|reflexivity|apply octets_u2; constructor|].
    exists []. rewrite app_nil_r. split; [reflexivity|apply piece_nil].
Qed.

(** ** The class *)

(** What the class read back must be. *)
Record class_matches (a : AClass) (c : Attrs.Class) : Prop := {
  km_version : Attrs.KVersion c = acVersion a;
  km_flags : Attrs.KFlags c = acFlags a;
  km_name : Attrs.KName c = clean (acName a);
  km_super : Attrs.KSuper c = clean (acSuper a);
  km_ifaces : Attrs.KInterfaces c = map clean (acIfaces a);
  km_fields : Forall2 (field_matches (acVersion a)) (acFields a) (Attrs.KFields c);
  km_methods : Forall2 (method_matches (acVersion a)) (acMethods a) (Attrs.KMethods c);
  km_source : Attrs.KSourceFile c = clean (acSource a);
  km_rest : Attrs.KSignature c = [] /\ Attrs.KNestHost c = [] /\ Attrs.KDeprecated c = false /\ Attrs.KSynthetic c = false /\
    map Attrs.AttrName (Attrs.KAttrs c) = named (bs "SourceFile") (given (acSource a)) }.

(** The counts that the format holds in 16 bits and the builder does not check. *)
Definition class_fits (a : AClass) : Prop :=
  len (acIfaces a) < 65536 /\ len (acFields a) < 65536 /\ len (acMethods a) < 65536 /\ Forall method_fits (acMethods a).

(** The tables [Bytes] builds, and what is read from them. *)
Record built_tables (a : AClass) (P : PoolBuilder) (t : tables) : Prop := {
  bt_this : interned P (IClass (acName a)) (tthis t);
  bt_super : acSuper a <> [] -> interned P (IClass (acSuper a)) (tsuper t);
  bt_object : acSuper a = [] -> tsuper t = 0 /\ acName a = java_lang_Object;
  bt_ifaces : Forall2 (fun i s => interned P (IClass s) i) (tifaces t) (acIfaces a);
  bt_bytes : bytes_ok (tfields t) /\ bytes_ok (tmethods t) /\ bytes_ok (tattrs t);
  bt_fields : len (tfields t) < 2 ^ 32 -> exists gs, Forall2 (field_matches (acVersion a)) (acFields a) gs /\
    written P (members (acVersion a) DefaultMode locField) (tfields t) gs;
  bt_methods : len (tmethods t) < 2 ^ 32 -> exists gs, Forall2 (method_matches (acVersion a)) (acMethods a) gs /\
    written P (methods (acVersion a) DefaultMode) (tmethods t) gs;
  bt_attrs : len (tattrs t) < 2 ^ 32 ->
    written P (attributes (acVersion a) DefaultMode maxDepth locClass) (tattrs t)
      (if given (acSource a) then [Attrs.SourceFile (clean (acSource a))] else []) }.

Lemma written_table {A} p (row : DM A) xs l : Forall2 (fun x g => written p row x g) xs l -> len l < 65536 ->
  written p (n ← u2; out ← rows (Z.to_nat n) row; sticky out) (be2 (len l) ++ concat xs) l.
Proof.
  intros H Hl. eapply written_bind; [apply written_u2; pose proof (len_nonneg l); lia|]. unfold len. rewrite Nat2Z.id.
  rewrite <- (app_nil_r (concat xs)). eapply written_bind; [apply written_rows, H|apply written_sticky].
Qed.

Lemma len_tail v xs : len (be2 v ++ xs) < 2 ^ 32 -> len xs < 2 ^ 32.
Proof. rewrite len_app. pose proof (len_nonneg (be2 v)). lia. Qed.

Lemma build_out b a t b' :
  rep b a -> class_fits a -> build_tables b = Some (Ok t, b') -> berr b' = None -> perr (bpool b') = None ->
  b' = set_bpool (bpool b') b /\ Later (bpool b) (bpool b') /\ built_tables a (bpool b') t.
Proof.
  intros Hr (F1 & F2 & F3 & F4) E He Hpe. pose proof Hr as [(S1 & S2 & S3 & S4 & S5 & S6) (O1 & O2 & O3 & O4 & O5 & O6) Hp Hfs Hms].
  assert (Hv : 45 <= Major (acVersion a)) by (destruct O1; lia).
  unfold build_tables in E. destruct (Class_ (bname b) (bpool b)) as [this p1] eqn:E1. rewrite S3 in E1.
  destruct (Later_intern (IClass (acName a)) _ _ _ O3 E1) as [L1 I1]. cbn [bpool set_bpool bname bsuper ifaces fields methods] in E. rewrite S3, S4, S5 in E.
  revert E. destruct (bool_decide (acSuper a = []) && negb (bool_decide (acName a = java_lang_Object))) eqn:Es; [discriminate|]. intros E.
  destruct (match acSuper a with [] => (0, p1) | s => Class_ s p1 end) as [super p2] eqn:E2.
  destruct (catch_later _ _ _ _ O4 E2) as [L2 I2]. destruct (class_list (acIfaces a) p2) as [ifs p3] eqn:E3.
  destruct (class_list_out _ _ _ _ O5 E3) as [L3 I3]. cbn [bpool set_bpool fields methods] in E.
  assert (L03 : Later (bpool b) p3) by (etransitivity; [exact L1|]; etransitivity; eauto).
  match type of E with context [emit_fields ?l ?w ?b] => destruct (emit_fields l w b) as [[fs bf]|] eqn:Ef; [|discriminate] end. cbn [mbind option_bind] in E.
  destruct (emit_fields_out (acVersion a) _ (acFields a) _ _ _ _ Ef Hv) as (Ebf & L4 & Of & xs & -> & Hxs);
    [eapply pool_ok_later; eauto|cbn; eapply Forall2_impl; [exact Hfs|]; intros; eapply field_rep_later; eauto|].
  cbn [bpool set_bpool] in L4. rewrite Ebf in E. cbn [Builder.methods set_bpool] in E.
  match type of E with context [emit_methods ?l ?w ?b] => destruct (emit_methods l w b) as [[ms bm]|] eqn:Em; [|discriminate] end. cbn [mbind option_bind] in E.
  destruct (emit_class_attrs bm) as [[at_ ba]|] eqn:Ea; [|discriminate]. cbn [mbind option_bind] in E. injection E as <- <-.
  assert (L04 : Later (bpool b) (bpool bf)) by (etransitivity; eauto).
  assert (Hem : berr bm = None).
  { revert Ea. unfold emit_class_attrs. cbv zeta. bool_case; [|intros [= _ <-]; exact He]. destruct (UTF8 _ _). destruct (UTF8 _ _).
    destruct (attr _ _ _ _) as [[? ?]|]; [|discriminate]. cbn. intros [= _ <-]. exact He. }
  destruct (emit_methods_out (acVersion a) _ (acMethods a) _ _ _ _ Em Hem Hv) as (Ebm & L5 & Om & ys & -> & Hys);
    [cbn; eapply Forall2_impl; [exact Hms|]; intros; eapply method_rep_later; eauto|exact F4|].
  cbn [bpool set_bpool] in L5. assert (Hsrc : sourceFile bm = acSource a) by (rewrite Ebm; exact S6).
  destruct (emit_class_attrs_out (acVersion a) (attributes (acVersion a) DefaultMode 1) bm _ _ Hv ltac:(rewrite Hsrc; exact O6) Ea)
    as (Eba & L6 & Oa & y & -> & Py). rewrite Hsrc in *.
  assert (L56 : Later (bpool bf) (bpool ba)) by (etransitivity; eauto). assert (L36 : Later p3 (bpool ba)) by (etransitivity; eauto).
  assert (Hnf : len (fields b) = len (acFields a)) by (apply Forall2_length in Hfs; unfold len; congruence).
  assert (Hnm : len (Builder.methods b) = len (acMethods a)) by (apply Forall2_length in Hms; unfold len; congruence).
  rewrite Hnf, Hnm, !u16_id in * by (try pose proof (len_nonneg (acFields a)); try pose proof (len_nonneg (acMethods a)); lia).
  split; [|split; [etransitivity; eauto|split; cbn [tthis tsuper tifaces tfields tmethods tattrs]]].
  - rewrite Eba, Ebm. reflexivity.
  - apply (interned_later p1); [|exact I1]. etransitivity; [exact L2|]. etransitivity; eauto.
  - intros Hs. apply (interned_later p2); [etransitivity; eauto|exact (I2 Hs)].
  - intros Hs. rewrite Hs in E2. injection E2 as <- _. split; [reflexivity|]. rewrite Hs in Es. cbn in Es. apply negb_false_iff, bool_decide_eq_true in Es. exact Es.
  - eapply Forall2_impl; [exact I3|]. intros i s Hi. exact (interned_later _ _ _ _ L36 Hi).
  - split_and!; [apply Of, octets_u2; constructor|apply Om, octets_u2; constructor|exact Oa].
  - intros Hl. destruct (Hxs (lt_err _ _ L56 Hpe)) as (gs & G1 & G2); [exact (len_tail _ _ Hl)|].
    exists gs. split; [exact G1|]. assert (Hg : len (acFields a) = len gs) by (apply Forall2_length in G1; unfold len; congruence).
    rewrite Hg. unfold members. apply (written_table (bpool ba) (member (acVersion a) DefaultMode locField)); [|lia].
    eapply Forall2_impl; [exact G2|]. intros x g Hx. apply (written_later (bpool bf)); [exact L56|exact Hx].
  - intros Hl. destruct Hys as (gs & G1 & G2); [exact (len_tail _ _ Hl)|].
    exists gs. split; [exact G1|]. assert (Hg : len (acMethods a) = len gs) by (apply Forall2_length in G1; unfold len; congruence).
    rewrite Hg. unfold methods. apply (written_table (bpool ba) (method (acVersion a) DefaultMode)); [|lia].
    eapply Forall2_impl; [exact G2|]. intros x g Hx. apply (written_later (bpool bm)); [exact L6|exact Hx].
  - intros Hl. apply len_tail in Hl.
    set (l := if given (acSource a) then _ else _) in *. assert (El : Z.b2z (given (acSource a)) = len l) by (unfold l; destruct (given _); reflexivity).
    rewrite El. apply piece_table; [exact Py|exact Hl|]. unfold l. destruct (given _); reflexivity.
Qed.
