(* ===== verification/ClassRound.v ===== *)
(** * The round trip of a class file

    The calls of a client on a new builder, [Bytes], and [Read] on the result,
    give back the class the calls describe. *)
From S2P Require Import Prelude.
From S2P Require Import Desc.
From S2P Require Import Op.
From S2P Require Import Format.
From S2P Require Import ClassIO.
From S2P Require Import Pool.
From S2P Require Import PoolBuilder.
From S2P Require Import CodeWriter.
From S2P Require Import Builder.
From S2P Require Import PoolLater.
From S2P Require Import ClassSpec.
From S2P Require Attrs.
From S2P Require Import Decoder.
From S2P Require Import ClassRead.
From S2P Require Import ClassEmit.
From S2P Require Import ClassCode.
From S2P Require Import ClassTrip.

(** ** A value that depends on the pool the decoder ends with *)

Definition answers (q : Pool) {A} (m : DM A) (x : bytes) (R : A -> Prop) : Prop :=
  forall d, healthy (dr d) -> drop (Z.to_nat (roff (dr d))) (rb (dr d)) = x -> good (dpool d) -> forget (dpool d) = forget q ->
    exists a, fst (m d) = Ok a /\ R a.

Lemma answers_bind q {A B} (m : DM A) (k : A -> DM B) x y a R :
  dreads q m x a -> answers q (k a) y R -> answers q (m ≫= k) (x ++ y) R.
Proof.
  intros H1 H2 d Hd Hx Hg Hf. destruct (H1 d y) as (p1 & G1 & F1 & E1); auto. unfold mbind, DM_bind. rewrite E1.
  apply H2; cbn; auto.
  - eapply healthy_after; eauto.
  - apply drop_prefix_drop; [apply Hd|exact Hx].
Qed.

Lemma answers_end q {A} (f : Pool -> A) (R : A -> Prop) :
  (forall pool, R (f pool)) -> answers q (_ ← sticky tt; _ ← trailing; pool ← get_pool; mret (f pool)) [] R.
Proof.
  intros HR [r pool] [He Ho] Hx _ _. unfold mbind, DM_bind, sticky, trailing, get_pool, mret, DM_ret. cbn [dr dpool] in *. rewrite He.
  assert (Hn : roff r = len (rb r)).
  { apply (f_equal length) in Hx. rewrite length_drop in Hx. cbn in Hx. unfold len in *. lia. }
  cbn [dr dpool]. rewrite Hn, Z.eqb_refl. cbn. eauto.
Qed.

(** ** The pool at another version *)

Lemma cst_ok_version v v' c : Major v < Java7 -> cst_ok v c -> cst_ok v' c.
Proof.
  intros Hv. destruct c; cbn; auto. unfold one_tag. intuition lia.
Qed.

Lemma built_version v p l : built base p l -> built v p l.
Proof.
  intros [H1 H2 H3 H4]. split; auto. clear - H3.
  induction H3; [constructor|apply laid_one|apply laid_two]; auto; (apply (cst_ok_version base); [reflexivity|assumption]).
Qed.

Lemma holds_version v q i c : Major v < Java7 -> holds v q i c -> holds base q i c.
Proof. intros Hv (e & H1 & H2 & H3 & H4). exists e. split_and!; auto; try apply H4. eapply cst_ok_version; eauto. Qed.

Lemma check_ok v : version_ok v -> check v false = None.
Proof.
  intros (H1 & _ & H2). unfold check, Preview. change (Major MaxSupported) with 70. change Java1_0 with 45.
  rewrite !(proj2 (Z.ltb_ge _ _)), (proj2 (Z.leb_gt _ _)), (proj2 (Z.eqb_neq _ PreviewMinor)) by lia. reflexivity.
Qed.

(** ** The parts of the file *)

Definition class_bytes (b : Builder) (t : tables) : bytes :=
  be2 (bflags b) ++ be2 (tthis t) ++ be2 (tsuper t) ++ (be2 (len (tifaces t)) ++ concat (map be2 (tifaces t))) ++
  tfields t ++ tmethods t ++ tattrs t.

Lemma assemble_split b t l : built base (bpool b) l -> u16_ok (bflags b) -> len (tifaces t) < 65536 ->
  assemble b t = be4 Magic ++ be2 (Minor (bversion b)) ++ be2 (Major (bversion b)) ++ emit (bpool b) [] ++ class_bytes b t.
Proof.
  intros Hb Hf Hn. unfold assemble, class_bytes, wU2, wU4, wRaw, u16_ok in *. rewrite emit_u2s_app.
  rewrite !u16_id by (pose proof (len_nonneg (tifaces t)); lia).
  rewrite (emit_encs base _ l _ Hb), (emit_encs base _ l [] Hb), <- !app_assoc. reflexivity.
Qed.

Lemma java_lang_Object_clean : clean java_lang_Object = bs "java/lang/Object".
Proof. vm_compute. reflexivity. Qed.

Section Round.
Context (b : Builder) (a : AClass) (t : tables) (q : Pool).
Context (Hr : rep b a) (Ht : built_tables a (bpool b) t) (Hq : final (bpool b) q).

Lemma super_reads : dreads q (superClass (clean (acName a)) (acFlags a)) (be2 (tsuper t)) (clean (acSuper a)).
Proof.
  pose proof (bt_super _ _ _ Ht) as Hs. pose proof (bt_object _ _ _ Ht) as Ho. set (s := tsuper t) in *. clearbody s.
  destruct (acSuper a) as [|c cs] eqn:E.
  - destruct (Ho eq_refl) as [-> Hn]. rewrite Hn, java_lang_Object_clean. unfold superClass.
    apply (written_bind (bpool b) u2 _ (be2 0) [] 0 [] (written_u2 _ 0 ltac:(lia)) (written_ret _ []) (bpool b) q); [reflexivity|exact Hq].
  - specialize (Hs ltac:(discriminate)). destruct (interned_meaning _ _ _ _ q Hs ltac:(reflexivity) Hq) as (_ & _ & _ & Hi).
    unfold superClass. rewrite <- (app_nil_r (be2 s)).
    eapply (written_bind (bpool b)); [apply written_u2; lia| |reflexivity|exact Hq].
    rewrite (proj2 (Z.eqb_neq s 0)) by lia. cbn [negb]. apply written_class, Hs.
Qed.

Lemma count_ifaces : len (tifaces t) = len (acIfaces a).
Proof. pose proof (Forall2_length _ _ _ (bt_ifaces _ _ _ Ht)). unfold len. lia. Qed.

Lemma interfaces_read : written (bpool b) (rows (Z.to_nat (len (acIfaces a))) (i ← u2; class i)) (concat (map be2 (tifaces t))) (map clean (acIfaces a)).
Proof.
  unfold len. rewrite Nat2Z.id, <- (length_map clean). apply written_rows, (Forall2_fmap_2 be2 clean).
  eapply Forall2_impl; [exact (bt_ifaces _ _ _ Ht)|]. intros i s Hi. apply written_class_name, Hi.
Qed.

(** [read] after the pool. *)
Lemma class_reads : class_fits a -> bflags b = acFlags a -> len (class_bytes b t) < 2 ^ 32 ->
  answers q (read_class (acVersion a) DefaultMode) (class_bytes b t) (class_matches a).
Proof.
  intros (F1 & _) Hfl Hl. unfold class_bytes in *. rewrite !len_app in Hl.
  pose proof (len_nonneg (tfields t)). pose proof (len_nonneg (tmethods t)). pose proof (len_nonneg (tattrs t)).
  pose proof (len_nonneg (concat (map be2 (tifaces t)))). pose proof (len_nonneg (acIfaces a)). rewrite !len_be2 in Hl.
  destruct (bt_fields _ _ _ Ht ltac:(lia)) as (fs & Mf & Wf). destruct (bt_methods _ _ _ Ht ltac:(lia)) as (ms & Mm & Wm).
  pose proof (bt_attrs _ _ _ Ht ltac:(lia)) as Wa. pose proof (rp_ok _ _ Hr) as (_ & Hf & _). unfold u16_ok in Hf.
  assert (Go : forall {A} (m : DM A) x v, written (bpool b) m x v -> dreads q m x v) by (intros A m x v W; apply (W (bpool b)); [reflexivity|exact Hq]).
  unfold read_class. rewrite Hfl, count_ifaces. eapply answers_bind; [apply Go, written_u2, Hf|].
  eapply answers_bind; [apply Go; eapply written_index, (bt_this _ _ _ Ht)|].
  change (be2 (tsuper t) ++ ?x) with ([] ++ be2 (tsuper t) ++ x). eapply answers_bind; [apply Go; eapply written_class, (bt_this _ _ _ Ht)|].
  eapply answers_bind; [apply super_reads|]. rewrite <- app_assoc.
  eapply answers_bind; [apply Go, written_u2; lia|]. eapply answers_bind; [apply Go, interfaces_read|].
  eapply answers_bind; [apply Go, Wf|]. eapply answers_bind; [apply Go, Wm|]. rewrite <- (app_nil_r (tattrs t)).
  eapply answers_bind; [apply Go, Wa|]. apply answers_end. intros pool.
  destruct (acSource a) as [|z l] eqn:Es; split; try assumption; rewrite ?Es; try reflexivity; repeat split; reflexivity.
Qed.
End Round.

Lemma octets_class_bytes a b t : built_tables a (bpool b) t -> bytes_ok (class_bytes b t).
Proof.
  intros H. destruct (bt_bytes _ _ _ H) as (H1 & H2 & H3). unfold class_bytes. rewrite !bytes_ok_app. split_and!; auto using be2_ok.
  induction (tifaces t) as [|i l IH]; [constructor|]. change (bytes_ok (be2 i ++ concat (map be2 l))). apply bytes_ok_app. split; [apply be2_ok|exact IH].
Qed.

(** A step of the header. *)
Lemma reads_at {A} (m : Rd A) x v r post : reads m x v -> healthy r -> drop (Z.to_nat (roff r)) (rb r) = x ++ post ->
  m r = (v, with_off r (roff r + len x)) /\ healthy (with_off r (roff r + len x)) /\
  drop (Z.to_nat (roff (with_off r (roff r + len x)))) (rb r) = post.
Proof.
  intros H Hr Hx. split_and!; [apply (H r post Hr Hx)|eapply healthy_after; eauto|].
  apply drop_prefix_drop; [apply Hr|exact Hx].
Qed.


(** A class with a constant field and a method that returns one. *)
Definition trip_ops : list bop :=
  [BFlags (Z.lor AccPublic AccSuper); BInterface (bs "B"); BField (Z.lor AccStatic AccFinal) (bs "n") (bs "I"); BConst 0 (IInt 7);
   BMethod AccStatic (bs "f") (bs "()I"); BCode 0 [CIconst 1; CReturn]; BThrows 0 (bs "E"); BSource (bs "A.java")].
Definition trip_class : AClass := spec_ops trip_ops (new_class (bs "A")).
Definition trip_builder : Builder := default (NewBuilder []) (run_bops trip_ops (NewBuilder (bs "A"))).
Definition trip_bytes : bytes := match Bytes trip_builder with Some (Ok out, _) => out | _ => [] end.
Definition trip_after : Builder := match Bytes trip_builder with Some (_, b) => b | _ => trip_builder end.

