(* ===== verification/Token.v ===== *)
(** * Tokens ([token/kind.go], [token/token.go], [token/ctx.go],
      [token/precedence.go], [token/diagnostic.go])

    Token kinds, the keyword tables, contextual keywords, operator precedence,
    the rejoining of shift operators, and diagnostics with their order. *)
From S2P Require Import Prelude.

(** ** Kinds

    A [Kind] is its number, in the order of the source; the [...Beg] and
    [...End] markers bound the classes. *)
Definition ILLEGAL : Z := 0.
Definition EOF : Z := 1.
Definition COMMENT : Z := 2.
Definition IDENT : Z := 3.
Definition literalBeg : Z := 4.
Definition INT : Z := 5.
Definition FLOAT : Z := 6.
Definition CHAR : Z := 7.
Definition STRING : Z := 8.
Definition TEXTBLOCK : Z := 9.
Definition TRUE : Z := 10.
Definition FALSE : Z := 11.
Definition NULL : Z := 12.
Definition literalEnd : Z := 13.
Definition operatorBeg : Z := 14.
Definition ASSIGN : Z := 15.
Definition GTR : Z := 16.
Definition LSS : Z := 17.
Definition NOT : Z := 18.
Definition TILDE : Z := 19.
Definition QUESTION : Z := 20.
Definition COLON : Z := 21.
Definition ARROW : Z := 22.
Definition EQL : Z := 23.
Definition GEQ : Z := 24.
Definition LEQ : Z := 25.
Definition NEQ : Z := 26.
Definition LAND : Z := 27.
Definition LOR : Z := 28.
Definition INC : Z := 29.
Definition DEC : Z := 30.
Definition ADD : Z := 31.
Definition SUB : Z := 32.
Definition MUL : Z := 33.
Definition QUO : Z := 34.
Definition AND : Z := 35.
Definition OR : Z := 36.
Definition XOR : Z := 37.
Definition REM : Z := 38.
Definition SHL : Z := 39.
Definition ADD_ASSIGN : Z := 40.
Definition SUB_ASSIGN : Z := 41.
Definition MUL_ASSIGN : Z := 42.
Definition QUO_ASSIGN : Z := 43.
Definition AND_ASSIGN : Z := 44.
Definition OR_ASSIGN : Z := 45.
Definition XOR_ASSIGN : Z := 46.
Definition REM_ASSIGN : Z := 47.
Definition SHL_ASSIGN : Z := 48.
Definition operatorEnd : Z := 49.
Definition separatorBeg : Z := 50.
Definition LPAREN : Z := 51.
Definition RPAREN : Z := 52.
Definition LBRACE : Z := 53.
Definition RBRACE : Z := 54.
Definition LBRACK : Z := 55.
Definition RBRACK : Z := 56.
Definition SEMICOLON : Z := 57.
Definition COMMA : Z := 58.
Definition PERIOD : Z := 59.
Definition ELLIPSIS : Z := 60.
Definition AT : Z := 61.
Definition COLONCOLON : Z := 62.
Definition separatorEnd : Z := 63.
Definition keywordBeg : Z := 64.
Definition ABSTRACT : Z := 65.
Definition ASSERT : Z := 66.
Definition BOOLEAN : Z := 67.
Definition BREAK : Z := 68.
Definition BYTE : Z := 69.
Definition CASE : Z := 70.
Definition CATCH : Z := 71.
Definition CHARK : Z := 72.
Definition CLASS : Z := 73.
Definition CONST : Z := 74.
Definition CONTINUE : Z := 75.
Definition DEFAULT : Z := 76.
Definition DO : Z := 77.
Definition DOUBLE : Z := 78.
Definition ELSE : Z := 79.
Definition ENUM : Z := 80.
Definition EXTENDS : Z := 81.
Definition FINAL : Z := 82.
Definition FINALLY : Z := 83.
Definition FLOATK : Z := 84.
Definition FOR : Z := 85.
Definition GOTO : Z := 86.
Definition IF : Z := 87.
Definition IMPLEMENTS : Z := 88.
Definition IMPORT : Z := 89.
Definition INSTANCEOF : Z := 90.
Definition INT_KW : Z := 91.
Definition INTERFACE : Z := 92.
Definition LONG : Z := 93.
Definition NATIVE : Z := 94.
Definition NEW : Z := 95.
Definition PACKAGE : Z := 96.
Definition PRIVATE : Z := 97.
Definition PROTECTED : Z := 98.
Definition PUBLIC : Z := 99.
Definition RETURN : Z := 100.
Definition SHORT : Z := 101.
Definition STATIC : Z := 102.
Definition STRICTFP : Z := 103.
Definition SUPER : Z := 104.
Definition SWITCH : Z := 105.
Definition SYNCHRONIZED : Z := 106.
Definition THIS : Z := 107.
Definition THROW : Z := 108.
Definition THROWS : Z := 109.
Definition TRANSIENT : Z := 110.
Definition TRY : Z := 111.
Definition VOID : Z := 112.
Definition VOLATILE : Z := 113.
Definition WHILE : Z := 114.
Definition UNDERSCORE : Z := 115.
Definition keywordEnd : Z := 116.
Definition NON_SEALED : Z := 117.
Definition syntheticBeg : Z := 118.
Definition SHR : Z := 119.
Definition USHR : Z := 120.
Definition SHR_ASSIGN : Z := 121.
Definition USHR_ASSIGN : Z := 122.
Definition syntheticEnd : Z := 123.

Definition kindStrings : list string := [
  "ILLEGAL"; "EOF"; "COMMENT"; "IDENT"; ""; "INT"; "FLOAT"; "CHAR"; "STRING"; "TEXTBLOCK"; "true"; "false";
  "null"; ""; ""; "="; ">"; "<"; "!"; "~"; "?"; ":"; "->"; "=="; ">="; "<="; "!="; "&&"; "||"; "++"; "--";
  "+"; "-"; "*"; "/"; "&"; "|"; "^"; "%"; "<<"; "+="; "-="; "*="; "/="; "&="; "|="; "^="; "%="; "<<="; "";
  ""; "("; ")"; "{"; "}"; "["; "]"; ";"; ","; "."; "..."; "@"; "::"; ""; ""; "abstract"; "assert"; "boolean";
  "break"; "byte"; "case"; "catch"; "char"; "class"; "const"; "continue"; "default"; "do"; "double"; "else";
  "enum"; "extends"; "final"; "finally"; "float"; "for"; "goto"; "if"; "implements"; "import"; "instanceof";
  "int"; "interface"; "long"; "native"; "new"; "package"; "private"; "protected"; "public"; "return";
  "short"; "static"; "strictfp"; "super"; "switch"; "synchronized"; "this"; "throw"; "throws"; "transient";
  "try"; "void"; "volatile"; "while"; "_"; ""; "non-sealed"; ""; "> >"; "> > >"; "> >="; "> > >="]%string.

(** [strconv.Itoa] of a kind. *)
Fixpoint itoa_digits (fuel : nat) (n : Z) (acc : bytes) : bytes :=
  match fuel with
  | O => acc
  | S fuel => if n <? 10 then 48 + n :: acc else itoa_digits fuel (n / 10) (48 + n mod 10 :: acc)
  end.

Definition KindString (k : Z) : bytes :=
  match kindStrings !! Z.to_nat k with
  | Some (String _ _ as s) => bs s
  | _ => bs "Kind(" ++ itoa_digits 3 k [] ++ bs ")"
  end.

(** The table [init] fills: the keywords and the three literal words.  The
    spellings are distinct, as [init] checks by counting them. *)
Definition identTable : list (string * Z) :=
  map (fun k => (nth (Z.to_nat k) kindStrings ""%string, k)) (seqZ (keywordBeg + 1) (keywordEnd - keywordBeg - 1)) ++
  [("true"%string, TRUE); ("false"%string, FALSE); ("null"%string, NULL)].

(** [Lookup], for a table of spellings; [d] is what an absent one gives. *)
Definition table_lookup (t : list (string * Z)) (d : Z) (s : bytes) : Z :=
  match List.find (fun e => bool_decide (bs (fst e) = s)) t with Some e => snd e | None => d end.

Definition Lookup (s : bytes) : Z := table_lookup identTable IDENT s.

Definition IsLiteral (k : Z) : bool := (literalBeg <? k) && (k <? literalEnd).
Definition IsOperator (k : Z) : bool := (operatorBeg <? k) && (k <? operatorEnd).
Definition IsSeparator (k : Z) : bool := (separatorBeg <? k) && (k <? separatorEnd).
Definition IsKeyword (k : Z) : bool := (keywordBeg <? k) && (k <? keywordEnd).
Definition IsSynthetic (k : Z) : bool := (syntheticBeg <? k) && (k <? syntheticEnd).

(** ** Contextual keywords *)

Definition CtxNone : Z := 0.
Definition CtxExports : Z := 1.
Definition CtxModule : Z := 2.
Definition CtxNonSealed : Z := 3.
Definition CtxOpen : Z := 4.
Definition CtxOpens : Z := 5.
Definition CtxPermits : Z := 6.
Definition CtxProvides : Z := 7.
Definition CtxRecord : Z := 8.
Definition CtxRequires : Z := 9.
Definition CtxSealed : Z := 10.
Definition CtxTo : Z := 11.
Definition CtxTransitive : Z := 12.
Definition CtxUses : Z := 13.
Definition CtxVar : Z := 14.
Definition CtxWhen : Z := 15.
Definition CtxWith : Z := 16.
Definition CtxYield : Z := 17.
Definition numCtx : Z := 18.

Definition ctxStrings : list string := [
  ""; "exports"; "module"; "non-sealed"; "open"; "opens"; "permits"; "provides";
  "record"; "requires"; "sealed"; "to"; "transitive"; "uses"; "var"; "when"; "with"; "yield"]%string.

(** [Ctx.String]; an index past the array panics. *)
Definition CtxString (c : Z) : option string := ctxStrings !! Z.to_nat c.

Definition ctxTable : list (string * Z) :=
  map (fun c => (nth (Z.to_nat c) ctxStrings ""%string, c)) (seqZ (CtxNone + 1) (numCtx - CtxNone - 1)).

Definition LookupCtx (s : bytes) : Z := table_lookup ctxTable CtxNone s.

Definition BarredFromTypeIdentifier (c : Z) : bool :=
  (c =? CtxPermits) || (c =? CtxRecord) || (c =? CtxSealed) || (c =? CtxVar) || (c =? CtxYield).
Definition BarredFromMethodIdentifier (c : Z) : bool := c =? CtxYield.

(** ** Tokens *)

Definition FlagAdjacent : Z := Z.shiftl 1 0.
Definition FlagNLBefore : Z := Z.shiftl 1 1.

Record Token := mkToken { tKind : Z; tCtx : Z; tFlags : Z; tPos : Z; tEnd : Z }.

Definition Adjacent (t : Token) : bool := negb (Z.land (tFlags t) FlagAdjacent =? 0).
Definition NLBefore (t : Token) : bool := negb (Z.land (tFlags t) FlagNLBefore =? 0).
Definition TokenLen (t : Token) : Z := u32 (tEnd t - tPos t).
Definition Is (t : Token) (c : Z) : bool := (tCtx t =? c) && negb (tCtx t =? CtxNone).
Definition IsTypeIdentifier (t : Token) : bool := (tKind t =? IDENT) && negb (BarredFromTypeIdentifier (tCtx t)).
Definition IsMethodIdentifier (t : Token) : bool := (tKind t =? IDENT) && negb (BarredFromMethodIdentifier (tCtx t)).

(** [Join]: the shift operator at the head, and the tokens it takes. *)
Definition Join (toks : list Token) : Z * Z :=
  match toks with
  | t0 :: t1 :: rest =>
      if negb (tKind t0 =? GTR) || negb (Adjacent t1) then (ILLEGAL, 0)
      else if tKind t1 =? GEQ then (SHR_ASSIGN, 2)
      else if tKind t1 =? GTR then
        match rest with
        | t2 :: _ =>
            if Adjacent t2 then
              if tKind t2 =? GEQ then (USHR_ASSIGN, 3)
              else if tKind t2 =? GTR then (USHR, 3)
              else (SHR, 2)
            else (SHR, 2)
        | [] => (SHR, 2)
        end
      else (ILLEGAL, 0)
  | _ => (ILLEGAL, 0)
  end.

(** ** Precedence *)

Definition LowestPrec : Z := 0.

Definition Precedence (k : Z) : Z :=
  if k =? LOR then 1
  else if k =? LAND then 2
  else if k =? OR then 3
  else if k =? XOR then 4
  else if k =? AND then 5
  else if (k =? EQL) || (k =? NEQ) then 6
  else if (k =? LSS) || (k =? GTR) || (k =? LEQ) || (k =? GEQ) || (k =? INSTANCEOF) then 7
  else if (k =? SHL) || (k =? SHR) || (k =? USHR) then 8
  else if (k =? ADD) || (k =? SUB) then 9
  else if (k =? MUL) || (k =? QUO) || (k =? REM) then 10
  else LowestPrec.

(** ** Diagnostics *)

Inductive Severity := SevError | SevWarning.

Definition SeverityString (s : Severity) : bytes := match s with SevWarning => bs "warning" | SevError => bs "error" end.

Record Diagnostic := mkDiagnostic { dPos : Z; dEnd : Z; dSeverity : Severity; dMsg : bytes }.

(** Go's [<] on strings. *)
Fixpoint bytes_lt (a b : bytes) : bool :=
  match a, b with
  | [], [] => false
  | [], _ :: _ => true
  | _ :: _, [] => false
  | x :: a, y :: b => if x <? y then true else if y <? x then false else bytes_lt a b
  end.

Definition diag_less (a b : Diagnostic) : bool :=
  if negb (dPos a =? dPos b) then dPos a <? dPos b
  else if negb (dEnd a =? dEnd b) then dEnd a <? dEnd b
  else bytes_lt (dMsg a) (dMsg b).

(** [sort.SliceStable] by [diag_less]: stable insertion. *)
Fixpoint insert_diag (d : Diagnostic) (l : list Diagnostic) : list Diagnostic :=
  match l with
  | [] => [d]
  | e :: l => if diag_less e d then e :: insert_diag d l else d :: e :: l
  end.

Fixpoint SortDiagnostics (l : list Diagnostic) : list Diagnostic :=
  match l with [] => [] | d :: l => insert_diag d (SortDiagnostics l) end.

(** Sorting loses and adds nothing. *)
Lemma insert_diag_perm d l : insert_diag d l ≡ₚ d :: l.
Proof. induction l as [|e l IH]; cbn; [reflexivity|]. bool_case; [rewrite IH; apply perm_swap|reflexivity]. Qed.

Lemma SortDiagnostics_perm l : SortDiagnostics l ≡ₚ l.
Proof. induction l as [|d l IH]; cbn; [reflexivity|]. rewrite insert_diag_perm, IH. reflexivity. Qed.
