(* ===== verification/SourceFile.v ===== *)
(** * Source files and positions ([token/file.go])

    Unicode-escape translation, the map from translated offsets back to the
    bytes the user typed, and the resolution of positions to lines and columns. *)
From S2P Require Import Prelude.
From S2P Require Import Utf8.
From S2P Require Import Token.

(** ** Positions *)

Definition NoPos : Z := 0.
Definition IsValid (p : Z) : bool := negb (p =? NoPos).

Record Position := mkPosition { Filename : bytes; POffset : Z; Line : Z; Column : Z }.

Record edit := mkEdit { tOff : Z; tLen : Z; rOff : Z; rLen : Z }.

Record File := mkFile {
  fname : bytes; raw : bytes; text : bytes; edits : list edit; lines : list Z; fdiags : list Diagnostic }.

(** [b[i]]; every use is guarded. *)
Definition byte (b : bytes) (i : Z) : Z := nth (Z.to_nat i) b 0.

Definition PosOf (off : Z) : Z := u32 (off + 1).
Definition OffsetOf (p : Z) : Z := if p =? NoPos then -1 else p - 1.

(** [sort.Search]: the loop, with fuel for each halving. *)
Fixpoint search_loop (fuel : nat) (f : Z -> bool) (i j : Z) : Z :=
  match fuel with
  | O => i
  | S fuel =>
      if i <? j then
        let h := Z.shiftr (i + j) 1 in
        if negb (f h) then search_loop fuel f (h + 1) j else search_loop fuel f i h
      else i
  end.

Definition Search (n : Z) (f : Z -> bool) : Z := search_loop (S (Z.to_nat n)) f 0 n.

Definition edit_at (es : list edit) (i : Z) : edit := nth (Z.to_nat i) es (mkEdit 0 0 0 0).

Definition rawStart (es : list edit) (t : Z) : Z :=
  if len es =? 0 then t
  else
    let i := Search (len es) (fun k => t <? tOff (edit_at es k)) - 1 in
    if i <? 0 then t
    else
      let e := edit_at es i in
      if t <? tOff e + tLen e then rOff e
      else rOff e + rLen e + (t - (tOff e + tLen e)).

Definition rawEnd (es : list edit) (t : Z) : Z :=
  if len es =? 0 then t
  else
    let i := Search (len es) (fun k => t <=? tOff (edit_at es k)) - 1 in
    if i <? 0 then t
    else
      let e := edit_at es i in
      if t <? tOff e + tLen e then rOff e + rLen e
      else rOff e + rLen e + (t - (tOff e + tLen e)).

(** A slice expression; out of range it panics. *)
Definition slice_of (b : bytes) (lo hi : Z) : option bytes :=
  if (0 <=? lo) && (lo <=? hi) && (hi <=? len b) then Some (slice b lo hi) else None.

Definition Slice (f : File) (pos end_ : Z) : option bytes := slice_of (text f) (OffsetOf pos) (OffsetOf end_).

Definition RawSpan (f : File) (pos end_ : Z) : Z * Z :=
  let a := rawStart (edits f) (OffsetOf pos) in
  let b := rawEnd (edits f) (OffsetOf end_) in
  (a, if b <? a then a else b).

Definition RawOf (f : File) (pos end_ : Z) : option bytes :=
  let '(a, b) := RawSpan f pos end_ in slice_of (raw f) a b.

Definition Between (f : File) (a b : Token) : option bytes :=
  if tPos b <? tEnd a then Some [] else Slice f (tEnd a) (tPos b).

(** [Position] *)
Definition ResolvePos (f : File) (p : Z) : Position :=
  if negb (IsValid p) then mkPosition (fname f) (-1) 0 0
  else
    let off := rawStart (edits f) (OffsetOf p) in
    let i := Search (len (lines f)) (fun k => off <? byte (lines f) k) - 1 in
    let i := if i <? 0 then 0 else i in
    mkPosition (fname f) off (i + 1) (off - byte (lines f) i + 1).

(** ** Lines *)

(** [buildLines], from offset [i] on, the first start apart. *)
Fixpoint line_starts (b : bytes) (i : Z) : list Z :=
  match b with
  | [] => []
  | 10 :: b => (i + 1) :: line_starts b (i + 1)
  | 13 :: 10 :: b => (i + 2) :: line_starts b (i + 2)
  | 13 :: b => (i + 1) :: line_starts b (i + 1)
  | _ :: b => line_starts b (i + 1)
  end.

Definition buildLines (raw : bytes) : list Z := 0 :: line_starts raw 0.

(** ** Escape translation *)

Definition hexVal (c : Z) : Z :=
  if (48 <=? c) && (c <=? 57) then c - 48
  else if (97 <=? c) && (c <=? 102) then c - 97 + 10
  else if (65 <=? c) && (c <=? 70) then c - 65 + 10
  else -1.

(** The length of the run of [c] at the head. *)
Fixpoint run_of (c : Z) (b : bytes) : Z :=
  match b with
  | x :: b => if x =? c then 1 + run_of c b else 0
  | [] => 0
  end.

(** The loop over the four digits. *)
Fixpoint hex_digits (n : nat) (b : bytes) (k v : Z) : option Z :=
  match n with
  | O => Some v
  | S n =>
      let d := hexVal (byte b k) in
      if d <? 0 then None else hex_digits n b (k + 1) (Z.lor (Z.shiftl v 4) d)
  end.

(** [decodeEscape]: the rune and the offset after it. *)
Definition decodeEscape (raw : bytes) (i : Z) : option (Z * Z) :=
  let k := i + 1 + run_of 117 (drop (Z.to_nat (i + 1)) raw) in
  if (k =? i + 1) || (len raw <? k + 4) then None
  else v ← hex_digits 4 raw k 0; Some (v, k + 4).

(** What [appendRune] appends. *)
Definition appendRune (r : Z) : bytes :=
  if (0xD800 <=? r) && (r <=? 0xDFFF)
  then [u8 (Z.lor 0xE0 (Z.shiftr r 12)); u8 (Z.lor 0x80 (Z.land (Z.shiftr r 6) 0x3F)); u8 (Z.lor 0x80 (Z.land r 0x3F))]
  else AppendRune r.

(** The escape at [i], paired with the next when the two are surrogates. *)
Definition paired (raw : bytes) (r next : Z) : Z * Z :=
  if (0xD800 <=? r) && (r <=? 0xDBFF) && (next <? len raw) && (byte raw next =? 92) then
    match decodeEscape raw next with
    | Some (lo, next2) =>
        if (0xDC00 <=? lo) && (lo <=? 0xDFFF)
        then (0x10000 + Z.shiftl (r - 0xD800) 10 + (lo - 0xDC00), next2)
        else (r, next)
    | None => (r, next)
    end
  else (r, next).

Definition bad_escape (start : Z) : Diagnostic :=
  mkDiagnostic (PosOf start) (u32 (start + 2)) SevError (bs "invalid Unicode escape").

(** The loop of [translate]; [i] grows at each round. *)
Fixpoint translate_loop (fuel : nat) (raw : bytes) (i : Z) (text : bytes) (es : list edit) (ds : list Diagnostic)
    : bytes * list edit * list Diagnostic :=
  match fuel with
  | O => (text, es, ds)
  | S fuel =>
      if len raw <=? i then (text, es, ds)
      else if negb (byte raw i =? 92) then translate_loop fuel raw (i + 1) (text ++ [byte raw i]) es ds
      else
        let j := i + run_of 92 (drop (Z.to_nat i) raw) in
        if ((j - i) mod 2 =? 0) || (j =? len raw) || negb (byte raw j =? 117)
        then translate_loop fuel raw j (text ++ slice raw i j) es ds
        else
          let text := text ++ slice raw i (j - 1) in
          let i := j - 1 in
          match decodeEscape raw i with
          | None => translate_loop fuel raw (i + 1) (text ++ [92]) es (ds ++ [bad_escape (len text)])
          | Some (r, next) =>
              let '(r, rNext) := paired raw r next in
              translate_loop fuel raw rNext (text ++ appendRune r)
                (es ++ [mkEdit (len text) (len (appendRune r)) i (rNext - i)]) ds
          end
  end.

Definition translate (raw : bytes) : bytes * list edit * list Diagnostic :=
  if bool_decide (92 ∈ raw) then translate_loop (S (length raw)) raw 0 [] [] []
  else (raw, [], []).

(** A trailing SUB is dropped. *)
Definition trim_sub (text : bytes) : bytes :=
  let n := len text in
  if (0 <? n) && (byte text (n - 1) =? 0x1A) then take (Z.to_nat (n - 1)) text else text.

Definition NewFile (name src : bytes) : File :=
  let '(text, es, ds) := translate src in
  mkFile name src (trim_sub text) es (buildLines src) ds.

Definition Size (f : File) : Z := len (text f).
Definition LineCount (f : File) : Z := len (lines f).
