(* ===== verification/SourceMap.v ===== *)
(** * What translation and positions mean ([token/file.go])

    The reference [segments] reads JLS 3.3 one byte at a time and cuts a source
    into copied bytes and escapes; [translate] is shown to be that cut, and the
    offset map and the line table are shown to be read off it. *)
From S2P Require Import Prelude.
From S2P Require Import Utf8.
From S2P Require Import Token.
From S2P Require Import SourceFile.

(** ** The reference *)

(** A copied byte, with whether it is an ill-formed escape's backslash; or an
    escape, with what was typed and what it stands for. *)
Inductive seg := Copy (bad : bool) (c : Z) | Esc (typed out : bytes).

Definition seg_raw (s : seg) : bytes := match s with Copy _ c => [c] | Esc x _ => x end.
Definition seg_out (s : seg) : bytes := match s with Copy _ c => [c] | Esc _ o => o end.

Definition segs_raw (l : list seg) : bytes := flat_map seg_raw l.
Definition segs_out (l : list seg) : bytes := flat_map seg_out l.

(** The value of four hexadecimal digits. *)
Definition hex4 (b : bytes) : option (Z * bytes) :=
  match b with
  | h1 :: h2 :: h3 :: h4 :: rest =>
      if (hexVal h1 <? 0) || (hexVal h2 <? 0) || (hexVal h3 <? 0) || (hexVal h4 <? 0) then None
      else Some (((hexVal h1 * 16 + hexVal h2) * 16 + hexVal h3) * 16 + hexVal h4, rest)
  | _ => None
  end.

(** UnicodeEscape: a backslash, one [u] or more, four digits. *)
Definition escape_head (b : bytes) : option (Z * bytes) :=
  match b with
  | 92 :: t =>
      let n := run_of 117 t in
      if n =? 0 then None else hex4 (drop (Z.to_nat n) t)
  | _ => None
  end.

Definition high_surrogate (r : Z) : bool := (0xD800 <=? r) && (r <=? 0xDBFF).
Definition low_surrogate (r : Z) : bool := (0xDC00 <=? r) && (r <=? 0xDFFF).

(** An escape, or two that spell a surrogate pair: what it stands for, and the
    rest. *)
Definition escape_rune (b : bytes) : option (Z * bytes) :=
  match escape_head b with
  | None => None
  | Some (r, rest) =>
      match escape_head rest with
      | Some (lo, rest2) =>
          if high_surrogate r && low_surrogate lo
          then Some (0x10000 + (r - 0xD800) * 1024 + (lo - 0xDC00), rest2) else Some (r, rest)
      | None => Some (r, rest)
      end
  end.

(** What stands before [rest] in [b]. *)
Definition before (b rest : bytes) : bytes := take (length b - length rest) b.

(** JLS 3.3: a backslash may begin an escape when the backslashes right before
    it are even in number; [odd] says that they are not. *)
Fixpoint segments (fuel : nat) (odd : bool) (b : bytes) : list seg :=
  match fuel, b with
  | S fuel, c :: t =>
      if negb (c =? 92) then Copy false c :: segments fuel false t
      else if odd then Copy false 92 :: segments fuel false t
      else match escape_rune b with
           | Some (r, rest) => Esc (before b rest) (appendRune r) :: segments fuel false rest
           | None => Copy (bool_decide (head t = Some 117)) 92 :: segments fuel true t
           end
  | _, _ => []
  end.

Definition source_segments (raw : bytes) : list seg := segments (length raw) false raw.

(** The edits and the diagnostics of a cut, from offsets [t] and [r] on. *)
Fixpoint seg_edits (t r : Z) (l : list seg) : list edit :=
  match l with
  | [] => []
  | Copy _ _ :: l => seg_edits (t + 1) (r + 1) l
  | Esc x o :: l => mkEdit t (len o) r (len x) :: seg_edits (t + len o) (r + len x) l
  end.

Fixpoint seg_diags (t : Z) (l : list seg) : list Diagnostic :=
  match l with
  | [] => []
  | Copy bad _ :: l => (if bad then [bad_escape t] else []) ++ seg_diags (t + 1) l
  | Esc _ o :: l => seg_diags (t + len o) l
  end.

(** ** Escapes *)

Lemma run_of_nonneg c b : 0 <= run_of c b.
Proof. induction b as [|x b IH]; cbn; [lia|]. destruct (x =? c); lia. Qed.

Lemma run_of_le c b : run_of c b <= len b.
Proof. induction b as [|x b IH]; cbn [run_of]; [reflexivity|]. rewrite len_cons. destruct (x =? c); pose proof (len_nonneg b); lia. Qed.

(** A run and what follows it. *)
Lemma run_of_split c b :
  b = replicate (Z.to_nat (run_of c b)) c ++ drop (Z.to_nat (run_of c b)) b /\
  head (drop (Z.to_nat (run_of c b)) b) <> Some c.
Proof.
  induction b as [|x b [IH1 IH2]]; cbn [run_of]; [split; [reflexivity|discriminate]|].
  destruct (x =? c) eqn:E; to_Z; [subst x|split; [reflexivity|change (Z.to_nat 0) with 0%nat; cbn; congruence]].
  pose proof (run_of_nonneg c b). replace (Z.to_nat (1 + run_of c b)) with (S (Z.to_nat (run_of c b))) by lia.
  cbn [replicate app drop]. split; [f_equal; exact IH1|exact IH2].
Qed.

Lemma byte_drop b i k : 0 <= i -> 0 <= k -> byte b (i + k) = byte (drop (Z.to_nat i) b) k.
Proof. intros Hi Hk. unfold byte. rewrite nth_skipn. f_equal. lia. Qed.

Lemma dropped_len (b : bytes) i : 0 <= i <= len b -> len (drop (Z.to_nat i) b) = len b - i.
Proof. intros H. unfold len in *. rewrite length_drop. lia. Qed.

Lemma hexVal_range c : -1 <= hexVal c < 16.
Proof. unfold hexVal. repeat (bool_case; to_Z); lia. Qed.

Lemma hex_digits_hex4 raw k :
  0 <= k -> k + 4 <= len raw ->
  hex_digits 4 raw k 0 = option_map fst (hex4 (drop (Z.to_nat k) raw)) /\
  (forall r rest, hex4 (drop (Z.to_nat k) raw) = Some (r, rest) -> rest = drop (Z.to_nat (k + 4)) raw).
Proof.
  intros Hk Hl. pose proof (dropped_len raw k ltac:(lia)) as Hd.
  replace (Z.to_nat (k + 4)) with (Z.to_nat k + 4)%nat by lia. rewrite <- drop_drop.
  replace k with (k + 0) at 1 by lia. cbn [hex_digits].
  replace (k + 0 + 1) with (k + 1) by lia. replace (k + 1 + 1) with (k + 2) by lia. replace (k + 2 + 1) with (k + 3) by lia.
  rewrite !(byte_drop raw k) by lia. set (l := drop (Z.to_nat k) raw) in *.
  destruct l as [|h1 [|h2 [|h3 [|h4 rest]]]]; unfold len in Hd, Hl; cbn [length] in Hd; try lia.
  unfold byte. change (Z.to_nat 0) with 0%nat. change (Z.to_nat 1) with 1%nat. change (Z.to_nat 2) with 2%nat.
  change (Z.to_nat 3) with 3%nat. cbn [nth hex4 drop].
  pose proof (hexVal_range h1). pose proof (hexVal_range h2). pose proof (hexVal_range h3). pose proof (hexVal_range h4).
  destruct (hexVal h1 <? 0) eqn:E1; cbn [orb]; [split; [reflexivity|discriminate]|].
  destruct (hexVal h2 <? 0) eqn:E2; cbn [orb]; [split; [reflexivity|discriminate]|].
  destruct (hexVal h3 <? 0) eqn:E3; cbn [orb]; [split; [reflexivity|discriminate]|].
  destruct (hexVal h4 <? 0) eqn:E4; cbn [orb]; [split; [reflexivity|discriminate]|]. to_Z.
  cbn [option_map fst]. rewrite !lor_shiftl_add by lia. split; [f_equal; lia|]. intros r rest' [= _ <-]. reflexivity.
Qed.

(** [decodeEscape] at a backslash is [escape_head] of the suffix. *)
Lemma decodeEscape_head raw i :
  0 <= i < len raw -> byte raw i = 92 ->
  match decodeEscape raw i with
  | Some (v, k) => escape_head (drop (Z.to_nat i) raw) = Some (v, drop (Z.to_nat k) raw) /\ i + 6 <= k <= len raw
  | None => escape_head (drop (Z.to_nat i) raw) = None
  end.
Proof.
  intros Hi Hb. unfold decodeEscape.
  assert (Hs : drop (Z.to_nat i) raw = 92 :: drop (Z.to_nat (i + 1)) raw).
  { destruct (lookup_lt_is_Some_2 raw (Z.to_nat i)) as [x Hx]; [unfold len in Hi; lia|].
    rewrite (drop_S _ _ _ Hx). unfold byte in Hb. rewrite (nth_lookup_default _ _ _ _ Hx) in Hb. subst x.
    f_equal. f_equal. lia. }
  rewrite Hs. cbn [escape_head]. cbv zeta. set (t := drop (Z.to_nat (i + 1)) raw).
  pose proof (run_of_nonneg 117 t) as Hn. set (n := run_of 117 t) in *.
  assert (Hd : drop (Z.to_nat n) t = drop (Z.to_nat (i + 1 + n)) raw) by (unfold t; rewrite drop_drop; f_equal; lia).
  assert (Hle : i + 1 + n <= len raw).
  { pose proof (run_of_le 117 t) as H. unfold t in H at 2. rewrite dropped_len in H by lia. fold n in H. lia. }
  rewrite Hd. destruct (i + 1 + n =? i + 1) eqn:E1; to_Z; cbn [orb].
  { rewrite (proj2 (Z.eqb_eq n 0)) by lia. reflexivity. }
  rewrite (proj2 (Z.eqb_neq n 0)) by lia.
  destruct (len raw <? i + 1 + n + 4) eqn:E2; to_Z.
  - pose proof (dropped_len raw (i + 1 + n) ltac:(lia)) as Hlen.
    destruct (drop (Z.to_nat (i + 1 + n)) raw) as [|h1 [|h2 [|h3 [|h4 rest]]]]; try reflexivity.
    rewrite !len_cons in Hlen. pose proof (len_nonneg rest). lia.
  - destruct (hex_digits_hex4 raw (i + 1 + n) ltac:(lia) ltac:(lia)) as [-> Hr].
    destruct (hex4 _) as [[v rest]|]; cbn; [|reflexivity].
    rewrite (Hr _ _ eq_refl). split; [reflexivity|lia].
Qed.

Lemma escape_head_head b : head b <> Some 92 -> escape_head b = None.
Proof.
  destruct b as [|c t]; [reflexivity|]. cbn [head]. intros H. unfold escape_head.
  destruct c as [|p|p]; try reflexivity. do 7 (destruct p as [p|p|]; try reflexivity). congruence.
Qed.

Lemma head_drop_byte b i : 0 <= i < len b -> head (drop (Z.to_nat i) b) = Some (byte b i).
Proof.
  intros H. destruct (lookup_lt_is_Some_2 b (Z.to_nat i)) as [x Hx]; [unfold len in H; lia|].
  rewrite (drop_S _ _ _ Hx). unfold byte. rewrite (nth_lookup_default _ _ _ _ Hx). reflexivity.
Qed.

(** The code's escape and pairing are [escape_rune]. *)
Lemma paired_rune raw i :
  0 <= i < len raw -> byte raw i = 92 ->
  match decodeEscape raw i with
  | Some (v, k) => escape_rune (drop (Z.to_nat i) raw) =
      Some (fst (paired raw v k), drop (Z.to_nat (snd (paired raw v k))) raw) /\
      i + 6 <= snd (paired raw v k) <= len raw
  | None => escape_rune (drop (Z.to_nat i) raw) = None
  end.
Proof.
  intros Hi Hb. pose proof (decodeEscape_head raw i Hi Hb) as H. unfold escape_rune.
  destruct (decodeEscape raw i) as [[v k]|]; [|rewrite H; reflexivity]. destruct H as [-> Hk].
  unfold paired, high_surrogate, low_surrogate.
  destruct (k <? len raw) eqn:Ek; to_Z.
  2: { rewrite drop_ge by (unfold len in *; lia). rewrite andb_false_r. cbn. rewrite drop_ge by (unfold len in *; lia). auto. }
  destruct (byte raw k =? 92) eqn:Eb; to_Z.
  2: { rewrite escape_head_head by (rewrite head_drop_byte by lia; congruence). rewrite andb_false_r. cbn. auto. }
  pose proof (decodeEscape_head raw k ltac:(lia) Eb) as H2. rewrite !andb_true_r.
  destruct (decodeEscape raw k) as [[lo k2]|].
  - destruct H2 as [-> Hk2]. destruct ((0xD800 <=? v) && (v <=? 0xDBFF)); cbn [andb]; [|cbn; auto].
    destruct ((0xDC00 <=? lo) && (lo <=? 0xDFFF)); cbn [fst snd]; [|auto].
    rewrite Z.shiftl_mul_pow2 by lia. split; [reflexivity|lia].
  - rewrite H2. bool_case; cbn; auto.
Qed.

Lemma hex4_rest b r rest : hex4 b = Some (r, rest) -> exists x, b = x ++ rest /\ len x = 4.
Proof.
  destruct b as [|h1 [|h2 [|h3 [|h4 t]]]]; try discriminate. unfold hex4. bool_case; [discriminate|].
  intros [= _ <-]. exists [h1; h2; h3; h4]. auto.
Qed.

Lemma escape_head_rest b r rest : escape_head b = Some (r, rest) -> exists x, b = x ++ rest /\ 6 <= len x.
Proof.
  destruct b as [|c t]; [discriminate|]. intros H. destruct (Z.eq_dec c 92) as [->|Hc].
  - cbn [escape_head] in H. cbv zeta in H. pose proof (run_of_nonneg 117 t). set (n := run_of 117 t) in *.
    destruct (n =? 0) eqn:En; [discriminate|]. to_Z. apply hex4_rest in H as (x & E & Hx).
    exists (92 :: take (Z.to_nat n) t ++ x). cbn. rewrite <- app_assoc, <- E, take_drop. split; [reflexivity|].
    pose proof (run_of_le 117 t). fold n in H0. rewrite len_cons, len_app. unfold len in *. rewrite length_take. lia.
  - rewrite escape_head_head in H; [discriminate|]. cbn. congruence.
Qed.

Lemma escape_rune_rest b r rest : escape_rune b = Some (r, rest) -> exists x, b = x ++ rest /\ 6 <= len x.
Proof.
  unfold escape_rune. destruct (escape_head b) as [[v t]|] eqn:E; [|discriminate].
  apply escape_head_rest in E as (x & -> & Hx).
  destruct (escape_head t) as [[lo t2]|] eqn:E2; [bool_case|]; intros [= <- <-]; eauto.
  apply escape_head_rest in E2 as (y & -> & Hy). exists (x ++ y). rewrite <- app_assoc, len_app. split; [reflexivity|lia].
Qed.

Lemma before_app (x rest : bytes) : before (x ++ rest) rest = x.
Proof.
  unfold before. rewrite length_app. replace (length x + length rest - length rest)%nat with (length x) by lia.
  apply take_app_length.
Qed.

Lemma segments_fuel n m odd b : (length b <= n)%nat -> (length b <= m)%nat -> segments n odd b = segments m odd b.
Proof.
  revert m odd b. induction n as [|n IH]; intros [|m] odd [|c t] Hn Hm; cbn in Hn, Hm; try lia; try reflexivity.
  cbn [segments]. destruct (negb (c =? 92)) eqn:Ec; [f_equal; apply IH; lia|].
  destruct odd; [f_equal; apply IH; lia|]. to_Z. subst c.
  destruct (escape_rune (92 :: t)) as [[r rest]|] eqn:E; [|f_equal; apply IH; lia].
  apply escape_rune_rest in E as (x & E & Hx). f_equal. apply IH;
    apply (f_equal length) in E; rewrite length_app in E; unfold len in Hx; cbn in E; lia.
Qed.

(** The cut, without fuel. *)
Definition cut (odd : bool) (b : bytes) : list seg := segments (length b) odd b.

Lemma cut_other odd c t : c <> 92 -> cut odd (c :: t) = Copy false c :: cut false t.
Proof. intros H. unfold cut. cbn [length segments]. rewrite (proj2 (Z.eqb_neq c 92) H). reflexivity. Qed.

Lemma cut_odd t : cut true (92 :: t) = Copy false 92 :: cut false t.
Proof. reflexivity. Qed.

Lemma cut_none t : escape_rune (92 :: t) = None -> cut false (92 :: t) = Copy (bool_decide (head t = Some 117)) 92 :: cut true t.
Proof. intros H. unfold cut. cbn [length segments]. rewrite Z.eqb_refl, H. reflexivity. Qed.

Lemma cut_escape b r rest :
  head b = Some 92 -> escape_rune b = Some (r, rest) -> cut false b = Esc (before b rest) (appendRune r) :: cut false rest.
Proof.
  destruct b as [|c t]; [discriminate|]. intros [= ->] H. unfold cut. cbn [length segments]. rewrite Z.eqb_refl, H.
  cbn [negb]. f_equal. apply escape_rune_rest in H as (x & E & Hx). apply segments_fuel; [|lia].
  apply (f_equal length) in E. rewrite length_app in E. cbn in E. unfold len in Hx. lia.
Qed.

Lemma escape_rune_not_u t : head t <> Some 117 -> escape_rune (92 :: t) = None.
Proof.
  intros H. unfold escape_rune. cbn [escape_head]. cbv zeta.
  replace (run_of 117 t) with 0; [reflexivity|]. destruct t as [|x t]; [reflexivity|]. cbn [run_of].
  rewrite (proj2 (Z.eqb_neq x 117)); [reflexivity|]. intros ->. apply H. reflexivity.
Qed.

Lemma cut_copy t : head t <> Some 117 -> cut false (92 :: t) = Copy false 92 :: cut true t.
Proof. intros H. rewrite cut_none by (apply escape_rune_not_u, H). rewrite bool_decide_false by exact H. reflexivity. Qed.

(** Backslashes in pairs are copied. *)
Lemma cut_pairs m b : cut false (replicate (2 * m) 92 ++ b) = replicate (2 * m) (Copy false 92) ++ cut false b.
Proof.
  induction m as [|m IH]; [reflexivity|]. replace (2 * S m)%nat with (S (S (2 * m))) by lia.
  cbn [replicate app]. rewrite cut_copy by discriminate. rewrite cut_odd, IH. reflexivity.
Qed.

Lemma cut_parity odd t : head t <> Some 92 -> cut odd t = cut false t.
Proof.
  destruct t as [|c t]; [reflexivity|]. intros H. assert (c <> 92) by (intros ->; apply H; reflexivity).
  rewrite !cut_other by assumption. reflexivity.
Qed.

(** A run that begins no escape is copied. *)
Lemma cut_run n t :
  head t <> Some 92 -> (Nat.Even n \/ head t <> Some 117) ->
  cut false (replicate n 92 ++ t) = replicate n (Copy false 92) ++ cut false t.
Proof.
  intros Ht [[m ->]|Hu]; [apply cut_pairs|].
  destruct (Nat.Even_or_Odd n) as [[m ->]|[m ->]]; [apply cut_pairs|].
  rewrite !replicate_add, <- !app_assoc, cut_pairs. cbn [replicate app]. rewrite cut_copy by exact Hu.
  rewrite cut_parity by exact Ht. reflexivity.
Qed.

(** ** The loop *)

Lemma segs_out_app l k : segs_out (l ++ k) = segs_out l ++ segs_out k.
Proof. apply flat_map_app. Qed.
Lemma segs_raw_app l k : segs_raw (l ++ k) = segs_raw l ++ segs_raw k.
Proof. apply flat_map_app. Qed.

Lemma seg_edits_app t r l k :
  seg_edits t r (l ++ k) = seg_edits t r l ++ seg_edits (t + len (segs_out l)) (r + len (segs_raw l)) k.
Proof.
  revert t r. induction l as [|[bad c|x o] l IH]; intros t r; cbn [app seg_edits segs_out segs_raw flat_map seg_out seg_raw].
  - cbn. rewrite !Z.add_0_r. reflexivity.
  - rewrite IH. cbn. f_equal. f_equal; unfold segs_out, segs_raw; rewrite len_cons; lia.
  - rewrite IH, !len_app. cbn. do 2 f_equal. f_equal; unfold segs_out, segs_raw; lia.
Qed.

Lemma copies_out n : segs_out (replicate n (Copy false 92)) = replicate n 92.
Proof. induction n as [|n IH]; cbn; [reflexivity|]. f_equal. exact IH. Qed.

Lemma copies_edits n t r l :
  seg_edits t r (replicate n (Copy false 92) ++ l) = seg_edits (t + Z.of_nat n) (r + Z.of_nat n) l.
Proof.
  revert t r. induction n as [|n IH]; intros t r; cbn [replicate app seg_edits]; [f_equal; lia|].
  rewrite IH. f_equal; lia.
Qed.

Lemma copies_diags n t l : seg_diags t (replicate n (Copy false 92) ++ l) = seg_diags (t + Z.of_nat n) l.
Proof.
  revert t. induction n as [|n IH]; intros t; cbn [replicate app seg_diags]; [f_equal; lia|].
  rewrite IH. f_equal; lia.
Qed.

Lemma drop_at b i : 0 <= i < len b -> drop (Z.to_nat i) b = byte b i :: drop (Z.to_nat (i + 1)) b.
Proof.
  intros H. destruct (lookup_lt_is_Some_2 b (Z.to_nat i)) as [x Hx]; [unfold len in H; lia|].
  rewrite (drop_S _ _ _ Hx). unfold byte. rewrite (nth_lookup_default _ _ _ _ Hx). f_equal. f_equal. lia.
Qed.

Lemma slice_run (b : bytes) i n c :
  0 <= i -> drop (Z.to_nat i) b = replicate n c ++ drop (Z.to_nat (i + Z.of_nat n)) b ->
  forall m, (m <= n)%nat -> slice b i (i + Z.of_nat m) = replicate m c.
Proof.
  intros Hi H m Hm. unfold slice. rewrite H. replace (Z.to_nat (i + Z.of_nat m - i)) with m by lia.
  rewrite take_app_le by (rewrite length_replicate; lia). rewrite take_replicate. f_equal. lia.
Qed.

Lemma before_drop (raw : bytes) i k :
  0 <= i -> i <= k -> k <= len raw -> before (drop (Z.to_nat i) raw) (drop (Z.to_nat k) raw) = slice raw i k /\ len (slice raw i k) = k - i.
Proof.
  intros Hi Hk Hl. unfold before, slice. rewrite !length_drop. unfold len in *. split.
  - f_equal. lia.
  - rewrite length_take, length_drop. lia.
Qed.

Lemma translate_loop_cut raw fuel i tx es ds :
  0 <= i <= len raw -> len raw - i < Z.of_nat fuel ->
  translate_loop fuel raw i tx es ds =
  (let l := cut false (drop (Z.to_nat i) raw) in
   (tx ++ segs_out l, es ++ seg_edits (len tx) i l, ds ++ seg_diags (len tx) l)).
Proof.
  revert i tx es ds. induction fuel as [|fuel IH]; intros i tx es ds Hi Hf; [lia|]. cbn [translate_loop].
  destruct (len raw <=? i) eqn:E1; to_Z.
  { rewrite drop_ge by (unfold len in *; lia). cbn. rewrite !app_nil_r. reflexivity. }
  destruct (byte raw i =? 92) eqn:E2; to_Z; cbn [negb].
  2: { rewrite IH by lia. rewrite (drop_at raw i) by lia. rewrite cut_other by exact E2.
       cbn. rewrite <- !app_assoc, len_app. reflexivity. }
  set (n := run_of 92 (drop (Z.to_nat i) raw)).
  destruct (run_of_split 92 (drop (Z.to_nat i) raw)) as [Hs Hh]. fold n in Hs, Hh.
  pose proof (run_of_nonneg 92 (drop (Z.to_nat i) raw)) as Hn0. fold n in Hn0.
  pose proof (run_of_le 92 (drop (Z.to_nat i) raw)) as Hn1. fold n in Hn1. rewrite dropped_len in Hn1 by lia.
  assert (Hn2 : 1 <= n).
  { unfold n. rewrite (drop_at raw i) by lia. rewrite E2. cbn [run_of]. rewrite Z.eqb_refl.
    pose proof (run_of_nonneg 92 (drop (Z.to_nat (i + 1)) raw)). lia. }
  assert (Hd : drop (Z.to_nat n) (drop (Z.to_nat i) raw) = drop (Z.to_nat (i + n)) raw) by (rewrite drop_drop; f_equal; lia).
  rewrite Hd in Hs, Hh. cbv zeta. replace (i + n - i) with n by lia.
  assert (Hsl : forall m, (m <= Z.to_nat n)%nat -> slice raw i (i + Z.of_nat m) = replicate m 92).
  { apply slice_run; [lia|]. replace (i + Z.of_nat (Z.to_nat n)) with (i + n) by lia. exact Hs. }
  destruct ((n mod 2 =? 0) || (i + n =? len raw) || negb (byte raw (i + n) =? 117)) eqn:E3.
  - rewrite IH by lia. rewrite Hs.
    replace (slice raw i (i + n)) with (replicate (Z.to_nat n) 92)
      by (rewrite <- (Hsl (Z.to_nat n)) by lia; f_equal; lia).
    rewrite cut_run; [|exact Hh|].
    + cbv zeta. rewrite segs_out_app, copies_out, copies_edits, copies_diags, len_app, len_replicate, Z2Nat.id, <- app_assoc by lia.
      reflexivity.
    + apply orb_prop in E3 as [E3|E3]; [apply orb_prop in E3 as [E3|E3]|]; to_Z.
      * left. exists (Z.to_nat (n / 2)). zlia.
      * right. rewrite drop_ge by (unfold len in *; lia). discriminate.
      * right. destruct (Z.eq_dec (i + n) (len raw)) as [E|E]; [rewrite drop_ge by (unfold len in *; lia); discriminate|].
        rewrite head_drop_byte by lia. congruence.
  - apply orb_false_elim in E3 as [E3 E5]. apply orb_false_elim in E3 as [E3 E4]. to_Z.
    set (m := Z.to_nat (n / 2)). assert (Hm : n = 2 * Z.of_nat m + 1) by (unfold m; zlia).
    replace (slice raw i (i + n - 1)) with (replicate (2 * m) 92)
      by (rewrite <- (Hsl (2 * m)%nat) by lia; f_equal; lia).
    replace (i + n - 1) with (i + Z.of_nat (2 * m)) by lia. set (k := i + Z.of_nat (2 * m)).
    assert (Hk : drop (Z.to_nat i) raw = replicate (2 * m) 92 ++ drop (Z.to_nat k) raw).
    { rewrite <- (take_drop (2 * m) (drop (Z.to_nat i) raw)) at 1. f_equal.
      - pose proof (Hsl (2 * m)%nat ltac:(lia)) as H. unfold slice in H. rewrite <- H. f_equal. lia.
      - rewrite drop_drop. f_equal. lia. }
    assert (Hbk : byte raw k = 92).
    { assert (Hsome : Some (byte raw k) = Some 92); [|congruence].
      rewrite <- head_drop_byte by lia. pose proof Hs as H. rewrite Hk in H.
      replace (Z.to_nat n) with (2 * m + 1)%nat in H by lia. rewrite replicate_add, <- app_assoc in H.
      apply app_inv_head in H. rewrite H. reflexivity. }
    assert (Hhd : head (drop (Z.to_nat k) raw) = Some 92) by (rewrite head_drop_byte by lia; f_equal; exact Hbk).
    rewrite Hk, cut_pairs. cbv zeta. rewrite segs_out_app, copies_out, copies_edits, copies_diags. fold k.
    assert (Hl : len (tx ++ replicate (2 * m) 92) = len tx + Z.of_nat (2 * m)) by (rewrite len_app, len_replicate; reflexivity).
    rewrite Hl. pose proof (paired_rune raw k ltac:(lia) Hbk) as Hp.
    destruct (decodeEscape raw k) as [[v nx]|].
    + destruct (paired raw v nx) as [r rn]; cbn [fst snd] in Hp. destruct Hp as [Hr Hrn].
      rewrite IH by lia. rewrite (cut_escape _ _ _ Hhd Hr).
      destruct (before_drop raw k rn) as [-> Hlen]; [lia..|]. cbn [segs_out flat_map seg_out seg_edits seg_diags].
      rewrite len_app, Hl, Hlen, <- !app_assoc. replace (k + (rn - k)) with rn by lia. reflexivity.
    + rewrite IH by lia. rewrite (drop_at raw k) by lia. rewrite Hbk, cut_none by (rewrite <- Hbk, <- drop_at by lia; exact Hp).
      replace (k + 1) with (i + n) by lia.
      rewrite (head_drop_byte raw (i + n)) by lia. rewrite E5, bool_decide_true by reflexivity.
      rewrite (cut_parity true) by exact Hh. cbn [segs_out flat_map seg_out seg_edits seg_diags].
      rewrite len_app, Hl, <- !app_assoc. replace (i + n) with (k + 1) by lia. reflexivity.
Qed.

(** ** The cut *)

Definition seg_ok (s : seg) : Prop := 1 <= len (seg_out s) <= len (seg_raw s).

Lemma appendRune_len r : 1 <= len (appendRune r) <= 4.
Proof.
  unfold appendRune, AppendRune. cbv zeta. repeat bool_case; rewrite ?len_cons; change (len (@nil Z)) with 0; lia.
Qed.

(** The cut loses nothing, and each piece of it is well formed. *)
Lemma segments_lossless n odd b :
  (length b <= n)%nat -> segs_raw (segments n odd b) = b /\ Forall seg_ok (segments n odd b).
Proof.
  revert odd b. induction n as [|n IH]; intros odd [|c t] Hn; cbn in Hn; try lia; try (split; [reflexivity|constructor]).
  assert (Hc : forall bad x odd, segs_raw (Copy bad x :: segments n odd t) = x :: t /\ Forall seg_ok (Copy bad x :: segments n odd t)).
  { intros bad x odd'. destruct (IH odd' t) as [E F]; [lia|]. cbn. fold (segs_raw (segments n odd' t)). rewrite E.
    split; [reflexivity|]. constructor; [unfold seg_ok; cbn [seg_out seg_raw]; change (len [x]) with 1; lia|exact F]. }
  cbn [segments]. destruct (c =? 92) eqn:E1; to_Z; cbn [negb]; [subst c|apply Hc].
  destruct odd; [apply Hc|]. destruct (escape_rune (92 :: t)) as [[r rest]|] eqn:E; [|apply Hc].
  apply escape_rune_rest in E as (x & E & Hx). rewrite E, before_app.
  destruct (IH false rest) as [Er Fr].
  { apply (f_equal length) in E. rewrite length_app in E. unfold len in Hx. cbn in E. lia. }
  cbn [segs_raw flat_map seg_raw]. fold (segs_raw (segments n false rest)). rewrite Er.
  split; [reflexivity|]. constructor; [|exact Fr]. unfold seg_ok. cbn [seg_out seg_raw]. pose proof (appendRune_len r). lia.
Qed.

Lemma cut_plain b : 92 ∉ b -> cut false b = map (Copy false) b.
Proof.
  induction b as [|c b IH]; intros H; [reflexivity|]. apply not_elem_of_cons in H as [H1 H2].
  rewrite cut_other by congruence. cbn. f_equal. auto.
Qed.

Lemma copies_plain t r b :
  segs_out (map (Copy false) b) = b /\ seg_edits t r (map (Copy false) b) = [] /\ seg_diags t (map (Copy false) b) = [].
Proof.
  revert t r. induction b as [|c b IH]; intros t r; [auto|]. destruct (IH (t + 1) (r + 1)) as (E1 & E2 & E3).
  cbn. fold (segs_out (map (Copy false) b)). rewrite E1, E2, E3. auto.
Qed.

Lemma translate_cut raw :
  translate raw = (segs_out (source_segments raw), seg_edits 0 0 (source_segments raw), seg_diags 0 (source_segments raw)).
Proof.
  unfold translate. change (source_segments raw) with (cut false raw). case_bool_decide as H.
  - rewrite (translate_loop_cut raw (S (length raw)) 0 [] [] []) by (unfold len; lia). reflexivity.
  - rewrite cut_plain by exact H. destruct (copies_plain 0 0 raw) as (-> & -> & ->). reflexivity.
Qed.

(** ** The offset map *)

Lemma search_loop_spec fuel f i j m :
  (forall k, i <= k < m -> f k = false) -> (forall k, m <= k < j -> f k = true) ->
  i <= m <= j -> j - i < Z.of_nat fuel -> search_loop fuel f i j = m.
Proof.
  revert i j. induction fuel as [|fuel IH]; intros i j Hf Ht Hm Hfu; [lia|]. cbn [search_loop].
  destruct (i <? j) eqn:E; to_Z; [|lia]. rewrite Z.shiftr_div_pow2 by lia. change (2 ^ 1) with 2.
  set (h := (i + j) / 2). assert (i <= h < j) by (unfold h; zlia).
  destruct (f h) eqn:Eh; cbn [negb].
  - apply IH; try lia; [exact Hf| |].
    + intros k Hk. apply Ht. lia.
    + split; [lia|]. destruct (Z.le_gt_cases m h); [assumption|]. rewrite Hf in Eh by lia. discriminate.
  - apply IH; try lia; [|exact Ht|].
    + intros k Hk. apply Hf. lia.
    + split; [|lia]. destruct (Z.le_gt_cases m h); [|lia]. rewrite Ht in Eh by lia. discriminate.
Qed.

(** A test that is false on a prefix of a list and true on the rest. *)
Lemma Search_app {A} (d : A) (p : A -> bool) l1 l2 :
  Forall (fun x => p x = false) l1 -> Forall (fun x => p x = true) l2 ->
  Search (len (l1 ++ l2)) (fun k => p (nth (Z.to_nat k) (l1 ++ l2) d)) = len l1.
Proof.
  intros H1 H2. unfold Search. pose proof (len_nonneg l1). pose proof (len_nonneg l2). rewrite len_app.
  rewrite Forall_lookup in H1, H2. apply search_loop_spec; try lia; intros k Hk.
  - rewrite app_nth1 by (unfold len in *; lia). apply (H1 (Z.to_nat k)).
    destruct (lookup_lt_is_Some_2 l1 (Z.to_nat k)) as [x Hx]; [unfold len in *; lia|].
    rewrite (nth_lookup_default _ _ _ _ Hx). exact Hx.
  - rewrite app_nth2 by (unfold len in *; lia). apply (H2 (Z.to_nat k - length l1)%nat).
    destruct (lookup_lt_is_Some_2 l2 (Z.to_nat k - length l1)) as [x Hx]; [unfold len in *; lia|].
    rewrite (nth_lookup_default _ _ _ _ Hx). exact Hx.
Qed.

(** Where the edits of a cut lie in the text. *)
Lemma seg_edits_range t r l :
  Forall seg_ok l -> Forall (fun e => t <= tOff e /\ 1 <= tLen e /\ tOff e + tLen e <= t + len (segs_out l)) (seg_edits t r l).
Proof.
  intros H. revert t r. induction H as [|[bad c|x o] l Hs Hl IH]; intros t r; cbn [seg_edits]; [constructor| |].
  - eapply Forall_impl; [apply IH|]. cbn. intros e ?. rewrite len_cons. fold (segs_out l). lia.
  - unfold seg_ok in Hs. cbn [seg_out seg_raw] in Hs. cbn [segs_out flat_map seg_out]. fold (segs_out l).
    pose proof (len_nonneg (segs_out l)). constructor; [cbn; rewrite len_app; lia|].
    eapply Forall_impl; [apply IH|]. cbn. intros e ?. rewrite len_app. lia.
Qed.

Lemma seg_edits_nil t r l : seg_edits t r l = [] -> len (segs_out l) = len (segs_raw l).
Proof.
  revert t r. induction l as [|[bad c|y p] l IHl]; intros a b Hab; cbn in *; try discriminate; [reflexivity|].
  rewrite !len_cons. f_equal. eapply IHl, Hab.
Qed.

(** After its last edit a cut only copies. *)
Lemma seg_edits_last t r l e :
  last (seg_edits t r l) = Some e ->
  rOff e + rLen e + (t + len (segs_out l) - (tOff e + tLen e)) = r + len (segs_raw l).
Proof.
  revert t r. induction l as [|[bad c|x o] l IH]; intros t r H; cbn [seg_edits] in H; [discriminate| |];
    cbn [segs_out segs_raw flat_map seg_out seg_raw]; fold (segs_out l); fold (segs_raw l).
  - apply IH in H. rewrite !len_app. change (len [c]) with 1. lia.
  - rewrite !len_app. rewrite last_cons in H. destruct (last (seg_edits _ _ l)) eqn:E.
    + injection H as <-. apply IH in E. lia.
    + injection H as <-. cbn. assert (Hn : seg_edits (t + len o) (r + len x) l = []) by (apply last_None; exact E).
      apply seg_edits_nil in Hn. lia.
Qed.

(** What [rawStart] and [rawEnd] make of the edits before and after the one
    they find. *)
Lemma rawStart_split t e1 e2 :
  Forall (fun e => tOff e <= t) e1 -> Forall (fun e => t < tOff e) e2 ->
  rawStart (e1 ++ e2) t =
  match last e1 with
  | None => t
  | Some e => if t <? tOff e + tLen e then rOff e else rOff e + rLen e + (t - (tOff e + tLen e))
  end.
Proof.
  intros H1 H2. unfold rawStart, edit_at. pose proof (len_nonneg e1) as Hn1. pose proof (len_nonneg e2) as Hn2.
  rewrite (Search_app (mkEdit 0 0 0 0) (fun e => t <? tOff e)).
  2: { eapply Forall_impl; [exact H1|]. cbn. intros e ?. apply Z.ltb_ge. lia. }
  2: { eapply Forall_impl; [exact H2|]. cbn. intros e ?. apply Z.ltb_lt. lia. }
  destruct e1 as [|x e1] using rev_ind; [cbn; bool_case; reflexivity|]. clear IHe1. rewrite last_snoc.
  rewrite !len_app in *. change (len [x]) with 1 in *. pose proof (len_nonneg e1). decide_tests.
  rewrite <- app_assoc, app_nth2 by (unfold len in *; lia).
  replace (Z.to_nat (len e1 + 1 - 1) - length e1)%nat with 0%nat by (unfold len; lia). reflexivity.
Qed.

Lemma rawEnd_split t e1 e2 :
  Forall (fun e => tOff e < t) e1 -> Forall (fun e => t <= tOff e) e2 ->
  rawEnd (e1 ++ e2) t =
  match last e1 with
  | None => t
  | Some e => if t <? tOff e + tLen e then rOff e + rLen e else rOff e + rLen e + (t - (tOff e + tLen e))
  end.
Proof.
  intros H1 H2. unfold rawEnd, edit_at. pose proof (len_nonneg e1) as Hn1. pose proof (len_nonneg e2) as Hn2.
  rewrite (Search_app (mkEdit 0 0 0 0) (fun e => t <=? tOff e)).
  2: { eapply Forall_impl; [exact H1|]. cbn. intros e ?. apply Z.leb_gt. lia. }
  2: { eapply Forall_impl; [exact H2|]. cbn. intros e ?. apply Z.leb_le. lia. }
  destruct e1 as [|x e1] using rev_ind; [cbn; bool_case; reflexivity|]. clear IHe1. rewrite last_snoc.
  rewrite !len_app in *. change (len [x]) with 1 in *. pose proof (len_nonneg e1). decide_tests.
  rewrite <- app_assoc, app_nth2 by (unfold len in *; lia).
  replace (Z.to_nat (len e1 + 1 - 1) - length e1)%nat with 0%nat by (unfold len; lia). reflexivity.
Qed.

Lemma rawEnd_cut s1 s2 :
  Forall seg_ok (s1 ++ s2) -> rawEnd (seg_edits 0 0 (s1 ++ s2)) (len (segs_out s1)) = len (segs_raw s1).
Proof.
  intros H. apply Forall_app in H as [H1 H2]. rewrite seg_edits_app. pose proof (len_nonneg (segs_out s1)).
  pose proof (seg_edits_range 0 0 s1 H1) as R1. rewrite rawEnd_split.
  - destruct (last (seg_edits 0 0 s1)) as [e|] eqn:E.
    + pose proof (seg_edits_last _ _ _ _ E) as El. apply last_Some in E as [l' E]. rewrite E in R1.
      apply Forall_app in R1 as [_ R1]. apply Forall_cons in R1 as [R1 _]. decide_tests. lia.
    + apply last_None, seg_edits_nil in E. exact E.
  - eapply Forall_impl; [exact R1|]. cbn. intros e ?. lia.
  - eapply Forall_impl; [apply seg_edits_range, H2|]. cbn. intros e ?. lia.
Qed.

Lemma rawStart_cut s1 s2 :
  Forall seg_ok (s1 ++ s2) -> rawStart (seg_edits 0 0 (s1 ++ s2)) (len (segs_out s1)) = len (segs_raw s1).
Proof.
  intros H. apply Forall_app in H as [H1 H2]. rewrite seg_edits_app. pose proof (len_nonneg (segs_out s1)).
  pose proof (seg_edits_range 0 0 s1 H1) as R1. set (t := 0 + len (segs_out s1)). set (r := 0 + len (segs_raw s1)).
  assert (Hle : Forall (fun e => tOff e <= len (segs_out s1)) (seg_edits 0 0 s1))
    by (eapply Forall_impl; [exact R1|]; cbn; intros e ?; lia).
  assert (Hgen : Forall (fun e => len (segs_out s1) < tOff e) (seg_edits t r s2) ->
    rawStart (seg_edits 0 0 s1 ++ seg_edits t r s2) (len (segs_out s1)) = len (segs_raw s1)).
  { intros R2. rewrite rawStart_split by assumption. destruct (last (seg_edits 0 0 s1)) as [e|] eqn:E.
    - pose proof (seg_edits_last _ _ _ _ E) as El. apply last_Some in E as [l' E]. rewrite E in R1.
      apply Forall_app in R1 as [_ R1]. apply Forall_cons in R1 as [R1 _]. decide_tests. lia.
    - apply last_None, seg_edits_nil in E. exact E. }
  destruct H2 as [|[bad c|x o] s2 Hs H2].
  - apply Hgen. constructor.
  - apply Hgen. cbn [seg_edits]. eapply Forall_impl; [apply seg_edits_range, H2|]. cbn. intros e ?. unfold t in *. lia.
  - cbn [seg_edits]. rewrite cons_middle, app_assoc.
    unfold seg_ok in Hs. cbn [seg_out seg_raw] in Hs. rewrite rawStart_split.
    + rewrite last_snoc. cbn [tOff tLen rOff]. unfold t, r. decide_tests. lia.
    + apply Forall_app. split; [exact Hle|]. constructor; [cbn; unfold t; lia|constructor].
    + eapply Forall_impl; [apply seg_edits_range, H2|]. cbn. intros e ?. unfold t in *. lia.
Qed.

(** Inside an escape's output both ends widen to the whole escape. *)
Lemma raw_inside s1 x o s2 d :
  Forall seg_ok (s1 ++ Esc x o :: s2) -> 0 < d < len o ->
  rawStart (seg_edits 0 0 (s1 ++ Esc x o :: s2)) (len (segs_out s1) + d) = len (segs_raw s1) /\
  rawEnd (seg_edits 0 0 (s1 ++ Esc x o :: s2)) (len (segs_out s1) + d) = len (segs_raw s1) + len x.
Proof.
  intros H Hd. apply Forall_app in H as [H1 H2]. apply Forall_cons in H2 as [Hs H2].
  rewrite seg_edits_app. pose proof (len_nonneg (segs_out s1)). pose proof (seg_edits_range 0 0 s1 H1) as R1.
  cbn [seg_edits]. rewrite cons_middle, app_assoc.
  assert (R2 : Forall (fun e => len (segs_out s1) + d < tOff e)
    (seg_edits (0 + len (segs_out s1) + len o) (0 + len (segs_raw s1) + len x) s2))
    by (eapply Forall_impl; [apply seg_edits_range, H2|]; cbn; intros e ?; lia).
  rewrite rawStart_split, rawEnd_split, last_snoc; [cbn [tOff tLen rOff rLen]; decide_tests; lia|..]; try exact R2;
    try (eapply Forall_impl; [exact R2|]; cbn; intros e ?; lia);
    (apply Forall_app; split; [eapply Forall_impl; [exact R1|]; cbn; intros e ?; lia|constructor; [cbn; lia|constructor]]).
Qed.

(** ** Lines *)

(** A line starts at 0 and after every line terminator: a line feed, or a
    carriage return that no line feed follows. *)
Definition is_start (raw : bytes) (i : Z) : bool :=
  (i =? 0) ||
  ((0 <? i) && (i <=? len raw) &&
   ((byte raw (i - 1) =? 10) || ((byte raw (i - 1) =? 13) && negb (byte raw i =? 10)))).

Lemma line_starts_other c b i : c <> 10 -> c <> 13 -> line_starts (c :: b) i = line_starts b (i + 1).
Proof.
  intros H1 H2. cbn [line_starts]. destruct c as [|p|p]; try reflexivity.
  do 4 (destruct p as [p|p|]; try reflexivity); congruence.
Qed.

Lemma line_starts_cr b i : head b <> Some 10 -> line_starts (13 :: b) i = (i + 1) :: line_starts b (i + 1).
Proof.
  intros H. destruct b as [|c b]; [reflexivity|]. cbn [line_starts].
  destruct c as [|p|p]; try reflexivity. do 4 (destruct p as [p|p|]; try reflexivity); destruct H; reflexivity.
Qed.

Lemma filter_seqZ_cons (P : Z -> bool) i n :
  0 < n -> List.filter P (seqZ i n) = (if P i then [i] else []) ++ List.filter P (seqZ (i + 1) (n - 1)).
Proof. intros H. rewrite seqZ_cons by lia. cbn. unfold Z.succ, Z.pred. destruct (P i); f_equal; f_equal; lia. Qed.

Lemma line_starts_filter raw n i :
  0 <= i <= len raw -> len raw - i <= Z.of_nat n ->
  line_starts (drop (Z.to_nat i) raw) i = List.filter (is_start raw) (seqZ (i + 1) (len raw - i)).
Proof.
  revert i. induction n as [n IH] using lt_wf_ind. intros i Hi Hn.
  destruct (Z.eq_dec i (len raw)) as [->|Hlt].
  { rewrite drop_ge by (unfold len; lia). rewrite Z.sub_diag. reflexivity. }
  rewrite (drop_at raw i) by lia. rewrite filter_seqZ_cons by lia.
  replace (len raw - i - 1) with (len raw - (i + 1)) by lia.
  assert (Hs : is_start raw (i + 1) = (byte raw i =? 10) || ((byte raw i =? 13) && negb (byte raw (i + 1) =? 10))).
  { unfold is_start. replace (i + 1 - 1) with i by lia. rewrite (proj2 (Z.eqb_neq (i + 1) 0)) by lia.
    rewrite (proj2 (Z.ltb_lt 0 (i + 1))) by lia. rewrite (proj2 (Z.leb_le (i + 1) (len raw))) by lia. reflexivity. }
  rewrite Hs. destruct (Z.eq_dec (byte raw i) 10) as [E|E]; [|destruct (Z.eq_dec (byte raw i) 13) as [E'|E']].
  - rewrite E. cbn [line_starts Z.eqb Pos.eqb orb app]. f_equal. apply (IH (Z.to_nat (len raw - (i + 1)))); lia.
  - rewrite E'. cbn [Z.eqb Pos.eqb orb andb]. destruct (Z.eq_dec (i + 1) (len raw)) as [El|El].
    { rewrite El, (drop_ge raw) by (unfold len; lia). rewrite Z.sub_diag.
      unfold byte. rewrite nth_overflow by (unfold len; lia). cbn. f_equal. lia. }
    destruct (Z.eq_dec (byte raw (i + 1)) 10) as [E2|E2].
    + rewrite (drop_at raw (i + 1)) by lia. rewrite E2. cbn [line_starts Z.eqb Pos.eqb negb app].
      rewrite filter_seqZ_cons by lia. replace (is_start raw (i + 1 + 1)) with true.
      2: { unfold is_start. replace (i + 1 + 1 - 1) with (i + 1) by lia. rewrite E2. symmetry. apply orb_true_intro. right.
           rewrite (proj2 (Z.ltb_lt 0 (i + 1 + 1))), (proj2 (Z.leb_le (i + 1 + 1) (len raw))) by lia. reflexivity. }
      replace (i + 1 + 1) with (i + 2) by lia. cbn [app]. f_equal.
      replace (len raw - (i + 1) - 1) with (len raw - (i + 2)) by lia. apply (IH (Z.to_nat (len raw - (i + 2)))); lia.
    + rewrite line_starts_cr by (rewrite head_drop_byte by lia; congruence).
      rewrite (proj2 (Z.eqb_neq _ 10) E2). cbn [negb app]. f_equal. apply (IH (Z.to_nat (len raw - (i + 1)))); lia.
  - rewrite line_starts_other by assumption. rewrite (proj2 (Z.eqb_neq _ 10) E), (proj2 (Z.eqb_neq _ 13) E'). cbn [orb andb app].
    apply (IH (Z.to_nat (len raw - (i + 1)))); lia.
Qed.

(** The line table is the line starts, in order. *)
Lemma buildLines_starts raw : buildLines raw = List.filter (is_start raw) (seqZ 0 (len raw + 1)).
Proof.
  pose proof (len_nonneg raw). rewrite filter_seqZ_cons by lia. unfold buildLines.
  change raw with (drop (Z.to_nat 0) raw) at 1. rewrite (line_starts_filter raw (Z.to_nat (len raw))) by lia.
  replace (len raw + 1 - 1) with (len raw - 0) by lia. reflexivity.
Qed.

Lemma filter_seqZ_nil (P : Z -> bool) i n : (forall k, i <= k -> P k = false) -> List.filter P (seqZ i n) = [].
Proof.
  intros H. assert (Hall : Forall (fun k => P k = false) (seqZ i n))
    by (apply Forall_forall; intros k Hk; apply elem_of_seqZ in Hk; apply H; lia).
  induction Hall as [|k l Hk _ IHl]; [reflexivity|]. cbn. rewrite Hk. exact IHl.
Qed.

(** The last of them is the greatest. *)
Lemma filter_seqZ_last (P : Z -> bool) m n a b y :
  List.filter P (seqZ m n) = a ++ [b] -> In y (List.filter P (seqZ m n)) -> y <= b.
Proof.
  remember (Z.to_nat n) as c eqn:Ec. revert m n a Ec. induction c as [|c IH]; intros m n a Ec Hab Hy.
  - rewrite seqZ_nil in Hy by lia. destruct Hy.
  - assert (Hb : m <= b).
    { assert (Hbin : In b (List.filter P (seqZ m n))) by (rewrite Hab; apply in_or_app; right; left; reflexivity).
      apply filter_In in Hbin as [Hbin _]. apply list_elem_of_In, elem_of_seqZ in Hbin. lia. }
    rewrite filter_seqZ_cons in Hab, Hy by lia. destruct (P m); cbn [app] in *; [|eapply (IH (m + 1) (n - 1)); eauto; lia].
    destruct Hy as [Hy|Hy]; [lia|]. destruct a as [|x a]; cbn in Hab; injection Hab as Hx Hab.
    + rewrite Hab in Hy. destruct Hy.
    + eapply (IH (m + 1) (n - 1)); eauto. lia.
Qed.

(** The starts up to [off], and the rest. *)
Lemma starts_split raw off :
  0 <= off ->
  exists rest, buildLines raw = List.filter (is_start raw) (seqZ 0 (off + 1)) ++ rest /\ Forall (fun x => off < x) rest.
Proof.
  intros Ho. rewrite buildLines_starts. pose proof (len_nonneg raw).
  destruct (Z.le_gt_cases off (len raw)) as [Hle|Hgt].
  - exists (List.filter (is_start raw) (seqZ (off + 1) (len raw - off))).
    replace (len raw + 1) with ((off + 1) + (len raw - off)) by lia. rewrite seqZ_app by lia.
    rewrite List.filter_app. split; [reflexivity|]. apply Forall_forall. intros x Hx.
    apply list_elem_of_In, filter_In in Hx as [Hx _]. apply list_elem_of_In, elem_of_seqZ in Hx. lia.
  - exists []. rewrite app_nil_r. split; [|constructor].
    replace (off + 1) with ((len raw + 1) + (off - len raw)) by lia. rewrite (seqZ_app 0 (len raw + 1) (off - len raw)) by lia.
    rewrite List.filter_app, (filter_seqZ_nil _ (0 + (len raw + 1))); [rewrite app_nil_r; reflexivity|].
    intros k Hk. unfold is_start. rewrite (proj2 (Z.eqb_neq k 0)), (proj2 (Z.leb_gt k (len raw))) by lia.
    rewrite andb_false_r. reflexivity.
Qed.

Lemma rawStart_nonneg es t : Forall (fun e => 0 <= rOff e /\ 0 <= rLen e) es -> 0 <= t -> 0 <= rawStart es t.
Proof.
  intros H Ht. unfold rawStart. bool_case; [exact Ht|]. cbv zeta. bool_case; [exact Ht|].
  assert (He : 0 <= rOff (edit_at es (Search (len es) (fun k => t <? tOff (edit_at es k)) - 1)) /\
    0 <= rLen (edit_at es (Search (len es) (fun k => t <? tOff (edit_at es k)) - 1))).
  { unfold edit_at at 1 3. set (n := Z.to_nat _). destruct (nth_lookup_or_length es n (mkEdit 0 0 0 0)) as [E'|E'].
    - rewrite Forall_lookup in H. eapply H, E'.
    - rewrite nth_overflow by lia. cbn. lia. }
  bool_case; to_Z; lia.
Qed.

Lemma seg_edits_raw t r l : 0 <= r -> Forall (fun e => 0 <= rOff e /\ 0 <= rLen e) (seg_edits t r l).
Proof.
  revert t r. induction l as [|[bad c|x o] l IH]; intros t r Hr; cbn [seg_edits]; [constructor|apply IH; lia|].
  pose proof (len_nonneg x). constructor; [cbn; lia|apply IH; lia].
Qed.

(** ** Theorems *)

(** C6: [translate] is the one-byte-at-a-time reading of JLS 3.3: its text is
    what the pieces of the reference cut stand for, its edits are where the
    escapes among them lie, its diagnostics are where a backslash eligible to
    begin an escape begins none, and the pieces, put together as typed, are the
    source. *)
Theorem translate_refines (raw : bytes) :
  translate raw = (segs_out (source_segments raw), seg_edits 0 0 (source_segments raw), seg_diags 0 (source_segments raw)) /\
  segs_raw (source_segments raw) = raw.
Proof. split; [apply translate_cut|apply segments_lossless; reflexivity]. Qed.

Lemma segs_ok raw : Forall seg_ok (source_segments raw).
Proof. apply segments_lossless. reflexivity. Qed.

Lemma segs_out_le l : Forall seg_ok l -> len (segs_out l) <= len (segs_raw l).
Proof.
  induction 1 as [|s l Hs _ IH]; [reflexivity|]. cbn. rewrite !len_app. unfold segs_out, segs_raw, seg_ok in *. lia.
Qed.

Lemma OffsetOf_PosOf n : 0 <= n < 2 ^ 32 - 1 -> OffsetOf (PosOf n) = n.
Proof.
  intros H. unfold OffsetOf, PosOf, NoPos. rewrite u32_id by lia. rewrite (proj2 (Z.eqb_neq (n + 1) 0)) by lia. lia.
Qed.

Lemma NewFile_fields name src :
  raw (NewFile name src) = src /\ text (NewFile name src) = trim_sub (segs_out (source_segments src)) /\
  edits (NewFile name src) = seg_edits 0 0 (source_segments src) /\ lines (NewFile name src) = buildLines src.
Proof. unfold NewFile. rewrite translate_cut. auto. Qed.

Lemma trim_sub_prefix t : exists rest, t = trim_sub t ++ rest.
Proof.
  unfold trim_sub. cbv zeta. bool_case; [|exists []; rewrite app_nil_r; reflexivity].
  exists (drop (Z.to_nat (len t - 1)) t). rewrite take_drop. reflexivity.
Qed.

(** C8: a span that starts and ends between the pieces of the source resolves to
    exactly the bytes that were typed for the pieces it covers, and its text is
    what they stand for; so the raw text of adjacent spans joins up without a
    gap or an overlap.  A span that ends inside an escape is widened to the
    whole of it. *)
Theorem spans_exact (name src : bytes) (s1 s2 s3 : list seg) :
  source_segments src = s1 ++ s2 ++ s3 -> len src < 2 ^ 32 - 1 ->
  let f := NewFile name src in
  let pos := PosOf (len (segs_out s1)) in
  let end_ := PosOf (len (segs_out (s1 ++ s2))) in
  RawOf f pos end_ = Some (segs_raw s2) /\
  (len (segs_out (s1 ++ s2)) <= Size f -> Slice f pos end_ = Some (segs_out s2)) /\
  (forall x o s2' d, s2 = Esc x o :: s2' -> 0 < d < len o ->
     rawStart (edits f) (len (segs_out s1) + d) = len (segs_raw s1) /\
     rawEnd (edits f) (len (segs_out s1) + d) = len (segs_raw s1) + len x).
Proof.
  intros Hs Hl. cbv zeta. destruct (NewFile_fields name src) as (Fr & Ft & Fe & _).
  pose proof (segs_ok src) as Hok. rewrite Hs in Hok. pose proof (proj1 (segments_lossless _ false src ltac:(reflexivity))) as Hraw. fold (source_segments src) in Hraw. rewrite Hs in Hraw.
  assert (Hb1 : len (segs_raw (s1 ++ s2)) <= len src).
  { rewrite <- Hraw, !segs_raw_app, !len_app. pose proof (len_nonneg (segs_raw s3)). lia. }
  pose proof Hok as Hok12. rewrite app_assoc in Hok12. apply Forall_app in Hok12 as [Hok12 _].
  pose proof (segs_out_le _ Hok12) as Hb2. pose proof (proj1 (proj1 (Forall_app _ _ _) Hok)) as Hok1.
  pose proof (segs_out_le _ Hok1) as Hb3. rewrite segs_raw_app, len_app in Hb1, Hb2.
  pose proof (len_nonneg (segs_out s1)). pose proof (len_nonneg (segs_out (s1 ++ s2))). pose proof (len_nonneg (segs_raw s2)).
  split; [|split].
  - unfold RawOf, RawSpan. rewrite Fe, Fr, !OffsetOf_PosOf, Hs, rawStart_cut by (try exact Hok; lia).
    rewrite app_assoc, rawEnd_cut by (rewrite <- app_assoc; exact Hok).
    rewrite segs_raw_app, len_app. decide_tests. unfold slice_of.
    pose proof (len_nonneg (segs_raw s1)). decide_tests. f_equal.
    rewrite <- Hraw, !segs_raw_app. apply slice_app; lia.
  - intros Hsz. unfold Slice. rewrite !OffsetOf_PosOf by lia. unfold Size in Hsz. rewrite Ft in Hsz |- *.
    unfold slice_of. rewrite segs_out_app, len_app in Hsz |- *. pose proof (len_nonneg (segs_out s2)). decide_tests. f_equal.
    destruct (trim_sub_prefix (segs_out (source_segments src))) as [rest E]. set (t := trim_sub _) in *.
    rewrite Hs, !segs_out_app in E. assert (Hp : t = segs_out s1 ++ segs_out s2 ++ drop (length (segs_out s1 ++ segs_out s2)) t).
    { rewrite app_assoc. rewrite <- (take_drop (length (segs_out s1 ++ segs_out s2)) t) at 1. f_equal.
      rewrite app_assoc in E. apply (f_equal (take (length (segs_out s1 ++ segs_out s2)))) in E.
      rewrite take_app_length, take_app_le in E by (rewrite length_app; unfold len in *; lia). symmetry. exact E. }
    rewrite Hp. apply slice_app; lia.
  - intros x o s2' d -> Hd. rewrite Fe, Hs. apply (raw_inside s1 x o (s2' ++ s3)); [exact Hok|exact Hd].
Qed.

(** [a], an escaped quote, [b]. *)
Definition sample_source : bytes := bs "a\u0022b".
Definition sample_escape : seg := Esc (bs "\u0022") [34].

Lemma spans_exact_witness :
  let f := NewFile [] sample_source in
  RawOf f (PosOf 1) (PosOf 2) = Some (bs "\u0022") /\ (2 <= Size f -> Slice f (PosOf 1) (PosOf 2) = Some [34]) /\
  (forall x o s2' d, [sample_escape] = Esc x o :: s2' -> 0 < d < len o ->
     rawStart (edits f) (1 + d) = 1 /\ rawEnd (edits f) (1 + d) = 1 + len x).
Proof.
  apply (spans_exact [] sample_source [Copy false 97] [sample_escape] [Copy false 98]); vm_compute; reflexivity.
Defined.

(** C9: a valid position resolves to the line it is on: the line number is one
    more than the line terminators that end at or before the offset, the column
    counts bytes from the start of that line, and no line starts in between. *)
Theorem position_exact (name src : bytes) (p : Z) :
  1 <= p ->
  let q := ResolvePos (NewFile name src) p in
  exists start,
    is_start src start = true /\ 0 <= start <= POffset q /\ Column q = POffset q - start + 1 /\
    (forall k, start < k <= POffset q -> is_start src k = false) /\
    Line q = len (List.filter (is_start src) (seqZ 0 (POffset q + 1))).
Proof.
  intros Hp. cbv zeta. unfold ResolvePos, IsValid, NoPos. rewrite (proj2 (Z.eqb_neq p 0)) by lia. cbn [negb].
  destruct (NewFile_fields name src) as (_ & _ & Fe & Fl). rewrite Fe, Fl.
  set (off := rawStart _ _). cbn [POffset Column Line].
  assert (Ho : 0 <= off).
  { apply rawStart_nonneg; [apply seg_edits_raw; lia|]. unfold OffsetOf, NoPos. rewrite (proj2 (Z.eqb_neq p 0)) by lia. lia. }
  destruct (starts_split src off Ho) as (rest & E & Hrest). set (pre := List.filter (is_start src) (seqZ 0 (off + 1))) in *.
  assert (Hpre : Forall (fun x => x <= off) pre).
  { apply Forall_forall. intros x Hx. apply list_elem_of_In, filter_In in Hx as [Hx _]. apply list_elem_of_In, elem_of_seqZ in Hx. lia. }
  assert (Hne : exists l x, pre = l ++ [x]).
  { destruct pre as [|x l] eqn:El using rev_ind; [|eauto]. exfalso. unfold pre in El.
    rewrite filter_seqZ_cons in El by lia. discriminate. }
  destruct Hne as (l & start & Epre).
  assert (Hsearch : Search (len (buildLines src)) (fun k => off <? byte (buildLines src) k) = len pre).
  { rewrite E. apply (Search_app 0 (fun x => off <? x)).
    - eapply Forall_impl; [exact Hpre|]. cbn. intros x ?. apply Z.ltb_ge. lia.
    - eapply Forall_impl; [exact Hrest|]. cbn. intros x ?. apply Z.ltb_lt. lia. }
  rewrite Hsearch. pose proof (len_nonneg l) as Hl. assert (Hlp : len pre = len l + 1) by (rewrite Epre, len_app; reflexivity).
  rewrite Hlp. decide_tests. exists start.
  assert (Hb : byte (buildLines src) (len l + 1 - 1) = start).
  { rewrite E, Epre. unfold byte. rewrite <- app_assoc, app_nth2 by (unfold len; lia).
    replace (Z.to_nat (len l + 1 - 1) - length l)%nat with 0%nat by (unfold len; lia). reflexivity. }
  rewrite Hb. assert (Hin : In start pre) by (rewrite Epre; apply in_or_app; right; left; reflexivity).
  apply filter_In in Hin as [Hin Hst]. apply list_elem_of_In, elem_of_seqZ in Hin.
  split_and!; auto; try lia. intros k Hk. destruct (is_start src k) eqn:Ek; [exfalso|reflexivity].
  assert (Hink : In k pre) by (apply filter_In; split; [apply list_elem_of_In, elem_of_seqZ; lia|exact Ek]).
  pose proof (filter_seqZ_last _ _ _ _ _ _ Epre Hink). lia.
Qed.

Lemma position_exact_witness :
  let q := ResolvePos (NewFile [] [97; 13; 10; 98; 99]) 5 in
  exists start,
    is_start [97; 13; 10; 98; 99] start = true /\ 0 <= start <= POffset q /\ Column q = POffset q - start + 1 /\
    (forall k, start < k <= POffset q -> is_start [97; 13; 10; 98; 99] k = false) /\
    Line q = len (List.filter (is_start [97; 13; 10; 98; 99]) (seqZ 0 (POffset q + 1))).
Proof. apply (position_exact [] [97; 13; 10; 98; 99] 5). lia. Defined.
