(* ===== verification/Scanner.v ===== *)
(** * The scanner ([scanner/scanner.go], [scanner/ident.go],
      [scanner/number.go], [scanner/text.go], [scanner/frame.go])

    Every scanning function takes the scanner's state and returns the next one;
    [None] is an index or a slice out of range, or a loop that has not ended
    within one round per byte of the source.  Go's [unicode] tables are a
    parameter. *)
From S2P Require Import Prelude.
From S2P Require Import Utf8.
From S2P Require Import Token.
From S2P Require Import SourceFile.

(** The predicates of package [unicode] that the scanner asks. *)
Record UnicodeTables := mkUnicode {
  IsLetter : Z -> bool;
  Nl : Z -> bool; Sc : Z -> bool; Pc : Z -> bool;
  Nd : Z -> bool; Mn : Z -> bool; Mc : Z -> bool; Cf : Z -> bool }.

Definition ScanComments : Z := Z.shiftl 1 0.

Record frame := mkFrame { fkind : Z; fpos : Z }.

(** [open] and [reported] are the frame stack. *)
Record scanner := mkScanner {
  off : Z; toks : list Token; diags : list Diagnostic;
  open : list frame; reported : bool; gap : bool; nl : bool }.

Definition at_off (o : Z) (s : scanner) : scanner :=
  mkScanner o (toks s) (diags s) (open s) (reported s) (gap s) (nl s).
Definition advance (n : Z) (s : scanner) : scanner := at_off (off s + n) s.
Definition set_gap (s : scanner) : scanner :=
  mkScanner (off s) (toks s) (diags s) (open s) (reported s) true (nl s).
Definition set_nl (s : scanner) : scanner :=
  mkScanner (off s) (toks s) (diags s) (open s) (reported s) (gap s) true.
Definition set_open (o : list frame) (s : scanner) : scanner :=
  mkScanner (off s) (toks s) (diags s) o (reported s) (gap s) (nl s).
Definition set_reported (s : scanner) : scanner :=
  mkScanner (off s) (toks s) (diags s) (open s) true (gap s) (nl s).

(** A [for] loop: a round goes on with a state or ends with a result. *)
Fixpoint loop {A R} (fuel : nat) (round : A -> option (A + R)) (a : A) : option R :=
  match fuel with
  | O => None
  | S fuel => r ← round a; match r with inl a => loop fuel round a | inr r => Some r end
  end.

Definition isDecDigit (c : Z) : bool := (48 <=? c) && (c <=? 57).
Definition isOctDigit (c : Z) : bool := (48 <=? c) && (c <=? 55).
Definition isBinDigit (c : Z) : bool := (c =? 48) || (c =? 49).
Definition isHexDigit (c : Z) : bool := isDecDigit c || ((97 <=? c) && (c <=? 102)) || ((65 <=? c) && (c <=? 70)).

Definition isJavaLetterStartByte (c : Z) : bool :=
  (c =? 36) || (c =? 95) || ((97 <=? c) && (c <=? 122)) || ((65 <=? c) && (c <=? 90)).

Section Scanner.
Variable unicode : UnicodeTables.
Variable src : bytes.
Variable mode : Z.

Definition isJavaLetter (r : Z) : bool :=
  if r <? RuneSelf then isJavaLetterStartByte (u8 r)
  else IsLetter unicode r || (Nl unicode r || Sc unicode r || Pc unicode r).

Definition isJavaLetterOrDigit (r : Z) : bool :=
  if r <? RuneSelf then isJavaLetterStartByte (u8 r) || isDecDigit (u8 r)
  else isJavaLetter r || (Nd unicode r || Mn unicode r || Mc unicode r || Cf unicode r).

(** ** Access to the source *)

(** [s.src[i]] *)
Definition idx (i : Z) : option Z := at_ src i.

(** [s.at(i)] *)
Definition at0 (i : Z) : Z := if i <? len src then byte src i else 0.

(** [s.has(lit)] *)
Definition has (lit : bytes) (s : scanner) : bool :=
  (off s + len lit <=? len src) && bool_decide (slice src (off s) (off s + len lit) = lit).

(** [s.rune(i)] *)
Definition rune (i : Z) : option (Z * Z) :=
  c ← idx i;
  if c <? RuneSelf then Some (c, 1) else Some (DecodeRune (drop (Z.to_nat i) src)).

(** One round per byte, and one to see the end. *)
Definition rounds : nat := S (length src).

(** ** Tokens and diagnostics *)

Definition flags_of (s : scanner) : Z :=
  Z.lor (if negb (gap s) && (0 <? len (toks s)) then FlagAdjacent else 0) (if nl s then FlagNLBefore else 0).

Definition emit (k c pos end_ : Z) (s : scanner) : scanner :=
  mkScanner (off s) (toks s ++ [mkToken k c (flags_of s) (PosOf pos) (PosOf end_)])
    (diags s) (open s) (reported s) false false.

Definition error (pos end_ : Z) (msg : bytes) (s : scanner) : scanner :=
  let end_ := if end_ <=? pos then pos + 1 else end_ in
  let end_ := if len src <? end_ then len src else end_ in
  mkScanner (off s) (toks s) (diags s ++ [mkDiagnostic (PosOf pos) (PosOf end_) SevError msg])
    (open s) (reported s) (gap s) (nl s).

Definition illegalRune (pos : Z) (s : scanner) : scanner :=
  let w := snd (DecodeRune (drop (Z.to_nat pos) src)) in
  let w := if w =? 0 then 1 else w in
  let s := at_off (pos + w) s in
  let s := error pos (off s) (bs "illegal character in input") s in
  emit ILLEGAL CtxNone pos (off s) s.

(** ** Frames *)

Definition closerOf (k : Z) : Z :=
  if k =? LPAREN then RPAREN else if k =? LBRACK then RBRACK else if k =? LBRACE then RBRACE else 0.

Definition track (k pos end_ : Z) (s : scanner) : scanner :=
  if (k =? LPAREN) || (k =? LBRACK) || (k =? LBRACE) then set_open (open s ++ [mkFrame k pos]) s
  else if negb ((k =? RPAREN) || (k =? RBRACK) || (k =? RBRACE)) then s
  else
    match last (open s) with
    | None =>
        if negb (reported s) then error pos end_ (bs "unmatched " ++ KindString k) (set_reported s) else s
    | Some top =>
        if closerOf (fkind top) =? k then set_open (removelast (open s)) s
        else
          let s :=
            if negb (reported s)
            then error (fpos top) (fpos top + 1)
                   (bs "unclosed " ++ KindString (fkind top) ++ bs ", closed by " ++ KindString k) (set_reported s)
            else s in
          set_open (removelast (open s)) s
    end.

Definition finish (s : scanner) : scanner :=
  match last (open s) with
  | None => s
  | Some top =>
      if reported s then s
      else error (fpos top) (fpos top + 1) (bs "unclosed " ++ KindString (fkind top) ++ bs " at end of file") (set_reported s)
  end.

(** ** Numbers *)

Definition digits (ok : Z -> bool) : scanner -> option scanner :=
  loop rounds (fun s =>
    if off s <? len src then
      c ← idx (off s);
      if negb (ok c) && negb (c =? 95) && negb (isDecDigit c) then Some (inr s)
      else Some (inl (advance 1 s))
    else Some (inr s)).

Definition intSuffix (s : scanner) : scanner :=
  let c := at0 (off s) in
  if (c =? 108) || (c =? 76) then advance 1 s else s.

(** The loop of [checkRun] over [n] bytes from [i] on. *)
Fixpoint check_digits (n : nat) (i : Z) (ok : Z -> bool) (radix : bytes) (s : scanner) : option scanner :=
  match n with
  | O => Some s
  | S n =>
      c ← idx i;
      if negb (c =? 95) && negb (ok c)
      then Some (error i (i + 1) (bs "invalid digit in " ++ radix ++ bs " literal") s)
      else check_digits n (i + 1) ok radix s
  end.

Definition checkRun (lo hi : Z) (ok : Z -> bool) (radix : bytes) (s : scanner) : option scanner :=
  if hi <=? lo then Some s
  else
    a ← idx lo; b ← idx (hi - 1);
    if (a =? 95) || (b =? 95) then Some (error lo hi (bs "underscore may appear only between digits") s)
    else check_digits (Z.to_nat (hi - lo)) lo ok radix s.

(** An optional sign. *)
Definition skip_sign (s : scanner) : scanner :=
  let c := at0 (off s) in if (c =? 43) || (c =? 45) then advance 1 s else s.

(** The digits of an exponent, whose absence is reported with [msg]. *)
Definition exponent (start : Z) (msg : bytes) (s : scanner) : option scanner :=
  let s := skip_sign (advance 1 s) in
  let es := off s in
  s ← digits isDecDigit s;
  if off s =? es then Some (error start (off s) msg s) else checkRun es (off s) isDecDigit (bs "decimal") s.

Definition no_hex_digits : bytes := bs "hexadecimal literal has no digits".

(** The part of a hexadecimal literal before the exponent: where its digits
    start and end, and whether it has a point. *)
Definition hexFraction (start ds de : Z) (s : scanner) : option (bool * scanner) :=
  if at0 (off s) =? 46 then
    let s := advance 1 s in
    let fs := off s in
    s ← digits isHexDigit s;
    s ← (if fs <? off s then checkRun fs (off s) isHexDigit (bs "hexadecimal") s
         else if de =? ds then Some (error start (off s) no_hex_digits s) else Some s);
    Some (true, s)
  else Some (false, s).

Definition scanHexNumber (start : Z) (s : scanner) : option (Z * scanner) :=
  let s := advance 2 s in
  let ds := off s in
  s ← digits isHexDigit s;
  let de := off s in
  r ← hexFraction start ds de s;
  let '(hasDot, s) := r in
  s ← (if ds <? de then checkRun ds de isHexDigit (bs "hexadecimal") s
       else if negb hasDot then Some (error start (off s) no_hex_digits s) else Some s);
  if (at0 (off s) =? 112) || (at0 (off s) =? 80) then
    s ← exponent start (bs "binary exponent has no digits") s;
    let c := at0 (off s) in
    let s := if (c =? 102) || (c =? 70) || (c =? 100) || (c =? 68) then advance 1 s else s in
    Some (FLOAT, s)
  else if hasDot : bool then
    Some (FLOAT, error start (off s) (bs "hexadecimal floating-point literal requires a binary exponent") s)
  else Some (INT, intSuffix s).

(** The fraction of a decimal literal; the flag says whether it is a float. *)
Definition fraction (start : Z) (isFloat noInt : bool) (s : scanner) : option (bool * scanner) :=
  if (at0 (off s) =? 46) && negb ((at0 (off s + 1) =? 46) && (at0 (off s + 2) =? 46)) then
    let s := advance 1 s in
    let fs := off s in
    s ← digits isDecDigit s;
    s ← (if fs <? off s then checkRun fs (off s) isDecDigit (bs "decimal") s
         else if noInt then Some (error start (off s) (bs "floating-point literal has no digits") s) else Some s);
    Some (true, s)
  else Some (isFloat, s).

(** The type suffix. *)
Definition suffix (start : Z) (isFloat : bool) (s : scanner) : bool * scanner :=
  let c := at0 (off s) in
  if (c =? 102) || (c =? 70) || (c =? 100) || (c =? 68) then (true, advance 1 s)
  else if (c =? 108) || (c =? 76) then
    let s := if isFloat
      then error start (off s + 1) (bs "floating-point literal cannot have an integer type suffix") s else s in
    (isFloat, advance 1 s)
  else (isFloat, s).

(** The first offset from [os] on that holds no underscore, before [end_]. *)
Fixpoint skip_underscores (n : nat) (os end_ : Z) : option Z :=
  match n with
  | O => Some os
  | S n => if os <? end_ then c ← idx os; if c =? 95 then skip_underscores n (os + 1) end_ else Some os else Some os
  end.

(** The checks of an integer literal: decimal, then octal. *)
Definition checkInt (intStart intEnd : Z) (s : scanner) : option scanner :=
  s ← checkRun intStart intEnd isDecDigit (bs "decimal") s;
  c ← (if 1 <? intEnd - intStart then idx intStart else Some 0);
  if c =? 48 then
    os ← skip_underscores (Z.to_nat (intEnd - intStart)) (intStart + 1) intEnd;
    if os =? intEnd then Some (error intStart intEnd (bs "octal literal has no digits") s)
    else checkRun os intEnd isOctDigit (bs "octal") s
  else Some s.

(** The binary case of [scanNumber]. *)
Definition scanBinary (s : scanner) : option (Z * scanner) :=
  let s := advance 2 s in
  let ds := off s in
  s ← digits isBinDigit s;
  s ← checkRun ds (off s) isBinDigit (bs "binary") s;
  Some (INT, intSuffix s).

(** The decimal and octal case. *)
Definition scanDecimal (start : Z) (s : scanner) : option (Z * scanner) :=
  let isFloat := at0 start =? 46 in
  s ← (if isFloat then Some s else digits isDecDigit s);
  let intEnd := if isFloat then start else off s in
  r ← fraction start isFloat (intEnd =? start) s;
  let '(isFloat, s) := r in
  let e := (at0 (off s) =? 101) || (at0 (off s) =? 69) in
  s ← (if e then exponent start (bs "exponent has no digits") s else Some s);
  let '(isFloat, s) := suffix start (isFloat || e) s in
  if isFloat : bool then Some (FLOAT, s) else s ← checkInt start intEnd s; Some (INT, s).

Definition scanNumber (s : scanner) : option (Z * scanner) :=
  let start := off s in
  let x := at0 (start + 1) in
  if (at0 start =? 48) && ((x =? 120) || (x =? 88)) then scanHexNumber start s
  else if (at0 start =? 48) && ((x =? 98) || (x =? 66)) then scanBinary s
  else scanDecimal start s.

(** ** Identifiers *)

(** The end of the identifier whose first rune ends at [o]. *)
Definition ident_end : Z -> option Z :=
  loop rounds (fun o =>
    if o <? len src then
      r ← rune o;
      if isJavaLetterOrDigit (fst r) then Some (inl (o + snd r)) else Some (inr o)
    else Some (inr o)).

Definition sealed_tail : bytes := bs "-sealed".

(** [spliceNonSealed]: [None] inside says that it leaves the scanner alone. *)
Definition spliceNonSealed (pos : Z) (s : scanner) : option (option scanner) :=
  if negb (has sealed_tail s) then Some None
  else
    let after := off s + len sealed_tail in
    stop ← (if after <? len src then r ← rune after; Some (isJavaLetterOrDigit (fst r)) else Some false);
    if stop : bool then Some None
    else Some (Some (emit NON_SEALED CtxNonSealed pos after (at_off after s))).

(** [None] inside says that nothing was consumed. *)
Definition scanIdent (pos : Z) (s : scanner) : option (option scanner) :=
  r ← rune pos;
  if negb (isJavaLetter (fst r)) then Some None
  else
    end_ ← ident_end (pos + snd r);
    let s := at_off end_ s in
    lit ← slice_of src pos end_;
    spliced ← (if bool_decide (lit = bs "non") then spliceNonSealed pos s else Some None);
    match spliced with
    | Some s => Some (Some s)
    | None =>
        let k := Lookup lit in
        if negb (k =? IDENT) then Some (Some (emit k CtxNone pos end_ s))
        else Some (Some (emit IDENT (LookupCtx lit) pos end_ s))
    end.

(** ** Characters, strings and text blocks *)

Definition is_newline (c : Z) : bool := (c =? 10) || (c =? 13).

(** An escape of one letter, a quote or a backslash. *)
Definition simple_escape (c : Z) : bool :=
  (c =? 98) || (c =? 115) || (c =? 116) || (c =? 110) || (c =? 102) || (c =? 114) || (c =? 34) || (c =? 39) || (c =? 92).

(** [escape]; both callers scan a literal outside a text block. *)
Definition escape (inTextBlock : bool) (s : scanner) : option scanner :=
  let start := off s in
  let s := advance 1 s in
  if len src <=? off s then Some (error start (off s) (bs "incomplete escape sequence") s)
  else
    c ← idx (off s);
    if simple_escape c then Some (advance 1 s)
    else if isOctDigit c then
      let s := advance 1 s in
      if isOctDigit (at0 (off s)) then
        let s := advance 1 s in
        if (c <=? 51) && isOctDigit (at0 (off s)) then Some (advance 1 s) else Some s
      else Some s
    else if is_newline c then
      let s := if negb inTextBlock
        then error start (off s + 1) (bs "line continuation is permitted only in a text block") s else s in
      let s := advance 1 s in
      if (c =? 13) && (at0 (off s) =? 10) then Some (advance 1 s) else Some s
    else
      r ← rune (off s);
      let s := advance (snd r) s in
      Some (error start (off s) (bs "invalid escape sequence") s).

(** One character of a literal: an escape or a rune. *)
Definition literal_char (c : Z) (s : scanner) : option scanner :=
  if c =? 92 then escape false s
  else r ← rune (off s); Some (advance (snd r) s).

Definition unterminated (k pos : Z) (msg : bytes) (s : scanner) : scanner :=
  emit k CtxNone pos (off s) (error pos (off s) msg s).

(** The loop of [scanChar], [n] the characters so far. *)
Definition scanChar (pos : Z) (s : scanner) : option scanner :=
  let broken (s : scanner) : scanner := unterminated CHAR pos (bs "unterminated character literal") s in
  loop rounds (fun '(n, s) =>
    if off s <? len src then
      c ← idx (off s);
      if c =? 39 then
        let s := advance 1 s in
        let s := if n =? 0 then error pos (off s) (bs "empty character literal") s
                 else if 1 <? n then error pos (off s) (bs "character literal has more than one character") s
                 else s in
        Some (inr (emit CHAR CtxNone pos (off s) s))
      else if is_newline c then Some (inr (broken s))
      else s ← literal_char c s; Some (inl (n + 1, s))
    else Some (inr (broken s))) (0, advance 1 s).

Definition scanString (pos : Z) (s : scanner) : option scanner :=
  let broken (s : scanner) : scanner := unterminated STRING pos (bs "unterminated string literal") s in
  loop rounds (fun s =>
    if off s <? len src then
      c ← idx (off s);
      if c =? 34 then let s := advance 1 s in Some (inr (emit STRING CtxNone pos (off s) s))
      else if is_newline c then Some (inr (broken s))
      else s ← literal_char c s; Some (inl s)
    else Some (inr (broken s))) (advance 1 s).

(** White space before the line terminator that opens a text block. *)
Definition skip_blank : scanner -> option scanner :=
  loop rounds (fun s =>
    let c := at0 (off s) in
    if (c =? 32) || (c =? 9) || (c =? 12) then Some (inl (advance 1 s)) else Some (inr s)).

Definition triple_quote : bytes := [34; 34; 34].

Definition scanTextBlock (pos : Z) (s : scanner) : option scanner :=
  s ← skip_blank (advance 3 s);
  let c := at0 (off s) in
  let s :=
    if c =? 10 then advance 1 s
    else if c =? 13 then let s := advance 1 s in if at0 (off s) =? 10 then advance 1 s else s
    else error pos (off s) (bs "text block opening delimiter must be followed by a line terminator") s in
  loop rounds (fun s =>
    if off s <? len src then
      c ← idx (off s);
      if c =? 92 then
        let s := advance 2 s in
        Some (inl (if len src <? off s then at_off (len src) s else s))
      else if c =? 34 then
        if has triple_quote s then let s := advance 3 s in Some (inr (emit TEXTBLOCK CtxNone pos (off s) s))
        else Some (inl (advance 1 s))
      else r ← rune (off s); Some (inl (advance (snd r) s))
    else Some (inr (unterminated TEXTBLOCK pos (bs "unterminated text block") s))) s.

(** ** Trivia *)

(** [comment] *)
Definition comment (pos end_ : Z) (multiline : bool) (s : scanner) : scanner :=
  let s :=
    if negb (Z.land mode ScanComments =? 0)
    then mkScanner (off s) (toks s ++ [mkToken COMMENT CtxNone (flags_of s) (PosOf pos) (PosOf end_)])
           (diags s) (open s) (reported s) (gap s) (nl s)
    else s in
  let s := set_gap s in
  if multiline then set_nl s else s.

Definition scanLineComment (s : scanner) : option scanner :=
  let pos := off s in
  s ← loop rounds (fun s =>
    if off s <? len src then
      c ← idx (off s);
      if negb (is_newline c) then Some (inl (advance 1 s)) else Some (inr s)
    else Some (inr s)) (advance 2 s);
  Some (comment pos (off s) false s).

Definition scanBlockComment (s : scanner) : option scanner :=
  let pos := off s in
  loop rounds (fun '(multiline, s) =>
    if off s <? len src then
      c ← idx (off s);
      if c =? 42 then
        if at0 (off s + 1) =? 47
        then let s := advance 2 s in Some (inr (comment pos (off s) multiline s))
        else Some (inl (multiline, advance 1 s))
      else if is_newline c then Some (inl (true, advance 1 s))
      else Some (inl (multiline, advance 1 s))
    else Some (inr (comment pos (off s) multiline (error pos (off s) (bs "unterminated comment") s))))
    (false, advance 2 s).

Definition skipTrivia : scanner -> option scanner :=
  loop rounds (fun s =>
    if off s <? len src then
      c ← idx (off s);
      if (c =? 32) || (c =? 9) || (c =? 12) then Some (inl (advance 1 (set_gap s)))
      else if c =? 10 then Some (inl (advance 1 (set_nl (set_gap s))))
      else if c =? 13 then
        let s := advance 1 (set_nl (set_gap s)) in
        Some (inl (if (off s <? len src) && (byte src (off s) =? 10) then advance 1 s else s))
      else if c =? 47 then
        if len src <=? off s + 1 then Some (inr s)
        else
          d ← idx (off s + 1);
          if d =? 47 then s ← scanLineComment s; Some (inl s)
          else if d =? 42 then s ← scanBlockComment s; Some (inl s)
          else Some (inr s)
      else Some (inr s)
    else Some (inr s)).

(** ** Operators and separators *)

Definition punct (pos : Z) : option (Z * Z) :=
  c ← idx pos;
  let next (i : Z) : Z := at0 (pos + i) in
  Some (
    if c =? 62 then if next 1 =? 61 then (GEQ, 2) else (GTR, 1)
    else if c =? 60 then
      if (next 1 =? 60) && (next 2 =? 61) then (SHL_ASSIGN, 3)
      else if next 1 =? 60 then (SHL, 2)
      else if next 1 =? 61 then (LEQ, 2)
      else (LSS, 1)
    else if c =? 61 then if next 1 =? 61 then (EQL, 2) else (ASSIGN, 1)
    else if c =? 33 then if next 1 =? 61 then (NEQ, 2) else (NOT, 1)
    else if c =? 43 then if next 1 =? 43 then (INC, 2) else if next 1 =? 61 then (ADD_ASSIGN, 2) else (ADD, 1)
    else if c =? 45 then
      if next 1 =? 45 then (DEC, 2) else if next 1 =? 61 then (SUB_ASSIGN, 2)
      else if next 1 =? 62 then (ARROW, 2) else (SUB, 1)
    else if c =? 42 then if next 1 =? 61 then (MUL_ASSIGN, 2) else (MUL, 1)
    else if c =? 47 then if next 1 =? 61 then (QUO_ASSIGN, 2) else (QUO, 1)
    else if c =? 37 then if next 1 =? 61 then (REM_ASSIGN, 2) else (REM, 1)
    else if c =? 38 then if next 1 =? 38 then (LAND, 2) else if next 1 =? 61 then (AND_ASSIGN, 2) else (AND, 1)
    else if c =? 124 then if next 1 =? 124 then (LOR, 2) else if next 1 =? 61 then (OR_ASSIGN, 2) else (OR, 1)
    else if c =? 94 then if next 1 =? 61 then (XOR_ASSIGN, 2) else (XOR, 1)
    else if c =? 126 then (TILDE, 1)
    else if c =? 63 then (QUESTION, 1)
    else if c =? 58 then if next 1 =? 58 then (COLONCOLON, 2) else (COLON, 1)
    else if c =? 46 then if (next 1 =? 46) && (next 2 =? 46) then (ELLIPSIS, 3) else (PERIOD, 1)
    else if c =? 40 then (LPAREN, 1)
    else if c =? 41 then (RPAREN, 1)
    else if c =? 123 then (LBRACE, 1)
    else if c =? 125 then (RBRACE, 1)
    else if c =? 91 then (LBRACK, 1)
    else if c =? 93 then (RBRACK, 1)
    else if c =? 59 then (SEMICOLON, 1)
    else if c =? 44 then (COMMA, 1)
    else if c =? 64 then (AT, 1)
    else (ILLEGAL, 0)).

(** ** The scanner *)

(** A number token. *)
Definition numberToken (pos : Z) (s : scanner) : option scanner :=
  r ← scanNumber s;
  let '(k, s) := r in
  Some (emit k CtxNone pos (off s) s).

(** The end of [scanToken]: an operator, a separator or an illegal byte. *)
Definition punctToken (pos : Z) (s : scanner) : option scanner :=
  r ← punct pos;
  let '(kind, n) := r in
  if n =? 0 then Some (illegalRune pos s)
  else
    let s := at_off (pos + n) s in
    let s := track kind pos (off s) s in
    Some (emit kind CtxNone pos (off s) s).

Definition scanToken (s : scanner) : option scanner :=
  let pos := off s in
  c ← idx pos;
  if isJavaLetterStartByte c || (RuneSelf <=? c) then
    r ← scanIdent pos s;
    Some (match r with Some s => s | None => illegalRune pos s end)
  else if isDecDigit c then numberToken pos s
  else if c =? 34 then if has triple_quote s then scanTextBlock pos s else scanString pos s
  else if c =? 39 then scanChar pos s
  else if (c =? 46) && (pos + 1 <? len src) && isDecDigit (byte src (pos + 1)) then numberToken pos s
  else punctToken pos s.

(** The loop of [run]. *)
Definition tokens : scanner -> option scanner :=
  loop rounds (fun s =>
    s ← skipTrivia s;
    if len src <=? off s then Some (inr s)
    else s ← scanToken s; Some (inl s)).

Definition run (s : scanner) : option scanner :=
  s ← tokens s;
  let s := finish s in
  Some (emit EOF CtxNone (len src) (len src) s).
End Scanner.

Definition start_scanner (ds : list Diagnostic) : scanner := mkScanner 0 [] ds [] false false false.

Definition Scan (unicode : UnicodeTables) (f : File) (mode : Z) : option (list Token * list Diagnostic) :=
  s ← run unicode (text f) mode (start_scanner (fdiags f));
  Some (toks s, SortDiagnostics (diags s)).

(** ASCII alone: no rune above 127 is a letter or a digit. *)
Definition ascii_only : UnicodeTables :=
  mkUnicode (fun _ => false) (fun _ => false) (fun _ => false) (fun _ => false)
            (fun _ => false) (fun _ => false) (fun _ => false) (fun _ => false).

(** The kinds of the tokens of a source of ASCII. *)
Definition kinds_of (src : string) : option (list Z) :=
  r ← Scan ascii_only (NewFile [] (bs src)) 0; Some (map tKind (fst r)).

Example scan_shift : kinds_of "a >>= non-sealed 0x1F;" =
  Some [IDENT; GTR; GEQ; NON_SEALED; INT; SEMICOLON; EOF].
Proof. vm_compute. reflexivity. Qed.
