(* ===== verification/ScanProof.v ===== *)
(** * The scanner on every input ([scanner/])

    Each scanning function ends, within the source, having only appended
    diagnostics ([quiet]) or one well-formed token besides ([emits]); together
    the tokens and the trivia between them cover the source. *)
From S2P Require Import Prelude.
From S2P Require Import Utf8.
From S2P Require Import Token.
From S2P Require Import SourceFile.
From S2P Require Import SourceMap.
From S2P Require Import Scanner.

(** ** Loops *)

(** A loop ends when each round keeps [Inv] and decreases the measure [m]. *)
Lemma loop_total {A R} (m : A -> Z) (Inv : A -> Prop) (Q : R -> Prop) (round : A -> option (A + R)) fuel a :
  (forall a, Inv a -> exists r, round a = Some r /\
     match r with inl a' => Inv a' /\ 0 <= m a' < m a | inr r => Q r end) ->
  Inv a -> 0 <= m a < Z.of_nat fuel -> exists r, loop fuel round a = Some r /\ Q r.
Proof.
  intros Hr. revert a. induction fuel as [|fuel IH]; intros a Ha Hm; [lia|]. cbn [loop].
  destruct (Hr a Ha) as ([a'|r] & -> & H); cbn; [|eauto]. apply IH; [apply H|lia].
Qed.

Lemma DecodeRune_width b p : 1 <= snd (DecodeRune (b :: p)) <= len (b :: p).
Proof.
  unfold DecodeRune. pose proof (len_nonneg p).
  repeat first [bool_case | match goal with |- context [match ?l with [] => _ | _ :: _ => _ end] => destruct l end];
    cbn [snd]; rewrite ?len_cons in *; try lia; match goal with |- context [len ?l] => pose proof (len_nonneg l) end; lia.
Qed.

Section Proofs.
Context (unicode : UnicodeTables) (src : bytes) (mode : Z).
Abbreviation N := (len src).

(** ** Bounds *)

Lemma idx_some i : 0 <= i < N -> idx src i = Some (byte src i).
Proof.
  intros H. unfold idx, at_. rewrite (proj2 (Z.ltb_ge i 0)) by lia.
  destruct (lookup_lt_is_Some_2 src (Z.to_nat i)) as [x Hx]; [unfold len in H; lia|].
  rewrite Hx. unfold byte. rewrite (nth_lookup_default _ _ _ _ Hx). reflexivity.
Qed.

(** A character other than NUL at [i] means that [i] is in the source. *)
Lemma at0_in i c : at0 src i = c -> c <> 0 -> i < N /\ byte src i = c.
Proof. unfold at0. destruct (i <? N) eqn:E; to_Z; intros; subst; [auto|contradiction]. Qed.

Lemma at0_eq i c : (at0 src i =? c) = true -> c <> 0 -> i < N /\ byte src i = c.
Proof. intros H. to_Z. apply at0_in, H. Qed.

Lemma rune_width i : 0 <= i < N -> exists r w, rune src i = Some (r, w) /\ 1 <= w /\ i + w <= N.
Proof.
  intros H. unfold rune. rewrite idx_some by exact H. cbn. bool_case; [exists (byte src i), 1; auto with lia|].
  pose proof (drop_at src i H) as Hd. pose proof (dropped_len src i ltac:(lia)) as Hl. rewrite Hd in Hl |- *.
  pose proof (DecodeRune_width (byte src i) (drop (Z.to_nat (i + 1)) src)) as Hw. rewrite Hl in Hw.
  destruct (DecodeRune _) as [r w]. cbn [snd] in Hw. exists r, w. split; [reflexivity|lia].
Qed.

(** A diagnostic whose span is not empty and within the text. *)
Definition diag_ok (d : Diagnostic) : Prop :=
  exists p e, 0 <= p < e /\ e <= N /\ dPos d = PosOf p /\ dEnd d = PosOf e.

Definition frame_ok (f : frame) : Prop := 0 <= fpos f < N.

Record well (s : scanner) : Prop := {
  w_off : 0 <= off s <= N;
  w_open : Forall frame_ok (open s) }.

(** [s'] is later than [s], with the same tokens and frames. *)
Record quiet (s s' : scanner) : Prop := {
  q_toks : toks s' = toks s;
  q_gap : gap s' = gap s;
  q_nl : nl s' = nl s;
  q_open : open s' = open s;
  q_reported : reported s' = reported s;
  q_off : off s <= off s' <= N;
  q_diags : exists new, diags s' = diags s ++ new /\ Forall diag_ok new }.

Lemma quiet_refl s : well s -> quiet s s.
Proof. intros [H _]. split; auto; [lia|]. exists []. rewrite app_nil_r. auto. Qed.

Lemma quiet_trans a b c : quiet a b -> quiet b c -> quiet a c.
Proof.
  intros [A1 A2 A3 A4 A5 A6 (n1 & A7 & A8)] [B1 B2 B3 B4 B5 B6 (n2 & B7 & B8)]. split; try congruence; [lia|].
  exists (n1 ++ n2). rewrite B7, A7, app_assoc. split; [reflexivity|]. apply Forall_app. auto.
Qed.

Lemma quiet_well s s' : well s -> quiet s s' -> well s'.
Proof. intros [H1 H2] [? ? ? Ho ? ? ?]. split; [lia|]. rewrite Ho. exact H2. Qed.

Lemma quiet_advance n s : well s -> 0 <= n -> off s + n <= N -> quiet s (advance n s).
Proof. intros [H _] Hn Hl. split; cbn; auto; [lia|]. exists []. rewrite app_nil_r. auto. Qed.

Lemma diag_ok_error pos end_ msg s : 0 <= pos < N -> exists d, diags (error src pos end_ msg s) = diags s ++ [d] /\ diag_ok d.
Proof.
  intros H. unfold error. cbn. eexists. split; [reflexivity|].
  exists pos. cbn. eexists. split; [|split; [|split; reflexivity]]; repeat (bool_case; to_Z); lia.
Qed.

Lemma quiet_error pos end_ msg s : well s -> 0 <= pos < N -> quiet s (error src pos end_ msg s).
Proof.
  intros [H _] Hp. destruct (diag_ok_error pos end_ msg s Hp) as (d & Hd & Hok).
  split; cbn; auto; [lia|]. exists [d]. split; [exact Hd|]. auto.
Qed.

(** [does f s Q]: [f] ends with a state that [Q] holds of. *)
Definition does (o : option scanner) (Q : scanner -> Prop) : Prop := exists s, o = Some s /\ Q s.

Lemma does_some s (Q : scanner -> Prop) : Q s -> does (Some s) Q.
Proof. intros H. exists s. auto. Qed.

Lemma does_bind o k (P Q : scanner -> Prop) : does o P -> (forall s, P s -> does (k s) Q) -> does (s ← o; k s) Q.
Proof. intros (s & -> & Hs) H. apply H, Hs. Qed.

(** A loop over the source, each round of which moves on or stops; [I] is what
    else the rounds keep. *)
Lemma loop_scan {A} (st : A -> scanner) (I : A -> Prop) (Q : scanner -> Prop)
    (round : A -> option (A + scanner)) s a :
  quiet s (st a) -> well (st a) -> I a ->
  (forall a, quiet s (st a) -> well (st a) -> I a -> exists r, round a = Some r /\
     match r with inl a' => quiet (st a) (st a') /\ off (st a) < off (st a') /\ I a' | inr s' => Q s' end) ->
  does (loop (rounds src) round a) Q.
Proof.
  intros Hq Hw Hi Hr.
  apply (loop_total (fun a => N - off (st a)) (fun a => quiet s (st a) /\ well (st a) /\ I a) Q).
  - intros b (Hqb & Hwb & Hib). destruct (Hr b Hqb Hwb Hib) as ([b'|s'] & -> & H); (eexists; split; [reflexivity|]); [|exact H].
    destruct H as (H1 & H2 & H3). split_and!; eauto using quiet_trans, quiet_well; destruct H1 as [_ _ _ _ _ ? _]; lia.
  - auto.
  - destruct Hw as [Hw _]. unfold rounds, len. unfold len in Hw. lia.
Qed.

Lemma loop_quiet (round : scanner -> option (scanner + scanner)) s (P : scanner -> Prop) :
  well s ->
  (forall a, quiet s a -> well a -> exists r, round a = Some r /\
     match r with inl a' => quiet a a' /\ off a < off a' | inr a' => quiet a a' /\ P a' end) ->
  does (loop (rounds src) round s) (fun s' => quiet s s' /\ P s').
Proof.
  intros Hw Hr. apply (loop_scan (fun a => a) (fun _ => True) _ _ s); auto using quiet_refl.
  intros a Hq Ha _. destruct (Hr a Hq Ha) as ([a'|a'] & -> & H); (eexists; split; [reflexivity|]); cbn; [tauto|].
  destruct H as [H1 H2]. eauto using quiet_trans.
Qed.

(** ** Numbers *)

(** [digits] stops at the end or before what is no decimal digit. *)
Lemma digits_stop ok s :
  well s -> does (digits src ok s) (fun s' => quiet s s' /\ (off s' < N -> isDecDigit (byte src (off s')) = false)).
Proof.
  intros Hw. apply (loop_quiet (fun s =>
    if off s <? N then
      c ← idx src (off s);
      if negb (ok c) && negb (c =? 95) && negb (isDecDigit c) then Some (inr s) else Some (inl (advance 1 s))
    else Some (inr s)) s (fun s' => off s' < N -> isDecDigit (byte src (off s')) = false) Hw).
  intros a _ Ha. destruct (off a <? N) eqn:E; to_Z.
  2: { eexists. split; [reflexivity|]. cbn. split; [apply quiet_refl, Ha|lia]. }
  rewrite idx_some by (destruct Ha; lia). cbn. bool_case; (eexists; split; [reflexivity|]; cbn).
  - to_Z. split; [apply quiet_refl, Ha|auto].
  - split; [apply quiet_advance; auto; lia|lia].
Qed.

Lemma digits_quiet ok s : well s -> does (digits src ok s) (quiet s).
Proof. intros Hw. destruct (digits_stop ok s Hw) as (s' & -> & H & _). apply does_some, H. Qed.

Lemma check_digits_quiet n i ok radix s :
  well s -> 0 <= i -> i + Z.of_nat n <= N -> does (check_digits src n i ok radix s) (quiet s).
Proof.
  intros Hw. revert i. induction n as [|n IH]; intros i Hi Hn; cbn [check_digits].
  - apply does_some, quiet_refl, Hw.
  - rewrite idx_some by lia. cbn. bool_case; [|apply IH; lia]. apply does_some, quiet_error; [exact Hw|lia].
Qed.

Lemma checkRun_quiet lo hi ok radix s : well s -> 0 <= lo -> hi <= N -> does (checkRun src lo hi ok radix s) (quiet s).
Proof.
  intros Hw Hlo Hhi. unfold checkRun. destruct (hi <=? lo) eqn:E; to_Z; [apply does_some, quiet_refl, Hw|].
  rewrite !idx_some by lia. cbn. bool_case; [apply does_some, quiet_error; [exact Hw|lia]|].
  apply check_digits_quiet; auto; lia.
Qed.

Lemma quiet_if (b : bool) s x y : (b = true -> quiet s x) -> (b = false -> quiet s y) -> quiet s (if b then x else y).
Proof. destruct b; auto. Qed.

(** A test of the next character that holds puts it in the source. *)
Ltac char_in E := repeat (apply orb_prop in E as [E|E]); (apply at0_eq in E; [lia|discriminate]).

Lemma intSuffix_quiet s : well s -> quiet s (intSuffix src s).
Proof.
  intros Hw. unfold intSuffix. cbv zeta. bool_case; [|apply quiet_refl, Hw].
  assert (off s < N) by char_in E. apply quiet_advance; auto; lia.
Qed.

Lemma skip_sign_quiet s : well s -> quiet s (skip_sign src s).
Proof.
  intros Hw. unfold skip_sign. cbv zeta. bool_case; [|apply quiet_refl, Hw].
  assert (off s < N) by char_in E. apply quiet_advance; auto; lia.
Qed.

(** [run_quiet L] runs the step whose lemma is [L] and keeps what it gives. *)
Ltac run_quiet L :=
  let s := fresh "s" in let E := fresh "E" in let Q := fresh "Q" in let W := fresh "W" in
  destruct L as (s & E & Q); rewrite E; clear E; cbn [mbind option_bind];
  match goal with
  | W0 : well ?s0, Q1 : quiet ?s0 s |- _ => assert (W : well s) by (eapply quiet_well; eauto)
  | _ => idtac
  end.

(** A state reached by quiet steps, none before offset [o]. *)
Lemma does_trans s s1 o : quiet s s1 -> does o (quiet s1) -> does o (quiet s).
Proof. intros H (s2 & -> & H2). apply does_some. eauto using quiet_trans. Qed.

Lemma exponent_quiet start msg s :
  well s -> off s < N -> 0 <= start < N -> does (exponent src start msg s) (quiet s).
Proof.
  intros Hw Ho Hst. unfold exponent. cbv zeta.
  assert (Q1 : quiet s (advance 1 s)) by (apply quiet_advance; auto; lia).
  pose proof (quiet_well _ _ Hw Q1) as W1. pose proof (skip_sign_quiet _ W1) as Q2. pose proof (quiet_well _ _ W1 Q2) as W2.
  eapply does_trans; [eapply quiet_trans; [exact Q1|exact Q2]|]. set (s2 := skip_sign src (advance 1 s)) in *.
  run_quiet (digits_quiet isDecDigit s2 W2). eapply does_trans; [exact Q|].
  bool_case; [apply does_some, quiet_error; auto|]. apply checkRun_quiet; auto; [destruct W2|destruct W]; lia.
Qed.

(** A step that also returns a value. *)
Definition gives {A} (o : option (A * scanner)) (Q : A -> scanner -> Prop) : Prop := exists a s, o = Some (a, s) /\ Q a s.

Lemma gives_some {A} (a : A) s (Q : A -> scanner -> Prop) : Q a s -> gives (Some (a, s)) Q.
Proof. intros H. exists a, s. auto. Qed.

Lemma dot_in s : well s -> (at0 src (off s) =? 46) = true -> off s < N /\ quiet s (advance 1 s).
Proof. intros Hw E. apply at0_eq in E; [|discriminate]. split; [lia|apply quiet_advance; auto; lia]. Qed.

Lemma hexFraction_quiet start ds de s :
  well s -> 0 <= start < N -> gives (hexFraction src start ds de s) (fun _ s' => quiet s s').
Proof.
  intros Hw Hst. unfold hexFraction. destruct (at0 src (off s) =? 46) eqn:E; [|apply gives_some, quiet_refl, Hw].
  destruct (dot_in s Hw E) as [Ho Q1]. pose proof (quiet_well _ _ Hw Q1) as W1. cbv zeta.
  run_quiet (digits_quiet isHexDigit (advance 1 s) W1).
  assert (Q2 : quiet s s0) by eauto using quiet_trans.
  assert (D : does (if off (advance 1 s) <? off s0
                    then checkRun src (off (advance 1 s)) (off s0) isHexDigit (bs "hexadecimal") s0
                    else if de =? ds then Some (error src start (off s0) no_hex_digits s0) else Some s0) (quiet s0)).
  { repeat bool_case; [apply checkRun_quiet; auto; [destruct W1|destruct W]; lia|apply does_some, quiet_error; auto|apply does_some, quiet_refl, W]. }
  destruct D as (s3 & -> & Q3). apply gives_some. eauto using quiet_trans.
Qed.

Lemma fraction_quiet start isFloat noInt s :
  well s -> 0 <= start < N ->
  gives (fraction src start isFloat noInt s) (fun b s' => quiet s s' /\
    ((at0 src (off s) =? 46) && negb ((at0 src (off s + 1) =? 46) && (at0 src (off s + 2) =? 46)) = true -> off s < off s')).
Proof.
  intros Hw Hst. unfold fraction.
  destruct (_ && _) eqn:E; [|apply gives_some; split; [apply quiet_refl, Hw|discriminate]].
  apply andb_prop in E as [E _]. destruct (dot_in s Hw E) as [Ho Q1]. pose proof (quiet_well _ _ Hw Q1) as W1. cbv zeta.
  run_quiet (digits_quiet isDecDigit (advance 1 s) W1).
  assert (Q2 : quiet s s0) by eauto using quiet_trans.
  assert (D : does (if off (advance 1 s) <? off s0
                    then checkRun src (off (advance 1 s)) (off s0) isDecDigit (bs "decimal") s0
                    else if noInt then Some (error src start (off s0) (bs "floating-point literal has no digits") s0)
                    else Some s0) (quiet s0)).
  { repeat bool_case; [apply checkRun_quiet; auto; [destruct W1|destruct W]; lia|apply does_some, quiet_error; auto|apply does_some, quiet_refl, W]. }
  destruct D as (s3 & -> & Q3). apply gives_some. split; [eauto using quiet_trans|].
  intros _. pose proof (q_off _ _ Q) as H1. pose proof (q_off _ _ Q3) as H2. cbn in H1. lia.
Qed.

Lemma suffix_quiet start isFloat s : well s -> 0 <= start < N -> quiet s (snd (suffix src start isFloat s)).
Proof.
  intros Hw Hst. unfold suffix. cbv zeta. repeat bool_case; cbn [snd]; try (apply quiet_refl, Hw).
  - assert (off s < N) by char_in E. apply quiet_advance; auto; lia.
  - assert (off s < N) by char_in E0.
    assert (Q : quiet s (error src start (off s + 1) (bs "floating-point literal cannot have an integer type suffix") s))
      by (apply quiet_error; auto).
    eapply quiet_trans; [exact Q|]. apply quiet_advance; [eapply quiet_well; eauto|lia|cbn; lia].
  - assert (off s < N) by char_in E0. apply quiet_advance; auto; lia.
Qed.

Lemma skip_underscores_in n os end_ :
  0 <= os <= end_ -> end_ <= N -> exists os', skip_underscores src n os end_ = Some os' /\ os <= os' <= end_.
Proof.
  revert os. induction n as [|n IH]; intros os Ho He; cbn [skip_underscores]; [eexists; split; [reflexivity|lia]|].
  destruct (os <? end_) eqn:E; to_Z; [|eexists; split; [reflexivity|lia]].
  rewrite idx_some by lia. cbn. bool_case; [|eexists; split; [reflexivity|lia]].
  destruct (IH (os + 1)) as (os' & -> & H); [lia..|]. eexists. split; [reflexivity|lia].
Qed.

Lemma checkInt_quiet a b s : well s -> 0 <= a < N -> b <= N -> does (checkInt src a b s) (quiet s).
Proof.
  intros Hw Ha Hb. unfold checkInt. run_quiet (checkRun_quiet a b isDecDigit (bs "decimal") s Hw ltac:(lia) Hb).
  eapply does_trans; [exact Q|].
  assert (Hc : exists c, (if 1 <? b - a then idx src a else Some 0) = Some c /\ (c <> 0 -> 1 < b - a)).
  { destruct (1 <? b - a) eqn:E; to_Z; [rewrite idx_some by lia; eauto|exists 0; split; [reflexivity|congruence]]. }
  destruct Hc as (c & -> & Hc). cbn. bool_case; [|apply does_some, quiet_refl, W]. to_Z. subst c. specialize (Hc ltac:(discriminate)).
  destruct (skip_underscores_in (Z.to_nat (b - a)) (a + 1) b) as (os & -> & Hos); [lia..|]. cbn.
  bool_case; [apply does_some, quiet_error; auto|]. apply checkRun_quiet; auto; lia.
Qed.

(** [run_gives L] is [run_quiet] for a step that also returns a value. *)
Ltac run_gives L :=
  let v := fresh "v" in let s := fresh "s" in let E := fresh "E" in let Q := fresh "Q" in
  destruct L as (v & s & E & Q); rewrite E; clear E; cbn [mbind option_bind].

(** What [scanNumber] gives: a literal kind, further on. *)
Definition number_from (s : scanner) (k : Z) (s' : scanner) : Prop :=
  quiet s s' /\ off s < off s' /\ (k = INT \/ k = FLOAT).

Lemma at0_byte i : i < N -> at0 src i = byte src i.
Proof. intros H. unfold at0. rewrite (proj2 (Z.ltb_lt i N)) by exact H. reflexivity. Qed.

Lemma prefixed s c : well s -> (at0 src (off s + 1) =? c) = true -> c <> 0 -> quiet s (advance 2 s) /\ off s < N.
Proof. intros Hw E Hc. apply at0_eq in E; [|exact Hc]. split; [apply quiet_advance; auto; lia|lia]. Qed.

Lemma scanBinary_ok s :
  well s -> quiet s (advance 2 s) -> gives (scanBinary src s) (number_from s).
Proof.
  intros Hw Q1. unfold scanBinary. cbv zeta. pose proof (quiet_well _ _ Hw Q1) as W1.
  run_quiet (digits_quiet isBinDigit _ W1).
  assert (D : does (checkRun src (off (advance 2 s)) (off s0) isBinDigit (bs "binary") s0) (quiet s0))
    by (apply checkRun_quiet; auto; [destruct W1|destruct W]; lia).
  run_quiet D. pose proof (intSuffix_quiet _ W0) as Q4. apply gives_some.
  split; [eauto 6 using quiet_trans|]. split; [|auto].
  pose proof (q_off _ _ Q). pose proof (q_off _ _ Q0). pose proof (q_off _ _ Q4). cbn in *. lia.
Qed.

Lemma scanHex_ok s :
  well s -> quiet s (advance 2 s) -> off s < N -> gives (scanHexNumber src (off s) s) (number_from s).
Proof.
  intros Hw Q1 Ho. unfold scanHexNumber. cbv zeta. pose proof (quiet_well _ _ Hw Q1) as W1.
  assert (Hst : 0 <= off s < N) by (destruct Hw; lia).
  run_quiet (digits_quiet isHexDigit _ W1). set (ds := off (advance 2 s)). set (de := off s0).
  run_gives (hexFraction_quiet (off s) ds de s0 W Hst). rename v into hasDot, s1 into s2, Q0 into Q2.
  pose proof (quiet_well _ _ W Q2) as W2.
  assert (D : does (if ds <? de then checkRun src ds de isHexDigit (bs "hexadecimal") s2
    else if negb hasDot then Some (error src (off s) (off s2) no_hex_digits s2) else Some s2) (quiet s2)).
  { repeat bool_case; [apply checkRun_quiet; auto; [destruct W1|destruct W]; lia|apply does_some, quiet_error; auto|apply does_some, quiet_refl, W2]. }
  run_quiet D. rename s1 into s3.
  assert (Q3 : quiet s s3 /\ off s < off s3).
  { split; [eauto 6 using quiet_trans|]. pose proof (q_off _ _ Q). pose proof (q_off _ _ Q2). pose proof (q_off _ _ Q0). cbn in *. lia. }
  destruct Q3 as [Q3 O3].
  destruct ((at0 src (off s3) =? 112) || (at0 src (off s3) =? 80)) eqn:E.
  - assert (off s3 < N) by char_in E.
    run_quiet (exponent_quiet (off s) (bs "binary exponent has no digits") s3 W0 H Hst). rename s1 into s4.
    match goal with |- context [if ?c then advance 1 s4 else s4] => destruct c eqn:E' end.
    + assert (off s4 < N) by char_in E'. apply gives_some.
      assert (quiet s4 (advance 1 s4)) by (apply quiet_advance; auto; lia).
      split; [eauto using quiet_trans|]. pose proof (q_off _ _ Q4). cbn. split; [lia|auto].
    + apply gives_some. split; [eauto using quiet_trans|]. pose proof (q_off _ _ Q4). split; [lia|auto].
  - destruct hasDot; apply gives_some.
    + assert (Qe : forall e msg, quiet s3 (error src (off s) e msg s3)) by (intros; apply quiet_error; auto).
      split; [eauto using quiet_trans|]. split; [exact O3|auto].
    + pose proof (intSuffix_quiet _ W0) as Q5. split; [eauto using quiet_trans|]. pose proof (q_off _ _ Q5). split; [lia|auto].
Qed.

(** Where a decimal literal may start. *)
Definition number_head (o : Z) : Prop :=
  isDecDigit (byte src o) = true \/ byte src o = 46 /\ o + 1 < N /\ isDecDigit (byte src (o + 1)) = true.

Lemma scanDecimal_ok s :
  well s -> off s < N -> number_head (off s) -> gives (scanDecimal src (off s) s) (number_from s).
Proof.
  intros Hw Ho Hh. unfold scanDecimal. cbv zeta. assert (Hst : 0 <= off s < N) by (destruct Hw; lia).
  set (dot := at0 src (off s) =? 46).
  assert (D : does (if dot then Some s else digits src isDecDigit s)
    (fun s' => quiet s s' /\ (dot = true -> s' = s) /\ (dot = false -> off s < off s'))).
  { unfold dot. rewrite at0_byte by exact Ho. destruct (byte src (off s) =? 46) eqn:E.
    - apply does_some. split; [apply quiet_refl, Hw|]. split; [auto|discriminate].
    - destruct (digits_stop isDecDigit s Hw) as (s' & -> & Q & Hs). apply does_some. split; [exact Q|]. split; [discriminate|].
      intros _. destruct (Z.eq_dec (off s') (off s)) as [E'|E']; [|pose proof (q_off _ _ Q); lia].
      exfalso. rewrite E' in Hs. specialize (Hs Ho). to_Z. destruct Hh as [Hh|[Hh _]]; congruence. }
  destruct D as (s1 & -> & Q1 & Hd1 & Hd2). cbn [mbind option_bind]. pose proof (quiet_well _ _ Hw Q1) as W1.
  set (ie := if dot then off s else off s1).
  run_gives (fraction_quiet (off s) dot (ie =? off s) s1 W1 Hst). destruct Q as [Q2 Hp]. rename s0 into s2, v into fl.
  pose proof (quiet_well _ _ W1 Q2) as W2.
  assert (Hprog : off s < off s2).
  { destruct dot eqn:Ed.
    - rewrite (Hd1 eq_refl) in Hp. apply Hp. unfold dot in Ed. rewrite Ed.
      destruct Hh as [Hh|(_ & Hn & Hh)]; [apply at0_eq in Ed as [_ Ed]; [|discriminate]; rewrite Ed in Hh; discriminate|].
      rewrite (at0_byte (off s + 1)) by exact Hn. unfold isDecDigit in Hh. apply andb_prop in Hh as [Hh1 Hh2]. to_Z.
      rewrite (proj2 (Z.eqb_neq _ 46)) by lia. reflexivity.
    - specialize (Hd2 eq_refl). pose proof (q_off _ _ Q2). lia. }
  set (e := (at0 src (off s2) =? 101) || (at0 src (off s2) =? 69)).
  assert (D : does (if e then exponent src (off s) (bs "exponent has no digits") s2 else Some s2) (quiet s2)).
  { destruct e eqn:Ee; [|apply does_some, quiet_refl, W2]. apply exponent_quiet; auto. unfold e in Ee. char_in Ee. }
  run_quiet D. pose proof (suffix_quiet (off s) (fl || e) s0 W Hst) as Q4.
  destruct (suffix src (off s) (fl || e) s0) as [fl' s4]; cbn [snd] in Q4. pose proof (quiet_well _ _ W Q4) as W4.
  assert (Q5 : quiet s s4) by eauto 7 using quiet_trans.
  assert (O4 : off s < off s4) by (pose proof (q_off _ _ Q); pose proof (q_off _ _ Q4); lia).
  destruct fl'; [apply gives_some; split; auto|].
  run_quiet (checkInt_quiet (off s) ie s4 W4 Hst ltac:(unfold ie; destruct dot; [lia|apply (q_off _ _ Q1)])).
  apply gives_some. split; [eauto using quiet_trans|]. pose proof (q_off _ _ Q0). split; [lia|auto].
Qed.

Lemma scanNumber_ok s :
  well s -> off s < N -> number_head (off s) -> gives (scanNumber src s) (number_from s).
Proof.
  intros Hw Ho Hh. unfold scanNumber. cbv zeta.
  destruct (_ && _) eqn:E1; [|destruct (_ && ((at0 src (off s + 1) =? 98) || _)) eqn:E2; [|apply scanDecimal_ok; auto]].
  - apply andb_prop in E1 as [_ E1]. assert (Q : quiet s (advance 2 s)).
    { apply orb_prop in E1 as [E1|E1]; destruct (prefixed s _ Hw E1); auto; discriminate. }
    apply scanHex_ok; auto.
  - apply andb_prop in E2 as [_ E2]. apply scanBinary_ok; auto.
    apply orb_prop in E2 as [E2|E2]; destruct (prefixed s _ Hw E2); auto; discriminate.
Qed.

(** ** Tokens *)

(** The kinds that have one spelling. *)
Definition fixed_kind (k : Z) : bool :=
  IsOperator k || IsSeparator k || IsKeyword k || (k =? TRUE) || (k =? FALSE) || (k =? NULL) || (k =? NON_SEALED).

(** The kinds that do not. *)
Definition open_kinds : list Z := [ILLEGAL; IDENT; INT; FLOAT; CHAR; STRING; TEXTBLOCK; COMMENT].

(** A token of kind [k] on the bytes from [p] to [e]. *)
Definition token_ok (k p e : Z) : Prop :=
  if fixed_kind k then slice src p e = KindString k
  else In k open_kinds /\ (k = IDENT -> Lookup (slice src p e) = IDENT).

(** [s'] has one token more than [s], from where [s] stood to where [s'] stands. *)
Definition emitted (s s' : scanner) : Prop :=
  exists k c, toks s' = toks s ++ [mkToken k c (flags_of s) (PosOf (off s)) (PosOf (off s'))] /\
    token_ok k (off s) (off s') /\ off s < off s' <= N /\ gap s' = false /\ nl s' = false /\
    Forall frame_ok (open s') /\ exists new, diags s' = diags s ++ new /\ Forall diag_ok new.

Lemma emit_quiet k c s s1 :
  well s -> quiet s s1 -> off s < off s1 -> token_ok k (off s) (off s1) -> emitted s (emit k c (off s) (off s1) s1).
Proof.
  intros [_ Hw] [H1 H2 H3 H4 H5 H6 H7] Ho Hk. exists k, c. cbn. unfold flags_of. rewrite H1, H2, H3, H4. split_and!; auto; lia.
Qed.

(** A kind of many spellings, an identifier apart, may stand for anything. *)
Lemma token_ok_open k p e : In k open_kinds -> k <> IDENT -> token_ok k p e.
Proof.
  intros Hk Hi. unfold token_ok. cbn in Hk. destruct Hk as [<-|[<-|[<-|[<-|[<-|[<-|[<-|[<-|[]]]]]]]]]; 
    first [destruct (Hi eq_refl) | split; [unfold open_kinds; cbn; tauto|discriminate]].
Qed.

Ltac open_token := apply token_ok_open; [unfold open_kinds; cbn; tauto|discriminate].

Lemma escape_ok b s : well s -> off s < N -> does (escape src b s) (fun s' => quiet s s' /\ off s < off s').
Proof.
  intros Hw Ho. unfold escape. cbv zeta. assert (Hst : 0 <= off s < N) by (destruct Hw; lia).
  assert (Q1 : quiet s (advance 1 s)) by (apply quiet_advance; auto; lia). pose proof (quiet_well _ _ Hw Q1) as W1.
  assert (Hfin : forall o, does o (quiet (advance 1 s)) -> does o (fun s' => quiet s s' /\ off s < off s')).
  { intros o (s' & -> & Q). apply does_some. split; [eauto using quiet_trans|]. pose proof (q_off _ _ Q). cbn in *. lia. }
  apply Hfin. destruct (N <=? off (advance 1 s)) eqn:E; to_Z; [apply does_some, quiet_error; auto|].
  rewrite idx_some by (destruct W1; lia). cbn [mbind option_bind]. set (s1 := advance 1 s) in *.
  assert (Q2 : quiet s1 (advance 1 s1)) by (apply quiet_advance; auto; lia). pose proof (quiet_well _ _ W1 Q2) as W2.
  bool_case; [apply does_some, Q2|]. bool_case.
  - assert (Hoct : forall t, isOctDigit (at0 src (off t)) = true -> off t < N).
    { intros t Ht. destruct (Z.eq_dec (at0 src (off t)) 0) as [Hz|Hz]; [rewrite Hz in Ht; discriminate|].
      destruct (at0_in _ _ eq_refl Hz). lia. }
    bool_case; [|apply does_some, Q2]. apply Hoct in E2.
    assert (Q3 : quiet s1 (advance 1 (advance 1 s1))) by (eapply quiet_trans; [exact Q2|]; apply quiet_advance; auto; lia).
    pose proof (quiet_well _ _ W1 Q3) as W3.
    bool_case; [|apply does_some, Q3]. apply andb_prop in E3 as [_ E3]. apply Hoct in E3.
    apply does_some. eapply quiet_trans; [exact Q3|]. apply quiet_advance; auto; lia.
  - bool_case.
    + assert (Qe : quiet s1 (if negb b then error src (off s) (off s1 + 1) (bs "line continuation is permitted only in a text block") s1 else s1))
        by (destruct b; cbn [negb]; [apply quiet_refl, W1|apply quiet_error; auto]).
      set (s2 := if negb b then _ else _) in *. pose proof (quiet_well _ _ W1 Qe) as We.
      assert (Ho2 : off s2 = off s1) by (unfold s2; destruct b; reflexivity).
      assert (Q3 : quiet s1 (advance 1 s2)) by (eapply quiet_trans; [exact Qe|]; apply quiet_advance; auto; lia).
      pose proof (quiet_well _ _ W1 Q3) as W3.
      bool_case; [|apply does_some, Q3]. apply andb_prop in E3 as [_ E3].
      assert (off (advance 1 s2) < N) by char_in E3. apply does_some. eapply quiet_trans; [exact Q3|]. apply quiet_advance; auto; lia.
    + destruct (rune_width (off s1)) as (r & w & -> & Hw1 & Hw2); [destruct W1; lia|]. cbn [mbind option_bind snd].
      assert (Q3 : quiet s1 (advance w s1)) by (apply quiet_advance; auto; lia).
      apply does_some. eapply quiet_trans; [exact Q3|]. apply quiet_error; [exact (quiet_well _ _ W1 Q3)|exact Hst].
Qed.

Lemma literal_char_ok c s : well s -> off s < N -> does (literal_char src c s) (fun s' => quiet s s' /\ off s < off s').
Proof.
  intros Hw Ho. unfold literal_char. bool_case; [apply escape_ok; auto|].
  destruct (rune_width (off s)) as (r & w & -> & H1 & H2); [destruct Hw; lia|]. cbn [mbind option_bind snd].
  apply does_some. split; [apply quiet_advance; auto; lia|cbn; lia].
Qed.

(** A literal that ends here, with or without a complaint. *)
Lemma ended k s a : In k open_kinds -> k <> IDENT -> well s -> quiet s a -> off s < off a -> emitted s (emit k CtxNone (off s) (off a) a).
Proof. intros. apply emit_quiet; auto. apply token_ok_open; auto. Qed.

Lemma ended_error k s a e msg :
  In k open_kinds -> k <> IDENT -> well s -> quiet s a -> off s < off a ->
  emitted s (emit k CtxNone (off s) (off a) (error src (off s) e msg a)).
Proof.
  intros Hk Hi Hw Hq Ho. pose proof (quiet_well _ _ Hw Hq) as Wa. pose proof (q_off _ _ Hq).
  apply (ended k s (error src (off s) e msg a)); auto.
  eapply quiet_trans; [exact Hq|]. apply quiet_error; auto. destruct Hw. lia.
Qed.

Ltac in_open := unfold open_kinds; cbn; tauto.

Lemma scanString_ok s : well s -> off s < N -> does (scanString src (off s) s) (emitted s).
Proof.
  intros Hw Ho. unfold scanString. cbv zeta.
  assert (Q1 : quiet s (advance 1 s)) by (apply quiet_advance; auto; lia).
  apply (loop_scan (fun a => a) (fun a => off s < off a) _ _ s); [exact Q1|exact (quiet_well _ _ Hw Q1)|cbn; lia|].
  intros a Hq Ha Hp. assert (Hb : emitted s (unterminated src STRING (off s) (bs "unterminated string literal") a)).
  { apply ended_error; auto; first [in_open|discriminate]. }
  destruct (off a <? N) eqn:E; to_Z; [|eexists; split; [reflexivity|exact Hb]].
  rewrite idx_some by (destruct Ha; lia). cbn [mbind option_bind].
  assert (Qa : quiet a (advance 1 a)) by (apply quiet_advance; auto; lia).
  bool_case; [eexists; split; [reflexivity|]; apply ended; eauto using quiet_trans; first [in_open|discriminate|cbn; lia]|].
  bool_case; [eexists; split; [reflexivity|exact Hb]|].
  run_quiet (literal_char_ok (byte src (off a)) a Ha E). destruct Q as [Q Op]. eexists. split; [reflexivity|]. cbn. split_and!; auto; lia.
Qed.

Lemma scanChar_ok s : well s -> off s < N -> does (scanChar src (off s) s) (emitted s).
Proof.
  intros Hw Ho. unfold scanChar. cbv zeta.
  assert (Q1 : quiet s (advance 1 s)) by (apply quiet_advance; auto; lia).
  apply (loop_scan snd (fun a => off s < off (snd a)) _ _ s); [exact Q1|exact (quiet_well _ _ Hw Q1)|cbn; lia|].
  intros [n a] Hq Ha Hp. cbn [snd] in *.
  assert (Hb : emitted s (unterminated src CHAR (off s) (bs "unterminated character literal") a)).
  { apply ended_error; auto; first [in_open|discriminate]. }
  destruct (off a <? N) eqn:E; to_Z; [|eexists; split; [reflexivity|exact Hb]].
  rewrite idx_some by (destruct Ha; lia). cbn [mbind option_bind].
  assert (Qa : quiet s (advance 1 a)) by (eapply quiet_trans; [exact Hq|]; apply quiet_advance; auto; lia).
  bool_case.
  { eexists. split; [reflexivity|]. pose proof (quiet_well _ _ Hw Qa). repeat bool_case;
      first [apply (ended_error CHAR s (advance 1 a)) | apply ended]; auto; try in_open; try discriminate; cbn; lia. }
  bool_case; [eexists; split; [reflexivity|exact Hb]|].
  run_quiet (literal_char_ok (byte src (off a)) a Ha E). destruct Q as [Q Op]. eexists. split; [reflexivity|]. cbn. split_and!; auto; lia.
Qed.

Lemma quiet_at_off o s : well s -> off s <= o <= N -> quiet s (at_off o s).
Proof. intros [H _] Ho. split; cbn; auto. exists []. rewrite app_nil_r. auto. Qed.

Lemma skip_blank_quiet s : well s -> does (skip_blank src s) (quiet s).
Proof.
  intros Hw. unfold skip_blank.
  match goal with |- does (loop _ ?r s) _ => destruct (loop_quiet r s (fun _ => True) Hw) as (s' & E & H & _) end.
  - intros a _ Ha. cbv zeta. bool_case; (eexists; split; [reflexivity|]; cbn); [|auto using quiet_refl].
    assert (off a < N) by char_in E. split; [apply quiet_advance; auto; lia|lia].
  - rewrite E. apply does_some, H.
Qed.

Lemma has_in lit s : has src lit s = true -> off s + len lit <= N /\ slice src (off s) (off s + len lit) = lit.
Proof. unfold has. intros H. apply andb_prop in H as [H1 H2]. to_Z. apply bool_decide_eq_true in H2. auto. Qed.

Lemma scanTextBlock_ok s : well s -> has src triple_quote s = true -> does (scanTextBlock src (off s) s) (emitted s).
Proof.
  intros Hw Hq3. apply has_in in Hq3 as [Hq3 _]. change (len triple_quote) with 3 in Hq3.
  assert (Hst : 0 <= off s < N) by (destruct Hw; lia). unfold scanTextBlock.
  assert (Q1 : quiet s (advance 3 s)) by (apply quiet_advance; auto; lia). pose proof (quiet_well _ _ Hw Q1) as W1.
  run_quiet (skip_blank_quiet _ W1). cbv zeta. rename s0 into s1.
  match goal with |- does (loop _ _ ?x) _ => set (s2 := x) end.
  assert (Qs : quiet s1 s2).
  { unfold s2. bool_case; [assert (off s1 < N) by char_in E; apply quiet_advance; auto; lia|]. bool_case.
    - assert (off s1 < N) by char_in E0. assert (Qa : quiet s1 (advance 1 s1)) by (apply quiet_advance; auto; lia).
      bool_case; [|exact Qa]. assert (off (advance 1 s1) < N) by char_in E1.
      eapply quiet_trans; [exact Qa|]. apply quiet_advance; [exact (quiet_well _ _ W Qa)|lia|lia].
    - apply quiet_error; auto. }
  pose proof (quiet_trans _ _ _ Q1 (quiet_trans _ _ _ Q Qs)) as Q2.
  apply (loop_scan (fun a => a) (fun a => off s < off a) _ _ s); [exact Q2|exact (quiet_well _ _ Hw Q2)| |].
  { pose proof (q_off _ _ Q). pose proof (q_off _ _ Qs). cbn in *. lia. }
  intros a Hq Ha Hp. destruct (off a <? N) eqn:E; to_Z.
  2: { eexists. split; [reflexivity|]. apply ended_error; auto; first [in_open|discriminate]. }
  rewrite idx_some by (destruct Ha; lia). cbn [mbind option_bind].
  assert (Qa : quiet a (advance 1 a)) by (apply quiet_advance; auto; lia).
  bool_case.
  { eexists. split; [reflexivity|]. cbn beta iota. destruct (N <? off (advance 2 a)) eqn:E1; to_Z.
    - split_and!; [|cbn; lia|cbn; lia]. change (at_off N (advance 2 a)) with (at_off N a). apply quiet_at_off; auto; lia.
    - split_and!; [apply quiet_advance; auto; cbn in E1; lia|cbn; lia|cbn; lia]. }
  bool_case.
  { destruct (has src triple_quote a) eqn:E2; (eexists; split; [reflexivity|]).
    - apply has_in in E2 as [E2 _]. change (len triple_quote) with 3 in E2.
      apply ended; auto; try in_open; try discriminate; [|cbn; lia].
      eapply quiet_trans; [exact Hq|]. apply quiet_advance; auto; lia.
    - split_and!; auto; cbn; lia. }
  destruct (rune_width (off a)) as (r & w & -> & H1 & H2); [destruct Ha; lia|]. cbn [mbind option_bind snd].
  eexists. split; [reflexivity|]. cbn beta iota. split_and!; [apply quiet_advance; auto; lia|cbn; lia|cbn; lia].
Qed.

(** ** Identifiers *)

Lemma ident_end_in o : 0 <= o <= N -> exists e, ident_end unicode src o = Some e /\ o <= e <= N.
Proof.
  intros Ho. unfold ident_end.
  apply (loop_total (fun a => N - a) (fun a => o <= a <= N) (fun e => o <= e <= N)); [|lia|unfold rounds, len in *; lia].
  intros a Ha. destruct (a <? N) eqn:E; to_Z; [|eexists; split; [reflexivity|exact Ha]].
  destruct (rune_width a) as (r & w & -> & H1 & H2); [lia|]. cbn [mbind option_bind fst snd].
  bool_case; (eexists; split; [reflexivity|]; cbn beta iota); lia.
Qed.

(** What the keyword table answers. *)
Lemma Lookup_spelling s : Lookup s = IDENT \/ fixed_kind (Lookup s) = true /\ KindString (Lookup s) = s.
Proof.
  unfold Lookup, table_lookup. destruct (List.find _ identTable) as [[w k]|] eqn:E; [|left; reflexivity]. right.
  apply find_some in E as [Hin Hs]. apply bool_decide_eq_true in Hs. cbn [fst snd] in *.
  assert (Hall : forallb (fun e => fixed_kind (snd e) && bool_decide (KindString (snd e) = bs (fst e))) identTable = true)
    by (vm_compute; reflexivity).
  rewrite forallb_forall in Hall. apply Hall in Hin. apply andb_prop in Hin as [H1 H2]. apply bool_decide_eq_true in H2.
  cbn [fst snd] in *. split; [exact H1|congruence].
Qed.

Lemma spliceNonSealed_ok s s1 :
  well s -> quiet s s1 -> off s < off s1 -> slice src (off s) (off s1) = bs "non" ->
  exists r, spliceNonSealed unicode src (off s) s1 = Some r /\ forall s', r = Some s' -> emitted s s'.
Proof.
  intros Hw Hq Ho Hn. unfold spliceNonSealed. destruct (has src sealed_tail s1) eqn:E; cbn [negb]; [|eauto using eq_refl; eexists; split; [reflexivity|discriminate]].
  apply has_in in E as [Hl Ht]. set (after := off s1 + len sealed_tail) in *. change (len sealed_tail) with 7 in *.
  assert (D : exists b, (if after <? N then r ← rune src after; Some (isJavaLetterOrDigit unicode (fst r)) else Some false) = Some b).
  { destruct (after <? N) eqn:E; to_Z; [|eauto]. destruct (rune_width after) as (r & w & -> & _); [unfold after; destruct Hw; lia|]. cbn. eauto. }
  destruct D as (b & ->). cbn [mbind option_bind]. destruct b; (eexists; split; [reflexivity|]); [discriminate|].
  intros s' [= <-]. pose proof (quiet_well _ _ Hw Hq) as W1.
  assert (Q2 : quiet s1 (at_off after s1)) by (apply quiet_at_off; auto; unfold after; lia).
  apply (emit_quiet NON_SEALED CtxNonSealed s (at_off after s1)); eauto using quiet_trans.
  - cbn. unfold after. lia.
  - unfold token_ok. cbn [fixed_kind]. change (fixed_kind NON_SEALED) with true. cbn [off at_off].
    rewrite <- (slice_cut src (off s) (off s1) after) by (destruct Hw; unfold after; lia). rewrite Hn, Ht. reflexivity.
Qed.

Lemma scanIdent_ok s :
  well s -> off s < N ->
  exists r, scanIdent unicode src (off s) s = Some r /\ forall s', r = Some s' -> emitted s s'.
Proof.
  intros Hw Ho. unfold scanIdent. destruct (rune_width (off s)) as (r & w & -> & H1 & H2); [destruct Hw; lia|].
  cbn [mbind option_bind fst snd]. bool_case; [eexists; split; [reflexivity|discriminate]|].
  destruct (ident_end_in (off s + w)) as (e & -> & He); [destruct Hw; lia|]. cbn [mbind option_bind].
  unfold slice_of. assert (0 <= off s) by (destruct Hw; lia). decide_tests. cbn [mbind option_bind].
  assert (Q1 : quiet s (at_off e s)) by (apply quiet_at_off; auto; lia).
  set (lit := slice src (off s) e).
  assert (D : exists r, (if bool_decide (lit = bs "non") then spliceNonSealed unicode src (off s) (at_off e s) else Some None) = Some r /\
    forall s', r = Some s' -> emitted s s').
  { case_bool_decide; [|eexists; split; [reflexivity|discriminate]]. apply spliceNonSealed_ok; auto. cbn. lia. }
  destruct D as (o & -> & Ho'). cbn [mbind option_bind]. destruct o as [s'|]; [eexists; split; [reflexivity|intros ? [= <-]; auto]|].
  cbv zeta. bool_case; (eexists; split; [reflexivity|]; intros ? [= <-]);
    apply (emit_quiet _ _ s (at_off e s)); auto; try (cbn; lia); unfold token_ok; cbn [off at_off]; to_Z.
  - destruct (Lookup_spelling lit) as [Hl|[Hf Hs]]; [congruence|]. rewrite Hf, Hs. reflexivity.
  - change (fixed_kind IDENT) with false. split; [in_open|]. intros _. exact E0.
Qed.

(** ** Operators, separators and the rest *)

Lemma slice_byte o : 0 <= o < N -> slice src o (o + 1) = [byte src o].
Proof. intros H. unfold slice. rewrite (drop_at src o H). replace (Z.to_nat (o + 1 - o)) with 1%nat by lia. reflexivity. Qed.

Lemma slice_snoc a b c : 0 <= a <= b -> at0 src b = c -> c <> 0 -> slice src a (b + 1) = slice src a b ++ [c].
Proof.
  intros H E Hc. destruct (at0_in _ _ E Hc) as [Hb <-]. rewrite <- (slice_cut src a b (b + 1)) by lia.
  rewrite slice_byte by lia. reflexivity.
Qed.

(** One, two and three bytes that spell an operator. *)
Lemma spelled1 o c k : 0 <= o < N -> byte src o = c -> fixed_kind k = true -> KindString k = [c] ->
  o + 1 <= N /\ token_ok k o (o + 1).
Proof. intros Ho Hc Hf Hk. split; [lia|]. unfold token_ok. rewrite Hf, Hk, slice_byte, Hc by exact Ho. reflexivity. Qed.

Lemma spelled2 o c d k :
  0 <= o < N -> byte src o = c -> at0 src (o + 1) = d -> d <> 0 -> fixed_kind k = true -> KindString k = [c; d] ->
  o + 2 <= N /\ token_ok k o (o + 2).
Proof.
  intros Ho Hc Hd Hz Hf Hk. destruct (at0_in _ _ Hd Hz) as [H1 _]. split; [lia|]. unfold token_ok. rewrite Hf, Hk.
  replace (o + 2) with (o + 1 + 1) by lia. rewrite (slice_snoc o (o + 1) d), slice_byte, Hc by (auto; lia). reflexivity.
Qed.

Lemma spelled3 o c d e k :
  0 <= o < N -> byte src o = c -> at0 src (o + 1) = d -> d <> 0 -> at0 src (o + 2) = e -> e <> 0 ->
  fixed_kind k = true -> KindString k = [c; d; e] -> o + 3 <= N /\ token_ok k o (o + 3).
Proof.
  intros Ho Hc Hd Hz He Hz' Hf Hk. destruct (at0_in _ _ He Hz') as [H1 _]. split; [lia|]. unfold token_ok. rewrite Hf, Hk.
  replace (o + 3) with (o + 2 + 1) by lia. rewrite (slice_snoc o (o + 2) e) by (auto; lia).
  replace (o + 2) with (o + 1 + 1) by lia. rewrite (slice_snoc o (o + 1) d), slice_byte, Hc by (auto; lia). reflexivity.
Qed.

Lemma punct_ok pos :
  0 <= pos < N ->
  exists k n, punct src pos = Some (k, n) /\ (n = 0 \/ 1 <= n /\ pos + n <= N /\ token_ok k pos (pos + n)).
Proof.
  intros Hp. unfold punct. rewrite idx_some by exact Hp. cbn [mbind option_bind]. cbv zeta.
  repeat (bool_case; to_Z); (eexists; eexists; split; [reflexivity|]); try (left; reflexivity); right;
    (split; [lia|]);
    first [ eapply spelled1; [exact Hp|eassumption|reflexivity|reflexivity]
          | eapply spelled2; [exact Hp|eassumption|eassumption|discriminate|reflexivity|reflexivity]
          | eapply spelled3; [exact Hp|eassumption|eassumption|discriminate|eassumption|discriminate|reflexivity|reflexivity]].
Qed.

Lemma illegalRune_ok s : well s -> off s < N -> emitted s (illegalRune src (off s) s).
Proof.
  intros Hw Ho. unfold illegalRune. cbv zeta. assert (Hst : 0 <= off s < N) by (destruct Hw; lia).
  pose proof (drop_at src _ Hst) as Hd. pose proof (dropped_len src (off s) ltac:(lia)) as Hl. rewrite Hd in Hl |- *.
  pose proof (DecodeRune_width (byte src (off s)) (drop (Z.to_nat (off s + 1)) src)) as Hww. rewrite Hl in Hww.
  set (w := snd _) in *. rewrite (proj2 (Z.eqb_neq w 0)) by lia.
  assert (Q : quiet s (at_off (off s + w) s)) by (apply quiet_at_off; auto; lia).
  apply (ended_error ILLEGAL s (at_off (off s + w) s)); auto; first [in_open|discriminate|cbn; lia].
Qed.

(** [track] changes the frames and the diagnostics alone. *)
Definition tracked (s s' : scanner) : Prop :=
  off s' = off s /\ toks s' = toks s /\ gap s' = gap s /\ nl s' = nl s /\ Forall frame_ok (open s') /\
  exists new, diags s' = diags s ++ new /\ Forall diag_ok new.

Lemma tracked_diags s d : Forall frame_ok (open s) -> diag_ok d -> forall s',
  off s' = off s -> toks s' = toks s -> gap s' = gap s -> nl s' = nl s -> Forall frame_ok (open s') ->
  diags s' = diags s ++ [d] -> tracked s s'.
Proof. intros Ho Hd s' H1 H2 H3 H4 H5 H6. split_and!; auto. exists [d]. auto. Qed.

Lemma removelast_frames (l : list frame) : Forall frame_ok l -> Forall frame_ok (removelast l).
Proof.
  intros H. destruct l as [|x l _] using rev_ind; [exact H|]. rewrite removelast_last. apply Forall_app in H. tauto.
Qed.

Lemma track_ok k pos end_ s : Forall frame_ok (open s) -> 0 <= pos < N -> tracked s (track src k pos end_ s).
Proof.
  intros Hf Hp. assert (H0 : tracked s s) by (split_and!; auto; exists []; rewrite app_nil_r; auto).
  unfold track. bool_case.
  { split_and!; auto; cbn; [|exists []; rewrite app_nil_r; auto]. apply Forall_app. split; [exact Hf|]. constructor; [exact Hp|constructor]. }
  bool_case; [exact H0|]. destruct (last (open s)) as [top|] eqn:El.
  - assert (Htop : 0 <= fpos top < N).
    { apply last_Some in El as [l' El]. rewrite El in Hf. apply Forall_app in Hf as [_ Hf]. apply Forall_cons in Hf as [Hf _]. exact Hf. }
    pose proof (removelast_frames _ Hf) as Hr. bool_case.
    + split_and!; auto. exists []. cbn. rewrite app_nil_r. auto.
    + cbv zeta. bool_case.
      * destruct (diag_ok_error (fpos top) (fpos top + 1)
          (bs "unclosed " ++ KindString (fkind top) ++ bs ", closed by " ++ KindString k) (set_reported s) Htop) as (d & Ed & Hd).
        apply (tracked_diags s d Hf Hd); auto.
      * split_and!; auto. exists []. cbn. rewrite app_nil_r. auto.
  - bool_case; [|exact H0]. destruct (diag_ok_error pos end_ (bs "unmatched " ++ KindString k) (set_reported s) Hp) as (d & Ed & Hd).
    apply (tracked_diags s d Hf Hd); auto.
Qed.

Lemma finish_ok s : Forall frame_ok (open s) -> tracked s (finish src s).
Proof.
  intros Hf. assert (H0 : tracked s s) by (split_and!; auto; exists []; rewrite app_nil_r; auto).
  unfold finish. destruct (last (open s)) as [top|] eqn:El; [|exact H0]. bool_case; [exact H0|].
  assert (Htop : 0 <= fpos top < N).
  { apply last_Some in El as [l' El]. rewrite El in Hf. apply Forall_app in Hf as [_ Hf]. apply Forall_cons in Hf as [Hf _]. exact Hf. }
  destruct (diag_ok_error (fpos top) (fpos top + 1) (bs "unclosed " ++ KindString (fkind top) ++ bs " at end of file")
    (set_reported s) Htop) as (d & Ed & Hd).
  apply (tracked_diags s d Hf Hd); auto.
Qed.

Lemma punctToken_ok s : well s -> off s < N -> does (punctToken src (off s) s) (emitted s).
Proof.
  intros Hw Ho. assert (Hst : 0 <= off s < N) by (destruct Hw; lia). unfold punctToken.
  destruct (punct_ok (off s) Hst) as (k & n & -> & Hn). cbn [mbind option_bind].
  destruct (n =? 0) eqn:E; to_Z; [apply does_some, illegalRune_ok; auto|].
  destruct Hn as [Hn|(H1 & H2 & Hk)]; [contradiction|]. cbv zeta. apply does_some.
  destruct (track_ok k (off s) (off s + n) (at_off (off s + n) s) (w_open _ Hw) Hst) as (T1 & T2 & T3 & T4 & T5 & new & T6 & T7).
  change (off (at_off (off s + n) s)) with (off s + n) in *. cbn in T2, T3, T4, T6.
  exists k, CtxNone. cbn [emit toks gap nl off open diags]. unfold flags_of. rewrite T1, T2, T3, T4.
  split_and!; auto; lia || eauto.
Qed.

Lemma numberToken_ok s : well s -> off s < N -> number_head (off s) -> does (numberToken src (off s) s) (emitted s).
Proof.
  intros Hw Ho Hh. unfold numberToken. run_gives (scanNumber_ok s Hw Ho Hh). destruct Q as (Q & Hp & Hk).
  apply does_some. apply (ended v s s0); auto; destruct Hk as [-> | ->]; first [in_open|discriminate].
Qed.

Lemma scanToken_ok s : well s -> off s < N -> does (scanToken unicode src s) (emitted s).
Proof.
  intros Hw Ho. assert (Hst : 0 <= off s < N) by (destruct Hw; lia). unfold scanToken. cbv zeta.
  rewrite idx_some by exact Hst. cbn [mbind option_bind]. bool_case.
  { destruct (scanIdent_ok s Hw Ho) as (r & -> & Hr). cbn [mbind option_bind]. apply does_some.
    destruct r; [auto|apply illegalRune_ok; auto]. }
  bool_case; [apply numberToken_ok; auto; left; exact E0|].
  bool_case; [destruct (has src triple_quote s) eqn:E2; [apply scanTextBlock_ok|apply scanString_ok]; auto|].
  bool_case; [apply scanChar_ok; auto|]. bool_case; [|apply punctToken_ok; auto].
  apply numberToken_ok; auto. right. to_Z. auto.
Qed.

(** ** Trivia *)

Definition is_white (c : Z) : bool := (c =? 32) || (c =? 9) || (c =? 12) || is_newline c.

(** A comment closes at [k]. *)
Definition closes (k : Z) : Prop := byte src k = 42 /\ byte src (k + 1) = 47.

(** White space, or a comment that ends at the first place it may; only the end
    of the source may cut a comment short. *)
Inductive piece (a b : Z) : Prop :=
  | piece_white : 0 <= a < N -> b = a + 1 -> is_white (byte src a) = true -> piece a b
  | piece_line : 0 <= a -> a + 2 <= b <= N -> byte src a = 47 -> byte src (a + 1) = 47 ->
      (forall k, a + 2 <= k < b -> is_newline (byte src k) = false) ->
      (b < N -> is_newline (byte src b) = true) -> piece a b
  | piece_block : 0 <= a -> a + 4 <= b <= N -> byte src a = 47 -> byte src (a + 1) = 42 -> closes (b - 2) ->
      (forall k, a + 2 <= k < b - 2 -> ~ closes k) -> piece a b
  | piece_open : 0 <= a -> a + 2 <= N -> b = N -> byte src a = 47 -> byte src (a + 1) = 42 ->
      (forall k, a + 2 <= k -> k + 1 < N -> ~ closes k) -> piece a b.

Inductive trivia : Z -> Z -> Prop :=
  | trivia_nil a : trivia a a
  | trivia_snoc a b c : trivia a b -> piece b c -> trivia a c.

(** The tokens [ts] laid out from the start of the source up to [o]: between
    one and the next lies trivia, and a token is marked adjacent only when
    there is none; with comments dropped, whenever there is none. *)
Inductive laid : list Token -> Z -> Prop :=
  | laid_nil : laid [] 0
  | laid_snoc ts o t p e :
      laid ts o -> trivia o p -> p < e <= N -> tPos t = PosOf p -> tEnd t = PosOf e -> token_ok (tKind t) p e ->
      (Adjacent t = true -> p = o /\ ts <> []) ->
      (Z.land mode ScanComments = 0 -> p = o -> ts <> [] -> Adjacent t = true) ->
      laid (ts ++ [t]) e.

Lemma Adjacent_flags k c p e s : Adjacent (mkToken k c (flags_of s) p e) = negb (gap s) && (0 <? len (toks s)).
Proof. unfold Adjacent, flags_of. cbn [tFlags]. destruct (negb (gap s) && (0 <? len (toks s))), (nl s); reflexivity. Qed.

Lemma len_pos {A} (l : list A) : (0 <? len l) = true <-> l <> [].
Proof.
  destruct l as [|x l]; [split; [discriminate|congruence]|]. rewrite len_cons. pose proof (len_nonneg l).
  rewrite (proj2 (Z.ltb_lt 0 (1 + len l))) by lia. split; [discriminate|reflexivity].
Qed.

(** The scanner between tokens. *)
Record between (s : scanner) (o : Z) : Prop := {
  b_laid : laid (toks s) o;
  b_trivia : trivia o (off s);
  b_tight : gap s = false -> off s = o;
  b_loose : Z.land mode ScanComments = 0 -> gap s = true -> o < off s }.

Record state_ok (d0 : list Diagnostic) (s : scanner) : Prop := {
  so_well : well s;
  so_between : exists o, between s o;
  so_diags : exists new, diags s = d0 ++ new /\ Forall diag_ok new }.

(** A token from where the scanner stands. *)
Lemma laid_token s o k c e :
  between s o -> off s < e <= N -> token_ok k (off s) e ->
  laid (toks s ++ [mkToken k c (flags_of s) (PosOf (off s)) (PosOf e)]) e.
Proof.
  intros [Hl Ht Hg Hq] He Hk. econstructor; try reflexivity; eauto; rewrite ?Adjacent_flags.
  - intros H. apply andb_prop in H as [H1 H2]. apply len_pos in H2. to_Z. auto.
  - intros Hm Hp Hts. apply len_pos in Hts. rewrite Hts, andb_true_r. destruct (gap s); [|reflexivity].
    specialize (Hq Hm eq_refl). lia.
Qed.

Lemma diags_app (d0 d1 d2 : list Diagnostic) :
  (exists new, d1 = d0 ++ new /\ Forall diag_ok new) -> (exists new, d2 = d1 ++ new /\ Forall diag_ok new) ->
  exists new, d2 = d0 ++ new /\ Forall diag_ok new.
Proof.
  intros (n1 & -> & H1) (n2 & -> & H2). exists (n1 ++ n2). rewrite app_assoc. split; [reflexivity|]. apply Forall_app. auto.
Qed.

Lemma emitted_state d0 s s' : state_ok d0 s -> emitted s s' -> state_ok d0 s'.
Proof.
  intros [Hw (o & Hb) Hd] (k & c & Ht & Hk & Ho & Hg & Hn & Hf & Hnew). split.
  - split; [|exact Hf]. pose proof (w_off _ Hw). lia.
  - exists (off s'). split; [|constructor|auto|].
    + rewrite Ht. eapply laid_token; eauto.
    + intros _ Hg'. congruence.
  - eapply diags_app; eauto.
Qed.

(** White space. *)
Lemma white_state d0 s (f : scanner -> scanner) :
  state_ok d0 s -> off s < N -> is_white (byte src (off s)) = true ->
  off (f s) = off s + 1 -> gap (f s) = true -> toks (f s) = toks s -> open (f s) = open s -> diags (f s) = diags s ->
  state_ok d0 (f s).
Proof.
  intros [Hw (o & [Hl Ht Hg Hq]) Hd] Ho Hc E1 E2 E3 E4 E5. pose proof (w_off _ Hw). split.
  - split; [lia|]. rewrite E4. apply Hw.
  - assert (Hto : o <= off s) by (clear -Ht; induction Ht as [|a b c _ IH Hp]; [lia|]; destruct Hp; lia).
    exists o. split; rewrite ?E3, ?E1, ?E2; auto; [|discriminate|intros; lia].
    econstructor; [exact Ht|]. apply piece_white; auto; lia.
  - rewrite E5. exact Hd.
Qed.

(** A comment read from [s], where the scanner was between tokens, up to [s1]. *)
Lemma comment_state d0 s s1 m :
  state_ok d0 s -> quiet s s1 -> piece (off s) (off s1) -> off s < off s1 ->
  state_ok d0 (comment mode (off s) (off s1) m s1) /\ off (comment mode (off s) (off s1) m s1) = off s1.
Proof.
  intros [Hw (o & Hb) Hd] Hq Hp Ho. pose proof (quiet_well _ _ Hw Hq) as W1. destruct Hq as [H1 H2 H3 H4 H5 H6 H7].
  pose proof Hb as [Hl Ht Hg Hqm].
  assert (Hto : o <= off s) by (clear -Ht; induction Ht as [|a b c _ IH Hpc]; [lia|]; destruct Hpc; lia).
  assert (Hoff : off (comment mode (off s) (off s1) m s1) = off s1) by (unfold comment; destruct m, (negb _); reflexivity).
  assert (Hopen : open (comment mode (off s) (off s1) m s1) = open s1) by (unfold comment; destruct m, (negb _); reflexivity).
  assert (Hdg : diags (comment mode (off s) (off s1) m s1) = diags s1) by (unfold comment; destruct m, (negb _); reflexivity).
  assert (Hgap : gap (comment mode (off s) (off s1) m s1) = true) by (unfold comment; destruct m, (negb _); reflexivity).
  split; [|exact Hoff]. split.
  - split; [rewrite Hoff; apply W1|rewrite Hopen; apply W1].
  - destruct (Z.land mode ScanComments =? 0) eqn:Em; to_Z.
    + exists o. split; rewrite ?Hoff, ?Hgap; [|econstructor; eauto|discriminate|intros; lia].
      unfold comment. rewrite (proj2 (Z.eqb_eq _ 0) Em). destruct m; cbn; rewrite H1; exact Hl.
    + exists (off s1). split; rewrite ?Hoff, ?Hgap; [|constructor|discriminate|contradiction].
      replace (toks (comment mode (off s) (off s1) m s1))
        with (toks s ++ [mkToken COMMENT CtxNone (flags_of s) (PosOf (off s)) (PosOf (off s1))]).
      * eapply laid_token; [exact Hb|lia|]. open_token.
      * unfold comment. rewrite (proj2 (Z.eqb_neq _ 0) Em). unfold flags_of. rewrite <- H1, <- H2, <- H3. destruct m; reflexivity.
  - rewrite Hdg. eapply diags_app; eauto.
Qed.

Lemma scanLineComment_ok d0 s :
  state_ok d0 s -> off s + 1 < N -> byte src (off s) = 47 -> byte src (off s + 1) = 47 ->
  does (scanLineComment src mode s) (fun s' => state_ok d0 s' /\ off s < off s').
Proof.
  intros Hs Hn E1 E2. pose proof (so_well _ _ Hs) as Hw. pose proof (w_off _ Hw).
  assert (Q1 : quiet s (advance 2 s)) by (apply quiet_advance; auto; lia). unfold scanLineComment. cbv zeta.
  match goal with |- does (loop _ ?r _ ≫= _) _ =>
    assert (D : does (loop (rounds src) r (advance 2 s)) (fun s1 => quiet s s1 /\ off s + 2 <= off s1 /\
      (forall k, off s + 2 <= k < off s1 -> is_newline (byte src k) = false) /\
      (off s1 < N -> is_newline (byte src (off s1)) = true))) end.
  { apply (loop_scan (fun a => a) (fun a => off s + 2 <= off a /\ forall k, off s + 2 <= k < off a -> is_newline (byte src k) = false) _ _ s).
    - exact Q1.
    - exact (quiet_well _ _ Hw Q1).
    - cbn. split; [lia|intros; lia].
    - intros a Hq Ha [Hi1 Hi2]. destruct (off a <? N) eqn:E; to_Z; [|eexists; split; [reflexivity|]; split_and!; auto; lia].
      rewrite idx_some by lia. cbn [mbind option_bind]. destruct (is_newline (byte src (off a))) eqn:En; cbn [negb].
      + eexists. split; [reflexivity|]. split_and!; auto.
      + eexists. split; [reflexivity|]. cbn beta iota. split_and!; [apply quiet_advance; auto; lia|cbn; lia|cbn; lia|].
        cbn. intros k Hk. destruct (Z.eq_dec k (off a)) as [->|]; [exact En|]. apply Hi2. lia. }
  destruct D as (s1 & -> & Q & Hlo & Hno & Hend). cbn [mbind option_bind]. apply does_some.
  destruct (comment_state d0 s s1 false Hs Q) as [Hc Hoff]; [|lia|split; [exact Hc|lia]].
  apply piece_line; auto; try lia. pose proof (q_off _ _ Q). lia.
Qed.

Lemma scanBlockComment_ok d0 s :
  state_ok d0 s -> off s + 1 < N -> byte src (off s) = 47 -> byte src (off s + 1) = 42 ->
  does (scanBlockComment src mode s) (fun s' => state_ok d0 s' /\ off s < off s').
Proof.
  intros Hs Hn E1 E2. pose proof (so_well _ _ Hs) as Hw. pose proof (w_off _ Hw).
  assert (Q1 : quiet s (advance 2 s)) by (apply quiet_advance; auto; lia). unfold scanBlockComment. cbv zeta.
  apply (loop_scan snd (fun a => off s + 2 <= off (snd a) /\ forall k, off s + 2 <= k < off (snd a) -> ~ closes k) _ _ s).
  - exact Q1.
  - exact (quiet_well _ _ Hw Q1).
  - cbn. split; [lia|intros; lia].
  - intros [m a] Hq Ha [Hi1 Hi2]. cbn [snd] in *. pose proof (q_off _ _ Hq). destruct (off a <? N) eqn:E; to_Z.
    2: { eexists. split; [reflexivity|]. cbn beta iota.
      assert (Qe : quiet s (error src (off s) (off a) (bs "unterminated comment") a))
        by (eapply quiet_trans; [exact Hq|]; apply quiet_error; auto; lia).
      destruct (comment_state d0 s (error src (off s) (off a) (bs "unterminated comment") a) m Hs Qe) as [Hc Hoff]; cbn [off error] in *.
      - apply piece_open; auto; try lia. intros k Hk1 Hk2. apply Hi2. lia.
      - lia.
      - split; [exact Hc|]. change (off (comment mode (off s) (off a) m (error src (off s) (off a) (bs "unterminated comment") a)) = off a) in Hoff. lia. }
    rewrite idx_some by lia. cbn [mbind option_bind].
    assert (Qa : quiet a (advance 1 a)) by (apply quiet_advance; auto; lia).
    assert (Hnext : ~ closes (off a) -> forall k, off s + 2 <= k < off (advance 1 a) -> ~ closes k).
    { intros Hno k Hk. cbn in Hk. destruct (Z.eq_dec k (off a)) as [->|]; [exact Hno|]. apply Hi2. lia. }
    bool_case; to_Z.
    + destruct (at0 src (off a + 1) =? 47) eqn:E4; to_Z.
      * destruct (at0_in _ _ E4 ltac:(discriminate)) as [Hin Hb]. eexists. split; [reflexivity|]. cbn beta iota.
        assert (Q2 : quiet s (advance 2 a)) by (eapply quiet_trans; [exact Hq|]; apply quiet_advance; auto; lia).
        destruct (comment_state d0 s (advance 2 a) m Hs Q2) as [Hc Hoff]; cbn [off advance at_off] in *.
        -- apply piece_block; auto; try lia; replace (off a + 2 - 2) with (off a) by lia; [split; auto|exact Hi2].
        -- lia.
        -- split; [exact Hc|]. change (off (comment mode (off s) (off a + 2) m (advance 2 a)) = off a + 2) in Hoff. cbn [advance at_off off]. lia.
      * eexists. split; [reflexivity|]. cbn beta iota. cbn [snd]. split_and!; [exact Qa|cbn; lia|cbn; lia|]. apply Hnext.
        intros [_ Hb]. apply E4. destruct (Z.lt_ge_cases (off a + 1) N); [rewrite at0_byte by assumption; exact Hb|].
        exfalso. unfold byte in Hb. rewrite nth_overflow in Hb by (unfold len in *; lia). discriminate.
    + assert (Hno : ~ closes (off a)) by (intros [? _]; contradiction).
      bool_case; (eexists; split; [reflexivity|]; cbn beta iota; cbn [snd]; split_and!; [exact Qa|cbn; lia|cbn; lia|]; apply Hnext, Hno).
Qed.

Lemma state_measure d0 s : state_ok d0 s -> 0 <= N - off s < Z.of_nat (rounds src).
Proof. intros [[Hw _] _ _]. unfold rounds, len in *. lia. Qed.

(** A round of [skipTrivia] over one byte of white space. *)
Lemma white_round d0 s (f : scanner -> scanner) :
  state_ok d0 s -> off s < N -> is_white (byte src (off s)) = true ->
  off (f s) = off s + 1 -> gap (f s) = true -> toks (f s) = toks s -> open (f s) = open s -> diags (f s) = diags s ->
  state_ok d0 (f s) /\ 0 <= N - off (f s) < N - off s.
Proof. intros Hs Ho Hc H1 H2 H3 H4 H5. split; [eapply white_state; eauto|]. rewrite H1. lia. Qed.

Lemma skipTrivia_ok d0 s :
  state_ok d0 s -> does (skipTrivia src mode s) (fun s' => state_ok d0 s' /\ off s <= off s').
Proof.
  intros Hs. unfold skipTrivia.
  apply (loop_total (fun a => N - off a) (fun a => state_ok d0 a /\ off s <= off a) (fun a => state_ok d0 a /\ off s <= off a));
    [|split; [exact Hs|lia]|eapply state_measure; eauto].
  intros a [Ha Hle]. pose proof (so_well _ _ Ha) as Hw. pose proof (w_off _ Hw) as Ho.
  assert (Hstop : exists r : scanner + scanner, Some (inr a) = Some r /\
    match r with inl a' => (state_ok d0 a' /\ off s <= off a') /\ 0 <= N - off a' < N - off a | inr r => state_ok d0 r /\ off s <= off r end)
    by (eexists; split; [reflexivity|]; cbn; auto).
  destruct (off a <? N) eqn:E; to_Z; [|exact Hstop]. rewrite (idx_some (off a)) by lia. cbn [mbind option_bind].
  destruct ((byte src (off a) =? 32) || (byte src (off a) =? 9) || (byte src (off a) =? 12)) eqn:Ew.
  { eexists. split; [reflexivity|]. cbn beta iota.
    destruct (white_round d0 a (fun a => advance 1 (set_gap a)) Ha E) as [H1 H2]; auto; [unfold is_white; rewrite Ew; reflexivity|].
    split; [split; [exact H1|]|exact H2]. cbn in *. lia. }
  destruct (byte src (off a) =? 10) eqn:E10.
  { eexists. split; [reflexivity|]. cbn beta iota.
    destruct (white_round d0 a (fun a => advance 1 (set_nl (set_gap a))) Ha E) as [H1 H2]; auto.
    { unfold is_white, is_newline. rewrite E10, orb_true_r. reflexivity. }
    split; [split; [exact H1|]|exact H2]. cbn in *. lia. }
  destruct (byte src (off a) =? 13) eqn:E13.
  { eexists. split; [reflexivity|]. cbn beta iota. set (b := advance 1 (set_nl (set_gap a))).
    destruct (white_round d0 a (fun a => advance 1 (set_nl (set_gap a))) Ha E) as [H1 H2]; auto.
    { unfold is_white, is_newline. rewrite E13, !orb_true_r. reflexivity. }
    fold b in H1, H2. cbn beta in H1, H2. assert (Hb : off b = off a + 1) by reflexivity.
    bool_case; [|split; [split; [exact H1|lia]|exact H2]]. to_Z.
    destruct (white_round d0 b (advance 1) H1) as [Hb1 Hb2]; auto.
    { unfold is_white, is_newline. rewrite (proj2 (Z.eqb_eq _ 10)) by assumption. rewrite orb_true_r. reflexivity. }
    change (off (advance 1 b)) with (off b + 1) in *.
    split; [split; [exact Hb1|lia]|lia]. }
  destruct (byte src (off a) =? 47) eqn:E47; to_Z; [|exact Hstop].
  destruct (N <=? off a + 1) eqn:En; to_Z; [exact Hstop|]. rewrite (idx_some (off a + 1)) by lia. cbn [mbind option_bind].
  assert (Hcom : forall o, does o (fun s' => state_ok d0 s' /\ off a < off s') ->
    exists r : scanner + scanner, (s' ← o; Some (inl s')) = Some r /\
    match r with inl a' => (state_ok d0 a' /\ off s <= off a') /\ 0 <= N - off a' < N - off a | inr r => state_ok d0 r /\ off s <= off r end).
  { intros o (s' & -> & Hs1 & Hs2). eexists. split; [reflexivity|]. cbn beta iota. pose proof (w_off _ (so_well _ _ Hs1)).
    split; [split; [exact Hs1|lia]|lia]. }
  bool_case; to_Z; [apply Hcom, scanLineComment_ok; auto; lia|].
  bool_case; to_Z; [apply Hcom, scanBlockComment_ok; auto; lia|exact Hstop].
Qed.

Lemma tokens_ok d0 s : state_ok d0 s -> does (tokens unicode src mode s) (fun s' => state_ok d0 s' /\ off s' = N).
Proof.
  intros Hs. unfold tokens.
  apply (loop_total (fun a => N - off a) (state_ok d0) (fun a => state_ok d0 a /\ off a = N));
    [|exact Hs|eapply state_measure; eauto].
  intros a Ha. destruct (skipTrivia_ok d0 a Ha) as (b & -> & Hb & Hle). cbn [mbind option_bind].
  pose proof (so_well _ _ Hb) as Wb. pose proof (w_off _ Wb). pose proof (w_off _ (so_well _ _ Ha)).
  destruct (N <=? off b) eqn:E; to_Z; [eexists; split; [reflexivity|]; cbn beta iota; split; [exact Hb|lia]|].
  destruct (scanToken_ok b Wb E) as (c & -> & Hc). cbn [mbind option_bind]. eexists. split; [reflexivity|]. cbn beta iota.
  pose proof (emitted_state _ _ _ Hb Hc) as Hcs. split; [exact Hcs|]. pose proof (w_off _ (so_well _ _ Hcs)).
  destruct Hc as (k & c' & _ & _ & Ho & _). lia.
Qed.

(** What the scanner ends with. *)
Lemma run_ok d0 :
  exists s body fl, run unicode src mode (start_scanner d0) = Some s /\
    toks s = body ++ [mkToken EOF CtxNone fl (PosOf N) (PosOf N)] /\
    (exists o, laid body o /\ trivia o N) /\ exists new, diags s = d0 ++ new /\ Forall diag_ok new.
Proof.
  assert (H0 : state_ok d0 (start_scanner d0)).
  { split; [split; [cbn; pose proof (len_nonneg src); lia|constructor]| |exists []; rewrite app_nil_r; auto].
    exists 0. split; [constructor|constructor|auto|discriminate]. }
  destruct (tokens_ok d0 _ H0) as (s & Es & Hs & Ho). unfold run. rewrite Es. cbn [mbind option_bind]. cbv zeta.
  destruct Hs as [Hw (o & [Hl Ht _ _]) Hd]. destruct (finish_ok s (w_open _ Hw)) as (T1 & T2 & T3 & T4 & T5 & T6).
  eexists. exists (toks s), (flags_of (finish src s)). split; [reflexivity|]. cbn [emit toks diags]. rewrite T2.
  split; [reflexivity|]. split; [exists o; rewrite <- Ho; auto|]. eapply diags_app; eauto.
Qed.
End Proofs.

(** ** Theorems *)

(** C7: scanning ends on every input, in every mode and for any Unicode tables,
    with no index or slice out of range; the tokens it returns, an EOF token
    last, lie in order on the text, every one but the last on at least one byte;
    what lies between them is white space and comments and nothing else; a
    token of a fixed spelling has that spelling, an identifier is no reserved
    word, and no token is a shift operator that only the parser may build; a
    token is marked adjacent only when nothing separates it from the one
    before; and each diagnostic of the scanner is about at least one byte of the
    text. *)
Theorem scan_covers (unicode : UnicodeTables) (f : File) (mode : Z) :
  exists body fl ds new,
    Scan unicode f mode = Some (body ++ [mkToken EOF CtxNone fl (PosOf (Size f)) (PosOf (Size f))], ds) /\
    (exists o, laid (text f) mode body o /\ trivia (text f) o (Size f)) /\
    ds ≡ₚ fdiags f ++ new /\ Forall (diag_ok (text f)) new.
Proof.
  destruct (run_ok unicode (text f) mode (fdiags f)) as (s & body & fl & E & Et & Hl & new & Ed & Hn).
  exists body, fl, (SortDiagnostics (diags s)), new. unfold Scan. rewrite E. cbn [mbind option_bind]. rewrite Et.
  split; [reflexivity|]. split; [exact Hl|]. rewrite SortDiagnostics_perm, Ed. split; [reflexivity|exact Hn].
Qed.
