(* ===== verification/Ast.v ===== *)
(** * The syntax tree ([ast/])

    One constructor per node type, with the fields in the order of the Go
    structs; the embedded [Span] comes first.  A field that the tree may leave
    nil is an option; a slice is a list, and nil is the empty one.  [Node] is
    the interface where the tree allows more than one hierarchy. *)
From S2P Require Import Prelude.

(** ** Spans and names *)

Record Span := At { Lo : Z; Hi : Z }.

Record Ident := mkIdent { iSpan : Span; iCtx : Z; iUnderscore : bool }.

Record Name := mkName { nSpan : Span; nParts : list Ident }.

(** ** The five hierarchies *)

Inductive Node : Set :=
  | NExpr (e : Expr)
  | NType (t : Typ)
  | NPattern (p : Pattern)
  | NBlock (b : Block)
  | NStmt (s : Stmt)
  | NAnnotation (a : Annotation)
  | NElementValueArray (sp : Span) (Elts : list Node) (Comma : Z)

with Annotation : Set :=
  | mkAnnotation (sp : Span) (AtPos : Z) (name : Name) (Pairs : list ElementValuePair)

with ElementValuePair : Set :=
  | mkElementValuePair (sp : Span) (name : option Ident) (Value : Node)

with Modifier : Set :=
  | mkModifier (sp : Span) (annotation : option Annotation) (kind : Z)

with Modifiers : Set :=
  | mkModifiers (sp : Span) (List : list Modifier)

(** [ast/type.go] *)
with Typ : Set :=
  | PrimitiveType (sp : Span) (Annotations : list Annotation) (kind : Z) (KwPos : Z)
  | TNamed (n : NamedType)
  | ArrayType (sp : Span) (Elt : Typ) (Dims : list Dim)
  | VarType (sp : Span)
  | Wildcard (sp : Span) (Annotations : list Annotation) (QPos : Z) (BoundKind : Z) (Bound : option Typ)
  | BadType (sp : Span)

with NamedType : Set :=
  | mkNamedType (sp : Span) (Qualifier : option NamedType) (Annotations : list Annotation) (name : Ident) (TypeArgs_ : option TypeArgs)

with Dim : Set :=
  | mkDim (sp : Span) (Annotations : list Annotation) (Lbrack Rbrack : Z)

with TypeArgs : Set :=
  | mkTypeArgs (sp : Span) (Lt Gt : Z) (List : list Typ) (Diamond : bool)

with TypeParams : Set :=
  | mkTypeParams (sp : Span) (Lt Gt : Z) (List : list TypeParam)

with TypeParam : Set :=
  | mkTypeParam (sp : Span) (Annotations : list Annotation) (name : Ident) (Bounds : list Typ)

(** [ast/pattern.go] *)
with Pattern : Set :=
  | TypePattern (sp : Span) (Mods : option Modifiers) (type : Typ) (name : Ident)
  | RecordPattern (sp : Span) (type : Typ) (Lparen : Z) (Elts : list Pattern) (Rparen : Z)
  | MatchAllPattern (sp : Span)
  | BadPattern (sp : Span)

(** [ast/expr.go] *)
with Expr : Set :=
  | EIdent (i : Ident)
  | EName (n : Name)
  | BasicLit (sp : Span) (kind : Z)
  | ClassLit (sp : Span) (type : option Typ) (VoidPos : Z) (Dims : list Dim) (ClassPos : Z)
  | This (sp : Span) (Qualifier : option Name) (ThisPos : Z)
  | Super (sp : Span) (Qualifier : option Name) (SuperPos : Z)
  | ParenExpr (sp : Span) (Lparen : Z) (X : Expr) (Rparen : Z)
  | SelectorExpr (sp : Span) (X : Expr) (Dot : Z) (Sel : Ident)
  | IndexExpr (sp : Span) (X : Expr) (Lbrack : Z) (Index : Expr) (Rbrack : Z)
  | CallExpr (sp : Span) (X : option Expr) (TypeArgs_ : option TypeArgs) (Fun : Ident) (Lparen : Z) (Args : list Expr) (Rparen : Z)
  | MethodRef (sp : Span) (X : Node) (ColonPos : Z) (TypeArgs_ : option TypeArgs) (name : option Ident) (NewPos : Z)
  | NewExpr (sp : Span) (Outer : option Expr) (NewPos : Z) (TypeArgs_ : option TypeArgs) (type : option NamedType)
      (Lparen : Z) (Args : list Expr) (Rparen : Z) (Body : list Decl) (Lbrace Rbrace : Z)
  | NewArrayExpr (sp : Span) (NewPos : Z) (Elt : Typ) (DimExprs : list DimExpr) (Dims : list Dim) (Init : option ArrayInit)
  | EArrayInit (a : ArrayInit)
  | UnaryExpr (sp : Span) (Op : Z) (OpPos : Z) (X : Expr)
  | PostfixExpr (sp : Span) (X : Expr) (Op : Z) (OpPos : Z)
  | BinaryExpr (sp : Span) (X : Expr) (Op : Z) (OpPos OpEnd : Z) (Y : Expr)
  | InstanceOfExpr (sp : Span) (X : Expr) (OpPos : Z) (type : option Typ) (pattern : option Pattern)
  | CondExpr (sp : Span) (Cond : Expr) (Question : Z) (Then : Expr) (Colon : Z) (Else : Expr)
  | AssignExpr (sp : Span) (LHS : Expr) (Op : Z) (OpPos OpEnd : Z) (RHS : Expr)
  | CastExpr (sp : Span) (Lparen : Z) (type : Typ) (Bounds : list Typ) (Rparen : Z) (X : Expr)
  | LambdaExpr (sp : Span) (Lparen : Z) (Params : list Param) (Rparen : Z) (Paren : bool) (Arrow : Z) (Body : Node)
  | SwitchExpr (sp : Span) (SwitchPos : Z) (Tag : Expr) (block : SwitchBlock)
  | BadExpr (sp : Span)

with DimExpr : Set :=
  | mkDimExpr (sp : Span) (Annotations : list Annotation) (Lbrack : Z) (X : Expr) (Rbrack : Z)

with ArrayInit : Set :=
  | mkArrayInit (sp : Span) (Lbrace : Z) (Elts : list Node) (Comma : Z) (Rbrace : Z)

(** [ast/stmt.go] *)
with Block : Set :=
  | mkBlock (sp : Span) (Lbrace : Z) (Stmts : list Stmt) (Rbrace : Z)

with Stmt : Set :=
  | SBlock (b : Block)
  | EmptyStmt (sp : Span)
  | ExprStmt (sp : Span) (X : Expr)
  | DeclStmt (sp : Span) (decl : Decl)
  | LabeledStmt (sp : Span) (Label : Ident) (Colon : Z) (stmt : Stmt)
  | IfStmt (sp : Span) (IfPos : Z) (Cond : Expr) (Then : Stmt) (ElsePos : Z) (Else : option Stmt)
  | WhileStmt (sp : Span) (WhilePos : Z) (Cond : Expr) (Body : Stmt)
  | DoStmt (sp : Span) (DoPos : Z) (Body : Stmt) (WhilePos : Z) (Cond : Expr)
  | ForStmt (sp : Span) (ForPos : Z) (Init : list Stmt) (Cond : option Expr) (Post : list Expr) (Body : Stmt)
  | RangeStmt (sp : Span) (ForPos : Z) (decl : VarDecl) (Colon : Z) (X : Expr) (Body : Stmt)
  | SwitchStmt (sp : Span) (SwitchPos : Z) (Tag : Expr) (block : SwitchBlock)
  | BreakStmt (sp : Span) (BreakPos : Z) (Label : option Ident)
  | ContinueStmt (sp : Span) (ContinuePos : Z) (Label : option Ident)
  | ReturnStmt (sp : Span) (ReturnPos : Z) (Result : option Expr)
  | YieldStmt (sp : Span) (YieldPos : Z) (X : Expr)
  | ThrowStmt (sp : Span) (ThrowPos : Z) (X : Expr)
  | SyncStmt (sp : Span) (SyncPos : Z) (X : Expr) (Body : Block)
  | AssertStmt (sp : Span) (AssertPos : Z) (X : Expr) (Colon : Z) (Msg : option Expr)
  | TryStmt (sp : Span) (TryPos : Z) (Lparen : Z) (Resources : list Resource) (Semi : Z) (Rparen : Z) (Body : Block)
      (Catches : list CatchClause) (FinallyPos : Z) (Finally : option Block)
  | ConstructorCall (sp : Span) (X : option Expr) (TypeArgs_ : option TypeArgs) (kind : Z) (KwPos Lparen : Z) (Args : list Expr) (Rparen : Z)
  | BadStmt (sp : Span)

with Resource : Set :=
  | mkResource (sp : Span) (decl : option VarDecl) (X : option Expr)

with CatchClause : Set :=
  | mkCatchClause (sp : Span) (CatchPos : Z) (Mods : option Modifiers) (Types : list Typ) (name : Ident) (Body : Block)

with SwitchBlock : Set :=
  | mkSwitchBlock (sp : Span) (Lbrace : Z) (Rules : list SwitchRule) (Groups : list SwitchGroup) (Labels : list SwitchLabel) (Rbrace : Z)

with SwitchRule : Set :=
  | mkSwitchRule (sp : Span) (Label : SwitchLabel) (Arrow : Z) (Body : Node)

with SwitchGroup : Set :=
  | mkSwitchGroup (sp : Span) (Labels : list SwitchLabel) (Stmts : list Stmt)

with SwitchLabel : Set :=
  | mkSwitchLabel (sp : Span) (KwPos : Z) (Cases : list Node) (Default : bool) (DefaultPos WhenPos : Z) (Guard : option Expr)

(** [ast/decl.go] *)
with VarDecl : Set :=
  | mkVarDecl (sp : Span) (Mods : option Modifiers) (type : option Typ) (Names : list VarDeclarator) (Semi : Z)

with VarDeclarator : Set :=
  | mkVarDeclarator (sp : Span) (name : Ident) (Dims : list Dim) (Assign : Z) (Init : option Node)

with Param : Set :=
  | mkParam (sp : Span) (Mods : option Modifiers) (type : option Typ) (Annotations : list Annotation) (Ellipsis : Z) (name : Ident) (Dims : list Dim)

with ReceiverParam : Set :=
  | mkReceiverParam (sp : Span) (Annotations : list Annotation) (type : Typ) (Qualifier : option Ident) (ThisPos : Z)

with RecordComponent : Set :=
  | mkRecordComponent (sp : Span) (Annotations : list Annotation) (type : Typ) (DotAnnotations : list Annotation) (Ellipsis : Z) (name : Ident)

with EnumConstant : Set :=
  | mkEnumConstant (sp : Span) (Annotations : list Annotation) (name : Ident) (Lparen : Z) (Args : list Expr) (Rparen : Z)
      (Lbrace : Z) (Members : list Decl) (Rbrace : Z)

with Decl : Set :=
  | ClassDecl (sp : Span) (Mods : option Modifiers) (ClassPos : Z) (name : Ident) (TypeParams_ : option TypeParams) (Extends : option Typ)
      (Implements Permits : list Typ) (Lbrace : Z) (Members : list Decl) (Rbrace : Z)
  | InterfaceDecl (sp : Span) (Mods : option Modifiers) (InterfacePos : Z) (name : Ident) (TypeParams_ : option TypeParams)
      (Extends Permits : list Typ) (Lbrace : Z) (Members : list Decl) (Rbrace : Z)
  | AnnotationDecl (sp : Span) (Mods : option Modifiers) (AtPos InterfacePos : Z) (name : Ident) (Lbrace : Z) (Members : list Decl) (Rbrace : Z)
  | EnumDecl (sp : Span) (Mods : option Modifiers) (EnumPos : Z) (name : Ident) (Implements : list Typ) (Lbrace : Z)
      (Constants : list EnumConstant) (Comma Semi : Z) (Members : list Decl) (Rbrace : Z)
  | RecordDecl (sp : Span) (Mods : option Modifiers) (RecordPos : Z) (name : Ident) (TypeParams_ : option TypeParams) (Lparen : Z)
      (Components : list RecordComponent) (Rparen : Z) (Implements : list Typ) (Lbrace : Z) (Members : list Decl) (Rbrace : Z)
  | DVar (v : VarDecl)
  | MethodDecl (sp : Span) (Mods : option Modifiers) (TypeParams_ : option TypeParams) (Annotations : list Annotation) (VoidPos : Z)
      (Result : option Typ) (name : Ident) (Lparen : Z) (Recv : option ReceiverParam) (Params : list Param) (Rparen : Z) (Dims : list Dim)
      (Throws : list Typ) (Body : option Block) (Semi : Z)
  | ConstructorDecl (sp : Span) (Mods : option Modifiers) (TypeParams_ : option TypeParams) (name : Ident) (Compact : bool) (Lparen : Z)
      (Recv : option ReceiverParam) (Params : list Param) (Rparen : Z) (Throws : list Typ) (Body : Block)
  | InitializerDecl (sp : Span) (StaticPos : Z) (Static : bool) (Body : Block)
  | AnnotationElemDecl (sp : Span) (Mods : option Modifiers) (type : option Typ) (name : Ident) (Lparen Rparen : Z) (Dims : list Dim)
      (DefaultPos : Z) (Default : option Node) (Semi : Z)
  | EmptyDecl (sp : Span)
  | BadDecl (sp : Span).

(** ** Compilation units *)

Record PackageDecl := mkPackageDecl { pkSpan : Span; pkAnnotations : list Annotation; pkPos : Z; pkName : Name }.

Record ImportDecl := mkImportDecl {
  imSpan : Span; ImportPos : Z; imStatic : bool; imModule : bool; imName : Name; OnDemand : bool; StarPos : Z }.

Record ModuleDirective := mkModuleDirective {
  mdSpan : Span; mdKind : Z; mdKwPos : Z; mdMods : option Modifiers; mdName : Name; mdTo : list Name; mdWith : list Name; mdSemi : Z }.

Record ModuleDecl := mkModuleDecl {
  moSpan : Span; moAnnotations : list Annotation; OpenPos : Z; ModulePos : Z; moName : Name; moLbrace : Z;
  Directives : list ModuleDirective; moRbrace : Z }.

(** [ast.File], without its [Unit] and its [Releaser]. *)
Record CompilationUnit := mkCompilationUnit {
  fiSpan : Span; Package : option PackageDecl; Imports : list ImportDecl; Decls : list Decl; Module_ : option ModuleDecl; Compact_ : bool }.
