(* ===== verification/Parser.v ===== *)
(** * The parser: cursor, diagnostics, speculation and recovery
    ([parser/parser.go], [speculate.go], [error.go])

    The token slice is immutable and the cursor an index into it; nodes are
    values, so the arena has no counterpart. *)
From S2P Require Import Prelude.
From S2P Require Import Token SourceFile Ast.

Definition ParseComments : Z := Z.shiftl 1 0.
Definition HeaderOnly : Z := Z.shiftl 1 1.
Definition Tolerant : Z := Z.shiftl 1 2.

Definition maxDepth : Z := 1000.
Definition maxResync : Z := 100.

(** What a run does not change: the file, the mode and the tokens.  No loop
    goes round more than [rounds] times. *)
Class Input := { unit_ : File; mode : Z; toks : list Token; rounds : nat }.

Record parser := mkParser {
  pi : nat; pdiags : list Diagnostic; quiet : bool; lastErr : Z; resyncs : Z; depth : Z }.

(** A method of the parser.  [None] is an index out of range, or a loop or a
    recursion longer than its bound. *)
Definition Parse (A : Type) : Type := parser -> option (A * parser).

#[export] Instance Parse_ret : MRet Parse := fun _ a p => Some (a, p).
#[export] Instance Parse_bind : MBind Parse := fun _ _ k m p => match m p with Some (a, p) => k a p | None => None end.

(** A value that may be missing is a panic. *)
Definition must {A} (o : option A) : Parse A := fun p => a ← o; Some (a, p).

Definition set_pi (i : nat) (p : parser) : parser := mkParser i (pdiags p) (quiet p) (lastErr p) (resyncs p) (depth p).
Definition set_depth (d : Z) (p : parser) : parser := mkParser (pi p) (pdiags p) (quiet p) (lastErr p) (resyncs p) d.

Definition given {A} (o : option A) : bool := match o with Some _ => true | None => false end.

(** [p.i], and [p.i = i]. *)
Definition cursor : Parse nat := fun p => Some (pi p, p).
Definition seek (i : nat) : Parse unit := fun p => Some (tt, set_pi i p).

(** A round of a loop answers the new accumulator and whether to go on. *)
Fixpoint loop (n : nat) {A} (round : A -> Parse (A * bool)) (a : A) : Parse A :=
  match n with
  | O => fun _ => None
  | S n => r ← round a; let '(a, more) := r : A * bool in if more then loop n round a else mret a
  end.

Section Cursor.
Context `{Input}.

(** ** Cursor *)

Definition tok : Parse Token := fun p => t ← toks !! pi p; Some (t, p).
Definition kind : Parse Z := t ← tok; mret (tKind t).
Definition pos : Parse Z := t ← tok; mret (tPos t).
Definition end_ : Parse Z := t ← tok; mret (tEnd t).
Definition atEOF : Parse bool := t ← tok; mret (tKind t =? EOF).

Definition prevEnd : Parse Z :=
  i ← cursor;
  match i with
  | O => t ← must (toks !! O); mret (tPos t)
  | S i => t ← must (toks !! i); mret (tEnd t)
  end.

Definition peek (n : nat) : Parse Token :=
  i ← cursor;
  if bool_decide (length toks <= i + n)%nat then must (last toks) else must (toks !! (i + n)%nat).

Definition peekKind (n : nat) : Parse Z := t ← peek n; mret (tKind t).

Definition at_ (k : Z) : Parse bool := c ← kind; mret (c =? k).

Definition ctx_is (c : Z) (t : Token) : bool := ((tKind t =? IDENT) || (tKind t =? NON_SEALED)) && (tCtx t =? c).
Definition atCtx (c : Z) : Parse bool := t ← tok; mret (ctx_is c t).

(** What [next] does once it has the token. *)
Definition consume (t : Token) : Parse Token := fun p =>
  Some (t, mkParser (if tKind t =? EOF then pi p else S (pi p)) (pdiags p) false (lastErr p) (resyncs p) (depth p)).

Definition next : Parse Token := t ← tok; consume t.

Definition accept (k : Z) : Parse (option Token) :=
  b ← at_ k; if b : bool then t ← next; mret (Some t) else mret None.

(** [_, ok := p.accept(k)] *)
Definition accepted (k : Z) : Parse bool := t ← accept k; mret (given t).

Definition acceptCtx (c : Z) : Parse (option Token) :=
  b ← atCtx c; if b : bool then t ← next; mret (Some t) else mret None.

(** ** Diagnostics *)

Definition error (lo hi : Z) (msg : bytes) : Parse unit := fun p =>
  if quiet p || (lo =? lastErr p) then Some (tt, p)
  else
    let hi := if hi <=? lo then u32 (lo + 1) else hi in
    Some (tt, mkParser (pi p) (pdiags p ++ [mkDiagnostic lo hi SevError msg]) true lo (resyncs p) (depth p)).

Definition quoted (s : bytes) : bytes := bs "'" ++ s ++ bs "'".

Definition errorExpected (what : bytes) : Parse unit :=
  t ← tok;
  got ← (if tKind t =? EOF then mret (bs "end of file")
         else if tKind t =? IDENT then s ← must (Slice unit_ (tPos t) (tEnd t)); mret (quoted s)
         else mret (quoted (KindString (tKind t))));
  error (tPos t) (tEnd t) (bs "expected " ++ what ++ bs ", found " ++ got).

(** [p.error(p.pos(), p.end(), msg)] *)
Definition errorHere (msg : bytes) : Parse unit := lo ← pos; hi ← end_; error lo hi msg.

Definition expect (k : Z) : Parse Z :=
  b ← at_ k;
  if b : bool then t ← next; mret (tPos t) else _ ← errorExpected (KindString k); prevEnd.

Definition expectSemi : Parse Z := expect SEMICOLON.

(** [ast.At(lo, p.prevEnd())] *)
Definition span_from (lo : Z) : Parse Span := hi ← prevEnd; mret (At lo hi).
Definition tok_span (t : Token) : Span := At (tPos t) (tEnd t).

(** ** Identifiers *)

Definition parseIdent : Parse Ident :=
  t ← tok;
  if negb (tKind t =? IDENT) then _ ← errorExpected (bs "identifier"); mret (mkIdent (At (tPos t) (u32 (tPos t + 1))) CtxNone false)
  else _ ← next; mret (mkIdent (tok_span t) (tCtx t) false).

Definition parseTypeIdent : Parse Ident :=
  t ← tok;
  _ ← (if (tKind t =? IDENT) && BarredFromTypeIdentifier (tCtx t)
       then s ← must (CtxString (tCtx t)); errorHere (quoted (bs s) ++ bs " cannot be used as a type name")
       else mret tt);
  parseIdent.

Definition parseMethodIdent : Parse Ident :=
  t ← tok;
  _ ← (if (tKind t =? IDENT) && BarredFromMethodIdentifier (tCtx t) then errorHere (bs "'yield' cannot be used as a method name") else mret tt);
  parseIdent.

Definition parseVarDeclaratorId : Parse Ident :=
  o ← accept UNDERSCORE;
  match o with
  | Some t => mret (mkIdent (tok_span t) CtxNone true)
  | None => parseIdent
  end.

(** The rest of a dotted name, while [more]. *)
Definition name_rest (more : Parse bool) (part : Ident) : Parse (list Ident) :=
  loop rounds (fun parts => b ← more; if b : bool then _ ← next; id ← parseIdent; mret (parts ++ [id], true) else mret (parts, false)) [part].

Definition period_ident : Parse bool := b ← at_ PERIOD; k ← peekKind 1; mret (b && (k =? IDENT)).

Definition parseNameWhile (more : Parse bool) : Parse Name :=
  lo ← pos; id ← parseIdent; parts ← name_rest more id; sp ← span_from lo; mret (mkName sp parts).

Definition parseName : Parse Name := parseNameWhile period_ident.

(** ** Nesting *)

Definition enter : Parse bool := fun p => Some (depth p + 1 <=? maxDepth, set_depth (depth p + 1) p).
Definition leave : Parse unit := fun p => Some (tt, set_depth (depth p - 1) p).

(** [if !p.enter() { p.error(...); ... }; defer p.leave()] *)
Definition nested {A} (msg : bytes) (too_deep body : Parse A) : Parse A :=
  b ← enter;
  if b : bool then a ← body; _ ← leave; mret a else _ ← errorHere msg; too_deep.

(** ** Speculation *)

(** The mark is the state; of the diagnostics only the count is kept. *)
Definition rollback (m : parser) : Parse unit := fun p =>
  if bool_decide (length (pdiags m) <= length (pdiags p))%nat
  then Some (tt, mkParser (pi m) (take (length (pdiags m)) (pdiags p)) (quiet m) (lastErr m) (resyncs m) (depth m))
  else None.

(** [spec]; the attempt answers [None] for [nil, false]. *)
Definition spec {A} (try : Parse (option A)) : Parse (option A) := fun m =>
  (o ← try; match o with Some a => mret (Some a) | None => _ ← rollback m; mret None end) m.

(** ** Recovery *)

Definition budget : Parse bool := fun p =>
  if negb (Z.land mode Tolerant =? 0) then Some (true, p)
  else Some (resyncs p + 1 <=? maxResync, mkParser (pi p) (pdiags p) (quiet p) (lastErr p) (resyncs p + 1) (depth p)).

Definition opener (k : Z) : option Z :=
  if k =? LPAREN then Some RPAREN else if k =? LBRACK then Some RBRACK else if k =? LBRACE then Some RBRACE else None.
Definition is_closer (k : Z) : bool := (k =? RPAREN) || (k =? RBRACK) || (k =? RBRACE).

(** The stack has its top first. *)
Definition skip_round (stack : list Z) : Parse (list Z * bool) :=
  eof ← atEOF;
  if eof : bool then mret (stack, false)
  else
    k ← kind;
    if is_closer k then
      match stack with
      | [] => mret (stack, false)
      | _ :: stack => _ ← next; mret (stack, match stack with [] => false | _ => true end)
      end
    else
      let stack := match opener k with Some c => c :: stack | None => stack end in
      _ ← next; mret (stack, match stack with [] => false | _ => true end).

Definition skipBalanced : Parse unit := _ ← loop rounds skip_round []; mret tt.

Definition advance_round (follow : list Z) (u : unit) : Parse (unit * bool) :=
  eof ← atEOF;
  if eof : bool then mret (tt, false)
  else
    k ← kind;
    if bool_decide (k ∈ follow) then mret (tt, false)
    else match opener k with
         | Some _ => _ ← skipBalanced; mret (tt, true)
         | None => _ ← next; mret (tt, true)
         end.

Definition advanceTo (follow : list Z) : Parse unit :=
  b ← budget;
  if b : bool then loop rounds (advance_round follow) tt else seek (length toks - 1).

Definition badSpan (lo : Z) : Parse Span := hi ← prevEnd; mret (At lo (if hi <=? lo then u32 (lo + 1) else hi)).

(** ** Lists *)

(** [for !p.at(stop) && !p.atEOF()] *)
Definition open_until (stop : Z) : Parse bool := b ← at_ stop; eof ← atEOF; mret (negb b && negb eof).

(** [for { list = append(list, item()); if !accept(sep) { break } }] *)
Definition separated (sep : Z) {A} (item : Parse A) : Parse (list A) :=
  loop rounds (fun l => a ← item; b ← accepted sep; mret (l ++ [a], b)) [].

(** [for !p.at(stop) && !p.atEOF() { list = append(list, item()); if !accept(COMMA) { break } }] *)
Definition listed (stop : Z) {A} (item : Parse A) : Parse (list A) :=
  loop rounds (fun l => b ← open_until stop; if b : bool then a ← item; c ← accepted COMMA; mret (l ++ [a], c) else mret (l, false)) [].

(** The same, noting the position of a separator the list ends with. *)
Definition listed_trailing (sep : Z) (stops : list Z) {A} (item : Parse A) : Parse (list A * Z) :=
  loop rounds (fun '(l, comma) =>
    k ← kind;
    if bool_decide (k ∈ stops) || (k =? EOF) then mret ((l, comma), false)
    else
      a ← item; t ← accept sep;
      match t with
      | None => mret ((l ++ [a], comma), false)
      | Some t => k ← kind; mret ((l ++ [a], if bool_decide (k ∈ stops) then tPos t else comma), true)
      end) ([], NoPos).

(** [for test() { list = append(list, item()) }] *)
Definition many (test : Parse bool) {A} (item : Parse A) : Parse (list A) :=
  loop rounds (fun l => b ← test; if b : bool then a ← item; mret (l ++ [a], true) else mret (l, false)) [].
End Cursor.
