(* ===== verification/ParserRun.v ===== *)
(** * Running the parser: a logic of its methods

    [Runs pre m post]: from a state whose cursor is on a token and that [pre]
    allows, [m] answers without a panic and within its bounds, the cursor has
    not gone back, no diagnostic is lost, and [post] relates the two states and
    the answer. *)
From S2P Require Import Prelude.
From S2P Require Import Token SourceFile Ast Parser.

(** ** Weakest preconditions *)

Definition wp {A} (m : Parse A) (s : parser) (Q : A -> parser -> Prop) : Prop :=
  match m s with Some (a, s') => Q a s' | None => False end.

Lemma wp_ret {A} (a : A) s (Q : A -> parser -> Prop) : Q a s -> wp (mret a) s Q.
Proof. exact id. Qed.

Lemma wp_seek i s (Q : unit -> parser -> Prop) : Q tt (set_pi i s) -> wp (seek i) s Q.
Proof. exact id. Qed.

Lemma wp_enter s (Q : bool -> parser -> Prop) : Q (depth s + 1 <=? maxDepth) (set_depth (depth s + 1) s) -> wp enter s Q.
Proof. exact id. Qed.

Lemma wp_leave s (Q : unit -> parser -> Prop) : Q tt (set_depth (depth s - 1) s) -> wp leave s Q.
Proof. exact id. Qed.

Lemma wp_bind {A B} (m : Parse A) (k : A -> Parse B) s Q : wp m s (fun a s' => wp (k a) s' Q) -> wp (m ≫= k) s Q.
Proof. unfold wp, mbind, Parse_bind. destruct (m s) as [[a s']|]; exact id. Qed.

Lemma wp_mono {A} (m : Parse A) s (Q Q' : A -> parser -> Prop) : wp m s Q -> (forall a s', Q a s' -> Q' a s') -> wp m s Q'.
Proof. unfold wp. destruct (m s) as [[a s']|]; auto. Qed.

Section Runs.
Context `{I : Input}.

(** The tokens end with their one EOF; what diagnostics spell is in the text. *)
Class TokensOk : Prop := {
  last_eof : forall i t, toks !! i = Some t -> tKind t = EOF <-> S i = length toks;
  some_token : (0 < length toks)%nat;
  ident_slice : forall t, t ∈ toks -> tKind t = IDENT -> is_Some (Slice unit_ (tPos t) (tEnd t));
  head_slice : forall t, t ∈ toks -> tKind t <> EOF -> is_Some (Slice unit_ (tPos t) (u32 (tPos t + 1))) }.

Context `{Htoks : !TokensOk}.

Abbreviation L := (length toks).

Definition on_token (s : parser) : Prop := (pi s < L)%nat /\ 0 <= resyncs s /\ 0 <= depth s.

(** What no method undoes. *)
Definition after (s s' : parser) : Prop :=
  (pi s' < L)%nat /\ (pi s <= pi s')%nat /\ (length (pdiags s) <= length (pdiags s'))%nat /\ resyncs s <= resyncs s' /\
  depth s <= depth s'.

Lemma after_refl s : on_token s -> after s s.
Proof. unfold after, on_token. lia. Qed.

Lemma after_trans s1 s2 s3 : after s1 s2 -> after s2 s3 -> after s1 s3.
Proof. unfold after. lia. Qed.

Class Runs {A} (pre : parser -> Prop) (m : Parse A) (post : parser -> A -> parser -> Prop) : Prop :=
  runs : forall s, on_token s -> pre s -> wp m s (fun a s' => after s s' /\ post s a s').

Definition always (s : parser) : Prop := True.
Definition any {A} (s : parser) (a : A) (s' : parser) : Prop := True.

(** The step of a proof: a called method, by what it promises. *)
Lemma wp_call {A} (m : Parse A) pre post s Q :
  Runs pre m post -> on_token s -> pre s -> (forall a s', after s s' -> post s a s' -> Q a s') -> wp m s Q.
Proof. intros Hm Hs Hp HQ. eapply wp_mono; [apply Hm; assumption|]. cbn. intros a s' [H1 H2]. auto. Qed.

(** Where a method that reads the state is called. *)
Tactic Notation "calling" constr(r) "as" ident(a) simple_intropattern(p) :=
  apply wp_bind; eapply wp_call; [apply r|assumption|exact Logic.I|]; intros a ? _ p.

(** ** Cursor *)

(** The kind of a token. *)
Definition kind_at (i : nat) : option Z := tKind <$> toks !! i.

Lemma kind_at_eof i : kind_at i = Some EOF <-> S i = L.
Proof.
  unfold kind_at. split.
  - intros H. destruct (toks !! i) as [t|] eqn:Et; [|discriminate]. injection H as Hk. apply (last_eof i t Et), Hk.
  - intros H. destruct (lookup_lt_is_Some_2 toks i) as [t Et]; [lia|]. rewrite Et. cbn. f_equal. apply (last_eof i t Et), H.
Qed.

(** Only EOF is last. *)
Lemma kind_not_last i k : kind_at i = Some k -> k <> EOF -> (S i < L)%nat.
Proof.
  intros H Hk. assert (i < L)%nat by (unfold kind_at in H; destruct (toks !! i) as [t|] eqn:Et; [eapply lookup_lt_Some, Et|discriminate]).
  assert (S i <> L) by (intros He; apply kind_at_eof in He; congruence). lia.
Qed.

(** A state, and its current token or kind. *)
Definition reads {A} (s : parser) (a : A) (s' : parser) : Prop := s' = s.
Definition reads_tok (s : parser) (t : Token) (s' : parser) : Prop := s' = s /\ t ∈ toks /\ kind_at (pi s) = Some (tKind t).
Definition reads_kind (s : parser) (k : Z) (s' : parser) : Prop := s' = s /\ kind_at (pi s) = Some k.
Definition tests (P : parser -> Prop) (s : parser) (b : bool) (s' : parser) : Prop := s' = s /\ (b = true <-> P s).
Definition tests_if (P : parser -> Prop) (s : parser) (b : bool) (s' : parser) : Prop := s' = s /\ (b = true -> P s).

#[export] Instance runs_tok : Runs always tok reads_tok.
Proof.
  intros s Hs _. destruct (lookup_lt_is_Some_2 toks (pi s) (proj1 Hs)) as [t Et]. unfold wp, tok. rewrite Et. cbn.
  split; [apply after_refl, Hs|]. split; [reflexivity|]. split; [eapply list_elem_of_lookup_2, Et|]. unfold kind_at. rewrite Et. reflexivity.
Qed.

#[export] Instance runs_kind : Runs always kind reads_kind.
Proof. intros s Hs _. calling runs_tok as t (-> & _ & He). apply wp_ret. split; [apply after_refl, Hs|]. split; [reflexivity|exact He]. Qed.

#[export] Instance runs_pos : Runs always pos reads.
Proof. intros s Hs _. calling runs_tok as t (-> & _). apply wp_ret. split; [apply after_refl, Hs|reflexivity]. Qed.

#[export] Instance runs_end : Runs always end_ reads.
Proof. intros s Hs _. calling runs_tok as t (-> & _). apply wp_ret. split; [apply after_refl, Hs|reflexivity]. Qed.

#[export] Instance runs_atEOF : Runs always atEOF (tests (fun s => S (pi s) = L)).
Proof.
  intros s Hs _. calling runs_tok as t (-> & _ & He). apply wp_ret. split; [apply after_refl, Hs|]. split; [reflexivity|].
  rewrite Z.eqb_eq, <- kind_at_eof, He. split; congruence.
Qed.

#[export] Instance runs_at k : Runs always (at_ k) (tests (fun s => kind_at (pi s) = Some k)).
Proof.
  intros s Hs _. calling runs_kind as c (-> & He). apply wp_ret. split; [apply after_refl, Hs|]. split; [reflexivity|]. rewrite Z.eqb_eq, He.
  split; congruence.
Qed.

Definition at_word (s : parser) : Prop := kind_at (pi s) = Some IDENT \/ kind_at (pi s) = Some NON_SEALED.

#[export] Instance runs_atCtx c : Runs always (atCtx c) (tests_if at_word).
Proof.
  intros s Hs _. calling runs_tok as t (-> & _ & He). apply wp_ret. split; [apply after_refl, Hs|]. split; [reflexivity|].
  unfold ctx_is, at_word. rewrite andb_true_iff, orb_true_iff, !Z.eqb_eq, He. intros [[-> | ->] _]; auto.
Qed.

#[export] Instance runs_cursor : Runs always cursor (fun s i s' => s' = s /\ i = pi s).
Proof. intros s Hs _. cbn. auto using after_refl. Qed.

#[export] Instance runs_peek n : Runs always (peek n) (fun s t s' => s' = s /\ t ∈ toks).
Proof.
  intros s Hs _. unfold peek. apply wp_bind. cbn. destruct (bool_decide_reflect (L <= pi s + n)%nat) as [Hn|Hn].
  - unfold wp, must. destruct (last toks) as [t|] eqn:Et; cbn.
    + split; [apply after_refl, Hs|]. split; [reflexivity|]. apply last_Some in Et as [l ->]. set_solver.
    + apply last_None in Et. unfold on_token in Hs. rewrite Et in Hs. destruct Hs as [Hs _]. cbn in Hs. lia.
  - unfold wp, must. destruct (lookup_lt_is_Some_2 toks (pi s + n)%nat) as [t Et]; [lia|]. rewrite Et. cbn.
    split; [apply after_refl, Hs|]. split; [reflexivity|]. eapply list_elem_of_lookup_2, Et.
Qed.

#[export] Instance runs_peekKind n : Runs always (peekKind n) reads.
Proof. intros s Hs _. calling runs_peek as t (-> & _). apply wp_ret. split; [apply after_refl, Hs|reflexivity]. Qed.

#[export] Instance runs_prevEnd : Runs always prevEnd reads.
Proof.
  intros s Hs _. unfold prevEnd. apply wp_bind. cbn. destruct Hs as [Hs Hr]. destruct (pi s) as [|i] eqn:Ei; apply wp_bind; unfold wp at 1, must.
  - destruct (lookup_lt_is_Some_2 toks 0) as [t Et]; [lia|]. rewrite Et. cbn. split; [apply after_refl; unfold on_token; lia|reflexivity].
  - destruct (lookup_lt_is_Some_2 toks i) as [t Et]; [lia|]. rewrite Et. cbn. split; [apply after_refl; unfold on_token; lia|reflexivity].
Qed.

#[export] Instance runs_span_from lo : Runs always (span_from lo) reads.
Proof. intros s Hs _. calling runs_prevEnd as t ->. apply wp_ret. split; [apply after_refl, Hs|reflexivity]. Qed.

#[export] Instance runs_badSpan lo : Runs always (badSpan lo) reads.
Proof. intros s Hs _. calling runs_prevEnd as t ->. apply wp_ret. split; [apply after_refl, Hs|reflexivity]. Qed.

(** One token on, but for EOF. *)
Definition steps (s s' : parser) : Prop :=
  resyncs s' = resyncs s /\ ((S (pi s) < L)%nat -> pi s' = S (pi s)) /\ (S (pi s) = L -> pi s' = pi s).

(** A token taken, if there is one to take; none in any case. *)
Definition takes (s : parser) (o : option Token) (s' : parser) : Prop :=
  resyncs s' = resyncs s /\ match o with Some _ => pi s' = S (pi s) /\ (S (pi s) < L)%nat | None => pi s' = pi s end.
Definition stays {A} (s : parser) (a : A) (s' : parser) : Prop := pi s' = pi s /\ resyncs s' = resyncs s.
(** What a round of a loop must do: a token on, or to the end, or a recovery
    spent, or a level of nesting lost to a call that was refused. *)
Definition moved (s s' : parser) : Prop := (pi s < pi s')%nat \/ S (pi s') = L \/
  resyncs s < resyncs s' /\ resyncs s < maxResync \/ depth s < depth s' /\ depth s < maxDepth.
(** What nesting is left, [n], is enough for [k] calls here and three at each
    token to come. *)
Definition need (n k : nat) (s : parser) : Prop := (3 * L + k < n + 3 * pi s)%nat.

(** An identifier whose text can be taken, unless the cursor is at the end. *)
Definition sliceable (id : Ident) : Prop := is_Some (Slice unit_ (Lo (iSpan id)) (Hi (iSpan id))).

Definition reads_ident (s : parser) (id : Ident) (s' : parser) : Prop :=
  (pi s' = pi s \/ pi s' = S (pi s)) /\ resyncs s' = resyncs s /\ (kind_at (pi s) = Some IDENT -> pi s' = S (pi s)) /\
  (sliceable id \/ S (pi s') = length toks).

(** An attempt that answers something has taken a token; once the others are
    undone, they have taken none. *)
Definition tries {A} (s : parser) (o : option A) (s' : parser) : Prop := match o with Some _ => (pi s < pi s')%nat | None => True end.
Definition attempts {A} (s : parser) (o : option A) (s' : parser) : Prop := match o with Some _ => (pi s < pi s')%nat | None => pi s' = pi s end.

Definition skips (s : parser) (b : bool) (s' : parser) : Prop :=
  resyncs s' = resyncs s /\ if b then pi s' = S (pi s) /\ (S (pi s) < L)%nat else pi s' = pi s.

#[export] Instance runs_next : Runs always next (fun s t s' => steps s s' /\ t ∈ toks /\ kind_at (pi s) = Some (tKind t)).
Proof.
  intros s Hs _. calling runs_tok as t (-> & Ht & He). unfold wp, consume. pose proof (kind_at_eof (pi s)) as Hl. rewrite He in Hl.
  unfold after, steps, on_token in *. cbn. destruct (Z.eqb_spec (tKind t) EOF) as [Hk|Hk].
  - rewrite Hk in Hl. assert (S (pi s) = L) by (apply Hl; reflexivity). split_and!; auto; lia.
  - assert (S (pi s) <> L) by (intros H; apply Hl in H; congruence). split_and!; auto; lia.
Qed.
End Runs.

(** ** Automation *)

(** What the hypotheses say of the cursor, as linear facts. *)
Ltac bool_facts :=
  repeat match goal with
  | H : true = true <-> _ |- _ => apply proj1 in H; specialize (H eq_refl)
  | H : false = true <-> ?P |- _ => let Hn := fresh in let Hx := fresh in assert (Hn : ~ P) by (intros Hx; apply H in Hx; discriminate Hx); clear H
  | H : true = true -> _ |- _ => specialize (H eq_refl)
  | H : false = true -> _ |- _ => clear H
  | H : _ && _ = true |- _ => apply andb_true_iff in H as [? ?]
  | H : negb _ = true |- _ => apply negb_true_iff in H
  | H : negb _ = false |- _ => apply negb_false_iff in H
  | H : ?b = true |- _ => is_var b; subst b
  | H : ?b = false |- _ => is_var b; subst b
  | H : (_ =? _) = true |- _ => apply Z.eqb_eq in H
  | H : bool_decide (@eq nat _ _) = true |- _ => apply bool_decide_eq_true_1 in H
  | H : bool_decide (@eq nat _ _) = false |- _ => apply bool_decide_eq_false_1 in H
  | H : (_ <=? _) = true |- _ => apply Z.leb_le in H
  | H : (_ <=? _) = false |- _ => apply Z.leb_gt in H
  | H : (_ =? _) = false |- _ => apply Z.eqb_neq in H
  | H : _ || _ = false |- _ => apply orb_false_iff in H as [? ?]
  end.

Ltac cursor_facts :=
  repeat match goal with
  | H : reads _ _ _ |- _ => unfold reads in H
  | H : reads_ident _ _ _ |- _ => unfold reads_ident in H
  | H : reads_tok _ _ _ |- _ => unfold reads_tok in H
  | H : reads_kind _ _ _ |- _ => unfold reads_kind in H
  | H : tests _ _ _ _ |- _ => unfold tests in H
  | H : tests_if _ _ _ _ |- _ => unfold tests_if in H
  | H : after ?s ?s |- _ => clear H
  | H : any _ _ _ |- _ => clear H
  | H : _ /\ _ |- _ => destruct H
  | H : ?s' = _ |- _ => is_var s'; match type of s' with parser => subst s' end
  end.

(** The cursor is not on EOF where the kind of the token excludes it. *)
Ltac not_last s Hk :=
  lazymatch goal with
  | _ : (S (pi s) < length toks)%nat |- _ => fail
  | _ => let Hl := fresh "Hl" in pose proof (kind_not_last _ _ Hk ltac:(first [discriminate|assumption])) as Hl
  end.

Ltac kind_facts :=
  repeat match goal with
  | Hk : kind_at (pi ?s) = Some ?k |- _ => not_last s Hk
  | Hk : kind_at (pi ?s) = Some ?k, E : ?b = true |- _ =>
      lazymatch b with context [k] => idtac end;
      lazymatch goal with _ : (S (pi s) < length toks)%nat |- _ => fail | _ => idtac end;
      let Hn := fresh in let Hl := fresh "Hl" in
      assert (Hn : k <> EOF) by (intros Hn; rewrite Hn in E; vm_compute in E; discriminate E);
      pose proof (kind_not_last _ _ Hk Hn) as Hl; clear Hn
  | Hk : at_word ?s |- _ => destruct Hk
  | Hk : kind_at _ = Some ?k, E : ?k = _ |- _ => rewrite E in Hk
  end.

(** States with the same cursor, and what they make true. *)
Ltac same_cursor :=
  repeat match goal with
  | H : pi ?s' = pi ?s |- _ => is_var s'; is_var s; rewrite H in *; clear H
  | H : ?P -> _, HP : ?P |- _ => match type of P with Prop => specialize (H HP) end
  | H : ?a <> ?a |- _ => destruct (H eq_refl)
  | H : ?P, Hn : ~ ?P |- _ => destruct (Hn H)
  | H : kind_at _ = _ \/ kind_at _ = _ |- _ => destruct H
  end.

Ltac simpl_state := cbn [pi pdiags quiet lastErr resyncs depth set_pi set_depth fst snd] in *.

(** What the promises of later methods say, filled in where they are stated. *)
Ltac more_facts := idtac.

(** Closes a goal about the cursor. *)
Ltac cursor :=
  more_facts; unfold tries, attempts, need, reads_ident, reads, reads_tok, reads_kind, tests, tests_if, after, on_token, steps, takes, stays, skips, moved, always, any in *;
  repeat match goal with |- _ /\ _ => split | |- _ -> _ => intros ? | |- True => exact I | |- match ?o with Some _ => _ | None => _ end => destruct o end;
  repeat match goal with H : _ || _ = true |- _ => apply orb_true_iff in H as [H|H] end;
  cbn [given] in *; simpl_state; cursor_facts; bool_facts; cursor_facts; bool_facts; same_cursor; kind_facts; same_cursor; kind_facts;
  try reflexivity; try assumption; try lia; try congruence; try (left; first [assumption|reflexivity]); try (right; first [assumption|lia]).

Ltac precondition := cbn beta; first [exact I | assumption | solve [cursor] | left; solve [cursor] | right; solve [cursor]].

(** One step of a method. *)
Ltac wp_step :=
  lazymatch goal with
  | |- wp (mret _) _ _ => apply wp_ret
  | |- wp (mbind _ _) _ _ => apply wp_bind
  | |- wp (seek _) _ _ => apply wp_seek
  | |- wp enter _ _ => apply wp_enter
  | |- wp leave _ _ => apply wp_leave
  | |- wp (match ?x with _ => _ end) _ _ => destruct x eqn:?
  | |- wp (if ?x then _ else _) _ _ => destruct x eqn:?
  | |- wp _ _ _ => eapply wp_call; [typeclasses eauto|solve [cursor]|precondition|]; let Ha := fresh "Ha" in let Hp := fresh "Hp" in intros ? ? Ha Hp; cbn beta in Hp; cursor_facts; bool_facts
  end; cbn beta; simpl_state.

Ltac wp_go := repeat wp_step.

(** A method all of whose calls are covered. *)
Tactic Notation "runs_by" reference(m) := intros s Hs Hpre; unfold m; wp_go; try solve [cursor].

(** A kind that is not EOF, found by computation. *)
Class Plain (k : Z) : Prop := plain : k <> EOF.
#[export] Hint Extern 1 (Plain _) => unfold Plain; discriminate : typeclass_instances.

Section Primitives.
Context `{I : Input} `{Htoks : !TokensOk}.

#[export] Instance runs_accept k : Plain k ->
  Runs always (accept k) (fun s o s' => takes s o s' /\ match o with Some t => tKind t = k /\ t ∈ toks | None => kind_at (pi s) <> Some k end).
Proof. intros Hk. unfold Plain in Hk. runs_by accept. Qed.

#[export] Instance runs_accepted k : Plain k -> Runs always (accepted k) (fun s b s' => skips s b s' /\ (b = false -> kind_at (pi s) <> Some k)).
Proof. intros Hk. runs_by accepted.
  destruct a; cursor.
Qed.

#[export] Instance runs_acceptCtx c : Runs always (acceptCtx c) takes.
Proof. runs_by acceptCtx. Qed.

#[export] Instance runs_error lo hi m : Runs always (error lo hi m) stays.
Proof. intros s Hs _. unfold wp, error, after, stays, on_token in *. destruct (quiet s || (lo =? lastErr s)); cbn; rewrite ?length_app; cbn; lia. Qed.

Lemma runs_must {A} (o : option A) : is_Some o -> Runs always (must o) (fun s a s' => s' = s /\ o = Some a).
Proof. intros [a ->] s Hs _. cbn. auto using after_refl. Qed.

#[export] Instance runs_errorExpected w : Runs always (errorExpected w) stays.
Proof.
  runs_by errorExpected. eapply wp_call; [apply runs_must, ident_slice; cursor|assumption|exact Logic.I|]. intros x s' _ [-> _].
  wp_go. cursor.
Qed.

#[export] Instance runs_errorHere m : Runs always (errorHere m) stays.
Proof. runs_by errorHere. Qed.

#[export] Instance runs_expect k : Plain k ->
  Runs always (expect k) (fun s _ s' => resyncs s' = resyncs s /\ (pi s' = pi s \/ pi s' = S (pi s)) /\ (kind_at (pi s) = Some k -> pi s' = S (pi s))).
Proof. intros Hk. unfold Plain in Hk. runs_by expect. Qed.


(** ** Identifiers *)

#[export] Instance runs_parseIdent :
  Runs always parseIdent (fun s id s' => (pi s' = pi s \/ pi s' = S (pi s)) /\ resyncs s' = resyncs s /\ (kind_at (pi s) = Some IDENT -> pi s' = S (pi s))).
Proof. runs_by parseIdent. Qed.

Lemma ident_sliceable s : on_token s -> wp parseIdent s (fun id s' => sliceable id \/ S (pi s') = length toks).
Proof.
  intros Hs. unfold parseIdent. wp_step. wp_step. destruct (Z.eqb_spec (tKind a) IDENT) as [Hk|Hk]; cbn [negb].
  - wp_go. left. apply ident_slice; assumption.
  - destruct (decide (tKind a = EOF)) as [He|He].
    + wp_go. right. rewrite He in *. apply kind_at_eof in H1. cursor.
    + wp_go. left. apply head_slice; assumption.
Qed.

#[export] Instance runs_ident : Runs always parseIdent reads_ident.
Proof.
  intros s Hs _. pose proof (ident_sliceable s Hs) as H1. pose proof (runs_parseIdent s Hs Logic.I) as H2. revert H1 H2. unfold wp, reads_ident.
  destruct (parseIdent s) as [[id s']|]; [|tauto]. intros H1 (H2 & H3 & H4 & H5). auto.
Qed.

#[export] Instance runs_parseMethodIdent : Runs always parseMethodIdent reads_ident.
Proof.
  unfold parseMethodIdent. intros s Hs Hpre. wp_go; cursor.
Qed.

Lemma barred_named c : BarredFromTypeIdentifier c = true -> is_Some (CtxString c).
Proof. unfold BarredFromTypeIdentifier. rewrite !orb_true_iff, !Z.eqb_eq. intros [[[[-> | ->]| ->]| ->]| ->]; vm_compute; eauto. Qed.

#[export] Instance runs_parseTypeIdent : Runs always parseTypeIdent reads_ident.
Proof.
  unfold parseTypeIdent. intros s Hs Hpre. wp_step. wp_step. wp_step. destruct (_ && _) eqn:E; cbn beta.
  - apply andb_true_iff in E as [_ E]. apply wp_bind. eapply wp_call; [apply runs_must, barred_named, E|assumption|exact Logic.I|]. intros x s' _ [-> _].
    wp_go; cursor.
  - wp_go; cursor.
Qed.

#[export] Instance runs_parseVarDeclaratorId :
  Runs always parseVarDeclaratorId (fun s id s' => resyncs s' = resyncs s /\ (kind_at (pi s) = Some IDENT \/ kind_at (pi s) = Some UNDERSCORE -> pi s' = S (pi s))).
Proof. runs_by parseVarDeclaratorId; cursor. Qed.
End Primitives.




(** ** Loops *)

(** The bound on loops is enough: a round per token, and the recoveries. *)
Class RoundsOk `{I : Input} : Prop := rounds_ok : (length toks + Z.to_nat maxResync + Z.to_nat maxDepth < rounds)%nat.

(** The parser gives up after [maxResync] recoveries. *)
Class Impatient `{I : Input} : Prop := impatient : Z.land mode Tolerant = 0.

(** A condition that moving on does not undo. *)
Class Lasting (P : parser -> Prop) : Prop := lasting : forall s s', P s -> (pi s <= pi s')%nat -> P s'.

#[export] Instance need_lasting `{I : Input} n k : Lasting (need n k).
Proof. intros s s'. unfold need. lia. Qed.

#[export] Instance and_lasting (P Q : parser -> Prop) : Lasting P -> Lasting Q -> Lasting (fun s => P s /\ Q s).
Proof. intros HP HQ s s' [Hp Hq] Hl. split; eapply lasting; eauto. Qed.

#[export] Instance always_lasting : Lasting always.
Proof. intros s s' _ _. exact Logic.I. Qed.

Section Loops.
Context `{I : Input} `{Htoks : !TokensOk} `{Hrounds : !RoundsOk} `{Himp : !Impatient}.
Abbreviation L := (length toks).

(** Rounds left. *)
Definition left_over (s : parser) : nat :=
  if bool_decide (S (pi s) = L) then 0 else (L - pi s + Z.to_nat (maxResync - resyncs s) + Z.to_nat (maxDepth - depth s))%nat.

Lemma left_over_moved s s' : (S (pi s) < L)%nat -> 0 <= resyncs s -> 0 <= depth s -> after s s' -> moved s s' -> (left_over s' < left_over s)%nat.
Proof. unfold left_over, after, moved, maxResync, maxDepth. intros H1 H2 H3 H4 H5. repeat case_bool_decide; lia. Qed.

Lemma left_over_rounds s : on_token s -> (left_over s < rounds)%nat.
Proof. unfold on_token. intros H. pose proof rounds_ok. unfold left_over, maxResync, maxDepth in *. case_bool_decide; lia. Qed.

(** A loop all of whose rounds but the last move on. *)
Lemma wp_loop_fuel {A} (round : A -> Parse (A * bool)) (Inv : A -> parser -> Prop) (Q : A -> parser -> Prop) :
  (forall a s, on_token s -> Inv a s -> wp (round a) s (fun r s' => after s s' /\
    if snd r then Inv (fst r) s' /\ (S (pi s) < L)%nat /\ moved s s' else Q (fst r) s')) ->
  forall n a s, on_token s -> Inv a s -> (left_over s < n)%nat -> wp (loop n round a) s (fun a' s' => after s s' /\ Q a' s').
Proof.
  intros Hround n. induction n as [|n IH]; intros a s Hs Hi Hn; [lia|]. cbn [loop]. apply wp_bind.
  eapply wp_mono; [apply (Hround a s Hs Hi)|]. cbn beta. intros [a' more] s' [Ha Hr]. cbn [fst snd] in *. destruct more.
  - destruct Hr as (Hi' & Hl & Hm). destruct Hs as (Hs1 & Hs2 & Hs3). pose proof (left_over_moved s s' Hl Hs2 Hs3 Ha Hm) as Hlt.
    eapply wp_mono; [apply (IH a' s'); [unfold on_token, after in *; lia|exact Hi'|lia]|]. cbn beta. intros b s2 [Ha2 HQ].
    split; [eapply after_trans; eauto|exact HQ].
  - apply wp_ret. auto.
Qed.

Lemma wp_loop {A} (round : A -> Parse (A * bool)) (Inv : A -> parser -> Prop) (Q : A -> parser -> Prop) a s :
  (forall a s, on_token s -> Inv a s -> wp (round a) s (fun r s' => after s s' /\
    if snd r then Inv (fst r) s' /\ (S (pi s) < L)%nat /\ moved s s' else Q (fst r) s')) ->
  on_token s -> Inv a s -> wp (loop rounds round a) s (fun a' s' => after s s' /\ Q a' s').
Proof. intros H Hs Hi. apply (wp_loop_fuel round Inv Q H); [exact Hs|exact Hi|]. apply left_over_rounds, Hs. Qed.

(** A loop whose invariant is a lasting condition, and whose accumulator does
    not matter. *)
Lemma runs_loop {A} (pre : parser -> Prop) `{!Lasting pre} (round : A -> Parse (A * bool)) a :
  (forall a, Runs pre (round a) (fun s r s' => snd r = true -> (S (pi s) < L)%nat /\ moved s s')) -> Runs pre (loop rounds round a) any.
Proof.
  intros H s Hs Hp. eapply wp_mono; [apply (wp_loop round (fun _ s => pre s) (fun _ _ => True)); [|exact Hs|exact Hp]|].
  - intros b s1 Hs1 Hp1. eapply wp_mono; [apply (H b s1 Hs1 Hp1)|]. cbn beta. intros [b' more] s2 [H1 H2]. cbn [fst snd] in *. split; [exact H1|].
    destruct more; [|exact Logic.I]. destruct (H2 eq_refl) as [H3 H4]. split; [|split; assumption]. eapply lasting; [exact Hp1|apply H1].
  - cbn beta. intros b s1 [H1 _]. split; [exact H1|exact Logic.I].
Qed.

(** Where the first round does what [F] says of the cursor. *)
Lemma runs_loop_first {A} (pre : parser -> Prop) `{!Lasting pre} (F : parser -> Prop) (round : A -> Parse (A * bool)) a :
  (forall a, Runs pre (round a) (fun s r s' => (F s -> pi s < pi s')%nat /\ (snd r = true -> (S (pi s) < L)%nat /\ moved s s'))) ->
  Runs pre (loop rounds round a) (fun s _ s' => F s -> pi s < pi s')%nat.
Proof.
  intros H s Hs Hp. assert (Hn : (left_over s < rounds)%nat) by apply left_over_rounds, Hs. destruct rounds as [|n]; [lia|]. cbn [loop]. apply wp_bind.
  eapply wp_mono; [apply (H a s Hs Hp)|]. cbn beta. intros [a' more] s' (Ha & HF & Hm). cbn [fst snd] in *. destruct more; [|apply wp_ret; auto].
  destruct (Hm eq_refl) as [H1 H2]. pose proof (left_over_moved s s' H1 (proj1 (proj2 Hs)) (proj2 (proj2 Hs)) Ha H2) as Hlt.
  eapply wp_mono; [apply (wp_loop_fuel round (fun _ s => pre s) (fun _ _ => True))|].
  - intros b s1 Hs1 Hp1. eapply wp_mono; [apply (H b s1 Hs1 Hp1)|]. cbn beta. intros [b' m] s2 (H3 & _ & H4). cbn [fst snd] in *. split; [exact H3|].
    destruct m; [|exact Logic.I]. destruct (H4 eq_refl) as [H5 H6]. split; [|split; assumption]. eapply lasting; [exact Hp1|apply H3].
  - unfold on_token, after in *. lia.
  - eapply lasting; [exact Hp|apply Ha].
  - lia.
  - cbn beta. intros b s1 [H3 _]. split; [eapply after_trans; eauto|]. intros Hf. specialize (HF Hf). unfold after in *. lia.
Qed.
End Loops.

(** A loop in a method: its rounds, and what follows it. *)
Ltac looping pre :=
  eapply (wp_call _ pre any);
  [apply runs_loop; [exact _|let l := fresh "l" in let s1 := fresh "s1" in let H1 := fresh "Hs1" in let H2 := fresh "Hp1" in intros l s1 H1 H2]
  |solve [cursor]|precondition
  |let l := fresh "l" in let s1 := fresh "s1" in let H1 := fresh "Ha1" in intros l s1 H1 _].

(** ** Names, nesting, speculation, recovery *)
Section More.
Context `{I : Input} `{Htoks : !TokensOk} `{Hrounds : !RoundsOk} `{Himp : !Impatient}.
Abbreviation L := (length toks).

Lemma runs_nameWhile more : Runs always more (tests_if (fun s => kind_at (pi s) = Some PERIOD)) ->
  Runs always (parseNameWhile more) (fun s n s' => kind_at (pi s) = Some IDENT -> pi s < pi s')%nat.
Proof.
  intros Hmore s Hs Hp. unfold parseNameWhile. wp_go. unfold name_rest. eapply wp_call; [|solve [cursor]|exact Logic.I|].
  - apply (runs_loop always). intros l s1 Hs1 _. wp_go; cursor.
  - intros l s1 H3 _. wp_go. cursor.
Qed.

#[export] Instance runs_period_ident : Runs always period_ident (tests_if (fun s => kind_at (pi s) = Some PERIOD)).
Proof.
  runs_by period_ident.
Qed.

#[export] Instance runs_parseName : Runs always parseName (fun s n s' => kind_at (pi s) = Some IDENT -> pi s < pi s')%nat.
Proof. apply runs_nameWhile, _. Qed.

(** A failed attempt leaves the state as it was. *)
#[export] Instance runs_spec {A} pre (try : Parse (option A)) post : Runs pre try post ->
  Runs pre (spec try) (fun s o s' => match o with Some a => post s (Some a) s' | None => stays s o s' end).
Proof.
  intros H s Hs Hp. unfold spec. change (wp (try ≫= fun o => match o with Some a => mret (Some a) | None => _ ← rollback s; mret None end) s
    (fun o s' => after s s' /\ match o with Some a => post s (Some a) s' | None => stays s o s' end)).
  apply wp_bind. eapply wp_mono; [apply (H s Hs Hp)|]. cbn beta. intros [a|] s' [Ha Hpost]; [apply wp_ret; auto|]. apply wp_bind. unfold wp at 1, rollback.
  assert (Hl : (length (pdiags s) <= length (pdiags s'))%nat) by apply Ha. rewrite bool_decide_eq_true_2 by exact Hl. apply wp_ret.
  unfold after, stays, on_token in *. cbn. rewrite length_take. lia.
Qed.

Lemma runs_attempt {A} pre (try : Parse (option A)) : Runs pre try tries -> Runs pre (spec try) attempts.
Proof.
  intros H s Hs Hp. eapply wp_mono; [apply (runs_spec pre try tries H s Hs Hp)|]. cbn beta. intros [a|] s' [H1 H2]; (split; [exact H1|]); [exact H2|apply H2].
Qed.

Lemma wp_budget s (Q : bool -> parser -> Prop) : on_token s ->
  (forall b s', after s s' -> pi s' = pi s -> resyncs s' = resyncs s + 1 -> (b = true -> resyncs s' <= maxResync) -> Q b s') -> wp budget s Q.
Proof.
  intros Hs H. unfold wp, budget. rewrite impatient. cbn [Z.eqb negb]. apply H; cbn; unfold after, on_token in *; cbn; try lia.
Qed.

Lemma opener_spec k c : opener k = Some c -> k <> EOF /\ is_closer k = false.
Proof.
  unfold opener. destruct (Z.eqb_spec k LPAREN) as [->|]; [split; [discriminate|reflexivity]|]. destruct (Z.eqb_spec k LBRACK) as [->|]; [split; [discriminate|reflexivity]|].
  destruct (Z.eqb_spec k LBRACE) as [->|]; [split; [discriminate|reflexivity]|discriminate].
Qed.

#[export] Instance runs_skipBalanced : Runs always skipBalanced (fun s _ s' => (exists k c, kind_at (pi s) = Some k /\ opener k = Some c) -> pi s < pi s')%nat.
Proof.
  intros s Hs Hpre. unfold skipBalanced. wp_step. eapply wp_call; [|exact Hs|exact Logic.I|].
  - apply (runs_loop_first always (fun s => exists k c, kind_at (pi s) = Some k /\ opener k = Some c)). intros stack s1 Hs1 _. unfold skip_round.
    wp_go; try solve [cursor]; cbn [fst snd]; try (assert (Hl : (S (pi s1) < L)%nat) by (unfold on_token in *; lia));
    split; try solve [cursor]; (split; [intros (k & c & Hk & Hc)|]); try solve [cursor].
    all: try (destruct (opener_spec _ _ Hc) as [Hn1 Hn2]); try solve [cursor].
  - intros l s1 H1 H2. apply wp_ret. split; [exact H1|exact H2].
Qed.

#[export] Instance runs_advanceTo follow : Runs always (advanceTo follow) (fun s _ s' => moved s s').
Proof.
  intros s Hs _. unfold advanceTo. apply wp_bind. apply wp_budget; [exact Hs|]. intros b s1 Ha Hi Hr Hb. destruct b.
  - specialize (Hb eq_refl). eapply wp_call; [apply (runs_loop always)|solve [cursor]|exact Logic.I|].
    + intros u s2 Hs2 _. unfold advance_round. wp_go; try solve [cursor]. cbn [fst snd]. split; [cursor|]. intros _. split; [cursor|]. left. apply Hp. eauto.
    + intros u s2 H1 _. cursor.
  - apply wp_seek. cursor.
Qed.

(** ** Lists *)

#[export] Instance runs_open_until k : Runs always (open_until k) (fun s b s' => s' = s /\ (b = true -> (S (pi s) < L)%nat)).
Proof. intros s Hs Hp. unfold open_until. wp_go. cursor. Qed.

(** The separator moves a list on. *)
#[export] Instance runs_separated sep {A} pre (item : Parse A) post : Plain sep -> Runs pre item post -> Lasting pre ->
  Runs pre (separated sep item) (fun s _ s' => exists a s1, post s a s1 /\ after s1 s').
Proof.
  intros Hsep Hitem Hpre s Hs Hp. unfold separated.
  eapply wp_mono; [apply (wp_loop _ (fun l s1 => pre s1 /\ (s1 = s \/ exists a s2, post s a s2 /\ after s2 s1)) (fun _ s' => exists a s1, post s a s1 /\ after s1 s'))|].
  - intros l s1 Hs1 [Hp1 Hi]. apply wp_bind. eapply wp_call; [exact Hitem|exact Hs1|exact Hp1|]. intros a s2 Ha2 Hpost. wp_go.
    match goal with H : skips _ ?b _ |- _ => destruct b end; cbn [fst snd]; (split; [cursor|]).
    + split; [split; [eapply lasting; [exact Hp1|cursor]|right]|cursor]. destruct Hi as [-> |(b & s4 & H1 & H2)]; [exists a, s2; split; [exact Hpost|exact Ha]|].
      exists b, s4. split; [exact H1|]. eapply after_trans; [exact H2|]. eapply after_trans; eauto.
    + destruct Hi as [-> |(b & s4 & H1 & H2)]; [exists a, s2; split; [exact Hpost|exact Ha]|].
      exists b, s4. split; [exact H1|]. eapply after_trans; [exact H2|]. eapply after_trans; eauto.
  - exact Hs.
  - auto.
  - cbn beta. auto.
Qed.

#[export] Instance runs_listed stop {A} pre (item : Parse A) post : Runs pre item post -> Lasting pre -> Runs pre (listed stop item) any.
Proof.
  intros Hitem Hpre. unfold listed. apply runs_loop; [exact Hpre|]. intros l s Hs Hp. wp_go; try solve [cursor].
  all: match goal with H : skips _ ?b _ |- _ => destruct b end; cbn [fst snd]; cursor.
Qed.

#[export] Instance runs_listed_trailing sep stops {A} pre (item : Parse A) post : Plain sep -> Runs pre item post -> Lasting pre ->
  Runs pre (listed_trailing sep stops item) any.
Proof.
  intros Hsep Hitem Hpre. unfold listed_trailing. apply runs_loop; [exact Hpre|]. intros [l c] s Hs Hp. wp_go; cbn [snd]; cursor.
Qed.

(** The items move a loop on. *)
Lemma runs_many {A} (T : parser -> Prop) pre test (item : Parse A) : Lasting pre -> Runs always test (tests_if T) ->
  (forall s, on_token s -> T s -> (S (pi s) < L)%nat) -> Runs (fun s => pre s /\ T s) item (fun s _ s' => moved s s') -> Runs pre (many test item) any.
Proof.
  intros Hpre Htest HT Hitem. unfold many. apply runs_loop; [exact Hpre|]. intros l s Hs Hp. apply wp_bind.
  eapply wp_call; [exact Htest|exact Hs|exact Logic.I|]. intros b s1 _ [-> Hb]. destruct b; [|apply wp_ret; cursor]. specialize (Hb eq_refl).
  pose proof (HT s Hs Hb) as Hl. apply wp_bind. eapply wp_call; [exact Hitem|exact Hs|split; assumption|]. intros a s1 Ha Hm. apply wp_ret. cbn [snd]. split; [exact Ha|auto].
Qed.
End More.
