(* ===== verification/ParseType.v ===== *)
(** * The parser: annotations, modifiers, types and patterns
    ([parser/annotation.go], [type.go], the head of [decl.go], the end of
    [stmt.go])

    The productions are written by open recursion: a method that would close a
    cycle of calls is reached through [Rec], which [ParseUnit] ties. *)
From S2P Require Import Prelude.
From S2P Require Import Token SourceFile Ast Parser.

(** The methods that close a cycle. *)
Class Rec := {
  rElementValue : Parse Node;
  rType : Parse Typ;
  rTypeArgs : Parse (option TypeArgs);
  rPattern : Parse (option Pattern);
  rExpr : Parse Expr;
  rConditional : Parse Expr;
  rBinary : Z -> Parse Expr;
  rUnary : Parse Expr;
  rVarInit : Parse Node;
  rArrayInit : Parse ArrayInit;
  rBlock : Parse Block;
  rSwitchBlock : Parse SwitchBlock;
  rStmt : Parse Stmt;
  rBlockStmt : Parse Stmt;
  rMember : option Ident -> Parse Decl;
  rTypeBody : option Ident -> Parse (Z * list Decl * Z) }.

Definition isPrimitiveKind (k : Z) : bool := bool_decide (k ∈ [BOOLEAN; BYTE; SHORT; INT_KW; LONG; CHARK; FLOATK; DOUBLE]).

Definition isModifierKeyword (k : Z) : bool :=
  bool_decide (k ∈ [PUBLIC; PROTECTED; PRIVATE; ABSTRACT; STATIC; FINAL; STRICTFP; TRANSIENT; VOLATILE; SYNCHRONIZED; NATIVE; DEFAULT]).

Section Types.
Context `{Input} `{Rec}.

(** ** Annotations *)

Definition parseElementValuePair : Parse ElementValuePair :=
  lo ← pos; name ← parseIdent; _ ← expect ASSIGN; v ← rElementValue; sp ← span_from lo;
  mret (mkElementValuePair sp (Some name) v).

Definition parsePairs : Parse (list ElementValuePair) :=
  b ← at_ RPAREN;
  if b : bool then mret []
  else
    id ← at_ IDENT; k ← peekKind 1;
    if id && (k =? ASSIGN) then separated COMMA parseElementValuePair
    else lo ← pos; v ← rElementValue; sp ← span_from lo; mret [mkElementValuePair sp None v].

Definition parseAnnotation : Parse Annotation :=
  at_pos ← expect AT; name ← parseName;
  lp ← accepted LPAREN;
  pairs ← (if lp : bool then l ← parsePairs; _ ← expect RPAREN; mret l else mret []);
  sp ← span_from at_pos;
  mret (mkAnnotation sp at_pos name pairs).

(** An [@] that does not begin an annotation interface. *)
Definition atAnnotation : Parse bool := b ← at_ AT; k ← peekKind 1; mret (b && negb (k =? INTERFACE)).

Definition parseAnnotations : Parse (list Annotation) := many atAnnotation parseAnnotation.

Definition parseElementValue : Parse Node :=
  k ← kind;
  if k =? AT then a ← parseAnnotation; mret (NAnnotation a)
  else if k =? LBRACE then
    lo ← pos; _ ← next;
    l ← listed_trailing COMMA [RBRACE] rElementValue;
    _ ← expect RBRACE; sp ← span_from lo;
    mret (NElementValueArray sp (fst l) (snd l))
  else e ← rConditional; mret (NExpr e).

(** ** Modifiers *)

Definition annotation_span (a : Annotation) : Span := match a with mkAnnotation sp _ _ _ => sp end.

Definition modifier : Parse (option Modifier) :=
  b ← atAnnotation;
  if b : bool then a ← parseAnnotation; mret (Some (mkModifier (annotation_span a) (Some a) ILLEGAL))
  else
    k ← kind;
    if isModifierKeyword k then t ← next; mret (Some (mkModifier (tok_span t) None (tKind t)))
    else
      s ← atCtx CtxSealed;
      if (k =? NON_SEALED) || s
      then t ← next; mret (Some (mkModifier (tok_span t) None (if tKind t =? NON_SEALED then NON_SEALED else IDENT)))
      else mret None.

Definition parseModifiers : Parse (option Modifiers) :=
  lo ← pos;
  l ← loop rounds (fun l => o ← modifier; match o with Some m => mret (l ++ [m], true) | None => mret (l, false) end) [];
  match l with
  | [] => mret None
  | _ => sp ← span_from lo; mret (Some (mkModifiers sp l))
  end.

(** ** Types *)

(** [p.i = save] and out of the loop when no dimension follows. *)
Definition dim (dims : list Dim) : Parse (list Dim * bool) :=
  save ← cursor; lo ← pos; anns ← parseAnnotations;
  b ← at_ LBRACK; k ← peekKind 1;
  if negb b || negb (k =? RBRACK) then _ ← seek save; mret (dims, false)
  else
    lb ← next; rb ← next;
    mret (dims ++ [mkDim (At lo (tEnd rb)) anns (tPos lb) (u32 (tEnd rb - 1))], true).

Definition parseDims : Parse (list Dim) := loop rounds dim [].

Definition tryTypeArgs : Parse (option TypeArgs) :=
  b ← at_ LSS; if b : bool then spec rTypeArgs else mret None.

(** One more level of qualification. *)
Definition qualified (lo : Z) (nt : NamedType) : Parse (NamedType * bool) :=
  b ← at_ PERIOD; nk ← peekKind 1;
  if negb b || negb (nk =? IDENT) then mret (nt, false)
  else
    save ← cursor; _ ← next; anns ← parseAnnotations;
    id ← at_ IDENT;
    if negb id then _ ← seek save; mret (nt, false)
    else
      name ← parseTypeIdent; ta ← tryTypeArgs; sp ← span_from lo;
      mret (mkNamedType sp (Some nt) anns name ta, true).

Definition parseNamedType (lo : Z) (anns : list Annotation) : Parse Typ :=
  name ← parseTypeIdent; ta ← tryTypeArgs; sp ← span_from lo;
  nt ← loop rounds (qualified lo) (mkNamedType sp None anns name ta);
  mret (TNamed nt).

Definition parsePrimitiveType (lo : Z) (anns : list Annotation) : Parse Typ :=
  t ← next; mret (PrimitiveType (At lo (tEnd t)) anns (tKind t) (tPos t)).

Definition badType (lo : Z) : Parse Typ := sp ← badSpan lo; mret (BadType sp).

Definition isBadType (t : Typ) : bool := match t with BadType _ => true | _ => false end.

Definition parseTypeWithAnnotations (lo : Z) (anns : list Annotation) : Parse Typ :=
  let with_dims (base : Typ) : Parse Typ :=
    dims ← parseDims;
    match dims with
    | [] => mret base
    | _ => sp ← span_from lo; mret (ArrayType sp base dims)
    end in
  k ← kind;
  if isPrimitiveKind k then base ← parsePrimitiveType lo anns; with_dims base
  else if k =? IDENT then base ← parseNamedType lo anns; with_dims base
  else _ ← errorExpected (bs "type"); badType lo.

Definition parseType : Parse Typ :=
  nested (bs "type nesting too deep") (lo ← pos; badType lo)
    (lo ← pos; anns ← parseAnnotations; parseTypeWithAnnotations lo anns).

Definition parseWildcard (lo : Z) (anns : list Annotation) (q : Token) : Parse Typ :=
  k ← kind;
  if (k =? EXTENDS) || (k =? SUPER)
  then t ← next; b ← rType; sp ← span_from lo; mret (Wildcard sp anns (tPos q) (tKind t) (Some b))
  else sp ← span_from lo; mret (Wildcard sp anns (tPos q) ILLEGAL None).

Definition parseTypeArg : Parse (option Typ) :=
  lo ← pos; anns ← parseAnnotations;
  q ← accept QUESTION;
  match q with
  | Some q => w ← parseWildcard lo anns q; mret (Some w)
  | None =>
      k ← kind;
      if negb (isPrimitiveKind k) && negb (k =? IDENT) then mret None
      else t ← parseTypeWithAnnotations lo anns; mret (if isBadType t then None else Some t)
  end.

(** The arguments, [None] for the first that is not one. *)
Definition typeArgList : Parse (option (list Typ)) :=
  loop rounds (fun l => a ← parseTypeArg;
    match l, a with
    | Some l, Some a => b ← accepted COMMA; mret (Some (l ++ [a]), b)
    | _, _ => mret (None, false)
    end) (Some []).

Definition parseTypeArgs : Parse (option TypeArgs) :=
  lt ← expect LSS;
  d ← accept GTR;
  match d with
  | Some gt => mret (Some (mkTypeArgs (At lt (tEnd gt)) lt (tPos gt) [] true))
  | None =>
      l ← typeArgList;
      match l with
      | None => mret None
      | Some l =>
          b ← at_ GTR;
          if negb b then mret None else gt ← next; mret (Some (mkTypeArgs (At lt (tEnd gt)) lt (tPos gt) l false))
      end
  end.

(** ** Type parameters *)

Definition parseTypeParam : Parse TypeParam :=
  lo ← pos; anns ← parseAnnotations; name ← parseTypeIdent;
  b ← accepted EXTENDS;
  bounds ← (if b : bool then separated AND parseType else mret []);
  sp ← span_from lo;
  mret (mkTypeParam sp anns name bounds).

Definition parseTypeParams : Parse (option TypeParams) :=
  b ← at_ LSS;
  if negb b then mret None
  else lt ← next; l ← separated COMMA parseTypeParam; gt ← expect GTR; sp ← span_from (tPos lt); mret (Some (mkTypeParams sp (tPos lt) gt l)).

Definition parseTypeList : Parse (list Typ) := separated COMMA parseType.

(** ** Patterns *)

Definition parseComponentPattern : Parse (option Pattern) :=
  o ← accept UNDERSCORE;
  match o with
  | Some t => mret (Some (MatchAllPattern (tok_span t)))
  | None => rPattern
  end.

Definition componentPatterns : Parse (option (list Pattern)) :=
  loop rounds (fun l =>
    b ← open_until RPAREN;
    if negb b then mret (l, false)
    else
      e ← parseComponentPattern;
      match l, e with
      | Some l, Some e => c ← accepted COMMA; mret (Some (l ++ [e]), c)
      | _, _ => mret (None, false)
      end) (Some []).

Definition recordPattern (lo : Z) (t : Typ) : Parse (option Pattern) :=
  lp ← next; l ← componentPatterns;
  match l with
  | None => mret None
  | Some l =>
      b ← at_ RPAREN;
      if negb b then mret None else rp ← next; sp ← span_from lo; mret (Some (RecordPattern sp t (tPos lp) l (tPos rp)))
  end.

Definition pattern_attempt : Parse (option Pattern) :=
  lo ← pos; mods ← parseModifiers; k ← kind;
  if negb (isPrimitiveKind k) && negb (k =? IDENT) then mret None
  else
    t ← parseType;
    if isBadType t then mret None
    else
      k ← kind;
      if k =? LPAREN then recordPattern lo t
      else if negb (k =? IDENT) && negb (k =? UNDERSCORE) then mret None
      else name ← parseVarDeclaratorId; sp ← span_from lo; mret (Some (TypePattern sp mods t name)).

Definition tryPattern : Parse (option Pattern) := spec pattern_attempt.
End Types.
