(* ===== verification/ParseExpr.v ===== *)
(** * The parser: expressions ([parser/expr.go])

    Precedence climbing over the tokens, with [instanceof] and the joined shift
    operators as its two escapes. *)
From S2P Require Import Prelude.
From S2P Require Import Token SourceFile Ast Parser ParseType.

Section Expressions.
Context `{Input} `{Rec}.

Definition badExpr (lo : Z) : Parse Expr := sp ← badSpan lo; mret (BadExpr sp).

Definition isBadExpr (e : Expr) : bool := match e with BadExpr _ => true | _ => false end.

Definition parseArgs : Parse (list Expr) := listed RPAREN rExpr.

(** [p.expect(LPAREN)], the arguments, [p.expect(RPAREN)] *)
Definition parenArgs : Parse (Z * list Expr * Z) :=
  lp ← expect LPAREN; args ← parseArgs; rp ← expect RPAREN; mret (lp, args, rp).

(** ** Lambdas *)

Definition parseLambdaBody : Parse Node :=
  b ← at_ LBRACE;
  if b : bool then bl ← rBlock; mret (NBlock bl) else e ← rExpr; mret (NExpr e).

Definition ident_or_underscore : Parse bool := k ← kind; mret ((k =? IDENT) || (k =? UNDERSCORE)).

(** The type of a parameter that is not concise. *)
Definition lambda_type : Parse (option Typ) :=
  v ← atCtx CtxVar;
  if v : bool then t ← next; mret (Some (VarType (tok_span t)))
  else
    k ← kind;
    if negb (isPrimitiveKind k) && negb (k =? IDENT) then mret None
    else t ← parseType; mret (if isBadType t then None else Some t).

Definition tryLambdaParam : Parse (option Param) :=
  lo ← pos; b ← ident_or_underscore; k ← peekKind 1;
  if b && ((k =? COMMA) || (k =? RPAREN))
  then name ← parseVarDeclaratorId; sp ← span_from lo; mret (Some (mkParam sp None None [] NoPos name []))
  else
    mods ← parseModifiers; t ← lambda_type;
    match t with
    | None => mret None
    | Some t =>
        anns ← parseAnnotations; el ← accept ELLIPSIS; b ← ident_or_underscore;
        if negb b then mret None
        else
          name ← parseVarDeclaratorId; dims ← parseDims; sp ← span_from lo;
          mret (Some (mkParam sp mods (Some t) anns (match el with Some t => tPos t | None => NoPos end) name dims))
    end.

Definition lambdaParams : Parse (option (list Param)) :=
  loop rounds (fun l =>
    b ← open_until RPAREN;
    if negb b then mret (l, false)
    else
      prm ← tryLambdaParam;
      match l, prm with
      | Some l, Some prm => c ← accepted COMMA; mret (Some (l ++ [prm]), c)
      | _, _ => mret (None, false)
      end) (Some []).

Definition paren_lambda : Parse (option Expr) :=
  lo ← pos; lp ← next; l ← lambdaParams;
  match l with
  | None => mret None
  | Some l =>
      b ← at_ RPAREN;
      if negb b then mret None
      else
        rp ← next; a ← at_ ARROW;
        if negb a then mret None
        else ar ← next; body ← parseLambdaBody; sp ← span_from lo; mret (Some (LambdaExpr sp (tPos lp) l (tPos rp) true (tPos ar) body))
  end.

Definition tryLambda : Parse (option Expr) :=
  b ← ident_or_underscore; k ← peekKind 1;
  if b && (k =? ARROW) then
    lo ← pos; name ← parseVarDeclaratorId; ar ← expect ARROW; body ← parseLambdaBody; sp ← span_from lo;
    mret (Some (LambdaExpr sp NoPos [mkParam (iSpan name) None None [] NoPos name []] NoPos false ar body))
  else
    lp ← at_ LPAREN;
    if negb lp then mret None else spec paren_lambda.

(** ** Object and array creation *)

Definition parseNamedTypeToInstantiate : Parse Typ :=
  lo ← pos; anns ← parseAnnotations; name ← parseTypeIdent; ta ← tryTypeArgs; sp ← span_from lo;
  nt ← loop rounds (fun nt =>
    b ← period_ident;
    if b : bool then
      _ ← next; anns ← parseAnnotations; name ← parseTypeIdent; ta ← tryTypeArgs; sp ← span_from lo;
      mret (mkNamedType sp (Some nt) anns name ta, true)
    else mret (nt, false)) (mkNamedType sp None anns name ta);
  mret (TNamed nt).

(** A dimension with an expression; the cursor is put back before one
    without, and out of the loop. *)
Definition dimExpr (l : list DimExpr) : Parse (list DimExpr * bool) :=
  save ← cursor; dlo ← pos; anns ← parseAnnotations;
  b ← at_ LBRACK;
  if negb b then _ ← seek save; mret (l, false)
  else
    lb ← next; e ← at_ RBRACK;
    if e : bool then _ ← seek save; mret (l, false)
    else x ← rExpr; rb ← expect RBRACK; sp ← span_from dlo; mret (l ++ [mkDimExpr sp anns (tPos lb) x rb], true).

Definition newArray (lo newPos : Z) (elt : Typ) : Parse Expr :=
  ds ← loop rounds dimExpr []; dims ← parseDims;
  init ← match ds with [] => a ← rArrayInit; mret (Some a) | _ => mret None end;
  sp ← span_from lo;
  mret (NewArrayExpr sp newPos elt ds dims init).

(** [outer] is the position and the expression before the dot. *)
Definition newObject (lo newPos : Z) (ta : option TypeArgs) (elt : Typ) (outer : option (Z * Expr)) : Parse Expr :=
  a ← parenArgs;
  let '(lp, args, rp) := a : Z * list Expr * Z in
  b ← at_ LBRACE;
  body ← (if b : bool then rTypeBody None else mret (NoPos, [], NoPos));
  let '(lb, members, rb) := body : Z * list Decl * Z in
  sp ← span_from (match outer with Some (olo, _) => olo | None => lo end);
  mret (NewExpr sp (snd <$> outer) newPos ta (match elt with TNamed nt => Some nt | _ => None end) lp args rp members lb rb).

Definition parseNewExpr (lo : Z) (outer : option (Z * Expr)) : Parse Expr :=
  newPos ← expect NEW; ta ← tryTypeArgs;
  k ← kind;
  elt ← (if isPrimitiveKind k then t ← next; mret (PrimitiveType (tok_span t) [] (tKind t) (tPos t)) else parseNamedTypeToInstantiate);
  lb ← at_ LBRACK; an ← atAnnotation;
  if lb || an then newArray lo newPos elt else newObject lo newPos ta elt outer.

(** ** Primaries *)

(** A qualifier is a name or dropped. *)
Definition qualifier (x : Expr) : option Name := match x with EName n => Some n | _ => None end.

Definition call (lo : Z) (x : option Expr) (ta : option TypeArgs) (fn : Ident) : Parse Expr :=
  a ← parenArgs;
  let '(lp, args, rp) := a : Z * list Expr * Z in
  sp ← span_from lo; mret (CallExpr sp x ta fn lp args rp).

(** A dotted name stays a name. *)
Definition select (lo : Z) (x : Expr) (dot : Z) (sel : Ident) : Parse Expr :=
  sp ← span_from lo;
  mret (match x with EName n => EName (mkName sp (nParts n ++ [sel])) | _ => SelectorExpr sp x dot sel end).

Definition parseSelector (lo : Z) (x : Expr) : Parse Expr :=
  dot ← next; k ← kind;
  if k =? THIS then t ← next; mret (This (At lo (tEnd t)) (qualifier x) (tPos t))
  else if k =? CLASS then t ← next; mret (ClassLit (At lo (tEnd t)) None NoPos [] (tPos t))
  else if k =? NEW then inner ← pos; parseNewExpr inner (Some (lo, x))
  else if k =? SUPER then t ← next; mret (Super (At lo (tEnd t)) (qualifier x) (tPos t))
  else if k =? LSS then ta ← tryTypeArgs; fn ← parseMethodIdent; call lo (Some x) ta fn
  else
    sel ← parseIdent; b ← at_ LPAREN;
    if b : bool then call lo (Some x) None sel else select lo x (tPos dot) sel.

(** [X :: [TypeArguments] new], or a name where [name] reads one. *)
Definition methodRef (lo : Z) (x : Node) (name : Parse (option Ident)) : Parse (option Expr) :=
  cp ← next; ta ← tryTypeArgs; nw ← accept NEW;
  match nw with
  | Some t => sp ← span_from lo; mret (Some (MethodRef sp x (tPos cp) ta None (tPos t)))
  | None =>
      id ← name;
      match id with
      | None => mret None
      | Some id => sp ← span_from lo; mret (Some (MethodRef sp x (tPos cp) ta (Some id) NoPos))
      end
  end.

Definition any_name : Parse (option Ident) := id ← parseIdent; mret (Some id).
Definition only_ident : Parse (option Ident) := b ← at_ IDENT; if b : bool then id ← parseIdent; mret (Some id) else mret None.

(** [Type.class] *)
Definition classLit (lo : Z) (t : option Typ) (voidPos : Z) : Parse Expr :=
  _ ← expect PERIOD; cp ← expect CLASS; sp ← span_from lo; mret (ClassLit sp t voidPos [] cp).

(** A generic type's method reference or class literal. *)
Definition typed_primary (lo : Z) : Parse (option Expr) :=
  k ← peekKind 1;
  if negb (k =? LSS) && negb (k =? LBRACK) then mret None
  else
    t ← parseType;
    if isBadType t then mret None
    else
      c ← at_ COLONCOLON; d ← at_ PERIOD; k ← peekKind 1;
      if c : bool then methodRef lo (NType t) only_ident
      else if d && (k =? CLASS) then _ ← next; cp ← next; sp ← span_from lo; mret (Some (ClassLit sp (Some t) NoPos [] (tPos cp)))
      else mret None.

Definition period_ident_no_call : Parse bool := b ← period_ident; k ← peekKind 2; mret (b && negb (k =? LPAREN)).

Definition parseNameStoppingBeforeCall : Parse Name := parseNameWhile period_ident_no_call.

Definition parseNameOrCall (lo : Z) : Parse Expr :=
  k ← peekKind 1;
  if k =? LPAREN then fn ← parseMethodIdent; call lo None None fn
  else
    x ← spec (typed_primary lo);
    match x with
    | Some x => mret x
    | None => n ← parseNameStoppingBeforeCall; mret (EName n)
    end.

Definition primitive_primary (lo : Z) : Parse Expr :=
  t ← parseType; b ← at_ COLONCOLON;
  if b : bool then cp ← next; np ← expect NEW; sp ← span_from lo; mret (MethodRef sp (NType t) (tPos cp) None None np)
  else classLit lo (Some t) NoPos.

Definition parenExpr (lo : Z) : Parse Expr :=
  lp ← next; x ← rExpr; rp ← expect RPAREN; sp ← span_from lo; mret (ParenExpr sp (tPos lp) x rp).

Definition parsePrimary : Parse Expr :=
  lo ← pos; k ← kind;
  if IsLiteral k then t ← next; mret (BasicLit (tok_span t) (tKind t))
  else if k =? THIS then t ← next; mret (This (tok_span t) None (tPos t))
  else if k =? SUPER then t ← next; mret (Super (tok_span t) None (tPos t))
  else if k =? NEW then parseNewExpr lo None
  else if k =? VOID then vp ← next; classLit lo None (tPos vp)
  else if isPrimitiveKind k then primitive_primary lo
  else if k =? LPAREN then parenExpr lo
  else if k =? IDENT then parseNameOrCall lo
  else _ ← errorExpected (bs "expression"); _ ← next; badExpr lo.

Definition postfix_round (lo : Z) (x : Expr) : Parse (Expr * bool) :=
  k ← kind;
  if k =? PERIOD then x ← parseSelector lo x; mret (x, true)
  else if k =? LBRACK then lb ← next; ix ← rExpr; rb ← expect RBRACK; sp ← span_from lo; mret (IndexExpr sp x (tPos lb) ix rb, true)
  else if k =? COLONCOLON then
    m ← methodRef lo (NExpr x) any_name;
    mret (match m with Some m => m | None => x end, true)
  else if (k =? INC) || (k =? DEC) then t ← next; mret (PostfixExpr (At lo (tEnd t)) x (tKind t) (tPos t), true)
  else mret (x, false).

Definition parsePostfix : Parse Expr := lo ← pos; x ← parsePrimary; loop rounds (postfix_round lo) x.

(** ** Unary expressions and casts *)

Definition unary (lo : Z) (k : Z) : Parse Expr :=
  op ← next; x ← rUnary; sp ← span_from lo; mret (UnaryExpr sp k (tPos op) x).

Definition parseUnaryNotPlusMinus : Parse Expr :=
  lo ← pos; k ← kind;
  if (k =? TILDE) || (k =? NOT) then unary lo k else rUnary.

Definition startsCastOperand (primitive : bool) : Parse bool :=
  k ← kind;
  mret (if (k =? ADD) || (k =? SUB) then primitive
        else bool_decide (k ∈ [INC; DEC; TILDE; NOT; LPAREN; IDENT; THIS; SUPER; NEW; SWITCH; UNDERSCORE]) || isPrimitiveKind k || IsLiteral k).

(** [& Type] as often as it comes. *)
Definition additional_bounds : Parse (list Typ) :=
  loop rounds (fun l => b ← accepted AND; if b : bool then t ← rType; mret (l ++ [t], true) else mret (l, false)) [].

Definition cast_operand (primitive : bool) : Parse Expr :=
  if primitive then rUnary
  else l ← tryLambda; match l with Some l => mret l | None => parseUnaryNotPlusMinus end.

Definition cast_attempt : Parse (option Expr) :=
  lo ← pos; lp ← next; k ← kind;
  if negb (isPrimitiveKind k) && negb (k =? IDENT) && negb (k =? AT) then mret None
  else
    t ← parseType;
    if isBadType t then mret None
    else
      bounds ← additional_bounds;
      let primitive := isPrimitiveKind k && match bounds with [] => true | _ => false end in
      b ← at_ RPAREN;
      if negb b then mret None
      else
        rp ← next; ok ← startsCastOperand primitive;
        if negb ok then mret None
        else x ← cast_operand primitive; sp ← span_from lo; mret (Some (CastExpr sp (tPos lp) t bounds (tPos rp) x)).

Definition tryCast : Parse (option Expr) := spec cast_attempt.

Definition switch_head : Parse (Z * Expr * SwitchBlock) :=
  t ← next; _ ← expect LPAREN; tag ← rExpr; _ ← expect RPAREN; b ← rSwitchBlock; mret (tPos t, tag, b).

Definition switchExpr (lo : Z) : Parse Expr :=
  h ← switch_head;
  let '(sp0, tag, b) := h : Z * Expr * SwitchBlock in
  sp ← span_from lo; mret (SwitchExpr sp sp0 tag b).

Definition parseUnary : Parse Expr :=
  lo ← pos; k ← kind;
  if bool_decide (k ∈ [ADD; SUB; TILDE; NOT; INC; DEC]) then unary lo k
  else if k =? LPAREN then c ← tryCast; match c with Some c => mret c | None => parsePostfix end
  else if k =? SWITCH then switchExpr lo
  else parsePostfix.

(** ** Binary expressions *)

(** The tokens from the cursor. *)
Definition ahead : Parse (list Token) := i ← cursor; mret (drop i toks).

Definition skip (n : Z) : Parse unit := i ← cursor; seek (i + Z.to_nat n)%nat.

(** The operator, the end of its last token and the number of its tokens. *)
Definition binaryOp : Parse (Z * Z * Z) :=
  k ← kind; e ← end_; l ← ahead;
  let plain := if Precedence k =? LowestPrec then (ILLEGAL, NoPos, 0) else (k, e, 1) in
  if k =? GTR then
    let '(joined, n) := Join l in
    if 0 <? n then
      if (joined =? SHR) || (joined =? USHR) then t ← peek (Z.to_nat (n - 1)); mret (joined, tEnd t, n)
      else if (joined =? SHR_ASSIGN) || (joined =? USHR_ASSIGN) then mret (ILLEGAL, NoPos, 0)
      else mret plain
    else mret plain
  else mret plain.

Definition instanceOf (lo : Z) (x : Expr) : Parse Expr :=
  op ← next; pat ← tryPattern;
  match pat with
  | Some pat => sp ← span_from lo; mret (InstanceOfExpr sp x (tPos op) None (Some pat))
  | None => t ← parseType; sp ← span_from lo; mret (InstanceOfExpr sp x (tPos op) (Some t) None)
  end.

Definition binary_round (lo minPrec : Z) (x : Expr) : Parse (Expr * bool) :=
  b ← at_ INSTANCEOF;
  if b : bool then
    if Precedence INSTANCEOF <? minPrec then mret (x, false)
    else x ← instanceOf lo x; mret (x, true)
  else
    o ← binaryOp;
    let '(op, opEnd, n) := o : Z * Z * Z in
    if (n =? 0) || (Precedence op <? minPrec) then mret (x, false)
    else
      opPos ← pos; _ ← skip n; y ← rBinary (Precedence op + 1); sp ← span_from lo;
      mret (BinaryExpr sp x op opPos opEnd y, true).

Definition too_deep : Parse Expr := lo ← pos; badExpr lo.

Definition parseBinary (minPrec : Z) : Parse Expr :=
  nested (bs "expression nesting too deep") too_deep
    (lo ← pos; x ← parseUnary; loop rounds (binary_round lo minPrec) x).

(** ** Conditionals and assignments *)

Definition else_branch : Parse Expr := l ← tryLambda; match l with Some l => mret l | None => rConditional end.

Definition parseConditional : Parse Expr :=
  lo ← pos; cond ← parseBinary 1; q ← accept QUESTION;
  match q with
  | None => mret cond
  | Some q => a ← rExpr; c ← expect COLON; b ← else_branch; sp ← span_from lo; mret (CondExpr sp cond (tPos q) a c b)
  end.

Definition assign_kinds : list Z :=
  [ASSIGN; MUL_ASSIGN; QUO_ASSIGN; REM_ASSIGN; ADD_ASSIGN; SUB_ASSIGN; SHL_ASSIGN; AND_ASSIGN; XOR_ASSIGN; OR_ASSIGN].

Definition assignOp : Parse (Z * Z * Z) :=
  k ← kind; e ← end_; l ← ahead;
  if bool_decide (k ∈ assign_kinds) then mret (k, e, 1)
  else if k =? GTR then
    let '(joined, n) := Join l in
    if (0 <? n) && ((joined =? SHR_ASSIGN) || (joined =? USHR_ASSIGN)) then t ← peek (Z.to_nat (n - 1)); mret (joined, tEnd t, n)
    else mret (ILLEGAL, NoPos, 0)
  else mret (ILLEGAL, NoPos, 0).

Definition parseAssign : Parse Expr :=
  lo ← pos; x ← parseConditional; o ← assignOp;
  let '(op, opEnd, n) := o : Z * Z * Z in
  if n =? 0 then mret x
  else opPos ← pos; _ ← skip n; rhs ← rExpr; sp ← span_from lo; mret (AssignExpr sp x op opPos opEnd rhs).

Definition parseExpr : Parse Expr :=
  nested (bs "expression nesting too deep") too_deep
    (l ← tryLambda; match l with Some l => mret l | None => parseAssign end).
End Expressions.
