(* ===== verification/ParseStmt.v ===== *)
(** * The parser: statements ([parser/stmt.go], and the declarators of
    [decl.go]) *)
From S2P Require Import Prelude.
From S2P Require Import Token SourceFile Ast Parser ParseType ParseExpr.

Section Statements.
Context `{Input} `{Rec}.

Definition pos_or (t : option Token) : Z := match t with Some t => tPos t | None => NoPos end.

(** ** Declarators *)

Definition parseArrayInit : Parse ArrayInit :=
  lb ← expect LBRACE;
  l ← listed_trailing COMMA [RBRACE] rVarInit;
  rb ← expect RBRACE; sp ← span_from lb;
  mret (mkArrayInit sp lb (fst l) (snd l) rb).

Definition parseVarInit : Parse Node :=
  b ← at_ LBRACE; if b : bool then a ← parseArrayInit; mret (NExpr (EArrayInit a)) else e ← rExpr; mret (NExpr e).

Definition declarator : Parse VarDeclarator :=
  lo ← pos; name ← parseVarDeclaratorId; dims ← parseDims; a ← accept ASSIGN;
  init ← (match a with Some _ => v ← parseVarInit; mret (Some v) | None => mret None end);
  sp ← span_from lo;
  mret (mkVarDeclarator sp name dims (pos_or a) init).

Definition parseVarDeclarators : Parse (list VarDeclarator) := separated COMMA declarator.

(** ** Local variables *)

Definition local_type : Parse (option Typ) :=
  v ← atCtx CtxVar; k ← peekKind 1;
  if v && (k =? IDENT) then t ← next; mret (Some (VarType (tok_span t)))
  else
    k ← kind;
    if negb (isPrimitiveKind k) && negb (k =? IDENT) then mret None
    else t ← parseType; mret (if isBadType t then None else Some t).

Definition local_attempt (semi : bool) : Parse (option VarDecl) :=
  lo ← pos; mods ← parseModifiers; t ← local_type;
  match t with
  | None => mret None
  | Some t =>
      b ← ident_or_underscore;
      if negb b then mret None
      else
        names ← parseVarDeclarators;
        if semi then
          b ← at_ SEMICOLON;
          if negb b then mret None
          else s ← next; sp ← span_from lo; mret (Some (mkVarDecl sp mods (Some t) names (tPos s)))
        else sp ← span_from lo; mret (Some (mkVarDecl sp mods (Some t) names NoPos))
  end.

Definition tryLocalVarDecl (semi : bool) : Parse (option VarDecl) := spec (local_attempt semi).

Definition atRecordDecl : Parse bool :=
  r ← atCtx CtxRecord; k1 ← peekKind 1; k2 ← peekKind 2;
  mret (r && (k1 =? IDENT) && ((k2 =? LPAREN) || (k2 =? LSS))).

(** Past the modifiers, to see what they modify; the cursor is put back, and
    only the cursor. *)
Definition skip_modifier (u : unit) : Parse (unit * bool) :=
  k ← kind; a ← atAnnotation; s ← atCtx CtxSealed;
  if a : bool then _ ← parseAnnotation; mret (tt, true)
  else if isModifierKeyword k || (k =? NON_SEALED) || s then _ ← next; mret (tt, true)
  else mret (tt, false).

Definition atTypeKeyword : Parse bool :=
  k ← kind; k1 ← peekKind 1; mret ((k =? CLASS) || (k =? INTERFACE) || (k =? ENUM) || ((k =? AT) && (k1 =? INTERFACE))).

Definition atLocalTypeDecl : Parse bool :=
  save ← cursor; _ ← loop rounds skip_modifier tt;
  b ← atTypeKeyword; r ← atRecordDecl; _ ← seek save;
  mret (b || r).

(** ** Blocks *)

(** What makes a list loop move on when its item consumed nothing. *)
Definition recover_from (before : nat) (follow : list Z) (semi : bool) : Parse unit :=
  i ← cursor;
  if bool_decide (i = before) then _ ← advanceTo follow; if semi then _ ← accept SEMICOLON; mret tt else mret tt else mret tt.

Definition block_round (l : list Stmt) : Parse (list Stmt * bool) :=
  b ← open_until RBRACE;
  if negb b then mret (l, false)
  else before ← cursor; s ← rBlockStmt; _ ← recover_from before [SEMICOLON; RBRACE] true; mret (l ++ [s], true).

Definition parseBlock : Parse Block :=
  lb ← expect LBRACE; l ← loop rounds block_round []; rb ← expect RBRACE; sp ← span_from lb;
  mret (mkBlock sp lb l rb).

(** ** Switch blocks *)

Definition null_label (lo kw : Z) : Parse SwitchLabel :=
  t ← next;
  let lit := NExpr (BasicLit (tok_span t) NULL) in
  c ← accepted COMMA;
  d ← (if c : bool then d ← accept DEFAULT; _ ← (match d with None => errorExpected (bs "'default'") | Some _ => mret tt end); mret d else mret None);
  sp ← span_from lo;
  mret (mkSwitchLabel sp kw [lit] (given d) (pos_or d) NoPos None).

Definition case_element : Parse Node :=
  p ← tryPattern; match p with Some p => mret (NPattern p) | None => e ← rConditional; mret (NExpr e) end.

Definition case_label (lo kw : Z) : Parse SwitchLabel :=
  cases ← separated COMMA case_element; w ← acceptCtx CtxWhen;
  g ← (match w with Some _ => e ← rExpr; mret (Some e) | None => mret None end);
  sp ← span_from lo;
  mret (mkSwitchLabel sp kw cases false NoPos (pos_or w) g).

Definition parseSwitchLabel : Parse SwitchLabel :=
  lo ← pos; d ← accept DEFAULT;
  match d with
  | Some t => sp ← span_from lo; mret (mkSwitchLabel sp (tPos t) [] true (tPos t) NoPos None)
  | None => kw ← expect CASE; n ← at_ NULL; if n : bool then null_label lo kw else case_label lo kw
  end.

Definition label_lo (l : SwitchLabel) : Z := match l with mkSwitchLabel sp _ _ _ _ _ _ => Lo sp end.

Definition rule_body : Parse Node :=
  k ← kind;
  if k =? LBRACE then b ← parseBlock; mret (NBlock b)
  else if k =? THROW then s ← rStmt; mret (NStmt s)
  else e ← rExpr; _ ← expectSemi; mret (NExpr e).

Definition at_label : Parse bool := k ← kind; mret ((k =? CASE) || (k =? DEFAULT)).

Definition more_labels : Parse (list SwitchLabel) := many at_label (l ← parseSwitchLabel; _ ← expect COLON; mret l).

Definition in_group : Parse bool := b ← open_until RBRACE; l ← at_label; mret (b && negb l).

Definition group_statements : Parse (list Stmt) := many in_group rBlockStmt.

(** The rules, the groups and the trailing labels so far. *)
Definition switch_state := (list SwitchRule * list SwitchGroup * list SwitchLabel)%type.

Definition switch_group (label : SwitchLabel) (s : switch_state) : Parse switch_state :=
  let '(rules, groups, labels) := s in
  _ ← expect COLON; ls ← more_labels; stmts ← group_statements; b ← at_ RBRACE;
  if b && match stmts with [] => true | _ => false end then mret (rules, groups, labels ++ label :: ls)
  else sp ← span_from (label_lo label); mret (rules, groups ++ [mkSwitchGroup sp (label :: ls) stmts], labels).

Definition switch_element (s : switch_state) : Parse switch_state :=
  label ← parseSwitchLabel; a ← accept ARROW;
  match a with
  | Some t =>
      body ← rule_body; sp ← span_from (label_lo label);
      let '(rules, groups, labels) := s in
      mret (rules ++ [mkSwitchRule sp label (tPos t) body], groups, labels)
  | None => switch_group label s
  end.

Definition switch_round (s : switch_state) : Parse (switch_state * bool) :=
  b ← open_until RBRACE;
  if negb b then mret (s, false)
  else before ← cursor; s ← switch_element s; _ ← recover_from before [CASE; DEFAULT; RBRACE] false; mret (s, true).

Definition parseSwitchBlock : Parse SwitchBlock :=
  lb ← expect LBRACE; s ← loop rounds switch_round ([], [], []); rb ← expect RBRACE; sp ← span_from lb;
  let '(rules, groups, labels) := s : switch_state in
  mret (mkSwitchBlock sp lb rules groups labels rb).

(** ** Statements *)

(** [( Expression )] *)
Definition paren_condition : Parse Expr := _ ← expect LPAREN; x ← rExpr; _ ← expect RPAREN; mret x.

Definition ifStmt (lo : Z) : Parse Stmt :=
  t ← next; c ← paren_condition; th ← rStmt; e ← accept ELSE;
  el ← (match e with Some _ => s ← rStmt; mret (Some s) | None => mret None end);
  sp ← span_from lo; mret (IfStmt sp (tPos t) c th (pos_or e) el).

Definition whileStmt (lo : Z) : Parse Stmt :=
  t ← next; c ← paren_condition; b ← rStmt; sp ← span_from lo; mret (WhileStmt sp (tPos t) c b).

Definition doStmt (lo : Z) : Parse Stmt :=
  t ← next; b ← rStmt; w ← expect WHILE; c ← paren_condition; _ ← expectSemi; sp ← span_from lo; mret (DoStmt sp (tPos t) b w c).

Definition switchStmt (lo : Z) : Parse Stmt :=
  h ← switch_head;
  let '(sp0, tag, b) := h : Z * Expr * SwitchBlock in
  sp ← span_from lo; mret (SwitchStmt sp sp0 tag b).

Definition returnStmt (lo : Z) : Parse Stmt :=
  t ← next; b ← at_ SEMICOLON;
  x ← (if b : bool then mret None else e ← rExpr; mret (Some e));
  _ ← expectSemi; sp ← span_from lo; mret (ReturnStmt sp (tPos t) x).

(** [kw Expression ;] *)
Definition keyword_expr (lo : Z) (make : Span -> Z -> Expr -> Stmt) : Parse Stmt :=
  t ← next; x ← rExpr; _ ← expectSemi; sp ← span_from lo; mret (make sp (tPos t) x).

(** [kw [Identifier] ;] *)
Definition keyword_label (lo : Z) (make : Span -> Z -> option Ident -> Stmt) : Parse Stmt :=
  t ← next; b ← at_ IDENT;
  l ← (if b : bool then id ← parseIdent; mret (Some id) else mret None);
  _ ← expectSemi; sp ← span_from lo; mret (make sp (tPos t) l).

Definition syncStmt (lo : Z) : Parse Stmt :=
  t ← next; x ← paren_condition; b ← parseBlock; sp ← span_from lo; mret (SyncStmt sp (tPos t) x b).

Definition assertStmt (lo : Z) : Parse Stmt :=
  t ← next; x ← rExpr; c ← accept COLON;
  m ← (match c with Some _ => e ← rExpr; mret (Some e) | None => mret None end);
  _ ← expectSemi; sp ← span_from lo; mret (AssertStmt sp (tPos t) x (pos_or c) m).

Definition varDecl_span (d : VarDecl) : Span := match d with mkVarDecl sp _ _ _ _ => sp end.

Definition range_attempt : Parse (option VarDecl) :=
  d ← tryLocalVarDecl false; c ← at_ COLON; mret (if c : bool then d else None).

Definition init_expr : Parse Stmt := lo ← pos; x ← rExpr; sp ← span_from lo; mret (ExprStmt sp x).

Definition for_init : Parse (list Stmt) :=
  b ← at_ SEMICOLON;
  if b : bool then mret []
  else
    d ← tryLocalVarDecl false;
    match d with Some d => mret [DeclStmt (varDecl_span d) (DVar d)] | None => separated COMMA init_expr end.

Definition basicFor (lo forPos : Z) : Parse Stmt :=
  init ← for_init; _ ← expectSemi; b ← at_ SEMICOLON;
  c ← (if b : bool then mret None else e ← rExpr; mret (Some e));
  _ ← expectSemi; post ← listed RPAREN rExpr; _ ← expect RPAREN; body ← rStmt; sp ← span_from lo;
  mret (ForStmt sp forPos init c post body).

Definition parseForStmt : Parse Stmt :=
  lo ← pos; fp ← expect FOR; _ ← expect LPAREN; d ← spec range_attempt;
  match d with
  | Some d =>
      c ← expect COLON; x ← rExpr; _ ← expect RPAREN; body ← rStmt; sp ← span_from lo;
      mret (RangeStmt sp fp d c x body)
  | None => basicFor lo fp
  end.

Definition parseResource : Parse Resource :=
  lo ← pos; d ← tryLocalVarDecl false;
  match d with
  | Some d => sp ← span_from lo; mret (mkResource sp (Some d) None)
  | None => x ← rExpr; sp ← span_from lo; mret (mkResource sp None (Some x))
  end.

Definition parseCatchClause : Parse CatchClause :=
  lo ← pos; cp ← expect CATCH; _ ← expect LPAREN; mods ← parseModifiers; types ← separated OR parseType;
  name ← parseVarDeclaratorId; _ ← expect RPAREN; b ← parseBlock; sp ← span_from lo;
  mret (mkCatchClause sp cp mods types name b).

(** The parenthesis, the resources, the last semicolon, the parenthesis. *)
Definition resources : Parse (Z * list Resource * Z * Z) :=
  lp ← accept LPAREN;
  match lp with
  | None => mret (NoPos, [], NoPos, NoPos)
  | Some lp => l ← listed_trailing SEMICOLON [RPAREN] parseResource; rp ← expect RPAREN; mret (tPos lp, fst l, snd l, rp)
  end.

Definition parseTryStmt : Parse Stmt :=
  lo ← pos; tp ← expect TRY; r ← resources;
  let '(lp, res, semi, rp) := r : Z * list Resource * Z * Z in
  body ← parseBlock; catches ← many (at_ CATCH) parseCatchClause; f ← accept FINALLY;
  fin ← (match f with Some _ => b ← parseBlock; mret (Some b) | None => mret None end);
  _ ← (match catches, fin, res with
       | [], None, [] => error tp (u32 (tp + 3)) (bs "try statement requires a catch clause or a finally block")
       | _, _, _ => mret tt
       end);
  sp ← span_from lo;
  mret (TryStmt sp tp lp res semi rp body catches (pos_or f) fin).

Definition startsExprContinuation (k : Z) : bool :=
  bool_decide (k ∈ [LPAREN; PERIOD; ASSIGN; LBRACK; COLONCOLON; INC; DEC; SEMICOLON]) || negb (Precedence k =? LowestPrec).

Definition constructor_attempt : Parse (option Stmt) :=
  lo ← pos; b ← at_ LSS;
  ta ← (if b : bool then o ← parseTypeArgs; mret (match o with Some ta => Some (Some ta) | None => None end) else mret (Some None));
  match ta with
  | None => mret None
  | Some ta =>
      k ← kind;
      if (k =? THIS) || (k =? SUPER) then
        t ← next; b ← at_ LPAREN;
        if negb b then mret None
        else
          a ← parenArgs;
          let '(lp, args, rp) := a : Z * list Expr * Z in
          _ ← expectSemi; sp ← span_from lo; mret (Some (ConstructorCall sp None ta (tKind t) (tPos t) lp args rp))
      else mret None
  end.

Definition tryConstructorCall : Parse (option Stmt) := spec constructor_attempt.

Definition badStmt (lo : Z) : Parse Stmt := sp ← badSpan lo; mret (BadStmt sp).

Definition exprStmt (lo : Z) : Parse Stmt :=
  x ← parseExpr;
  if isBadExpr x then _ ← advanceTo [SEMICOLON; RBRACE]; _ ← accept SEMICOLON; badStmt lo
  else _ ← expectSemi; sp ← span_from lo; mret (ExprStmt sp x).

(** What no keyword introduces. *)
Definition otherStmt (lo : Z) : Parse Stmt :=
  k ← kind; k1 ← peekKind 1; y ← atCtx CtxYield;
  if y && negb (startsExprContinuation k1) then keyword_expr lo YieldStmt
  else if (k =? IDENT) && (k1 =? COLON) then
    l ← parseIdent; c ← next; s ← rStmt; sp ← span_from lo; mret (LabeledStmt sp l (tPos c) s)
  else c ← tryConstructorCall; match c with Some s => mret s | None => exprStmt lo end.

Definition stmt_body : Parse Stmt :=
  lo ← pos; k ← kind;
  if k =? LBRACE then b ← parseBlock; mret (SBlock b)
  else if k =? SEMICOLON then t ← next; mret (EmptyStmt (tok_span t))
  else if k =? IF then ifStmt lo
  else if k =? WHILE then whileStmt lo
  else if k =? DO then doStmt lo
  else if k =? FOR then parseForStmt
  else if k =? SWITCH then switchStmt lo
  else if k =? TRY then parseTryStmt
  else if k =? RETURN then returnStmt lo
  else if k =? THROW then keyword_expr lo ThrowStmt
  else if k =? BREAK then keyword_label lo BreakStmt
  else if k =? CONTINUE then keyword_label lo ContinueStmt
  else if k =? SYNCHRONIZED then syncStmt lo
  else if k =? ASSERT then assertStmt lo
  else otherStmt lo.

Definition parseStmt : Parse Stmt :=
  nested (bs "statement nesting too deep") (_ ← advanceTo [SEMICOLON; RBRACE]; lo ← pos; badStmt lo) stmt_body.

(** ** Block statements *)

Definition parseBlockStmt : Parse Stmt :=
  lo ← pos; b ← atLocalTypeDecl;
  if b : bool then d ← rMember None; sp ← span_from lo; mret (DeclStmt sp d)
  else
    d ← tryLocalVarDecl true;
    match d with Some d => sp ← span_from lo; mret (DeclStmt sp (DVar d)) | None => parseStmt end.
End Statements.
