(* ===== verification/ParseDecl.v ===== *)
(** * The parser: declarations ([parser/decl.go]) *)
From S2P Require Import Prelude.
From S2P Require Import Token SourceFile Ast Parser ParseType ParseExpr ParseStmt.

Section Declarations.
Context `{Input} `{Rec}.

Definition sameName (t : Token) (id : Ident) : Parse bool :=
  a ← must (Slice unit_ (tPos t) (tEnd t));
  b ← must (Slice unit_ (Lo (iSpan id)) (Hi (iSpan id)));
  mret (bool_decide (a = b)).

(** ** Parameters *)

Definition receiver_attempt : Parse (option ReceiverParam) :=
  lo ← pos; anns ← parseAnnotations; k ← kind;
  if negb (isPrimitiveKind k) && negb (k =? IDENT) then mret None
  else
    t ← parseType; b ← at_ IDENT; k1 ← peekKind 1; k2 ← peekKind 2;
    q ← (if b && (k1 =? PERIOD) && (k2 =? THIS) then id ← parseIdent; _ ← next; mret (Some id) else mret None);
    th ← accept THIS;
    match th with
    | None => mret None
    | Some th => sp ← span_from lo; mret (Some (mkReceiverParam sp anns t q (tPos th)))
    end.

Definition tryReceiverParam : Parse (option ReceiverParam) := spec receiver_attempt.

Definition parseFormalParam : Parse Param :=
  lo ← pos; mods ← parseModifiers; t ← parseType; anns ← parseAnnotations; el ← accept ELLIPSIS;
  name ← parseVarDeclaratorId; dims ← parseDims; sp ← span_from lo;
  mret (mkParam sp mods (Some t) anns (pos_or el) name dims).

(** The parameters, to the closing parenthesis. *)
Definition parseParamsAfterLparen : Parse (option ReceiverParam * list Param * Z) :=
  b ← at_ RPAREN;
  r ← (if b : bool then mret (None, [])
       else
         recv ← tryReceiverParam;
         _ ← (match recv with Some _ => accepted COMMA | None => mret false end);
         params ← listed RPAREN parseFormalParam;
         mret (recv, params));
  rp ← expect RPAREN;
  mret (fst r, snd r, rp).

(** ** Bodies *)

Definition member_round (enclosing : option Ident) (l : list Decl) : Parse (list Decl * bool) :=
  b ← open_until RBRACE;
  if negb b then mret (l, false)
  else before ← cursor; m ← rMember enclosing; _ ← recover_from before [SEMICOLON; RBRACE] true; mret (l ++ [m], true).

Definition parseTypeBody (enclosing : option Ident) : Parse (Z * list Decl * Z) :=
  b ← at_ LBRACE;
  if negb (Z.land mode HeaderOnly =? 0) && b then lb ← pos; _ ← skipBalanced; rb ← prevEnd; mret (lb, [], rb)
  else lb ← expect LBRACE; l ← loop rounds (member_round enclosing) []; rb ← expect RBRACE; mret (lb, l, rb).

(** ** Types *)

(** [if accept(k) { parseTypeList() }] *)
Definition clause (b : bool) : Parse (list Typ) := if b then parseTypeList else mret [].
Definition permits : Parse (list Typ) := t ← acceptCtx CtxPermits; clause (given t).
Definition keyword_clause (k : Z) : Parse (list Typ) := b ← accepted k; clause b.

Definition parseClassDecl (lo : Z) (mods : option Modifiers) : Parse Decl :=
  cp ← expect CLASS; name ← parseTypeIdent; tps ← parseTypeParams;
  e ← accepted EXTENDS; ext ← (if e : bool then t ← parseType; mret (Some t) else mret None);
  impl ← keyword_clause IMPLEMENTS; perm ← permits;
  b ← parseTypeBody (Some name);
  let '(lb, members, rb) := b : Z * list Decl * Z in
  sp ← span_from lo; mret (ClassDecl sp mods cp name tps ext impl perm lb members rb).

Definition parseInterfaceDecl (lo : Z) (mods : option Modifiers) : Parse Decl :=
  ip ← expect INTERFACE; name ← parseTypeIdent; tps ← parseTypeParams;
  ext ← keyword_clause EXTENDS; perm ← permits;
  b ← parseTypeBody None;
  let '(lb, members, rb) := b : Z * list Decl * Z in
  sp ← span_from lo; mret (InterfaceDecl sp mods ip name tps ext perm lb members rb).

Definition parseAnnotationDecl (lo : Z) (mods : option Modifiers) : Parse Decl :=
  a ← expect AT; ip ← expect INTERFACE; name ← parseTypeIdent;
  b ← parseTypeBody None;
  let '(lb, members, rb) := b : Z * list Decl * Z in
  sp ← span_from lo; mret (AnnotationDecl sp mods a ip name lb members rb).

Definition parseRecordComponent : Parse RecordComponent :=
  lo ← pos; anns ← parseAnnotations; t ← parseType; dots ← parseAnnotations; el ← accept ELLIPSIS; name ← parseIdent; sp ← span_from lo;
  mret (mkRecordComponent sp anns t dots (pos_or el) name).

Definition parseRecordDecl (lo : Z) (mods : option Modifiers) : Parse Decl :=
  t ← acceptCtx CtxRecord; name ← parseTypeIdent; tps ← parseTypeParams;
  lp ← expect LPAREN; comps ← listed RPAREN parseRecordComponent; rp ← expect RPAREN;
  impl ← keyword_clause IMPLEMENTS;
  b ← parseTypeBody (Some name);
  let '(lb, members, rb) := b : Z * list Decl * Z in
  sp ← span_from lo; mret (RecordDecl sp mods (pos_or t) name tps lp comps rp impl lb members rb).

Definition parseEnumConstant (enclosing : Ident) : Parse EnumConstant :=
  lo ← pos; anns ← parseAnnotations; name ← parseIdent;
  l ← at_ LPAREN;
  a ← (if l : bool then parenArgs else mret (NoPos, [], NoPos));
  let '(lp, args, rp) := a : Z * list Expr * Z in
  b ← at_ LBRACE;
  body ← (if b : bool then parseTypeBody (Some enclosing) else mret (NoPos, [], NoPos));
  let '(lb, members, rb) := body : Z * list Decl * Z in
  sp ← span_from lo; mret (mkEnumConstant sp anns name lp args rp lb members rb).

(** The members after the semicolon; nothing checks that one consumes a
    token. *)
Definition enum_members (name : Ident) : Parse (list Decl) := many (open_until RBRACE) (rMember (Some name)).

Definition parseEnumDecl (lo : Z) (mods : option Modifiers) : Parse Decl :=
  ep ← expect ENUM; name ← parseTypeIdent; impl ← keyword_clause IMPLEMENTS; lb ← expect LBRACE;
  cs ← listed_trailing COMMA [RBRACE; SEMICOLON] (parseEnumConstant name);
  semi ← accept SEMICOLON;
  members ← (match semi with Some _ => enum_members name | None => mret [] end);
  rb ← expect RBRACE; sp ← span_from lo;
  mret (EnumDecl sp mods ep name impl lb (fst cs) (snd cs) (pos_or semi) members rb).

(** ** Members *)

Definition badDecl (lo : Z) : Parse Decl := sp ← badSpan lo; mret (BadDecl sp).

Definition initializer (lo staticPos : Z) (static : bool) : Parse Decl :=
  b ← parseBlock; sp ← span_from lo; mret (InitializerDecl sp staticPos static b).

(** An annotation element, where [)] is followed by [default] or [;]. *)
Definition element (lo : Z) (mods : option Modifiers) (t : option Typ) (name : Ident) (lp : Z) : Parse (option Decl) :=
  b ← at_ RPAREN;
  if negb b then mret None
  else
    save ← cursor; rp ← next; dims ← parseDims; k ← kind;
    if (k =? DEFAULT) || (k =? SEMICOLON) then
      d ← accept DEFAULT;
      v ← (match d with Some _ => v ← parseElementValue; mret (Some v) | None => mret None end);
      s ← expectSemi; sp ← span_from lo;
      mret (Some (AnnotationElemDecl sp mods t name lp (tPos rp) dims (pos_or d) v s))
    else _ ← seek save; mret None.

Definition method_body : Parse (option Block * Z) :=
  b ← at_ LBRACE; if b : bool then bl ← parseBlock; mret (Some bl, NoPos) else s ← expectSemi; mret (None, s).

Definition parseMethodOrElement (lo : Z) (mods : option Modifiers) (tps : option TypeParams) (anns : list Annotation)
    (voidPos : Z) (result : option Typ) : Parse Decl :=
  name ← parseMethodIdent; lp ← expect LPAREN;
  e ← element lo mods result name lp;
  match e with
  | Some d => mret d
  | None =>
      ps ← parseParamsAfterLparen;
      let '(recv, params, rp) := ps : option ReceiverParam * list Param * Z in
      dims ← parseDims; throws ← keyword_clause THROWS;
      b ← method_body;
      sp ← span_from lo;
      mret (MethodDecl sp mods tps anns voidPos result name lp recv params rp dims throws (fst b) (snd b))
  end.

(** The name of the enclosing type, followed by [k]. *)
Definition atConstructor (enclosing : option Ident) (k : Z) : Parse bool :=
  t ← tok; k1 ← peekKind 1;
  match enclosing with
  | Some id => if (tKind t =? IDENT) && (k1 =? k) then sameName t id else mret false
  | None => mret false
  end.

Definition compactConstructor (lo : Z) (mods : option Modifiers) : Parse Decl :=
  name ← parseIdent; b ← parseBlock; sp ← span_from lo;
  mret (ConstructorDecl sp mods None name true NoPos None [] NoPos [] b).

Definition constructor (lo : Z) (mods : option Modifiers) (tps : option TypeParams) : Parse Decl :=
  name ← parseIdent; lp ← expect LPAREN; ps ← parseParamsAfterLparen;
  let '(recv, params, rp) := ps : option ReceiverParam * list Param * Z in
  throws ← keyword_clause THROWS; b ← parseBlock; sp ← span_from lo;
  mret (ConstructorDecl sp mods tps name false lp recv params rp throws b).

Definition field (lo : Z) (mods : option Modifiers) (t : option Typ) : Parse Decl :=
  names ← parseVarDeclarators; s ← expectSemi; sp ← span_from lo; mret (DVar (mkVarDecl sp mods t names s)).

Definition methodOrField (lo : Z) (mods : option Modifiers) (tps : option TypeParams) : Parse Decl :=
  anns ← parseAnnotations; v ← accept VOID;
  t ← (match v with Some _ => mret None | None => t ← parseType; mret (Some t) end);
  b ← at_ IDENT;
  if negb b then _ ← errorExpected (bs "member name"); _ ← advanceTo [SEMICOLON; RBRACE]; _ ← accept SEMICOLON; badDecl lo
  else
    k1 ← peekKind 1;
    if k1 =? LPAREN then parseMethodOrElement lo mods tps anns (pos_or v) t else field lo mods t.

Definition memberAfterModifiers (enclosing : option Ident) (lo : Z) (mods : option Modifiers) : Parse Decl :=
  k ← kind; k1 ← peekKind 1; r ← atRecordDecl;
  if k =? CLASS then parseClassDecl lo mods
  else if k =? INTERFACE then parseInterfaceDecl lo mods
  else if (k =? AT) && (k1 =? INTERFACE) then parseAnnotationDecl lo mods
  else if k =? ENUM then parseEnumDecl lo mods
  else if r : bool then parseRecordDecl lo mods
  else
    c ← atConstructor enclosing LBRACE;
    if c : bool then compactConstructor lo mods
    else
      tps ← parseTypeParams; c ← atConstructor enclosing LPAREN;
      if c : bool then constructor lo mods tps else methodOrField lo mods tps.

Definition member_body (enclosing : option Ident) : Parse Decl :=
  lo ← pos; s ← accept SEMICOLON;
  match s with
  | Some t => mret (EmptyDecl (tok_span t))
  | None =>
      k ← kind; k1 ← peekKind 1;
      if (k =? STATIC) && (k1 =? LBRACE) then t ← next; initializer lo (tPos t) true
      else if k =? LBRACE then initializer lo NoPos false
      else mods ← parseModifiers; memberAfterModifiers enclosing lo mods
  end.

Definition parseMember (enclosing : option Ident) : Parse Decl :=
  nested (bs "declaration nesting too deep") (_ ← advanceTo [RBRACE]; lo ← pos; badDecl lo) (member_body enclosing).
End Declarations.
