(* ===== verification/ParseUnit.v ===== *)
(** * The parser: compilation units ([parser/unit.go]), and the entry point *)
From S2P Require Import Prelude.
From S2P Require Import Token SourceFile Ast Parser ParseType ParseExpr ParseStmt ParseDecl.
From S2P Require Scanner.

(** ** The knot

    A method reached through [Rec] nests [n] deep at most. *)
Definition stuck {A} : Parse A := fun _ => None.

Fixpoint parsers `{Input} (n : nat) : Rec :=
  match n with
  | O => {|
      rElementValue := stuck; rType := stuck; rTypeArgs := stuck; rPattern := stuck; rExpr := stuck; rConditional := stuck;
      rBinary := fun _ => stuck; rUnary := stuck; rVarInit := stuck; rArrayInit := stuck; rBlock := stuck; rSwitchBlock := stuck;
      rStmt := stuck; rBlockStmt := stuck; rMember := fun _ => stuck; rTypeBody := fun _ => stuck |}
  | S n =>
      let r := parsers n in
      {| rElementValue := parseElementValue; rType := parseType; rTypeArgs := parseTypeArgs; rPattern := tryPattern;
         rExpr := parseExpr; rConditional := parseConditional; rBinary := parseBinary; rUnary := parseUnary;
         rVarInit := parseVarInit; rArrayInit := parseArrayInit; rBlock := parseBlock; rSwitchBlock := parseSwitchBlock;
         rStmt := parseStmt; rBlockStmt := parseBlockStmt; rMember := parseMember; rTypeBody := parseTypeBody |}
  end.

Section Unit.
Context `{Input} `{Rec}.

(** ** Packages and imports *)

Definition package_attempt : Parse (option PackageDecl) :=
  lo ← pos; anns ← parseAnnotations; b ← at_ PACKAGE;
  if negb b then mret None
  else t ← next; name ← parseName; _ ← expectSemi; sp ← span_from lo; mret (Some (mkPackageDecl sp anns (tPos t) name)).

Definition tryPackageDecl : Parse (option PackageDecl) := spec package_attempt.

(** [static], or [module] before an identifier. *)
Definition import_kind : Parse (bool * bool) :=
  s ← at_ STATIC; m ← atCtx CtxModule; k1 ← peekKind 1;
  if s : bool then _ ← next; mret (true, false)
  else if m && (k1 =? IDENT) then _ ← next; mret (false, true)
  else mret (false, false).

(** [. *], and where the star is. *)
Definition on_demand (module : bool) : Parse (bool * Z) :=
  b ← at_ PERIOD; k1 ← peekKind 1;
  if negb module && b && (k1 =? MUL) then _ ← next; t ← next; mret (true, tPos t) else mret (false, NoPos).

Definition parseImportDecl : Parse ImportDecl :=
  ip ← expect IMPORT; k ← import_kind; name ← parseName; d ← on_demand (snd k); _ ← expectSemi; sp ← span_from ip;
  mret (mkImportDecl sp ip (fst k) (snd k) name (fst d) (snd d)).

(** ** Modules *)

Definition requires_modifier : Parse Modifier := t ← next; mret (mkModifier (tok_span t) None (tKind t)).

Definition requires_modifiers : Parse (option Modifiers) :=
  lo ← pos;
  l ← many (s ← at_ STATIC; t ← atCtx CtxTransitive; mret (s || t)) requires_modifier;
  match l with [] => mret None | _ => sp ← span_from lo; mret (Some (mkModifiers sp l)) end.

(** The end of a directive. *)
Definition directive (lo : Z) (kind : Z) (kw : Token) (mods : option Modifiers) (name : Name) (to with_ : list Name) : Parse (option ModuleDirective) :=
  s ← expectSemi; sp ← span_from lo; mret (Some (mkModuleDirective sp kind (tPos kw) mods name to with_ s)).

Definition exports_or_opens (lo : Z) : Parse (option ModuleDirective) :=
  kw ← next; name ← parseName; b ← acceptCtx CtxTo;
  to ← (match b with Some _ => separated COMMA parseName | None => mret [] end);
  directive lo (tCtx kw) kw None name to [].

Definition provides (lo : Z) : Parse (option ModuleDirective) :=
  kw ← next; name ← parseName; b ← acceptCtx CtxWith;
  _ ← (match b with Some _ => mret tt | None => errorExpected (bs "'with'") end);
  w ← separated COMMA parseName;
  directive lo CtxProvides kw None name [] w.

Definition parseModuleDirective : Parse (option ModuleDirective) :=
  lo ← pos; t ← tok;
  if ctx_is CtxRequires t then kw ← next; mods ← requires_modifiers; name ← parseName; directive lo CtxRequires kw mods name [] []
  else if ctx_is CtxExports t || ctx_is CtxOpens t then exports_or_opens lo
  else if ctx_is CtxUses t then kw ← next; name ← parseName; directive lo CtxUses kw None name [] []
  else if ctx_is CtxProvides t then provides lo
  else _ ← errorExpected (bs "module directive"); mret None.

Definition module_round (l : list ModuleDirective) : Parse (list ModuleDirective * bool) :=
  b ← open_until RBRACE;
  if negb b then mret (l, false)
  else
    d ← parseModuleDirective;
    match d with
    | Some d => mret (l ++ [d], true)
    | None => _ ← advanceTo [SEMICOLON; RBRACE]; _ ← accept SEMICOLON; mret (l, true)
    end.

Definition parseModuleDecl : Parse ModuleDecl :=
  lo ← pos; anns ← parseAnnotations; o ← acceptCtx CtxOpen; m ← acceptCtx CtxModule; name ← parseName; lb ← expect LBRACE;
  ds ← loop rounds module_round []; rb ← expect RBRACE; sp ← span_from lo;
  mret (mkModuleDecl sp anns (pos_or o) (pos_or m) name lb ds rb).

(** ** Units *)

Definition parseTopLevelDecl : Parse Decl :=
  s ← accept SEMICOLON;
  match s with Some t => mret (EmptyDecl (tok_span t)) | None => parseMember None end.

Definition hasMethodMember (decls : list Decl) : bool :=
  existsb (fun d => match d with MethodDecl _ _ _ _ _ _ _ _ _ _ _ _ _ _ _ | DVar _ | InitializerDecl _ _ _ _ | ConstructorDecl _ _ _ _ _ _ _ _ _ _ _ => true | _ => false end) decls.

Definition atModule : Parse bool :=
  m ← atCtx CtxModule; o ← atCtx CtxOpen; t ← peek 1; mret (m || (o && (tCtx t =? CtxModule))).

(** The declarations of a unit that is not modular. *)
Definition declarations : Parse (list Decl) := many (b ← atEOF; mret (negb b)) parseTopLevelDecl.

Definition parseCompilationUnit : Parse CompilationUnit :=
  lo ← pos; k ← kind;
  pkg ← (if (k =? AT) || (k =? PACKAGE) then tryPackageDecl else mret None);
  imports ← many (at_ IMPORT) parseImportDecl;
  m ← atModule;
  if m : bool then d ← parseModuleDecl; sp ← span_from lo; mret (mkCompilationUnit sp pkg imports [] (Some d) false)
  else if negb (Z.land mode HeaderOnly =? 0) then sp ← span_from lo; mret (mkCompilationUnit sp pkg imports [] None false)
  else ds ← declarations; sp ← span_from lo; mret (mkCompilationUnit sp pkg imports ds None (hasMethodMember ds)).
End Unit.

(** ** Entry point *)

(** The parse stream; the comments go to a slice of their own. *)
Definition load (m : Z) (l : list Token) : list Token :=
  if Z.land m ParseComments =? 0 then l else filter (fun t => tKind t <> COMMENT) l.

Definition start (ds : list Diagnostic) : parser := mkParser 0 ds false NoPos 0 0.

(** [n] bounds the nesting of calls, and [rounds] the rounds of each loop. *)
Definition parse_tokens (i : Input) (n : nat) (ds : list Diagnostic) : option (CompilationUnit * list Diagnostic) :=
  r ← parseCompilationUnit (H0 := parsers n) (start ds);
  Some (fst r, SortDiagnostics (pdiags (snd r))).

Definition ParseFile (unicode : Scanner.UnicodeTables) (n rounds : nat) (f : SourceFile.File) (m : Z) : option (CompilationUnit * list Diagnostic) :=
  r ← Scanner.Scan unicode f (if Z.land m ParseComments =? 0 then 0 else Scanner.ScanComments);
  parse_tokens {| unit_ := f; mode := m; toks := load m (fst r); rounds := rounds |} n (snd r).
