(* ===== verification/RunExpr.v ===== *)
(** * Totality of the parser: types, patterns and expressions

    [Calls n]: a method reached through [Rec] comes to an end where the nesting
    left is enough for it.  Under that, so do the methods of [ParseType] and
    [ParseExpr], one level up. *)
From S2P Require Import Prelude.
From S2P Require Import Token SourceFile Ast Parser ParserRun ParseType ParseExpr.

(** The enclosing type's name can be compared, or there is nothing to compare. *)
Definition named `{I : Input} (enclosing : option Ident) (s : parser) : Prop :=
  match enclosing with Some id => sliceable id \/ (length toks <= S (pi s))%nat | None => True end.

(** The kind of a token that begins a type. *)
Definition type_kind (k : option Z) : bool := match k with Some k => isPrimitiveKind k || (k =? IDENT) | None => false end.

(** What calls that may be refused promise: a node that says so, a token, or a
    level of nesting lost. *)
Definition is_bad_type `{I : Input} (s : parser) (t : Typ) (s' : parser) : Prop :=
  (isBadType t = true \/ (pi s < pi s')%nat) /\ (type_kind (kind_at (pi s)) = true -> (pi s < pi s')%nat \/ depth s < depth s').
Definition is_bad_expr `{I : Input} (s : parser) (e : Expr) (s' : parser) : Prop :=
  isBadExpr e = true \/ (pi s < pi s')%nat \/ S (pi s) = length toks \/ depth s < depth s' /\ depth s < maxDepth.
Definition loses `{I : Input} {A} (s : parser) (a : A) (s' : parser) : Prop :=
  (pi s < pi s')%nat \/ S (pi s) = length toks \/ depth s < depth s'.
Definition at_brace `{I : Input} {A} (s : parser) (a : A) (s' : parser) : Prop := kind_at (pi s) = Some LBRACE -> (pi s < pi s')%nat.
Definition goes_on `{I : Input} {A} (s : parser) (a : A) (s' : parser) : Prop := moved s s'.

Ltac more_facts ::=
  unfold is_bad_type, is_bad_expr, loses, at_brace, goes_on, named in *;
  repeat match goal with
  | H : _ /\ _ |- _ => destruct H
  | H : isBadType _ = true \/ _ |- _ => destruct H
  | H : isBadExpr _ = true \/ _ |- _ => destruct H
  end.

(** What the methods that close a cycle promise with [n] levels left. *)
Class Calls `{I : Input} (r : Rec) (n : nat) : Prop := {
  #[export] call_element :: Runs (need n 1) rElementValue any;
  #[export] call_type :: Runs (need n 0) rType is_bad_type;
  #[export] call_typeArgs :: Runs (need n 0) rTypeArgs any;
  #[export] call_pattern :: Runs (need n 0) rPattern any;
  #[export] call_expr :: Runs (need n 0) rExpr is_bad_expr;
  #[export] call_conditional :: Runs (need n 0) rConditional is_bad_expr;
  #[export] call_binary p :: Runs (need n 0) (rBinary p) is_bad_expr;
  #[export] call_unary :: Runs (need n 0) rUnary loses;
  #[export] call_varInit :: Runs (need n 1) rVarInit any;
  #[export] call_arrayInit :: Runs (need n 2) rArrayInit any;
  #[export] call_block :: Runs (need n 2) rBlock at_brace;
  #[export] call_switch :: Runs (need n 2) rSwitchBlock any;
  #[export] call_stmt :: Runs (need n 0) rStmt goes_on;
  #[export] call_blockStmt :: Runs (need n 1) rBlockStmt goes_on;
  #[export] call_member enc :: Runs (fun s => need n 0 s /\ named enc s) (rMember enc) goes_on;
  #[export] call_typeBody enc :: Runs (fun s => need n 1 s /\ named enc s) (rTypeBody enc) any }.

Section Types.
Context `{I : Input} `{Htoks : !TokensOk} `{Hrounds : !RoundsOk} `{Himp : !Impatient} {r : Rec} {n : nat} `{Hc : !Calls r n}.

#[export] Instance runs_atAnnotation : Runs always atAnnotation (tests_if (fun s => kind_at (pi s) = Some AT)).
Proof. runs_by atAnnotation. Qed.

#[export] Instance runs_pair : Runs (need n 1) parseElementValuePair any.
Proof. runs_by parseElementValuePair. Qed.

#[export] Instance runs_pairs : Runs (need n 1) parsePairs any.
Proof. runs_by parsePairs. Qed.

#[export] Instance runs_annotation : Runs (need (S n) 0) parseAnnotation (fun s _ s' => kind_at (pi s) = Some AT -> pi s < pi s')%nat.
Proof. runs_by parseAnnotation. Qed.

#[export] Instance runs_annotations : Runs (need (S n) 0) parseAnnotations any.
Proof.
  apply (runs_many (fun s => kind_at (pi s) = Some AT)); [exact _|exact _|intros; cursor|]. intros s Hs [Hp Hk].
  eapply wp_mono; [apply runs_annotation; assumption|]. cbn beta. intros a s' [H1 H2]. split; [exact H1|left; auto].
Qed.
#[export] Instance runs_parseElementValue : Runs (need (S n) 1) parseElementValue any.
Proof. runs_by parseElementValue. Qed.

(** ** Modifiers *)

#[export] Instance runs_modifier : Runs (need (S n) 0) modifier (fun s o s' => match o with Some _ => (pi s < pi s')%nat | None => pi s' = pi s end).
Proof. runs_by modifier. Qed.

#[export] Instance runs_parseModifiers : Runs (need (S n) 0) parseModifiers any.
Proof.
  runs_by parseModifiers. looping (need (S n) 0); wp_go; cbn [snd]; cursor.
Qed.

(** ** Types *)

#[export] Instance runs_parseDims : Runs (need (S n) 0) parseDims any.
Proof. apply runs_loop; [exact _|]. intros l s Hs Hp. unfold dim. wp_go; cbn [snd]; cursor. Qed.

#[export] Instance runs_tryTypeArgs : Runs (need n 0) tryTypeArgs any.
Proof. runs_by tryTypeArgs. Qed.

#[export] Instance runs_namedType lo anns :
  Runs (fun s => need (S n) 0 s /\ kind_at (pi s) = Some IDENT) (parseNamedType lo anns) (fun s _ s' => pi s < pi s')%nat.
Proof.
  intros s Hs [Hp Hk]. unfold parseNamedType. wp_go. looping (need (S n) 0).
  - unfold qualified. wp_go; cbn [snd]; cursor.
  - wp_go; cursor.
Qed.

#[export] Instance runs_badType lo : Runs always (badType lo) (fun s t s' => s' = s /\ isBadType t = true).
Proof. runs_by badType. Qed.

#[export] Instance runs_primitiveType lo anns : Runs always (parsePrimitiveType lo anns) (fun s _ s' => steps s s').
Proof. runs_by parsePrimitiveType. Qed.

Lemma type_start s k : kind_at (pi s) = Some k -> isPrimitiveKind k = false -> k <> IDENT -> type_kind (kind_at (pi s)) = true -> False.
Proof. intros -> Hk Hi. cbn. rewrite Hk. apply Z.eqb_neq in Hi. rewrite Hi. discriminate. Qed.

#[export] Instance runs_typeWithAnnotations lo anns : Runs (need (S n) 0) (parseTypeWithAnnotations lo anns)
  (fun s t s' => (isBadType t = true \/ (pi s < pi s')%nat) /\ (type_kind (kind_at (pi s)) = true -> (pi s < pi s')%nat)).
Proof.
  runs_by parseTypeWithAnnotations. cursor. exfalso. eapply type_start; eassumption.
Qed.

#[export] Instance runs_parseType : Runs (need (S n) 0) parseType is_bad_type.
Proof.
  intros s Hs Hp. unfold parseType, nested. wp_go; cursor.
  destruct (decide (pi s = pi s')) as [E|E]; [rewrite <- E in *; same_cursor|]; lia.
Qed.

#[export] Instance runs_typeArg : Runs (need (S n) 0) parseTypeArg any.
Proof. runs_by parseTypeArg. unfold parseWildcard. wp_go; cursor. Qed.

#[export] Instance runs_typeArgList : Runs (need (S n) 0) typeArgList any.
Proof. apply runs_loop; [exact _|]. intros l s Hs Hp. wp_go; cbn [snd]; cursor. Qed.

#[export] Instance runs_parseTypeArgs : Runs (need (S n) 0) parseTypeArgs (fun s _ s' => kind_at (pi s) = Some LSS -> pi s < pi s')%nat.
Proof. runs_by parseTypeArgs. Qed.

(** ** Type parameters *)

#[export] Instance runs_typeParam : Runs (need (S n) 0) parseTypeParam any.
Proof. runs_by parseTypeParam. Qed.

#[export] Instance runs_typeParams : Runs (need (S n) 0) parseTypeParams any.
Proof. runs_by parseTypeParams. Qed.

#[export] Instance runs_typeList : Runs (need (S n) 0) parseTypeList any.
Proof. intros s Hs Hp. eapply wp_mono; [apply (runs_separated COMMA (need (S n) 0) parseType is_bad_type); auto; exact _|]. cbn beta. intros l s' [H1 _]. split; [exact H1|exact Logic.I]. Qed.

(** ** Patterns *)

#[export] Instance runs_component : Runs (need n 0) parseComponentPattern any.
Proof. runs_by parseComponentPattern. Qed.

#[export] Instance runs_components : Runs (need n 0) componentPatterns any.
Proof. apply runs_loop; [exact _|]. intros l s Hs Hp. wp_go; cbn [snd]; cursor. Qed.

#[export] Instance runs_recordPattern lo t : Runs (fun s => need (S n) 0 s /\ kind_at (pi s) = Some LPAREN) (recordPattern lo t) any.
Proof. intros s Hs [Hp Hk]. unfold recordPattern. wp_go; cursor. Qed.

#[export] Instance runs_tryPattern : Runs (need (S n) 0) tryPattern attempts.
Proof. apply runs_attempt. runs_by pattern_attempt. Qed.
End Types.

Section Expressions.
Context `{I : Input} `{Htoks : !TokensOk} `{Hrounds : !RoundsOk} `{Himp : !Impatient} {r : Rec} {n : nat} `{Hc : !Calls r n}.

#[export] Instance runs_badExpr lo : Runs always (badExpr lo) (fun s e s' => s' = s /\ isBadExpr e = true).
Proof. runs_by badExpr. Qed.

#[export] Instance runs_parseArgs : Runs (need n 0) parseArgs any.
Proof. unfold parseArgs. exact _. Qed.

#[export] Instance runs_parenArgs : Runs (need n 0) parenArgs any.
Proof. runs_by parenArgs. Qed.

(** ** Lambdas *)

#[export] Instance runs_lambdaBody : Runs (need n 2) parseLambdaBody any.
Proof. runs_by parseLambdaBody. Qed.

#[export] Instance runs_ident_or_underscore :
  Runs always ident_or_underscore (tests_if (fun s => kind_at (pi s) = Some IDENT \/ kind_at (pi s) = Some UNDERSCORE)).
Proof. runs_by ident_or_underscore. Qed.

#[export] Instance runs_lambda_type : Runs (need (S n) 0) lambda_type any.
Proof. runs_by lambda_type. Qed.

#[export] Instance runs_lambdaParam : Runs (need (S n) 0) tryLambdaParam any.
Proof. runs_by tryLambdaParam. Qed.

#[export] Instance runs_lambdaParams : Runs (need (S n) 0) lambdaParams any.
Proof. apply runs_loop; [exact _|]. intros l s Hs Hp. wp_go; cbn [snd]; cursor. Qed.

Lemma runs_paren_lambda : Runs (fun s => need (S n) 0 s /\ kind_at (pi s) = Some LPAREN) paren_lambda tries.
Proof. intros s Hs [Hp Hk]. unfold paren_lambda. wp_go; cursor. Qed.

#[export] Instance runs_tryLambda : Runs (need (S n) 0) tryLambda attempts.
Proof.
  intros s Hs Hp. unfold tryLambda. wp_go; try solve [cursor].
  eapply wp_call; [apply runs_attempt, runs_paren_lambda|exact Hs|precondition|]. intros e s' Hu Hv; cursor.
Qed.

(** ** Object and array creation *)

#[export] Instance runs_toInstantiate : Runs (need n 0) parseNamedTypeToInstantiate any.
Proof. runs_by parseNamedTypeToInstantiate. looping (need n 0); wp_go; cbn [snd]; cursor. Qed.

#[export] Instance runs_dimExpr l : Runs (need (S n) 0) (dimExpr l) (fun s r s' => snd r = true -> (S (pi s) < length toks)%nat /\ moved s s').
Proof. intros s Hs Hp. unfold dimExpr. wp_go; cbn [snd]; cursor. Qed.

#[export] Instance runs_newArray lo np elt : Runs (need n 2) (newArray lo np elt) any.
Proof. runs_by newArray. looping (need (S n) 0); [apply runs_dimExpr; cursor|]. wp_go; cursor. Qed.

#[export] Instance runs_newObject lo np ta elt outer : Runs (need n 1) (newObject lo np ta elt outer) any.
Proof. runs_by newObject. Qed.

#[export] Instance runs_newExpr lo outer : Runs (fun s => need (S n) 0 s /\ kind_at (pi s) = Some NEW) (parseNewExpr lo outer) (fun s _ s' => pi s < pi s')%nat.
Proof. intros s Hs [Hp Hk]. unfold parseNewExpr. wp_go; cursor. Qed.

(** ** Primaries *)

#[export] Instance runs_call lo x ta fn : Runs (need n 0) (call lo x ta fn) any.
Proof. runs_by call. Qed.

#[export] Instance runs_select lo x dot sel : Runs always (select lo x dot sel) any.
Proof. runs_by select. Qed.

#[export] Instance runs_selector lo x : Runs (fun s => need (S n) 0 s /\ kind_at (pi s) = Some PERIOD) (parseSelector lo x) (fun s _ s' => pi s < pi s')%nat.
Proof. intros s Hs [Hp Hk]. unfold parseSelector. wp_go; cursor. Qed.

#[export] Instance runs_any_name : Runs always any_name any.
Proof. runs_by any_name. Qed.

#[export] Instance runs_only_ident : Runs always only_ident any.
Proof. runs_by only_ident. Qed.

#[export] Instance runs_methodRef lo x name : Runs always name any ->
  Runs (fun s => need (S n) 0 s /\ kind_at (pi s) = Some COLONCOLON) (methodRef lo x name) (fun s _ s' => pi s < pi s')%nat.
Proof. intros Hname s Hs [Hp Hk]. unfold methodRef. wp_go; cursor. Qed.

#[export] Instance runs_classLit lo t vp : Runs always (classLit lo t vp) any.
Proof. runs_by classLit. Qed.

#[export] Instance runs_typed_primary lo : Runs (need (S n) 0) (spec (typed_primary lo)) attempts.
Proof. apply runs_attempt. runs_by typed_primary. Qed.

#[export] Instance runs_name_no_call : Runs always parseNameStoppingBeforeCall (fun s _ s' => kind_at (pi s) = Some IDENT -> pi s < pi s')%nat.
Proof. apply runs_nameWhile. runs_by period_ident_no_call. Qed.

#[export] Instance runs_nameOrCall lo : Runs (fun s => need (S n) 0 s /\ kind_at (pi s) = Some IDENT) (parseNameOrCall lo) (fun s _ s' => pi s < pi s')%nat.
Proof. intros s Hs [Hp Hk]. unfold parseNameOrCall. wp_go; cursor. Qed.

#[export] Instance runs_primitive_primary lo :
  Runs (fun s => need (S n) 0 s /\ exists k, kind_at (pi s) = Some k /\ isPrimitiveKind k = true) (primitive_primary lo) loses.
Proof.
  intros s Hs (Hp & k & Hk & Hi). unfold primitive_primary. wp_step. wp_step.
  match goal with H : is_bad_type _ _ _ |- _ => destruct H as [_ H]; rewrite Hk in H; cbn in H; rewrite Hi in H; specialize (H eq_refl) end.
  wp_go; cursor.
Qed.

#[export] Instance runs_parenExpr lo : Runs (fun s => need (S n) 0 s /\ kind_at (pi s) = Some LPAREN) (parenExpr lo) (fun s _ s' => pi s < pi s')%nat.
Proof. intros s Hs [Hp Hk]. unfold parenExpr. wp_go; cursor. Qed.

#[export] Instance runs_primary : Runs (need (S n) 0) parsePrimary loses.
Proof.
  intros s Hs Hp. unfold parsePrimary. wp_go; try solve [cursor].
  eapply wp_call; [apply runs_primitive_primary|exact Hs|split; [exact Hp|eauto]|]. cursor.
Qed.

#[export] Instance runs_postfix_round lo x : Runs (need (S n) 0) (postfix_round lo x) (fun s r s' => snd r = true -> (S (pi s) < length toks)%nat /\ moved s s').
Proof. intros s Hs Hp. unfold postfix_round. wp_go; cbn [snd]; cursor. Qed.

#[export] Instance runs_postfix : Runs (need (S n) 0) parsePostfix loses.
Proof. runs_by parsePostfix. looping (need (S n) 0); [apply runs_postfix_round; cursor|cursor]. Qed.

(** ** Unary expressions and casts *)

#[export] Instance runs_unary lo k : Runs (fun s => need (S n) 0 s /\ (S (pi s) < length toks)%nat) (unary lo k) (fun s _ s' => pi s < pi s')%nat.
Proof. intros s Hs [Hp Hk]. unfold unary. wp_go; cursor. Qed.

#[export] Instance runs_notPlusMinus : Runs (need n 0) parseUnaryNotPlusMinus any.
Proof. runs_by parseUnaryNotPlusMinus. Qed.

#[export] Instance runs_startsCast p : Runs always (startsCastOperand p) reads.
Proof. runs_by startsCastOperand. Qed.

#[export] Instance runs_bounds : Runs (need n 0) additional_bounds any.
Proof. apply runs_loop; [exact _|]. intros l s Hs Hp. wp_go; cbn [snd]; cursor. Qed.

#[export] Instance runs_operand p : Runs (need n 0) (cast_operand p) any.
Proof. runs_by cast_operand. Qed.

#[export] Instance runs_tryCast : Runs (fun s => need (S n) 0 s /\ kind_at (pi s) = Some LPAREN) tryCast attempts.
Proof. apply runs_attempt. intros s Hs [Hp Hk]. unfold cast_attempt. wp_go; cursor. Qed.

#[export] Instance runs_switch_head : Runs (fun s => need (S n) 0 s /\ S (pi s) < length toks)%nat switch_head (fun s _ s' => pi s < pi s')%nat.
Proof. intros s Hs [Hp Hk]. unfold switch_head. wp_go; cursor. Qed.

#[export] Instance runs_parseUnary : Runs (need (S n) 0) parseUnary loses.
Proof. runs_by parseUnary. unfold switchExpr. wp_go; cursor. Qed.

(** ** Operators *)

Lemma plain_fits i t : toks !! i = Some t -> tKind t <> EOF -> (S i < length toks)%nat.
Proof. intros Ht Hk. apply (kind_not_last i (tKind t)); [unfold kind_at; rewrite Ht; reflexivity|exact Hk]. Qed.

(** A joined operator ends before EOF. *)
Lemma join_fits i k m : Join (drop i toks) = (k, m) -> m = 0 \/ 0 < m /\ (i + Z.to_nat m < length toks)%nat.
Proof.
  pose proof (lookup_drop toks i 0) as E0. pose proof (lookup_drop toks i 1) as E1. pose proof (lookup_drop toks i 2) as E2.
  unfold Join. destruct (drop i toks) as [|t0 [|t1 rest]] eqn:Ed; try (intros [= <- <-]; auto).
  cbn in E1. symmetry in E1. intros HJ.
  assert (H1 : tKind t1 <> EOF -> (i + 2 < length toks)%nat) by (intros Hk; pose proof (plain_fits _ _ E1 Hk); lia).
  destruct (negb _ || _); [injection HJ as <- <-; auto|]. destruct (Z.eqb_spec (tKind t1) GEQ) as [Hg|_].
  { injection HJ as <- <-. right. split; [lia|]. change (Z.to_nat 2) with 2%nat. apply H1. rewrite Hg. discriminate. }
  destruct (Z.eqb_spec (tKind t1) GTR) as [Hg|_]; [|injection HJ as <- <-; auto].
  assert (H2 : (i + 2 < length toks)%nat) by (apply H1; rewrite Hg; discriminate).
  destruct rest as [|t2 rest]; [injection HJ as <- <-; right; split; [lia|exact H2]|]. cbn in E2. symmetry in E2.
  assert (H3 : tKind t2 <> EOF -> (i + 3 < length toks)%nat) by (intros Hk; pose proof (plain_fits _ _ E2 Hk); lia).
  destruct (Adjacent t2); [|injection HJ as <- <-; right; split; [lia|exact H2]].
  destruct (Z.eqb_spec (tKind t2) GEQ) as [Hh|_]; [injection HJ as <- <-; right; split; [lia|]; change (Z.to_nat 3) with 3%nat; apply H3; rewrite Hh; discriminate|].
  destruct (Z.eqb_spec (tKind t2) GTR) as [Hh|_]; injection HJ as <- <-; right; (split; [lia|]); [|exact H2].
  change (Z.to_nat 3) with 3%nat; apply H3; rewrite Hh; discriminate.
Qed.

(** The tokens of an operator that is there. *)
Definition operator (s : parser) (o : Z * Z * Z) (s' : parser) : Prop :=
  s' = s /\ (snd o = 0 \/ 0 < snd o /\ (pi s + Z.to_nat (snd o) < length toks)%nat).

#[export] Instance runs_ahead : Runs always ahead (fun s l s' => s' = s /\ l = drop (pi s) toks).
Proof. runs_by ahead. Qed.

Lemma plain_op s k e : kind_at (pi s) = Some k -> let o := if Precedence k =? LowestPrec then (ILLEGAL, NoPos, 0) else (k, e, 1) in
  snd o = 0 \/ 0 < snd o /\ (pi s + Z.to_nat (snd o) < length toks)%nat.
Proof.
  intros Hk. cbn. destruct (Precedence k =? LowestPrec) eqn:E; [left; reflexivity|]. right. split; [cbn; lia|]. cbn [snd]. change (Z.to_nat 1) with 1%nat.
  rewrite Nat.add_1_r. eapply kind_not_last; [exact Hk|]. intros ->. discriminate E.
Qed.

#[export] Instance runs_binaryOp : Runs always binaryOp operator.
Proof.
  intros s Hs Hp. unfold binaryOp, operator. wp_go; cbn [fst snd]; (split; [cursor|]); (split; [cursor|]); try (left; reflexivity); subst;
    try match goal with H : Join _ = _ |- _ => destruct (join_fits _ _ _ H); [left|right]; assumption end.
  all: eapply plain_op; eassumption.
Qed.

#[export] Instance runs_assignOp : Runs always assignOp operator.
Proof.
  intros s Hs Hp. unfold assignOp, operator. wp_go; cbn [fst snd]; (split; [cursor|]); (split; [cursor|]); try (left; reflexivity); subst;
    try match goal with H : Join _ = _ |- _ => destruct (join_fits _ _ _ H); [left|right]; assumption end.
  right. split; [lia|]. change (Z.to_nat 1) with 1%nat. rewrite Nat.add_1_r. cursor.
Qed.

Lemma wp_skip m s Q : wp (skip m) s Q <-> Q tt (set_pi (pi s + Z.to_nat m) s).
Proof. reflexivity. Qed.

(** ** Binary expressions *)

#[export] Instance runs_instanceOf lo x : Runs (fun s => need (S n) 0 s /\ kind_at (pi s) = Some INSTANCEOF) (instanceOf lo x) (fun s _ s' => pi s < pi s')%nat.
Proof. intros s Hs [Hp Hk]. unfold instanceOf. wp_go; cursor. Qed.

#[export] Instance runs_binary_round lo p x : Runs (need (S n) 0) (binary_round lo p x) (fun s r s' => snd r = true -> (S (pi s) < length toks)%nat /\ moved s s').
Proof.
  intros s Hs Hp. unfold binary_round. wp_go; cbn [snd]; try solve [cursor]. apply wp_skip.
  match goal with H : operator _ _ _ |- _ => destruct H as [-> Hop]; cbn [snd] in Hop end.
  wp_go; cbn [snd]; cursor.
Qed.

#[export] Instance runs_parseBinary p : Runs (need (S n) 0) (parseBinary p) is_bad_expr.
Proof.
  intros s Hs Hp. unfold parseBinary, nested, too_deep. wp_go; try solve [cursor]. looping (need (S n) 0); [apply runs_binary_round; cursor|]. wp_go; cursor.
Qed.

(** ** Conditionals and assignments *)

#[export] Instance runs_else : Runs (need n 0) else_branch any.
Proof. runs_by else_branch. Qed.

#[export] Instance runs_parseConditional : Runs (need (S n) 0) parseConditional is_bad_expr.
Proof. runs_by parseConditional. Qed.

#[export] Instance runs_parseAssign : Runs (need (S n) 0) parseAssign is_bad_expr.
Proof.
  runs_by parseAssign. apply wp_skip. match goal with H : operator _ _ _ |- _ => destruct H as [-> Hop]; cbn [snd] in Hop end.
  wp_go; cursor.
Qed.

#[export] Instance runs_parseExpr : Runs (need (S n) 0) parseExpr is_bad_expr.
Proof. intros s Hs Hp. unfold parseExpr, nested, too_deep. wp_go; cursor. Qed.
End Expressions.
