(* ===== verification/RunDecl.v ===== *)
(** * Totality of the parser: statements and declarations *)
From S2P Require Import Prelude.
From S2P Require Import Token SourceFile Ast Parser ParserRun ParseType ParseExpr ParseStmt ParseDecl RunExpr.

(** A keyword that begins a statement, and that it is taken. *)
Definition keyword `{I : Input} (n : nat) (s : parser) : Prop := need n 0 s /\ (S (pi s) < length toks)%nat.
Definition advances `{I : Input} {A} (s : parser) (a : A) (s' : parser) : Prop := (pi s < pi s')%nat.

Ltac more_facts ::=
  unfold is_bad_type, is_bad_expr, loses, at_brace, goes_on, named, keyword, advances in *;
  repeat match goal with
  | H : _ /\ _ |- _ => destruct H
  | H : isBadType _ = true \/ _ |- _ => destruct H
  | H : isBadExpr _ = true \/ _ |- _ => destruct H
  end.

Section Statements.
Context `{I : Input} `{Htoks : !TokensOk} `{Hrounds : !RoundsOk} `{Himp : !Impatient} {r : Rec} {n : nat} `{Hc : !Calls r n}.

(** ** Declarators *)

(** Room for what a brace opens, or the brace itself. *)
Definition braced (n : nat) (s : parser) : Prop := need n 2 s \/ need n 0 s /\ kind_at (pi s) = Some LBRACE.

#[export] Instance runs_parseArrayInit : Runs (braced (S n)) parseArrayInit at_brace.
Proof. intros s Hs [Hp|[Hp Hk]]; unfold parseArrayInit; wp_go; cursor. Qed.

#[export] Instance runs_parseVarInit : Runs (need (S n) 1) parseVarInit any.
Proof. unfold braced. runs_by parseVarInit. Qed.

Definition at_name (s : parser) : Prop := kind_at (pi s) = Some IDENT \/ kind_at (pi s) = Some UNDERSCORE.

#[export] Instance runs_declarator : Runs (need (S n) 0) declarator (fun s _ s' => at_name s -> pi s < pi s')%nat.
Proof. unfold at_name. runs_by declarator. Qed.

#[export] Instance runs_declarators : Runs (need (S n) 0) parseVarDeclarators (fun s _ s' => at_name s -> pi s < pi s')%nat.
Proof.
  intros s Hs Hp. eapply wp_mono; [apply (runs_separated COMMA (need (S n) 0) declarator); try exact _; assumption|]. cbn beta.
  intros l s' (H1 & v & s1 & H2 & H3). split; [exact H1|]. intros Hn. specialize (H2 Hn). unfold after in *. lia.
Qed.

(** ** Local variables *)

#[export] Instance runs_local_type : Runs (need (S n) 0) local_type any.
Proof. runs_by local_type. Qed.

#[export] Instance runs_tryLocalVarDecl semi : Runs (need (S n) 0) (tryLocalVarDecl semi) attempts.
Proof. apply runs_attempt. runs_by local_attempt. Qed.

#[export] Instance runs_atRecordDecl : Runs always atRecordDecl (tests_if at_word).
Proof. runs_by atRecordDecl. Qed.

#[export] Instance runs_atLocalTypeDecl : Runs (need (S n) 0) atLocalTypeDecl (fun s _ s' => pi s' = pi s).
Proof.
  runs_by atLocalTypeDecl. looping (need (S n) 0).
  - unfold skip_modifier. wp_go; cbn [snd]; cursor.
  - unfold atTypeKeyword. wp_go; cursor.
Qed.

(** ** Blocks *)

#[export] Instance runs_recover before follow semi :
  Runs (fun s => before <= pi s)%nat (recover_from before follow semi) (fun s _ s' => before < pi s' \/ moved s s')%nat.
Proof. runs_by recover_from. Qed.

#[export] Instance runs_block_round l : Runs (need n 1) (block_round l) (fun s r s' => snd r = true -> (S (pi s) < length toks)%nat /\ moved s s').
Proof. runs_by block_round. Qed.

#[export] Instance runs_parseBlock : Runs (braced (S n)) parseBlock at_brace.
Proof.
  intros s Hs [Hp|[Hp Hk]]; unfold parseBlock; wp_go; (looping (need n 1); [apply runs_block_round; cursor|]); wp_go; cursor.
Qed.

(** ** Switch blocks *)

#[export] Instance runs_null_label lo kw : Runs always (null_label lo kw) any.
Proof. runs_by null_label. Qed.

#[export] Instance runs_case_element : Runs (need n 0) case_element any.
Proof. runs_by case_element. Qed.

#[export] Instance runs_case_label lo kw : Runs (need n 0) (case_label lo kw) any.
Proof. runs_by case_label. Qed.

#[export] Instance runs_switchLabel : Runs (need n 0) parseSwitchLabel (fun s _ s' => kind_at (pi s) = Some CASE \/ kind_at (pi s) = Some DEFAULT -> pi s < pi s')%nat.
Proof. runs_by parseSwitchLabel. Qed.

#[export] Instance runs_rule_body : Runs (need n 0) rule_body any.
Proof. unfold braced. runs_by rule_body. Qed.

#[export] Instance runs_at_label : Runs always at_label (tests_if (fun s => kind_at (pi s) = Some CASE \/ kind_at (pi s) = Some DEFAULT)).
Proof. runs_by at_label. Qed.

#[export] Instance runs_more_labels : Runs (need n 0) more_labels any.
Proof.
  apply (runs_many (fun s => kind_at (pi s) = Some CASE \/ kind_at (pi s) = Some DEFAULT)); [exact _|exact _|intros s Hs [H|H]; cursor|].
  intros s Hs [Hp Hk]. wp_go; cursor.
Qed.

#[export] Instance runs_group_statements : Runs (need n 1) group_statements any.
Proof.
  apply (runs_many (fun s => S (pi s) < length toks)%nat); [exact _| |auto|].
  - runs_by in_group.
  - intros s Hs [Hp Hk]. eapply wp_mono; [apply call_blockStmt; [exact Hs|exact Hp]|]. auto.
Qed.

#[export] Instance runs_switch_element st : Runs (need n 1) (switch_element st) any.
Proof. runs_by switch_element. unfold switch_group. wp_go; cursor. Qed.

#[export] Instance runs_parseSwitchBlock : Runs (need (S n) 2) parseSwitchBlock any.
Proof. runs_by parseSwitchBlock. looping (need n 1); [unfold switch_round; wp_go; cbn [snd]; cursor|]. wp_go; cursor. Qed.
(** ** Statements *)

#[export] Instance runs_paren_condition : Runs (need n 0) paren_condition any.
Proof. runs_by paren_condition. Qed.

#[export] Instance runs_ifStmt lo : Runs (keyword (S n)) (ifStmt lo) advances.
Proof. runs_by ifStmt. Qed.

#[export] Instance runs_whileStmt lo : Runs (keyword (S n)) (whileStmt lo) advances.
Proof. runs_by whileStmt. Qed.

#[export] Instance runs_doStmt lo : Runs (keyword (S n)) (doStmt lo) advances.
Proof. runs_by doStmt. Qed.

#[export] Instance runs_switchStmt lo : Runs (keyword (S n)) (switchStmt lo) advances.
Proof. runs_by switchStmt. Qed.

#[export] Instance runs_returnStmt lo : Runs (keyword (S n)) (returnStmt lo) advances.
Proof. runs_by returnStmt. Qed.

#[export] Instance runs_keyword_expr lo make : Runs (keyword (S n)) (keyword_expr lo make) advances.
Proof. runs_by keyword_expr. Qed.

#[export] Instance runs_keyword_label lo make : Runs (keyword (S n)) (keyword_label lo make) advances.
Proof. runs_by keyword_label. Qed.

#[export] Instance runs_syncStmt lo : Runs (keyword (S n)) (syncStmt lo) advances.
Proof. runs_by syncStmt. Qed.

#[export] Instance runs_assertStmt lo : Runs (keyword (S n)) (assertStmt lo) advances.
Proof. runs_by assertStmt. Qed.

(** ** Loops over what is declared *)

#[export] Instance runs_range_attempt : Runs (need (S n) 0) (spec range_attempt) attempts.
Proof. apply runs_attempt. runs_by range_attempt. destruct a0; cursor. Qed.

#[export] Instance runs_init_expr : Runs (need n 0) init_expr any.
Proof. runs_by init_expr. Qed.

#[export] Instance runs_for_init : Runs (need n 0) for_init any.
Proof. runs_by for_init. Qed.

#[export] Instance runs_basicFor lo fp : Runs (need n 0) (basicFor lo fp) any.
Proof. runs_by basicFor. Qed.

#[export] Instance runs_parseForStmt : Runs (fun s => need (S n) 0 s /\ kind_at (pi s) = Some FOR) parseForStmt advances.
Proof. intros s Hs [Hp Hk]. unfold parseForStmt. wp_go; cursor. Qed.

(** ** Try *)

#[export] Instance runs_parseResource : Runs (need n 0) parseResource any.
Proof. runs_by parseResource. Qed.

#[export] Instance runs_parseCatchClause : Runs (fun s => need n 0 s /\ kind_at (pi s) = Some CATCH) parseCatchClause advances.
Proof. intros s Hs [Hp Hk]. unfold parseCatchClause. wp_go; cursor. Qed.

#[export] Instance runs_resources : Runs (need n 0) resources any.
Proof. runs_by resources. Qed.

#[export] Instance runs_catches : Runs (need n 0) (many (at_ CATCH) parseCatchClause) any.
Proof.
  apply (runs_many (fun s => kind_at (pi s) = Some CATCH)); [exact _|runs_by at_|intros; cursor|]. intros s Hs [Hp Hk].
  eapply wp_mono; [apply runs_parseCatchClause; auto|]. cbn beta. intros a s' [Hu Hv]. split; [exact Hu|left; exact Hv].
Qed.

#[export] Instance runs_parseTryStmt : Runs (fun s => need (S n) 0 s /\ kind_at (pi s) = Some TRY) parseTryStmt advances.
Proof. intros s Hs [Hp Hk]. unfold parseTryStmt. wp_go; cursor. Qed.

(** ** What no keyword introduces *)

#[export] Instance runs_constructor_call : Runs (need (S n) 0) tryConstructorCall attempts.
Proof.
  apply runs_attempt. runs_by constructor_attempt.
Qed.

#[export] Instance runs_badStmt lo : Runs always (badStmt lo) (fun s _ s' => s' = s).
Proof. runs_by badStmt. Qed.

#[export] Instance runs_exprStmt lo : Runs (need (S n) 0) (exprStmt lo) goes_on.
Proof. runs_by exprStmt. Qed.

#[export] Instance runs_otherStmt lo : Runs (need (S n) 0) (otherStmt lo) goes_on.
Proof. runs_by otherStmt. Qed.

#[export] Instance runs_stmt_body : Runs (need (S n) 0) stmt_body goes_on.
Proof. unfold braced. runs_by stmt_body. Qed.

#[export] Instance runs_parseStmt : Runs (need (S n) 0) parseStmt goes_on.
Proof. intros s Hs Hp. unfold parseStmt, nested. wp_go; cursor. Qed.

(** ** Block statements *)

#[export] Instance runs_parseBlockStmt : Runs (need (S n) 1) parseBlockStmt goes_on.
Proof. runs_by parseBlockStmt. Qed.
End Statements.

Ltac more_facts ::=
  unfold is_bad_type, is_bad_expr, loses, at_brace, goes_on, named, keyword, advances, at_name in *;
  repeat match goal with
  | H : _ /\ _ |- _ => destruct H
  | H : isBadType _ = true \/ _ |- _ => destruct H
  | H : isBadExpr _ = true \/ _ |- _ => destruct H
  | H : sliceable _ \/ _ |- _ => destruct H
  end.

Section Declarations.
Context `{I : Input} `{Htoks : !TokensOk} `{Hrounds : !RoundsOk} `{Himp : !Impatient} {r : Rec} {n : nat} `{Hc : !Calls r n}.

#[export] Instance named_lasting enc : Lasting (named enc).
Proof. intros s s'. destruct enc as [id|]; cbn; [|auto]. intros [H|H] Hl; [left; exact H|right; lia]. Qed.

(** ** Parameters *)

#[export] Instance runs_tryReceiverParam : Runs (need (S n) 0) tryReceiverParam attempts.
Proof. apply runs_attempt. runs_by receiver_attempt. Qed.

#[export] Instance runs_parseFormalParam : Runs (need (S n) 0) parseFormalParam any.
Proof. runs_by parseFormalParam. Qed.

#[export] Instance runs_paramsAfterLparen : Runs (need (S n) 0) parseParamsAfterLparen any.
Proof. runs_by parseParamsAfterLparen. Qed.

(** ** Bodies *)

#[export] Instance runs_member_round enc l :
  Runs (fun s => need n 0 s /\ named enc s) (member_round enc l) (fun s r s' => snd r = true -> (S (pi s) < length toks)%nat /\ moved s s').
Proof. intros s Hs [Hp Hn]. unfold member_round. destruct enc as [id|]; cbn [named] in Hn; wp_go; cbn [snd]; cursor. Qed.

#[export] Instance runs_parseTypeBody enc : Runs (fun s => need (S n) 1 s /\ named enc s) (parseTypeBody enc) any.
Proof.
  intros s Hs [Hp Hn]. unfold parseTypeBody. destruct enc as [id|]; cbn [named] in Hn; wp_go; try solve [cursor].
  - looping (fun s => need n 0 s /\ named (Some id) s); [apply runs_member_round; cursor|]. wp_go. cursor.
  - looping (fun s => need n 0 s /\ named None s); [apply runs_member_round; cursor|]. wp_go. cursor.
Qed.

(** ** Types *)

#[export] Instance runs_clause b : Runs (need (S n) 0) (clause b) any.
Proof. runs_by clause. Qed.

#[export] Instance runs_permits : Runs (need (S n) 0) permits any.
Proof. runs_by permits. Qed.

#[export] Instance runs_keyword_clause k : Plain k -> Runs (need (S n) 0) (keyword_clause k) any.
Proof. intros Hk. runs_by keyword_clause. Qed.

#[export] Instance runs_parseClassDecl lo mods : Runs (fun s => need (S n) 0 s /\ kind_at (pi s) = Some CLASS) (parseClassDecl lo mods) advances.
Proof. intros s Hs [Hp Hk]. unfold parseClassDecl. wp_go; cursor. Qed.

#[export] Instance runs_parseInterfaceDecl lo mods : Runs (fun s => need (S n) 0 s /\ kind_at (pi s) = Some INTERFACE) (parseInterfaceDecl lo mods) advances.
Proof. intros s Hs [Hp Hk]. unfold parseInterfaceDecl. wp_go; cursor. Qed.

#[export] Instance runs_parseAnnotationDecl lo mods : Runs (fun s => need (S n) 0 s /\ kind_at (pi s) = Some AT) (parseAnnotationDecl lo mods) advances.
Proof. intros s Hs [Hp Hk]. unfold parseAnnotationDecl. wp_go; cursor. Qed.

#[export] Instance runs_parseRecordComponent : Runs (need (S n) 0) parseRecordComponent any.
Proof. runs_by parseRecordComponent. Qed.

(** The cursor is on a contextual keyword. *)
Definition at_ctx (c : Z) (s : parser) : Prop := exists t, toks !! pi s = Some t /\ ctx_is c t = true.

Lemma wp_atCtx c s t (Q : bool -> parser -> Prop) : toks !! pi s = Some t -> Q (ctx_is c t) s -> wp (atCtx c) s Q.
Proof. intros Et HQ. unfold wp, atCtx, mbind, Parse_bind, tok. rewrite Et. exact HQ. Qed.

Lemma runs_atCtx_ctx c : Runs always (atCtx c) (tests_if (at_ctx c)).
Proof.
  intros s Hs _. destruct (lookup_lt_is_Some_2 toks (pi s) (proj1 Hs)) as [t Et]. apply (wp_atCtx _ _ t); [exact Et|].
  split; [apply after_refl, Hs|]. split; [reflexivity|]. intros Hc'. exists t. auto.
Qed.

Lemma runs_acceptCtx_ctx c : Runs (at_ctx c) (acceptCtx c) (fun s _ s' => pi s' = S (pi s)).
Proof.
  intros s Hs (t & Et & Hct). assert (Hk : at_word s) by (unfold at_word, kind_at, ctx_is in *; rewrite Et; cbn;
    apply andb_true_iff in Hct as [Hct _]; apply orb_true_iff in Hct as [Hct|Hct]; apply Z.eqb_eq in Hct; rewrite Hct; auto).
  unfold acceptCtx. apply wp_bind, (wp_atCtx _ _ t); [exact Et|]. rewrite Hct. wp_go. cursor.
Qed.

#[export] Instance runs_atRecordDecl_ctx : Runs always atRecordDecl (tests_if (at_ctx CtxRecord)).
Proof.
  intros s Hs _. unfold atRecordDecl. apply wp_bind. eapply wp_call; [apply runs_atCtx_ctx|exact Hs|exact Logic.I|].
  intros b s' _ [-> Hb]. wp_go. destruct b; cursor.
Qed.

#[export] Instance runs_parseRecordDecl lo mods : Runs (fun s => need (S n) 0 s /\ at_ctx CtxRecord s) (parseRecordDecl lo mods) advances.
Proof.
  intros s Hs [Hp Hk]. unfold parseRecordDecl. apply wp_bind. eapply wp_call; [apply runs_acceptCtx_ctx|exact Hs|exact Hk|].
  intros t s1 Ha H1. wp_go; cursor.
Qed.

(** ** Enumerations *)

#[export] Instance runs_parseEnumConstant id : Runs (fun s => need (S n) 1 s /\ named (Some id) s) (parseEnumConstant id) any.
Proof. intros s Hs [Hp Hn]. cbn [named] in Hn. unfold parseEnumConstant. wp_go; cursor. Qed.

#[export] Instance runs_enum_members id : Runs (fun s => need n 0 s /\ named (Some id) s) (enum_members id) any.
Proof.
  apply (runs_many (fun s => S (pi s) < length toks)%nat); [exact _|exact _|auto|].
  intros s Hs [Hp _]. eapply wp_mono; [apply call_member; [exact Hs|exact Hp]|]. auto.
Qed.

#[export] Instance runs_parseEnumDecl lo mods : Runs (fun s => need (S n) 0 s /\ kind_at (pi s) = Some ENUM) (parseEnumDecl lo mods) advances.
Proof. intros s Hs [Hp Hk]. unfold parseEnumDecl. wp_go; cursor. Qed.

(** ** Members *)

#[export] Instance runs_badDecl lo : Runs always (badDecl lo) (fun s _ s' => s' = s).
Proof. runs_by badDecl. Qed.

#[export] Instance runs_initializer lo sp static : Runs (fun s => need (S n) 0 s /\ kind_at (pi s) = Some LBRACE \/ need (S n) 3 s) (initializer lo sp static)
  (fun s _ s' => kind_at (pi s) = Some LBRACE -> pi s < pi s')%nat.
Proof. unfold braced. intros s Hs [[Hp Hk]|Hp]; unfold initializer; wp_go; cursor. Qed.

#[export] Instance runs_element lo mods t name lp : Runs (need (S n) 0) (element lo mods t name lp) any.
Proof. runs_by element. Qed.

#[export] Instance runs_method_body : Runs (need (S n) 0) method_body any.
Proof. unfold braced. runs_by method_body. Qed.

#[export] Instance runs_parseMethodOrElement lo mods tps anns vp t :
  Runs (fun s => need (S n) 0 s /\ kind_at (pi s) = Some IDENT) (parseMethodOrElement lo mods tps anns vp t) advances.
Proof. intros s Hs [Hp Hk]. unfold parseMethodOrElement. wp_go; cursor. Qed.

#[export] Instance runs_sameName t id : Runs (fun s => t ∈ toks /\ tKind t = IDENT /\ sliceable id) (sameName t id) reads.
Proof.
  intros s Hs (Ht & Hk & Hid). unfold sameName. apply wp_bind. eapply wp_call; [apply runs_must, ident_slice; assumption|exact Hs|exact Logic.I|].
  intros a s1 _ [-> _]. apply wp_bind. eapply wp_call; [apply runs_must, Hid|exact Hs|exact Logic.I|]. intros b s1 _ [-> _]. wp_go. cursor.
Qed.

#[export] Instance runs_atConstructor enc k : Runs (named enc) (atConstructor enc k) (tests_if (fun s => kind_at (pi s) = Some IDENT)).
Proof. intros s Hs Hn. unfold atConstructor. destruct enc as [id|]; cbn [named] in Hn; wp_go; cursor. Qed.

#[export] Instance runs_compactConstructor lo mods :
  Runs (fun s => need (S n) 0 s /\ kind_at (pi s) = Some IDENT) (compactConstructor lo mods) advances.
Proof. unfold braced. intros s Hs [Hp Hk]. unfold compactConstructor. wp_go; cursor. Qed.

#[export] Instance runs_constructor lo mods tps :
  Runs (fun s => need (S n) 0 s /\ kind_at (pi s) = Some IDENT) (constructor lo mods tps) advances.
Proof. unfold braced. intros s Hs [Hp Hk]. unfold constructor. wp_go; cursor. Qed.

#[export] Instance runs_field lo mods t : Runs (fun s => need (S n) 0 s /\ kind_at (pi s) = Some IDENT) (field lo mods t) advances.
Proof. intros s Hs [Hp Hk]. assert (Hn : at_name s) by (left; exact Hk). unfold field. wp_go; cursor. Qed.

#[export] Instance runs_methodOrField lo mods tps : Runs (need (S n) 0) (methodOrField lo mods tps) goes_on.
Proof. runs_by methodOrField. Qed.

#[export] Instance runs_memberAfterModifiers enc lo mods :
  Runs (fun s => need (S n) 0 s /\ named enc s) (memberAfterModifiers enc lo mods) goes_on.
Proof. intros s Hs [Hp Hn]. unfold memberAfterModifiers. destruct enc as [id|]; cbn [named] in Hn; wp_go; cursor. Qed.

#[export] Instance runs_member_body enc : Runs (fun s => need (S n) 0 s /\ named enc s) (member_body enc) goes_on.
Proof. intros s Hs [Hp Hn]. unfold member_body. destruct enc as [id|]; cbn [named] in Hn; wp_go; cursor. Qed.

#[export] Instance runs_parseMember enc : Runs (fun s => need (S n) 0 s /\ named enc s) (parseMember enc) goes_on.
Proof. intros s Hs [Hp Hn]. unfold parseMember, nested. destruct enc as [id|]; cbn [named] in Hn; wp_go; cursor. Qed.
End Declarations.
