(* ===== verification/ParserTotal.v ===== *)
(** * Totality of the parser

    With as many levels of calls as three times the tokens, and as many rounds
    of a loop as the tokens, the recoveries and the levels of nesting together,
    the parser ends with a tree. *)
From S2P Require Import Prelude.
From S2P Require Import Token SourceFile Ast Parser ParserRun ParseType ParseExpr ParseStmt ParseDecl ParseUnit RunExpr RunDecl.
From S2P Require Scanner ScanProof.

Section Knot.
Context `{I : Input} `{Htoks : !TokensOk} `{Hrounds : !RoundsOk} `{Himp : !Impatient}.

Lemma runs_weaken {A} pre (m : Parse A) post : Runs pre m post -> Runs pre m any.
Proof. intros H s Hs Hp. eapply wp_mono; [apply (H s Hs Hp)|]. cbn beta. intros a s' [Ha _]. split; [exact Ha|exact Logic.I]. Qed.

Lemma runs_stronger {A} (pre pre' : parser -> Prop) (m : Parse A) post : (forall s, pre' s -> pre s) -> Runs pre m post -> Runs pre' m post.
Proof. intros Hp H s Hs Hs'. apply H; auto. Qed.

Lemma braced_need k s : need k 2 s -> braced k s.
Proof. intros H. left. exact H. Qed.

Lemma runs_stuck {A} k (P : parser -> Prop) (post : parser -> A -> parser -> Prop) : Runs (fun s => need 0 k s /\ P s) stuck post.
Proof. intros s [Hs _] [Hp _]. unfold need in Hp. lia. Qed.

Lemma runs_stuck_need {A} k (post : parser -> A -> parser -> Prop) : Runs (need 0 k) stuck post.
Proof. intros s Hs Hp. apply (runs_stuck k always post s Hs). split; [exact Hp|exact Logic.I]. Qed.

(** Every method the knot ties keeps its promise. *)
#[export] Instance calls_parsers n : Calls (parsers n) n.
Proof.
  induction n as [|n IH]; [constructor; intros; first [apply runs_stuck_need|apply runs_stuck]|].
  constructor; cbn [parsers rElementValue rType rTypeArgs rPattern rExpr rConditional rBinary rUnary rVarInit rArrayInit rBlock rSwitchBlock rStmt rBlockStmt rMember rTypeBody];
    intros; try exact _; try (eapply runs_weaken; exact _).
  - eapply runs_weaken, runs_stronger; [apply braced_need|exact _].
  - eapply runs_stronger; [apply braced_need|exact _].
Qed.
End Knot.

(** ** Units *)

Section Unit.
Context `{I : Input} `{Htoks : !TokensOk} `{Hrounds : !RoundsOk} `{Himp : !Impatient} {r : Rec} {n : nat} `{Hc : !Calls r n}.

#[export] Instance runs_tryPackageDecl : Runs (need (S n) 0) tryPackageDecl attempts.
Proof. apply runs_attempt. runs_by package_attempt. Qed.

#[export] Instance runs_import_kind : Runs always import_kind any.
Proof. runs_by import_kind. Qed.

#[export] Instance runs_on_demand m : Runs always (on_demand m) any.
Proof. runs_by on_demand. Qed.

#[export] Instance runs_parseImportDecl : Runs (fun s => always s /\ kind_at (pi s) = Some IMPORT) parseImportDecl goes_on.
Proof. intros s Hs [Hp Hk]. unfold parseImportDecl. wp_go; cursor. Qed.

#[export] Instance runs_imports : Runs always (many (at_ IMPORT) parseImportDecl) any.
Proof. apply (runs_many (fun s => kind_at (pi s) = Some IMPORT)); [exact _|runs_by at_|intros; cursor|exact _]. Qed.

(** ** Modules *)

Lemma ctx_word s t c : kind_at (pi s) = Some (tKind t) -> ctx_is c t = true -> at_word s.
Proof.
  intros Hk Hct. unfold ctx_is in Hct. unfold at_word. rewrite Hk. apply andb_true_iff in Hct as [Hct _].
  apply orb_true_iff in Hct as [Hct|Hct]; apply Z.eqb_eq in Hct; rewrite Hct; auto.
Qed.

#[export] Instance runs_requires_modifier P : Runs (fun s => always s /\ (S (pi s) < length toks)%nat /\ P s) requires_modifier goes_on.
Proof. intros s Hs (_ & Hl & _). unfold requires_modifier. wp_go; cursor. Qed.

#[export] Instance runs_requires_modifiers : Runs always requires_modifiers any.
Proof.
  runs_by requires_modifiers. eapply (wp_call _ always any); [|exact Hs|exact Logic.I|].
  - apply (runs_many (fun s => (S (pi s) < length toks)%nat /\ True)); [exact _| |tauto|exact _].
    intros s1 Hs1 _. wp_go. cursor.
  - intros l s1 Ha _. wp_go; cursor.
Qed.

#[export] Instance runs_directive lo k kw mods name to w : Runs always (directive lo k kw mods name to w) any.
Proof. runs_by directive. Qed.

#[export] Instance runs_exports lo : Runs (fun s => (S (pi s) < length toks)%nat) (exports_or_opens lo) advances.
Proof. runs_by exports_or_opens. Qed.

#[export] Instance runs_provides lo : Runs (fun s => (S (pi s) < length toks)%nat) (provides lo) advances.
Proof. runs_by provides. Qed.

#[export] Instance runs_parseModuleDirective : Runs always parseModuleDirective tries.
Proof.
  intros s Hs Hp. unfold parseModuleDirective. wp_step. wp_step. wp_step. wp_step.
  match goal with H : kind_at (pi s) = Some (tKind ?t) |- _ => assert (Hfit : forall c, ctx_is c t = true -> (S (pi s) < length toks)%nat) end.
  { intros c Hx. eapply ctx_word in Hx as [Hx|Hx]; [| |eassumption]; cursor. }
  repeat match goal with |- context [if ?b then _ else _] => let E := fresh "E" in destruct b eqn:E; [try (apply orb_true_iff in E as [E|E]); apply Hfit in E; wp_go; cursor|] end.
  wp_go; cursor.
Qed.

#[export] Instance runs_parseModuleDecl : Runs (need (S n) 0) parseModuleDecl any.
Proof.
  runs_by parseModuleDecl. looping always; [unfold module_round; wp_go; cbn [snd]; cursor|]. wp_go; cursor.
Qed.

(** ** Compilation units *)

#[export] Instance runs_parseTopLevelDecl : Runs (need (S n) 0) parseTopLevelDecl goes_on.
Proof. runs_by parseTopLevelDecl. Qed.

#[export] Instance runs_declarations : Runs (need (S n) 0) declarations any.
Proof.
  apply (runs_many (fun s => S (pi s) < length toks)%nat); [exact _| |auto|].
  - intros s Hs _. wp_go. destruct a; cursor.
  - intros s Hs [Hp _]. apply runs_parseTopLevelDecl; assumption.
Qed.

#[export] Instance runs_atModule : Runs always atModule reads.
Proof. runs_by atModule. Qed.

#[export] Instance runs_parseCompilationUnit : Runs (need (S n) 0) parseCompilationUnit any.
Proof. runs_by parseCompilationUnit. Qed.
End Unit.

(** A parse that ends. *)
Lemma parse_tokens_ends (i : Input) (n : nat) ds :
  TokensOk -> RoundsOk -> Impatient -> (3 * length toks <= n)%nat -> exists u ds', parse_tokens i n ds = Some (u, ds').
Proof.
  intros Ht Hr Hi Hn. assert (H0 : on_token (start ds)) by (pose proof some_token; unfold on_token; cbn; lia).
  pose proof (runs_parseCompilationUnit (r := parsers n) (n := n) (start ds) H0 ltac:(unfold need; cbn [pi start]; lia)) as Hu.
  unfold wp in Hu. unfold parse_tokens. destruct (parseCompilationUnit (start ds)) as [[u s]|]; [|contradiction]. cbn. eauto.
Qed.


(** ** The tokens of a file *)

Section Scanned.
Context (f : File) (m : Z) (Hsize : Size f + 1 < 2 ^ 32).
Abbreviation N := (Size f).

Lemma trivia_forward a b : ScanProof.trivia (text f) a b -> a <= b.
Proof. induction 1 as [|a b c _ IH []]; lia. Qed.

(** A token of the text. *)
Definition placed (t : Token) : Prop := exists p e, 0 <= p < e /\ e <= N /\ tPos t = PosOf p /\ tEnd t = PosOf e /\ tKind t <> EOF.

Lemma laid_placed body o : ScanProof.laid (text f) m body o -> Forall placed body /\ (length body <= Z.to_nat o)%nat /\ 0 <= o <= N.
Proof.
  induction 1 as [|ts o t p e _ (IH & Hn & Ho) Ht Hp Htp Hte Hk _ _]; [split; [constructor|cbn; unfold Size; pose proof (len_nonneg (text f)); lia]|].
  apply trivia_forward in Ht. rewrite length_app. cbn [length]. change (len (text f)) with N in *. split; [|split; lia].
  apply Forall_app. split; [exact IH|]. constructor; [|constructor]. exists p, e. split_and!; auto; try lia. intros He. rewrite He in Hk.
  unfold ScanProof.token_ok in Hk. destruct Hk as [Hk _]. unfold ScanProof.open_kinds in Hk. cbn in Hk. repeat destruct Hk as [Hk|Hk]; try discriminate Hk. exact Hk.
Qed.

Lemma placed_slice p e : 0 <= p < e -> e <= N -> is_Some (Slice f (PosOf p) (PosOf e)).
Proof.
  intros Hp He. unfold Slice, PosOf, OffsetOf, NoPos, u32. rewrite !Z.mod_small by lia. rewrite !(proj2 (Z.eqb_neq _ 0)) by lia. unfold slice_of.
  change (len (text f)) with N. destruct ((0 <=? p + 1 - 1) && _ && _) eqn:E; [eauto|]. apply andb_false_iff in E as [E|E]; [apply andb_false_iff in E as [E|E]|]; to_Z; lia.
Qed.

(** Tokens of the text, then one EOF. *)
Lemma placed_ok mode rounds l e : Forall placed l -> tKind e = EOF -> TokensOk (I := {| unit_ := f; mode := mode; toks := l ++ [e]; rounds := rounds |}).
Proof.
  intros Hl He. rewrite Forall_forall in Hl. assert (Hx : forall t, t ∈ l ++ [e] -> tKind t <> EOF -> placed t).
  { intros t Ht Hk. apply elem_of_app in Ht as [Ht|Ht]; [auto|]. apply list_elem_of_singleton in Ht as ->. contradiction. }
  split; cbn [toks unit_].
  - intros i t Ht. rewrite length_app. cbn [length]. apply lookup_app_Some in Ht as [Ht|[Hi Ht]].
    + pose proof (lookup_lt_Some _ _ _ Ht). destruct (Hl t (list_elem_of_lookup_2 _ _ _ Ht)) as (p & e' & _ & _ & _ & _ & Hk). split; [contradiction|lia].
    + destruct (i - length l)%nat eqn:Ei; [|discriminate]. injection Ht as <-. split; [lia|auto].
  - rewrite length_app. cbn. lia.
  - intros t Ht Hk. destruct (Hx t Ht) as (p & e' & Hp & Hn & -> & -> & _); [rewrite Hk; discriminate|]. apply placed_slice; assumption.
  - intros t Ht Hk. destruct (Hx t Ht Hk) as (p & e' & Hp & Hn & -> & _). replace (u32 (PosOf p + 1)) with (PosOf (p + 1)); [apply placed_slice; lia|].
    unfold PosOf, u32. rewrite Zplus_mod_idemp_l. reflexivity.
Qed.
End Scanned.

Lemma load_last mode l e : tKind e = EOF -> load mode (l ++ [e]) = load mode l ++ [e].
Proof. intros He. unfold load. destruct (_ =? 0); [reflexivity|]. rewrite filter_app. f_equal. cbn. rewrite decide_True; [reflexivity|]. rewrite He. discriminate. Qed.

Lemma load_placed f mode l : Forall (placed f) l -> Forall (placed f) (load mode l) /\ (length (load mode l) <= length l)%nat.
Proof.
  intros H. unfold load. case_match; [auto|]. split; [|apply length_filter].
  apply Forall_forall. intros t Ht. apply list_elem_of_filter in Ht as [_ Ht]. rewrite Forall_forall in H. auto.
Qed.

Lemma scanned_ok unicode f m : Size f + 1 < 2 ^ 32 -> exists body fl ds,
  Scanner.Scan unicode f m = Some (body ++ [mkToken EOF CtxNone fl (PosOf (Size f)) (PosOf (Size f))], ds) /\
  Forall (placed f) body /\ (length body <= Z.to_nat (Size f))%nat.
Proof.
  intros Hs. destruct (ScanProof.run_ok unicode (text f) m (fdiags f)) as (s & body & fl & E & Et & (o & Hl & _) & _).
  destruct (laid_placed f m body o Hl) as (Hp & Hn & Ho). exists body, fl, (SortDiagnostics (Scanner.diags s)). unfold Scanner.Scan. rewrite E. cbn [mbind option_bind].
  rewrite Et. split; [reflexivity|]. split; [exact Hp|lia].
Qed.

(** C12: parsing a file below 4 GiB, in any mode but [Tolerant], ends with a tree
    and no index out of range: three calls nested per token, and a round of each
    loop per token, per recovery and per level of nesting, are enough, whatever
    the text. *)
Theorem ParseFile_ends (unicode : Scanner.UnicodeTables) (f : SourceFile.File) (m : Z) (n rounds : nat) :
  Size f + 1 < 2 ^ 32 -> Z.land m Tolerant = 0 ->
  3 * (Size f + 1) <= Z.of_nat n -> Size f + 1 + maxResync + maxDepth < Z.of_nat rounds ->
  exists u ds, ParseFile unicode n rounds f m = Some (u, ds).
Proof.
  intros Hs Hm Hn Hr. unfold ParseFile. edestruct scanned_ok as (body & fl & ds & -> & Hp & Hl); [exact Hs|]. cbn [mbind option_bind fst snd].
  rewrite load_last by reflexivity. destruct (load_placed f m body Hp) as [Hp' Hl']. assert (0 <= Size f) by apply len_nonneg.
  apply parse_tokens_ends; [apply (placed_ok f Hs); [exact Hp'|reflexivity]|unfold RoundsOk, maxResync, maxDepth in *|exact Hm|]; cbn [toks ParserRun.RoundsOk Parser.rounds]; rewrite length_app; cbn [length]; lia.
Qed.

(** The hypotheses hold of a file of a class. *)
Definition a_class : SourceFile.File := NewFile [] (bs "class A { int f(int x) { return x + 1; } }").

Lemma ParseFile_ends_witness : Size a_class + 1 < 2 ^ 32 /\ exists u ds, ParseFile Scanner.ascii_only 200 1200 a_class 0 = Some (u, ds).
Proof. split; [reflexivity|]. apply (ParseFile_ends Scanner.ascii_only a_class 0 200 1200); vm_compute; reflexivity || discriminate. Defined.
