(* ===== verification/ParserStray.v ===== *)
(** * Where the parser does not end

    Under [Tolerant] no recovery is counted, so a closing brace that no
    declaration takes is met again for ever. *)
From S2P Require Import Prelude.
From S2P Require Import Token SourceFile Ast Parser ParseType ParseExpr ParseStmt ParseDecl ParseUnit.



Section Stray.
Context (f : SourceFile.File) (fl : Z) (rest : list Token) (n k : nat).

#[local] Instance stray : Input := {| unit_ := f; mode := Tolerant; toks := mkToken RBRACE CtxNone fl 1 2 :: rest; rounds := k |}.

Definition spinning (ds : list Diagnostic) : parser := mkParser 0 ds true 1 0 0.

(** A round of the loop over declarations: once the brace has been reported,
    it changes nothing. *)
Lemma spins j ds : k = S j -> parseTopLevelDecl (H0 := parsers n) (spinning ds) = Some (BadDecl (At 1 2), spinning ds).
Proof. unfold stray. intros ->. destruct rest as [|t1 [|t2 r]]; vm_compute; reflexivity. Qed.

Lemma first_spin j ds : k = S j ->
  parseTopLevelDecl (H0 := parsers n) (start ds) = Some (BadDecl (At 1 2), spinning (ds ++ [mkDiagnostic 1 2 SevError (bs "expected type, found '}'")])).
Proof. unfold stray. intros ->. destruct rest as [|t1 [|t2 r]]; vm_compute; reflexivity. Qed.

(** A loop that no round of ends. *)
Lemma loop_forever {A} (Inv : parser -> Prop) (round : A -> Parse (A * bool)) :
  (forall a s, Inv s -> match round a s with Some (r, s') => snd r = true /\ Inv s' | None => True end) ->
  forall j a s, Inv s -> loop j round a s = None.
Proof.
  intros Hr j. induction j as [|j IH]; intros a s Hs; [reflexivity|]. cbn [loop]. unfold mbind, Parse_bind.
  specialize (Hr a s Hs). destruct (round a s) as [[[a' more] s']|]; [|reflexivity]. cbn [snd] in Hr. destruct Hr as [-> Hs']. apply IH, Hs'.
Qed.

Lemma declarations_spin ds : declarations (H0 := parsers n) (start ds) = None.
Proof.
  unfold declarations, many. destruct rounds as [|j] eqn:Ek; [reflexivity|]. cbn [loop]. unfold mbind at 1, Parse_bind at 1.
  match goal with |- context [match ?x with _ => _ end] => assert (E : exists d, x = Some (([d], true), spinning (ds ++ [mkDiagnostic 1 2 SevError (bs "expected type, found '}'")]))) end.
  { eexists. unfold mbind, Parse_bind. cbn [atEOF]. change (atEOF (start ds)) with (Some (false, start ds)). cbn [negb]. unfold mret, Parse_ret. cbn [negb].
    rewrite (first_spin j ds Ek). reflexivity. }
  destruct E as [d ->]. apply (loop_forever (fun s => exists ds, s = spinning ds)); [|eauto]. intros l s [ds' ->].
  unfold mbind, Parse_bind. change (atEOF (spinning ds')) with (Some (false, spinning ds')). unfold mret, Parse_ret. cbn [negb]. rewrite (spins j ds' Ek). cbn [snd]. eauto.
Qed.
Lemma imports_none j ds : k = S j -> many (at_ IMPORT) parseImportDecl (start ds) = Some ([], start ds).
Proof. unfold stray. intros ->. reflexivity. Qed.

Lemma module_none ds : atModule (start ds) = Some (false, start ds).
Proof. unfold stray. destruct rest as [|t1 r]; vm_compute; reflexivity. Qed.

Lemma unit_spins ds : parseCompilationUnit (H0 := parsers n) (start ds) = None.
Proof.
  unfold parseCompilationUnit, mbind, Parse_bind. change (pos (start ds)) with (Some (1, start ds)). cbn iota beta.
  change (kind (start ds)) with (Some (RBRACE, start ds)). cbn iota beta. change ((RBRACE =? AT) || (RBRACE =? PACKAGE)) with false.
  unfold mret, Parse_ret. cbn iota beta. destruct (many (at_ IMPORT) parseImportDecl (start ds)) as [[l s]|] eqn:Ei; [|reflexivity].
  assert (Hs : s = start ds) by (destruct rounds as [|j] eqn:Ek; [unfold many in Ei; rewrite Ek in Ei; discriminate|rewrite (imports_none j ds Ek) in Ei; congruence]).
  subst s. rewrite module_none. cbn iota beta. change (negb (Z.land mode HeaderOnly =? 0)) with false. cbn iota. cbn beta. rewrite declarations_spin. reflexivity.
Qed.
End Stray.

(** C16: in [Tolerant] mode a file that begins with a closing brace is never
    parsed: whatever follows, no bound on the loops is enough, because the
    recovery at the brace takes no token and the loop over declarations does not
    check that one was taken. *)
Theorem stray_brace_spins (f : SourceFile.File) (fl : Z) (rest : list Token) (n rounds : nat) (ds : list Diagnostic) :
  parse_tokens {| unit_ := f; mode := Tolerant; toks := mkToken RBRACE CtxNone fl 1 2 :: rest; rounds := rounds |} n ds = None.
Proof. pose proof (unit_spins f fl rest n rounds ds) as E. unfold stray in E. unfold parse_tokens. rewrite E. reflexivity. Qed.

(** What follows a module declaration is not read. *)
Definition empty_module (f1 f2 f3 f4 p0 e0 p1 e1 p2 e2 p3 e3 : Z) : list Token :=
  [mkToken IDENT CtxModule f1 p0 e0; mkToken IDENT CtxNone f2 p1 e1; mkToken LBRACE CtxNone f3 p2 e2; mkToken RBRACE CtxNone f4 p3 e3].

(** After [module m { }] the rest of the file is not read: whatever tokens
    follow, the unit has no declarations and nothing is reported of them. *)
Theorem module_tail_dropped (f : SourceFile.File) (m f1 f2 f3 f4 p0 e0 p1 e1 p2 e2 p3 e3 : Z) (rest : list Token) (n j : nat) (ds : list Diagnostic) :
  exists u, parse_tokens {| unit_ := f; mode := m; toks := empty_module f1 f2 f3 f4 p0 e0 p1 e1 p2 e2 p3 e3 ++ rest; rounds := S j |} n ds = Some (u, SortDiagnostics ds) /\
    Decls u = [] /\ is_Some (Module_ u).
Proof.
  eexists. split; [|split].
  - unfold parse_tokens. match goal with |- mbind _ (?m ?s) = _ => let r := eval vm_compute in (m s) in change (m s) with r end.
    cbn [mbind option_bind fst snd pdiags]. reflexivity.
  - reflexivity.
  - eexists. reflexivity.
Qed.

(** ** Where the tree loses a part of the text *)

(** [x.class] is parsed to a class literal without a type: for every
    expression [x] the answer is the same but for the span, so what stood
    before the dot is nowhere in the tree. *)
Theorem class_literal_drops_type `{I : Input} {r : Rec} (lo : Z) (x : Expr) (s : parser) (dot t : Token) :
  toks !! pi s = Some dot -> toks !! S (pi s) = Some t -> tKind dot = PERIOD -> tKind t = CLASS ->
  exists s', parseSelector lo x s = Some (ClassLit (At lo (tEnd t)) None NoPos [] (tPos t), s') /\ pi s' = S (S (pi s)) /\ pdiags s' = pdiags s.
Proof.
  intros Hd Ht Kd Kt. unfold parseSelector, next, kind, tok, consume, mbind, Parse_bind. rewrite Hd. cbn. rewrite Kd. cbn. rewrite Ht. cbn. rewrite Kt. cbn.
  rewrite Ht. cbn. rewrite Kt. cbn. eexists. split; [reflexivity|]. split; reflexivity.
Qed.

(** [A.class] *)
Definition a_class_literal : Input :=
  {| unit_ := NewFile [] (bs "A.class"); mode := 0; rounds := 9;
     toks := [mkToken IDENT CtxNone 0 1 2; mkToken PERIOD CtxNone 0 2 3; mkToken CLASS CtxNone 0 3 8; mkToken EOF CtxNone 0 8 8] |}.

Definition the_name : Expr := EName (mkName (At 1 2) [mkIdent (At 1 2) CtxNone false]).

Lemma class_literal_drops_type_witness : exists s',
  parseSelector (H := a_class_literal) (H0 := parsers (H := a_class_literal) 0) 1 the_name (set_pi 1 (start [])) = Some (ClassLit (At 1 8) None NoPos [] 3, s').
Proof.
  destruct (class_literal_drops_type (I := a_class_literal) (r := parsers (H := a_class_literal) 0) 1 the_name (set_pi 1 (start []))
    (mkToken PERIOD CtxNone 0 2 3) (mkToken CLASS CtxNone 0 3 8) eq_refl eq_refl eq_refl eq_refl) as (s' & E & _). exists s'. exact E.
Defined.
