(* ===== verification/ParserKeeps.v ===== *)
(** * What every method of the parser keeps

    A relation between the state before and the state after that the cursor,
    the diagnostics, the budget, a level of nesting and a rollback respect is
    kept by every production. *)
From S2P Require Import Prelude.
From S2P Require Import Token SourceFile Ast Parser ParseType ParseExpr ParseStmt ParseDecl ParseUnit.

(** ** The logic *)

Class Invariant (R : parser -> parser -> Prop) : Prop := {
  inv_refl s : R s s;
  inv_trans s1 s2 s3 : R s1 s2 -> R s2 s3 -> R s1 s3;
  inv_consume t s s' : consume t s = Some (t, s') -> R s s';
  inv_error lo hi msg s s' : error lo hi msg s = Some (tt, s') -> R s s';
  inv_seek i s : R s (set_pi i s);
  inv_budget `{Input} b s s' : budget s = Some (b, s') -> R s s';
  inv_enter s : R s (set_depth (depth s + 1) s);
  inv_nested s s' : R (set_depth (depth s + 1) s) s' -> R s (set_depth (depth s' - 1) s');
  inv_rollback m s s' : R m s -> rollback m s = Some (tt, s') -> R m s' }.

Class Keeps (R : parser -> parser -> Prop) {A} (m : Parse A) : Prop := keeps : forall s a s', m s = Some (a, s') -> R s s'.

Section Rules.
Context {R : parser -> parser -> Prop} `{HR : !Invariant R}.

Lemma keeps_ret {A} (a : A) : Keeps R (mret a).
Proof. intros s a' s' [= <- <-]. apply inv_refl. Qed.

Lemma keeps_bind {A B} (m : Parse A) (k : A -> Parse B) : Keeps R m -> (forall a, Keeps R (k a)) -> Keeps R (m ≫= k).
Proof.
  intros Hm Hk s b s' H. unfold mbind, Parse_bind in H. destruct (m s) as [[a s1]|] eqn:E; [|discriminate].
  eapply inv_trans; [eapply Hm, E|eapply Hk, H].
Qed.

(** A method that only reads. *)
Lemma keeps_reads {A} (m : Parse A) : (forall s a s', m s = Some (a, s') -> s' = s) -> Keeps R m.
Proof. intros H s a s' E. rewrite (H s a s' E). apply inv_refl. Qed.

#[export] Instance keeps_must {A} (o : option A) : Keeps R (must o).
Proof. apply keeps_reads. intros s a s'. unfold must. destruct o; cbn; [intros [= _ <-]; reflexivity|discriminate]. Qed.

#[export] Instance keeps_cursor : Keeps R cursor.
Proof. apply keeps_reads. intros s a s' [= _ <-]. reflexivity. Qed.

#[export] Instance keeps_seek i : Keeps R (seek i).
Proof. intros s a s' [= _ <-]. apply inv_seek. Qed.

#[export] Instance keeps_error lo hi msg : Keeps R (error lo hi msg).
Proof. intros s [] s' H. eapply inv_error, H. Qed.

#[export] Instance keeps_consume t : Keeps R (consume t).
Proof. intros s a s' H. assert (a = t) as -> by (unfold consume in H; congruence). eapply inv_consume, H. Qed.

#[export] Instance keeps_loop {A} n (round : A -> Parse (A * bool)) a : (forall a, Keeps R (round a)) -> Keeps R (loop n round a).
Proof.
  intros H. revert a. induction n as [|n IH]; intros a; [intros s b s'; discriminate|]. cbn [loop]. apply keeps_bind; [apply H|].
  intros [a' []]; [apply IH|apply keeps_ret].
Qed.

#[export] Instance keeps_spec {A} (try : Parse (option A)) : Keeps R try -> Keeps R (spec try).
Proof.
  intros H s o s' E. unfold spec, mbind, Parse_bind in E. destruct (try s) as [[[a|] s1]|] eqn:Et; [| |discriminate].
  - injection E as _ <-. eapply H, Et.
  - destruct (rollback s s1) as [[[] s2]|] eqn:Er; [|discriminate]. injection E as _ <-. eapply inv_rollback; [eapply H, Et|exact Er].
Qed.
End Rules.

(** Rules added later. *)
Ltac keeps_rule := fail.

(** One step: a rule, a method known to keep the relation, or a definition. *)
Ltac keeps_step :=
  lazymatch goal with
  | |- Keeps _ (mret _) => apply keeps_ret
  | |- Keeps _ (mbind _ _) => apply keeps_bind; [|intros ?]
  | |- Keeps _ (match ?x with _ => _ end) => destruct x
  | |- Keeps _ (loop _ _ _) => apply keeps_loop; intros ?
  | |- Keeps _ (spec _) => apply keeps_spec
  | |- Keeps _ ?m => first [keeps_rule | typeclasses eauto | let h := find_head m in progress unfold h]
  end
with find_head m := lazymatch m with ?f _ => find_head f | _ => m end.

Ltac keeps_all := intros; repeat (cbv beta iota; keeps_step).

Section Cursor.
Context {R : parser -> parser -> Prop} `{HR : !Invariant R} `{I : Input}.

#[export] Instance keeps_tok : Keeps R tok.
Proof. apply keeps_reads. intros s a s'. unfold tok. destruct (toks !! pi s); cbn; [intros [= _ <-]; reflexivity|discriminate]. Qed.

#[export] Instance keeps_budget : Keeps R budget.
Proof. intros s a s' H. eapply inv_budget, H. Qed.

#[export] Instance keeps_nested {A} msg (deep body : Parse A) : Keeps R deep -> Keeps R body -> Keeps R (nested msg deep body).
Proof.
  intros Hd Hb s a s'. unfold nested. unfold mbind at 1, Parse_bind at 1. cbn. destruct (_ <=? _).
  - unfold mbind, Parse_bind. destruct (body _) as [[b s1]|] eqn:E; [|discriminate]. cbn. intros [= _ <-]. apply inv_nested. eapply Hb, E.
  - intros H. eapply inv_trans; [apply inv_enter|]. revert H. generalize (set_depth (depth s + 1) s). intros s1.
    revert s1 a s'.
    match goal with |- forall s a s', ?m s = _ -> _ => change (Keeps R m) end. keeps_all.
Qed.

#[export] Instance keeps_skip m : Keeps R (skip m).
Proof. intros s a s' [= _ <-]. apply inv_seek. Qed.

#[export] Instance keeps_ahead : Keeps R ahead.
Proof. keeps_all. Qed.
End Cursor.

Ltac keeps_rule ::= lazymatch goal with |- Keeps _ (nested _ _ _) => apply keeps_nested end.

(** ** The methods that close a cycle *)

Class KeepsRec (R : parser -> parser -> Prop) (r : Rec) : Prop := {
  #[export] keeps_rElementValue :: Keeps R rElementValue;
  #[export] keeps_rType :: Keeps R rType;
  #[export] keeps_rTypeArgs :: Keeps R rTypeArgs;
  #[export] keeps_rPattern :: Keeps R rPattern;
  #[export] keeps_rExpr :: Keeps R rExpr;
  #[export] keeps_rConditional :: Keeps R rConditional;
  #[export] keeps_rBinary p :: Keeps R (rBinary p);
  #[export] keeps_rUnary :: Keeps R rUnary;
  #[export] keeps_rVarInit :: Keeps R rVarInit;
  #[export] keeps_rArrayInit :: Keeps R rArrayInit;
  #[export] keeps_rBlock :: Keeps R rBlock;
  #[export] keeps_rSwitchBlock :: Keeps R rSwitchBlock;
  #[export] keeps_rStmt :: Keeps R rStmt;
  #[export] keeps_rBlockStmt :: Keeps R rBlockStmt;
  #[export] keeps_rMember enc :: Keeps R (rMember enc);
  #[export] keeps_rTypeBody enc :: Keeps R (rTypeBody enc) }.

Section Methods.
Context {R : parser -> parser -> Prop} `{HR : !Invariant R} `{I : Input} {r : Rec} `{Hr : !KeepsRec R r}.

#[export] Instance keeps_next : Keeps R next.
Proof. keeps_all. Qed.
#[export] Instance keeps_accept k : Keeps R (accept k).
Proof. keeps_all. Qed.
#[export] Instance keeps_errorExpected w : Keeps R (errorExpected w).
Proof. keeps_all. Qed.
#[export] Instance keeps_expect k : Keeps R (expect k).
Proof. keeps_all. Qed.
#[export] Instance keeps_span_from lo : Keeps R (span_from lo).
Proof. keeps_all. Qed.
#[export] Instance keeps_advanceTo follow : Keeps R (advanceTo follow).
Proof. keeps_all. Qed.
#[export] Instance keeps_annotation : Keeps R parseAnnotation.
Proof. keeps_all. Qed.
#[export] Instance keeps_annotations : Keeps R parseAnnotations.
Proof. keeps_all. Qed.
#[export] Instance keeps_elementValue : Keeps R parseElementValue.
Proof. keeps_all. Qed.
#[export] Instance keeps_modifiers : Keeps R parseModifiers.
Proof. keeps_all. Qed.
#[export] Instance keeps_tryTypeArgs : Keeps R tryTypeArgs.
Proof. keeps_all. Qed.
#[export] Instance keeps_type : Keeps R parseType.
Proof. keeps_all. Qed.
#[export] Instance keeps_typeArgs : Keeps R parseTypeArgs.
Proof. keeps_all. Qed.
#[export] Instance keeps_tryPattern : Keeps R tryPattern.
Proof. keeps_all. Qed.

(** ** Expressions *)

#[export] Instance keeps_parseArgs : Keeps R parseArgs.
Proof. keeps_all. Qed.
#[export] Instance keeps_dims : Keeps R parseDims.
Proof. keeps_all. Qed.
#[export] Instance keeps_parenArgs : Keeps R parenArgs.
Proof. keeps_all. Qed.
#[export] Instance keeps_tryLambda : Keeps R tryLambda.
Proof. keeps_all. Qed.
#[export] Instance keeps_newExpr lo outer : Keeps R (parseNewExpr lo outer).
Proof. keeps_all. Qed.
#[export] Instance keeps_postfix : Keeps R parsePostfix.
Proof. keeps_all. Qed.
#[export] Instance keeps_tryCast : Keeps R tryCast.
Proof. keeps_all. Qed.
#[export] Instance keeps_unary : Keeps R parseUnary.
Proof. keeps_all. Qed.
#[export] Instance keeps_binary p : Keeps R (parseBinary p).
Proof. keeps_all. Qed.
#[export] Instance keeps_conditional : Keeps R parseConditional.
Proof. keeps_all. Qed.
#[export] Instance keeps_expr : Keeps R parseExpr.
Proof. keeps_all. Qed.

(** ** Statements *)

#[export] Instance keeps_arrayInit : Keeps R parseArrayInit.
Proof. keeps_all. Qed.
#[export] Instance keeps_varInit : Keeps R parseVarInit.
Proof. keeps_all. Qed.
#[export] Instance keeps_tryLocalVarDecl semi : Keeps R (tryLocalVarDecl semi).
Proof. keeps_all. Qed.
#[export] Instance keeps_atLocalTypeDecl : Keeps R atLocalTypeDecl.
Proof. keeps_all. Qed.
#[export] Instance keeps_block : Keeps R parseBlock.
Proof. keeps_all. Qed.
#[export] Instance keeps_switchBlock : Keeps R parseSwitchBlock.
Proof. keeps_all. Qed.
#[export] Instance keeps_stmt : Keeps R parseStmt.
Proof. keeps_all. Qed.
#[export] Instance keeps_blockStmt : Keeps R parseBlockStmt.
Proof. keeps_all. Qed.

(** ** Declarations *)

#[export] Instance keeps_typeBody enc : Keeps R (parseTypeBody enc).
Proof. keeps_all. Qed.
#[export] Instance keeps_tryReceiver : Keeps R tryReceiverParam.
Proof. keeps_all. Qed.
#[export] Instance keeps_params : Keeps R parseParamsAfterLparen.
Proof. keeps_all. Qed.
#[export] Instance keeps_typeParams : Keeps R parseTypeParams.
Proof. keeps_all. Qed.
#[export] Instance keeps_member enc : Keeps R (parseMember enc).
Proof. keeps_all. Qed.

(** ** Units *)

#[export] Instance keeps_package : Keeps R tryPackageDecl.
Proof. keeps_all. Qed.
#[export] Instance keeps_module : Keeps R parseModuleDecl.
Proof. keeps_all. Qed.
#[export] Instance keeps_unit : Keeps R parseCompilationUnit.
Proof. keeps_all. Qed.
End Methods.

#[export] Instance keeps_parsers R `{!Invariant R} `{Input} n : KeepsRec R (parsers n).
Proof. induction n as [|n IH]; constructor; cbn; try exact _; intros; intros s a s'; discriminate. Qed.

(** ** Methods that only read *)

Definition reading {A} (m : Parse A) : Prop := forall s a s', m s = Some (a, s') -> s' = s.

Lemma reading_bind {A B} (m : Parse A) (k : A -> Parse B) : reading m -> (forall a, reading (k a)) -> reading (m ≫= k).
Proof. intros Hm Hk s b s'. unfold mbind, Parse_bind. destruct (m s) as [[a s1]|] eqn:E; [|discriminate]. rewrite (Hm _ _ _ E). apply Hk. Qed.

Lemma reading_ret {A} (a : A) : reading (mret a).
Proof. intros s b s' [= _ <-]. reflexivity. Qed.

Lemma reading_must {A} (o : option A) : reading (must o).
Proof. intros s b s'. unfold must. destruct o; cbn; [intros [= _ <-]; reflexivity|discriminate]. Qed.

Lemma reading_cursor : reading cursor.
Proof. intros s b s' [= _ <-]. reflexivity. Qed.

Lemma reading_tok `{Input} : reading tok.
Proof. intros s a s'. unfold tok. destruct (toks !! pi s); cbn; [intros [= _ <-]; reflexivity|discriminate]. Qed.

(** A method that reads, by its definition. *)
Ltac reads :=
  lazymatch goal with
  | |- reading (mret _) => apply reading_ret
  | |- reading (mbind _ _) => apply reading_bind; [reads|intros ?; reads]
  | |- reading (match ?x with _ => _ end) => destruct x; reads
  | |- reading ?m => first [apply reading_must | apply reading_cursor | apply reading_tok | let h := find_head m in progress unfold h; cbv beta zeta; reads]
  end.
