(* ===== verification/ParserReports.v ===== *)
(** * What the parser reports, and what a failed attempt leaves

    Two relations every production keeps. *)
From S2P Require Import Prelude.
From S2P Require Import Token SourceFile Ast Parser ParseType ParseExpr ParseStmt ParseDecl ParseUnit ParserKeeps.

(** ** Diagnostics *)

(** Errors after one about [last]: each covers some of the text, and no two in
    a row begin at the same place. *)
Fixpoint reports (last : Z) (new : list Diagnostic) (last' : Z) : Prop :=
  match new with
  | [] => last' = last
  | d :: new => dSeverity d = SevError /\ dPos d <> last /\ (dPos d < dEnd d \/ 2 ^ 32 - 1 <= dPos d) /\ reports (dPos d) new last'
  end.

Lemma reports_app l1 n1 l2 n2 l3 : reports l1 n1 l2 -> reports l2 n2 l3 -> reports l1 (n1 ++ n2) l3.
Proof. revert l1. induction n1 as [|d n1 IH]; intros l1; cbn; [intros ->; auto|]. intros (Hu & Hv & Hw & H) Hx. eauto. Qed.

Definition reporting (s s' : parser) : Prop := exists new, pdiags s' = pdiags s ++ new /\ reports (lastErr s) new (lastErr s').

Lemma reporting_same s s' : pdiags s' = pdiags s -> lastErr s' = lastErr s -> reporting s s'.
Proof. intros H1 H2. exists []. rewrite app_nil_r. auto. Qed.

#[export] Instance reporting_kept : Invariant reporting.
Proof.
  split.
  - intros s. apply reporting_same; reflexivity.
  - intros s1 s2 s3 (n1 & E1 & H1) (n2 & E2 & H2). exists (n1 ++ n2). rewrite E2, E1, app_assoc. split; [reflexivity|eapply reports_app; eauto].
  - intros t s s' [= <-]. apply reporting_same; reflexivity.
  - intros lo hi msg s s'. unfold error. destruct (quiet s || (lo =? lastErr s)) eqn:E; intros [= <-]; [apply reporting_same; reflexivity|].
    apply orb_false_iff in E as [_ E]. apply Z.eqb_neq in E. eexists. split; [reflexivity|]. cbn. split_and!; auto.
    destruct (Z.leb_spec hi lo); [|lia]. unfold u32. destruct (Z.lt_ge_cases lo (2 ^ 32 - 1)); [|lia]. left.
    destruct (Z.lt_ge_cases lo (-1)); [pose proof (Z.mod_pos_bound (lo + 1) (2 ^ 32)); lia|rewrite Z.mod_small; lia].
  - intros i s. apply reporting_same; reflexivity.
  - intros i b s s'. unfold budget. destruct (negb _); intros [= _ <-]; apply reporting_same; reflexivity.
  - intros s. apply reporting_same; reflexivity.
  - intros s s' H. exact H.
  - intros m s s' (new & E & _). unfold rollback. case_bool_decide; [|discriminate]. intros [= <-]. apply reporting_same; [|reflexivity].
    cbn. rewrite E, take_app_length. reflexivity.
Qed.

(** C15: a parse reports what the scanner reported and errors of its own; each of
    these covers at least one byte (in a file below 4 GiB), and no two in a row
    begin at the same place; the result is in order of position. *)
Theorem parse_reports (i : Input) (n : nat) (ds out : list Diagnostic) (u : CompilationUnit) :
  parse_tokens i n ds = Some (u, out) -> exists new last, out = SortDiagnostics (ds ++ new) /\ reports NoPos new last.
Proof.
  unfold parse_tokens. destruct (parseCompilationUnit (start ds)) as [[u' s]|] eqn:E; cbn; [|discriminate]. intros [= _ <-].
  destruct (keeps (R := reporting) _ _ _ E) as (new & En & Hr). exists new, (lastErr s). rewrite En. auto.
Qed.

(** ** Speculation *)

(** An attempt that fails leaves every field as it was. *)
Definition restores {A} (m : Parse (option A)) : Prop := forall s s', m s = Some (None, s') -> s' = s.

Lemma rollback_exact m s s' : reporting m s -> rollback m s = Some (tt, s') -> s' = m.
Proof.
  intros (new & E & _). unfold rollback. case_bool_decide; [|discriminate]. intros [= <-]. rewrite E, take_app_length. destruct m; reflexivity.
Qed.

Lemma spec_restores {A} (try : Parse (option A)) : Keeps reporting try -> restores (spec try).
Proof.
  intros Hk s s' E. unfold spec, mbind, Parse_bind in E. destruct (try s) as [[[a|] s1]|] eqn:Et; [discriminate| |discriminate].
  destruct (rollback s s1) as [[[] s2]|] eqn:Er; [|discriminate]. injection E as <-. eapply rollback_exact; [eapply Hk, Et|exact Er].
Qed.

(** Methods that always answer something. *)
Definition answering {A} (m : Parse (option A)) : Prop := forall s s', m s <> Some (None, s').

Lemma restores_bind {A B} (m : Parse A) (k : A -> Parse (option B)) : reading m -> (forall a, restores (k a)) -> restores (m ≫= k).
Proof. intros Hm Hk s s'. unfold mbind, Parse_bind. destruct (m s) as [[a s1]|] eqn:E; [|discriminate]. rewrite (Hm _ _ _ E). apply Hk. Qed.

Lemma answering_bind {A B} (m : Parse A) (k : A -> Parse (option B)) : (forall a, answering (k a)) -> answering (m ≫= k).
Proof. intros Hk s s'. unfold mbind, Parse_bind. destruct (m s) as [[a s1]|]; [apply Hk|discriminate]. Qed.

Lemma answering_restores {A} (m : Parse (option A)) : answering m -> restores m.
Proof. intros H s s' E. destruct (H _ _ E). Qed.

Lemma restores_none {A} : restores (mret (@None A)).
Proof. intros s s' [= <-]. reflexivity. Qed.

Lemma restores_lambda `{Input} {r : Rec} `{!KeepsRec reporting r} : restores tryLambda.
Proof.
  unfold tryLambda. apply restores_bind; [reads|intros b]. apply restores_bind; [reads|intros k]. destruct (b && _).
  - apply answering_restores. repeat (apply answering_bind; intros ?). discriminate.
  - apply restores_bind; [reads|intros lp]. destruct lp; [apply spec_restores; keeps_all|apply restores_none].
Qed.

Lemma restores_typeArgs `{Input} {r : Rec} `{!KeepsRec reporting r} : restores tryTypeArgs.
Proof. unfold tryTypeArgs. apply restores_bind; [reads|intros []]; [apply spec_restores; exact _|apply restores_none]. Qed.

(** C14: an attempt that fails (a cast, a lambda, type arguments, a pattern, a
    local variable, a constructor call, a receiver, a package declaration, the
    head of an enhanced for) leaves the cursor, the diagnostics, the budget, the
    level of nesting and the flags of the reporter exactly as they were. *)
Theorem failed_attempts_restore (i : Input) (n : nat) (r := parsers n) (semi : bool) :
  restores tryCast /\ restores tryLambda /\ restores tryTypeArgs /\ restores tryPattern /\ restores (tryLocalVarDecl semi) /\
  restores tryConstructorCall /\ restores tryReceiverParam /\ restores tryPackageDecl /\ restores (spec range_attempt).
Proof.
  assert (H := keeps_parsers reporting n). fold r in H.
  split_and!; first [apply restores_lambda|apply restores_typeArgs|apply spec_restores; keeps_all].
Qed.

(** An import without a name is reported. *)
Definition bare_import : Input :=
  {| unit_ := NewFile [] (bs "import ;"); mode := 0; rounds := 9;
     toks := [mkToken IMPORT CtxNone 0 1 7; mkToken SEMICOLON CtxNone 0 8 9; mkToken EOF CtxNone 0 9 9] |}.

Lemma parse_reports_witness : exists u out, parse_tokens bare_import 9 [] = Some (u, out) /\
  exists new last, out = SortDiagnostics ([] ++ new) /\ reports NoPos new last.
Proof.
  destruct (parse_tokens bare_import 9 []) as [[u out]|] eqn:E; [|vm_compute in E; discriminate E].
  exists u, out. split; [reflexivity|]. apply (parse_reports bare_import 9 [] out u). exact E.
Defined.

(** A parenthesized name is no cast. *)
Definition parenthesized : Input :=
  {| unit_ := NewFile [] (bs "(a) ;"); mode := 0; rounds := 9;
     toks := [mkToken LPAREN CtxNone 0 1 2; mkToken IDENT CtxNone 0 2 3; mkToken RPAREN CtxNone 0 3 4; mkToken SEMICOLON CtxNone 0 5 6;
              mkToken EOF CtxNone 0 6 6] |}.

Lemma failed_attempts_restore_witness : exists s, tryCast (H := parenthesized) (H0 := parsers (H := parenthesized) 9) (start []) = Some (None, s) /\ s = start [].
Proof.
  exists (start []). split; [vm_compute; reflexivity|].
  apply (proj1 (failed_attempts_restore parenthesized 9 true)). vm_compute. reflexivity.
Defined.
