(* ===== verification/ParserPrec.v ===== *)
(** * Precedence: the trees the expression parser builds

    [parseBinary q] answers a tree that nests by the precedence table: a left
    operand that is no [instanceof] binds at least as tightly as its operator, a
    right one more tightly, and the operator that follows the tree binds less
    tightly than [q]. *)
From S2P Require Import Prelude.
From S2P Require Import Token SourceFile Ast Parser ParseType ParseExpr ParseStmt ParseDecl ParseUnit ParserKeeps.

(** ** The shape of answers *)

Class Shape {A} (m : Parse A) (P : A -> Prop) : Prop := shape : forall s a s', m s = Some (a, s') -> P a.

Lemma shape_ret {A} (a : A) (P : A -> Prop) : P a -> Shape (mret a) P.
Proof. intros H s b s' [= <- _]. exact H. Qed.

Lemma shape_bind {A B} (m : Parse A) (k : A -> Parse B) P : (forall a, Shape (k a) P) -> Shape (m ≫= k) P.
Proof. intros Hk s b s'. unfold mbind, Parse_bind. destruct (m s) as [[a s1]|]; [|discriminate]. apply Hk. Qed.

Lemma shape_bind_with {A B} (m : Parse A) (k : A -> Parse B) (P : A -> Prop) Q : Shape m P -> (forall a, P a -> Shape (k a) Q) -> Shape (m ≫= k) Q.
Proof. intros Hm Hk s b s'. unfold mbind, Parse_bind. destruct (m s) as [[a s1]|] eqn:E; [|discriminate]. apply Hk. eapply Hm, E. Qed.

Lemma shape_loop {A} n (round : A -> Parse (A * bool)) a (P : A -> Prop) : P a -> (forall a, P a -> Shape (round a) (fun r => P (fst r))) -> Shape (loop n round a) P.
Proof.
  intros Ha Hr. revert a Ha. induction n as [|n IH]; intros a Ha; [intros s b s'; discriminate|]. cbn [loop].
  eapply shape_bind_with; [apply Hr, Ha|]. intros [a' []] Ha'; [apply IH, Ha'|apply shape_ret, Ha'].
Qed.

Definition if_some {A} (P : A -> Prop) (o : option A) : Prop := match o with Some a => P a | None => True end.

Lemma shape_spec {A} (try : Parse (option A)) P : Shape try (if_some P) -> Shape (spec try) (if_some P).
Proof.
  intros H s o s'. unfold spec, mbind, Parse_bind. destruct (try s) as [[[a|] s1]|] eqn:E; [| |discriminate].
  - intros [= <- _]. apply (H _ _ _ E).
  - destruct (rollback s s1) as [[[] s2]|]; [|discriminate]. intros [= <- _]. exact Logic.I.
Qed.

(** What the operators of the grammar do not apply to without parentheses. *)
Definition operand (e : Expr) : Prop :=
  match e with
  | BinaryExpr _ _ _ _ _ _ | InstanceOfExpr _ _ _ _ _ | CondExpr _ _ _ _ _ _ | AssignExpr _ _ _ _ _ _ | LambdaExpr _ _ _ _ _ _ _ => False
  | _ => True
  end.

Ltac shape_step :=
  lazymatch goal with
  | |- Shape (mret _) _ => apply shape_ret; cbn; auto
  | |- Shape (match ?x with _ => _ end) _ => destruct x
  | |- Shape (spec _) (if_some _) => apply shape_spec
  | |- Shape (mbind _ _) _ => first [eapply shape_bind_with; [typeclasses eauto|intros ? ?] | apply shape_bind; intros ?]
  | |- Shape ?m _ => first [typeclasses eauto | let h := find_head m in progress unfold h]
  end.

Ltac shapes := intros; repeat (cbv beta iota; shape_step).

Section Operands.
Context `{I : Input} {r : Rec}.

#[export] Instance shape_call lo x ta fn : Shape (call lo x ta fn) operand.
Proof. shapes. Qed.
#[export] Instance shape_classLit lo t v : Shape (classLit lo t v) operand.
Proof. shapes. Qed.
#[export] Instance shape_newExpr lo outer : Shape (parseNewExpr lo outer) operand.
Proof. shapes. Qed.
#[export] Instance shape_selector lo x : Shape (parseSelector lo x) operand.
Proof. shapes. destruct x; exact Logic.I. Qed.
#[export] Instance shape_methodRef lo x name : Shape (methodRef lo x name) (if_some operand).
Proof. shapes. Qed.
#[export] Instance shape_typed lo : Shape (spec (typed_primary lo)) (if_some operand).
Proof. shapes. Qed.
#[export] Instance shape_nameOrCall lo : Shape (parseNameOrCall lo) operand.
Proof. shapes. Qed.
#[export] Instance shape_primary : Shape parsePrimary operand.
Proof. shapes. Qed.
#[export] Instance shape_postfix : Shape parsePostfix operand.
Proof.
  unfold parsePostfix. apply shape_bind; intros lo. eapply shape_bind_with; [exact _|]. intros x Hx. apply shape_loop; [exact Hx|]. clear x Hx.
  intros x Hx. shapes. destruct a0; assumption.
Qed.
#[export] Instance shape_cast : Shape tryCast (if_some operand).
Proof. shapes. Qed.
#[export] Instance shape_unary : Shape parseUnary operand.
Proof. shapes. Qed.
End Operands.

(** ** Trees that nest by precedence *)

(** On the left of an operator ([left]) an [instanceof] may stand whatever the
    level: its type or pattern has ended it. *)
Fixpoint climbs (left : bool) (q : Z) (e : Expr) : Prop :=
  match e with
  | BinaryExpr _ X op _ _ Y => q <= Precedence op /\ climbs true (Precedence op) X /\ climbs false (Precedence op + 1) Y
  | InstanceOfExpr _ X _ _ _ => (left = false -> q <= Precedence INSTANCEOF) /\ climbs true (Precedence INSTANCEOF) X
  | CondExpr _ _ _ _ _ _ | AssignExpr _ _ _ _ _ _ | LambdaExpr _ _ _ _ _ _ _ => False
  | _ => True
  end.

Lemma operand_climbs left q e : operand e -> climbs left q e.
Proof. destruct e; cbn; tauto. Qed.

(** A ConditionalExpression, and an Expression. *)
Fixpoint conditional (e : Expr) : Prop :=
  match e with
  | CondExpr _ c _ _ _ f => climbs false 1 c /\ (conditional f \/ match f with LambdaExpr _ _ _ _ _ _ _ => True | _ => False end)
  | _ => climbs false 1 e
  end.

Definition expression (e : Expr) : Prop :=
  match e with
  | LambdaExpr _ _ _ _ _ _ _ => True
  | AssignExpr _ X _ _ _ _ => conditional X
  | _ => conditional e
  end.

Lemma climbs_conditional e : climbs false 1 e -> conditional e.
Proof. destruct e; cbn; tauto. Qed.

Lemma conditional_expression e : conditional e -> expression e.
Proof. destruct e; cbn; tauto. Qed.

Section Climbing.
Context `{I : Input}.

(** The cursor is on an operator of precedence [p]. *)
Definition operator_at (p : Z) (s : parser) : Prop :=
  exists op e n, binaryOp s = Some ((op, e, n), s) /\ n <> 0 /\ Precedence op = p.

(** Whatever operator comes next binds less tightly than [q]. *)
Definition stops (q : Z) (s : parser) : Prop := forall p, operator_at p s -> p < q.

Class Climbing (r : Rec) : Prop := {
  climbing q s e s' : rBinary q s = Some (e, s') -> depth s' = depth s -> climbs false q e /\ stops q s';
  choosing s e s' : rConditional s = Some (e, s') -> depth s' = depth s -> conditional e }.

(** Levels of nesting are lost, never gained. *)
Definition deeper (s s' : parser) : Prop := depth s <= depth s'.

#[export] Instance deeper_kept : Invariant deeper.
Proof.
  unfold deeper. split.
  - intros s. lia.
  - intros s1 s2 s3. lia.
  - intros t s s' [= <-]. cbn. lia.
  - intros lo hi msg s s'. unfold error. destruct (_ || _); intros [= <-]; cbn; lia.
  - intros i s. cbn. lia.
  - intros i b s s'. unfold budget. destruct (negb _); intros [= _ <-]; cbn; lia.
  - intros s. cbn. lia.
  - intros s s'. cbn. lia.
  - intros m s s' H. unfold rollback. case_bool_decide; [|discriminate]. intros [= <-]. cbn. lia.
Qed.

Lemma bind_inv {A B} (m : Parse A) (k : A -> Parse B) s b s' : (m ≫= k) s = Some (b, s') -> exists a s1, m s = Some (a, s1) /\ k a s1 = Some (b, s').
Proof. unfold mbind, Parse_bind. destruct (m s) as [[a s1]|]; [eauto|discriminate]. Qed.

(** A method does not climb out of its level. *)
Ltac level E :=
  lazymatch type of E with ?m ?s = Some (_, ?s') =>
    let H := fresh "Hlevel" in assert (H : deeper s s') by (refine ((_ : Keeps deeper m) _ _ _ E); keeps_all) end.

(** What a loop keeps while no level of nesting is lost. *)
Lemma loop_level {A} (P : A -> parser -> Prop) (Q : A -> parser -> Prop) n (round : A -> Parse (A * bool)) a s a' s' :
  (forall a, Keeps deeper (round a)) ->
  (forall a s a' more s', P a s -> round a s = Some ((a', more), s') -> depth s' = depth s -> if more : bool then P a' s' else Q a' s') ->
  P a s -> loop n round a s = Some (a', s') -> depth s' = depth s -> Q a' s'.
Proof.
  intros Hk Hr. revert a s. induction n as [|n IH]; intros a s Hp H Hd; [discriminate|]. cbn [loop] in H.
  apply bind_inv in H as ([a1 more] & s1 & E & H). pose proof (keeps (R := deeper) _ _ _ E) as H1. unfold deeper in H1. destruct more.
  - pose proof (keeps_loop n round a1 Hk _ _ _ H) as H2. unfold deeper in H2. apply (IH a1 s1); [apply (Hr _ _ _ true _ Hp E)| |]; lia || assumption.
  - injection H as <- <-. apply (Hr _ _ _ false _ Hp E). lia.
Qed.

Lemma binaryOp_reads : reading binaryOp.
Proof. reads. Qed.

(** At [instanceof] the operator is [instanceof]. *)
Lemma instanceof_op s b s1 : at_ INSTANCEOF s = Some (b, s1) -> s1 = s /\ (b = true -> exists e, binaryOp s = Some ((INSTANCEOF, e, 1), s)).
Proof.
  destruct (toks !! pi s) as [t|] eqn:Et; [|unfold at_, kind, tok, mbind, Parse_bind; rewrite Et; discriminate].
  assert (E1 : kind s = Some (tKind t, s)) by (unfold kind, tok, mbind, Parse_bind; rewrite Et; reflexivity).
  assert (E2 : end_ s = Some (tEnd t, s)) by (unfold end_, tok, mbind, Parse_bind; rewrite Et; reflexivity).
  unfold at_, mbind, Parse_bind at 1. rewrite E1. intros [= <- <-]. split; [reflexivity|]. intros Hk. apply Z.eqb_eq in Hk.
  exists (tEnd t). unfold binaryOp, mbind, Parse_bind. rewrite E1, E2, Hk. reflexivity.
Qed.

Lemma operator_unique p s op e n : binaryOp s = Some ((op, e, n), s) -> operator_at p s -> p = Precedence op.
Proof. intros H (op' & e' & n' & H' & _ & <-). congruence. Qed.

(** What the loop of [parseBinary] keeps. *)
Definition built (q : Z) (x : Expr) (s : parser) : Prop := climbs false q x /\ forall p, q <= p -> operator_at p s -> climbs true p x.

Context {r : Rec} `{Hk : !KeepsRec deeper r} `{Hr : !Climbing r}.

Lemma instanceOf_answers lo x : Shape (instanceOf lo x) (fun e => exists sp p t pat, e = InstanceOfExpr sp x p t pat).
Proof. unfold instanceOf. apply shape_bind; intros op. apply shape_bind; intros [pat|]; shapes; do 4 eexists; reflexivity. Qed.

Lemma round_level lo q x s x' more s' :
  built q x s -> binary_round lo q x s = Some ((x', more), s') -> depth s' = depth s -> if more : bool then built q x' s' else climbs false q x' /\ stops q s'.
Proof.
  intros [Hx Hl] H Hd. unfold binary_round in H. apply bind_inv in H as (b & s1 & E & H). destruct (instanceof_op _ _ _ E) as [-> Hi]. destruct b.
  - destruct (Hi eq_refl) as [e Ho]. destruct (Z.ltb_spec (Precedence INSTANCEOF) q) as [Hq|Hq].
    + injection H as <- <- <-. split; [exact Hx|]. intros p Hp. rewrite (operator_unique _ _ _ _ _ Ho Hp). exact Hq.
    + apply bind_inv in H as (y & s2 & Ey & H). injection H as <- <- <-. destruct (instanceOf_answers lo x _ _ _ Ey) as (sp & pp & t & pat & ->).
      assert (Hc : climbs true (Precedence INSTANCEOF) x) by (apply Hl; [exact Hq|exists INSTANCEOF, e, 1; auto]).
      split; [split; [auto|exact Hc]|]. intros p _ _. split; [discriminate|exact Hc].
  - apply bind_inv in H as ([[op e] n] & s1 & Ho & H). pose proof (binaryOp_reads _ _ _ Ho) as ->.
    destruct ((n =? 0) || (Precedence op <? q)) eqn:En.
    + injection H as <- <- <-. split; [exact Hx|]. intros p Hp. destruct (operator_unique _ _ _ _ _ Ho Hp). destruct Hp as (op' & e' & n' & Ho' & Hn & _).
      assert (n' = n) as -> by congruence. apply orb_true_iff in En as [En|En]; [apply Z.eqb_eq in En; contradiction|apply Z.ltb_lt in En; exact En].
    + apply orb_false_iff in En as [En Eq]. apply Z.eqb_neq in En. apply Z.ltb_ge in Eq.
      assert (Hc : climbs true (Precedence op) x) by (apply Hl; [exact Eq|exists op, e, n; auto]).
      apply bind_inv in H as (opp & s1 & Ep & H). apply bind_inv in H as (u & s2 & Es & H). apply bind_inv in H as (y & s3 & Ey & H).
      apply bind_inv in H as (sp & s4 & Esp & H). injection H as <- <- <-.
      level Ep. level Es. level Ey. level Esp. unfold deeper in *.
      destruct (climbing _ _ _ _ Ey ltac:(lia)) as [Hy Hs]. assert (s4 = s3) as -> by (refine ((_ : reading _) _ _ _ Esp); reads).
      split; [split_and!; assumption|]. intros p _ Hp. specialize (Hs p Hp). split_and!; [lia|exact Hc|exact Hy].
Qed.

(** Which operator comes next is a matter of the cursor. *)
Lemma kind_pi s s' : pi s' = pi s -> forall k, kind s = Some (k, s) -> kind s' = Some (k, s').
Proof. intros E k. unfold kind, tok, mbind, Parse_bind. rewrite E. destruct (toks !! pi s); cbn; [|discriminate]. intros [= <-]. reflexivity. Qed.

Lemma end_pi s s' : pi s' = pi s -> forall k, end_ s = Some (k, s) -> end_ s' = Some (k, s').
Proof. intros E k. unfold end_, tok, mbind, Parse_bind. rewrite E. destruct (toks !! pi s); cbn; [|discriminate]. intros [= <-]. reflexivity. Qed.

Lemma peek_pi n s s' : pi s' = pi s -> forall t, peek n s = Some (t, s) -> peek n s' = Some (t, s').
Proof.
  intros E t. unfold peek, mbind, Parse_bind, cursor. cbn. rewrite E. case_bool_decide; unfold must; [destruct (last toks)|destruct (toks !! _)]; cbn;
    try discriminate; intros [= <-]; reflexivity.
Qed.

Lemma binaryOp_pi s s' o : pi s' = pi s -> binaryOp s = Some (o, s) -> binaryOp s' = Some (o, s').
Proof.
  intros E H. unfold binaryOp in H. apply bind_inv in H as (k & s1 & Ek & H). assert (s1 = s) as -> by (refine ((_ : reading _) _ _ _ Ek); reads).
  apply bind_inv in H as (e & s1 & Ee & H). assert (s1 = s) as -> by (refine ((_ : reading _) _ _ _ Ee); reads).
  apply bind_inv in H as (l & s1 & El & H). injection El as <- <-.
  unfold binaryOp, mbind, Parse_bind. rewrite (kind_pi _ _ E _ Ek), (end_pi _ _ E _ Ee). cbn [ahead cursor mbind Parse_bind]. unfold ahead, cursor, mbind, Parse_bind. cbn. rewrite E.
  destruct (k =? GTR); [|injection H as <-; reflexivity]. destruct (Join _) as [j n]. destruct (0 <? n); [|injection H as <-; reflexivity].
  destruct (_ || _); [|destruct (_ || _); injection H as <-; reflexivity]. apply bind_inv in H as (t & s1 & Et & H).
  assert (s1 = s) as -> by (refine ((_ : reading _) _ _ _ Et); reads). unfold mbind, Parse_bind. rewrite (peek_pi _ _ _ E _ Et). injection H as <-. reflexivity.
Qed.

Lemma stops_pi q s s' : pi s' = pi s -> stops q s -> stops q s'.
Proof.
  intros E H p (op & e & n & Ho & Hn & Hp). apply H. exists op, e, n. split; [eapply binaryOp_pi; [symmetry; exact E|exact Ho]|auto].
Qed.

Lemma refused msg s e s' : (_ ← errorHere msg; too_deep) (set_depth (depth s + 1) s) = Some (e, s') -> depth s' = depth s -> False.
Proof. intros H Hd. level H. unfold deeper in *. cbn in *. lia. Qed.

Lemma binary_level q s e s' : parseBinary q s = Some (e, s') -> depth s' = depth s -> climbs false q e /\ stops q s'.
Proof.
  intros H Hd. unfold parseBinary, nested in H. apply bind_inv in H as (b & s1 & E & H). injection E as <- <-.
  destruct (depth s + 1 <=? maxDepth); [|destruct (refused _ _ _ _ H Hd)].
  apply bind_inv in H as (x & s1 & Ex & H). injection H as <- <-. cbn in Hd.
  apply bind_inv in Ex as (lo & s2 & Elo & Ex). apply bind_inv in Ex as (y & s3 & Ey & Ex). level Elo. level Ey. level Ex. unfold deeper in *. cbn in *.
  assert (Hb : climbs false q x /\ stops q s1); [|destruct Hb as [Hx Hs]; split; [exact Hx|eapply stops_pi; [|exact Hs]; reflexivity]].
  refine (loop_level (built q) (fun x s => climbs false q x /\ stops q s) _ _ _ _ _ _ _ _ _ Ex _); [intros a; keeps_all|exact (round_level lo q)| |lia].
  pose proof (shape_unary _ _ _ Ey) as Hy. split; [apply operand_climbs, Hy|intros p _ _; apply operand_climbs, Hy].
Qed.

(** ** Conditionals, assignments and lambdas *)

Definition is_lambda (e : Expr) : Prop := match e with LambdaExpr _ _ _ _ _ _ _ => True | _ => False end.

#[export] Instance shape_lambda : Shape tryLambda (if_some is_lambda).
Proof. shapes. Qed.

Lemma conditional_level s e s' : parseConditional s = Some (e, s') -> depth s' = depth s -> conditional e.
Proof.
  intros H Hd. unfold parseConditional in H. apply bind_inv in H as (lo & s1 & Elo & H). apply bind_inv in H as (c & s2 & Ec & H).
  apply bind_inv in H as (q & s3 & Eq & H). level Elo. level Ec. level Eq. level H. unfold deeper in *.
  assert (Hc : climbs false 1 c) by (eapply binary_level; [exact Ec|lia]). destruct q as [q|]; [|injection H as <- <-; apply climbs_conditional, Hc].
  apply bind_inv in H as (a & s4 & Ea & H). apply bind_inv in H as (cp & s5 & Ecp & H). apply bind_inv in H as (f & s6 & Ef & H).
  apply bind_inv in H as (sp & s7 & Esp & H). injection H as <- <-. level Ea. level Ecp. level Ef. level Esp. unfold deeper in *. split; [exact Hc|].
  unfold else_branch in Ef. apply bind_inv in Ef as (l & s8 & El & Ef). pose proof (shape_lambda _ _ _ El) as Hl. level El. level Ef. unfold deeper in *.
  destruct l as [l|]; [injection Ef as <- <-; right; exact Hl|]. left. eapply choosing; [exact Ef|lia].
Qed.

Lemma expr_level s e s' : parseExpr s = Some (e, s') -> depth s' = depth s -> expression e.
Proof.
  intros H Hd. unfold parseExpr, nested in H. apply bind_inv in H as (b & s1 & E & H). injection E as <- <-.
  destruct (depth s + 1 <=? maxDepth); [|destruct (refused _ _ _ _ H Hd)].
  apply bind_inv in H as (x & s1 & Ex & H). injection H as <- <-. cbn in Hd.
  apply bind_inv in Ex as (l & s2 & El & Ex). pose proof (shape_lambda _ _ _ El) as Hl. level El. level Ex. unfold deeper in *. cbn in *.
  destruct l as [l|]; [injection Ex as <- <-; destruct l; cbn in *; tauto|]. unfold parseAssign in Ex. apply bind_inv in Ex as (lo & s3 & Elo & Ex).
  apply bind_inv in Ex as (y & s4 & Ey & Ex). level Elo. level Ey. level Ex. unfold deeper in *. assert (Hy : conditional y) by (eapply conditional_level; [exact Ey|lia]).
  apply bind_inv in Ex as ([[op oe] k] & s5 & Eo & Ex). destruct (k =? 0); [injection Ex as <- <-; apply conditional_expression, Hy|].
  repeat (apply bind_inv in Ex as (? & ? & ? & Ex)). injection Ex as <- <-. exact Hy.
Qed.
End Climbing.

#[export] Instance climbing_parsers `{Input} n : Climbing (parsers n).
Proof. induction n as [|n IH]; constructor; [discriminate|discriminate|exact (binary_level (r := parsers n))|exact (conditional_level (r := parsers n))]. Qed.



(** [a + b * c] *)
Definition sum_of_product : Input :=
  {| unit_ := NewFile [] (bs "a + b * c;"); mode := 0; rounds := 9;
     toks := [mkToken IDENT CtxNone 0 1 2; mkToken ADD CtxNone 0 3 4; mkToken IDENT CtxNone 0 5 6; mkToken MUL CtxNone 0 7 8;
              mkToken IDENT CtxNone 0 9 10; mkToken SEMICOLON CtxNone 0 10 11; mkToken EOF CtxNone 0 11 11] |}.

