(* ===== verification/Sig.v ===== *)
(** * Generic signatures ([types/signature.go])

    The parser of the signature grammar of JVMS 4.7.9.1, and a grammar it is
    the parser of. *)
From S2P Require Import Prelude.

(** ** The trees *)

(** [sigNil] is a nil [sigType]. *)
Inductive sigType :=
  | sigNil
  | sigBase (ch : Z)
  | sigArray (elem : sigType)
  | sigVar (name : bytes)
  | sigClass (name : bytes) (args : list (Z * sigType)) (suffix : list (bytes * list (Z * sigType))).

(** [wild] is 0 for a plain argument, or the wildcard's character. *)
Abbreviation sigArg := (Z * sigType)%type.
Abbreviation sigSuffix := (bytes * list sigArg)%type.

Record sigParam := mkParam { pname : bytes; pbounds : list sigType }.
Record classSig := mkClassSig { csParams : list sigParam; csSuper : sigType; csIfaces : list sigType }.
Record methodSig := mkMethodSig {
  msParams : list sigParam; msArgs : list sigType; msResult : sigType; msThrows : list sigType }.

(** ** The parser *)

(** What is left of [p.s] from [p.i], and the first error. *)
Record sigParser := mkSP { rest : bytes; serr : option goerror }.

(** A method of the parser; [None] is out of fuel. *)
Definition SP (A : Type) : Type := sigParser -> option (A * sigParser).

#[export] Instance SP_ret : MRet SP := fun _ a p => Some (a, p).
#[export] Instance SP_bind : MBind SP := fun _ _ k m p => match m p with Some (a, p) => k a p | None => None end.

Definition fail (e : goerror) : SP unit := fun p =>
  Some (tt, match serr p with None => mkSP (rest p) (Some e) | Some _ => p end).

Definition done (p : sigParser) : bool := match rest p with [] => true | _ => false end.
Definition at_ (c : Z) (p : sigParser) : bool := match rest p with b :: _ => b =? c | [] => false end.
Definition ok (p : sigParser) : bool := match serr p with None => true | Some _ => false end.

(** A test of the parser. *)
Definition ask (f : sigParser -> bool) : SP bool := fun p => Some (f p, p).

(** [p.i++] *)
Definition skip : SP unit := fun p => Some (tt, mkSP (tail (rest p)) (serr p)).

Definition next : SP Z := fun p =>
  match rest p with
  | [] => (_ ← fail (Errorf "unexpected end" []); mret 0) p
  | c :: s => Some (c, mkSP s (serr p))
  end.

Definition eat (c : Z) : SP bool := fun p =>
  if at_ c p then Some (true, mkSP (tail (rest p)) (serr p)) else (_ ← fail (Errorf "expected %s" [AStr [c]]); mret false) p.

Fixpoint indexByte (s : bytes) (c : Z) : Z :=
  match s with
  | [] => -1
  | b :: s => if b =? c then 0 else let i := indexByte s c in if i <? 0 then i else i + 1
  end.

(** The characters of [s] up to one of [stop]. *)
Fixpoint span_ident (stop s : bytes) : bytes * bytes :=
  match s with
  | [] => ([], [])
  | c :: s' => if 0 <=? indexByte stop c then ([], s) else let '(n, r) := span_ident stop s' in (c :: n, r)
  end.

Definition ident (stop : bytes) : SP bytes := fun p =>
  let '(n, r) := span_ident stop (rest p) in Some (n, mkSP r (serr p)).

(** A loop of the parser: each of them tests [p.err == nil]. *)
Fixpoint loop (n : nat) (test : sigParser -> bool) {A} (body : SP A) : SP (list A) := fun p =>
  if test p then
    match n with
    | O => None
    | S n => (x ← body; l ← loop n test body; mret (x :: l)) p
    end
  else Some ([], p).

(** A round consumes a character, unless it sets an error: what is left
    of the input is fuel enough. *)
Definition run_loop (test : sigParser -> bool) {A} (body : SP A) : SP (list A) := fun p => loop (S (length (rest p))) test body p.

(** [for !p.at(stop) && p.err == nil && !p.done() { ... }] *)
Definition until (stop : Z) {A} (body : SP A) : SP (list A) := run_loop (fun p => negb (at_ stop p) && ok p && negb (done p)) body.

(** [for p.at(c) && p.err == nil { p.next(); ... }] *)
Definition while_at (c : Z) {A} (body : SP A) : SP (list A) := run_loop (fun p => at_ c p && ok p) (_ ← next; body).

(** [for !p.done() && p.err == nil { ... }] *)
Definition to_end {A} (body : SP A) : SP (list A) := run_loop (fun p => negb (done p) && ok p) body.

Section Types.
(** [referenceType] on what a nested type takes. *)
Variable ref : SP sigType.

Definition typeArg : SP sigArg :=
  star ← ask (at_ 42);
  if star : bool then _ ← next; mret (42, sigNil)
  else
    plus ← ask (at_ 43);
    if plus : bool then _ ← next; t ← ref; mret (43, t)
    else
      minus ← ask (at_ 45);
      if minus : bool then _ ← next; t ← ref; mret (45, t)
      else t ← ref; mret (0, t).

Definition typeArgs : SP (list sigArg) :=
  lt ← ask (at_ 60);
  if negb lt then mret []
  else _ ← next; out ← until 62 typeArg; _ ← eat 62; mret out.

(** One round of the loop of [classType].  An empty name sets the error, which
    ends the loop: [None] is the [return nil] there. *)
Definition suffix_ : SP (option sigSuffix) :=
  name ← ident (bs "<.;");
  match name with
  | [] => _ ← fail (Errorf "empty nested class name" []); mret None
  | _ => args ← typeArgs; mret (Some (name, args))
  end.

Definition classType : SP sigType :=
  name ← ident (bs "<.;");
  match name with
  | [] => _ ← fail (Errorf "empty class name" []); mret sigNil
  | _ =>
      args ← typeArgs;
      sufs ← while_at 46 suffix_;
      match mapM id sufs with
      | None => mret sigNil
      | Some sufs => e ← eat 59; mret (if e : bool then sigClass name args sufs else sigNil)
      end
  end.

Definition is_base (c : Z) : bool := (0 <=? indexByte (bs "BCDFIJSZV") c).

Definition javaType : SP sigType := fun p =>
  match rest p with
  | [] => (_ ← fail (Errorf "unexpected end" []); mret sigNil) p
  | c :: _ => if is_base c then (_ ← skip; mret (sigBase c)) p else ref p
  end.

(** [referenceType] *)
Definition ref_step : SP sigType := fun p =>
  match rest p with
  | [] => (_ ← fail (Errorf "unexpected end" []); mret sigNil) p
  | c :: _ =>
      (if c =? 91 then _ ← skip; t ← javaType; mret (sigArray t)
       else if c =? 84 then
         _ ← skip; name ← ident (bs ";"); e ← eat 59; mret (if e : bool then sigVar name else sigNil)
       else if c =? 76 then _ ← skip; classType
       else _ ← fail (Errorf "not a reference type signature" []); mret sigNil) p
  end.
End Types.

Fixpoint referenceType (n : nat) : SP sigType :=
  match n with
  | O => fun _ => None
  | S n => ref_step (referenceType n)
  end.

(** A nested type is shorter: the length of the input bounds the nesting. *)
Definition refType : SP sigType := fun p => referenceType (S (length (rest p))) p.

Definition typeParam : SP sigParam :=
  name ← ident (bs ":");
  match name with
  | [] => _ ← fail (Errorf "empty type parameter name" []); mret (mkParam [] [])
  | _ =>
      e ← eat 58;
      if negb e then mret (mkParam name [])
      else
        has ← ask (fun p => negb (at_ 58 p) && negb (at_ 62 p) && negb (done p));
        cb ← (if has : bool then t ← refType; mret [t] else mret []);
        ibs ← while_at 58 refType;
        mret (mkParam name (cb ++ ibs))
  end.

Definition typeParams : SP (list sigParam) :=
  lt ← ask (at_ 60);
  if negb lt then mret []
  else _ ← next; out ← until 62 typeParam; _ ← eat 62; mret out.

(** What a parse reports: [Some None] is [false]. *)
Definition finish {A} (m : SP (option A)) (s : bytes) : option (option A) :=
  match s with
  | [] => Some None
  | _ => match m (mkSP s None) with
         | None => None
         | Some (o, p) => Some (match o with Some a => if negb (ok p) || negb (done p) then None else Some a | None => None end)
         end
  end.

Definition parseClassSignature : bytes -> option (option classSig) := finish (
  params ← typeParams;
  super ← refType;
  ifaces ← to_end refType;
  mret (Some (mkClassSig params super ifaces))).

Definition parseMethodSignature : bytes -> option (option methodSig) := finish (
  params ← typeParams;
  e ← eat 40;
  if negb e then mret None
  else
    args ← until 41 (javaType refType);
    e ← eat 41;
    if negb e then mret None
    else
      result ← javaType refType;
      throws ← while_at 94 refType;
      mret (Some (mkMethodSig params args result throws))).

Definition parseFieldSignature : bytes -> option (option sigType) := finish (t ← refType; mret (Some t)).
