(* ===== verification/SigProof.v ===== *)
(** * What signatures the parser reads

    A grammar of signatures, after JVMS 4.7.9.1, and the proof that the parser
    comes to an end on every string, and reads a string to a tree exactly when
    the grammar gives the string for the tree. *)
From S2P Require Import Prelude.
From S2P Require Import Sig.

(** ** The grammar *)

(** No character of [stop] occurs in [n]. *)
Definition plain (stop n : bytes) : Prop := Forall (fun c => (0 <=? indexByte stop c) = false) n.

Inductive g_ref : sigType -> bytes -> Prop :=
  | G_array t s : g_java t s -> g_ref (sigArray t) (91 :: s)
  | G_var n : plain (bs ";") n -> g_ref (sigVar n) (84 :: n ++ [59])
  | G_class n a sa f sf : n <> [] -> plain (bs "<.;") n -> g_args a sa -> g_sufs f sf -> g_ref (sigClass n a f) (76 :: n ++ sa ++ sf ++ [59])
with g_java : sigType -> bytes -> Prop :=
  | G_base c : is_base c = true -> g_java (sigBase c) [c]
  | G_ref t s : g_ref t s -> g_java t s
with g_args : list sigArg -> bytes -> Prop :=
  | G_none : g_args [] []
  | G_some l s : g_list l s -> g_args l (60 :: s ++ [62])
with g_list : list sigArg -> bytes -> Prop :=
  | G_nil : g_list [] []
  | G_cons a l s ls : g_arg a s -> g_list l ls -> g_list (a :: l) (s ++ ls)
with g_arg : sigArg -> bytes -> Prop :=
  | G_star : g_arg (42, sigNil) [42]
  | G_wild c t s : c = 43 \/ c = 45 -> g_ref t s -> g_arg (c, t) (c :: s)
  | G_plain t s : g_ref t s -> g_arg (0, t) s
with g_sufs : list sigSuffix -> bytes -> Prop :=
  | G_top : g_sufs [] []
  | G_nested n a sa f sf : n <> [] -> plain (bs "<.;") n -> g_args a sa -> g_sufs f sf -> g_sufs ((n, a) :: f) (46 :: n ++ sa ++ sf).

Scheme g_ref_m := Minimality for g_ref Sort Prop
  with g_java_m := Minimality for g_java Sort Prop
  with g_args_m := Minimality for g_args Sort Prop
  with g_list_m := Minimality for g_list Sort Prop
  with g_arg_m := Minimality for g_arg Sort Prop
  with g_sufs_m := Minimality for g_sufs Sort Prop.
Combined Scheme g_mutual from g_ref_m, g_java_m, g_args_m, g_list_m, g_arg_m, g_sufs_m.

(** A run of one or more, each after a character. *)
Inductive g_run {A} (mark : bytes) (g : A -> bytes -> Prop) : list A -> bytes -> Prop :=
  | R_nil : g_run mark g [] []
  | R_cons a l s ls : g a s -> g_run mark g l ls -> g_run mark g (a :: l) (mark ++ s ++ ls).

(** The class bound, which may be left out, and the interface bounds. *)
Inductive g_param : sigParam -> bytes -> Prop :=
  | G_param n cb scb ibs sibs : n <> [] -> plain (bs ":") n -> head n <> Some 62 ->
      (cb = [] /\ scb = [] \/ exists t, cb = [t] /\ g_ref t scb) -> g_run [58] g_ref ibs sibs ->
      g_param (mkParam n (cb ++ ibs)) (n ++ 58 :: scb ++ sibs).

(** A parameter with no bound is read only at the end of the list. *)
Inductive g_plist : list sigParam -> bytes -> Prop :=
  | P_nil : g_plist [] []
  | P_cons p l s ls : g_param p s -> g_plist l ls -> (pbounds p = [] -> l = []) -> g_plist (p :: l) (s ++ ls).
Inductive g_params : list sigParam -> bytes -> Prop :=
  | P_none : g_params [] []
  | P_some l s : g_plist l s -> g_params l (60 :: s ++ [62]).

Definition g_class (c : classSig) (s : bytes) : Prop :=
  exists sp ss si, s = sp ++ ss ++ si /\ g_params (csParams c) sp /\ g_ref (csSuper c) ss /\ g_run [] g_ref (csIfaces c) si.
Definition g_method (m : methodSig) (s : bytes) : Prop :=
  exists sp sa sr st, s = sp ++ 40 :: sa ++ 41 :: sr ++ st /\ g_params (msParams m) sp /\
    g_run [] g_java (msArgs m) sa /\ g_java (msResult m) sr /\ g_run [94] g_ref (msThrows m) st.

(** ** Steps that read what a relation allows *)

(** On at most [n] characters, [m] comes to an end, leaves what it has not
    read, and when no error is set had none and read what [R] allows. *)
Definition spells (n : nat) {A} (m : SP A) (R : A -> bytes -> Prop) : Prop :=
  forall p, (length (rest p) <= n)%nat ->
    exists a p' s, m p = Some (a, p') /\ rest p = s ++ rest p' /\ (serr p' = None -> serr p = None /\ R a s).

Lemma bind_run {A B} (m : SP A) (k : A -> SP B) p a p' : m p = Some (a, p') -> (m ≫= k) p = k a p'.
Proof. intros H. unfold mbind, SP_bind. rewrite H. reflexivity. Qed.

Lemma spells_weaken n {A} (m : SP A) (R R' : A -> bytes -> Prop) :
  spells n m R -> (forall a s, R a s -> R' a s) -> spells n m R'.
Proof. intros H HR p Hp. destruct (H p Hp) as (a & p' & s & E & Es & Hs). exists a, p', s. split_and!; auto. intros He. destruct (Hs He). auto. Qed.

Lemma spells_ret n {A} (a : A) : spells n (mret a) (fun b s => b = a /\ s = []).
Proof. intros p _. exists a, p, []. auto. Qed.

Lemma spells_bind n {A B} (m : SP A) (k : A -> SP B) R (S : A -> B -> bytes -> Prop) :
  spells n m R -> (forall a, spells n (k a) (S a)) -> spells n (m ≫= k) (fun b s => exists a s1 s2, s = s1 ++ s2 /\ R a s1 /\ S a b s2).
Proof.
  intros Hm Hk p Hp. destruct (Hm p Hp) as (a & p1 & s1 & E1 & Es1 & H1). destruct (Hk a p1) as (b & p2 & s2 & E2 & Es2 & H2).
  { rewrite Es1, length_app in Hp. lia. }
  exists b, p2, (s1 ++ s2). split_and!.
  - unfold mbind, SP_bind. rewrite E1. exact E2.
  - rewrite Es1, Es2, app_assoc. reflexivity.
  - intros He. destruct (H2 He) as [He1 HS]. destruct (H1 He1) as [He0 HR]. eauto 10.
Qed.

Lemma spells_fail n e : spells n (fail e) (fun _ _ => False).
Proof.
  intros p _. unfold fail. destruct (serr p) eqn:E; eexists _, _, []; (split; [reflexivity|]); cbn; (split; [reflexivity|]); congruence.
Qed.

Lemma spells_eat n c : spells n (eat c) (fun b s => b = true /\ s = [c]).
Proof.
  intros [[|x s] e] _; unfold eat; cbn.
  - eexists _, _, []. split; [reflexivity|]. cbn. split; [destruct e; reflexivity|]. destruct e; discriminate.
  - destruct (x =? c) eqn:E; to_Z; subst.
    + exists true, (mkSP s e), [c]. auto.
    + eexists _, _, []. split; [reflexivity|]. cbn. split; [destruct e; reflexivity|]. destruct e; discriminate.
Qed.

Lemma span_ident_eq stop s n r : span_ident stop s = (n, r) ->
  s = n ++ r /\ plain stop n /\ (forall c r', r = c :: r' -> (0 <=? indexByte stop c) = true).
Proof.
  revert n r. induction s as [|c s IH]; intros n r; cbn [span_ident].
  - intros [= <- <-]. split_and!; [reflexivity|constructor|discriminate].
  - destruct (0 <=? indexByte stop c) eqn:E; [intros [= <- <-]; split_and!; [reflexivity|constructor|intros ? ? [= <- <-]; exact E]|].
    destruct (span_ident stop s) as [n1 r1]. destruct (IH n1 r1 eq_refl) as (-> & H1 & H2). intros [= <- <-].
    split_and!; [reflexivity|constructor; assumption|exact H2].
Qed.

Lemma spells_ident n stop : spells n (ident stop) (fun name s => name = s /\ plain stop s).
Proof.
  intros p _. unfold ident. destruct (span_ident stop (rest p)) as [nm r] eqn:E. destruct (span_ident_eq _ _ _ _ E) as (H1 & H2 & _).
  exists nm, (mkSP r (serr p)), nm. auto.
Qed.

(** A step guarded by a test of the parser. *)
Lemma spells_ask n {B} (f : sigParser -> bool) (k : bool -> SP B) S :
  (forall p, (length (rest p) <= n)%nat -> exists b p' s, k (f p) p = Some (b, p') /\ rest p = s ++ rest p' /\ (serr p' = None -> serr p = None /\ S b s)) ->
  spells n (ask f ≫= k) S.
Proof. intros H p Hp. exact (H p Hp). Qed.

(** *** Loops *)

Definition consumes {A} (R : A -> bytes -> Prop) : Prop := forall a s, R a s -> s <> [].

Lemma spells_loop n test {A} (body : SP A) R : spells n body R -> consumes R -> (forall p, test p = true -> ok p = true) ->
  spells n (run_loop test body) (g_run [] R).
Proof.
  intros Hbody Hc Ht. assert (H : forall k p, (length (rest p) <= n)%nat -> (length (rest p) < k)%nat ->
    exists a p' s, loop k test body p = Some (a, p') /\ rest p = s ++ rest p' /\ (serr p' = None -> serr p = None /\ g_run [] R a s)).
  { induction k as [|k IH]; intros p Hp Hk; [lia|]. cbn [loop]. destruct (test p) eqn:G.
    - destruct (Hbody p Hp) as (a & p1 & s1 & E1 & Es1 & H1). unfold mbind, SP_bind. rewrite E1. destruct (serr p1) as [e|] eqn:Ee.
      + assert (E2 : loop k test body p1 = Some ([], p1)).
        { destruct (test p1) eqn:G1; [|destruct k; cbn [loop]; rewrite G1; reflexivity]. apply Ht in G1. unfold ok in G1. rewrite Ee in G1. discriminate. }
        rewrite E2. exists [a], p1, s1. split_and!; auto. congruence.
      + destruct (H1 eq_refl) as [He HR]. pose proof (Hc _ _ HR) as Hne. rewrite Es1, length_app in Hp, Hk.
        assert (0 < length s1)%nat by (destruct s1; [congruence|cbn; lia]).
        destruct (IH p1 ltac:(lia) ltac:(lia)) as (l & p2 & s2 & E2 & Es2 & H2). rewrite E2.
        exists (a :: l), p2, (s1 ++ s2). rewrite Es1, Es2, app_assoc. split_and!; auto. intros He2. split; [exact He|].
        apply (R_cons [] R); [exact HR|]. apply H2, He2.
    - exists [], p, []. split_and!; auto. split; auto. constructor. }
  intros p Hp. apply (H (S (length (rest p)))); lia.
Qed.

Lemma spells_next n : spells n next (fun c s => s = [c]).
Proof.
  intros [[|x s] e] _; unfold next; cbn.
  - eexists _, _, []. split; [reflexivity|]. cbn. split; [destruct e; reflexivity|]. destruct e; discriminate.
  - exists x, (mkSP s e), [x]. auto.
Qed.

Lemma spells_at n c {B} (k : bool -> SP B) (m : SP B) R1 R2 :
  k true = (_ ← next; m) -> spells n m R1 -> spells n (k false) R2 ->
  spells n (b ← ask (at_ c); k b) (fun a s => (exists s', s = c :: s' /\ R1 a s') \/ R2 a s).
Proof.
  intros Hk H1 H2 p Hp. unfold mbind, SP_bind, ask. destruct (at_ c p) eqn:E.
  - rewrite Hk. unfold at_ in E. destruct p as [[|x s] e]; [discriminate|]. cbn in E, Hp. to_Z. subst x.
    destruct (H1 (mkSP s e)) as (a & p' & s' & E1 & Es & Hs); [cbn; lia|].
    exists a, p', (c :: s'). cbn in *. split_and!; [exact E1|rewrite Es; reflexivity|]. intros He. destruct (Hs He). eauto.
  - destruct (H2 p Hp) as (a & p' & s' & E1 & Es & Hs). exists a, p', s'. split_and!; auto. intros He. destruct (Hs He). auto.
Qed.

Lemma spells_while_at n c {A} (body : SP A) R : spells n body R -> spells n (while_at c body) (g_run [c] R).
Proof.
  intros H. unfold while_at. assert (HL : forall k p, (length (rest p) <= n)%nat -> (length (rest p) < k)%nat ->
    exists a p' s, loop k (fun p => at_ c p && ok p) (_ ← next; body) p = Some (a, p') /\ rest p = s ++ rest p' /\
      (serr p' = None -> serr p = None /\ g_run [c] R a s)).
  2:{ intros p Hp. apply (HL (S (length (rest p)))); lia. }
  intros k. induction k as [|k IH]; intros p Hp Hk; [lia|]. cbn [loop]. destruct (at_ c p && ok p) eqn:G.
  - apply andb_prop in G as [Ga Go]. destruct p as [[|x s] e]; [discriminate|]. cbn in Ga, Hp, Hk. to_Z. subst x.
    destruct (H (mkSP s e)) as (a & p1 & s1 & E1 & Es1 & H1); [cbn; lia|].
    rewrite (bind_run (_ ← next; body) _ (mkSP (c :: s) e) a p1 E1). cbn in Es1. assert (length s = length s1 + length (rest p1))%nat by (rewrite Es1, length_app; reflexivity).
    destruct (IH p1 ltac:(lia) ltac:(lia)) as (l & p2 & s2 & E2 & Es2 & H2). rewrite (bind_run _ _ _ _ _ E2).
    exists (a :: l), p2, (c :: s1 ++ s2). cbn [rest]. rewrite Es1, Es2. split_and!; [reflexivity|cbn; rewrite app_assoc; reflexivity|].
    intros He. destruct (H2 He) as [He1 HL]. destruct (H1 He1) as [He0 HR]. split; [exact He0|].
    apply (R_cons [c] R); assumption.
  - exists [], p, []. split_and!; auto. split; auto. constructor.
Qed.

(** ** What each method reads *)

Lemma g_ref_ne : consumes g_ref.
Proof. intros t s []; discriminate. Qed.
Lemma g_java_ne : consumes g_java.
Proof. intros t s [c Hc|t' s' H]; [discriminate|]. eapply g_ref_ne, H. Qed.
Lemma g_arg_ne : consumes g_arg.
Proof. intros t s []; try discriminate. eapply g_ref_ne; eauto. Qed.

Lemma list_of_run l s : g_run [] g_arg l s -> g_list l s.
Proof. induction 1; [constructor|]. cbn. constructor; assumption. Qed.

Section Nested.
Context (n : nat) (ref : SP sigType) (Href : spells n ref g_ref).

Lemma spells_typeArg : spells n (typeArg ref) g_arg.
Proof.
  unfold typeArg. eapply spells_weaken.
  - eapply (spells_at n 42 (fun star => if star : bool then _ else _)); [reflexivity|apply spells_ret|].
    eapply (spells_at n 43 (fun star => if star : bool then _ else _)); [reflexivity|eapply spells_bind; [exact Href|intros; apply spells_ret]|].
    eapply (spells_at n 45 (fun star => if star : bool then _ else _)); [reflexivity|eapply spells_bind; [exact Href|intros; apply spells_ret]..].
  - cbn. intros a s H. repeat match goal with H : _ \/ _ |- _ => destruct H | H : exists _, _ |- _ => destruct H | H : _ /\ _ |- _ => destruct H end;
      subst; rewrite ?app_nil_r; constructor; auto.
Qed.

Lemma spells_typeArgs : spells n (typeArgs ref) g_args.
Proof.
  unfold typeArgs. eapply spells_weaken.
  - eapply (spells_at n 60 (fun lt => if negb lt then _ else _)); [reflexivity| |apply spells_ret].
    eapply spells_bind; [apply spells_loop; [apply spells_typeArg|exact g_arg_ne|]|].
    + intros p H. apply andb_prop in H as [H _]. apply andb_prop in H as [_ H]. exact H.
    + intros l. eapply spells_bind; [apply spells_eat|]. intros b. apply spells_ret.
  - cbn. intros a s [(s' & -> & l & s1 & s2 & -> & Hl & b & s3 & s4 & -> & [_ ->] & -> & ->)|[-> ->]]; [|constructor].
    rewrite app_nil_r. constructor. apply list_of_run, Hl.
Qed.

Definition r_suffix (o : option sigSuffix) (s : bytes) : Prop :=
  exists name a sa, o = Some (name, a) /\ s = name ++ sa /\ name <> [] /\ plain (bs "<.;") name /\ g_args a sa.

Lemma spells_suffix : spells n (suffix_ ref) r_suffix.
Proof.
  unfold suffix_. eapply spells_weaken.
  - eapply (spells_bind n _ _ _ (fun name o s => exists a, o = Some (name, a) /\ name <> [] /\ g_args a s)); [apply spells_ident|]. intros [|c name].
    + eapply spells_weaken; [eapply spells_bind; [apply spells_fail|intros; apply spells_ret]|]. cbn. intros a s (? & ? & ? & _ & [] & _).
    + eapply spells_weaken; [eapply spells_bind; [apply spells_typeArgs|intros; apply spells_ret]|]. cbn.
      intros o s (a & s1 & s2 & -> & H & -> & ->). rewrite app_nil_r. eauto.
  - cbn. intros o s (name & s1 & s2 & -> & [-> Hp] & a & -> & Hn & Ha). exists s1, a, s2. auto.
Qed.

Lemma sufs_of_run l s : g_run [46] r_suffix l s -> exists f, mapM id l = Some f /\ g_sufs f s.
Proof.
  induction 1 as [|o l s ls (name & a & sa & -> & -> & Hn & Hp & Ha) _ (f & E & Hf)]; [exists []; split; [reflexivity|constructor]|].
  exists ((name, a) :: f). split; [cbn; rewrite E; reflexivity|]. cbn. rewrite <- app_assoc. constructor; auto.
Qed.

Definition r_class (t : sigType) (s : bytes) : Prop := g_ref t (76 :: s).

Lemma spells_classType : spells n (classType ref) r_class.
Proof.
  unfold classType. eapply spells_weaken.
  - eapply (spells_bind n _ _ _ (fun name t s => exists a sa f sf, t = sigClass name a f /\ name <> [] /\ s = sa ++ sf ++ [59] /\ g_args a sa /\ g_sufs f sf));
      [apply spells_ident|]. intros [|c name].
    + eapply spells_weaken; [eapply spells_bind; [apply spells_fail|intros; apply spells_ret]|]. cbn. intros a s (? & ? & ? & _ & [] & _).
    + eapply spells_weaken.
      * eapply spells_bind; [apply spells_typeArgs|]. intros a.
        eapply (spells_bind n _ _ _ (fun l t s => match mapM id l with None => True | Some f => t = sigClass (c :: name) a f /\ s = [59] end)).
        { apply spells_while_at, spells_suffix. }
        intros l. destruct (mapM id l) as [f|]; [|eapply spells_weaken; [apply spells_ret|auto]].
        eapply spells_weaken; [eapply spells_bind; [apply spells_eat|intros; apply spells_ret]|]. cbn.
        intros t s (b & s1 & s2 & -> & [-> ->] & -> & ->). auto.
      * cbn. intros t s (a & sa & s2 & -> & Ha & l & sf & s3 & -> & Hl & H). destruct (sufs_of_run _ _ Hl) as (f & E & Hf). rewrite E in H.
        destruct H as [-> ->]. exists a, sa, f, sf. split_and!; auto.
  - cbn. intros t s (name & s1 & s2 & -> & [-> Hp] & a & sa & f & sf & -> & Hn & -> & Ha & Hf). constructor; auto.
Qed.

Lemma spells_javaType : spells n (javaType ref) g_java.
Proof.
  intros p Hp. unfold javaType. destruct p as [[|c s] e]; cbn [rest].
  - destruct (spells_fail n (Errorf "unexpected end" []) (mkSP [] e) Hp) as (u & p' & s' & E & Es & H). unfold mbind, SP_bind. rewrite E.
    exists sigNil, p', s'. split_and!; auto. intros He. destruct (H He) as [_ []].
  - destruct (is_base c) eqn:E; [|destruct (Href _ Hp) as (t & p' & s' & E1 & Es & H); exists t, p', s'; split_and!; auto; intros He; destruct (H He); split; auto; constructor; auto].
    exists (sigBase c), (mkSP s e), [c]. split_and!; auto. split; auto. constructor. exact E.
Qed.

(** Past the character that says which form it is. *)
Lemma spells_skip {A} (m : SP A) R c s e : spells n m R -> (length s <= n)%nat ->
  exists a p' s', (_ ← skip; m) (mkSP (c :: s) e) = Some (a, p') /\ c :: s = s' ++ rest p' /\
    (serr p' = None -> e = None /\ exists s1, s' = c :: s1 /\ R a s1).
Proof.
  intros H Hl. destruct (H (mkSP s e) Hl) as (a & p' & s1 & E & Es & Hs). exists a, p', (c :: s1). cbn in *.
  split_and!; [exact E|congruence|]. intros He. destruct (Hs He). eauto.
Qed.

Lemma spells_ref_step : spells (S n) (ref_step ref) g_ref.
Proof.
  intros [[|c s] e] Hp; unfold ref_step; cbn [rest length] in *.
  - destruct (spells_fail 0 (Errorf "unexpected end" []) (mkSP [] e)) as (u & p' & s' & Eu & Es & H); [cbn; lia|]. unfold mbind, SP_bind. rewrite Eu.
    exists sigNil, p', s'. split_and!; auto. intros He. destruct (H He) as [_ []].
  - repeat bool_case; to_Z; subst.
    + edestruct (spells_skip (t ← javaType ref; mret (sigArray t))) as (t & p' & s' & Et & Es & H);
        [eapply spells_bind; [apply spells_javaType|intros; apply spells_ret]|apply le_S_n, Hp|]. exists t, p', s'. split_and!; [exact Et|exact Es|].
      intros He. destruct (H He) as (H0 & s1 & -> & t1 & s2 & s3 & -> & Hj & -> & ->). rewrite app_nil_r. split; auto. constructor. assumption.
    + edestruct (spells_skip (name ← ident (bs ";"); b ← eat 59; mret (if b : bool then sigVar name else sigNil))) as (t & p' & s' & Et & Es & H);
        [eapply spells_bind; [apply spells_ident|intros; eapply spells_bind; [apply spells_eat|intros; apply spells_ret]]|apply le_S_n, Hp|].
      exists t, p', s'. split_and!; [exact Et|exact Es|].
      intros He. destruct (H He) as (H0 & s1 & -> & name & s2 & s3 & -> & [-> Hpl] & b & s4 & s5 & -> & [-> ->] & -> & ->). split; auto. constructor. assumption.
    + edestruct (spells_skip (classType ref)) as (t & p' & s' & Et & Es & H); [apply spells_classType|apply le_S_n, Hp|].
      exists t, p', s'. split_and!; [exact Et|exact Es|]. intros He. destruct (H He) as (H0 & s1 & -> & Hc). auto.
    + destruct (spells_fail (S n) (Errorf "not a reference type signature" []) (mkSP (c :: s) e) Hp) as (u & p' & s' & Eu & Es & H).
      unfold mbind, SP_bind. rewrite Eu. exists sigNil, p', s'. split_and!; auto. intros He. destruct (H He) as [_ []].
Qed.
End Nested.

Lemma spells_weaken_n m n {A} (f : SP A) R : (m <= n)%nat -> spells n f R -> spells m f R.
Proof. intros Hl H p Hp. apply H. lia. Qed.

Lemma spells_referenceType n : spells n (referenceType (S n)) g_ref.
Proof.
  induction n as [|n IH]; [|apply spells_ref_step, IH].
  intros [[|c s] e] Hp; [|cbn in Hp; lia]. cbn [referenceType]. unfold ref_step. cbn [rest].
  destruct (spells_fail 0 (Errorf "unexpected end" []) (mkSP [] e)) as (u & p' & s' & E & Es & H); [cbn; lia|]. unfold mbind, SP_bind. rewrite E.
  exists sigNil, p', s'. split_and!; auto. intros He. destruct (H He) as [_ []].
Qed.

Lemma spells_refType n : spells n refType g_ref.
Proof. intros p _. apply spells_referenceType. lia. Qed.

(** *** Type parameters *)

Lemma while_at_none c {A} (body : SP A) p p' : while_at c body p = Some ([], p') -> serr p' = None -> p' = p /\ at_ c p = false.
Proof.
  unfold while_at, run_loop. cbn [loop]. destruct (at_ c p && ok p) eqn:G.
  - intros E. exfalso. revert E. unfold mbind, SP_bind. repeat (case_match; try discriminate).
  - intros [= <-] He. split; [reflexivity|]. unfold ok in G. rewrite He, andb_true_r in G. exact G.
Qed.

(** The optional class bound. *)
Lemma class_bound n (has : sigParser -> bool) p : (length (rest p) <= n)%nat ->
  exists cb p' s, (if has p then t ← refType; mret [t] else mret []) p = Some (cb, p') /\ rest p = s ++ rest p' /\
    (serr p' = None -> serr p = None /\ (cb = [] /\ s = [] /\ p' = p /\ has p = false \/ exists t, cb = [t] /\ g_ref t s)).
Proof.
  intros Hp. destruct (has p).
  - destruct (spells_refType n p Hp) as (t & p' & s & E & Es & H). exists [t], p', s. rewrite (bind_run _ _ _ _ _ E).
    split_and!; auto. intros He. destruct (H He). eauto.
  - exists [], p, []. split_and!; auto. intros He. split; [exact He|left; auto].
Qed.

(** A parameter read with no bound is at the end of the list. *)
Lemma typeParam_reads n p : (length (rest p) <= n)%nat -> at_ 62 p = false ->
  exists q p' s, typeParam p = Some (q, p') /\ rest p = s ++ rest p' /\
    (serr p' = None -> serr p = None /\ g_param q s /\ (pbounds q = [] -> at_ 62 p' || done p' = true)).
Proof.
  intros Hp H62. unfold typeParam. destruct (spells_ident n (bs ":") p Hp) as (name & p1 & s1 & E1 & Es1 & H1).
  rewrite (bind_run _ _ _ _ _ E1). assert (Hp1 : (length (rest p1) <= n)%nat) by (rewrite Es1, length_app in Hp; lia).
  destruct name as [|c name].
  { destruct (spells_bind n _ _ _ _ (spells_fail n (Errorf "empty type parameter name" [])) (fun _ => spells_ret n (mkParam [] [])) p1 Hp1) as (q & p2 & s2 & E2 & Es2 & H2).
    exists q, p2, (s1 ++ s2). rewrite Es1, Es2, app_assoc. split_and!; auto. intros He. destruct (H2 He) as (_ & ? & ? & ? & _ & [] & _). }
  destruct (spells_eat n 58 p1 Hp1) as (b & p2 & s2 & E2 & Es2 & H2). rewrite (bind_run _ _ _ _ _ E2).
  assert (Hp2 : (length (rest p2) <= n)%nat) by (rewrite Es2, length_app in Hp1; lia).
  destruct b; cbn [negb].
  2:{ exists (mkParam (c :: name) []), p2, (s1 ++ s2). rewrite Es1, Es2, app_assoc. split_and!; auto. intros He. destruct (H2 He) as [_ [? _]]. discriminate. }
  set (has := fun p => negb (at_ 58 p) && negb (at_ 62 p) && negb (done p)).
  destruct (class_bound n has p2 Hp2) as (cb & p3 & s3 & E3 & Es3 & H3). unfold ask at 1. rewrite (bind_run _ _ _ (has p2) p2 eq_refl), (bind_run _ _ _ _ _ E3).
  assert (Hp3 : (length (rest p3) <= n)%nat) by (rewrite Es3, length_app in Hp2; lia).
  destruct (spells_while_at n 58 refType g_ref (spells_refType n) p3 Hp3) as (ibs & p4 & s4 & E4 & Es4 & H4). rewrite (bind_run _ _ _ _ _ E4).
  exists (mkParam (c :: name) (cb ++ ibs)), p4, (s1 ++ s2 ++ s3 ++ s4). rewrite Es1, Es2, Es3, Es4, !app_assoc. split_and!; [reflexivity|reflexivity|].
  intros He. destruct (H4 He) as [He3 Hi]. destruct (H3 He3) as [He2 Hcb]. destruct (H2 He2) as [He1 [_ ->]]. destruct (H1 He1) as [He0 [Hs Hpl]].
  subst s1. split_and!; [exact He0| |].
  - rewrite <- !app_assoc. apply (G_param (c :: name) cb s3 ibs s4); [discriminate|exact Hpl| | |exact Hi].
    + intros Hc. injection Hc as ->. unfold at_ in H62. rewrite Es1 in H62. discriminate.
    + destruct Hcb as [(-> & -> & _)|(t & -> & Ht)]; eauto.
  - cbn [pbounds]. intros Hb. apply app_eq_nil in Hb as [-> ->]. destruct (while_at_none _ _ _ _ E4 He) as [-> H58].
    destruct Hcb as [(_ & _ & -> & Hf)|(t & [=] & _)]. unfold has in Hf. rewrite H58 in Hf. destruct (at_ 62 p2), (done p2); auto; discriminate.
Qed.

Lemma plist_reads n : forall k p, (length (rest p) <= n)%nat -> (length (rest p) < k)%nat ->
  exists l p' s, loop k (fun p => negb (at_ 62 p) && ok p && negb (done p)) typeParam p = Some (l, p') /\ rest p = s ++ rest p' /\
    (serr p' = None -> serr p = None /\ g_plist l s).
Proof.
  set (test := fun p => negb (at_ 62 p) && ok p && negb (done p)). induction k as [|k IH]; intros p Hp Hk; [lia|]. cbn [loop].
  destruct (test p) eqn:G; [|exists [], p, []; split_and!; auto; split; auto; constructor].
  pose proof G as G0. unfold test in G0. apply andb_prop in G0 as [G1 _]. apply andb_prop in G1 as [G1 _]. apply negb_true_iff in G1.
  destruct (typeParam_reads n p Hp G1) as (q & p1 & s1 & E1 & Es1 & H1). rewrite (bind_run _ _ _ _ _ E1).
  assert (Hstop : test p1 = false -> loop k test typeParam p1 = Some ([], p1)) by (intros T; destruct k; cbn [loop]; rewrite T; reflexivity).
  destruct (serr p1) as [e|] eqn:Ee.
  { rewrite (bind_run _ _ p1 [] p1) by (apply Hstop; unfold test, ok; rewrite Ee, andb_false_r; reflexivity). exists [q], p1, s1. split_and!; auto. congruence. }
  destruct (H1 eq_refl) as (He & Hq & Hend). assert (0 < length s1)%nat.
  { destruct Hq as [m cb scb ibs sibs Hm]. destruct m; [congruence|cbn; lia]. }
  rewrite Es1, length_app in Hp, Hk. destruct (IH p1 ltac:(lia) ltac:(lia)) as (l & p2 & s2 & E2 & Es2 & H2). rewrite (bind_run _ _ _ _ _ E2).
  exists (q :: l), p2, (s1 ++ s2). rewrite Es1, Es2, app_assoc. split_and!; auto. intros He2. destruct (H2 He2) as [_ Hl]. split; [exact He|].
  constructor; [exact Hq|exact Hl|]. intros Hb. rewrite Hstop in E2; [congruence|]. unfold test. destruct (orb_prop _ _ (Hend Hb)) as [-> | ->]; [reflexivity|apply andb_false_r].
Qed.

Lemma spells_typeParams n : spells n typeParams g_params.
Proof.
  unfold typeParams. eapply spells_weaken.
  - eapply (spells_at n 60 (fun lt => if negb lt then _ else _)); [reflexivity| |apply spells_ret].
    eapply spells_bind; [intros p Hp; apply (plist_reads n (S (length (rest p))) p Hp); lia|].
    intros l. eapply spells_bind; [apply spells_eat|]. intros b. apply spells_ret.
  - cbn. intros a s [(s' & -> & l & s1 & s2 & -> & Hl & b & s3 & s4 & -> & [_ ->] & -> & ->)|[-> ->]]; [|constructor].
    rewrite app_nil_r. constructor. exact Hl.
Qed.

(** ** Every string of the grammar is read *)

(** [m] reads [s], whatever follows, to [a]. *)
Definition parses {A} (m : SP A) (s post : bytes) (a : A) : Prop := m (mkSP (s ++ post) None) = Some (a, mkSP post None).

Lemma parses_bind {A B} (m : SP A) (k : A -> SP B) s1 s2 post a b :
  parses m s1 (s2 ++ post) a -> parses (k a) s2 post b -> parses (m ≫= k) (s1 ++ s2) post b.
Proof. unfold parses. intros H1 H2. rewrite <- app_assoc, (bind_run _ _ _ _ _ H1). exact H2. Qed.

Lemma parses_last {A B} (m : SP A) (f : A -> B) s post a : parses m s post a -> parses (x ← m; mret (f x)) s post (f a).
Proof. unfold parses. intros H. rewrite (bind_run _ _ _ _ _ H). reflexivity. Qed.

Lemma parses_ident stop n c r : plain stop n -> (0 <=? indexByte stop c) = true -> parses (ident stop) n (c :: r) n.
Proof.
  intros Hn Hc. unfold parses, ident. cbn [rest serr].
  assert (E : span_ident stop (n ++ c :: r) = (n, c :: r)).
  { induction Hn as [|x n Hx _ IH]; cbn [span_ident app]; [rewrite Hc; reflexivity|]. rewrite Hx, IH. reflexivity. }
  rewrite E. reflexivity.
Qed.

Lemma parses_eat c post : parses (eat c) [c] post true.
Proof. unfold parses, eat, at_. cbn. rewrite Z.eqb_refl. reflexivity. Qed.
Lemma parses_next c post : parses next [c] post c.
Proof. reflexivity. Qed.
Lemma parses_skip c post : parses skip [c] post tt.
Proof. reflexivity. Qed.

(** The first character of a piece of the grammar. *)
Definition starts (cs : list Z) (s : bytes) : Prop := match s with c :: _ => c ∈ cs | [] => False end.
Lemma starts_app cs s t : starts cs s -> starts cs (s ++ t).
Proof. destruct s; [intros []|auto]. Qed.
Lemma starts_at cs c s e : starts cs s -> forallb (fun x => negb (x =? c)) cs = true -> at_ c (mkSP s e) = false.
Proof.
  destruct s as [|x s]; [intros []|]. cbn. intros Hx H. rewrite forallb_forall in H. specialize (H x). apply list_elem_of_In in Hx.
  apply H in Hx. destruct (x =? c); [discriminate|reflexivity].
Qed.

Lemma loop_nil {A} k test (body : SP A) p : test p = false -> loop k test body p = Some ([], p).
Proof. intros H. destruct k; cbn [loop]; rewrite H; reflexivity. Qed.

Lemma loop_cons {A} k test (body : SP A) p a p1 l p2 :
  test p = true -> body p = Some (a, p1) -> loop k test body p1 = Some (l, p2) -> loop (S k) test body p = Some (a :: l, p2).
Proof. intros Ht H1 H2. cbn [loop]. rewrite Ht, (bind_run _ _ _ _ _ H1), (bind_run _ _ _ _ _ H2). reflexivity. Qed.

(** The test of [until], and of [while_at]. *)
Definition t_until (stop : Z) (p : sigParser) : bool := negb (at_ stop p) && ok p && negb (done p).
Definition t_while (c : Z) (p : sigParser) : bool := at_ c p && ok p.

Definition Pref (t : sigType) (s : bytes) : Prop :=
  starts [91; 84; 76] s /\ forall n post, (length s < n)%nat -> parses (referenceType n) s post t.
Definition Pjava (t : sigType) (s : bytes) : Prop :=
  starts (bs "BCDFIJSZV[TL") s /\ forall n post, (length s < n)%nat -> parses (javaType (referenceType n)) s post t.
Definition Pargs (l : list sigArg) (s : bytes) : Prop :=
  (s = [] \/ starts [60] s) /\ forall n post, (length s < n)%nat -> at_ 60 (mkSP post None) = false -> parses (typeArgs (referenceType n)) s post l.
Definition Plist (l : list sigArg) (s : bytes) : Prop :=
  forall n k post, (length s < n)%nat -> (length s < k)%nat -> parses (loop k (t_until 62) (typeArg (referenceType n))) s (62 :: post) l.
Definition Parg (a : sigArg) (s : bytes) : Prop :=
  starts [42; 43; 45; 91; 84; 76] s /\ forall n post, (length s < n)%nat -> parses (typeArg (referenceType n)) s post a.
Definition Psufs (f : list sigSuffix) (s : bytes) : Prop :=
  (s = [] \/ starts [46] s) /\ forall n k post, (length s < n)%nat -> (length s < k)%nat ->
    parses (loop k (t_while 46) (_ ← next; suffix_ (referenceType n))) s (59 :: post) (map Some f).

(** What follows a name of a class. *)
Lemma after_name sa sf post : sa = [] \/ starts [60] sa -> sf = [] \/ starts [46] sf ->
  exists c r, sa ++ sf ++ 59 :: post = c :: r /\ (0 <=? indexByte (bs "<.;") c) = true.
Proof.
  intros [-> |Ha] [-> |Hf]; cbn [app].
  - eauto.
  - destruct sf as [|c sf]; [destruct Hf|]. cbn in Hf. apply list_elem_of_singleton in Hf as ->. eauto.
  - destruct sa as [|c sa]; [destruct Ha|]. cbn in Ha. apply list_elem_of_singleton in Ha as ->. eauto.
  - destruct sa as [|c sa]; [destruct Ha|]. cbn in Ha. apply list_elem_of_singleton in Ha as ->. eauto.
Qed.

Lemma not_lt sf post : sf = [] \/ starts [46] sf -> at_ 60 (mkSP (sf ++ 59 :: post) None) = false.
Proof. intros [-> |H]; [reflexivity|]. apply (starts_at [46]); [apply starts_app, H|reflexivity]. Qed.

Lemma t_until_go stop cs s : starts cs s -> forallb (fun x => negb (x =? stop)) cs = true -> t_until stop (mkSP s None) = true.
Proof. intros Hs Hc. unfold t_until. rewrite (starts_at _ _ _ _ Hs Hc). destruct s; [destruct Hs|reflexivity]. Qed.

Lemma ref_next n c s post : (length (c :: s) < n)%nat -> exists n', n = S n' /\ (length s < n')%nat /\
  referenceType n (mkSP ((c :: s) ++ post) None) = ref_step (referenceType n') (mkSP (c :: s ++ post) None).
Proof. intros H. destruct n as [|n']; cbn in H; [lia|]. exists n'. split_and!; [reflexivity|lia|reflexivity]. Qed.

Lemma case_array t s : g_java t s -> Pjava t s -> Pref (sigArray t) (91 :: s).
Proof.
  intros _ [_ H]. split; [cbn; set_solver|]. intros n post Hn. destruct (ref_next _ _ _ post Hn) as (n' & -> & Hl & E). unfold parses. rewrite E.
  change (ref_step (referenceType n') (mkSP (91 :: s ++ post) None)) with ((t ← javaType (referenceType n'); mret (sigArray t)) (mkSP (s ++ post) None)).
  apply parses_last, H, Hl.
Qed.

Lemma case_var n : plain (bs ";") n -> Pref (sigVar n) (84 :: n ++ [59]).
Proof.
  intros Hp. split; [cbn; set_solver|]. intros m post Hm. destruct (ref_next _ _ _ post Hm) as (m' & -> & _ & E). unfold parses. rewrite E.
  change (ref_step (referenceType m') (mkSP (84 :: (n ++ [59]) ++ post) None)) with
    ((name ← ident (bs ";"); e ← eat 59; mret (if e : bool then sigVar name else sigNil)) (mkSP ((n ++ [59]) ++ post) None)).
  eapply parses_bind; [apply (parses_ident _ n 59 post Hp); reflexivity|]. apply (parses_last (eat 59) (fun e : bool => if e then sigVar n else sigNil) [59] post true), parses_eat.
Qed.

Lemma mapM_some {A} (l : list A) : mapM (M := option) id (map Some l) = Some l.
Proof. induction l as [|x l IH]; [reflexivity|]. cbn in *. rewrite IH. reflexivity. Qed.

Lemma case_class n a sa f sf :
  n <> [] -> plain (bs "<.;") n -> g_args a sa -> Pargs a sa -> g_sufs f sf -> Psufs f sf -> Pref (sigClass n a f) (76 :: n ++ sa ++ sf ++ [59]).
Proof.
  intros Hne Hp _ [Ha Pa] _ [Hf Pf]. split; [cbn; set_solver|]. intros m post Hm. destruct (ref_next _ _ _ post Hm) as (m' & -> & Hl & E).
  unfold parses. rewrite E. change (ref_step (referenceType m') (mkSP (76 :: (n ++ sa ++ sf ++ [59]) ++ post) None)) with
    (classType (referenceType m') (mkSP ((n ++ sa ++ sf ++ [59]) ++ post) None)). rewrite !length_app in Hl. cbn [length] in Hl.
  unfold classType. destruct (after_name sa sf post Ha Hf) as (c & r & Ec & Hc). eapply parses_bind.
  { rewrite <- !app_assoc. cbn [app]. rewrite Ec. apply parses_ident; auto. }
  destruct n as [|x n]; [congruence|]. eapply parses_bind; [apply Pa; [lia|rewrite <- app_assoc; apply not_lt, Hf]|].
  eapply parses_bind; [apply (Pf m' (S (length (sf ++ 59 :: post))) post); [lia|rewrite length_app; lia]|]. rewrite mapM_some.
  apply (parses_last (eat 59) (fun e : bool => if e then sigClass (x :: n) a f else sigNil) [59] post true), parses_eat.
Qed.

Lemma is_base_in c : is_base c = true -> c ∈ bs "BCDFIJSZV".
Proof.
  unfold is_base. intros H. apply Z.leb_le in H. revert H. generalize (bs "BCDFIJSZV") as l. induction l as [|x l IH]; cbn [indexByte]; [lia|].
  destruct (x =? c) eqn:E; to_Z; [subst; set_solver|]. cbv zeta. bool_case; to_Z; [lia|]. intros _. right. apply IH. lia.
Qed.

Lemma case_base c : is_base c = true -> Pjava (sigBase c) [c].
Proof.
  intros Hc. split; [apply is_base_in in Hc; cbn in *; set_solver|]. intros n post _. unfold parses, javaType. cbn [rest app]. rewrite Hc. reflexivity.
Qed.

Lemma case_ref t s : g_ref t s -> Pref t s -> Pjava t s.
Proof.
  intros _ [Hs H]. split; [destruct s as [|c s]; [destruct Hs|]; cbn in *; set_solver|]. intros n post Hn. unfold parses, javaType.
  destruct s as [|c s]; [destruct Hs|]. cbn [rest app].
  assert (Hb : is_base c = false) by (cbn in Hs; repeat (apply elem_of_cons in Hs as [-> |Hs]; [reflexivity|]); set_solver).
  rewrite Hb. apply (H n post Hn).
Qed.

Lemma case_some l s : g_list l s -> Plist l s -> Pargs l (60 :: s ++ [62]).
Proof.
  intros _ H. split; [right; cbn; set_solver|]. intros n post Hn _. cbn [length] in Hn. rewrite length_app in Hn. cbn in Hn. unfold parses, typeArgs.
  change ((lt ← ask (at_ 60); if negb lt then mret [] else _ ← next; out ← until 62 (typeArg (referenceType n)); _ ← eat 62; mret out) (mkSP ((60 :: s ++ [62]) ++ post) None))
    with ((out ← until 62 (typeArg (referenceType n)); _ ← eat 62; mret out) (mkSP ((s ++ [62]) ++ post) None)).
  eapply parses_bind; [apply (H n (S (length (s ++ 62 :: post)))); [lia|rewrite length_app; lia]|].
  apply (parses_last (eat 62) (fun _ => l) [62] post true), parses_eat.
Qed.

Lemma case_nil : Plist [] [].
Proof. intros n k post _ _. apply loop_nil. reflexivity. Qed.

Lemma case_cons a l s ls : g_arg a s -> Parg a s -> g_list l ls -> Plist l ls -> Plist (a :: l) (s ++ ls).
Proof.
  intros _ [Hs Ha] _ Hl n k post Hn Hk. rewrite length_app in Hn, Hk. destruct k as [|k]; [lia|].
  assert (0 < length s)%nat by (destruct s; [destruct Hs|cbn; lia]). unfold parses. rewrite <- app_assoc.
  eapply loop_cons; [eapply t_until_go; [apply starts_app, Hs|reflexivity]|apply Ha; lia|apply Hl; lia].
Qed.

Lemma case_star : Parg (42, sigNil) [42].
Proof. split; [cbn; set_solver|]. reflexivity. Qed.

Lemma case_wild c t s : c = 43 \/ c = 45 -> g_ref t s -> Pref t s -> Parg (c, t) (c :: s).
Proof.
  intros Hc _ [_ H]. split; [cbn; destruct Hc; subst; set_solver|]. intros n post Hn. cbn in Hn.
  assert (G : (t ← referenceType n; mret (c, t)) (mkSP (s ++ post) None) = Some ((c, t), mkSP post None)) by (apply parses_last, H; lia).
  destruct Hc; subst; exact G.
Qed.

Lemma case_plain t s : g_ref t s -> Pref t s -> Parg (0, t) s.
Proof.
  intros _ [Hs H]. destruct s as [|c s]; [destruct Hs|]. cbn in Hs. split; [cbn; set_solver|]. intros n post Hn.
  assert (G : (t ← referenceType n; mret (0, t)) (mkSP ((c :: s) ++ post) None) = Some ((0, t), mkSP post None)) by (apply parses_last, H, Hn).
  repeat (apply elem_of_cons in Hs as [-> |Hs]; [exact G|]). set_solver.
Qed.

Lemma case_top : Psufs [] [].
Proof. split; [auto|]. intros n k post _ _. apply loop_nil. reflexivity. Qed.

Lemma case_nested n a sa f sf : n <> [] -> plain (bs "<.;") n -> g_args a sa -> Pargs a sa -> g_sufs f sf -> Psufs f sf ->
  Psufs ((n, a) :: f) (46 :: n ++ sa ++ sf).
Proof.
  intros Hne Hp _ [Ha Pa] _ [Hf Pf]. split; [right; cbn; set_solver|]. intros m k post Hm Hk. cbn [length] in Hm, Hk. rewrite !length_app in Hm, Hk.
  destruct k as [|k]; [lia|]. unfold parses. cbn [map]. eapply loop_cons; [reflexivity| |apply Pf; lia].
  change ((_ ← next; suffix_ (referenceType m)) (mkSP ((46 :: n ++ sa ++ sf) ++ 59 :: post) None)) with
    (suffix_ (referenceType m) (mkSP ((n ++ sa ++ sf) ++ 59 :: post) None)).
  unfold suffix_. destruct (after_name sa sf post Ha Hf) as (c & r & Ec & Hc). replace ((n ++ sa ++ sf) ++ 59 :: post) with ((n ++ sa) ++ sf ++ 59 :: post) by (rewrite <- !app_assoc; reflexivity).
  eapply (parses_bind _ _ n sa (sf ++ 59 :: post)).
  { rewrite Ec. apply parses_ident; auto. }
  destruct n as [|x n]; [congruence|]. eapply (parses_last _ (fun args => Some (x :: n, args))), Pa; [lia|apply not_lt, Hf].
Qed.

Lemma parses_mutual :
  (forall t s, g_ref t s -> Pref t s) /\ (forall t s, g_java t s -> Pjava t s) /\ (forall l s, g_args l s -> Pargs l s) /\
  (forall l s, g_list l s -> Plist l s) /\ (forall a s, g_arg a s -> Parg a s) /\ (forall f s, g_sufs f s -> Psufs f s).
Proof.
  apply g_mutual; auto using case_array, case_var, case_class, case_base, case_ref, case_some, case_nil, case_cons, case_star, case_wild, case_plain, case_top, case_nested.
  split; [auto|]. intros n post _ H. unfold parses, typeArgs, mbind, SP_bind, ask. cbn [app]. rewrite H. reflexivity.
Qed.

Lemma Pref_g t s : g_ref t s -> starts [91; 84; 76] s /\ forall post, parses refType s post t.
Proof.
  intros H. destruct (proj1 parses_mutual t s H) as [H1 H2]. split; [exact H1|]. intros post. unfold parses, refType. cbn [rest].
  apply (H2 (S (length (s ++ post))) post). rewrite length_app. lia.
Qed.

Lemma Pjava_g t s : g_java t s -> starts (bs "BCDFIJSZV[TL") s /\ forall post, parses (javaType refType) s post t.
Proof.
  intros [c Hc|t' s' H].
  - destruct (case_base c Hc) as [H1 H2]. split; [exact H1|]. intros post. specialize (H2 1%nat). unfold parses, javaType. cbn [rest app]. rewrite Hc. reflexivity.
  - destruct (Pref_g _ _ H) as [H1 H2]. destruct (case_ref t' s' H) as [H3 _]; [apply parses_mutual, H|]. split; [exact H3|].
    intros post. specialize (H2 post). unfold parses, javaType in *. destruct s' as [|c s']; [destruct H1|]. cbn [rest app] in *.
    assert (Hb : is_base c = false) by (cbn in H1; repeat (apply elem_of_cons in H1 as [-> |H1]; [reflexivity|]); set_solver).
    rewrite Hb. exact H2.
Qed.

(** A run of items that start with none of what ends it. *)
Lemma parses_run {A} (g : A -> bytes -> Prop) (m : SP A) test l s k post :
  (forall a x, g a x -> x <> [] /\ (forall post, test (mkSP (x ++ post) None) = true) /\ forall post, parses m x post a) ->
  g_run [] g l s -> (length s < k)%nat -> test (mkSP post None) = false -> parses (loop k test m) s post l.
Proof.
  intros Hg H. revert k. induction H as [|a l s ls Ha _ IH]; intros k Hk Ht; cbn [app] in *; [apply loop_nil, Ht|].
  destruct (Hg _ _ Ha) as (Hne & Htest & Hp). rewrite length_app in Hk. destruct k as [|k]; [lia|].
  assert (0 < length s)%nat by (destruct s; [congruence|cbn; lia]). unfold parses. rewrite <- app_assoc.
  eapply loop_cons; [apply Htest|apply Hp|apply IH; [lia|exact Ht]].
Qed.

Lemma parses_while c l s post : c <> 91 -> g_run [c] g_ref l s -> at_ c (mkSP post None) = false -> parses (while_at c refType) s post l.
Proof.
  intros _ H Hp. unfold parses, while_at, run_loop. cbn [rest].
  assert (G : forall k, (length s < k)%nat -> loop k (t_while c) (_ ← next; refType) (mkSP (s ++ post) None) = Some (l, mkSP post None)).
  2:{ apply G. rewrite length_app. lia. }
  induction H as [|t l s ls Ht _ IH]; intros k Hk.
  - apply loop_nil. unfold t_while. cbn [app]. rewrite Hp. reflexivity.
  - cbn [app length] in Hk. rewrite length_app in Hk. destruct k as [|k]; [lia|]. cbn [app]. rewrite <- app_assoc.
    eapply loop_cons; [unfold t_while, at_; cbn; rewrite Z.eqb_refl; reflexivity| |apply IH; lia].
    change ((_ ← next; refType) (mkSP (c :: s ++ ls ++ post) None)) with (refType (mkSP (s ++ ls ++ post) None)). apply Pref_g, Ht.
Qed.

(** The next parameter, or the end of the list. *)
Definition ends_param (post : bytes) : Prop := match post with c :: _ => c <> 58 | [] => False end.

Lemma parses_typeParam q s post : g_param q s -> ends_param post -> (pbounds q = [] -> at_ 62 (mkSP post None) = true) -> parses typeParam s post q.
Proof.
  intros [n cb scb ibs sibs Hne Hp Hh Hcb Hi] He Hend. unfold typeParam. eapply parses_bind; [apply parses_ident; [exact Hp|reflexivity]|].
  destruct n as [|c n]; [congruence|]. cbn [pbounds] in Hend.
  assert (G : parses (cb ← (fun p => (if negb (at_ 58 p) && negb (at_ 62 p) && negb (done p) then t ← refType; mret [t] else mret []) p);
     ibs ← while_at 58 refType; mret (mkParam (c :: n) (cb ++ ibs))) (scb ++ sibs) post (mkParam (c :: n) (cb ++ ibs))).
  { assert (Hw : parses (while_at 58 refType) sibs post ibs).
    { apply parses_while; [lia|exact Hi|]. destruct post as [|x post]; [destruct He|]. cbn in He |- *. apply Z.eqb_neq, He. }
    eapply parses_bind; [|apply (parses_last (while_at 58 refType) (fun ibs => mkParam (c :: n) (cb ++ ibs))), Hw].
    unfold parses. destruct Hcb as [[-> ->]|(t & -> & Ht)]; cbn [app].
    - assert (Ef : negb (at_ 58 (mkSP (sibs ++ post) None)) && negb (at_ 62 (mkSP (sibs ++ post) None)) && negb (done (mkSP (sibs ++ post) None)) = false).
      { destruct Hi as [|t l s' ls Ht Hl]; [|reflexivity]. cbn [app]. rewrite (Hend eq_refl). rewrite andb_false_r. reflexivity. }
      rewrite Ef. reflexivity.
    - destruct (Pref_g _ _ Ht) as [Hs Hr]. rewrite (starts_at [91; 84; 76] 58) by (try apply starts_app, Hs; reflexivity).
      rewrite (starts_at [91; 84; 76] 62) by (try apply starts_app, Hs; reflexivity).
      replace (done (mkSP (scb ++ sibs ++ post) None)) with false by (destruct scb; [destruct Hs|reflexivity]).
      apply (parses_last refType (fun t => [t])), Hr. }
  unfold parses in G |- *. cbn [app]. exact G.
Qed.

Lemma parses_plist l s post : g_plist l s -> forall k, (length s < k)%nat -> parses (loop k (t_until 62) typeParam) s (62 :: post) l.
Proof.
  induction 1 as [|q l s ls Hq Hl IH Hend]; intros k Hk; [apply loop_nil; reflexivity|]. rewrite length_app in Hk. destruct k as [|k]; [lia|].
  assert (Hs : (0 < length s)%nat) by (destruct Hq as [n ? ? ? ? Hne]; destruct n; [congruence|cbn; lia]). unfold parses. rewrite <- app_assoc.
  eapply loop_cons; [|apply parses_typeParam; [exact Hq| |]|apply IH; lia].
  - destruct Hq as [n cb scb ibs sibs Hne _ Hh _ _]. destruct n as [|c n]; [congruence|]. unfold t_until, at_, ok, done. cbn.
    destruct (c =? 62) eqn:E; to_Z; [subst; destruct (Hh eq_refl)|reflexivity].
  - destruct Hl as [|q' l s' ls' [n cb scb ibs sibs Hne Hp _ _ _] _ _]; [cbn; lia|]. destruct n as [|c n]; [congruence|]. cbn.
    apply Forall_cons in Hp as [Hp _]. intros ->. discriminate.
  - intros Hb. pose proof (Hend Hb); subst l. inversion Hl. reflexivity.
Qed.

Lemma parses_typeParams l s post : g_params l s -> at_ 60 (mkSP post None) = false -> parses typeParams s post l.
Proof.
  intros [|l' s' H] Hp; unfold parses, typeParams.
  - unfold mbind, SP_bind, ask. cbn [app]. rewrite Hp. reflexivity.
  - change ((lt ← ask (at_ 60); if negb lt then mret [] else _ ← next; out ← until 62 typeParam; _ ← eat 62; mret out) (mkSP ((60 :: s' ++ [62]) ++ post) None))
      with ((out ← until 62 typeParam; _ ← eat 62; mret out) (mkSP ((s' ++ [62]) ++ post) None)).
    eapply parses_bind; [apply (parses_plist l' s' post H (S (length (s' ++ 62 :: post)))); rewrite length_app; lia|].
    apply (parses_last (eat 62) (fun _ => l') [62] post true), parses_eat.
Qed.

(** ** Whole signatures *)

(** The three parsers, on a tree. *)
Definition class_body : SP (option classSig) :=
  params ← typeParams; super ← refType; ifaces ← to_end refType; mret (Some (mkClassSig params super ifaces)).
Definition method_body : SP (option methodSig) :=
  params ← typeParams;
  e ← eat 40;
  if negb e then mret None
  else
    args ← until 41 (javaType refType);
    e ← eat 41;
    if negb e then mret None
    else result ← javaType refType; throws ← while_at 94 refType; mret (Some (mkMethodSig params args result throws)).

Definition answer {A} (G : A -> bytes -> Prop) (o : option A) (s : bytes) : Prop := match o with Some a => G a s | None => True end.

Lemma finish_spells {A} (m : SP (option A)) G s : (forall n, spells n m (answer G)) ->
  exists o, finish m s = Some o /\ forall a, o = Some a -> s <> [] /\ G a s.
Proof.
  intros H. unfold finish. destruct s as [|c s]; [exists None; split; [reflexivity|discriminate]|].
  destruct (H _ (mkSP (c :: s) None) (Nat.le_refl _)) as (o & p' & s' & E & Es & Hs). rewrite E. eexists. split; [reflexivity|].
  intros a. destruct o as [a'|]; [|discriminate]. destruct (negb (ok p') || negb (done p')) eqn:G1; [discriminate|]. intros [= <-].
  split; [discriminate|]. apply orb_false_iff in G1 as [G1 G2]. apply negb_false_iff in G1, G2. unfold ok in G1. destruct (serr p') eqn:Ee; [discriminate|].
  unfold done in G2. destruct (rest p') eqn:Er; [|discriminate]. cbn [rest] in Es. rewrite app_nil_r in Es. rewrite Es. apply (Hs eq_refl).
Qed.

Lemma finish_parses {A} (m : SP (option A)) s a : s <> [] -> parses m s [] (Some a) -> finish m s = Some (Some a).
Proof. intros Hs H. destruct s as [|c s]; [congruence|]. unfold finish. unfold parses in H. rewrite app_nil_r in H. rewrite H. reflexivity. Qed.

Lemma run_test (stop : sigParser -> bool) p : negb (stop p) && ok p && negb (done p) = true -> ok p = true.
Proof. intros H. apply andb_prop in H as [H _]. apply andb_prop in H as [_ H]. exact H. Qed.

Lemma spells_class n : spells n class_body (answer g_class).
Proof.
  unfold class_body. eapply spells_weaken.
  - eapply spells_bind; [apply spells_typeParams|]. intros ps. eapply spells_bind; [apply spells_refType|]. intros su.
    eapply spells_bind; [apply spells_loop; [apply spells_refType|exact g_ref_ne|intros p H; apply andb_prop in H as [_ H]; exact H]|].
    intros ifs. apply spells_ret.
  - intros o s (ps & sp & s1 & -> & Hp & su & ss & s2 & -> & Hs & ifs & si & s3 & -> & Hi & -> & ->). cbn. rewrite app_nil_r.
    exists sp, ss, si. auto.
Qed.

Lemma g_params_60 l s : g_params l s -> s = [] \/ starts [60] s.
Proof. intros [|]; [auto|]. right. cbn. set_solver. Qed.

Lemma parses_class c s : g_class c s -> parses class_body s [] (Some c).
Proof.
  intros (sp & ss & si & -> & Hp & Hs & Hi). destruct c as [ps su ifs]. cbn [csParams csSuper csIfaces] in *. destruct (Pref_g _ _ Hs) as [Hst Hr].
  unfold class_body. eapply parses_bind; [apply parses_typeParams; [exact Hp|]|].
  { rewrite <- app_assoc. eapply starts_at; [apply starts_app, Hst|reflexivity]. }
  eapply parses_bind; [apply Hr|]. apply (parses_last (to_end refType) (fun ifs => Some (mkClassSig ps su ifs))).
  unfold parses, to_end, run_loop. eapply (parses_run g_ref); [|exact Hi|cbn [rest]; rewrite length_app; lia|reflexivity].
  intros t x Ht. destruct (Pref_g _ _ Ht) as [Hx Hpx]. split_and!; [destruct x; [destruct Hx|discriminate]|destruct x; [destruct Hx|reflexivity]|exact Hpx].
Qed.

Lemma spells_method n : spells n method_body (answer g_method).
Proof.
  unfold method_body. eapply spells_weaken.
  - eapply spells_bind; [apply spells_typeParams|]. intros ps.
    eapply (spells_bind n _ _ _ (fun (b : bool) o s => b = true -> answer (fun m s => msParams m = ps /\ exists sa sr st, s = sa ++ 41 :: sr ++ st /\
      g_run [] g_java (msArgs m) sa /\ g_java (msResult m) sr /\ g_run [94] g_ref (msThrows m) st) o s)); [apply spells_eat|].
    intros [|]; cbn [negb]; [|eapply spells_weaken; [apply spells_ret|discriminate]].
    eapply spells_weaken.
    + eapply spells_bind; [apply spells_loop; [apply spells_javaType, spells_refType|exact g_java_ne|apply (run_test (at_ 41))]|]. intros args.
      eapply (spells_bind n _ _ _ (fun (b : bool) o s => b = true -> answer (fun m s => msParams m = ps /\ msArgs m = args /\ exists sr st, s = sr ++ st /\
        g_java (msResult m) sr /\ g_run [94] g_ref (msThrows m) st) o s)); [apply spells_eat|].
      intros [|]; cbn [negb]; [|eapply spells_weaken; [apply spells_ret|discriminate]].
      eapply spells_weaken; [eapply spells_bind; [apply spells_javaType, spells_refType|]; intros r;
        eapply spells_bind; [apply spells_while_at, spells_refType|intros; apply spells_ret]|].
      intros o s (r & sr & s1 & -> & Hr & l & st & s2 & -> & Hl & -> & ->) _. cbn. rewrite app_nil_r. eauto 10.
    + intros o s (args & sa & s1 & -> & Ha & b & s2 & s3 & -> & [-> ->] & H) _. specialize (H eq_refl). destruct o as [m|]; [|exact I].
      cbn in *. destruct H as (H1 & H2 & sr & st & -> & H3). subst args. split; [exact H1|]. exists sa, sr, st. auto.
  - intros o s (ps & sp & s1 & -> & Hp & b & s2 & s3 & -> & [-> ->] & H). specialize (H eq_refl). destruct o as [m|]; [|exact I].
    cbn in *. destruct H as (<- & sa & sr & st & -> & H). exists sp, sa, sr, st. auto.
Qed.

Lemma parses_method m s : g_method m s -> parses method_body s [] (Some m).
Proof.
  intros (sp & sa & sr & st & -> & Hp & Ha & Hr & Ht). destruct m as [ps args r ths]. cbn [msParams msArgs msResult msThrows] in *.
  unfold method_body. eapply parses_bind; [apply parses_typeParams; [exact Hp|reflexivity]|].
  change (40 :: sa ++ 41 :: sr ++ st) with ([40] ++ sa ++ 41 :: sr ++ st). eapply parses_bind; [apply parses_eat|]. cbn [negb].
  destruct (Pjava_g _ _ Hr) as [Hst Hj]. eapply parses_bind.
  - unfold parses, until, run_loop. eapply (parses_run g_java); [|exact Ha|cbn [rest]; rewrite length_app; lia|reflexivity].
    intros t x Hx. destruct (Pjava_g _ _ Hx) as [Hx1 Hx2]. split_and!; [destruct x; [destruct Hx1|discriminate]| |exact Hx2].
    intros post. eapply (t_until_go 41); [apply starts_app, Hx1|reflexivity].
  - change (41 :: sr ++ st) with ([41] ++ sr ++ st). eapply parses_bind; [apply parses_eat|]. cbn [negb]. eapply parses_bind; [apply Hj|].
    apply (parses_last (while_at 94 refType) (fun ths => Some (mkMethodSig ps args r ths))). apply parses_while; [lia|exact Ht|reflexivity].
Qed.

