(* ===== verification/Types.v ===== *)
(** * The type model ([types/types.go], [types/erase.go], [types/subtype.go])

    Types, their identity, erasure and descriptors, and subtyping.  What a
    table answers about a class once it has completed it is the interface
    [Table]; [tparam] and [cls] are the pointers of type variables and classes. *)
From S2P Require Import Prelude.
From S2P Require Desc.

(** ** Kinds *)

Inductive Kind :=
  | KindError | KindVoid | KindNull | KindBoolean | KindByte | KindShort | KindChar | KindInt | KindLong | KindFloat
  | KindDouble | KindClass | KindArray | KindTypeVar | KindWildcard | KindIntersection.

#[export] Instance Kind_eq : EqDecision Kind.
Proof. solve_decision. Defined.

Definition KindString (k : Kind) : bytes :=
  bs match k with
  | KindError => "error" | KindVoid => "void" | KindNull => "null" | KindBoolean => "boolean" | KindByte => "byte"
  | KindShort => "short" | KindChar => "char" | KindInt => "int" | KindLong => "long" | KindFloat => "float"
  | KindDouble => "double" | KindClass => "class" | KindArray => "array" | KindTypeVar => "type variable"
  | KindWildcard => "wildcard" | KindIntersection => "intersection"
  end.

(** The constants' values. *)
Definition ord (k : Kind) : Z :=
  match k with
  | KindError => 0 | KindVoid => 1 | KindNull => 2 | KindBoolean => 3 | KindByte => 4 | KindShort => 5 | KindChar => 6
  | KindInt => 7 | KindLong => 8 | KindFloat => 9 | KindDouble => 10 | KindClass => 11 | KindArray => 12
  | KindTypeVar => 13 | KindWildcard => 14 | KindIntersection => 15
  end.

Definition IsPrimitive (k : Kind) : bool := (ord KindBoolean <=? ord k) && (ord k <=? ord KindDouble).
Definition IsNumeric (k : Kind) : bool := (ord KindByte <=? ord k) && (ord k <=? ord KindDouble).
Definition IsIntegral (k : Kind) : bool := (ord KindByte <=? ord k) && (ord k <=? ord KindLong).

(** ** Types *)

Inductive WildcardKind := Unbounded | Extends | Super.
#[export] Instance WildcardKind_eq : EqDecision WildcardKind.
Proof. solve_decision. Defined.

(** A [*sym.ClassSym], and a [*TypeVar]. *)
Definition cls := Z.
Definition tvar := Z.

(** [TBasic] holds one of the singletons, by its kind. *)
Inductive ty :=
  | TBasic (k : Kind)
  | TClass (s : option cls) (args : list ty) (outer : option ty)
  | TArray (elem : ty)
  | TVar (v : tvar)
  | TWild (w : WildcardKind) (bound : option ty)
  | TInter (bounds : list ty)
  | TError (sought : bytes).

Definition kind_of (t : ty) : Kind :=
  match t with
  | TBasic k => k
  | TClass _ _ _ => KindClass
  | TArray _ => KindArray
  | TVar _ => KindTypeVar
  | TWild _ _ => KindWildcard
  | TInter _ => KindIntersection
  | TError _ => KindError
  end.

Definition Boolean_ : ty := TBasic KindBoolean.
Definition Byte_ : ty := TBasic KindByte.
Definition Short_ : ty := TBasic KindShort.
Definition Char_ : ty := TBasic KindChar.
Definition Int_ : ty := TBasic KindInt.
Definition Long_ : ty := TBasic KindLong.
Definition Float_ : ty := TBasic KindFloat.
Definition Double_ : ty := TBasic KindDouble.
Definition Void_ : ty := TBasic KindVoid.
Definition Null_ : ty := TBasic KindNull.

(** [PrimitiveOf]: [None] is nil. *)
Definition PrimitiveOf (k : Kind) : option ty :=
  match k with
  | KindBoolean | KindByte | KindShort | KindChar | KindInt | KindLong | KindFloat | KindDouble | KindVoid | KindNull => Some (TBasic k)
  | _ => None
  end.

Definition IsRaw (args : list ty) : bool := match args with [] => true | _ => false end.

Definition arrayOf (elem : ty) (n : Z) : ty := Nat.iter (Z.to_nat n) TArray elem.

(** [intersect]: no bound is nil. *)
Definition intersect (bounds : list ty) : option ty :=
  match bounds with
  | [] => None
  | [b] => Some b
  | _ => Some (TInter bounds)
  end.

(** [IsError]; [None] is a nil [Type]. *)
Definition IsError (t : option ty) : bool :=
  match t with None => true | Some t => bool_decide (kind_of t = KindError) end.

Definition IsReference (t : ty) : bool :=
  match kind_of t with KindClass | KindArray | KindTypeVar | KindIntersection | KindNull => true | _ => false end.

Record MethodType := mkMethodType { TypeParams : list tvar; Params : list ty; Result : ty; Throws : list ty }.

(** ** What a table answers *)

Class Table := {
  Binary : cls -> bytes;
  (** The symbol of a type variable and its bound; [None] is nil. *)
  VarSym : tvar -> option Z;
  VarBound : tvar -> option ty;
  Supertype : cls -> option ty;
  Interfaces : cls -> list ty }.

Definition ObjectName : bytes := bs "java/lang/Object".
Definition SerializableName : bytes := bs "java/io/Serializable".
Definition CloneableName : bytes := bs "java/lang/Cloneable".

(** ** Primitive conversions *)

(** The switch of [Widens], on two types that are not nil. *)
Definition widens_kind (f t : Kind) : bool :=
  match f with
  | KindByte => bool_decide (t ∈ [KindShort; KindInt; KindLong; KindFloat; KindDouble])
  | KindShort | KindChar => bool_decide (t ∈ [KindInt; KindLong; KindFloat; KindDouble])
  | KindInt => bool_decide (t ∈ [KindLong; KindFloat; KindDouble])
  | KindLong => bool_decide (t ∈ [KindFloat; KindDouble])
  | KindFloat => bool_decide (t = KindDouble)
  | _ => false
  end.

(** [same] is whether [from == to], which compares pointers. *)
Definition Widens (same : bool) (from to : ty) : bool :=
  same || (IsPrimitive (kind_of from) && IsPrimitive (kind_of to) && widens_kind (kind_of from) (kind_of to)).

Definition Promote (t : ty) : ty :=
  match kind_of t with KindByte | KindShort | KindChar => Int_ | _ => t end.

Definition PromoteBinary (a b : ty) : ty :=
  let ka := kind_of a in let kb := kind_of b in
  if bool_decide (ka = KindDouble) || bool_decide (kb = KindDouble) then Double_
  else if bool_decide (ka = KindFloat) || bool_decide (kb = KindFloat) then Float_
  else if bool_decide (ka = KindLong) || bool_decide (kb = KindLong) then Long_
  else Int_.

Definition Slots (t : ty) : Z :=
  match kind_of t with KindVoid => 0 | KindLong | KindDouble => 2 | _ => 1 end.

Section Operations.
Context `{Table}.

(** ** Identity *)

(** [a == b] of two pointers makes no difference but for a type variable
    whose symbol is the same in any case. *)
Fixpoint Identical (a b : ty) : bool :=
  match a, b with
  | TBasic k, TBasic k' => bool_decide (k = k')
  | TClass s args outer, TClass s' args' outer' =>
      bool_decide (s = s') &&
      (fix all (l l' : list ty) : bool :=
         match l, l' with
         | [], [] => true
         | x :: l, x' :: l' => Identical x x' && all l l'
         | _, _ => false
         end) args args' &&
      match outer, outer' with
      | None, None => true
      | Some o, Some o' => Identical o o'
      | _, _ => false
      end
  | TArray e, TArray e' => Identical e e'
  | TVar v, TVar v' => bool_decide (VarSym v = VarSym v')
  | TWild w b, TWild w' b' =>
      bool_decide (w = w') &&
      match b, b' with
      | None, None => true
      | Some x, Some x' => Identical x x'
      | _, _ => false
      end
  | TInter l, TInter l' =>
      (fix all (l l' : list ty) : bool :=
         match l, l' with
         | [], [] => true
         | x :: l, x' :: l' => Identical x x' && all l l'
         | _, _ => false
         end) l l'
  | TError s, TError s' => bool_decide (s = s')
  | _, _ => false
  end.

(** ** Erasure *)

(** A bound is followed as often as there is fuel: the chain of bounds may
    be cyclic.  [None] is out of fuel. *)
Fixpoint Erase (n : nat) (t : ty) : option ty :=
  match n with
  | O => None
  | S n =>
      match t with
      | TClass s _ _ => Some (TClass s [] None)
      | TArray e => TArray <$> Erase n e
      | TVar v => match VarBound v with None => Some t | Some b => Erase n b end
      | TInter [] => Some t
      | TInter (b :: _) => Erase n b
      | TWild _ (Some b) => Erase n b
      | _ => Some t
      end
  end.

Definition EraseMethod (n : nat) (mt : MethodType) : option MethodType :=
  r ← Erase n (Result mt);
  ps ← mapM (Erase n) (Params mt);
  ts ← mapM (Erase n) (Throws mt);
  Some (mkMethodType [] ps r ts).

(** ** Descriptors *)

Definition objectDesc : Desc.Ty := {| Desc.TKind := Desc.Object; Desc.Dims := 0; Desc.Name := ObjectName |}.

Definition descKind (k : Kind) : Desc.Kind :=
  match k with
  | KindVoid => Desc.Void
  | KindBoolean => Desc.Boolean
  | KindByte => Desc.Byte
  | KindChar => Desc.Char
  | KindShort => Desc.Short
  | KindInt => Desc.Int
  | KindLong => Desc.Long
  | KindFloat => Desc.Float
  | KindDouble => Desc.Double
  | _ => Desc.Object
  end.

Fixpoint Descriptor (n : nat) (t : ty) : option Desc.Ty :=
  match n with
  | O => None
  | S n =>
      e ← Erase n t;
      match e with
      | TBasic k => Some {| Desc.TKind := descKind k; Desc.Dims := 0; Desc.Name := [] |}
      | TClass None _ _ => Some objectDesc
      | TClass (Some c) _ _ => Some {| Desc.TKind := Desc.Object; Desc.Dims := 0; Desc.Name := Binary c |}
      | TArray e => inner ← Descriptor n e;
          Some {| Desc.TKind := Desc.TKind inner; Desc.Dims := Desc.Dims inner + 1; Desc.Name := Desc.Name inner |}
      | _ => Some objectDesc
      end
  end.

Definition MethodDescriptor (n : nat) (mt : MethodType) : option bytes :=
  r ← Descriptor n (Result mt);
  ps ← mapM (Descriptor n) (Params mt);
  Some (Desc.MethString {| Desc.Params := ps; Desc.Ret := r |}).

(** ** Subtyping *)

Definition isObject (t : ty) : bool :=
  match t with TClass (Some c) _ _ => bool_decide (Binary c = ObjectName) | _ => false end.

Definition class_of (t : ty) : option cls := match t with TClass (Some c) _ _ => Some c | _ => None end.

(** [classSubtype] of two classes that are not nil; [seen] is the set it is
    given and the set it leaves.  The recursive calls are on what
    [Supertype], then [Interfaces] answers that is a class: [None] there is a
    class with no symbol, from which the call answers false. *)
Fixpoint classSubtype (n : nat) (sub sup : cls) (seen : gset cls) : option (bool * gset cls) :=
  match n with
  | O => None
  | S n =>
      if bool_decide (sub = sup) then Some (true, seen)
      else if bool_decide (sub ∈ seen) then Some (false, seen)
      else
        let seen := {[sub]} ∪ seen in
        if bool_decide (Binary sup = ObjectName) then Some (true, seen)
        else
          let fix walk (l : list ty) (seen : gset cls) : option (bool * gset cls) :=
            match l with
            | [] => Some (false, seen)
            | t :: l =>
                match class_of t with
                | None => walk l seen
                | Some c =>
                    r ← classSubtype n c sup seen;
                    let '(b, seen) := r : bool * gset cls in
                    if b then Some (true, seen) else walk l seen
                end
            end in
          walk (option_list (Supertype sub) ++ Interfaces sub) seen
  end.

(** Every array is a subtype of these. *)
Definition array_super (b : bytes) : bool :=
  bool_decide (b = ObjectName) || bool_decide (b = CloneableName) || bool_decide (b = SerializableName).

(** [IsSubtype] of two types that are not nil. *)
Fixpoint IsSubtype (n : nat) (sub sup : ty) : option bool :=
  match n with
  | O => None
  | S n =>
      if Identical sub sup then Some true
      else if IsError (Some sub) || IsError (Some sup) then Some true
      else if bool_decide (kind_of sub = KindNull) then Some (IsReference sup)
      else if IsPrimitive (kind_of sub) || IsPrimitive (kind_of sup) then Some (Widens false sub sup)
      else
        match sub with
        | TArray e =>
            match sup with
            | TArray e' =>
                if IsPrimitive (kind_of e) || IsPrimitive (kind_of e') then Some (Identical e e') else IsSubtype n e e'
            | TClass (Some c) _ _ => Some (array_super (Binary c))
            | _ => Some false
            end
        | TVar v => match VarBound v with None => Some false | Some b => IsSubtype n b sup end
        | TInter l =>
            (fix some (l : list ty) : option bool :=
               match l with
               | [] => Some false
               | b :: l => r ← IsSubtype n b sup; if r : bool then Some true else some l
               end) l
        | TWild w b =>
            match w, b with
            | Extends, Some b => IsSubtype n b sup
            | _, _ => Some (bool_decide (kind_of sup = KindClass) && isObject sup)
            end
        | TClass s _ _ =>
            match sup with
            | TClass s' _ _ =>
                match s, s' with
                | Some c, Some c' => fst <$> classSubtype n c c' ∅
                | _, _ => Some false
                end
            | _ => Some false
            end
        | _ => Some false
        end
  end.

(** [Supers]: breadth first; [visit] is its closure. *)
Definition visit (t : ty) (s : gset cls * list ty * list cls) : gset cls * list ty * list cls :=
  let '(seen, out, queue) := s in
  match class_of t with
  | None => s
  | Some c => if bool_decide (c ∈ seen) then s else ({[c]} ∪ seen, out ++ [t], queue ++ [c])
  end.

Fixpoint Supers_loop (n : nat) (seen : gset cls) (out : list ty) (queue : list cls) : option (list ty) :=
  match queue with
  | [] => Some out
  | cur :: queue =>
      match n with
      | O => None
      | S n =>
          let '(seen, out, queue) := foldl (fun s t => visit t s) (seen, out, queue) (option_list (Supertype cur) ++ Interfaces cur) in
          Supers_loop n seen out queue
      end
  end.

Definition Supers (n : nat) (c : cls) : option (list ty) := Supers_loop n {[c]} [] [c].
End Operations.

(** ** A small table

    [class Base implements I], [class Derived extends Base], and a variable
    [T extends Derived & I]. *)
Definition class (c : cls) : ty := TClass (Some c) [] None.

#[local] Instance example : Table := {|
  Binary c := match c with 0 => ObjectName | 1 => bs "Base" | 2 => bs "Derived" | 3 => bs "I" | _ => bs "X" end;
  VarSym v := Some v;
  VarBound v := if v =? 0 then Some (TInter [class 2; class 3]) else None;
  Supertype c := match c with 1 | 3 => Some (class 0) | 2 => Some (class 1) | _ => None end;
  Interfaces c := match c with 1 => [class 3] | _ => [] end |}.
