(* ===== verification/TypesProof.v ===== *)
(** * Identity, erasure and subtyping

    [Identical] is equality of types; the search of [classSubtype] finds
    exactly the classes that can be reached; [IsSubtype] decides the subtyping
    of JLS 4.10, as the reflexive and transitive closure of the direct
    supertype relation; [Supers] lists what can be reached, each once. *)
From stdpp Require Import relations.
From S2P Require Import Prelude.
From S2P Require Import Types.

(** ** Primitive conversions *)

Definition kinds : list Kind :=
  [KindError; KindVoid; KindNull; KindBoolean; KindByte; KindShort; KindChar; KindInt; KindLong; KindFloat; KindDouble;
   KindClass; KindArray; KindTypeVar; KindWildcard; KindIntersection].

Lemma kinds_all k : k ∈ kinds.
Proof. destruct k; unfold kinds; set_solver. Qed.

Lemma widens_trans a b c : widens_kind a b = true -> widens_kind b c = true -> widens_kind a c = true.
Proof. destruct a, b; try discriminate; destruct c; try discriminate; reflexivity. Qed.

Lemma widens_primitive a b : widens_kind a b = true -> IsPrimitive a = true /\ IsPrimitive b = true.
Proof. destruct a, b; try discriminate; auto. Qed.

(** Binary numeric promotion answers the least of int, long, float and
    double to which both operands are, or widen to, by JLS 5.1.2. *)
Theorem promotion_least (a b : ty) :
  let le f t := (bool_decide (kind_of f = kind_of t) || Widens false f t) = true in
  IsNumeric (kind_of a) = true -> IsNumeric (kind_of b) = true ->
  le a (PromoteBinary a b) /\ le b (PromoteBinary a b) /\
  forall t, t ∈ [Int_; Long_; Float_; Double_] -> le a t -> le b t -> le (PromoteBinary a b) t.
Proof.
  intros le Ha Hb. subst le. unfold Widens, PromoteBinary in *. destruct (kind_of a); try discriminate; destruct (kind_of b); try discriminate;
    (split; [reflexivity|split; [reflexivity|]]); intros t Ht; repeat (apply elem_of_cons in Ht as [-> |Ht]; [cbn; intros; first [reflexivity|discriminate]|]); inversion Ht.
Qed.

Section Proofs.
Context `{T : Table}.

(** ** Identity *)

Section Identity.
Context (Hinj : forall v v', VarSym v = VarSym v' -> v = v').

Lemma Identical_eq : forall a b, Identical a b = true <-> a = b.
Proof.
  fix IH 1. intros a b.
  assert (all_eq : forall l l', (fix all (l l' : list ty) : bool :=
         match l, l' with [], [] => true | x :: l, x' :: l' => Identical x x' && all l l' | _, _ => false end) l l' = true <-> l = l').
  { clear a b. fix IHl 1. intros [|x l] [|x' l']; try (split; [discriminate|discriminate]); [tauto|].
    rewrite andb_true_iff, IH, IHl. split; [intros [-> ->]; reflexivity|intros [= -> ->]; auto]. }
  destruct a as [k|s args outer|e|v|w o|l|s], b as [k'|s' args' outer'|e'|v'|w' o'|l'|s']; try (split; discriminate); cbn [Identical].
  - rewrite bool_decide_eq_true. split; congruence.
  - rewrite !andb_true_iff, bool_decide_eq_true, all_eq. destruct outer as [o|], outer' as [o'|]; try (rewrite IH); split; intuition congruence.
  - rewrite IH. split; congruence.
  - rewrite bool_decide_eq_true. split; [intros E; f_equal; auto|congruence].
  - rewrite andb_true_iff, bool_decide_eq_true. destruct o as [o|], o' as [o'|]; try (rewrite IH); split; intuition congruence.
  - rewrite all_eq. split; congruence.
  - rewrite bool_decide_eq_true. split; congruence.
Qed.
End Identity.

(** ** The search for a class *)

Definition supers (c : cls) : list ty := option_list (Supertype c) ++ Interfaces c.
Definition edge (c d : cls) : Prop := exists t, t ∈ supers c /\ class_of t = Some d.

(** The classes of the compilation: whatever a class of [X] names is in [X]. *)
Context (X : gset cls) (Xclosed : forall c d, c ∈ X -> edge c d -> d ∈ X).

(** What a search that fails leaves: every class it has marked has its
    direct supertypes marked, and is not the class sought. *)
Definition explored (sup : cls) (seen seen' : gset cls) : Prop :=
  seen ⊆ seen' /\ seen' ⊆ seen ∪ X /\ forall c, c ∈ seen' -> c ∉ seen -> c <> sup /\ forall d, edge c d -> d ∈ seen'.

Lemma explored_refl sup seen : explored sup seen seen.
Proof. split_and!; [set_solver|set_solver|]. intros c H1 H2. contradiction. Qed.

Lemma explored_trans sup s1 s2 s3 : explored sup s1 s2 -> explored sup s2 s3 -> explored sup s1 s3.
Proof.
  intros (A1 & A2 & A3) (B1 & B2 & B3). split_and!; [set_solver|set_solver|]. intros c Hc Hn. destruct (decide (c ∈ s2)) as [H|H].
  - destruct (A3 c H Hn) as [H1 H2]. split; [exact H1|]. intros d Hd. apply B1, H2, Hd.
  - apply B3; assumption.
Qed.

(** The loop over the direct supertypes, for any recursive call. *)
Fixpoint walk (rec : cls -> gset cls -> option (bool * gset cls)) (l : list ty) (seen : gset cls) : option (bool * gset cls) :=
  match l with
  | [] => Some (false, seen)
  | t :: l =>
      match class_of t with
      | None => walk rec l seen
      | Some c => r ← rec c seen; let '(b, seen) := r : bool * gset cls in if b then Some (true, seen) else walk rec l seen
      end
  end.

Lemma classSubtype_step n sub sup seen :
  classSubtype (S n) sub sup seen =
    if bool_decide (sub = sup) then Some (true, seen)
    else if bool_decide (sub ∈ seen) then Some (false, seen)
    else if bool_decide (Binary sup = ObjectName) then Some (true, {[sub]} ∪ seen)
    else walk (fun c => classSubtype n c sup) (supers sub) ({[sub]} ∪ seen).
Proof.
  cbn [classSubtype]. repeat (destruct (bool_decide _); [reflexivity|]). fold (supers sub). generalize ({[sub]} ∪ seen). generalize (supers sub) as l.
  induction l as [|t l IH]; intros s; cbn; [reflexivity|]. destruct (class_of t); [|apply IH].
  destruct (classSubtype n c sup s) as [[b s']|]; [|reflexivity]. cbn. destruct b; [reflexivity|apply IH].
Qed.

(** What a call promises. *)
Definition found (sub sup : cls) (seen : gset cls) (r : option (bool * gset cls)) : Prop :=
  exists b seen', r = Some (b, seen') /\
    if b : bool then Binary sup = ObjectName \/ rtc edge sub sup else explored sup seen seen' /\ sub ∈ seen'.

Lemma walk_found n sup l : (forall sub seen, sub ∈ X -> (size (X ∖ seen) < n)%nat -> found sub sup seen (classSubtype n sub sup seen)) ->
  forall seen, (forall t d, t ∈ l -> class_of t = Some d -> d ∈ X) -> (size (X ∖ seen) < n)%nat ->
  exists b seen', walk (fun c => classSubtype n c sup) l seen = Some (b, seen') /\
    if b : bool then Binary sup = ObjectName \/ exists t d, t ∈ l /\ class_of t = Some d /\ rtc edge d sup
    else explored sup seen seen' /\ forall t d, t ∈ l -> class_of t = Some d -> d ∈ seen'.
Proof.
  intros Hrec. induction l as [|t l IH]; intros seen Hl Hn; cbn [walk].
  - exists false, seen. split; [reflexivity|]. split; [apply explored_refl|]. intros t d Ht. inversion Ht.
  - assert (Hl' : forall t d, t ∈ l -> class_of t = Some d -> d ∈ X) by (intros t' d Ht; apply Hl; set_solver).
    destruct (class_of t) as [c|] eqn:Et.
    + destruct (Hrec c seen (Hl t c ltac:(set_solver) Et) Hn) as (b & s1 & E & H). rewrite E. cbn. destruct b.
      { exists true, s1. split; [reflexivity|]. destruct H as [H|H]; [auto|right]. exists t, c. split_and!; [set_solver|exact Et|exact H]. }
      destruct H as [He Hc]. destruct (IH s1 Hl') as (b & s2 & E2 & H2).
      { eapply Nat.le_lt_trans; [apply subseteq_size|exact Hn]. destruct He as [He _]. set_solver. }
      exists b, s2. split; [exact E2|]. destruct b.
      * destruct H2 as [H2|(t' & d & Ht & Hd & H2)]; [auto|right]. exists t', d. split_and!; [set_solver|exact Hd|exact H2].
      * destruct H2 as [H2 H3]. split; [eapply explored_trans; eauto|]. intros t' d Ht Hd. apply elem_of_cons in Ht as [-> |Ht]; [|eauto].
        assert (d = c) by congruence. subst d. apply H2, Hc.
    + destruct (IH seen Hl' Hn) as (b & s2 & E2 & H2). exists b, s2. split; [exact E2|]. destruct b.
      * destruct H2 as [H2|(t' & d & Ht & Hd & H2)]; [auto|right]. exists t', d. split_and!; [set_solver|exact Hd|exact H2].
      * destruct H2 as [H2 H3]. split; [exact H2|]. intros t' d Ht Hd. apply elem_of_cons in Ht as [-> |Ht]; [congruence|eauto].
Qed.

Lemma classSubtype_found n sup : forall sub seen, sub ∈ X -> (size (X ∖ seen) < n)%nat -> found sub sup seen (classSubtype n sub sup seen).
Proof.
  induction n as [|n IH]; intros sub seen Hs Hn; [lia|]. rewrite classSubtype_step. unfold found.
  destruct (bool_decide_reflect (sub = sup)) as [-> |Hne]; [exists true, seen; split; [reflexivity|right; reflexivity]|].
  destruct (bool_decide_reflect (sub ∈ seen)) as [Hin|Hin]; [exists false, seen; split; [reflexivity|split; [apply explored_refl|exact Hin]]|].
  destruct (bool_decide_reflect (Binary sup = ObjectName)) as [Ho|Ho]; [exists true, ({[sub]} ∪ seen); split; [reflexivity|auto]|].
  assert (Hsz : (size (X ∖ ({[sub]} ∪ seen)) < n)%nat).
  { eapply Nat.lt_le_trans; [apply subset_size|apply Nat.lt_succ_r, Hn]. set_solver. }
  destruct (walk_found n sup (supers sub) IH ({[sub]} ∪ seen)) as (b & s & E & H); [intros t d Ht Hd; apply (Xclosed sub); [exact Hs|exists t; auto]|exact Hsz|].
  exists b, s. split; [exact E|]. destruct b.
  - destruct H as [H|(t & d & Ht & Hd & H)]; [auto|]. right. eapply rtc_l; [|exact H]. exists t. auto.
  - destruct H as [(H1 & H2 & H3) H4]. split; [|set_solver]. split_and!; [set_solver|set_solver|]. intros c Hc Hn'.
    destruct (decide (c = sub)) as [-> |Hcs].
    + split; [exact Hne|]. intros d (t & Ht & Hd). eapply H4; eauto.
    + apply H3; [exact Hc|set_solver].
Qed.

(** With fuel for every class there is, the search answers whether the class
    can be reached, or is java.lang.Object. *)
Lemma classSubtype_reach n a b : a ∈ X -> (size X < n)%nat ->
  exists r s, classSubtype n a b ∅ = Some (r, s) /\ (r = true <-> Binary b = ObjectName \/ rtc edge a b).
Proof.
  intros Ha Hn. destruct (classSubtype_found n b a ∅ Ha) as (r & s & E & H).
  { replace (X ∖ ∅) with X by set_solver. exact Hn. }
  exists r, s. split; [exact E|]. destruct r; [split; auto|]. destruct H as [(H1 & H2 & H3) H4]. split; [discriminate|]. intros [Ho|Hr].
  - exfalso. destruct n as [|n]; [lia|]. rewrite classSubtype_step in E. destruct (bool_decide (a = b)); [discriminate|].
    rewrite (bool_decide_eq_false_2 (a ∈ ∅)) in E by set_solver. rewrite bool_decide_eq_true_2 in E by exact Ho. discriminate.
  - exfalso. assert (Hin : b ∈ s).
    { clear E Ha. induction Hr as [c|c d e Hcd Hde IH]; [exact H4|]. apply IH; [exact H3|]. apply (H3 c H4); [set_solver|exact Hcd]. }
    destruct (H3 b Hin ltac:(set_solver)) as [H _]. congruence.
Qed.

(** ** All supertypes *)

Definition classes (l : list ty) : list cls := omap class_of l.

Lemma classes_app l k : classes (l ++ k) = classes l ++ classes k.
Proof. apply omap_app. Qed.

(** What [visit] adds: the classes not seen, each once. *)
Lemma visit_all l seen out queue : exists new,
  foldl (fun s t => visit t s) (seen, out, queue) l = (seen ∪ list_to_set (classes new), out ++ new, queue ++ classes new) /\
  NoDup (classes new) /\ (forall d, d ∈ classes new -> d ∉ seen /\ d ∈ classes l) /\ (forall d, d ∈ classes l -> d ∈ seen \/ d ∈ classes new).
Proof.
  revert seen out queue. induction l as [|t l IH]; intros seen out queue; cbn [foldl].
  - exists []. cbn. rewrite union_empty_r_L, !app_nil_r. split_and!; [reflexivity|constructor|intros d Hd; inversion Hd|intros d Hd; inversion Hd].
  - unfold visit at 2. destruct (class_of t) as [c|] eqn:Et.
    + assert (Ec : classes (t :: l) = c :: classes l) by (unfold classes; cbn; rewrite Et; reflexivity). rewrite Ec.
      destruct (bool_decide_reflect (c ∈ seen)) as [Hc|Hc].
      * destruct (IH seen out queue) as (new & E & H1 & H2 & H3). exists new. split_and!; [exact E|exact H1| |].
        -- intros d Hd. destruct (H2 d Hd). split; [assumption|right; assumption].
        -- intros d Hd. apply elem_of_cons in Hd as [-> |Hd]; [auto|apply H3, Hd].
      * destruct (IH ({[c]} ∪ seen) (out ++ [t]) (queue ++ [c])) as (new & E & H1 & H2 & H3). exists (t :: new).
        assert (En : classes (t :: new) = c :: classes new) by (unfold classes; cbn; rewrite Et; reflexivity). rewrite En, E. split_and!.
        -- f_equal; [f_equal; [set_solver|rewrite <- app_assoc; reflexivity]|rewrite <- app_assoc; reflexivity].
        -- constructor; [|exact H1]. intros Hd. destruct (H2 c Hd) as [H _]. set_solver.
        -- intros d Hd. apply elem_of_cons in Hd as [-> |Hd]; [split; [exact Hc|left]|]. destruct (H2 d Hd). split; [set_solver|right; assumption].
        -- intros d Hd. apply elem_of_cons in Hd as [-> |Hd]; [right; left|]. destruct (H3 d Hd) as [H|H]; [|right; right; exact H].
           destruct (decide (d = c)) as [-> |]; [right; left|left; set_solver].
    + assert (Ec : classes (t :: l) = classes l) by (unfold classes; cbn; rewrite Et; reflexivity). rewrite Ec. apply IH.
Qed.

Lemma classes_elem l d : d ∈ classes l <-> exists t, t ∈ l /\ class_of t = Some d.
Proof. apply list_elem_of_omap. Qed.

(** The state of the loop: what is in the queue has been seen, and the direct
    supertypes of what has left it too. *)
Record bfs (c : cls) (seen : gset cls) (out : list ty) (queue : list cls) : Prop := {
  bfs_seen : forall d, d ∈ seen <-> d = c \/ d ∈ classes out;
  bfs_in : seen ⊆ X;
  bfs_nodup : NoDup (c :: classes out);
  bfs_queue : forall d, d ∈ queue -> d ∈ seen;
  bfs_qnodup : NoDup queue;
  bfs_reach : forall d, d ∈ seen -> rtc edge c d;
  bfs_done : forall d e, d ∈ seen -> d ∉ queue -> edge d e -> e ∈ seen }.

Lemma supers_loop c n seen out queue : bfs c seen out queue -> (size X + length queue < n + size seen)%nat ->
  exists l, Supers_loop n seen out queue = Some l /\ NoDup (c :: classes l) /\ forall d, d = c \/ d ∈ classes l <-> rtc edge c d.
Proof.
  revert seen out queue. induction n as [|n IH]; intros seen out queue [B1 B2 B3 B4 B5 B6 B7] Hn.
  { exfalso. pose proof (subseteq_size _ _ B2). lia. }
  destruct queue as [|cur queue]; cbn [Supers_loop].
  - exists out. split_and!; [reflexivity|exact B3|]. intros d. rewrite <- B1. split; [apply B6|]. intros Hr.
    assert (H0 : c ∈ seen) by (apply B1; auto). clear - Hr H0 B7. induction Hr as [c|c d e Hcd _ IHr]; [exact H0|]. apply IHr. apply (B7 c d H0); [set_solver|exact Hcd].
  - destruct (visit_all (supers cur) seen out queue) as (new & E & H1 & H2 & H3). fold (supers cur). rewrite E.
    assert (Hcur : cur ∈ seen) by (apply B4; left).
    assert (Hnew : forall d, d ∈ classes new -> edge cur d) by (intros d Hd; apply H2 in Hd as [_ Hd]; apply classes_elem in Hd; exact Hd).
    apply NoDup_cons in B5 as [B5 B5'].
    assert (Hdisj : forall d, d ∈ classes new -> d ∉ seen) by (intros d Hd; apply H2, Hd).
    apply IH.
    + split.
      * intros d. rewrite classes_app, elem_of_union, elem_of_list_to_set, elem_of_app, B1. tauto.
      * intros d Hd. apply elem_of_union in Hd as [Hd|Hd]; [auto|]. apply elem_of_list_to_set in Hd. apply (Xclosed cur); [auto|apply Hnew, Hd].
      * rewrite classes_app, app_comm_cons. apply NoDup_app. split_and!; [exact B3| |exact H1]. intros d Hd Hd'. apply (Hdisj d Hd'). apply B1. set_solver.
      * intros d Hd. apply elem_of_app in Hd as [Hd|Hd]; [apply elem_of_union_l, B4; right; exact Hd|apply elem_of_union_r, elem_of_list_to_set, Hd].
      * apply NoDup_app. split_and!; [exact B5'| |exact H1]. intros d Hd Hd'. apply (Hdisj d Hd'), B4. right. exact Hd.
      * intros d Hd. apply elem_of_union in Hd as [Hd|Hd]; [auto|]. apply elem_of_list_to_set in Hd. eapply rtc_r; [apply B6, Hcur|apply Hnew, Hd].
      * intros d e Hd Hq He. destruct (decide (d = cur)) as [-> |Hne].
        -- destruct (H3 e) as [H|H]; [apply classes_elem; exact He|set_solver|set_solver].
        -- apply elem_of_union in Hd as [Hd|Hd]; [|exfalso; apply Hq; apply elem_of_app; right; apply elem_of_list_to_set in Hd; exact Hd].
           apply elem_of_union_l, (B7 d e Hd); [|exact He]. intros Hin. apply elem_of_cons in Hin as [?|Hin]; [congruence|]. apply Hq, elem_of_app. auto.
    + rewrite size_union by (intros d Hd Hd'; apply elem_of_list_to_set in Hd'; exact (Hdisj d Hd' Hd)).
      rewrite length_app, size_list_to_set by exact H1. cbn in Hn. lia.
Qed.
(** ** Subtyping *)

(** A reference type other than the null type. *)
Definition ref (t : ty) : Prop := IsReference t = true /\ t <> Null_.

(** A type that a program can name or the null type, resolved: no error and no
    wildcard, bounds that are reference types, and no chain of bounds longer
    than [n]. *)
Inductive proper : nat -> ty -> Prop :=
  | P_basic n k : k = KindNull \/ IsPrimitive k = true -> proper (S n) (TBasic k)
  | P_class n c a o : c ∈ X -> proper (S n) (TClass (Some c) a o)
  | P_array n e : e <> Null_ -> proper n e -> proper (S n) (TArray e)
  | P_var n v b : VarBound v = Some b -> ref b -> proper n b -> proper (S n) (TVar v)
  | P_inter n l : (forall b, b ∈ l -> ref b) -> (forall b, b ∈ l -> proper n b) -> proper (S n) (TInter l).

(** A direct supertype, JLS 4.10.1 to 4.10.3, with type arguments ignored. *)
Inductive direct : ty -> ty -> Prop :=
  | D_args c a o a' o' : direct (TClass (Some c) a o) (TClass (Some c) a' o')
  | D_super c a o d a' o' : edge c d -> direct (TClass (Some c) a o) (TClass (Some d) a' o')
  | D_object c a o d a' o' : Binary d = ObjectName -> direct (TClass (Some c) a o) (TClass (Some d) a' o')
  | D_elem e e' : IsPrimitive (kind_of e) = false -> IsPrimitive (kind_of e') = false -> direct e e' -> direct (TArray e) (TArray e')
  | D_array e d a o : array_super (Binary d) = true -> direct (TArray e) (TClass (Some d) a o)
  | D_var v b : VarBound v = Some b -> direct (TVar v) b
  | D_inter l b : b ∈ l -> direct (TInter l) b
  | D_null n t : ref t -> proper n t -> direct Null_ t
  | D_prim k k' : widens_kind k k' = true -> direct (TBasic k) (TBasic k').

(** The supertypes of the well-known classes. *)
Context (Hknown : forall d d', array_super (Binary d) = true -> edge d d' -> Binary d <> ObjectName /\ Binary d' = ObjectName).
Context (Hinj : forall v v', VarSym v = VarSym v' -> v = v').

Lemma array_super_object c : Binary c = ObjectName -> array_super (Binary c) = true.
Proof. intros ->. reflexivity. Qed.

Lemma IsSubtype_refl n a : IsSubtype (S n) a a = Some true.
Proof. cbn [IsSubtype]. rewrite (proj2 (Identical_eq Hinj a a) eq_refl). reflexivity. Qed.

(** *** The closure, by the form of the subtype *)

Lemma sub_class c a o t : rtc direct (TClass (Some c) a o) t <->
  exists d a' o', t = TClass (Some d) a' o' /\ (Binary d = ObjectName \/ rtc edge c d).
Proof.
  split.
  - intros H. remember (TClass (Some c) a o) as s eqn:Es. revert c a o Es. induction H as [s|s u t Hsu _ IH]; intros c a o ->.
    + exists c, a, o. split; [reflexivity|right; reflexivity].
    + inversion Hsu; subst.
      * apply (IH c _ _ eq_refl).
      * destruct (IH d _ _ eq_refl) as (e & a1 & o1 & -> & He). exists e, a1, o1. split; [reflexivity|]. destruct He; [auto|right; eapply rtc_l; eauto].
      * destruct (IH d _ _ eq_refl) as (e & a1 & o1 & -> & [He|He]); exists e, a1, o1; (split; [reflexivity|]); [auto|]. left.
        match goal with Ho : Binary d = ObjectName |- _ => revert Ho end. clear - He Hknown.
        induction He as [d|d d' e Hd _ IH]; [auto|]. intros Ho. destruct (Hknown d d' (array_super_object _ Ho) Hd) as [Hn _]. congruence.
  - intros (d & a' & o' & -> & [Ho|Hr]); [apply rtc_once, D_object, Ho|]. revert a o. induction Hr as [c|c e d Hce _ IH]; intros a o.
    + apply rtc_once, D_args.
    + eapply rtc_l; [apply (D_super c a o e [] None Hce)|apply IH].
Qed.

(** Between elements that are not primitive. *)
Definition elem (e e' : ty) : Prop := IsPrimitive (kind_of e) = false /\ IsPrimitive (kind_of e') = false /\ direct e e'.

Lemma sub_array e t : rtc direct (TArray e) t <->
  (exists e', t = TArray e' /\ rtc elem e e') \/ (exists d a o, t = TClass (Some d) a o /\ array_super (Binary d) = true).
Proof.
  split.
  - intros H. remember (TArray e) as s eqn:Es. revert e Es. induction H as [s|s u t Hsu Hut IH]; intros e ->; [left; exists e; split; reflexivity|].
    inversion Hsu; subst.
    + destruct (IH _ eq_refl) as [(e2 & -> & He)|Hd2]; [left; exists e2; split; [reflexivity|]|right; exact Hd2].
      eapply rtc_l; [split_and!; eauto|exact He].
    + right. apply sub_class in Hut as (d' & a' & o' & -> & Hd). exists d', a', o'. split; [reflexivity|].
      destruct Hd as [Hd|Hd]; [apply array_super_object, Hd|]. match goal with Ha : array_super _ = true |- _ => revert Ha end. clear - Hd Hknown.
      induction Hd as [d|d d1 e Hd _ IH]; [auto|]. intros Ha. apply IH, array_super_object. apply (Hknown d d1 Ha Hd).
  - intros [(e' & -> & He)|(d & a & o & -> & Hd)]; [|apply rtc_once, D_array, Hd].
    induction He as [e|e e1 e2 (H1 & H2 & H3) _ IH]; [reflexivity|]. eapply rtc_l; [apply D_elem; eassumption|exact IH].
Qed.

Lemma sub_var v b t : VarBound v = Some b -> rtc direct (TVar v) t <-> t = TVar v \/ rtc direct b t.
Proof.
  intros Hb. split.
  - intros H. inversion H as [|? u ? Hu Hut]; subst; [auto|]. inversion Hu; subst. right. congruence.
  - intros [-> |H]; [reflexivity|]. eapply rtc_l; [apply D_var, Hb|exact H].
Qed.

Lemma sub_inter l t : rtc direct (TInter l) t <-> t = TInter l \/ exists b, b ∈ l /\ rtc direct b t.
Proof.
  split.
  - intros H. inversion H as [|? u ? Hu Hut]; subst; [auto|]. inversion Hu; subst. eauto.
  - intros [-> |(b & Hb & H)]; [reflexivity|]. eapply rtc_l; [apply D_inter, Hb|exact H].
Qed.

Lemma sub_prim k t : IsPrimitive k = true -> rtc direct (TBasic k) t <-> t = TBasic k \/ exists k', t = TBasic k' /\ widens_kind k k' = true.
Proof.
  intros Hk. split.
  - intros H. remember (TBasic k) as s eqn:Es. revert k Hk Es. induction H as [s|s u t Hsu _ IH]; intros k Hk ->; [auto|]. right.
    inversion Hsu; subst; [discriminate Hk|]. match goal with Hw : widens_kind _ _ = true |- _ => rename Hw into Hwk end.
    destruct (IH k' (proj2 (widens_primitive _ _ Hwk)) eq_refl) as [-> |(k2 & -> & Hw2)]; [eauto|].
    exists k2. split; [reflexivity|]. eapply widens_trans; eauto.
  - intros [-> |(k' & -> & H)]; [reflexivity|apply rtc_once, D_prim, H].
Qed.

(** *** What a proper type leads to *)

Lemma ref_prim t : ref t -> IsPrimitive (kind_of t) = false.
Proof. intros [H _]. unfold IsReference in H. destruct (kind_of t); try discriminate; reflexivity. Qed.

Lemma leads_ref n a b : proper n a -> ref a -> rtc direct a b -> ref b.
Proof.
  intros Hp. revert b. induction Hp as [n k Hk|n c args o Hc|n e He Hp IH|n v bd Hb Hrb Hp IH|n l Hr Hl IH]; intros b Hra H.
  - destruct Hra as [Hra Hn]. destruct Hk as [-> |Hk]; [destruct (Hn eq_refl)|]. exfalso. unfold IsReference in Hra. cbn in Hra. destruct k; discriminate.
  - apply sub_class in H as (d & a' & o' & -> & _). split; [reflexivity|discriminate].
  - apply sub_array in H as [(e' & -> & _)|(d & a' & o' & -> & _)]; (split; [reflexivity|discriminate]).
  - apply (sub_var _ _ _ Hb) in H as [-> |H]; auto.
  - apply sub_inter in H as [-> |(x & Hx & H)]; [exact Hra|]. eapply IH; eauto.
Qed.

Lemma rtc_elem a b : (forall z, rtc direct a z -> IsPrimitive (kind_of z) = false) -> rtc direct a b <-> rtc elem a b.
Proof.
  intros Hz. split.
  - intros H. induction H as [a|a u b Hau Hub IH]; [reflexivity|]. eapply rtc_l; [split_and!; [apply Hz; reflexivity|apply Hz, rtc_once, Hau|exact Hau]|].
    apply IH. intros z Hr. apply Hz. eapply rtc_l; eauto.
  - intros H. induction H as [a|a u b (_ & _ & Hau) _ IH]; [reflexivity|]. eapply rtc_l; [exact Hau|]. apply IH. intros z Hr. apply Hz. eapply rtc_l; eauto.
Qed.

Lemma elem_prim e e' : IsPrimitive (kind_of e) = true \/ IsPrimitive (kind_of e') = true -> rtc elem e e' <-> e = e'.
Proof.
  intros Hp. split; [|intros ->; reflexivity]. intros H. induction H as [e|e u e' (E1 & E2 & _) Hr IH]; [reflexivity|].
  destruct Hp as [Hp|Hp]; [congruence|]. exfalso. specialize (IH (or_intror Hp)). subst u. congruence.
Qed.

(** A type with no part that is not resolved is no error, and a primitive
    type, the null type, or a reference type. *)
Lemma proper_kind n t : proper n t -> IsError (Some t) = false /\ (t = Null_ \/ IsPrimitive (kind_of t) = true \/ ref t).
Proof.
  intros [m k [-> |Hk]|m c a o _|m e He _|m v b _ _ _|m l _ _]; (split; [try reflexivity; destruct k; try discriminate; reflexivity|]); auto;
    right; right; (split; [reflexivity|discriminate]).
Qed.

(** *** The function *)

Definition decides (r : option bool) (P : Prop) : Prop := exists b, r = Some b /\ (b = true <-> P).

Lemma decides_iff r P Q : decides r P -> (P <-> Q) -> decides r Q.
Proof. intros (b & E & H) HPQ. exists b. split; [exact E|]. rewrite H. exact HPQ. Qed.

Lemma decides_eq b (P : Prop) : (b = true <-> P) -> decides (Some b) P.
Proof. intros H. exists b. auto. Qed.

(** The loop over the bounds of an intersection. *)
Definition some_sub (f : ty -> option bool) : list ty -> option bool :=
  fix some (l : list ty) : option bool :=
    match l with
    | [] => Some false
    | b :: l => r ← f b; if r : bool then Some true else some l
    end.

Lemma some_sub_decides f l (P : ty -> Prop) : (forall b, b ∈ l -> decides (f b) (P b)) -> decides (some_sub f l) (exists b, b ∈ l /\ P b).
Proof.
  induction l as [|x l IH]; intros H; cbn.
  - apply decides_eq. split; [discriminate|]. intros (b & Hb & _). inversion Hb.
  - destruct (H x ltac:(set_solver)) as (r & E & Hr). rewrite E. cbn. destruct r.
    + apply decides_eq. split; [|reflexivity]. intros _. exists x. split; [set_solver|apply Hr, eq_refl].
    + eapply decides_iff; [apply IH; intros; apply H; set_solver|]. split; intros (b & Hb & HP); exists b; split; auto; [set_solver|].
      apply elem_of_cons in Hb as [-> |Hb]; [|exact Hb]. apply Hr in HP. discriminate.
Qed.

(** The tests of [IsSubtype] that a reference type of kind [k] does not pass. *)
Ltac ref_case k :=
  cbn [kind_of orb IsError]; rewrite (bool_decide_eq_false_2 (k = KindNull)) by discriminate;
  rewrite (bool_decide_eq_false_2 (k = KindError)) by discriminate; change (IsPrimitive k) with false; cbn [orb].

Definition fuel (n : nat) : nat := (n + S (size X))%nat.

Lemma IsSubtype_decides n m a b : proper n a -> proper m b -> decides (IsSubtype (fuel n) a b) (rtc direct a b).
Proof.
  intros Hp. revert m b. induction Hp as [n k Hk|n c args o Hc|n e He Hp IH|n v bd Hb Hrb Hp IH|n l Hr Hl IH]; intros m b Hm;
    change (fuel (S n)) with (S (fuel n)); cbn [IsSubtype]; destruct (proper_kind _ _ Hm) as [Eb Kb]; rewrite Eb;
    match goal with |- context [Identical ?a ?b] => destruct (Identical a b) eqn:EI end;
    try (apply (Identical_eq Hinj) in EI; subst b; apply decides_eq; split; [reflexivity|reflexivity]);
    (match type of EI with Identical ?a ?b = false => assert (Hne : b <> a) by (intros ->; rewrite (proj2 (Identical_eq Hinj a a) eq_refl) in EI; discriminate) end).
  - cbn [kind_of]. destruct Hk as [-> |Hk].
    + cbn. apply decides_eq. split; intros H.
      * apply rtc_once, (D_null m); [split; [exact H|exact Hne]|exact Hm].
      * inversion H as [|? u ? Hu Hub]; subst; [congruence|]. inversion Hu; subst; [|discriminate]. eapply leads_ref; eauto.
    + assert (Hg : IsError (Some (TBasic k)) = false) by (destruct k; try discriminate; reflexivity).
      rewrite Hg, bool_decide_eq_false_2, Hk by (intros ->; discriminate). cbn [orb]. apply decides_eq.
      unfold Widens. cbn [kind_of orb]. rewrite Hk. cbn [andb]. rewrite andb_true_iff, sub_prim by exact Hk. split.
      * intros [H1 H2]. right. destruct Kb as [-> |[Kb|Kb]]; [discriminate| |rewrite (ref_prim _ Kb) in H1; discriminate].
        destruct b; try discriminate. eauto.
      * intros [-> |(k' & -> & H)]; [congruence|]. cbn. split; [apply (widens_primitive k k' H)|exact H].
  - ref_case KindClass. eapply decides_iff; [|symmetry; apply sub_class].
    destruct Kb as [-> |[Kb|Kb]].
    + cbn. apply decides_eq. split; [discriminate|]. intros (d & a' & o' & ? & _). discriminate.
    + rewrite Kb. apply decides_eq. unfold Widens. cbn. split; [discriminate|]. intros (d & a' & o' & -> & _). discriminate.
    + rewrite (ref_prim _ Kb). destruct Hm; try (apply decides_eq; split; [discriminate|intros (d & a' & o' & ? & _); discriminate]).
      destruct (classSubtype_reach (fuel n) c c0) as (r & s & E & Hrr); [assumption|unfold fuel; lia|]. rewrite E. apply decides_eq. cbn. rewrite Hrr.
      split; [eauto 10|]. intros (d & a' & o' & [= -> -> ->] & Hd). exact Hd.
  - ref_case KindArray. eapply decides_iff; [|symmetry; apply sub_array]. destruct Kb as [-> |[Kb|Kb]].
    + cbn. apply decides_eq. split; [discriminate|]. intros [(e' & ? & _)|(d & a' & o' & ? & _)]; discriminate.
    + rewrite Kb. apply decides_eq. unfold Widens. cbn. split; [discriminate|]. intros [(e' & -> & _)|(d & a' & o' & -> & _)]; discriminate.
    + rewrite (ref_prim _ Kb). destruct Hm as [m k Hk|m c a o Hc|m e' He' Hm|m v x _ _ _|m l _ _];
        try (apply decides_eq; split; [discriminate|intros [(e1 & ? & _)|(d & a' & o' & ? & _)]; discriminate]).
      * apply decides_eq. split; [eauto 10|]. intros [(e1 & ? & _)|(d & a' & o' & [= <- _ _] & Hd)]; [discriminate|exact Hd].
      * eapply decides_iff with (P := rtc elem e e'); [|split; [eauto 10|intros [(e1 & [= <-] & H)|(d & a' & o' & ? & _)]; [exact H|discriminate]]].
        destruct (IsPrimitive (kind_of e)) eqn:E1; cbn [orb].
        { apply decides_eq. rewrite elem_prim by auto. apply (Identical_eq Hinj). }
        destruct (IsPrimitive (kind_of e')) eqn:E2.
        { apply decides_eq. rewrite elem_prim by auto. apply (Identical_eq Hinj). }
        eapply decides_iff; [apply (IH m e' Hm)|]. apply rtc_elem. intros z Hz. apply ref_prim. eapply leads_ref; [exact Hp| |exact Hz].
        destruct (proper_kind _ _ Hp) as [_ [H|[H|H]]]; [congruence|congruence|exact H].
  - ref_case KindTypeVar. rewrite Hb. eapply decides_iff; [|symmetry; apply (sub_var _ _ _ Hb)].
    destruct (IsPrimitive (kind_of b)) eqn:E1.
    + apply decides_eq. unfold Widens. cbn. split; [discriminate|]. intros [H|H]; [congruence|]. pose proof (ref_prim _ (leads_ref _ _ _ Hp Hrb H)). congruence.
    + eapply decides_iff; [apply (IH m b Hm)|]. split; [auto|]. intros [H|H]; [congruence|exact H].
  - ref_case KindIntersection. eapply decides_iff; [|symmetry; apply sub_inter]. destruct (IsPrimitive (kind_of b)) eqn:E1.
    + apply decides_eq. unfold Widens. cbn. split; [discriminate|]. intros [H|(x & Hx & H)]; [congruence|].
      pose proof (ref_prim _ (leads_ref _ _ _ (Hl x Hx) (Hr x Hx) H)). congruence.
    + eapply decides_iff; [apply (some_sub_decides (fun x => IsSubtype (fuel n) x b) l (fun x => rtc direct x b)); intros x Hx; apply (IH x Hx m b Hm)|].
      split; [auto|]. intros [H|H]; [congruence|exact H].
Qed.

End Proofs.

(** C11: for types of a finite hierarchy, without wildcards and errors, whose
    type variables have no circle in their bounds, [IsSubtype] comes to an end
    and decides the subtyping of JLS 4.10 with type arguments ignored: the
    reflexive and transitive closure of the direct supertypes of a class, of
    arrays, of type variables and intersections (their bounds), of the null type
    and of the primitive types; the hierarchy of classes may be cyclic. *)
Theorem subtyping_decides `{T : Table} (X : gset cls) (n m : nat) (a b : ty) :
  (forall c d, c ∈ X -> edge c d -> d ∈ X) ->
  (forall d d', array_super (Binary d) = true -> edge d d' -> Binary d <> ObjectName /\ Binary d' = ObjectName) ->
  (forall v v', VarSym v = VarSym v' -> v = v') ->
  proper X n a -> proper X m b ->
  exists r, IsSubtype (n + S (size X)) a b = Some r /\ (r = true <-> rtc (direct X) a b).
Proof. intros H1 H2 H3 Ha Hb. exact (IsSubtype_decides X H1 H2 H3 n m a b Ha Hb). Qed.

(** Without that condition it does not end: a type variable that is its own
    bound ([class A<T extends T>]) is compared with any other reference type for
    ever. *)
Lemma circular_bound_spins `{T : Table} v t n :
  VarBound v = Some (TVar v) -> Identical (TVar v) t = false -> IsError (Some t) = false -> IsPrimitive (kind_of t) = false ->
  IsSubtype n (TVar v) t = None.
Proof. intros Hv Hi He Hp. induction n as [|n IH]; [done|]. cbn [IsSubtype]. rewrite Hi, He, Hp. cbn. by rewrite Hv. Qed.

(** [Supers] comes to an end, cyclic hierarchies included, and lists every
    class that the class leads to, each once and not the class itself. *)
Theorem supers_exact `{T : Table} (X : gset cls) (c : cls) :
  (forall d e, d ∈ X -> edge d e -> e ∈ X) -> c ∈ X ->
  exists l, Supers (S (size X)) c = Some l /\ NoDup (c :: classes l) /\ forall d, d = c \/ d ∈ classes l <-> rtc edge c d.
Proof.
  intros HX Hc. apply (supers_loop X HX c).
  - split; cbn; try apply NoDup_singleton; set_solver.
  - rewrite size_singleton. cbn. lia.
Qed.

(** ** The example's hypotheses *)

Definition exampleX : gset cls := {[0; 1; 2; 3]}.

Lemma example_edge c d : @edge example c d ->
  d ∈ exampleX /\ array_super (Binary (Table := example) c) = false.
Proof.
  intros (t & Ht & Hd). unfold supers in Ht.
  assert (Hc : c = 1 \/ c = 2 \/ c = 3).
  { destruct c as [|[[p|p|]|[p|p|]|]|p]; try (cbn in Ht; inversion Ht; fail); auto. }
  unfold exampleX. destruct Hc as [-> |[-> | ->]]; cbn in Ht; repeat (apply elem_of_cons in Ht as [-> |Ht]; [injection Hd as <-|]); try (inversion Ht);
    (split; [set_solver|vm_compute; reflexivity]).
Qed.

Lemma example_known d d' : array_super (Binary (Table := example) d) = true -> @edge example d d' ->
  Binary (Table := example) d <> ObjectName /\ Binary (Table := example) d' = ObjectName.
Proof. intros H1 H2. destruct (example_edge d d' H2). congruence. Qed.

Lemma example_proper : @proper example exampleX 3 (TVar 0).
Proof.
  apply P_var with (b := TInter [class 2; class 3]); [reflexivity|split; [reflexivity|discriminate]|].
  apply P_inter; intros b Hb; repeat (apply elem_of_cons in Hb as [-> |Hb]); try (inversion Hb); try (split; [reflexivity|discriminate]); constructor; unfold exampleX; set_solver.
Qed.

Lemma promotion_least_witness : PromoteBinary Char_ Long_ = Long_ /\
  (bool_decide (kind_of Char_ = kind_of Long_) || Widens false Char_ Long_) = true.
Proof. split; [reflexivity|]. exact (proj1 (promotion_least Char_ Long_ eq_refl eq_refl)). Defined.

(** [T] is a subtype of [I], two ways. *)
Lemma subtyping_decides_witness :
  exists r, IsSubtype (H := example) 8 (TVar 0) (class 3) = Some r /\ (r = true <-> rtc (@direct example exampleX) (TVar 0) (class 3)).
Proof.
  refine (@subtyping_decides example exampleX 3 1 (TVar 0) (class 3) _ _ _ example_proper _).
  - intros c d _ H. apply (example_edge c d H).
  - exact example_known.
  - intros v v' [= ->]. reflexivity.
  - constructor. unfold exampleX. set_solver.
Defined.

Lemma supers_exact_witness : exists l, Supers (H := example) 5 2 = Some l /\ NoDup (2 :: classes l) /\
  forall d, d = 2 \/ d ∈ classes l <-> rtc (@edge example) 2 d.
Proof.
  refine (@supers_exact example exampleX 2 _ _).
  - intros c d _ H. apply (example_edge c d H).
  - unfold exampleX. set_solver.
Defined.
