(* ===== verification/TypesErase.v ===== *)
(** * Erasure and descriptors

    Erasing a type whose bounds do not go in a circle comes to an end, in a
    form that erasure leaves as it is; descriptors depend on the erasure only
    and are what the descriptor parser reads. *)
From S2P Require Import Prelude.
From S2P Require Desc.
From S2P Require Import Types.

Section Erasure.
Context `{T : Table}.

(** No chain of bounds, elements and first bounds longer than [n]. *)
Inductive bounded : nat -> ty -> Prop :=
  | B_basic n k : bounded (S n) (TBasic k)
  | B_class n s a o : bounded (S n) (TClass s a o)
  | B_array n e : bounded n e -> bounded (S n) (TArray e)
  | B_free n v : VarBound v = None -> bounded (S n) (TVar v)
  | B_var n v b : VarBound v = Some b -> bounded n b -> bounded (S n) (TVar v)
  | B_none n : bounded (S n) (TInter [])
  | B_inter n b l : bounded n b -> bounded (S n) (TInter (b :: l))
  | B_any n w : bounded (S n) (TWild w None)
  | B_wild n w b : bounded n b -> bounded (S n) (TWild w (Some b))
  | B_error n s : bounded (S n) (TError s).

(** No arguments and no bound is left. *)
Inductive erased : ty -> Prop :=
  | E_basic k : erased (TBasic k)
  | E_class s : erased (TClass s [] None)
  | E_array e : erased e -> erased (TArray e)
  | E_free v : VarBound v = None -> erased (TVar v)
  | E_none : erased (TInter [])
  | E_any w : erased (TWild w None)
  | E_error s : erased (TError s).

Lemma bounded_S n t : bounded n t -> bounded (S n) t.
Proof. induction 1; eauto using bounded. Qed.

Lemma Erase_erased n t : bounded n t -> exists e, Erase n t = Some e /\ erased e /\ bounded n e.
Proof.
  induction 1 as [n k|n s a o|n e _ (e' & E & H1 & H2)|n v Hv|n v b Hb _ (e' & E & H1 & H2)|n|n b l _ (e' & E & H1 & H2)|n w|n w b _ (e' & E & H1 & H2)|n s];
    cbn [Erase].
  - eexists. split_and!; [reflexivity|constructor..].
  - eexists. split_and!; [reflexivity|constructor..].
  - rewrite E. eexists. split_and!; [reflexivity|constructor; assumption..].
  - rewrite Hv. eexists. split_and!; [reflexivity|constructor; assumption..].
  - rewrite Hb, E. eexists. split_and!; [reflexivity|assumption|apply bounded_S; assumption].
  - eexists. split_and!; [reflexivity|constructor..].
  - rewrite E. eexists. split_and!; [reflexivity|assumption|apply bounded_S; assumption].
  - eexists. split_and!; [reflexivity|constructor..].
  - rewrite E. eexists. split_and!; [reflexivity|assumption|apply bounded_S; assumption].
  - eexists. split_and!; [reflexivity|constructor..].
Qed.

Lemma Erase_id n e : erased e -> bounded n e -> Erase n e = Some e.
Proof.
  intros He. revert n. induction He as [k|s|e He IH|v Hv| |w|s]; intros n Hb; inversion Hb; subst; cbn [Erase]; try reflexivity.
  - rewrite IH by assumption. reflexivity.
  - rewrite Hv. reflexivity.
  - congruence.
Qed.

(** *** Descriptors *)

Lemma Descriptor_S n t : Descriptor (S n) t = (e ← Erase n t;
  match e with
  | TBasic k => Some {| Desc.TKind := descKind k; Desc.Dims := 0; Desc.Name := [] |}
  | TClass None _ _ => Some objectDesc
  | TClass (Some c) _ _ => Some {| Desc.TKind := Desc.Object; Desc.Dims := 0; Desc.Name := Binary c |}
  | TArray e => inner ← Descriptor n e;
      Some {| Desc.TKind := Desc.TKind inner; Desc.Dims := Desc.Dims inner + 1; Desc.Name := Desc.Name inner |}
  | _ => Some objectDesc
  end).
Proof. reflexivity. Qed.

Lemma Descriptor_erased n t e : Erase n t = Some e -> Erase n e = Some e -> Descriptor (S n) t = Descriptor (S n) e.
Proof. intros H1 H2. rewrite !Descriptor_S, H1, H2. reflexivity. Qed.

(** What an erased type must be for its descriptor to be one of a field: a
    named class, and no array of void. *)
Fixpoint describable (e : ty) : Prop :=
  match e with
  | TBasic k => k <> KindNull /\ k <> KindError /\ descKind k <> Desc.Object
  | TClass (Some c) _ _ => Binary c <> [] /\ Desc.semi ∉ Binary c
  | TArray e => e <> Void_ /\ describable e
  | _ => True
  end.
Fixpoint dims (e : ty) : Z := match e with TArray e => dims e + 1 | _ => 0 end.

Lemma objectDesc_ok b : Desc.wf_type b objectDesc.
Proof. split; [vm_compute; split; discriminate|]. cbn. split; [discriminate|]. intros H. apply list_elem_of_In in H. vm_compute in H. intuition discriminate. Qed.

Lemma Descriptor_ok n e : erased e -> bounded n e -> describable e -> dims e <= 255 ->
  exists d, Descriptor (S n) e = Some d /\ Desc.Dims d = dims e /\ Desc.wf_type true d /\ (e <> Void_ -> Desc.wf_type false d).
Proof.
  intros He. revert n. induction He as [k|s|e He IH|v Hv| |w|s]; intros n Hb Hd Hn; rewrite Descriptor_S, Erase_id by (try constructor; assumption); cbn [mbind option_bind].
  - eexists. split; [reflexivity|]. split; [reflexivity|]. unfold Desc.wf_type, Desc.MaxDims. cbn in Hd |- *. destruct Hd as (H1 & H2 & H3).
    split; [|intros Hv]; (split; [lia|]); destruct k; try congruence; cbn; auto; destruct (Hv eq_refl).
  - destruct s as [c|]; (eexists; split; [reflexivity|]); (split; [reflexivity|]); [|split; [|intros _]; apply objectDesc_ok].
    unfold Desc.wf_type, Desc.MaxDims. cbn in *. split; [|intros _]; (split; [lia|]); auto.
  - cbn [describable dims] in *. destruct Hd as [Hv Hd]. inversion Hb as [| |m e' Hb'| | | | | | |]; subst.
    destruct (IH _ Hb' Hd ltac:(lia)) as (d & E & Hdim & _ & Hw). rewrite E. cbn [mbind option_bind]. eexists. split; [reflexivity|]. cbn [Desc.Dims]. split; [lia|].
    destruct (Hw Hv) as [H1 H2]. unfold Desc.wf_type, Desc.MaxDims in *. cbn [Desc.Dims Desc.TKind Desc.Name] in *.
    assert (0 <= Desc.Dims d + 1 <= 255) by lia. destruct (Desc.TKind d); try (destruct H2; congruence); auto.
  - eexists. split; [reflexivity|]. split; [reflexivity|]. split; [|intros _]; apply objectDesc_ok.
  - eexists. split; [reflexivity|]. split; [reflexivity|]. split; [|intros _]; apply objectDesc_ok.
  - eexists. split; [reflexivity|]. split; [reflexivity|]. split; [|intros _]; apply objectDesc_ok.
  - eexists. split; [reflexivity|]. split; [reflexivity|]. split; [|intros _]; apply objectDesc_ok.
Qed.

(** A type of a field, and one of a result. *)
Definition field_type (n : nat) (t : ty) : Prop :=
  bounded n t /\ forall e, Erase n t = Some e -> describable e /\ dims e <= 255 /\ e <> Void_.
Definition result_type (n : nat) (t : ty) : Prop :=
  bounded n t /\ forall e, Erase n t = Some e -> describable e /\ dims e <= 255.

Lemma result_descriptor n t : result_type n t ->
  exists e d, Erase n t = Some e /\ Erase n e = Some e /\ Descriptor (S n) t = Some d /\ Descriptor (S n) e = Some d /\ Desc.wf_type true d /\
    (e <> Void_ -> Desc.wf_type false d).
Proof.
  intros [Hb Hd]. destruct (Erase_erased n t Hb) as (e & E & He & Hbe). destruct (Hd e E) as [H1 H2]. pose proof (Erase_id n e He Hbe) as E2.
  destruct (Descriptor_ok n e He Hbe H1 H2) as (d & Ed & _ & W1 & W2). exists e, d. split_and!; auto. rewrite (Descriptor_erased n t e E E2). exact Ed.
Qed.

Lemma mapM_cons_some {A B} (f : A -> option B) x l y ys : f x = Some y -> mapM f l = Some ys -> mapM f (x :: l) = Some (y :: ys).
Proof. intros H1 H2. change (mapM f (x :: l)) with (f x ≫= fun y => mapM f l ≫= fun k => Some (y :: k)). rewrite H1, H2. reflexivity. Qed.

Lemma params_descriptor n l : Forall (field_type n) l ->
  exists es ds, mapM (Erase n) l = Some es /\ mapM (Erase n) es = Some es /\ mapM (Descriptor (S n)) l = Some ds /\
    mapM (Descriptor (S n)) es = Some ds /\ Forall (Desc.wf_type false) ds.
Proof.
  induction 1 as [|t l [Hb Ht] _ (es & ds & E1 & E2 & E3 & E4 & E5)]; [exists [], []; split_and!; (reflexivity || constructor)|].
  destruct (result_descriptor n t) as (e & d & F1 & F2 & F3 & F4 & _ & F5).
  { split; [exact Hb|]. intros e He. destruct (Ht e He) as (? & ? & ?). auto. }
  exists (e :: es), (d :: ds). split_and!; auto using mapM_cons_some. constructor; [apply F5, (Ht e F1)|exact E5].
Qed.

Lemma throws_erased n l : Forall (bounded n) l -> exists es, mapM (Erase n) l = Some es /\ mapM (Erase n) es = Some es.
Proof.
  induction 1 as [|t l Hb _ (es & E1 & E2)]; [exists []; auto|]. destruct (Erase_erased n t Hb) as (e & E & He & Hbe).
  exists (e :: es). auto using mapM_cons_some, Erase_id.
Qed.
End Erasure.


(** A circle of bounds: no fuel is enough. *)
Lemma erase_circle `{T : Table} (v : tvar) (n : nat) : VarBound v = Some (TVar v) -> Erase n (TVar v) = None.
Proof. intros Hv. induction n as [|n IH]; [reflexivity|]. cbn. rewrite Hv. exact IH. Qed.

(** [<T extends Derived & I> T f(T[], int)]. *)
Definition exampleMethod : MethodType := mkMethodType [0] [TArray (TVar 0); Int_] (TVar 0) [].

Lemma example_array (e : ty) : Erase (H := example) 5 (TArray (TVar 0)) = Some e -> @describable example e /\ dims e <= 255 /\ e <> Void_.
Proof.
  intros [= <-]. split; [|split; [cbn; lia|discriminate]]. split; [discriminate|]. split; [discriminate|].
  apply (bool_decide_unpack _). vm_compute. exact I.
Qed.

Lemma example_bounded : @bounded example 4 (TVar 0).
Proof. apply B_var with (b := TInter [class 2; class 3]); [reflexivity|repeat constructor]. Qed.

