(* ===== verification/Fold.v ===== *)
(** * Constant folding ([analyzer/attr/fold.go], [types/const.go], and the
    constants of [analyzer/attr/convert.go])

    A float32 and a float64 are IEEE 754 values of the Standard Library's
    [spec_float], of 24 and 53 bits.  What attribution recorded for a node, its
    type and the constant of the variable it names, is the interface
    [Attributed]; so are the decoders of character, string and text block
    literals, which the package calls and does not define. *)
From S2P Require Import Prelude.
From S2P Require Import Token SourceFile Ast Types.
From Stdlib Require Import SpecFloat.

(** ** Constants *)

Inductive value :=
  | VInt (v : Z) | VLong (v : Z) | VFloat (f : spec_float) | VDouble (f : spec_float) | VStr (s : bytes) | VBool (b : bool).

(** [cValue] is [None] where the Go field is nil. *)
Record Constant := mkConstant { cType : option ty; cValue : option value }.

Definition constant (t : ty) (v : value) : Constant := mkConstant (Some t) (Some v).

Definition IsValid (c : Constant) : bool := match cValue c with Some _ => true | None => false end.

Definition ConstInt (c : Constant) : option Z :=
  match cValue c with Some (VInt v) => Some v | Some (VBool b) => Some (if b then 1 else 0) | _ => None end.

Definition ConstStr (c : Constant) : option bytes := match cValue c with Some (VStr s) => Some s | _ => None end.

(** ** Floating point *)

Definition f64_of_int (v : Z) : spec_float := binary_normalize 53 1024 v 0 false.

(** A conversion between the formats. *)
Definition round_to (prec emax : Z) (f : spec_float) : spec_float :=
  match f with S754_finite s m e => binary_normalize prec emax (cond_Zopp s (Zpos m)) e s | _ => f end.

Definition float32_of (f : spec_float) : spec_float := round_to 24 128 f.
Definition float64_of (f : spec_float) : spec_float := round_to 53 1024 f.

(** ** Parsing numbers ([strconv.ParseUint], [strconv.ParseFloat]) *)

Definition digit_value (c : Z) : option Z :=
  if (48 <=? c) && (c <=? 57) then Some (c - 48)
  else if (97 <=? c) && (c <=? 122) then Some (c - 87)
  else if (65 <=? c) && (c <=? 90) then Some (c - 55)
  else None.

Definition digit_in (base c : Z) : option Z := d ← digit_value c; if d <? base then Some d else None.

Fixpoint digits_value (base : Z) (s : bytes) (acc : Z) : option Z :=
  match s with
  | [] => Some acc
  | c :: s => d ← digit_in base c; digits_value base s (acc * base + d)
  end.

Definition ParseUint (s : bytes) (base : Z) : option Z :=
  match s with
  | [] => None
  | _ => v ← digits_value base s 0; if v <? 2 ^ 64 then Some v else None
  end.

(** Digits with at most one point: the mantissa, the digits after the point,
    whether there was a digit, and the rest. *)
Fixpoint mantissa (base : Z) (s : bytes) (m frac : Z) (point any : bool) : Z * Z * bool * bytes :=
  match s with
  | 46 :: s' => if point then (m, frac, any, s) else mantissa base s' m frac true any
  | c :: s' =>
      match digit_in base c with
      | Some d => mantissa base s' (m * base + d) (if point then frac + 1 else frac) point true
      | None => (m, frac, any, s)
      end
  | [] => (m, frac, any, [])
  end.

(** The digits of an exponent, which stops growing at ten thousand. *)
Fixpoint exponent_digits (s : bytes) (e : Z) : option Z :=
  match s with
  | [] => Some e
  | c :: s => d ← digit_in 10 c; exponent_digits s (if e <? 10000 then e * 10 + d else e)
  end.

Definition exponent (s : bytes) : option Z :=
  match s with
  | 43 :: (_ :: _) as s => exponent_digits (tail s) 0
  | 45 :: (_ :: _) as s => e ← exponent_digits (tail s) 0; Some (- e)
  | _ :: _ => exponent_digits s 0
  | [] => None
  end.

(** [m * 10 ^ e] and [m * 2 ^ e], rounded once. *)
Definition decimal_value (m e : Z) : spec_float :=
  if m =? 0 then S754_zero false
  else if 0 <=? e then binary_normalize 53 1024 (m * 10 ^ e) 0 false
  else let '(q, e', l) := SFdiv_core_binary 53 1024 m 0 (10 ^ (- e)) 0 in binary_round_aux 53 1024 false q e' l.

Definition hex_value (m e : Z) : spec_float := binary_normalize 53 1024 m e false.

(** A value out of range is an error. *)
Definition in_range (f : spec_float) : option spec_float := match f with S754_infinity _ => None | _ => Some f end.

Definition has_prefix (p s : bytes) : bool := bool_decide (take (length p) s = p).

Definition ParseFloat (s : bytes) : option spec_float :=
  if has_prefix (bs "0x") s || has_prefix (bs "0X") s then
    let '(m, frac, any, rest) := mantissa 16 (drop 2 s) 0 0 false false in
    if negb any then None
    else match rest with
         | c :: rest => if (c =? 112) || (c =? 80) then e ← exponent rest; in_range (hex_value m (e - 4 * frac)) else None
         | [] => None
         end
  else
    let '(m, frac, any, rest) := mantissa 10 s 0 0 false false in
    if negb any then None
    else match rest with
         | [] => in_range (decimal_value m (- frac))
         | c :: rest => if (c =? 101) || (c =? 69) then e ← exponent rest; in_range (decimal_value m (e - frac)) else None
         end.

Definition without_underscores (s : bytes) : bytes := filter (fun c => c <> 95) s.

(** [strings.TrimRight] *)
Fixpoint trim_left (cut : list Z) (s : bytes) : bytes :=
  match s with c :: s' => if bool_decide (c ∈ cut) then trim_left cut s' else s | [] => [] end.
Definition TrimRight (s : bytes) (cut : list Z) : bytes := rev (trim_left cut (rev s)).

Definition parseIntLit (raw : bytes) : option Z :=
  let s := TrimRight (without_underscores raw) (bs "lL") in
  let '(s, base) :=
    if has_prefix (bs "0x") s || has_prefix (bs "0X") s then (drop 2 s, 16)
    else if has_prefix (bs "0b") s || has_prefix (bs "0B") s then (drop 2 s, 2)
    else match s with 48 :: (_ :: _) as s => (tail s, 8) | _ => (s, 10) end in
  v ← ParseUint s base; Some (s64 v).

(** [strconv.FormatInt] *)
Fixpoint format_digits (fuel : nat) (n : Z) (acc : bytes) : bytes :=
  match fuel with
  | O => acc
  | S fuel => if n <? 10 then 48 + n :: acc else format_digits fuel (n / 10) (48 + n mod 10 :: acc)
  end.
Definition FormatInt (v : Z) : bytes := if v <? 0 then 45 :: format_digits 20 (- v) [] else format_digits 20 v [].

(** ** Values of a constant *)

Definition integerOf (k : Constant) : option Z := match cValue k with Some (VInt v) | Some (VLong v) => Some v | _ => None end.

Definition floatOf (k : Constant) : option spec_float :=
  match cValue k with
  | Some (VInt v) | Some (VLong v) => Some (f64_of_int v)
  | Some (VFloat f) => Some (float64_of f)
  | Some (VDouble f) => Some f
  | _ => None
  end.

Definition stringOf (k : Constant) : option bytes :=
  match cValue k with
  | Some (VStr s) => Some s
  | Some (VBool b) => Some (bs (if b then "true" else "false"))
  | Some (VInt v) | Some (VLong v) => Some (FormatInt v)
  | _ => None
  end.

(** ** Operations *)

Definition is_kind (t : ty) (k : Types.Kind) : bool := bool_decide (kind_of t = k).

(** [int] and [long] at their width. *)
Definition at_width (t : ty) (v : Z) : Constant :=
  if is_kind t KindLong then constant Long_ (VLong v) else constant Int_ (VInt (s32 v)).

Definition at_precision (t : ty) (f : spec_float) : Constant :=
  if is_kind t KindFloat then constant Float_ (VFloat (float32_of f)) else constant Double_ (VDouble f).

Definition bool_const (b : bool) : Constant := constant Boolean_ (VBool b).

Definition shiftCount (r : Z) (t : ty) : Z := Z.land r (if is_kind t KindLong then 63 else 31).

Definition coerce (k : Constant) (to : ty) : Constant :=
  match kind_of to, integerOf k, floatOf k with
  | KindByte, Some v, _ => constant Byte_ (VInt (s8 v))
  | KindShort, Some v, _ => constant Short_ (VInt (s16 v))
  | KindChar, Some v, _ => constant Char_ (VInt (u16 v))
  | KindInt, Some v, _ => constant Int_ (VInt (s32 v))
  | KindLong, Some v, _ => constant Long_ (VLong v)
  | KindFloat, _, Some f => constant Float_ (VFloat (float32_of f))
  | KindDouble, _, Some f => constant Double_ (VDouble f)
  | _, _, _ => k
  end.

Definition negate (k : Constant) (t : ty) : option Constant :=
  match integerOf k with
  | Some v => Some (if is_kind t KindLong then constant Long_ (VLong (s64 (- v))) else constant Int_ (VInt (s32 (s64 (- v)))))
  | None =>
      match floatOf k with
      | Some f => Some (if is_kind t KindFloat then constant Float_ (VFloat (float32_of (SFopp f))) else constant Double_ (VDouble (SFopp f)))
      | None => None
      end
  end.

Definition foldUnary (op : Z) (k : Constant) (t : ty) : option Constant :=
  if op =? ADD then Some (coerce k t)
  else if op =? SUB then negate k t
  else if op =? TILDE then
    match (if is_kind t KindInt then ConstInt k else None), cValue k with
    | Some v, _ => Some (constant Int_ (VInt (Z.lnot v)))
    | None, Some (VLong w) => Some (constant Long_ (VLong (Z.lnot w)))
    | None, _ => None
    end
  else if op =? NOT then match cValue k with Some (VBool b) => Some (bool_const (negb b)) | _ => None end
  else None.

Definition foldBool (op : Z) (l r : bool) : option Constant :=
  if (op =? LAND) || (op =? AND) then Some (bool_const (l && r))
  else if (op =? LOR) || (op =? OR) then Some (bool_const (l || r))
  else if (op =? XOR) || (op =? NEQ) then Some (bool_const (xorb l r))
  else if op =? EQL then Some (bool_const (Bool.eqb l r))
  else None.

(** [int64] arithmetic: [None] where nothing is folded. *)
Definition foldInt64 (op l r : Z) (t : ty) : option Z :=
  if op =? ADD then Some (s64 (l + r))
  else if op =? SUB then Some (s64 (l - r))
  else if op =? MUL then Some (s64 (l * r))
  else if op =? QUO then (if r =? 0 then None else Some (s64 (Z.quot l r)))
  else if op =? REM then (if r =? 0 then None else Some (Z.rem l r))
  else if op =? AND then Some (Z.land l r)
  else if op =? OR then Some (Z.lor l r)
  else if op =? XOR then Some (Z.lxor l r)
  else if op =? SHL then Some (s64 (Z.shiftl l (shiftCount r t)))
  else if op =? SHR then Some (Z.shiftr l (shiftCount r t))
  else if op =? USHR then
    Some (if is_kind t KindLong then s64 (Z.shiftr (u64 l) (shiftCount r t)) else Z.shiftr (u32 (s32 l)) (shiftCount r t))
  else None.

Definition compareInt (op l r : Z) : option bool :=
  if op =? EQL then Some (l =? r)
  else if op =? NEQ then Some (negb (l =? r))
  else if op =? LSS then Some (l <? r)
  else if op =? GTR then Some (r <? l)
  else if op =? LEQ then Some (l <=? r)
  else if op =? GEQ then Some (r <=? l)
  else None.

Definition compareFloat (op : Z) (l r : spec_float) : option bool :=
  if op =? EQL then Some (SFeqb l r)
  else if op =? NEQ then Some (negb (SFeqb l r))
  else if op =? LSS then Some (SFltb l r)
  else if op =? GTR then Some (SFltb r l)
  else if op =? LEQ then Some (SFleb l r)
  else if op =? GEQ then Some (SFleb r l)
  else None.

Definition float_op (op : Z) (l r : spec_float) : option spec_float :=
  if op =? ADD then Some (SFadd 53 1024 l r)
  else if op =? SUB then Some (SFsub 53 1024 l r)
  else if op =? MUL then Some (SFmul 53 1024 l r)
  else if op =? QUO then Some (SFdiv 53 1024 l r)
  else None.

Definition foldFloat (op : Z) (lk rk : Constant) (t : ty) : option Constant :=
  match floatOf lk, floatOf rk with
  | Some l, Some r =>
      match float_op op l r, compareFloat op l r with
      | Some v, _ => Some (at_precision t v)
      | None, Some b => Some (bool_const b)
      | None, None => None
      end
  | _, _ => None
  end.

(** Two integers; division by zero is not constant. *)
Definition foldInt (op l r : Z) (t : ty) : option Constant :=
  match foldInt64 op l r t, compareInt op l r with
  | Some v, _ => Some (at_width t v)
  | None, Some b => Some (bool_const b)
  | None, None => None
  end.

Definition StringName : bytes := bs "java/lang/String".

Section Fold.
Context `{Table}.

Definition isString (t : ty) : bool := match t with TClass (Some c) _ _ => bool_decide (Binary c = StringName) | _ => false end.

Definition isConstantVarType (t : ty) : bool := IsPrimitive (kind_of t) || isString t.

Definition fitsNarrowed (k : Constant) (to : ty) : bool :=
  match ConstInt k with
  | None => false
  | Some v =>
      match kind_of to with
      | KindByte => (-128 <=? v) && (v <=? 127)
      | KindShort => (-32768 <=? v) && (v <=? 32767)
      | KindChar => (0 <=? v) && (v <=? 65535)
      | _ => false
      end
  end.

Definition foldBinary (op : Z) (lk rk : Constant) (t : ty) : option Constant :=
  if isString t then
    match stringOf lk, stringOf rk with Some l, Some r => Some (constant t (VStr (l ++ r))) | _, _ => None end
  else
    match cValue lk with
    | Some (VBool l) => match cValue rk with Some (VBool r) => foldBool op l r | _ => None end
    | _ =>
        match integerOf lk, integerOf rk with
        | Some l, Some r => foldInt op l r t
        | _, _ => foldFloat op lk rk t
        end
    end.

(** ** Expressions *)

(** What attribution knows of a node, and what the package calls but does not
    define. *)
Class Attributed := {
  TypeOf : Expr -> ty;
  file_ : option SourceFile.File;
  constOfVar : Expr -> option Constant;
  parseCharLit : bytes -> option Z;
  parseStringLit : bytes -> option bytes;
  parseTextBlock : bytes -> option bytes }.

Context `{Attributed}.

Definition parse_float_literal (raw : bytes) (t : ty) : option Constant :=
  v ← ParseFloat (TrimRight (without_underscores raw) (bs "fFdD")); Some (at_precision t v).

(** The outer [None] is an index out of range. *)
Definition literalValue (sp : Span) (kind : Z) (t : ty) : option (option Constant) :=
  match file_ with
  | None => Some None
  | Some f =>
      raw ← Slice f (Lo sp) (Hi sp);
      Some (if kind =? TRUE then Some (bool_const true)
            else if kind =? FALSE then Some (bool_const false)
            else if kind =? INT then v ← parseIntLit raw; Some (at_width t v)
            else if kind =? FLOAT then parse_float_literal raw t
            else if kind =? CHAR then r ← parseCharLit raw; Some (constant Char_ (VInt (s32 r)))
            else if kind =? STRING then s ← parseStringLit raw; Some (constant t (VStr s))
            else if kind =? TEXTBLOCK then s ← parseTextBlock raw; Some (constant t (VStr s))
            else None)
  end.

(** [Info.Const] of a node that has been folded: only a constant with a value
    is recorded. *)
Definition recorded (c : option Constant) : option Constant := k ← c; if IsValid k then Some k else None.

(** The constant [expr] records for a tree, children first. *)
Fixpoint Const (x : Expr) : option (option Constant) :=
  c ← match x with
      | BasicLit sp kind => literalValue sp kind (TypeOf x)
      | ParenExpr _ _ X _ => Const X
      | EIdent _ | EName _ | SelectorExpr _ _ _ _ => Some (constOfVar x)
      | UnaryExpr _ op _ X => k ← Const X; Some (k ← k; foldUnary op k (TypeOf x))
      | BinaryExpr _ X op _ _ Y => l ← Const X; r ← Const Y; Some (l ← l; r ← r; foldBinary op l r (TypeOf x))
      | CondExpr _ C _ X _ Y =>
          c ← Const C; l ← Const X; r ← Const Y;
          Some (c ← c; b ← ConstInt c; if b =? 0 then r else l)
      | CastExpr _ _ _ _ _ X => k ← Const X; Some (if isConstantVarType (TypeOf x) then k ← k; Some (coerce k (TypeOf x)) else None)
      | _ => Some None
      end;
  Some (recorded c).
End Fold.
