(* ===== verification/FoldProof.v ===== *)
(** * What folding computes

    Integer operations are those of the language at either width, and every
    constant is of the representation its type asks for. *)
From S2P Require Import Prelude.
From S2P Require Import Token SourceFile Ast Types Fold.
From Stdlib Require Import SpecFloat.

(** ** Words *)

(** The values of a signed word of [w] bits, and wrapping to one. *)
Definition signed (w v : Z) : Prop := - 2 ^ (w - 1) <= v < 2 ^ (w - 1).
Definition wrap (w v : Z) : Z := (v + 2 ^ (w - 1)) mod 2 ^ w - 2 ^ (w - 1).

Lemma wrap_signed w v : 0 < w -> signed w (wrap w v).
Proof.
  intros Hw. unfold signed, wrap. pose proof (Z.mod_pos_bound (v + 2 ^ (w - 1)) (2 ^ w) ltac:(apply Z.pow_pos_nonneg; lia)) as H.
  replace (2 ^ w) with (2 * 2 ^ (w - 1)) in H |- * by (rewrite <- Z.pow_succ_r by lia; f_equal; lia). lia.
Qed.

Lemma wrap_id w v : 0 < w -> signed w v -> wrap w v = v.
Proof.
  intros Hw H. unfold signed, wrap in *. replace (2 ^ w) with (2 * 2 ^ (w - 1)) by (rewrite <- Z.pow_succ_r by lia; f_equal; lia).
  rewrite Z.mod_small; lia.
Qed.

Lemma wrap_wrap a b v : 0 < a <= b -> wrap a (wrap b v) = wrap a v.
Proof.
  intros H. unfold wrap. f_equal.
  assert (E : exists k, 2 ^ b = k * 2 ^ a) by (exists (2 ^ (b - a)); rewrite <- Z.pow_add_r by lia; f_equal; lia). destruct E as [k Ek].
  rewrite (Z.mod_eq (v + 2 ^ (b - 1)) (2 ^ b)) by (apply Z.pow_nonzero; lia). rewrite Ek.
  match goal with |- (?x - k * 2 ^ a * ?q - ?y + ?z) mod _ = _ => replace (x - k * 2 ^ a * q - y + z) with (v + z + (- (k * q)) * 2 ^ a) by lia end.
  apply Z_mod_plus_full.
Qed.

Lemma s32_wrap v : s32 v = wrap 32 v. Proof. reflexivity. Qed.
Lemma s64_wrap v : s64 v = wrap 64 v. Proof. reflexivity. Qed.

Lemma s32_s64 v : s32 (s64 v) = s32 v.
Proof. rewrite !s32_wrap, s64_wrap. apply wrap_wrap. lia. Qed.

Lemma signed_weaken a b v : 0 < a <= b -> signed a v -> signed b v.
Proof. intros H. unfold signed. pose proof (Z.pow_le_mono_r 2 (a - 1) (b - 1)). lia. Qed.

(** A signed word by its sign: what is left of it past its last value bit is 0
    or -1, so that every bitwise operation of two of them is one. *)
Lemma signed_shiftr w v : 0 < w -> signed w v <-> Z.shiftr v (w - 1) = 0 \/ Z.shiftr v (w - 1) = -1.
Proof.
  intros Hw. rewrite Z.shiftr_div_pow2 by lia. unfold signed.
  assert (Hp : 0 < 2 ^ (w - 1)) by (apply Z.pow_pos_nonneg; lia). set (p := 2 ^ (w - 1)) in *.
  pose proof (Z.div_mod v p ltac:(lia)). pose proof (Z.mod_pos_bound v p Hp). split; [intros [Ha Hb]|intros [E|E]; rewrite E in *; lia].
  assert (Hlo : -1 <= v / p) by (apply Z.div_le_lower_bound; lia). assert (Hhi : v / p < 1) by (apply Z.div_lt_upper_bound; lia). lia.
Qed.

Lemma signed_bitwise w (f : Z -> Z -> Z) l r :
  0 < w -> (forall a b n, Z.shiftr (f a b) n = f (Z.shiftr a n) (Z.shiftr b n)) ->
  (forall a b, (a = 0 \/ a = -1) -> (b = 0 \/ b = -1) -> f a b = 0 \/ f a b = -1) ->
  signed w l -> signed w r -> signed w (f l r).
Proof. intros Hw Hs Hf. rewrite !signed_shiftr, Hs by done. auto. Qed.

Ltac bitwise :=
  first [ let a := fresh in let b := fresh in let n := fresh in intros a b n;
          first [apply Z.shiftr_land | apply Z.shiftr_lor | apply Z.shiftr_lxor]
        | let a := fresh in let b := fresh in intros a b [-> | ->] [-> | ->]; first [left; reflexivity | right; reflexivity] ].

Lemma signed_land w l r : 0 < w -> signed w l -> signed w r -> signed w (Z.land l r).
Proof. intros Hw. apply (signed_bitwise w Z.land); [done|bitwise..]. Qed.
Lemma signed_lor w l r : 0 < w -> signed w l -> signed w r -> signed w (Z.lor l r).
Proof. intros Hw. apply (signed_bitwise w Z.lor); [done|bitwise..]. Qed.
Lemma signed_lxor w l r : 0 < w -> signed w l -> signed w r -> signed w (Z.lxor l r).
Proof. intros Hw. apply (signed_bitwise w Z.lxor); [done|bitwise..]. Qed.

Lemma signed_lnot w v : 0 < w -> signed w v -> signed w (Z.lnot v).
Proof. intros Hw. unfold signed, Z.lnot. lia. Qed.

Lemma signed_rem w l r : r <> 0 -> signed w l -> signed w (Z.rem l r).
Proof.
  intros Hr. unfold signed. intros Hl. destruct (Z.le_ge_cases 0 l) as [Hp|Hp].
  - pose proof (Z.rem_nonneg l r Hr Hp). pose proof (Z.rem_le l (Z.abs r) Hp ltac:(lia)). rewrite Z.rem_abs_r in * by done. lia.
  - pose proof (Z.rem_nonpos l r Hr Hp). pose proof (Z.rem_nonneg (- l) r Hr ltac:(lia)). rewrite Z.rem_opp_l in * by done.
    pose proof (Z.rem_le (- l) (Z.abs r) ltac:(lia) ltac:(lia)) as E. rewrite Z.rem_abs_r, Z.rem_opp_l in E by done. lia.
Qed.

Lemma signed_div w v p : 0 < p -> signed w v -> signed w (v / p).
Proof.
  intros Hp. unfold signed. intros [Ha Hb]. split.
  - apply Z.div_le_lower_bound; nia.
  - apply Z.div_lt_upper_bound; nia.
Qed.

(** ** Integer operations

    The language's own rules, at a width of [w] bits: sums, differences and
    products wrap, quotients truncate, a zero divisor gives no constant, and a
    shift takes its distance modulo the width. *)
Definition java_op (w op l r : Z) : option Z :=
  if op =? ADD then Some (wrap w (l + r))
  else if op =? SUB then Some (wrap w (l - r))
  else if op =? MUL then Some (wrap w (l * r))
  else if op =? QUO then if r =? 0 then None else Some (wrap w (Z.quot l r))
  else if op =? REM then if r =? 0 then None else Some (Z.rem l r)
  else if op =? AND then Some (Z.land l r)
  else if op =? OR then Some (Z.lor l r)
  else if op =? XOR then Some (Z.lxor l r)
  else if op =? SHL then Some (wrap w (l * 2 ^ (r mod w)))
  else if op =? SHR then Some (l / 2 ^ (r mod w))
  else if op =? USHR then Some (wrap w ((l mod 2 ^ w) / 2 ^ (r mod w)))
  else None.

Definition shifts (op : Z) : bool := (op =? SHL) || (op =? SHR) || (op =? USHR).
Definition arithmetic (op : Z) : bool := bool_decide (op ∈ [ADD; SUB; MUL; QUO; REM; AND; OR; XOR; SHL; SHR; USHR]).

Definition word_type (t : ty) (w : Z) : Prop := (kind_of t = KindInt /\ w = 32) \/ (kind_of t = KindLong /\ w = 64).

(** The constant of a word: an [int32] of type int or an [int64] of type long. *)
Definition word_const (t : ty) (v : Z) : Constant :=
  if is_kind t KindLong then constant Long_ (VLong v) else constant Int_ (VInt v).

Lemma word_at_width t w v : word_type t w -> signed 64 v -> at_width t v = word_const t (wrap w v).
Proof.
  intros [[Hk ->]|[Hk ->]] Hv; unfold at_width, word_const, is_kind; rewrite Hk; cbn; rewrite ?wrap_id by (done || lia); done.
Qed.

Lemma word_const_id t w v : word_type t w -> signed w v -> at_width t v = word_const t v.
Proof.
  intros Hw Hv. assert (E : 0 < w <= 64) by (destruct Hw as [[_ ->]|[_ ->]]; lia).
  rewrite (word_at_width t w v Hw), wrap_id; eauto using signed_weaken with lia.
Qed.

Lemma word_s64 t w v : word_type t w -> at_width t (s64 v) = word_const t (wrap w v).
Proof.
  intros Hw. assert (E : 0 < w <= 64) by (destruct Hw as [[_ ->]|[_ ->]]; lia).
  rewrite s64_wrap, (word_at_width t w) by (done || apply wrap_signed; lia). rewrite wrap_wrap by lia. done.
Qed.

Lemma word_distance t w r : word_type t w -> shiftCount r t = r mod w.
Proof.
  intros [[Hk ->]|[Hk ->]]; unfold shiftCount, is_kind; rewrite Hk; cbn -[Z.land Z.modulo].
  - exact (Z.land_ones r 5 ltac:(lia)).
  - exact (Z.land_ones r 6 ltac:(lia)).
Qed.

Lemma word_unsigned_shift t w l n : word_type t w -> signed w l -> 0 <= n < w ->
  at_width t (if is_kind t KindLong then s64 (Z.shiftr (u64 l) n) else Z.shiftr (u32 (s32 l)) n)
  = word_const t (wrap w (l mod 2 ^ w / 2 ^ n)).
Proof.
  intros Hw Hl Hn. pose proof (Z.mod_pos_bound l (2 ^ w) ltac:(apply Z.pow_pos_nonneg; lia)) as Hm.
  assert (Hp : 0 < 2 ^ n) by (apply Z.pow_pos_nonneg; lia).
  destruct Hw as [[Hk ->]|[Hk ->]]; unfold is_kind at 1; rewrite Hk;
    rewrite ?(bool_decide_false (KindInt = KindLong)), ?(bool_decide_true (KindLong = KindLong)), Z.shiftr_div_pow2 by (done || lia).
  - rewrite s32_wrap, wrap_id by (done || lia). unfold u32. apply word_at_width; [left; done|].
    change (2 ^ 32) with 4294967296 in *. unfold signed. change (2 ^ (64 - 1)) with 9223372036854775808.
    pose proof (Z.div_pos (l mod 4294967296) (2 ^ n)). pose proof (Z.div_le_upper_bound (l mod 4294967296) (2 ^ n) 4294967296 Hp ltac:(nia)). lia.
  - unfold u64. apply word_s64. right; done.
Qed.

Ltac at_operator := cbv [foldInt64 java_op shifts ADD SUB MUL QUO REM AND OR XOR SHL SHR USHR]; cbn [Z.eqb Pos.eqb orb].

(** Folding an operator of two integers is the language's operator at the width
    of the type. *)
Lemma foldInt_java t w op l r :
  word_type t w -> signed w l -> (shifts op = false -> signed w r) ->
  arithmetic op = true -> foldInt op l r t = word_const t <$> java_op w op l r.
Proof.
  intros Hw Hl Hr Ha. assert (E : 0 < w <= 64) by (destruct Hw as [[_ ->]|[_ ->]]; lia).
  pose proof (Z.mod_pos_bound r w ltac:(lia)) as Hn. pose proof (word_distance t w r Hw) as Hd.
  apply bool_decide_eq_true in Ha. unfold foldInt.
  repeat (apply elem_of_cons in Ha as [->|Ha]); [..|by apply elem_of_nil in Ha]; revert Hr; at_operator; intros Hr; try specialize (Hr eq_refl);
    try (destruct (Z.eqb_spec r 0); [done|]); cbn [option_fmap option_map fmap]; rewrite ?Hd; f_equal; eauto using word_s64.
  all: try (eapply word_const_id; [eassumption|]; auto using signed_rem, signed_land, signed_lor, signed_lxor with lia).
  - rewrite Z.shiftl_mul_pow2 by lia. apply word_s64. done.
  - rewrite Z.shiftr_div_pow2 by lia. eapply word_const_id; [eassumption|]. apply signed_div; [apply Z.pow_pos_nonneg; lia|done].
  - rewrite <- (word_unsigned_shift t w) by done. done.
Qed.

Create HintDb formed.

Section Proof.
Context `{Table}.

(** C17: folding an operator of two integer constants at type int or long gives
    the constant the language specifies at that width: sums, differences and
    products wrap, quotients truncate toward zero, a shift takes its distance
    modulo the width, a logical shift is of the unsigned word, and a zero
    divisor is no constant at all. *)
Theorem fold_integers_java t w op lk rk l r :
  word_type t w -> integerOf lk = Some l -> integerOf rk = Some r -> signed w l -> (shifts op = false -> signed w r) ->
  arithmetic op = true -> foldBinary op lk rk t = word_const t <$> java_op w op l r.
Proof.
  intros Hw Hl Hr Hsl Hsr Ha. rewrite <- (foldInt_java t w op l r) by done. unfold foldBinary.
  destruct (isString t) eqn:Es; [destruct t, Hw as [[? _]|[? _]]; done|].
  unfold integerOf in Hl, Hr |- *. destruct (cValue lk) as [[]|]; simplify_eq; rewrite Hr; done.
Qed.

(** ** Well formed constants

    A value is held in the representation of its type and in its range. *)
Definition well_formed (c : Constant) : Prop :=
  match cType c, cValue c with
  | Some t, Some (VInt v) =>
      match kind_of t with
      | KindByte => signed 8 v | KindShort => signed 16 v | KindChar => 0 <= v < 2 ^ 16 | KindInt => signed 32 v | _ => False
      end
  | Some t, Some (VLong v) => kind_of t = KindLong /\ signed 64 v
  | Some t, Some (VFloat _) => kind_of t = KindFloat
  | Some t, Some (VDouble _) => kind_of t = KindDouble
  | Some t, Some (VBool _) => kind_of t = KindBoolean
  | Some t, Some (VStr _) => isString t = true
  | _, _ => False
  end.

Definition all_formed (c : option Constant) : Prop := forall k, c = Some k -> well_formed k.

(** What the Go types [int32] and [int64] of a value say, whatever type the
    constant claims. *)
Definition held (c : Constant) : Prop :=
  match cValue c with Some (VInt v) => signed 32 v | Some (VLong v) => signed 64 v | _ => True end.

Definition all_held (c : option Constant) : Prop := forall k, c = Some k -> held k.

Lemma formed_held k : well_formed k -> held k.
Proof.
  unfold well_formed, held. destruct (cType k) as [t|], (cValue k) as [[v|v| | | |]|]; try done; [|by intros [_ ?]].
  destruct (kind_of t); try done; unfold signed; cbn; lia.
Qed.

Lemma held_integer k v : held k -> integerOf k = Some v -> signed 64 v.
Proof.
  unfold held, integerOf. destruct (cValue k) as [[v'|v'| | | |]|]; try done; intros Hk [= ->]; [|done]. eapply signed_weaken; [|exact Hk]. lia.
Qed.

Lemma held_const_int k v : held k -> ConstInt k = Some v -> signed 32 v.
Proof.
  unfold held, ConstInt. destruct (cValue k) as [[v'| | | | |b]|]; try done; intros Hk [= <-]; [done|]. unfold signed. destruct b; cbn; lia.
Qed.

Lemma s8_signed v : signed 8 (s8 v). Proof. apply (wrap_signed 8). lia. Qed.
Lemma s16_signed v : signed 16 (s16 v). Proof. apply (wrap_signed 16). lia. Qed.
Lemma s32_signed v : signed 32 (s32 v). Proof. apply (wrap_signed 32). lia. Qed.
Lemma s64_signed v : signed 64 (s64 v). Proof. apply (wrap_signed 64). lia. Qed.
Lemma u16_bounds v : 0 <= u16 v < 2 ^ 16. Proof. apply Z.mod_pos_bound. lia. Qed.
Hint Resolve s8_signed s16_signed s32_signed s64_signed u16_bounds : formed.

Lemma formed_at_width t v : signed 64 v -> well_formed (at_width t v).
Proof. intros Hv. unfold at_width. destruct (is_kind t KindLong); [split; done|apply s32_signed]. Qed.

Lemma formed_at_precision t f : well_formed (at_precision t f).
Proof. unfold at_precision. destruct (is_kind t KindFloat); reflexivity. Qed.
Hint Resolve formed_at_width formed_at_precision held_integer : formed.

(** A conversion that is none answers the constant it was given. *)
Lemma formed_coerce k t : held k -> well_formed (coerce k t) \/ coerce k t = k.
Proof.
  intros Hk. unfold coerce. destruct (kind_of t), (integerOf k) eqn:Ei, (floatOf k); auto; left; cbn; eauto with formed.
Qed.

Lemma formed_negate k t : all_formed (negate k t).
Proof.
  intros c. unfold negate. destruct (integerOf k), (floatOf k), (is_kind t KindLong), (is_kind t KindFloat); intros [= <-]; cbn; auto with formed.
Qed.

Lemma formed_unary op k t c : held k -> foldUnary op k t = Some c -> well_formed c \/ op = ADD /\ c = k.
Proof.
  intros Hk. unfold foldUnary.
  destruct (Z.eqb_spec op ADD) as [->|_]; [intros [= <-]; destruct (formed_coerce k t Hk); auto|].
  destruct (op =? SUB); [left; by eapply formed_negate|]. destruct (op =? TILDE).
  - destruct (is_kind t KindInt); [destruct (ConstInt k) eqn:E|].
    { intros [= <-]. left. apply signed_lnot; [lia|]. by eapply held_const_int. }
    all: destruct (cValue k) as [[]|] eqn:Ev; intros [= <-]; left; split; [done|]; apply signed_lnot; [lia|];
      eapply held_integer; [done|]; unfold integerOf; by rewrite Ev.
  - destruct (op =? NOT); [|done]. destruct (cValue k) as [[]|]; intros [= <-]. by left.
Qed.

Lemma int64_signed op l r t v : signed 64 l -> signed 64 r -> foldInt64 op l r t = Some v -> signed 64 v.
Proof.
  intros Hl Hr. assert (Hn : 0 <= shiftCount r t) by (apply Z.land_nonneg; destruct (is_kind t KindLong); lia).
  assert (Hp : 0 < 2 ^ shiftCount r t) by (apply Z.pow_pos_nonneg; lia).
  unfold foldInt64. repeat case_match; intros [= <-]; auto using signed_rem, signed_land, signed_lor, signed_lxor with formed lia.
  all: try (apply signed_land || apply signed_lor || apply signed_lxor || apply signed_rem; lia || done).
  all: rewrite Z.shiftr_div_pow2 by done; apply signed_div; try done.
  pose proof (Z.mod_pos_bound (s32 l) (2 ^ 32) ltac:(lia)). unfold u32, signed. cbn in *. lia.
Qed.

Lemma formed_bool b : well_formed (bool_const b). Proof. reflexivity. Qed.
Hint Resolve formed_bool : formed.

Lemma formed_foldBool op l r : all_formed (foldBool op l r).
Proof. intros c. unfold foldBool. repeat case_match; intros [= <-]; apply formed_bool. Qed.

Lemma formed_foldInt op l r t : signed 64 l -> signed 64 r -> all_formed (foldInt op l r t).
Proof.
  intros Hl Hr c. unfold foldInt. destruct (foldInt64 op l r t) eqn:E; [intros [= <-]; eauto using formed_at_width, int64_signed|].
  destruct (compareInt op l r); intros [= <-]. apply formed_bool.
Qed.

Lemma formed_foldFloat op lk rk t : all_formed (foldFloat op lk rk t).
Proof.
  intros c. unfold foldFloat. destruct (floatOf lk) as [l|], (floatOf rk) as [r|]; try done.
  destruct (float_op op l r), (compareFloat op l r); intros [= <-]; auto with formed.
Qed.

Lemma formed_binary op lk rk t : held lk -> held rk -> all_formed (foldBinary op lk rk t).
Proof.
  intros Hl Hr. unfold foldBinary. destruct (isString t) eqn:Es.
  - intros c. destruct (stringOf lk), (stringOf rk); intros [= <-]. exact Es.
  - assert (Hi : all_formed (match integerOf lk, integerOf rk with Some l, Some r => foldInt op l r t | _, _ => foldFloat op lk rk t end)).
    { destruct (integerOf lk) eqn:El; [destruct (integerOf rk) eqn:Er|]; eauto using formed_foldInt, formed_foldFloat with formed. }
    destruct (cValue lk) as [[]|]; try exact Hi. destruct (cValue rk) as [[]|]; try done. apply formed_foldBool.
Qed.

Context `{Attributed}.

(** What folding relies on: attribution gives a string literal the type String
    ([literalType]), and what answers the constant of a variable answers a Go
    value, an integer in an [int32] or an [int64].  Nothing is asked of its type
    and its range. *)
Class Go_leaves := {
  string_typed sp kind : kind = STRING \/ kind = TEXTBLOCK -> isString (TypeOf (BasicLit sp kind)) = true;
  variable_held x : all_held (constOfVar x) }.
Context `{Go_leaves}.

(** The variables and character literals whose constant, which this package does
    not make, may become that of [x] as it is: through parentheses, a
    conditional, a unary plus, a cast. *)
Fixpoint operands (x : Expr) : list Expr :=
  match x with
  | EIdent _ | EName _ | SelectorExpr _ _ _ _ => [x]
  | BasicLit _ kind => if kind =? CHAR then [x] else []
  | ParenExpr _ _ X _ | CastExpr _ _ _ _ _ X => operands X
  | UnaryExpr _ op _ X => if op =? ADD then operands X else []
  | CondExpr _ _ _ X _ Y => operands X ++ operands Y
  | _ => []
  end.

(** The constant [c] is well formed, or that of one of them. *)
Definition accounted (x : Expr) (c : Constant) : Prop := well_formed c \/ exists y, y ∈ operands x /\ Const y = Some (Some c).

Lemma parseIntLit_signed raw v : parseIntLit raw = Some v -> signed 64 v.
Proof.
  unfold parseIntLit. destruct (if has_prefix (bs "0x") _ || _ then _ else _) as [s base].
  destruct (ParseUint s base); [|done]. intros [= <-]. apply s64_signed.
Qed.

Lemma formed_literal sp kind c :
  literalValue sp kind (TypeOf (BasicLit sp kind)) = Some c -> forall k, c = Some k -> held k /\ (well_formed k \/ kind = CHAR).
Proof.
  unfold literalValue. destruct file_ as [f|]; [|intros [= <-]; done]. destruct (Slice f (Lo sp) (Hi sp)) as [raw|]; [|done].
  cbn [mbind option_bind]. intros [= <-] k.
  assert (W : forall k, well_formed k -> held k /\ (well_formed k \/ kind = CHAR)) by (intros k' Hk'; split; [by apply formed_held|by left]).
  destruct (kind =? TRUE); [intros [= <-]; by apply W|]. destruct (kind =? FALSE); [intros [= <-]; by apply W|].
  destruct (kind =? INT).
  { destruct (parseIntLit raw) eqn:E; intros [= <-]. apply W, formed_at_width. by eapply parseIntLit_signed. }
  destruct (kind =? FLOAT). { unfold parse_float_literal. destruct (ParseFloat _); intros [= <-]. apply W, formed_at_precision. }
  destruct (Z.eqb_spec kind CHAR) as [->|_]. { destruct (parseCharLit raw) eqn:E; intros [= <-]. split; [apply s32_signed|by right]. }
  destruct (Z.eqb_spec kind STRING). { destruct (parseStringLit raw); intros [= <-]. apply W, string_typed. auto. }
  destruct (Z.eqb_spec kind TEXTBLOCK). { destruct (parseTextBlock raw); intros [= <-]. apply W, string_typed. auto. }
  done.
Qed.

Lemma recorded_inv c k : recorded c = Some k -> c = Some k /\ recorded (Some k) = Some k.
Proof. unfold recorded. destruct c as [c|]; [|done]. cbn. destruct (IsValid c) eqn:E; intros [= <-]. by rewrite E. Qed.

Lemma accounted_via x y c : (forall z, z ∈ operands y -> z ∈ operands x) -> accounted y c -> accounted x c.
Proof. intros Hs [Hc|(z & Hz & Ec)]; [by left|right; eauto]. Qed.

(** C18: no operation folds a constant out of range.  Whatever constants its
    variables have, the constant recorded for an expression is held in the
    representation of its own type and in its range (8, 16 and 32 signed bits
    for byte, short and int, 16 unsigned bits for char, 64 for long, a string
    only for String), unless it is, unchanged, that of a variable or of a
    character literal the expression hands on. *)
Theorem constants_in_range x c : Const x = Some (Some c) -> accounted x c.
Proof.
  enough (Hx : forall c, Const x = Some (Some c) -> held c /\ accounted x c) by (intros E; by apply Hx).
  clear c. induction x; intros c Hc; pose proof Hc as Hself; cbn [Const] in Hc; try discriminate Hc;
    apply bind_Some in Hc as (k & Hk & [= Hc]); apply recorded_inv in Hc as [-> _]; try discriminate Hk.
  all: try (injection Hk as Hk; split; [by eapply variable_held|right; eexists; split; [by apply list_elem_of_singleton|done]]).
  - destruct (formed_literal _ _ _ Hk c eq_refl) as [Hh [Hw| ->]]; (split; [done|]); [by left|].
    right. eexists. split; [|exact Hself]. by apply list_elem_of_singleton.
  - eauto.
  - apply bind_Some in Hk as (l & Hl & [= Hk]). destruct l as [l|]; [|done]. destruct (IHx l Hl) as [Hh Ha].
    destruct (formed_unary _ _ _ _ Hh Hk) as [Hw|[-> ->]]; [split; [by apply formed_held|by left]|]. split; [done|]. by eapply accounted_via; [|exact Ha].
  - apply bind_Some in Hk as (l & Hl & Hk). apply bind_Some in Hk as (r & Hr & [= Hk]). destruct l as [l|]; [|done]. destruct r as [r|]; [|done].
    assert (Hw : well_formed c) by (by eapply formed_binary; [apply (IHx1 l)|apply (IHx2 r)|exact Hk]). split; [by apply formed_held|by left].
  - apply bind_Some in Hk as (b & Hb & Hk). apply bind_Some in Hk as (l & Hl & Hk). apply bind_Some in Hk as (r & Hr & [= Hk]).
    destruct b as [b|]; [|done]. cbn in Hk. destruct (ConstInt b) as [v|]; [|done]. cbn in Hk. destruct (v =? 0); subst.
    + destruct (IHx3 c Hr) as [Hh Ha]. split; [done|]. eapply accounted_via; [|exact Ha]. intros z Hz. cbn. apply elem_of_app. by right.
    + destruct (IHx2 c Hl) as [Hh Ha]. split; [done|]. eapply accounted_via; [|exact Ha]. intros z Hz. cbn. apply elem_of_app. by left.
  - apply bind_Some in Hk as (l & Hl & [= Hk]). destruct (isConstantVarType _); [|done]. destruct l as [l|]; [|done]. injection Hk as <-.
    destruct (IHx l Hl) as [Hh Ha]. destruct (formed_coerce l (TypeOf (CastExpr sp Lparen type Bounds Rparen x)) Hh) as [Hw| ->].
    + split; [by apply formed_held|by left].
    + split; [done|]. by eapply accounted_via; [|exact Ha].
Qed.

(** A cast to a numeric type makes a numeric constant one of that type,
    except that a float or double constant cast to an integral type stays as it
    was: the constant then is not of the cast's type. *)
Theorem casts_change_type k t :
  well_formed k -> IsNumeric (kind_of t) = true -> floatOf k <> None ->
  (cType (coerce k t) = Some (TBasic (kind_of t)) <-> (IsIntegral (kind_of t) = true -> integerOf k <> None)) /\
  (IsIntegral (kind_of t) = true -> integerOf k = None -> coerce k t = k).
Proof.
  unfold well_formed, coerce, integerOf, floatOf. intros Hk Ht Hf. destruct k as [kt kv]. cbn [cType cValue] in *.
  destruct kt as [kt|]; [|done]. destruct kv as [[]|]; try done; destruct (kind_of t) eqn:Et; try done;
    (split; [split; [try done|intros Hi; try done; try (by destruct (Hi eq_refl))]|done]); intros [= ->]; done.
Qed.
End Proof.

(** ** The theorems at work *)

Lemma fold_integers_java_witness :
  foldBinary (H := example) ADD (constant Int_ (VInt 2147483647)) (constant Short_ (VInt 1)) Int_ = Some (constant Int_ (VInt (-2147483648))).
Proof.
  refine (fold_integers_java (H := example) Int_ 32 ADD (constant Int_ (VInt 2147483647)) (constant Short_ (VInt 1)) 2147483647 1
            (or_introl (conj eq_refl eq_refl)) eq_refl eq_refl _ _ eq_refl); unfold signed; cbn; lia.
Defined.

(** The text [-7 + b], where [b] claims to be the byte 300. *)
Definition b_minus_seven : Expr :=
  BinaryExpr (At 1 7) (UnaryExpr (At 1 3) SUB 1 (BasicLit (At 2 3) INT)) ADD 4 5 (EIdent (mkIdent (At 6 7) 0 false)).

Definition attributed : Attributed := {|
  TypeOf x := match x with BasicLit _ k => if (k =? STRING) || (k =? TEXTBLOCK) then TClass (Some 9) [] None else Int_ | _ => Int_ end;
  file_ := Some (mkFile (bs "A.java") (bs "-7 + b") (bs "-7 + b") [] [0] []);
  constOfVar _ := Some (constant Byte_ (VInt 300));
  parseCharLit _ := None; parseStringLit _ := None; parseTextBlock _ := None |}.

Definition strings : Table := {|
  Binary _ := StringName; VarSym _ := None; VarBound _ := None; Supertype _ := None; Interfaces _ := [] |}.

Lemma go_leaves : Go_leaves (H := strings) (H0 := attributed).
Proof.
  constructor.
  - intros sp kind Hk. cbn. destruct Hk as [-> | ->]; reflexivity.
  - intros x k [= <-]. unfold held, signed. cbn. lia.
Qed.

Lemma constants_in_range_witness :
  Const (H := strings) (H0 := attributed) b_minus_seven = Some (Some (constant Int_ (VInt 293))) /\ signed 32 293.
Proof.
  split; [reflexivity|].
  destruct (constants_in_range (H := strings) (H0 := attributed) (H1 := go_leaves) b_minus_seven (constant Int_ (VInt 293)) eq_refl) as [Hw|(y & Hy & _)].
  - exact Hw.
  - by apply not_elem_of_nil in Hy.
Defined.

Lemma casts_change_type_witness :
  coerce (constant Double_ (VDouble (S754_finite false 1 0))) Int_ = constant Double_ (VDouble (S754_finite false 1 0)).
Proof.
  refine (proj2 (casts_change_type (H := strings) (constant Double_ (VDouble (S754_finite false 1 0))) Int_ eq_refl eq_refl _) eq_refl eq_refl).
  discriminate.
Defined.
