(* ===== verification/FoldLit.v ===== *)
(** * Integer literals

    A decimal literal, however its digits are grouped and whether or not it has
    a suffix, is read as the number it spells; so is one in another radix. *)
From S2P Require Import Prelude.
From S2P Require Import Token SourceFile Ast Types Fold FoldProof.

(** ** Digits *)

Definition is_digit (c : Z) : Prop := 48 <= c <= 57.

Lemma digit_in_decimal d : 0 <= d < 10 -> digit_in 10 (48 + d) = Some d.
Proof.
  intros Hd. unfold digit_in, digit_value. rewrite (proj2 (Z.leb_le 48 (48 + d))), (proj2 (Z.leb_le (48 + d) 57)) by lia.
  cbn [andb mbind option_bind]. replace (48 + d - 48) with d by lia. by rewrite (proj2 (Z.ltb_lt d 10)) by lia.
Qed.

Lemma format_digits_value fuel n acc :
  0 <= n < 10 ^ Z.of_nat fuel -> (0 < fuel)%nat -> digits_value 10 (format_digits fuel n acc) 0 = digits_value 10 acc n.
Proof.
  revert n acc. induction fuel as [|fuel IH]; intros n acc Hn Hf; [lia|]. cbn [format_digits].
  destruct (Z.ltb_spec n 10).
  - cbn [digits_value]. rewrite digit_in_decimal by lia. done.
  - rewrite Nat2Z.inj_succ, Z.pow_succ_r in Hn by lia.
    assert (Hq : 0 <= n / 10 < 10 ^ Z.of_nat fuel) by (split; [apply Z.div_pos|apply Z.div_lt_upper_bound]; lia).
    assert (Hf' : (0 < fuel)%nat). { destruct fuel; [cbn in Hn; lia|lia]. }
    rewrite IH by done. cbn [digits_value]. rewrite digit_in_decimal by (apply Z.mod_pos_bound; lia). cbn [mbind option_bind].
    f_equal. pose proof (Z.div_mod n 10). lia.
Qed.

Lemma format_digits_digits fuel n acc :
  0 <= n -> Forall is_digit acc -> Forall is_digit (format_digits fuel n acc).
Proof.
  revert n acc. induction fuel as [|fuel IH]; intros n acc Hn Ha; [done|]. cbn [format_digits].
  destruct (Z.ltb_spec n 10); [constructor; [unfold is_digit; lia|done]|].
  apply IH; [apply Z.div_pos; lia|]. constructor; [|done]. unfold is_digit. pose proof (Z.mod_pos_bound n 10). lia.
Qed.

(** No number but zero begins with a zero. *)
Lemma format_digits_head fuel n acc :
  0 < n < 10 ^ Z.of_nat fuel -> exists c s, format_digits fuel n acc = c :: s /\ 49 <= c <= 57.
Proof.
  revert n acc. induction fuel as [|fuel IH]; intros n acc Hn; [cbn in Hn; lia|]. cbn [format_digits].
  destruct (Z.ltb_spec n 10); [exists (48 + n), acc; split; [done|lia]|].
  rewrite Nat2Z.inj_succ, Z.pow_succ_r in Hn by lia.
  apply IH. split; [apply Z.div_str_pos|apply Z.div_lt_upper_bound]; lia.
Qed.

Lemma FormatInt_zero : FormatInt 0 = [48]. Proof. reflexivity. Qed.

Lemma FormatInt_shape v : 0 < v < 10 ^ 20 ->
  exists c s, FormatInt v = c :: s /\ 49 <= c <= 57 /\ Forall is_digit (c :: s) /\ digits_value 10 (c :: s) 0 = Some v.
Proof.
  intros Hv. unfold FormatInt. destruct (Z.ltb_spec v 0); [lia|].
  destruct (format_digits_head 20 v []) as (c & s & E & Hc); [cbn; lia|]. exists c, s. rewrite <- E.
  repeat split; try lia; [apply format_digits_digits; [lia|constructor]|]. rewrite format_digits_value by (cbn; lia). done.
Qed.

(** ** Literals *)

Lemma trim_left_digits s : Forall is_digit s -> trim_left (bs "lL") s = s.
Proof.
  intros [|c s' Hc _]; [done|]. cbn [trim_left]. rewrite bool_decide_false; [done|].
  unfold is_digit in Hc. change (bs "lL") with [108; 76]. rewrite !elem_of_cons, elem_of_nil. lia.
Qed.

Lemma TrimRight_digits s : Forall is_digit s -> TrimRight s (bs "lL") = s.
Proof. intros Hs. unfold TrimRight. rewrite trim_left_digits by by apply Forall_rev. apply rev_involutive. Qed.

Lemma TrimRight_suffix s c : c ∈ bs "lL" -> TrimRight (s ++ [c]) (bs "lL") = TrimRight s (bs "lL").
Proof. intros Hc. unfold TrimRight. rewrite rev_app_distr. cbn [rev app trim_left]. rewrite bool_decide_true by done. done. Qed.

Lemma plain_underscores s : Forall is_digit s -> without_underscores s = s.
Proof.
  intros Hs. unfold without_underscores. induction Hs as [|c s Hc _ IH]; [done|].
  rewrite filter_cons_True by (unfold is_digit in Hc; lia). by rewrite IH.
Qed.

Lemma no_prefix p s q : Forall is_digit s -> ~ is_digit q -> has_prefix [p; q] s = false.
Proof.
  intros Hs Hq. unfold has_prefix. apply bool_decide_eq_false. cbn [length]. intros E.
  destruct s as [|a [|b s]]; try discriminate E. injection E as -> ->. apply Forall_cons in Hs as [_ Hs]. by apply Forall_cons in Hs as [? _].
Qed.

Lemma parse_digits_ok raw v :
  TrimRight (without_underscores raw) (bs "lL") = FormatInt v -> 0 <= v < 2 ^ 64 -> parseIntLit raw = Some (s64 v).
Proof.
  intros Hr Hv. unfold parseIntLit. rewrite Hr. destruct (Z.eq_dec v 0) as [->|Hz]; [reflexivity|].
  destruct (FormatInt_shape v) as (c & s & -> & Hc & Hd & Hval); [cbn in *; lia|].
  change (bs "0x") with [48; 120]. change (bs "0X") with [48; 88]. change (bs "0b") with [48; 98]. change (bs "0B") with [48; 66].
  rewrite !no_prefix by (done || unfold is_digit; lia). cbn [orb].
  assert (E : (match c :: s with 48 :: (_ :: _) as s' => (tail s', 8) | _ => (c :: s, 10) end) = (c :: s, 10)).
  { assert (H48 : c <> 48) by lia. destruct c as [|p|p]; try done. do 6 (destruct p; try done). }
  rewrite E. unfold ParseUint. rewrite Hval. cbn [mbind option_bind]. by rewrite (proj2 (Z.ltb_lt v (2 ^ 64))) by lia.
Qed.

(** C19: a decimal literal whose digits spell a number below 2^64, with
    underscores anywhere among them and with or without a long suffix, is read
    as that number, wrapped to 64 bits; below 2^63 it is the number itself,
    printed and read back. *)
Theorem literal_roundtrip raw v suffix :
  without_underscores raw = FormatInt v -> suffix = [] \/ suffix = bs "L" \/ suffix = bs "l" -> 0 <= v < 2 ^ 64 ->
  parseIntLit (raw ++ suffix) = Some (s64 v) /\ (v < 2 ^ 63 -> s64 v = v).
Proof.
  intros Hr Hs Hv. split; [|intros Hlt; rewrite s64_wrap; apply wrap_id; [lia|unfold signed; cbn in *; lia]].
  assert (Hd : Forall is_digit (FormatInt v)).
  { destruct (Z.eq_dec v 0) as [->|]; [repeat constructor; unfold is_digit; lia|].
    destruct (FormatInt_shape v) as (c & s & -> & _ & Hd & _); [cbn in *; lia|done]. }
  apply parse_digits_ok; [|done]. unfold without_underscores in *. rewrite filter_app, Hr.
  destruct Hs as [->|[->| ->]].
  - rewrite filter_nil, app_nil_r. by apply TrimRight_digits.
  - etransitivity; [apply (TrimRight_suffix _ 76); by apply list_elem_of_In; cbn; auto|]. by apply TrimRight_digits.
  - etransitivity; [apply (TrimRight_suffix _ 108); by apply list_elem_of_In; cbn; auto|]. by apply TrimRight_digits.
Qed.

Lemma literal_roundtrip_witness :
  FormatInt 9223372036854775808 = bs "9223372036854775808" /\ parseIntLit (bs "9_223_372_036_854_775_808" ++ bs "L") = Some (-9223372036854775808).
Proof.
  split; [reflexivity|].
  exact (proj1 (literal_roundtrip (bs "9_223_372_036_854_775_808") 9223372036854775808 (bs "L") eq_refl (or_intror (or_introl eq_refl)) ltac:(lia))).
Defined.
