(* ===== verification/AstWalk.v ===== *)
(** * Walking the tree ([ast/walk.go])

    [Walk] finds the children of a node by reflection, in the order of the
    fields of its struct.  [tree] is what that gives: each node with the nodes
    under it.  A node kept in an interface is the node itself. *)
From S2P Require Import Prelude.
From S2P Require Import Ast.

(** Every type of node that a field may hold. *)
Inductive Any :=
  | AIdent (x : Ident) | AName (x : Name) | ANode (x : Node) | AAnnotation (x : Annotation) | AElementValuePair (x : ElementValuePair)
  | AModifier (x : Modifier) | AModifiers (x : Modifiers) | ATyp (x : Typ) | ANamedType (x : NamedType) | ADim (x : Dim)
  | ATypeArgs (x : TypeArgs) | ATypeParams (x : TypeParams) | ATypeParam (x : TypeParam) | APattern (x : Pattern) | AExpr (x : Expr)
  | ADimExpr (x : DimExpr) | AArrayInit (x : ArrayInit) | ABlock (x : Block) | AStmt (x : Stmt) | AResource (x : Resource)
  | ACatchClause (x : CatchClause) | ASwitchBlock (x : SwitchBlock) | ASwitchRule (x : SwitchRule) | ASwitchGroup (x : SwitchGroup)
  | ASwitchLabel (x : SwitchLabel) | AVarDecl (x : VarDecl) | AVarDeclarator (x : VarDeclarator) | AParam (x : Param)
  | AReceiverParam (x : ReceiverParam) | ARecordComponent (x : RecordComponent) | AEnumConstant (x : EnumConstant) | ADecl (x : Decl).

Inductive tree := Tree (node : Any) (below : list tree).

Definition node_of (t : tree) : Any := match t with Tree n _ => n end.
Definition below (t : tree) : list tree := match t with Tree _ l => l end.

Definition opt {A B} (f : A -> B) (o : option A) : list B := match o with Some x => [f x] | None => [] end.

Definition tree_Ident (x : Ident) : tree := Tree (AIdent x) [].
Definition tree_Name (x : Name) : tree := Tree (AName x) (map tree_Ident (nParts x)).

Fixpoint tree_Node (x : Node) {struct x} : tree :=
  match x with
  | NExpr e => tree_Expr e
  | NType t => tree_Typ t
  | NPattern p => tree_Pattern p
  | NBlock b => tree_Block b
  | NStmt s => tree_Stmt s
  | NAnnotation a => tree_Annotation a
  | NElementValueArray _ Elts _ => Tree (ANode x) (map tree_Node Elts)
  end

with tree_Annotation (x : Annotation) {struct x} : tree :=
  match x with
  | mkAnnotation _ _ name Pairs => Tree (AAnnotation x) ([tree_Name name] ++ map tree_ElementValuePair Pairs)
  end

with tree_ElementValuePair (x : ElementValuePair) {struct x} : tree :=
  match x with
  | mkElementValuePair _ name Value => Tree (AElementValuePair x) (opt tree_Ident name ++ [tree_Node Value])
  end

with tree_Modifier (x : Modifier) {struct x} : tree :=
  match x with
  | mkModifier _ annotation _ => Tree (AModifier x) (opt tree_Annotation annotation)
  end

with tree_Modifiers (x : Modifiers) {struct x} : tree :=
  match x with
  | mkModifiers _ List => Tree (AModifiers x) (map tree_Modifier List)
  end

with tree_Typ (x : Typ) {struct x} : tree :=
  match x with
  | PrimitiveType _ Annotations _ _ => Tree (ATyp x) (map tree_Annotation Annotations)
  | TNamed n => tree_NamedType n
  | ArrayType _ Elt Dims => Tree (ATyp x) ([tree_Typ Elt] ++ map tree_Dim Dims)
  | VarType _ => Tree (ATyp x) []
  | Wildcard _ Annotations _ _ Bound => Tree (ATyp x) (map tree_Annotation Annotations ++ opt tree_Typ Bound)
  | BadType _ => Tree (ATyp x) []
  end

with tree_NamedType (x : NamedType) {struct x} : tree :=
  match x with
  | mkNamedType _ Qualifier Annotations name TypeArgs_ => Tree (ANamedType x) (opt tree_NamedType Qualifier ++ map tree_Annotation Annotations ++ [tree_Ident name] ++ opt tree_TypeArgs TypeArgs_)
  end

with tree_Dim (x : Dim) {struct x} : tree :=
  match x with
  | mkDim _ Annotations _ _ => Tree (ADim x) (map tree_Annotation Annotations)
  end

with tree_TypeArgs (x : TypeArgs) {struct x} : tree :=
  match x with
  | mkTypeArgs _ _ _ List _ => Tree (ATypeArgs x) (map tree_Typ List)
  end

with tree_TypeParams (x : TypeParams) {struct x} : tree :=
  match x with
  | mkTypeParams _ _ _ List => Tree (ATypeParams x) (map tree_TypeParam List)
  end

with tree_TypeParam (x : TypeParam) {struct x} : tree :=
  match x with
  | mkTypeParam _ Annotations name Bounds => Tree (ATypeParam x) (map tree_Annotation Annotations ++ [tree_Ident name] ++ map tree_Typ Bounds)
  end

with tree_Pattern (x : Pattern) {struct x} : tree :=
  match x with
  | TypePattern _ Mods type name => Tree (APattern x) (opt tree_Modifiers Mods ++ [tree_Typ type] ++ [tree_Ident name])
  | RecordPattern _ type _ Elts _ => Tree (APattern x) ([tree_Typ type] ++ map tree_Pattern Elts)
  | MatchAllPattern _ => Tree (APattern x) []
  | BadPattern _ => Tree (APattern x) []
  end

with tree_Expr (x : Expr) {struct x} : tree :=
  match x with
  | EIdent i => tree_Ident i
  | EName n => tree_Name n
  | BasicLit _ _ => Tree (AExpr x) []
  | ClassLit _ type _ Dims _ => Tree (AExpr x) (opt tree_Typ type ++ map tree_Dim Dims)
  | This _ Qualifier _ => Tree (AExpr x) (opt tree_Name Qualifier)
  | Super _ Qualifier _ => Tree (AExpr x) (opt tree_Name Qualifier)
  | ParenExpr _ _ X _ => Tree (AExpr x) [tree_Expr X]
  | SelectorExpr _ X _ Sel => Tree (AExpr x) ([tree_Expr X] ++ [tree_Ident Sel])
  | IndexExpr _ X _ Index _ => Tree (AExpr x) ([tree_Expr X] ++ [tree_Expr Index])
  | CallExpr _ X TypeArgs_ Fun _ Args _ => Tree (AExpr x) (opt tree_Expr X ++ opt tree_TypeArgs TypeArgs_ ++ [tree_Ident Fun] ++ map tree_Expr Args)
  | MethodRef _ X _ TypeArgs_ name _ => Tree (AExpr x) ([tree_Node X] ++ opt tree_TypeArgs TypeArgs_ ++ opt tree_Ident name)
  | NewExpr _ Outer _ TypeArgs_ type _ Args _ Body _ _ => Tree (AExpr x) (opt tree_Expr Outer ++ opt tree_TypeArgs TypeArgs_ ++ opt tree_NamedType type ++ map tree_Expr Args ++ map tree_Decl Body)
  | NewArrayExpr _ _ Elt DimExprs Dims Init => Tree (AExpr x) ([tree_Typ Elt] ++ map tree_DimExpr DimExprs ++ map tree_Dim Dims ++ opt tree_ArrayInit Init)
  | EArrayInit a => tree_ArrayInit a
  | UnaryExpr _ _ _ X => Tree (AExpr x) [tree_Expr X]
  | PostfixExpr _ X _ _ => Tree (AExpr x) [tree_Expr X]
  | BinaryExpr _ X _ _ _ Y => Tree (AExpr x) ([tree_Expr X] ++ [tree_Expr Y])
  | InstanceOfExpr _ X _ type pattern => Tree (AExpr x) ([tree_Expr X] ++ opt tree_Typ type ++ opt tree_Pattern pattern)
  | CondExpr _ Cond _ Then _ Else => Tree (AExpr x) ([tree_Expr Cond] ++ [tree_Expr Then] ++ [tree_Expr Else])
  | AssignExpr _ LHS _ _ _ RHS => Tree (AExpr x) ([tree_Expr LHS] ++ [tree_Expr RHS])
  | CastExpr _ _ type Bounds _ X => Tree (AExpr x) ([tree_Typ type] ++ map tree_Typ Bounds ++ [tree_Expr X])
  | LambdaExpr _ _ Params _ _ _ Body => Tree (AExpr x) (map tree_Param Params ++ [tree_Node Body])
  | SwitchExpr _ _ Tag block => Tree (AExpr x) ([tree_Expr Tag] ++ [tree_SwitchBlock block])
  | BadExpr _ => Tree (AExpr x) []
  end

with tree_DimExpr (x : DimExpr) {struct x} : tree :=
  match x with
  | mkDimExpr _ Annotations _ X _ => Tree (ADimExpr x) (map tree_Annotation Annotations ++ [tree_Expr X])
  end

with tree_ArrayInit (x : ArrayInit) {struct x} : tree :=
  match x with
  | mkArrayInit _ _ Elts _ _ => Tree (AArrayInit x) (map tree_Node Elts)
  end

with tree_Block (x : Block) {struct x} : tree :=
  match x with
  | mkBlock _ _ Stmts _ => Tree (ABlock x) (map tree_Stmt Stmts)
  end

with tree_Stmt (x : Stmt) {struct x} : tree :=
  match x with
  | SBlock b => tree_Block b
  | EmptyStmt _ => Tree (AStmt x) []
  | ExprStmt _ X => Tree (AStmt x) [tree_Expr X]
  | DeclStmt _ decl => Tree (AStmt x) [tree_Decl decl]
  | LabeledStmt _ Label _ stmt => Tree (AStmt x) ([tree_Ident Label] ++ [tree_Stmt stmt])
  | IfStmt _ _ Cond Then _ Else => Tree (AStmt x) ([tree_Expr Cond] ++ [tree_Stmt Then] ++ opt tree_Stmt Else)
  | WhileStmt _ _ Cond Body => Tree (AStmt x) ([tree_Expr Cond] ++ [tree_Stmt Body])
  | DoStmt _ _ Body _ Cond => Tree (AStmt x) ([tree_Stmt Body] ++ [tree_Expr Cond])
  | ForStmt _ _ Init Cond Post Body => Tree (AStmt x) (map tree_Stmt Init ++ opt tree_Expr Cond ++ map tree_Expr Post ++ [tree_Stmt Body])
  | RangeStmt _ _ decl _ X Body => Tree (AStmt x) ([tree_VarDecl decl] ++ [tree_Expr X] ++ [tree_Stmt Body])
  | SwitchStmt _ _ Tag block => Tree (AStmt x) ([tree_Expr Tag] ++ [tree_SwitchBlock block])
  | BreakStmt _ _ Label => Tree (AStmt x) (opt tree_Ident Label)
  | ContinueStmt _ _ Label => Tree (AStmt x) (opt tree_Ident Label)
  | ReturnStmt _ _ Result => Tree (AStmt x) (opt tree_Expr Result)
  | YieldStmt _ _ X => Tree (AStmt x) [tree_Expr X]
  | ThrowStmt _ _ X => Tree (AStmt x) [tree_Expr X]
  | SyncStmt _ _ X Body => Tree (AStmt x) ([tree_Expr X] ++ [tree_Block Body])
  | AssertStmt _ _ X _ Msg => Tree (AStmt x) ([tree_Expr X] ++ opt tree_Expr Msg)
  | TryStmt _ _ _ Resources _ _ Body Catches _ Finally => Tree (AStmt x) (map tree_Resource Resources ++ [tree_Block Body] ++ map tree_CatchClause Catches ++ opt tree_Block Finally)
  | ConstructorCall _ X TypeArgs_ _ _ _ Args _ => Tree (AStmt x) (opt tree_Expr X ++ opt tree_TypeArgs TypeArgs_ ++ map tree_Expr Args)
  | BadStmt _ => Tree (AStmt x) []
  end

with tree_Resource (x : Resource) {struct x} : tree :=
  match x with
  | mkResource _ decl X => Tree (AResource x) (opt tree_VarDecl decl ++ opt tree_Expr X)
  end

with tree_CatchClause (x : CatchClause) {struct x} : tree :=
  match x with
  | mkCatchClause _ _ Mods Types name Body => Tree (ACatchClause x) (opt tree_Modifiers Mods ++ map tree_Typ Types ++ [tree_Ident name] ++ [tree_Block Body])
  end

with tree_SwitchBlock (x : SwitchBlock) {struct x} : tree :=
  match x with
  | mkSwitchBlock _ _ Rules Groups Labels _ => Tree (ASwitchBlock x) (map tree_SwitchRule Rules ++ map tree_SwitchGroup Groups ++ map tree_SwitchLabel Labels)
  end

with tree_SwitchRule (x : SwitchRule) {struct x} : tree :=
  match x with
  | mkSwitchRule _ Label _ Body => Tree (ASwitchRule x) ([tree_SwitchLabel Label] ++ [tree_Node Body])
  end

with tree_SwitchGroup (x : SwitchGroup) {struct x} : tree :=
  match x with
  | mkSwitchGroup _ Labels Stmts => Tree (ASwitchGroup x) (map tree_SwitchLabel Labels ++ map tree_Stmt Stmts)
  end

with tree_SwitchLabel (x : SwitchLabel) {struct x} : tree :=
  match x with
  | mkSwitchLabel _ _ Cases _ _ _ Guard => Tree (ASwitchLabel x) (map tree_Node Cases ++ opt tree_Expr Guard)
  end

with tree_VarDecl (x : VarDecl) {struct x} : tree :=
  match x with
  | mkVarDecl _ Mods type Names _ => Tree (AVarDecl x) (opt tree_Modifiers Mods ++ opt tree_Typ type ++ map tree_VarDeclarator Names)
  end

with tree_VarDeclarator (x : VarDeclarator) {struct x} : tree :=
  match x with
  | mkVarDeclarator _ name Dims _ Init => Tree (AVarDeclarator x) ([tree_Ident name] ++ map tree_Dim Dims ++ opt tree_Node Init)
  end

with tree_Param (x : Param) {struct x} : tree :=
  match x with
  | mkParam _ Mods type Annotations _ name Dims => Tree (AParam x) (opt tree_Modifiers Mods ++ opt tree_Typ type ++ map tree_Annotation Annotations ++ [tree_Ident name] ++ map tree_Dim Dims)
  end

with tree_ReceiverParam (x : ReceiverParam) {struct x} : tree :=
  match x with
  | mkReceiverParam _ Annotations type Qualifier _ => Tree (AReceiverParam x) (map tree_Annotation Annotations ++ [tree_Typ type] ++ opt tree_Ident Qualifier)
  end

with tree_RecordComponent (x : RecordComponent) {struct x} : tree :=
  match x with
  | mkRecordComponent _ Annotations type DotAnnotations _ name => Tree (ARecordComponent x) (map tree_Annotation Annotations ++ [tree_Typ type] ++ map tree_Annotation DotAnnotations ++ [tree_Ident name])
  end

with tree_EnumConstant (x : EnumConstant) {struct x} : tree :=
  match x with
  | mkEnumConstant _ Annotations name _ Args _ _ Members _ => Tree (AEnumConstant x) (map tree_Annotation Annotations ++ [tree_Ident name] ++ map tree_Expr Args ++ map tree_Decl Members)
  end

with tree_Decl (x : Decl) {struct x} : tree :=
  match x with
  | ClassDecl _ Mods _ name TypeParams_ Extends Implements Permits _ Members _ => Tree (ADecl x) (opt tree_Modifiers Mods ++ [tree_Ident name] ++ opt tree_TypeParams TypeParams_ ++ opt tree_Typ Extends ++ map tree_Typ Implements ++ map tree_Typ Permits ++ map tree_Decl Members)
  | InterfaceDecl _ Mods _ name TypeParams_ Extends Permits _ Members _ => Tree (ADecl x) (opt tree_Modifiers Mods ++ [tree_Ident name] ++ opt tree_TypeParams TypeParams_ ++ map tree_Typ Extends ++ map tree_Typ Permits ++ map tree_Decl Members)
  | AnnotationDecl _ Mods _ _ name _ Members _ => Tree (ADecl x) (opt tree_Modifiers Mods ++ [tree_Ident name] ++ map tree_Decl Members)
  | EnumDecl _ Mods _ name Implements _ Constants _ _ Members _ => Tree (ADecl x) (opt tree_Modifiers Mods ++ [tree_Ident name] ++ map tree_Typ Implements ++ map tree_EnumConstant Constants ++ map tree_Decl Members)
  | RecordDecl _ Mods _ name TypeParams_ _ Components _ Implements _ Members _ => Tree (ADecl x) (opt tree_Modifiers Mods ++ [tree_Ident name] ++ opt tree_TypeParams TypeParams_ ++ map tree_RecordComponent Components ++ map tree_Typ Implements ++ map tree_Decl Members)
  | DVar v => tree_VarDecl v
  | MethodDecl _ Mods TypeParams_ Annotations _ Result name _ Recv Params _ Dims Throws Body _ => Tree (ADecl x) (opt tree_Modifiers Mods ++ opt tree_TypeParams TypeParams_ ++ map tree_Annotation Annotations ++ opt tree_Typ Result ++ [tree_Ident name] ++ opt tree_ReceiverParam Recv ++ map tree_Param Params ++ map tree_Dim Dims ++ map tree_Typ Throws ++ opt tree_Block Body)
  | ConstructorDecl _ Mods TypeParams_ name _ _ Recv Params _ Throws Body => Tree (ADecl x) (opt tree_Modifiers Mods ++ opt tree_TypeParams TypeParams_ ++ [tree_Ident name] ++ opt tree_ReceiverParam Recv ++ map tree_Param Params ++ map tree_Typ Throws ++ [tree_Block Body])
  | InitializerDecl _ _ _ Body => Tree (ADecl x) [tree_Block Body]
  | AnnotationElemDecl _ Mods type name _ _ Dims _ Default _ => Tree (ADecl x) (opt tree_Modifiers Mods ++ opt tree_Typ type ++ [tree_Ident name] ++ map tree_Dim Dims ++ opt tree_Node Default)
  | EmptyDecl _ => Tree (ADecl x) []
  | BadDecl _ => Tree (ADecl x) []
  end.

(** ** Extents

    [Pos] and [End] of a node, from its [Span]. *)
Definition named_span (x : NamedType) : Span := match x with mkNamedType sp _ _ _ _ => sp end.
Definition array_init_span (x : ArrayInit) : Span := match x with mkArrayInit sp _ _ _ _ => sp end.
Definition block_span (x : Block) : Span := match x with mkBlock sp _ _ _ => sp end.

Definition typ_span (x : Typ) : Span :=
  match x with
  | PrimitiveType sp _ _ _ => sp
  | TNamed x => named_span x
  | ArrayType sp _ _ | VarType sp | Wildcard sp _ _ _ _ | BadType sp => sp
  end.

Definition expr_span (x : Expr) : Span :=
  match x with
  | EIdent x => iSpan x
  | EName x => nSpan x
  | BasicLit sp _ | ClassLit sp _ _ _ _ | This sp _ _ | Super sp _ _ | ParenExpr sp _ _ _ | SelectorExpr sp _ _ _
  | IndexExpr sp _ _ _ _ | CallExpr sp _ _ _ _ _ _ | MethodRef sp _ _ _ _ _ | NewExpr sp _ _ _ _ _ _ _ _ _ _
  | NewArrayExpr sp _ _ _ _ _ => sp
  | EArrayInit x => array_init_span x
  | UnaryExpr sp _ _ _ | PostfixExpr sp _ _ _ | BinaryExpr sp _ _ _ _ _ | InstanceOfExpr sp _ _ _ _ | CondExpr sp _ _ _ _ _
  | AssignExpr sp _ _ _ _ _ | CastExpr sp _ _ _ _ _ | LambdaExpr sp _ _ _ _ _ _ | SwitchExpr sp _ _ _ | BadExpr sp => sp
  end.

Definition stmt_span (x : Stmt) : Span :=
  match x with
  | SBlock x => block_span x
  | EmptyStmt sp | ExprStmt sp _ | DeclStmt sp _ | LabeledStmt sp _ _ _ | IfStmt sp _ _ _ _ _ | WhileStmt sp _ _ _
  | DoStmt sp _ _ _ _ | ForStmt sp _ _ _ _ _ | RangeStmt sp _ _ _ _ _ | SwitchStmt sp _ _ _ | BreakStmt sp _ _
  | ContinueStmt sp _ _ | ReturnStmt sp _ _ | YieldStmt sp _ _ | ThrowStmt sp _ _ | SyncStmt sp _ _ _ | AssertStmt sp _ _ _ _
  | TryStmt sp _ _ _ _ _ _ _ _ _ | ConstructorCall sp _ _ _ _ _ _ _ | BadStmt sp => sp
  end.

(** ** Walk and Inspect

    A visitor is a state [V] with its effects on [S]; after the children of a
    node it is called once more, with no node. *)
Section Walk.
Context {S V : Type} (Visit : V -> option Any -> S -> S * option V).

Fixpoint Walk (v : V) (t : tree) (s : S) {struct t} : S :=
  match t with
  | Tree n l =>
      match Visit v (Some n) s with
      | (s, None) => s
      | (s, Some v') => fst (Visit v' None (fold_left (fun s t => Walk v' t s) l s))
      end
  end.
End Walk.

Definition inspector {S} (f : S -> Any -> S * bool) (_ : unit) (n : option Any) (s : S) : S * option unit :=
  match n with
  | Some n => let '(s, go) := f s n in (s, if go then Some tt else None)
  | None => (s, None)
  end.

Definition Inspect {S} (f : S -> Any -> S * bool) (t : tree) (s : S) : S := Walk (inspector f) tt t s.

(** ** Depth

    The measure of a recursion over the nodes below a node. *)
Definition max_of (l : list nat) : nat := foldr Nat.max 0%nat l.

Fixpoint depth (t : tree) : nat := match t with Tree _ l => S (max_of (map depth l)) end.

Lemma max_of_le l x : In x l -> (x <= max_of l)%nat.
Proof. unfold max_of. induction l as [|y l IH]; cbn; [tauto|]. intros [->|Hx]; [lia|]. specialize (IH Hx). lia. Qed.

Lemma depth_below c t : In c (below t) -> (depth c < depth t)%nat.
Proof. destruct t as [n l]. cbn [below depth]. intros Hc. apply (in_map depth), max_of_le in Hc. apply Nat.lt_succ_r, Hc. Qed.

(** ** What Inspect visits *)
Fixpoint preorder (t : tree) : list Any := match t with Tree n l => n :: concat (map preorder l) end.

(** Induction over a tree. *)
Lemma tree_ind' (P : tree -> Prop) : (forall n l, Forall P l -> P (Tree n l)) -> forall t, P t.
Proof. intros Hp. fix IH 1. intros [n l]. apply Hp. induction l; constructor; auto. Qed.

(** A callback that never declines sees every node once, a node before what is
    below it and in the order of the source. *)
Lemma Inspect_preorder {S} (f : S -> Any -> S) t s : Inspect (fun s n => (f s n, true)) t s = fold_left f (preorder t) s.
Proof.
  revert s. induction t as [n l IH] using tree_ind'. intros s. unfold Inspect. cbn [Walk inspector fst preorder fold_left].
  generalize (f s n). clear s. induction IH as [|t l Ht _ IHl]; intros s; [done|]. cbn [map concat fold_left].
  rewrite fold_left_app, <- Ht. apply IHl.
Qed.

(** Induction over a pattern, with what holds of its elements. *)
Lemma pattern_ind' (P : Pattern -> Prop) :
  (forall p, (forall q, match p with RecordPattern _ _ _ Elts _ => In q Elts | _ => False end -> P q) -> P p) -> forall p, P p.
Proof.
  intros Hp. fix IH 1. intros p. apply Hp. destruct p as [| sp t lp Elts rp | |]; try (intros q []).
  revert Elts. fix IHl 1. intros [|e l] q; [intros []|]. intros [<-|Hq]; [apply IH|by apply (IHl l)].
Qed.
