(* ===== verification/Bits.v ===== *)
(** * Bit sets and states of definite assignment ([analyzer/flow/bits.go])

    A [bits] is a slice of 64-bit words.  Slices are passed by value and the
    words behind them are shared, so the arrays live in a store and a slice is
    a pointer with a length and a capacity. *)
From S2P Require Import Prelude.

(** ** Slices of words

    What Go's runtime chooses is the capacity of an array that [append]
    allocates: at least what was asked for. *)
Class Runtime := {
  newcap : nat -> nat -> nat;
  newcap_enough cap need : (need <= newcap cap need)%nat }.

Record slice := mkSlice { ptr : nat; slen : nat; scap : nat }.

Abbreviation store := (list (list Z)).

Definition nil_slice : slice := mkSlice 0 0 0.

(** [b.w], and [make] with given words. *)
Definition words (h : store) (s : slice) : list Z := take (slen s) (h !!! ptr s).
Definition make (ws : list Z) (h : store) : slice * store := (mkSlice (length h) (length ws) (length ws), h ++ [ws]).

(** [b.w[k] = v]. *)
Definition write (s : slice) (k : nat) (v : Z) (h : store) : store := alter (fun a => <[k := v]> a) (ptr s) h.

Definition zeros (n : nat) : list Z := replicate n 0.

Section Bits.
Context `{Runtime}.

(** [append(s, ws...)]: in place where the capacity allows, in a new array
    otherwise. *)
Definition append (s : slice) (ws : list Z) (h : store) : slice * store :=
  let n := (slen s + length ws)%nat in
  if (n <=? scap s)%nat then
    (mkSlice (ptr s) n (scap s), alter (fun a => take (slen s) a ++ ws ++ drop n a) (ptr s) h)
  else
    let cap := newcap (scap s) n in
    (mkSlice (length h) n cap, h ++ [words h s ++ ws ++ zeros (cap - n)]).

(** ** Operations *)

Definition newBits (n : Z) (h : store) : slice * store :=
  if n =? 0 then (nil_slice, h) else make (zeros (Z.to_nat ((n + 63) / 64))) h.

Definition clone (b : slice) (h : store) : slice * store :=
  if (slen b =? 0)%nat then (nil_slice, h) else make (words h b) h.

(** The loop of [grow], once for each missing word. *)
Fixpoint append_zeros (k : nat) (b : slice) (h : store) : slice * store :=
  match k with
  | O => (b, h)
  | S k => let '(b, h) := append b [0] h in append_zeros k b h
  end.

Definition grow (b : slice) (n : Z) (h : store) : slice * store :=
  append_zeros (Z.to_nat ((n + 64) / 64) - slen b) b h.

Definition set (b : slice) (i : Z) (h : store) : slice * store :=
  if i <? 0 then (b, h)
  else
    let '(b, h) := grow b i h in
    let k := Z.to_nat (i / 64) in
    (b, write b k (Z.lor (words h b !!! k) (Z.shiftl 1 (i mod 64))) h).

Definition outside (b : slice) (i : Z) : bool := (i <? 0) || (Z.of_nat (slen b) <=? i / 64).

Definition clear (b : slice) (i : Z) (h : store) : store :=
  if outside b i then h
  else let k := Z.to_nat (i / 64) in write b k (Z.ldiff (words h b !!! k) (Z.shiftl 1 (i mod 64))) h.

Definition has (b : slice) (i : Z) (h : store) : bool :=
  if outside b i then false
  else negb (Z.land (words h b !!! Z.to_nat (i / 64)) (Z.shiftl 1 (i mod 64)) =? 0).

Definition and (b o : slice) (h : store) : slice * store := make (zip_with Z.land (words h b) (words h o)) h.

(** [out.w[i] |= short.w[i]] for each word of the shorter. *)
Fixpoint or_words (long short : list Z) : list Z :=
  match long, short with
  | l :: long, s :: short => Z.lor l s :: or_words long short
  | _, _ => long
  end.

Definition or (b o : slice) (h : store) : slice * store :=
  let '(long, short) := if (slen b <? slen o)%nat then (o, b) else (b, o) in
  let '(out, h) := clone long h in
  (out, alter (fun a => or_words a (words h short)) (ptr out) h).

Definition word (ws : list Z) (i : nat) : Z := nth i ws 0.

Definition equal (b o : slice) (h : store) : bool :=
  forallb (fun i => word (words h b) i =? word (words h o) i) (seq 0 (Nat.max (slen b) (slen o))).

(** ** States *)

Record state := mkState { da : slice; du : slice }.

Definition clone_state (s : state) (h : store) : state * store :=
  let '(a, h) := clone (da s) h in let '(u, h) := clone (du s) h in (mkState a u, h).

Definition join (a b : state) (h : store) : state * store :=
  let '(x, h) := and (da a) (da b) h in let '(y, h) := and (du a) (du b) h in (mkState x y, h).

Definition equal_state (s o : state) (h : store) : bool := equal (da s) (da o) h && equal (du s) (du o) h.

Definition assign (s : state) (i : Z) (h : store) : state * store :=
  let '(a, h) := set (da s) i h in (mkState a (du s), clear (du s) i h).

(** [st.da.grow(i); st.du.grow(i)]. *)
Definition grow_state (s : state) (i : Z) (h : store) : state * store :=
  let '(a, h) := grow (da s) i h in let '(u, h) := grow (du s) i h in (mkState a u, h).

(** [copyInto]: the slices of [dst] are the caller's copies. *)
Definition copyInto (dst src : state) (h : store) : store :=
  let '(_, h) := append (mkSlice (ptr (da dst)) 0 (scap (da dst))) (words h (da src)) h in
  snd (append (mkSlice (ptr (du dst)) 0 (scap (du dst))) (words h (du src)) h).

Record cond := mkCond { whenTrue : state; whenFalse : state }.

Definition unconditional (s : state) (h : store) : cond * store :=
  let '(t, h) := clone_state s h in let '(f, h) := clone_state s h in (mkCond t f, h).

Definition merge (c : cond) (h : store) : state * store := join (whenTrue c) (whenFalse c) h.
End Bits.
