(* ===== verification/BitsSets.v ===== *)
(** * Slices, ownership and bits; bit sets are sets

    An operation on the store touches only arrays it owns: those behind the
    slices it was given, and those allocated since.  [own] says that of a
    slice, and [grows] that the rest is as it was.  Then, what each operation of
    [bits] does to the numbers it holds, whatever the lengths and capacities of
    the slices. *)
From S2P Require Import Prelude.
From S2P Require Import Bits.

(** ** Stores *)

Definition word_ok (v : Z) : Prop := 0 <= v < 2 ^ 64.
Definition good (h : store) : Prop := Forall (Forall word_ok) h.

(** From [h] to [h'] arrays appear, none changes its length, and only those of
    [O] their words. *)
Record grows (O : nat -> Prop) (h h' : store) : Prop := {
  grows_length : (length h <= length h')%nat;
  grows_good : good h -> good h';
  grows_at p a : h !! p = Some a -> exists a', h' !! p = Some a' /\ length a' = length a /\ (~ O p -> a' = a) }.

#[export] Instance grows_preorder O : PreOrder (grows O).
Proof.
  split.
  - intros h. split; [lia|done|]. intros p a Ha. exists a. auto.
  - intros h1 h2 h3 [La Ga Aa] [Lb Gb Ab]. split; [lia|auto|]. intros p a Ha.
    destruct (Aa p a Ha) as (b & Hb & Eb & Cb). destruct (Ab p b Hb) as (c & Hc & Ec & Cc).
    exists c. split; [done|]. split; [lia|]. intros Hp. rewrite Cc by done. auto.
Qed.

Lemma grows_weaken (O O' : nat -> Prop) h h' : (forall p, (p < length h)%nat -> O p -> O' p) -> grows O h h' -> grows O' h h'.
Proof.
  intros HO [L G A]. split; [done|done|]. intros p a Ha. destruct (A p a Ha) as (b & Hb & Eb & Cb).
  exists b. split; [done|]. split; [done|]. intros Hp. apply Cb. intros Ho. apply Hp, HO; [|done]. by eapply lookup_lt_Some.
Qed.

(** New arrays are owned. *)
Definition based (O : nat -> Prop) (h : store) : Prop := forall p, (length h <= p)%nat -> O p.

(** The arrays allocated since a store. *)
Definition since (h : store) (p : nat) : Prop := (length h <= p)%nat.

Definition valid (s : slice) (h : store) : Prop :=
  (slen s <= scap s)%nat /\ ((0 < scap s)%nat -> exists a, h !! ptr s = Some a /\ length a = scap s).

Definition own (O : nat -> Prop) (s : slice) (h : store) : Prop := valid s h /\ ((0 < scap s)%nat -> O (ptr s)).

Lemma based_grows O h h' : based O h -> grows O h h' -> based O h'.
Proof. intros Hb [L _ _] p Hp. apply Hb. lia. Qed.

Lemma valid_grows O s h h' : valid s h -> grows O h h' -> valid s h'.
Proof.
  intros [Hl Hv] [_ _ A]. split; [done|]. intros Hc. destruct (Hv Hc) as (a & Ha & La).
  destruct (A _ _ Ha) as (b & Hb & Lb & _). exists b. split; [done|lia].
Qed.

Lemma own_grows O O' s h h' : own O s h -> grows O' h h' -> own O s h'.
Proof. intros [Hv Ho] Hg. split; [by eapply valid_grows|done]. Qed.

Lemma own_nil O h : own O nil_slice h.
Proof. split; [split|]; cbn; lia. Qed.

Lemma own_weaken (O O' : nat -> Prop) s h : (forall p, O p -> O' p) -> own O s h -> own O' s h.
Proof. intros HO [Hv Ho]. split; auto. Qed.

Lemma own_since s h h' : based (since h) h' -> own (since h) s h' -> forall O, based O h -> own O s h'.
Proof. intros _ Hs O Hb. revert Hs. apply own_weaken, Hb. Qed.

(** ** Two ways to change a store *)

Lemma grows_alloc O h ws : (good h -> Forall word_ok ws) -> grows O h (h ++ [ws]).
Proof.
  intros Hw. split; [rewrite length_app; lia|intros Hg; apply Forall_app; auto|].
  intros p a Ha. exists a. rewrite lookup_app_l by (by eapply lookup_lt_Some). auto.
Qed.

Lemma grows_alter (O : nat -> Prop) h p f :
  O p -> (forall a, h !! p = Some a -> length (f a) = length a /\ (good h -> Forall word_ok a -> Forall word_ok (f a))) -> grows O h (alter f p h).
Proof.
  intros HO Hf. split.
  - rewrite length_alter. lia.
  - intros Hgood. pose proof Hgood as Hg. unfold good in Hg |- *. rewrite !Forall_lookup in Hg |- *. intros q b Hb. destruct (decide (p = q)) as [<-|Hn].
    + rewrite list_lookup_alter_eq in Hb. apply fmap_Some in Hb as (a & Ea & ->).
      apply (Hf a Ea); [done|]. apply (Hg p a Ea).
    + rewrite list_lookup_alter_ne in Hb by done. by apply (Hg q).
  - intros q a Ha. destruct (decide (p = q)) as [<-|Hn].
    + exists (f a). rewrite list_lookup_alter_eq, Ha. split; [done|]. split; [apply (Hf a Ha)|done].
    + exists a. rewrite list_lookup_alter_ne by done. auto.
Qed.

Lemma alter_none {A} (f : A -> A) p (h : list A) : (forall a, h !! p = Some a -> f a = a) -> alter f p h = h.
Proof.
  intros Hf. apply list_eq. intros q. destruct (decide (p = q)) as [<-|Hn]; [|by rewrite list_lookup_alter_ne].
  rewrite list_lookup_alter_eq. destruct (h !! p) as [a|] eqn:Ea; [|done]. cbn. by rewrite (Hf a eq_refl).
Qed.

Lemma words_good h s : good h -> Forall word_ok (words h s).
Proof.
  unfold good. rewrite Forall_lookup. intros Hg. unfold words. apply Forall_take. destruct (h !! ptr s) as [a|] eqn:Ea.
  - rewrite (list_lookup_total_correct _ _ _ Ea). by apply (Hg (ptr s)).
  - rewrite list_lookup_total_alt, Ea. constructor.
Qed.

Lemma words_length h s : valid s h -> length (words h s) = slen s.
Proof.
  intros [Hl Hv]. unfold words. destruct (decide (0 < scap s)%nat) as [Hc|Hc].
  - destruct (Hv Hc) as (a & Ha & La). rewrite (list_lookup_total_correct _ _ _ Ha), length_take. lia.
  - rewrite length_take. lia.
Qed.

(** A slice whose array is not owned keeps its words. *)
Lemma words_grows O s h h' : valid s h -> ((0 < scap s)%nat -> ~ O (ptr s)) -> grows O h h' -> words h' s = words h s.
Proof.
  intros [Hl Hv] Ho [_ _ A]. unfold words. destruct (decide (0 < scap s)%nat) as [Hc|Hc].
  - destruct (Hv Hc) as (a & Ha & La). destruct (A _ _ Ha) as (b & Hb & _ & Hn).
    by rewrite (list_lookup_total_correct _ _ _ Ha), (list_lookup_total_correct _ _ _ Hb), Hn by auto.
  - assert (slen s = 0%nat) as -> by lia. done.
Qed.

(** ** The operations

    Each keeps to what it owns, and the slice it answers is owned. *)
Definition Op (O : nat -> Prop) (h : store) (r : slice * store) : Prop := grows O h (snd r) /\ own O (fst r) (snd r).

Lemma zeros_good n : Forall word_ok (zeros n).
Proof. apply Forall_replicate. unfold word_ok. lia. Qed.

Lemma own_make O h ws : based O h -> own O (mkSlice (length h) (length ws) (length ws)) (h ++ [ws]).
Proof.
  intros Hb. split; [split; [done|]|intros _; apply Hb; done]. cbn. intros _. exists ws. by rewrite lookup_app_r, Nat.sub_diag by done.
Qed.

Lemma make_Op O h ws : based O h -> (good h -> Forall word_ok ws) -> Op O h (make ws h).
Proof. intros Hb Hw. split; [by apply grows_alloc|by apply own_make]. Qed.

Lemma make_words ws h : words (snd (make ws h)) (fst (make ws h)) = ws.
Proof. unfold words. cbn. rewrite list_lookup_total_alt, lookup_app_r, Nat.sub_diag by done. cbn. apply take_ge. done. Qed.

Section Ops.
Context `{Runtime}.

Lemma append_Op O h s ws : based O h -> own O s h -> (good h -> Forall word_ok ws) -> Op O h (append s ws h).
Proof.
  intros Hb [[Hl Hv] Ho] Hw. unfold append. destruct (Nat.leb_spec (slen s + length ws) (scap s)) as [Hc|Hc].
  - split.
    + destruct (decide (0 < scap s)%nat) as [Hp|Hp].
      * apply grows_alter; [by apply Ho|]. intros a Ha. destruct (Hv Hp) as (b & Eb & Lb). simplify_eq. split.
        -- rewrite !length_app, length_take, length_drop. lia.
        -- intros Hg Ha'. repeat apply Forall_app_2; auto using Forall_take, Forall_drop.
      * cbn. rewrite alter_none; [reflexivity|]. intros a _. destruct ws; [|cbn in Hc; lia]. assert (slen s = 0%nat) as -> by lia. done.
    + split; [split|]; cbn; [lia| |exact Ho]. intros Hp. destruct (Hv Hp) as (a & Ha & La). rewrite list_lookup_alter_eq, Ha. cbn. eexists. split; [done|].
      rewrite !length_app, length_take, length_drop. lia.
  - pose proof (newcap_enough (scap s) (slen s + length ws)) as Hn. split.
    + apply grows_alloc. intros Hg. repeat apply Forall_app_2; auto using words_good, zeros_good.
    + split; [split|]; cbn; [lia| |intros _; by apply Hb]. intros _. eexists. split; [by rewrite lookup_app_r, Nat.sub_diag by done|].
      rewrite !length_app, words_length by done. unfold zeros. rewrite length_replicate. lia.
Qed.

Lemma newBits_Op O h n : based O h -> Op O h (newBits n h).
Proof.
  intros Hb. unfold newBits. destruct (n =? 0); [split; [reflexivity|apply own_nil]|]. apply make_Op; auto using zeros_good.
Qed.

Lemma clone_Op O h b : based O h -> Op O h (clone b h).
Proof.
  intros Hb. unfold clone. destruct (slen b =? 0)%nat; [split; [reflexivity|apply own_nil]|]. apply make_Op; auto using words_good.
Qed.

Lemma append_zeros_Op O k b h : based O h -> own O b h -> Op O h (append_zeros k b h).
Proof.
  revert b h. induction k as [|k IH]; intros b h Hb Ho; cbn [append_zeros]; [split; [reflexivity|done]|].
  destruct (append_Op O h b [0] Hb Ho) as [Hg Ho']; [intros _; repeat constructor; unfold word_ok; lia|].
  destruct (append b [0] h) as [b' h'] eqn:E. cbn in Hg, Ho'.
  destruct (IH b' h') as [Hg' Ho'']; [by eapply based_grows|done|]. split; [by etransitivity|done].
Qed.

Lemma grow_Op O b n h : based O h -> own O b h -> Op O h (grow b n h).
Proof. apply append_zeros_Op. Qed.

Lemma write_grows O b k v h : own O b h -> (slen b <> 0)%nat -> (good h -> word_ok v) -> grows O h (write b k v h).
Proof.
  intros [[Hl Hv] Ho] Hn Hw. apply grows_alter; [apply Ho; lia|]. intros a Ha. split; [apply length_insert|].
  intros Hg Ha'. apply Forall_insert; auto.
Qed.

Lemma own_write O b b' k v h : own O b h -> own O b (write b' k v h).
Proof.
  intros [[Hl Hv] Ho]. split; [split|]; [done| |done]. intros Hp. destruct (Hv Hp) as (a & Ha & La). unfold write.
  destruct (decide (ptr b' = ptr b)) as [E|E].
  - rewrite E, list_lookup_alter_eq, Ha. cbn. eexists. split; [done|]. by rewrite length_insert.
  - rewrite list_lookup_alter_ne by done. eauto.
Qed.

Lemma append_slen s ws h : slen (fst (append s ws h)) = (slen s + length ws)%nat.
Proof. unfold append. destruct (_ <=? _)%nat; done. Qed.

Lemma append_zeros_slen k b h : slen (fst (append_zeros k b h)) = (slen b + k)%nat.
Proof.
  revert b h. induction k as [|k IH]; intros b h; cbn [append_zeros]; [cbn; lia|].
  pose proof (append_slen b [0] h) as E. destruct (append b [0] h) as [b' h']. cbn in E |- *. rewrite IH. lia.
Qed.

Lemma grow_slen b n h : slen (fst (grow b n h)) = Nat.max (slen b) (Z.to_nat ((n + 64) / 64)).
Proof. unfold grow. rewrite append_zeros_slen. lia. Qed.

Lemma word_total ws k : Forall word_ok ws -> word_ok (ws !!! k).
Proof.
  intros Hw. rewrite list_lookup_total_alt. destruct (ws !! k) as [v|] eqn:E; [by eapply Forall_lookup_1 in E|].
  vm_compute. split; discriminate || reflexivity.
Qed.

Lemma bit_ok i : word_ok (Z.shiftl 1 (i mod 64)).
Proof.
  pose proof (Z.mod_pos_bound i 64 ltac:(lia)). rewrite Z.shiftl_1_l. split; [apply Z.pow_nonneg; lia|]. apply Z.pow_lt_mono_r; lia.
Qed.

Lemma word_ok_bits v : 0 <= v -> word_ok v <-> forall i, 64 <= i -> Z.testbit v i = false.
Proof.
  intros Hv. unfold word_ok. split.
  - intros Hw i Hi. destruct (Z.eq_dec v 0) as [->|Hz]; [apply Z.bits_0|]. apply Z.bits_above_log2; [lia|]. apply Z.log2_lt_pow2; [lia|].
    eapply Z.lt_le_trans; [apply Hw|]. apply Z.pow_le_mono_r; lia.
  - intros Hb. split; [done|]. destruct (Z.eq_dec v 0) as [->|Hz]; [reflexivity|]. apply Z.log2_lt_pow2; [lia|].
    destruct (Z.lt_ge_cases (Z.log2 v) 64) as [|Hge]; [done|]. pose proof (Hb _ Hge) as E. rewrite Z.bit_log2 in E by lia. done.
Qed.

Lemma lor_ok a b : word_ok a -> word_ok b -> word_ok (Z.lor a b).
Proof.
  intros Ha Hb. pose proof Ha as [Na _]. pose proof Hb as [Nb _]. apply word_ok_bits; [by apply Z.lor_nonneg|]. intros i Hi.
  rewrite Z.lor_spec, (proj1 (word_ok_bits a Na) Ha), (proj1 (word_ok_bits b Nb) Hb); done.
Qed.

Lemma land_ok a b : word_ok a -> word_ok b -> word_ok (Z.land a b).
Proof.
  intros Ha [Nb _]. pose proof Ha as [Na _]. apply word_ok_bits; [apply Z.land_nonneg; auto|]. intros i Hi.
  by rewrite Z.land_spec, (proj1 (word_ok_bits a Na) Ha).
Qed.

Lemma ldiff_ok a b : word_ok a -> word_ok b -> word_ok (Z.ldiff a b).
Proof.
  intros Ha [Nb _]. pose proof Ha as [Na _]. apply word_ok_bits; [apply Z.ldiff_nonneg; auto|]. intros i Hi.
  by rewrite Z.ldiff_spec, (proj1 (word_ok_bits a Na) Ha).
Qed.

Lemma set_Op O b i h : based O h -> own O b h -> Op O h (set b i h).
Proof.
  intros Hb Ho. unfold set. destruct (Z.ltb_spec i 0); [split; [reflexivity|done]|].
  destruct (grow_Op O b i h Hb Ho) as [Hg Ho']. pose proof (grow_slen b i h) as Hs. destruct (grow b i h) as [b' h']. cbn in *.
  split; cbn; [|by apply own_write]. etransitivity; [exact Hg|]. apply write_grows; [done| |].
  - pose proof (Z.div_le_lower_bound (i + 64) 64 1). lia.
  - intros Hgood. apply lor_ok; [apply word_total, words_good, Hgood|apply bit_ok].
Qed.

Lemma clear_grows O b i h : own O b h -> grows O h (clear b i h).
Proof.
  intros Ho. unfold clear. destruct (outside b i) eqn:E; [reflexivity|]. unfold outside in E. apply orb_false_iff in E as [E1 E2].
  apply write_grows; [done|pose proof (Z.div_pos i 64); lia|]. intros Hg. apply ldiff_ok; [apply word_total, words_good, Hg|apply bit_ok].
Qed.

Lemma own_clear O b b' i h : own O b h -> own O b (clear b' i h).
Proof. intros Ho. unfold clear. destruct (outside b' i); [done|by apply own_write]. Qed.

Lemma zip_good l l' : Forall word_ok l -> Forall word_ok l' -> Forall word_ok (zip_with Z.land l l').
Proof. intros Hl. revert l'. induction Hl; intros l' Hl'; destruct Hl'; cbn; constructor; auto using land_ok. Qed.

Lemma and_Op O b o h : based O h -> Op O h (and b o h).
Proof. intros Hb. apply make_Op; auto using zip_good, words_good. Qed.

(** ** States *)
Definition own_state (O : nat -> Prop) (s : state) (h : store) : Prop := own O (da s) h /\ own O (du s) h.
Definition OpS (O : nat -> Prop) (h : store) (r : state * store) : Prop := grows O h (snd r) /\ own_state O (fst r) (snd r).

Lemma own_state_grows O O' s h h' : own_state O s h -> grows O' h h' -> own_state O s h'.
Proof. intros [Ha Hu] Hg. split; by eapply own_grows. Qed.

(** Two operations in a row, on the two halves of a state. *)
Lemma pair_Op O h (f g : store -> slice * store) :
  based O h -> Op O h (f h) -> (forall h', grows O h h' -> based O h' -> Op O h' (g h')) ->
  OpS O h (let '(a, h1) := f h in let '(u, h2) := g h1 in (mkState a u, h2)).
Proof.
  intros Hb [Hg Ho] Hf. destruct (f h) as [a h1]. cbn in *. destruct (Hf h1 Hg) as [Hg' Ho']; [by eapply based_grows|].
  destruct (g h1) as [u h2]. cbn in *. split; [by etransitivity|]. split; [by eapply own_grows|done].
Qed.

Lemma clone_state_OpS O s h : based O h -> OpS O h (clone_state s h).
Proof. intros Hb. apply (pair_Op O h (clone (da s)) (clone (du s))); auto using clone_Op. Qed.

Lemma join_OpS O a b h : based O h -> OpS O h (join a b h).
Proof. intros Hb. apply (pair_Op O h (and (da a) (da b)) (and (du a) (du b))); auto using and_Op. Qed.

Lemma grow_state_OpS O s i h : based O h -> own_state O s h -> OpS O h (grow_state s i h).
Proof. intros Hb [Ha Hu]. apply (pair_Op O h (grow (da s) i) (grow (du s) i)); eauto using grow_Op, own_grows. Qed.

Lemma assign_OpS O s i h : based O h -> own_state O s h -> OpS O h (assign s i h).
Proof.
  intros Hb [Ha Hu]. unfold assign. destruct (set_Op O (da s) i h Hb Ha) as [Hg Ho]. destruct (set (da s) i h) as [a h']. cbn in *.
  assert (Hu' : own O (du s) h') by by eapply own_grows.
  split; cbn; [etransitivity; [exact Hg|by apply clear_grows]|]. split; by apply own_clear.
Qed.

Lemma own_reslice O s h : own O s h -> own O (mkSlice (ptr s) 0 (scap s)) h.
Proof. intros [[Hl Hv] Ho]. split; [split|]; cbn; [lia|done..]. Qed.

Lemma copyInto_grows O dst src h : based O h -> own_state O dst h -> grows O h (copyInto dst src h).
Proof.
  intros Hb [Ha Hu]. unfold copyInto.
  destruct (append_Op O h (mkSlice (ptr (da dst)) 0 (scap (da dst))) (words h (da src)) Hb (own_reslice _ _ _ Ha)) as [Hg Ho]; [auto using words_good|].
  destruct (append _ _ h) as [x h']. cbn in Hg.
  destruct (append_Op O h' (mkSlice (ptr (du dst)) 0 (scap (du dst))) (words h' (du src))) as [Hg' _];
    [by eapply based_grows|eapply own_reslice, own_grows; eassumption|auto using words_good|]. by etransitivity.
Qed.

Lemma unconditional_Op O s h : based O h ->
  let r := unconditional s h in grows O h (snd r) /\ own_state O (whenTrue (fst r)) (snd r) /\ own_state O (whenFalse (fst r)) (snd r).
Proof.
  intros Hb. unfold unconditional. destruct (clone_state_OpS O s h Hb) as [Hg Ho]. destruct (clone_state s h) as [t h1]. cbn in *.
  destruct (clone_state_OpS O s h1) as [Hg' Ho']; [by eapply based_grows|]. destruct (clone_state s h1) as [f h2]. cbn in *.
  split; [by etransitivity|]. split; [by eapply own_state_grows|done].
Qed.
End Ops.

(** ** Merging narrows

    The bits set in a list of words, and what the merge at the head of a loop
    does to them. *)
Fixpoint pop (n : nat) (v : Z) : nat :=
  match n with O => 0 | S n => (if Z.testbit v (Z.of_nat n) then 1 else 0) + pop n v end.

Fixpoint pops (ws : list Z) : nat := match ws with [] => 0 | w :: ws => pop 64 w + pops ws end.

Lemma pop_le n v : (pop n v <= n)%nat.
Proof. induction n; cbn; [lia|]. destruct (Z.testbit v _); lia. Qed.

Lemma pops_le ws : (pops ws <= 64 * length ws)%nat.
Proof. induction ws as [|w ws IH]; cbn [pops length]; [lia|]. pose proof (pop_le 64 w). lia. Qed.

Lemma pop_zero n v : pop n v = 0%nat -> forall i, 0 <= i < Z.of_nat n -> Z.testbit v i = false.
Proof.
  induction n as [|n IH]; intros Hp i Hi; [lia|]. cbn [pop] in Hp. destruct (Z.testbit v (Z.of_nat n)) eqn:E; [lia|].
  destruct (Z.eq_dec i (Z.of_nat n)) as [->|]; [done|]. apply IH; lia.
Qed.

Lemma pop_land n a b : (pop n (Z.land a b) <= pop n a)%nat /\
  (pop n (Z.land a b) = pop n a -> forall i, 0 <= i < Z.of_nat n -> Z.testbit (Z.land a b) i = Z.testbit a i).
Proof.
  induction n as [|n [IH IHe]]; [split; [done|lia]|]. cbn [pop]. rewrite !(Z.land_spec a b (Z.of_nat n)).
  destruct (Z.testbit a (Z.of_nat n)) eqn:Ea, (Z.testbit b (Z.of_nat n)) eqn:Eb; cbn [andb]; (split; [lia|]); intros E i Hi;
    try lia; (destruct (Z.eq_dec i (Z.of_nat n)) as [->|]; [rewrite Z.land_spec, Ea, Eb; done|apply IHe; lia]).
Qed.

Lemma word_ext a b : word_ok a -> word_ok b -> (forall i, 0 <= i < 64 -> Z.testbit a i = Z.testbit b i) -> a = b.
Proof.
  intros Ha Hb E. apply Z.bits_inj'. intros i Hi. destruct (Z.lt_ge_cases i 64); [auto|].
  pose proof Ha as [Na _]. pose proof Hb as [Nb _]. by rewrite (proj1 (word_ok_bits a Na) Ha), (proj1 (word_ok_bits b Nb) Hb).
Qed.

Lemma pops_zero ws : Forall word_ok ws -> pops ws = 0%nat -> forall i, word ws i = 0.
Proof.
  intros Hw. induction Hw as [|w ws Hw _ IH]; intros Hp i; [by destruct i|]. cbn [pops] in Hp. destruct i as [|i]; cbn; [|apply IH; lia].
  apply word_ext; [done|split; lia|]. intros j Hj. rewrite Z.bits_0. apply (pop_zero 64); lia.
Qed.

Lemma pops_land l l' : (pops (zip_with Z.land l l') <= pops l)%nat.
Proof.
  revert l'. induction l as [|a l IH]; intros [|b l']; cbn [zip_with pops]; try lia. pose proof (proj1 (pop_land 64 a b)). specialize (IH l'). lia.
Qed.

(** The merge of words with others is the words themselves, or has fewer bits. *)
Lemma pops_narrow l l' : Forall word_ok l -> Forall word_ok l' ->
  (forall i, word (zip_with Z.land l l') i = word l i) \/ (pops (zip_with Z.land l l') < pops l)%nat.
Proof.
  intros Hl. revert l'. induction Hl as [|a l Ha Hl IH]; intros l' Hl'; [left; done|].
  destruct Hl' as [|b l' Hb Hl'].
  - destruct (Nat.eq_dec (pops (a :: l)) 0) as [E|E]; [left|right; cbn; cbn in E; lia]. intros i. cbn [zip_with].
    rewrite (pops_zero (a :: l)); [by destruct i|by constructor|done].
  - cbn [zip_with pops]. destruct (pop_land 64 a b) as [Hle He]. destruct (IH l' Hl') as [Heq|Hlt].
    + destruct (Nat.eq_dec (pop 64 (Z.land a b)) (pop 64 a)) as [E|E].
      * left. intros [|i]; cbn; [|apply Heq]. apply word_ext; [by apply land_ok|done|]. intros i Hi. apply He; done.
      * right. pose proof (pops_land l l'). lia.
    + right. lia.
Qed.

Lemma equal_words a b h : equal a b h = true <->
  forall i, (i < Nat.max (slen a) (slen b))%nat -> word (words h a) i = word (words h b) i.
Proof.
  unfold equal. rewrite forallb_forall. split; intros E i Hi.
  - apply Z.eqb_eq, E, in_seq. lia.
  - apply Z.eqb_eq, E. apply in_seq in Hi. lia.
Qed.

Lemma make_own_words ws h : let r := make ws h in words (snd r) (fst r) = ws /\ slen (fst r) = length ws.
Proof. split; [apply make_words|done]. Qed.

(** One round of a loop: the merged state is equal to the entry, or smaller. *)
Definition size (h : store) (s : state) : nat := (pops (words h (da s)) + pops (words h (du s)))%nat.

Lemma size_le h s : valid (da s) h -> valid (du s) h -> (size h s <= 64 * (slen (da s) + slen (du s)))%nat.
Proof.
  intros Ha Hu. unfold size. pose proof (pops_le (words h (da s))). pose proof (pops_le (words h (du s))).
  rewrite !words_length in * by done. lia.
Qed.

Lemma alloc_words s ws h : valid s h -> words (h ++ [ws]) s = words h s.
Proof.
  intros [Hl Hv]. unfold words. destruct (decide (0 < scap s)%nat) as [Hc|Hc].
  - destruct (Hv Hc) as (a & Ha & _). rewrite !list_lookup_total_alt, lookup_app_l by (by eapply lookup_lt_Some). done.
  - assert (slen s = 0%nat) as -> by lia. done.
Qed.

Lemma valid_alloc s ws h : valid s h -> valid s (h ++ [ws]).
Proof.
  intros [Hl Hv]. split; [done|]. intros Hc. destruct (Hv Hc) as (a & Ha & La). exists a.
  rewrite lookup_app_l by (by eapply lookup_lt_Some). done.
Qed.

Lemma and_facts b o h : valid b h -> valid o h ->
  let '(n, h') := and b o h in
  words h' n = zip_with Z.land (words h b) (words h o) /\ slen n = Nat.min (slen b) (slen o) /\ valid n h' /\
  (forall s, valid s h -> words h' s = words h s /\ valid s h').
Proof.
  intros Vb Vo. unfold and. pose proof (make_own_words (zip_with Z.land (words h b) (words h o)) h) as [Hw Hl].
  pose proof (own_make (since h) h (zip_with Z.land (words h b) (words h o)) (fun _ p => p)) as [Hv _].
  split; [exact Hw|]. split; [cbn; by rewrite length_zip_with, !words_length|]. split; [exact Hv|].
  intros s Hs. split; [by apply alloc_words|by apply valid_alloc].
Qed.

(** The words of a merge of two states, and those of any other slice after it. *)
Lemma join_words a b h : valid (da a) h -> valid (du a) h -> valid (da b) h -> valid (du b) h ->
  let '(n, h') := join a b h in
  words h' (da n) = zip_with Z.land (words h (da a)) (words h (da b)) /\
  words h' (du n) = zip_with Z.land (words h (du a)) (words h (du b)) /\
  slen (da n) = Nat.min (slen (da a)) (slen (da b)) /\ slen (du n) = Nat.min (slen (du a)) (slen (du b)) /\
  (forall s, valid s h -> words h' s = words h s).
Proof.
  intros Va Ua Vb Ub. unfold join. pose proof (and_facts (da a) (da b) h Va Vb) as Hx. destruct (and (da a) (da b) h) as [x h1].
  destruct Hx as (Wx & Lx & Vx & Kx). destruct (Kx _ Ua) as [Wa Va']. destruct (Kx _ Ub) as [Wb Vb'].
  pose proof (and_facts (du a) (du b) h1 Va' Vb') as Hy. destruct (and (du a) (du b) h1) as [y h2]. destruct Hy as (Wy & Ly & Vy & Ky).
  cbn [da du]. destruct (Ky x Vx) as [-> _]. rewrite Wx, Wy, Wa, Wb. repeat split; try done.
  intros s Hs. destruct (Kx s Hs) as [Es Vs]. by rewrite (proj1 (Ky s Vs)).
Qed.

Lemma equal_state_iff a b h : equal_state a b h = true <-> equal (da a) (da b) h = true /\ equal (du a) (du b) h = true.
Proof. apply andb_true_iff. Qed.

(** One round of a loop: the merge is equal to the entry, or has fewer bits. *)
Lemma join_narrows a b h : good h -> valid (da a) h -> valid (du a) h -> valid (da b) h -> valid (du b) h ->
  let '(n, h') := join a b h in equal_state n a h' = true \/ (size h' n < size h a)%nat.
Proof.
  intros Hg Va Ua Vb Ub. pose proof (join_words a b h Va Ua Vb Ub) as Hw. destruct (join a b h) as [n h'].
  destruct Hw as (Ha & Hu & _ & _ & Hs). unfold size. rewrite Ha, Hu, equal_state_iff, !equal_words, Ha, Hu, !Hs by done.
  pose proof (pops_land (words h (da a)) (words h (da b))). pose proof (pops_land (words h (du a)) (words h (du b))).
  destruct (pops_narrow (words h (da a)) (words h (da b))) as [Ea|La]; [by apply words_good..| |right; lia].
  destruct (pops_narrow (words h (du a)) (words h (du b))) as [Eu|Lu]; [by apply words_good..| |right; lia].
  left. auto.
Qed.

(** The number [i] is in words. *)
Definition holds (ws : list Z) (i : Z) : bool := Z.testbit (word ws (Z.to_nat (i / 64))) (i mod 64).

Lemma bit_of_bit k j : 0 <= k -> Z.testbit (Z.shiftl 1 k) j = (j =? k).
Proof.
  intros Hk. rewrite Z.shiftl_1_l. destruct (Z.eqb_spec j k) as [->|Hn]; [by apply Z.pow2_bits_true|]. apply Z.pow2_bits_false. done.
Qed.

Lemma land_bit v k : 0 <= k -> (Z.land v (Z.shiftl 1 k) =? 0) = negb (Z.testbit v k).
Proof.
  intros Hk. destruct (Z.testbit v k) eqn:E; cbn [negb].
  - apply Z.eqb_neq. intros E0. assert (Hb : Z.testbit (Z.land v (Z.shiftl 1 k)) k = false) by (rewrite E0; apply Z.bits_0).
    by rewrite Z.land_spec, bit_of_bit, E, Z.eqb_refl in Hb.
  - apply Z.eqb_eq, Z.bits_inj'. intros j Hj. rewrite Z.land_spec, bit_of_bit, Z.bits_0 by done.
    destruct (Z.eqb_spec j k) as [->|]; [by rewrite E|apply andb_false_r].
Qed.

Lemma word_beyond ws i : (length ws <= i)%nat -> word ws i = 0.
Proof. apply nth_overflow. Qed.

Lemma word_lookup ws i : (i < length ws)%nat -> ws !!! i = word ws i.
Proof. intros Hi. unfold word. rewrite list_lookup_total_alt. destruct (lookup_lt_is_Some_2 ws i Hi) as [v E]. rewrite E. symmetry. by apply nth_lookup_Some. Qed.

(** [has], by the words alone. *)
Lemma has_holds s i h : valid s h -> 0 <= i -> has s i h = holds (words h s) i.
Proof.
  intros Hv Hi. unfold has, outside, holds. pose proof (words_length h s Hv) as El. rewrite (proj2 (Z.ltb_ge i 0)) by done. cbn [orb].
  pose proof (Z.div_pos i 64 Hi ltac:(lia)). pose proof (Z.mod_pos_bound i 64 ltac:(lia)).
  destruct (Z.leb_spec (Z.of_nat (slen s)) (i / 64)).
  - rewrite word_beyond, Z.bits_0 by lia. done.
  - rewrite word_lookup, land_bit, negb_involutive by lia. done.
Qed.

(** ** The words after an operation *)

Definition everywhere (_ : nat) : Prop := True.

Lemma valid_own s h : valid s h -> own everywhere s h.
Proof. intros Hv. split; [done|intros _; exact I]. Qed.

Lemma based_everywhere h : based everywhere h.
Proof. intros p _. exact I. Qed.

Lemma words_nil h s : slen s = 0%nat -> words h s = [].
Proof. intros E. unfold words. by rewrite E. Qed.

(** The array behind a slice that has one. *)
Lemma words_array h s a : h !! ptr s = Some a -> words h s = take (slen s) a.
Proof. intros E. unfold words. by rewrite (list_lookup_total_correct _ _ _ E). Qed.

Section Words.
Context `{Runtime}.

Lemma clone_words s h : words (snd (clone s h)) (fst (clone s h)) = words h s.
Proof.
  unfold clone. destruct (Nat.eqb_spec (slen s) 0) as [E|E]; [|apply make_words]. cbn [fst snd]. by rewrite !words_nil.
Qed.

Lemma append_words s ws h : valid s h -> words (snd (append s ws h)) (fst (append s ws h)) = words h s ++ ws.
Proof.
  intros [Hl Hv]. unfold append. destruct (Nat.leb_spec (slen s + length ws) (scap s)) as [Hc|Hc]; cbn [fst snd].
  - destruct (decide (0 < scap s)%nat) as [Hp|Hp].
    + destruct (Hv Hp) as (a & Ha & La). rewrite (words_array h s a Ha), (words_array _ _ (take (slen s) a ++ ws ++ drop (slen s + length ws) a)).
      * cbn [slen]. rewrite app_assoc, take_app_le by (rewrite length_app, length_take; lia). apply take_ge. rewrite length_app, length_take. lia.
      * cbn [ptr]. by rewrite list_lookup_alter_eq, Ha.
    + destruct ws; [|cbn in Hc; lia]. rewrite !words_nil by (cbn; lia). done.
  - rewrite (words_array _ _ (words h s ++ ws ++ zeros (newcap (scap s) (slen s + length ws) - (slen s + length ws)))).
    + cbn [slen]. rewrite app_assoc, take_app_le by (rewrite length_app, words_length by done; lia). apply take_ge. rewrite length_app, words_length by done. lia.
    + cbn [ptr]. by rewrite lookup_app_r, Nat.sub_diag by done.
Qed.

Lemma append_zeros_words k s h : valid s h ->
  words (snd (append_zeros k s h)) (fst (append_zeros k s h)) = words h s ++ zeros k /\ valid (fst (append_zeros k s h)) (snd (append_zeros k s h)).
Proof.
  revert s h. induction k as [|k IH]; intros s h Hv; cbn [append_zeros]; [by rewrite app_nil_r|].
  pose proof (append_words s [0] h Hv) as Ew. destruct (append_Op everywhere h s [0] (based_everywhere h) (valid_own s h Hv)) as [_ [Hv' _]];
    [intros _; repeat constructor; unfold word_ok; lia|].
  destruct (append s [0] h) as [s' h']. cbn [fst snd] in *. destruct (IH s' h' Hv') as [E V]. split; [|done]. rewrite E, Ew, <- app_assoc. done.
Qed.

Lemma write_words s k v h : valid s h -> (k < slen s)%nat -> words (write s k v h) s = <[k := v]> (words h s).
Proof.
  intros [Hl Hv] Hk. destruct (Hv ltac:(lia)) as (a & Ha & La). rewrite (words_array h s a Ha), (words_array _ _ (<[k := v]> a)).
  - rewrite take_insert_lt by done. done.
  - unfold write. by rewrite list_lookup_alter_eq, Ha.
Qed.
End Words.

Lemma holds_zeros ws k i : 0 <= i -> holds (ws ++ zeros k) i = holds ws i.
Proof.
  intros Hi. unfold holds. f_equal. unfold word, zeros. destruct (Nat.lt_ge_cases (Z.to_nat (i / 64)) (length ws)) as [Hl|Hl].
  - by rewrite app_nth1.
  - rewrite app_nth2, (nth_overflow ws) by done. rewrite nth_lookup. destruct (replicate k 0 !! _) as [z|] eqn:E; [|done]. by apply lookup_replicate in E as [-> _].
Qed.

Lemma holds_nil i : holds [] i = false.
Proof. unfold holds. rewrite word_beyond, Z.bits_0 by (cbn; lia). done. Qed.

Lemma holds_insert ws k v i : 0 <= i -> (k < length ws)%nat ->
  holds (<[k := v]> ws) i = if decide (Z.to_nat (i / 64) = k) then Z.testbit v (i mod 64) else holds ws i.
Proof.
  intros Hi Hk. unfold holds, word. destruct (decide (Z.to_nat (i / 64) = k)) as [E|E].
  - f_equal. apply nth_lookup_Some. rewrite E. by apply list_lookup_insert_eq.
  - f_equal. rewrite !nth_lookup. by rewrite list_lookup_insert_ne by done.
Qed.

Lemma same_place i j : 0 <= i -> 0 <= j -> Z.to_nat (i / 64) = Z.to_nat (j / 64) -> (i mod 64 =? j mod 64) = (i =? j).
Proof.
  intros Hi Hj E. pose proof (Z.div_pos i 64 Hi ltac:(lia)). pose proof (Z.div_pos j 64 Hj ltac:(lia)).
  pose proof (Z.div_mod i 64 ltac:(lia)). pose proof (Z.div_mod j 64 ltac:(lia)). apply eq_true_iff_eq. rewrite !Z.eqb_eq. split; intros Em; [|congruence].
  assert (i / 64 = j / 64) by lia. lia.
Qed.

Lemma place_lt i n : 0 <= i -> i / 64 < Z.of_nat n -> (Z.to_nat (i / 64) < n)%nat.
Proof. intros Hi Hl. pose proof (Z.div_pos i 64 Hi ltac:(lia)). lia. Qed.

Lemma Op_valid O h r : Op O h r -> valid (fst r) (snd r).
Proof. intros [_ [Hv _]]. exact Hv. Qed.

Section Sets.
Context `{Runtime}.

Lemma set_holds s j h i : valid s h -> 0 <= j -> 0 <= i ->
  let r := set s j h in valid (fst r) (snd r) /\ holds (words (snd r) (fst r)) i = (i =? j) || holds (words h s) i.
Proof.
  intros Hv Hj Hi. cbv zeta. destruct (set_Op everywhere s j h (based_everywhere h) (valid_own s h Hv)) as [_ [Hv' _]]. split; [done|]. clear Hv'.
  unfold set. rewrite (proj2 (Z.ltb_ge j 0)) by done. pose proof (grow_slen s j h) as Hs. unfold grow in *.
  destruct (append_zeros_words (Z.to_nat ((j + 64) / 64) - slen s) s h Hv) as [Ew Hv1]. destruct (append_zeros _ s h) as [s1 h1]. cbn [fst snd] in *.
  assert (Hk : (Z.to_nat (j / 64) < slen s1)%nat).
  { apply place_lt; [done|]. replace ((j + 64) / 64) with (j / 64 + 1) in Hs; [lia|]. rewrite <- (Z.div_add j 1 64) by lia. f_equal. }
  pose proof (words_length h1 s1 Hv1) as El. rewrite write_words, holds_insert by (done || lia). rewrite <- (holds_zeros (words h s) (Z.to_nat ((j + 64) / 64) - slen s)) by done.
  rewrite <- Ew. destruct (decide _) as [E|E].
  - rewrite Z.lor_spec, bit_of_bit, word_lookup, <- E, same_place by (rewrite ?El; auto using Z.mod_pos_bound; try (apply Z.mod_pos_bound; lia); lia).
    unfold holds. apply orb_comm.
  - destruct (Z.eqb_spec i j) as [->|]; [done|]. done.
Qed.

Lemma clear_holds s j h i : valid s h -> 0 <= i -> holds (words (clear s j h) s) i = negb (i =? j) && holds (words h s) i.
Proof.
  intros Hv Hi. pose proof (words_length h s Hv) as El. unfold clear. destruct (outside s j) eqn:Eo.
  - destruct (Z.eqb_spec i j) as [->|]; [|done]. cbn [negb andb]. unfold outside in Eo. apply orb_true_iff in Eo as [Eo|Eo]; [lia|].
    unfold holds. rewrite word_beyond, Z.bits_0 by (pose proof (Z.div_pos j 64 Hi); lia). done.
  - unfold outside in Eo. apply orb_false_iff in Eo as [E1 E2]. assert (Hj : 0 <= j) by lia. assert (Hk : (Z.to_nat (j / 64) < slen s)%nat) by (apply place_lt; lia).
    rewrite write_words, holds_insert by (done || lia). destruct (decide _) as [E|E].
    + rewrite Z.ldiff_spec, bit_of_bit, word_lookup, <- E, same_place by (rewrite ?El; try (apply Z.mod_pos_bound; lia); lia). unfold holds. apply andb_comm.
    + destruct (Z.eqb_spec i j) as [->|]; done.
Qed.

Lemma word_good ws k : Forall word_ok ws -> word_ok (word ws k).
Proof.
  intros Hw. unfold word. destruct (nth_in_or_default k ws 0) as [Hi | ->]; [|split; lia]. rewrite Forall_forall in Hw. by apply Hw, list_elem_of_In.
Qed.

Lemma word_zip l l' k : word (zip_with Z.land l l') k = Z.land (word l k) (word l' k).
Proof.
  revert l' k. induction l as [|a l IH]; intros [|b l'] [|k]; cbn; try done; [by rewrite Z.land_0_r|rewrite Z.land_0_r; by destruct k|apply IH].
Qed.

Lemma word_or l l' k : (length l' <= length l)%nat -> word (or_words l l') k = Z.lor (word l k) (word l' k).
Proof.
  revert l' k. induction l as [|a l IH]; intros [|b l'] [|k] Hl; cbn in *; try done; try lia; [by rewrite Z.lor_0_r|rewrite Z.lor_0_r; by destruct k|apply IH; lia].
Qed.

Lemma or_words_length l l' : length (or_words l l') = length l.
Proof. revert l'. induction l as [|a l IH]; intros [|b l']; cbn; auto. Qed.

(** The union, of the longer slice and the shorter. *)
Lemma or_into_holds long short h i : valid long h -> valid short h -> (slen short <= slen long)%nat ->
  let '(out, h1) := clone long h in
  let h2 := alter (fun a => or_words a (words h1 short)) (ptr out) h1 in
  valid out h2 /\ holds (words h2 out) i = holds (words h long) i || holds (words h short) i.
Proof.
  intros Hl Hsh Hle. unfold clone. destruct (Nat.eqb_spec (slen long) 0) as [E|E]; cbn [fst snd].
  - split; [split; cbn; lia|]. rewrite !words_nil by (cbn; lia). by rewrite orb_diag.
  - unfold make. cbn [ptr]. rewrite alloc_words by done.
    assert (Ea : alter (fun a => or_words a (words h short)) (length h) (h ++ [words h long]) !! length h = Some (or_words (words h long) (words h short))).
    { rewrite list_lookup_alter_eq, lookup_app_r, Nat.sub_diag by done. done. }
    split; [split; [done|]; intros _; eexists; split; [exact Ea|]; cbn; apply or_words_length|].
    rewrite (words_array _ (mkSlice (length h) (length (words h long)) (length (words h long))) _ Ea). cbn [slen]. rewrite take_ge by (rewrite or_words_length; done). unfold holds.
    rewrite word_or by (rewrite !words_length by done; lia). apply Z.lor_spec.
Qed.

Lemma or_holds s o h i : valid s h -> valid o h ->
  let r := or s o h in valid (fst r) (snd r) /\ holds (words (snd r) (fst r)) i = holds (words h s) i || holds (words h o) i.
Proof.
  intros Hs Ho. cbv zeta. unfold or. destruct (Nat.ltb_spec (slen s) (slen o)).
  - pose proof (or_into_holds o s h i Ho Hs ltac:(lia)) as Hx. destruct (clone o h). rewrite orb_comm. exact Hx.
  - pose proof (or_into_holds s o h i Hs Ho ltac:(lia)) as Hx. destruct (clone s h). exact Hx.
Qed.

(** Equal words are the same set. *)
Lemma equal_holds s o h : good h -> valid s h -> valid o h ->
  equal s o h = true <-> forall i, 0 <= i -> holds (words h s) i = holds (words h o) i.
Proof.
  intros Hg Hs Ho. rewrite equal_words. pose proof (words_length h s Hs) as Es. pose proof (words_length h o Ho) as Eo. split; intros E.
  - intros i Hi. unfold holds. destruct (Nat.lt_ge_cases (Z.to_nat (i / 64)) (Nat.max (slen s) (slen o))); [by rewrite E|].
    by rewrite !word_beyond by lia.
  - intros k _. apply word_ext; [apply word_good, words_good, Hg..|]. intros j Hj.
    specialize (E (Z.of_nat k * 64 + j) ltac:(lia)). unfold holds in E.
    rewrite (Z.div_add_l _ 64 j), Z.div_small, Z.add_0_r, Nat2Z.id, Z.add_comm, Z_mod_plus_full, Z.mod_small in E by lia. exact E.
Qed.

(** C27: a [bits] is a set of numbers: on any store and any slices, of whatever
    lengths and capacities, [newBits] is empty, [clone] is a copy, [set] adds a
    number and [clear] takes one away, [and] and [or] are intersection and
    union, and [equal] holds of the same sets only. *)
Theorem bits_are_sets h s o : good h -> valid s h -> valid o h ->
  (forall n i, 0 <= i -> let r := newBits n h in has (fst r) i (snd r) = false) /\
  (forall i, 0 <= i -> let r := clone s h in has (fst r) i (snd r) = has s i h) /\
  (forall j i, 0 <= j -> 0 <= i -> let r := set s j h in has (fst r) i (snd r) = (i =? j) || has s i h) /\
  (forall j i, 0 <= i -> has s i (clear s j h) = negb (i =? j) && has s i h) /\
  (forall i, 0 <= i -> let r := and s o h in has (fst r) i (snd r) = has s i h && has o i h) /\
  (forall i, 0 <= i -> let r := or s o h in has (fst r) i (snd r) = has s i h || has o i h) /\
  (equal s o h = true <-> forall i, 0 <= i -> has s i h = has o i h).
Proof.
  intros Hg Hs Ho. split; [|split; [|split; [|split; [|split; [|split]]]]].
  - intros n i Hi. cbv zeta. rewrite has_holds by (done || exact (Op_valid _ _ _ (newBits_Op everywhere h n (based_everywhere h)))).
    unfold newBits. destruct (n =? 0); cbn [fst snd]; [by rewrite words_nil, holds_nil|]. rewrite make_words.
    etransitivity; [exact (holds_zeros [] _ i Hi)|apply holds_nil].
  - intros i Hi. cbv zeta. rewrite !has_holds by (done || exact (Op_valid _ _ _ (clone_Op everywhere h s (based_everywhere h)))). by rewrite clone_words.
  - intros j i Hj Hi. cbv zeta. destruct (set_holds s j h i Hs Hj Hi) as [Hv E]. rewrite !has_holds by done. exact E.
  - intros j i Hi. rewrite !has_holds by (done || exact (proj1 (own_clear everywhere s s j h (valid_own s h Hs)))). by apply clear_holds.
  - intros i Hi. cbv zeta. rewrite !has_holds by (done || exact (Op_valid _ _ _ (and_Op everywhere s o h (based_everywhere h)))).
    pose proof (and_facts s o h Hs Ho) as Hf. destruct (and s o h) as [n h']. cbn [fst snd]. destruct Hf as [-> _]. unfold holds. rewrite word_zip. apply Z.land_spec.
  - intros i Hi. cbv zeta. destruct (or_holds s o h i Hs Ho) as [Hv E]. by rewrite !has_holds, E by done.
  - rewrite equal_holds by done. split; intros E i Hi; specialize (E i Hi); rewrite !has_holds in * by done; exact E.
Qed.

Lemma grow_within s i h : 0 <= i -> i / 64 < Z.of_nat (slen s) -> grow s i h = (s, h).
Proof.
  intros Hi Hl. unfold grow. replace ((i + 64) / 64) with (i / 64 + 1) by (rewrite <- (Z.div_add i 1 64) by lia; f_equal).
  replace (Z.to_nat (i / 64 + 1) - slen s)%nat with 0%nat by lia. done.
Qed.

Lemma clear_other s o j h : valid s h -> ((0 < scap s)%nat -> ptr o <> ptr s) -> words (clear o j h) s = words h s.
Proof.
  intros Hv Hn. unfold clear. destruct (outside o j); [done|]. destruct (decide (0 < scap s)%nat) as [Hc|Hc].
  - destruct Hv as [Hl Hv]. destruct (Hv Hc) as (a & Ha & _). rewrite !(words_array _ _ a); [done|done|].
    unfold write. by rewrite list_lookup_alter_ne by auto.
  - destruct Hv as [Hl _]. by rewrite !words_nil by lia.
Qed.

(** An assignment recorded on a state passed by value is seen by the caller
    exactly when the number of the local is within the words the caller's state
    already has: past them the write goes to a slice of the callee's own. *)
Theorem assign_visible st i h :
  valid (da st) h -> ((0 < scap (da st))%nat -> ptr (du st) <> ptr (da st)) -> 0 <= i ->
  has (da st) i (snd (assign st i h)) = true <-> i / 64 < Z.of_nat (slen (da st)).
Proof.
  intros Hv Hn Hi. split.
  - intros Hh. unfold has, outside in Hh. destruct (Z.leb_spec (Z.of_nat (slen (da st))) (i / 64)); [|done]. by rewrite orb_true_r in Hh.
  - intros Hl. unfold assign, set. rewrite (proj2 (Z.ltb_ge i 0)), grow_within by done. cbn [snd].
    assert (Hk : (Z.to_nat (i / 64) < slen (da st))%nat) by by apply place_lt.
    set (h1 := write _ _ _ _). assert (Hv1 : valid (da st) h1) by exact (proj1 (own_write everywhere _ _ _ _ _ (valid_own _ _ Hv))).
    assert (Hv2 : valid (da st) (clear (du st) i h1)) by exact (proj1 (own_clear everywhere _ _ _ _ (valid_own _ _ Hv1))).
    rewrite has_holds, clear_other by done. unfold h1. rewrite write_words, holds_insert by (rewrite ?words_length; done).
    rewrite decide_True by done. rewrite Z.lor_spec, bit_of_bit, Z.eqb_refl by (apply Z.mod_pos_bound; lia). apply orb_true_r.
Qed.
End Sets.
