(* ===== verification/FlowState.v ===== *)
(** * Flow analysis: contexts and what is recorded ([analyzer/flow/flow.go])

    What attribution found for a node, and the symbol layer, are the class
    [Attribution].  So are [nestedOf], [methodFor], [constructorFor] and
    [sprintf], which the package calls and does not define. *)
From S2P Require Import Prelude.
From S2P Require Import Token SourceFile Ast AstWalk Types Fold Bits.

(** ** The interface to attribution and symbols *)

Inductive VarKind := VarField | VarLocal | VarParam | VarRecordComponent | VarEnumConstant | VarExceptionParam | VarResource | VarBinding.
#[export] Instance VarKind_eq : EqDecision VarKind.
Proof. solve_decision. Defined.

(** A [*sym.VarSym], and a [*sym.MethodSym]. *)
Definition var := Z.
Definition meth := Z.

(** An operand of a message. *)
Inductive arg := AStr (s : bytes) | AType (t : ty).

Class Attribution := {
  (** [info.Use(n)] as a variable and as a method, [info.Type], [info.Const],
      [info.Local]. *)
  UseVar : Any -> option var;
  UseMethod : Any -> option meth;
  TypeAt : Any -> ty;
  ConstAt : Expr -> option Constant;
  LocalClass : Decl -> option cls;
  (** Symbols. *)
  VarName : var -> bytes;
  VarKindOf : var -> VarKind;
  VarFinal : var -> bool;
  ParamsOf : meth -> list var;
  MethodTypeOf : meth -> option MethodType;
  FromSource : cls -> bool;
  DeclOf : cls -> option Decl;
  ClassNamed : bytes -> option cls;
  MethodsNamed : cls -> bytes -> list meth;
  ClassBinary : cls -> bytes;
  isSubtype : ty -> ty -> bool;
  (** Called and not defined. *)
  nestedOf : cls -> Decl -> option cls;
  methodFor : cls -> Decl -> option meth;
  constructorFor : cls -> Decl -> option meth;
  sprintf : bytes -> list arg -> bytes }.

(** ** State *)

Record ctx := mkCtx {
  method_ : option meth;
  class_ : cls;
  vars : gmap var Z;
  order : list var;
  blanks : gset Z;
  caught : list (list ty);
  declared : list ty;
  thrown : list ty;
  writes : gmap var Z }.

(** The context at work is the first of [cxs], and its [outer] chain follows.
    [Captured] and [Unreachable] are maps in the code. *)
Record flow := mkFlow {
  store_ : store;
  cxs : list ctx;
  reported : gset Z;
  Diags : list Diagnostic;
  Captured : gmap meth (list var);
  EffectivelyFinal : gset var;
  Unreachable : list Stmt }.

Definition no_ctx : ctx := mkCtx None 0 ∅ [] ∅ [] [] [] ∅.
Definition newFlow : flow := mkFlow [] [] ∅ [] ∅ ∅ [].

(** [None] is a recursion longer than its bound. *)
Definition Flow (A : Type) : Type := flow -> option (A * flow).

#[export] Instance Flow_ret : MRet Flow := fun _ a f => Some (a, f).
#[export] Instance Flow_bind : MBind Flow := fun _ _ k m f => match m f with Some (a, f) => k a f | None => None end.

Definition get {A} (g : flow -> A) : Flow A := fun f => Some (g f, f).
Definition put (g : flow -> flow) : Flow unit := fun f => Some (tt, g f).

Definition set_store (h : store) (f : flow) : flow :=
  mkFlow h (cxs f) (reported f) (Diags f) (Captured f) (EffectivelyFinal f) (Unreachable f).
Definition set_cxs (l : list ctx) (f : flow) : flow :=
  mkFlow (store_ f) l (reported f) (Diags f) (Captured f) (EffectivelyFinal f) (Unreachable f).

(** An operation on the arrays. *)
Definition on_store {A} (g : store -> A * store) : Flow A := fun f => let '(a, h) := g (store_ f) in Some (a, set_store h f).
Definition on_store_ (g : store -> store) : Flow unit := put (fun f => set_store (g (store_ f)) f).
Definition of_store {A} (g : store -> A) : Flow A := get (fun f => g (store_ f)).

Definition here (f : flow) : ctx := match cxs f with c :: _ => c | [] => no_ctx end.
Definition cx : Flow ctx := get here.
Definition change (g : ctx -> ctx) : Flow unit := put (fun f => match cxs f with c :: l => set_cxs (g c :: l) f | [] => f end).

Fixpoint each {A} (g : A -> Flow unit) (l : list A) : Flow unit :=
  match l with [] => mret tt | a :: l => _ ← g a; each g l end.

(** The value of a state across a list, and whether to go on. *)
Fixpoint along {A S} (g : S -> A -> Flow S) (s : S) (l : list A) : Flow S :=
  match l with [] => mret s | a :: l => s ← g s a; along g s l end.

Definition maybe {A} (g : A -> Flow unit) (o : option A) : Flow unit := match o with Some a => g a | None => mret tt end.

(** ** Fields of a context *)

Definition set_caught (l : list (list ty)) (c : ctx) : ctx :=
  mkCtx (method_ c) (class_ c) (vars c) (order c) (blanks c) l (declared c) (thrown c) (writes c).
Definition set_thrown (l : list ty) (c : ctx) : ctx :=
  mkCtx (method_ c) (class_ c) (vars c) (order c) (blanks c) (caught c) (declared c) l (writes c).
Definition set_declared (l : list ty) (c : ctx) : ctx :=
  mkCtx (method_ c) (class_ c) (vars c) (order c) (blanks c) (caught c) l (thrown c) (writes c).

(** [writes[v]++]. *)
Definition wrote (v : var) (c : ctx) : ctx :=
  mkCtx (method_ c) (class_ c) (vars c) (order c) (blanks c) (caught c) (declared c) (thrown c) (<[v := default 0 (writes c !! v) + 1]> (writes c)).

Definition indexOf (c : ctx) (v : var) : Z := default (-1) (vars c !! v).

Definition declare_in (c : ctx) (v : var) (blank : bool) : Z * ctx :=
  match vars c !! v with
  | Some i => (i, c)
  | None =>
      let i := Z.of_nat (length (order c)) in
      (i, mkCtx (method_ c) (class_ c) (<[v := i]> (vars c)) (order c ++ [v]) (if blank then {[i]} ∪ blanks c else blanks c)
            (caught c) (declared c) (thrown c) (writes c))
  end.

Definition declare (v : var) (blank : bool) : Flow Z :=
  c ← cx; _ ← change (fun c => snd (declare_in c v blank)); mret (fst (declare_in c v blank)).

(** Every blank final starts definitely unassigned and every other variable
    definitely assigned. *)
Definition newState `{Runtime} : Flow state :=
  c ← cx;
  let n := Z.of_nat (length (order c)) in
  a ← on_store (newBits n);
  u ← on_store (newBits n);
  along (fun st i =>
    if bool_decide (i ∈ blanks c) then u ← on_store (set (du st) i); mret (mkState (da st) u)
    else a ← on_store (set (da st) i); mret (mkState a (du st)))
    (mkState a u) (seqZ 0 n).

(** ** Diagnostics *)
Section Report.
Context `{Attribution}.

Definition errorf (lo hi : Z) (format : bytes) (args : list arg) : Flow unit := put (fun f =>
  if bool_decide (lo ∈ reported f) then f
  else mkFlow (store_ f) (cxs f) ({[lo]} ∪ reported f)
         (Diags f ++ [mkDiagnostic lo (if hi <=? lo then u32 (lo + 1) else hi) SevError (sprintf format args)])
         (Captured f) (EffectivelyFinal f) (Unreachable f)).

Definition error_at (sp : Span) (format : bytes) (args : list arg) : Flow unit := errorf (Lo sp) (Hi sp) format args.

Definition unreachable (s : Stmt) : Flow unit :=
  _ ← error_at (stmt_span s) (bs "unreachable statement") [];
  put (fun f => mkFlow (store_ f) (cxs f) (reported f) (Diags f) (Captured f) (EffectivelyFinal f) (s :: Unreachable f)).

(** ** Contexts *)

Definition newCtx (c : cls) (m : option meth) : ctx :=
  mkCtx m c ∅ [] ∅ [] (match m ≫= MethodTypeOf with Some mt => Throws mt | None => [] end) [] ∅.

(** A body analysed in a context of its own.  With [outer] it hangs from the
    one at work, which it may write to; otherwise from none. *)
Definition in_ctx {A} (outer : bool) (c : ctx) (body : Flow A) : Flow A :=
  saved ← get cxs;
  _ ← put (set_cxs (c :: (if outer then saved else [])));
  a ← body;
  after ← get cxs;
  _ ← put (set_cxs (if outer then tail after else saved));
  mret a.

Definition declareParams (m : option meth) : Flow unit :=
  match m with Some m => each (fun p => _ ← declare p false; mret tt) (ParamsOf m) | None => mret tt end.

Definition finish : Flow unit :=
  c ← cx;
  each (fun v =>
    if default 0 (writes c !! v) <=? 1 then
      put (fun f => mkFlow (store_ f) (cxs f) (reported f) (Diags f) (Captured f) ({[v]} ∪ EffectivelyFinal f) (Unreachable f))
    else mret tt) (order c).

Definition returnsValue (m : option meth) : bool :=
  match m ≫= MethodTypeOf with Some mt => negb (bool_decide (kind_of (Result mt) = KindVoid)) | None => false end.
End Report.
