(* ===== verification/Flow.v ===== *)
(** * Flow analysis: expressions, statements, bodies ([analyzer/flow/])

    Definite assignment, reachability, checked exceptions and capture, in one
    walk.  A state goes down by value, as in the code: what a statement does to
    it is seen by the caller only through the words behind its slices.  The
    methods that call one another through a node below, or through the walk of
    a condition, go through [Walks]; [walks] ties the knot. *)
From S2P Require Import Prelude.
From S2P Require Import Token SourceFile Ast AstWalk Types Fold Bits FlowState.

Class Walks := {
  rExpr : Expr -> state -> Flow unit;
  rCondition : Expr -> state -> Flow cond;
  rStmt : Stmt -> state -> Flow bool;
  rBlock : Block -> state -> Flow bool;
  rMembers : bool -> cls -> list Decl -> Flow unit;
  rClass : cls -> Flow unit }.

(** The node of an expression, as a key of the maps of attribution. *)
Definition key (x : Expr) : Any := node_of (tree_Expr x).

(** ** Loops and breaks ([hasBreak]) *)

(** The walk below a node; [nest] counts the loops and switches on the way. *)
Fixpoint breaks (nest : nat) (t : tree) : bool :=
  match t with
  | Tree n l =>
      match n with
      | AStmt (BreakStmt _ _ Label) => (nest =? 0)%nat || match Label with Some _ => true | None => false end
      | AExpr (LambdaExpr _ _ _ _ _ _ _) | ADecl (ClassDecl _ _ _ _ _ _ _ _ _ _ _) | ADecl (InterfaceDecl _ _ _ _ _ _ _ _ _ _)
      | ADecl (EnumDecl _ _ _ _ _ _ _ _ _ _ _) | ADecl (RecordDecl _ _ _ _ _ _ _ _ _ _ _ _) => false
      | AStmt (WhileStmt _ _ _ _) | AStmt (DoStmt _ _ _ _ _) | AStmt (ForStmt _ _ _ _ _ _) | AStmt (RangeStmt _ _ _ _ _ _)
      | AStmt (SwitchStmt _ _ _ _) => existsb (breaks (S nest)) l
      | _ => existsb (breaks nest) l
      end
  end.

Definition hasBreak (s : Stmt) : bool := breaks 0 (tree_Stmt s).

Section Constants.
Context `{Attribution}.

Definition const_bool (x : Expr) : option bool := k ← recorded (ConstAt x); match cValue k with Some (VBool b) => Some b | _ => None end.
Definition isConstTrue (x : Expr) : bool := match const_bool x with Some b => b | None => false end.
Definition isConstFalse (x : Expr) : bool := match const_bool x with Some b => negb b | None => false end.

Definition tracked (k : VarKind) : bool :=
  match k with VarLocal | VarParam | VarBinding | VarResource | VarExceptionParam | VarField => true | _ => false end.

Fixpoint varOf (x : Expr) : option var :=
  match x with
  | ParenExpr _ _ X _ => varOf X
  | EIdent _ | EName _ | SelectorExpr _ _ _ _ => v ← UseVar (key x); if tracked (VarKindOf v) then Some v else None
  | _ => None
  end.

(** ** Captures ([analyzer/flow/capture.go]) *)

Definition capture_message : bytes :=
  bs "local variables referenced from a lambda expression or inner class must be final or effectively final: %s".

Definition mayCapture (v : var) (owner : ctx) : bool := VarFinal v || (default 0 (writes owner !! v) <=? 1).

Definition appendUnique (l : list var) (v : var) : list var := if bool_decide (v ∈ l) then l else l ++ [v].

(** The context of the chain that declares a variable, by its distance. *)
Definition owner_of (v : var) (chain : list ctx) : option (nat * ctx) := list_find (fun c => 0 <= indexOf c v) chain.

Definition noteCapture (v : var) (x : Expr) : Flow unit :=
  chain ← get (fun f => tail (cxs f));
  match owner_of v chain with
  | None => mret tt
  | Some (_, owner) =>
      if bool_decide (VarKindOf v = VarField) then mret tt
      else if negb (mayCapture v owner) then error_at (expr_span x) capture_message [AStr (VarName v)]
      else
        c ← cx;
        match method_ c with
        | Some m => put (fun f =>
            mkFlow (store_ f) (cxs f) (reported f) (Diags f) (<[m := appendUnique (default [] (Captured f !! m)) v]> (Captured f))
              (EffectivelyFinal f) (Unreachable f))
        | None => mret tt
        end
  end.

Definition noteWrite (v : var) (x : Expr) : Flow unit :=
  chain ← get (fun f => tail (cxs f));
  match owner_of v chain with
  | None => mret tt
  | Some (i, _) =>
      _ ← put (fun f => set_cxs (alter (wrote v) (S i) (cxs f)) f);
      error_at (expr_span x) capture_message [AStr (VarName v)]
  end.

(** ** Checked exceptions ([analyzer/flow/throws.go]) *)

Definition class_type (c : cls) : ty := TClass (Some c) [] None.

Definition ThrowableName : bytes := bs "java/lang/Throwable".

Definition under (t : ty) (name : bytes) : bool :=
  match ClassNamed name with Some c => isSubtype t (class_type c) | None => false end.

Definition isChecked (t : ty) : bool :=
  negb (IsError (Some t)) && under t ThrowableName && negb (under t (bs "java/lang/RuntimeException")) && negb (under t (bs "java/lang/Error")).

Definition isBroadCatch (t : ty) : bool :=
  match t with
  | TClass (Some s) _ _ => bool_decide (ClassBinary s = ThrowableName) || bool_decide (ClassBinary s = bs "java/lang/Exception")
  | _ => false
  end.

Definition coveredBy (t : ty) (layer : list ty) : bool := existsb (isSubtype t) layer.

Definition handled (c : ctx) (t : ty) : bool := existsb (coveredBy t) (caught c) || coveredBy t (declared c).

Definition raise (t : ty) (sp : Span) : Flow unit :=
  if negb (isChecked t) then mret tt
  else
    _ ← change (fun c => set_thrown (thrown c ++ [t]) c);
    c ← cx;
    if handled c t then mret tt
    else error_at sp (bs "unreported exception %s; must be caught or declared to be thrown") [AType t].

Definition throwType (x : Expr) (sp : Span) : Flow unit :=
  let t := TypeAt (key x) in if IsError (Some t) then mret tt else raise t sp.

Definition callThrows (n : Any) (sp : Span) : Flow unit :=
  match UseMethod n ≫= MethodTypeOf with Some mt => each (fun t => raise t sp) (Throws mt) | None => mret tt end.

Definition resource_type (r : Resource) : option ty :=
  match r with
  | mkResource _ _ (Some x) => Some (TypeAt (key x))
  | mkResource _ (Some (mkVarDecl _ _ _ (d :: _) _)) None => Some (TypeAt (AVarDeclarator d))
  | _ => None
  end.

Definition closeThrows (r : Resource) : Flow unit :=
  match resource_type r with
  | Some (TClass (Some s) _ _) =>
      each (fun m =>
        match MethodTypeOf m with
        | Some mt =>
            if negb (bool_decide (Types.Params mt = [])) then mret tt
            else each (fun x => c ← cx; if isChecked x && negb (handled c x) then change (fun c => set_thrown (thrown c ++ [x]) c) else mret tt) (Throws mt)
        | None => mret tt
        end) (MethodsNamed s (bs "close"))
  | _ => mret tt
  end.

Definition checkReachableCatch (types : list Typ) (bodyThrew : list ty) : Flow unit :=
  each (fun xt =>
    let t := TypeAt (node_of (tree_Typ xt)) in
    if IsError (Some t) || negb (isChecked t) || isBroadCatch t then mret tt
    else if existsb (fun thrown => isSubtype thrown t || isSubtype t thrown) bodyThrew then mret tt
    else error_at (typ_span xt) (bs "exception %s is never thrown in the body of the corresponding try statement") [AType t]) types.
End Constants.

Section Flow.
Context `{Attribution, Runtime, Walks}.

(** ** Definite assignment ([analyzer/flow/assign.go]) *)

Definition read (x : Expr) (st : state) : Flow unit :=
  match varOf x with
  | None => mret tt
  | Some v =>
      c ← cx;
      let i := indexOf c v in
      if i <? 0 then noteCapture v x
      else
        b ← of_store (has (da st) i);
        if b : bool then mret tt
        else
          _ ← error_at (expr_span x) (bs "variable %s might not have been initialized") [AStr (VarName v)];
          _ ← on_store (assign st i); mret tt
  end.

Definition write (x : Expr) (st : state) : Flow unit :=
  match varOf x with
  | None => mret tt
  | Some v =>
      _ ← change (wrote v);
      c ← cx;
      let i := indexOf c v in
      if i <? 0 then noteWrite v x
      else
        b ← of_store (has (du st) i);
        _ ← (if bool_decide (i ∈ blanks c) && negb b then error_at (expr_span x) (bs "variable %s might already have been assigned") [AStr (VarName v)]
             else mret tt);
        _ ← on_store (assign st i); mret tt
  end.

(** A parenthesised target starts over: the right side is walked again. *)
Fixpoint assignExpr (LHS : Expr) (Op : Z) (RHS : Expr) (st : state) : Flow unit :=
  _ ← (if Op =? ASSIGN then mret tt else read LHS st);
  _ ← rExpr RHS st;
  match LHS with
  | EIdent _ | EName _ => write LHS st
  | IndexExpr _ X _ Index _ => _ ← rExpr X st; rExpr Index st
  | SelectorExpr _ X _ _ => rExpr X st
  | ParenExpr _ _ X _ => assignExpr X Op RHS st
  | _ => mret tt
  end.

Fixpoint patternBindings (p : Pattern) (st : state) : Flow unit :=
  match p with
  | TypePattern _ _ _ _ =>
      match UseVar (APattern p) with
      | Some v => i ← declare v false; st ← on_store (grow_state st i); _ ← on_store (assign st i); mret tt
      | None => mret tt
      end
  | RecordPattern _ _ _ Elts _ => each (fun elt => patternBindings elt st) Elts
  | _ => mret tt
  end.

(** Every [ArrayInit] is an expression, so the first case takes it. *)
Definition initializer (init : Node) (st : state) : Flow unit := match init with NExpr x => rExpr x st | _ => mret tt end.

Definition fullyAssigned (st : state) : Flow state :=
  s ← on_store (clone_state st);
  c ← cx;
  along (fun s i => a ← on_store (set (da s) i); u ← on_store (set (du s) i); mret (mkState a u)) s (seqZ 0 (Z.of_nat (length (order c)))).

(** The states at the ends of the arms of a switch, into [st]. *)
Definition merge_ends (st : state) (ends : list state) : Flow unit :=
  match ends with
  | [] => mret tt
  | e :: ends => m ← along (fun m e => on_store (join m e)) e ends; on_store_ (copyInto st m)
  end.

Definition switchLabel (l : SwitchLabel) (st : state) : Flow unit :=
  match l with
  | mkSwitchLabel _ _ Cases _ _ _ Guard =>
      _ ← each (fun c => match c with NExpr x => rExpr x st | _ => mret tt end) Cases;
      maybe (fun x => rExpr x st) Guard
  end.

(** The body of an arrow rule: whether it completes. *)
Definition rule_body (body : Node) (s : state) : Flow bool :=
  match body with
  | NBlock b | NStmt (SBlock b) => rBlock b s
  | NExpr x => _ ← rExpr x s; mret true
  | NStmt (ThrowStmt _ _ _ as t) => _ ← rStmt t s; mret false
  | _ => mret false
  end.

Definition switch_rule (st : state) (ends : list state) (r : SwitchRule) : Flow (list state) :=
  match r with
  | mkSwitchRule _ Label _ Body =>
      s ← on_store (clone_state st);
      _ ← switchLabel Label s;
      ok ← rule_body Body s;
      mret (if ok : bool then ends ++ [s] else ends)
  end.

(** The statements of a group of a switch expression, up to one that does not
    complete. *)
Fixpoint arm_stmts (l : list Stmt) (s : state) : Flow bool :=
  match l with [] => mret true | g :: l => a ← rStmt g s; if a : bool then arm_stmts l s else mret false end.

Definition switchExpr (Tag : Expr) (block : SwitchBlock) (st : state) : Flow unit :=
  match block with
  | mkSwitchBlock _ _ Rules Groups _ _ =>
      _ ← rExpr Tag st;
      ends ← along (switch_rule st) [] Rules;
      ends ← along (fun ends g => match g with mkSwitchGroup _ Labels Stmts =>
          s ← on_store (clone_state st);
          _ ← each (fun l => switchLabel l s) Labels;
          a ← arm_stmts Stmts s;
          mret (if a : bool then ends ++ [s] else ends) end) ends Groups;
      merge_ends st ends
  end.

Definition lambda (Params : list Param) (Body : Node) (st : state) : Flow unit :=
  c ← cx;
  in_ctx true (set_declared [] (newCtx (class_ c) (method_ c)))
    (_ ← each (fun p => match UseVar (AParam p) with Some v => _ ← declare v false; mret tt | None => mret tt end) Params;
     ist ← newState;
     _ ← match Body with
         | NBlock b | NStmt (SBlock b) => _ ← rBlock b ist; mret tt
         | NExpr x => rExpr x ist
         | _ => mret tt
         end;
     finish).

Definition short_circuit (Op : Z) : bool := (Op =? LAND) || (Op =? LOR).

Definition expr (x : Expr) (st : state) : Flow unit :=
  match x with
  | EIdent _ | EName _ => read x st
  | ParenExpr _ _ X _ => rExpr X st
  | AssignExpr _ LHS Op _ _ RHS => assignExpr LHS Op RHS st
  | UnaryExpr _ Op _ X => if (Op =? INC) || (Op =? DEC) then _ ← read X st; write X st else rExpr X st
  | PostfixExpr _ X _ _ => _ ← read X st; write X st
  | BinaryExpr _ X Op _ _ Y =>
      if short_circuit Op then _ ← rCondition x st; mret tt else _ ← rExpr X st; rExpr Y st
  | CondExpr _ Cond _ Then _ Else =>
      c ← rCondition Cond st;
      _ ← rExpr Then (whenTrue c);
      _ ← rExpr Else (whenFalse c);
      j ← on_store (join (whenTrue c) (whenFalse c));
      on_store_ (copyInto st j)
  | InstanceOfExpr _ X _ _ pattern => _ ← rExpr X st; maybe (fun p => patternBindings p st) pattern
  | CallExpr sp X _ _ _ Args _ =>
      _ ← maybe (fun X => rExpr X st) X;
      _ ← each (fun a => rExpr a st) Args;
      callThrows (AExpr x) sp
  | NewExpr sp Outer _ _ _ _ Args _ Body _ _ =>
      _ ← maybe (fun X => rExpr X st) Outer;
      _ ← each (fun a => rExpr a st) Args;
      _ ← callThrows (AExpr x) sp;
      c ← cx;
      rMembers true (class_ c) Body
  | NewArrayExpr _ _ _ DimExprs _ Init =>
      _ ← each (fun d => match d with mkDimExpr _ _ _ X _ => rExpr X st end) DimExprs;
      maybe (fun a => initializer (NExpr (EArrayInit a)) st) Init
  | EArrayInit a => initializer (NExpr x) st
  | IndexExpr _ X _ Index _ => _ ← rExpr X st; rExpr Index st
  | SelectorExpr _ X _ _ => rExpr X st
  | CastExpr _ _ _ _ _ X => rExpr X st
  | LambdaExpr _ _ Params _ _ _ Body => lambda Params Body st
  | MethodRef _ X _ _ _ _ => match X with NExpr e => rExpr e st | _ => mret tt end
  | SwitchExpr _ _ Tag block => switchExpr Tag block st
  | _ => mret tt
  end.

(** A condition that is none of the special forms: its branches differ where it
    is a constant. *)
Definition plain_condition (x : Expr) (st : state) : Flow cond :=
  _ ← expr x st;
  c ← on_store (unconditional st);
  if isConstTrue x then f ← fullyAssigned st; mret (mkCond (whenTrue c) f)
  else if isConstFalse x then t ← fullyAssigned st; mret (mkCond t (whenFalse c))
  else mret c.

Definition condition (x : Expr) (st : state) : Flow cond :=
  match x with
  | ParenExpr _ _ X _ => rCondition X st
  | UnaryExpr _ Op _ X => if Op =? NOT then c ← rCondition X st; mret (mkCond (whenFalse c) (whenTrue c)) else plain_condition x st
  | BinaryExpr _ X Op _ _ Y =>
      if Op =? LAND then
        l ← rCondition X st; r ← rCondition Y (whenTrue l);
        f ← on_store (join (whenFalse l) (whenFalse r)); mret (mkCond (whenTrue r) f)
      else if Op =? LOR then
        l ← rCondition X st; r ← rCondition Y (whenFalse l);
        t ← on_store (join (whenTrue l) (whenTrue r)); mret (mkCond t (whenFalse r))
      else plain_condition x st
  | CondExpr _ Cond _ Then _ Else =>
      c ← rCondition Cond st; t ← rCondition Then (whenTrue c); e ← rCondition Else (whenFalse c);
      a ← on_store (join (whenTrue t) (whenTrue e)); b ← on_store (join (whenFalse t) (whenFalse e)); mret (mkCond a b)
  | InstanceOfExpr _ X _ _ pattern =>
      _ ← rExpr X st;
      out ← on_store (unconditional st);
      _ ← maybe (fun p => patternBindings p (whenTrue out)) pattern;
      mret out
  | _ => plain_condition x st
  end.
End Flow.

Section Statements.
Context `{Attribution, Runtime, Walks}.

(** ** Reachability ([analyzer/flow/alive.go]) *)

(** [block]: each statement with whether control reaches it.  An unreachable
    one is walked on a copy of the state. *)
Fixpoint block_stmts (l : list Stmt) (st : state) (alive : bool) : Flow bool :=
  match l with
  | [] => mret alive
  | s :: l =>
      if alive then a ← rStmt s st; block_stmts l st a
      else
        _ ← unreachable s;
        dead ← on_store (clone_state st);
        _ ← rStmt s dead;
        block_stmts l st false
  end.

Definition block (b : Block) (st : state) : Flow bool := match b with mkBlock _ _ Stmts _ => block_stmts Stmts st true end.

Definition localVar (st : state) (decl : VarDeclarator) : Flow state :=
  match decl, UseVar (AVarDeclarator decl) with
  | mkVarDeclarator _ _ _ _ Init, Some v =>
      i ← declare v (match Init with None => true | Some _ => false end);
      st ← on_store (grow_state st i);
      match Init with
      | Some init =>
          _ ← initializer init st;
          st ← on_store (assign st i);
          _ ← change (wrote v);
          mret st
      | None =>
          _ ← on_store_ (clear (da st) i);
          u ← on_store (set (du st) i);
          mret (mkState (da st) u)
      end
  | _, None => mret st
  end.

(** The slices that grow are those of the call. *)
Definition localVars (d : VarDecl) (st : state) : Flow unit :=
  match d with mkVarDecl _ _ _ Names _ => _ ← along localVar st Names; mret tt end.

Definition members_of (d : Decl) : option (list Decl) :=
  match d with
  | ClassDecl _ _ _ _ _ _ _ _ _ Members _ | InterfaceDecl _ _ _ _ _ _ _ _ Members _
  | EnumDecl _ _ _ _ _ _ _ _ _ Members _ | RecordDecl _ _ _ _ _ _ _ _ _ _ Members _ => Some Members
  | _ => None
  end.

(** [classIn], with the context at work as the enclosing scope. *)
Definition classIn (c : cls) : Flow unit :=
  match (if FromSource c then DeclOf c ≫= members_of else None) with
  | Some Members => rMembers true c Members
  | None => mret tt
  end.

Definition declStmt (d : Decl) (st : state) : Flow bool :=
  _ ← match d with
      | DVar v => localVars v st
      | ClassDecl _ _ _ _ _ _ _ _ _ _ _ | InterfaceDecl _ _ _ _ _ _ _ _ _ _ | EnumDecl _ _ _ _ _ _ _ _ _ _ _
      | RecordDecl _ _ _ _ _ _ _ _ _ _ _ _ => maybe classIn (LocalClass d)
      | _ => mret tt
      end;
  mret true.

Definition ifStmt (Cond : Expr) (Then : Stmt) (Else : option Stmt) (st : state) : Flow bool :=
  c ← rCondition Cond st;
  thenAlive ← rStmt Then (whenTrue c);
  match Else with
  | None => m ← on_store (join (whenTrue c) (whenFalse c)); _ ← on_store_ (copyInto st m); mret true
  | Some Else =>
      elseAlive ← rStmt Else (whenFalse c);
      _ ← match thenAlive, elseAlive with
          | true, true => m ← on_store (join (whenTrue c) (whenFalse c)); on_store_ (copyInto st m)
          | true, false => on_store_ (copyInto st (whenTrue c))
          | false, true => on_store_ (copyInto st (whenFalse c))
          | false, false => mret tt
          end;
      mret (thenAlive || elseAlive)
  end.

(** The loop on the entry state of a body, [n] rounds at most. *)
Fixpoint settle (n : nat) (body : state -> Flow unit) (entry : state) : Flow state :=
  match n with
  | O => fun _ => None
  | S n =>
      b ← on_store (clone_state entry);
      _ ← body b;
      next ← on_store (join entry b);
      same ← of_store (equal_state next entry);
      if same : bool then mret entry else settle n body next
  end.

(** A round clears a bit of the entry state, if it is not the last. *)
Definition settled (body : state -> Flow unit) (entry : state) : Flow state :=
  settle (S (64 * (slen (da entry) + slen (du entry)))) body entry.

Definition stmt_ (s : Stmt) (st : state) : Flow unit := _ ← rStmt s st; mret tt.

Definition whileStmt (Cond : Expr) (Body : Stmt) (st : state) : Flow bool :=
  c ← rCondition Cond st;
  entry ← settled (stmt_ Body) (whenTrue c);
  last ← on_store (clone_state entry);
  _ ← rStmt Body last;
  if isConstTrue Cond then
    if negb (hasBreak Body) then mret false else _ ← on_store_ (copyInto st entry); mret true
  else
    m ← on_store (join st (whenFalse c)); _ ← on_store_ (copyInto st m); mret true.

Definition doStmt (Body : Stmt) (Cond : Expr) (st : state) : Flow bool :=
  _ ← rStmt Body st;
  c ← rCondition Cond st;
  entry ← on_store (clone_state st);
  _ ← settled (stmt_ Body) entry;
  if isConstTrue Cond && negb (hasBreak Body) then mret false
  else _ ← on_store_ (copyInto st (whenFalse c)); mret true.

Definition forStmt (Init : list Stmt) (Cond : option Expr) (Post : list Expr) (Body : Stmt) (st : state) : Flow bool :=
  _ ← each (fun i => stmt_ i st) Init;
  let infinite := match Cond with None => true | Some x => isConstTrue x end in
  c ← match Cond with Some x => rCondition x st | None => on_store (unconditional st) end;
  entry ← settled (fun b => _ ← stmt_ Body b; each (fun p => rExpr p b) Post) (whenTrue c);
  last ← on_store (clone_state entry);
  _ ← rStmt Body last;
  if infinite && negb (hasBreak Body) then mret false
  else _ ← on_store_ (copyInto st (whenFalse c)); mret true.

Definition rangeStmt (d : VarDecl) (X : Expr) (Body : Stmt) (st : state) : Flow bool :=
  _ ← rExpr X st;
  _ ← localVars d st;
  entry ← on_store (clone_state st);
  _ ← rStmt Body entry;
  mret true.

Definition is_default (l : SwitchLabel) : bool := match l with mkSwitchLabel _ _ _ Default _ _ _ => Default end.

(** A group of a colon switch, which stops at an unreachable statement. *)
Fixpoint group_stmts (l : list Stmt) (s : state) (alive : bool) : Flow bool :=
  match l with
  | [] => mret alive
  | g :: l => if alive then a ← rStmt g s; group_stmts l s a else _ ← unreachable g; mret false
  end.

(** Whether an arm completes and the states where one does. *)
Definition switch_group (st : state) (ends : list state) (g : SwitchGroup) : Flow (list state) :=
  match g with
  | mkSwitchGroup _ Labels Stmts =>
      _ ← each (fun l => switchLabel l st) Labels;
      s ← on_store (clone_state st);
      a ← group_stmts Stmts s true;
      mret (if a : bool then ends ++ [s] else ends)
  end.

Definition has_default (b : SwitchBlock) : bool :=
  match b with
  | mkSwitchBlock _ _ Rules Groups _ _ =>
      existsb (fun r => match r with mkSwitchRule _ Label _ _ => is_default Label end) Rules
      || existsb (fun g => match g with mkSwitchGroup _ Labels _ => existsb is_default Labels end) Groups
  end.

Definition switchStmt (Tag : Expr) (b : SwitchBlock) (st : state) : Flow bool :=
  match b with
  | mkSwitchBlock _ _ Rules Groups _ _ =>
      _ ← rExpr Tag st;
      ends ← along (switch_rule st) [] Rules;
      ends ← along (switch_group st) ends Groups;
      if negb (has_default b) then mret true
      else _ ← merge_ends st ends; mret (negb (bool_decide (length ends = 0%nat)))
  end.

Definition checkBlankFinals (sp : Span) (st : state) : Flow unit :=
  c ← cx;
  each (fun iv : nat * var =>
    b ← of_store (has (da st) (Z.of_nat (fst iv)));
    if bool_decide (Z.of_nat (fst iv) ∈ blanks c) && negb b then
      error_at sp (bs "variable %s might not have been initialized") [AStr (VarName (snd iv))]
    else mret tt) (imap pair (order c)).

(** ** Try ([analyzer/flow/throws.go]) *)

Definition resource (st : state) (r : Resource) : Flow unit :=
  match r with
  | mkResource _ _ (Some x) => rExpr x st
  | mkResource _ (Some d) None => localVars d st
  | mkResource _ None None => mret tt
  end.

Definition catch_types (c : CatchClause) : list ty :=
  match c with mkCatchClause _ _ _ Types _ _ =>
    filter (fun t => IsError (Some t) = false) (map (fun x => TypeAt (node_of (tree_Typ x))) Types) end.

(** A catch clause, and its state if it completes. *)
Definition catch_clause (bodyThrew : list ty) (st : state) (ends : list state) (c : CatchClause) : Flow (list state) :=
  match c with
  | mkCatchClause _ _ _ Types name Body =>
      cs ← on_store (clone_state st);
      cs ← match UseVar (AIdent name) with
           | Some v => i ← declare v false; cs ← on_store (grow_state cs i); on_store (assign cs i)
           | None => mret cs
           end;
      _ ← checkReachableCatch Types bodyThrew;
      a ← rBlock Body cs;
      mret (if a : bool then ends ++ [cs] else ends)
  end.

(** The state after a try without a finally. *)
Definition merge_try (st bodyState : state) (bodyAlive : bool) (ends : list state) : Flow unit :=
  let '(first, rest) := match bodyAlive, ends with false, e :: ends => (e, ends) | _, _ => (bodyState, ends) end in
  m ← along (fun m e => on_store (join m e)) first rest;
  if bodyAlive || negb (bool_decide (length ends = 0%nat)) then on_store_ (copyInto st m) else mret tt.

Definition tryStmt (Resources : list Resource) (Body : Block) (Catches : list CatchClause) (Finally : option Block) (st : state) : Flow bool :=
  _ ← each (resource st) Resources;
  let layer := concat (map catch_types Catches) in
  c ← cx;
  _ ← change (fun c => set_thrown [] (set_caught (caught c ++ [layer]) c));
  bodyState ← on_store (clone_state st);
  bodyAlive ← rBlock Body bodyState;
  threw ← cx;
  _ ← each closeThrows Resources;
  closed ← cx;
  let bodyThrew := thrown threw ++ thrown closed in
  _ ← change (fun d => set_thrown (thrown c) (set_caught (removelast (caught d)) d));
  ends ← along (catch_clause bodyThrew st) [] Catches;
  let anyCatchAlive := negb (bool_decide (length ends = 0%nat)) in
  _ ← change (fun d => set_thrown (thrown d ++ filter (fun t => coveredBy t layer = false) bodyThrew) d);
  match Finally with
  | Some f =>
      fs ← on_store (clone_state st);
      alive ← rBlock f fs;
      _ ← on_store_ (copyInto st fs);
      mret (alive && (bodyAlive || anyCatchAlive))
  | None => _ ← merge_try st bodyState bodyAlive ends; mret (bodyAlive || anyCatchAlive)
  end.

(** ** Statements *)

Definition stmt (s : Stmt) (st : state) : Flow bool :=
  match s with
  | SBlock b => rBlock b st
  | EmptyStmt _ | BadStmt _ => mret true
  | ExprStmt _ X => _ ← rExpr X st; mret true
  | DeclStmt _ d => declStmt d st
  | LabeledStmt _ _ _ s => _ ← rStmt s st; mret true
  | IfStmt _ _ Cond Then _ Else => ifStmt Cond Then Else st
  | WhileStmt _ _ Cond Body => whileStmt Cond Body st
  | DoStmt _ _ Body _ Cond => doStmt Body Cond st
  | ForStmt _ _ Init Cond Post Body => forStmt Init Cond Post Body st
  | RangeStmt _ _ d _ X Body => rangeStmt d X Body st
  | SwitchStmt _ _ Tag b => switchStmt Tag b st
  | BreakStmt _ _ _ | ContinueStmt _ _ _ => mret false
  | ReturnStmt sp _ Result => _ ← maybe (fun x => rExpr x st) Result; _ ← checkBlankFinals sp st; mret false
  | YieldStmt _ _ X => _ ← rExpr X st; mret false
  | ThrowStmt sp _ X => _ ← rExpr X st; _ ← throwType X sp; mret false
  | SyncStmt _ _ X Body => _ ← rExpr X st; rBlock Body st
  | AssertStmt _ _ X _ Msg => c ← rCondition X st; _ ← maybe (fun m => rExpr m (whenFalse c)) Msg; mret true
  | TryStmt _ _ _ Resources _ _ Body Catches _ Finally => tryStmt Resources Body Catches Finally st
  | ConstructorCall sp _ _ _ _ _ Args _ => _ ← each (fun a => rExpr a st) Args; _ ← callThrows (AStmt s) sp; mret true
  end.
End Statements.

Section Members.
Context `{Attribution, Runtime, Walks}.

(** ** Members ([analyzer/flow/flow.go])

    [outer] says whether the context at work encloses the members. *)

Definition method (outer : bool) (c : cls) (d : Decl) (body : Block) : Flow unit :=
  let m := methodFor c d in
  in_ctx outer (newCtx c m)
    (_ ← declareParams m;
     st ← newState;
     alive ← rBlock body st;
     _ ← match body with mkBlock _ _ _ Rbrace =>
           if alive && returnsValue m then errorf Rbrace (u32 (Rbrace + 1)) (bs "missing return statement") [] else mret tt end;
     finish).

Definition constructor (outer : bool) (c : cls) (d : Decl) (body : Block) : Flow unit :=
  let m := constructorFor c d in
  in_ctx outer (newCtx c m) (_ ← declareParams m; st ← newState; _ ← rBlock body st; finish).

(** A body without a method: an initializer block, a field's initializer, an
    argument of an enum constant. *)
Definition loose (outer : bool) (c : cls) (walk : state -> Flow unit) : Flow unit :=
  in_ctx outer (newCtx c None) (st ← newState; _ ← walk st; finish).

Definition fieldInit (outer : bool) (c : cls) (d : VarDecl) : Flow unit :=
  match d with
  | mkVarDecl _ _ _ Names _ =>
      each (fun decl => match decl with mkVarDeclarator _ _ _ _ Init => maybe (fun init => loose outer c (initializer init)) Init end) Names
  end.

Definition member (outer : bool) (c : cls) (d : Decl) : Flow unit :=
  match d with
  | MethodDecl _ _ _ _ _ _ _ _ _ _ _ _ _ Body _ => maybe (method outer c d) Body
  | ConstructorDecl _ _ _ _ _ _ _ _ _ _ Body => constructor outer c d Body
  | InitializerDecl _ _ _ Body => loose outer c (fun st => _ ← rBlock Body st; mret tt)
  | DVar v => fieldInit outer c v
  | ClassDecl _ _ _ _ _ _ _ _ _ _ _ | InterfaceDecl _ _ _ _ _ _ _ _ _ _ | AnnotationDecl _ _ _ _ _ _ _ _
  | EnumDecl _ _ _ _ _ _ _ _ _ _ _ | RecordDecl _ _ _ _ _ _ _ _ _ _ _ _ => maybe rClass (nestedOf c d)
  | _ => mret tt
  end.

Definition members (outer : bool) (c : cls) (l : list Decl) : Flow unit := each (member outer c) l.

Definition enumConstants (c : cls) (consts : list EnumConstant) : Flow unit :=
  each (fun k => match k with
    | mkEnumConstant _ _ _ _ Args _ _ Members _ => _ ← each (fun a => loose false c (rExpr a)) Args; rMembers false c Members
    end) consts.

Definition class (c : cls) : Flow unit :=
  match (if FromSource c then DeclOf c else None) with
  | Some (EnumDecl _ _ _ _ _ _ Constants _ _ Members _) => _ ← enumConstants c Constants; rMembers false c Members
  | Some (AnnotationDecl _ _ _ _ _ _ Members _) => rMembers false c Members
  | Some d => maybe (rMembers false c) (members_of d)
  | None => mret tt
  end.
End Members.

(** ** The knot *)

Definition no_walks : Walks := {|
  rExpr _ _ _ := None; rCondition _ _ _ := None; rStmt _ _ _ := None; rBlock _ _ _ := None; rMembers _ _ _ _ := None; rClass _ _ := None |}.

Fixpoint walks `{Attribution, Runtime} (n : nat) : Walks :=
  match n with
  | O => no_walks
  | S n =>
      let _ := walks n in
      {| rExpr := expr; rCondition := condition; rStmt := stmt; rBlock := block; rMembers := members; rClass := class |}
  end.

(** [Analyze], over the types of a unit. *)
Definition Analyze `{Attribution, Runtime} (n : nat) (types : list cls) : option (list Diagnostic * flow) :=
  match each (class (H1 := walks n)) types newFlow with
  | Some (_, f) => Some (SortDiagnostics (Diags f), f)
  | None => None
  end.
