(* ===== verification/FlowRun.v ===== *)
(** * Runs of the flow analysis that end

    A logic of runs that end: a walk given states it owns ends, changes only
    arrays it owns, and the states it answers are owned.  Ownership is what
    makes the loops end: the body of a loop works on a copy, so the entry state
    it is merged with can only lose bits. *)
From S2P Require Import Prelude.
From S2P Require Import Token SourceFile Ast AstWalk Types Fold Bits BitsSets FlowState Flow.

(** ** Runs *)

Definition ends {A} (O : nat -> Prop) (m : Flow A) (Q : A -> flow -> Prop) (f : flow) : Prop :=
  exists a f', m f = Some (a, f') /\ grows O (store_ f) (store_ f') /\ Q a f'.

Definition ready (O : nat -> Prop) (f : flow) : Prop := based O (store_ f) /\ good (store_ f).
Definition owned (O : nat -> Prop) (s : state) (f : flow) : Prop := own_state O s (store_ f).

(** What a run leaves standing. *)
Definition after (O : nat -> Prop) (f f' : flow) : Prop := grows O (store_ f) (store_ f').

#[export] Instance after_preorder O : PreOrder (after O).
Proof. split; [intros f; unfold after; reflexivity|intros f g h; unfold after; apply transitivity]. Qed.

Definition anything {A} (_ : A) (_ : flow) : Prop := True.
Definition a_slice (O : nat -> Prop) (s : slice) (f : flow) : Prop := own O s (store_ f).
Definition a_state (O : nat -> Prop) (s : state) (f : flow) : Prop := owned O s f.
Definition a_cond (O : nat -> Prop) (c : cond) (f : flow) : Prop := owned O (whenTrue c) f /\ owned O (whenFalse c) f.
Definition states (O : nat -> Prop) (l : list state) (f : flow) : Prop := Forall (fun s => owned O s f) l.

Lemma ready_after O f f' : ready O f -> after O f f' -> ready O f'.
Proof. intros [Hb Hg] Ha. split; [eapply based_grows; eassumption|by apply (grows_good _ _ _ Ha)]. Qed.

Lemma owned_after O s f f' : owned O s f -> after O f f' -> owned O s f'.
Proof. intros Hs Ha. eapply own_state_grows; eassumption. Qed.

Lemma own_after O s f f' : a_slice O s f -> after O f f' -> a_slice O s f'.
Proof. intros Hs Ha. eapply own_grows; eassumption. Qed.

Lemma cond_after O c f f' : a_cond O c f -> after O f f' -> a_cond O c f'.
Proof. intros [Ht Hf] Ha. split; eapply owned_after; eassumption. Qed.

Lemma states_after O l f f' : states O l f -> after O f f' -> states O l f'.
Proof. intros Hl Ha. eapply Forall_impl; [exact Hl|]. intros s Hs. eapply owned_after; [exact Hs|exact Ha]. Qed.

Lemma states_snoc O l s f : states O l f -> owned O s f -> states O (l ++ [s]) f.
Proof. intros Hl Hs. apply Forall_app. split; [done|]. constructor; [done|constructor]. Qed.

(** Facts of an older run, at the run at work. *)
Ltac carry G :=
  match type of G with
  | after ?O ?f ?f' =>
      repeat match goal with
      | X : ready O f |- _ => apply (ready_after O f f') in X; [|exact G]
      | X : owned O ?s f |- _ => apply (owned_after O s f f') in X; [|exact G]
      | X : a_state O ?s f |- _ => apply (owned_after O s f f') in X; [|exact G]
      | X : a_slice O ?s f |- _ => apply (own_after O s f f') in X; [|exact G]
      | X : a_cond O ?c f |- _ => apply (cond_after O c f f') in X; [|exact G]
      | X : states O ?l f |- _ => apply (states_after O l f f') in X; [|exact G]
      end
  end.

Lemma ends_ret {A} O (a : A) Q f : Q a f -> ends O (mret a) Q f.
Proof. intros Hq. exists a, f. split; [done|]. split; [reflexivity|done]. Qed.

Lemma ends_bind {A B} O (m : Flow A) (k : A -> Flow B) P Q f :
  ends O m P f -> (forall a f', after O f f' -> P a f' -> ends O (k a) Q f') -> ends O (m ≫= k) Q f.
Proof.
  intros (a & f1 & Em & G & Hp) Hk. destruct (Hk a f1 G Hp) as (b & f2 & Ek & G' & Hq).
  exists b, f2. split; [cbn; unfold mbind, Flow_bind; by rewrite Em|]. split; [by etransitivity|done].
Qed.

Lemma ends_impl {A} O (m : Flow A) P Q f : (forall a f', after O f f' -> P a f' -> Q a f') -> ends O m P f -> ends O m Q f.
Proof. intros Hpq (a & f' & Em & G & Hp). exists a, f'. auto. Qed.

(** A run on arrays allocated since is one on arrays that are owned. *)
Lemma ends_since {A} O (m : Flow A) Q f : ready O f -> ends (since (store_ f)) m Q f -> ends O m Q f.
Proof.
  intros [Hb _] (a & f' & Em & G & Hp). exists a, f'. split; [done|]. split; [|done]. eapply grows_weaken; [|exact G]. intros p _. apply Hb.
Qed.

Lemma ends_get {A} O (g : flow -> A) (Q : A -> flow -> Prop) f : Q (g f) f -> ends O (get g) Q f.
Proof. intros Hq. exists (g f), f. split; [done|]. split; [reflexivity|done]. Qed.

Lemma ends_put O g f : store_ (g f) = store_ f -> ends O (put g) anything f.
Proof. intros E. exists tt, (g f). split; [done|]. rewrite E. split; [reflexivity|done]. Qed.

Lemma ends_store {A} O (g : store -> A * store) Q f :
  (let '(a, h) := g (store_ f) in grows O (store_ f) h /\ Q a (set_store h f)) -> ends O (on_store g) Q f.
Proof. unfold ends, on_store. destruct (g (store_ f)) as [a h]. intros [G Hq]. exists a, (set_store h f). auto. Qed.

Lemma ends_store_ O g f : grows O (store_ f) (g (store_ f)) -> ends O (on_store_ g) anything f.
Proof. intros G. exists tt, (set_store (g (store_ f)) f). split; [done|]. split; [exact G|exact I]. Qed.

Lemma ends_each {A} O (g : A -> Flow unit) l f :
  ready O f -> (forall a f', In a l -> after O f f' -> ready O f' -> ends O (g a) anything f') -> ends O (each g l) anything f.
Proof.
  revert f. induction l as [|a l IH]; intros f Hr Hg; cbn [each]; [by apply ends_ret|].
  eapply ends_bind; [apply Hg; [by left|reflexivity|done]|]. intros _ f' G _. apply IH; [eapply ready_after; eassumption|].
  intros b f'' Hb G' Hr'. apply Hg; [by right|etransitivity; [exact G|exact G']|done].
Qed.

Lemma ends_maybe {A} O (g : A -> Flow unit) o f : (forall a, o = Some a -> ends O (g a) anything f) -> ends O (maybe g o) anything f.
Proof. destruct o; intros Hg; [by apply Hg|by apply ends_ret]. Qed.

(** An accumulator of states along a list. *)
Lemma ends_along {A S} O (P : S -> flow -> Prop) (g : S -> A -> Flow S) s l f :
  (forall s f f', P s f -> after O f f' -> P s f') -> ready O f -> P s f ->
  (forall s a f', In a l -> after O f f' -> ready O f' -> P s f' -> ends O (g s a) P f') -> ends O (along g s l) P f.
Proof.
  intros Hm. revert s f. induction l as [|a l IH]; intros s f Hr Hs Hg; cbn [along]; [by apply ends_ret|].
  eapply ends_bind; [apply Hg; [by left|reflexivity|done..]|]. intros s' f' G Hs'. apply IH; [eapply ready_after; eassumption|done|].
  intros t b f'' Hb G' Hr' Ht. apply Hg; [by right|etransitivity; [exact G|exact G']|done..].
Qed.

(** ** Runs that leave the arrays alone *)

Class Quiet {A} (m : Flow A) : Prop := quiet_run f : exists a f', m f = Some (a, f') /\ store_ f' = store_ f.

Lemma ends_quiet {A} O (m : Flow A) `{!Quiet m} f : ends O m anything f.
Proof. destruct (quiet_run (m := m) f) as (a & f' & E & Es). exists a, f'. rewrite Es. split; [done|]. split; [reflexivity|exact I]. Qed.

#[export] Instance quiet_ret {A} (a : A) : Quiet (mret a).
Proof. intros f. exists a, f. done. Qed.
#[export] Instance quiet_bind {A B} (m : Flow A) (k : A -> Flow B) : Quiet m -> (forall a, Quiet (k a)) -> Quiet (m ≫= k).
Proof.
  intros Hm Hk f. destruct (quiet_run (m := m) f) as (a & f1 & E & E1). destruct (quiet_run (m := k a) f1) as (b & f2 & E' & E2).
  exists b, f2. cbn. unfold mbind, Flow_bind. rewrite E, E2. done.
Qed.
#[export] Instance quiet_get {A} (g : flow -> A) : Quiet (get g).
Proof. intros f. exists (g f), f. done. Qed.
#[export] Instance quiet_cx : Quiet cx.
Proof. apply quiet_get. Qed.
#[export] Instance quiet_of_store {A} (g : store -> A) : Quiet (of_store g).
Proof. apply quiet_get. Qed.
#[export] Instance quiet_change g : Quiet (change g).
Proof. intros f. unfold change, put. eexists _, _. split; [done|]. by destruct (cxs f). Qed.
#[export] Instance quiet_cxs l : Quiet (put (set_cxs l)).
Proof. intros f. exists tt, (set_cxs l f). done. Qed.
#[export] Instance quiet_each {A} (g : A -> Flow unit) l : (forall a, Quiet (g a)) -> Quiet (each g l).
Proof. intros Hg. induction l; cbn [each]; apply _. Qed.
#[export] Instance quiet_maybe {A} (g : A -> Flow unit) o : (forall a, Quiet (g a)) -> Quiet (maybe g o).
Proof. intros Hg. destruct o; cbn [maybe]; apply _. Qed.

#[export] Instance quiet_if {A} (b : bool) (m m' : Flow A) : Quiet m -> Quiet m' -> Quiet (if b then m else m').
Proof. by destruct b. Qed.

(** By cases on what the code tests. *)
Ltac quiet :=
  repeat first [ progress intros | apply _
               | match goal with |- Quiet (if ?b then _ else _) => destruct b | |- Quiet (match ?x with _ => _ end) => destruct x end
               | apply quiet_bind | apply quiet_each | apply quiet_maybe ].

#[export] Instance quiet_declare v b : Quiet (declare v b).
Proof. unfold declare. quiet. Qed.

Section Quiet.
Context `{Attribution}.

#[export] Instance quiet_errorf lo hi fm l : Quiet (errorf lo hi fm l).
Proof. intros f. unfold errorf, put. eexists _, _. split; [done|]. by destruct (bool_decide _). Qed.
#[export] Instance quiet_error_at sp fm l : Quiet (error_at sp fm l).
Proof. apply quiet_errorf. Qed.
#[export] Instance quiet_unreachable s : Quiet (unreachable s).
Proof. unfold unreachable. apply quiet_bind; [apply _|]. intros _ f. eexists _, _. split; reflexivity. Qed.
#[export] Instance quiet_declareParams m : Quiet (declareParams m).
Proof. unfold declareParams. quiet. Qed.
#[export] Instance quiet_finish : Quiet finish.
Proof. unfold finish. quiet. intros f. eexists _, _. split; reflexivity. Qed.
#[export] Instance quiet_noteCapture v x : Quiet (noteCapture v x).
Proof. unfold noteCapture. quiet. intros f. eexists _, _. split; reflexivity. Qed.
#[export] Instance quiet_noteWrite v x : Quiet (noteWrite v x).
Proof. unfold noteWrite. quiet. intros f. eexists _, _. split; reflexivity. Qed.
#[export] Instance quiet_raise t sp : Quiet (raise t sp).
Proof. unfold raise. quiet. Qed.
#[export] Instance quiet_throwType x sp : Quiet (throwType x sp).
Proof. unfold throwType. quiet. Qed.
#[export] Instance quiet_callThrows n sp : Quiet (callThrows n sp).
Proof. unfold callThrows. quiet. Qed.
#[export] Instance quiet_closeThrows r : Quiet (closeThrows r).
Proof. unfold closeThrows. quiet. Qed.
#[export] Instance quiet_checkReachableCatch ts l : Quiet (checkReachableCatch ts l).
Proof. unfold checkReachableCatch. quiet. Qed.
#[export] Instance quiet_checkBlankFinals sp st : Quiet (checkBlankFinals sp st).
Proof. unfold checkBlankFinals. quiet. Qed.
End Quiet.

(** ** Operations on states *)
Section Store.
Context `{Runtime} (O : nat -> Prop).

Lemma ends_OpS (g : store -> state * store) f : OpS O (store_ f) (g (store_ f)) -> ends O (on_store g) (a_state O) f.
Proof. intros [G Hs]. apply ends_store. destruct (g (store_ f)). split; [exact G|exact Hs]. Qed.

Lemma ends_Op (g : store -> slice * store) f : Op O (store_ f) (g (store_ f)) -> ends O (on_store g) (a_slice O) f.
Proof. intros [G Hs]. apply ends_store. destruct (g (store_ f)). split; [exact G|exact Hs]. Qed.

Lemma ends_clone s f : ready O f -> ends O (on_store (clone_state s)) (a_state O) f.
Proof. intros [Hb _]. by apply ends_OpS, clone_state_OpS. Qed.
Lemma ends_join a b f : ready O f -> ends O (on_store (join a b)) (a_state O) f.
Proof. intros [Hb _]. by apply ends_OpS, join_OpS. Qed.
Lemma ends_assign s i f : ready O f -> owned O s f -> ends O (on_store (assign s i)) (a_state O) f.
Proof. intros [Hb _] Hs. by apply ends_OpS, assign_OpS. Qed.
Lemma ends_grow s i f : ready O f -> owned O s f -> ends O (on_store (grow_state s i)) (a_state O) f.
Proof. intros [Hb _] Hs. by apply ends_OpS, grow_state_OpS. Qed.
Lemma ends_copyInto dst src f : ready O f -> owned O dst f -> ends O (on_store_ (copyInto dst src)) anything f.
Proof. intros [Hb _] Hs. by apply ends_store_, copyInto_grows. Qed.
Lemma ends_clear s i f : a_slice O s f -> ends O (on_store_ (clear s i)) anything f.
Proof. intros Hs. by apply ends_store_, clear_grows. Qed.
Lemma ends_set s i f : ready O f -> a_slice O s f -> ends O (on_store (set s i)) (a_slice O) f.
Proof. intros [Hb _] Hs. by apply ends_Op, set_Op. Qed.
Lemma ends_newBits n f : ready O f -> ends O (on_store (newBits n)) (a_slice O) f.
Proof. intros [Hb _]. by apply ends_Op, newBits_Op. Qed.

Lemma ends_unconditional s f : ready O f -> ends O (on_store (unconditional s)) (a_cond O) f.
Proof.
  intros [Hb _]. apply ends_store. pose proof (unconditional_Op O s (store_ f) Hb) as Hu. destruct (unconditional s (store_ f)). exact Hu.
Qed.
End Store.

(** The next step of a run, by what is known of it. *)
Create HintDb flow.
#[export] Hint Resolve ends_clone ends_join ends_assign ends_grow ends_copyInto ends_unconditional ends_newBits : flow.
Ltac is_owned :=
  cbn [whenTrue whenFalse];
  first [ assumption
        | match goal with
          | X : a_cond ?O ?c ?f |- owned ?O (whenTrue ?c) ?f => exact (proj1 X)
          | X : a_cond ?O ?c ?f |- owned ?O (whenFalse ?c) ?f => exact (proj2 X)
          end ].
#[export] Hint Extern 1 (owned _ _ _) => is_owned : flow.
#[export] Hint Extern 5 (ends _ _ _ _) => apply ends_quiet; apply _ : flow.

Ltac step :=
  lazymatch goal with
  | |- ends _ (mret _) _ _ => apply ends_ret
  | |- ends _ (_ ≫= _) _ _ =>
      first [eapply ends_bind; [solve [eauto with flow]|] | eapply (ends_bind _ _ _ anything)]; [..|
        let a := fresh "a" in let f := fresh "f" in let G := fresh "G" in let Q := fresh "Q" in
        intros a f G Q; cbv beta in Q; carry G; try (unfold a_state in Q)]
  | |- ends _ (if ?b then _ else _) _ _ => destruct b
  | |- ends _ (match ?x with _ => _ end) _ _ => destruct x
  | |- ends _ (let _ := _ in _) _ _ => cbv zeta
  | |- anything _ _ => exact I
  | |- ends _ _ _ _ => solve [eauto with flow]
  end.

Section Prims.
Context `{Attribution, Runtime} (O : nat -> Prop).

Lemma ends_read x st f : ready O f -> owned O st f -> ends O (read x st) anything f.
Proof. intros Hr Hs. unfold read. repeat step. Qed.

Lemma ends_write x st f : ready O f -> owned O st f -> ends O (write x st) anything f.
Proof. intros Hr Hs. unfold write. repeat step. Qed.

Lemma ends_patternBindings p st f : ready O f -> owned O st f -> ends O (patternBindings p st) anything f.
Proof.
  revert f. induction p as [p IH] using pattern_ind'; intros f Hr Hs. destruct p; cbn [patternBindings]; repeat step.
  apply ends_each; [done|]. intros q f' Hq G Hr'. apply IH; [exact Hq|done|eapply owned_after; eassumption].
Qed.

Lemma ends_set_along (l : list Z) (g : Z -> bool) s f : ready O f -> owned O s f ->
  ends O (along (fun s i => if g i then u ← on_store (set (du s) i); mret (mkState (da s) u)
                            else a ← on_store (set (da s) i); mret (mkState a (du s))) s l) (a_state O) f.
Proof.
  intros Hr Hs. apply (ends_along O (a_state O)); [intros; eapply owned_after; eassumption|done..|]. clear s Hs. intros s i f' _ _ Hr' [Ha Hu].
  change (a_slice O (da s) f') in Ha. change (a_slice O (du s) f') in Hu.
  destruct (g i); (eapply ends_bind; [by apply ends_set|]); intros x f'' G Hx; carry G; apply ends_ret; by split.
Qed.

Lemma ends_newState f : ready O f -> ends O newState (a_state O) f.
Proof.
  intros Hr. unfold newState. step.
  eapply ends_bind; [by apply ends_newBits|]. intros x f' G' Hx. carry G'.
  eapply ends_bind; [by apply ends_newBits|]. intros y f'' G'' Hy. carry G''.
  apply (ends_set_along _ (fun i => bool_decide (i ∈ blanks a))); [done|]. by split.
Qed.

Lemma ends_fullyAssigned st f : ready O f -> ends O (fullyAssigned st) (a_state O) f.
Proof.
  intros Hr. unfold fullyAssigned. step. step. apply (ends_along O (a_state O)); [intros; eapply owned_after; eassumption|done..|].
  intros s i f' _ _ Hr' [Ha Hu]. change (a_slice O (da s) f') in Ha. change (a_slice O (du s) f') in Hu.
  eapply ends_bind; [by apply ends_set|]. intros x g G' Hx. carry G'.
  eapply ends_bind; [by apply ends_set|]. intros y g' G'' Hy. carry G''. apply ends_ret. by split.
Qed.

Lemma ends_merge_ends st l f : ready O f -> owned O st f -> ends O (merge_ends st l) anything f.
Proof.
  intros Hr Hs. unfold merge_ends. destruct l as [|e l]; [by apply ends_ret|].
  eapply ends_bind; [apply (ends_along O (fun _ _ => True)); [done..|]|].
  - intros s a g _ _ Hg _. eapply ends_impl; [|by apply ends_join]. done.
  - intros m g G _. carry G. step.
Qed.

Lemma ends_in_ctx {A} (b : bool) c (body : Flow A) Q f : (forall g, store_ g = store_ f -> ends O body Q g) ->
  (forall a g l, Q a g -> Q a (set_cxs l g)) -> ends O (in_ctx b c body) Q f.
Proof.
  intros Hb Hq. unfold in_ctx. destruct (Hb (set_cxs (c :: (if b then cxs f else [])) f) eq_refl) as (a & f' & E & G & Ha).
  exists a, (set_cxs (if b then tail (cxs f') else cxs f) f'). split; [|split; [exact G|by apply Hq]].
  cbn. unfold mbind, Flow_bind, get, put. cbn. by rewrite E.
Qed.
End Prims.

(** ** Trees within a bound

    An array initializer is walked for ever (see [array_initializer_spins]), so
    a tree is [clean] when it has none.  Three calls are made for each level of
    the tree at most: a statement that is a block, a short-circuit operator, and
    a nested class pass through a second walk of the same node. *)
Definition clean (t : tree) : Prop := Forall (fun n => forall a, n <> AArrayInit a) (preorder t).

Definition fits (n : nat) (t : tree) : Prop := clean t /\ (3 * depth t <= n)%nat.
Definition under (n : nat) (t : tree) : Prop := clean t /\ (3 * depth t + 1 <= n)%nat.

Lemma clean_below c t : clean t -> In c (below t) -> clean c.
Proof.
  destruct t as [x l]. unfold clean. cbn [preorder below]. rewrite Forall_cons. intros [_ Hl] Hc. rewrite Forall_concat, Forall_map in Hl.
  rewrite Forall_forall in Hl. apply Hl. by apply list_elem_of_In.
Qed.

Lemma under_below n c t : fits (S (S n)) t -> In c (below t) -> under n c.
Proof. intros [Hc Hd] Hi. split; [by eapply clean_below|]. pose proof (depth_below c t Hi). lia. Qed.

Lemma under_under n c t : under n t -> In c (below t) -> under n c.
Proof. intros [Hc Hd] Hi. split; [by eapply clean_below|]. pose proof (depth_below c t Hi). lia. Qed.

Lemma under_fits n t : under n t -> fits n t.
Proof. intros [Hc Hd]. split; [done|lia]. Qed.

Lemma fits_more n m t : fits n t -> (n <= m)%nat -> fits m t.
Proof. intros [Hc Hd] Hm. split; [done|lia]. Qed.

Lemma not_clean_init a : ~ clean (tree_ArrayInit a).
Proof. intros Hc. unfold clean in Hc. destruct a. cbn [tree_ArrayInit preorder] in Hc. apply Forall_cons in Hc as [Hc _]. by eapply Hc. Qed.

(** A node below another. *)
Ltac below := cbn; repeat first [rewrite in_app_iff | progress cbn [In]]; auto 20 using in_map.

(** ** The walks *)

(** What attribution knows of a nested or local class: its declaration. *)
Class Declared `{Attribution} : Prop := {
  nested_declared c d c' : nestedOf c d = Some c' -> DeclOf c' = Some d;
  local_declared d c : LocalClass d = Some c -> DeclOf c = Some d }.

Definition total_on {A} (walk : state -> Flow A) (Q : (nat -> Prop) -> A -> flow -> Prop) : Prop :=
  forall O st f, ready O f -> owned O st f -> ends O (walk st) (Q O) f.

Definition is_short (x : Expr) : Prop := match x with BinaryExpr _ _ Op _ _ _ => short_circuit Op = true | _ => False end.

Class Good_walks `{Attribution} (W : Walks) (n : nat) : Prop := {
  good_expr x : fits n (tree_Expr x) -> total_on (rExpr x) (fun _ => anything);
  good_condition x : fits n (tree_Expr x) \/ (is_short x /\ fits (S n) (tree_Expr x)) -> total_on (rCondition x) a_cond;
  good_stmt s : fits n (tree_Stmt s) -> total_on (rStmt s) (fun _ => anything);
  good_block b : fits (S n) (tree_Block b) -> total_on (rBlock b) (fun _ => anything);
  good_members o c l : (1 <= n)%nat -> (forall d, In d l -> under n (tree_Decl d)) -> forall O f, ready O f -> ends O (rMembers o c l) anything f;
  good_class c d : DeclOf c = Some d -> fits n (tree_Decl d) -> forall O f, ready O f -> ends O (rClass c) anything f }.

Section Walk.
Context `{Attribution, Runtime} (W : Walks) (n : nat) `{!Good_walks W n}.

(** What a node below the one at work may be given to. *)
Lemma under_expr x O st f : under n (tree_Expr x) -> ready O f -> owned O st f -> ends O (rExpr x st) anything f.
Proof. intros Hu. apply good_expr, under_fits, Hu. Qed.
Lemma under_condition x O st f : under n (tree_Expr x) -> ready O f -> owned O st f -> ends O (rCondition x st) (a_cond O) f.
Proof. intros Hu. apply good_condition. left. apply under_fits, Hu. Qed.
Lemma under_stmt s O st f : under n (tree_Stmt s) -> ready O f -> owned O st f -> ends O (rStmt s st) anything f.
Proof. intros Hu. apply good_stmt, under_fits, Hu. Qed.
Lemma under_block b O st f : under n (tree_Block b) -> ready O f -> owned O st f -> ends O (rBlock b st) anything f.
Proof. intros Hu. apply good_block. eapply fits_more; [apply under_fits, Hu|lia]. Qed.
Lemma under_node x O st f : under n (tree_Node x) -> ready O f -> owned O st f -> ends O (initializer x st) anything f.
Proof. intros Hu Hr Hs. destruct x; cbn [initializer]; try by apply ends_ret. by apply under_expr. Qed.

Lemma ends_initializer x O st f : under n (tree_Node x) -> ready O f -> owned O st f -> ends O (initializer x st) anything f.
Proof. apply under_node. Qed.
End Walk.

(** ** Loops *)

Lemma ends_within {A} (O O' : nat -> Prop) (m : Flow A) Q f :
  (forall p, O' p -> O p) -> ends O' m Q f -> ends O m (fun a f' => after O' f f' /\ Q a f') f.
Proof.
  intros HO (a & f' & E & G & Hq). exists a, f'. split; [done|]. split; [|done]. eapply grows_weaken; [|exact G]. intros p _. apply HO.
Qed.

Lemma ready_since f : good (store_ f) -> ready (since (store_ f)) f.
Proof. intros Hg. split; [|done]. intros p. done. Qed.

Lemma owned_valid O s f : owned O s f -> valid (da s) (store_ f) /\ valid (du s) (store_ f).
Proof. intros [[Ha _] [Hu _]]. done. Qed.

Lemma old_words s f f' : valid s (store_ f) -> after (since (store_ f)) f f' -> words (store_ f') s = words (store_ f) s.
Proof.
  intros Hv Ha. eapply words_grows; [done| |exact Ha]. intros Hc Hp. destruct Hv as [_ Hv]. destruct (Hv Hc) as (a & Ea & _).
  apply lookup_lt_Some in Ea. unfold since in Hp. lia.
Qed.

(** A walk of a body on a copy of the entry leaves the entry as it was. *)
Lemma ends_body {A} (body : state -> Flow A) entry f O (k : state -> Flow state) Q :
  total_on body (fun _ => anything) -> ready O f -> owned O entry f ->
  (forall b f', after O f f' -> ready O f' -> owned O entry f' -> owned O b f' -> size (store_ f') entry = size (store_ f) entry ->
     ends O (k b) Q f') ->
  ends O (b ← on_store (clone_state entry); _ ← body b; k b) Q f.
Proof.
  intros Hb Hr He Hk. pose proof Hr as [Hbase Hgood].
  assert (HO : forall p, since (store_ f) p -> O p) by (intros p; apply Hbase).
  eapply ends_bind; [eapply ends_within; [exact HO|]; apply ends_clone, ready_since, Hgood|]. intros b f1 G1 [G1' Hs]. cbv beta in *.
  assert (Hr1 : ready (since (store_ f)) f1) by (eapply ready_after; [apply ready_since, Hgood|exact G1']).
  eapply ends_bind; [eapply ends_within; [exact HO|]; apply Hb; [exact Hr1|exact Hs]|]. intros x f2 G2 [G2' _].
  assert (G : after O f f2) by (etransitivity; [exact G1|exact G2]).
  assert (G' : after (since (store_ f)) f f2) by (etransitivity; [exact G1'|exact G2']).
  destruct (owned_valid _ _ _ He) as [Va Vu].
  apply Hk; [done|eapply ready_after; eassumption|eapply owned_after; eassumption| |].
  - eapply owned_after; [|exact G2]. destruct Hs as [Ha Hu]. split; eapply own_weaken; eassumption.
  - unfold size. by rewrite (old_words _ _ _ Va G'), (old_words _ _ _ Vu G').
Qed.

Lemma ends_settle body k entry f O :
  total_on body (fun _ => anything) -> ready O f -> owned O entry f -> (size (store_ f) entry < k)%nat -> ends O (settle k body entry) (a_state O) f.
Proof.
  intros Hb. revert entry f. induction k as [|k IH]; intros entry f Hr He Hk; [lia|]. cbn [settle].
  apply ends_body; [done..|]. intros b f1 G1 Hr1 He1 Hb1 Es.
  destruct (owned_valid _ _ _ He1) as [Va Vu]. destruct (owned_valid _ _ _ Hb1) as [Wa Wu]. pose proof Hr1 as [Hbase Hgood].
  pose proof (join_narrows entry b (store_ f1) Hgood Va Vu Wa Wu) as Hn. pose proof (join_OpS O entry b (store_ f1) Hbase) as [Gj Oj].
  eapply (ends_bind _ _ _ (fun next f' => owned O next f' /\ (equal_state next entry (store_ f') = true \/ (size (store_ f') next < size (store_ f1) entry)%nat))).
  { apply ends_store. destruct (join entry b (store_ f1)) as [next h]. done. }
  intros next f2 G2 [Ho Hcase]. carry G2.
  eapply (ends_bind _ _ _ (fun same f' => f' = f2 /\ same = equal_state next entry (store_ f2))); [by apply ends_get|].
  intros same f3 G3 [-> ->]. destruct (equal_state next entry (store_ f2)) eqn:E; [by apply ends_ret|].
  apply IH; [done..|]. destruct Hcase as [|Hlt]; [done|]. lia.
Qed.

Lemma ends_settled body entry f O :
  total_on body (fun _ => anything) -> ready O f -> owned O entry f -> ends O (settled body entry) (a_state O) f.
Proof.
  intros Hb Hr He. apply ends_settle; [done..|]. destruct (owned_valid _ _ _ He) as [Va Vu]. pose proof (size_le (store_ f) entry Va Vu). lia.
Qed.
