(* ===== verification/FlowEnds.v ===== *)
(** * The flow analysis ends

    Every method of the walk ends within the bound, by the logic of [FlowRun];
    and no bound is enough for an array initializer. *)
From S2P Require Import Prelude.
From S2P Require Import Token SourceFile Ast AstWalk Types Fold Bits BitsSets FlowState Flow FlowRun.

(** ** The methods *)

Ltac fit :=
  first [ assumption
        | match goal with
          | X : fits (S (S ?n)) ?t |- under ?n ?c => apply (under_below n c t X); solve [below]
          | X : under ?n ?t |- under ?n ?c => apply (under_under n c t X); solve [below]
          end ].
#[export] Hint Extern 2 (under _ _) => fit : flow.
#[export] Hint Extern 1 (ready _ _) => assumption : flow.

Section Bodies.
Context `{Attribution, Runtime} (W : Walks) (n : nat) `{!Good_walks W n} `{!Declared}.

#[local] Hint Resolve under_expr under_condition under_stmt under_block ends_initializer ends_read ends_write ends_patternBindings
  ends_merge_ends ends_newState ends_fullyAssigned : flow.

Lemma ends_list {A} O (g : A -> Flow unit) l f : ready O f ->
  (forall a f', In a l -> after O f f' -> ready O f' -> ends O (g a) anything f') -> ends O (each g l) anything f.
Proof. apply ends_each. Qed.

(** A list of walks that share a state. *)
Ltac along_list := apply ends_each; [assumption|]; let a := fresh "a" in let f := fresh "f" in let Hi := fresh "Hi" in let G := fresh "G" in
  let R := fresh "R" in intros a f Hi G R; carry G.

Lemma ends_exprs l O st f : (forall x, In x l -> under n (tree_Expr x)) -> ready O f -> owned O st f -> ends O (each (fun a => rExpr a st) l) anything f.
Proof. intros Hl Hr Hs. along_list. eapply under_expr; eauto. Qed.

Lemma ends_maybe_expr o O st f : (forall x, o = Some x -> under n (tree_Expr x)) -> ready O f -> owned O st f -> ends O (maybe (fun a => rExpr a st) o) anything f.
Proof. intros Ho Hr Hs. apply ends_maybe. intros x ->. eapply under_expr; eauto. Qed.

Lemma ends_assignExpr LHS Op RHS O st f : under n (tree_Expr LHS) -> under n (tree_Expr RHS) -> ready O f -> owned O st f ->
  ends O (assignExpr LHS Op RHS st) anything f.
Proof.
  intros Hl Hr'. revert f. induction LHS; intros f Hr Hs; cbn [assignExpr];
    (eapply (ends_bind _ _ _ anything); [destruct (Op =? ASSIGN); [by apply ends_ret|by apply ends_read]|]); intros u f1 G1 _; carry G1;
    repeat step.
Qed.

Lemma ends_switchLabel l O st f : under n (tree_SwitchLabel l) -> ready O f -> owned O st f -> ends O (switchLabel l st) anything f.
Proof.
  intros Hu Hr Hs. destruct l as [sp kw Cases d dp wp Guard]. cbn [switchLabel].
  eapply (ends_bind _ _ _ anything).
  - along_list. assert (Ha : under n (tree_Node a)) by fit. destruct a; repeat step.
  - intros _ f1 G1 _. carry G1. apply ends_maybe_expr; [|done..]. intros x ->. eauto with flow.
Qed.

Lemma ends_rule_body b O st f : under n (tree_Node b) -> ready O f -> owned O st f -> ends O (rule_body b st) anything f.
Proof.
  intros Hu Hr Hs. destruct b; cbn [rule_body]; repeat step.
Qed.

Lemma ends_switch_rule r O st l f : under n (tree_SwitchRule r) -> ready O f -> owned O st f -> states O l f ->
  ends O (switch_rule st l r) (states O) f.
Proof.
  intros Hu Hr Hs Hl. destruct r as [sp Label ar Body]. cbn [switch_rule]. step.
  eapply ends_bind; [apply ends_switchLabel; eauto with flow|]. intros u f1 G1 _. carry G1.
  eapply ends_bind; [apply ends_rule_body; eauto with flow|]. intros ok f2 G2 _. carry G2.
  apply ends_ret. destruct ok; [|done]. by apply states_snoc.
Qed.

Lemma ends_arm_stmts l O st f : (forall s, In s l -> under n (tree_Stmt s)) -> ready O f -> owned O st f -> ends O (arm_stmts l st) anything f.
Proof.
  revert f. induction l as [|g l IH]; intros f Hl Hr Hs; cbn [arm_stmts]; [by apply ends_ret|].
  eapply ends_bind; [eapply under_stmt; eauto; apply Hl; by left|]. intros a f1 G1 _. carry G1.
  destruct a; [|by apply ends_ret]. apply IH; [|done..]. intros s Hi. apply Hl. by right.
Qed.

Lemma ends_group_stmts l O st alive f : (forall s, In s l -> under n (tree_Stmt s)) -> ready O f -> owned O st f ->
  ends O (group_stmts l st alive) anything f.
Proof.
  revert f alive. induction l as [|g l IH]; intros f alive Hl Hr Hs; cbn [group_stmts]; [by apply ends_ret|]. destruct alive; [|repeat step].
  eapply ends_bind; [eapply under_stmt; eauto; apply Hl; by left|]. intros a f1 G1 _. carry G1.
  apply IH; [|done..]. intros s Hi. apply Hl. by right.
Qed.

Lemma ends_labels l O st f : (forall s, In s l -> under n (tree_SwitchLabel s)) -> ready O f -> owned O st f ->
  ends O (each (fun x => switchLabel x st) l) anything f.
Proof. intros Hl Hr Hs. along_list. apply ends_switchLabel; auto. Qed.

(** The states of the arms, along the rules and the groups of a block. *)
Lemma ends_rules Rules O st f : (forall r, In r Rules -> under n (tree_SwitchRule r)) -> ready O f -> owned O st f ->
  ends O (along (switch_rule st) [] Rules) (states O) f.
Proof.
  intros Hu Hr Hs. apply (ends_along O (states O)); [intros; eapply states_after; eassumption|done|constructor|].
  intros l r f1 Hi G1 Hr1 Hl. carry G1. apply ends_switch_rule; auto.
Qed.

Lemma ends_switchExpr Tag b O st f : under n (tree_Expr Tag) -> under n (tree_SwitchBlock b) -> ready O f -> owned O st f ->
  ends O (switchExpr Tag b st) anything f.
Proof.
  intros Ht Hu Hr Hs. destruct b as [sp lb Rules Groups Labels rb]. cbn [switchExpr]. step.
  eapply ends_bind; [apply ends_rules; [intros r Hi; fit|done..]|]. intros l f1 G1 Hl. cbv beta in Hl. carry G1.
  eapply ends_bind; [apply (ends_along O (states O)); [intros; eapply states_after; eassumption|done|exact Hl|]|].
  - intros l' g f2 Hi G2 Hr2 Hl'. carry G2. assert (Hg : under n (tree_SwitchGroup g)) by fit. destruct g as [gsp gl gs]. step.
    eapply ends_bind; [apply ends_labels; [intros x Hx; fit|done..]|]. intros u fa Ga _. carry Ga.
    eapply ends_bind; [apply ends_arm_stmts; [intros x Hx; fit|done..]|]. intros ok fb Gb _. carry Gb.
    apply ends_ret. destruct ok; [|done]. by apply states_snoc.
  - intros l' f2 G2 _. carry G2. by apply ends_merge_ends.
Qed.

Lemma ends_lambda Params Body O st f : under n (tree_Node Body) -> ready O f -> ends O (lambda Params Body st) anything f.
Proof.
  intros Hu Hr. unfold lambda. step. apply ends_in_ctx; [|done]. intros g Eg. assert (Hg : ready O g) by (unfold ready; by rewrite Eg).
  clear dependent f. step. step. destruct Body; repeat step.
Qed.

Lemma depth_pos t : (1 <= depth t)%nat.
Proof. destruct t. cbn. lia. Qed.

Lemma room_fits t : fits (S (S n)) t -> (1 <= n)%nat.
Proof. intros [_ Hd]. pose proof (depth_pos t). lia. Qed.

Lemma room_under t : under n t -> (1 <= n)%nat.
Proof. intros [_ Hd]. pose proof (depth_pos t). lia. Qed.

Ltac room := first [eapply room_fits; eassumption | eapply room_under; eassumption].

Ltac exprs := first [ apply ends_exprs; [intros ? ?; fit|assumption..] | apply ends_maybe_expr; [intros ? ->; fit|assumption..] ].

Lemma total_expr x : fits (S n) (tree_Expr x) -> total_on (expr x) (fun _ => anything).
Proof.
  intros Hx O st f Hr Hs. assert (Hf : fits (S (S n)) (tree_Expr x)) by (eapply fits_more; [exact Hx|lia]).
  destruct x; cbn [expr]; try solve [repeat step].
  - eapply (ends_bind _ _ _ anything); [exprs|]. intros _ f1 G1 _. carry G1.
    eapply (ends_bind _ _ _ anything); [exprs|]. intros _ f2 G2 _. carry G2. step.
  - eapply (ends_bind _ _ _ anything); [exprs|]. intros _ f1 G1 _. carry G1.
    eapply (ends_bind _ _ _ anything); [exprs|]. intros _ f2 G2 _. carry G2. step. step.
    apply good_members; [room|intros d Hd; fit|done].
  - eapply (ends_bind _ _ _ anything).
    + along_list. assert (Ha : under n (tree_DimExpr a)) by fit. destruct a. step.
    + intros _ f1 G1 _. carry G1. apply ends_maybe. intros a ->. destruct (not_clean_init a). eapply clean_below; [exact (proj1 Hf)|below].
  - destruct (not_clean_init a). exact (proj1 Hf).
  - destruct (short_circuit Op) eqn:E; [|repeat step].
    eapply ends_bind; [apply good_condition; [right; split; [exact E|exact Hx]|done..]|]. intros c f1 G1 _. by apply ends_ret.
  - step. apply ends_maybe. intros p ->. eauto with flow.
  - apply ends_assignExpr; eauto with flow.
  - apply ends_lambda; eauto with flow.
  - apply ends_switchExpr; eauto with flow.
Qed.

Lemma total_plain_condition x : fits (S n) (tree_Expr x) -> total_on (plain_condition x) a_cond.
Proof.
  intros Hx O st f Hr Hs. unfold plain_condition.
  eapply ends_bind; [by apply total_expr|]. intros _ f1 G1 _. carry G1. step.
  destruct (isConstTrue x); [|destruct (isConstFalse x)]; repeat step; split; eauto with flow.
Qed.

Lemma total_condition x : fits (S n) (tree_Expr x) \/ (is_short x /\ fits (S (S n)) (tree_Expr x)) -> total_on (condition x) a_cond.
Proof.
  intros Hx O st f Hr Hs.
  assert (Hf : fits (S (S n)) (tree_Expr x)) by (destruct Hx as [Hx|[_ Hx]]; [eapply fits_more; [exact Hx|lia]|exact Hx]).
  assert (Hp : ~ is_short x -> ends O (plain_condition x st) (a_cond O) f) by (intros Hn; destruct Hx as [Hx|[Hi _]]; [by apply total_plain_condition|done]).
  destruct x; cbn [condition]; try (apply Hp; exact (fun y => y)); try solve [repeat step; split; eauto with flow].
  - destruct (Op =? LAND) eqn:Ea; [|destruct (Op =? LOR) eqn:Eo].
    + repeat step. split; eauto with flow.
    + repeat step. split; eauto with flow.
    + apply Hp. cbn. unfold short_circuit. rewrite Ea, Eo. done.
  - step. step. eapply (ends_bind _ _ _ anything).
    + apply ends_maybe. intros p ->. eauto with flow.
    + intros _ g1 G1 _. carry G1. by apply ends_ret.
Qed.

(** ** Statements *)

Lemma ends_block_stmts l O st alive f : (forall s, In s l -> under n (tree_Stmt s)) -> ready O f -> owned O st f ->
  ends O (block_stmts l st alive) anything f.
Proof.
  revert f alive. induction l as [|g l IH]; intros f alive Hl Hr Hs; cbn [block_stmts]; [by apply ends_ret|].
  assert (Hg : under n (tree_Stmt g)) by (apply Hl; by left).
  assert (Hi : forall s, In s l -> under n (tree_Stmt s)) by (intros s Hi; apply Hl; by right).
  destruct alive; repeat step; by apply IH.
Qed.

Lemma total_block b : fits (S (S n)) (tree_Block b) -> total_on (block b) (fun _ => anything).
Proof.
  intros Hf O st f Hr Hs. destruct b as [sp lb Stmts rb]. cbn [block]. apply ends_block_stmts; [|done..]. intros s Hi. fit.
Qed.

Lemma ends_localVar d O st f : under n (tree_VarDeclarator d) -> ready O f -> owned O st f -> ends O (localVar st d) (a_state O) f.
Proof.
  intros Hu Hr Hs. unfold localVar. destruct d as [sp name Dims as_ Init]. destruct (UseVar _) as [v|]; [|by apply ends_ret].
  step. step. destruct Init as [init|].
  - step. step. step. by apply ends_ret.
  - destruct Q0 as [Ha Hu0]. change (a_slice O (da a0) f1) in Ha. change (a_slice O (du a0) f1) in Hu0.
    eapply ends_bind; [by apply ends_clear|]. intros _ f2 G2 _. carry G2.
    eapply ends_bind; [by apply ends_set|]. intros u f3 G3 Hx. carry G3. apply ends_ret. by split.
Qed.

Lemma ends_localVars d O st f : under n (tree_VarDecl d) -> ready O f -> owned O st f -> ends O (localVars d st) anything f.
Proof.
  intros Hu Hr Hs. destruct d as [sp m t Names semi]. cbn [localVars].
  eapply ends_bind; [apply (ends_along O (a_state O)); [intros; eapply owned_after; eassumption|done|exact Hs|]|].
  - intros s d f1 Hi G Hr1 Hs1. apply ends_localVar; [fit|done..].
  - intros s f1 _ _. by apply ends_ret.
Qed.

Lemma members_below d l : members_of d = Some l -> forall m, In m l -> In (tree_Decl m) (below (tree_Decl d)).
Proof. destruct d; try done; intros [= <-] m Hm; below. Qed.

Lemma ends_declStmt d O st f : under n (tree_Decl d) -> ready O f -> owned O st f -> ends O (declStmt d st) anything f.
Proof.
  intros Hu Hr Hs. unfold declStmt.
  assert (Hc : ends O (maybe classIn (LocalClass d)) anything f).
  { apply ends_maybe. intros c Ec. unfold classIn. rewrite (local_declared d c Ec).
    destruct (FromSource c); [|by apply ends_ret]. cbn [mbind option_bind]. destruct (members_of d) as [l|] eqn:El; [|by apply ends_ret].
    apply good_members; [room| |done]. intros m Hm. eapply under_under; [exact Hu|by eapply members_below]. }
  eapply (ends_bind _ _ _ anything); [|intros _ f1 _ _; by apply ends_ret].
  destruct d; try exact Hc; try by apply ends_ret. by apply ends_localVars.
Qed.

#[local] Hint Resolve ends_localVars ends_settled : flow.

Lemma ends_stmt_ s O st f : under n (tree_Stmt s) -> ready O f -> owned O st f -> ends O (stmt_ s st) anything f.
Proof. intros Hu Hr Hs. unfold stmt_. repeat step. Qed.

Lemma total_stmt_ s : under n (tree_Stmt s) -> total_on (stmt_ s) (fun _ => anything).
Proof. intros Hu O st f. by apply ends_stmt_. Qed.
#[local] Hint Resolve total_stmt_ : flow.

Lemma ends_ifStmt Cond Then Else O st f : under n (tree_Expr Cond) -> under n (tree_Stmt Then) -> (forall s, Else = Some s -> under n (tree_Stmt s)) ->
  ready O f -> owned O st f -> ends O (ifStmt Cond Then Else st) anything f.
Proof.
  intros Hc Ht He Hr Hs. unfold ifStmt. step. step. destruct Else as [e|]; [specialize (He e eq_refl)|]; repeat step.
Qed.

Lemma ends_whileStmt Cond Body O st f : under n (tree_Expr Cond) -> under n (tree_Stmt Body) -> ready O f -> owned O st f ->
  ends O (whileStmt Cond Body st) anything f.
Proof. intros Hc Hb Hr Hs. unfold whileStmt. repeat step. Qed.

Lemma ends_doStmt Body Cond O st f : under n (tree_Expr Cond) -> under n (tree_Stmt Body) -> ready O f -> owned O st f ->
  ends O (doStmt Body Cond st) anything f.
Proof. intros Hc Hb Hr Hs. unfold doStmt. repeat step. Qed.

Lemma ends_forStmt Init Cond Post Body O st f : (forall s, In s Init -> under n (tree_Stmt s)) -> (forall x, Cond = Some x -> under n (tree_Expr x)) ->
  (forall x, In x Post -> under n (tree_Expr x)) -> under n (tree_Stmt Body) -> ready O f -> owned O st f ->
  ends O (forStmt Init Cond Post Body st) anything f.
Proof.
  intros Hi Hc Hp Hb Hr Hs. unfold forStmt.
  assert (Ht : total_on (fun b => _ ← stmt_ Body b; each (fun p => rExpr p b) Post) (fun _ => anything)).
  { intros O' b g Hg Hb'. eapply ends_bind; [by apply ends_stmt_|]. intros _ f1 G1 _. carry G1. by apply ends_exprs. }
  eapply (ends_bind _ _ _ anything). { along_list. apply ends_stmt_; auto. }
  intros _ f1 G1 _. carry G1. cbv zeta.
  eapply (ends_bind _ _ _ (a_cond O)). { destruct Cond as [x|]; [specialize (Hc x eq_refl)|]; eauto with flow. }
  intros c f2 G2 Q. carry G2. repeat step.
Qed.

Lemma ends_rangeStmt d X Body O st f : under n (tree_VarDecl d) -> under n (tree_Expr X) -> under n (tree_Stmt Body) -> ready O f -> owned O st f ->
  ends O (rangeStmt d X Body st) anything f.
Proof. intros Hd Hx Hb Hr Hs. unfold rangeStmt. repeat step. Qed.

Lemma ends_switchStmt Tag b O st f : under n (tree_Expr Tag) -> under n (tree_SwitchBlock b) -> ready O f -> owned O st f ->
  ends O (switchStmt Tag b st) anything f.
Proof.
  intros Ht Hu Hr Hs. destruct b as [sp lb Rules Groups Labels rb]. cbn [switchStmt]. step.
  eapply ends_bind; [apply ends_rules; [intros r Hi; fit|done..]|]. intros l f1 G1 Hl. cbv beta in Hl. carry G1.
  eapply ends_bind; [apply (ends_along O (states O)); [intros; eapply states_after; eassumption|done|exact Hl|]|].
  - intros l' g f2 Hi G2 Hr2 Hl'. carry G2. assert (Hg : under n (tree_SwitchGroup g)) by fit. destruct g as [gsp gl gs]. cbn [switch_group].
    eapply ends_bind; [apply ends_labels; [intros x Hx; fit|done..]|]. intros u fa Ga _. carry Ga. step.
    eapply ends_bind; [apply ends_group_stmts; [intros x Hx; fit|done..]|]. intros ok fb Gb _. carry Gb.
    apply ends_ret. destruct ok; [by apply states_snoc|done].
  - intros l' f2 G2 _. carry G2. repeat step.
Qed.

Lemma ends_resources l O st f : (forall r, In r l -> under n (tree_Resource r)) -> ready O f -> owned O st f -> ends O (each (resource st) l) anything f.
Proof.
  intros Hl Hr Hs. along_list. assert (Ha : under n (tree_Resource a)) by auto. destruct a as [sp [d|] [x|]]; cbn [resource]; repeat step.
Qed.

Lemma ends_catch_clause l c O st ends_ f : under n (tree_CatchClause c) -> ready O f -> owned O st f -> states O ends_ f ->
  ends O (catch_clause l st ends_ c) (states O) f.
Proof.
  intros Hu Hr Hs Hl. destruct c as [sp cp Mods Types name Body]. cbn [catch_clause]. step.
  eapply (ends_bind _ _ _ (a_state O)). { destruct (UseVar _); [|by apply ends_ret]. step. step. eauto with flow. }
  intros cs f1 G1 Hcs. unfold a_state in Hcs. carry G1. step. step. apply ends_ret.
  match goal with |- states _ (if ?b then _ else _) _ => destruct b end; [by apply states_snoc|done].
Qed.

Lemma ends_merge_try st bs_ alive l O f : ready O f -> owned O st f -> ends O (merge_try st bs_ alive l) anything f.
Proof.
  intros Hr Hs. unfold merge_try.
  assert (Hm : forall first rest, ends O (m ← along (fun m e => on_store (join m e)) first rest;
    if alive || negb (bool_decide (length l = 0%nat)) then on_store_ (copyInto st m) else mret tt) anything f).
  { intros first rest. eapply ends_bind; [apply (ends_along O (fun _ _ => True)); [done..|]|].
    - intros s a g _ _ Hg _. eapply ends_impl; [|by apply ends_join]. done.
    - intros m g G _. carry G. repeat step. }
  destruct alive; [apply Hm|]. destruct l; apply Hm.
Qed.

Lemma ends_tryStmt Resources Body Catches Finally O st f :
  (forall r, In r Resources -> under n (tree_Resource r)) -> under n (tree_Block Body) -> (forall c, In c Catches -> under n (tree_CatchClause c)) ->
  (forall b, Finally = Some b -> under n (tree_Block b)) -> ready O f -> owned O st f -> ends O (tryStmt Resources Body Catches Finally st) anything f.
Proof.
  intros Hrs Hb Hc Hf Hr Hs. unfold tryStmt.
  eapply ends_bind; [by apply ends_resources|]. intros _ f1 G1 _. carry G1. cbv zeta. step. step. step. step. step. step. step. step.
  eapply ends_bind; [apply (ends_along O (states O)); [intros; eapply states_after; eassumption|done|constructor|]|].
  - intros l c g Hi G' Hg Hl. carry G'. apply ends_catch_clause; auto.
  - intros l g G' _. carry G'. step. destruct Finally as [b|]; [specialize (Hf b eq_refl); repeat step|].
    eapply ends_bind; [by apply ends_merge_try|]. intros _ g' _ _. by apply ends_ret.
Qed.

Lemma total_stmt s : fits (S n) (tree_Stmt s) -> total_on (stmt s) (fun _ => anything).
Proof.
  intros Hx O st f Hr Hs. assert (Hf : fits (S (S n)) (tree_Stmt s)) by (eapply fits_more; [exact Hx|lia]).
  destruct s; cbn [stmt]; try solve [repeat step].
  - by apply good_block.
  - apply ends_declStmt; eauto with flow.
  - apply ends_ifStmt; eauto with flow. intros x ->. fit.
  - apply ends_whileStmt; eauto with flow.
  - apply ends_doStmt; eauto with flow.
  - apply ends_forStmt; eauto with flow; intros; subst; fit.
  - apply ends_rangeStmt; eauto with flow.
  - apply ends_switchStmt; eauto with flow.
  - eapply (ends_bind _ _ _ anything); [exprs|]. intros _ f1 G1 _. carry G1. repeat step.
  - step. eapply (ends_bind _ _ _ anything); [|intros _ f1 _ _; by apply ends_ret].
    apply ends_maybe. intros x ->. eapply under_expr; eauto with flow.
  - apply ends_tryStmt; eauto with flow; intros; subst; fit.
  - eapply (ends_bind _ _ _ anything); [exprs|]. intros _ f1 G1 _. carry G1. repeat step.
Qed.

(** ** Members and classes *)

Lemma ends_loose o c walk O f : total_on walk (fun _ => anything) -> ready O f -> ends O (loose o c walk) anything f.
Proof.
  intros Hw Hr. unfold loose. apply ends_in_ctx; [|done]. intros g Eg. assert (Hg : ready O g) by (unfold ready; by rewrite Eg).
  clear dependent f. step. eapply ends_bind; [by apply Hw|]. intros _ f1 G1 _. carry G1. step.
Qed.

Lemma total_initializer x : under n (tree_Node x) -> total_on (initializer x) (fun _ => anything).
Proof. intros Hu O st f. by eapply ends_initializer. Qed.

Lemma ends_fieldInit o c d O f : fits (S (S n)) (tree_VarDecl d) -> ready O f -> ends O (fieldInit o c d) anything f.
Proof.
  intros Hu Hr. destruct d as [sp m t Names semi]. cbn [fieldInit]. along_list.
  assert (Ha : under n (tree_VarDeclarator a)) by fit. destruct a as [asp name Dims as_ Init]. apply ends_maybe. intros i ->.
  apply ends_loose; [|done]. apply total_initializer. fit.
Qed.

Lemma ends_method o c d b O f : under n (tree_Block b) -> ready O f -> ends O (method o c d b) anything f.
Proof.
  intros Hu Hr. unfold method. cbv zeta. apply ends_in_ctx; [|done]. intros g Eg. assert (Hg : ready O g) by (unfold ready; by rewrite Eg).
  clear dependent f. step. step. step. destruct b. repeat step.
Qed.

Lemma ends_constructor o c d b O f : under n (tree_Block b) -> ready O f -> ends O (constructor o c d b) anything f.
Proof.
  intros Hu Hr. unfold constructor. cbv zeta. apply ends_in_ctx; [|done]. intros g Eg. assert (Hg : ready O g) by (unfold ready; by rewrite Eg).
  clear dependent f. repeat step.
Qed.

Lemma ends_member o c d O f : under (S n) (tree_Decl d) -> ready O f -> ends O (member o c d) anything f.
Proof.
  intros Hu Hr. assert (Hf : fits (S (S n)) (tree_Decl d)) by (eapply fits_more; [apply under_fits, Hu|lia]).
  assert (Hn : ends O (maybe rClass (nestedOf c d)) anything f).
  { apply ends_maybe. intros c' Ec. eapply good_class; [by eapply nested_declared| |done]. destruct Hu as [Hcl Hd]. split; [done|lia]. }
  destruct d; cbn [member]; try exact Hn; try by apply ends_ret.
  - by apply ends_fieldInit.
  - apply ends_maybe. intros b ->. apply ends_method; [fit|done].
  - apply ends_constructor; [fit|done].
  - apply ends_loose; [|done]. intros O' st g Hg Hs. repeat step.
Qed.

Lemma total_members o c l O f : (forall d, In d l -> under (S n) (tree_Decl d)) -> ready O f -> ends O (members o c l) anything f.
Proof. intros Hl Hr. unfold members. along_list. apply ends_member; auto. Qed.

Lemma ends_enumConstants c l O f : (forall k, In k l -> under n (tree_EnumConstant k)) -> ready O f -> ends O (enumConstants c l) anything f.
Proof.
  intros Hl Hr. unfold enumConstants. along_list. assert (Ha : under n (tree_EnumConstant a)) by auto. destruct a as [sp an name lp Args rp lb Members rb].
  eapply (ends_bind _ _ _ anything).
  - along_list. apply ends_loose; [|done]. intros O' st g Hg Hs. eapply under_expr; eauto with flow.
  - intros _ f1 G1 _. carry G1. apply good_members; [room|intros d Hd; fit|done].
Qed.

Lemma total_class c d O f : DeclOf c = Some d -> fits (S n) (tree_Decl d) -> ready O f -> ends O (class c) anything f.
Proof.
  intros Ed Hx Hr. unfold class. rewrite Ed. destruct (FromSource c); [|by apply ends_ret].
  assert (Hf : fits (S (S n)) (tree_Decl d)) by (eapply fits_more; [exact Hx|lia]).
  assert (Hm : forall l, (forall m, In m l -> In (tree_Decl m) (below (tree_Decl d))) -> forall g, ready O g -> ends O (rMembers false c l) anything g).
  { intros l Hl g Hg. apply good_members; [room| |done]. intros m Hi. eapply under_below; [exact Hf|auto]. }
  assert (Hb : ends O (maybe (rMembers false c) (members_of d)) anything f).
  { apply ends_maybe. intros l El. apply Hm; [by apply members_below|done]. }
  destruct d; try exact Hb.
  - apply Hm; [intros m Hi; below|done].
  - eapply (ends_bind _ _ _ anything); [apply ends_enumConstants; [intros k Hk; fit|done]|]. intros _ f1 G1 _. carry G1.
    apply Hm; [intros m Hi; below|done].
Qed.
End Bodies.

(** ** The knot *)
Section Knot.
Context `{Attribution, Runtime} `{!Declared}.

Lemma no_fit t : ~ fits 0 t.
Proof. intros [_ Hd]. destruct t. cbn in Hd. lia. Qed.

#[export] Instance good_walks n : Good_walks (walks n) n.
Proof.
  induction n as [|n IH].
  - split; try (intros x Hf; by destruct (no_fit _ Hf)).
    + intros x [Hf|[_ [_ Hd]]]; [by destruct (no_fit _ Hf)|]. exfalso. destruct (tree_Expr x). cbn in Hd. lia.
    + intros b [_ Hd]. exfalso. destruct (tree_Block b). cbn in Hd. lia.
    + intros o c l Hl. lia.
    + intros c d _ Hf. by destruct (no_fit _ Hf).
  - split; cbn [walks rExpr rCondition rStmt rBlock rMembers rClass].
    + apply total_expr. done.
    + apply total_condition. done.
    + apply total_stmt; done.
    + apply total_block. done.
    + intros o c l _ Hl O f. by apply (total_members (walks n) n).
    + intros c d Ed Hf O f. by eapply (total_class (walks n) n).
Qed.
End Knot.

(** ** The theorems *)
Section Theorems.
Context `{Attribution, Runtime} `{!Declared}.

(** C28: the analysis of a unit ends: whatever the bodies, the loops on the
    entry states of while, do and for settle, and three nested calls for each
    level of the tree are enough, as long as no body has an array initializer
    and attribution answers, for a class declared in a class or a body, the
    class of that very declaration ([Declared]). *)
Theorem analysis_ends n types :
  (forall c, In c types -> exists d, DeclOf c = Some d /\ clean (tree_Decl d) /\ (3 * depth (tree_Decl d) <= n)%nat) ->
  exists diags f, Analyze n types = Some (diags, f).
Proof.
  intros Ht.
  destruct (ends_each (since []) (class (H1 := walks n)) types newFlow) as ([] & f & E & _).
  - split; [intros p _; unfold since; cbn; lia|constructor].
  - intros c f Hc _ Hr. destruct (Ht c Hc) as (d & Ed & Hcl & Hd). eapply (total_class (walks n) n); [exact Ed|split; [done|lia]|done].
  - exists (SortDiagnostics (Diags f)), f. unfold Analyze. by rewrite E.
Qed.

Lemma array_initializer_spins n a st f : rExpr (Walks := walks n) (EArrayInit a) st f = None.
Proof. revert st f. induction n as [|n IH]; intros st f; [done|]. cbn [walks rExpr expr initializer]. apply IH. Qed.

Lemma each_spins {A} (g : A -> Flow unit) l a : In a l -> (forall f, g a f = None) -> forall f, each g l f = None.
Proof.
  intros Hi Hg. induction l as [|b l IH]; [done|]. intros f. cbn [each]. unfold mbind, Flow_bind. destruct Hi as [->|Hi]; [by rewrite Hg|].
  destruct (g b f) as [[u f']|]; [|done]. by apply IH.
Qed.

Lemma in_ctx_spins {A} b c (body : Flow A) : (forall f, body f = None) -> forall f, in_ctx b c body f = None.
Proof. intros Hb f. unfold in_ctx, mbind, Flow_bind, get, put. by rewrite Hb. Qed.

Definition array_field (d : Decl) : Prop :=
  exists l sp Mods t Names semi isp name Dims p a,
    members_of d = Some l /\ In (DVar (mkVarDecl sp Mods t Names semi)) l /\
    In (mkVarDeclarator isp name Dims p (Some (NExpr (EArrayInit a)))) Names.

(** C29: a field with an array initializer makes the analysis of its class, and
    of the unit, run for ever, however much fuel it is given: an array
    initializer is an expression, and walking it as one walks it as an
    initializer again. *)
Theorem array_field_spins n types c d :
  In c types -> FromSource c = true -> DeclOf c = Some d -> array_field d -> Analyze n types = None.
Proof.
  intros Hc Hs Hd (l & sp & Mods & t & Names & semi & isp & name & Dims & p & a & Hl & Hv & Hn). unfold Analyze.
  assert (Hm : forall m f, rMembers (Walks := walks m) false c l f = None).
  { intros [|m] f; [done|]. cbn [walks rMembers]. eapply each_spins; [exact Hv|]. intros g. cbn [member fieldInit]. eapply each_spins; [exact Hn|].
    intros g'. cbn [maybe]. apply in_ctx_spins. intros g''. unfold mbind, Flow_bind. destruct (newState g'') as [[st f']|]; [|done].
    cbn [initializer]. by rewrite array_initializer_spins. }
  assert (Hx : forall f, class (H1 := walks n) c f = None).
  { intros f. unfold class. rewrite Hs, Hd. destruct d; cbn [members_of] in Hl; simplify_eq; cbn [maybe members_of]; try apply Hm.
    unfold mbind, Flow_bind. destruct (enumConstants _ _ f) as [[u f']|]; [apply Hm|done]. }
  by rewrite (each_spins _ _ _ Hc Hx).
Qed.
End Theorems.
