(* ===== verification/FlowKeeps.v ===== *)
(** * What the flow analysis leaves as it was

    A walk may declare locals, count writes, report and mark; it leaves the
    contexts it found, their methods, the clauses in force and the indices of
    their locals.  Reports are errors, at most one to a position. *)
From S2P Require Import Prelude.
From S2P Require Import Token SourceFile Ast AstWalk Types Fold Bits FlowState Flow.

(** ** The relations *)

Record ctx_kept (c c' : ctx) : Prop := {
  kept_method : method_ c' = method_ c;
  kept_class : class_ c' = class_ c;
  kept_caught : caught c' = caught c;
  kept_declared : declared c' = declared c;
  kept_vars v i : vars c !! v = Some i -> vars c' !! v = Some i;
  kept_indices : (forall v i, vars c !! v = Some i -> 0 <= i) -> forall v i, vars c' !! v = Some i -> 0 <= i;
  kept_blanks i : i ∈ blanks c -> i ∈ blanks c';
  kept_writes v : default 0 (writes c !! v) <= default 0 (writes c' !! v) }.

#[export] Instance ctx_kept_preorder : PreOrder ctx_kept.
Proof.
  split; [intros c; split; auto; intros; reflexivity|].
  intros a b c [] []. split; try congruence; eauto. intros v. etransitivity; eauto.
Qed.

(** A diagnostic as the analysis makes them. *)
Definition sound (d : Diagnostic) : Prop := dSeverity d = SevError /\ (dPos d < 2 ^ 32 - 1 -> 0 <= dPos d -> dPos d < dEnd d).

(** What a run reports, and where it had not reported. *)
Record reports (f f' : flow) : Prop := {
  reports_more : reported f ⊆ reported f';
  reports_new : exists new, Diags f' = Diags f ++ new /\ Forall sound new /\ NoDup (map dPos new) /\
    forall d, In d new -> dPos d ∉ reported f /\ dPos d ∈ reported f' }.

#[export] Instance reports_preorder : PreOrder reports.
Proof.
  split.
  - intros f. split; [done|]. exists []. rewrite app_nil_r. split; [done|]. split; [constructor|]. split; [constructor|]. intros d [].
  - intros a b c [Ma (l & El & Sl & Nl & Pl)] [Mb (l' & El' & Sl' & Nl' & Pl')]. split; [set_solver|]. exists (l ++ l').
    rewrite El', El, app_assoc. split; [done|]. split; [by apply Forall_app|]. split.
    + rewrite map_app. apply NoDup_app. split; [done|]. split; [|done]. intros p Hp Hp'. apply list_elem_of_In, in_map_iff in Hp as (d & <- & Hd).
      apply list_elem_of_In, in_map_iff in Hp' as (d' & Ed & Hd'). destruct (Pl d Hd) as [_ Hr]. destruct (Pl' d' Hd') as [Hn _]. rewrite Ed in Hn. done.
    + intros d Hd. apply in_app_iff in Hd as [Hd|Hd]; [destruct (Pl d Hd)|destruct (Pl' d Hd)]; set_solver.
Qed.

Definition kept (f f' : flow) : Prop := reports f f' /\ Forall2 ctx_kept (cxs f) (cxs f').

#[export] Instance kept_preorder : PreOrder kept.
Proof.
  split; [intros f; split; reflexivity|]. intros a b c [Ra Ca] [Rb Cb]. split; [by etransitivity|by etransitivity].
Qed.

(** ** Runs that keep *)
Class Keeps {A} (m : Flow A) : Prop := keeps_run f a f' : m f = Some (a, f') -> kept f f'.

#[export] Instance keeps_ret {A} (a : A) : Keeps (mret a).
Proof. intros f b f' [= _ <-]. reflexivity. Qed.
#[export] Instance keeps_bind {A B} (m : Flow A) (k : A -> Flow B) : Keeps m -> (forall a, Keeps (k a)) -> Keeps (m ≫= k).
Proof.
  intros Hm Hk f b f'. unfold mbind, Flow_bind. destruct (m f) as [[a g]|] eqn:E; [|done]. intros E'.
  etransitivity; [exact (Hm _ _ _ E)|exact (Hk a _ _ _ E')].
Qed.
#[export] Instance keeps_get {A} (g : flow -> A) : Keeps (get g).
Proof. intros f b f' [= _ <-]. reflexivity. Qed.
#[export] Instance keeps_cx : Keeps cx.
Proof. apply keeps_get. Qed.
#[export] Instance keeps_of_store {A} (g : store -> A) : Keeps (of_store g).
Proof. apply keeps_get. Qed.
#[export] Instance keeps_if {A} (b : bool) (m m' : Flow A) : Keeps m -> Keeps m' -> Keeps (if b then m else m').
Proof. by destruct b. Qed.
#[export] Instance keeps_none {A} : Keeps (fun _ => None : option (A * flow)).
Proof. intros f a f' E. done. Qed.

(** A change that touches neither reports nor contexts. *)
Lemma keeps_put g : (forall f, kept f (g f)) -> Keeps (put g).
Proof. intros Hg f a f' [= _ <-]. apply Hg. Qed.

Lemma kept_same f f' : reported f' = reported f -> Diags f' = Diags f -> Forall2 ctx_kept (cxs f) (cxs f') -> kept f f'.
Proof.
  intros Er Ed Hc. split; [|done]. split; [by rewrite Er|]. exists []. rewrite app_nil_r. split; [done|]. split; [constructor|]. split; [constructor|]. intros d [].
Qed.

#[export] Instance keeps_on_store {A} (g : store -> A * store) : Keeps (on_store g).
Proof. intros f a f'. unfold on_store. destruct (g (store_ f)). intros [= _ <-]. by apply kept_same. Qed.
#[export] Instance keeps_on_store_ g : Keeps (on_store_ g).
Proof. apply keeps_put. intros f. by apply kept_same. Qed.

Lemma keeps_change g : (forall c, ctx_kept c (g c)) -> Keeps (change g).
Proof.
  intros Hg. apply keeps_put. intros f. destruct (cxs f) as [|c l] eqn:E; [reflexivity|]. apply kept_same; [done..|]. rewrite E. cbn. constructor; [apply Hg|reflexivity].
Qed.

#[export] Instance keeps_each {A} (g : A -> Flow unit) l : (forall a, Keeps (g a)) -> Keeps (each g l).
Proof. intros Hg. induction l; cbn [each]; apply _. Qed.
Lemma keeps_each_in {A} (g : A -> Flow unit) l : (forall a, In a l -> Keeps (g a)) -> Keeps (each g l).
Proof.
  intros Hg. induction l as [|a l IH]; cbn [each]; [apply _|]. apply keeps_bind; [apply Hg; by left|]. intros _. apply IH. intros b Hb. apply Hg. by right.
Qed.
#[export] Instance keeps_along {A S} (g : S -> A -> Flow S) s l : (forall s a, Keeps (g s a)) -> Keeps (along g s l).
Proof. intros Hg. revert s. induction l as [|a l IH]; intros s; cbn [along]; apply _. Qed.
#[export] Instance keeps_maybe {A} (g : A -> Flow unit) o : (forall a, Keeps (g a)) -> Keeps (maybe g o).
Proof. intros Hg. destruct o; cbn [maybe]; apply _. Qed.

Ltac keep :=
  repeat first [ progress intros | apply _
               | match goal with |- Keeps (if ?b then _ else _) => destruct b | |- Keeps (match ?x with _ => _ end) => destruct x
                                 | |- Keeps (let _ := _ in _) => cbv zeta end
               | apply keeps_bind | apply keeps_each | apply keeps_along | apply keeps_maybe ].

(** ** Primitives *)

Lemma wrote_kept v c : ctx_kept c (wrote v c).
Proof.
  split; auto. intros w. cbn. destruct (decide (w = v)) as [->|Hn]; [rewrite lookup_insert_eq; cbn; lia|by rewrite lookup_insert_ne by done].
Qed.

Lemma thrown_kept l c : ctx_kept c (set_thrown l c).
Proof. split; auto. intros v. done. Qed.

Lemma declare_kept c v b : ctx_kept c (snd (declare_in c v b)).
Proof.
  unfold declare_in. destruct (vars c !! v) as [i|] eqn:E; [reflexivity|]. split; cbn; auto; [..|intros w; done].
  - intros w i Hw. rewrite lookup_insert_ne; [done|]. intros ->. congruence.
  - intros Hp w i Hw. destruct (decide (w = v)) as [->|Hn]; [rewrite lookup_insert_eq in Hw; injection Hw as <-; lia|].
    rewrite lookup_insert_ne in Hw by done. eauto.
  - intros i Hi. destruct b; set_solver.
Qed.

#[export] Instance keeps_wrote v : Keeps (change (wrote v)).
Proof. apply keeps_change, wrote_kept. Qed.
#[export] Instance keeps_thrown (g : ctx -> list ty) : Keeps (change (fun c => set_thrown (g c) c)).
Proof. apply keeps_change. intros c. apply thrown_kept. Qed.
#[export] Instance keeps_declare v b : Keeps (declare v b).
Proof. unfold declare. keep. apply keeps_change. intros c. apply declare_kept. Qed.

Lemma alter_kept (g : ctx -> ctx) i l : (forall c, ctx_kept c (g c)) -> Forall2 ctx_kept l (alter g i l).
Proof.
  intros Hg. revert i. induction l as [|c l IH]; intros i; [constructor|]. destruct i as [|i]; cbn.
  - constructor; [apply Hg|]. clear. induction l; constructor; [reflexivity|done].
  - constructor; [reflexivity|]. apply IH.
Qed.

Section Primitives.
Context `{Attribution}.

#[export] Instance keeps_errorf lo hi fm l : Keeps (errorf lo hi fm l).
Proof.
  apply keeps_put. intros f. destruct (bool_decide (lo ∈ reported f)) eqn:E; [reflexivity|]. apply bool_decide_eq_false in E.
  split; [|reflexivity]. split; cbn; [set_solver|]. eexists. split; [done|]. split; [|split; [cbn; apply NoDup_singleton|]].
  - constructor; [|constructor]. split; [done|]. cbn. intros Hl Hp. destruct (Z.leb_spec hi lo); [|done].
    unfold u32. rewrite Z.mod_small; lia.
  - intros d [<-|[]]. cbn. split; [done|set_solver].
Qed.
#[export] Instance keeps_error_at sp fm l : Keeps (error_at sp fm l).
Proof. apply keeps_errorf. Qed.
#[export] Instance keeps_unreachable s : Keeps (unreachable s).
Proof. unfold unreachable. apply keeps_bind; [apply _|]. intros _. apply keeps_put. intros f. apply kept_same; reflexivity. Qed.
#[export] Instance keeps_declareParams m : Keeps (declareParams m).
Proof. unfold declareParams. keep. Qed.
#[export] Instance keeps_finish : Keeps finish.
Proof. unfold finish. keep. apply keeps_put. intros f. apply kept_same; reflexivity. Qed.
#[export] Instance keeps_noteCapture v x : Keeps (noteCapture v x).
Proof. unfold noteCapture. keep. apply keeps_put. intros f. apply kept_same; reflexivity. Qed.
#[export] Instance keeps_noteWrite v x : Keeps (noteWrite v x).
Proof.
  unfold noteWrite. keep. apply keeps_put. intros f. apply kept_same; [done..|]. cbn. apply alter_kept, wrote_kept.
Qed.
#[export] Instance keeps_raise t sp : Keeps (raise t sp).
Proof. unfold raise. keep. Qed.
#[export] Instance keeps_throwType x sp : Keeps (throwType x sp).
Proof. unfold throwType. keep. Qed.
#[export] Instance keeps_callThrows n sp : Keeps (callThrows n sp).
Proof. unfold callThrows. keep. Qed.
#[export] Instance keeps_closeThrows r : Keeps (closeThrows r).
Proof. unfold closeThrows. keep. Qed.
#[export] Instance keeps_checkReachableCatch ts l : Keeps (checkReachableCatch ts l).
Proof. unfold checkReachableCatch. keep. Qed.
#[export] Instance keeps_checkBlankFinals sp st : Keeps (checkBlankFinals sp st).
Proof. unfold checkBlankFinals. keep. Qed.
#[export] Instance keeps_newState `{Runtime} : Keeps newState.
Proof. unfold newState. keep. Qed.
#[export] Instance keeps_read `{Runtime} x st : Keeps (read x st).
Proof. unfold read. keep. Qed.
#[export] Instance keeps_write `{Runtime} x st : Keeps (write x st).
Proof. unfold write. keep. Qed.
#[export] Instance keeps_patternBindings `{Runtime} p st : Keeps (patternBindings p st).
Proof.
  induction p as [p IH] using pattern_ind'. destruct p; cbn [patternBindings]; [keep| |keep..]. by apply keeps_each_in.
Qed.
End Primitives.

(** ** Contexts of their own *)

(** A body in a context of its own leaves the others as they were. *)
#[export] Instance keeps_in_ctx {A} b c (body : Flow A) : Keeps body -> Keeps (in_ctx b c body).
Proof.
  intros Hb f a f'. unfold in_ctx, mbind, Flow_bind, get, put. cbn. destruct (body _) as [[x g]|] eqn:E; [|done]. intros [= _ <-].
  destruct (Hb _ _ _ E) as [[Rm Rn] Rc]. cbn in *. split; [split; [exact Rm|exact Rn]|]. cbn. inversion Rc; subst. destruct b; [by cbn|reflexivity].
Qed.

(** ** The methods *)
Class Keeps_walks (W : Walks) : Prop := {
  #[export] keeps_rExpr x st :: Keeps (rExpr x st);
  #[export] keeps_rCondition x st :: Keeps (rCondition x st);
  #[export] keeps_rStmt s st :: Keeps (rStmt s st);
  #[export] keeps_rBlock b st :: Keeps (rBlock b st);
  #[export] keeps_rMembers o c l :: Keeps (rMembers o c l);
  #[export] keeps_rClass c :: Keeps (rClass c) }.

Section Methods.
Context `{Attribution, Runtime} (W : Walks) `{!Keeps_walks W}.

#[export] Instance keeps_initializer x st : Keeps (initializer x st).
Proof. unfold initializer. keep. Qed.
#[export] Instance keeps_fullyAssigned st : Keeps (fullyAssigned st).
Proof. unfold fullyAssigned. keep. Qed.
#[export] Instance keeps_merge_ends st l : Keeps (merge_ends st l).
Proof. unfold merge_ends. keep. Qed.
#[export] Instance keeps_assignExpr LHS Op RHS st : Keeps (assignExpr LHS Op RHS st).
Proof. induction LHS; cbn [assignExpr]; keep. Qed.
#[export] Instance keeps_switchLabel l st : Keeps (switchLabel l st).
Proof. unfold switchLabel. keep. Qed.
#[export] Instance keeps_rule_body b st : Keeps (rule_body b st).
Proof. unfold rule_body. keep. Qed.
#[export] Instance keeps_switch_rule st l r : Keeps (switch_rule st l r).
Proof. unfold switch_rule. keep. Qed.
#[export] Instance keeps_arm_stmts l st : Keeps (arm_stmts l st).
Proof. induction l; cbn [arm_stmts]; keep. Qed.
#[export] Instance keeps_switchExpr Tag b st : Keeps (switchExpr Tag b st).
Proof. unfold switchExpr. keep. Qed.
#[export] Instance keeps_lambda Params Body st : Keeps (lambda Params Body st).
Proof. unfold lambda. apply keeps_bind; [apply _|]. intros c. apply keeps_in_ctx. keep. Qed.
#[export] Instance keeps_expr x st : Keeps (expr x st).
Proof. unfold expr. keep. Qed.
#[export] Instance keeps_condition x st : Keeps (condition x st).
Proof. unfold condition, plain_condition. keep. Qed.
#[export] Instance keeps_block_stmts l st alive : Keeps (block_stmts l st alive).
Proof. revert alive. induction l; intros alive; cbn [block_stmts]; keep. Qed.
#[export] Instance keeps_block b st : Keeps (block b st).
Proof. unfold block. keep. Qed.
#[export] Instance keeps_localVar st d : Keeps (localVar st d).
Proof. unfold localVar. keep. Qed.
#[export] Instance keeps_localVars d st : Keeps (localVars d st).
Proof. unfold localVars. keep. Qed.
#[export] Instance keeps_declStmt d st : Keeps (declStmt d st).
Proof. unfold declStmt, classIn. keep. Qed.
#[export] Instance keeps_ifStmt Cond Then Else st : Keeps (ifStmt Cond Then Else st).
Proof. unfold ifStmt. keep. Qed.
#[export] Instance keeps_settle n body entry : (forall st, Keeps (body st)) -> Keeps (settle n body entry).
Proof. intros Hb. revert entry. induction n; intros entry; cbn [settle]; keep. Qed.
#[export] Instance keeps_settled body entry : (forall st, Keeps (body st)) -> Keeps (settled body entry).
Proof. apply keeps_settle. Qed.
#[export] Instance keeps_stmt_ s st : Keeps (stmt_ s st).
Proof. unfold stmt_. keep. Qed.
#[export] Instance keeps_whileStmt Cond Body st : Keeps (whileStmt Cond Body st).
Proof. unfold whileStmt. keep. Qed.
#[export] Instance keeps_doStmt Body Cond st : Keeps (doStmt Body Cond st).
Proof. unfold doStmt. keep. Qed.
#[export] Instance keeps_forStmt Init Cond Post Body st : Keeps (forStmt Init Cond Post Body st).
Proof. unfold forStmt. keep. Qed.
#[export] Instance keeps_rangeStmt d X Body st : Keeps (rangeStmt d X Body st).
Proof. unfold rangeStmt. keep. Qed.
#[export] Instance keeps_group_stmts l st alive : Keeps (group_stmts l st alive).
Proof. revert alive. induction l; intros alive; cbn [group_stmts]; keep. Qed.
#[export] Instance keeps_switch_group st l g : Keeps (switch_group st l g).
Proof. unfold switch_group. keep. Qed.
#[export] Instance keeps_switchStmt Tag b st : Keeps (switchStmt Tag b st).
Proof. unfold switchStmt. keep. Qed.
#[export] Instance keeps_resource st r : Keeps (resource st r).
Proof. unfold resource. keep. Qed.
#[export] Instance keeps_catch_clause l st e c : Keeps (catch_clause l st e c).
Proof. unfold catch_clause. keep. Qed.
#[export] Instance keeps_merge_try st b a l : Keeps (merge_try st b a l).
Proof. unfold merge_try. keep. Qed.

Lemma flow_bind_inv {A B} (m : Flow A) (k : A -> Flow B) f b f' : (m ≫= k) f = Some (b, f') -> exists a f1, m f = Some (a, f1) /\ k a f1 = Some (b, f').
Proof. unfold mbind, Flow_bind. destruct (m f) as [[a f1]|]; [eauto|done]. Qed.

(** The clauses pushed for the body of a try, and popped after it. *)
Definition push (layer : list ty) (f : flow) : flow :=
  match cxs f with c :: l => set_cxs (set_thrown [] (set_caught (caught c ++ [layer]) c) :: l) f | [] => f end.
Definition pop_ (l : list ty) (f : flow) : flow :=
  match cxs f with c :: r => set_cxs (set_thrown l (set_caught (removelast (caught c)) c) :: r) f | [] => f end.

Lemma kept_pop layer l f g : kept (push layer f) g -> kept f (pop_ l g).
Proof.
  unfold push, pop_. intros [[Rm Rn] Rc]. destruct (cxs f) as [|c r] eqn:E.
  - rewrite E in Rc. destruct (cxs g) eqn:Eg; [|inversion Rc]. split; [split; [exact Rm|exact Rn]|]. rewrite E, Eg. constructor.
  - cbn in Rm, Rn, Rc. inversion Rc as [|c0 c' ? r' [] Hr Ea Eb]; subst. split; [split; [exact Rm|exact Rn]|]. rewrite E. cbn. constructor; [|done].
    cbn in *. split; cbn; auto. rewrite kept_caught0. by rewrite removelast_last.
Qed.

#[export] Instance keeps_tryStmt Resources Body Catches Finally st : Keeps (tryStmt Resources Body Catches Finally st).
Proof.
  unfold tryStmt. apply keeps_bind; [apply _|]. intros _ f b f' E. cbv zeta in E.
  apply flow_bind_inv in E as (c & f0 & [= <- <-] & E). apply flow_bind_inv in E as (u & g & [= _ <-] & E).
  set (layer := concat (map catch_types Catches)) in *.
  change (match cxs f with c :: l => set_cxs (set_thrown [] (set_caught (caught c ++ [layer]) c) :: l) f | [] => f end) with (push layer f) in E.
  apply flow_bind_inv in E as (bs_ & g1 & E1 & E). apply flow_bind_inv in E as (ba & g2 & E2 & E). apply flow_bind_inv in E as (th & g3 & [= <- <-] & E).
  apply flow_bind_inv in E as (u' & g4 & E4 & E). apply flow_bind_inv in E as (cl & g5 & [= <- <-] & E). apply flow_bind_inv in E as (u'' & g6 & [= _ <-] & E).
  assert (K : kept (push layer f) g4).
  { etransitivity; [exact (keeps_run _ _ _ E1)|]. etransitivity; [exact (keeps_run _ _ _ E2)|]. exact (keeps_run _ _ _ E4). }
  etransitivity; [exact (kept_pop _ (thrown (here f)) _ _ K)|].
  unfold pop_. match type of E with ?m ?g = _ => refine (keeps_run (m := m) g b f' E) end. keep.
Qed.

#[export] Instance keeps_stmt s st : Keeps (stmt s st).
Proof. unfold stmt. keep. Qed.
#[export] Instance keeps_loose o c walk : (forall st, Keeps (walk st)) -> Keeps (loose o c walk).
Proof. intros Hw. unfold loose. apply keeps_in_ctx. keep. Qed.
#[export] Instance keeps_method o c d b : Keeps (method o c d b).
Proof. unfold method. cbv zeta. apply keeps_in_ctx. keep. Qed.
#[export] Instance keeps_constructor o c d b : Keeps (constructor o c d b).
Proof. unfold constructor. cbv zeta. apply keeps_in_ctx. keep. Qed.
#[export] Instance keeps_fieldInit o c d : Keeps (fieldInit o c d).
Proof. unfold fieldInit. keep. Qed.
#[export] Instance keeps_member o c d : Keeps (member o c d).
Proof. unfold member. keep. Qed.
#[export] Instance keeps_members o c l : Keeps (members o c l).
Proof. unfold members. keep. Qed.
#[export] Instance keeps_class c : Keeps (class c).
Proof. unfold class, enumConstants. keep. Qed.
End Methods.

#[export] Instance keeps_walks `{Attribution, Runtime} n : Keeps_walks (walks n).
Proof.
  induction n as [|n IH]; [split; intros; apply keeps_none|]. split; intros; cbn [walks rExpr rCondition rStmt rBlock rMembers rClass]; apply _.
Qed.
