(* ===== verification/FlowFacts.v ===== *)
(** * What the flow analysis reports

    Reports and scopes, from [FlowKeeps]; and what becomes of the locals of a
    method without parameters, whose states have no words to write to. *)
From S2P Require Import Prelude.
From S2P Require Import Token SourceFile Ast AstWalk Types Fold Bits FlowState Flow FlowKeeps.

Section Facts.
Context `{Attribution, Runtime}.

(** The analysis reports errors only, each on at least one byte in a file
    below 4 GiB, and no two at the same position. *)
Theorem flow_reports n types diags f :
  Analyze n types = Some (diags, f) -> Forall sound diags /\ NoDup (map dPos diags).
Proof.
  unfold Analyze. destruct (each _ types newFlow) as [[u g]|] eqn:E; [|done]. intros [= <- <-].
  assert (K : kept newFlow g) by (refine (keeps_run _ _ _ E); apply keeps_each; intros c; apply keeps_class, _).
  destruct K as [[_ (new & En & Hs & Hn & _)] _]. cbn in En. rewrite En, (SortDiagnostics_perm new). done.
Qed.

(** C30: a statement, whatever it holds, leaves the contexts it was walked in as
    they were: the method, the clauses of the enclosing tries and of the method,
    and the index of every local; counts of writes only go up. *)
Theorem scopes_kept n s st b f f' :
  rStmt (Walks := walks n) s st f = Some (b, f') ->
  Forall2 (fun c c' =>
    method_ c' = method_ c /\ caught c' = caught c /\ declared c' = declared c /\
    (forall v i, vars c !! v = Some i -> vars c' !! v = Some i) /\ (forall v, default 0 (writes c !! v) <= default 0 (writes c' !! v)))
    (cxs f) (cxs f').
Proof.
  intros E. destruct (keeps_run _ _ _ E) as [_ Hc]. eapply Forall2_impl; [exact Hc|]. intros c c' []. auto 6.
Qed.

(** ** States without words *)

Definition bare (st : state) : Prop := slen (da st) = 0%nat.

(** A local of the context at work. *)
Definition known (v : var) (f : flow) : Prop :=
  exists c l i, cxs f = c :: l /\ vars c !! v = Some i /\ 0 <= i.

Lemma known_kept v f f' : known v f -> kept f f' -> known v f'.
Proof.
  intros (c & l & i & E & Hv & Hi) [_ Hc]. rewrite E in Hc. inversion Hc as [|? c' ? l' Hk _ Ea Eb]; subst. exists c', l', i. eauto using kept_vars.
Qed.

Lemma known_index v f : known v f -> 0 <= indexOf (here f) v.
Proof. intros (c & l & i & E & Hv & Hi). unfold here, indexOf. rewrite E, Hv. done. Qed.

(** The report of a read of a variable that may not have been assigned. *)
Definition uninitialised (v : var) (sp : Span) : Diagnostic :=
  mkDiagnostic (Lo sp) (if Hi sp <=? Lo sp then u32 (Lo sp + 1) else Hi sp) SevError
    (sprintf (bs "variable %s might not have been initialized") [AStr (VarName v)]).

(** It was made in a run from [g] to [f], at a position where only the first
    report is kept. *)
Definition told (v : var) (sp : Span) (g f : flow) : Prop :=
  Lo sp ∈ reported f /\ (Lo sp ∉ reported g -> In (uninitialised v sp) (Diags f)).

Lemma told_kept v sp g f f' : told v sp g f -> kept f f' -> told v sp g f'.
Proof.
  intros [Hr Hd] [[Hm (new & En & _)] _]. split; [by apply Hm|]. intros Hg. rewrite En. apply in_app_iff. left. by apply Hd.
Qed.

Lemma read_bare x v st f f' :
  bare st -> varOf x = Some v -> known v f -> read x st f = Some (tt, f') -> told v (expr_span x) f f'.
Proof.
  intros Hb Hv Hk. unfold read. rewrite Hv. intros E. apply flow_bind_inv in E as (c & f0 & [= <- <-] & E).
  pose proof (known_index v f Hk) as Hi. cbv zeta in E. destruct (Z.ltb_spec (indexOf (here f) v) 0); [lia|].
  apply flow_bind_inv in E as (b & f1 & [= <- <-] & E). unfold has, outside in E. rewrite Hb in E.
  rewrite (proj2 (Z.leb_le (Z.of_nat 0) _)), orb_true_r in E by (apply Z.div_pos; lia).
  apply flow_bind_inv in E as (u & g & [= _ <-] & E). eapply told_kept; [|exact (keeps_run (m := (_ ← on_store (assign st _); mret tt)) _ _ _ E)].
  destruct (bool_decide _) eqn:Er; [apply bool_decide_eq_true in Er; split; [done|]; contradiction|]. split; [cbn; set_solver|].
  intros _. cbn. apply in_app_iff. right. by left.
Qed.

(** ** Methods without parameters *)

(** A context at work whose indices are places in [order]. *)
Definition placed (f : flow) : Prop := exists c l, cxs f = c :: l /\ forall v i, vars c !! v = Some i -> 0 <= i.

Lemma placed_kept f f' : placed f -> kept f f' -> placed f'.
Proof.
  intros (c & l & E & Hp) [_ Hc]. rewrite E in Hc. inversion Hc as [|? c' ? l' Hk _ Ea Eb]; subst. exists c', l'. split; [done|]. by apply (kept_indices _ _ Hk).
Qed.

Lemma declare_known v b i f f' : placed f -> declare v b f = Some (i, f') -> known v f'.
Proof.
  intros (c & l & E & Hp) Hd. unfold declare in Hd. apply flow_bind_inv in Hd as (c0 & f0 & [= <- <-] & Hd).
  apply flow_bind_inv in Hd as (u & f1 & [= _ <-] & Hd). injection Hd as _ <-. unfold here. rewrite !E.
  unfold declare_in. destruct (vars c !! v) as [j|] eqn:Ev; cbn.
  - exists c, l, j. eauto.
  - eexists _, l, _. split; [done|]. cbn. rewrite lookup_insert_eq. split; [done|]. lia.
Qed.

Context (W : Walks) `{!Keeps_walks W}.

Lemma localVar_known st d v s f f' :
  placed f -> UseVar (AVarDeclarator d) = Some v -> localVar st d f = Some (s, f') -> known v f'.
Proof.
  intros Hp Hv. unfold localVar. destruct d as [sp name Dims a Init]. rewrite Hv. intros E.
  apply flow_bind_inv in E as (i & f1 & E1 & E). eapply known_kept; [by eapply declare_known|].
  match type of E with ?m f1 = _ => refine (keeps_run (m := m) f1 s f' E) end. keep.
Qed.

Lemma localVars_known sp m t Names semi st d v u f f' :
  placed f -> In d Names -> UseVar (AVarDeclarator d) = Some v -> localVars (mkVarDecl sp m t Names semi) st f = Some (u, f') -> known v f'.
Proof.
  intros Hp Hd Hv E. cbn [localVars] in E. apply flow_bind_inv in E as (s & f1 & E & [= _ <-]). revert st f Hp E.
  induction Names as [|e Names IH]; [done|]. intros st f Hp E. cbn [along] in E. apply flow_bind_inv in E as (s1 & f2 & E1 & E2).
  destruct Hd as [->|Hd].
  - eapply known_kept; [by eapply localVar_known|]. exact (keeps_run _ _ _ E2).
  - eapply IH; [done| |exact E2]. eapply placed_kept; [exact Hp|]. exact (keeps_run _ _ _ E1).
Qed.
End Facts.

(** A local declared by a statement of a block, at its top. *)
Definition declares `{Attribution} (pre : list Stmt) (v : var) : Prop :=
  exists dsp sp m t Names semi d,
    In (DeclStmt dsp (DVar (mkVarDecl sp m t Names semi))) pre /\ In d Names /\ UseVar (AVarDeclarator d) = Some v.

Section Parameterless.
Context `{Attribution, Runtime}.

Lemma clone_bare st h : bare st -> bare (fst (clone_state st h)).
Proof.
  unfold bare, clone_state. intros E. unfold clone at 1. rewrite E. cbn. destruct (clone (du st) h) as [u h']. done.
Qed.

Lemma newState_bare f st f' : order (here f) = [] -> newState f = Some (st, f') -> bare st.
Proof.
  intros Ho E. unfold newState in E. apply flow_bind_inv in E as (c & f0 & [= <- <-] & E). rewrite Ho in E. cbn in E.
  injection E as <- _. done.
Qed.

Lemma decl_known n st v b f f' dsp sp m t Names semi d :
  placed f -> In d Names -> UseVar (AVarDeclarator d) = Some v ->
  rStmt (Walks := walks n) (DeclStmt dsp (DVar (mkVarDecl sp m t Names semi))) st f = Some (b, f') -> known v f'.
Proof.
  intros Hp Hd Hv E. destruct n as [|n]; [done|]. cbn [walks rStmt stmt declStmt] in E. unfold declStmt in E.
  apply flow_bind_inv in E as (u & f1 & E & [= _ <-]). eapply (localVars_known (walks n)); eauto.
Qed.

(** The first statement of a list is walked on a state that is bare when the
    state of the list is, and then the others. *)
Lemma block_step n s l st alive b f f' :
  bare st -> block_stmts (H1 := walks n) (s :: l) st alive f = Some (b, f') ->
  exists st' b1 f0 f1 alive', bare st' /\ kept f f0 /\ rStmt (Walks := walks n) s st' f0 = Some (b1, f1) /\ kept f0 f1 /\
    block_stmts (H1 := walks n) l st alive' f1 = Some (b, f') /\ kept f1 f'.
Proof.
  intros Hb E. cbn [block_stmts] in E. destruct alive.
  - apply flow_bind_inv in E as (a & f1 & E1 & E). exists st, a, f, f1, a.
    split; [done|]. split; [reflexivity|]. split; [done|]. split; [exact (keeps_run _ _ _ E1)|]. split; [done|exact (keeps_run _ _ _ E)].
  - apply flow_bind_inv in E as (u & f1 & E1 & E). apply flow_bind_inv in E as (dead & f2 & E2 & E). apply flow_bind_inv in E as (a & f3 & E3 & E).
    exists dead, a, f2, f3, false.
    assert (Hd : bare dead). { pose proof (clone_bare st (store_ f1) Hb) as Hc. unfold on_store in E2. destruct (clone_state st (store_ f1)). by injection E2 as <- _. }
    split; [done|]. split; [etransitivity; [exact (keeps_run _ _ _ E1)|exact (keeps_run _ _ _ E2)]|].
    split; [done|]. split; [exact (keeps_run _ _ _ E3)|]. split; [done|exact (keeps_run _ _ _ E)].
Qed.

(** A list of statements, and then one more. *)
Lemma block_stmts_app n l k st alive f :
  block_stmts (H1 := walks n) (l ++ k) st alive f =
  (a ← block_stmts (H1 := walks n) l st alive; block_stmts (H1 := walks n) k st a) f.
Proof.
  unfold mbind, Flow_bind. revert alive f. induction l as [|s l IH]; intros alive f; [done|]. cbn [app block_stmts].
  destruct alive; unfold mbind, Flow_bind.
  - destruct (rStmt s st f) as [[a g]|]; [apply IH|done].
  - destruct (unreachable s f) as [[u g]|]; [|done]. destruct (on_store (clone_state st) g) as [[dead h]|]; [|done].
    destruct (rStmt s dead h) as [[a h']|]; [apply IH|done].
Qed.

Lemma return_bare n sp p i st v b f f' :
  bare st -> UseVar (AIdent i) = Some v -> tracked (VarKindOf v) = true -> known v f ->
  rStmt (Walks := walks n) (ReturnStmt sp p (Some (EIdent i))) st f = Some (b, f') -> told v (iSpan i) f f'.
Proof.
  intros Hb Hv Ht Hk E. destruct n as [|n]; [done|]. cbn [walks rStmt stmt maybe] in E. apply flow_bind_inv in E as (u & f1 & E1 & E2).
  assert (K : kept f1 f') by (match type of E2 with ?m f1 = _ => refine (keeps_run (m := m) f1 _ f' E2) end; keep).
  eapply told_kept; [|exact K]. destruct n as [|n]; [done|]. cbn [walks rExpr expr] in E1. destruct u.
  apply (read_bare (EIdent i) v st f f1); [done| |done|done]. cbn [varOf]. unfold key. cbn. rewrite Hv. cbn. by rewrite Ht.
Qed.

(** The statements before have declared the local. *)
Lemma block_known n pre st v alive b f f' :
  bare st -> placed f -> known v f \/ declares pre v -> block_stmts (H1 := walks n) pre st alive f = Some (b, f') -> known v f'.
Proof.
  intros Hb Hp. revert alive f Hp. induction pre as [|s pre IH]; intros alive f Hp Hk E.
  - destruct Hk as [Hk|(dsp & ? & ? & ? & ? & ? & ? & [] & _)]. injection E as _ <-. exact Hk.
  - apply block_step in E as (st' & b1 & f0 & f1 & alive' & _ & K0 & E1 & K1 & E2 & K2); [|done]. assert (Hp0 : placed f0) by (eapply placed_kept; eassumption).
    eapply IH; [eapply placed_kept; eassumption| |exact E2].
    destruct Hk as [Hk|(dsp & vsp & m & t & Names & semi & d & [Es|Hi] & Hd & Hu)].
    + left. eapply known_kept; [|exact K1]. eapply known_kept; eassumption.
    + left. subst s. eapply decl_known; eassumption.
    + right. exists dsp, vsp, m, t, Names, semi, d. done.
Qed.

Lemma unreachable_reports s f u f' : unreachable s f = Some (u, f') -> reported f' ⊆ {[Lo (stmt_span s)]} ∪ reported f.
Proof.
  intros E. unfold unreachable in E. apply flow_bind_inv in E as (u1 & f1 & [= _ <-] & [= _ <-]). cbn. destruct (bool_decide _); cbn; set_solver.
Qed.

(** The return, where the list has come to it. *)
Lemma return_in_block n sp p i post st v alive b f f' :
  bare st -> UseVar (AIdent i) = Some v -> tracked (VarKindOf v) = true -> known v f -> Lo sp <> Lo (iSpan i) ->
  block_stmts (H1 := walks n) (ReturnStmt sp p (Some (EIdent i)) :: post) st alive f = Some (b, f') -> told v (iSpan i) f f'.
Proof.
  intros Hb Hv Ht Hk Hne E. cbn [block_stmts] in E. destruct alive.
  - apply flow_bind_inv in E as (a & f1 & E1 & E2). eapply told_kept; [|exact (keeps_run _ _ _ E2)]. by eapply return_bare.
  - apply flow_bind_inv in E as (u & f1 & E1 & E). apply flow_bind_inv in E as (dead & f2 & E2 & E). apply flow_bind_inv in E as (a & f3 & E3 & E4).
    assert (Hd : bare dead /\ reported f2 = reported f1).
    { pose proof (clone_bare st (store_ f1) Hb) as Hc. unfold on_store in E2. destruct (clone_state st (store_ f1)). by injection E2 as <- <-. }
    destruct Hd as [Hd Er]. assert (Hk2 : known v f2).
    { eapply known_kept; [|exact (keeps_run _ _ _ E2)]. eapply known_kept; [exact Hk|]. exact (keeps_run _ _ _ E1). }
    eapply told_kept; [|exact (keeps_run _ _ _ E4)]. destruct (return_bare n sp p i dead v a f2 f3 Hd Hv Ht Hk2 E3) as [Hr Hi].
    split; [exact Hr|]. intros Hg. apply Hi. rewrite Er. pose proof (unreachable_reports _ _ _ _ E1) as Hu. cbn in Hu. set_solver.
Qed.

(** [method] up to the end of the statements [pre] of its body. *)
Definition method_until (n : nat) (outer : bool) (c : cls) (d : Decl) (pre : list Stmt) : Flow bool :=
  let m := methodFor c d in
  saved ← get cxs;
  _ ← put (set_cxs (newCtx c m :: (if outer then saved else [])));
  _ ← declareParams m;
  st ← newState;
  block_stmts (H1 := walks n) pre st true.

End Parameterless.
