(* ===== verification/FlowCases.v ===== *)
(** * The flow analysis at work

    One class with one method, [{ int x = 1; return x; }], and what the
    theorems say of it; the runs themselves are computed. *)
From S2P Require Import Prelude.
From S2P Require Import Token SourceFile Ast AstWalk Types Fold Bits BitsSets FlowState Flow FlowRun FlowEnds FlowKeeps FlowFacts.

#[local] Instance doubling : Runtime.
Proof. refine {| newcap cap need := Nat.max (2 * cap) need |}. lia. Defined.

Definition ident (lo hi : Z) : Ident := mkIdent (At lo hi) 0 false.
Definition x_decl : VarDeclarator := mkVarDeclarator (At 10 15) (ident 10 11) [] 12 (Some (NExpr (BasicLit (At 14 15) INT))).
Definition x_stmt : Stmt := DeclStmt (At 6 16) (DVar (mkVarDecl (At 6 16) None None [x_decl] 15)).
Definition return_x : Stmt := ReturnStmt (At 20 29) 20 (Some (EIdent (ident 27 28))).
Definition body : Block := mkBlock (At 1 40) 1 [x_stmt; return_x] 39.
Definition the_method : Decl := MethodDecl (At 0 40) None None [] 0 None (ident 0 1) 0 None [] 0 [] [] (Some body) 0.
Definition a_class (members : list Decl) : Decl := ClassDecl (At 0 50) None 0 (ident 0 1) None None [] [] 0 members 0.

(** Variable 1 is [x]; [ps] are the parameters of the method. *)
Definition attribution (ps : list var) (members : list Decl) : Attribution := {|
  UseVar n := match n with AVarDeclarator _ | AIdent _ => Some 1 | _ => None end;
  UseMethod _ := None; TypeAt _ := Int_; ConstAt _ := None; LocalClass _ := None;
  VarName _ := bs "x"; VarKindOf _ := VarLocal; VarFinal _ := false;
  ParamsOf _ := ps; MethodTypeOf _ := None;
  FromSource _ := true; DeclOf _ := Some (a_class members); ClassNamed _ := None; MethodsNamed _ _ := []; ClassBinary _ := [];
  isSubtype _ _ := false; nestedOf _ _ := None; methodFor _ _ := Some 1; constructorFor _ _ := None; sprintf s _ := s |}.

Lemma attribution_declared ps l : Declared (H := attribution ps l).
Proof. split; done. Qed.

(** With a parameter nothing is reported; without one, the read of [x] is. *)
Example with_parameter : option_map fst (Analyze (H := attribution [7] [the_method]) 30 [0]) = Some [].
Proof. vm_compute. reflexivity. Qed.
Example without_parameter :
  option_map (fun r => map dPos (fst r)) (Analyze (H := attribution [] [the_method]) 30 [0]) = Some [27].
Proof. vm_compute. reflexivity. Qed.

(** ** Witnesses *)

Lemma analysis_ends_witness : exists diags f, Analyze (H := attribution [7] [the_method]) 30 [0] = Some (diags, f).
Proof.
  refine (analysis_ends (H := attribution [7] [the_method]) (H1 := attribution_declared _ _) 30 [0] _).
  intros c _. exists (a_class [the_method]). split; [reflexivity|]. split; [repeat constructor; discriminate|vm_compute; lia].
Defined.

Definition array_decl : Decl :=
  DVar (mkVarDecl (At 6 16) None None [mkVarDeclarator (At 10 15) (ident 10 11) [] 12 (Some (NExpr (EArrayInit (mkArrayInit (At 13 15) 13 [] 0 14))))] 15).

Lemma array_field_spins_witness : Analyze (H := attribution [] [array_decl]) 1000 [0] = None.
Proof.
  refine (array_field_spins (H := attribution [] [array_decl]) 1000 [0] 0 (a_class [array_decl]) (or_introl eq_refl) eq_refl eq_refl _).
  eexists _, _, _, _, _, _, _, _, _, _, _. split; [reflexivity|]. split; [left; reflexivity|]. left; reflexivity.
Defined.

Lemma flow_reports_witness : exists diags f, Analyze (H := attribution [] [the_method]) 30 [0] = Some (diags, f) /\ NoDup (map dPos diags).
Proof.
  destruct (Analyze (H := attribution [] [the_method]) 30 [0]) as [[diags f]|] eqn:E; [|vm_compute in E; discriminate E].
  exists diags, f. split; [reflexivity|]. exact (proj2 (flow_reports (H := attribution [] [the_method]) 30 [0] diags f E)).
Defined.

Definition one_context : flow := set_cxs [no_ctx] newFlow.

Lemma scopes_kept_witness : exists b f',
  rStmt (Walks := walks (H := attribution [] []) 30) x_stmt (mkState nil_slice nil_slice) one_context = Some (b, f') /\ length (cxs f') = 1%nat.
Proof.
  destruct (rStmt (Walks := walks (H := attribution [] []) 30) x_stmt (mkState nil_slice nil_slice) one_context) as [[b f']|] eqn:E;
    [|vm_compute in E; discriminate E].
  exists b, f'. split; [reflexivity|].
  exact (eq_sym (Forall2_length _ _ _ (scopes_kept (H := attribution [] []) 30 x_stmt (mkState nil_slice nil_slice) b one_context f' E))).
Defined.


Lemma bits_are_sets_witness :
  let h := [[5]] in let s := mkSlice 0 1 1 in has (fst (set s 64 h)) 64 (snd (set s 64 h)) = true /\ has (fst (set s 64 h)) 2 (snd (set s 64 h)) = true.
Proof.
  assert (Hg : good [[5]]) by (repeat constructor; unfold word_ok; lia).
  assert (Hv : valid (mkSlice 0 1 1) [[5]]) by (split; [cbn; lia|intros _; exists [5]; done]).
  destruct (bits_are_sets [[5]] (mkSlice 0 1 1) (mkSlice 0 1 1) Hg Hv Hv) as (_ & _ & Hs & _).
  split; [exact (Hs 64 64 ltac:(lia) ltac:(lia))|exact (Hs 64 2 ltac:(lia) ltac:(lia))].
Defined.

(** A state of one word: local 5 is seen, local 64 is not. *)
Lemma assign_visible_witness :
  let h := [[0]; [0]] in let st := mkState (mkSlice 0 1 1) (mkSlice 1 1 1) in
  has (da st) 5 (snd (assign st 5 h)) = true /\ ~ has (da st) 64 (snd (assign st 64 h)) = true.
Proof.
  assert (Hv : valid (mkSlice 0 1 1) [[0]; [0]]) by (split; [cbn; lia|intros _; exists [0]; done]).
  split.
  - refine (proj2 (assign_visible (mkState (mkSlice 0 1 1) (mkSlice 1 1 1)) 5 [[0]; [0]] Hv _ _) _); [discriminate|lia|reflexivity].
  - intros E. apply (assign_visible (mkState (mkSlice 0 1 1) (mkSlice 1 1 1)) 64 [[0]; [0]] Hv) in E; [vm_compute in E; discriminate E|discriminate|lia].
Defined.
