(* ===== verification/Sym.v ===== *)
(** * Names, flags and scopes of symbols ([sym/name.go], [flags.go], [scope.go])

    A symbol is a pointer; what [Base] answers about it is the class
    [Symbols].  A scope keeps the symbols entered, in order, and the map by
    name; its chain of parents is a list, the innermost first.  The reference
    for a scope is the list of the symbols it accepted; the map is derived from
    it, and one look through the list decides every question. *)
From S2P Require Import Prelude.
From S2P Require Import Token SourceFile Ast Format.

(** ** Names *)

(** [strings.ReplaceAll] of one byte by another. *)
Definition replace_byte (a b : Z) (s : bytes) : bytes := map (fun c => if c =? a then b else c) s.

(** What precedes the last [c], and what follows it: [strings.LastIndexByte]. *)
Fixpoint cut_last (c : Z) (s : bytes) : option (bytes * bytes) :=
  match s with
  | [] => None
  | x :: s =>
      match cut_last c s with
      | Some (p, r) => Some (x :: p, r)
      | None => if x =? c then Some ([], s) else None
      end
  end.

Definition Internal (dotted : bytes) : bytes := replace_byte 46 47 dotted.
Definition Dotted (internal : bytes) : bytes := replace_byte 36 46 (replace_byte 47 46 internal).

Definition PackageOf (binary : bytes) : bytes := match cut_last 47 binary with Some (p, _) => p | None => [] end.

Definition SimpleName (binary : bytes) : bytes :=
  let binary := match cut_last 47 binary with Some (_, r) => r | None => binary end in
  match cut_last 36 binary with Some (_, r) => r | None => binary end.

Definition TopLevelBinary (pkg simple : bytes) : bytes := match pkg with [] => simple | _ => pkg ++ [47] ++ simple end.
Definition NestedBinary (outer simple : bytes) : bytes := outer ++ [36] ++ simple.

(** [strconv.Itoa] of a number that is not negative. *)
Fixpoint digits (fuel : nat) (n : Z) (acc : bytes) : bytes :=
  match fuel with
  | O => acc
  | S fuel => let acc := (48 + n mod 10) :: acc in if n <? 10 then acc else digits fuel (n / 10) acc
  end.
Definition Itoa (n : Z) : bytes := digits 20 n [].

Definition AnonymousBinary (outer : bytes) (n : Z) : bytes := outer ++ [36] ++ Itoa n.
Definition LocalBinary (outer : bytes) (n : Z) (simple : bytes) : bytes := outer ++ [36] ++ Itoa n ++ simple.

Definition ident_name (f : File) (i : Ident) : option bytes := Slice f (Lo (iSpan i)) (Hi (iSpan i)).

(** [NameString] of a name that is not nil. *)
Fixpoint join_parts (f : File) (l : list Ident) : option bytes :=
  match l with
  | [] => Some []
  | [i] => ident_name f i
  | i :: l => a ← ident_name f i; r ← join_parts f l; Some (a ++ [46] ++ r)
  end.
Definition NameString (n : Name) (f : File) : option bytes := join_parts f (nParts n).

Definition identName (id : option Ident) (f : File) : option bytes :=
  match id with
  | None => Some []
  | Some id => if iUnderscore id then Some (bs "_") else ident_name f id
  end.

Definition InitName : bytes := bs "<init>".
Definition ClinitName : bytes := bs "<clinit>".
Definition ObjectName : bytes := bs "java/lang/Object".
Definition StringName : bytes := bs "java/lang/String".

(** ** Flags *)

Definition FlagPublic : Z := Z.shiftl 1 0.
Definition FlagPrivate : Z := Z.shiftl 1 1.
Definition FlagProtected : Z := Z.shiftl 1 2.
Definition FlagStatic : Z := Z.shiftl 1 3.
Definition FlagFinal : Z := Z.shiftl 1 4.
Definition FlagAbstract : Z := Z.shiftl 1 5.
Definition FlagNative : Z := Z.shiftl 1 6.
Definition FlagSynchronized : Z := Z.shiftl 1 7.
Definition FlagTransient : Z := Z.shiftl 1 8.
Definition FlagVolatile : Z := Z.shiftl 1 9.
Definition FlagStrictfp : Z := Z.shiftl 1 10.
Definition FlagDefault : Z := Z.shiftl 1 11.
Definition FlagSealed : Z := Z.shiftl 1 12.
Definition FlagNonSealed : Z := Z.shiftl 1 13.
Definition FlagInterface : Z := Z.shiftl 1 14.
Definition FlagAnnotation : Z := Z.shiftl 1 15.
Definition FlagEnum : Z := Z.shiftl 1 16.
Definition FlagRecord : Z := Z.shiftl 1 17.
Definition FlagVarargs : Z := Z.shiftl 1 18.
Definition FlagBridge : Z := Z.shiftl 1 19.
Definition FlagSynthetic : Z := Z.shiftl 1 20.
Definition FlagDeprecated : Z := Z.shiftl 1 21.
Definition FlagModule : Z := Z.shiftl 1 22.
Definition FlagImplicit : Z := Z.shiftl 1 23.

Definition AccessFlags : Z := Z.lor FlagPublic (Z.lor FlagPrivate FlagProtected).

(** [Flags.Has] and [HasAny]. *)
Definition HasFlag (f mask : Z) : bool := Z.land f mask =? mask.
Definition HasAny (f mask : Z) : bool := negb (Z.land f mask =? 0).

Definition flagNames : list (Z * bytes) :=
  [(FlagPublic, bs "public"); (FlagPrivate, bs "private"); (FlagProtected, bs "protected"); (FlagAbstract, bs "abstract");
   (FlagStatic, bs "static"); (FlagFinal, bs "final"); (FlagSealed, bs "sealed"); (FlagNonSealed, bs "non-sealed");
   (FlagStrictfp, bs "strictfp"); (FlagTransient, bs "transient"); (FlagVolatile, bs "volatile");
   (FlagSynchronized, bs "synchronized"); (FlagNative, bs "native"); (FlagDefault, bs "default")].

Definition FlagsString (f : Z) : bytes :=
  foldl (fun sb n => if HasFlag f (fst n) then (match sb with [] => [] | _ => sb ++ [32] end) ++ snd n else sb) [] flagNames.

Definition modifier_flag (kind : Z) : Z :=
  if kind =? PUBLIC then FlagPublic else if kind =? PRIVATE then FlagPrivate else if kind =? PROTECTED then FlagProtected
  else if kind =? STATIC then FlagStatic else if kind =? FINAL then FlagFinal else if kind =? ABSTRACT then FlagAbstract
  else if kind =? NATIVE then FlagNative else if kind =? SYNCHRONIZED then FlagSynchronized
  else if kind =? TRANSIENT then FlagTransient else if kind =? VOLATILE then FlagVolatile
  else if kind =? STRICTFP then FlagStrictfp else if kind =? DEFAULT then FlagDefault
  else if kind =? NON_SEALED then FlagNonSealed else if kind =? IDENT then FlagSealed else 0.

Definition modifierFlags (m : option Modifiers) : Z :=
  match m with
  | None => 0
  | Some (mkModifiers _ l) =>
      foldl (fun f x => match x with mkModifier _ (Some _) _ => f | mkModifier _ None kind => Z.lor f (modifier_flag kind) end) 0 l
  end.

(** [None] is a name outside the file. *)
Definition annotationFlags (m : option Modifiers) (unit_ : File) : option Z :=
  match m with
  | None => Some 0
  | Some (mkModifiers _ l) =>
      foldl (fun f x =>
        f ← f;
        match x with
        | mkModifier _ (Some (mkAnnotation _ _ name _)) _ =>
            match last (nParts name) with
            | None => Some f
            | Some p =>
                s ← ident_name unit_ p;
                Some (if bool_decide (s = bs "Deprecated") then Z.lor f FlagDeprecated
                      else if bool_decide (s = bs "SafeVarargs") then Z.lor f FlagVarargs else f)
            end
        | mkModifier _ None _ => Some f
        end) (Some 0) l
  end.

(** [mapBit] and lower's [pick]: one bit of a set into another. *)
Definition mapBit (a bit out : Z) : Z := if negb (Z.land a bit =? 0) then out else 0.

Definition map_bits (a : Z) (l : list (Z * Z)) : Z := foldl (fun f p => Z.lor f (mapBit a (fst p) (snd p))) 0 l.

Definition classFileClassFlags (a : Z) : Z :=
  map_bits a [(AccPublic, FlagPublic); (AccFinal, FlagFinal); (AccInterface, FlagInterface); (AccAbstract, FlagAbstract);
              (AccSynthetic, FlagSynthetic); (AccAnnotation, FlagAnnotation); (AccEnum, FlagEnum); (AccModule, FlagModule)].

Definition classFileFieldFlags (a : Z) : Z :=
  map_bits a [(AccPublic, FlagPublic); (AccPrivate, FlagPrivate); (AccProtected, FlagProtected); (AccStatic, FlagStatic);
              (AccFinal, FlagFinal); (AccVolatile, FlagVolatile); (AccTransient, FlagTransient); (AccSynthetic, FlagSynthetic);
              (AccEnum, FlagEnum)].

Definition classFileMethodFlags (a : Z) : Z :=
  map_bits a [(AccPublic, FlagPublic); (AccPrivate, FlagPrivate); (AccProtected, FlagProtected); (AccStatic, FlagStatic);
              (AccFinal, FlagFinal); (AccSynchronized, FlagSynchronized); (AccBridge, FlagBridge); (AccVarargs, FlagVarargs);
              (AccNative, FlagNative); (AccAbstract, FlagAbstract); (AccSynthetic, FlagSynthetic)].

(** ** Kinds and scopes *)

Inductive SymKind := KindError | KindPackage | KindClass | KindMethod | KindVar | KindTypeParam.
#[export] Instance SymKind_eq : EqDecision SymKind.
Proof. solve_decision. Defined.

Definition SymKindString (k : SymKind) : bytes :=
  bs match k with
  | KindError => "error" | KindPackage => "package" | KindClass => "class" | KindMethod => "method" | KindVar => "variable"
  | KindTypeParam => "type parameter"
  end.

Inductive space := nsType | nsVar | nsMethod.
#[export] Instance space_eq : EqDecision space.
Proof. solve_decision. Defined.

Definition namespace (k : SymKind) : space :=
  match k with KindClass | KindTypeParam | KindPackage => nsType | KindMethod => nsMethod | _ => nsVar end.

Definition symbol := Z.

Class Symbols := { symName : symbol -> bytes; symKind : symbol -> SymKind }.

Record Scope := mkScope { tab : gmap bytes (list symbol); order : list symbol }.

Definition NewScope : Scope := mkScope ∅ [].

(** A map lookup that misses gives a nil slice. *)
Definition Lookup (s : Scope) (name : bytes) : list symbol := default [] (tab s !! name).

Section Scopes.
Context `{Symbols}.

Definition space_of (x : symbol) : space := namespace (symKind x).

Definition conflict (s : Scope) (n : symbol) : option symbol :=
  let ns := space_of n in
  head (filter (fun p => space_of p = ns /\ ns <> nsMethod) (Lookup s (symName n))).

Definition Enter (s : Scope) (n : symbol) : option symbol * Scope :=
  if bool_decide (symName n = bs "_") then (None, mkScope (tab s) (order s ++ [n]))
  else match conflict s n with
       | Some prev => (Some prev, s)
       | None => (None, mkScope (<[symName n := Lookup s (symName n) ++ [n]]> (tab s)) (order s ++ [n]))
       end.

Definition LookupKind (s : Scope) (name : bytes) (k : SymKind) : option symbol := head (filter (fun x => symKind x = k) (Lookup s name)).

(** The chain of scopes from this one outwards. *)
Fixpoint Resolve (chain : list Scope) (name : bytes) : option (Scope * list symbol) :=
  match chain with
  | [] => None
  | c :: chain => match Lookup c name with [] => Resolve chain name | got => Some (c, got) end
  end.

Fixpoint ResolveKind (chain : list Scope) (name : bytes) (k : SymKind) : option symbol :=
  match chain with
  | [] => None
  | c :: chain =>
      match head (filter (fun x => space_of x = namespace k) (Lookup c name)) with
      | Some x => Some x
      | None => ResolveKind chain name k
      end
  end.

(** [Each]: a callback with its effect on [S], until it declines. *)
Fixpoint each_of {S} (f : S -> symbol -> S * bool) (l : list symbol) (s : S) : S :=
  match l with
  | [] => s
  | x :: l => match f s x with (s, true) => each_of f l s | (s, false) => s end
  end.
Definition Each {S} (c : Scope) (f : S -> symbol -> S * bool) (s : S) : S := each_of f (order c) s.

Definition Len (s : Scope) : Z := len (order s).
End Scopes.

Section Scopes.
Context `{Symbols}.

(** A symbol [_] declares nothing, and only methods share a name. *)
Definition clashes (x y : symbol) : Prop := symName x = symName y /\ space_of x = space_of y /\ space_of x <> nsMethod /\ symName x <> bs "_".
#[local] Instance clashes_dec x y : Decision (clashes x y).
Proof. unfold clashes. apply _. Defined.

Definition accept (l : list symbol) (n : symbol) : list symbol := if decide (Exists (fun p => clashes p n) l) then l else l ++ [n].
Definition accepted (l : list symbol) : list symbol := foldl accept [] l.

Definition enter_all (l : list symbol) : Scope := foldl (fun s n => snd (Enter s n)) NewScope l.

(** What a name stands for. *)
Definition declared (l : list symbol) (name : bytes) : list symbol := if decide (name = bs "_") then [] else filter (fun x => symName x = name) l.

Record scope_of (l : list symbol) (s : Scope) : Prop := {
  scope_order : order s = l;
  scope_names name : Lookup s name = declared l name }.

Lemma conflict_spec l s n : scope_of l s -> symName n <> bs "_" ->
  conflict s n = head (filter (fun p => clashes p n) l).
Proof.
  intros [_ Hn] Hu. unfold conflict. rewrite Hn. unfold declared. rewrite decide_False by done. rewrite list_filter_filter. f_equal.
  apply list_filter_iff. intros x. unfold clashes. split; intros; destruct_and!; split_and!; try congruence.
Qed.

Lemma head_filter (P : symbol -> Prop) `{!forall x, Decision (P x)} (l : list symbol) : head (filter P l) = None <-> ~ Exists P l.
Proof.
  rewrite <- Forall_Exists_neg. induction l as [|x l IH]; [split; [constructor|done]|]. rewrite filter_cons, Forall_cons. case_decide; cbn; [|tauto].
  split; [done|tauto].
Qed.

(** One step: refused by the first symbol it clashes with, or appended. *)
Lemma Enter_spec l s n : scope_of l s ->
  fst (Enter s n) = head (filter (fun p => clashes p n) l) /\ scope_of (accept l n) (snd (Enter s n)).
Proof.
  intros Hs. pose proof Hs as [Ho Hn]. unfold Enter, accept. case_bool_decide as Hu.
  - assert (Hno : ~ Exists (fun p => clashes p n) l).
    { rewrite <- Forall_Exists_neg. apply Forall_forall. intros x _ (E & _ & _ & H'). congruence. }
    rewrite decide_False by done. split; [symmetry; by apply head_filter|]. split; cbn; [by rewrite Ho|].
    intros name. change (Lookup _ name) with (Lookup s name). rewrite Hn. unfold declared. case_decide as Hd; [done|].
    rewrite filter_app, filter_cons, decide_False by congruence. by rewrite app_nil_r.
  - rewrite (conflict_spec l s n Hs Hu). destruct (head _) as [p|] eqn:Eh.
    + cbn. rewrite decide_True; [split; [done|exact Hs]|]. destruct (decide (Exists (fun p => clashes p n) l)); [done|].
      pose proof (proj2 (head_filter (fun p => clashes p n) l) n0). congruence.
    + pose proof Eh as Hno. rewrite head_filter in Hno. rewrite decide_False by done. split; [done|]. split; cbn; [by rewrite Ho|].
      intros name. unfold Lookup at 1. cbn. destruct (decide (name = symName n)) as [->|Hne].
      * rewrite lookup_insert_eq. cbn. rewrite Hn. unfold declared. rewrite !decide_False by done. rewrite filter_app, filter_cons.
        rewrite decide_True by done. done.
      * rewrite lookup_insert_ne by done. change (default [] (tab s !! name)) with (Lookup s name). rewrite Hn. unfold declared.
        case_decide; [done|]. rewrite filter_app, filter_cons, decide_False by congruence. by rewrite app_nil_r.
Qed.

Lemma enter_all_spec l : scope_of (accepted l) (enter_all l).
Proof.
  unfold accepted, enter_all. assert (Hg : scope_of [] NewScope).
  { split; [done|]. intros name. unfold declared. by case_decide. }
  revert Hg. generalize (@nil symbol) NewScope. induction l as [|n l IH]; intros k s Hs; [done|]. cbn [foldl]. apply IH.
  by apply Enter_spec.
Qed.

(** No two of them clash. *)
Lemma accepted_apart l i j x y : accepted l !! i = Some x -> accepted l !! j = Some y -> (i < j)%nat -> ~ clashes x y.
Proof.
  unfold accepted. assert (Hg : forall i j x y, ([] : list symbol) !! i = Some x -> ([] : list symbol) !! j = Some y -> (i < j)%nat -> ~ clashes x y) by done.
  revert i j x y Hg. generalize (@nil symbol). induction l as [|n l IH]; intros k i j x y Hk; [by apply Hk|]. cbn [foldl].
  apply IH. clear i j x y. intros i j x y Hi Hj Hij. unfold accept in *. case_decide as Hd; [by eapply Hk|].
  apply lookup_app_Some in Hj as [Hj|[Hl Hj]].
  - apply lookup_app_Some in Hi as [Hi|[Hl' Hi]]; [by eapply Hk|]. apply lookup_lt_Some in Hj. lia.
  - apply list_lookup_singleton_Some in Hj as [Hz <-]. apply lookup_app_Some in Hi as [Hi|[Hl' Hi]]; [|lia].
    intros Hc. apply Hd. apply Exists_exists. exists x. split; [by eapply list_elem_of_lookup_2|done].
Qed.

(** C25: a scope is the list of the symbols it accepted, whatever is entered in
    it: [Each] goes through them in order, a name stands for those that bear it
    ([_] for none), no two of one name are of one namespace but methods, the
    next symbol is refused exactly when it clashes with one of them, by the first
    such, and is else appended. *)
Theorem scopes_refine l n :
  let s := enter_all l in
  order s = accepted l /\
  (forall name, Lookup s name = declared (accepted l) name) /\
  (forall i j x y, accepted l !! i = Some x -> accepted l !! j = Some y -> (i < j)%nat -> ~ clashes x y) /\
  fst (Enter s n) = head (filter (fun p => clashes p n) (accepted l)) /\
  enter_all (l ++ [n]) = snd (Enter s n) /\ accepted (l ++ [n]) = accept (accepted l) n.
Proof.
  intros s. destruct (enter_all_spec l) as [Ho Hn]. split_and!; [exact Ho|exact Hn|apply accepted_apart| | |].
  - apply Enter_spec, enter_all_spec.
  - unfold enter_all. by rewrite foldl_app.
  - unfold accepted. by rewrite foldl_app.
Qed.

(** Resolution finds the innermost scope of the chain with a symbol of that
    name in the kind's namespace, and the first such symbol there. *)
Theorem resolution_innermost chain name k x :
  ResolveKind chain name k = Some x <->
  exists outer c inner, chain = inner ++ c :: outer /\
    Forall (fun c => ~ Exists (fun y => space_of y = namespace k) (Lookup c name)) inner /\
    head (filter (fun y => space_of y = namespace k) (Lookup c name)) = Some x.
Proof.
  split.
  - induction chain as [|c chain IH]; cbn [ResolveKind]; [done|]. destruct (head _) as [y|] eqn:Eh.
    + intros [= <-]. exists chain, c, []. split_and!; [done|constructor|done].
    + intros Hr. destruct (IH Hr) as (outer & c' & inner & -> & Hi & Hh). exists outer, c', (c :: inner).
      split_and!; [done| |done]. constructor; [exact (proj1 (head_filter _ _) Eh)|done].
  - intros (outer & c & inner & -> & Hi & Hh). induction Hi as [|c' inner Hc _ IH]; cbn [app ResolveKind]; [by rewrite Hh|].
    apply (head_filter (fun y => space_of y = namespace k)) in Hc. by rewrite Hc.
Qed.
End Scopes.
