(* ===== verification/LowerFlags.v ===== *)
(** * Flags of the class file ([lower/flags.go])

    The frontend's flags become access flags per location; [sym] maps them back
    when the class is read. *)
From S2P Require Import Prelude.
From S2P Require Import Format Sym.

Definition pick (f from to : Z) : Z := if HasFlag f from then to else 0.

Definition picks (f : Z) (l : list (Z * Z)) (out : Z) : Z := foldl (fun out p => Z.lor out (pick f (fst p) (snd p))) out l.

Definition class_picks : list (Z * Z) :=
  [(FlagPublic, AccPublic); (FlagFinal, AccFinal); (FlagAbstract, AccAbstract); (FlagInterface, AccInterface);
   (FlagAnnotation, AccAnnotation); (FlagEnum, AccEnum); (FlagSynthetic, AccSynthetic)].

Definition classFlags (f : Z) : Z :=
  let out := picks f class_picks AccSuper in
  if HasFlag f FlagInterface then Z.lor out AccAbstract else out.

Definition field_picks : list (Z * Z) :=
  [(FlagPublic, AccPublic); (FlagPrivate, AccPrivate); (FlagProtected, AccProtected); (FlagStatic, AccStatic); (FlagFinal, AccFinal);
   (FlagVolatile, AccVolatile); (FlagTransient, AccTransient); (FlagEnum, AccEnum); (FlagSynthetic, AccSynthetic)].

Definition fieldFlags (f : Z) : Z := picks f field_picks 0.

Definition method_picks : list (Z * Z) :=
  [(FlagPublic, AccPublic); (FlagPrivate, AccPrivate); (FlagProtected, AccProtected); (FlagStatic, AccStatic); (FlagFinal, AccFinal);
   (FlagSynchronized, AccSynchronized); (FlagNative, AccNative); (FlagAbstract, AccAbstract); (FlagBridge, AccBridge);
   (FlagVarargs, AccVarargs); (FlagSynthetic, AccSynthetic)].

Definition methodFlags (f : Z) : Z := picks f method_picks 0.

(** ** One bit at a time *)

Lemma pick_bit f i to : 0 <= i -> pick f (2 ^ i) to = if Z.testbit f i then to else 0.
Proof.
  intros Hi. unfold pick, HasFlag. destruct (Z.testbit f i) eqn:E.
  - rewrite (proj2 (Z.eqb_eq _ _)); [done|]. apply Z.bits_inj'. intros n Hn. rewrite Z.land_spec, Z.pow2_bits_eqb by done.
    destruct (Z.eqb_spec i n) as [->|]; [by rewrite E|apply andb_false_r].
  - destruct (Z.eqb_spec (Z.land f (2 ^ i)) (2 ^ i)) as [H|]; [|done]. exfalso.
    assert (Z.testbit (Z.land f (2 ^ i)) i = true) by (rewrite H; apply Z.pow2_bits_true; done).
    rewrite Z.land_spec, E in H0. discriminate.
Qed.

Lemma flag_bit f i : 0 <= i -> Z.land f (2 ^ i) = if Z.testbit f i then 2 ^ i else 0.
Proof.
  intros Hi. apply Z.bits_inj'. intros n Hn. rewrite Z.land_spec, Z.pow2_bits_eqb by done. destruct (Z.eqb_spec i n) as [<-|Hne].
  - destruct (Z.testbit f i); [by rewrite Z.pow2_bits_true|by rewrite Z.bits_0].
  - rewrite andb_false_r. destruct (Z.testbit f i); [by rewrite Z.pow2_bits_false|by rewrite Z.bits_0].
Qed.

(** Masks and lists of picks, by the numbers of their bits. *)
Fixpoint mask_of (l : list Z) : Z := match l with [] => 0 | i :: l => Z.lor (2 ^ i) (mask_of l) end.
Fixpoint bits_of (g : Z -> bool) (l : list Z) : Z := match l with [] => 0 | i :: l => Z.lor (if g i then 2 ^ i else 0) (bits_of g l) end.

Lemma land_mask f l : Forall (Z.le 0) l -> Z.land f (mask_of l) = bits_of (Z.testbit f) l.
Proof.
  induction 1 as [|i l Hi _ IH]; cbn [mask_of bits_of]; [apply Z.land_0_r|]. by rewrite Z.land_lor_distr_r, IH, flag_bit.
Qed.

Fixpoint picked (g : Z -> bool) (l : list (Z * Z)) (out : Z) : Z :=
  match l with [] => out | (i, to) :: l => picked g l (Z.lor out (if g i then to else 0)) end.

Lemma picks_picked f l out : Forall (fun p => 0 <= fst p) l -> picks f (map (fun p => (2 ^ fst p, snd p)) l) out = picked (Z.testbit f) l out.
Proof.
  intros H. revert out. induction H as [|[i to] l Hi _ IH]; intros out; [done|]. cbn [map picked fst snd].
  change (picks f ((2 ^ i, to) :: map (fun p => (2 ^ fst p, snd p)) l) out)
    with (picks f (map (fun p => (2 ^ fst p, snd p)) l) (Z.lor out (pick f (2 ^ i) to))).
  rewrite pick_bit by done. apply IH.
Qed.

(** A statement about the bits of [l] alone, checked on every choice of them. *)
Fixpoint bit_sets (l : list Z) : list (list Z) := match l with [] => [[]] | i :: l => let r := bit_sets l in r ++ map (cons i) r end.

Definition in_set (s : list Z) (i : Z) : bool := existsb (Z.eqb i) s.

Lemma bit_sets_complete (g : Z -> bool) l : NoDup l -> filter (fun i => g i = true) l ∈ bit_sets l.
Proof.
  induction 1 as [|i l _ _ IH]; [apply list_elem_of_here|]. cbn [bit_sets]. rewrite elem_of_app, filter_cons.
  case_decide; [right; apply list_elem_of_fmap; eauto|by left].
Qed.

Lemma in_set_filter g l i : i ∈ l -> in_set (filter (fun i => g i = true) l) i = g i.
Proof.
  intros Hi. unfold in_set. apply eq_true_iff_eq. rewrite existsb_exists. split.
  - intros (x & Hx & ->%Z.eqb_eq). apply list_elem_of_In in Hx. by apply list_elem_of_filter in Hx as [? _].
  - intros Hg. exists i. split; [|apply Z.eqb_refl]. apply list_elem_of_In, list_elem_of_filter. done.
Qed.

Lemma picked_ext g h l out : Forall (fun p => g (fst p) = h (fst p)) l -> picked g l out = picked h l out.
Proof. intros H. revert out. induction H as [|[i to] l E _ IH]; intros out; cbn [picked]; [done|]. cbn in E. by rewrite E, IH. Qed.

Lemma bits_ext g h l : Forall (fun i => g i = h i) l -> bits_of g l = bits_of h l.
Proof. induction 1 as [|i l E _ IH]; cbn [bits_of]; [done|]. by rewrite E, IH. Qed.

(** An identity between functions of picked bits and masks. *)
Lemma picks_mask (F G : (Z -> bool) -> Z -> Z) (l : list (Z * Z)) (out : Z) f :
  NoDup (map fst l) -> forallb (fun p => 0 <=? fst p) l = true ->
  (forall g h z, (forall i, i ∈ map fst l -> g i = h i) -> F g z = F h z /\ G g z = G h z) ->
  forallb (fun s => F (in_set s) (picked (in_set s) l out) =? G (in_set s) (bits_of (in_set s) (map fst l))) (bit_sets (map fst l)) = true ->
  F (Z.testbit f) (picks f (map (fun p => (2 ^ fst p, snd p)) l) out) = G (Z.testbit f) (Z.land f (mask_of (map fst l))).
Proof.
  intros Hn Hp Hx Hc. assert (Hp' : Forall (fun p => 0 <= fst p) l).
  { apply Forall_forall. intros p Hin. rewrite forallb_forall in Hp. apply Z.leb_le, Hp, list_elem_of_In, Hin. }
  rewrite picks_picked by done. rewrite land_mask by (by apply Forall_fmap).
  set (g := Z.testbit f). set (s := filter (fun i => g i = true) (map fst l)).
  assert (Hs : forall i, i ∈ map fst l -> g i = in_set s i) by (intros i Hi; symmetry; by apply in_set_filter).
  rewrite (picked_ext g (in_set s)), (bits_ext g (in_set s)).
  - destruct (Hx g (in_set s) (picked (in_set s) l out) Hs) as [-> _]. destruct (Hx g (in_set s) (bits_of (in_set s) (map fst l)) Hs) as [_ ->].
    rewrite forallb_forall in Hc. apply Z.eqb_eq, Hc, list_elem_of_In, bit_sets_complete. done.
  - by apply Forall_forall.
  - apply Forall_forall. intros p Hin. apply Hs. apply list_elem_of_fmap. eauto.
Qed.

(** All sixteen access flags. *)
Definition every_bit : Z := 2 ^ 16 - 1.

Definition log_picks (l : list (Z * Z)) : list (Z * Z) := map (fun p => (Z.log2 (fst p), snd p)) l.

Lemma nodup_dec (l : list Z) : bool_decide (NoDup l) = true -> NoDup l.
Proof. apply bool_decide_eq_true_1. Qed.

Lemma interface_bit f : HasFlag f FlagInterface = Z.testbit f 14.
Proof.
  pose proof (pick_bit f 14 1 ltac:(lia)) as Hb. unfold pick in Hb. change (2 ^ 14) with FlagInterface in Hb.
  by destruct (HasFlag _ _), (Z.testbit _ _).
Qed.

(** C26: the access flags a declaration is compiled with say what its symbol
    said, of all that [sym] reads out of a class file: read back, those of a
    field or a method are the flags it had, restricted to the flags [sym] has a
    bit for there; of a class, all of those but the module flag, and an
    interface is abstract besides.  [strictfp] is lost: ACC_STRICT is never
    written on a method. *)
Theorem flags_roundtrip f :
  classFileFieldFlags (fieldFlags f) = Z.land f (classFileFieldFlags every_bit) /\
  classFileMethodFlags (methodFlags f) = Z.land f (classFileMethodFlags every_bit) /\
  classFileClassFlags (classFlags f) =
    Z.lor (Z.land f (Z.ldiff (classFileClassFlags every_bit) FlagModule)) (if HasFlag f FlagInterface then FlagAbstract else 0) /\
  Z.land (methodFlags f) AccStrict = 0.
Proof.
  split_and!.
  - refine (picks_mask (fun _ => classFileFieldFlags) (fun _ z => z) (log_picks field_picks) 0 f _ eq_refl (fun _ _ _ _ => conj eq_refl eq_refl) _);
      [apply nodup_dec; vm_compute; reflexivity|vm_compute; reflexivity].
  - refine (picks_mask (fun _ => classFileMethodFlags) (fun _ z => z) (log_picks method_picks) 0 f _ eq_refl (fun _ _ _ _ => conj eq_refl eq_refl) _);
      [apply nodup_dec; vm_compute; reflexivity|vm_compute; reflexivity].
  - unfold classFlags. rewrite interface_bit.
    refine (picks_mask (fun g z => classFileClassFlags (if g 14 then Z.lor z AccAbstract else z)) (fun g z => Z.lor z (if g 14 then FlagAbstract else 0))
      (log_picks class_picks) AccSuper f _ eq_refl _ _);
      [apply nodup_dec; vm_compute; reflexivity| |vm_compute; reflexivity].
    intros g h z Hg. rewrite (Hg 14); [done|]. vm_compute. set_solver.
  - refine (picks_mask (fun _ z => Z.land z AccStrict) (fun _ _ => 0) (log_picks method_picks) 0 f _ eq_refl (fun _ _ _ _ => conj eq_refl eq_refl) _);
      [apply nodup_dec; vm_compute; reflexivity|vm_compute; reflexivity].
Qed.
