(* ===== verification/Emitter.v ===== *)
(** * The emitter of method bodies ([lower/lower.go], [slot.go], [stmt.go])

    Pass two of the lowering walks a body and calls the code writer.  The calls
    it makes are its result, so the emitter's state is those calls, the number
    of labels created, the slots, and where it stands: whether control can
    arrive, the enclosing targets of break and continue, the finally blocks a
    jump crosses.  A recursion longer than its bound is [Spin]; [bug] panics. *)
From S2P Require Import Prelude.
From S2P Require Import Token SourceFile Ast AstWalk Types Fold Sym.
From S2P Require CodeWriter Op.
From Stdlib Require Import SpecFloat.

(** ** Symbols, as far as the lowering asks *)

Inductive VarKind := VarField | VarLocal | VarParam | VarRecordComponent | VarEnumConstant | VarExceptionParam | VarResource | VarBinding.
#[export] Instance LVarKind_eq : EqDecision VarKind.
Proof. solve_decision. Defined.

(** A [*sym.VarSym] and a [*sym.MethodSym]; a [*sym.ClassSym] is a [cls]. *)
Definition var := Z.
Definition meth := Z.

Record VarSym := mkVarSym { vName : bytes; vFlags : Z; vPos : Z; vKind : VarKind; vClass : option cls }.
Record MethodSym := mkMethodSym {
  mName : bytes; mFlags : Z; mClass : option cls; mDescriptor : bytes; mParams : list var; mThrows : list bytes; mDecl : option Decl }.
Record ClassSym := mkClassSym {
  cName : bytes; cFlags : Z; cOuter : option cls; cSuper : bytes; cInterfaces : list bytes; cOwner : option meth;
  cDecl : option Decl; cMembers : list symbol; cSourceFile : bytes }.

(** What [Info.Use] answers; a symbol of another kind is [UOther]. *)
Inductive use := UVar (v : var) | UMethod (m : meth) | UClass (c : cls) | UOther.

(** A capture of the class at work, and an accessor ([capture.go], [bridge.go]). *)
Record captureField := mkCapture { cpLocal : var; cpName : bytes; cpDesc : bytes; cpSlot : Z }.
Inductive accessorKind := accGet | accSet | accInvoke.
Record accessorRec := mkAccessor { acName : bytes; acTarget : use; acKind : accessorKind; acOwner : bytes; acDesc : bytes }.

(** A lambda or method reference of the class at work ([lambda.go]). *)
Record lambdaRec := mkLambda {
  laNode : Expr; laBinary : bytes; laCaptures : list var; laStatic : bool }.

(** The attribution, the flow analysis and the tables.  [same_expr] is equality
    of pointers; [type_fuel] is the nesting to which a type, its bounds and the
    classes around a class are followed. *)
Class Program := {
  Use : Any -> option use;
  TypeAt : Any -> ty;
  ConstAt : Expr -> option Constant;
  UnreachableAt : Stmt -> bool;
  varSym : var -> VarSym;
  methodSym : meth -> MethodSym;
  classSym : cls -> ClassSym;
  FieldType : var -> ty;
  MethodTypeOf : meth -> MethodType;
  ObjectType : ty;
  source : option File;
  same_expr : Expr -> Expr -> bool;
  type_table :: Types.Table;
  type_fuel : nat }.

(** The class and the method at work. *)
Class Site := {
  this_class : cls;
  this_method : option meth;
  captures : list captureField;
  thisField : bytes;
  accessors : bytes -> option accessorRec;
  lambdas : list lambdaRec }.

(** ** Slots ([slot.go]) *)

Record slotMap := mkSlots { of_ : gmap var Z; next : Z; smax : Z }.

Definition newSlotMap : slotMap := mkSlots ∅ 0 0.

Definition reserve (n : Z) (s : slotMap) : Z * slotMap :=
  (next s, mkSlots (of_ s) (next s + n) (if smax s <? next s + n then next s + n else smax s)).

Definition slot_width (t : ty) : Z := let w := Slots t in if w <? 1 then 1 else w.

Definition declare (v : var) (t : ty) (s : slotMap) : Z * slotMap :=
  let '(at_, s) := reserve (slot_width t) s in (at_, mkSlots (<[v := at_]> (of_ s)) (next s) (smax s)).

Definition has (v : var) (s : slotMap) : bool := bool_decide (is_Some (of_ s !! v)).
Definition mark_ (s : slotMap) : Z := next s.
Definition release (m : Z) (s : slotMap) : slotMap := mkSlots (of_ s) m (smax s).

(** ** State *)

Record frame := mkFrame { flabel : bytes; brk : nat; cont : option nat; finallyTop : nat }.
Record finallyRec := mkFinally { fblock : Block; fslots : Z }.

Record emitter := mkEmitter {
  out : list CodeWriter.cmd;
  nlabels : nat;
  slots : slotMap;
  lastLine : Z;
  alive : bool;
  frames : list frame;
  finallys : list finallyRec }.

Inductive outcome (A : Type) := Done (a : A) (e : emitter) | Bug | Spin.
Arguments Done {A} a e.
Arguments Bug {A}.
Arguments Spin {A}.

Definition Emit (A : Type) : Type := emitter -> outcome A.

#[export] Instance Emit_ret : MRet Emit := fun _ a e => Done a e.
#[export] Instance Emit_bind : MBind Emit := fun _ _ k m e => match m e with Done a e => k a e | Bug => Bug | Spin => Spin end.

Definition get {A} (g : emitter -> A) : Emit A := fun e => Done (g e) e.
Definition put (g : emitter -> emitter) : Emit unit := fun e => Done tt (g e).
Definition bug {A} : Emit A := fun _ => Bug.
Definition spin {A} : Emit A := fun _ => Spin.

(** A partial operation of the layers below: [None] is its bound. *)
Definition bounded {A} (o : option A) : Emit A := match o with Some a => mret a | None => spin end.
(** A value that must be there. *)
Definition must {A} (o : option A) : Emit A := match o with Some a => mret a | None => bug end.

Definition set_slots (s : slotMap) (e : emitter) : emitter :=
  mkEmitter (out e) (nlabels e) s (lastLine e) (alive e) (frames e) (finallys e).
Definition set_alive (b : bool) (e : emitter) : emitter :=
  mkEmitter (out e) (nlabels e) (slots e) (lastLine e) b (frames e) (finallys e).
Definition set_frames (l : list frame) (e : emitter) : emitter :=
  mkEmitter (out e) (nlabels e) (slots e) (lastLine e) (alive e) l (finallys e).
Definition set_finallys (l : list finallyRec) (e : emitter) : emitter :=
  mkEmitter (out e) (nlabels e) (slots e) (lastLine e) (alive e) (frames e) l.

(** A call of the code writer. *)
Definition call (x : CodeWriter.cmd) : Emit unit := put (fun e =>
  mkEmitter (out e ++ [x]) (nlabels e) (slots e) (lastLine e) (alive e) (frames e) (finallys e)).

Definition Op_ (o : Z) : Emit unit := call (CodeWriter.COp o).

(** [e.c.NewLabel()]: labels are numbered as they are created. *)
Definition NewLabel : Emit nat := fun e =>
  Done (nlabels e)
    (mkEmitter (out e ++ [CodeWriter.CNewLabel]) (S (nlabels e)) (slots e) (lastLine e) (alive e) (frames e) (finallys e)).

Fixpoint each {A} (g : A -> Emit unit) (l : list A) : Emit unit :=
  match l with [] => mret tt | a :: l => _ ← g a; each g l end.

Definition maybe {A} (g : A -> Emit unit) (o : option A) : Emit unit := match o with Some a => g a | None => mret tt end.

Definition when (b : bool) (m : Emit unit) : Emit unit := if b then m else mret tt.

Definition Alive : Emit bool := get alive.
Definition dead : Emit unit := put (set_alive false).

(** ** Slots of the method at work *)

Definition slots_mark : Emit Z := get (fun e => mark_ (slots e)).
Definition slots_release (m : Z) : Emit unit := put (fun e => set_slots (release m (slots e)) e).
Definition slots_reserve (n : Z) : Emit Z := fun e => let '(at_, s) := reserve n (slots e) in Done at_ (set_slots s e).
Definition slots_declare (v : var) (t : ty) : Emit Z := fun e => let '(at_, s) := declare v t (slots e) in Done at_ (set_slots s e).

(** [slot]: a miss is a bug. *)
Definition slot_of (v : var) : Emit Z := fun e => match of_ (slots e) !! v with Some n => Done n e | None => Bug end.
Definition slots_has (v : var) : Emit bool := get (fun e => has v (slots e)).

(** ** Labels, frames and lines *)

Definition Mark (l : nat) : Emit unit := call (CodeWriter.CMark l).

(** [mark] revives the walk and [markAt] does not; [markHandler] is [mark]. *)
Definition mark (l : nat) : Emit unit := _ ← Mark l; put (set_alive true).
Definition markAt (l : nat) : Emit unit :=
  b ← Alive; if b : bool then Mark l else _ ← Mark l; dead.
Definition markHandler (l : nat) : Emit unit := _ ← Mark l; put (set_alive true).

Definition Goto (l : nat) : Emit unit := call (CodeWriter.CGoto l).
Definition If (k : CodeWriter.cond) (l : nat) : Emit unit := call (CodeWriter.CIf k l).

Definition push (label : bytes) (brk : nat) (cont : option nat) : Emit unit :=
  put (fun e => set_frames (mkFrame label brk cont (length (finallys e)) :: frames e) e).
Definition popFrame : Emit unit := put (fun e => set_frames (tail (frames e)) e).

(** [line], and the text of a label. *)
Definition line `{Program} (p : Z) : Emit unit := fun e =>
  match source with
  | None => Done tt e
  | Some f =>
      if p =? NoPos then Done tt e
      else
        let n := Line (ResolvePos f p) in
        if (0 <? n) && negb (n =? lastLine e) then
          Done tt (mkEmitter (out e ++ [CodeWriter.CLine n]) (nlabels e) (slots e) n (alive e) (frames e) (finallys e))
        else Done tt e
  end.

Definition labelName `{Program} (id : option Ident) : Emit bytes :=
  match id, source with
  | None, _ => mret []
  | Some i, Some f => must (ident_name f i)
  | Some _, None => bug
  end.

(** ** Loads and stores by type ([item.go]) *)

Definition local_type_of (t : ty) : CodeWriter.local_type :=
  match kind_of t with
  | KindBoolean | KindByte | KindChar | KindShort | KindInt => CodeWriter.TI
  | KindLong => CodeWriter.TL
  | KindFloat => CodeWriter.TF
  | KindDouble => CodeWriter.TD
  | _ => CodeWriter.TA
  end.

Definition Aload (slot : Z) : Emit unit := call (CodeWriter.CLoad CodeWriter.TA slot).
Definition Astore (slot : Z) : Emit unit := call (CodeWriter.CStore CodeWriter.TA slot).
Definition Iload (slot : Z) : Emit unit := call (CodeWriter.CLoad CodeWriter.TI slot).
Definition Istore (slot : Z) : Emit unit := call (CodeWriter.CStore CodeWriter.TI slot).

Definition loadLocal (slot : Z) (t : ty) : Emit unit := call (CodeWriter.CLoad (local_type_of t) slot).
Definition storeLocal (slot : Z) (t : ty) : Emit unit := call (CodeWriter.CStore (local_type_of t) slot).

Definition dupValue (t : ty) : Emit unit := Op_ (if Slots t =? 2 then Op.Dup2 else Op.Dup).

Definition pop (t : ty) : Emit unit :=
  if Slots t =? 0 then mret tt else Op_ (if Slots t =? 2 then Op.Pop2 else Op.Pop).

Definition arrayLoadOp (t : ty) : Z :=
  match kind_of t with
  | KindBoolean | KindByte => Op.Baload
  | KindChar => Op.Caload
  | KindShort => Op.Saload
  | KindInt => Op.Iaload
  | KindLong => Op.Laload
  | KindFloat => Op.Faload
  | KindDouble => Op.Daload
  | _ => Op.Aaload
  end.

Definition arrayStoreOp (t : ty) : Z :=
  match kind_of t with
  | KindBoolean | KindByte => Op.Bastore
  | KindChar => Op.Castore
  | KindShort => Op.Sastore
  | KindInt => Op.Iastore
  | KindLong => Op.Lastore
  | KindFloat => Op.Fastore
  | KindDouble => Op.Dastore
  | _ => Op.Aastore
  end.

Definition GetField (o n d : bytes) : Emit unit := call (CodeWriter.CField CodeWriter.AGetField o n d).
Definition PutField (o n d : bytes) : Emit unit := call (CodeWriter.CField CodeWriter.APutField o n d).
Definition GetStatic (o n d : bytes) : Emit unit := call (CodeWriter.CField CodeWriter.AGetStatic o n d).
Definition PutStatic (o n d : bytes) : Emit unit := call (CodeWriter.CField CodeWriter.APutStatic o n d).
Definition InvokeVirtual (o n d : bytes) : Emit unit := call (CodeWriter.CInvoke CodeWriter.CVirtual o n d).
Definition InvokeSpecial (o n d : bytes) : Emit unit := call (CodeWriter.CInvoke CodeWriter.CSpecial o n d).
Definition InvokeStatic (o n d : bytes) : Emit unit := call (CodeWriter.CInvoke CodeWriter.CStatic o n d).
Definition InvokeInterface (o n d : bytes) : Emit unit := call (CodeWriter.CInvoke CodeWriter.CInterface o n d).
Definition Iconst (v : Z) : Emit unit := call (CodeWriter.CIconst v).
Definition Lconst (v : Z) : Emit unit := call (CodeWriter.CLconst v).

(** ** Bit patterns of floating point constants

    [math.Float32bits] and [math.Float64bits]; a NaN is the quiet one. *)
Definition float_bits (prec emax : Z) (f : spec_float) : Z :=
  let sign (s : bool) := if s then Z.shiftl 1 (prec - 1 + Z.log2 (2 * emax)) else 0 in
  let hidden := 2 ^ (prec - 1) in
  let top := (2 * emax - 1) * hidden in
  match f with
  | S754_zero s => sign s
  | S754_infinity s => sign s + top
  | S754_nan => top + hidden / 2
  | S754_finite s m e =>
      sign s + (if Zpos m <? hidden then Zpos m else (e + emax + prec - 2) * hidden + (Zpos m - hidden))
  end.

Definition Fconst (f : spec_float) : Emit unit := call (CodeWriter.CFconst (float_bits 24 128 f)).
Definition Dconst (f : spec_float) : Emit unit := call (CodeWriter.CDconst (float_bits 53 1024 f)).
