(* ===== verification/LowerExpr.v ===== *)
(** * Emitting expressions ([lower/convert.go], [item.go], [cond.go], [expr.go],
    [string.go])

    Open recursion: [rExpr] is the emission of an expression below.  What the
    package uses and does not define is the class [Missing]. *)
From S2P Require Import Prelude.
From S2P Require Import Token SourceFile Ast AstWalk Types Fold Sym Emitter.
From S2P Require CodeWriter Op Desc.

(** [dup] of string.go; [switchStmt], [needAssertions] and [assertField] of
    stmt.go. *)
Class Missing := {
  dup : Z;
  switchStmt : Expr -> SwitchBlock -> bytes -> Emit unit;
  needAssertions : Emit unit;
  assertField : bytes }.

Class Emits := { rExpr : Expr -> Emit unit; rStmt : Stmt -> Emit unit; rBlock : Block -> Emit unit }.

(** The node of an expression or a type in the maps of attribution. *)
Definition key (x : Expr) : Any := node_of (tree_Expr x).
Definition tkey (t : Typ) : Any := node_of (tree_Typ t).

Section Expressions.
Context `{Program, Site, Missing}.

Definition Type_ (x : Expr) : ty := TypeAt (key x).
Definition use_var (n : Any) : option var := match Use n with Some (UVar v) => Some v | _ => None end.
Definition use_method (n : Any) : option meth := match Use n with Some (UMethod m) => Some m | _ => None end.
Definition is_type_name (n : Any) : bool := match Use n with Some (UClass _) => true | _ => false end.

Definition has_flag (f mask : Z) : bool := HasFlag f mask.
Definition is_static_var (v : var) : bool := HasFlag (vFlags (varSym v)) FlagStatic.
Definition is_static_method (m : meth) : bool := HasFlag (mFlags (methodSym m)) FlagStatic.
Definition is_interface (c : cls) : bool := HasFlag (cFlags (classSym c)) FlagInterface.

(** [ClassType.Binary] and [types.Descriptor(t).String()]. *)
Definition class_binary (s : option cls) : bytes := match s with Some c => Binary c | None => [] end.
Definition descriptor_of (t : ty) : option bytes := Desc.TyString <$> Descriptor type_fuel t.

Definition methodDesc (m : meth) : option bytes :=
  match mDescriptor (methodSym m) with
  | [] => MethodDescriptor type_fuel (MethodTypeOf m)
  | d => Some d
  end.

(** ** Conversions ([convert.go]) *)

Definition primitive_int (to : Kind) : Emit unit :=
  match to with
  | KindLong => Op_ Op.I2l
  | KindFloat => Op_ Op.I2f
  | KindDouble => Op_ Op.I2d
  | KindByte => Op_ Op.I2b
  | KindChar => Op_ Op.I2c
  | KindShort => Op_ Op.I2s
  | KindInt | KindBoolean => mret tt
  | _ => bug
  end.

(** Out of a long, float or double: to int, the two wider types, or below int
    by way of int. *)
Definition primitive_wide (i l f d : option Z) (to : Kind) : Emit unit :=
  match to with
  | KindInt => maybe Op_ i
  | KindLong => match l with Some o => Op_ o | None => bug end
  | KindFloat => match f with Some o => Op_ o | None => bug end
  | KindDouble => match d with Some o => Op_ o | None => bug end
  | KindByte | KindShort | KindChar => _ ← maybe Op_ i; primitive_int to
  | _ => bug
  end.

Definition primitive (from to : Kind) : Emit unit :=
  if bool_decide (from = to) then mret tt
  else match from with
  | KindBoolean | KindByte | KindShort | KindChar | KindInt => primitive_int to
  | KindLong => primitive_wide (Some Op.L2i) None (Some Op.L2f) (Some Op.L2d) to
  | KindFloat => primitive_wide (Some Op.F2i) (Some Op.F2l) None (Some Op.F2d) to
  | KindDouble => primitive_wide (Some Op.D2i) (Some Op.D2l) (Some Op.D2f) None to
  | _ => bug
  end.

(** Owner, descriptor of valueOf, the accessor and its descriptor. *)
Definition boxes (k : Kind) : option (bytes * bytes * bytes * bytes) :=
  match k with
  | KindBoolean => Some (bs "java/lang/Boolean", bs "(Z)Ljava/lang/Boolean;", bs "booleanValue", bs "()Z")
  | KindByte => Some (bs "java/lang/Byte", bs "(B)Ljava/lang/Byte;", bs "byteValue", bs "()B")
  | KindShort => Some (bs "java/lang/Short", bs "(S)Ljava/lang/Short;", bs "shortValue", bs "()S")
  | KindChar => Some (bs "java/lang/Character", bs "(C)Ljava/lang/Character;", bs "charValue", bs "()C")
  | KindInt => Some (bs "java/lang/Integer", bs "(I)Ljava/lang/Integer;", bs "intValue", bs "()I")
  | KindLong => Some (bs "java/lang/Long", bs "(J)Ljava/lang/Long;", bs "longValue", bs "()J")
  | KindFloat => Some (bs "java/lang/Float", bs "(F)Ljava/lang/Float;", bs "floatValue", bs "()F")
  | KindDouble => Some (bs "java/lang/Double", bs "(D)Ljava/lang/Double;", bs "doubleValue", bs "()D")
  | _ => None
  end.

Definition box (t : ty) : Emit unit :=
  match boxes (kind_of t) with Some (owner, d, _, _) => InvokeStatic owner (bs "valueOf") d | None => bug end.

Definition unbox (to : ty) : Emit unit :=
  match boxes (kind_of to) with
  | Some (owner, _, name, d) => _ ← call (CodeWriter.CCheckCast owner); InvokeVirtual owner name d
  | None => bug
  end.

Fixpoint castTarget (n : nat) (t : ty) : option bytes :=
  match n with
  | O => None
  | S n =>
      match t with
      | TClass s _ _ => Some (class_binary s)
      | TArray _ => descriptor_of t
      | TVar _ | TInter _ => e ← Erase type_fuel t; castTarget n e
      | _ => Some []
      end
  end.
Definition cast_target (t : ty) : Emit bytes := bounded (castTarget type_fuel t).

Definition refConvert (from to : ty) : Emit unit :=
  if bool_decide (kind_of to = KindNull) || IsError (Some to) then mret tt
  else if bool_decide (kind_of from = KindNull) || IsError (Some from) then mret tt
  else
    sub ← bounded (IsSubtype type_fuel from to);
    if sub : bool then mret tt
    else
      name ← cast_target to;
      match name with [] => mret tt | _ => call (CodeWriter.CCheckCast name) end.

Definition convert (from to : ty) : Emit unit :=
  if bool_decide (kind_of to = KindVoid) then mret tt
  else match IsPrimitive (kind_of from), IsPrimitive (kind_of to) with
  | true, true => primitive (kind_of from) (kind_of to)
  | true, false => box from
  | false, true => unbox to
  | false, false => refConvert from to
  end.

(** ** Items ([item.go]) *)

Inductive item :=
  | localItem (slot : Z) (t : ty)
  | staticItem (owner name desc : bytes) (t : ty)
  | fieldItem (owner name desc : bytes) (t : ty)
  | indexItem (t : ty).

Definition typ (i : item) : ty :=
  match i with localItem _ t | staticItem _ _ _ t | fieldItem _ _ _ t | indexItem t => t end.

Definition dupAddr (i : item) : Emit unit :=
  match i with
  | localItem _ _ | staticItem _ _ _ _ => mret tt
  | fieldItem _ _ _ _ => Op_ Op.Dup
  | indexItem _ => Op_ Op.Dup2
  end.

Definition load (i : item) : Emit unit :=
  match i with
  | localItem slot t => loadLocal slot t
  | staticItem o n d _ => GetStatic o n d
  | fieldItem o n d _ => GetField o n d
  | indexItem t => Op_ (arrayLoadOp t)
  end.

Definition store (i : item) : Emit unit :=
  match i with
  | localItem slot t => storeLocal slot t
  | staticItem o n d _ => PutStatic o n d
  | fieldItem o n d _ => PutField o n d
  | indexItem t => Op_ (arrayStoreOp t)
  end.

Definition stash (i : item) : Emit unit :=
  match i with
  | localItem _ t | staticItem _ _ _ t => dupValue t
  | fieldItem _ _ _ t => Op_ (if Slots t =? 2 then Op.Dup2X1 else Op.DupX1)
  | indexItem t => Op_ (if Slots t =? 2 then Op.Dup2X2 else Op.DupX2)
  end.

Definition fieldOwner (v : var) : Emit bytes := c ← must (vClass (varSym v)); mret (Binary c).

Definition itemFor (v : var) : Emit item :=
  let t := FieldType v in
  match vKind (varSym v) with
  | VarField =>
      d ← bounded (descriptor_of t);
      o ← fieldOwner v;
      mret ((if is_static_var v then staticItem else fieldItem) o (vName (varSym v)) d t)
  | _ => slot ← slot_of v; mret (localItem slot t)
  end.

(** ** Opcodes *)

Definition arithOp (k : Z) (t : Kind) : Emit Z :=
  match t with
  | KindLong =>
      if k =? ADD then mret Op.Ladd else if k =? SUB then mret Op.Lsub else if k =? MUL then mret Op.Lmul
      else if k =? QUO then mret Op.Ldiv else if k =? REM then mret Op.Lrem else if k =? AND then mret Op.Land
      else if k =? OR then mret Op.Lor else if k =? XOR then mret Op.Lxor else bug
  | KindFloat =>
      if k =? ADD then mret Op.Fadd else if k =? SUB then mret Op.Fsub else if k =? MUL then mret Op.Fmul
      else if k =? QUO then mret Op.Fdiv else if k =? REM then mret Op.Frem else bug
  | KindDouble =>
      if k =? ADD then mret Op.Dadd else if k =? SUB then mret Op.Dsub else if k =? MUL then mret Op.Dmul
      else if k =? QUO then mret Op.Ddiv else if k =? REM then mret Op.Drem else bug
  | _ =>
      if k =? ADD then mret Op.Iadd else if k =? SUB then mret Op.Isub else if k =? MUL then mret Op.Imul
      else if k =? QUO then mret Op.Idiv else if k =? REM then mret Op.Irem else if k =? AND then mret Op.Iand
      else if k =? OR then mret Op.Ior else if k =? XOR then mret Op.Ixor else bug
  end.

Definition shiftOp (k : Z) (t : Kind) : Emit Z :=
  let long := bool_decide (t = KindLong) in
  if k =? SHL then mret (if long then Op.Lshl else Op.Ishl)
  else if k =? SHR then mret (if long then Op.Lshr else Op.Ishr)
  else if k =? USHR then mret (if long then Op.Lushr else Op.Iushr)
  else bug.

Definition negOp (t : Kind) : Z :=
  match t with KindLong => Op.Lneg | KindFloat => Op.Fneg | KindDouble => Op.Dneg | _ => Op.Ineg end.

Definition cmpOp (t : Kind) (k : Z) : Emit Z :=
  let g := (k =? GTR) || (k =? GEQ) in
  match t with
  | KindLong => mret Op.Lcmp
  | KindFloat => mret (if g then Op.Fcmpg else Op.Fcmpl)
  | KindDouble => mret (if g then Op.Dcmpg else Op.Dcmpl)
  | _ => bug
  end.

Definition compoundOp (k : Z) : Emit Z :=
  if k =? ADD_ASSIGN then mret ADD else if k =? SUB_ASSIGN then mret SUB else if k =? MUL_ASSIGN then mret MUL
  else if k =? QUO_ASSIGN then mret QUO else if k =? REM_ASSIGN then mret REM else if k =? AND_ASSIGN then mret AND
  else if k =? OR_ASSIGN then mret OR else if k =? XOR_ASSIGN then mret XOR else if k =? SHL_ASSIGN then mret SHL
  else if k =? SHR_ASSIGN then mret SHR else if k =? USHR_ASSIGN then mret USHR else bug.

Definition is_shift (k : Z) : bool := (k =? SHL) || (k =? SHR) || (k =? USHR).

(** [e.c.Op(arithOp(k, t))] and its siblings. *)
Definition emit_op (o : Emit Z) : Emit unit := o ← o; Op_ o.

(** ** Conditions ([cond.go]) *)

Definition isNullLit (x : Expr) : bool := match x with BasicLit _ kind => kind =? NULL | _ => false end.

Definition eq (k : Z) : bool := k =? EQL.

Definition invert (k : Z) : Emit Z :=
  if k =? EQL then mret NEQ else if k =? NEQ then mret EQL else if k =? LSS then mret GEQ else if k =? GEQ then mret LSS
  else if k =? GTR then mret LEQ else if k =? LEQ then mret GTR else bug.

Definition branchZero (target : nat) (when : bool) : Emit unit := If (if when then CodeWriter.Ne else CodeWriter.Eq) target.

Definition branchNull (k : Z) (target : nat) (when : bool) : Emit unit :=
  If (if Bool.eqb (eq k) when then CodeWriter.Null else CodeWriter.NonNull) target.

Definition branchAgainstZero (k : Z) (target : nat) : Emit unit :=
  if k =? EQL then If CodeWriter.Eq target else if k =? NEQ then If CodeWriter.Ne target
  else if k =? LSS then If CodeWriter.Lt target else if k =? LEQ then If CodeWriter.Le target
  else if k =? GTR then If CodeWriter.Gt target else if k =? GEQ then If CodeWriter.Ge target else bug.

Definition branchInts (k : Z) (target : nat) : Emit unit :=
  if k =? EQL then If CodeWriter.ICmpEq target else if k =? NEQ then If CodeWriter.ICmpNe target
  else if k =? LSS then If CodeWriter.ICmpLt target else if k =? LEQ then If CodeWriter.ICmpLe target
  else if k =? GTR then If CodeWriter.ICmpGt target else if k =? GEQ then If CodeWriter.ICmpGe target else bug.

Context `{Emits}.

Definition exprAs (x : Expr) (want : ty) : Emit unit := _ ← rExpr x; convert (Type_ x) want.

Definition compare_refs (X Y : Expr) (Op : Z) (target : nat) (when : bool) : Emit unit :=
  if isNullLit Y then _ ← rExpr X; branchNull Op target when
  else if isNullLit X then _ ← rExpr Y; branchNull Op target when
  else _ ← rExpr X; _ ← rExpr Y; If (if Bool.eqb (eq Op) when then CodeWriter.ACmpEq else CodeWriter.ACmpNe) target.

Definition compare (X Y : Expr) (Op : Z) (target : nat) (when : bool) : Emit unit :=
  let lt := Type_ X in
  let rt := Type_ Y in
  if IsReference lt && IsReference rt then compare_refs X Y Op target when
  else
    let p := PromoteBinary lt rt in
    _ ← rExpr X; _ ← convert lt p;
    _ ← rExpr Y; _ ← convert rt p;
    k ← (if when then mret Op else invert Op);
    if bool_decide (kind_of p = KindInt) || bool_decide (kind_of p = KindBoolean) then branchInts k target
    else _ ← emit_op (cmpOp (kind_of p) k); branchAgainstZero k target.

Definition condAnd (X Y : nat -> bool -> Emit unit) (target : nat) (when : bool) : Emit unit :=
  if when then skip ← NewLabel; _ ← X skip false; _ ← Y target true; Mark skip
  else _ ← X target false; Y target false.

Definition condOr (X Y : nat -> bool -> Emit unit) (target : nat) (when : bool) : Emit unit :=
  if when then _ ← X target true; Y target true
  else skip ← NewLabel; _ ← X skip true; _ ← Y target false; Mark skip.

(** The last resort: a boolean value, tested. *)
Definition cond_value_test (x : Expr) (target : nat) (when : bool) : Emit unit := _ ← rExpr x; branchZero target when.

Definition const_bool (x : Expr) : option bool :=
  match ConstAt x with Some k => match cValue k with Some (VBool b) => Some b | _ => None end | None => None end.

Definition is_comparison (k : Z) : bool :=
  (k =? EQL) || (k =? NEQ) || (k =? LSS) || (k =? GTR) || (k =? LEQ) || (k =? GEQ).

Fixpoint cond (x : Expr) (target : nat) (when : bool) {struct x} : Emit unit :=
  match const_bool x with
  | Some b => if Bool.eqb b when then Goto target else mret tt
  | None =>
      match x with
      | ParenExpr _ _ X _ => cond X target when
      | UnaryExpr _ Op _ X => if Op =? NOT then cond X target (negb when) else cond_value_test x target when
      | BinaryExpr _ X Op _ _ Y =>
          if Op =? LAND then condAnd (cond X) (cond Y) target when
          else if Op =? LOR then condOr (cond X) (cond Y) target when
          else if is_comparison Op then compare X Y Op target when
          else cond_value_test x target when
      | InstanceOfExpr _ X _ (Some t) _ =>
          _ ← rExpr X;
          name ← cast_target (TypeAt (tkey t));
          _ ← call (CodeWriter.CInstanceOf name);
          branchZero target when
      | InstanceOfExpr _ X _ None _ => _ ← rExpr X; bug
      | _ => cond_value_test x target when
      end
  end.

Definition condValue (x : Expr) : Emit unit :=
  t ← NewLabel; _ ← NewLabel; done ← NewLabel;
  _ ← cond x t true;
  _ ← Iconst 0;
  _ ← Goto done;
  _ ← Mark t;
  _ ← Iconst 1;
  Mark done.

(** ** Names and members ([expr.go]) *)

Definition constant_value (k : Constant) : option (Emit unit) :=
  match cValue k with
  | Some (VBool b) => Some (Iconst (if b then 1 else 0))
  | Some (VInt v) => Some (Iconst v)
  | Some (VLong v) => Some (Lconst v)
  | Some (VFloat v) => Some (Fconst v)
  | Some (VDouble v) => Some (Dconst v)
  | Some (VStr s) => Some (call (CodeWriter.CSconst s))
  | None => None
  end.

Definition literal (kind : Z) : Emit unit := if kind =? NULL then call CodeWriter.CAconstNull else bug.

Definition captureOf (v : var) : option captureField := head (filter (fun c => cpLocal c = v) captures).

Definition ownerClass (s : use) : option cls :=
  match s with UMethod m => mClass (methodSym m) | UVar v => vClass (varSym v) | _ => None end.

Definition base_of (s : use) : bytes * Z :=
  match s with
  | UMethod m => (mName (methodSym m), mFlags (methodSym m))
  | UVar v => (vName (varSym v), vFlags (varSym v))
  | UClass c => (cName (classSym c), cFlags (classSym c))
  | UOther => ([], 0)
  end.

Definition accessorFor (s : use) : option accessorRec :=
  match ownerClass s with
  | None => None
  | Some owner =>
      if bool_decide (owner = this_class) || negb (HasFlag (snd (base_of s)) FlagPrivate) then None
      else accessors (Binary owner ++ bs "." ++ fst (base_of s))
  end.

(** The field [this$0] of a class, of the type of the class around it. *)
Definition load_outer (c : cls) : Emit cls :=
  o ← must (cOuter (classSym c));
  _ ← GetField (Binary c) (bs "this$0") (bs "L" ++ Binary o ++ bs ";");
  mret o.

Fixpoint walk_out (n : nat) (owner c : cls) : Emit unit :=
  match n with
  | O => spin
  | S n => if bool_decide (c = owner) then mret tt else c ← load_outer c; walk_out n owner c
  end.

Definition loadEnclosing (owner : option cls) : Emit unit :=
  _ ← Aload 0;
  match owner, thisField with
  | Some o, _ :: _ => walk_out type_fuel o this_class
  | _, _ => mret tt
  end.

Definition get_capture (c : captureField) : Emit unit := _ ← Aload 0; GetField (Binary this_class) (cpName c) (cpDesc c).

Definition loadVar (v : var) : Emit unit :=
  match captureOf v with
  | Some c => get_capture c
  | None =>
      let s := varSym v in
      match vKind s with
      | VarField =>
          d ← bounded (descriptor_of (FieldType v));
          if is_static_var v then o ← fieldOwner v; GetStatic o (vName s) d
          else
            _ ← loadEnclosing (vClass s);
            match accessorFor (UVar v) with
            | Some acc => InvokeStatic (Binary this_class) (acName acc) (bs "(L" ++ acOwner acc ++ bs ";)" ++ acDesc acc)
            | None => o ← fieldOwner v; GetField o (vName s) d
            end
      | _ =>
          b ← slots_has v;
          if b : bool then slot ← slot_of v; loadLocal slot (FieldType v) else bug
      end
  end.

Definition name_ (x : Expr) : Emit unit :=
  match Use (key x) with Some (UVar v) => loadVar v | Some (UClass _) => mret tt | _ => bug end.

Definition selector (x X : Expr) : Emit unit :=
  match use_var (key x) with
  | None => rExpr X
  | Some v =>
      d ← bounded (descriptor_of (FieldType v));
      if is_static_var v then o ← fieldOwner v; GetStatic o (vName (varSym v)) d
      else if bool_decide (vName (varSym v) = bs "length") && bool_decide (kind_of (Type_ X) = KindArray) then
        _ ← rExpr X; Op_ Op.Arraylength
      else _ ← rExpr X; o ← fieldOwner v; GetField o (vName (varSym v)) d
  end.

Definition index (x X Index : Expr) : Emit unit := _ ← rExpr X; _ ← exprAs Index Int_; Op_ (arrayLoadOp (Type_ x)).

Fixpoint walk_to (n : nat) (want : bytes) (c : cls) : Emit unit :=
  match n with
  | O => spin
  | S n =>
      if bool_decide (Dotted (Binary c) = want) then mret tt
      else match cOuter (classSym c) with None => mret tt | Some _ => c ← load_outer c; walk_to n want c end
  end.

Definition thisRef (Qualifier : option Name) : Emit unit :=
  _ ← Aload 0;
  match Qualifier with
  | None => mret tt
  | Some q => f ← must source; want ← must (NameString q f); walk_to type_fuel want this_class
  end.

Definition classLit (t : option Typ) : Emit unit :=
  match t with
  | None => GetStatic (bs "java/lang/Void") (bs "TYPE") (bs "Ljava/lang/Class;")
  | Some t =>
      let t := TypeAt (tkey t) in
      if IsPrimitive (kind_of t) then
        b ← must (boxes (kind_of t));
        let '(owner, _, _, _) := b in GetStatic owner (bs "TYPE") (bs "Ljava/lang/Class;")
      else name ← cast_target t; call (CodeWriter.CCconst name)
  end.

(** ** Arrays *)

Definition primitiveArrayCode (t : ty) : option Z :=
  match kind_of t with
  | KindBoolean => Some Op.TBoolean
  | KindChar => Some Op.TChar
  | KindFloat => Some Op.TFloat
  | KindDouble => Some Op.TDouble
  | KindByte => Some Op.TByte
  | KindShort => Some Op.TShort
  | KindInt => Some Op.TInt
  | KindLong => Some Op.TLong
  | _ => None
  end.

Definition newArrayOf (elem : ty) : Emit unit :=
  match primitiveArrayCode elem with
  | Some code => call (CodeWriter.CNewArray code)
  | None => name ← cast_target elem; call (CodeWriter.CANewArray name)
  end.

(** [initValue]: an array initializer is an expression too, and meets that case
    first. *)
Definition initValue (n : Node) (want : ty) : Emit unit :=
  match n with NExpr x => exprAs x want | _ => bug end.

(** The elements of a new array, each stored at its index. *)
Fixpoint elements {A} (g : A -> Emit unit) (elem : ty) (i : Z) (l : list A) : Emit unit :=
  match l with
  | [] => mret tt
  | a :: l =>
      _ ← Op_ Op.Dup;
      _ ← Iconst (s32 i);
      _ ← g a;
      _ ← Op_ (arrayStoreOp elem);
      elements g elem (i + 1) l
  end.

Definition arrayInit (a : ArrayInit) (want : ty) : Emit unit :=
  match a, want with
  | mkArrayInit _ _ Elts _ _, TArray elem =>
      _ ← Iconst (s32 (len Elts));
      _ ← newArrayOf elem;
      elements (fun el => initValue el elem) elem 0 Elts
  | _, _ => bug
  end.

Definition dim_expr (d : DimExpr) : Expr := match d with mkDimExpr _ _ _ X _ => X end.

Definition newArray (x : Expr) (DimExprs : list DimExpr) (Init : option ArrayInit) : Emit unit :=
  let t := Type_ x in
  match Init with
  | Some a => arrayInit a t
  | None =>
      match DimExprs with
      | [d] =>
          _ ← exprAs (dim_expr d) Int_;
          match t with TArray elem => newArrayOf elem | _ => bug end
      | _ =>
          _ ← each (fun d => exprAs (dim_expr d) Int_) DimExprs;
          d ← bounded (descriptor_of t);
          call (CodeWriter.CMultiANewArray d (len DimExprs))
      end
  end.

(** ** Calls *)

Definition isSuperCall (X : option Expr) : bool := match X with Some (Ast.Super _ _ _) => true | _ => false end.

Definition receiver (X : option Expr) (m : meth) : Emit unit :=
  match X with
  | None => loadEnclosing (mClass (methodSym m))
  | Some (Ast.Super _ _ _) => Aload 0
  | Some x => if is_type_name (key x) then mret tt else rExpr x
  end.

Definition passedAsArray (args : list Expr) (ps : list ty) : bool :=
  bool_decide (length args = length ps) &&
  match last args with
  | Some a => bool_decide (kind_of (Type_ a) = KindArray) || bool_decide (kind_of (Type_ a) = KindNull)
  | None => false
  end.

(** Arguments against parameters; one past the parameters is not converted. *)
Fixpoint args_as (args : list Expr) (ps : list ty) : Emit unit :=
  match args, ps with
  | [], _ => mret tt
  | a :: args, p :: ps => _ ← exprAs a p; args_as args ps
  | a :: args, [] => _ ← rExpr a; args_as args []
  end.

Definition varargs (args : list Expr) (ps : list ty) (lastp : ty) : Emit unit :=
  let np := length ps in
  if Nat.ltb (length args) (np - 1) then bug
  else
    _ ← args_as (take (np - 1) args) ps;
    match lastp with
    | TArray elem =>
        let rest := drop (np - 1) args in
        _ ← Iconst (s32 (len rest));
        _ ← newArrayOf elem;
        elements (fun a => exprAs a elem) elem 0 rest
    | _ => bug
    end.

Definition args (args : list Expr) (mt : MethodType) (variable : bool) : Emit unit :=
  match last (Params mt) with
  | Some lastp => if variable && negb (passedAsArray args (Params mt)) then varargs args (Params mt) lastp else args_as args (Params mt)
  | None => args_as args []
  end.

Definition method_args (l : list Expr) (m : meth) : Emit unit := args l (MethodTypeOf m) (HasFlag (mFlags (methodSym m)) FlagVarargs).

(** [prependParam]: the descriptor is sliced from its second byte. *)
Definition prependParam (descriptor param : bytes) : bytes := bs "(" ++ param ++ drop 1 descriptor.

Definition callExpr (x : Expr) (X : option Expr) (Args : list Expr) : Emit unit :=
  m ← must (use_method (key x));
  d ← bounded (methodDesc m);
  c ← must (mClass (methodSym m));
  let name := mName (methodSym m) in
  let static := is_static_method m in
  match accessorFor (UMethod m) with
  | Some acc =>
      _ ← when (negb static) (receiver X m);
      _ ← method_args Args m;
      InvokeStatic (Binary this_class) (acName acc) (if static then d else prependParam d (bs "L" ++ acOwner acc ++ bs ";"))
  | None =>
      _ ← when (negb static) (receiver X m);
      _ ← method_args Args m;
      if static then InvokeStatic (Binary c) name d
      else if isSuperCall X || HasFlag (mFlags (methodSym m)) FlagPrivate then InvokeSpecial (Binary c) name d
      else if is_interface c then InvokeInterface (Binary c) name d
      else InvokeVirtual (Binary c) name d
  end.

Definition needsOuter (t : ty) : bool :=
  match t with
  | TClass (Some c) _ _ =>
      match cOuter (classSym c) with Some _ => negb (HasFlag (cFlags (classSym c)) FlagStatic) | None => false end
  | _ => false
  end.

Definition newExpr (x : Expr) (Outer : option Expr) (Args : list Expr) : Emit unit :=
  let t := Type_ x in
  binary ← cast_target t;
  _ ← call (CodeWriter.CNew binary);
  _ ← Op_ Op.Dup;
  _ ← match Outer with Some o => rExpr o | None => when (needsOuter t) (Aload 0) end;
  d ← match use_method (key x) with
      | None => mret (bs "()V")
      | Some m => d ← bounded (methodDesc m); _ ← method_args Args m; mret d
      end;
  InvokeSpecial binary InitName d.

(** [lambdaValue]: the implementor, its enclosing instance and captures. *)
Definition lambdaFor (x : Expr) : option lambdaRec := head (filter (fun r => same_expr (laNode r) x = true) lambdas).

Fixpoint load_captures (vs : list var) (desc : bytes) : Emit bytes :=
  match vs with
  | [] => mret desc
  | v :: vs =>
      _ ← match captureOf v with
          | Some c => get_capture c
          | None => slot ← slot_of v; loadLocal slot (FieldType v)
          end;
      d ← bounded (descriptor_of (FieldType v));
      load_captures vs (desc ++ d)
  end.

Definition lambdaValue (x : Expr) : Emit unit :=
  rec ← must (lambdaFor x);
  _ ← call (CodeWriter.CNew (laBinary rec));
  _ ← Op_ Op.Dup;
  _ ← when (negb (laStatic rec)) (Aload 0);
  desc ← load_captures (laCaptures rec) (if laStatic rec then bs "(" else bs "(L" ++ Binary this_class ++ bs ";");
  InvokeSpecial (laBinary rec) InitName (desc ++ bs ")V").

(** ** String concatenation ([string.go]) *)

Definition sbName : bytes := bs "java/lang/StringBuilder".

Definition is_string (t : ty) : bool := match t with TClass s _ _ => bool_decide (class_binary s = StringName) | _ => false end.
Definition isConcat (x : Expr) : bool := is_string (Type_ x).

Definition append (x : Expr) : Emit unit :=
  let t := Type_ x in
  _ ← rExpr x;
  desc ← match kind_of t with
         | KindBoolean => mret (bs "(Z)Ljava/lang/StringBuilder;")
         | KindChar => mret (bs "(C)Ljava/lang/StringBuilder;")
         | KindByte | KindShort | KindInt => _ ← convert t Int_; mret (bs "(I)Ljava/lang/StringBuilder;")
         | KindLong => mret (bs "(J)Ljava/lang/StringBuilder;")
         | KindFloat => mret (bs "(F)Ljava/lang/StringBuilder;")
         | KindDouble => mret (bs "(D)Ljava/lang/StringBuilder;")
         | KindNull => mret (bs "(Ljava/lang/String;)Ljava/lang/StringBuilder;")
         | _ => mret (if is_string t then bs "(Ljava/lang/String;)Ljava/lang/StringBuilder;"
                      else bs "(Ljava/lang/Object;)Ljava/lang/StringBuilder;")
         end;
  InvokeVirtual sbName (bs "append") desc.

Fixpoint concat_walk (x : Expr) {struct x} : Emit unit :=
  match x with
  | ParenExpr _ _ X _ => concat_walk X
  | BinaryExpr _ X Op _ _ Y => if (Op =? ADD) && isConcat x then _ ← concat_walk X; concat_walk Y else append x
  | _ => append x
  end.

Definition concat (X Y : Expr) : Emit unit :=
  _ ← call (CodeWriter.CNew sbName);
  _ ← Op_ dup;
  _ ← InvokeSpecial sbName InitName (bs "()V");
  _ ← concat_walk X;
  _ ← concat_walk Y;
  InvokeVirtual sbName (bs "toString") (bs "()Ljava/lang/String;").

(** ** Operators ([expr.go]) *)

Definition binary (x X : Expr) (Op : Z) (Y : Expr) : Emit unit :=
  if (Op =? LAND) || (Op =? LOR) || is_comparison Op then condValue x
  else if (Op =? ADD) && isConcat x then concat X Y
  else
    let rest := Type_ x in
    if is_shift Op then _ ← exprAs X rest; _ ← exprAs Y Int_; emit_op (shiftOp Op (kind_of rest))
    else
      let p := PromoteBinary (Type_ X) (Type_ Y) in
      _ ← exprAs X p; _ ← exprAs Y p; emit_op (arithOp Op (kind_of p)).

(** *** Assignable expressions *)

Fixpoint lvalue (x : Expr) {struct x} : Emit item :=
  match x with
  | ParenExpr _ _ X _ => lvalue X
  | IndexExpr _ X _ Index _ => _ ← rExpr X; _ ← exprAs Index Int_; mret (indexItem (Type_ x))
  | SelectorExpr _ X _ _ =>
      v ← must (use_var (key x));
      if is_static_var v then itemFor v else _ ← rExpr X; itemFor v
  | _ =>
      v ← must (use_var (key x));
      _ ← when (bool_decide (vKind (varSym v) = VarField) && negb (is_static_var v)) (loadEnclosing (vClass (varSym v)));
      itemFor v
  end.

(** Read, operate, narrow: what a compound assignment does to the value. *)
Definition compound (t : ty) (Op : Z) (RHS : Expr) : Emit unit :=
  binOp ← compoundOp Op;
  if is_shift binOp then _ ← exprAs RHS Int_; emit_op (shiftOp binOp (kind_of t))
  else if (binOp =? ADD) && is_string t then bug
  else
    let p := PromoteBinary t (Type_ RHS) in
    _ ← convert t p; _ ← exprAs RHS p; _ ← emit_op (arithOp binOp (kind_of p)); convert p t.

Definition assign (LHS : Expr) (Op : Z) (RHS : Expr) (value : bool) : Emit unit :=
  it ← lvalue LHS;
  if Op =? ASSIGN then
    _ ← initValue (NExpr RHS) (typ it); _ ← when value (stash it); store it
  else
    _ ← dupAddr it;
    _ ← load it;
    _ ← compound (typ it) Op RHS;
    _ ← when value (stash it);
    store it.

Definition pushOne (t : ty) (delta : Z) : Emit unit :=
  match kind_of t with
  | KindLong => Lconst delta
  | KindFloat => Fconst (float32_of (f64_of_int delta))
  | KindDouble => Dconst (f64_of_int delta)
  | _ => Iconst delta
  end.

Definition simpleIntLocal (x : Expr) : Emit (option var) :=
  match x with
  | EIdent i =>
      match use_var (AIdent i) with
      | None => mret None
      | Some v =>
          if bool_decide (vKind (varSym v) = VarField) || bool_decide (is_Some (captureOf v)) then mret None
          else if negb (bool_decide (kind_of (FieldType v) = KindInt)) then mret None
          else b ← slots_has v; mret (if b : bool then Some v else None)
      end
  | _ => mret None
  end.

Definition incdec (x : Expr) (kind : Z) (value postfix : bool) : Emit unit :=
  let delta := if kind =? DEC then -1 else 1 in
  let t := Type_ x in
  simple ← simpleIntLocal x;
  match simple with
  | Some v =>
      slot ← slot_of v;
      _ ← when (value && postfix) (Iload slot);
      _ ← call (CodeWriter.CIinc slot delta);
      when (value && negb postfix) (Iload slot)
  | None =>
      it ← lvalue x;
      _ ← dupAddr it;
      _ ← load it;
      _ ← when (value && postfix) (stash it);
      let p := Promote t in
      _ ← convert t p;
      _ ← pushOne p delta;
      _ ← emit_op (arithOp ADD (kind_of p));
      _ ← convert p t;
      _ ← when (value && negb postfix) (stash it);
      store it
  end.

Definition unary (x : Expr) (Op : Z) (X : Expr) : Emit unit :=
  if Op =? NOT then condValue x
  else if Op =? ADD then exprAs X (Type_ x)
  else if Op =? SUB then _ ← exprAs X (Type_ x); Op_ (negOp (kind_of (Type_ x)))
  else if Op =? TILDE then
    _ ← exprAs X (Type_ x);
    if bool_decide (kind_of (Type_ x) = KindLong) then _ ← Lconst (-1); Op_ Op.Lxor else _ ← Iconst (-1); Op_ Op.Ixor
  else if (Op =? INC) || (Op =? DEC) then incdec X Op true false
  else bug.

Definition cast (x X : Expr) : Emit unit := _ ← rExpr X; convert (Type_ X) (Type_ x).

Definition instanceOf (X : Expr) (type : option Typ) (pattern : option Pattern) : Emit unit :=
  _ ← rExpr X;
  match type with
  | Some t => name ← cast_target (TypeAt (tkey t)); call (CodeWriter.CInstanceOf name)
  | None =>
      match pattern with
      | Some (TypePattern _ _ type name) =>
          let t := TypeAt (tkey type) in
          v ← must (use_var (AIdent name));
          slot ← slots_declare v t;
          no ← NewLabel; done ← NewLabel;
          _ ← Op_ Op.Dup;
          target ← cast_target t;
          _ ← call (CodeWriter.CInstanceOf target);
          _ ← If CodeWriter.Eq no;
          _ ← call (CodeWriter.CCheckCast target);
          _ ← storeLocal slot t;
          _ ← Iconst 1;
          _ ← Goto done;
          _ ← dead;
          _ ← mark no;
          _ ← Op_ Op.Pop;
          _ ← Iconst 0;
          mark done
      | _ => bug
      end
  end.

Definition condExpr (x Cond Then Else : Expr) : Emit unit :=
  let t := Type_ x in
  els ← NewLabel; done ← NewLabel;
  _ ← cond Cond els false;
  _ ← exprAs Then t;
  _ ← Goto done;
  _ ← dead;
  _ ← mark els;
  _ ← exprAs Else t;
  mark done.

(** ** Every expression *)

Definition expr_node (x : Expr) : Emit unit :=
  match x with
  | ParenExpr _ _ X _ => rExpr X
  | BasicLit _ kind => literal kind
  | EIdent _ | EName _ => name_ x
  | SelectorExpr _ X _ _ => selector x X
  | IndexExpr _ X _ Index _ => index x X Index
  | CallExpr _ X _ _ _ Args _ => callExpr x X Args
  | NewExpr _ Outer _ _ _ _ Args _ _ _ _ => newExpr x Outer Args
  | NewArrayExpr _ _ _ DimExprs _ Init => newArray x DimExprs Init
  | AssignExpr _ LHS Op _ _ RHS => assign LHS Op RHS true
  | BinaryExpr _ X Op _ _ Y => binary x X Op Y
  | UnaryExpr _ Op _ X => unary x Op X
  | PostfixExpr _ X Op _ => incdec X Op true true
  | CastExpr _ _ _ _ _ X => cast x X
  | CondExpr _ Cond _ Then _ Else => condExpr x Cond Then Else
  | InstanceOfExpr _ X _ type pattern => instanceOf X type pattern
  | This _ q _ => thisRef q
  | ClassLit _ type _ _ _ => classLit type
  | LambdaExpr _ _ _ _ _ _ _ | MethodRef _ _ _ _ _ _ => lambdaValue x
  | Ast.Super _ _ _ => Aload 0
  | EArrayInit _ | SwitchExpr _ _ _ _ | BadExpr _ => bug
  end.

Definition expr (x : Expr) : Emit unit :=
  match ConstAt x ≫= constant_value with Some m => m | None => expr_node x end.
End Expressions.
