(* ===== verification/LowerStmt.v ===== *)
(** * Emitting statements and bodies ([lower/stmt.go], [capture.go], [bridge.go])

    A [finally] block is emitted once for every path out of its [try]; the
    blocks a jump crosses are a stack, the innermost first, as are the targets
    of break and continue. *)
From S2P Require Import Prelude.
From S2P Require Import Token SourceFile Ast AstWalk Types Fold Sym Emitter LowerExpr.
From S2P Require CodeWriter Op Desc.

(** ** What pass one leaves for a body ([declare.go], [bridge.go]) *)

Record initEntry := mkInit { inField : option var; inInit : option Node; inBlock : option Block; inPos : Z }.

(** [explicit] is the [ConstructorCall] the body opens with. *)
Record ctorPlan := mkCtorPlan { inits : list initEntry; explicit : option Stmt; bodyFrom : nat }.

Record bridgeRec := mkBridge { brName : bytes; brFrom : bytes; brTo : bytes }.

(** [pbMethod] is the [MethodBuilder]; [pbM] the symbol. *)
Record pendingBody := mkPending {
  pbMethod : nat;
  pbM : option meth;
  pbBody : option Block;
  pbCtor : option ctorPlan;
  pbClinit : option (list initEntry);
  pbBridge : option bridgeRec;
  pbAccessor : option (accessorRec * bytes);
  pbLambda : option Node }.

Section Statements.
Context `{Program, Site, Missing, Emits}.

(** ** Finally blocks *)

Definition inlineFinally (b : Block) : Emit unit :=
  saved ← get finallys;
  _ ← put (set_finallys []);
  _ ← rBlock b;
  put (set_finallys saved).

Definition runFinallys (down : nat) : Emit unit :=
  l ← get finallys;
  each (fun r => inlineFinally (fblock r)) (take (length l - down) l).

(** ** Blocks *)

Definition block (b : Block) : Emit unit :=
  match b with
  | mkBlock _ _ Stmts _ => mark ← slots_mark; _ ← each rStmt Stmts; slots_release mark
  end.

Definition exprStmt (x : Expr) : Emit unit :=
  match x with
  | AssignExpr _ LHS Op _ _ RHS => assign LHS Op RHS false
  | UnaryExpr _ Op _ X =>
      if (Op =? INC) || (Op =? DEC) then incdec X Op false false else _ ← rExpr x; pop (Type_ x)
  | PostfixExpr _ X Op _ => incdec X Op false false
  | _ => _ ← rExpr x; pop (Type_ x)
  end.

Definition declare_local (d : VarDeclarator) : Emit unit :=
  match d with
  | mkVarDeclarator _ name _ _ Init =>
      match use_var (AIdent name) with
      | None => mret tt
      | Some v =>
          let t := FieldType v in
          slot ← slots_declare v t;
          maybe (fun i => _ ← initValue i t; storeLocal slot t) Init
      end
  end.

Definition declStmt (d : Decl) : Emit unit :=
  match d with DVar (mkVarDecl _ _ _ Names _) => each declare_local Names | _ => mret tt end.

Definition ifStmt (Cond : Expr) (Then : Stmt) (Else : option Stmt) : Emit unit :=
  els ← NewLabel; end_ ← NewLabel;
  match Else with
  | None => _ ← cond Cond els false; _ ← rStmt Then; mark els
  | Some Else =>
      _ ← cond Cond els false;
      _ ← rStmt Then;
      thenAlive ← Alive;
      _ ← when thenAlive (_ ← Goto end_; dead);
      _ ← mark els;
      _ ← rStmt Else;
      elseAlive ← Alive;
      when (elseAlive || thenAlive) (mark end_)
  end.

(** ** Loops *)

(** The body of a loop, within its frame. *)
Definition loop_body (label : bytes) (brk cont : nat) (Body : Stmt) : Emit unit :=
  _ ← push label brk (Some cont); _ ← rStmt Body; popFrame.

(** [if e.alive { e.c.Goto(top); e.alive = false }] *)
Definition goto_if_alive (top : nat) : Emit unit := b ← Alive; when b (_ ← Goto top; dead).

Definition whileStmt (Cond : Expr) (Body : Stmt) (label : bytes) : Emit unit :=
  top ← NewLabel; cont ← NewLabel; brk ← NewLabel;
  _ ← Goto cont;
  _ ← dead;
  _ ← mark top;
  _ ← loop_body label brk cont Body;
  _ ← mark cont;
  _ ← cond Cond top true;
  mark brk.

Definition doStmt (Body : Stmt) (Cond : Expr) (label : bytes) : Emit unit :=
  top ← NewLabel; cont ← NewLabel; brk ← NewLabel;
  _ ← mark top;
  _ ← loop_body label brk cont Body;
  _ ← mark cont;
  _ ← cond Cond top true;
  mark brk.

Definition forStmt (Init : list Stmt) (Cond : option Expr) (Post : list Expr) (Body : Stmt) (label : bytes) : Emit unit :=
  m ← slots_mark;
  _ ← each rStmt Init;
  top ← NewLabel; cont ← NewLabel; brk ← NewLabel;
  _ ← mark top;
  _ ← maybe (fun c => cond c brk false) Cond;
  _ ← loop_body label brk cont Body;
  _ ← mark cont;
  _ ← each exprStmt Post;
  _ ← goto_if_alive top;
  _ ← mark brk;
  slots_release m.

Definition rangeVar (d : VarDecl) : Emit var :=
  match d with
  | mkVarDecl _ _ _ [mkVarDeclarator _ name _ _ _] _ => must (use_var (AIdent name))
  | _ => bug
  end.

Definition rangeArray (d : VarDecl) (X : Expr) (Body : Stmt) (label : bytes) (elem : ty) : Emit unit :=
  m ← slots_mark;
  arr ← slots_reserve 1; idx ← slots_reserve 1; lim ← slots_reserve 1;
  _ ← rExpr X;
  _ ← Astore arr; _ ← Aload arr; _ ← Op_ Op.Arraylength; _ ← Istore lim; _ ← Iconst 0; _ ← Istore idx;
  top ← NewLabel; cont ← NewLabel; brk ← NewLabel;
  _ ← mark top;
  _ ← Iload idx; _ ← Iload lim; _ ← If CodeWriter.ICmpGe brk;
  v ← rangeVar d;
  let vt := FieldType v in
  slot ← slots_declare v vt;
  _ ← Aload arr; _ ← Iload idx; _ ← Op_ (arrayLoadOp elem); _ ← convert elem vt; _ ← storeLocal slot vt;
  _ ← loop_body label brk cont Body;
  _ ← mark cont;
  _ ← call (CodeWriter.CIinc idx 1);
  _ ← goto_if_alive top;
  _ ← mark brk;
  slots_release m.

(** A call on a value of a class or an interface. *)
Definition invoke_on (t : ty) (name descriptor : bytes) : Emit unit :=
  match t with
  | TClass (Some c) _ _ =>
      if is_interface c then InvokeInterface (Binary c) name descriptor else o ← cast_target t; InvokeVirtual o name descriptor
  | _ => o ← cast_target t; InvokeVirtual o name descriptor
  end.

Definition rangeIterator (d : VarDecl) (X : Expr) (Body : Stmt) (label : bytes) : Emit unit :=
  m ← slots_mark;
  it ← slots_reserve 1;
  _ ← rExpr X;
  _ ← invoke_on (Type_ X) (bs "iterator") (bs "()Ljava/util/Iterator;");
  _ ← Astore it;
  top ← NewLabel; cont ← NewLabel; brk ← NewLabel;
  _ ← mark top;
  _ ← Aload it;
  _ ← InvokeInterface (bs "java/util/Iterator") (bs "hasNext") (bs "()Z");
  _ ← If CodeWriter.Eq brk;
  v ← rangeVar d;
  let vt := FieldType v in
  slot ← slots_declare v vt;
  _ ← Aload it;
  _ ← InvokeInterface (bs "java/util/Iterator") (bs "next") (bs "()Ljava/lang/Object;");
  _ ← convert ObjectType vt;
  _ ← storeLocal slot vt;
  _ ← loop_body label brk cont Body;
  _ ← mark cont;
  _ ← goto_if_alive top;
  _ ← mark brk;
  slots_release m.

Definition rangeStmt (d : VarDecl) (X : Expr) (Body : Stmt) (label : bytes) : Emit unit :=
  match Type_ X with
  | TArray elem => rangeArray d X Body label elem
  | _ => rangeIterator d X Body label
  end.

(** ** Jumps *)

Definition returnType : ty := match this_method with None => Void_ | Some m => Result (MethodTypeOf m) end.

Definition returnStmt (r : option Expr) : Emit unit :=
  match r with
  | None => _ ← runFinallys 0; _ ← call CodeWriter.CReturn; dead
  | Some x =>
      _ ← exprAs x returnType;
      l ← get finallys;
      _ ← match l with
          | [] => mret tt
          | _ =>
              slot ← slots_reserve (Slots returnType);
              _ ← storeLocal slot returnType;
              _ ← runFinallys 0;
              loadLocal slot returnType
          end;
      _ ← call CodeWriter.CReturn;
      dead
  end.

(** The frame a jump leaves by, and the label it goes to. *)
Definition frame_target (label : bytes) (cont_ : bool) (f : frame) : option nat :=
  if negb (bool_decide (label = [])) && negb (bool_decide (flabel f = label)) then None
  else if cont_ then cont f else Some (brk f).

Fixpoint jump_to (label : bytes) (cont_ : bool) (l : list frame) : Emit unit :=
  match l with
  | [] => bug
  | f :: l =>
      match frame_target label cont_ f with
      | None => jump_to label cont_ l
      | Some t => _ ← runFinallys (finallyTop f); _ ← Goto t; dead
      end
  end.

Definition jump (label : bytes) (cont_ : bool) : Emit unit := l ← get frames; jump_to label cont_ l.

(** ** Monitors *)

Definition syncStmt (X : Expr) (Body : Block) : Emit unit :=
  m ← slots_mark;
  mon ← slots_reserve 1;
  _ ← rExpr X;
  _ ← Op_ Op.Dup; _ ← Astore mon; _ ← Op_ Op.Monitorenter;
  start ← NewLabel; end_ ← NewLabel; handler ← NewLabel; done ← NewLabel;
  _ ← mark start;
  _ ← rBlock Body;
  b ← Alive;
  _ ← when b (_ ← Aload mon; _ ← Op_ Op.Monitorexit; _ ← Goto done; dead);
  _ ← markAt end_;
  _ ← call (CodeWriter.CTryCatch start end_ handler []);
  _ ← markHandler handler;
  _ ← Aload mon; _ ← Op_ Op.Monitorexit; _ ← call CodeWriter.CThrow;
  _ ← dead;
  _ ← mark done;
  slots_release m.

(** ** Try *)

(** [if e.alive { finally; e.c.Goto(done); e.alive = false }] *)
Definition leave (Finally : option Block) (done : nat) : Emit bool :=
  b ← Alive;
  _ ← when b (_ ← maybe inlineFinally Finally; _ ← Goto done; dead);
  mret b.

Definition catch_rows (start end_ h : nat) (t : Typ) : Emit unit :=
  name ← cast_target (TypeAt (tkey t)); call (CodeWriter.CTryCatch start end_ h name).

(** A catch clause; whether its end can be reached. *)
Definition catchClause (start end_ done : nat) (Finally : option Block) (c : CatchClause) : Emit bool :=
  match c with
  | mkCatchClause _ _ _ Types name Body =>
      h ← NewLabel;
      _ ← each (catch_rows start end_ h) Types;
      _ ← markHandler h;
      m ← slots_mark;
      _ ← match use_var (AIdent name) with
          | Some v => slot ← slots_declare v (FieldType v); Astore slot
          | None => Op_ Op.Pop
          end;
      _ ← rBlock Body;
      b ← leave Finally done;
      _ ← slots_release m;
      mret b
  end.

Fixpoint catches (g : CatchClause -> Emit bool) (any : bool) (l : list CatchClause) : Emit bool :=
  match l with [] => mret any | c :: l => b ← g c; catches g (b || any) l end.

(** The handler that runs a finally and throws again. *)
Definition catch_all (start end_ : nat) (f : Block) : Emit unit :=
  _ ← put (fun e => set_finallys (tail (finallys e)) e);
  h ← NewLabel;
  _ ← call (CodeWriter.CTryCatch start end_ h []);
  _ ← markHandler h;
  m ← slots_mark;
  exc ← slots_reserve 1;
  _ ← Astore exc;
  _ ← inlineFinally f;
  _ ← Aload exc;
  _ ← call CodeWriter.CThrow;
  _ ← dead;
  slots_release m.

(** [tryStmt] of a statement without resources. *)
Definition tryBody (Body : Block) (Catches : list CatchClause) (Finally : option Block) : Emit unit :=
  start ← NewLabel; end_ ← NewLabel; done ← NewLabel;
  _ ← maybe (fun f => m ← slots_mark; put (fun e => set_finallys (mkFinally f m :: finallys e) e)) Finally;
  _ ← mark start;
  _ ← rBlock Body;
  bodyAlive ← leave Finally done;
  _ ← markAt end_;
  anyAlive ← catches (catchClause start end_ done Finally) bodyAlive Catches;
  _ ← maybe (catch_all start end_) Finally;
  when anyAlive (mark done).

Definition invokeClose (res : Z) (rt : ty) : Emit unit := _ ← Aload res; invoke_on rt (bs "close") (bs "()V").

Definition closeResource (res primary : Z) (rt : ty) : Emit unit :=
  skip ← NewLabel;
  _ ← Aload res; _ ← If CodeWriter.Null skip;
  noPrimary ← NewLabel; after ← NewLabel;
  _ ← Aload primary; _ ← If CodeWriter.Null noPrimary;
  s ← NewLabel; en ← NewLabel; h ← NewLabel;
  _ ← mark s;
  _ ← invokeClose res rt;
  _ ← Goto after;
  _ ← dead;
  _ ← markAt en;
  _ ← call (CodeWriter.CTryCatch s en h (bs "java/lang/Throwable"));
  _ ← markHandler h;
  _ ← Aload primary;
  _ ← Op_ Op.Swap;
  _ ← InvokeVirtual (bs "java/lang/Throwable") (bs "addSuppressed") (bs "(Ljava/lang/Throwable;)V");
  _ ← Goto after;
  _ ← dead;
  _ ← mark noPrimary;
  _ ← invokeClose res rt;
  _ ← mark after;
  mark skip.

(** The slot and the type of a resource, its value on the stack. *)
Definition resource_value (r : Resource) : Emit (Z * ty) :=
  match r with
  | mkResource _ (Some (mkVarDecl _ _ _ Names _)) _ =>
      d ← must (head Names);
      match d with
      | mkVarDeclarator _ name _ _ Init =>
          let rt := match use_var (AIdent name) with Some v => FieldType v | None => TError [] end in
          res ← match use_var (AIdent name) with Some v => slots_declare v rt | None => slots_reserve (slot_width rt) end;
          i ← must Init;
          _ ← initValue i rt;
          mret (res, rt)
      end
  | mkResource _ None (Some X) => res ← slots_reserve 1; _ ← rExpr X; mret (res, Type_ X)
  | mkResource _ None None => res ← slots_reserve 1; mret (res, TError [])
  end.

Fixpoint resource (rs : list Resource) (inner : Emit unit) : Emit unit :=
  match rs with
  | [] => inner
  | r :: rs =>
      m ← slots_mark;
      x ← resource_value r;
      let '(res, rt) := x : Z * ty in
      _ ← Astore res;
      primary ← slots_reserve 1;
      _ ← call CodeWriter.CAconstNull;
      _ ← Astore primary;
      start ← NewLabel; end_ ← NewLabel; done ← NewLabel;
      _ ← mark start;
      _ ← resource rs inner;
      bodyAlive ← Alive;
      _ ← when bodyAlive (_ ← closeResource res primary rt; _ ← Goto done; dead);
      _ ← markAt end_;
      h ← NewLabel;
      _ ← call (CodeWriter.CTryCatch start end_ h []);
      _ ← markHandler h;
      _ ← Astore primary;
      _ ← closeResource res primary rt;
      _ ← Aload primary;
      _ ← call CodeWriter.CThrow;
      _ ← dead;
      _ ← when bodyAlive (mark done);
      slots_release m
  end.

Definition tryStmt (Resources : list Resource) (Body : Block) (Catches : list CatchClause) (Finally : option Block) : Emit unit :=
  resource Resources (tryBody Body Catches Finally).

(** ** Assertions and constructor calls *)

Definition assertArg (t : ty) : bytes :=
  match kind_of t with
  | KindBoolean => bs "Z"
  | KindChar => bs "C"
  | KindByte | KindShort | KindInt => bs "I"
  | KindLong => bs "J"
  | KindFloat => bs "F"
  | KindDouble => bs "D"
  | _ => bs "Ljava/lang/Object;"
  end.

Definition assertStmt (X : Expr) (Msg : option Expr) : Emit unit :=
  _ ← needAssertions;
  skip ← NewLabel;
  _ ← GetStatic (Binary this_class) assertField (bs "Z");
  _ ← If CodeWriter.Ne skip;
  _ ← cond X skip true;
  _ ← call (CodeWriter.CNew (bs "java/lang/AssertionError"));
  _ ← Op_ Op.Dup;
  _ ← match Msg with
      | None => InvokeSpecial (bs "java/lang/AssertionError") InitName (bs "()V")
      | Some m =>
          _ ← rExpr m;
          InvokeSpecial (bs "java/lang/AssertionError") InitName (bs "(" ++ assertArg (Type_ m) ++ bs ")V")
      end;
  _ ← call CodeWriter.CThrow;
  _ ← dead;
  mark skip.

Definition superName : bytes := match cSuper (classSym this_class) with [] => ObjectName | s => s end.

(** [ctorDesc]: the enclosing instance, the parameters, the captures. *)
Definition outerType : ty := match cOuter (classSym this_class) with None => ObjectType | Some o => TClass (Some o) [] None end.

Definition outer_params : list ty := match thisField with [] => [] | _ => [outerType] end.
Definition capture_types : list ty := map (fun c => FieldType (cpLocal c)) captures.

Definition ctorDesc (m : meth) : option bytes :=
  MethodDescriptor type_fuel (mkMethodType [] (outer_params ++ Types.Params (MethodTypeOf m) ++ capture_types) Void_ []).

Definition constructorCall (n : Stmt) (kind : Z) (Args : list Expr) : Emit unit :=
  _ ← Aload 0;
  let this_ := kind =? THIS in
  d ← match use_method (AStmt n) with
      | None => mret (bs "()V")
      | Some m =>
          d ← bounded (if this_ then ctorDesc m else methodDesc m);
          _ ← when (this_ && negb (bool_decide (thisField = []))) (Aload 1);
          _ ← method_args Args m;
          _ ← when this_ (each (fun c => loadLocal (cpSlot c) (FieldType (cpLocal c))) captures);
          mret d
      end;
  InvokeSpecial (if this_ then Binary this_class else superName) InitName d.

(** ** Every statement *)

Definition labeled (Label : Ident) (s : Stmt) : Emit unit :=
  name ← labelName (Some Label);
  match s with
  | WhileStmt _ _ Cond Body => whileStmt Cond Body name
  | DoStmt _ _ Body _ Cond => doStmt Body Cond name
  | ForStmt _ _ Init Cond Post Body => forStmt Init Cond Post Body name
  | RangeStmt _ _ d _ X Body => rangeStmt d X Body name
  | SwitchStmt _ _ Tag b => switchStmt Tag b name
  | _ =>
      brk ← NewLabel;
      _ ← push name brk None;
      _ ← rStmt s;
      _ ← popFrame;
      mark brk
  end.

Definition stmt_node (s : Stmt) : Emit unit :=
  match s with
  | SBlock b => rBlock b
  | EmptyStmt _ => mret tt
  | ExprStmt _ X => exprStmt X
  | DeclStmt _ d => declStmt d
  | IfStmt _ _ Cond Then _ Else => ifStmt Cond Then Else
  | WhileStmt _ _ Cond Body => whileStmt Cond Body []
  | DoStmt _ _ Body _ Cond => doStmt Body Cond []
  | ForStmt _ _ Init Cond Post Body => forStmt Init Cond Post Body []
  | RangeStmt _ _ d _ X Body => rangeStmt d X Body []
  | ReturnStmt _ _ r => returnStmt r
  | BreakStmt _ _ l => name ← labelName l; jump name false
  | ContinueStmt _ _ l => name ← labelName l; jump name true
  | LabeledStmt _ l _ s => labeled l s
  | ThrowStmt _ _ X => _ ← rExpr X; _ ← call CodeWriter.CThrow; dead
  | SyncStmt _ _ X Body => syncStmt X Body
  | TryStmt _ _ _ Resources _ _ Body Catches _ Finally => tryStmt Resources Body Catches Finally
  | SwitchStmt _ _ Tag b => switchStmt Tag b []
  | AssertStmt _ _ X _ Msg => assertStmt X Msg
  | ConstructorCall _ _ _ kind _ _ Args _ => constructorCall s kind Args
  | YieldStmt _ _ _ | BadStmt _ => bug
  end.

Definition stmt (s : Stmt) : Emit unit :=
  b ← Alive;
  if negb b || UnreachableAt s then mret tt
  else _ ← line (Lo (stmt_span s)); stmt_node s.

(** ** Bodies *)

Fixpoint emitInits (static : bool) (l : list initEntry) : Emit unit :=
  match l with
  | [] => mret tt
  | i :: l =>
      _ ← line (inPos i);
      _ ← match inBlock i, inField i with
          | Some b, _ => rBlock b
          | None, Some f =>
              let t := FieldType f in
              d ← bounded (descriptor_of t);
              _ ← when (negb static) (Aload 0);
              init ← must (inInit i);
              _ ← initValue init t;
              (if static then PutStatic else PutField) (Binary this_class) (vName (varSym f)) d
          | None, None => mret tt
          end;
      b ← Alive;
      if b : bool then emitInits static l else mret tt
  end.

Definition storeCaptures : Emit unit :=
  _ ← match thisField with
      | [] => mret tt
      | f =>
          _ ← Aload 0; _ ← Aload 1;
          o ← must (cOuter (classSym this_class));
          PutField (Binary this_class) f (bs "L" ++ Binary o ++ bs ";")
      end;
  each (fun c =>
    _ ← Aload 0;
    _ ← loadLocal (cpSlot c) (FieldType (cpLocal c));
    PutField (Binary this_class) (cpName c) (cpDesc c)) captures.

(** [if e.alive { e.c.Return() }] *)
Definition return_if_alive : Emit unit := b ← Alive; when b (call CodeWriter.CReturn).

Definition block_stmts (b : Block) : list Stmt := match b with mkBlock _ _ Stmts _ => Stmts end.

(** [x.Body[from:]] panics when [from] is past the end. *)
Definition emitCtor (body : option Block) (c : ctorPlan) : Emit unit :=
  _ ← storeCaptures;
  _ ← match explicit c with
      | Some (ConstructorCall _ _ _ kind _ _ Args _ as n) => constructorCall n kind Args
      | _ => _ ← Aload 0; InvokeSpecial superName InitName (bs "()V")
      end;
  _ ← emitInits false (inits c);
  _ ← maybe (fun b => if Nat.ltb (length (block_stmts b)) (bodyFrom c) then bug else each rStmt (drop (bodyFrom c) (block_stmts b))) body;
  return_if_alive.

Definition desc_local_type (t : Desc.Ty) : CodeWriter.local_type :=
  if Desc.IsRef t then CodeWriter.TA
  else match Desc.TKind t with
  | Desc.Long => CodeWriter.TL | Desc.Float => CodeWriter.TF | Desc.Double => CodeWriter.TD | _ => CodeWriter.TI
  end.

Definition loadDesc (slot : Z) (t : Desc.Ty) : Emit unit := call (CodeWriter.CLoad (desc_local_type t) slot).

Definition mustParse (d : bytes) : Emit Desc.Meth := match Desc.ParseMethod d with Ok m => mret m | Err _ => bug end.
Definition mustParseField (d : bytes) : Emit Desc.Ty := match Desc.ParseField d with Ok t => mret t | Err _ => bug end.

Definition castName (t : Desc.Ty) : bytes := if 0 <? Desc.Dims t then Desc.TyString t else Desc.Name t.

Fixpoint bridge_args (slot : Z) (from to : list Desc.Ty) : Emit unit :=
  match from with
  | [] => mret tt
  | p :: from =>
      _ ← loadDesc slot p;
      _ ← match to with
          | q :: _ => when (negb (bool_decide (Desc.TyString p = Desc.TyString q)) && Desc.IsRef q) (call (CodeWriter.CCheckCast (castName q)))
          | [] => mret tt
          end;
      bridge_args (slot + Desc.Slots p) from (tail to)
  end.

Definition emitBridge (br : bridgeRec) : Emit unit :=
  from ← mustParse (brFrom br);
  to ← mustParse (brTo br);
  _ ← Aload 0;
  _ ← bridge_args 1 (Desc.Params from) (Desc.Params to);
  _ ← InvokeVirtual (Binary this_class) (brName br) (brTo br);
  call CodeWriter.CReturn.

Fixpoint load_params (slot : Z) (ps : list Desc.Ty) : Emit unit :=
  match ps with [] => mret tt | p :: ps => _ ← loadDesc slot p; load_params (slot + Desc.Slots p) ps end.

Definition emitAccessor (rec : accessorRec) (descriptor : bytes) : Emit unit :=
  sig ← mustParse descriptor;
  _ ← load_params 0 (Desc.Params sig);
  _ ← match acKind rec, acTarget rec with
      | accGet, UVar v =>
          (if is_static_var v then GetStatic else GetField) (acOwner rec) (vName (varSym v)) (acDesc rec)
      | accInvoke, UMethod m =>
          (if is_static_method m then InvokeStatic else InvokeSpecial) (acOwner rec) (mName (methodSym m)) (acDesc rec)
      | accSet, _ => mret tt
      | _, _ => bug
      end;
  call CodeWriter.CReturn.

Definition emitLambdaValue (x : option Expr) : Emit unit := _ ← maybe rExpr x; call CodeWriter.CReturn.

Definition emitBody (p : pendingBody) : Emit unit :=
  match pbBridge p, pbAccessor p, pbClinit p, pbCtor p with
  | Some br, _, _, _ => emitBridge br
  | None, Some (rec, d), _, _ => emitAccessor rec d
  | None, None, Some inits, _ => _ ← emitInits true inits; call CodeWriter.CReturn
  | None, None, None, Some c => emitCtor (pbBody p) c
  | None, None, None, None =>
      match pbLambda p, pbBody p with
      | Some n, None => emitLambdaValue (match n with NExpr x => Some x | _ => None end)
      | _, b => _ ← maybe rBlock b; return_if_alive
      end
  end.
End Statements.

(** ** The knot *)

Definition no_emits : Emits := {| rExpr _ := spin; rStmt _ := spin; rBlock _ := spin |}.

Fixpoint emits `{Program, Site, Missing} (n : nat) : Emits :=
  match n with
  | O => no_emits
  | S n =>
      let E := emits n in
      {| rExpr := expr (H2 := E); rStmt := stmt (H2 := E); rBlock := block (H2 := E) |}
  end.

(** A pass over a body: the calls made to the code writer, and the slots it
    leaves to the pass after it. *)
Definition start (s : slotMap) : emitter := mkEmitter [] 0 s (-1) true [] [].

Definition emit_body `{Program, Site, Missing} (n : nat) (p : pendingBody) (s : slotMap) : outcome unit :=
  emitBody (H2 := emits n) p (start s).
