(* ===== verification/LowerKeeps.v ===== *)
(** * What the emitter adds

    Whatever it walks, the emitter only adds calls to those it has made; it
    names no label but those it creates on the way and those it was given (the
    targets of the enclosing statements and of its caller), and leaves the
    enclosing frames as they were.  So a body is one [MethodBuilder.Code] can
    take. *)
From S2P Require Import Prelude.
From S2P Require Import Token SourceFile Ast AstWalk Types Fold Sym Emitter LowerExpr LowerStmt.
From S2P Require CodeWriter CodeProof CodeFrame Op Desc MethodLoop Builder.

Import CodeFrame(uses, creates, scoped).

(** ** The relation *)

Definition created (l : list CodeWriter.cmd) : nat := length (filter (fun x => creates x = 1%nat) l).

(** The labels given: those that may be named, and those that may be marked. *)
Record scope := mkScope { names : nat -> Prop; marks : nat -> Prop }.

Definition with_label (D : scope) (l : nat) : scope := mkScope (fun x => names D x \/ x = l) (fun x => marks D x \/ x = l).

Definition given (D : scope) (e : emitter) : Prop :=
  (forall l, names D l -> (l < nlabels e)%nat) /\ (forall l, marks D l -> (l < nlabels e)%nat) /\
  Forall (fun f => names D (brk f) /\ forall c, cont f = Some c -> names D c) (frames e).

Definition mark_of (x : CodeWriter.cmd) : list nat := match x with CodeWriter.CMark l => [l] | _ => [] end.

Definition named (D : scope) (n : nat) (x : CodeWriter.cmd) : Prop :=
  Forall (fun l => names D l \/ (n <= l)%nat) (uses x) /\ Forall (fun l => marks D l \/ (n <= l)%nat) (mark_of x).

Record added (D : scope) (e e' : emitter) (new : list CodeWriter.cmd) : Prop := {
  added_out : out e' = out e ++ new;
  added_labels : nlabels e' = (created new + nlabels e)%nat;
  added_scoped : scoped (nlabels e) new;
  added_ok : Forall CodeProof.cmd_ok new;
  added_named : Forall (named D (nlabels e)) new;
  added_frames : frames e' = frames e }.

Definition adds (D : scope) (e e' : emitter) : Prop := exists new, added D e e' new.

Class Keeps (D : scope) {A} (m : Emit A) : Prop := keeps_run e a e' : given D e -> m e = Done a e' -> adds D e e'.

Lemma created_app l k : created (l ++ k) = (created l + created k)%nat.
Proof. unfold created. by rewrite filter_app, length_app. Qed.

Lemma created_none x : creates x = 0%nat -> created [x] = 0%nat.
Proof. intros Hx. unfold created. rewrite filter_cons, decide_False by (rewrite Hx; lia). done. Qed.

Lemma scoped_app n l k : scoped n (l ++ k) <-> scoped n l /\ scoped (created l + n) k.
Proof.
  revert n. induction l as [|x l IH]; intros n; cbn [app scoped]; [cbn; tauto|]. rewrite IH.
  assert (E : (created (x :: l) + n = created l + (creates x + n))%nat).
  { unfold created. rewrite filter_cons. destruct x; cbn [creates]; try (rewrite decide_False by lia; lia). rewrite decide_True by done. cbn. lia. }
  rewrite E. tauto.
Qed.

(** A scope with more labels than another: those created since. *)
Definition wider (n : nat) (D D' : scope) : Prop :=
  (forall l, names D' l -> names D l \/ (n <= l)%nat) /\ (forall l, marks D' l -> marks D l \/ (n <= l)%nat).

Lemma wider_refl n D : wider n D D.
Proof. split; auto. Qed.

Lemma named_weaken D D' n n' x : wider n' D' D -> (n' <= n)%nat -> named D n x -> named D' n' x.
Proof.
  intros [Hd Hm] Hn [Hx Hy].
  split; (eapply Forall_impl; [eassumption|]); cbn; intros l [Hl|Hl]; first [by apply Hd | by apply Hm | right; lia].
Qed.

Lemma adds_refl D e : adds D e e.
Proof. exists []. split; [by rewrite app_nil_r|done|done|constructor|constructor|done]. Qed.

(** A run continued. *)
Lemma adds_trans D D' e1 e2 e3 : wider (nlabels e1) D D' -> adds D e1 e2 -> adds D' e2 e3 -> adds D e1 e3.
Proof.
  intros Hd [l [Ol Nl Sl Kl Ml Fl]] [k [Ok Nk Sk Kk Mk Fk]]. exists (l ++ k). split.
  - by rewrite Ok, Ol, app_assoc.
  - rewrite Nk, Nl, created_app. lia.
  - apply scoped_app. rewrite <- Nl. done.
  - by apply Forall_app.
  - apply Forall_app. split; [done|]. eapply Forall_impl; [exact Mk|]. intros x. apply named_weaken; [done|lia].
  - congruence.
Qed.

Lemma given_adds D e e' : given D e -> adds D e e' -> given D e'.
Proof.
  intros (Hl & Hm & Hf) [l [_ N _ _ _ F]].
  split_and!; [intros x Hx; specialize (Hl x Hx); lia|intros x Hx; specialize (Hm x Hx); lia|by rewrite F].
Qed.

(** ** Rules *)

#[export] Instance keeps_ret D {A} (a : A) : Keeps D (mret a).
Proof. intros e b e' _ [= _ <-]. apply adds_refl. Qed.
#[export] Instance keeps_bug D {A} : Keeps D (bug (A := A)).
Proof. intros e a e' _ E. done. Qed.
#[export] Instance keeps_spin D {A} : Keeps D (spin (A := A)).
Proof. intros e a e' _ E. done. Qed.
#[export] Instance keeps_get D {A} (g : emitter -> A) : Keeps D (get g).
Proof. intros e a e' _ [= _ <-]. apply adds_refl. Qed.

Lemma emit_bind_inv {A B} (m : Emit A) (k : A -> Emit B) e b e' :
  (m ≫= k) e = Done b e' -> exists a e1, m e = Done a e1 /\ k a e1 = Done b e'.
Proof. unfold mbind, Emit_bind. destruct (m e) as [a e1| |] eqn:E; [|done..]. eauto. Qed.

#[export] Instance keeps_bind D {A B} (m : Emit A) (k : A -> Emit B) : Keeps D m -> (forall a, Keeps D (k a)) -> Keeps D (m ≫= k).
Proof.
  intros Hm Hk e b e' Hg E. apply emit_bind_inv in E as (a & e1 & E1 & E2). pose proof (Hm _ _ _ Hg E1) as A1.
  eapply adds_trans; [apply wider_refl|exact A1|exact (Hk a _ _ _ (given_adds _ _ _ Hg A1) E2)].
Qed.

Lemma given_label D e e' : given D e -> nlabels e' = S (nlabels e) -> frames e' = frames e -> given (with_label D (nlabels e)) e'.
Proof.
  intros (Hl & Hm & Hf) N F. unfold with_label. split_and!; cbn.
  - intros x [Hx| ->]; [specialize (Hl x Hx)|]; lia.
  - intros x [Hx| ->]; [specialize (Hm x Hx)|]; lia.
  - rewrite F. eapply Forall_impl; [exact Hf|]. cbn. intros f [Hb Hc]. split; [by left|]. intros c Ec. left. by apply Hc.
Qed.

Lemma keeps_new D {A} (k : nat -> Emit A) : (forall l, Keeps (with_label D l) (k l)) -> Keeps D (NewLabel ≫= k).
Proof.
  intros Hk e b e' Hg E. apply emit_bind_inv in E as (l & e1 & E1 & E2). injection E1 as E1 E1'. subst l e1.
  set (e1 := mkEmitter _ _ _ _ _ _ _) in E2. assert (A1 : adds D e e1).
  { exists [CodeWriter.CNewLabel]. split; [done..|repeat constructor|repeat constructor|done]. }
  eapply adds_trans; [|exact A1|eapply (Hk (nlabels e)); [by apply given_label|exact E2]].
  split; cbn; (intros l [Hl| ->]; [by left|right; lia]).
Qed.

(** One call, on labels that were given. *)
Lemma keeps_call_on D x : creates x = 0%nat -> CodeProof.cmd_ok x -> Forall (names D) (uses x) -> Forall (marks D) (mark_of x) -> Keeps D (call x).
Proof.
  intros Hc Hk Hu Hm e a e' (Hl & _ & _) [= _ <-]. exists [x]. split; [done| | |by repeat constructor| |done].
  - by rewrite (created_none x Hc).
  - cbn. split; [|done]. eapply Forall_impl; [exact Hu|]. cbn. intros l. apply Hl.
  - constructor; [|constructor]. split; (eapply Forall_impl; [eassumption|]); cbn; auto.
Qed.

Lemma keeps_state D (g : emitter -> emitter) : (forall e, out (g e) = out e /\ nlabels (g e) = nlabels e /\ frames (g e) = frames e) -> Keeps D (put g).
Proof.
  intros Hg e a e' _ [= _ <-]. destruct (Hg e) as (O & N & F). exists [].
  split; [by rewrite app_nil_r|done|done|constructor|constructor|done].
Qed.

#[export] Instance keeps_if D {A} (b : bool) (m m' : Emit A) : Keeps D m -> Keeps D m' -> Keeps D (if b then m else m').
Proof. by destruct b. Qed.
#[export] Instance keeps_when D b m : Keeps D m -> Keeps D (when b m).
Proof. destruct b; [done|]. intros _. apply keeps_ret. Qed.
#[export] Instance keeps_maybe D {A} (g : A -> Emit unit) o : (forall a, Keeps D (g a)) -> Keeps D (maybe g o).
Proof. intros Hg. destruct o; [apply Hg|apply keeps_ret]. Qed.
#[export] Instance keeps_must D {A} (o : option A) : Keeps D (must o).
Proof. destruct o; [apply keeps_ret|apply keeps_bug]. Qed.
#[export] Instance keeps_bounded D {A} (o : option A) : Keeps D (bounded o).
Proof. destruct o; [apply keeps_ret|apply keeps_spin]. Qed.
#[export] Instance keeps_each D {A} (g : A -> Emit unit) l : (forall a, Keeps D (g a)) -> Keeps D (each g l).
Proof. intros Hg. induction l; [apply keeps_ret|apply keeps_bind; [apply Hg|done]]. Qed.

#[export] Instance keeps_declare D v t : Keeps D (slots_declare v t).
Proof.
  intros e a e' _. unfold slots_declare. destruct (declare v t (slots e)) as [i s]. intros [= _ <-]. exists [].
  split; [by rewrite app_nil_r|done|done|constructor|constructor|done].
Qed.
#[export] Instance keeps_reserve D n : Keeps D (slots_reserve n).
Proof.
  intros e a e' _. unfold slots_reserve. destruct (reserve n (slots e)) as [i s]. intros [= _ <-]. exists [].
  split; [by rewrite app_nil_r|done|done|constructor|constructor|done].
Qed.
#[export] Instance keeps_slot_of D v : Keeps D (slot_of v).
Proof. intros e a e' _. unfold slot_of. destruct (of_ (slots e) !! v); [|done]. intros [= _ <-]. apply adds_refl. Qed.
#[export] Instance keeps_release D m : Keeps D (slots_release m).
Proof. apply keeps_state. done. Qed.
#[export] Instance keeps_dead D : Keeps D dead.
Proof. apply keeps_state. done. Qed.
#[export] Instance keeps_alive D b : Keeps D (put (set_alive b)).
Proof. apply keeps_state. done. Qed.
#[export] Instance keeps_finallys D (g : emitter -> list finallyRec) : Keeps D (put (fun e => set_finallys (g e) e)).
Proof. apply keeps_state. done. Qed.
#[export] Instance keeps_line `{Program} D p : Keeps D (line p).
Proof.
  intros e a e' _. unfold line. destruct source; [|intros [= _ <-]; apply adds_refl].
  destruct (p =? NoPos); [intros [= _ <-]; apply adds_refl|]. cbv zeta. destruct (_ && _); [|intros [= _ <-]; apply adds_refl].
  intros [= _ <-]. exists [CodeWriter.CLine (Line (ResolvePos f p))]. split; [done..|repeat constructor|repeat constructor|done].
Qed.

(** A part emitted in a frame of its own. *)
Lemma keeps_framed D label b c (m : Emit unit) :
  names D b -> (forall l, c = Some l -> names D l) -> Keeps D m -> Keeps D (_ ← push label b c; _ ← m; popFrame).
Proof.
  intros Hb Hc Hm e u e' (Hl & Hk & Hf) E. apply emit_bind_inv in E as (u1 & e1 & [= _ <-] & E).
  apply emit_bind_inv in E as (u2 & e2 & E2 & [= _ <-]).
  edestruct Hm as [new [O N S K M F]]; [|exact E2|].
  - split_and!; [done..|]. cbn. constructor; [cbn; auto|done].
  - exists new. split; try done. cbn. by rewrite F.
Qed.

(** Every other call: no labels. *)
Lemma keeps_call D x : creates x = 0%nat -> CodeProof.cmd_ok x -> uses x = [] -> Keeps D (call x).
Proof.
  intros Hc Hk Hu. apply keeps_call_on; [done|done|rewrite Hu; constructor|]. destruct x; cbn in *; first [discriminate | constructor].
Qed.

#[export] Hint Extern 1 (Keeps _ (call _)) => (apply keeps_call; [reflexivity|cbn; repeat (lia || split); done|reflexivity]) : typeclass_instances.

(** A label among the given. *)
Ltac given := cbn; solve [tauto | auto | intuition congruence].
Ltac labels_given := repeat first [apply Forall_nil_2 | apply Forall_cons_2; [given|]].

#[export] Hint Extern 2 (Keeps _ (call _)) => (apply keeps_call_on; [reflexivity|done|cbn [uses]; labels_given|cbn [mark_of]; labels_given]) : typeclass_instances.

Create HintDb emit discriminated.
#[export] Hint Unfold Goto If Mark mark markAt markHandler Aload Astore Iload Istore loadLocal storeLocal GetField PutField GetStatic
  PutStatic InvokeVirtual InvokeSpecial InvokeStatic InvokeInterface Iconst Lconst Fconst Dconst slots_mark slots_has Alive : emit.

(** Take a run apart. *)
Ltac keep_step :=
  match goal with
  | |- Keeps _ (NewLabel ≫= _) => apply keeps_new; intros ?
  | |- Keeps _ (_ ≫= _) => apply keeps_bind; [|intros ?]
  | |- Keeps _ (maybe _ _) => apply keeps_maybe; intros ?
  | |- Keeps _ (when _ _) => apply keeps_when
  | |- Keeps _ (each _ _) => apply keeps_each; intros ?
  | |- Keeps _ (call _) => typeclasses eauto
  | |- Keeps _ (let '(_, _) := ?x in _) => destruct x
  | |- Keeps _ (match ?x with _ => _ end) => destruct x
  | |- forall _, _ => intros ?
  | |- Keeps _ _ => progress autounfold with emit
  | |- Keeps _ _ => first [assumption | typeclasses eauto]
  end.
Ltac keep := cbv zeta; repeat keep_step.

(** ** Conversions, items, conditions *)

(** What is used and not defined: it emits like the rest. *)
Class Missing_keeps `{Missing} : Prop := {
  dup_byte : 0 <= dup < 256;
  switch_keeps D Tag b label :: Keeps D (switchStmt Tag b label);
  assertions_keep D :: Keeps D needAssertions }.

Class Emits_keep (E : Emits) : Prop := {
  expr_keeps D x :: Keeps D (rExpr x);
  stmt_keeps D s :: Keeps D (rStmt s);
  block_keeps D b :: Keeps D (rBlock b) }.

#[export] Typeclasses Opaque NewLabel call mbind.

Section Instances.
Context `{Program, Site, Missing} `{!Missing_keeps}.

#[local] Instance op_keeps D o : 0 <= o < 256 -> Keeps D (Op_ o).
Proof. intros Ho. apply keeps_call; done. Qed.
Ltac op_keep :=
  apply op_keeps;
  first [apply dup_byte | unfold arrayLoadOp, arrayStoreOp, negOp; repeat case_match; vm_compute; split; congruence].
Ltac emit_keep :=
  cbv zeta;
  repeat match goal with
  | |- Keeps _ (Op_ _) => op_keep
  | _ => keep_step
  end.

#[local] Instance primitive_int_keeps D k : Keeps D (primitive_int k).
Proof. unfold primitive_int. emit_keep. Qed.
#[local] Instance primitive_keeps D from to : Keeps D (primitive from to).
Proof. unfold primitive, primitive_wide; cbn [maybe]. emit_keep. Qed.
#[local] Instance cast_target_keeps D t : Keeps D (cast_target t).
Proof. unfold cast_target. emit_keep. Qed.
#[local] Instance convert_keeps D from to : Keeps D (convert from to).
Proof. unfold convert, box, unbox, refConvert. emit_keep. Qed.
#[local] Instance pop_keeps D t : Keeps D (pop t).
Proof. unfold pop. emit_keep. Qed.
Lemma item_keeps D i : Keeps D (dupAddr i) /\ Keeps D (load i) /\ Keeps D (store i) /\ Keeps D (stash i).
Proof. destruct i; cbn; split_and!; unfold dupValue; emit_keep. Qed.
#[local] Instance dupAddr_keeps D i : Keeps D (dupAddr i) := proj1 (item_keeps D i).
#[local] Instance load_keeps D i : Keeps D (load i) := proj1 (proj2 (item_keeps D i)).
#[local] Instance store_keeps D i : Keeps D (store i) := proj1 (proj2 (proj2 (item_keeps D i))).
#[local] Instance stash_keeps D i : Keeps D (stash i) := proj2 (proj2 (proj2 (item_keeps D i))).
#[local] Instance fieldOwner_keeps D v : Keeps D (fieldOwner v).
Proof. unfold fieldOwner. emit_keep. Qed.
#[local] Instance itemFor_keeps D v : Keeps D (itemFor v).
Proof. unfold itemFor. emit_keep. Qed.

(** An opcode chosen, then emitted. *)
Lemma emit_op_keeps D m : (forall e o e', m e = Done o e' -> e' = e /\ 0 <= o < 256) -> Keeps D (emit_op m).
Proof.
  intros Hm e a e' Hg E. apply emit_bind_inv in E as (o & e1 & E1 & E2). destruct (Hm _ _ _ E1) as [-> Ho].
  eapply (op_keeps D o Ho); [exact Hg|exact E2].
Qed.
Ltac chosen := apply emit_op_keeps; intros e o e'; repeat case_match; try discriminate; intros [= <- <-]; (split; [done|vm_compute; split; congruence]).

#[local] Instance arithOp_keeps D k t : Keeps D (emit_op (arithOp k t)).
Proof. unfold arithOp. chosen. Qed.
#[local] Instance shiftOp_keeps D k t : Keeps D (emit_op (shiftOp k t)).
Proof. unfold shiftOp. chosen. Qed.
#[local] Instance cmpOp_keeps D k t : Keeps D (emit_op (cmpOp t k)).
Proof. unfold cmpOp. chosen. Qed.
#[local] Instance compoundOp_keeps D k : Keeps D (compoundOp k).
Proof. unfold compoundOp. emit_keep. Qed.
#[local] Instance invert_keeps D k : Keeps D (invert k).
Proof. unfold invert. emit_keep. Qed.

(** ** Expressions *)

Context `{E : Emits} `{!Emits_keep E}.

#[local] Instance exprAs_keeps D x t : Keeps D (exprAs x t).
Proof. unfold exprAs. emit_keep. Qed.

#[local] Instance branchInts_keeps D k t : names D t -> Keeps D (branchInts k t).
Proof. intros Ht. unfold branchInts. emit_keep. Qed.
#[local] Instance branchAgainstZero_keeps D k t : names D t -> Keeps D (branchAgainstZero k t).
Proof. intros Ht. unfold branchAgainstZero. emit_keep. Qed.

Lemma compare_keeps D X Y Op t w : names D t -> Keeps D (compare X Y Op t w).
Proof.
  intros Ht. unfold compare, compare_refs, branchNull. emit_keep; [by apply branchInts_keeps|by apply branchAgainstZero_keeps].
Qed.

Lemma cond_keeps x D t w : names D t -> Keeps D (cond x t w).
Proof.
  revert x D t w. fix IH 1. intros x D t w Ht. destruct x; cbn [cond]; unfold condAnd, condOr, cond_value_test, branchZero; emit_keep;
    first [apply IH; given | by apply compare_keeps].
Qed.

Ltac cond_keep := emit_keep; apply cond_keeps; given.

#[local] Instance condValue_keeps D x : Keeps D (condValue x).
Proof. unfold condValue. cond_keep. Qed.

#[local] Instance load_outer_keeps D c : Keeps D (load_outer c).
Proof. unfold load_outer. emit_keep. Qed.
#[local] Instance walk_out_keeps D n o c : Keeps D (walk_out n o c).
Proof. revert c. induction n; intros c; cbn [walk_out]; emit_keep. Qed.
#[local] Instance walk_to_keeps D n o c : Keeps D (walk_to n o c).
Proof. revert c. induction n; intros c; cbn [walk_to]; emit_keep. Qed.
#[local] Instance loadEnclosing_keeps D o : Keeps D (loadEnclosing o).
Proof. unfold loadEnclosing. emit_keep. Qed.
#[local] Instance get_capture_keeps D c : Keeps D (get_capture c).
Proof. unfold get_capture. emit_keep. Qed.
#[local] Instance loadVar_keeps D v : Keeps D (loadVar v).
Proof. unfold loadVar. emit_keep. Qed.
#[local] Instance constant_keeps D k m : constant_value k = Some m -> Keeps D m.
Proof. unfold constant_value. case_match; [|done]. case_match; intros [= <-]; emit_keep. Qed.
#[local] Instance newArrayOf_keeps D t : Keeps D (newArrayOf t).
Proof. unfold newArrayOf. emit_keep. Qed.
#[local] Instance initValue_keeps D n t : Keeps D (initValue n t).
Proof. unfold initValue. emit_keep. Qed.
#[local] Instance elements_keeps {A} D (g : A -> Emit unit) t i l : (forall a, Keeps D (g a)) -> Keeps D (elements g t i l).
Proof. intros Hg. revert i. induction l; intros i; cbn [elements]; emit_keep. Qed.
#[local] Instance arrayInit_keeps D a t : Keeps D (arrayInit a t).
Proof. unfold arrayInit. emit_keep. Qed.
#[local] Instance newArray_keeps D x l i : Keeps D (newArray x l i).
Proof. unfold newArray. emit_keep. Qed.
#[local] Instance args_as_keeps D l ps : Keeps D (args_as l ps).
Proof. revert ps. induction l; intros ps; cbn [args_as]; emit_keep. Qed.
#[local] Instance method_args_keeps D l m : Keeps D (method_args l m).
Proof. unfold method_args, args, varargs. emit_keep. Qed.
#[local] Instance receiver_keeps D X m : Keeps D (receiver X m).
Proof. unfold receiver. emit_keep. Qed.
#[local] Instance callExpr_keeps D x X l : Keeps D (callExpr x X l).
Proof. unfold callExpr. emit_keep. Qed.
#[local] Instance newExpr_keeps D x o l : Keeps D (newExpr x o l).
Proof. unfold newExpr. emit_keep. Qed.
#[local] Instance load_captures_keeps D l d : Keeps D (load_captures l d).
Proof. revert d. induction l; intros d; cbn [load_captures]; emit_keep. Qed.
#[local] Instance lambdaValue_keeps D x : Keeps D (lambdaValue x).
Proof. unfold lambdaValue. emit_keep. Qed.
#[local] Instance append_keeps D x : Keeps D (append x).
Proof. unfold append. emit_keep. Qed.
#[local] Instance concat_walk_keeps D x : Keeps D (concat_walk x).
Proof. revert x. fix IH 1. intros x. destruct x; cbn [concat_walk]; emit_keep; apply IH. Qed.
#[local] Instance concat_keeps D X Y : Keeps D (concat X Y).
Proof. unfold concat. emit_keep. Qed.
#[local] Instance binary_keeps D x X Op Y : Keeps D (binary x X Op Y).
Proof. unfold binary. emit_keep. Qed.
#[local] Instance lvalue_keeps D x : Keeps D (lvalue x).
Proof. revert x. fix IH 1. intros x. destruct x; cbn [lvalue]; emit_keep; apply IH. Qed.
#[local] Instance compound_keeps D t Op R : Keeps D (compound t Op R).
Proof. unfold compound. emit_keep. Qed.
#[local] Instance assign_keeps D L Op R v : Keeps D (assign L Op R v).
Proof. unfold assign. emit_keep. Qed.
#[local] Instance pushOne_keeps D t d : Keeps D (pushOne t d).
Proof. unfold pushOne. emit_keep. Qed.
#[local] Instance simpleIntLocal_keeps D x : Keeps D (simpleIntLocal x).
Proof. unfold simpleIntLocal. emit_keep. Qed.
#[local] Instance incdec_keeps D x k v p : Keeps D (incdec x k v p).
Proof. unfold incdec. emit_keep. Qed.
#[local] Instance unary_keeps D x Op X : Keeps D (unary x Op X).
Proof. unfold unary. emit_keep. Qed.
#[local] Instance instanceOf_keeps D X t p : Keeps D (instanceOf X t p).
Proof. unfold instanceOf. emit_keep. Qed.
#[local] Instance condExpr_keeps D x C T F : Keeps D (condExpr x C T F).
Proof. unfold condExpr. cond_keep. Qed.

#[local] Instance expr_node_keeps D x : Keeps D (expr_node x).
Proof. destruct x; cbn [expr_node]; unfold literal, name_, selector, index, thisRef, classLit, cast; emit_keep. Qed.
#[local] Instance expr_keeps' D x : Keeps D (expr x).
Proof.
  unfold expr. destruct (ConstAt x ≫= constant_value) as [m|] eqn:Em; [|apply expr_node_keeps].
  destruct (ConstAt x) as [k|]; [|done]. by eapply constant_keeps.
Qed.

(** ** Statements *)

#[local] Instance inlineFinally_keeps D b : Keeps D (inlineFinally b).
Proof. unfold inlineFinally. emit_keep. Qed.
#[local] Instance runFinallys_keeps D n : Keeps D (runFinallys n).
Proof. unfold runFinallys. emit_keep. Qed.
#[local] Instance exprStmt_keeps D x : Keeps D (exprStmt x).
Proof. destruct x; cbn [exprStmt]; emit_keep. Qed.
#[local] Instance declare_local_keeps D d : Keeps D (declare_local d).
Proof. unfold declare_local. emit_keep. Qed.
#[local] Instance declStmt_keeps D d : Keeps D (declStmt d).
Proof. unfold declStmt. emit_keep. Qed.
#[local] Instance goto_if_alive_keeps D t : names D t -> Keeps D (goto_if_alive t).
Proof. intros Ht. unfold goto_if_alive. emit_keep. Qed.

Lemma loop_body_keeps D label b c s : names D b -> names D c -> Keeps D (loop_body label b c s).
Proof. intros Hb Hc. apply keeps_framed; [done| |typeclasses eauto]. by intros l [= <-]. Qed.

Ltac stmt_keep :=
  emit_keep;
  first [apply cond_keeps; given | apply loop_body_keeps; given | apply goto_if_alive_keeps; given | idtac].

#[local] Instance ifStmt_keeps D C T F : Keeps D (ifStmt C T F).
Proof. unfold ifStmt. stmt_keep. Qed.
Lemma while_end_keeps D C B l t c b : names D t -> names D c -> names D b -> marks D c -> marks D b ->
  Keeps D (_ ← loop_body l b c B; _ ← mark c; _ ← cond C t true; mark b).
Proof. intros Ht Hc Hb Mc Mb. stmt_keep. Qed.
#[local] Instance whileStmt_keeps D C B l : Keeps D (whileStmt C B l).
Proof. unfold whileStmt. stmt_keep. Qed.
#[local] Instance doStmt_keeps D C B l : Keeps D (doStmt C B l).
Proof. unfold doStmt. stmt_keep. Qed.
#[local] Instance forStmt_keeps D I C P B l : Keeps D (forStmt I C P B l).
Proof. unfold forStmt. stmt_keep. Qed.
#[local] Instance rangeVar_keeps D d : Keeps D (rangeVar d).
Proof. unfold rangeVar. stmt_keep. Qed.
#[local] Instance invoke_on_keeps D t n d : Keeps D (invoke_on t n d).
Proof. unfold invoke_on. stmt_keep. Qed.
#[local] Instance rangeStmt_keeps D d X B l : Keeps D (rangeStmt d X B l).
Proof. unfold rangeStmt, rangeArray, rangeIterator. stmt_keep. Qed.
#[local] Instance returnStmt_keeps D r : Keeps D (returnStmt r).
Proof. unfold returnStmt. stmt_keep. Qed.

(** A jump goes to a label of a frame. *)
Lemma jump_to_keeps D label c l :
  Forall (fun f => names D (brk f) /\ forall k, cont f = Some k -> names D k) l -> Keeps D (jump_to label c l).
Proof.
  intros Hl. induction Hl as [|f l [Hb Hc] Hl IH]; cbn [jump_to]; [emit_keep|].
  destruct (frame_target label c f) as [t|] eqn:Et; [|done]. assert (Ht : names D t).
  { unfold frame_target in Et. destruct (_ && _); [done|]. destruct c; [by apply Hc|by injection Et as <-]. }
  stmt_keep.
Qed.
#[local] Instance jump_keeps D label c : Keeps D (jump label c).
Proof.
  intros e u e' Hg Er. apply emit_bind_inv in Er as (l & e1 & [= <- <-] & Er). eapply jump_to_keeps; [|exact Hg|exact Er]. apply Hg.
Qed.

#[local] Instance markAt_keeps D l : names D l -> marks D l -> Keeps D (markAt l).
Proof. intros Hl Hm. unfold markAt. stmt_keep. Qed.
#[local] Instance syncStmt_keeps D X B : Keeps D (syncStmt X B).
Proof. unfold syncStmt. stmt_keep. Qed.
#[local] Instance leave_keeps D f d : names D d -> Keeps D (leave f d).
Proof. intros Hd. unfold leave. stmt_keep. Qed.
#[local] Instance catch_rows_keeps D a b h t : names D a -> names D b -> names D h -> Keeps D (catch_rows a b h t).
Proof. intros Ha Hb Hh. unfold catch_rows. stmt_keep. Qed.
Lemma catchClause_keeps D a b d f c : names D a -> names D b -> names D d -> Keeps D (catchClause a b d f c).
Proof.
  intros Ha Hb Hd. unfold catchClause. stmt_keep; first [apply catch_rows_keeps; given | apply leave_keeps; given].
Qed.
#[local] Instance catches_keeps D g b l : (forall c, Keeps D (g c)) -> Keeps D (catches g b l).
Proof. intros Hg. revert b. induction l; intros b; cbn [catches]; stmt_keep. Qed.
Lemma catch_all_keeps D a b f : names D a -> names D b -> Keeps D (catch_all a b f).
Proof. intros Ha Hb. unfold catch_all. stmt_keep. Qed.
Lemma try_end_keeps D a b d C F any : names D a -> names D b -> names D d -> marks D d ->
  Keeps D (anyAlive ← catches (catchClause a b d F) any C; _ ← maybe (catch_all a b) F; when anyAlive (mark d)).
Proof.
  intros Ha Hb Hd Md. apply keeps_bind; [apply catches_keeps; intros c; apply catchClause_keeps; given|].
  intros any'. apply keeps_bind; [apply keeps_maybe; intros f; apply catch_all_keeps; given|]. stmt_keep.
Qed.
#[local] Instance tryBody_keeps D B C F : Keeps D (tryBody B C F).
Proof.
  unfold tryBody. do 3 (apply keeps_new; intros ?).
  repeat (apply keeps_bind; [|intros ?]);
    first [apply leave_keeps; given | apply markAt_keeps; given | apply catches_keeps; intros c; apply catchClause_keeps; given
          | apply keeps_maybe; intros f; apply catch_all_keeps; given | emit_keep].
Qed.
#[local] Instance closeResource_keeps D a b t : Keeps D (closeResource a b t).
Proof. unfold closeResource, invokeClose. stmt_keep. Qed.
#[local] Instance resource_value_keeps D r : Keeps D (resource_value r).
Proof. unfold resource_value. stmt_keep. Qed.
Lemma resource_keeps rs m : (forall D, Keeps D m) -> forall D, Keeps D (resource rs m).
Proof. intros Hm. induction rs; intros D; cbn [resource]; stmt_keep. Qed.
#[local] Instance tryStmt_keeps D R B C F : Keeps D (tryStmt R B C F).
Proof. apply resource_keeps. intros D'. apply tryBody_keeps. Qed.
#[local] Instance assertStmt_keeps D X m : Keeps D (assertStmt X m).
Proof. unfold assertStmt. stmt_keep. Qed.
#[local] Instance constructorCall_keeps D n k l : Keeps D (constructorCall n k l).
Proof. unfold constructorCall. stmt_keep. Qed.
#[local] Instance labelName_keeps D i : Keeps D (labelName i).
Proof. unfold labelName. stmt_keep. Qed.

(** A frame may be followed by more. *)
Lemma keeps_framed_then D label b c (m : Emit unit) (k : Emit unit) :
  names D b -> (forall l, c = Some l -> names D l) -> Keeps D m -> Keeps D k -> Keeps D (_ ← push label b c; _ ← m; _ ← popFrame; k).
Proof.
  intros Hb Hc Hm Hk e u e' Hg Er. eapply (keeps_bind D (_ ← push label b c; _ ← m; popFrame) (fun _ => k)); [by apply keeps_framed|done|exact Hg|].
  unfold mbind, Emit_bind in *. cbn in *. destruct (m _) as [a e1| |]; done.
Qed.

#[local] Instance labeled_keeps D l s : Keeps D (labeled l s).
Proof.
  unfold labeled. apply keeps_bind; [typeclasses eauto|]. intros name.
  destruct s;
    lazymatch goal with
    | |- Keeps _ (whileStmt _ _ _) => apply whileStmt_keeps
    | |- Keeps _ (doStmt _ _ _) => apply doStmt_keeps
    | |- Keeps _ (forStmt _ _ _ _ _) => apply forStmt_keeps
    | |- Keeps _ (rangeStmt _ _ _ _) => apply rangeStmt_keeps
    | |- Keeps _ (switchStmt _ _ _) => apply switch_keeps
    | _ => apply keeps_new; intros ?; (apply keeps_framed_then; [given|done|apply stmt_keeps|stmt_keep])
    end.
Qed.

#[local] Instance stmt_node_keeps D s : Keeps D (stmt_node s).
Proof. destruct s; cbn [stmt_node]; stmt_keep. Qed.
#[local] Instance stmt_keeps' D s : Keeps D (stmt s).
Proof. unfold stmt. stmt_keep. Qed.
Lemma inlined_keeps D b : Keeps D (inlineFinally b).
Proof. apply inlineFinally_keeps. Qed.
#[local] Instance block_keeps' D b : Keeps D (block b).
Proof. unfold block. stmt_keep. Qed.

(** ** Bodies *)

#[local] Instance emitInits_keeps D s l : Keeps D (emitInits s l).
Proof. destruct s; induction l as [|i l IH]; cbn [emitInits]; stmt_keep. Qed.
#[local] Instance storeCaptures_keeps D : Keeps D storeCaptures.
Proof. unfold storeCaptures. stmt_keep. Qed.
#[local] Instance emitCtor_keeps D b c : Keeps D (emitCtor b c).
Proof. unfold emitCtor, return_if_alive. stmt_keep. Qed.
#[local] Instance bridge_args_keeps D s f t : Keeps D (bridge_args s f t).
Proof. revert s t. induction f; intros s t; cbn [bridge_args]; unfold loadDesc; stmt_keep. Qed.
#[local] Instance load_params_keeps D s l : Keeps D (load_params s l).
Proof. revert s. induction l; intros s; cbn [load_params]; unfold loadDesc; stmt_keep. Qed.
#[local] Instance emitAccessor_keeps D r d : Keeps D (emitAccessor r d).
Proof.
  unfold emitAccessor, mustParse. stmt_keep; repeat case_match; stmt_keep.
Qed.
Lemma return_if_alive_adds D : Keeps D return_if_alive.
Proof. unfold return_if_alive. stmt_keep. Qed.
Lemma stmt_node_adds D s : Keeps D (stmt_node s).
Proof. apply stmt_node_keeps. Qed.
Lemma emitBody_keeps D p : Keeps D (emitBody p).
Proof. unfold emitBody, emitBridge, emitLambdaValue, mustParse, return_if_alive. stmt_keep. Qed.
End Instances.

#[export] Instance emits_keep `{Program, Site, Missing} `{!Missing_keeps} n : Emits_keep (emits n).
Proof.
  induction n as [|n IH]; cbn [emits]; split; cbn; intros; first [apply keeps_spin | by apply expr_keeps' | by apply stmt_keeps' | by apply block_keeps'].
Qed.

(** Before a body, no labels. *)
Definition no_labels : scope := mkScope (fun _ => False) (fun _ => False).

Lemma given_start s : given no_labels (start s).
Proof. split_and!; [done..|constructor]. Qed.
