(* ===== verification/LowerBody.v ===== *)
(** * What becomes of an emitted body

    The calls of a pass go to [MethodBuilder.Code].  They are always a body it
    can take; but a label that nothing has named yet, marked where control
    cannot arrive, is an error of the code writer, and three statements always
    leave one. *)
From S2P Require Import Prelude.
From S2P Require Import Token SourceFile Ast AstWalk Types Fold Sym Emitter LowerExpr LowerStmt LowerKeeps.
From S2P Require CodeWriter CodeProof CodeFrame Op Desc PoolBuilder MethodProof MethodLoop Builder ClassIO.

Import CodeFrame(uses, creates, scoped).
Import CodeWriter(labels, err, pc, ldepth, mkLabel).

(** ** The code writer leaves alone the labels a call does not name *)

Create Rewrite HintDb lab.

Lemma lab_fail f a c : labels (CodeWriter.fail f a c) = labels c.
Proof. unfold CodeWriter.fail. by destruct (err c). Qed.
#[export] Hint Rewrite lab_fail : lab.
Ltac lab := repeat case_match; cbv zeta; autorewrite with lab; try reflexivity.
Lemma lab_emitOp o c : labels (CodeWriter.emitOp o c) = labels c.
Proof. unfold CodeWriter.emitOp. lab. Qed.
Lemma lab_set_depth d c : labels (CodeWriter.set_depth d c) = labels c.
Proof. done. Qed.
Lemma lab_set_maxStack d c : labels (CodeWriter.set_maxStack d c) = labels c.
Proof. done. Qed.
Lemma lab_set_maxLocals d c : labels (CodeWriter.set_maxLocals d c) = labels c.
Proof. done. Qed.
Lemma lab_set_w x c : labels (CodeWriter.set_w x c) = labels c.
Proof. done. Qed.
Lemma lab_set_branches x c : labels (CodeWriter.set_branches x c) = labels c.
Proof. done. Qed.
Lemma lab_set_switches x c : labels (CodeWriter.set_switches x c) = labels c.
Proof. done. Qed.
Lemma lab_set_handlers x c : labels (CodeWriter.set_handlers x c) = labels c.
Proof. done. Qed.
Lemma lab_set_locals x c : labels (CodeWriter.set_locals x c) = labels c.
Proof. done. Qed.
Lemma lab_set_reachable x c : labels (CodeWriter.set_reachable x c) = labels c.
Proof. done. Qed.
Lemma lab_terminate c : labels (CodeWriter.terminate c) = labels c.
Proof. done. Qed.
Lemma lab_u1 v c : labels (CodeWriter.u1 v c) = labels c.
Proof. done. Qed.
Lemma lab_u2 v c : labels (CodeWriter.u2 v c) = labels c.
Proof. done. Qed.
Lemma lab_u4 v c : labels (CodeWriter.u4 v c) = labels c.
Proof. done. Qed.
Lemma lab_u2_of m c : labels (CodeWriter.u2_of m c) = labels c.
Proof. unfold CodeWriter.u2_of, CodeWriter.intern_. by destruct (m _). Qed.
#[export] Hint Rewrite lab_emitOp lab_set_depth lab_set_maxStack lab_set_maxLocals lab_set_w lab_set_branches lab_set_switches
  lab_set_handlers lab_set_locals lab_set_reachable lab_terminate lab_u1 lab_u2 lab_u4 lab_u2_of : lab.
Lemma lab_push n c : labels (CodeWriter.push n c) = labels c.
Proof. unfold CodeWriter.push. cbv zeta. lab. Qed.
Lemma lab_pop n c : labels (CodeWriter.pop n c) = labels c.
Proof. unfold CodeWriter.pop. cbv zeta. lab. Qed.
Lemma lab_useLocal s n c : labels (CodeWriter.useLocal s n c) = labels c.
Proof. unfold CodeWriter.useLocal. cbv zeta. lab. Qed.
#[export] Hint Rewrite lab_push lab_pop lab_useLocal : lab.
Lemma lab_localOp g k s n c : labels (CodeWriter.localOp g k s n c) = labels c.
Proof. unfold CodeWriter.localOp. cbv zeta. lab. Qed.
Lemma lab_ldc_of m b c : labels (CodeWriter.ldc_of m b c) = labels c.
Proof. unfold CodeWriter.ldc_of, CodeWriter.intern_, CodeWriter.ldc. destruct (m _). lab. Qed.
Lemma lab_Op o c : labels (CodeWriter.Op_ o c) = labels c.
Proof. unfold CodeWriter.Op_. cbv zeta. lab. Qed.
#[export] Hint Rewrite lab_localOp lab_ldc_of lab_Op : lab.

(** What happens to one label. *)
Definition at_label (l : nat) (c c' : CodeWriter.CodeWriter) : Prop := labels c' !! l = labels c !! l.

Lemma at_same l c c' : labels c' = labels c -> at_label l c c'.
Proof. unfold at_label. by intros ->. Qed.

Lemma at_set_label l k x c : l <> k -> at_label l c (CodeWriter.set_label k x c).
Proof. intros H. apply list_lookup_insert_ne. auto. Qed.

Lemma at_noteDepth l k c c' : l <> k -> CodeWriter.noteDepth k c = Some c' -> at_label l c c'.
Proof.
  intros H. unfold CodeWriter.noteDepth. destruct (labels c !! k); [|done]. cbn [mbind option_bind]. intros [= <-].
  repeat case_match; [by apply at_set_label|apply at_same; by autorewrite with lab..].
Qed.

Lemma at_noteDepths l ts c c' : l ∉ ts -> CodeWriter.noteDepths ts c = Some c' -> at_label l c c'.
Proof.
  revert c. induction ts as [|t ts IH]; intros c H Er; cbn in Er; [injection Er as <-; done|].
  destruct (CodeWriter.noteDepth t c) as [c1|] eqn:E1; [|done]. cbn in Er. unfold at_label. apply not_elem_of_cons in H as [Ht H].
  rewrite (IH c1 H Er). by eapply at_noteDepth.
Qed.

Lemma at_branch l o k n c c' : l <> k -> CodeWriter.branch_ o k n c = Some c' -> at_label l c c'.
Proof.
  intros H. unfold CodeWriter.branch_. cbv zeta. destruct (CodeWriter.noteDepth k _) as [c1|] eqn:E1; [|done]. cbn [mbind option_bind]. intros [= <-].
  apply (at_noteDepth l) in E1; [|done]. unfold at_label in *. autorewrite with lab in E1. rewrite <- E1. f_equal. lab.
Qed.

Lemma sorted_targets l ms ts : l ∉ ts -> l ∉ map snd (CodeWriter.sort_cases (combine ms ts)).
Proof.
  intros H Hin. assert (Hf : Forall (fun k => k <> l) ts) by (apply Forall_forall; intros k Hk ->; done).
  apply (CodeFrame.sort_cases_targets ms) in Hf. rewrite Forall_forall in Hf. by apply (Hf l).
Qed.

(** A switch: its default, then its targets. *)
Lemma at_notes l d ts n c c1 c2 : l ∉ d :: ts ->
  CodeWriter.noteDepth d (CodeWriter.pop n c) = Some c1 -> CodeWriter.noteDepths ts c1 = Some c2 -> labels c2 !! l = labels c !! l.
Proof.
  intros [Hd Ht]%not_elem_of_cons E1 E2. apply (at_noteDepth l) in E1; [|done]. apply (at_noteDepths l) in E2; [|done].
  unfold at_label in *. by rewrite E2, E1, lab_pop.
Qed.

Lemma at_Mark l k c c' : l <> k -> CodeWriter.Mark k c = Some c' -> at_label l c c'.
Proof.
  intros H. unfold CodeWriter.Mark. destruct (labels c !! k); [|done]. cbn [mbind option_bind]. intros [= <-]. cbv zeta.
  unfold at_label. repeat case_match; autorewrite with lab; rewrite ?at_set_label by done; done.
Qed.

Lemma at_TryCatch l lo hi k t c c' : l <> k -> CodeWriter.TryCatch lo hi k t c = Some c' -> at_label l c c'.
Proof.
  intros H. unfold CodeWriter.TryCatch. cbv zeta. destruct (labels _ !! k); [|done]. cbn [mbind option_bind]. intros [= <-].
  unfold at_label. repeat case_match; autorewrite with lab; rewrite ?at_set_label by done; done.
Qed.

Lemma at_TableSwitch l a b d ts c c' : l ∉ d :: ts -> CodeWriter.TableSwitch a b d ts c = Some c' -> at_label l c c'.
Proof.
  intros H. unfold CodeWriter.TableSwitch. repeat (case_match; [intros [= <-]; apply at_same; lab|]). cbv zeta.
  destruct (CodeWriter.noteDepth d _) as [c1|] eqn:E1; [|done]. cbn [mbind option_bind].
  destruct (CodeWriter.noteDepths ts c1) as [c2|] eqn:E2; [|done]. cbn [mbind option_bind]. intros [= <-].
  unfold at_label, CodeWriter.table_body. cbv zeta. autorewrite with lab. by eapply at_notes.
Qed.

Lemma at_LookupSwitch l d ms ts c c' : l ∉ d :: ts -> CodeWriter.LookupSwitch d ms ts c = Some c' -> at_label l c c'.
Proof.
  intros H. unfold CodeWriter.LookupSwitch. case_match; [intros [= <-]; apply at_same; lab|]. cbv zeta.
  destruct (CodeWriter.duplicate _); [intros [= <-]; apply at_same; lab|].
  destruct (CodeWriter.noteDepth d _) as [c1|] eqn:E1; [|done]. cbn [mbind option_bind].
  destruct (CodeWriter.noteDepths _ c1) as [c2|] eqn:E2; [|done]. cbn [mbind option_bind]. intros [= <-].
  unfold at_label, CodeWriter.lookup_body. cbv zeta. autorewrite with lab. eapply at_notes; [|exact E1|exact E2].
  apply not_elem_of_cons in H as [Hd Ht]. apply not_elem_of_cons. split; [done|by apply sorted_targets].
Qed.

Lemma at_run_cmd l x c c' : CodeWriter.run_cmd x c = Some c' -> l ∉ uses x -> (l < length (labels c))%nat -> at_label l c c'.
Proof.
  intros Er Hu Hl.
  assert (Hone : forall k, l ∉ [k] -> l <> k) by (intros k Hk ->; apply Hk, list_elem_of_here).
  destruct x; cbn [CodeWriter.run_cmd uses] in *;
    first
      [ eapply at_Mark; [by apply Hone|exact Er]
      | eapply at_TableSwitch; eassumption
      | eapply at_LookupSwitch; eassumption
      | eapply at_TryCatch; [|exact Er]; intros ->; apply Hu; rewrite !elem_of_cons; tauto
      | injection Er as <-
      | idtac ].
  - unfold at_label. apply lookup_app_l. done.
  - apply at_same. destruct t; cbn [CodeWriter.run_load]; unfold CodeWriter.Aload_, CodeWriter.Iload_, CodeWriter.Fload_, CodeWriter.Lload_, CodeWriter.Dload_, CodeWriter.load; lab.
  - apply at_same. destruct t; cbn [CodeWriter.run_store]; unfold CodeWriter.Astore_, CodeWriter.Istore_, CodeWriter.Fstore_, CodeWriter.Lstore_, CodeWriter.Dstore_, CodeWriter.store; lab.
  - apply at_same. unfold CodeWriter.Iinc_. cbv zeta. lab.
  - apply at_same. unfold CodeWriter.Local_. lab.
  - apply at_same. unfold CodeWriter.Iconst. lab.
  - apply at_same. unfold CodeWriter.Lconst. lab.
  - apply at_same. unfold CodeWriter.Fconst. lab.
  - apply at_same. unfold CodeWriter.Dconst. lab.
  - apply at_same. unfold CodeWriter.Sconst. lab.
  - apply at_same. unfold CodeWriter.Cconst. lab.
  - apply at_same. unfold CodeWriter.AconstNull_. lab.
  - apply at_same. destruct a; cbn [CodeWriter.run_field]; unfold CodeWriter.GetStatic, CodeWriter.PutStatic, CodeWriter.GetField, CodeWriter.PutField, CodeWriter.field; cbv zeta; lab.
  - apply at_same. destruct k; cbn [CodeWriter.run_invoke]; unfold CodeWriter.InvokeVirtual, CodeWriter.InvokeSpecial, CodeWriter.InvokeStatic, CodeWriter.InvokeInterface, CodeWriter.invoke; cbv zeta; lab.
  - apply at_same. unfold CodeWriter.New_. lab.
  - apply at_same. unfold CodeWriter.ANewArray. lab.
  - apply at_same. unfold CodeWriter.NewArray. lab.
  - apply at_same. unfold CodeWriter.MultiANewArray. lab.
  - apply at_same. unfold CodeWriter.CheckCast. lab.
  - apply at_same. unfold CodeWriter.InstanceOf. lab.
  - apply at_same. unfold CodeWriter.Throw. lab.
  - apply at_same. lab.
  - apply at_same. unfold CodeWriter.Return_. lab.
  - unfold CodeWriter.Goto_ in Er. destruct (CodeWriter.branch_ _ _ _ _) as [c1|] eqn:E1; [|done]. cbn in Er. injection Er as <-.
    eapply at_branch in E1; [exact E1|by apply Hone].
  - destruct (CodeProof.run_if_branch k l0 c) as (o & pops & Eb & _). rewrite Eb in Er. eapply at_branch; [by apply Hone|exact Er].
  - by apply at_same.
Qed.

Lemma at_run l body c c' :
  CodeWriter.run body c = Some c' -> Forall (fun x => l ∉ uses x) body -> (l < length (labels c))%nat -> at_label l c c'.
Proof.
  revert c. induction body as [|x body IH]; intros c Er Hu Hl; cbn in Er; [injection Er as <-; done|].
  destruct (CodeWriter.run_cmd x c) as [c1|] eqn:E1; [|done]. cbn in Er. apply Forall_cons in Hu as [Hx Hu].
  pose proof (at_run_cmd l x c c1 E1 Hx Hl) as A1. unfold at_label in *. rewrite (IH c1 Er Hu); [done|].
  apply lookup_lt_is_Some_1. rewrite A1. by apply lookup_lt_is_Some_2.
Qed.

(** ** Bodies the code writer refuses *)

(** Whatever the state they are run in, if its labels are the first [n]. *)
Definition refused (n : nat) (new : list CodeWriter.cmd) : Prop :=
  forall c c', length (labels c) = n -> CodeWriter.run new c = Some c' -> err c' <> None.

Lemma run_labels l c c' : CodeWriter.run l c = Some c' -> length (labels c') = (created l + length (labels c))%nat.
Proof.
  revert c. induction l as [|x l IH]; intros c Er; cbn in Er; [injection Er as <-; done|].
  destruct (CodeWriter.run_cmd x c) as [c1|] eqn:E1; [|done]. cbn in Er. rewrite (IH c1 Er).
  apply CodeFrame.meta_run_cmd in E1. change (x :: l) with ([x] ++ l). rewrite created_app.
  assert (Hn : length (labels c1) = (created [x] + length (labels c))%nat); [|rewrite Hn; lia].
  destruct x; cbn [CodeFrame.meta_after] in E1; unfold CodeFrame.meta in E1; repeat case_match; by injection E1.
Qed.

Lemma refused_app_l n l k : refused n l -> refused n (l ++ k).
Proof.
  intros H c c' Hn. rewrite MethodProof.run_app. destruct (CodeWriter.run l c) as [c1|] eqn:E1; [|done]. cbn [mbind option_bind]. intros E2.
  specialize (H c c1 Hn E1). destruct (err c1) as [x|] eqn:Ex; [|done]. by rewrite (CodeProof.st_run x _ _ _ E2 Ex).
Qed.

Lemma refused_app_r n l k : refused (created l + n) k -> refused n (l ++ k).
Proof.
  intros H c c' Hn. rewrite MethodProof.run_app. destruct (CodeWriter.run l c) as [c1|] eqn:E1; [|done]. cbn [mbind option_bind]. intros E2.
  eapply H; [|exact E2]. rewrite (run_labels _ _ _ E1), Hn. done.
Qed.

(** A label nothing has named, marked after a jump. *)
Lemma dead_mark_run c c' mid g l :
  labels c !! l = Some (mkLabel (-1) (-1)) -> Forall (fun x => l ∉ uses x) mid -> l <> g ->
  CodeWriter.run (mid ++ [CodeWriter.CGoto g; CodeWriter.CMark l]) c = Some c' -> err c' <> None.
Proof.
  intros Hl Hm Hg. rewrite MethodProof.run_app. destruct (CodeWriter.run mid c) as [c1|] eqn:E1; [|done]. cbn [mbind option_bind CodeWriter.run].
  assert (Hl1 : labels c1 !! l = Some (mkLabel (-1) (-1))) by (rewrite <- Hl; eapply at_run; [exact E1|done|by eapply lookup_lt_Some]).
  destruct (CodeWriter.run_cmd (CodeWriter.CGoto g) c1) as [c2|] eqn:E2; [|done]. cbn [mbind option_bind].
  assert (Hl2 : labels c2 !! l = Some (mkLabel (-1) (-1))).
  { rewrite <- Hl1. eapply at_run_cmd; [exact E2| |by eapply lookup_lt_Some]. cbn. by rewrite list_elem_of_singleton. }
  assert (Hr : CodeWriter.reachable c2 = false).
  { cbn [CodeWriter.run_cmd] in E2. unfold CodeWriter.Goto_ in E2. destruct (CodeWriter.branch_ _ _ _ _); [|done]. by injection E2 as <-. }
  cbn [CodeWriter.run_cmd]. unfold CodeWriter.Mark. rewrite Hl2. cbn [mbind option_bind].
  change (0 <=? pc (mkLabel (-1) (-1))) with false. change (0 <=? ldepth (mkLabel (-1) (-1))) with false. cbv iota zeta.
  change (CodeWriter.reachable (CodeWriter.set_label _ _ c2)) with (CodeWriter.reachable c2). rewrite Hr. intros [= <-].
  apply CodeProof.fail_err.
Qed.

(** The label is the [i]-th of [k] just created. *)
Lemma dead_mark n k i mid g :
  (i < k)%nat -> g <> (n + i)%nat -> Forall (fun x => (n + i)%nat ∉ uses x) mid ->
  refused n (replicate k CodeWriter.CNewLabel ++ mid ++ [CodeWriter.CGoto g; CodeWriter.CMark (n + i)]).
Proof.
  intros Hi Hg Hm c c' Hn. rewrite MethodProof.run_app.
  assert (E1 : forall k c, exists c1, CodeWriter.run (replicate k CodeWriter.CNewLabel) c = Some c1 /\ labels c1 = labels c ++ replicate k (mkLabel (-1) (-1))).
  { clear. induction k as [|k IH]; intros c; [exists c; by rewrite app_nil_r|]. cbn [replicate CodeWriter.run CodeWriter.run_cmd mbind option_bind].
    destruct (IH (CodeWriter.NewLabel c)) as (c1 & E1 & L1). exists c1. split; [done|]. rewrite L1. cbn. by rewrite <- app_assoc. }
  destruct (E1 k c) as (c1 & -> & L1). cbn [mbind option_bind]. apply dead_mark_run; [|done|done].
  rewrite L1, lookup_app_r by lia. rewrite Hn. replace (n + i - n)%nat with i by lia. by apply lookup_replicate_2.
Qed.

Lemma refused_code limit i body b b' : refused 0 body -> Builder.Code_bound limit i body b = Some b' -> Builder.berr b' <> None.
Proof.
  intros H. unfold Builder.Code_bound. destruct (Builder.methods b !! i) as [m|]; [|done]. cbn [mbind option_bind].
  destruct (Builder.berr b) eqn:Eb; [intros [= <-]; by rewrite Eb|]. cbv zeta.
  assert (Hf : forall f a, Builder.berr (Builder.bfail f a b) <> None) by (intros f a; unfold Builder.bfail; rewrite Eb; done).
  destruct (Desc.ParseMethod _) as [sig|x]; [|intros [= <-]; apply Hf]. destruct (Desc.CheckArgSlots _ _); [intros [= <-]; apply Hf|].
  set (ml := s32 _).
  assert (Hr : forall todo n p wd r p', Builder.replays todo n body p (Desc.Ret sig) (Builder.bversion b) wd ml = Some (r, p') ->
    r = None \/ exists f a c, r = Some (Builder.PFailed f a c)).
  { intros todo n p wd r p'. destruct todo as [|todo]; cbn [Builder.replays]; [intros [= <- _]; by left|].
    unfold Builder.one_pass. set (c0 := Builder.start _ _ _ _ _ _). destruct (CodeWriter.run body c0) as [c1|] eqn:E1; [|done]. cbn [mbind option_bind].
    specialize (H c0 c1 eq_refl E1). destruct (err c1); [|done]. cbn [mbind option_bind]. intros [= <- _]. right. eauto. }
  destruct (Builder.replays _ _ _ _ _ _ _ _) as [[r p']|] eqn:Er; [|done]. cbn [mbind option_bind fst snd].
  destruct (Hr _ _ _ _ _ _ Er) as [-> | (f & a & c & ->)]; intros [= <-]; unfold Builder.bfail; cbn; by rewrite Eb.
Qed.

(** ** Statements whose calls are refused *)

(** Between two states of the walk. *)
Definition stranded (e e' : emitter) : Prop := exists new, out e' = out e ++ new /\ refused (nlabels e) new.

Definition older (e : emitter) : scope := mkScope (fun l => (l < nlabels e)%nat) (fun l => (l < nlabels e)%nat).

(** Frames name labels that exist. *)
Definition wf (e : emitter) : Prop := given (older e) e.

Lemma stranded_then D e e1 e2 : stranded e e1 -> adds D e1 e2 -> stranded e e2.
Proof.
  intros (new & O & R) [l [O' _ _ _ _ _]]. exists (new ++ l). split; [by rewrite O', O, app_assoc|by apply refused_app_l].
Qed.

Lemma adds_stranded D e e1 e2 : adds D e e1 -> stranded e1 e2 -> stranded e e2.
Proof.
  intros [l [O N _ _ _ _]] (new & O' & R). exists (l ++ new). split; [by rewrite O', O, app_assoc|]. apply refused_app_r. by rewrite <- N.
Qed.

Lemma wf_grow e e' : wf e -> frames e' = frames e -> (nlabels e <= nlabels e')%nat -> wf e'.
Proof.
  intros (_ & _ & Hf) F N. split_and!; [done..|]. rewrite F. eapply Forall_impl; [exact Hf|].
  unfold older. cbn. intros f [Hb Hc]. split; [lia|]. intros c Ec. specialize (Hc c Ec). lia.
Qed.

Lemma wf_adds D e e' : wf e -> adds D e e' -> wf e'.
Proof. intros Hw [l [_ N _ _ _ F]]. eapply wf_grow; [exact Hw|done|lia]. Qed.

Lemma wf_start s : wf (start s).
Proof. split_and!; [done..|constructor]. Qed.

(** [k] labels were created, and nothing else changed but the calls [mid]. *)
Lemma stranded_mark e e' k i mid g :
  out e' = out e ++ replicate k CodeWriter.CNewLabel ++ mid ++ [CodeWriter.CGoto g; CodeWriter.CMark (nlabels e + i)] ->
  (i < k)%nat -> g <> (nlabels e + i)%nat -> Forall (fun x => (nlabels e + i)%nat ∉ uses x) mid -> stranded e e'.
Proof. intros O Hi Hg Hm. eexists. split; [exact O|]. by apply dead_mark. Qed.

Section Stranded.
Context `{Program, Site, Missing} `{!Missing_keeps} `{E : Emits} `{!Emits_keep E}.

Lemma while_strands C B label e u e' : wf e -> whileStmt C B label e = Done u e' -> stranded e e'.
Proof.
  intros Hw Er. unfold whileStmt in Er.
  do 3 (apply emit_bind_inv in Er as (? & ? & [= <- <-] & Er)).
  apply emit_bind_inv in Er as (u1 & e1 & [= <- <-] & Er).
  apply emit_bind_inv in Er as (u2 & e2 & [= <- <-] & Er).
  apply emit_bind_inv in Er as (u3 & e3 & [= _ <-] & Er).
  set (e4 := set_alive true _) in Er. apply (stranded_then (older e4) _ e4).
  - apply (stranded_mark _ _ 3 0 [] (S (nlabels e))); [|lia|lia|constructor].
    unfold e4. cbn. rewrite <- !app_assoc. cbn. by rewrite Nat.add_0_r.
  - eapply while_end_keeps; [..|exact Er]; [unfold older, e4; cbn; lia..|]. eapply wf_grow; [exact Hw|done|unfold e4; cbn; lia].
Qed.

(** What a [try] statement emits up to the end of its block. *)
Definition try_block (Body : Block) (Finally : option Block) : Emit unit :=
  start ← NewLabel; _ ← NewLabel; _ ← NewLabel;
  _ ← maybe (fun f => m ← slots_mark; put (fun e => set_finallys (mkFinally f m :: finallys e) e)) Finally;
  _ ← mark start;
  rBlock Body.

(** The calls of a part that does not know of a label leave it alone. *)
Lemma adds_unnamed D e e' l new :
  added D e e' new -> ~ names D l -> (l < nlabels e)%nat -> Forall (fun x => l ∉ uses x) new.
Proof.
  intros A Hd Hl. eapply Forall_impl; [exact (added_named _ _ _ _ A)|]. intros x [Hx _] Hin.
  rewrite Forall_forall in Hx. destruct (Hx l Hin); [done|lia].
Qed.

Lemma maybe_push_inv F e u e3 :
  maybe (fun f => m ← slots_mark; put (fun e => set_finallys (mkFinally f m :: finallys e) e)) F e = Done u e3 ->
  out e3 = out e /\ nlabels e3 = nlabels e /\ frames e3 = frames e.
Proof. destruct F; intros [= _ <-]; done. Qed.

(** The end of the block, left by a jump; then the label after it. *)
Lemma leave_mark D F g l e b e1 u e2 : names D g -> given D e -> alive e = true ->
  leave F g e = Done b e1 -> markAt l e1 = Done u e2 ->
  exists new, Forall (named D (nlabels e)) new /\ out e2 = out e ++ new ++ [CodeWriter.CGoto g; CodeWriter.CMark l] /\
    frames e2 = frames e /\ (nlabels e <= nlabels e2)%nat.
Proof.
  intros Hg Hd Ha El Em. unfold leave in El. apply emit_bind_inv in El as (b0 & e0 & [= <- <-] & El). rewrite Ha in El. cbn [when] in El.
  apply emit_bind_inv in El as (u0 & e3 & El & [= _ <-]). apply emit_bind_inv in El as (u1 & e4 & E4 & El).
  apply emit_bind_inv in El as (u2 & e5 & [= _ <-] & [= _ <-]). cbn in Em. injection Em as _ <-.
  assert (K : Keeps D (maybe inlineFinally F)) by (apply keeps_maybe; intros f; apply inlined_keeps).
  destruct (K _ _ _ Hd E4) as [new [O N _ _ M Fr]]. exists new. cbn. rewrite O, <- !app_assoc. split_and!; [done|done|done|lia].
Qed.

Lemma try_strands B C F e u1 e2 u e' : wf e ->
  try_block B F e = Done u1 e2 -> alive e2 = true -> tryBody B C F e = Done u e' -> stranded e e'.
Proof.
  intros Hw Eb Ha Er. unfold try_block in Eb. unfold tryBody in Er.
  do 3 (apply emit_bind_inv in Eb as (? & ? & [= <- <-] & Eb); apply emit_bind_inv in Er as (? & ? & [= <- <-] & Er)).
  apply emit_bind_inv in Er as (u3 & e3 & E3 & Er). apply emit_bind_inv in Eb as (u3' & e3' & E3' & Eb).
  rewrite E3 in E3'. injection E3' as <- <-. apply maybe_push_inv in E3 as (O3 & N3 & F3). cbn in O3, N3, F3.
  apply emit_bind_inv in Er as (u4 & e4 & [= <- <-] & Er). apply emit_bind_inv in Eb as (u4' & e4' & [= <- <-] & Eb).
  apply emit_bind_inv in Er as (u5 & e5 & E5 & Er). rewrite Eb in E5. injection E5 as <- <-.
  set (e5 := set_alive true _) in Eb.
  set (known l := (l < nlabels e)%nat \/ l = nlabels e \/ l = S (S (nlabels e))). set (D := mkScope known known).
  assert (G : given D e5).
  { unfold e5. split_and!; cbn; [unfold known; lia..|]. rewrite F3. eapply Forall_impl; [apply Hw|]. cbn. intros f [Hb Hc].
    split; [by left|]. intros c Ec. left. by apply Hc. }
  pose proof (block_keeps D B _ _ _ G Eb) as A1. destruct (A1) as [new1 B1].
  apply emit_bind_inv in Er as (b6 & e6 & E6 & Er). apply emit_bind_inv in Er as (u7 & e7 & E7 & Er).
  assert (Hs : names D (S (S (nlabels e)))) by (cbn; unfold known; auto).
  destruct (leave_mark D _ _ _ _ _ _ _ _ Hs (given_adds _ _ _ G A1) Ha E6 E7) as (new2 & M2 & O7 & F7 & N7).
  assert (Hend : ~ names D (S (nlabels e))) by (cbn; unfold known; lia).
  pose proof (added_frames _ _ _ _ B1) as F2. pose proof (added_labels _ _ _ _ B1) as N2. pose proof (added_out _ _ _ _ B1) as O2.
  apply (stranded_then (older e7) _ e7).
  - apply (stranded_mark _ _ 3 1 ([CodeWriter.CMark (nlabels e)] ++ new1 ++ new2) (S (S (nlabels e)))); [|lia|lia|].
    + rewrite O7, O2. unfold e5. cbn. rewrite O3. replace (nlabels e + 1)%nat with (S (nlabels e)) by lia. by rewrite <- !app_assoc.
    + replace (nlabels e + 1)%nat with (S (nlabels e)) by lia. apply Forall_app. split; [|apply Forall_app; split].
      * constructor; [|constructor]. cbn. rewrite list_elem_of_singleton. lia.
      * eapply adds_unnamed; [exact B1|exact Hend|]. unfold e5. cbn. lia.
      * eapply Forall_impl; [exact M2|]. intros x [Hx _] Hin. rewrite Forall_forall in Hx.
        destruct (Hx _ Hin) as [?|Hn]; [done|]. unfold e5 in N2. cbn in N2. lia.
  - unfold e5 in F2, N2. cbn in F2, N2. eapply try_end_keeps; [..|exact Er]; [cbn; lia..|].
    eapply wf_grow; [exact Hw|congruence|lia].
Qed.
End Stranded.

(** ** Bodies *)

Section Bodies.
Context `{Program, Site, Missing} `{!Missing_keeps}.

(** A body that is a block: no plan, bridge, accessor or initializer. *)
Definition block_body (i : nat) (m : option meth) (b : Block) : pendingBody := mkPending i m (Some b) None None None None None.

Lemma each_app {A} (g : A -> Emit unit) l k e u e' :
  each g (l ++ k) e = Done u e' -> exists u1 e1, each g l e = Done u1 e1 /\ each g k e1 = Done u e'.
Proof.
  revert e. induction l as [|a l IH]; intros e Er; cbn [app each] in *; [exists tt, e; done|].
  apply emit_bind_inv in Er as (u1 & e1 & E1 & Er). destruct (IH e1 Er) as (u2 & e2 & E2 & Ek). exists u2, e2. split; [|done].
  unfold mbind, Emit_bind. by rewrite E1.
Qed.

#[local] Instance line_adds D p : Keeps D (line p) := keeps_line D p.

(** One statement refused is the body refused. *)
Lemma block_body_refused n i m a b pre x post c s u1 e1 u e :
  each (rStmt (Emits := emits (S n))) pre (start s) = Done u1 e1 -> alive e1 = true -> UnreachableAt x = false ->
  (forall v e2 w e3, line (Lo (stmt_span x)) e1 = Done v e2 -> wf e2 -> stmt_node (H2 := emits n) x e2 = Done w e3 -> stranded e2 e3) ->
  emit_body (S (S n)) (block_body i m (mkBlock a b (pre ++ x :: post) c)) s = Done u e -> refused 0 (out e).
Proof.
  intros Ep Ha Hu Hx Er. unfold emit_body, emitBody in Er. cbn [pbBridge pbAccessor pbClinit pbCtor pbLambda pbBody block_body maybe] in Er.
  set (D := no_labels). assert (G0 : given D (start s)) by apply given_start.
  apply emit_bind_inv in Er as (u2 & e2 & Eb & Er). change (block (H2 := emits (S n)) (mkBlock a b (pre ++ x :: post) c) (start s) = Done u2 e2) in Eb.
  cbn [block] in Eb. apply emit_bind_inv in Eb as (mk & e0 & [= _ <-] & Eb). apply emit_bind_inv in Eb as (u3 & e3 & Eb & El).
  apply each_app in Eb as (u1' & e1' & Ep' & Eb). rewrite Ep in Ep'. injection Ep' as <- <-. cbn [each] in Eb.
  apply emit_bind_inv in Eb as (u4 & e4 & Es & Eb). change (stmt (H2 := emits n) x e1 = Done u4 e4) in Es. unfold stmt in Es.
  apply emit_bind_inv in Es as (b0 & e0 & [= <- <-] & Es). rewrite Ha, Hu in Es. cbn [negb orb] in Es.
  apply emit_bind_inv in Es as (v & e5 & Ev & Es).
  assert (K1 : Keeps D (each (rStmt (Emits := emits (S n))) pre)) by typeclasses eauto.
  pose proof (K1 _ _ _ G0 Ep) as A1. pose proof (given_adds _ _ _ G0 A1) as G1. pose proof (line_adds D _ _ _ _ G1 Ev) as A2.
  pose proof (given_adds _ _ _ G1 A2) as G2. pose proof (wf_adds D _ _ (wf_adds D _ _ (wf_start s) A1) A2) as W2.
  pose proof (Hx _ _ _ _ Ev W2 Es) as S3.
  assert (K4 : Keeps D (each (rStmt (Emits := emits (S n))) post)) by typeclasses eauto.
  assert (K3 : Keeps D (stmt_node (H2 := emits n) x)) by apply stmt_node_adds.
  pose proof (given_adds _ _ _ G2 (K3 _ _ _ G2 Es)) as G3. pose proof (K4 _ _ _ G3 Eb) as A4. pose proof (given_adds _ _ _ G3 A4) as G4.
  pose proof (keeps_release D mk _ _ _ G4 El) as A5. pose proof (given_adds _ _ _ G4 A5) as G5.
  pose proof (return_if_alive_adds D _ _ _ G5 Er) as A6.
  assert (S0 : stranded (start s) e).
  { eapply adds_stranded; [exact A1|]. eapply adds_stranded; [exact A2|]. eapply stranded_then; [|exact A6]. eapply stranded_then; [|exact A5].
    eapply stranded_then; [exact S3|exact A4]. }
  destruct S0 as (new & O & R). rewrite O. exact R.
Qed.

(** C23: no method with a [while] loop that can be reached is ever built,
    whatever surrounds the loop in its block: the loop opens with a jump to its
    condition and marks its top after it, before anything has named that label,
    and the code writer refuses a label that is marked where control cannot
    arrive.  The builder is left with an error, however many passes it may
    make. *)
Theorem while_refused n i m a b pre sp p C B post c s u1 e1 u e limit k bld bld' :
  each (rStmt (Emits := emits (S n))) pre (start s) = Done u1 e1 -> alive e1 = true -> UnreachableAt (WhileStmt sp p C B) = false ->
  emit_body (S (S n)) (block_body i m (mkBlock a b (pre ++ WhileStmt sp p C B :: post) c)) s = Done u e ->
  Builder.Code_bound limit k (out e) bld = Some bld' -> Builder.berr bld' <> None.
Proof.
  intros Ep Ha Hu Er. apply refused_code. eapply block_body_refused; [exact Ep|done|exact Hu| |exact Er].
  intros v e2 w e3 _ Hw Es. eapply (while_strands (E := emits n)); [exact Hw|exact Es].
Qed.

(** C24: nor is a method with a [try] statement without resources in its block
    that can be reached and whose own block can complete: the end of the guarded
    range is marked after the jump past the handlers, and nothing names that
    label before. *)
Theorem try_refused n i m a b pre sp p l semi r B Cs fp F post c s u1 e1 v e2 u2 e3 u e limit k bld bld' :
  let x := TryStmt sp p l [] semi r B Cs fp F in
  each (rStmt (Emits := emits (S n))) pre (start s) = Done u1 e1 -> alive e1 = true -> UnreachableAt x = false ->
  line (Lo (stmt_span x)) e1 = Done v e2 -> try_block (E := emits n) B F e2 = Done u2 e3 -> alive e3 = true ->
  emit_body (S (S n)) (block_body i m (mkBlock a b (pre ++ x :: post) c)) s = Done u e ->
  Builder.Code_bound limit k (out e) bld = Some bld' -> Builder.berr bld' <> None.
Proof.
  intros x Ep Ha Hu El Et Ha3 Er. apply refused_code. eapply block_body_refused; [exact Ep|done|exact Hu| |exact Er].
  intros v' e2' w e4 El' Hw Es. rewrite El in El'. injection El' as <- <-. eapply (try_strands (E := emits n)); [exact Hw|exact Et|exact Ha3|exact Es].
Qed.
End Bodies.

(** The package calls [switchStmt] and [needAssertions] and defines neither, so
    a body that reaches a [switch] or an [assert] is not emitted by any code
    there is.  [dup] is an [op.Op], a byte. *)
Definition undefined (d : Z) (field : bytes) : Missing :=
  {| dup := d; switchStmt _ _ _ := bug; needAssertions := bug; assertField := field |}.

Lemma undefined_keeps d field : 0 <= d < 256 -> Missing_keeps (H := undefined d field).
Proof. intros Hd. split; [exact Hd|intros; apply keeps_bug..]. Qed.

(** C22: whatever a body is (a block, a constructor, a class or field
    initializer, a bridge, an accessor, a lambda), if its emission ends without
    having come to a [switch] or an [assert], the calls it made to the code
    writer name no label but those it has created itself and pass only operands
    in range: [MethodBuilder.Code] never panics on them. *)
Theorem lowered_bodies_close `{Program, Site} d field n p s u e limit i b :
  0 <= d < 256 -> emit_body (H1 := undefined d field) n p s = Done u e -> (i < length (Builder.methods b))%nat ->
  MethodLoop.closed_body (out e) /\ is_Some (Builder.Code_bound limit i (out e) b).
Proof.
  intros Hd Er Hi. pose proof (undefined_keeps d field Hd) as Hm.
  assert (Hc : MethodLoop.closed_body (out e)); [|split; [done|by apply MethodLoop.Code_runs]].
  assert (G0 : given no_labels (start s)) by apply given_start.
  assert (Kb : Keeps no_labels (emitBody (H2 := emits (H1 := undefined d field) n) p)) by apply emitBody_keeps.
  destruct (Kb _ _ _ G0 Er) as [new [O _ S K _ _]].
  cbn in O, S. rewrite O. by split.
Qed.
