(* ===== verification/LowerSem.v ===== *)
(** * What emitted code does

    A machine for the calls to the code writer, whose instructions are those of
    the JVM's int and long arithmetic, and an evaluator for the part of the
    language that compiles to them: locals of primitive types other than float
    and double, constants, operators, conditions, assignments, conversions,
    blocks, [if] and [return].  The evaluator follows the language, with the
    integer operations [FoldProof.java_op]; the machine follows the instruction
    set.  Code without backward jumps is run by skipping to the label of a
    jump. *)
From S2P Require Import Prelude.
From S2P Require Import Token SourceFile Ast AstWalk Types Fold Sym Emitter LowerExpr LowerStmt.
From S2P Require Import FoldProof.
From S2P Require CodeWriter Op.

(** ** The machine *)

Inductive word := WInt (v : Z) | WLong (v : Z).

Definition width (w : word) : Z := match w with WInt _ => 1 | WLong _ => 2 end.

(** A word of two slots, written over in part, is gone. *)
Definition store_word (s : Z) (w : word) (loc : gmap Z word) : gmap Z word :=
  let loc := match loc !! (s - 1) with Some (WLong _) => delete (s - 1) loc | _ => loc end in
  let loc := match w with WLong _ => delete (s + 1) loc | WInt _ => loc end in
  <[s := w]> loc.

Inductive machine :=
  | Run (stk : list word) (loc : gmap Z word)
  | Jump (l : nat) (stk : list word) (loc : gmap Z word)
  | Halt (stk : list word).

Definition int_op (o a b : Z) : option Z :=
  if o =? Op.Iadd then Some (s32 (a + b)) else if o =? Op.Isub then Some (s32 (a - b)) else if o =? Op.Imul then Some (s32 (a * b))
  else if o =? Op.Idiv then if b =? 0 then None else Some (s32 (Z.quot a b))
  else if o =? Op.Irem then if b =? 0 then None else Some (Z.rem a b)
  else if o =? Op.Iand then Some (Z.land a b) else if o =? Op.Ior then Some (Z.lor a b) else if o =? Op.Ixor then Some (Z.lxor a b)
  else if o =? Op.Ishl then Some (s32 (Z.shiftl a (Z.land b 31)))
  else if o =? Op.Ishr then Some (Z.shiftr a (Z.land b 31))
  else if o =? Op.Iushr then Some (s32 (Z.shiftr (u32 a) (Z.land b 31)))
  else None.

Definition long_op (o a b : Z) : option Z :=
  if o =? Op.Ladd then Some (s64 (a + b)) else if o =? Op.Lsub then Some (s64 (a - b)) else if o =? Op.Lmul then Some (s64 (a * b))
  else if o =? Op.Ldiv then if b =? 0 then None else Some (s64 (Z.quot a b))
  else if o =? Op.Lrem then if b =? 0 then None else Some (Z.rem a b)
  else if o =? Op.Land then Some (Z.land a b) else if o =? Op.Lor then Some (Z.lor a b) else if o =? Op.Lxor then Some (Z.lxor a b)
  else None.

Definition long_shift (o a b : Z) : option Z :=
  if o =? Op.Lshl then Some (s64 (Z.shiftl a (Z.land b 63)))
  else if o =? Op.Lshr then Some (Z.shiftr a (Z.land b 63))
  else if o =? Op.Lushr then Some (s64 (Z.shiftr (u64 a) (Z.land b 63)))
  else None.

(** Operations of one operand. *)
Definition unary_op (o : Z) (w : word) : option word :=
  match w with
  | WInt a =>
      if o =? Op.Ineg then Some (WInt (s32 (- a))) else if o =? Op.I2l then Some (WLong a) else if o =? Op.I2b then Some (WInt (s8 a))
      else if o =? Op.I2c then Some (WInt (u16 a)) else if o =? Op.I2s then Some (WInt (s16 a)) else None
  | WLong a => if o =? Op.Lneg then Some (WLong (s64 (- a))) else if o =? Op.L2i then Some (WInt (s32 a)) else None
  end.

Definition sign_of (a b : Z) : Z := if a <? b then -1 else if a =? b then 0 else 1.

(** The stack instructions, then the arithmetic. *)
Definition exec_op (o : Z) (stk : list word) : option (list word) :=
  if o =? Op.Dup then match stk with WInt a :: s => Some (WInt a :: WInt a :: s) | _ => None end
  else if o =? Op.Dup2 then
    match stk with WLong a :: s => Some (WLong a :: WLong a :: s) | WInt a :: WInt b :: s => Some (WInt a :: WInt b :: WInt a :: WInt b :: s) | _ => None end
  else if o =? Op.Pop then match stk with WInt _ :: s => Some s | _ => None end
  else if o =? Op.Pop2 then match stk with WLong _ :: s => Some s | WInt _ :: WInt _ :: s => Some s | _ => None end
  else match stk with
  | w :: s =>
      match unary_op o w with
      | Some w' => Some (w' :: s)
      | None =>
          match w, s with
          | WInt b, WInt a :: s => v ← int_op o a b; Some (WInt v :: s)
          | WInt b, WLong a :: s => v ← long_shift o a b; Some (WLong v :: s)
          | WLong b, WLong a :: s => if o =? Op.Lcmp then Some (WInt (sign_of a b) :: s) else v ← long_op o a b; Some (WLong v :: s)
          | _, _ => None
          end
      end
  | [] => None
  end.

(** A test, and the stack it leaves. *)
Definition test_zero (k : CodeWriter.cond) (a : Z) : option bool :=
  match k with
  | CodeWriter.Eq => Some (a =? 0) | CodeWriter.Ne => Some (negb (a =? 0)) | CodeWriter.Lt => Some (a <? 0)
  | CodeWriter.Ge => Some (0 <=? a) | CodeWriter.Gt => Some (0 <? a) | CodeWriter.Le => Some (a <=? 0) | _ => None
  end.
Definition test_two (k : CodeWriter.cond) (a b : Z) : option bool :=
  match k with
  | CodeWriter.ICmpEq => Some (a =? b) | CodeWriter.ICmpNe => Some (negb (a =? b)) | CodeWriter.ICmpLt => Some (a <? b)
  | CodeWriter.ICmpGe => Some (b <=? a) | CodeWriter.ICmpGt => Some (b <? a) | CodeWriter.ICmpLe => Some (a <=? b) | _ => None
  end.
Definition test (k : CodeWriter.cond) (stk : list word) : option (bool * list word) :=
  match stk with
  | WInt b :: s =>
      match test_zero k b, s with
      | Some t, _ => Some (t, s)
      | None, WInt a :: s => t ← test_two k a b; Some (t, s)
      | None, _ => None
      end
  | _ => None
  end.

Definition load_word (t : CodeWriter.local_type) (w : word) : bool :=
  match t, w with CodeWriter.TI, WInt _ | CodeWriter.TL, WLong _ => true | _, _ => false end.

(** One call; [None] is a stack it does not fit, a division by zero, or an
    instruction of the parts left out. *)
Definition exec1 (x : CodeWriter.cmd) (m : machine) : option machine :=
  match m with
  | Halt _ => Some m
  | Jump l stk loc => Some (match x with CodeWriter.CMark k => if Nat.eqb k l then Run stk loc else m | _ => m end)
  | Run stk loc =>
      match x with
      | CodeWriter.CNewLabel | CodeWriter.CMark _ | CodeWriter.CLine _ => Some m
      | CodeWriter.CLoad t s => w ← loc !! s; if load_word t w then Some (Run (w :: stk) loc) else None
      | CodeWriter.CStore t s =>
          match stk with w :: stk => if load_word t w then Some (Run stk (store_word s w loc)) else None | [] => None end
      | CodeWriter.CIinc s d => match loc !! s with Some (WInt a) => Some (Run stk (store_word s (WInt (s32 (a + d))) loc)) | _ => None end
      | CodeWriter.CIconst v => Some (Run (WInt v :: stk) loc)
      | CodeWriter.CLconst v => Some (Run (WLong v :: stk) loc)
      | CodeWriter.COp o => stk ← exec_op o stk; Some (Run stk loc)
      | CodeWriter.CGoto l => Some (Jump l stk loc)
      | CodeWriter.CIf k l => r ← test k stk; let '(b, stk) := r : bool * list word in Some (if b then Jump l stk loc else Run stk loc)
      | CodeWriter.CReturn => Some (Halt stk)
      | _ => None
      end
  end.

Fixpoint exec (c : list CodeWriter.cmd) (m : machine) : option machine :=
  match c with [] => Some m | x :: c => m ← exec1 x m; exec c m end.

(** ** The language *)

Definition typed (k : Types.Kind) (v : value) : bool :=
  match k, v with
  | KindBoolean, VBool _ => true
  | KindByte, VInt _ | KindShort, VInt _ | KindChar, VInt _ | KindInt, VInt _ => true
  | KindLong, VLong _ => true
  | _, _ => false
  end.

Definition word_of (v : value) : option word :=
  match v with VInt a => Some (WInt a) | VLong a => Some (WLong a) | VBool b => Some (WInt (if b then 1 else 0)) | _ => None end.

(** Conversion between primitive types, none out of or into boolean. *)
Definition conv (from to : Types.Kind) (v : value) : option value :=
  if negb (typed from v) then None
  else if bool_decide (from = to) then Some v
  else match v, to with
  | VInt a, KindByte | VLong a, KindByte => Some (VInt (s8 a))
  | VInt a, KindShort | VLong a, KindShort => Some (VInt (s16 a))
  | VInt a, KindChar | VLong a, KindChar => Some (VInt (u16 a))
  | VInt a, KindInt => Some (VInt a)
  | VLong a, KindInt => Some (VInt (s32 a))
  | VInt a, KindLong => Some (VLong a)
  | _, _ => None
  end.

(** Promotion of one operand, and of two. *)
Definition promoted (k : Types.Kind) : option Types.Kind :=
  match k with KindByte | KindShort | KindChar | KindInt => Some KindInt | KindLong => Some KindLong | _ => None end.
Definition promoted2 (k k' : Types.Kind) : option Types.Kind :=
  a ← promoted k; b ← promoted k'; Some (if bool_decide (a = KindLong) || bool_decide (b = KindLong) then KindLong else KindInt).

(** Two operands converted to their common type. *)
Definition both (k k' : Types.Kind) (a b : value) : option (value * value) :=
  p ← promoted2 k k'; x ← conv k p a; y ← conv k' p b; Some (x, y).

Definition integer (v : value) : option Z := match v with VInt a | VLong a => Some a | _ => None end.

(** An operator on two operands promoted to one type. *)
Definition word_op (op : Z) (a b : value) : option value :=
  match a, b with
  | VInt a, VInt b => VInt <$> java_op 32 op a b
  | VLong a, VLong b => VLong <$> java_op 64 op a b
  | _, _ => None
  end.

Definition bool_op (op : Z) (a b : bool) : option bool :=
  if op =? AND then Some (a && b) else if op =? OR then Some (a || b) else if op =? XOR then Some (xorb a b) else None.

(** Arithmetic and bitwise operators, of operands of two types. *)
Definition binary_value (op : Z) (k k' : Types.Kind) (a b : value) : option value :=
  match a, b with
  | VBool x, VBool y => if bool_decide (k = KindBoolean) && bool_decide (k' = KindBoolean) then VBool <$> bool_op op x y else None
  | _, _ => v ← both k k' a b; word_op op (fst v) (snd v)
  end.

(** A shift is of the promoted left operand; the distance is an integer. *)
Definition shift_value (op : Z) (k k' : Types.Kind) (a b : value) : option value :=
  p ← promoted k; _ ← promoted k'; x ← conv k p a;
  if typed k' b then
    d ← integer b;
    match x with VInt a => VInt <$> java_op 32 op a d | VLong a => VLong <$> java_op 64 op a d | _ => None end
  else None.

Definition compare_value (op : Z) (k k' : Types.Kind) (a b : value) : option bool :=
  match a, b with
  | VBool x, VBool y =>
      if negb (bool_decide (k = KindBoolean) && bool_decide (k' = KindBoolean)) then None
      else if op =? EQL then Some (Bool.eqb x y) else if op =? NEQ then Some (xorb x y) else None
  | _, _ => v ← both k k' a b; i ← integer (fst v); j ← integer (snd v); compareInt op i j
  end.

Definition unary_value (op : Z) (k : Types.Kind) (a : value) : option value :=
  p ← promoted k; x ← conv k p a;
  if op =? ADD then Some x
  else if op =? SUB then match x with VInt a => Some (VInt (wrap 32 (- a))) | VLong a => Some (VLong (wrap 64 (- a))) | _ => None end
  else if op =? TILDE then match x with VInt a => Some (VInt (Z.lnot a)) | VLong a => Some (VLong (Z.lnot a)) | _ => None end
  else None.

(** The operator of a compound assignment. *)
Definition operator_of (op : Z) : option Z :=
  if op =? ADD_ASSIGN then Some ADD else if op =? SUB_ASSIGN then Some SUB else if op =? MUL_ASSIGN then Some MUL
  else if op =? QUO_ASSIGN then Some QUO else if op =? REM_ASSIGN then Some REM else if op =? AND_ASSIGN then Some AND
  else if op =? OR_ASSIGN then Some OR else if op =? XOR_ASSIGN then Some XOR else None.

(** A compound assignment stores the value converted back. *)
Definition compound_value (op : Z) (k k' : Types.Kind) (a b : value) : option value :=
  c ← binary_value op k k' a b;
  match c with VBool _ => Some c | _ => p ← promoted2 k k'; conv p k c end.

Definition step_value (op : Z) (k : Types.Kind) (a : value) : option value :=
  p ← promoted k; x ← conv k p a;
  c ← match x with
      | VInt a => Some (VInt (wrap 32 (if op =? DEC then a - 1 else a + 1)))
      | VLong a => Some (VLong (wrap 64 (if op =? DEC then a - 1 else a + 1)))
      | _ => None
      end;
  conv p k c.

(** The locals in scope, with their values where they have one. *)
Abbreviation env := (gmap var (option value)).

Section Evaluate.
Context `{Program, Site}.

Definition is_local (v : var) : bool := negb (bool_decide (vKind (varSym v) = VarField)) && negb (bool_decide (is_Some (captureOf v))).

Definition local_of (n : Any) : option var := match use_var n with Some v => if is_local v then Some v else None | None => None end.

(** The local an assignable expression names. *)
Fixpoint target_of (x : Expr) : option var :=
  match x with ParenExpr _ _ X _ => target_of X | EIdent _ | EName _ => local_of (key x) | _ => None end.

Definition kind_of_var (v : var) : Types.Kind := kind_of (FieldType v).
Definition kind_at (x : Expr) : Types.Kind := kind_of (Type_ x).

Definition read (r : env) (v : var) : option value := o ← r !! v; w ← o; if typed (kind_of_var v) w then Some w else None.

Definition assign_to (v : var) (w : value) (r : env) : option env := match r !! v with Some _ => Some (<[v := Some w]> r) | None => None end.

(** A step of [++] or [--]: the value before, the value after. *)
Definition step_var (x : Expr) (op : Z) (r : env) : option (value * value * env) :=
  v ← target_of x; a ← read r v;
  b ← step_value op (kind_of_var v) a; r ← assign_to v b r; Some (a, b, r).

Fixpoint eval (x : Expr) (r : env) {struct x} : option (value * env) :=
  match ConstAt x ≫= cValue with
  | Some v => Some (v, r)
  | None =>
      match x with
      | ParenExpr _ _ X _ => eval X r
      | EIdent _ | EName _ => v ← local_of (key x); w ← read r v; Some (w, r)
      | UnaryExpr _ Op _ X =>
          if (Op =? INC) || (Op =? DEC) then s ← step_var X Op r; Some (snd (fst s), snd s)
          else
            a ← eval X r;
            if Op =? NOT then match fst a with VBool b => Some (VBool (negb b), snd a) | _ => None end
            else if bool_decide (promoted (kind_at X) = Some (kind_at x)) then v ← unary_value Op (kind_at X) (fst a); Some (v, snd a)
            else None
      | PostfixExpr _ X Op _ => s ← step_var X Op r; Some (fst (fst s), snd s)
      | BinaryExpr _ X Op _ _ Y =>
          a ← eval X r;
          if Op =? LAND then
            match fst a with VBool true => b ← eval Y (snd a); if typed KindBoolean (fst b) then Some b else None | VBool false => Some a | _ => None end
          else if Op =? LOR then
            match fst a with VBool false => b ← eval Y (snd a); if typed KindBoolean (fst b) then Some b else None | VBool true => Some a | _ => None end
          else
            b ← eval Y (snd a);
            if is_comparison Op then t ← compare_value Op (kind_at X) (kind_at Y) (fst a) (fst b); Some (VBool t, snd b)
            else if is_shift Op then
              if bool_decide (promoted (kind_at X) = Some (kind_at x)) then v ← shift_value Op (kind_at X) (kind_at Y) (fst a) (fst b); Some (v, snd b)
              else None
            else v ← binary_value Op (kind_at X) (kind_at Y) (fst a) (fst b); Some (v, snd b)
      | CondExpr _ Cond _ Then _ Else =>
          c ← eval Cond r;
          match fst c with
          | VBool true => a ← eval Then (snd c); v ← conv (kind_at Then) (kind_at x) (fst a); Some (v, snd a)
          | VBool false => a ← eval Else (snd c); v ← conv (kind_at Else) (kind_at x) (fst a); Some (v, snd a)
          | _ => None
          end
      | CastExpr _ _ _ _ _ X => a ← eval X r; v ← conv (kind_at X) (kind_at x) (fst a); Some (v, snd a)
      | AssignExpr _ LHS Op _ _ RHS =>
          v ← target_of LHS;
          if Op =? ASSIGN then
            a ← eval RHS r; w ← conv (kind_at RHS) (kind_of_var v) (fst a); r ← assign_to v w (snd a); Some (w, r)
          else
            op ← operator_of Op;
            a ← read r v; b ← eval RHS r;
            w ← compound_value op (kind_of_var v) (kind_at RHS) a (fst b);
            r ← assign_to v w (snd b); Some (w, r)
      | _ => None
      end
  end.

(** ** The fragment

    Every node is of a primitive type, every name that of a local, and the
    operands of a condition are boolean. *)
Definition is_boolean (x : Expr) : bool := bool_decide (kind_at x = KindBoolean).
Definition prim (x : Expr) : bool := IsPrimitive (kind_at x).
Definition prim_var (v : var) : bool := IsPrimitive (kind_of_var v).
Definition prim_target (x : Expr) : bool := match target_of x with Some v => prim_var v | None => false end.

Definition step_target (x : Expr) : bool :=
  match target_of x with Some v => prim_var v && bool_decide (kind_at x = kind_of_var v) | None => false end.

Fixpoint simple (x : Expr) : bool :=
  prim x &&
  match ConstAt x ≫= cValue with
  | Some v => typed (kind_at x) v
  | None =>
      match x with
      | ParenExpr _ _ X _ => simple X && bool_decide (kind_at X = kind_at x)
      | CastExpr _ _ _ _ _ X => simple X
      | EIdent _ | EName _ => match local_of (key x) with Some v => prim_var v | None => false end
      | UnaryExpr _ Op _ X =>
          if (Op =? INC) || (Op =? DEC) then step_target X
          else simple X && (negb (Op =? NOT) || is_boolean X && is_boolean x)
      | PostfixExpr _ X _ _ => step_target X
      | BinaryExpr _ X Op _ _ Y =>
          simple X && simple Y && (negb ((Op =? LAND) || (Op =? LOR)) || is_boolean X && is_boolean Y) &&
          (negb ((Op =? LAND) || (Op =? LOR) || is_comparison Op) || is_boolean x)
      | CondExpr _ C _ X _ Y => simple C && is_boolean C && simple X && simple Y
      | AssignExpr _ LHS _ _ _ RHS => prim_target LHS && simple RHS
      | _ => false
      end
  end.

(** ** Statements *)

Definition simple_local (d : VarDeclarator) : bool :=
  match d with
  | mkVarDeclarator _ name _ _ Init =>
      match use_var (AIdent name) with Some v => prim_var v && is_local v | None => true end &&
      match Init with Some (NExpr x) => simple x | Some _ => false | None => true end
  end.

Fixpoint simple_stmt (s : Stmt) : bool :=
  match s with
  | SBlock (mkBlock _ _ Stmts _) => forallb simple_stmt Stmts
  | EmptyStmt _ => true
  | ExprStmt _ X => simple X && match ConstAt X ≫= cValue with None => true | Some _ => false end
  | DeclStmt _ (DVar (mkVarDecl _ _ _ Names _)) => forallb simple_local Names
  | IfStmt _ _ C X _ Y => simple C && is_boolean C && simple_stmt X && match Y with Some Y => simple_stmt Y | None => true end
  | ReturnStmt _ _ x => match x with Some x => simple x && IsPrimitive (kind_of returnType) | None => true end
  | _ => false
  end.

(** The locals a statement declares. *)
Definition declared_by (d : VarDeclarator) : list var :=
  match d with mkVarDeclarator _ name _ _ _ => match use_var (AIdent name) with Some v => [v] | None => [] end end.

Fixpoint declares (s : Stmt) : list var :=
  match s with
  | SBlock (mkBlock _ _ Stmts _) => List.concat (map declares Stmts)
  | DeclStmt _ (DVar (mkVarDecl _ _ _ Names _)) => List.concat (map declared_by Names)
  | IfStmt _ _ _ X _ Y => declares X ++ match Y with Some Y => declares Y | None => [] end
  | _ => []
  end.

Inductive result := Next (r : env) | Ret (v : option value).

Definition finish (r : env) (o : result) : result :=
  match o with Next r' => Next (filter (fun p => is_Some (r !! p.1)) r') | _ => o end.

Definition eval_local (d : VarDeclarator) (r : env) : option env :=
  match d with
  | mkVarDeclarator _ name _ _ Init =>
      match use_var (AIdent name) with
      | None => Some r
      | Some v =>
          match Init with
          | None => Some (<[v := None]> r)
          | Some (NExpr x) =>
              a ← eval x (<[v := None]> r); w ← conv (kind_at x) (kind_of_var v) (fst a); assign_to v w (snd a)
          | Some _ => None
          end
      end
  end.

Fixpoint eval_locals (l : list VarDeclarator) (r : env) : option env :=
  match l with [] => Some r | d :: l => r ← eval_local d r; eval_locals l r end.

Fixpoint eval_stmt (s : Stmt) (r : env) {struct s} : option result :=
  if UnreachableAt s then None
  else match s with
  | SBlock (mkBlock _ _ Stmts _) =>
      o ← (fix all l r := match l with
        | [] => Some (Next r)
        | s :: l => o ← eval_stmt s r; match o with Next r => all l r | Ret _ => Some o end
        end) Stmts r;
      Some (finish r o)
  | EmptyStmt _ => Some (Next r)
  | ExprStmt _ X => a ← eval X r; if typed (kind_at X) (fst a) then Some (Next (snd a)) else None
  | DeclStmt _ (DVar (mkVarDecl _ _ _ Names _)) => r ← eval_locals Names r; Some (Next r)
  | IfStmt _ _ Cond Then _ Else =>
      c ← eval Cond r;
      match fst c, Else with
      | VBool true, _ => eval_stmt Then (snd c)
      | VBool false, Some e => eval_stmt e (snd c)
      | VBool false, None => Some (Next (snd c))
      | _, _ => None
      end
  | ReturnStmt _ _ None => Some (Ret None)
  | ReturnStmt _ _ (Some x) => a ← eval x r; v ← conv (kind_at x) (kind_of returnType) (fst a); Some (Ret (Some v))
  | _ => None
  end.

Fixpoint eval_stmts (l : list Stmt) (r : env) : option result :=
  match l with
  | [] => Some (Next r)
  | s :: l => o ← eval_stmt s r; match o with Next r => eval_stmts l r | Ret _ => Some o end
  end.
End Evaluate.
