(* ===== verification/LowerExprOk.v ===== *)
(** * Expressions compile to what they mean

    Whatever an emission adds, running it from a state that agrees with the
    locals computes the value of the expression; emitted as a condition, it
    jumps exactly when it should. *)
From S2P Require Import Prelude.
From S2P Require Import Token SourceFile Ast AstWalk Types Fold Sym Emitter LowerExpr LowerStmt LowerKeeps LowerSem.
From S2P Require Import FoldProof.
From S2P Require CodeWriter Op.

(** ** What an emission does to the emitter *)

(** The labels marked are at least [lo]. *)
Definition fresh (lo : nat) (c : list CodeWriter.cmd) : Prop := Forall (fun x => Forall (fun l => (lo <= l)%nat) (mark_of x)) c.

Record ran (lo : nat) (e e' : emitter) (c : list CodeWriter.cmd) : Prop := {
  ran_out : out e' = out e ++ c;
  ran_labels : (nlabels e <= nlabels e')%nat;
  ran_slots : slots e' = slots e;
  ran_frames : frames e' = frames e;
  ran_finallys : finallys e' = finallys e;
  ran_fresh : fresh lo c }.

Definition gives (lo : nat) {A} (m : Emit A) (e : emitter) (R : A -> emitter -> list CodeWriter.cmd -> Prop) : Prop :=
  forall a e', m e = Done a e' -> exists c, ran lo e e' c /\ R a e' c.

Lemma fresh_weaken lo lo' c : (lo <= lo')%nat -> fresh lo' c -> fresh lo c.
Proof. intros H Hc. eapply Forall_impl; [exact Hc|]. cbn. intros x Hx. eapply Forall_impl; [exact Hx|]. cbn. lia. Qed.

Lemma ran_refl lo e : ran lo e e [].
Proof. split; try done; [by rewrite app_nil_r|constructor]. Qed.

Lemma ran_trans lo e1 e2 e3 c d : ran lo e1 e2 c -> ran lo e2 e3 d -> ran lo e1 e3 (c ++ d).
Proof.
  intros [O1 L1 S1 F1 Y1 M1] [O2 L2 S2 F2 Y2 M2]. split; try congruence; [by rewrite O2, O1, app_assoc|lia|by apply Forall_app].
Qed.

Lemma gives_weaken lo lo' {A} (m : Emit A) e R : (lo <= lo')%nat -> gives lo' m e R -> gives lo m e R.
Proof.
  intros H Hm a e' E. destruct (Hm a e' E) as (c & [O L S F Y M] & Hr). exists c. split; [|done]. split; try done. by eapply fresh_weaken.
Qed.

Lemma gives_imp lo {A} (m : Emit A) e (R R' : A -> emitter -> list CodeWriter.cmd -> Prop) :
  gives lo m e R -> (forall a e' c, ran lo e e' c -> R a e' c -> R' a e' c) -> gives lo m e R'.
Proof. intros Hm H a e' E. destruct (Hm a e' E) as (c & Hr & Hc). eauto. Qed.

Lemma gives_bind lo {A B} (m : Emit A) (k : A -> Emit B) e R :
  gives lo m e (fun a e1 c1 => gives lo (k a) e1 (fun b e2 c2 => R b e2 (c1 ++ c2))) -> gives lo (m ≫= k) e R.
Proof.
  intros Hm b e' E. apply emit_bind_inv in E as (a & e1 & E1 & E2). destruct (Hm a e1 E1) as (c1 & R1 & H2).
  destruct (H2 b e' E2) as (c2 & R2 & HR). exists (c1 ++ c2). split; [by eapply ran_trans|done].
Qed.

Lemma gives_ret lo {A} (a : A) e (R : A -> emitter -> list CodeWriter.cmd -> Prop) : R a e [] -> gives lo (mret a) e R.
Proof. intros H b e' [= <- <-]. exists []. split; [apply ran_refl|done]. Qed.

Lemma gives_bug lo {A} e R : gives lo (bug (A := A)) e R.
Proof. intros a e' E. done. Qed.

Lemma gives_spin lo {A} e R : gives lo (spin (A := A)) e R.
Proof. intros a e' E. done. Qed.

Definition with_call (x : CodeWriter.cmd) (e : emitter) : emitter :=
  mkEmitter (out e ++ [x]) (nlabels e) (slots e) (lastLine e) (alive e) (frames e) (finallys e).

Lemma gives_call lo x e R : Forall (fun l => (lo <= l)%nat) (mark_of x) -> R tt (with_call x e) [x] -> gives lo (call x) e R.
Proof.
  intros Hx H a e' [= <- <-]. exists [x]. split; [|done]. split; try done. by constructor.
Qed.

Definition with_label_made (e : emitter) : emitter :=
  mkEmitter (out e ++ [CodeWriter.CNewLabel]) (S (nlabels e)) (slots e) (lastLine e) (alive e) (frames e) (finallys e).

Lemma gives_new lo {A} (k : nat -> Emit A) e R :
  gives lo (k (nlabels e)) (with_label_made e) (fun a e' c => R a e' (CodeWriter.CNewLabel :: c)) -> gives lo (NewLabel ≫= k) e R.
Proof.
  intros H. apply gives_bind. intros l e1 [= <- <-]. exists [CodeWriter.CNewLabel]. split; [|exact H]. split; try done; [cbn; lia|repeat constructor].
Qed.

Lemma gives_alive lo b e (R : unit -> emitter -> list CodeWriter.cmd -> Prop) : R tt (set_alive b e) [] -> gives lo (put (set_alive b)) e R.
Proof. intros H a e' [= <- <-]. exists []. split; [|done]. split; try done; [by rewrite app_nil_r|constructor]. Qed.

Lemma gives_get lo {A} (g : emitter -> A) e (R : A -> emitter -> list CodeWriter.cmd -> Prop) : R (g e) e [] -> gives lo (get g) e R.
Proof. intros H a e' [= <- <-]. exists []. split; [apply ran_refl|done]. Qed.

(** An emission where control arrives, with the slots [sl], which it keeps. *)
Definition steady (sl : slotMap) {A} (m : Emit A) (Q : A -> list CodeWriter.cmd -> Prop) : Prop := forall lo e,
  slots e = sl -> (lo <= nlabels e)%nat -> alive e = true -> gives lo m e (fun a e' c => alive e' = true /\ Q a c).

Lemma steady_bind sl {A B} (m : Emit A) (k : A -> Emit B) (P : A -> list CodeWriter.cmd -> Prop) Q :
  steady sl m P -> (forall a c, P a c -> steady sl (k a) (fun b d => Q b (c ++ d))) -> steady sl (m ≫= k) Q.
Proof.
  intros Hm Hk lo e Hs Hlo Ha. apply gives_bind. eapply gives_imp; [by apply Hm|]. intros a e1 c1 R1 [Ha1 Hp]. pose proof (ran_labels _ _ _ _ R1).
  apply (Hk a c1 Hp); [|lia|done]. rewrite <- Hs. apply R1.
Qed.

Lemma steady_imp sl {A} (m : Emit A) (P Q : A -> list CodeWriter.cmd -> Prop) : steady sl m P -> (forall a c, P a c -> Q a c) -> steady sl m Q.
Proof. intros Hm H lo e Hs Hlo Ha. eapply gives_imp; [by apply Hm|]. intros a e1 c1 _ [Ha1 Hp]. auto. Qed.

Lemma steady_gives sl {A} (m : Emit A) (Q : A -> list CodeWriter.cmd -> Prop) :
  (forall lo e, gives lo m e (fun a e' c => alive e' = alive e /\ Q a c)) -> steady sl m Q.
Proof. intros Hm lo e _ _ Ha. eapply gives_imp; [apply Hm|]. intros a e' c _ [-> Hq]. done. Qed.

Lemma steady_ret sl {A} (a : A) (Q : A -> list CodeWriter.cmd -> Prop) : Q a [] -> steady sl (mret a) Q.
Proof. intros Hq lo e _ _ Ha. by apply gives_ret. Qed.

Lemma steady_bug sl {A} (Q : A -> list CodeWriter.cmd -> Prop) : steady sl bug Q.
Proof. intros lo e _ _ _. apply gives_bug. Qed.

Lemma steady_spin sl {A} (Q : A -> list CodeWriter.cmd -> Prop) : steady sl spin Q.
Proof. intros lo e _ _ _. apply gives_spin. Qed.

Lemma steady_call sl x (Q : unit -> list CodeWriter.cmd -> Prop) : mark_of x = [] -> Q tt [x] -> steady sl (call x) Q.
Proof. intros Hx Hq lo e _ _ Ha. apply gives_call; [rewrite Hx; constructor|done]. Qed.

Lemma steady_must sl {A} (o : option A) (Q : A -> list CodeWriter.cmd -> Prop) : (forall a, o = Some a -> Q a []) -> steady sl (must o) Q.
Proof. intros Ho. destruct o; [apply steady_ret; auto|apply steady_bug]. Qed.

Lemma steady_assoc sl {A B C} (m : Emit A) (k : A -> Emit B) (h : B -> Emit C) (Q : C -> list CodeWriter.cmd -> Prop) :
  steady sl ((m ≫= k) ≫= h) Q -> steady sl (m ≫= fun a => k a ≫= h) Q.
Proof.
  intros Hm lo e Hs Hlo Ha a e' E. apply (Hm lo e Hs Hlo Ha). rewrite <- E. unfold mbind, Emit_bind. by destruct (m e).
Qed.

Lemma steady_ext sl {A} (m m' : Emit A) (Q : A -> list CodeWriter.cmd -> Prop) : (forall e, m' e = m e) -> steady sl m Q -> steady sl m' Q.
Proof. intros Hm H lo e Hs Hlo Ha a e' E. rewrite Hm in E. exact (H lo e Hs Hlo Ha a e' E). Qed.

(** ** What running the calls does *)

Lemma exec_app c d m : exec (c ++ d) m = exec c m ≫= exec d.
Proof. revert m. induction c as [|x c IH]; intros m; cbn [app exec]; [done|]. destruct (exec1 x m); cbn [mbind option_bind]; [apply IH|done]. Qed.

Lemma exec_halt c stk : exec c (Halt stk) = Some (Halt stk).
Proof. induction c; [done|exact IHc]. Qed.

(** A jump goes over code that does not mark its label. *)
Lemma exec_skip lo c l stk loc : fresh lo c -> (l < lo)%nat -> exec c (Jump l stk loc) = Some (Jump l stk loc).
Proof.
  intros Hc Hl. induction Hc as [|x c Hx _ IH]; [done|]. cbn [exec]. assert (E : exec1 x (Jump l stk loc) = Some (Jump l stk loc)).
  { destruct x; cbn in *; try done. apply Forall_cons in Hx as [Hx _]. destruct (Nat.eqb_spec l0 l); [lia|done]. }
  rewrite E. exact IH.
Qed.

(** A chain of comparisons with the operators, one case each. *)
Ltac by_operator :=
  repeat match goal with
  | |- context [if ?op =? ?k then _ else _] => is_var op; assert_fails (is_var k); destruct (Z.eqb_spec op k) as [->|?]; cbn
  end.

Section Ok.
Context `{Program, Site, Missing}.

Definition vwidth (v : var) : Z := slot_width (FieldType v).

(** The locals in scope have slots of their own, below the next. *)
Record live (sl : slotMap) (r : env) : Prop := {
  live_slot v : is_Some (r !! v) -> exists s, of_ sl !! v = Some s /\ s + vwidth v <= next sl;
  live_apart v v' s s' : v <> v' -> is_Some (r !! v) -> is_Some (r !! v') -> of_ sl !! v = Some s -> of_ sl !! v' = Some s' ->
    s + vwidth v <= s' \/ s' + vwidth v' <= s }.

(** Their slots hold their values. *)
Definition holds (sl : slotMap) (r : env) (loc : gmap Z word) : Prop :=
  forall v w, r !! v = Some (Some w) ->
    typed (kind_of_var v) w = true /\ exists s x, of_ sl !! v = Some s /\ word_of w = Some x /\ loc !! s = Some x.

(** From a stack that begins with [ws] to one that begins with [ws']. *)
Definition computes (sl : slotMap) (r : env) (c : list CodeWriter.cmd) (r' : env) (ws ws' : list word) : Prop :=
  live sl r -> live sl r' /\ forall stk loc, holds sl r loc -> exists loc', exec c (Run (ws ++ stk) loc) = Some (Run (ws' ++ stk) loc') /\ holds sl r' loc'.

(** A jump to [l] if [b], with [ws] taken off the stack. *)
Definition decides (sl : slotMap) (r : env) (c : list CodeWriter.cmd) (r' : env) (ws : list word) (l : nat) (b : bool) : Prop :=
  live sl r -> live sl r' /\ forall stk loc, holds sl r loc ->
    exists loc', exec c (Run (ws ++ stk) loc) = Some (if b then Jump l stk loc' else Run stk loc') /\ holds sl r' loc'.

Lemma computes_app sl r1 r2 r3 c d ws1 ws2 ws3 :
  computes sl r1 c r2 ws1 ws2 -> computes sl r2 d r3 ws2 ws3 -> computes sl r1 (c ++ d) r3 ws1 ws3.
Proof.
  intros A1 A2 Hl. destruct (A1 Hl) as [Hl2 E1]. destruct (A2 Hl2) as [Hl3 E2]. split; [done|]. intros stk loc Hh.
  destruct (E1 stk loc Hh) as (loc2 & X1 & Hh2). destruct (E2 stk loc2 Hh2) as (loc3 & X2 & Hh3). exists loc3. split; [|done].
  rewrite exec_app, X1. exact X2.
Qed.

Lemma computes_frame sl r c r' ws ws' k : computes sl r c r' ws ws' -> computes sl r c r' (ws ++ k) (ws' ++ k).
Proof.
  intros Hc Hl. destruct (Hc Hl) as [Hl' E]. split; [done|]. intros stk loc Hh. destruct (E (k ++ stk) loc Hh) as (loc' & X & Hh').
  exists loc'. split; [|done]. by rewrite <- !app_assoc.
Qed.

Lemma computes_nil sl r ws : computes sl r [] r ws ws.
Proof. intros Hl. split; [done|]. intros stk loc Hh. exists loc. done. Qed.

(** Calls that leave the locals alone. *)
Lemma computes_pure sl r c ws ws' : (forall stk loc, exec c (Run (ws ++ stk) loc) = Some (Run (ws' ++ stk) loc)) -> computes sl r c r ws ws'.
Proof. intros Hc Hl. split; [done|]. intros stk loc Hh. exists loc. done. Qed.

Lemma computes_decides sl r1 r2 r3 c d ws ws' l b :
  computes sl r1 c r2 ws ws' -> decides sl r2 d r3 ws' l b -> decides sl r1 (c ++ d) r3 ws l b.
Proof.
  intros A1 A2 Hl. destruct (A1 Hl) as [Hl2 E1]. destruct (A2 Hl2) as [Hl3 E2]. split; [done|]. intros stk loc Hh.
  destruct (E1 stk loc Hh) as (loc2 & X1 & Hh2). destruct (E2 stk loc2 Hh2) as (loc3 & X2 & Hh3). exists loc3. split; [|done].
  rewrite exec_app, X1. exact X2.
Qed.

Lemma decides_pure sl r c (ws : list word) l (b : bool) :
  (forall stk loc, exec c (Run (ws ++ stk) loc) = Some (if b then Jump l stk loc else Run stk loc)) -> decides sl r c r ws l b.
Proof. intros Hc Hl. split; [done|]. intros stk loc Hh. exists loc. done. Qed.

(** ** Conversions *)

Lemma s8_s32 v : s8 (s32 v) = s8 v.
Proof. apply (wrap_wrap 8 32). lia. Qed.
Lemma s16_s32 v : s16 (s32 v) = s16 v.
Proof. apply (wrap_wrap 16 32). lia. Qed.
Lemma u16_u32 v : u16 (u32 v) = u16 v.
Proof. unfold u16, u32. apply Z.mod_mod_divide. exists (2 ^ 16). reflexivity. Qed.
Lemma u16_s32 v : u16 (s32 v) = u16 v.
Proof. by rewrite <- (u16_u32 (s32 v)), u32_s32, u16_u32. Qed.

(** The word a value is on the stack, once converted: a boolean is an int. *)
Definition stacked (from to : Types.Kind) (v : value) : option word :=
  match from, to, v with
  | KindBoolean, KindInt, VBool b => Some (WInt (if b then 1 else 0))
  | _, _, _ => u ← conv from to v; word_of u
  end.

(** What the code of a conversion does. *)
Definition converts (from to : Types.Kind) (c : list CodeWriter.cmd) : Prop :=
  (forall sl r v x y, word_of v = Some x -> stacked from to v = Some y -> computes sl r c r [x] [y]) /\
  (from = KindInt -> to = KindBoolean -> forall sl r ws, computes sl r c r ws ws).

Lemma gives_op lo o e (R : unit -> emitter -> list CodeWriter.cmd -> Prop) :
  R tt (with_call (CodeWriter.COp o) e) [CodeWriter.COp o] -> gives lo (Op_ o) e R.
Proof. apply gives_call. constructor. Qed.

#[local] Opaque s8 s16 s32 s64 u16 u32 u64.

Lemma stacked_conv from to v u : from <> KindBoolean -> conv from to v = Some u -> stacked from to v = word_of u.
Proof. intros Hf Hc. unfold stacked. rewrite Hc. by destruct from. Qed.

(** One instruction, or two, of a conversion. *)
Ltac conversion :=
  first [apply gives_bug | apply gives_ret | apply gives_op | apply gives_bind, gives_op; first [apply gives_op | apply gives_ret]];
  (split; [reflexivity|]); (split; [|intros; first [discriminate | apply computes_nil]]);
  let Hx := fresh "Hx" in let Hy := fresh "Hy" in
  intros sl r v x y Hx Hy; unfold stacked, conv in Hy; rewrite ?(bool_decide_eq_false_2 (_ = _)) in Hy by done;
  destruct v; cbn [typed negb mbind option_bind word_of] in Hx, Hy; try discriminate Hy; injection Hx as <-; injection Hy as <-;
  apply computes_pure; intros stk loc; cbn [app];
  first [reflexivity | rewrite <- s8_s32; reflexivity | rewrite <- s16_s32; reflexivity | rewrite <- u16_s32; reflexivity].

Lemma primitive_gives lo k k' e :
  IsPrimitive k = true -> IsPrimitive k' = true ->
  gives lo (primitive k k') e (fun _ e' c => alive e' = alive e /\ converts k k' c).
Proof.
  intros Hf Ht. unfold primitive. case_bool_decide as Hk.
  { apply gives_ret. split; [done|]. subst k'. split; [|intros; apply computes_nil]. intros sl r v x y Hx Hy.
    assert (x = y) as <-; [|apply computes_nil]. unfold stacked, conv in Hy. rewrite bool_decide_eq_true_2 in Hy by done.
    destruct k, v; cbn in Hy, Hx; congruence. }
  destruct k; try discriminate; destruct k'; try discriminate; try (exfalso; apply Hk; reflexivity);
    cbn [primitive_int primitive_wide maybe]; conversion.
Qed.

Lemma convert_gives lo from to e :
  IsPrimitive (kind_of from) = true -> IsPrimitive (kind_of to) = true ->
  gives lo (convert from to) e (fun _ e' c => alive e' = alive e /\ converts (kind_of from) (kind_of to) c).
Proof.
  intros Hf Ht. unfold convert. rewrite Hf, Ht. replace (bool_decide (kind_of to = KindVoid)) with false by (by destruct (kind_of to)).
  by apply primitive_gives.
Qed.

(** ** Operators *)

(** Arithmetic and bitwise instructions, on two ints, two longs, two booleans. *)
Definition operates (op : Z) (k : Types.Kind) (c : list CodeWriter.cmd) : Prop :=
  (k = KindInt -> shifts op = false -> forall sl r a b v, java_op 32 op a b = Some v -> computes sl r c r [WInt b; WInt a] [WInt v]) /\
  (k = KindLong -> shifts op = false -> forall sl r a b v, java_op 64 op a b = Some v -> computes sl r c r [WLong b; WLong a] [WLong v]) /\
  (k = KindInt -> forall sl r (a b : bool) v, bool_op op a b = Some v ->
    computes sl r c r [WInt (if b then 1 else 0); WInt (if a then 1 else 0)] [WInt (if v then 1 else 0)]).

Lemma emit_op_gives lo (m : Emit Z) e (P : list CodeWriter.cmd -> Prop) :
  (forall o e', m e = Done o e' -> e' = e /\ P [CodeWriter.COp o]) ->
  gives lo (emit_op m) e (fun _ e' c => alive e' = alive e /\ P c).
Proof.
  intros Hm a e' E. apply emit_bind_inv in E as (o & e1 & E1 & E2). destruct (Hm o e1 E1) as [-> Hp].
  destruct (gives_op lo o e (fun _ e' c => alive e' = alive e /\ P c) (conj eq_refl Hp) _ _ E2) as (c & R & Hc). eauto.
Qed.

(** One instruction: it runs by computation, but for a zero divisor. *)
Ltac runs_one := apply computes_pure; intros stk loc; cbn [app];
  first [reflexivity | match goal with H : ?b <> 0 |- _ => cbn; destruct (Z.eqb_spec b 0); [done|reflexivity] end].

Lemma arith_gives lo op k e : gives lo (emit_op (arithOp op k)) e (fun _ e' c => alive e' = alive e /\ operates op k c).
Proof.
  apply emit_op_gives. intros o e' Ho. assert (He : e' = e) by (revert Ho; unfold arithOp; repeat case_match; try discriminate; by intros [= _ ->]).
  split; [exact He|]. split_and!.
  - intros -> Hs sl r a b v. revert Ho Hs. unfold arithOp, java_op, shifts. by_operator; cbn; try discriminate;
      intros [= <- _] _ Hv; try (destruct (Z.eqb_spec b 0); [done|]); injection Hv as <-; runs_one.
  - intros -> Hs sl r a b v. revert Ho Hs. unfold arithOp, java_op, shifts. by_operator; cbn; try discriminate;
      intros [= <- _] _ Hv; try (destruct (Z.eqb_spec b 0); [done|]); injection Hv as <-; runs_one.
  - intros -> sl r a b v. revert Ho. unfold arithOp, bool_op. by_operator; cbn; try discriminate;
      intros [= <- _] Hv; injection Hv as <-; destruct a, b; runs_one.
Qed.

(** Shifts, by a distance that may have been a long. *)
Definition shifts_by (op : Z) (k : Types.Kind) (c : list CodeWriter.cmd) : Prop :=
  (k = KindInt -> forall sl r a b d v, d mod 64 = b mod 64 -> java_op 32 op a b = Some v -> computes sl r c r [WInt d; WInt a] [WInt v]) /\
  (k = KindLong -> forall sl r a b d v, d mod 64 = b mod 64 -> java_op 64 op a b = Some v -> computes sl r c r [WInt d; WLong a] [WLong v]).

Lemma land_31 d b : d mod 64 = b mod 64 -> Z.land d 31 = b mod 32.
Proof.
  intros Hd. change 31 with (Z.ones 5). rewrite Z.land_ones by lia. change (2 ^ 5) with 32.
  rewrite <- (Z.mod_mod_divide d 64 32), Hd by (by exists 2). apply Z.mod_mod_divide. by exists 2.
Qed.

Lemma land_63 d b : d mod 64 = b mod 64 -> Z.land d 63 = b mod 64.
Proof. intros Hd. change 63 with (Z.ones 6). by rewrite Z.land_ones by lia. Qed.

Lemma s32_mod64 d : s32 d mod 64 = d mod 64.
Proof.
  rewrite <- (Z.mod_mod_divide (s32 d) (2 ^ 32) 64) by (by exists (2 ^ 26)). change (s32 d mod 2 ^ 32) with (u32 (s32 d)).
  rewrite u32_s32. apply (Z.mod_mod_divide d (2 ^ 32) 64). by exists (2 ^ 26).
Qed.

Lemma exec_two o b w w' stk loc : unary_op o (WInt b) = None ->
  match w with WInt a => WInt <$> int_op o a b | WLong a => WLong <$> long_shift o a b end = Some w' ->
  (o =? Op.Dup) || (o =? Op.Dup2) || (o =? Op.Pop) || (o =? Op.Pop2) = false ->
  exec [CodeWriter.COp o] (Run (WInt b :: w :: stk) loc) = Some (Run (w' :: stk) loc).
Proof.
  intros Hu Hw Ho. rewrite !orb_false_iff in Ho. destruct Ho as [[[H1' H2'] H3'] H4']. cbn [exec exec1]. unfold exec_op.
  rewrite H1', H2', H3', H4', Hu. destruct w; [destruct (int_op o v b)|destruct (long_shift o v b)]; cbn in Hw |- *; congruence.
Qed.

Lemma shift_gives lo op k e : gives lo (emit_op (shiftOp op k)) e (fun _ e' c => alive e' = alive e /\ (is_shift op = true -> shifts_by op k c)).
Proof.
  apply emit_op_gives. intros o e' Ho. assert (He : e' = e) by (revert Ho; unfold shiftOp; repeat case_match; try discriminate; by intros [= _ ->]).
  split; [exact He|]. intros Hs. split; intros -> sl r a b d v Hd Hv; apply computes_pure; intros stk loc; cbn [app];
    pose proof (Z.mod_pos_bound b 32 ltac:(lia)); pose proof (Z.mod_pos_bound b 64 ltac:(lia)); revert Ho Hv Hs; unfold shiftOp, java_op, is_shift.
  - rewrite (bool_decide_eq_false_2 (KindInt = KindLong)) by done.
    by_operator; try discriminate; intros [= <- _] [= <-] _; apply exec_two; try reflexivity; cbn;
      by rewrite (land_31 d b Hd), ?Z.shiftl_mul_pow2, ?Z.shiftr_div_pow2 by lia.
  - rewrite (bool_decide_eq_true_2 (KindLong = KindLong)) by done.
    by_operator; try discriminate; intros [= <- _] [= <-] _; apply exec_two; try reflexivity; cbn;
      by rewrite (land_63 d b Hd), ?Z.shiftl_mul_pow2, ?Z.shiftr_div_pow2 by lia.
Qed.

(** Branches: a jump exactly when the comparison holds. *)
Lemma branchInts_gives lo k target e :
  gives lo (branchInts k target) e (fun _ e' c => alive e' = alive e /\
    forall sl r a b t, compareInt k a b = Some t -> decides sl r c r [WInt b; WInt a] target t).
Proof.
  unfold branchInts, If. by_operator; try apply gives_bug; apply gives_call; try constructor; try done; cbn; intros sl r a b t Ht;
    unfold compareInt in Ht; cbn in Ht; injection Ht as <-; apply decides_pure; intros stk loc; cbn; reflexivity.
Qed.

Lemma sign_compare k a b t : compareInt k a b = Some t -> compareInt k (sign_of a b) 0 = Some t.
Proof.
  unfold compareInt, sign_of. by_operator; try discriminate; intros [= <-]; f_equal;
    destruct (Z.ltb_spec a b), (Z.eqb_spec a b); cbn; lia.
Qed.

Lemma branchZero_gives lo k target e :
  gives lo (branchAgainstZero k target) e (fun _ e' c => alive e' = alive e /\
    forall sl r a t, compareInt k a 0 = Some t -> decides sl r c r [WInt a] target t).
Proof.
  unfold branchAgainstZero, If. by_operator; try apply gives_bug; apply gives_call; try constructor; try done; cbn; intros sl r a t Ht;
    unfold compareInt in Ht; cbn in Ht; injection Ht as <-; apply decides_pure; intros stk loc; cbn; reflexivity.
Qed.

Lemma branchLongs_gives lo k t0 target e :
  gives lo (_ ← emit_op (cmpOp t0 k); branchAgainstZero k target) e (fun _ e' c => alive e' = alive e /\
    (t0 = KindLong -> forall sl r a b t, compareInt k a b = Some t -> decides sl r c r [WLong b; WLong a] target t)).
Proof.
  apply gives_bind. eapply gives_imp; [apply (emit_op_gives lo (cmpOp t0 k) e (fun c => t0 = KindLong -> c = [CodeWriter.COp Op.Lcmp]))|].
  { intros o e'. unfold cmpOp. destruct t0; try discriminate; intros [= <- ->]; split; try done. }
  intros _ e1 c1 R1 [Ha1 Hc1]. eapply gives_imp; [apply branchZero_gives|]. intros _ e2 c2 R2 [Ha2 Hc2]. split; [congruence|].
  intros Hk sl r a b t Ht. rewrite (Hc1 Hk). eapply (computes_decides _ _ r _ _ _ _ [WInt (sign_of a b)]).
  - apply computes_pure. intros stk loc. reflexivity.
  - apply Hc2. by apply sign_compare.
Qed.

Lemma invert_spec k k' e e' : LowerExpr.invert k e = Done k' e' ->
  e' = e /\ forall a b t, compareInt k a b = Some t -> compareInt k' a b = Some (negb t).
Proof.
  unfold LowerExpr.invert. by_operator; try discriminate; intros [= <- <-]; split; try done; intros a b t; cbn; intros [= <-]; f_equal; lia.
Qed.

(** ** Specifications of emissions *)

(** The emission of a value. *)
Definition expr_ok (m : Emit unit) (x : Expr) : Prop := forall sl, steady sl m (fun _ c =>
  forall r w r', eval x r = Some (w, r') -> exists y, word_of w = Some y /\ computes sl r c r' [] [y]).

(** The emission of a branch. *)
Definition cond_ok (f : nat -> bool -> Emit unit) (x : Expr) : Prop := forall target when lo e,
  (lo <= nlabels e)%nat -> (target < lo)%nat -> alive e = true ->
  gives lo (f target when) e (fun _ e' c => alive e' = true /\
    forall r b r', eval x r = Some (VBool b, r') -> decides (slots e) r c r' [] target (Bool.eqb b when)).

Lemma exec_mark l stk loc : exec [CodeWriter.CMark l] (Jump l stk loc) = Some (Run stk loc).
Proof. cbn. by rewrite Nat.eqb_refl. Qed.

Lemma exec_mark_other l t stk loc : t <> l -> exec [CodeWriter.CMark l] (Jump t stk loc) = Some (Jump t stk loc).
Proof. intros Ht. cbn. destruct (Nat.eqb_spec l t); [congruence|done]. Qed.

Lemma exec_new c m : exec (CodeWriter.CNewLabel :: c) m = exec c m.
Proof. by destruct m. Qed.

Lemma decides_new sl r c r' ws l b : decides sl r c r' ws l b -> decides sl r (CodeWriter.CNewLabel :: c) r' ws l b.
Proof. intros Hd Hl. destruct (Hd Hl) as [Hl' Hx]. split; [done|]. intros stk loc. rewrite exec_new. apply Hx. Qed.

Lemma computes_new sl r c r' ws ws' : computes sl r c r' ws ws' -> computes sl r (CodeWriter.CNewLabel :: c) r' ws ws'.
Proof. intros Hd Hl. destruct (Hd Hl) as [Hl' Hx]. split; [done|]. intros stk loc. rewrite exec_new. apply Hx. Qed.

(** A branch to [l] over [d], with [l] marked after it: taken, [d] is not run. *)
Lemma decides_over sl r1 r2 c d ws l :
  decides sl r1 c r2 ws l true -> fresh (S l) d -> computes sl r1 (c ++ d ++ [CodeWriter.CMark l]) r2 ws [].
Proof.
  intros Hc Hd Hl. destruct (Hc Hl) as [Hl2 Hx]. split; [done|]. intros stk loc Hh. destruct (Hx stk loc Hh) as (loc' & E & Hh').
  exists loc'. split; [|done]. rewrite exec_app, E. cbn [mbind option_bind]. rewrite exec_app, (exec_skip (S l)) by (done || lia).
  apply exec_mark.
Qed.

(** Taken past [d], which does not mark its label. *)
Lemma decides_past lo sl r1 r2 c d ws l : decides sl r1 c r2 ws l true -> fresh lo d -> (l < lo)%nat -> decides sl r1 (c ++ d) r2 ws l true.
Proof.
  intros Hc Hd Hlt Hl. destruct (Hc Hl) as [Hl2 Hx]. split; [done|]. intros stk loc Hh. destruct (Hx stk loc Hh) as (loc' & E & Hh').
  exists loc'. split; [|done]. rewrite exec_app, E. by apply (exec_skip lo).
Qed.

(** Not taken. *)
Lemma decides_falls sl r1 r2 c ws l : decides sl r1 c r2 ws l false -> computes sl r1 c r2 ws [].
Proof. done. Qed.

Lemma computes_falls sl r1 r2 c ws l : computes sl r1 c r2 ws [] -> decides sl r1 c r2 ws l false.
Proof. done. Qed.

Lemma decides_mark sl r1 r2 c ws l t b : t <> l -> decides sl r1 c r2 ws t b -> decides sl r1 (c ++ [CodeWriter.CMark l]) r2 ws t b.
Proof.
  intros Ht Hc Hl. destruct (Hc Hl) as [Hl2 Hx]. split; [done|]. intros stk loc Hh. destruct (Hx stk loc Hh) as (loc' & E & Hh').
  exists loc'. split; [|done]. rewrite exec_app, E. cbn [mbind option_bind]. destruct b; [by apply exec_mark_other|done].
Qed.

(** [x] is [k] as soon as [X] is, and [Y] otherwise. *)
Definition lazily (k : bool) (X Y x : Expr) : Prop := forall r b r', eval x r = Some (VBool b, r') ->
  (eval X r = Some (VBool k, r') /\ b = k) \/ exists r1, eval X r = Some (VBool (negb k), r1) /\ eval Y r1 = Some (VBool b, r').

Lemma lazy_seq k f g X Y x target lo e :
  lazily k X Y x -> cond_ok f X -> cond_ok g Y -> (lo <= nlabels e)%nat -> (target < lo)%nat -> alive e = true ->
  gives lo (_ ← f target k; g target k) e (fun _ e' c => alive e' = true /\
    forall r b r', eval x r = Some (VBool b, r') -> decides (slots e) r c r' [] target (Bool.eqb b k)).
Proof.
  intros Hev Hf Hg Hlo Ht Ha. apply gives_bind. eapply gives_imp; [apply Hf; [exact Hlo|exact Ht|exact Ha]|]. intros _ e1 c1 R1 [Ha1 HX].
  pose proof (ran_labels _ _ _ _ R1) as L1. pose proof (ran_slots _ _ _ _ R1) as S1.
  eapply gives_imp; [apply Hg; [lia|exact Ht|exact Ha1]|]. intros _ e2 c2 R2 [Ha2 HY]. rewrite S1 in HY.
  split; [exact Ha2|]. intros r b r' Hb. destruct (Hev _ _ _ Hb) as [[EX ->]|(r1 & EX & EY)]; apply HX in EX.
  - rewrite Bool.eqb_reflx in EX |- *. eapply decides_past; [exact EX|apply R2|exact Ht].
  - rewrite Bool.eqb_negb1 in EX. eapply computes_decides; [eapply decides_falls; exact EX|exact (HY _ _ _ EY)].
Qed.

Lemma lazy_skip k f g X Y x target lo e :
  lazily k X Y x -> cond_ok f X -> cond_ok g Y -> (lo <= nlabels e)%nat -> (target < lo)%nat -> alive e = true ->
  gives lo (skip ← NewLabel; _ ← f skip k; _ ← g target (negb k); Mark skip) e (fun _ e' c => alive e' = true /\
    forall r b r', eval x r = Some (VBool b, r') -> decides (slots e) r c r' [] target (Bool.eqb b (negb k))).
Proof.
  intros Hev Hf Hg Hlo Ht Ha. apply gives_new. set (l := nlabels e) in *. apply gives_bind, (gives_weaken lo (S l)); [lia|].
  eapply gives_imp; [apply Hf; [cbn; lia|lia|exact Ha]|]. intros _ e1 c1 R1 [Ha1 HX]. cbn [slots with_label_made] in HX.
  apply gives_bind, (gives_weaken lo (S l)); [lia|].
  pose proof (ran_labels _ _ _ _ R1) as L1. pose proof (ran_slots _ _ _ _ R1) as S1. cbn in L1, S1.
  eapply gives_imp; [apply Hg; [lia|lia|exact Ha1]|]. intros _ e2 c2 R2 [Ha2 HY]. rewrite S1 in HY.
  apply gives_call; [constructor; [lia|constructor]|]. split; [exact Ha2|]. intros r b r' Hb. apply decides_new.
  destruct (Hev _ _ _ Hb) as [[EX ->]|(r1 & EX & EY)]; apply HX in EX.
  - rewrite Bool.eqb_reflx in EX. rewrite Bool.eqb_negb2. apply computes_falls, decides_over; [exact EX|apply R2].
  - rewrite Bool.eqb_negb1 in EX. rewrite app_assoc. apply decides_mark; [lia|].
    eapply computes_decides; [eapply decides_falls; exact EX|exact (HY _ _ _ EY)].
Qed.

Lemma eval_and sp X p q Y : ConstAt (BinaryExpr sp X LAND p q Y) ≫= cValue = None -> lazily false X Y (BinaryExpr sp X LAND p q Y).
Proof.
  intros Hk r b r'. cbn [eval]. rewrite Hk. destruct (eval X r) as [[v r1]|]; [|done]. cbn [mbind option_bind fst snd].
  change (LAND =? LAND) with true. cbv iota. destruct v as [| | | | |f]; try done. destruct f; [|intros [= <- <-]; by left].
  destruct (eval Y r1) as [[w r2]|] eqn:EY; [|done]. cbn [mbind option_bind fst snd]. destruct w; try done. intros [= <- <-]. right. eauto.
Qed.

Lemma eval_or sp X p q Y : ConstAt (BinaryExpr sp X LOR p q Y) ≫= cValue = None -> lazily true X Y (BinaryExpr sp X LOR p q Y).
Proof.
  intros Hk r b r'. cbn [eval]. rewrite Hk. destruct (eval X r) as [[v r1]|]; [|done]. cbn [mbind option_bind fst snd].
  change (LOR =? LAND) with false. change (LOR =? LOR) with true. cbv iota. destruct v as [| | | | |f]; try done. destruct f; [intros [= <- <-]; by left|].
  destruct (eval Y r1) as [[w r2]|] eqn:EY; [|done]. cbn [mbind option_bind fst snd]. destruct w; try done. intros [= <- <-]. right. eauto.
Qed.

Lemma condAnd_ok f g X Y x : lazily false X Y x -> cond_ok f X -> cond_ok g Y -> cond_ok (condAnd f g) x.
Proof. intros Hev Hf Hg target [] lo e; [by apply (lazy_skip false f g X Y)|by apply (lazy_seq false f g X Y)]. Qed.

Lemma condOr_ok f g X Y x : lazily true X Y x -> cond_ok f X -> cond_ok g Y -> cond_ok (condOr f g) x.
Proof. intros Hev Hf Hg target [] lo e; [by apply (lazy_seq true f g X Y)|by apply (lazy_skip true f g X Y)]. Qed.

(** ** Values and their words *)

Lemma typed_word k v : typed k v = true -> exists y, word_of v = Some y.
Proof. destruct k, v; cbn; try discriminate; eauto. Qed.

Lemma conv_typed k k' v u : conv k k' v = Some u -> IsPrimitive k = true -> IsPrimitive k' = true -> typed k v = true /\ typed k' u = true.
Proof.
  unfold conv. destruct (typed k v) eqn:Ht; [|done]. cbn [negb]. case_bool_decide as Hk; [intros [= <-]; by subst|].
  intros Hv Hp Hp'. split; [done|]. destruct v, k'; try discriminate; by injection Hv as <-.
Qed.

Lemma conv_int k v u : conv k KindInt v = Some u -> exists n, u = VInt n.
Proof. unfold conv. destruct k, v; cbn; try discriminate; intros [= <-]; eauto. Qed.

Lemma conv_long k v u : conv k KindLong v = Some u -> exists n, u = VLong n.
Proof. unfold conv. destruct k, v; cbn; try discriminate; intros [= <-]; eauto. Qed.

Lemma stacked_of_conv from to v u : conv from to v = Some u -> stacked from to v = word_of u.
Proof.
  intros Hc. unfold stacked. rewrite Hc. cbn [mbind option_bind]. destruct from; try done. destruct to; try done. destruct v; try done.
Qed.

(** The common type of two operands. *)
Lemma promoted_kind k p : promoted k = Some p -> p = KindInt \/ p = KindLong.
Proof. destruct k; cbn; try discriminate; intros [= <-]; auto. Qed.

Lemma promoted2_kind t t' p : promoted2 (kind_of t) (kind_of t') = Some p -> kind_of (PromoteBinary t t') = p /\ (p = KindInt \/ p = KindLong).
Proof.
  unfold promoted2, PromoteBinary. destruct (kind_of t), (kind_of t'); cbn; try discriminate; intros [= <-]; auto.
Qed.

Lemma booleans_kind t t' : kind_of t = KindBoolean -> kind_of t' = KindBoolean -> kind_of (PromoteBinary t t') = KindInt.
Proof. intros Ht Ht'. unfold PromoteBinary. by rewrite Ht, Ht'. Qed.

Lemma promote_binary_prim t t' : IsPrimitive (kind_of (PromoteBinary t t')) = true.
Proof. unfold PromoteBinary. by repeat case_match. Qed.

Lemma promote_prim t : IsPrimitive (kind_of t) = true -> IsPrimitive (kind_of (Promote t)) = true.
Proof. unfold Promote. destruct (kind_of t) eqn:E; cbn; rewrite ?E; done. Qed.

Lemma prim_not_reference t : IsPrimitive (kind_of t) = true -> IsReference t = false.
Proof. unfold IsReference. by destruct (kind_of t). Qed.

Lemma prim_not_string t : IsPrimitive (kind_of t) = true -> is_string t = false.
Proof. by destruct t. Qed.

(** Two operands of a common type, and their words. *)
Inductive operands (p : Types.Kind) : value -> value -> word -> word -> Prop :=
  | Ints i j : p = KindInt -> operands p (VInt i) (VInt j) (WInt i) (WInt j)
  | Longs i j : p = KindLong -> operands p (VLong i) (VLong j) (WLong i) (WLong j).

Lemma both_operands t t' a b u w : both (kind_of t) (kind_of t') a b = Some (u, w) ->
  let p := kind_of (PromoteBinary t t') in exists x y, stacked (kind_of t) p a = Some x /\ stacked (kind_of t') p b = Some y /\ operands p u w x y.
Proof.
  unfold both. destruct (promoted2 _ _) as [q|] eqn:Eq; [|done]. cbn. destruct (conv (kind_of t) q a) as [u'|] eqn:Eu; [|done]. cbn.
  destruct (conv (kind_of t') q b) as [w'|] eqn:Ew; [|done]. cbn. intros [= -> ->]. apply promoted2_kind in Eq as [-> Hq].
  rewrite (stacked_of_conv _ _ _ _ Eu), (stacked_of_conv _ _ _ _ Ew). destruct Hq as [-> | ->].
  - apply conv_int in Eu as [i ->]. apply conv_int in Ew as [j ->]. do 2 eexists. split_and!; try done. by constructor.
  - apply conv_long in Eu as [i ->]. apply conv_long in Ew as [j ->]. do 2 eexists. split_and!; try done. by constructor.
Qed.

Definition bit (b : bool) : Z := if b then 1 else 0.

(** What an operator does to its operands, as words of one type. *)
Lemma compare_words op t t' a b v : compare_value op (kind_of t) (kind_of t') a b = Some v ->
  let p := kind_of (PromoteBinary t t') in exists x y i j, stacked (kind_of t) p a = Some x /\ stacked (kind_of t') p b = Some y /\
    ((p = KindInt /\ x = WInt i /\ y = WInt j) \/ (p = KindLong /\ x = WLong i /\ y = WLong j)) /\ compareInt op i j = Some v.
Proof.
  intros Hc p. assert (Hn : (v ← both (kind_of t) (kind_of t') a b; i ← integer (fst v); j ← integer (snd v); compareInt op i j) = Some v ->
    exists x y i j, stacked (kind_of t) p a = Some x /\ stacked (kind_of t') p b = Some y /\
      ((p = KindInt /\ x = WInt i /\ y = WInt j) \/ (p = KindLong /\ x = WLong i /\ y = WLong j)) /\ compareInt op i j = Some v).
  { destruct (both _ _ a b) as [[u w]|] eqn:Eb; [|done]. apply both_operands in Eb as (x & y & Hx & Hy & Ho).
    destruct Ho as [i j Hp|i j Hp]; cbn; intros Hv; do 2 eexists; exists i, j; split_and!; eauto. }
  unfold compare_value in Hc. destruct a as [| | | | |f]; try exact (Hn Hc). destruct b as [| | | | |g]; try exact (Hn Hc). clear Hn.
  case_bool_decide as Hk; [|done]. case_bool_decide as Hk'; [|done]. cbn [andb negb] in Hc.
  pose proof (booleans_kind _ _ Hk Hk') as Hp. unfold p. rewrite Hk, Hk', Hp. exists (WInt (bit f)), (WInt (bit g)), (bit f), (bit g).
  split_and!; [done..|by left|]. revert Hc. unfold compareInt.
  destruct (Z.eqb_spec op EQL); [intros [= <-]; by destruct f, g|]. destruct (Z.eqb_spec op NEQ); [intros [= <-]; by destruct f, g|done].
Qed.

Lemma binary_words op t t' a b v : binary_value op (kind_of t) (kind_of t') a b = Some v ->
  let p := kind_of (PromoteBinary t t') in exists x y, stacked (kind_of t) p a = Some x /\ stacked (kind_of t') p b = Some y /\
    ((exists i j n, p = KindInt /\ x = WInt i /\ y = WInt j /\ v = VInt n /\ java_op 32 op i j = Some n) \/
     (exists i j n, p = KindLong /\ x = WLong i /\ y = WLong j /\ v = VLong n /\ java_op 64 op i j = Some n) \/
     (exists f g h, p = KindInt /\ kind_of t = KindBoolean /\ x = WInt (bit f) /\ y = WInt (bit g) /\ v = VBool h /\ bool_op op f g = Some h)).
Proof.
  intros Hc p. assert (Hn : (v ← both (kind_of t) (kind_of t') a b; word_op op (fst v) (snd v)) = Some v ->
    exists x y, stacked (kind_of t) p a = Some x /\ stacked (kind_of t') p b = Some y /\
    ((exists i j n, p = KindInt /\ x = WInt i /\ y = WInt j /\ v = VInt n /\ java_op 32 op i j = Some n) \/
     (exists i j n, p = KindLong /\ x = WLong i /\ y = WLong j /\ v = VLong n /\ java_op 64 op i j = Some n) \/
     (exists f g h, p = KindInt /\ kind_of t = KindBoolean /\ x = WInt (bit f) /\ y = WInt (bit g) /\ v = VBool h /\ bool_op op f g = Some h))).
  { destruct (both _ _ a b) as [[u w]|] eqn:Eb; [|done]. apply both_operands in Eb as (x & y & Hx & Hy & Ho). cbn [mbind option_bind fst snd].
    destruct Ho as [i j Hp|i j Hp]; cbn [word_op]; intros (n & Hn & ->)%fmap_Some; do 2 eexists; (split; [exact Hx|]; split; [exact Hy|]); eauto 12. }
  unfold binary_value in Hc. destruct a as [| | | | |f]; try exact (Hn Hc). destruct b as [| | | | |g]; try exact (Hn Hc). clear Hn.
  case_bool_decide as Hk; [|done]. case_bool_decide as Hk'; [|done]. cbn [andb] in Hc. apply fmap_Some in Hc as (h & Hh & ->).
  pose proof (booleans_kind _ _ Hk Hk') as Hp. unfold p. rewrite Hk, Hk', Hp. exists (WInt (bit f)), (WInt (bit g)).
  split_and!; [done..|]. right. right. exists f, g, h. done.
Qed.

Lemma shift_words op t p a b v : promoted (kind_of t) = Some p -> shift_value op (kind_of t) b (fst a) (snd a) = Some v -> 
  exists x y d, stacked (kind_of t) p (fst a) = Some x /\ stacked b KindInt (snd a) = Some (WInt y) /\ y mod 64 = d mod 64 /\
    ((exists i n, p = KindInt /\ x = WInt i /\ v = VInt n /\ java_op 32 op i d = Some n) \/
     (exists i n, p = KindLong /\ x = WLong i /\ v = VLong n /\ java_op 64 op i d = Some n)).
Proof.
  unfold shift_value. destruct a as [a b']. cbn [fst snd]. intros Hp Hv. rewrite Hp in Hv. cbn [mbind option_bind] in Hv.
  destruct (promoted b) as [q|] eqn:Eq; [|done]. cbn in Hv. destruct (conv (kind_of t) p a) as [u|] eqn:Eu; [|done]. cbn in Hv.
  destruct (typed b b') eqn:Et; [|done]. destruct (integer b') as [d|] eqn:Ed; [|done]. cbn in Hv.
  assert (Hy : exists y, stacked b KindInt b' = Some (WInt y) /\ y mod 64 = d mod 64).
  { unfold stacked, conv. rewrite Et. destruct b, b'; try discriminate; cbn in Ed |- *; injection Ed as ->; eexists; (split; [reflexivity|]);
      rewrite ?s32_mod64; done. }
  destruct Hy as (y & Hy & Hd). rewrite (stacked_of_conv _ _ _ _ Eu).
  destruct u as [i|i| | | |]; try discriminate; apply fmap_Some in Hv as (n & Hn & ->); eexists; exists y, d;
    (split; [reflexivity|]; split; [exact Hy|]; split; [exact Hd|]).
  - left. exists i, n. split_and!; try done. destruct (promoted_kind _ _ Hp) as [->| ->]; [done|]. apply conv_long in Eu as [? ?]. done.
  - right. exists i, n. split_and!; try done. destruct (promoted_kind _ _ Hp) as [->| ->]; [|done]. apply conv_int in Eu as [? ?]. done.
Qed.

(** ** Locals *)

(** The local [v] has slot [s]. *)
Definition at_slot (sl : slotMap) (v : var) (s : Z) : Prop := of_ sl !! v = Some s.

Lemma typed_long k a v : typed k v = true -> word_of v = Some (WLong a) -> k = KindLong.
Proof. destruct k, v; cbn; try discriminate; done. Qed.

Lemma vwidth_long v : kind_of_var v = KindLong -> vwidth v = 2.
Proof. intros Hk. unfold vwidth, slot_width, Slots. change (kind_of (FieldType v)) with (kind_of_var v). by rewrite Hk. Qed.

Lemma vwidth_pos v : 1 <= vwidth v.
Proof. unfold vwidth, slot_width. cbv zeta. destruct (Z.ltb_spec (Slots (FieldType v)) 1); lia. Qed.

Lemma lookup_store_word s y loc s' x' :
  loc !! s' = Some x' -> s' <> s -> (forall a, x' = WLong a -> s' <> s - 1) -> (forall a, y = WLong a -> s' <> s + 1) -> store_word s y loc !! s' = Some x'.
Proof.
  intros Hx Hs Hb Ha. unfold store_word. rewrite lookup_insert_ne by done.
  assert (H' : (match loc !! (s - 1) with Some (WLong _) => delete (s - 1) loc | _ => loc end) !! s' = Some x').
  { destruct (loc !! (s - 1)) as [[?|b]|] eqn:E1; try done. rewrite lookup_delete_ne; [done|]. intros <-. rewrite E1 in Hx. injection Hx as <-. by eapply Hb. }
  destruct y; [done|]. rewrite lookup_delete_ne; [done|]. intros <-. by eapply Ha.
Qed.

Lemma live_store sl r v w : live sl r -> is_Some (r !! v) -> live sl (<[v := w]> r).
Proof.
  intros [L1 L2] Hv. assert (D : forall u, is_Some (<[v := w]> r !! u) -> is_Some (r !! u)).
  { intros u. destruct (decide (u = v)) as [->|Hn]; [done|]. by rewrite lookup_insert_ne. }
  split; [intros u Hu; apply L1, D, Hu|]. intros u u' s s' Hn Hu Hu'. apply L2; auto.
Qed.

Lemma holds_store sl r loc v w y s :
  live sl r -> is_Some (r !! v) -> at_slot sl v s -> typed (kind_of_var v) w = true -> word_of w = Some y ->
  holds sl r loc -> holds sl (<[v := Some w]> r) (store_word s y loc).
Proof.
  intros Hl Hv Hs Ht Hy Hh u w' Hu. destruct (decide (u = v)) as [->|Hn].
  - rewrite lookup_insert_eq in Hu. injection Hu as <-. split; [done|]. exists s, y. split_and!; [done..|]. unfold store_word. apply lookup_insert_eq.
  - rewrite lookup_insert_ne in Hu by done. destruct (Hh _ _ Hu) as (Tw & s' & x' & Hs' & Hx' & Hlx). split; [done|]. exists s', x'. split_and!; [done..|].
    destruct (live_apart _ _ Hl u v s' s Hn) as [Ha|Ha]; [by rewrite Hu|done|done|done|..]; pose proof (vwidth_pos u); pose proof (vwidth_pos v);
      (apply lookup_store_word; [done|lia|intros b ->|intros b ->]).
    + pose proof (vwidth_long _ (typed_long _ _ _ Tw Hx')). lia.
    + lia.
    + lia.
    + pose proof (vwidth_long _ (typed_long _ _ _ Ht Hy)). lia.
Qed.

(** A value of the type of an instruction. *)
Lemma typed_word_of k v : typed k v = true -> exists y, word_of v = Some y /\ load_word (local_type_of (TBasic k)) y = true.
Proof. destruct k, v; cbn; try discriminate; eauto. Qed.

Lemma local_type_kind t : local_type_of t = local_type_of (TBasic (kind_of t)).
Proof. reflexivity. Qed.

Lemma load_computes sl r v w s : read r v = Some w -> at_slot sl v s ->
  exists y, word_of w = Some y /\ typed (kind_of_var v) w = true /\ computes sl r [CodeWriter.CLoad (local_type_of (FieldType v)) s] r [] [y].
Proof.
  unfold read. destruct (r !! v) as [[u|]|] eqn:Er; try done. cbn. destruct (typed _ u) eqn:Tu; [|done]. intros [= ->] Hs.
  destruct (typed_word_of _ _ Tu) as (y & Hy & Hlw). exists y. split_and!; [done..|]. intros Hl. split; [done|]. intros stk loc Hh.
  exists loc. split; [|done]. destruct (Hh _ _ Er) as (_ & s' & x' & Hs' & Hx' & Hlx). unfold at_slot in Hs. rewrite Hs in Hs'. injection Hs' as <-.
  rewrite Hy in Hx'. injection Hx' as <-. cbn [exec exec1 app]. rewrite Hlx. cbn [mbind option_bind]. rewrite local_type_kind. unfold kind_of_var in Hlw. by rewrite Hlw.
Qed.

Lemma store_computes sl r v w y s : is_Some (r !! v) -> at_slot sl v s -> typed (kind_of_var v) w = true -> word_of w = Some y ->
  computes sl r [CodeWriter.CStore (local_type_of (FieldType v)) s] (<[v := Some w]> r) [y] [].
Proof.
  intros Hv Hs Ht Hy Hl. split; [by apply live_store|]. intros stk loc Hh. exists (store_word s y loc). split; [|by eapply holds_store].
  destruct (typed_word_of _ _ Ht) as (y' & Hy' & Hlw). rewrite Hy in Hy'. injection Hy' as <-. cbn [exec exec1 app]. rewrite local_type_kind.
  unfold kind_of_var in Hlw. by rewrite Hlw.
Qed.

Lemma typed_width t w y : typed (kind_of t) w = true -> word_of w = Some y -> match y with WInt _ => Slots t = 1 | WLong _ => Slots t = 2 end.
Proof. unfold Slots. destruct (kind_of t), w; cbn; try discriminate; intros _ [= <-]; done. Qed.

Lemma dup_computes sl r t w y : typed (kind_of t) w = true -> word_of w = Some y ->
  computes sl r [CodeWriter.COp (if Slots t =? 2 then Op.Dup2 else Op.Dup)] r [y] [y; y].
Proof. intros Ht Hy. pose proof (typed_width _ _ _ Ht Hy) as Hw. apply computes_pure. intros stk loc. destruct y; by rewrite Hw. Qed.

Lemma pop_computes sl r t w y : typed (kind_of t) w = true -> word_of w = Some y ->
  computes sl r [CodeWriter.COp (if Slots t =? 2 then Op.Pop2 else Op.Pop)] r [y] [].
Proof. intros Ht Hy. pose proof (typed_width _ _ _ Ht Hy) as Hw. apply computes_pure. intros stk loc. destruct y; by rewrite Hw. Qed.

(** The item of a local. *)
Lemma is_local_spec v : is_local v = true -> vKind (varSym v) <> VarField /\ captureOf v = None.
Proof.
  unfold is_local. intros [Hf Hc]%andb_true_iff. split; [intros Hk; by rewrite bool_decide_eq_true_2 in Hf|].
  destruct (captureOf v); [|done]. by rewrite bool_decide_eq_true_2 in Hc.
Qed.

Lemma local_of_spec n v : local_of n = Some v -> use_var n = Some v /\ vKind (varSym v) <> VarField /\ captureOf v = None.
Proof.
  unfold local_of. destruct (use_var n) as [u|]; [|done]. destruct (is_local u) eqn:El; [|done]. intros [= <-]. split; [done|]. by apply is_local_spec.
Qed.

Lemma slot_steady sl v (Q : Z -> list CodeWriter.cmd -> Prop) : (forall s, at_slot sl v s -> Q s []) -> steady sl (slot_of v) Q.
Proof.
  intros Hq lo e Hs _ Ha s e' E'. unfold slot_of in E'. destruct (of_ (slots e) !! v) as [s'|] eqn:Ev; [|done]. injection E' as <- <-.
  exists []. split; [apply ran_refl|]. split; [done|]. apply Hq. by rewrite <- Hs.
Qed.

Lemma item_steady sl v (Q : item -> list CodeWriter.cmd -> Prop) :
  vKind (varSym v) <> VarField -> (forall s, at_slot sl v s -> Q (localItem s (FieldType v)) []) -> steady sl (itemFor v) Q.
Proof.
  intros Hk Hq. unfold itemFor. destruct (vKind (varSym v)); try done; (eapply steady_bind;
    [apply (slot_steady _ _ (fun s c => c = [] /\ at_slot sl v s)); done|]; intros s c [-> Hs]; by apply steady_ret, Hq).
Qed.

Lemma lvalue_steady `{Emits} sl x v (Q : item -> list CodeWriter.cmd -> Prop) :
  target_of x = Some v -> (forall s, at_slot sl v s -> Q (localItem s (FieldType v)) []) -> steady sl (lvalue x) Q.
Proof.
  intros Ht Hq. assert (Hn : forall n, local_of n = Some v -> steady sl (u ← must (use_var n);
      _ ← when (bool_decide (vKind (varSym u) = VarField) && negb (is_static_var u)) (loadEnclosing (vClass (varSym u))); itemFor u) Q).
  { intros n Hv. apply local_of_spec in Hv as (Hu & Hk & _). rewrite Hu. eapply (steady_bind _ _ _ (fun u c => u = v /\ c = [])); [by apply steady_ret|].
    intros u c [-> ->]. cbn [app]. rewrite bool_decide_eq_false_2 by done. cbn [andb when]. eapply (steady_bind _ _ _ (fun _ c => c = [])); [by apply steady_ret|].
    intros _ c ->. by apply item_steady. }
  revert x Ht. fix IH 1. intros x Ht. destruct x; cbn [target_of] in Ht; try discriminate; cbn [lvalue]; [by apply Hn..|by apply IH].
Qed.

(** ** Expressions *)

Lemma simple_prim x : simple x = true -> IsPrimitive (kind_at x) = true.
Proof. destruct x; cbn [simple]; intros [Hp _]%andb_true_iff; exact Hp. Qed.

Section Rec.
Context {E : Emits} (rec_ok : forall x, simple x = true -> expr_ok (rExpr x) x).

Lemma converts_value from to c sl r v x y : converts from to c -> word_of v = Some x -> stacked from to v = Some y -> computes sl r c r [x] [y].
Proof. intros [Hc _]. apply Hc. Qed.

(** A value as one of another type. *)
Definition yields (sl : slotMap) (x : Expr) (k : Types.Kind) (c : list CodeWriter.cmd) : Prop := forall r w r' y,
  eval x r = Some (w, r') -> stacked (kind_at x) k w = Some y -> computes sl r c r' [] [y].

Lemma exprAs_ok sl x want : simple x = true -> IsPrimitive (kind_of want) = true -> steady sl (exprAs x want) (fun _ c => yields sl x (kind_of want) c).
Proof.
  intros Hx Hw. eapply steady_bind; [by apply rec_ok|]. intros [] c Hc. eapply steady_imp; [apply steady_gives; intros lo e; apply convert_gives|].
  - by apply simple_prim.
  - done.
  - intros [] d Hd r w r' y Ev Hy. destruct (Hc r w r' Ev) as (x0 & Hx0 & C). eapply computes_app; [exact C|]. by eapply converts_value.
Qed.

Lemma yields_two sl X Y k k' c d r a r1 b r2 x y :
  yields sl X k c -> yields sl Y k' d -> eval X r = Some (a, r1) -> eval Y r1 = Some (b, r2) ->
  stacked (kind_at X) k a = Some x -> stacked (kind_at Y) k' b = Some y -> computes sl r (c ++ d) r2 [] [y; x].
Proof.
  intros HX HY EX EY Sx Sy. eapply computes_app; [by eapply HX|]. apply (computes_frame _ _ _ _ [] [y]). by eapply HY.
Qed.

(** Comparisons. *)
Lemma compare_ok x X Y op :
  simple X = true -> simple Y = true ->
  (forall r b r', eval x r = Some (VBool b, r') -> exists a r1 a', eval X r = Some (a, r1) /\ eval Y r1 = Some (a', r') /\
    compare_value op (kind_at X) (kind_at Y) a a' = Some b) ->
  cond_ok (fun target when => compare X Y op target when) x.
Proof.
  intros HX HY Hev target when lo e Hlo _ Ha. pose proof (simple_prim _ HX) as PX. pose proof (simple_prim _ HY) as PY.
  set (sl := slots e). enough (Hs : steady sl (compare X Y op target when) (fun _ c => forall r b r', eval x r = Some (VBool b, r') ->
    decides sl r c r' [] target (Bool.eqb b when))) by (by apply Hs).
  unfold compare. rewrite (prim_not_reference (Type_ X) PX). cbn [andb]. set (p := PromoteBinary (Type_ X) (Type_ Y)).
  assert (Pp : IsPrimitive (kind_of p) = true) by apply promote_binary_prim.
  apply (steady_assoc _ _ (fun _ => convert (Type_ X) p)). eapply steady_bind; [by apply (exprAs_ok _ X p)|]. intros [] c1 HX1.
  apply (steady_assoc _ _ (fun _ => convert (Type_ Y) p)). eapply steady_bind; [by apply (exprAs_ok _ Y p)|]. intros [] c2 HY2.
  eapply (steady_bind _ _ _ (fun k c => c = [] /\ forall a b t, compareInt op a b = Some t -> compareInt k a b = Some (Bool.eqb t when))).
  { destruct when.
    - apply steady_ret. split; [done|]. intros a b []; done.
    - apply steady_gives. intros lo' e' k e1 Hi. apply invert_spec in Hi as [-> Hi]. exists []. split; [apply ran_refl|].
      split_and!; [done..|]. intros a b t Ht. rewrite (Hi _ _ _ Ht). by destruct t. }
  intros k c3 [-> Hk]. cbn [app].
  assert (Hfin : forall d, (forall sl r i j t, compareInt k i j = Some t -> kind_of p = KindInt -> decides sl r d r [WInt j; WInt i] target t) ->
    (forall sl r i j t, compareInt k i j = Some t -> kind_of p = KindLong -> decides sl r d r [WLong j; WLong i] target t) ->
    forall r b r', eval x r = Some (VBool b, r') -> decides sl r (c1 ++ c2 ++ d) r' [] target (Bool.eqb b when)).
  { intros d Hi Hl r b r' Eb. destruct (Hev r b r' Eb) as (a & r1 & a' & EX & EY & Hc).
    apply compare_words in Hc as (wx & wy & i & j & Sx & Sy & Hw & Hc). rewrite app_assoc. eapply computes_decides.
    - by eapply (yields_two sl X Y).
    - destruct Hw as [(Hp & -> & ->)|(Hp & -> & ->)]; [apply Hi|apply Hl]; auto. }
  destruct (bool_decide (kind_of p = KindInt) || bool_decide (kind_of p = KindBoolean)) eqn:Ek.
  - eapply steady_imp; [apply steady_gives; intros lo' e'; apply branchInts_gives|]. intros [] d Hd. apply Hfin; [auto|].
    intros ? ? ? ? ? ? Hp. rewrite Hp in Ek. done.
  - eapply steady_imp; [apply steady_gives; intros lo' e'; apply branchLongs_gives|]. intros [] d Hd. apply Hfin; [|auto].
    intros ? ? ? ? ? ? Hp. rewrite Hp in Ek. done.
Qed.

(** *** Conditions *)

Lemma cond_test_ok x : simple x = true -> cond_ok (cond_value_test x) x.
Proof.
  intros Hx target when lo e Hlo _ Ha. enough (Hs : steady (slots e) (cond_value_test x target when) (fun _ c => forall r b r',
    eval x r = Some (VBool b, r') -> decides (slots e) r c r' [] target (Bool.eqb b when))) by (by apply Hs).
  eapply steady_bind; [by apply rec_ok|]. intros [] c Hc. apply steady_call; [done|]. intros r b r' Eb.
  destruct (Hc _ _ _ Eb) as (y & Hy & C). injection Hy as <-. eapply computes_decides; [exact C|]. apply decides_pure. intros stk loc. by destruct when, b.
Qed.

Lemma cond_const_ok b x : (forall r, eval x r = Some (VBool b, r)) -> cond_ok (fun target when => if Bool.eqb b when then Goto target else mret tt) x.
Proof.
  intros Hb target when lo e Hlo _ Ha. destruct (Bool.eqb b when) eqn:Ew.
  - apply gives_call; [constructor|]. split; [done|]. intros r b' r' Eb. rewrite Hb in Eb. injection Eb as <- <-. rewrite Ew. by apply decides_pure.
  - apply gives_ret. split; [done|]. intros r b' r' Eb. rewrite Hb in Eb. injection Eb as <- <-. rewrite Ew. by apply decides_pure.
Qed.

Lemma cond_not_ok f X x : (forall r b r', eval x r = Some (VBool b, r') -> eval X r = Some (VBool (negb b), r')) -> cond_ok f X ->
  cond_ok (fun target when => f target (negb when)) x.
Proof.
  intros Hev Hf target when lo e Hlo Ht Ha. eapply gives_imp; [by apply Hf|]. intros _ e' c _ [Ha' Hc]. split; [done|].
  intros r b r' Eb. apply Hev, Hc in Eb. by destruct b, when.
Qed.

Lemma cond_same_ok f X x : (forall r, eval x r = eval X r) -> cond_ok f X -> cond_ok f x.
Proof.
  intros Hev Hf target when lo e Hlo Ht Ha. eapply gives_imp; [by apply Hf|]. intros _ e' c _ [Ha' Hc]. split; [done|].
  intros r b r' Eb. rewrite Hev in Eb. by apply Hc.
Qed.

Lemma cond_ext f g x : (forall t w, g t w = f t w) -> cond_ok f x -> cond_ok g x.
Proof. intros Hfg Hf target when lo e Hlo Ht Ha. rewrite Hfg. by apply Hf. Qed.

Lemma eval_const x v r : ConstAt x ≫= cValue = Some v -> eval x r = Some (v, r).
Proof. intros Hv. destruct x; cbn [eval]; by rewrite Hv. Qed.

Lemma simple_const x v : simple x = true -> ConstAt x ≫= cValue = Some v -> typed (kind_at x) v = true.
Proof. intros Hx Hv. destruct x; cbn [simple] in Hx; rewrite Hv in Hx; by apply andb_true_iff in Hx as [_ Hx]. Qed.

(** A condition is a boolean constant, or no constant. *)
Lemma const_cases x : simple x = true -> kind_at x = KindBoolean ->
  (exists b, const_bool x = Some b /\ ConstAt x ≫= cValue = Some (VBool b)) \/ (const_bool x = None /\ ConstAt x ≫= cValue = None).
Proof.
  intros Hx Hk. unfold const_bool. destruct (ConstAt x ≫= cValue) as [v|] eqn:Hv.
  - left. pose proof (simple_const _ _ Hx Hv) as Ht. rewrite Hk in Ht. destruct v; try discriminate. exists b. split; [|done].
    destruct (ConstAt x) as [k|]; [|done]. cbn in Hv. by rewrite Hv.
  - right. split; [|done]. destruct (ConstAt x) as [k|]; [|done]. cbn in Hv. by rewrite Hv.
Qed.

Lemma boolean_kind x : is_boolean x = true -> kind_at x = KindBoolean.
Proof. apply bool_decide_eq_true_1. Qed.

Lemma eval_not sp op p X r b r' : ConstAt (UnaryExpr sp op p X) ≫= cValue = None -> op =? NOT = true ->
  eval (UnaryExpr sp op p X) r = Some (VBool b, r') -> eval X r = Some (VBool (negb b), r').
Proof.
  intros Hk ->%Z.eqb_eq. cbn [eval]. rewrite Hk. change ((NOT =? INC) || (NOT =? DEC)) with false. change (NOT =? NOT) with true. cbv iota.
  destruct (eval X r) as [[v r1]|]; [|done]. cbn. destruct v; try done. intros [= <- <-]. by rewrite negb_involutive.
Qed.

Lemma eval_comparison sp X op p q Y r b r' : ConstAt (BinaryExpr sp X op p q Y) ≫= cValue = None ->
  op =? LAND = false -> op =? LOR = false -> is_comparison op = true ->
  eval (BinaryExpr sp X op p q Y) r = Some (VBool b, r') -> exists a r1 a', eval X r = Some (a, r1) /\ eval Y r1 = Some (a', r') /\
    compare_value op (kind_at X) (kind_at Y) a a' = Some b.
Proof.
  intros Hk H1' H2' Hc. cbn [eval]. rewrite Hk. destruct (eval X r) as [[a r1]|]; [|done]. cbn [mbind option_bind fst snd].
  rewrite H1', H2', Hc. destruct (eval Y r1) as [[a' r2]|] eqn:EY; [|done]. cbn [mbind option_bind fst snd].
  destruct (compare_value _ _ _ _ _) as [t|] eqn:Et; [|done]. cbn. intros [= <- <-]. eauto 10.
Qed.

Lemma cond_all x : simple x = true -> kind_at x = KindBoolean -> cond_ok (cond x) x.
Proof.
  revert x. fix IH 1. intros x Hx Hk. destruct (const_cases x Hx Hk) as [(b & Hb & Hv)|[Hb Hv]].
  { eapply cond_ext; [|apply cond_const_ok; intros r; by apply eval_const]. intros t w. destruct x; cbn [cond]; by rewrite Hb. }
  pose proof (cond_test_ok x Hx) as Htest.
  destruct x; try (eapply cond_ext; [|exact Htest]; intros t w; cbn [cond]; rewrite Hb; reflexivity);
    cbn [simple] in Hx; rewrite Hv in Hx; apply andb_true_iff in Hx as [_ Hx].
  - apply andb_true_iff in Hx as [HX HK]. apply bool_decide_eq_true_1 in HK. eapply cond_ext; [intros t w; cbn [cond]; rewrite Hb; reflexivity|].
    eapply cond_same_ok; [|apply IH; congruence]. intros r. cbn [eval]. by rewrite Hv.
  - destruct (Op =? NOT) eqn:En.
    + destruct ((Op =? INC) || (Op =? DEC)) eqn:Ei; [exfalso; apply Z.eqb_eq in En as ->; discriminate|].
      apply andb_true_iff in Hx as [HX HK]. cbn [negb orb] in HK. apply andb_true_iff in HK as [HK _].
      eapply cond_ext; [intros t w; cbn [cond]; rewrite Hb, En; reflexivity|].
      eapply (cond_not_ok (cond x)); [intros r b r'; by apply eval_not|]. apply IH; [done|]. by apply boolean_kind.
    + eapply cond_ext; [|exact Htest]. intros t w. cbn [cond]. by rewrite Hb, En.
  - rewrite !andb_true_iff in Hx. destruct Hx as [[[HX HY] HK] _].
    destruct (Op =? LAND) eqn:Ea; [|destruct (Op =? LOR) eqn:Eo; [|destruct (is_comparison Op) eqn:Ec]].
    + cbn [orb negb] in HK. apply andb_true_iff in HK as [KX KY]. apply Z.eqb_eq in Ea as ->.
      eapply cond_ext; [intros t w; cbn [cond]; rewrite Hb; reflexivity|].
      apply (condAnd_ok _ _ x1 x2); [by apply eval_and|apply IH; [done|by apply boolean_kind]..].
    + cbn [orb negb] in HK. apply andb_true_iff in HK as [KX KY]. apply Z.eqb_eq in Eo as ->.
      eapply cond_ext; [intros t w; cbn [cond]; rewrite Hb; reflexivity|].
      apply (condOr_ok _ _ x1 x2); [by apply eval_or|apply IH; [done|by apply boolean_kind]..].
    + eapply cond_ext; [intros t w; cbn [cond]; rewrite Hb, Ea, Eo, Ec; reflexivity|].
      apply compare_ok; [done|done|]. intros r b r'. by apply eval_comparison.
    + eapply cond_ext; [|exact Htest]. intros t w. cbn [cond]. by rewrite Hb, Ea, Eo, Ec.
  - done.
Qed.

(** *** Values of conditions *)

(** Two arms, the second at [l], both going on at [S l]. *)
Lemma arm_taken sl r1 r2 r3 c1 c2 c3 l ws :
  decides sl r1 c1 r2 [] l false -> computes sl r2 c2 r3 [] ws -> fresh (S (S l)) c3 ->
  computes sl r1 (c1 ++ c2 ++ CodeWriter.CGoto (S l) :: CodeWriter.CMark l :: c3 ++ [CodeWriter.CMark (S l)]) r3 [] ws.
Proof.
  intros Hc H2 H3 Hl. destruct (Hc Hl) as [Hl2 X1]. destruct (H2 Hl2) as [Hl3 X2]. split; [done|]. intros stk loc Hh.
  destruct (X1 stk loc Hh) as (loc2 & E1 & Hh2). destruct (X2 stk loc2 Hh2) as (loc3 & E2 & Hh3). exists loc3. split; [|done].
  rewrite exec_app, E1. cbn [mbind option_bind app]. rewrite exec_app. cbn [app] in E2. rewrite E2. cbn [mbind option_bind exec exec1].
  replace (Nat.eqb l (S l)) with false by (symmetry; apply Nat.eqb_neq; lia). rewrite exec_app, (exec_skip (S (S l))) by (done || lia). apply exec_mark.
Qed.

Lemma arm_skipped sl r1 r2 r3 c1 c2 c3 l ws :
  decides sl r1 c1 r2 [] l true -> fresh (S (S l)) c2 -> computes sl r2 c3 r3 [] ws ->
  computes sl r1 (c1 ++ c2 ++ CodeWriter.CGoto (S l) :: CodeWriter.CMark l :: c3 ++ [CodeWriter.CMark (S l)]) r3 [] ws.
Proof.
  intros Hc H2 H3 Hl. destruct (Hc Hl) as [Hl2 X1]. destruct (H3 Hl2) as [Hl3 X3]. split; [done|]. intros stk loc Hh.
  destruct (X1 stk loc Hh) as (loc2 & E1 & Hh2). destruct (X3 stk loc2 Hh2) as (loc3 & E3 & Hh3). exists loc3. split; [|done].
  rewrite exec_app, E1. cbn [mbind option_bind app]. rewrite exec_app, (exec_skip (S (S l))) by (done || lia).
  cbn [mbind option_bind exec exec1]. rewrite Nat.eqb_refl, exec_app. cbn [app] in E3. by rewrite E3.
Qed.

Lemma condValue_ok x : cond_ok (cond x) x -> (forall r w r', eval x r = Some (w, r') -> exists b, w = VBool b) -> expr_ok (condValue x) x.
Proof.
  intros Hc Hb sl lo e Hs Hlo Ha. unfold condValue. apply gives_new, gives_new, gives_new. cbn [nlabels with_label_made]. set (l := nlabels e) in *.
  apply gives_bind, (gives_weaken lo (S (S (S l)))); [lia|]. eapply gives_imp; [apply Hc; cbn; [lia|lia|done]|]. intros [] e1 c1 R1 [Ha1 HX].
  cbn [slots with_label_made] in HX. rewrite Hs in HX. pose proof (ran_labels _ _ _ _ R1) as L1. cbn in L1.
  repeat (first [apply gives_bind | apply gives_call; [cbn; repeat constructor; lia|]]). split; [done|].
  intros r w r' Ew. destruct (Hb _ _ _ Ew) as [b ->]. exists (WInt (bit b)). split; [done|]. do 3 apply computes_new. apply HX in Ew.
  intros Hl. destruct (Ew Hl) as [Hl2 X]. split; [done|]. intros stk loc Hh. destruct (X stk loc Hh) as (loc' & E1 & Hh'). exists loc'. split; [|done].
  rewrite exec_app, E1. assert (N : Nat.eqb l (S (S l)) = false) by (apply Nat.eqb_neq; lia).
  destruct b; cbn [Bool.eqb mbind option_bind app exec exec1]; rewrite ?N, ?Nat.eqb_refl; cbn [mbind option_bind exec exec1]; by rewrite ?Nat.eqb_refl.
Qed.

Lemma condExpr_ok x C X Y : simple C = true -> is_boolean C = true -> simple X = true -> simple Y = true -> IsPrimitive (kind_at x) = true ->
  (forall r w r', eval x r = Some (w, r') -> exists b r1 a, eval C r = Some (VBool b, r1) /\ eval (if b : bool then X else Y) r1 = Some (a, r') /\
    conv (kind_at (if b : bool then X else Y)) (kind_at x) a = Some w) ->
  expr_ok (condExpr x C X Y) x.
Proof.
  intros HC KC HX HY Px Hev sl lo e Hs Hlo Ha. unfold condExpr. apply gives_new, gives_new. cbn [nlabels with_label_made]. set (l := nlabels e) in *.
  apply gives_bind, (gives_weaken lo (S (S l))); [lia|]. eapply gives_imp; [apply cond_all; [done|by apply boolean_kind|cbn; lia|lia|done]|].
  intros [] e1 c1 R1 [Ha1 HC1]. cbn [slots with_label_made] in HC1. rewrite Hs in HC1.
  pose proof (ran_labels _ _ _ _ R1) as L1. pose proof (ran_slots _ _ _ _ R1) as S1. cbn in L1, S1.
  apply gives_bind, (gives_weaken lo (S (S l))); [lia|]. eapply gives_imp; [apply (exprAs_ok sl X (Type_ x)); [done|done|congruence|lia|done]|].
  intros [] e2 c2 R2 [Ha2 HX2]. pose proof (ran_labels _ _ _ _ R2) as L2. pose proof (ran_slots _ _ _ _ R2) as S2.
  apply gives_bind, gives_call; [constructor|]. apply gives_bind, gives_alive, gives_bind, gives_bind, gives_call; [repeat constructor; lia|].
  apply gives_alive, gives_bind, (gives_weaken lo (S (S l))); [lia|].
  eapply gives_imp; [apply (exprAs_ok sl Y (Type_ x)); [done|done|cbn; congruence|cbn; lia|done]|].
  intros [] e3 c3 R3 [Ha3 HY3]. apply gives_bind, gives_call; [repeat constructor; lia|]. apply gives_alive. split; [done|].
  intros r w r' Ew. destruct (Hev _ _ _ Ew) as (b & r1 & a & EC & EA & Hcv). pose proof (stacked_of_conv _ _ _ _ Hcv) as Hst.
  apply HC1 in EC. destruct (conv_typed _ _ _ _ Hcv) as [_ Tw]; [destruct b; by apply simple_prim|done|]. destruct (typed_word _ _ Tw) as [y Hy].
  exists y. split; [done|]. rewrite Hy in Hst. do 2 apply computes_new. cbn [app]. destruct b.
  - eapply arm_taken; [exact EC|by eapply HX2|apply R3].
  - eapply arm_skipped; [exact EC|apply R2|by eapply HY3].
Qed.

(** *** Arithmetic *)

(** The words of two operands, and of what an operator makes of them. *)
Definition combined (op : Z) (p k : Types.Kind) (x y : word) (v : value) : Prop :=
  (exists i j n, p = KindInt /\ x = WInt i /\ y = WInt j /\ v = VInt n /\ java_op 32 op i j = Some n) \/
  (exists i j n, p = KindLong /\ x = WLong i /\ y = WLong j /\ v = VLong n /\ java_op 64 op i j = Some n) \/
  (exists f g h, p = KindInt /\ k = KindBoolean /\ x = WInt (bit f) /\ y = WInt (bit g) /\ v = VBool h /\ bool_op op f g = Some h).

Lemma operates_combined op p k c x y v : operates op p c -> is_shift op = false -> combined op p k x y v ->
  exists z, word_of v = Some z /\ forall sl r, computes sl r c r [y; x] [z].
Proof.
  intros (Oi & Ol & Ob) Hs [(i & j & n & Hp & -> & -> & -> & Hn)|[(i & j & n & Hp & -> & -> & -> & Hn)|(f & g & h & Hp & _ & -> & -> & -> & Hh)]];
    eexists; (split; [reflexivity|]); intros sl r.
  - by apply Oi.
  - by apply Ol.
  - by apply (Ob Hp).
Qed.

Lemma arith_steady sl op k : steady sl (emit_op (arithOp op k)) (fun _ c => operates op k c).
Proof. apply steady_gives. intros lo e. apply arith_gives. Qed.

Lemma convert_steady sl from to : IsPrimitive (kind_of from) = true -> IsPrimitive (kind_of to) = true ->
  steady sl (convert from to) (fun _ c => converts (kind_of from) (kind_of to) c).
Proof. intros Hf Ht. apply steady_gives. intros lo e. by apply convert_gives. Qed.

Lemma shift_steady sl op k : steady sl (emit_op (shiftOp op k)) (fun _ c => is_shift op = true -> shifts_by op k c).
Proof. apply steady_gives. intros lo e. apply shift_gives. Qed.

(** *** Assignments *)

Lemma assign_to_spec v w r r' : assign_to v w r = Some r' -> is_Some (r !! v) /\ r' = <[v := Some w]> r.
Proof. unfold assign_to. destruct (r !! v); [|done]. intros [= <-]. eauto. Qed.

(** What stays on the stack of a value used, or not. *)
Definition kept (b : bool) (y : word) : list word := if b then [y] else [].

Lemma stash_store sl v s b : at_slot sl v s ->
  steady sl (_ ← when b (stash (localItem s (FieldType v))); store (localItem s (FieldType v))) (fun _ c => forall r w y,
    is_Some (r !! v) -> typed (kind_of_var v) w = true -> word_of w = Some y -> computes sl r c (<[v := Some w]> r) [y] (kept b y)).
Proof.
  intros Hs. apply (steady_bind _ _ _ (fun _ c => forall r w y, typed (kind_of_var v) w = true -> word_of w = Some y -> computes sl r c r [y] (y :: kept b y))).
  - destruct b; cbn [when stash].
    + apply steady_call; [done|]. intros r w y Ht Hy. by eapply dup_computes.
    + apply steady_ret. intros r w y _ _. apply computes_nil.
  - intros [] c Hc. apply steady_call; [done|]. intros r w y Hv Ht Hy. eapply computes_app; [by eapply Hc|].
    apply (computes_frame _ _ _ _ [y] [] (kept b y)). by eapply store_computes.
Qed.

Lemma compoundOp_steady sl Op (Q : Z -> list CodeWriter.cmd -> Prop) :
  (forall b, (forall op, operator_of Op = Some op -> b = op /\ is_shift op = false) -> Q b []) -> steady sl (compoundOp Op) Q.
Proof.
  intros Hq. unfold compoundOp. unfold operator_of in Hq.
  repeat match goal with |- context [if Op =? ?k then _ else _] => destruct (Op =? k) end; try apply steady_bug; apply steady_ret, Hq;
    intros op; first [intros [= <-]; done | done].
Qed.

Lemma compound_steady sl v Op RHS : simple RHS = true -> prim_var v = true ->
  steady sl (compound (FieldType v) Op RHS) (fun _ c => forall op r a b r' w x, operator_of Op = Some op -> eval RHS r = Some (b, r') ->
    compound_value op (kind_of_var v) (kind_at RHS) a b = Some w -> word_of a = Some x ->
    exists y, word_of w = Some y /\ typed (kind_of_var v) w = true /\ computes sl r c r' [x] [y]).
Proof.
  intros HR Pv. unfold compound. apply (steady_bind _ _ _ (fun b c => c = [] /\ forall op, operator_of Op = Some op -> b = op /\ is_shift op = false)).
  { apply compoundOp_steady. done. }
  intros b c [-> Hb]. cbn [app]. destruct (is_shift b) eqn:Es.
  { eapply steady_bind; [by apply exprAs_ok|]. intros [] c1 _. eapply steady_imp; [apply shift_steady|]. intros [] c2 _ op r a b' r' w x Ho.
    destruct (Hb _ Ho) as [-> E']. congruence. }
  rewrite (prim_not_string (FieldType v) Pv), andb_false_r. set (p := PromoteBinary (FieldType v) (Type_ RHS)).
  assert (Pp : IsPrimitive (kind_of p) = true) by apply promote_binary_prim.
  eapply steady_bind; [by apply convert_steady|]. intros [] c1 H1'. eapply steady_bind; [by apply (exprAs_ok _ RHS p)|]. intros [] c2 H2'.
  eapply steady_bind; [apply arith_steady|]. intros [] c3 H3'. eapply steady_imp; [by apply convert_steady|]. intros [] c4 H4'.
  intros op r a b' r' w x Ho Er Hc Hx. destruct (Hb _ Ho) as [-> _]. unfold compound_value in Hc.
  destruct (binary_value _ _ _ a b') as [u|] eqn:Eb; [|done]. cbn in Hc. pose proof Eb as Ep. apply binary_words in Eb as (x' & y' & Sx & Sy & Hd).
  destruct (operates_combined _ _ _ _ _ _ _ H3' Es Hd) as (z & Hz & Cz).
  assert (C : computes sl r (c1 ++ c2 ++ c3) r' [x] [z]).
  { eapply computes_app; [by eapply converts_value|]. eapply computes_app; [apply (computes_frame _ _ _ _ [] [y'] [x']); by eapply H2'|]. apply Cz. }
  assert (Hw : exists y, word_of w = Some y /\ typed (kind_of_var v) w = true /\ forall r, computes sl r c4 r [z] [y]).
  { assert (Hn : (q ← promoted2 (kind_of_var v) (kind_at RHS); conv q (kind_of_var v) u) = Some w ->
      exists y, word_of w = Some y /\ typed (kind_of_var v) w = true /\ forall r, computes sl r c4 r [z] [y]).
    { destruct (promoted2 _ _) as [q|] eqn:Eq; [|done]. cbn [mbind option_bind]. intros Ew. apply promoted2_kind in Eq as [Kp _].
      change (kind_of p = q) in Kp. subst q. destruct (conv_typed _ _ _ _ Ew Pp Pv) as [_ Tw]. destruct (typed_word _ _ Tw) as [y Hy]. exists y. split_and!; [done..|].
      intros r0. eapply converts_value; [exact H4'|exact Hz|].
      change (kind_of (FieldType v)) with (kind_of_var v). by rewrite (stacked_of_conv _ _ _ _ Ew). }
    destruct Hd as [(i & j & n & Hp & -> & -> & -> & _)|[(i & j & n & Hp & -> & -> & -> & _)|(f & g & h & Hp & Hk & -> & -> & -> & Hh)]];
      [exact (Hn Hc)..|]. injection Hc as <-. exists z. split_and!; [done|unfold kind_of_var; by rewrite Hk|]. intros r0. by apply H4'. }
  destruct Hw as (y & Hy & Tw & Cw). exists y. split_and!; [done..|]. rewrite !app_assoc. eapply computes_app; [|apply Cw]. by rewrite <- !app_assoc.
Qed.

Lemma assign_steady sl sp LHS Op p q RHS value : prim_target LHS = true -> simple RHS = true -> ConstAt (AssignExpr sp LHS Op p q RHS) ≫= cValue = None ->
  steady sl (assign LHS Op RHS value) (fun _ c => forall r w r', eval (AssignExpr sp LHS Op p q RHS) r = Some (w, r') ->
    exists y, word_of w = Some y /\ computes sl r c r' [] (kept value y)).
Proof.
  unfold prim_target. destruct (target_of LHS) as [v|] eqn:Et; [|done]. intros Pv HR Hk. unfold assign.
  apply (steady_bind _ _ _ (fun it c => c = [] /\ exists s, it = localItem s (FieldType v) /\ at_slot sl v s)).
  { eapply lvalue_steady; [exact Et|]. eauto. }
  intros it c (-> & s & -> & Hs). cbn [app typ]. destruct (Op =? ASSIGN) eqn:Ea.
  - eapply steady_bind; [by apply (exprAs_ok _ RHS (FieldType v))|]. intros [] c1 H1'. eapply steady_imp; [by apply stash_store|]. intros [] c2 H2' r w r'.
    cbn [eval]. rewrite Hk, Et, Ea. cbn [mbind option_bind]. destruct (eval RHS r) as [[a r1]|] eqn:Er; [|done]. cbn [mbind option_bind fst snd].
    destruct (conv _ _ a) as [u|] eqn:Ec; [|done]. cbn [mbind option_bind]. destruct (assign_to v u r1) as [r2|] eqn:E2; [|done]. intros [= <- <-].
    apply assign_to_spec in E2 as [Hv ->]. destruct (conv_typed _ _ _ _ Ec (simple_prim _ HR) Pv) as [_ Tu]. destruct (typed_word _ _ Tu) as [y Hy].
    exists y. split; [done|]. eapply computes_app; [eapply H1'; [exact Er|]|by eapply H2'].
    change (kind_of (FieldType v)) with (kind_of_var v). by rewrite (stacked_of_conv _ _ _ _ Ec).
  - apply (steady_bind _ _ _ (fun _ c => c = [])); [by apply steady_ret|]. intros [] c0 ->. cbn [app load].
    apply (steady_bind _ _ _ (fun _ c => c = [CodeWriter.CLoad (local_type_of (FieldType v)) s])); [by apply steady_call|]. intros [] c1 ->.
    eapply steady_bind; [by apply compound_steady|]. intros [] c2 H2'. eapply steady_imp; [by apply stash_store|]. intros [] c3 H3' r w r'.
    cbn [eval]. rewrite Hk, Et, Ea. cbn [mbind option_bind]. destruct (operator_of Op) as [op|] eqn:Eo; [|done]. cbn [mbind option_bind].
    destruct (read r v) as [a|] eqn:Er; [|done]. cbn [mbind option_bind]. destruct (eval RHS r) as [[b r1]|] eqn:EY; [|done]. cbn [mbind option_bind fst snd].
    destruct (compound_value _ _ _ a b) as [u|] eqn:Ec; [|done]. cbn [mbind option_bind]. destruct (assign_to v u r1) as [r2|] eqn:E2; [|done].
    intros [= <- <-]. apply assign_to_spec in E2 as [Hv ->]. destruct (load_computes sl _ _ _ _ Er Hs) as (x & Hx & _ & C1).
    destruct (H2' _ _ _ _ _ _ _ eq_refl EY Ec Hx) as (y & Hy & Tu & C2). exists y. split; [done|].
    eapply computes_app; [exact C1|]. eapply computes_app; [exact C2|]. by eapply H3'.
Qed.

(** *** Steps *)

Lemma simpleIntLocal_steady sl x (Q : option var -> list CodeWriter.cmd -> Prop) :
  Q None [] -> (forall v, target_of x = Some v -> kind_of_var v = KindInt -> Q (Some v) []) -> steady sl (simpleIntLocal x) Q.
Proof.
  intros Hn Hs. destruct x; try by apply steady_ret. cbn [simpleIntLocal]. destruct (use_var (AIdent i)) as [v|] eqn:Eu; [|by apply steady_ret].
  destruct (bool_decide (vKind (varSym v) = VarField)) eqn:Ef; [by apply steady_ret|]. destruct (bool_decide (is_Some (captureOf v))) eqn:Ec; [by apply steady_ret|].
  cbn [orb]. destruct (bool_decide (kind_of (FieldType v) = KindInt)) eqn:Ek; [|by apply steady_ret]. cbn [negb].
  eapply (steady_bind _ _ _ (fun _ c => c = [])).
  - intros lo e _ _ Ha. by apply gives_get.
  - intros [] c ->; apply steady_ret; [|done]. apply Hs; [|by apply bool_decide_eq_true_1 in Ek].
    cbn [target_of]. unfold local_of. change (key (EIdent i)) with (AIdent i). rewrite Eu. unfold is_local. by rewrite Ef, Ec.
Qed.

Lemma promote_kind t p : promoted (kind_of t) = Some p -> kind_of (Promote t) = p.
Proof. unfold Promote. destruct (kind_of t) eqn:E0; cbn; try discriminate; intros [= <-]; done. Qed.

(** The addition of a step, from the word of a value to that of the next. *)
Lemma step_adds sl k t kind : kind_of t = k -> IsPrimitive k = true ->
  steady sl (_ ← convert t (Promote t); _ ← pushOne (Promote t) (if kind =? DEC then -1 else 1);
             _ ← emit_op (arithOp ADD (kind_of (Promote t))); convert (Promote t) t) (fun _ c => forall r a b x,
    step_value kind k a = Some b -> word_of a = Some x -> exists y, word_of b = Some y /\ typed k b = true /\ computes sl r c r [x] [y]).
Proof.
  intros Kt Pk. assert (Pt : IsPrimitive (kind_of t) = true) by congruence. pose proof (promote_prim _ Pt) as Pp.
  set (delta := if kind =? DEC then -1 else 1). eapply steady_bind; [by apply convert_steady|]. intros [] c1 H1'.
  apply (steady_bind _ _ _ (fun _ c => (kind_of (Promote t) = KindInt -> c = [CodeWriter.CIconst delta]) /\ (kind_of (Promote t) = KindLong -> c = [CodeWriter.CLconst delta]))).
  { unfold pushOne. destruct (kind_of (Promote t)); apply steady_call; done. }
  intros [] c2 [Hi Hl]. eapply steady_bind; [apply arith_steady|]. intros [] c3 (Oi & Ol & _). eapply steady_imp; [by apply convert_steady|].
  intros [] c4 H4' r a b x Hs Hx. unfold step_value in Hs. destruct (promoted k) as [p|] eqn:Ep; [|done]. cbn [mbind option_bind] in Hs.
  rewrite <- Kt in Ep. pose proof (promote_kind _ _ Ep) as Kp. rewrite Kp, Kt in *. destruct (conv k p a) as [u|] eqn:Eu; [|done]. cbn [mbind option_bind] in Hs.
  assert (Hc : exists z, (exists n, (u = VInt n /\ p = KindInt /\ z = VInt (wrap 32 (n + delta))) \/ (u = VLong n /\ p = KindLong /\ z = VLong (wrap 64 (n + delta)))) /\ conv p k z = Some b).
  { assert (Hd : forall n, (if kind =? DEC then n - 1 else n + 1) = n + delta) by (intros n; unfold delta; destruct (kind =? DEC); lia).
    destruct u; try done; rewrite Hd in Hs; cbn [mbind option_bind] in Hs; eexists; (split; [|exact Hs]); exists v;
      destruct (promoted_kind _ _ Ep) as [->| ->]; auto; (apply conv_int in Eu as [? ?] || apply conv_long in Eu as [? ?]); done. }
  destruct Hc as (z & (n & Hn) & Hz). destruct (conv_typed _ _ _ _ Hz Pp Pk) as [_ Tb]. destruct (typed_word _ _ Tb) as [y Hy]. exists y. split_and!; [done..|].
  assert (Sx : forall w, word_of u = Some w -> computes sl r c1 r [x] [w]).
  { intros w Hw. eapply converts_value; [exact H1'|exact Hx|]. by rewrite (stacked_of_conv _ _ _ _ Eu). }
  assert (Sy : forall w, word_of z = Some w -> computes sl r c4 r [w] [y]).
  { intros w Hw. eapply converts_value; [exact H4'|exact Hw|]. by rewrite (stacked_of_conv _ _ _ _ Hz). }
  destruct Hn as [(-> & -> & ->)|(-> & -> & ->)].
  - eapply computes_app; [by apply Sx|]. rewrite (Hi eq_refl). eapply (computes_app _ _ r _ _ _ _ [WInt delta; WInt n]); [by apply computes_pure|].
    eapply computes_app; [|by apply Sy]. by apply Oi.
  - eapply computes_app; [by apply Sx|]. rewrite (Hl eq_refl). eapply (computes_app _ _ r _ _ _ _ [WLong delta; WLong n]); [by apply computes_pure|].
    eapply computes_app; [|by apply Sy]. by apply Ol.
Qed.

Lemma step_adds_then sl k t kind {A} (h : Emit A) (Q : A -> list CodeWriter.cmd -> Prop) : kind_of t = k -> IsPrimitive k = true ->
  (forall c, (forall r a b x, step_value kind k a = Some b -> word_of a = Some x -> exists y, word_of b = Some y /\ typed k b = true /\ computes sl r c r [x] [y]) ->
    steady sl h (fun b d => Q b (c ++ d))) ->
  steady sl (_ ← convert t (Promote t); _ ← pushOne (Promote t) (if kind =? DEC then -1 else 1);
             _ ← emit_op (arithOp ADD (kind_of (Promote t))); _ ← convert (Promote t) t; h) Q.
Proof.
  intros Kt Pk Hh. eapply steady_ext; [|eapply (steady_bind _ _ (fun _ => h)); [by apply (step_adds sl k t kind)|intros [] c Hc; by apply Hh]].
  intros e. unfold mbind, Emit_bind. destruct (convert _ _ e) as [? e1| |]; [|done..]. destruct (pushOne _ _ e1) as [? e2| |]; [|done..].
  by destruct (emit_op _ e2).
Qed.

Lemma iinc_computes sl r v s n d : r !! v = Some (Some (VInt n)) -> kind_of_var v = KindInt -> at_slot sl v s ->
  computes sl r [CodeWriter.CIinc s d] (<[v := Some (VInt (wrap 32 (n + d)))]> r) [] [].
Proof.
  intros Hr Hk Hs Hl. split; [apply live_store; eauto|]. intros stk loc Hh. exists (store_word s (WInt (wrap 32 (n + d))) loc). split.
  - destruct (Hh _ _ Hr) as (_ & s' & x' & Hs' & Hx' & Hlx). unfold at_slot in Hs. rewrite Hs in Hs'. injection Hs' as <-. injection Hx' as <-.
    cbn [exec exec1 app]. by rewrite Hlx.
  - eapply holds_store; eauto. by rewrite Hk.
Qed.

Lemma step_var_spec x kind r a b r' : step_var x kind r = Some (a, b, r') -> exists v, target_of x = Some v /\ read r v = Some a /\
  step_value kind (kind_of_var v) a = Some b /\ is_Some (r !! v) /\ r' = <[v := Some b]> r.
Proof.
  unfold step_var. destruct (target_of x) as [v|]; [|done]. cbn. destruct (read r v) as [a'|] eqn:Er; [|done]. cbn.
  destruct (step_value _ _ a') as [b'|] eqn:Eb; [|done]. cbn. destruct (assign_to v b' r) as [r1|] eqn:Ea; [|done].
  intros [= -> -> ->]. apply assign_to_spec in Ea as [Hv ->]. exists v. done.
Qed.

Lemma incdec_steady sl x kind value postfix : step_target x = true ->
  steady sl (incdec x kind value postfix) (fun _ c => forall r a b r', step_var x kind r = Some (a, b, r') ->
    exists y, word_of (if postfix then a else b) = Some y /\ computes sl r c r' [] (kept value y)).
Proof.
  unfold step_target. destruct (target_of x) as [v|] eqn:Et; [|done]. intros [Pv Kx%bool_decide_eq_true_1]%andb_true_iff. unfold incdec. set (delta := if kind =? DEC then -1 else 1).
  apply (steady_bind _ _ _ (fun o c => c = [] /\ match o with Some v' => v' = v /\ kind_of_var v = KindInt | None => True end)).
  { apply simpleIntLocal_steady; [done|]. intros v'. rewrite Et. intros [= <-] Hk. done. }
  intros o c [-> Ho]. cbn [app]. destruct o as [v'|].
  - destruct Ho as [-> Hk]. apply (steady_bind _ _ _ (fun s c => c = [] /\ at_slot sl v s)); [apply slot_steady; done|]. intros s c [-> Hs]. cbn [app].
    apply (steady_bind _ _ _ (fun _ c => c = if value && postfix then [CodeWriter.CLoad CodeWriter.TI s] else [])).
    { destruct (value && postfix); [by apply steady_call|by apply steady_ret]. }
    intros [] c1 ->. apply (steady_bind _ _ _ (fun _ c => c = [CodeWriter.CIinc s delta])); [by apply steady_call|]. intros [] c2 ->.
    apply (steady_imp _ _ (fun _ c => c = if value && negb postfix then [CodeWriter.CLoad CodeWriter.TI s] else [])).
    { destruct (value && negb postfix); [by apply steady_call|by apply steady_ret]. }
    intros [] c3 -> r a b r' Hst. apply step_var_spec in Hst as (v' & Et' & Hr & Hb & Hv & ->). rewrite Et in Et'. injection Et' as <-.
    destruct (load_computes sl _ _ _ _ Hr Hs) as (xa & Hxa & Ta & Ca). rewrite Hk in Hb, Ta. destruct a as [n|?|?|?|?|?]; try discriminate.
    assert (Hw : b = VInt (wrap 32 (n + delta))).
    { revert Hb. unfold step_value, conv, delta. cbn. intros [= <-]. do 2 f_equal. destruct (kind =? DEC); lia. }
    subst b. injection Hxa as <-. set (r1 := <[v := Some (VInt (wrap 32 (n + delta)))]> r).
    assert (Hr1 : read r1 v = Some (VInt (wrap 32 (n + delta)))) by (unfold read, r1; rewrite lookup_insert_eq; cbn; by rewrite Hk).
    assert (Ra : r !! v = Some (Some (VInt n))).
    { revert Hr. unfold read. destruct (r !! v) as [[u|]|]; try done. cbn. destruct (typed _ u); [by intros [= ->]|done]. }
    destruct (load_computes sl _ _ _ _ Hr1 Hs) as (xb & Hxb & _ & Cb). injection Hxb as <-.
    assert (Lt : local_type_of (FieldType v) = CodeWriter.TI) by (rewrite local_type_kind; unfold kind_of_var in Hk; by rewrite Hk).
    rewrite Lt in Ca, Cb. pose proof (iinc_computes _ _ _ _ _ delta Ra Hk Hs) as Ci. fold r1 in Ci.
    exists (WInt (if postfix then n else wrap 32 (n + delta))). split; [by destruct postfix|]. destruct value, postfix; cbn [andb negb kept].
    + eapply computes_app; [exact Ca|]. rewrite app_nil_r. by apply (computes_frame _ _ _ _ [] []).
    + eapply computes_app; [apply computes_nil|]. by eapply computes_app.
    + eapply computes_app; [apply computes_nil|]. by rewrite app_nil_r.
    + eapply computes_app; [apply computes_nil|]. by rewrite app_nil_r.
  - apply (steady_bind _ _ _ (fun it c => c = [] /\ exists s, it = localItem s (FieldType v) /\ at_slot sl v s)).
    { eapply lvalue_steady; [exact Et|]. eauto. }
    intros it c (-> & s & -> & Hs). cbn [app]. apply (steady_bind _ _ _ (fun _ c => c = [])); [by apply steady_ret|]. intros [] c0 ->. cbn [app load].
    apply (steady_bind _ _ _ (fun _ c => c = [CodeWriter.CLoad (local_type_of (FieldType v)) s])); [by apply steady_call|]. intros [] c1 ->.
    apply (steady_bind _ _ _ (fun _ c => forall r w y, typed (kind_of_var v) w = true -> word_of w = Some y -> computes sl r c r [y] (y :: kept (value && postfix) y))).
    { destruct (value && postfix); cbn [when stash kept].
      - apply steady_call; [done|]. intros r w y Ht Hy. by eapply dup_computes.
      - apply steady_ret. intros r w y _ _. apply computes_nil. }
    intros [] c2 H2'. apply (step_adds_then sl (kind_of_var v) _ kind); [done..|].
    intros c3 H3'. eapply steady_imp; [by apply stash_store|]. intros [] c4 H4' r a b r' Hst.
    apply step_var_spec in Hst as (v' & Et' & Hr & Hb & Hv & ->). rewrite Et in Et'. injection Et' as <-.
    destruct (load_computes sl _ _ _ _ Hr Hs) as (xa & Hxa & Ta & Ca). destruct (H3' r _ _ _ Hb Hxa) as (xb & Hxb & Tb & Cb).
    exists (if postfix then xa else xb). split; [by destruct postfix|]. eapply computes_app; [exact Ca|]. eapply computes_app; [exact (H2' _ _ _ Ta Hxa)|].
    eapply computes_app; [apply (computes_frame _ _ _ _ [xa] [xb] (kept (value && postfix) xa)); exact Cb|].
    replace (kept value (if postfix then xa else xb)) with (kept (value && negb postfix) xb ++ kept (value && postfix) xa) by (by destruct value, postfix).
    apply (computes_frame _ _ _ _ [xb]). by eapply H4'.
Qed.

(** *** Every expression *)

Lemma loadVar_ok v : vKind (varSym v) <> VarField -> captureOf v = None -> forall sl, steady sl (loadVar v) (fun _ c => forall r w, read r v = Some w ->
  exists y, word_of w = Some y /\ computes sl r c r [] [y]).
Proof.
  intros Hk Hc sl. unfold loadVar. rewrite Hc. assert (Hl : steady sl (b ← slots_has v; if b : bool then slot ← slot_of v; loadLocal slot (FieldType v) else bug)
    (fun _ c => forall r w, read r v = Some w -> exists y, word_of w = Some y /\ computes sl r c r [] [y])).
  { eapply (steady_bind _ _ _ (fun _ c => c = [])); [intros lo e _ _ Ha; by apply gives_get|]. intros [] c ->; [|apply steady_bug].
    apply (steady_bind _ _ _ (fun s c => c = [] /\ at_slot sl v s)); [apply slot_steady; done|]. intros s c [-> Hs]. apply steady_call; [done|].
    intros r w Hr. destruct (load_computes sl _ _ _ _ Hr Hs) as (y & Hy & _ & Cy). eauto. }
  destruct (vKind (varSym v)); done.
Qed.

Lemma name_ok x v : local_of (key x) = Some v -> (forall r, eval x r = (w ← read r v; Some (w, r))) -> expr_ok (name_ x) x.
Proof.
  intros Hv Hev sl. apply local_of_spec in Hv as (Hu & Hk & Hc). unfold name_. unfold use_var in Hu. destruct (Use (key x)) as [[u| | |]|]; try done.
  injection Hu as ->. eapply steady_imp; [by apply loadVar_ok|]. intros [] c H' r w r' Ew. rewrite Hev in Ew.
  destruct (read r v) as [u|] eqn:Er; [|done]. injection Ew as <- <-. by apply H'.
Qed.

Lemma constant_ok k v x : cValue k = Some v -> typed (kind_at x) v = true -> (forall r, eval x r = Some (v, r)) ->
  exists m, constant_value k = Some m /\ expr_ok m x.
Proof.
  intros Hv Ht Hev. unfold constant_value. rewrite Hv. destruct v; try (destruct (kind_at x); discriminate); eexists; (split; [reflexivity|]);
    intros sl; (apply steady_call; [done|]); intros r w r' Ew; rewrite Hev in Ew; injection Ew as <- <-; eexists; (split; [reflexivity|]);
    by apply computes_pure.
Qed.

Lemma unary_ok sp op p X : let x := UnaryExpr sp op p X in simple x = true -> ConstAt x ≫= cValue = None -> expr_ok (unary x op X) x.
Proof.
  intros x Hx Hk sl. pose proof (simple_prim _ Hx) as Px. pose proof Hx as Hs. unfold x in Hs. cbn [simple] in Hs. fold x in Hs. rewrite Hk in Hs.
  apply andb_true_iff in Hs as [_ Hs]. unfold unary. destruct (op =? NOT) eqn:En.
  { apply Z.eqb_eq in En as ->. change ((NOT =? INC) || (NOT =? DEC)) with false in Hs. cbv iota in Hs. apply andb_true_iff in Hs as [_ Hb].
    cbn [negb orb] in Hb. apply andb_true_iff in Hb as [_ Hb]. apply condValue_ok; [apply cond_all; [done|by apply boolean_kind]|].
    intros r w r'. unfold x. cbn [eval]. fold x. rewrite Hk. change ((NOT =? INC) || (NOT =? DEC)) with false. change (NOT =? NOT) with true. cbv iota.
    destruct (eval X r) as [[u r1]|]; [|done]. cbn. destruct u; try done. intros [= <- <-]. eauto. }
  assert (Hpre : (op =? INC) || (op =? DEC) = false -> simple X = true) by (intros Ei; rewrite Ei in Hs; by apply andb_true_iff in Hs as [Hs _]).
  assert (Hev : (op =? INC) || (op =? DEC) = false -> forall r w r', eval x r = Some (w, r') -> exists a u, eval X r = Some (a, r') /\
      conv (kind_at X) (kind_at x) a = Some u /\ (kind_at x = KindInt \/ kind_at x = KindLong) /\ unary_value op (kind_at X) a = Some w /\ promoted (kind_at X) = Some (kind_at x)).
  { intros Ei r w r'. unfold x. cbn [eval]. fold x. rewrite Hk, Ei, En. destruct (eval X r) as [[a r1]|]; [|done]. cbn [mbind option_bind fst snd].
    case_bool_decide as Hp; [|done]. destruct (unary_value _ _ a) as [u|] eqn:Eu; [|done]. cbn. intros [= <- <-].
    pose proof Eu as Eu'. unfold unary_value in Eu'. rewrite Hp in Eu'. cbn [mbind option_bind] in Eu'.
    destruct (conv _ _ a) as [b|] eqn:Eb; [|done]. exists a, b. split_and!; [done..|by eapply promoted_kind|done|done]. }
  assert (Hu : forall a u w, promoted (kind_at X) = Some (kind_at x) -> conv (kind_at X) (kind_at x) a = Some u -> unary_value op (kind_at X) a = Some w ->
      (if op =? ADD then Some u else if op =? SUB then match u with VInt a => Some (VInt (wrap 32 (- a))) | VLong a => Some (VLong (wrap 64 (- a))) | _ => None end
       else if op =? TILDE then match u with VInt a => Some (VInt (Z.lnot a)) | VLong a => Some (VLong (Z.lnot a)) | _ => None end else None) = Some w).
  { intros a u w Hp Hc. unfold unary_value. rewrite Hp. cbn [mbind option_bind]. rewrite Hc. done. }
  destruct (op =? ADD) eqn:Ea; [|destruct (op =? SUB) eqn:Es; [|destruct (op =? TILDE) eqn:Et]].
  - assert (Ei : (op =? INC) || (op =? DEC) = false) by (by apply Z.eqb_eq in Ea as ->). eapply steady_imp; [apply (exprAs_ok _ X (Type_ x)); auto|].
    intros [] c Hc r w r' Ew. destruct (Hev Ei _ _ _ Ew) as (a & u & EX & Ec & Hk' & Hw & Hp). pose proof (Hu _ _ _ Hp Ec Hw) as Hw'. injection Hw' as ->.
    destruct (conv_typed _ _ _ _ Ec (simple_prim _ (Hpre Ei)) Px) as [_ Tw]. destruct (typed_word _ _ Tw) as [y Hy]. exists y. split; [done|].
    eapply Hc; [exact EX|]. change (kind_of (Type_ x)) with (kind_at x). by rewrite (stacked_of_conv _ _ _ _ Ec).
  - assert (Ei : (op =? INC) || (op =? DEC) = false) by (by apply Z.eqb_eq in Es as ->). eapply steady_bind; [apply (exprAs_ok _ X (Type_ x)); auto|].
    intros [] c Hc. apply steady_call; [done|]. intros r w r' Ew. destruct (Hev Ei _ _ _ Ew) as (a & u & EX & Ec & Hk' & Hw & Hp). pose proof (Hu _ _ _ Hp Ec Hw) as Hw'.
    assert (Sx : forall z, word_of u = Some z -> computes sl r c r' [] [z]).
    { intros z Hz. eapply Hc; [exact EX|]. change (kind_of (Type_ x)) with (kind_at x). by rewrite (stacked_of_conv _ _ _ _ Ec). }
    change (kind_of (Type_ x)) with (kind_at x). destruct Hk' as [Hk'|Hk']; rewrite Hk' in Ec |- *.
    + apply conv_int in Ec as [n ->]. injection Hw' as <-. eexists. split; [reflexivity|]. eapply computes_app; [by apply Sx|]. by apply computes_pure.
    + apply conv_long in Ec as [n ->]. injection Hw' as <-. eexists. split; [reflexivity|]. eapply computes_app; [by apply Sx|]. by apply computes_pure.
  - assert (Ei : (op =? INC) || (op =? DEC) = false) by (by apply Z.eqb_eq in Et as ->). eapply steady_bind; [apply (exprAs_ok _ X (Type_ x)); auto|].
    intros [] c Hc. change (kind_of (Type_ x)) with (kind_at x).
    apply (steady_imp _ _ (fun _ d => (kind_at x = KindInt -> d = [CodeWriter.CIconst (-1); CodeWriter.COp Op.Ixor]) /\
      (kind_at x = KindLong -> d = [CodeWriter.CLconst (-1); CodeWriter.COp Op.Lxor]))).
    { case_bool_decide as Hl; (eapply (steady_bind _ _ _ (fun _ d => d = [_])); [by apply steady_call|]); intros [] d ->; (apply steady_call; [done|]); rewrite ?Hl;
        split; intros; done. }
    intros [] d [Di Dl] r w r' Ew. destruct (Hev Ei _ _ _ Ew) as (a & u & EX & Ec & Hk' & Hw & Hp). pose proof (Hu _ _ _ Hp Ec Hw) as Hw'.
    assert (Sx : forall z, word_of u = Some z -> computes sl r c r' [] [z]).
    { intros z Hz. eapply Hc; [exact EX|]. change (kind_of (Type_ x)) with (kind_at x). by rewrite (stacked_of_conv _ _ _ _ Ec). }
    destruct Hk' as [Hk'|Hk']; rewrite Hk' in Ec.
    + apply conv_int in Ec as [n ->]. injection Hw' as <-. eexists. split; [reflexivity|]. eapply computes_app; [by apply Sx|]. rewrite (Di Hk').
      apply computes_pure. intros stk loc. cbn. by rewrite Z.lxor_m1_r.
    + apply conv_long in Ec as [n ->]. injection Hw' as <-. eexists. split; [reflexivity|]. eapply computes_app; [by apply Sx|]. rewrite (Dl Hk').
      apply computes_pure. intros stk loc. cbn. by rewrite Z.lxor_m1_r.
  - destruct ((op =? INC) || (op =? DEC)) eqn:Ei; [|apply steady_bug]. eapply steady_imp; [by apply incdec_steady|]. intros [] c Hc r w r'.
    unfold x. cbn [eval]. fold x. rewrite Hk, Ei. destruct (step_var X op r) as [[[a b] r1]|] eqn:Est; [|done]. cbn. intros [= <- <-].
    destruct (Hc _ _ _ _ Est) as (y & Hy & Cy). by exists y.
Qed.

Lemma binary_is_bool sp X op p q Y r w r' : ConstAt (BinaryExpr sp X op p q Y) ≫= cValue = None -> (op =? LAND) || (op =? LOR) || is_comparison op = true ->
  eval (BinaryExpr sp X op p q Y) r = Some (w, r') -> exists b, w = VBool b.
Proof.
  intros Hk Ho. cbn [eval]. rewrite Hk. destruct (eval X r) as [[a r1]|]; [|done]. cbn [mbind option_bind fst snd].
  destruct (op =? LAND); [|destruct (op =? LOR)].
  - destruct a as [| | | | |[]]; try done; [|intros [= <- <-]; eauto]. destruct (eval Y r1) as [[a' r2]|]; [|done]. cbn.
    destruct a'; try done. intros [= <- <-]. eauto.
  - destruct a as [| | | | |[]]; try done; [intros [= <- <-]; eauto|]. destruct (eval Y r1) as [[a' r2]|]; [|done]. cbn.
    destruct a'; try done. intros [= <- <-]. eauto.
  - cbn [orb] in Ho. rewrite Ho. destruct (eval Y r1) as [[a' r2]|]; [|done]. cbn. destruct (compare_value _ _ _ _ _); [|done]. intros [= <- <-]. eauto.
Qed.

Lemma binary_ok sp X op p q Y : let x := BinaryExpr sp X op p q Y in simple x = true -> ConstAt x ≫= cValue = None -> expr_ok (binary x X op Y) x.
Proof.
  intros x Hx Hk sl. pose proof (simple_prim _ Hx) as Px. pose proof Hx as Hs. unfold x in Hs. cbn [simple] in Hs. fold x in Hs. rewrite Hk in Hs.
  rewrite !andb_true_iff in Hs. destruct Hs as [_ [[[HX HY] _] Hb]]. unfold binary.
  destruct ((op =? LAND) || (op =? LOR) || is_comparison op) eqn:Eb.
  { cbn [negb orb] in Hb. apply condValue_ok; [apply cond_all; [done|by apply boolean_kind]|]. intros r w r'. by apply binary_is_bool. }
  unfold isConcat. rewrite (prim_not_string _ Px), andb_false_r. rewrite !orb_false_iff in Eb. destruct Eb as [[Ea Eo] Ec].
  assert (Hev : forall r w r', eval x r = Some (w, r') -> exists a r1 b, eval X r = Some (a, r1) /\ eval Y r1 = Some (b, r') /\
    if is_shift op then promoted (kind_at X) = Some (kind_at x) /\ shift_value op (kind_at X) (kind_at Y) a b = Some w
    else binary_value op (kind_at X) (kind_at Y) a b = Some w).
  { intros r w r'. unfold x. cbn [eval]. fold x. rewrite Hk. destruct (eval X r) as [[a r1]|]; [|done]. cbn [mbind option_bind fst snd].
    rewrite Ea, Eo, Ec. destruct (eval Y r1) as [[b r2]|] eqn:EY; [|done]. cbn [mbind option_bind fst snd]. destruct (is_shift op).
    - case_bool_decide as Hp; [|done]. destruct (shift_value _ _ _ a b) as [u|] eqn:Eu; [|done]. intros [= <- <-]. eauto 10.
    - destruct (binary_value _ _ _ a b) as [u|] eqn:Eu; [|done]. intros [= <- <-]. eauto 10. }
  destruct (is_shift op) eqn:Es.
  - eapply steady_bind; [by apply (exprAs_ok _ X (Type_ x))|]. intros [] c1 H1'. eapply steady_bind; [by apply (exprAs_ok _ Y Int_)|]. intros [] c2 H2'.
    eapply steady_imp; [apply shift_steady|]. intros [] c3 H3' r w r' Ew. destruct (Hev _ _ _ Ew) as (a & r1 & b & EX & EY & Hp & Hv).
    destruct (shift_words op (Type_ X) (kind_at x) (a, b) (kind_at Y) w Hp Hv) as (wx & y & d & Sx & Sy & Hd & Hn). cbn [fst snd] in Sx, Sy.
    pose proof (yields_two sl X Y _ _ _ _ _ _ _ _ _ _ _ H1' H2' EX EY Sx Sy) as C. destruct (H3' Es) as [Si Sl].
    destruct Hn as [(i & n & Ki & -> & -> & Hj)|(i & n & Ki & -> & -> & Hj)]; eexists; (split; [reflexivity|]); rewrite app_assoc;
      (eapply computes_app; [exact C|]); [by eapply Si|by eapply Sl].
  - set (p0 := PromoteBinary (Type_ X) (Type_ Y)). assert (Pp : IsPrimitive (kind_of p0) = true) by apply promote_binary_prim.
    eapply steady_bind; [by apply (exprAs_ok _ X p0)|]. intros [] c1 H1'. eapply steady_bind; [by apply (exprAs_ok _ Y p0)|]. intros [] c2 H2'.
    eapply steady_imp; [apply arith_steady|]. intros [] c3 H3' r w r' Ew. destruct (Hev _ _ _ Ew) as (a & r1 & b & EX & EY & Hv).
    apply (binary_words op (Type_ X) (Type_ Y)) in Hv as (wx & wy & Sx & Sy & Hd).
    destruct (operates_combined _ _ _ _ _ _ _ H3' Es Hd) as (z & Hz & Cz). exists z. split; [done|]. rewrite app_assoc.
    eapply computes_app; [|apply Cz]. by eapply (yields_two sl X Y).
Qed.

Lemma expr_node_ok x : simple x = true -> ConstAt x ≫= cValue = None -> expr_ok (expr_node x) x.
Proof.
  intros Hx Hk. pose proof (simple_prim _ Hx) as Px. destruct x; try (cbn [simple] in Hx; rewrite Hk, andb_false_r in Hx; discriminate).
  - pose proof Hx as Hs. cbn [simple] in Hs. rewrite Hk in Hs. apply andb_true_iff in Hs as [_ Hs]. destruct (local_of _) as [v|] eqn:Ev; [|done].
    apply (name_ok _ v Ev). intros r. cbn [eval]. rewrite Hk, Ev. done.
  - pose proof Hx as Hs. cbn [simple] in Hs. rewrite Hk in Hs. apply andb_true_iff in Hs as [_ Hs]. destruct (local_of _) as [v|] eqn:Ev; [|done].
    apply (name_ok _ v Ev). intros r. cbn [eval]. rewrite Hk, Ev. done.
  - intros sl. cbn [simple] in Hx. rewrite Hk in Hx. rewrite !andb_true_iff in Hx. destruct Hx as [_ [HX _]].
    eapply steady_imp; [by apply rec_ok|]. intros [] c Hc r w r' Ew. cbn [eval] in Ew. rewrite Hk in Ew. by apply Hc.
  - by apply unary_ok.
  - intros sl. cbn [simple] in Hx. rewrite Hk in Hx. apply andb_true_iff in Hx as [_ HX].
    eapply steady_imp; [by apply incdec_steady|]. intros [] c Hc r w r' Ew. cbn [eval] in Ew. rewrite Hk in Ew.
    destruct (step_var x Op r) as [[[a b] r1]|] eqn:Est; [|done]. cbn in Ew. injection Ew as <- <-. by apply (Hc _ _ _ _ Est).
  - by apply binary_ok.
  - cbn [simple] in Hx. rewrite Hk in Hx. rewrite !andb_true_iff in Hx. destruct Hx as [_ [[[HC KC] HX] HY]].
    apply condExpr_ok; try done. intros r w r' Ew. cbn [eval] in Ew. rewrite Hk in Ew.
    destruct (eval x1 r) as [[c r1]|]; [|done]. cbn [mbind option_bind fst snd] in Ew. destruct c as [| | | | |b]; try done.
    destruct b; [destruct (eval x2 r1) as [[a r2]|] eqn:EA; [|done]|destruct (eval x3 r1) as [[a r2]|] eqn:EA; [|done]];
      cbn [mbind option_bind fst snd] in Ew; destruct (conv _ _ a) as [u|] eqn:Eu; try done; injection Ew as <- <-; [exists true|exists false];
      exists r1, a; done.
  - intros sl. pose proof Hx as Hs. cbn [simple] in Hs. rewrite Hk in Hs. rewrite !andb_true_iff in Hs. destruct Hs as [_ [HL HR]].
    exact (assign_steady sl _ _ _ _ _ _ true HL HR Hk).
  - intros sl. pose proof Hx as Hs. cbn [simple] in Hs. rewrite Hk in Hs. apply andb_true_iff in Hs as [_ HX]. cbn [expr_node].
    set (y := CastExpr _ _ _ _ _ _) in *. eapply steady_imp; [by apply (exprAs_ok sl x (Type_ y))|]. intros [] c Hc r w r' Ew.
    unfold y in Ew. cbn [eval] in Ew. fold y in Ew. rewrite Hk in Ew. destruct (eval x r) as [[a r1]|] eqn:EX; [|done]. cbn [mbind option_bind fst snd] in Ew. destruct (conv _ _ a) as [u|] eqn:Eu; [|done].
    injection Ew as <- <-. destruct (conv_typed _ _ _ _ Eu (simple_prim _ HX) Px) as [_ Tu]. destruct (typed_word _ _ Tu) as [z Hz]. exists z.
    split; [done|]. eapply Hc; [exact EX|]. change (kind_of (Type_ y)) with (kind_at y). by rewrite (stacked_of_conv _ _ _ _ Eu).
Qed.

Lemma expr_all x : simple x = true -> expr_ok (expr x) x.
Proof.
  intros Hx. unfold expr. destruct (ConstAt x ≫= cValue) as [v|] eqn:Hv.
  - pose proof (simple_const _ _ Hx Hv) as Ht. destruct (ConstAt x) as [k|] eqn:Ek; [|done]. cbn [mbind option_bind] in Hv |- *.
    destruct (constant_ok k v x Hv Ht) as (m & -> & Hm); [|exact Hm]. intros r. apply eval_const. by rewrite Ek.
  - replace (ConstAt x ≫= constant_value) with (@None (Emit unit)); [by apply expr_node_ok|].
    destruct (ConstAt x) as [k|]; [|done]. cbn in Hv |- *. unfold constant_value. by rewrite Hv.
Qed.
End Rec.

(** The knot. *)
Lemma emits_ok n x : simple x = true -> expr_ok (rExpr (Emits := emits n) x) x.
Proof.
  revert x. induction n as [|n IH]; intros x Hx; [intros sl; apply steady_spin|]. exact (expr_all (E := emits n) IH x Hx).
Qed.
(** The line of a statement. *)
Lemma line_ok lo p e u e' : line p e = Done u e' -> exists c, ran lo e e' c /\ alive e' = alive e /\ forall m, exec c m = Some m.
Proof.
  unfold line. destruct source as [f|]; [|intros [= _ <-]; exists []; split_and!; [apply ran_refl|done|done]].
  destruct (p =? NoPos); [intros [= _ <-]; exists []; split_and!; [apply ran_refl|done|done]|].
  destruct (_ && _); intros [= _ <-]; [|exists []; split_and!; [apply ran_refl|done|done]].
  exists [CodeWriter.CLine (Line (ResolvePos f p))]. split_and!; [|done|by intros []]. split; try done. repeat constructor.
Qed.
End Ok.
