(* ===== verification/LowerTotal.v ===== *)
(** * Checked bodies are emitted

    Where every name is that of a local declared before, and every operator
    has operands it is defined on, no emission of the fragment fails: none
    panics, and a level of [emits] for each level of the tree is enough. *)
From S2P Require Import Prelude.
From S2P Require Import Token SourceFile Ast AstWalk Types Fold Sym Emitter LowerExpr LowerStmt LowerKeeps LowerSem LowerExprOk.
From S2P Require CodeWriter Op.

Section Total.
Context `{Program, Site, Missing}.

(** ** What is checked *)

Definition integral (k : Types.Kind) : bool :=
  match k with KindBoolean | KindByte | KindShort | KindChar | KindInt | KindLong => true | _ => false end.

(** Both boolean, or neither. *)
Definition same_sort (k k' : Types.Kind) : bool := Bool.eqb (bool_decide (k = KindBoolean)) (bool_decide (k' = KindBoolean)).

Definition in_scope (l : list var) (v : var) : bool := bool_decide (v ∈ l) && integral (kind_of_var v).

Definition target_in (l : list var) (x : Expr) : bool := match target_of x with Some v => in_scope l v | None => false end.

(** An operator with an instruction for ints and longs; one for assignments. *)
Definition arith_op (k : Z) : bool :=
  (k =? ADD) || (k =? SUB) || (k =? MUL) || (k =? QUO) || (k =? REM) || (k =? AND) || (k =? OR) || (k =? XOR).
Definition assign_op (k : Z) : bool :=
  (k =? ADD_ASSIGN) || (k =? SUB_ASSIGN) || (k =? MUL_ASSIGN) || (k =? QUO_ASSIGN) || (k =? REM_ASSIGN) || (k =? AND_ASSIGN) ||
  (k =? OR_ASSIGN) || (k =? XOR_ASSIGN) || (k =? SHL_ASSIGN) || (k =? SHR_ASSIGN) || (k =? USHR_ASSIGN).

Fixpoint checked (l : list var) (x : Expr) : bool :=
  integral (kind_at x) &&
  match ConstAt x ≫= cValue with
  | Some _ => true
  | None =>
      match x with
      | ParenExpr _ _ X _ => checked l X
      | EIdent _ | EName _ => match local_of (key x) with Some v => in_scope l v | None => false end
      | UnaryExpr _ Op _ X =>
          if (Op =? INC) || (Op =? DEC) then target_in l X && integral (kind_at X)
          else checked l X && ((Op =? NOT) || ((Op =? ADD) || (Op =? SUB) || (Op =? TILDE)) && same_sort (kind_at X) (kind_at x))
      | PostfixExpr _ X _ _ => target_in l X && integral (kind_at X)
      | BinaryExpr _ X Op _ _ Y =>
          checked l X && checked l Y &&
          ((Op =? LAND) || (Op =? LOR) || is_comparison Op || is_shift Op && same_sort (kind_at X) (kind_at x) || arith_op Op)
      | CondExpr _ C _ X _ Y => checked l C && checked l X && checked l Y && same_sort (kind_at X) (kind_at x) && same_sort (kind_at Y) (kind_at x)
      | CastExpr _ _ _ _ _ X => checked l X && same_sort (kind_at X) (kind_at x)
      | AssignExpr _ LHS Op _ _ RHS =>
          match target_of LHS with
          | Some v => in_scope l v && checked l RHS && same_sort (kind_at RHS) (kind_of_var v) && ((Op =? ASSIGN) || assign_op Op)
          | None => false
          end
      | _ => false
      end
  end.

(** The levels of an expression. *)
Fixpoint height (x : Expr) : nat :=
  S match x with
    | ParenExpr _ _ X _ | UnaryExpr _ _ _ X | CastExpr _ _ _ _ _ X => height X
    | BinaryExpr _ X _ _ _ Y => Nat.max (height X) (height Y)
    | CondExpr _ C _ X _ Y => Nat.max (height C) (Nat.max (height X) (height Y))
    | AssignExpr _ _ _ _ _ RHS => height RHS
    | _ => O
    end.

(** ** Emissions that come to an end *)

(** The locals [l] have slots, and no finally block is open. *)
Definition knows (l : list var) (e : emitter) : Prop := Forall (fun v => is_Some (of_ (slots e) !! v)) l /\ finallys e = [].

Definition works {A} (l : list var) (m : Emit A) (P : A -> Prop) (l' : list var) : Prop := forall e, knows l e ->
  exists a e', m e = Done a e' /\ knows l' e' /\ P a.

Abbreviation fine l m := (works l m (fun _ => True) l).

Lemma works_bind {A B} l m (P : A -> Prop) l1 (k : A -> Emit B) (Q : B -> Prop) l2 :
  works l m P l1 -> (forall a, P a -> works l1 (k a) Q l2) -> works l (m ≫= k) Q l2.
Proof.
  intros Hm Hk e He. destruct (Hm e He) as (a & e1 & E1 & He1 & Pa). destruct (Hk a Pa e1 He1) as (b & e2 & E2 & He2 & Qb).
  exists b, e2. split; [|done]. unfold mbind, Emit_bind. by rewrite E1.
Qed.

Lemma fine_bind {A B} l (m : Emit A) (k : A -> Emit B) (Q : B -> Prop) l2 : fine l m -> (forall a, works l (k a) Q l2) -> works l (m ≫= k) Q l2.
Proof. intros Hm Hk. eapply works_bind; [exact Hm|auto]. Qed.

Lemma works_ret {A} l (a : A) (P : A -> Prop) : P a -> works l (mret a) P l.
Proof. intros Hp e He. exists a, e. done. Qed.

Lemma fine_call l x : fine l (call x).
Proof. intros e He. eexists _, _. split; [reflexivity|]. split; [exact He|done]. Qed.

Lemma fine_alive l b : fine l (put (set_alive b)).
Proof. intros e He. eexists _, _. split; [reflexivity|]. split; [exact He|done]. Qed.

Lemma fine_new l : fine l NewLabel.
Proof. intros e He. eexists _, _. split; [reflexivity|]. split; [exact He|done]. Qed.

Lemma fine_get {A} l (g : emitter -> A) : fine l (get g).
Proof. intros e He. eexists _, _. split; [reflexivity|]. split; [exact He|done]. Qed.

Lemma works_imp {A} l (m : Emit A) (P Q : A -> Prop) l' : works l m P l' -> (forall a, P a -> Q a) -> works l m Q l'.
Proof. intros Hm Hq e He. destruct (Hm e He) as (a & e' & Ee & He' & Pa). exists a, e'. auto. Qed.

Lemma fine_must {A} l (o : option A) (P : A -> Prop) a : o = Some a -> P a -> works l (must o) P l.
Proof. intros -> Hp. by apply works_ret. Qed.

Lemma fine_when l b m : fine l m -> fine l (when b m).
Proof. intros Hm. destruct b; [exact Hm|by apply works_ret]. Qed.

Lemma fine_slot l v : v ∈ l -> fine l (slot_of v).
Proof.
  intros Hv e He. unfold slot_of. pose proof (proj1 He) as Hk. rewrite Forall_forall in Hk. destruct (Hk v Hv) as [s Hs]. rewrite Hs. by exists s, e.
Qed.

(** Straight-line emissions. *)
Ltac fine_step :=
  first [ assumption | apply works_ret; exact I | apply fine_call | apply fine_alive | apply fine_new | apply fine_get
        | apply fine_bind; [|intros ?] | apply fine_when ].
Ltac fine := repeat fine_step.

(** ** Conversions and operators *)

Lemma fine_convert l from to : integral (kind_of from) = true -> integral (kind_of to) = true ->
  (kind_of to = KindBoolean -> kind_of from <> KindLong) -> fine l (convert from to).
Proof.
  intros Hf Ht Hn. unfold convert. destruct (kind_of from), (kind_of to); try discriminate; cbn; fine; by destruct (Hn eq_refl).
Qed.

Lemma same_sort_long k k' : same_sort k k' = true -> k' = KindBoolean -> k <> KindLong.
Proof. unfold same_sort. intros Hs ->. rewrite (bool_decide_eq_true_2 (KindBoolean = KindBoolean)) in Hs by done. intros ->. done. Qed.

Lemma promoted_integral t t' : integral (kind_of t) = true -> integral (kind_of t') = true ->
  kind_of (PromoteBinary t t') = KindInt \/ kind_of (PromoteBinary t t') = KindLong.
Proof. unfold PromoteBinary. destruct (kind_of t), (kind_of t'); try discriminate; cbn; auto. Qed.

Lemma fine_arith l op k : arith_op op = true -> (k = KindInt \/ k = KindLong \/ k = KindBoolean) -> fine l (emit_op (arithOp op k)).
Proof.
  intros Ho Hk. unfold emit_op. apply fine_bind; [|intros; apply fine_call]. revert Ho. unfold arith_op, arithOp.
  destruct Hk as [->|[->| ->]]; by_operator; intros Ho; fine; discriminate.
Qed.

Lemma fine_shift l op k : is_shift op = true -> fine l (emit_op (shiftOp op k)).
Proof.
  intros Ho. unfold emit_op. apply fine_bind; [|intros; apply fine_call]. revert Ho. unfold is_shift, shiftOp.
  by_operator; intros Ho; fine; discriminate.
Qed.

(** ** Expressions *)

Lemma checked_integral l x : checked l x = true -> integral (kind_at x) = true.
Proof. destruct x; cbn [checked]; intros [Hp _]%andb_true_iff; exact Hp. Qed.

Lemma integral_prim k : integral k = true -> IsPrimitive k = true.
Proof. by destruct k. Qed.

Section Rec.
Context {E : Emits} (n : nat).
Context (rec_fine : forall l x, simple x = true -> checked l x = true -> (height x <= n)%nat -> fine l (rExpr x)).

Lemma fine_exprAs l x want : simple x = true -> checked l x = true -> (height x <= n)%nat -> integral (kind_of want) = true ->
  (kind_of want = KindBoolean -> kind_at x <> KindLong) -> fine l (exprAs x want).
Proof.
  intros Hx Hc Hn Hw Hk. unfold exprAs. apply fine_bind; [by apply rec_fine|]. intros _. apply fine_convert; [by eapply checked_integral|done|done].
Qed.

Lemma fine_branchInts l k target : is_comparison k = true -> fine l (branchInts k target).
Proof. unfold is_comparison, branchInts, If. by_operator; intros Hk; fine; discriminate. Qed.

Lemma fine_branchZero l k target : is_comparison k = true -> fine l (branchAgainstZero k target).
Proof. unfold is_comparison, branchAgainstZero, If. by_operator; intros Hk; fine; discriminate. Qed.

Lemma works_invert l k : is_comparison k = true -> works l (LowerExpr.invert k) (fun k' => is_comparison k' = true) l.
Proof. unfold is_comparison at 1, LowerExpr.invert. by_operator; intros Hk; try (by apply works_ret); discriminate. Qed.

Lemma fine_compare l X Y op target w : simple X = true -> simple Y = true -> checked l X = true -> checked l Y = true ->
  (height X <= n)%nat -> (height Y <= n)%nat -> is_comparison op = true -> fine l (compare X Y op target w).
Proof.
  intros HX HY CX CY NX NY Ho. pose proof (checked_integral _ _ CX) as IX. pose proof (checked_integral _ _ CY) as IY. unfold compare.
  rewrite (prim_not_reference (Type_ X)) by (by apply integral_prim). cbn [andb]. set (p := PromoteBinary (Type_ X) (Type_ Y)).
  assert (Kp : kind_of p = KindInt \/ kind_of p = KindLong) by (by apply promoted_integral).
  assert (Ip : integral (kind_of p) = true /\ kind_of p <> KindBoolean) by (by destruct Kp as [->| ->]). destruct Ip as [Ip Np].
  apply fine_bind; [by apply rec_fine|]. intros _. apply fine_bind; [by apply fine_convert|]. intros _.
  apply fine_bind; [by apply rec_fine|]. intros _. apply fine_bind; [by apply fine_convert|]. intros _.
  eapply (works_bind _ _ (fun k => is_comparison k = true)); [destruct w; [by apply works_ret|by apply works_invert]|]. intros k Hk.
  destruct Kp as [->| ->]; [by apply fine_branchInts|]. cbn. fine. by apply fine_branchZero.
Qed.

Lemma fine_cond_test l x target w : fine l (rExpr x) -> fine l (cond_value_test x target w).
Proof. intros Hx. unfold cond_value_test, branchZero, If. fine. Qed.

Lemma fine_and l f g target w : (forall t b, fine l (f t b)) -> (forall t b, fine l (g t b)) -> fine l (condAnd f g target w).
Proof. intros Hf Hg. unfold condAnd, Mark. destruct w; fine; auto. Qed.

Lemma fine_or l f g target w : (forall t b, fine l (f t b)) -> (forall t b, fine l (g t b)) -> fine l (condOr f g target w).
Proof. intros Hf Hg. unfold condOr, Mark. destruct w; fine; auto. Qed.

Lemma fine_cond l x target w : simple x = true -> checked l x = true -> kind_at x = KindBoolean -> (height x <= n)%nat -> fine l (cond x target w).
Proof.
  revert x target w. fix IH 1. intros x target w Hx Hc Hk Hn. pose proof (fine_cond_test l x target w (rec_fine l x Hx Hc Hn)) as Htest.
  destruct (const_cases x Hx Hk) as [(b & Hb & Hv)|[Hb Hv]].
  { assert (Hg : fine l (if Bool.eqb b w then Goto target else mret tt)) by (unfold Goto; destruct (Bool.eqb b w); fine).
    destruct x; cbn [cond]; by rewrite Hb. }
  destruct x; try (cbn [cond]; rewrite Hb; exact Htest); cbn [simple] in Hx; cbn [checked] in Hc; rewrite Hv in Hx, Hc;
    apply andb_true_iff in Hx as [_ Hx]; apply andb_true_iff in Hc as [_ Hc]; cbn [height] in Hn; cbn [cond]; rewrite ?Hb; try done.
  - apply andb_true_iff in Hx as [HX HK]. apply bool_decide_eq_true_1 in HK. apply IH; [done|done|congruence|lia].
  - destruct (Op =? NOT) eqn:En; [|exact Htest]. apply Z.eqb_eq in En as ->. change ((NOT =? INC) || (NOT =? DEC)) with false in Hx, Hc.
    cbv iota in Hx, Hc. apply andb_true_iff in Hx as [HX HK]. apply andb_true_iff in Hc as [HC _]. cbn [negb orb] in HK. apply andb_true_iff in HK as [HK _].
    apply IH; [done|done|by apply boolean_kind|lia].
  - rewrite !andb_true_iff in Hx. rewrite !andb_true_iff in Hc. destruct Hx as [[[HX HY] HK] _]. destruct Hc as [[CX CY] _].
    destruct (Op =? LAND); [|destruct (Op =? LOR); [|destruct (is_comparison Op) eqn:Ec; [|exact Htest]]].
    + cbn [orb negb] in HK. apply andb_true_iff in HK as [KX KY]. apply fine_and; intros t b; apply IH; first [done | by apply boolean_kind | lia].
    + cbn [orb negb] in HK. apply andb_true_iff in HK as [KX KY]. apply fine_or; intros t b; apply IH; first [done | by apply boolean_kind | lia].
    + apply fine_compare; first [done | lia].
Qed.

Lemma fine_condValue l x : (forall t w, fine l (cond x t w)) -> fine l (condValue x).
Proof. intros Hc. unfold condValue, Goto, Mark, Iconst. fine. apply Hc. Qed.

(** *** Locals *)

Lemma in_scope_spec l v : in_scope l v = true -> v ∈ l /\ integral (kind_of_var v) = true.
Proof. unfold in_scope. intros [Hv Hi]%andb_true_iff. by apply bool_decide_eq_true_1 in Hv. Qed.

Lemma works_item l v : v ∈ l -> vKind (varSym v) <> VarField -> works l (itemFor v) (fun it => exists s, it = localItem s (FieldType v)) l.
Proof.
  intros Hv Hk. unfold itemFor. destruct (vKind (varSym v)); try done; (apply fine_bind; [by apply fine_slot|]; intros s; apply works_ret; eauto).
Qed.

Lemma works_lvalue l x v : target_of x = Some v -> v ∈ l -> works l (lvalue x) (fun it => exists s, it = localItem s (FieldType v)) l.
Proof.
  intros Ht Hl. assert (Hn : forall m, local_of m = Some v -> works l (u ← must (use_var m);
      _ ← when (bool_decide (vKind (varSym u) = VarField) && negb (is_static_var u)) (loadEnclosing (vClass (varSym u))); itemFor u)
      (fun it => exists s, it = localItem s (FieldType v)) l).
  { intros m Hv. apply local_of_spec in Hv as (Hu & Hk & _). rewrite Hu. eapply (works_bind _ _ (fun u => u = v)); [by apply works_ret|]. intros u ->.
    rewrite bool_decide_eq_false_2 by done. cbn [andb when]. apply fine_bind; [by apply works_ret|]. intros _. by apply works_item. }
  revert x Ht. fix IH 1. intros x Ht. destruct x; cbn [target_of] in Ht; try discriminate; cbn [lvalue]; [by apply Hn..|by apply IH].
Qed.

Lemma fine_local l v : v ∈ l -> vKind (varSym v) <> VarField -> captureOf v = None -> fine l (loadVar v).
Proof.
  intros Hv Hk Hc. unfold loadVar. rewrite Hc. assert (Hl : fine l (b ← slots_has v; if b : bool then slot ← slot_of v; loadLocal slot (FieldType v) else bug)).
  { eapply (works_bind _ _ (fun b => b = true)).
    - intros e He. exists true, e. split_and!; [|done|done]. unfold slots_has, get, has. do 2 f_equal. apply bool_decide_eq_true_2.
      pose proof (proj1 He) as Hf. rewrite Forall_forall in Hf. by apply Hf.
    - intros b ->. unfold loadLocal. fine. by apply fine_slot. }
  destruct (vKind (varSym v)); done.
Qed.

Lemma fine_name l x v : local_of (key x) = Some v -> v ∈ l -> fine l (name_ x).
Proof.
  intros Hv Hl. apply local_of_spec in Hv as (Hu & Hk & Hc). unfold name_. unfold use_var in Hu. destruct (Use (key x)) as [[u| | |]|]; try done.
  injection Hu as ->. by apply fine_local.
Qed.

(** *** Assignments *)

Lemma works_compoundOp l Op : assign_op Op = true -> works l (compoundOp Op) (fun b => is_shift b = true \/ arith_op b = true) l.
Proof. unfold assign_op, compoundOp. by_operator; intros Ho; try (apply works_ret; by auto); discriminate. Qed.

Lemma fine_compound l v Op RHS : integral (kind_of_var v) = true -> simple RHS = true -> checked l RHS = true -> (height RHS <= n)%nat ->
  same_sort (kind_at RHS) (kind_of_var v) = true -> assign_op Op = true -> fine l (compound (FieldType v) Op RHS).
Proof.
  intros Iv HR CR NR Hs Ho. pose proof (checked_integral _ _ CR) as IR. unfold compound. eapply works_bind; [by apply works_compoundOp|]. intros b Hb.
  destruct (is_shift b) eqn:Es; [apply fine_bind; [by apply fine_exprAs|intros _; by apply fine_shift]|].
  rewrite (prim_not_string (FieldType v)), andb_false_r by (by apply integral_prim). destruct Hb as [?|Hb]; [congruence|].
  set (p := PromoteBinary (FieldType v) (Type_ RHS)). assert (Kp : kind_of p = KindInt \/ kind_of p = KindLong) by (by apply promoted_integral).
  assert (Ip : integral (kind_of p) = true /\ kind_of p <> KindBoolean) by (by destruct Kp as [->| ->]). destruct Ip as [Ip Np].
  apply fine_bind; [by apply fine_convert|]. intros _. apply fine_bind; [by apply fine_exprAs|]. intros _. apply fine_bind; [apply fine_arith; [done|tauto]|].
  intros _. apply fine_convert; [done|done|]. intros Kv. change (kind_of (FieldType v)) with (kind_of_var v) in Kv. rewrite Kv in Hs.
  assert (KR : kind_at RHS = KindBoolean).
  { unfold same_sort in Hs. rewrite (bool_decide_eq_true_2 (KindBoolean = KindBoolean)) in Hs by done. by case_bool_decide. }
  unfold p. rewrite (booleans_kind (FieldType v) (Type_ RHS) Kv KR). done.
Qed.

Lemma fine_assign l LHS v Op RHS value : target_of LHS = Some v -> v ∈ l -> integral (kind_of_var v) = true ->
  simple RHS = true -> checked l RHS = true -> (height RHS <= n)%nat -> same_sort (kind_at RHS) (kind_of_var v) = true ->
  (Op =? ASSIGN) || assign_op Op = true -> fine l (assign LHS Op RHS value).
Proof.
  intros Ht Hv Iv HR CR NR Hs Ho. unfold assign. eapply works_bind; [by apply (works_lvalue l LHS v)|]. intros it [s ->]. cbn [typ].
  assert (Htail : fine l (_ ← when value (stash (localItem s (FieldType v))); store (localItem s (FieldType v)))) by (cbn; unfold dupValue, storeLocal, Op_; fine).
  destruct (Op =? ASSIGN).
  - apply fine_bind; [|intros _; exact Htail]. apply fine_exprAs; [done|done|done|done|]. by apply same_sort_long.
  - cbn [dupAddr load]. unfold loadLocal. apply fine_bind; [by apply works_ret|]. intros _. apply fine_bind; [apply fine_call|]. intros _.
    apply fine_bind; [by apply fine_compound|]. intros _. exact Htail.
Qed.

Lemma works_simpleIntLocal l x : works l (simpleIntLocal x) (fun o => match o with Some v => target_of x = Some v | None => True end) l.
Proof.
  destruct x; try by apply works_ret. cbn [simpleIntLocal]. destruct (use_var (AIdent i)) as [v|] eqn:Eu; [|by apply works_ret].
  destruct (bool_decide (vKind (varSym v) = VarField)) eqn:Ef; [by apply works_ret|]. destruct (bool_decide (is_Some (captureOf v))) eqn:Ec; [by apply works_ret|].
  cbn [orb]. destruct (bool_decide (kind_of (FieldType v) = KindInt)) eqn:Ek; [|by apply works_ret]. cbn [negb].
  apply fine_bind; [apply fine_get|]. intros []; apply works_ret; [|done].
  cbn [target_of]. unfold local_of. change (key (EIdent i)) with (AIdent i). rewrite Eu. unfold is_local. by rewrite Ef, Ec.
Qed.

Lemma fine_incdec l x kind value postfix : target_in l x = true -> integral (kind_at x) = true -> fine l (incdec x kind value postfix).
Proof.
  unfold target_in. destruct (target_of x) as [v|] eqn:Et; [|done]. intros [Hv Iv]%in_scope_spec Ix. unfold incdec.
  eapply works_bind; [apply works_simpleIntLocal|]. intros [v'|] Ho.
  - rewrite Et in Ho. injection Ho as <-. unfold Iload. fine. by apply fine_slot.
  - eapply works_bind; [by apply (works_lvalue l x v)|]. intros it [s ->]. cbn [dupAddr load store stash]. unfold loadLocal, storeLocal, dupValue, Op_.
    assert (Ip : integral (kind_of (Promote (Type_ x))) = true /\ (kind_of (Type_ x) = KindBoolean -> kind_of (Promote (Type_ x)) <> KindLong) /\
      (kind_of (Promote (Type_ x)) = KindBoolean -> kind_of (Type_ x) <> KindLong) /\
      (kind_of (Promote (Type_ x)) = KindInt \/ kind_of (Promote (Type_ x)) = KindLong \/ kind_of (Promote (Type_ x)) = KindBoolean)).
    { unfold kind_at in Ix. unfold Promote. destruct (kind_of (Type_ x)) eqn:Ek; try discriminate; cbn; rewrite ?Ek; split_and!; first [done | by auto]. }
    destruct Ip as (Ip & N1 & N2 & Kp). apply fine_bind; [by apply works_ret|]. intros _. apply fine_bind; [apply fine_call|]. intros _.
    apply fine_bind; [apply fine_when, fine_call|]. intros _. apply fine_bind; [by apply fine_convert|]. intros _.
    apply fine_bind; [unfold pushOne, Lconst, Fconst, Dconst, Iconst; destruct (kind_of _); apply fine_call|]. intros _.
    apply fine_bind; [by apply fine_arith|]. intros _. apply fine_bind; [by apply fine_convert|]. intros _. fine.
Qed.

(** *** Every expression *)

Lemma fine_unary l sp op p X : let x := UnaryExpr sp op p X in simple x = true -> checked l x = true -> ConstAt x ≫= cValue = None ->
  (height X <= n)%nat -> fine l (unary x op X).
Proof.
  intros x Hx Hc Hk Hn. pose proof (checked_integral _ _ Hc) as Ix. pose proof Hx as Hs. unfold x in Hs, Hc. cbn [simple] in Hs. cbn [checked] in Hc.
  fold x in Hs, Hc. rewrite Hk in Hs, Hc. apply andb_true_iff in Hs as [_ Hs]. apply andb_true_iff in Hc as [_ Hc]. unfold unary.
  destruct ((op =? INC) || (op =? DEC)) eqn:Ei.
  { assert (Hi : op = INC \/ op = DEC) by (by rewrite orb_true_iff, !Z.eqb_eq in Ei). apply andb_true_iff in Hc as [Ht HX].
    destruct Hi as [-> | ->]; by apply fine_incdec. }
  apply andb_true_iff in Hs as [HX HN]. apply andb_true_iff in Hc as [CX HO]. destruct (op =? NOT) eqn:En.
  { cbn [negb orb] in HN. apply andb_true_iff in HN as [KX Kx]. apply fine_condValue. intros t w. apply Z.eqb_eq in En as ->.
    assert (Hb : const_bool x = None) by (unfold const_bool; destruct (ConstAt x) as [k|]; [|done]; cbn in Hk; by rewrite Hk).
    assert (Ec : cond x t w = cond X t (negb w)) by (unfold x; cbn [cond]; fold x; by rewrite Hb). rewrite Ec.
    apply fine_cond; [done|done|by apply boolean_kind|done]. }
  cbn [orb] in HO. apply andb_true_iff in HO as [HO HS]. assert (Ha : fine l (exprAs X (Type_ x))) by (apply fine_exprAs; [done..|by apply same_sort_long]).
  destruct (op =? ADD); [exact Ha|]. destruct (op =? SUB); [unfold Op_; fine|]. destruct (op =? TILDE); [|done].
  apply fine_bind; [exact Ha|]. intros _. unfold Lconst, Iconst, Op_. case_bool_decide; fine.
Qed.

Lemma fine_binary l sp X op p q Y : let x := BinaryExpr sp X op p q Y in simple x = true -> checked l x = true -> ConstAt x ≫= cValue = None ->
  (height X <= n)%nat -> (height Y <= n)%nat -> fine l (binary x X op Y).
Proof.
  intros x Hx Hc Hk NX NY. pose proof (checked_integral _ _ Hc) as Ix. pose proof Hx as Hs. unfold x in Hs, Hc. cbn [simple] in Hs. cbn [checked] in Hc.
  fold x in Hs, Hc. rewrite Hk in Hs, Hc. rewrite !andb_true_iff in Hs. rewrite !andb_true_iff in Hc. destruct Hs as [_ [[[HX HY] HB] _]].
  destruct Hc as [_ [[CX CY] HO]]. unfold binary.
  assert (Hb : const_bool x = None) by (unfold const_bool; destruct (ConstAt x) as [k|]; [|done]; cbn in Hk; by rewrite Hk).
  assert (Ec : forall t w, cond x t w = if op =? LAND then condAnd (cond X) (cond Y) t w else if op =? LOR then condOr (cond X) (cond Y) t w
    else if is_comparison op then compare X Y op t w else cond_value_test x t w) by (intros t w; unfold x; cbn [cond]; fold x; by rewrite Hb).
  destruct (op =? LAND) eqn:E1; [|destruct (op =? LOR) eqn:E2; [|destruct (is_comparison op) eqn:E3]]; cbn [orb negb] in *.
  - apply andb_true_iff in HB as [KX KY]. apply fine_condValue. intros t w. rewrite Ec. apply fine_and; intros; apply fine_cond; first [done | by apply boolean_kind].
  - apply andb_true_iff in HB as [KX KY]. apply fine_condValue. intros t w. rewrite Ec. apply fine_or; intros; apply fine_cond; first [done | by apply boolean_kind].
  - apply fine_condValue. intros t w. rewrite Ec. by apply fine_compare.
  - unfold isConcat. rewrite (prim_not_string (Type_ x)), andb_false_r by (by apply integral_prim). destruct (is_shift op) eqn:Es; cbn [andb orb] in HO.
    + assert (HS : same_sort (kind_at X) (kind_at x) = true).
      { apply orb_true_iff in HO as [HO|HO]; [done|]. exfalso. unfold is_shift in Es. unfold arith_op in HO.
        rewrite !orb_true_iff, !Z.eqb_eq in Es. destruct Es as [[->| ->]| ->]; discriminate. }
      apply fine_bind; [apply fine_exprAs; [done..|by apply same_sort_long]|]. intros _. apply fine_bind; [by apply fine_exprAs|]. intros _. by apply fine_shift.
    + set (p0 := PromoteBinary (Type_ X) (Type_ Y)). assert (Kp : kind_of p0 = KindInt \/ kind_of p0 = KindLong) by (apply promoted_integral; by eapply checked_integral).
      assert (Ip : integral (kind_of p0) = true /\ kind_of p0 <> KindBoolean) by (by destruct Kp as [->| ->]). destruct Ip as [Ip Np].
      apply fine_bind; [by apply fine_exprAs|]. intros _. apply fine_bind; [by apply fine_exprAs|]. intros _. apply fine_arith; [done|tauto].
Qed.

Lemma fine_condExpr l x C X Y : simple C = true -> is_boolean C = true -> checked l C = true -> (height C <= n)%nat ->
  fine l (exprAs X (Type_ x)) -> fine l (exprAs Y (Type_ x)) -> fine l (condExpr x C X Y).
Proof.
  intros HC KC CC NC HX HY. unfold condExpr, Goto, dead, mark, Mark. fine. apply fine_cond; [done|done|by apply boolean_kind|done].
Qed.

Lemma fine_expr_node l x : simple x = true -> checked l x = true -> ConstAt x ≫= cValue = None -> (height x <= S n)%nat -> fine l (expr_node x).
Proof.
  intros Hx Hc Hk Hn. pose proof (checked_integral _ _ Hc) as Ix.
  destruct x; cbn [height] in Hn; try (by apply fine_unary; [..|lia]); try (by apply fine_binary; [..|lia|lia]);
    try (cbn [simple] in Hx; rewrite Hk, andb_false_r in Hx; discriminate);
    cbn [simple] in Hx; cbn [checked] in Hc; rewrite Hk in Hx, Hc; apply andb_true_iff in Hx as [_ Hx]; apply andb_true_iff in Hc as [_ Hc]; cbn [expr_node].
  - destruct (local_of _) as [v|] eqn:Ev; [|done]. apply in_scope_spec in Hc as [Hv _]. by eapply fine_name.
  - destruct (local_of _) as [v|] eqn:Ev; [|done]. apply in_scope_spec in Hc as [Hv _]. by eapply fine_name.
  - apply andb_true_iff in Hx as [Hx _]. apply rec_fine; [done|done|lia].
  - apply andb_true_iff in Hc as [Ht HX]. by apply fine_incdec.
  - rewrite !andb_true_iff in Hx. rewrite !andb_true_iff in Hc. destruct Hx as [[[HC KC] HX] HY]. destruct Hc as [[[[CC CX] CY] SX] SY].
    apply fine_condExpr; [done|done|done|lia|..]; apply fine_exprAs; first [done | lia | by apply same_sort_long].
  - destruct (target_of x1) as [v|] eqn:Et; [|done]. rewrite !andb_true_iff in Hx. rewrite !andb_true_iff in Hc. destruct Hc as [[[Hv CR] HS] HO].
    apply in_scope_spec in Hv as [Hv Iv]. destruct Hx as [_ HR]. apply (fine_assign l _ v); first [done | lia].
  - apply andb_true_iff in Hc as [CX HS]. unfold cast. apply fine_bind; [apply rec_fine; [done|done|lia]|]. intros _.
    apply fine_convert; [by eapply checked_integral|done|by apply same_sort_long].
Qed.

Lemma fine_expr l x : simple x = true -> checked l x = true -> (height x <= S n)%nat -> fine l (expr x).
Proof.
  intros Hx Hc Hn. unfold expr. destruct (ConstAt x ≫= cValue) as [v|] eqn:Hv.
  - destruct (ConstAt x) as [k|] eqn:Ek; [|done]. cbn [mbind option_bind] in Hv |- *. unfold constant_value. rewrite Hv. destruct v; apply fine_call.
  - replace (ConstAt x ≫= constant_value) with (@None (Emit unit)); [by apply fine_expr_node|].
    destruct (ConstAt x) as [k|]; [|done]. cbn in Hv |- *. unfold constant_value. by rewrite Hv.
Qed.
End Rec.

Lemma fine_emits n l x : simple x = true -> checked l x = true -> (height x <= n)%nat -> fine l (rExpr (Emits := emits n) x).
Proof.
  revert l x. induction n as [|n IH]; intros l x Hx Hc Hn; [destruct x; cbn in Hn; lia|]. exact (fine_expr (E := emits n) n IH l x Hx Hc Hn).
Qed.

(** ** Statements *)

Definition checked_local (l : list var) (d : VarDeclarator) : bool :=
  match d with
  | mkVarDeclarator _ name _ _ Init =>
      match use_var (AIdent name), Init with
      | Some v, Some (NExpr x) => integral (kind_of_var v) && checked (l ++ [v]) x && same_sort (kind_at x) (kind_of_var v)
      | Some v, None => true
      | Some _, Some _ => false
      | None, _ => true
      end
  end.

Fixpoint checked_locals (l : list var) (ds : list VarDeclarator) : bool :=
  match ds with [] => true | d :: ds => checked_local l d && checked_locals (l ++ declared_by d) ds end.

(** The locals in scope after a statement: a declaration's, and those before. *)
Definition scope_after (l : list var) (s : Stmt) : list var := match s with DeclStmt _ _ => l ++ declares s | _ => l end.

Fixpoint checked_stmt (l : list var) (s : Stmt) {struct s} : bool :=
  negb (UnreachableAt s) &&
  match s with
  | SBlock (mkBlock _ _ Stmts _) =>
      (fix all l ss := match ss with [] => true | s :: ss => checked_stmt l s && all (scope_after l s) ss end) l Stmts
  | EmptyStmt _ => true
  | ExprStmt _ X => checked l X
  | DeclStmt _ (DVar (mkVarDecl _ _ _ Names _)) => checked_locals l Names
  | IfStmt _ _ C X _ Y => checked l C && checked_stmt l X && match Y with Some Y => checked_stmt l Y | None => true end
  | ReturnStmt _ _ x => match x with Some x => checked l x && integral (kind_of returnType) && same_sort (kind_at x) (kind_of returnType) | None => true end
  | _ => false
  end.

Fixpoint checked_stmts (l : list var) (ss : list Stmt) : bool :=
  match ss with [] => true | s :: ss => checked_stmt l s && checked_stmts (scope_after l s) ss end.

Definition local_height (d : VarDeclarator) : nat := match d with mkVarDeclarator _ _ _ _ (Some (NExpr x)) => height x | _ => O end.

Fixpoint stmt_height (s : Stmt) : nat :=
  S match s with
    | SBlock (mkBlock _ _ Stmts _) => S (List.list_max (map stmt_height Stmts))
    | ExprStmt _ X => height X
    | DeclStmt _ (DVar (mkVarDecl _ _ _ Names _)) => List.list_max (map local_height Names)
    | IfStmt _ _ C X _ Y => Nat.max (height C) (Nat.max (stmt_height X) match Y with Some Y => stmt_height Y | None => O end)
    | ReturnStmt _ _ (Some x) => height x
    | _ => O
    end.

(** Where control arrives and goes on, the locals [l'] are known. *)
Definition goes {A} (l : list var) (m : Emit A) (l' : list var) : Prop := forall e, knows l e ->
  exists a e', m e = Done a e' /\ knows l e' /\ (alive e = true -> alive e' = true -> knows l' e').

Lemma goes_fine {A} l (m : Emit A) : fine l m -> goes l m l.
Proof. intros Hm e He. destruct (Hm e He) as (a & e' & Ee & He' & _). exists a, e'. done. Qed.

Section Rec.
Context {E : Emits} (n : nat).
Context (rec_fine : forall l x, simple x = true -> checked l x = true -> (height x <= n)%nat -> fine l (rExpr x)).
Context (rec_goes : forall l s, simple_stmt s = true -> checked_stmt l s = true -> (stmt_height s <= n)%nat -> goes l (rStmt s) (scope_after l s)).
Context (rec_skip : forall s e, (0 < n)%nat -> alive e = false -> rStmt s e = Done tt e).

Lemma each_skip ss e : (0 < n)%nat -> alive e = false -> each rStmt ss e = Done tt e.
Proof. intros Hn Ha. induction ss as [|s ss IH]; [done|]. cbn [each]. unfold mbind, Emit_bind. by rewrite (rec_skip s e Hn Ha). Qed.

Lemma stmt_height_pos s : (0 < stmt_height s)%nat.
Proof. destruct s; cbn; lia. Qed.

Lemma goes_each l ss : forallb simple_stmt ss = true -> checked_stmts l ss = true -> (List.list_max (map stmt_height ss) <= n)%nat ->
  goes l (each rStmt ss) l.
Proof.
  intros Hs Hc Hn. enough (Hg : forall l0, (forall e, knows l0 e -> knows l e) -> checked_stmts l0 ss = true -> forall e, knows l0 e ->
    exists a e', each rStmt ss e = Done a e' /\ knows l e').
  { intros e He. destruct (Hg l (fun _ H' => H') Hc e He) as (a & e' & Ee & He'). exists a, e'. done. }
  clear Hc. induction ss as [|s ss IH]; intros l0 Hl Hc e He; cbn [each].
  - exists tt, e. auto.
  - cbn [forallb checked_stmts map List.list_max List.fold_right] in *. apply andb_true_iff in Hs as [Hs Hss]. apply andb_true_iff in Hc as [Hc Hcs].
    pose proof (stmt_height_pos s). fold (List.list_max (map stmt_height ss)) in Hn.
    destruct (alive e) eqn:Ha; [|change (each rStmt (s :: ss) e) with ((_ ← rStmt s; each rStmt ss) e) in *; unfold mbind, Emit_bind; rewrite (rec_skip s e) by (done || lia);
      rewrite each_skip by (done || lia); exists tt, e; auto].
    destruct (rec_goes l0 s Hs Hc ltac:(lia) e He) as ([] & e1 & E1 & He1 & Hg1). unfold mbind, Emit_bind. rewrite E1. destruct (alive e1) eqn:Ha1.
    + apply (IH Hss ltac:(lia) (scope_after l0 s)); [|done|by apply Hg1]. intros e0 [Hk Hf]. apply Hl. split; [|done].
      destruct s; try exact Hk. by apply Forall_app in Hk as [Hk _].
    + rewrite each_skip by (done || lia). exists tt, e1. auto.
Qed.

Lemma goes_block l sp a ss b : forallb simple_stmt ss = true -> checked_stmts l ss = true -> (List.list_max (map stmt_height ss) <= n)%nat ->
  goes l (block (mkBlock sp a ss b)) l.
Proof.
  intros Hs Hc Hn e He. destruct (goes_each l ss Hs Hc Hn e He) as (u & e1 & E1 & He1 & _). cbn [block]. unfold mbind, Emit_bind, slots_mark, get.
  rewrite E1. eexists _, _. split; [reflexivity|]. done.
Qed.

Lemma goes_pop l x : simple x = true -> checked l x = true -> (height x <= n)%nat -> fine l (_ ← rExpr x; pop (Type_ x)).
Proof. intros Hx Hc Hn. apply fine_bind; [by apply rec_fine|]. intros _. unfold pop, Op_. destruct (_ =? 0); fine. Qed.

Lemma fine_exprStmt l x : simple x = true -> checked l x = true -> ConstAt x ≫= cValue = None -> (height x <= n)%nat -> fine l (exprStmt x).
Proof.
  intros Hx Hc Hk Hn. pose proof (goes_pop l x Hx Hc Hn) as Hp. destruct x; try exact Hp; cbn [exprStmt].
  - destruct ((Op =? INC) || (Op =? DEC)) eqn:Eo; [|exact Hp]. cbn [checked] in Hc. rewrite Hk, Eo in Hc. apply andb_true_iff in Hc as [_ [Ht HX]%andb_true_iff].
    by apply fine_incdec.
  - cbn [checked] in Hc. rewrite Hk in Hc. apply andb_true_iff in Hc as [_ [Ht HX]%andb_true_iff]. by apply fine_incdec.
  - cbn [simple] in Hx. cbn [checked] in Hc. rewrite Hk in Hx, Hc. cbn [height] in Hn. apply andb_true_iff in Hx as [_ [_ HR]%andb_true_iff].
    apply andb_true_iff in Hc as [_ Hc]. destruct (target_of x1) as [v|] eqn:Et; [|done]. rewrite !andb_true_iff in Hc. destruct Hc as [[[Hv CR] HS] HO].
    apply in_scope_spec in Hv as [Hv Iv]. by apply (fine_assign n rec_fine l _ v); first [done | lia].
Qed.

Lemma works_declare l v : works l (slots_declare v (FieldType v)) (fun _ => True) (l ++ [v]).
Proof.
  intros e [Hk Hf]. eexists _, _. split; [reflexivity|]. split; [|done]. split; [|exact Hf]. apply Forall_app. split.
  - eapply Forall_impl; [exact Hk|]. cbn. intros u Hu. destruct (decide (u = v)) as [->|Hne]; [rewrite lookup_insert_eq; eauto|by rewrite lookup_insert_ne].
  - constructor; [|constructor]. cbn. rewrite lookup_insert_eq. eauto.
Qed.

Lemma works_local l d : simple_local d = true -> checked_local l d = true -> (local_height d <= n)%nat ->
  works l (declare_local d) (fun _ => True) (l ++ declared_by d).
Proof.
  destruct d as [sp name dims a Init]. unfold simple_local, checked_local, declare_local, declared_by, local_height. intros Hs Hc Hn.
  destruct (use_var (AIdent name)) as [v|]; [|rewrite app_nil_r; by apply works_ret].
  eapply works_bind; [apply works_declare|]. intros s _. destruct Init as [[x| | | | | |]|]; try done; cbn [maybe]; [|by apply works_ret].
  apply andb_true_iff in Hs as [_ Hx]. rewrite !andb_true_iff in Hc. destruct Hc as [[Iv CX] HS]. unfold initValue, storeLocal.
  apply fine_bind; [|intros; apply fine_call]. apply (fine_exprAs n rec_fine); [done..|]. by apply same_sort_long.
Qed.

Lemma works_locals l ds : forallb simple_local ds = true -> checked_locals l ds = true -> (List.list_max (map local_height ds) <= n)%nat ->
  works l (each declare_local ds) (fun _ => True) (l ++ List.concat (map declared_by ds)).
Proof.
  revert l. induction ds as [|d ds IH]; intros l Hs Hc Hn; cbn [each map List.concat]; [rewrite app_nil_r; by apply works_ret|].
  cbn [forallb checked_locals map List.list_max List.fold_right] in *. apply andb_true_iff in Hs as [Hs Hss]. apply andb_true_iff in Hc as [Hc Hcs].
  fold (List.list_max (map local_height ds)) in Hn. eapply works_bind; [apply works_local; first [done | lia]|]. intros _ _. rewrite app_assoc. apply IH; first [done | lia].
Qed.

Lemma goes_return l x : match x with Some x => simple x && IsPrimitive (kind_of returnType) | None => true end = true ->
  match x with Some x => checked l x && integral (kind_of returnType) && same_sort (kind_at x) (kind_of returnType) | None => true end = true ->
  (match x with Some x => height x | None => O end <= n)%nat -> goes l (returnStmt x) l.
Proof.
  intros Hs Hc Hn e He. destruct x as [x|]; cbn [returnStmt].
  - apply andb_true_iff in Hs as [Hs _]. rewrite !andb_true_iff in Hc. destruct Hc as [[CX Ir] HS].
    assert (Hx : fine l (exprAs x returnType)) by (apply (fine_exprAs n rec_fine); [done..|by apply same_sort_long]).
    destruct (Hx e He) as (u & e1 & E1 & He1 & _). unfold mbind, Emit_bind, get. rewrite E1. rewrite (proj2 He1). eexists _, _. split; [reflexivity|].
    split; [exact He1|done].
  - unfold runFinallys, mbind, Emit_bind, get. rewrite (proj2 He). eexists _, _. split; [reflexivity|]. split; [exact He|done].
Qed.

Lemma goes_if l C X Y : simple C = true -> is_boolean C = true -> checked l C = true -> (height C <= n)%nat ->
  goes l (rStmt X) (scope_after l X) -> match Y with Some Y => goes l (rStmt Y) (scope_after l Y) | None => True end -> goes l (ifStmt C X Y) l.
Proof.
  intros HC KC CC NC HX HY. apply goes_fine. assert (Hs : forall s, goes l (rStmt s) (scope_after l s) -> fine l (rStmt s)).
  { intros s Hs e He. destruct (Hs e He) as (a & e' & Ee & He' & _). exists a, e'. done. }
  assert (HCn : forall t, fine l (cond C t false)) by (intros t; apply (fine_cond n rec_fine); [done|done|by apply boolean_kind|done]).
  apply Hs in HX. unfold ifStmt, Goto, dead, mark, Mark. destruct Y as [Y|]; [apply Hs in HY|]; fine; apply HCn.
Qed.

Lemma fine_line l p : fine l (line p).
Proof.
  intros e He. unfold line. destruct source as [f|]; [|by exists tt, e]. destruct (p =? NoPos); [by exists tt, e|]. destruct (_ && _); [|by exists tt, e].
  eexists _, _. split; [reflexivity|]. split; [exact He|done].
Qed.

Context (rec_block : forall l sp a ss b, forallb simple_stmt ss = true -> checked_stmts l ss = true -> (S (List.list_max (map stmt_height ss)) <= n)%nat ->
  goes l (rBlock (mkBlock sp a ss b)) l).

Lemma checked_block l sp a ss b : checked_stmt l (SBlock (mkBlock sp a ss b)) = true -> checked_stmts l ss = true.
Proof.
  cbn [checked_stmt]. intros [_ Hc]%andb_true_iff. revert l Hc. induction ss as [|s ss IH]; intros l Hc; [done|]. cbn [checked_stmts].
  apply andb_true_iff in Hc as [Hs Hss]. by rewrite Hs, IH.
Qed.

Lemma goes_node l s : simple_stmt s = true -> checked_stmt l s = true -> (stmt_height s <= S n)%nat -> goes l (stmt_node s) (scope_after l s).
Proof.
  intros Hs Hc Hn. destruct s as [b| | |sp d| | | | | | | | | | | | | | | | | ]; try done; cbn [stmt_node scope_after].
  - destruct b as [sp a ss b]. apply checked_block in Hc. cbn [stmt_height] in Hn. apply rec_block; [done|done|lia].
  - apply goes_fine. by apply works_ret.
  - apply goes_fine. cbn [simple_stmt] in Hs. apply andb_true_iff in Hs as [Hx Hk]. cbn [checked_stmt] in Hc. apply andb_true_iff in Hc as [_ Hc].
    cbn [stmt_height] in Hn. apply fine_exprStmt; [done|done| |lia]. by destruct (ConstAt X ≫= cValue).
  - destruct d; try done. destruct v as [dsp Mods type Names a]. cbn [checked_stmt] in Hc. apply andb_true_iff in Hc as [_ Hc]. cbn [stmt_height] in Hn.
    intros e He. destruct (works_locals l Names Hs Hc ltac:(lia) e He) as (u & e' & Ee & He' & _). exists u, e'. split; [exact Ee|]. split; [|intros; exact He'].
    destruct He' as [Hk Hf]. split; [|exact Hf]. by apply Forall_app in Hk as [Hk _].
  - cbn [simple_stmt] in Hs. rewrite !andb_true_iff in Hs. destruct Hs as [[[HC KC] HX] HY]. cbn [checked_stmt] in Hc. rewrite !andb_true_iff in Hc.
    destruct Hc as [_ [[CC CX] CY]]. cbn [stmt_height] in Hn. apply goes_if; [done|done|done|lia| |].
    + apply rec_goes; first [done | lia].
    + destruct Else as [Y|]; [|done]. apply rec_goes; first [done | lia].
  - cbn [checked_stmt] in Hc. apply andb_true_iff in Hc as [_ Hc]. cbn [stmt_height] in Hn. apply goes_return; [done|done|]. destruct Result; lia.
Qed.

Lemma goes_stmt l s : simple_stmt s = true -> checked_stmt l s = true -> (stmt_height s <= S n)%nat -> goes l (stmt s) (scope_after l s).
Proof.
  intros Hs Hc Hn e He. assert (Hu : UnreachableAt s = false) by (destruct s; cbn [checked_stmt] in Hc; by apply andb_true_iff in Hc as [Hc%negb_true_iff _]).
  unfold stmt, Alive, get, mbind, Emit_bind. rewrite Hu, orb_false_r. destruct (alive e) eqn:Ha; cbn [negb]; [|exists tt, e; done].
  destruct (fine_line l (Lo (stmt_span s)) e He) as (u1 & e1 & E1 & He1 & _). unfold mbind, Emit_bind. rewrite E1.
  destruct (goes_node l s Hs Hc Hn e1 He1) as (u2 & e2 & E2 & He2 & Hg). exists u2, e2. split; [exact E2|]. split; [exact He2|].
  intros _ Ha2. apply Hg; [|exact Ha2]. destruct (line_ok O _ _ _ _ E1) as (c & _ & Ha1 & _). congruence.
Qed.
End Rec.

Lemma goes_emits n :
  (forall l s, simple_stmt s = true -> checked_stmt l s = true -> (stmt_height s <= n)%nat -> goes l (rStmt (Emits := emits n) s) (scope_after l s)) /\
  (forall l sp a ss b, forallb simple_stmt ss = true -> checked_stmts l ss = true -> (S (List.list_max (map stmt_height ss)) <= n)%nat ->
    goes l (rBlock (Emits := emits n) (mkBlock sp a ss b)) l) /\
  (forall s e, (0 < n)%nat -> alive e = false -> rStmt (Emits := emits n) s e = Done tt e).
Proof.
  induction n as [|n (IHs & IHb & IHd)]; [split_and!; intros; try lia|split_and!].
  - match goal with Hn : (stmt_height ?s <= 0)%nat |- _ => pose proof (stmt_height_pos s); lia end.
  - intros l s Hs Hc Hn. by apply (goes_stmt (E := emits n) n (fine_emits n) IHs IHb).
  - intros l sp a ss b Hs Hc Hn. apply (goes_block (E := emits n) n IHs IHd); [done|done|lia].
  - intros s e _ Ha. change (stmt (H2 := emits n) s e = Done tt e). unfold stmt, Alive, get, mbind, Emit_bind. by rewrite Ha.
Qed.
End Total.
