(* ===== verification/LowerStmtOk.v ===== *)
(** * Bodies compile to what they mean

    Statements declare locals, so the slots change, and end in a return or go
    on; a body of the fragment, run from its parameters, returns what the
    language says it does. *)
From S2P Require Import Prelude.
From S2P Require Import Token SourceFile Ast AstWalk Types Fold Sym Emitter LowerExpr LowerStmt LowerKeeps LowerBody LowerSem LowerExprOk LowerTotal.
From S2P Require CodeWriter Op.

Section Bodies.
Context `{Program, Site, Missing}.

(** ** What a statement does *)

(** It adds the calls [c] and declares the locals [D]. *)
Record went (lo : nat) (D : list var) (e e' : emitter) (c : list CodeWriter.cmd) : Prop := {
  went_out : out e' = out e ++ c;
  went_labels : (nlabels e <= nlabels e')%nat;
  went_finallys : finallys e' = finallys e;
  went_fresh : fresh lo c;
  went_next : next (slots e) <= next (slots e');
  went_slots v : v ∉ D -> of_ (slots e') !! v = of_ (slots e) !! v }.

Lemma went_ran lo D e e' c : ran lo e e' c -> went lo D e e' c.
Proof. intros [O L S F Y M]. split; try done; rewrite S; done. Qed.

Lemma went_refl lo D e : went lo D e e [].
Proof. apply went_ran, ran_refl. Qed.

Lemma went_trans lo D1 D2 e1 e2 e3 c d : went lo D1 e1 e2 c -> went lo D2 e2 e3 d -> went lo (D1 ++ D2) e1 e3 (c ++ d).
Proof.
  intros [O1 L1 Y1 M1 N1 S1] [O2 L2 Y2 M2 N2 S2]. split; [by rewrite O2, O1, app_assoc|lia|congruence|by apply Forall_app|lia|].
  intros v [Hv1 Hv2]%not_elem_of_app. rewrite S2, S1; done.
Qed.

Lemma went_weaken lo lo' D e e' c : (lo <= lo')%nat -> went lo' D e e' c -> went lo D e e' c.
Proof. intros Hl [O L Y M N S]. split; try done. by eapply fresh_weaken. Qed.

(** The stack a result leaves. *)
Definition returns (v : option value) (ws : list word) : Prop :=
  match v with Some v => exists y, word_of v = Some y /\ ws = [y] | None => ws = [] end.

(** Run where [sl] places the locals [r], the calls end as [o] says. *)
Definition does (sl : slotMap) (r : env) (c : list CodeWriter.cmd) (sl' : slotMap) (alive' : bool) (D : list var) (o : result) : Prop :=
  match o with
  | Next r' =>
      alive' = true /\ live sl' r' /\ (forall v, is_Some (r' !! v) -> is_Some (r !! v) \/ v ∈ D) /\
      forall stk loc, holds sl r loc -> exists loc', exec c (Run stk loc) = Some (Run stk loc') /\ holds sl' r' loc'
  | Ret v => exists ws, returns v ws /\ forall stk loc, holds sl r loc -> exec c (Run stk loc) = Some (Halt (ws ++ stk))
  end.

(** The emission of statements that mean [ev]. *)
Definition does_ok (m : Emit unit) (D : list var) (ev : env -> option result) : Prop := forall lo e u e',
  (lo <= nlabels e)%nat -> alive e = true -> finallys e = [] -> NoDup D -> m e = Done u e' ->
  exists c, went lo D e e' c /\ forall r o, live (slots e) r -> (forall v, v ∈ D -> r !! v = None) -> ev r = Some o ->
    does (slots e) r c (slots e') (alive e') D o.

(** Locals stay where they are while others are declared. *)
Lemma live_mono sl sl' r : live sl r -> next sl <= next sl' -> (forall v, is_Some (r !! v) -> of_ sl' !! v = of_ sl !! v) -> live sl' r.
Proof.
  intros [L1 L2] Hn Ho. split.
  - intros v Hv. destruct (L1 v Hv) as (s & Hs & Hle). exists s. rewrite Ho by done. split; [done|lia].
  - intros v v' s s' Hne Hv Hv'. rewrite !Ho by done. by apply L2.
Qed.

Lemma holds_mono sl sl' r loc : holds sl r loc -> (forall v, is_Some (r !! v) -> of_ sl' !! v = of_ sl !! v) -> holds sl' r loc.
Proof. intros Hh Ho v w Hw. rewrite Ho by eauto. by apply Hh. Qed.

Lemma went_live lo D e e' c (r : env) : went lo D e e' c -> (forall v, v ∈ D -> r !! v = None) -> forall v, is_Some (r !! v) -> of_ (slots e') !! v = of_ (slots e) !! v.
Proof. intros Hw Hd v [w Hv]. apply (went_slots _ _ _ _ _ Hw). intros Hin. rewrite Hd in Hv by done. done. Qed.

(** One after the other. *)
Definition then_ (ev1 ev2 : env -> option result) (r : env) : option result :=
  o ← ev1 r; match o with Next r => ev2 r | Ret _ => Some o end.

Lemma does_seq sl r c sl1 a1 D1 o1 d sl2 a2 D2 o :
  does sl r c sl1 a1 D1 o1 ->
  match o1 with Next r1 => a1 = true -> live sl1 r1 -> (forall v, is_Some (r1 !! v) -> is_Some (r !! v) \/ v ∈ D1) -> does sl1 r1 d sl2 a2 D2 o | Ret _ => o = o1 end ->
  does sl r (c ++ d) sl2 a2 (D1 ++ D2) o.
Proof.
  destruct o1 as [r1|v].
  - intros (Ha & Hl & Hd & X1) H2. specialize (H2 Ha Hl Hd). destruct o as [r2|v]; cbn in H2 |- *.
    + destruct H2 as (Ha2 & Hl2 & Hd2 & X2). split_and!; [done|done| |].
      * intros v Hv. rewrite elem_of_app. destruct (Hd2 v Hv) as [Hv1|]; [destruct (Hd v Hv1); auto|auto].
      * intros stk loc Hh. destruct (X1 stk loc Hh) as (loc1 & E1 & Hh1). destruct (X2 stk loc1 Hh1) as (loc2 & E2 & Hh2). exists loc2. split; [|done].
        by rewrite exec_app, E1.
    + destruct H2 as (ws & Hws & X2). exists ws. split; [done|]. intros stk loc Hh. destruct (X1 stk loc Hh) as (loc1 & E1 & Hh1).
      rewrite exec_app, E1. by apply X2.
  - intros (ws & Hws & X1) ->. exists ws. split; [done|]. intros stk loc Hh. rewrite exec_app, X1 by done. apply exec_halt.
Qed.

(** Emissions that keep the slots, before statements. *)
Lemma does_after lo e1 e2 c1 r r1 : ran lo e1 e2 c1 -> computes (slots e1) r c1 r1 [] [] -> live (slots e1) r ->
  forall d sl' a D o, does (slots e2) r1 d sl' a D o -> (forall v, is_Some (r1 !! v) -> is_Some (r !! v)) -> does (slots e1) r (c1 ++ d) sl' a D o.
Proof.
  intros R C Hl d sl' a D o Hd Hv. rewrite (ran_slots _ _ _ _ R) in Hd. destruct (C Hl) as [Hl1 X1].
  apply (does_seq _ _ _ (slots e1) true [] (Next r1)); [|done]. split_and!; [done|done|auto|exact X1].
Qed.

(** Assignments add no locals. *)
Lemma assign_to_dom v w r r' u : assign_to v w r = Some r' -> is_Some (r' !! u) -> is_Some (r !! u).
Proof.
  intros [Hv ->]%assign_to_spec. destruct (decide (u = v)) as [->|Hn]; [done|]. by rewrite lookup_insert_ne.
Qed.

Lemma step_var_dom x op r a b r' u : step_var x op r = Some (a, b, r') -> is_Some (r' !! u) -> is_Some (r !! u).
Proof.
  intros (v & _ & _ & _ & Hv & ->)%step_var_spec. destruct (decide (u = v)) as [->|Hn]; [done|]. by rewrite lookup_insert_ne.
Qed.

Lemma eval_dom x r w r' u : eval x r = Some (w, r') -> is_Some (r' !! u) -> is_Some (r !! u).
Proof.
  revert x r w r'. fix IH 1. intros x r w r'. destruct x; cbn [eval]; (destruct (_ ≫= cValue); [by intros [= _ ->]|]); try discriminate.
  - destruct (local_of _) as [v|]; [|done]. cbn. destruct (read r v); [|done]. by intros [= _ ->].
  - destruct (local_of _) as [v|]; [|done]. cbn. destruct (read r v); [|done]. by intros [= _ ->].
  - apply IH.
  - destruct ((Op =? INC) || (Op =? DEC)).
    + destruct (step_var x Op r) as [[[a b] r1]|] eqn:Es; [|done]. cbn. intros [= _ ->]. by eapply step_var_dom.
    + destruct (eval x r) as [[a r1]|] eqn:Ex; [|done]. cbn [mbind option_bind fst snd]. intros Hr.
      assert (r1 = r') as <-; [|exact (IH _ _ _ _ Ex)]. revert Hr. destruct (Op =? NOT); [destruct a; try done; by intros [= _ ->]|].
      case_bool_decide; [|done]. destruct (unary_value _ _ a); [|done]. by intros [= _ ->].
  - destruct (step_var x Op r) as [[[a b] r1]|] eqn:Es; [|done]. cbn. intros [= _ ->]. by eapply step_var_dom.
  - destruct (eval x1 r) as [[a r1]|] eqn:Ex; [|done]. cbn [mbind option_bind fst snd]. intros Hr Hu. apply (IH _ _ _ _ Ex).
    assert (Hy : forall (k : value -> option value), (b ← eval x2 r1; v ← k (fst b); Some (v, snd b)) = Some (w, r') -> is_Some (r1 !! u)).
    { intros k. destruct (eval x2 r1) as [[b r2]|] eqn:Ey; [|done]. cbn [mbind option_bind fst snd]. destruct (k b); [|done]. cbn. intros [= _ ->]. by apply (IH _ _ _ _ Ey). }
    assert (Hl : forall f : bool, (if f then b ← eval x2 r1; if typed KindBoolean (fst b) then Some b else None else Some (a, r1)) = Some (w, r') -> is_Some (r1 !! u)).
    { intros []; [|by intros [= _ ->]]. destruct (eval x2 r1) as [[b r2]|] eqn:Ey; [|done]. cbn [mbind option_bind fst snd]. destruct (typed _ b); [|done].
      intros [= _ ->]. by apply (IH _ _ _ _ Ey). }
    destruct (Op =? LAND); [destruct a as [| | | | |f]; try done; exact (Hl f Hr)|].
    destruct (Op =? LOR); [destruct a as [| | | | |f]; try done; apply (Hl (negb f)); by destruct f|].
    destruct (is_comparison Op).
    + apply (Hy (fun b => VBool <$> compare_value Op (kind_at x1) (kind_at x2) a b)). rewrite <- Hr.
      destruct (eval x2 r1) as [[b r2]|]; [|done]. cbn. by destruct (compare_value _ _ _ _ _).
    + destruct (is_shift Op).
      * destruct (eval x2 r1) as [[b r2]|] eqn:Ey; [|done]. cbn [mbind option_bind fst snd] in Hr. revert Hr. case_bool_decide; [|done].
        destruct (shift_value _ _ _ a b); [|done]. intros [= _ ->]. by apply (IH _ _ _ _ Ey).
      * by apply (Hy (fun b => binary_value Op (kind_at x1) (kind_at x2) a b)).
  - destruct (eval x1 r) as [[c r1]|] eqn:Ex; [|done]. cbn [mbind option_bind fst snd]. intros Hr Hu. apply (IH _ _ _ _ Ex).
    destruct c as [| | | | |[]]; try done.
    + destruct (eval x2 r1) as [[b r2]|] eqn:Ey; [|done]. cbn [mbind option_bind fst snd] in Hr. destruct (conv _ _ b); [|done]. injection Hr as _ ->. by apply (IH _ _ _ _ Ey).
    + destruct (eval x3 r1) as [[b r2]|] eqn:Ey; [|done]. cbn [mbind option_bind fst snd] in Hr. destruct (conv _ _ b); [|done]. injection Hr as _ ->. by apply (IH _ _ _ _ Ey).
  - destruct (target_of x1) as [v|]; [|done]. cbn [mbind option_bind]. destruct (Op =? ASSIGN).
    + destruct (eval x2 r) as [[a r1]|] eqn:Ex; [|done]. cbn [mbind option_bind fst snd]. destruct (conv _ _ a); [|done]. cbn [mbind option_bind].
      destruct (assign_to v _ r1) as [r2|] eqn:Ea; [|done]. intros [= _ ->] Hu. eapply (IH _ _ _ _ Ex). by eapply assign_to_dom.
    + destruct (operator_of Op); [|done]. cbn [mbind option_bind]. destruct (read r v); [|done]. cbn [mbind option_bind].
      destruct (eval x2 r) as [[a r1]|] eqn:Ex; [|done]. cbn [mbind option_bind fst snd]. destruct (compound_value _ _ _ _ a); [|done]. cbn [mbind option_bind].
      destruct (assign_to v _ r1) as [r2|] eqn:Ea; [|done]. intros [= _ ->] Hu. eapply (IH _ _ _ _ Ex). by eapply assign_to_dom.
  - destruct (eval x r) as [[a r1]|] eqn:Ex; [|done]. cbn [mbind option_bind fst snd]. destruct (conv _ _ a); [|done]. intros [= _ ->]. exact (IH _ _ _ _ Ex).
Qed.

Section Rec.
Context {E : Emits} (rec_expr : forall x, simple x = true -> expr_ok (rExpr x) x).
Context (rec_stmt : forall s, simple_stmt s = true -> does_ok (rStmt s) (declares s) (eval_stmt s)).
Context (rec_dead : forall s e u e', alive e = false -> rStmt s e = Done u e' -> e' = e).

(** *** Sequences and blocks *)

Lemma each_dead l e u e' : alive e = false -> each rStmt l e = Done u e' -> e' = e.
Proof.
  revert e. induction l as [|s l IH]; intros e Ha E'; cbn [each] in E'; [by injection E'|].
  apply emit_bind_inv in E' as ([] & e1 & E1 & E2). apply (rec_dead s e) in E1 as ->; [|done]. by apply IH.
Qed.

Lemma each_ok l : forallb simple_stmt l = true -> does_ok (each rStmt l) (List.concat (map declares l)) (eval_stmts l).
Proof.
  induction l as [|s l IH]; intros Hl lo e u e' Hlo Ha Hf Hd E'; cbn [each map List.concat] in *.
  - injection E' as _ <-. exists []. split; [apply went_refl|]. intros r o Hlv _ [= <-]. split_and!; [done|done|auto|]. intros stk loc Hh. by exists loc.
  - apply andb_true_iff in Hl as [Hs Hl]. apply emit_bind_inv in E' as ([] & e1 & E1 & E2). apply NoDup_app in Hd as (Hd1 & Hd12 & Hd2).
    destruct (rec_stmt s Hs lo e tt e1 Hlo Ha Hf Hd1 E1) as (c1 & W1 & X1). destruct (alive e1) eqn:Ha1.
    + assert (Hf1 : finallys e1 = []) by (by rewrite (went_finallys _ _ _ _ _ W1)). pose proof (went_labels _ _ _ _ _ W1).
      destruct (IH Hl lo e1 u e' ltac:(lia) Ha1 Hf1 Hd2 E2) as (c2 & W2 & X2). exists (c1 ++ c2). split; [by eapply went_trans|].
      intros r o Hlv Hn Ho. cbn [eval_stmts] in Ho. destruct (eval_stmt s r) as [o1|] eqn:E3; [|done]. cbn [mbind option_bind] in Ho.
      eapply does_seq; [apply X1; [done| |done]|]. { intros v Hv. apply Hn, elem_of_app. auto. }
      destruct o1 as [r1|v]; [|by injection Ho]. intros _ Hl1 Hdom. apply X2; [done| |done]. intros v Hv. apply eq_None_not_Some. intros Hs1.
      destruct (Hdom v Hs1) as [Hr|Hr]; [|by apply (Hd12 v)]. rewrite Hn in Hr; [by destruct Hr|]. apply elem_of_app. auto.
    + apply each_dead in E2 as ->; [|done]. exists (c1 ++ []). split; [eapply went_trans; [exact W1|apply went_refl]|].
      intros r o Hlv Hn Ho. cbn [eval_stmts] in Ho. destruct (eval_stmt s r) as [o1|] eqn:E3; [|done]. cbn [mbind option_bind] in Ho.
      assert (Hx : does (slots e) r c1 (slots e1) false (declares s) o1).
      { apply X1; [done| |done]. intros v Hv. apply Hn, elem_of_app. auto. }
      eapply does_seq; [exact Hx|]. destruct o1 as [r1|v]; [|by injection Ho]. by destruct Hx.
Qed.

(** What a block means: its locals end with it. *)
Definition eval_block (l : list Stmt) (r : env) : option result := o ← eval_stmts l r; Some (finish r o).

Lemma block_ok sp a l b : forallb simple_stmt l = true -> does_ok (block (mkBlock sp a l b)) (List.concat (map declares l)) (eval_block l).
Proof.
  intros Hl lo e u e' Hlo Ha Hf Hd E'. unfold block in E'. apply emit_bind_inv in E' as (m & e0 & [= <- <-] & E').
  apply emit_bind_inv in E' as ([] & e1 & E1 & [= _ <-]). destruct (each_ok l Hl lo e tt e1 Hlo Ha Hf Hd E1) as (c & W & X).
  exists c. destruct W as [O L Y M N S0]. split; [split; try done; cbn; lia|]. intros r o Hlv Hn Ho. unfold eval_block in Ho.
  destruct (eval_stmts l r) as [o1|] eqn:E2; [|done]. injection Ho as <-. specialize (X r o1 Hlv Hn E2). destruct o1 as [r1|v]; cbn [finish]; [|exact X].
  destruct X as (Ha1 & Hl1 & Hdom & X). assert (Hs : forall v, is_Some (r !! v) -> of_ (slots e1) !! v = of_ (slots e) !! v).
  { intros v [w Hv]. apply S0. intros Hin. rewrite Hn in Hv by done. done. }
  assert (Hf' : forall v w, filter (fun p => is_Some (r !! p.1)) r1 !! v = Some w -> r1 !! v = Some w /\ is_Some (r !! v)).
  { intros v w Hv. by apply map_lookup_filter_Some in Hv. }
  split_and!; [done| | |].
  - destruct Hlv as [L1 L2]. split.
    + intros v [w Hv]. apply Hf' in Hv as [_ Hv]. destruct (L1 v Hv) as (s & Hs0 & Hle). exists s. cbn. rewrite Hs by done. done.
    + intros v v' s s' Hne [w Hv] [w' Hv']. apply Hf' in Hv as [_ Hv]. apply Hf' in Hv' as [_ Hv']. cbn. rewrite !Hs by done. by apply L2.
  - intros v [w Hv]. apply Hf' in Hv as [_ Hv]. auto.
  - intros stk loc Hh. destruct (X stk loc Hh) as (loc' & E3 & Hh'). exists loc'. split; [done|]. intros v w Hv. apply Hf' in Hv as [Hv _]. by apply Hh'.
Qed.

(** *** Simple statements *)

(** One emission that keeps the slots and declares nothing. *)
Lemma does_steady m (ev : env -> option env) :
  (forall sl, steady sl m (fun _ c => forall r r', ev r = Some r' -> computes sl r c r' [] [])) ->
  (forall r r' v, ev r = Some r' -> is_Some (r' !! v) -> is_Some (r !! v)) ->
  does_ok m [] (fun r => r ← ev r; Some (Next r)).
Proof.
  intros Hm Hv lo e u e' Hlo Ha _ _ E'. destruct (Hm (slots e) lo e eq_refl Hlo Ha u e' E') as (c & R & Ha' & X). exists c.
  split; [by apply went_ran|]. intros r o Hl _ Ho. destruct (ev r) as [r'|] eqn:Er; [|done]. injection Ho as <-.
  destruct (X r r' Er Hl) as [Hl' X']. rewrite (ran_slots _ _ _ _ R). split_and!; [done|done|eauto|exact X'].
Qed.

Lemma does_ext m D ev ev' : (forall r, ev' r = ev r) -> does_ok m D ev -> does_ok m D ev'.
Proof.
  intros He Hm lo e u e' Hlo Ha Hf Hd E'. destruct (Hm lo e u e' Hlo Ha Hf Hd E') as (c & W & X). exists c. split; [done|].
  intros r o Hl Hn Ho. rewrite He in Ho. by apply X.
Qed.

(** A statement expression, its value taken off. *)
Definition eval_for_effect (x : Expr) (r : env) : option env := a ← eval x r; if typed (kind_at x) (fst a) then Some (snd a) else None.

Lemma eval_effect_dom x r r' v : eval_for_effect x r = Some r' -> is_Some (r' !! v) -> is_Some (r !! v).
Proof.
  unfold eval_for_effect. destruct (eval x r) as [[a r1]|] eqn:Ex; [|done]. cbn. destruct (typed _ a); [|done]. intros [= <-]. by eapply eval_dom.
Qed.

Lemma pop_steady sl x : simple x = true -> steady sl (_ ← rExpr x; pop (Type_ x)) (fun _ c => forall r r', eval_for_effect x r = Some r' -> computes sl r c r' [] []).
Proof.
  intros Hx. eapply steady_bind; [by apply rec_expr|]. intros [] c Hc. unfold pop.
  assert (Hz : (Slots (Type_ x) =? 0) = false) by (pose proof (simple_prim _ Hx) as Px; unfold kind_at in Px; unfold Slots; by destruct (kind_of (Type_ x))).
  rewrite Hz. apply steady_call; [done|]. intros r r' Er. unfold eval_for_effect in Er. destruct (eval x r) as [[a r1]|] eqn:Ex; [|done].
  cbn in Er. destruct (typed _ a) eqn:Ta; [|done]. injection Er as <-. destruct (Hc _ _ _ Ex) as (y & Hy & C). eapply computes_app; [exact C|].
  by eapply pop_computes.
Qed.

Lemma exprStmt_steady sl x : simple x = true -> ConstAt x ≫= cValue = None ->
  steady sl (exprStmt x) (fun _ c => forall r r', eval_for_effect x r = Some r' -> computes sl r c r' [] []).
Proof.
  intros Hx Hk. pose proof (pop_steady sl x Hx) as Hp. destruct x; try exact Hp; cbn [exprStmt].
  - destruct ((Op =? INC) || (Op =? DEC)) eqn:Eo; [|exact Hp]. cbn [simple] in Hx. rewrite Hk, Eo in Hx. apply andb_true_iff in Hx as [_ Hx].
    eapply steady_imp; [by apply incdec_steady|]. intros [] c Hc r r' Er. unfold eval_for_effect in Er. cbn [eval] in Er. rewrite Hk, Eo in Er.
    destruct (step_var x Op r) as [[[a b] r1]|] eqn:Es; [|done]. cbn in Er. destruct (typed _ b); [|done]. injection Er as <-.
    by destruct (Hc _ _ _ _ Es) as (y & _ & C).
  - cbn [simple] in Hx. rewrite Hk in Hx. apply andb_true_iff in Hx as [_ Hx].
    eapply steady_imp; [by apply incdec_steady|]. intros [] c Hc r r' Er. unfold eval_for_effect in Er. cbn [eval] in Er. rewrite Hk in Er.
    destruct (step_var x Op r) as [[[a b] r1]|] eqn:Es; [|done]. cbn in Er. destruct (typed _ a); [|done]. injection Er as <-.
    by destruct (Hc _ _ _ _ Es) as (y & _ & C).
  - pose proof Hx as Hs. cbn [simple] in Hs. rewrite Hk in Hs. rewrite !andb_true_iff in Hs. destruct Hs as [_ [HL HR]].
    eapply steady_imp; [by apply (assign_steady rec_expr sl _ _ _ _ _ _ false HL HR Hk)|]. intros [] c Hc r r' Er. unfold eval_for_effect in Er.
    destruct (eval _ r) as [[a r1]|] eqn:Ex; [|done]. cbn in Er. destruct (typed _ a); [|done]. injection Er as <-.
    by destruct (Hc _ _ _ Ex) as (y & _ & C).
Qed.

(** *** Declarations *)

Definition effect (ev : env -> option env) (r : env) : option result := r ← ev r; Some (Next r).

Lemma slot_width_pos t : 1 <= slot_width t.
Proof. unfold slot_width. cbv zeta. destruct (Z.ltb_spec (Slots t) 1); lia. Qed.

(** The local takes the next slot. *)
Lemma declared_live sl r v : live sl r -> r !! v = None -> let sl' := snd (declare v (FieldType v) sl) in
  live sl' (<[v := None]> r) /\ at_slot sl' v (next sl).
Proof.
  intros [L1 L2] Hn sl'. assert (Hw : next sl' = next sl + vwidth v) by done. assert (Ho : forall u, u <> v -> of_ sl' !! u = of_ sl !! u) by (intros u Hu; apply lookup_insert_ne; done).
  assert (Hv : of_ sl' !! v = Some (next sl)) by apply lookup_insert_eq. pose proof (vwidth_pos v).
  assert (Hd : forall u, u <> v -> is_Some (<[v := None]> r !! u) -> is_Some (r !! u)) by (intros u Hu; by rewrite lookup_insert_ne).
  split; [|exact Hv]. split.
  - intros u Hu. destruct (decide (u = v)) as [->|Hne]; [exists (next sl); split; [done|lia]|].
    destruct (L1 u (Hd u Hne Hu)) as (s & Hs & Hle). exists s. rewrite Ho by done. split; [done|lia].
  - intros u u' s s' Hne Hu Hu' Hs Hs'. destruct (decide (u = v)) as [->|Hv1]; [|destruct (decide (u' = v)) as [->|Hv2]].
    + rewrite Hv in Hs. injection Hs as <-. rewrite Ho in Hs' by done. destruct (L1 u' (Hd u' ltac:(done) Hu')) as (s1 & Hs1 & Hle). right.
      rewrite Hs1 in Hs'. injection Hs' as <-. lia.
    + rewrite Hv in Hs'. injection Hs' as <-. rewrite Ho in Hs by done. destruct (L1 u (Hd u ltac:(done) Hu)) as (s1 & Hs1 & Hle). left.
      rewrite Hs1 in Hs. injection Hs as <-. lia.
    + rewrite Ho in Hs, Hs' by done. apply (L2 u u'); auto.
Qed.

Lemma holds_declared sl sl' (r : env) v loc : (forall u, u <> v -> of_ sl' !! u = of_ sl !! u) -> holds sl r loc -> holds sl' (<[v := None]> r) loc.
Proof.
  intros Ho Hh u w Hu. destruct (decide (u = v)) as [->|Hne]; [by rewrite lookup_insert_eq in Hu|]. rewrite lookup_insert_ne in Hu by done.
  rewrite Ho by done. by apply Hh.
Qed.

Lemma declare_local_ok d : simple_local d = true -> does_ok (declare_local d) (declared_by d) (effect (eval_local d)).
Proof.
  destruct d as [sp name dims a Init]. unfold simple_local, declare_local, declared_by, eval_local. intros Hs.
  destruct (use_var (AIdent name)) as [v|].
  2: { intros lo e u e' Hlo Ha _ _ [= _ <-]. exists []. split; [apply went_refl|]. intros r o Hl _ [= <-]. split_and!; [done|done|auto|].
       intros stk loc Hh. by exists loc. }
  apply andb_true_iff in Hs as [[Pv _]%andb_true_iff Hi]. intros lo e u e' Hlo Ha Hf _ E'.
  apply emit_bind_inv in E' as (s & e1 & E1 & E2). unfold slots_declare in E1. change (declare v (FieldType v) (slots e)) with
    (next (slots e), snd (declare v (FieldType v) (slots e))) in E1. cbv iota in E1. injection E1 as <- <-.
  set (sl' := snd (declare v (FieldType v) (slots e))) in *. set (e1 := set_slots sl' e) in *.
  assert (W1 : went lo [v] e e1 []).
  { split; try done; [by rewrite app_nil_r|constructor| |].
    - cbn. pose proof (slot_width_pos (FieldType v)). lia.
    - intros u0 Hu. apply lookup_insert_ne. intros ->. apply Hu. by left. }
  assert (Hst : forall r, live (slots e) r -> r !! v = None -> live sl' (<[v := None]> r) /\ at_slot sl' v (next (slots e)) /\
      forall loc, holds (slots e) r loc -> holds sl' (<[v := None]> r) loc).
  { intros r Hl Hn. destruct (declared_live (slots e) r v Hl Hn) as [Hl' Hv]. split_and!; [done|done|]. intros loc. apply holds_declared.
    intros u0 Hu. apply lookup_insert_ne. done. }
  assert (Hdom : forall (r r1 : env), (forall x, is_Some (r1 !! x) -> is_Some (<[v := None]> r !! x)) -> forall x, is_Some (r1 !! x) -> is_Some (r !! x) \/ x ∈ [v]).
  { intros r r1 Hr x Hx. destruct (decide (x = v)) as [->|Hne]; [right; by left|]. apply Hr in Hx. rewrite lookup_insert_ne in Hx by done. auto. }
  destruct Init as [i|]; cbn [maybe] in E2.
  - destruct i as [x| | | | | |]; try done.
    assert (Hm : steady sl' (_ ← exprAs x (FieldType v); storeLocal (next (slots e)) (FieldType v)) (fun _ c => forall r r1 w r', at_slot sl' v (next (slots e)) ->
      eval x r = Some (w, r1) -> (u ← conv (kind_at x) (kind_of_var v) w; assign_to v u r1) = Some r' -> computes sl' r c r' [] [])).
    { eapply steady_bind; [by apply (exprAs_ok rec_expr)|]. intros [] c Hc. apply steady_call; [done|]. intros r r1 w r' Hv Ex Hr.
      destruct (conv _ _ w) as [w'|] eqn:Ew; [|done]. cbn in Hr. apply assign_to_spec in Hr as [Hin ->].
      destruct (conv_typed _ _ _ _ Ew (simple_prim _ Hi) Pv) as [_ Tw]. destruct (typed_word _ _ Tw) as [y Hy]. eapply computes_app; [eapply Hc; [exact Ex|]|].
      - change (kind_of (FieldType v)) with (kind_of_var v). by rewrite (stacked_of_conv _ _ _ _ Ew).
      - by apply store_computes. }
    destruct (Hm lo e1 eq_refl Hlo Ha u e' E2) as (c & R & Ha' & X). exists c. split; [apply (went_trans lo [v] [] e e1 e' [] c W1), went_ran, R|].
    intros r o Hl Hn Ho. destruct (Hst r Hl (Hn v ltac:(by left))) as (Hl' & Hv & Hh'). unfold effect in Ho.
    destruct (eval x (<[v := None]> r)) as [[w r1]|] eqn:Ex; [|done]. cbn [mbind option_bind fst snd] in Ho.
    destruct (conv (kind_at x) (kind_of_var v) w) as [w'|] eqn:Ew; [|done]. cbn [mbind option_bind] in Ho.
    destruct (assign_to v w' r1) as [r'|] eqn:Er; [|done]. injection Ho as <-.
    destruct (X _ _ _ r' Hv Ex ltac:(by rewrite Ew) Hl') as [Hl2 X']. rewrite (ran_slots _ _ _ _ R). split_and!; [done|done| |].
    + apply (Hdom r). intros x0 Hx0. eapply eval_dom; [exact Ex|]. by eapply assign_to_dom.
    + intros stk loc Hh. apply X', Hh', Hh.
  - injection E2 as _ <-. exists []. split; [exact W1|]. intros r o Hl Hn [= <-]. destruct (Hst r Hl (Hn v ltac:(by left))) as (Hl' & Hv & Hh').
    split_and!; [done|done| |].
    + apply (Hdom r). done.
    + intros stk loc Hh. exists loc. split; [done|]. by apply Hh'.
Qed.

Lemma declare_local_alive d e u e' : simple_local d = true -> alive e = true -> declare_local d e = Done u e' -> alive e' = true.
Proof.
  destruct d as [sp name dims a Init]. unfold simple_local, declare_local. intros Hs Ha. destruct (use_var (AIdent name)) as [v|]; [|by intros [= _ <-]].
  apply andb_true_iff in Hs as [[Pv _]%andb_true_iff Hi]. intros (s & e1 & E1 & E2)%emit_bind_inv.
  assert (Ha1 : alive e1 = true) by (unfold slots_declare in E1; destruct (declare _ _ _); by injection E1 as _ <-).
  destruct Init as [[x| | | | | |]|]; try done; [|by injection E2 as _ <-]. cbn [maybe] in E2.
  assert (Hm : steady (slots e1) (_ ← exprAs x (FieldType v); storeLocal s (FieldType v)) (fun _ _ => True)).
  { eapply steady_bind; [by apply (exprAs_ok rec_expr)|]. intros [] c Hc. by apply steady_call. }
  by destruct (Hm O e1 eq_refl ltac:(lia) Ha1 u e' E2) as (c & _ & Ha' & _).
Qed.

Lemma does_declared d D f : simple_local d = true -> does_ok (each declare_local D) (List.concat (map declared_by D)) (effect f) ->
  does_ok (each declare_local (d :: D)) (List.concat (map declared_by (d :: D))) (effect (fun r => r ← eval_local d r; f r)).
Proof.
  intros Hs HD lo e u e' Hlo Ha Hf Hd E'. cbn [each map List.concat] in *. apply emit_bind_inv in E' as ([] & e1 & E1 & E2).
  apply NoDup_app in Hd as (Hd1 & Hd12 & Hd2). pose proof (declare_local_alive d e tt e1 Hs Ha E1) as Ha1.
  destruct (declare_local_ok d Hs lo e tt e1 Hlo Ha Hf Hd1 E1) as (c1 & W1 & X1).
  assert (Hf1 : finallys e1 = []) by (by rewrite (went_finallys _ _ _ _ _ W1)). pose proof (went_labels _ _ _ _ _ W1).
  destruct (HD lo e1 u e' ltac:(lia) Ha1 Hf1 Hd2 E2) as (c2 & W2 & X2). exists (c1 ++ c2). split; [by eapply went_trans|].
  intros r o Hl Hn Ho. unfold effect in Ho. destruct (eval_local d r) as [r1|] eqn:E3; [|done]. cbn [mbind option_bind] in Ho.
  eapply (does_seq _ _ _ _ _ _ (Next r1)); [apply X1; [done| |unfold effect; by rewrite E3]|]. { intros v Hv. apply Hn, elem_of_app. auto. }
  intros _ Hl1 Hdom. apply X2; [done| |exact Ho]. intros v Hv. apply eq_None_not_Some. intros Hs1.
  destruct (Hdom v Hs1) as [Hr|Hr]; [|by apply (Hd12 v)]. rewrite Hn in Hr; [by destruct Hr|]. apply elem_of_app. auto.
Qed.

Lemma declares_ok l : forallb simple_local l = true -> does_ok (each declare_local l) (List.concat (map declared_by l)) (effect (eval_locals l)).
Proof.
  induction l as [|d l IH]; intros Hl.
  - intros lo e u e' Hlo Ha _ _ [= _ <-]. exists []. split; [apply went_refl|]. intros r o Hlv _ [= <-]. split_and!; [done|done|auto|].
    intros stk loc Hh. by exists loc.
  - cbn [forallb] in Hl. apply andb_true_iff in Hl as [Hs Hl]. by apply (does_declared d l (eval_locals l)), IH.
Qed.

(** *** Return *)

Definition eval_return (x : option Expr) (r : env) : option result :=
  match x with
  | None => Some (Ret None)
  | Some x => a ← eval x r; v ← conv (kind_at x) (kind_of returnType) (fst a); Some (Ret (Some v))
  end.

Lemma return_ok x : match x with Some x => simple x && IsPrimitive (kind_of returnType) | None => true end = true ->
  does_ok (returnStmt x) [] (eval_return x).
Proof.
  intros Hx lo e u e' Hlo Ha Hf _ E'. destruct x as [x|]; cbn [returnStmt] in E'.
  - apply andb_true_iff in Hx as [Hx Pr]. apply emit_bind_inv in E' as ([] & e1 & E1 & E').
    destruct (exprAs_ok rec_expr (slots e) x returnType Hx Pr lo e eq_refl Hlo Ha tt e1 E1) as (c & R & Ha1 & X).
    assert (Hf1 : finallys e1 = []) by (by rewrite (ran_finallys _ _ _ _ R)). unfold get, mbind, Emit_bind in E'. rewrite Hf1 in E'. cbn in E'.
    injection E' as _ <-. exists (c ++ [CodeWriter.CReturn]). split.
    + destruct R as [O L S0 _ Y M]. split; cbn; rewrite ?S0; try done; [by rewrite O, app_assoc|apply Forall_app; split; [done|repeat constructor]].
    + intros r o Hl _ Ho. cbn [eval_return] in Ho. destruct (eval x r) as [[a r1]|] eqn:Ex; [|done]. cbn [mbind option_bind fst] in Ho.
      destruct (conv _ _ a) as [v|] eqn:Ev; [|done]. injection Ho as <-. destruct (conv_typed _ _ _ _ Ev (simple_prim _ Hx) Pr) as [_ Tv].
      destruct (typed_word _ _ Tv) as [y Hy]. exists [y]. split; [by exists y|]. intros stk loc Hh.
      destruct (X _ _ _ y Ex ltac:(by rewrite (stacked_of_conv _ _ _ _ Ev)) Hl) as [_ X']. destruct (X' stk loc Hh) as (loc' & E3 & _). cbn [app] in E3.
      by rewrite exec_app, E3.
  - unfold runFinallys, get, mbind, Emit_bind in E'. rewrite Hf in E'. cbn in E'. injection E' as _ <-. exists [CodeWriter.CReturn]. split.
    + split; cbn; try done. repeat constructor.
    + intros r o Hl _ [= <-]. exists []. split; [done|]. intros stk loc Hh. done.
Qed.

(** *** If *)

Definition eval_if (C : Expr) (X : Stmt) (Y : option Stmt) (r : env) : option result :=
  c ← eval C r;
  match fst c, Y with
  | VBool true, _ => eval_stmt X (snd c)
  | VBool false, Some e => eval_stmt e (snd c)
  | VBool false, None => Some (Next (snd c))
  | _, _ => None
  end.

Lemma eval_if_spec C X Y r o : eval_if C X Y r = Some o -> exists b r1, eval C r = Some (VBool b, r1) /\
  (if b : bool then eval_stmt X r1 else match Y with Some e => eval_stmt e r1 | None => Some (Next r1) end) = Some o.
Proof.
  unfold eval_if. destruct (eval C r) as [[c r1]|]; [|done]. cbn. destruct c as [| | | | |[]]; try done; [intros Ho; exists true, r1; done|].
  intros Ho. exists false, r1. split; [done|]. destruct Y; exact Ho.
Qed.

(** The condition of an [if] with its branch: what is emitted, and what running it does. *)
Record branched (lo : nat) (C : Expr) (X : Stmt) (e e2 : emitter) (l : nat) (c1 c2 : list CodeWriter.cmd) : Prop := {
  br_went : went lo (declares X) e e2 (CodeWriter.CNewLabel :: CodeWriter.CNewLabel :: c1 ++ c2);
  br_labels : (l = nlabels e /\ S (S l) <= nlabels e2)%nat;
  br_fresh : fresh (S (S l)) c2;
  br_cond r b r1 : eval C r = Some (VBool b, r1) -> live (slots e) r -> live (slots e) r1 /\
    forall stk loc, holds (slots e) r loc -> exists loc', exec c1 (Run stk loc) = Some (if b then Run stk loc' else Jump l stk loc') /\ holds (slots e) r1 loc';
  br_then r o : live (slots e) r -> (forall v, v ∈ declares X -> r !! v = None) -> eval_stmt X r = Some o ->
    does (slots e) r c2 (slots e2) (alive e2) (declares X) o }.

Lemma branch_ok lo C X e u1 e1 u2 e2 : simple C = true -> is_boolean C = true -> simple_stmt X = true -> (lo <= nlabels e)%nat -> alive e = true ->
  finallys e = [] -> NoDup (declares X) -> cond C (nlabels e) false (with_label_made (with_label_made e)) = Done u1 e1 -> rStmt X e1 = Done u2 e2 ->
  exists c1 c2, branched lo C X e e2 (nlabels e) c1 c2.
Proof.
  intros HC KC HX Hlo Ha Hf Hd E1 E2. set (l := nlabels e) in *.
  destruct (cond_all rec_expr C HC (boolean_kind _ KC) l false (S (S l)) (with_label_made (with_label_made e)) ltac:(cbn; lia) ltac:(lia) Ha u1 e1 E1)
    as (c1 & R1 & Ha1 & HD). cbn [slots with_label_made] in HD. pose proof (ran_labels _ _ _ _ R1) as L1. pose proof (ran_slots _ _ _ _ R1) as S1. cbn in L1, S1.
  assert (Hf1 : finallys e1 = []) by (by rewrite (ran_finallys _ _ _ _ R1)).
  destruct (rec_stmt X HX (S (S l)) e1 u2 e2 ltac:(lia) Ha1 Hf1 Hd E2) as (c2 & W2 & HT). rewrite S1 in HT.
  pose proof (went_labels _ _ _ _ _ W2) as L2. exists c1, c2. split.
  - assert (W0 : went lo [] e (with_label_made (with_label_made e)) [CodeWriter.CNewLabel; CodeWriter.CNewLabel]).
    { split; try done; [cbn; by rewrite <- app_assoc|cbn; lia|repeat constructor]. }
    apply (went_trans lo [] (declares X) _ _ _ _ (c1 ++ c2) W0), (went_trans lo [] (declares X) _ e1).
    + eapply went_weaken; [|by apply went_ran]. lia.
    + eapply went_weaken; [|exact W2]. lia.
  - split; [done|lia].
  - apply W2.
  - intros r b r1 Eb Hl. apply HD in Eb. destruct (Eb Hl) as [Hl1 X1]. split; [done|]. intros stk loc Hh. destruct (X1 stk loc Hh) as (loc' & E3 & Hh').
    exists loc'. split; [|done]. cbn [app] in E3. by destruct b.
  - exact HT.
Qed.

Lemma if_then_ok C X : simple C = true -> is_boolean C = true -> simple_stmt X = true ->
  does_ok (ifStmt C X None) (declares X ++ []) (eval_if C X None).
Proof.
  intros HC KC HX lo e u e' Hlo Ha Hf Hd E'. rewrite app_nil_r in *. unfold ifStmt in E'.
  apply emit_bind_inv in E' as (l & e0 & [= <- <-] & E'). apply emit_bind_inv in E' as (l' & e0 & [= <- <-] & E').
  apply emit_bind_inv in E' as (u1 & e1 & E1 & E'). apply emit_bind_inv in E' as (u2 & e2 & E2 & [= _ <-]).
  destruct (branch_ok lo C X e u1 e1 u2 e2 HC KC HX Hlo Ha Hf Hd E1 E2) as (c1 & c2 & B). set (l := nlabels e) in *.
  exists (CodeWriter.CNewLabel :: CodeWriter.CNewLabel :: c1 ++ c2 ++ [CodeWriter.CMark l]). split.
  { destruct (br_went _ _ _ _ _ _ _ _ B) as [O L Y M N S0]. split; try done.
    - cbn. rewrite O. by rewrite <- app_assoc, !app_comm_cons, <- app_assoc.
    - rewrite !app_comm_cons, app_assoc. apply Forall_app. split; [by rewrite <- !app_comm_cons|]. repeat constructor. done. }
  intros r o Hl Hn Ho. apply eval_if_spec in Ho as (b & r1 & Eb & Ho). destruct (br_cond _ _ _ _ _ _ _ _ B r b r1 Eb Hl) as [Hl1 X1].
  assert (Hdom : forall v, is_Some (r1 !! v) -> is_Some (r !! v)) by (intros v; by eapply eval_dom).
  assert (Hn1 : forall v, v ∈ declares X -> r1 !! v = None).
  { intros v Hv. apply eq_None_not_Some. intros [w Hw]%Hdom. by rewrite Hn in Hw. }
  destruct b.
  - pose proof (br_then _ _ _ _ _ _ _ _ B r1 o Hl1 Hn1 Ho) as HT. destruct o as [r2|v].
    + destruct HT as (Ha2 & Hl2 & Hdom2 & X2). split_and!; [done|done| |].
      * intros v Hv. destruct (Hdom2 v Hv); auto.
      * intros stk loc Hh. destruct (X1 stk loc Hh) as (loc1 & Y1 & Hh1). destruct (X2 stk loc1 Hh1) as (loc2 & Y2 & Hh2). exists loc2. split; [|done].
        rewrite !exec_new, exec_app, Y1. cbn [mbind option_bind]. by rewrite exec_app, Y2.
    + destruct HT as (ws & Hws & X2). exists ws. split; [done|]. intros stk loc Hh. destruct (X1 stk loc Hh) as (loc1 & Y1 & Hh1).
      rewrite !exec_new, exec_app, Y1. cbn [mbind option_bind]. rewrite exec_app, X2 by done. apply exec_halt.
  - injection Ho as <-. destruct (br_labels _ _ _ _ _ _ _ _ B) as [_ Hll]. pose proof (went_live _ _ _ _ _ r1 (br_went _ _ _ _ _ _ _ _ B) Hn1) as Hs. split_and!; [done| | |].
    + eapply live_mono; [exact Hl1|apply (br_went _ _ _ _ _ _ _ _ B)|exact Hs].
    + auto.
    + intros stk loc Hh. destruct (X1 stk loc Hh) as (loc1 & Y1 & Hh1). exists loc1. split; [|by eapply holds_mono].
      rewrite !exec_new, exec_app, Y1. cbn [mbind option_bind]. rewrite exec_app, (exec_skip (S (S l))); [apply exec_mark|apply B|lia].
Qed.

(** From the end of the one branch to the beginning of the other. *)
Definition skips (b : bool) (l : nat) : list CodeWriter.cmd := if b then [CodeWriter.CGoto l] else [].
Definition lands (b : bool) (l : nat) : list CodeWriter.cmd := if b then [CodeWriter.CMark l] else [].

Definition at_else (l l' : nat) (e : emitter) : emitter :=
  mkEmitter (out e ++ skips (alive e) l' ++ [CodeWriter.CMark l]) (nlabels e) (slots e) (lastLine e) true (frames e) (finallys e).

Lemma to_else l l' e u e' : (_ ← when (alive e) (_ ← Goto l'; dead); mark l) e = Done u e' -> e' = at_else l l' e.
Proof. unfold at_else. destruct (alive e); cbn; intros [= _ <-]; cbn; rewrite ?app_nil_r, <- ?app_assoc; reflexivity. Qed.

Lemma went_else lo l l' e : (lo <= l)%nat -> went lo [] e (at_else l l' e) (skips (alive e) l' ++ [CodeWriter.CMark l]).
Proof. intros Hl. split; try done. apply Forall_app. split; [destruct (alive e); repeat constructor|]. by repeat constructor. Qed.

Lemma else_runs l b a c2 c3 c1 stk loc loc1 m m' : exec c1 (Run stk loc) = Some (Jump l stk loc1) -> fresh (S (S l)) c2 ->
  exec c3 (Run stk loc1) = Some m -> exec (lands a (S l)) m = Some m' ->
  exec (CodeWriter.CNewLabel :: CodeWriter.CNewLabel :: (c1 ++ c2) ++ (skips b (S l) ++ [CodeWriter.CMark l]) ++ c3 ++ lands a (S l)) (Run stk loc) = Some m'.
Proof.
  intros X1 F2 X3 X4. rewrite !exec_new, !exec_app, X1. cbn [mbind option_bind]. rewrite (exec_skip (S (S l))) by (done || lia).
  cbn [mbind option_bind]. rewrite !exec_app. replace (exec (skips b (S l)) (Jump l stk loc1)) with (Some (Jump l stk loc1)) by (by destruct b).
  cbn [mbind option_bind]. rewrite exec_mark. cbn [mbind option_bind]. by rewrite exec_app, X3.
Qed.

Lemma then_runs l b a c2 c3 c1 stk loc loc1 m m' : exec c1 (Run stk loc) = Some (Run stk loc1) -> exec c2 (Run stk loc1) = Some m ->
  exec ((skips b (S l) ++ [CodeWriter.CMark l]) ++ c3 ++ lands a (S l)) m = Some m' ->
  exec (CodeWriter.CNewLabel :: CodeWriter.CNewLabel :: (c1 ++ c2) ++ (skips b (S l) ++ [CodeWriter.CMark l]) ++ c3 ++ lands a (S l)) (Run stk loc) = Some m'.
Proof. intros X1 X2 X3. rewrite !exec_new, exec_app, exec_app, X1. cbn [mbind option_bind]. rewrite X2. exact X3. Qed.

Lemma if_else_ok C X Y : simple C = true -> is_boolean C = true -> simple_stmt X = true -> simple_stmt Y = true ->
  does_ok (ifStmt C X (Some Y)) (declares X ++ declares Y) (eval_if C X (Some Y)).
Proof.
  intros HC KC HX HY lo e u e' Hlo Ha Hf Hd E'. apply NoDup_app in Hd as (HdX & Hd12 & HdY). unfold ifStmt in E'.
  apply emit_bind_inv in E' as (l & e0 & [= <- <-] & E'). apply emit_bind_inv in E' as (l' & e0 & [= <- <-] & E').
  apply emit_bind_inv in E' as (u1 & e1 & E1 & E'). apply emit_bind_inv in E' as (u2 & e2 & E2 & E').
  destruct (branch_ok lo C X e u1 e1 u2 e2 HC KC HX Hlo Ha Hf HdX E1 E2) as (c1 & c2 & B). set (l := nlabels e) in *.
  apply emit_bind_inv in E' as (b & e2' & [= <- <-] & E').
  assert (Ee : exists u4 e4 u5 e5 b5, (_ ← when (alive e2) (_ ← Goto (S l); dead); mark l) e2 = Done u4 e4 /\ rStmt Y e4 = Done u5 e5 /\
    b5 = alive e5 /\ when (b5 || alive e2) (mark (S l)) e5 = Done u e').
  { apply emit_bind_inv in E' as (u3 & e3 & E3 & E'). apply emit_bind_inv in E' as (u4 & e4 & E4 & E'). apply emit_bind_inv in E' as (u5 & e5 & E5 & E').
    apply emit_bind_inv in E' as (b5 & e6 & [= <- <-] & E6). exists u4, e4, u5, e5, (alive e5). split_and!; try done.
    unfold mbind at 1, Emit_bind at 1. rewrite E3. exact E4. }
  clear E'. destruct Ee as (u4 & e4 & u5 & e5 & b5 & E4 & E5 & -> & E6). apply to_else in E4 as ->.
  pose proof (br_labels _ _ _ _ _ _ _ _ B) as [_ Hll]. pose proof (br_went _ _ _ _ _ _ _ _ B) as W1.
  assert (Hf2 : finallys (at_else l (S l) e2) = []) by (cbn; by rewrite (went_finallys _ _ _ _ _ W1)).
  destruct (rec_stmt Y HY (S (S l)) (at_else l (S l) e2) u5 e5 ltac:(cbn; lia) eq_refl Hf2 HdY E5) as (c3 & W3 & HE). cbn [slots at_else] in HE.
  assert (Ea : e' = mkEmitter (out e5 ++ lands (alive e5 || alive e2) (S l)) (nlabels e5) (slots e5) (lastLine e5) (alive e5 || alive e2) (frames e5) (finallys e5)).
  { destruct (alive e5 || alive e2) eqn:Eo; cbn in E6; injection E6 as _ <-; cbn; [done|]. rewrite app_nil_r. apply orb_false_iff in Eo as [<- _]. by destruct e5. }
  exists (CodeWriter.CNewLabel :: CodeWriter.CNewLabel :: (c1 ++ c2) ++ (skips (alive e2) (S l) ++ [CodeWriter.CMark l]) ++ c3 ++ lands (alive e5 || alive e2) (S l)). split.
  { rewrite !app_comm_cons. apply (went_trans _ _ _ _ e2); [exact W1|]. apply (went_trans lo [] (declares Y) _ (at_else l (S l) e2)); [by apply went_else|].
    subst e'. destruct W3 as [O L Y0 M N S0]. split; try done.
    - cbn [out]. by rewrite O, app_assoc.
    - apply Forall_app. split; [eapply fresh_weaken; [|exact M]; lia|]. destruct (alive e5 || alive e2); repeat constructor. lia. }
  intros r o Hl Hn Ho. apply eval_if_spec in Ho as (b & r1 & Eb & Ho). destruct (br_cond _ _ _ _ _ _ _ _ B r b r1 Eb Hl) as [Hl1 X1].
  assert (Hdom : forall v, is_Some (r1 !! v) -> is_Some (r !! v)) by (intros v; by eapply eval_dom).
  assert (Hn1 : forall v, v ∈ declares X ++ declares Y -> r1 !! v = None).
  { intros v Hv. apply eq_None_not_Some. intros [w Hw]%Hdom. by rewrite Hn in Hw. }
  assert (HnX : forall v, v ∈ declares X -> r1 !! v = None) by (intros v Hv; apply Hn1, elem_of_app; auto).
  assert (HnY : forall v, v ∈ declares Y -> r1 !! v = None) by (intros v Hv; apply Hn1, elem_of_app; auto).
  subst e'. destruct b.
  - pose proof (br_then _ _ _ _ _ _ _ _ B r1 o Hl1 HnX Ho) as HT. destruct o as [r2|v].
    + destruct HT as (Ha2 & Hl2 & Hdom2 & X2). rewrite Ha2, orb_true_r in *. cbn [slots alive].
      assert (Hs : forall v, is_Some (r2 !! v) -> of_ (slots e5) !! v = of_ (slots e2) !! v).
      { apply (went_live _ _ _ _ _ r2 W3). intros v Hv. apply eq_None_not_Some. intros Hs2. destruct (Hdom2 v Hs2) as [Hr|Hr]; [|by apply (Hd12 v)].
        rewrite HnY in Hr by done. by destruct Hr. }
      split_and!; [done| | |].
      * eapply live_mono; [exact Hl2|apply W3|exact Hs].
      * intros v Hv. rewrite elem_of_app. destruct (Hdom2 v Hv); auto.
      * intros stk loc Hh. destruct (X1 stk loc Hh) as (loc1 & Y1 & Hh1). destruct (X2 stk loc1 Hh1) as (loc2 & Y2 & Hh2). exists loc2.
        split; [|by eapply holds_mono]. eapply then_runs; [exact Y1|exact Y2|]. cbn [skips lands app exec exec1 mbind option_bind].
        replace (Nat.eqb l (S l)) with false by (symmetry; apply Nat.eqb_neq; lia). rewrite exec_app, (exec_skip (S (S l))); [apply exec_mark|apply W3|lia].
    + destruct HT as (ws & Hws & X2). exists ws. split; [done|]. intros stk loc Hh. destruct (X1 stk loc Hh) as (loc1 & Y1 & Hh1).
      eapply then_runs; [exact Y1|by apply X2|apply exec_halt].
  - assert (Hs : forall v, is_Some (r1 !! v) -> of_ (slots e2) !! v = of_ (slots e) !! v) by apply (went_live _ _ _ _ _ r1 W1 HnX).
    assert (Hl2 : live (slots e2) r1) by (eapply live_mono; [exact Hl1|apply W1|exact Hs]).
    specialize (HE r1 o Hl2 HnY Ho). destruct o as [r2|v].
    + destruct HE as (Ha5 & Hl5 & Hdom5 & X3). rewrite Ha5 in *. cbn [orb slots alive]. split_and!; [done|done| |].
      * intros v Hv. rewrite elem_of_app. destruct (Hdom5 v Hv); auto.
      * intros stk loc Hh. destruct (X1 stk loc Hh) as (loc1 & Y1 & Hh1). destruct (X3 stk loc1 ltac:(by eapply holds_mono)) as (loc3 & Y3 & Hh3).
        exists loc3. split; [|done]. eapply else_runs; [exact Y1|apply B|exact Y3|done].
    + destruct HE as (ws & Hws & X3). exists ws. split; [done|]. intros stk loc Hh. destruct (X1 stk loc Hh) as (loc1 & Y1 & Hh1).
      eapply else_runs; [exact Y1|apply B|apply X3; by eapply holds_mono|apply exec_halt].
Qed.

(** *** Every statement *)

Context (rec_block : forall sp a l b, forallb simple_stmt l = true -> does_ok (rBlock (mkBlock sp a l b)) (List.concat (map declares l)) (eval_block l)).

(** What a statement means, reachable. *)
Definition eval_node (s : Stmt) : env -> option result :=
  match s with
  | SBlock (mkBlock _ _ Stmts _) => eval_block Stmts
  | EmptyStmt _ => fun r => Some (Next r)
  | ExprStmt _ X => effect (eval_for_effect X)
  | DeclStmt _ (DVar (mkVarDecl _ _ _ Names _)) => effect (eval_locals Names)
  | IfStmt _ _ Cond Then _ Else => eval_if Cond Then Else
  | ReturnStmt _ _ x => eval_return x
  | _ => fun _ => None
  end.

Lemma eval_stmt_node s r : eval_stmt s r = if UnreachableAt s then None else eval_node s r.
Proof.
  destruct s as [b| | |sp d| | | | | | | | | | | | | | | | | ]; try (cbn [eval_stmt eval_node]; by destruct (UnreachableAt _)).
  - destruct b as [sp a l b]. cbn [eval_stmt eval_node]. destruct (UnreachableAt _); [done|]. unfold eval_block.
    apply (f_equal (fun x => o ← x; Some (finish r o))). generalize r. induction l as [|s l IH]; intros r0; [done|]. cbn [eval_stmts].
    destruct (eval_stmt s r0) as [[r1|v]|]; first [done | apply IH].
  - cbn [eval_stmt eval_node]. destruct (UnreachableAt _); [done|]. unfold effect, eval_for_effect. destruct (eval X r) as [[a r1]|]; [|done]. cbn.
    by destruct (typed _ a).
  - destruct d; cbn [eval_stmt eval_node]; try (by destruct (UnreachableAt _)). destruct v. by destruct (UnreachableAt _).
Qed.

Lemma stmt_node_ok s : simple_stmt s = true -> does_ok (stmt_node s) (declares s) (eval_node s).
Proof.
  intros Hs. destruct s as [b| | |sp d| | | | | | | | | | | | | | | | | ]; try done; cbn [stmt_node].
  - destruct b as [sp a l b]. by apply rec_block.
  - intros lo e u e' Hlo Ha _ _ [= _ <-]. exists []. split; [apply went_refl|]. intros r o Hl _ [= <-]. split_and!; [done|done|auto|].
    intros stk loc Hh. by exists loc.
  - cbn [simple_stmt] in Hs. apply andb_true_iff in Hs as [Hx Hk]. apply does_steady; [|apply eval_effect_dom].
    intros sl. apply exprStmt_steady; [done|]. by destruct (ConstAt X ≫= cValue).
  - destruct d; try done. destruct v. by apply declares_ok.
  - cbn [simple_stmt] in Hs. rewrite !andb_true_iff in Hs. destruct Hs as [[[HC KC] HX] HY]. destruct Else as [Y|].
    + by apply if_else_ok.
    + by apply if_then_ok.
  - by apply return_ok.
Qed.

Lemma stmt_ok s : simple_stmt s = true -> does_ok (stmt s) (declares s) (eval_stmt s).
Proof.
  intros Hs lo e u e' Hlo Ha Hf Hd E'. unfold stmt in E'. apply emit_bind_inv in E' as (b & e0 & [= <- <-] & E'). rewrite Ha in E'. cbn [negb orb] in E'.
  destruct (UnreachableAt s) eqn:Eu.
  { injection E' as _ <-. exists []. split; [apply went_refl|]. intros r o _ _ Ho. by rewrite eval_stmt_node, Eu in Ho. }
  apply emit_bind_inv in E' as (u1 & e1 & E1 & E'). destruct (line_ok lo _ _ _ _ E1) as (c1 & R & Ha1 & X1).
  assert (Hf1 : finallys e1 = []) by (by rewrite (ran_finallys _ _ _ _ R)). pose proof (ran_labels _ _ _ _ R).
  destruct (stmt_node_ok s Hs lo e1 u e' ltac:(lia) ltac:(congruence) Hf1 Hd E') as (c2 & W & X2). exists (c1 ++ c2).
  split; [apply (went_trans lo [] (declares s) _ e1); [by apply went_ran|done]|].
  intros r o Hl Hn Ho. rewrite eval_stmt_node, Eu in Ho. eapply does_after; [exact R| |exact Hl| |].
  - apply computes_pure. intros stk loc. apply X1.
  - apply X2; [|done|done]. by rewrite (ran_slots _ _ _ _ R).
  - done.
Qed.
End Rec.

(** ** Bodies *)

Lemma stmt_dead `{Emits} s e u e' : alive e = false -> stmt s e = Done u e' -> e' = e.
Proof. intros Ha. unfold stmt, Alive, get, mbind, Emit_bind. rewrite Ha. by intros [= _ <-]. Qed.

Lemma bodies_ok n :
  (forall s, simple_stmt s = true -> does_ok (rStmt (Emits := emits n) s) (declares s) (eval_stmt s)) /\
  (forall sp a l b, forallb simple_stmt l = true -> does_ok (rBlock (Emits := emits n) (mkBlock sp a l b)) (List.concat (map declares l)) (eval_block l)) /\
  (forall s e u e', alive e = false -> rStmt (Emits := emits n) s e = Done u e' -> e' = e).
Proof.
  induction n as [|n (IHs & IHb & IHd)]; [split_and!; by repeat intro|]. split_and!.
  - intros s Hs. apply (stmt_ok (E := emits n)); [apply emits_ok|exact IHs|exact IHb|exact Hs].
  - intros sp a l b Hl. by apply (block_ok (E := emits n)).
  - intros s e u e'. apply (stmt_dead (H2 := emits n)).
Qed.

Lemma body_runs n i m sp a l b s u e r o :
  forallb simple_stmt l = true -> NoDup (List.concat (map declares l)) -> live s r -> (forall v, v ∈ List.concat (map declares l) -> r !! v = None) ->
  emit_body n (block_body i m (mkBlock sp a l b)) s = Done u e -> eval_stmts l r = Some o ->
  exists ws, returns (match o with Ret v => v | Next _ => None end) ws /\ forall loc, holds s r loc -> exec (out e) (Run [] loc) = Some (Halt ws).
Proof.
  intros Hs Hd Hl Hn Er Ho. unfold emit_body, emitBody in Er. cbn [pbBridge pbAccessor pbClinit pbCtor pbLambda pbBody block_body maybe] in Er.
  apply emit_bind_inv in Er as (u1 & e1 & E1 & E2).
  destruct (proj1 (proj2 (bodies_ok n)) sp a l b Hs O (start s) u1 e1 ltac:(cbn; lia) eq_refl eq_refl Hd E1) as (c & W & X).
  assert (He : eval_block l r = Some (finish r o)) by (unfold eval_block; by rewrite Ho). specialize (X r _ Hl Hn He).
  pose proof (went_out _ _ _ _ _ W) as O1. cbn [out start app] in O1. unfold return_if_alive in E2. apply emit_bind_inv in E2 as (al & e2 & [= <- <-] & E2).
  destruct o as [r1|v]; cbn [finish] in X.
  - destruct X as (Ha & _ & _ & X). rewrite Ha in E2. cbn in E2. injection E2 as _ <-. exists []. split; [done|]. intros loc Hh. cbn [out].
    destruct (X [] loc Hh) as (loc' & E3 & _). by rewrite O1, exec_app, E3.
  - destruct X as (ws & Hws & X). exists ws. split; [done|]. intros loc Hh. specialize (X [] loc Hh). rewrite app_nil_r in X.
    destruct (alive e1); cbn in E2; injection E2 as _ <-; cbn [out]; rewrite O1; [|exact X]. by rewrite exec_app, X.
Qed.

Lemma body_emitted n i m sp a l b s r scope :
  forallb simple_stmt l = true -> checked_stmts scope l = true -> (S (List.list_max (map stmt_height l)) <= n)%nat ->
  live s r -> (forall v, v ∈ scope -> is_Some (r !! v)) -> exists e, emit_body n (block_body i m (mkBlock sp a l b)) s = Done tt e.
Proof.
  intros Hs Hc Hn [L1 _] Hk. assert (K : knows scope (start s)).
  { split; [|done]. apply Forall_forall. intros v Hv. destruct (L1 v (Hk v Hv)) as (s0 & Hs0 & _). cbn. rewrite Hs0. eauto. }
  destruct (proj1 (proj2 (goes_emits n)) scope sp a l b Hs Hc Hn (start s) K) as ([] & e1 & E1 & _).
  unfold emit_body, emitBody. cbn [pbBridge pbAccessor pbClinit pbCtor pbLambda pbBody block_body maybe]. unfold mbind, Emit_bind. rewrite E1.
  unfold return_if_alive, Alive, get, mbind, Emit_bind. destruct (alive e1); eexists; reflexivity.
Qed.


(** C21: a condition compiles to a branch: run from where the locals have their
    values, the calls go to the label exactly when it evaluates to [when], and
    else past their end, with its effects done, those of the operands that
    short-circuiting skips not among them, and the stack as it was. *)
Theorem conditions_branch n x target when e u e' r b r' :
  simple x = true -> kind_at x = KindBoolean -> (target < nlabels e)%nat -> alive e = true ->
  cond (H2 := emits n) x target when e = Done u e' -> eval x r = Some (VBool b, r') -> live (slots e) r ->
  exists c, out e' = out e ++ c /\ forall stk loc, holds (slots e) r loc -> exists loc',
    exec c (Run stk loc) = Some (if Bool.eqb b when then Jump target stk loc' else Run stk loc') /\ holds (slots e') r' loc'.
Proof.
  intros Hx Hk Ht Ha Ec Ev Hl. destruct (cond_all (E := emits n) (emits_ok n) x Hx Hk target when (nlabels e) e ltac:(lia) Ht Ha u e' Ec)
    as (c & R & _ & X). exists c. split; [apply R|]. rewrite (ran_slots _ _ _ _ R). apply (X _ _ _ Ev Hl).
Qed.
End Bodies.
