(* ===== verification/LowerCases.v ===== *)
(** * The lowering at work

    Methods of one [int] parameter, and what the theorems say of them. *)
From S2P Require Import Prelude.
From S2P Require Import Token SourceFile Ast AstWalk Types Fold Sym Emitter LowerExpr LowerStmt LowerKeeps LowerBody LowerSem LowerExprOk LowerTotal LowerStmtOk.
From S2P Require FoldProof CodeWriter CodeProof Op Desc PoolBuilder MethodLoop Builder Format ClassIO.

Definition ident (lo hi : Z) : Ident := mkIdent (At lo hi) 0 false.

(** Variable 1 is [n], an [int]; a literal is its text's length. *)
Definition demo_const (x : Expr) : option Constant :=
  match x with BasicLit sp _ => Some (constant Int_ (VInt (Hi sp - Lo sp))) | _ => None end.

#[local] Instance demo_program : Program := {|
  Use n := match n with AIdent _ => Some (UVar 1) | _ => None end;
  TypeAt n := match n with AExpr (BinaryExpr _ _ _ _ _ _) => Boolean_ | _ => Int_ end;
  ConstAt := demo_const; UnreachableAt _ := false;
  varSym _ := mkVarSym (bs "n") 0 0 VarParam None;
  methodSym _ := mkMethodSym (bs "f") FlagStatic (Some 0) (bs "(I)I") [1] [] None;
  classSym _ := mkClassSym (bs "A") 0 None [] [] None None [] [];
  FieldType _ := Int_; MethodTypeOf _ := mkMethodType [] [Int_] Int_ [];
  ObjectType := TError []; source := None; same_expr _ _ := false;
  type_table := FoldProof.strings; type_fuel := 10 |}.

#[local] Instance demo_site : Site := {|
  this_class := 0; this_method := Some 1; captures := []; thisField := []; accessors _ := None; lambdas := [] |}.

#[local] Instance demo_missing : Missing := undefined Op.Dup [].
#[local] Instance demo_missing_keeps : Missing_keeps.
Proof. apply undefined_keeps. vm_compute. split; congruence. Qed.

Definition n_ : Expr := EIdent (ident 3 4).
Definition zero : Expr := BasicLit (At 5 5) INT.
Definition positive : Expr := BinaryExpr (At 3 8) n_ GTR 5 6 zero.
Definition count_down : Stmt := ExprStmt (At 1 4) (PostfixExpr (At 1 4) n_ DEC 2).
Definition return_n : Stmt := ReturnStmt (At 9 12) 9 (Some n_).
Definition loop : Stmt := WhileStmt (At 0 9) 0 positive count_down.
Definition guarded : Stmt := TryStmt (At 0 9) 0 0 [] 0 0 (mkBlock (At 0 9) 0 [count_down] 9) [] 0 None.
Definition choose : Stmt := IfStmt (At 0 9) 0 positive count_down 0 None.

Definition demo_slots : slotMap := mkSlots {[1 := 0]} 1 1.
Definition demo_body (l : list Stmt) : pendingBody := block_body 0 (Some 1) (mkBlock (At 0 20) 0 (l ++ [return_n]) 20).

(** The method [static int f(int n)] of a class [A], not yet with its body. *)
Definition demo_builder : Builder.Builder := Builder.AddMethod Format.AccStatic (bs "f") (bs "(I)I") (Builder.NewBuilder (bs "A")).

Definition out_of {A} (o : outcome A) : list CodeWriter.cmd := match o with Done _ e => out e | _ => [] end.
Definition built (l : list Stmt) : option Builder.Builder :=
  Builder.Code 0 (out_of (emit_body 5 (demo_body l) demo_slots)) demo_builder.

(** [if (n > 0) n--; return n;] is built; with a loop or a [try], it is not. *)
Example if_built : Builder.berr <$> built [choose] = Some None.
Proof. vm_compute. reflexivity. Qed.
Example while_not_built : match Builder.berr <$> built [loop] with Some (Some _) => True | _ => False end.
Proof. vm_compute. exact I. Qed.
Example try_not_built : match Builder.berr <$> built [guarded] with Some (Some _) => True | _ => False end.
Proof. vm_compute. exact I. Qed.

(** ** Witnesses *)

Lemma lowered_bodies_close_witness :
  exists e, emit_body 5 (demo_body [choose]) demo_slots = Done tt e /\
    MethodLoop.closed_body (out e) /\ is_Some (Builder.Code_bound 3 0 (out e) demo_builder).
Proof.
  destruct (emit_body 5 (demo_body [choose]) demo_slots) as [[] e| |] eqn:Er; [|vm_compute in Er; discriminate Er..].
  exists e. split; [reflexivity|].
  refine (lowered_bodies_close Op.Dup [] 5 (demo_body [choose]) demo_slots tt e 3 0 demo_builder _ Er _); vm_compute; [split; congruence|auto].
Defined.

Lemma while_refused_witness :
  exists e bld, emit_body 5 (demo_body [loop]) demo_slots = Done tt e /\
    Builder.Code_bound 3 0 (out e) demo_builder = Some bld /\ Builder.berr bld <> None.
Proof.
  destruct (emit_body 5 (demo_body [loop]) demo_slots) as [[] e| |] eqn:Er; [|vm_compute in Er; discriminate Er..].
  destruct (Builder.Code_bound 3 0 (out e) demo_builder) as [bld|] eqn:Eb.
  - exists e, bld. split; [reflexivity|]. split; [exact Eb|].
    refine (while_refused 3 0 (Some 1) (At 0 20) 0 [] (At 0 9) 0 positive count_down [return_n] 20 demo_slots tt _ tt e 3 0 demo_builder bld
      eq_refl eq_refl eq_refl Er Eb).
  - exfalso. vm_compute in Er. injection Er as <-. vm_compute in Eb. discriminate Eb.
Defined.

Lemma try_refused_witness :
  exists e bld, emit_body 5 (demo_body [guarded]) demo_slots = Done tt e /\
    Builder.Code_bound 3 0 (out e) demo_builder = Some bld /\ Builder.berr bld <> None.
Proof.
  destruct (emit_body 5 (demo_body [guarded]) demo_slots) as [[] e| |] eqn:Er; [|vm_compute in Er; discriminate Er..].
  destruct (Builder.Code_bound 3 0 (out e) demo_builder) as [bld|] eqn:Eb.
  - exists e, bld. split; [reflexivity|]. split; [exact Eb|].
    refine (try_refused 3 0 (Some 1) (At 0 20) 0 [] (At 0 9) 0 0 0 0 (mkBlock (At 0 9) 0 [count_down] 9) [] 0 None [return_n] 20 demo_slots tt _
      tt _ tt _ tt e 3 0 demo_builder bld eq_refl eq_refl eq_refl eq_refl eq_refl eq_refl Er Eb).
  - exfalso. vm_compute in Er. injection Er as <-. vm_compute in Eb. discriminate Eb.
Defined.

(** [if (n > 0) n--; return n;] from a slot that holds 5. *)
Definition five : gmap var (option value) := {[1 := Some (VInt 5)]}.

Lemma five_live : live demo_slots five.
Proof.
  split.
  - intros v [w Hw]. unfold five in Hw. apply lookup_singleton_Some in Hw as [<- _]. exists 0. vm_compute. split; congruence.
  - intros v v' s s' Hn [w Hw] [w' Hw']. unfold five in Hw, Hw'. apply lookup_singleton_Some in Hw as [<- _]. apply lookup_singleton_Some in Hw' as [<- _]. done.
Qed.

Lemma five_held : holds demo_slots five {[0 := WInt 5]}.
Proof. intros v w Hw. unfold five in Hw. apply lookup_singleton_Some in Hw as [<- [= <-]]. split; [reflexivity|]. exists 0, (WInt 5). by vm_compute. Qed.


Lemma conditions_branch_witness :
  let e := mkEmitter [] 1 demo_slots (-1) true [] [] in
  exists u e' loc', cond (H2 := emits 3) positive 0 true e = Done u e' /\ exec (out e') (Run [] {[0 := WInt 5]}) = Some (Jump 0 [] loc').
Proof.
  intros e. destruct (cond (H2 := emits 3) positive 0 true e) as [u e'| |] eqn:Ec; [|vm_compute in Ec; discriminate Ec..].
  destruct (conditions_branch 3 positive 0 true e u e' five true five) as (c & Ho & Hx).
  - vm_compute. reflexivity.
  - reflexivity.
  - cbn. lia.
  - reflexivity.
  - exact Ec.
  - vm_compute. reflexivity.
  - exact five_live.
  - destruct (Hx [] {[0 := WInt 5]} five_held) as (loc' & Hr & _). exists u, e', loc'. split; [reflexivity|]. rewrite Ho. exact Hr.
Defined.
